(* ===== verification/_CoqProject ===== *)
-Q . S2P
Prelude.v
Bytes.v
Identity.v
Replacement.v
Catalog.v
Correlation.v
Wire.v
Transport.v
Descriptor.v
Channel.v
Codec.v
ControlProtocol.v
StatusProtocol.v
Order.v
SupervisorStatus.v
Clock.v
Listeners.v
Master.v
MasterFacts.v
MasterFrame.v
MasterEnd.v
MasterExit.v
MasterRuns.v
Http.v
Launcher.v
Net.v
Lexical.v
Routing.v
Pool.v
PoolFacts.v
PoolSystem.v
ProxyProtocol.v
Capsule.v
ForwardTarget.v
ForwardPolicy.v
ForwardDecision.v
Tunnel.v
CacheKey.v
CachePolicy.v
CacheStore.v
CacheFacts.v
Media.v
LiveHub.v
LiveFacts.v
Flv.v
FlvFacts.v
Recorder.v
RecorderFacts.v
