(* ===== verification/Prelude.v ===== *)
(** * OxiRoute: a verification of its supervision, caching, proxying and media core

    OxiRoute is a reverse and forward proxy and media server of one master
    process and worker processes.  The master owns the listening sockets.  To
    change the configuration it starts a candidate worker of a new generation,
    hands it the sockets over a Unix socket, quiesces the active worker,
    activates the candidate and retires the old worker, or rolls back.  A worker
    terminates HTTP: it selects a route, takes an endpoint from the route's pool
    or an answer from the shared cache, or, as a forward proxy, decides about a
    destination and opens a tunnel to it.  As a media server it fans a publisher's
    stream out to its viewers and records it in files that can be played back.
    This library translates these parts from the Rust crates under [crates/] and
    proves what makes them correct.

    ** Parts of the program and where they are modelled

    Supervision state ([crates/oxiroute-supervision/src]):
    - [Identity]: [bounded.rs], [identity.rs], bounded strings and vectors and the
      identifiers built from them.
    - [Replacement]: [lifecycle.rs], [replacement.rs], the machine of a
      replacement.  [ReplacementSupervisor] is its state, and
      [ReplacementSupervisor_apply] is [apply] with its fifteen events.
    - [Catalog]: [catalog.rs], the launch documents by role and the generation
      allocator.
    - [Correlation]: [correlation.rs], the table of outstanding requests.
    - [Wire]: [wire.rs], the bounded writer and reader the protocols share, with
      the two interfaces ([writes], [reads]) the protocols are proved against;
      [Codec] has their exact counterparts ([encodes], [decodes]).

    Between the processes ([crates/oxiroute-supervision-unix/src],
    [crates/oxiroute-supervisor-process/src] and
    [crates/oxiroute-supervisor-master/src]):
    - [Transport]: [transport.rs], frames over a seqpacket socket.
    - [Descriptor]: [descriptor.rs], manifests of descriptors and their take-once
      ownership, over a class of kernel calls.
    - [Channel]: [lib.rs] of the process crate, the handshake and authentication
      of a worker and the ownership of its process group, over a class of calls
      of the operating system; [Launcher]: [launcher.rs], its command line.
    - [ControlProtocol]: [protocol.rs], requests and acknowledgements.
    - [StatusProtocol], [SupervisorStatus]: [status.rs], the codec of status
      reports and the snapshot with its history.
    - [Listeners]: [config.rs] and [listeners.rs]; [Master]: [master.rs], whose
      state is the record [Master] and whose public operations are
      [launch_with_executor], [replace], [poll], [shutdown], [state] and
      [supervisor_snapshot], over a class of worker processes and the trait
      [ActionExecutor] as a class.
      [MasterFacts] specifies every method on the control state, [MasterFrame]
      says which worker plays which role, [MasterEnd] treats the end of a
      master, [MasterExit] reduces processes that report their exit once to ones
      that always do, and [MasterRuns] has the theorems on its runs.

    The shared HTTP cache ([crates/oxiroute-cache/src]):
    - [Clock], [Http], [Order]: [clock.rs], [http.rs] and what the code uses of
      the standard library's order and time and of the [http] crate.
    - [CacheKey]: [key.rs], which stored response answers which request.
    - [CachePolicy]: [policy.rs], what may be stored and how long it is fresh.
    - [CacheStore]: [cache.rs], the store with eviction and collapsed fills;
      [CacheFacts] proves its properties.

    Routes and endpoints ([crates/oxiroute-config/src],
    [crates/oxiroute-server/src]):
    - [Net]: the addresses of [std::net], their parser and their display.
    - [Lexical]: [lexical.rs], names, hosts and paths of a configuration.
    - [Routing]: the first part of [routing.rs], route selectors and the route
      table; it uses the path rules of [Lexical].
    - [Pool]: the rest of [routing.rs], endpoints with their health, ejection and
      capacity, the balancing algorithms, leases and the queue of waiting
      requests.  An [async] function that waits is cut at its [await]: [wait_start],
      [wait_poll], [wait_wake], [wait_timeout] and [wait_cancel] are
      [select_wait_with].  [PoolFacts] has the theorems on single operations, and
      [PoolSystem] those on all sequences of operations ([run_ops]).
    - [ProxyProtocol]: [proxy_protocol.rs], headers of the PROXY protocol.
    - [Capsule]: [capsule.rs], the relay of CONNECT-UDP.

    The forward proxy ([crates/oxiroute-forward-proxy/src]):
    - [ForwardTarget]: [target.rs]; [ForwardPolicy]: [policy.rs];
      [ForwardDecision]: [decision.rs], [headers.rs] and [auth.rs], which calls
      the two; [Tunnel]: [tunnel.rs], the relay of an HTTP/2 tunnel.

    The media server ([crates/oxiroute-rtmp/src]):
    - [Media]: the first part of [live.rs], media messages and how their bytes are
      classified; [LiveHub]: the rest of it, the hub ([LiveHubState]) with its
      publishers, the cache of a stream and the bounded queues of viewers;
      [LiveFacts]: the theorems on all sequences of its operations ([hub_run]).
    - [Flv]: [flv.rs], the muxer ([FlvMuxer]) over a class of outputs, with
      [recording_store/flv.rs], which reads the tail of a file to go on with it,
      and [parse_flv_events] of [vod.rs], which reads a file back; [FlvFacts]: its
      theorems.
    - [Recorder]: [recording_worker.rs], the worker that cuts a stream into
      segments ([WorkerContext], [process], [run_worker]), over a class of stores;
      it calls [Flv].  [RecorderFacts] has its theorems, and a store in memory.

    [Prelude] (this file) and [Bytes] hold what all share: results, the state and
    error monad with [let?] and [let!], machine integers as [Z] with their widths
    written out, lists, the tactics [res_inv], [bool_inv] and [split_step], and
    the hint databases.

    A method on [&mut self] that may fail is a function of type [M S E A]: it
    returns the state it leaves behind also when it fails, as Rust keeps what was
    written before a [?] returns.  A lock makes an operation one atomic step, so
    concurrency is any sequence of operations.  The pool has atomic fields
    instead of one lock; an operation of it between two [await]s is taken as one
    step.  A loop over [select!] is a step function on the events the block can
    return.  What is not part of the repository's sources is a parameter: the
    kernel's calls ([Transport], [Descriptor], [Channel]), the allocator
    ([Wire]), the [http] and [httpdate] crates ([Http], [ForwardTarget]), name
    resolution and authentication ([ForwardDecision], [Pool]), the encoding of
    stream metadata ([Media]), the clock (an argument).  The files of recordings
    and the threads that publish them, which are not modelled, are a class too
    ([WriteSeek], [RecorderFiles]).  What a theorem needs of them is a class of laws, with a concrete
    instance in the theorem's witness.

    ** What the theorems show

    - Replacement: the roles satisfy their invariant under every sequence of
      events, an event that fails changes nothing, a generation is committed only
      after the whole protocol and only if newer, every reachable state can be
      brought back to running in at most nine events, and [apply] accepts exactly
      what fifteen declarative rules allow.
    - Catalogue and correlation: generations and tokens are never reused, the top
      of [u64] included; failed requests are atomic; a token completes to exactly
      its request.
    - Transport, descriptors, channel and protocols: encoders and decoders are
      inverse and nothing else is accepted, frames are accepted only in sequence
      and only from the worker they claim to be from, a descriptor is only handed
      out verified and only once, a process group is never signalled after its
      leader was reaped.
    - Status: worker events are retained once and in order, no metric a snapshot
      reports ever decreases, and no counter of a listener does as long as the
      reports of workers name a listener once.
    - Master: in every state reached by any calls, those that returned errors of the
      operating system included, the workers match the supervisor's roles;
      a worker takes over only by accepting its activation; a call never panics
      and returns no error beyond those named, and a master that shuts down or
      fails ends once its workers have exited.
    - Cache: storage stays within its bounds and its accounting is exact in every
      interleaving, eviction follows the order of use, an answer never violates
      the request's or the response's directives, a purged fill is lost, waiters
      are released, and what was filled is found again.
    - Routes: an accepted path has one interpretation, and the table selects
      exactly the preferred route, in the order the comment on [select] gives,
      among those whose selectors accept the request.
    - Pools: a selection takes exactly the endpoint the algorithm prefers; the
      weighted rotation is fair; ejections and health transitions happen exactly
      when and as long as they should; the load of an endpoint is the number of
      its leases; and no request sleeps through a release of capacity.
    - Proxying: a PROXY header is read back as written, in whatever pieces it
      arrives, within a bounded number of reads; relays of capsules and of HTTP/2
      tunnels deliver both directions in order and within their limits, with
      counters that are exact but for a last write that was cut off; a forward
      proxy lets a request through only to addresses its rules admit (IPv4-mapped
      ones apart), and these are exactly those of one resolution.
    - Live streams: no call on the hub panics, its queues stay within their limits
      with exact counts, and what a viewer gets is made of beginnings of complete
      viewings: headers, a key frame, and everything since but disposable frames.
    - Recordings: what is projected for a message is what it adds to the file; a
      recording, resumed any number of times, parses back to what was recorded;
      and a worker that cuts a stream into segments loses no frame in between,
      both for streams whose codec headers come once and first.

    Some theorems state what the code does where it departs from what it
    documents or means: [stopping_candidate_fails_master] and
    [candidate_exit_after_deferred_exit] ([MasterRuns]), [catalog_stale_report]
    ([Catalog]), [dotted_address_is_name] ([ForwardTarget]),
    [mapped_address_evades_deny] and [mapped_public_address_passes]
    ([ForwardPolicy]), [expired_ejection_unnoticed] ([PoolSystem]),
    [route_order_undocumented] ([Routing]), [repeated_listener_lowers]
    ([SupervisorStatus]),
    [generated_keyframe_not_recorded] and [generated_header_fails_recorder]
    ([FlvFacts]), [hevc_lost_at_rotation], [header_lost_at_size_limit],
    [resumed_full_file_fails] and [enhanced_codecs_recorded] ([RecorderFacts]).

    ** Fuel

    Recursion is structural except where the sources loop on a condition.  There
    the bound is computed from the data and proved to suffice: the eviction loop
    takes one step for each entry ([evict] in [CacheStore]), binary search the
    length of the slice ([Order]), decimal printing the number itself ([Http]),
    UTF-8 validation the number of bytes ([Bytes]), reading a PROXY header one
    read for each of its at most [MAX_V2_HEADER_BYTES] bytes ([accept_loop],
    shown enough by [proxy_accept_terminates]), the reader of capsules one step
    for each byte ([reader_task], [capsule_reader_terminates]), and the reader of
    FLV tags one for each byte ([parse_flv_tags], [flv_reader_total]).  The master
    executes the supervisor's actions with fuel [FUEL] = 8: an action may fail,
    its compensation applies an event, and that event's actions are executed in
    turn, but never more than three levels deep; [master_call_errors] shows that
    no call on a reachable master uses the fuel up.

    ** Not modelled

    - Blocking I/O and the operating system: spawning and the reaper thread of
      worker processes, socket creation, the disk tier of the cache ([disk.rs]),
      TLS, and the HTTP, RTMP and QUIC servers themselves ([oxiroute-server] and
      [oxiroute-rtmp] outside the files above), which drive third-party packages.
      Of the tunnels, [relay] and [relay_h3] copy in tasks of tokio
      and of the h3 package.
    - The queue in front of a recording worker, its cancellation, the store of its
      files and their names; relays and the HLS and DASH segmenters.
    - Memory reordering between the atomics of a pool, and other interleavings
      inside one of its operations.
    - The schema of the configuration, its front ends and its importers
      ([oxiroute-config] outside [lexical.rs], [oxiroute-config-source],
      [oxiroute-import]) and the ACME client ([oxiroute-acme]).
    - Vendored third-party crates, the web interface, the website and the
      benchmarks.
    - Fields and statements under [#[cfg(test)]], which a release build does not
      have, and the flow label and scope of an IPv6 socket address.
    - [Debug] and [Display] output, serde derives, event emission, read-only
      health snapshots of a pool and metrics export. *)
From stdpp Require Import base list.
From Stdlib Require Import ZArith Lia.

Open Scope Z_scope.

Declare Scope oxi_scope.
Delimit Scope oxi_scope with oxi.
Open Scope oxi_scope.

Create HintDb oxi discriminated.
Create Rewrite HintDb oxi.

(** ** Results: Rust's [Result<A, E>] *)

Inductive result (A E : Type) : Type :=
| Ok (a : A)
| Err (e : E).
Arguments Ok {A E} a.
Arguments Err {A E} e.

Section Results.
Context {A B E F : Type}.

(** The [?] operator inside a function that returns the same error type. *)
Definition result_bind (r : result A E) (k : A -> result B E) : result B E :=
  match r with Ok a => k a | Err e => Err e end.

Definition map_err (f : E -> F) (r : result A E) : result A F :=
  match r with Ok a => Ok a | Err e => Err (f e) end.

Definition result_map (f : A -> B) (r : result A E) : result B E :=
  match r with Ok a => Ok (f a) | Err e => Err e end.

Definition ok_or (e : E) (o : option A) : result A E :=
  match o with Some a => Ok a | None => Err e end.

Definition is_ok (r : result A E) : bool :=
  match r with Ok _ => true | Err _ => false end.

Definition result_ok (r : result A E) : option A :=
  match r with Ok a => Some a | Err _ => None end.

Lemma result_bind_Ok (r : result A E) (k : A -> result B E) (b : B) :
  result_bind r k = Ok b <-> exists a, r = Ok a /\ k a = Ok b.
Proof. destruct r; simpl; naive_solver. Qed.

Lemma ok_or_Ok (e : E) (o : option A) (a : A) : ok_or e o = Ok a <-> o = Some a.
Proof. destruct o; simpl; naive_solver. Qed.

Lemma map_err_Ok (f : E -> F) (r : result A E) (a : A) : map_err f r = Ok a <-> r = Ok a.
Proof. destruct r; simpl; naive_solver. Qed.
End Results.

Notation "'let?' x ':=' r 'in' k" := (result_bind r (fun x => k))
  (at level 10, x binder, r at level 100, k at level 200) : oxi_scope.

(** [Option::transpose] on an optional fallible value. *)
Definition transpose {A E} (o : option (result A E)) : result (option A) E :=
  match o with
  | None => Ok None
  | Some (Ok a) => Ok (Some a)
  | Some (Err e) => Err e
  end.

(** ** Methods on [&mut self]

    A method that mutates [self] and may fail is a state transformer that
    returns the state it leaves behind also when it fails: Rust keeps every
    field written before the [?] that returns early. *)

Definition M (S E A : Type) : Type := S -> result A E * S.

Section StateErrors.
Context {S E A B : Type}.

Definition mret (a : A) : M S E A := fun s => (Ok a, s).
Definition mfail (e : E) : M S E A := fun s => (Err e, s).
Definition mlift (r : result A E) : M S E A := fun s => (r, s).
Definition mread (f : S -> A) : M S E A := fun s => (Ok (f s), s).
Definition mtry (f : S -> result A E) : M S E A := fun s => (f s, s).
Definition mwrite (f : S -> S) : M S E unit := fun s => (Ok tt, f s).

Definition mbind_se (c : M S E A) (k : A -> M S E B) : M S E B :=
  fun s =>
    match c s with
    | (Ok a, s') => k a s'
    | (Err e, s') => (Err e, s')
    end.

(** Inversion of a successful sequence of two calls. *)
Lemma mbind_se_Ok (c : M S E A) (k : A -> M S E B) s b s' :
  mbind_se c k s = (Ok b, s') <->
  exists a s1, c s = (Ok a, s1) /\ k a s1 = (Ok b, s').
Proof. unfold mbind_se. destruct (c s) as [[a|e] s1]; naive_solver. Qed.

(** A sequence fails where its first call does, or after it. *)
Lemma mbind_se_Err (c : M S E A) (k : A -> M S E B) s e s' :
  mbind_se c k s = (Err e, s') <->
  c s = (Err e, s') \/ exists a s1, c s = (Ok a, s1) /\ k a s1 = (Err e, s').
Proof. unfold mbind_se. destruct (c s) as [[a|e'] s1]; naive_solver. Qed.

Lemma mtry_Ok (f : S -> result A E) s a s' : mtry f s = (Ok a, s') <-> f s = Ok a /\ s' = s.
Proof. unfold mtry. split; [by intros [= -> ->]|by intros [-> ->]]. Qed.

Lemma mlift_Ok (x : result A E) s a s' : mlift x s = (Ok a, s') <-> x = Ok a /\ s' = s.
Proof. unfold mlift. split; [by intros [= -> ->]|by intros [-> ->]]. Qed.

Lemma mtry_Err (f : S -> result A E) s e s' : mtry f s = (Err e, s') <-> f s = Err e /\ s' = s.
Proof. unfold mtry. split; [by intros [= -> ->]|by intros [-> ->]]. Qed.

Lemma mlift_Err (x : result A E) s e s' : mlift x s = (Err e, s') <-> x = Err e /\ s' = s.
Proof. unfold mlift. split; [by intros [= -> ->]|by intros [-> ->]]. Qed.
End StateErrors.

Notation "'let!' x ':=' c 'in' k" := (mbind_se c (fun x => k))
  (at level 10, x binder, c at level 100, k at level 200) : oxi_scope.

(** ** Machine integers

    Rust's fixed-width unsigned integers are [Z] with their bounds and their
    checked, saturating and wrapping operations written out; [usize] is 64
    bits wide, as on the targets the workspace builds for. *)

Definition u8_max : Z := 2 ^ 8 - 1.
Definition u16_max : Z := 2 ^ 16 - 1.
Definition u32_max : Z := 2 ^ 32 - 1.
Definition u64_max : Z := 2 ^ 64 - 1.
Definition usize_max : Z := u64_max.

Definition checked_add (max a b : Z) : option Z :=
  if a + b <=? max then Some (a + b) else None.
Definition checked_mul (max a b : Z) : option Z :=
  if a * b <=? max then Some (a * b) else None.
Definition saturating_add (max a b : Z) : Z := Z.min max (a + b).
Definition saturating_sub (a b : Z) : Z := Z.max 0 (a - b).
Definition wrapping_sub (max a b : Z) : Z := (a - b) mod (max + 1).

(** [T::try_from] to an unsigned type of maximum [max]. *)
Definition try_from_uint {E} (max : Z) (e : E) (a : Z) : result Z E :=
  if (0 <=? a) && (a <=? max) then Ok a else Err e.

Lemma checked_add_Some max a b c :
  checked_add max a b = Some c <-> c = a + b /\ a + b <= max.
Proof. unfold checked_add. destruct (Z.leb_spec (a + b) max); naive_solver lia. Qed.

Lemma checked_add_None max a b : checked_add max a b = None <-> max < a + b.
Proof. unfold checked_add. destruct (Z.leb_spec (a + b) max); naive_solver lia. Qed.

(** ** Lengths *)

Definition len {A} (l : list A) : Z := Z.of_nat (length l).

Section Lengths.
Context {A : Type}.
Implicit Types l : list A.

Lemma len_nonneg l : 0 <= len l.
Proof. unfold len; lia. Qed.
Lemma len_nil : len (@nil A) = 0.
Proof. reflexivity. Qed.
Lemma len_cons x l : len (x :: l) = 1 + len l.
Proof. unfold len; simpl; lia. Qed.
Lemma len_app l1 l2 : len (l1 ++ l2) = len l1 + len l2.
Proof. unfold len; rewrite length_app; lia. Qed.
Lemma len_zero l : len l = 0 <-> l = [].
Proof. destruct l; unfold len; simpl; naive_solver lia. Qed.
End Lengths.

#[export] Hint Rewrite @len_nil @len_cons @len_app : oxi.
#[export] Hint Resolve len_nonneg : oxi.

(** Dropping and reordering elements keeps the remaining images distinct. *)
Lemma NoDup_map_submseteq {A B} (f : A -> B) (l k : list A) :
  l ⊆+ k -> NoDup (map f k) -> NoDup (map f l).
Proof.
  intros [l' ->]%submseteq_Permutation. rewrite map_app, NoDup_app. naive_solver.
Qed.

(** [Iterator::all] *)
Lemma forallb_Forall {A} (f : A -> bool) (l : list A) :
  forallb f l = true <-> Forall (fun x => f x = true) l.
Proof.
  induction l as [|x l IH]; simpl; [by split|]. rewrite andb_true_iff, IH, Forall_cons. done.
Qed.

(** What holds for every number below [n] is checked one by one. *)
Lemma below (n : nat) (P : Z -> Prop) :
  Forall P (Z.of_nat <$> seq 0 n) -> forall d, 0 <= d < Z.of_nat n -> P d.
Proof.
  rewrite Forall_forall. intros H d Hd. apply H, list_elem_of_fmap. exists (Z.to_nat d).
  rewrite elem_of_seq. lia.
Qed.

(** Byte and element ranges, [&s[a..b]]: the callers check [a <= b <= len]. *)
Definition slice {A} (l : list A) (a b : Z) : list A :=
  take (Z.to_nat (b - a)) (drop (Z.to_nat a) l).

Section Slices.
Context {A : Type}.
Implicit Types l x : list A.

Lemma len_slice l a b : 0 <= a <= b -> b <= len l -> len (slice l a b) = b - a.
Proof. unfold slice, len. intros. rewrite length_take, length_drop. lia. Qed.

Lemma slice_split l a b c : 0 <= a <= b -> b <= c -> slice l a c = slice l a b ++ slice l b c.
Proof.
  unfold slice. intros. rewrite <- (take_drop (Z.to_nat (b - a)) (drop (Z.to_nat a) l)) at 1.
  rewrite drop_drop. replace (Z.to_nat a + Z.to_nat (b - a))%nat with (Z.to_nat b) by lia.
  rewrite take_app. rewrite take_take, length_take, length_drop.
  replace (Z.to_nat (c - a) `min` Z.to_nat (b - a))%nat with (Z.to_nat (b - a)) by lia.
  f_equal.
  destruct (decide (Z.to_nat (b - a) <= length l - Z.to_nat a)%nat).
  - f_equal. lia.
  - rewrite (drop_ge l (Z.to_nat b)) by lia. by rewrite !take_nil.
Qed.

Lemma slice_skip x l a b : len x <= a -> slice (x ++ l) a b = slice l (a - len x) (b - len x).
Proof.
  unfold slice, len. intros. rewrite drop_app_ge by lia. f_equal; [lia|]. f_equal. lia.
Qed.

Lemma take_len_app x l : take (Z.to_nat (len x)) (x ++ l) = x.
Proof. unfold len. by rewrite Nat2Z.id, take_app_length. Qed.

Lemma drop_len_app x l : drop (Z.to_nat (len x)) (x ++ l) = l.
Proof. unfold len. by rewrite Nat2Z.id, drop_app_length. Qed.

Lemma slice_head x l : slice (x ++ l) 0 (len x) = x.
Proof. unfold slice, len. rewrite Z.sub_0_r, Nat2Z.id. simpl. by rewrite drop_0, take_app_length. Qed.

Lemma slice_all l : slice l 0 (len l) = l.
Proof. unfold slice, len. rewrite Z.sub_0_r, Nat2Z.id. simpl. rewrite drop_0. by apply take_ge. Qed.
End Slices.

(** ** Proof automation *)

(** Normalises what a successful call says: splits [let?]/[let!] chains, the
    options they came from and the tests that guard them. *)
Ltac res_inv :=
  repeat match goal with
  | H : Ok _ = Ok _ |- _ => injection H as H; subst
  | H : Err _ = Err _ |- _ => injection H as H; subst
  | H : Ok _ = Err _ |- _ => discriminate H
  | H : Err _ = Ok _ |- _ => discriminate H
  | H : (_, _) = (_, _) |- _ => injection H as H; subst
  | H : result_bind _ _ = Ok _ |- _ =>
      apply result_bind_Ok in H; destruct H as (? & ? & H)
  | H : mbind_se _ _ _ = (Ok _, _) |- _ =>
      apply mbind_se_Ok in H; destruct H as (? & ? & ? & H)
  | H : mtry _ _ = (Ok _, _) |- _ => apply mtry_Ok in H; destruct H as [H ?]; subst
  | H : mlift _ _ = (Ok _, _) |- _ => apply mlift_Ok in H; destruct H as [H ?]; subst
  | H : mret _ _ = (Ok _, _) |- _ => injection H as ??; subst
  | H : mread _ _ = (Ok _, _) |- _ => injection H as ??; subst
  | H : mwrite _ _ = (Ok _, _) |- _ => injection H as ??; subst
  | H : mfail _ _ = (Ok _, _) |- _ => discriminate H
  | H : ok_or _ _ = Ok _ |- _ => apply ok_or_Ok in H
  | H : map_err _ _ = Ok _ |- _ => apply map_err_Ok in H
  | H : checked_add _ _ _ = Some _ |- _ => apply checked_add_Some in H; destruct H as [-> H]
  end.

(** Turns the boolean tests of the code into the propositions they decide. *)
Ltac bool_inv :=
  repeat match goal with
  | H : _ && _ = true |- _ => apply andb_true_iff in H; destruct H
  | H : _ || _ = false |- _ => apply orb_false_iff in H; destruct H
  | H : negb _ = true |- _ => apply negb_true_iff in H
  | H : negb _ = false |- _ => apply negb_false_iff in H
  | H : bool_decide _ = true |- _ => apply bool_decide_eq_true in H
  | H : bool_decide _ = false |- _ => apply bool_decide_eq_false in H
  | H : (_ =? _) = true |- _ => apply Z.eqb_eq in H
  | H : (_ =? _) = false |- _ => apply Z.eqb_neq in H
  | H : (_ <=? _) = true |- _ => apply Z.leb_le in H
  | H : (_ <=? _) = false |- _ => apply Z.leb_gt in H
  | H : (_ <? _) = true |- _ => apply Z.ltb_lt in H
  | H : (_ <? _) = false |- _ => apply Z.ltb_ge in H
  end.

(** Cases on the scrutinee a hypothesis or the goal is stuck on. *)
Ltac split_step :=
  match goal with
  | H : context [match ?x with _ => _ end] |- _ => destruct x eqn:?
  | |- context [match ?x with _ => _ end] => destruct x eqn:?
  end.
