(* ===== verification/Bytes.v ===== *)
(** Bytes and text as the Rust code sees them: [u8] is the Standard Library's
    [byte], [&[u8]], [Vec<u8>], [Bytes] and [&str] are lists of bytes (a [&str]
    is a list that [utf8_valid] accepts).  Holds the big- and little-endian
    integer codecs of [to_be_bytes]/[from_be_bytes] and their little-endian
    twins, the [u8::is_ascii_*] predicates, the slice methods the sources use
    ([split], [starts_with], [strip_prefix], ...), and UTF-8 decoding. *)

From stdpp Require Import base list countable strings.
From Stdlib Require Import ZArith Lia Strings.Byte.
From Stdlib Require Strings.String.
From S2P Require Import Prelude.

Open Scope Z_scope.

Abbreviation bytes := (list byte).

(** ** Bytes as numbers *)

Definition b2z (b : byte) : Z := Z.of_N (Byte.to_N b).
Definition z2b (z : Z) : byte :=
  match Byte.of_N (Z.to_N (z mod 256)) with Some b => b | None => x00 end.

Lemma b2z_range b : 0 <= b2z b < 256.
Proof. unfold b2z. pose proof (Byte.to_N_bounded b). lia. Qed.

Lemma z2b_b2z b : z2b (b2z b) = b.
Proof.
  unfold z2b. rewrite Z.mod_small by apply b2z_range.
  unfold b2z. by rewrite N2Z.id, Byte.of_to_N.
Qed.

Lemma b2z_z2b z : b2z (z2b z) = z mod 256.
Proof.
  unfold z2b, b2z. pose proof (Z.mod_pos_bound z 256 ltac:(lia)).
  destruct (Byte.of_N _) eqn:E.
  - apply Byte.to_of_N in E. rewrite E. lia.
  - apply Byte.of_N_None_iff in E. lia.
Qed.

Lemma b2z_inj a b : b2z a = b2z b -> a = b.
Proof. intros H. by rewrite <- (z2b_b2z a), H, z2b_b2z. Qed.

#[export] Instance byte_eq_decision : EqDecision byte := Byte.byte_eq_dec.
#[export] Instance byte_countable : Countable byte :=
  inj_countable Byte.to_N Byte.of_N Byte.of_to_N.

(** A byte-string literal, [b"..."]. *)
Definition lit (s : string) : bytes := String.list_byte_of_string s.

Definition beqb (a b : bytes) : bool := bool_decide (a = b).

(** ** Integer codecs *)

Fixpoint le_bytes (n : nat) (z : Z) : bytes :=
  match n with
  | O => []
  | S n => z2b z :: le_bytes n (z / 256)
  end.

Fixpoint le_value (bs : bytes) : Z :=
  match bs with
  | [] => 0
  | b :: bs => b2z b + 256 * le_value bs
  end.

Definition be_bytes (n : nat) (z : Z) : bytes := rev (le_bytes n z).
Definition be_value (bs : bytes) : Z := le_value (rev bs).

Lemma length_le_bytes n z : length (le_bytes n z) = n.
Proof. revert z; induction n; intros; simpl; auto. Qed.

Lemma length_be_bytes n z : length (be_bytes n z) = n.
Proof. unfold be_bytes. by rewrite length_rev, length_le_bytes. Qed.

Lemma len_be_bytes n z : len (be_bytes n z) = Z.of_nat n.
Proof. unfold len. by rewrite length_be_bytes. Qed.

Lemma len_le_bytes n z : len (le_bytes n z) = Z.of_nat n.
Proof. unfold len. by rewrite length_le_bytes. Qed.

Lemma le_value_bytes n z : le_value (le_bytes n z) = z mod 256 ^ Z.of_nat n.
Proof.
  revert z; induction n as [|n IH]; intros z; [by rewrite Z.mod_1_r|].
  cbn [le_bytes le_value].
  rewrite IH, b2z_z2b, Nat2Z.inj_succ, Z.pow_succ_r by lia.
  by rewrite Z.rem_mul_r by (try apply Z.pow_pos_nonneg; lia).
Qed.

Lemma le_value_range bs : 0 <= le_value bs < 256 ^ len bs.
Proof.
  induction bs as [|b bs IH]; [by vm_compute|].
  rewrite len_cons, Z.pow_add_r by (pose proof (len_nonneg bs); lia).
  cbn [le_value]. pose proof (b2z_range b). lia.
Qed.

Lemma le_bytes_value bs : le_bytes (length bs) (le_value bs) = bs.
Proof.
  induction bs as [|b bs IH]; [done|]. cbn [length le_value le_bytes].
  pose proof (b2z_range b).
  rewrite (Z.mul_comm 256), Z.div_add, Z.div_small, Z.add_0_l, IH by lia. f_equal.
  apply b2z_inj. rewrite b2z_z2b, Z.mod_add by lia. by rewrite Z.mod_small.
Qed.

Lemma le_roundtrip n z : 0 <= z < 256 ^ Z.of_nat n -> le_value (le_bytes n z) = z.
Proof. intros. by rewrite le_value_bytes, Z.mod_small. Qed.

Lemma be_roundtrip n z : 0 <= z < 256 ^ Z.of_nat n -> be_value (be_bytes n z) = z.
Proof. intros. unfold be_value, be_bytes. by rewrite rev_involutive, le_roundtrip. Qed.

Lemma be_bytes_value bs : be_bytes (length bs) (be_value bs) = bs.
Proof.
  unfold be_value, be_bytes. rewrite <- (length_rev bs), le_bytes_value.
  apply rev_involutive.
Qed.

Lemma be_value_range bs : 0 <= be_value bs < 256 ^ len bs.
Proof.
  unfold be_value. pose proof (le_value_range (rev bs)) as H.
  unfold len in *. by rewrite length_rev in H.
Qed.

#[export] Hint Rewrite length_be_bytes length_le_bytes len_be_bytes len_le_bytes : oxi.

(** ** ASCII classes: [u8::is_ascii_digit] and friends *)

Definition in_range (lo hi z : Z) : bool := (lo <=? z) && (z <=? hi).

Definition is_ascii (b : byte) : bool := b2z b <? 128.
Definition is_ascii_digit (b : byte) : bool := in_range 48 57 (b2z b).
Definition is_ascii_uppercase (b : byte) : bool := in_range 65 90 (b2z b).
Definition is_ascii_lowercase (b : byte) : bool := in_range 97 122 (b2z b).
Definition is_ascii_alphabetic (b : byte) : bool :=
  is_ascii_uppercase b || is_ascii_lowercase b.
Definition is_ascii_alphanumeric (b : byte) : bool :=
  is_ascii_alphabetic b || is_ascii_digit b.
Definition is_ascii_graphic (b : byte) : bool := in_range 33 126 (b2z b).
Definition is_ascii_control (b : byte) : bool := (b2z b <? 32) || (b2z b =? 127).

Definition to_ascii_lowercase_byte (b : byte) : byte :=
  if is_ascii_uppercase b then z2b (b2z b + 32) else b.
Definition to_ascii_lowercase (s : bytes) : bytes := to_ascii_lowercase_byte <$> s.
Definition eq_ignore_ascii_case (a b : bytes) : bool :=
  beqb (to_ascii_lowercase a) (to_ascii_lowercase b).

(** ** Slice and string methods *)

Definition contains_byte (c : byte) (s : bytes) : bool := existsb (Byte.eqb c) s.

Fixpoint starts_with (s prefix : bytes) {struct prefix} : bool :=
  match prefix, s with
  | [], _ => true
  | p :: prefix, b :: s => Byte.eqb p b && starts_with s prefix
  | _ :: _, [] => false
  end.

Definition ends_with (s suffix : bytes) : bool := starts_with (rev s) (rev suffix).

Definition strip_prefix (prefix s : bytes) : option bytes :=
  if starts_with s prefix then Some (drop (length prefix) s) else None.
Definition strip_suffix (suffix s : bytes) : option bytes :=
  if ends_with s suffix then Some (take (length s - length suffix) s) else None.

(** [s.split(c)]: always at least one piece. *)
Fixpoint split (c : byte) (s : bytes) : list bytes :=
  match s with
  | [] => [[]]
  | b :: s =>
      if Byte.eqb b c then [] :: split c s
      else match split c s with
           | piece :: rest => (b :: piece) :: rest
           | [] => [[b]]
           end
  end.

(** [s.split_once(c)] and [s.rsplit_once(c)]. *)
Fixpoint split_once (c : byte) (s : bytes) : option (bytes * bytes) :=
  match s with
  | [] => None
  | b :: s =>
      if Byte.eqb b c then Some ([], s)
      else match split_once c s with
           | Some (l, r) => Some (b :: l, r)
           | None => None
           end
  end.

Definition rsplit_once (c : byte) (s : bytes) : option (bytes * bytes) :=
  match split_once c (rev s) with
  | Some (l, r) => Some (rev r, rev l)
  | None => None
  end.

(** ** UTF-8: [std::str::from_utf8] and [str::char_indices] *)

Definition is_continuation (b : byte) : bool := in_range 128 191 (b2z b).

(** The range the second byte of a multi-byte sequence may take after [lead],
    and the number of bytes in the sequence (Unicode table 3-7). *)
Definition utf8_lead (lead : byte) : option (nat * Z * Z) :=
  let b := b2z lead in
  if in_range 194 223 b then Some (2%nat, 128, 191)
  else if b =? 224 then Some (3%nat, 160, 191)
  else if in_range 225 236 b then Some (3%nat, 128, 191)
  else if b =? 237 then Some (3%nat, 128, 159)
  else if in_range 238 239 b then Some (3%nat, 128, 191)
  else if b =? 240 then Some (4%nat, 144, 191)
  else if in_range 241 243 b then Some (4%nat, 128, 191)
  else if b =? 244 then Some (4%nat, 128, 143)
  else None.

(** One scalar value with the number of bytes it takes. *)
Definition utf8_next (s : bytes) : option (Z * nat) :=
  match s with
  | [] => None
  | b0 :: rest =>
      if is_ascii b0 then Some (b2z b0, 1%nat)
      else
        match utf8_lead b0, rest with
        | Some (2%nat, lo, hi), b1 :: _ =>
            if in_range lo hi (b2z b1)
            then Some ((b2z b0 - 192) * 64 + (b2z b1 - 128), 2%nat) else None
        | Some (3%nat, lo, hi), b1 :: b2 :: _ =>
            if in_range lo hi (b2z b1) && is_continuation b2
            then Some ((b2z b0 - 224) * 4096 + (b2z b1 - 128) * 64 + (b2z b2 - 128), 3%nat)
            else None
        | Some (4%nat, lo, hi), b1 :: b2 :: b3 :: _ =>
            if in_range lo hi (b2z b1) && is_continuation b2 && is_continuation b3
            then Some ((b2z b0 - 240) * 262144 + (b2z b1 - 128) * 4096
                       + (b2z b2 - 128) * 64 + (b2z b3 - 128), 4%nat)
            else None
        | _, _ => None
        end
  end.

Fixpoint utf8_walk (fuel : nat) (index : Z) (s : bytes) : option (list (Z * Z)) :=
  match s, fuel with
  | [], _ => Some []
  | _, O => None
  | _, S fuel =>
      match utf8_next s with
      | Some (c, n) =>
          match utf8_walk fuel (index + Z.of_nat n) (drop n s) with
          | Some rest => Some ((index, c) :: rest)
          | None => None
          end
      | None => None
      end
  end.

(** The [(byte index, scalar value)] pairs of a valid string; every scalar takes
    at least one byte, so the length of the input is enough fuel. *)
Definition char_indices (s : bytes) : option (list (Z * Z)) := utf8_walk (length s) 0 s.
Definition utf8_valid (s : bytes) : bool := bool_decide (is_Some (char_indices s)).

Lemma utf8_walk_ascii fuel index s :
  forallb is_ascii s = true -> (length s <= fuel)%nat ->
  utf8_walk fuel index s =
  Some (imap (fun i b => (index + Z.of_nat i, b2z b)) s).
Proof.
  revert fuel index; induction s as [|b s IH]; intros [|fuel] index Ha Hf;
    simpl in *; try done; try lia.
  apply andb_true_iff in Ha as [Hb Hs]. unfold utf8_next. rewrite Hb.
  simpl. rewrite drop_0, IH by (auto with lia). f_equal. f_equal; [f_equal; lia|].
  apply imap_ext; intros; simpl. f_equal. lia.
Qed.

(** Pure ASCII text is valid UTF-8, one character per byte. *)
Lemma char_indices_ascii s :
  forallb is_ascii s = true ->
  char_indices s = Some (imap (fun i b => (Z.of_nat i, b2z b)) s).
Proof. intros H. unfold char_indices. by rewrite utf8_walk_ascii by auto. Qed.

Lemma utf8_valid_ascii s : forallb is_ascii s = true -> utf8_valid s = true.
Proof.
  intros H. unfold utf8_valid. apply bool_decide_eq_true.
  rewrite (char_indices_ascii _ H). eauto.
Qed.

(** ** Facts on the string methods *)

Lemma byte_eqb_spec a b : Byte.eqb a b = bool_decide (a = b).
Proof.
  destruct (Byte.eqb a b) eqn:E; symmetry.
  - apply bool_decide_eq_true. by apply Byte.byte_dec_bl.
  - apply bool_decide_eq_false. by apply Byte.eqb_false.
Qed.

Lemma byte_eqb_true a b : Byte.eqb a b = true <-> a = b.
Proof. rewrite byte_eqb_spec. apply bool_decide_eq_true. Qed.

Lemma starts_with_spec s prefix : starts_with s prefix = true <-> exists t, s = prefix ++ t.
Proof.
  revert s; induction prefix as [|p prefix IH]; intros s; simpl.
  - split; [intros _; by exists s|intros _; done].
  - destruct s as [|b s]; [split; [done|by intros [t ?]]|].
    rewrite andb_true_iff, byte_eqb_true, IH. naive_solver.
Qed.

Lemma ends_with_spec s suffix : ends_with s suffix = true <-> exists t, s = t ++ suffix.
Proof.
  unfold ends_with. rewrite starts_with_spec. split; intros [t Ht].
  - exists (rev t). rewrite <- (rev_involutive s), Ht, rev_app_distr. by rewrite rev_involutive.
  - exists (rev t). by rewrite Ht, rev_app_distr.
Qed.

Lemma strip_suffix_Some suffix s t : strip_suffix suffix s = Some t <-> s = t ++ suffix.
Proof.
  unfold strip_suffix. destruct (ends_with s suffix) eqn:E.
  - apply ends_with_spec in E as [u ->]. rewrite length_app.
    replace (length u + length suffix - length suffix)%nat with (length u) by lia.
    rewrite take_app_length. split; [by intros [= ->]|].
    intros H. apply app_inv_tail in H. by subst.
  - split; [done|]. intros ->.
    assert (ends_with (t ++ suffix) suffix = true) by (apply ends_with_spec; eauto). congruence.
Qed.

Lemma contains_byte_true c s : contains_byte c s = true <-> c ∈ s.
Proof.
  unfold contains_byte. rewrite existsb_exists. setoid_rewrite byte_eqb_true.
  rewrite list_elem_of_In. naive_solver.
Qed.

Lemma lowercase_idempotent s : to_ascii_lowercase (to_ascii_lowercase s) = to_ascii_lowercase s.
Proof.
  unfold to_ascii_lowercase. rewrite <- list_fmap_compose. apply list_fmap_ext. intros i b _. by destruct b.
Qed.
