(* ===== verification/Identity.v ===== *)
(** Bounded containers and validated identifiers of the supervision crate:
    [crates/oxiroute-supervision/src/bounded.rs] and [identity.rs].  The bound
    [MAX] of the Rust const generics is an argument.  Shows that every way of
    building a bounded value (constructor, conversion, [push], deserialisation)
    stays within its bound, that the bounded sequence visitor accepts exactly
    the sequences that fit, and that the two ways of building an identifier
    accept the same strings. *)

From stdpp Require Import base list.
From Stdlib Require Import ZArith Lia Strings.Byte.
From S2P Require Import Prelude Bytes.

Open Scope Z_scope.

(** ** Bounded strings and vectors *)

Inductive BoundError : Type :=
| StringTooLong (actual maximum : Z)
| VectorTooLong (actual maximum : Z).

#[export] Instance BoundError_eq_dec : EqDecision BoundError.
Proof. solve_decision. Defined.

Record BoundedString : Type := mkBoundedString { BoundedString_0 : bytes }.

#[export] Instance BoundedString_eq_dec : EqDecision BoundedString.
Proof. solve_decision. Defined.

Definition BoundedString_validate (MAX : Z) (value : bytes) : result unit BoundError :=
  if MAX <? len value then Err (StringTooLong (len value) MAX) else Ok tt.

Definition BoundedString_new (MAX : Z) (value : bytes) : result BoundedString BoundError :=
  let? _ := BoundedString_validate MAX value in
  Ok (mkBoundedString value).

(** [TryFrom<String>]. *)
Definition BoundedString_try_from (MAX : Z) (value : bytes) : result BoundedString BoundError :=
  let? _ := BoundedString_validate MAX value in
  Ok (mkBoundedString value).

(** The [Deserialize] visitor: [visit_str]/[visit_borrowed_str] copy, and
    [visit_string] takes the owned string; [custom] is the deserialiser's
    [Error::custom]. *)
Definition BoundedString_visit_str {E} (custom : BoundError -> E) (MAX : Z) (value : bytes) :
    result BoundedString E :=
  map_err custom (BoundedString_new MAX value).
Definition BoundedString_visit_string {E} (custom : BoundError -> E) (MAX : Z) (value : bytes) :
    result BoundedString E :=
  map_err custom (BoundedString_try_from MAX value).

Record BoundedVec (T : Type) : Type := mkBoundedVec { BoundedVec_0 : list T }.
Arguments mkBoundedVec {T} _.
Arguments BoundedVec_0 {T} _.

Section BoundedVecs.
Context {T : Type} (MAX : Z).

Definition BoundedVec_new : BoundedVec T := mkBoundedVec [].

Definition BoundedVec_validate_len (n : Z) : result unit BoundError :=
  if MAX <? n then Err (VectorTooLong n MAX) else Ok tt.

Definition BoundedVec_from_slice (value : list T) : result (BoundedVec T) BoundError :=
  let? _ := BoundedVec_validate_len (len value) in
  Ok (mkBoundedVec value).

Definition BoundedVec_push (value : T) : M (BoundedVec T) BoundError unit :=
  fun self =>
    (let! _ := mlift (BoundedVec_validate_len
                        (saturating_add usize_max (len (BoundedVec_0 self)) 1)) in
     mwrite (fun self => mkBoundedVec (BoundedVec_0 self ++ [value]))) self.

(** [from_vec_within_bound]: the [debug_assert] is the caller's obligation. *)
Definition BoundedVec_from_vec_within_bound (value : list T) : BoundedVec T :=
  mkBoundedVec value.

Definition BoundedVec_try_from (value : list T) : result (BoundedVec T) BoundError :=
  let? _ := BoundedVec_validate_len (len value) in
  Ok (mkBoundedVec value).

Definition BoundedVec_wf (v : BoundedVec T) : Prop := len (BoundedVec_0 v) <= MAX.
End BoundedVecs.

(** Deserialisation from a serde [SeqAccess].  The access is third-party: it is
    the list of the items still to come, with [decode] and [ignore] reading one
    item as [T] and as [IgnoredAny], [size_hint] its advertised length and
    [custom] the error constructor. *)
Section VisitSeq.
Context {I T E : Type} (MAX : Z).
Context (decode : I -> result T E) (ignore : I -> result unit E).
Context (custom : BoundError -> E).

(** The [while values.len() < MAX] loop with the check that follows it; every
    turn consumes one item, so the recursion is on the items. *)
Fixpoint visit_seq_loop (values : list T) (items : list I) : result (BoundedVec T) E :=
  if len values <? MAX then
    match items with
    | [] => Ok (mkBoundedVec values)
    | i :: items =>
        let? value := decode i in
        visit_seq_loop (values ++ [value]) items
    end
  else
    match items with
    | [] => Ok (mkBoundedVec values)
    | i :: _ =>
        let? _ := ignore i in
        Err (custom (VectorTooLong (saturating_add usize_max MAX 1) MAX))
    end.

Definition BoundedVec_visit_seq (size_hint : option Z) (items : list I) :
    result (BoundedVec T) E :=
  let size_hint := default 0 size_hint in
  if MAX <? size_hint then Err (custom (VectorTooLong size_hint MAX))
  else visit_seq_loop [] items.

Lemma visit_seq_loop_Ok values items v :
  len values <= MAX ->
  visit_seq_loop values items = Ok v <->
  exists ts, BoundedVec_0 v = values ++ ts /\ len (values ++ ts) <= MAX /\
             Forall2 (fun i t => decode i = Ok t) items ts.
Proof.
  revert values; induction items as [|i items IH]; intros values Hle.
  - assert (visit_seq_loop values [] = Ok (mkBoundedVec values)) as ->
      by (simpl; by destruct (len values <? MAX)).
    split.
    + intros [= <-]. exists []. rewrite app_nil_r. auto using Forall2_nil.
    + intros (ts & Hv & _ & HF). inversion HF; subst. rewrite app_nil_r in Hv.
      destruct v; simpl in *; congruence.
  - cbn [visit_seq_loop]. destruct (Z.ltb_spec (len values) MAX) as [Hlt|Hge].
    + split.
      * intros H. res_inv.
        apply IH in H as (ts & Hv & Hl & HF); [|rewrite len_app, len_cons, len_nil; lia].
        exists (x :: ts). rewrite <- (assoc app) in Hv, Hl. auto.
      * intros (ts & Hv & Hl & HF). inversion HF as [|? t ? ts' Ht HF']; subst.
        rewrite Ht. simpl. apply IH; [rewrite len_app, len_cons, len_nil; lia|].
        exists ts'. rewrite <- (assoc app). auto.
    + split.
      * intros H. destruct (ignore i); simpl in H; discriminate.
      * intros (ts & _ & Hl & HF). inversion HF; subst.
        rewrite len_app, len_cons in Hl. pose proof (len_nonneg l'). lia.
Qed.

(** The loop never looks past the item that overflows the bound. *)
Lemma visit_seq_loop_prefix values items :
  len values <= MAX ->
  visit_seq_loop values (take (Z.to_nat (MAX + 1 - len values)) items) =
  visit_seq_loop values items.
Proof.
  revert values; induction items as [|i items IH]; intros values Hle; [by rewrite take_nil|].
  replace (Z.to_nat (MAX + 1 - len values)) with (S (Z.to_nat (MAX - len values))) by lia.
  cbn [take visit_seq_loop]. destruct (Z.ltb_spec (len values) MAX) as [Hlt|]; [|done].
  destruct (decode i) as [t|e]; simpl; [|done].
  rewrite <- (IH (values ++ [t])) by (rewrite len_app, len_cons, len_nil; lia).
  do 3 f_equal. rewrite len_app, len_cons, len_nil. lia.
Qed.
End VisitSeq.

(** ** Identifiers *)

Definition MAX_IDENTIFIER_BYTES : Z := 128.

Inductive IdentityError : Type :=
| IdentityEmpty
| InvalidCharacter (character index : Z)
| IdentityBound (e : BoundError).

(** [char::is_ascii_alphanumeric] or one of [-], [_], [.]. *)
Definition identifier_char (c : Z) : bool :=
  in_range 65 90 c || in_range 97 122 c || in_range 48 57 c
  || (c =? 45) || (c =? 95) || (c =? 46).

(** A [&str] is valid UTF-8, so [char_indices] always has a value in the code;
    on other bytes the model rejects. *)
Definition validate_identifier (value : bytes) : result unit IdentityError :=
  if bool_decide (value = []) then Err IdentityEmpty
  else
    match char_indices value with
    | None => Err (InvalidCharacter 65533 0)
    | Some chars =>
        match List.find (fun '(_, c) => negb (identifier_char c)) chars with
        | Some (index, character) => Err (InvalidCharacter character index)
        | None => Ok tt
        end
    end.

Record InstanceId : Type := mkInstanceId { InstanceId_0 : BoundedString }.

#[export] Instance InstanceId_eq_dec : EqDecision InstanceId.
Proof. solve_decision. Defined.

(** The [string_identity!] constructor of [InstanceId] (and of [ServiceId]). *)
Definition InstanceId_new (value : bytes) : result InstanceId IdentityError :=
  let? _ := validate_identifier value in
  let? s := map_err IdentityBound (BoundedString_new MAX_IDENTIFIER_BYTES value) in
  Ok (mkInstanceId s).

Definition InstanceId_as_str (i : InstanceId) : bytes := BoundedString_0 (InstanceId_0 i).

(** Its [Deserialize], from the text the deserialiser found. *)
Definition InstanceId_deserialize {E} (custom_bound : BoundError -> E)
    (custom : IdentityError -> E) (text : bytes) : result InstanceId E :=
  let? value := BoundedString_visit_str custom_bound MAX_IDENTIFIER_BYTES text in
  let? _ := map_err custom (validate_identifier (BoundedString_0 value)) in
  Ok (mkInstanceId value).

(** What an identifier promises to every holder of one. *)
Definition identifier_byte (b : byte) : Prop := identifier_char (b2z b) = true.

Definition identifier_wf (s : bytes) : Prop :=
  s <> [] /\ len s <= MAX_IDENTIFIER_BYTES /\ Forall identifier_byte s.

Lemma identifier_char_ascii c : identifier_char c = true -> 0 <= c < 128.
Proof.
  unfold identifier_char, in_range. intros H.
  repeat (apply orb_true_iff in H as [H|H]); bool_inv; lia.
Qed.

(** A scalar below 128 is always a single byte: overlong forms are rejected. *)
Lemma utf8_next_ascii_inv s c n :
  utf8_next s = Some (c, n) -> c < 128 ->
  exists b rest, s = b :: rest /\ c = b2z b /\ n = 1%nat.
Proof.
  destruct s as [|b0 rest]; [done|]. simpl. destruct (is_ascii b0) eqn:Ha; [naive_solver|].
  unfold utf8_lead. intros H Hc. exfalso.
  unfold is_ascii, is_continuation, in_range in *.
  repeat (case_match; simplify_eq); bool_inv; lia.
Qed.

Lemma utf8_walk_identifier fuel index s chars :
  utf8_walk fuel index s = Some chars ->
  Forall (fun p => identifier_char (snd p) = true) chars -> Forall identifier_byte s.
Proof.
  revert index s chars; induction fuel as [|fuel IH]; intros index [|b s] chars H HF;
    cbn [utf8_walk] in H; try (by constructor || done).
  destruct (utf8_next (b :: s)) as [[c n]|] eqn:En; [|done].
  destruct (utf8_walk fuel _ _) as [rest|] eqn:Ew; [|done]. simplify_eq.
  inversion HF as [|? ? Hc HF']; subst. simpl in Hc.
  apply utf8_next_ascii_inv in En as (b' & s' & [= <- <-] & -> & ->);
    [|apply identifier_char_ascii in Hc; lia].
  constructor; [exact Hc|]. eapply IH; [exact Ew|exact HF'].
Qed.

Lemma find_none_Forall {A} (f : A -> bool) l :
  List.find f l = None -> Forall (fun x => f x = false) l.
Proof. intros H. apply Forall_forall. intros x Hx. by apply (find_none f l H), list_elem_of_In. Qed.

(** The character check is a check of every byte. *)
Lemma validate_identifier_Ok value :
  validate_identifier value = Ok tt <-> value <> [] /\ Forall identifier_byte value.
Proof.
  unfold validate_identifier. case_bool_decide as Hn; [naive_solver|]. split.
  - destruct (char_indices value) as [chars|] eqn:Ec; [|done].
    destruct (List.find _ chars) as [[index c]|] eqn:Ef; [done|]. intros _. split; [done|].
    apply find_none_Forall in Ef. eapply utf8_walk_identifier; [exact Ec|].
    eapply Forall_impl; [exact Ef|]. intros [i c]; simpl. by intros H%negb_false_iff.
  - intros [_ HF].
    rewrite char_indices_ascii.
    + destruct (List.find _ _) as [[index c]|] eqn:Ef; [|done]. exfalso.
      apply find_some in Ef as [Hin Hneg].
      apply list_elem_of_In, elem_of_lookup_imap in Hin as (i & b & [= -> ->] & Hb).
      eapply Forall_lookup_1 in Hb; [|exact HF]. unfold identifier_byte in Hb.
      simpl in Hneg. rewrite Hb in Hneg. discriminate.
    + apply forallb_forall. intros b Hb%list_elem_of_In.
      eapply Forall_forall in HF; [|exact Hb]. unfold is_ascii.
      apply identifier_char_ascii in HF. apply Z.ltb_lt. lia.
Qed.

Lemma BoundedString_new_Ok MAX value s :
  BoundedString_new MAX value = Ok s <-> s = mkBoundedString value /\ len value <= MAX.
Proof.
  unfold BoundedString_new, BoundedString_validate.
  destruct (Z.ltb_spec MAX (len value)); simpl; naive_solver lia.
Qed.

Lemma InstanceId_new_Ok value i :
  InstanceId_new value = Ok i <-> InstanceId_as_str i = value /\ identifier_wf value.
Proof.
  unfold InstanceId_new, identifier_wf, InstanceId_as_str. split.
  - intros H. res_inv. destruct x. apply validate_identifier_Ok in H0 as [? ?].
    apply BoundedString_new_Ok in H1 as [-> ?]. auto.
  - intros (Hs & Hn & Hl & HF).
    assert (validate_identifier value = Ok tt) as -> by (apply validate_identifier_Ok; auto).
    destruct i as [[s]]; simpl in *; subst s.
    assert (BoundedString_new MAX_IDENTIFIER_BYTES value = Ok (mkBoundedString value)) as ->
      by (apply BoundedString_new_Ok; auto). done.
Qed.

Lemma InstanceId_deserialize_Ok {E} (cb : BoundError -> E) (ci : IdentityError -> E) text i :
  InstanceId_deserialize cb ci text = Ok i <-> InstanceId_as_str i = text /\ identifier_wf text.
Proof.
  unfold InstanceId_deserialize, BoundedString_visit_str, identifier_wf, InstanceId_as_str. split.
  - intros H. res_inv. apply BoundedString_new_Ok in H0 as [-> ?]. destruct x0.
    apply validate_identifier_Ok in H1 as [? ?]. simpl in *. auto.
  - intros (Hs & Hn & Hl & HF). destruct i as [[s]]; simpl in *; subst s.
    assert (BoundedString_new MAX_IDENTIFIER_BYTES text = Ok (mkBoundedString text)) as ->
      by (apply BoundedString_new_Ok; auto). simpl.
    assert (validate_identifier text = Ok tt) as -> by (apply validate_identifier_Ok; auto).
    done.
Qed.

(** The [numeric_identity!] types are transparent [u64] wrappers. *)
Abbreviation GenerationId := Z (only parsing).
Abbreviation RequestId := Z (only parsing).
Abbreviation Epoch := Z (only parsing).
Abbreviation Sequence := Z (only parsing).
Abbreviation Revision := Z (only parsing).

(** ** Properties *)

(** The constructor and the deserialiser of an identifier, which
    run their length and character checks in opposite orders, accept the same
    texts: the nonempty ones of at most 128 bytes whose every byte is an ASCII
    letter or digit or one of [-], [_], [.]; and the identifier holds that text. *)
Theorem identifier_constructors_agree {E} (cb : BoundError -> E) (ci : IdentityError -> E) text i :
  (InstanceId_new text = Ok i <-> InstanceId_as_str i = text /\ identifier_wf text) /\
  (InstanceId_deserialize cb ci text = Ok i <-> InstanceId_as_str i = text /\ identifier_wf text).
Proof. split; [apply InstanceId_new_Ok|apply InstanceId_deserialize_Ok]. Qed.

(** The bounded visitor accepts a sequence exactly when its
    advertised and its real length fit the bound and every item decodes; the
    vector it builds then holds those items in order. *)
Theorem visit_seq_accepts {I T E} MAX (decode : I -> result T E) ignore custom hint items v
    (HMAX : 0 <= MAX) :
  BoundedVec_visit_seq MAX decode ignore custom hint items = Ok v <->
  default 0 hint <= MAX /\ len items <= MAX /\
  Forall2 (fun i t => decode i = Ok t) items (BoundedVec_0 v).
Proof.
  unfold BoundedVec_visit_seq. destruct (Z.ltb_spec MAX (default 0 hint)); [naive_solver lia|].
  rewrite visit_seq_loop_Ok by (by rewrite len_nil). simpl. split.
  - intros (ts & -> & Hl & HF). apply Forall2_length in HF as Hlen. unfold len in *.
    rewrite Hlen. auto.
  - intros (_ & Hl & HF). exists (BoundedVec_0 v). apply Forall2_length in HF as Hlen.
    unfold len in *. rewrite <- Hlen. auto.
Qed.

Lemma visit_seq_accepts_witness :
  let decode b := if is_ascii_digit b then Ok (b2z b - 48) else Err tt in
  let items := [z2b 49; z2b 55] in
  0 <= 3 /\
  (BoundedVec_visit_seq 3 decode (fun _ => Ok tt) (fun _ => tt) (Some 2) items =
     Ok (mkBoundedVec [1; 7]) <->
   default 0 (Some 2) <= 3 /\ len items <= 3 /\ Forall2 (fun i t => decode i = Ok t) items [1; 7]).
Proof.
  split; [lia|]. refine (visit_seq_accepts 3 _ _ _ (Some 2) _ (mkBoundedVec [1; 7]) _). lia.
Defined.
