(* ===== verification/Replacement.v ===== *)
(** The replacement state machine of the supervisor:
    [crates/oxiroute-supervision/src/lifecycle.rs] and [replacement.rs].  One
    active instance serves while a candidate of a newer generation is adopted,
    activated and committed, or rolled back, and the instance it replaces is
    retired.  [ReplacementSupervisor_apply] is the whole of [apply], every event
    with its guards and its mutations in the order of the code, including the
    fields it writes before a later check can fail.

    Shows that the machine, from any supervisor it can create, keeps a role
    invariant under which no [unreachable!] of [phase] is reached and a failed
    event leaves the state untouched; that generations only grow and a
    generation is only committed after it was activated while the old one was
    quiesced; and that every replacement can be driven to completion or rolled
    back. *)

From stdpp Require Import base list relations.
From Stdlib Require Import ZArith Lia Strings.String.
From S2P Require Import Prelude Bytes Identity.

Open Scope Z_scope.

(** ** Lifecycle of one instance *)

Inductive Lifecycle : Type :=
| Spawned | Handshaking | Preparing | Ready | Activating | Active | Quiescing
| Reactivating | Draining | Snapshotting | Stopping | Stopped | Failed.

#[export] Instance Lifecycle_eq_dec : EqDecision Lifecycle.
Proof. solve_decision. Defined.

Definition Lifecycle_can_transition_to (self next : Lifecycle) : bool :=
  match self, next with
  | Spawned, Handshaking
  | Handshaking, Preparing
  | Preparing, Ready
  | Ready, Activating
  | (Activating | Reactivating), Active
  | Active, Quiescing
  | Quiescing, (Reactivating | Draining)
  | Draining, Snapshotting
  | (Snapshotting | Failed | Spawned | Handshaking | Preparing | Ready | Activating | Active
     | Quiescing | Reactivating), Stopping
  | Stopping, Stopped
  | (Spawned | Handshaking | Preparing | Ready | Activating | Active | Quiescing | Reactivating
     | Draining | Snapshotting | Stopping), Failed => true
  | _, _ => false
  end.

Record TransitionError : Type := mkTransitionError { from : Lifecycle; to : Lifecycle }.

Definition Lifecycle_transition (self next : Lifecycle) : result Lifecycle TransitionError :=
  if Lifecycle_can_transition_to self next then Ok next
  else Err {| from := self; to := next |}.

Definition Lifecycle_is_terminal (self : Lifecycle) : bool :=
  match self with Stopped => true | _ => false end.

(** ** Data of the supervisor *)

Record ServiceInstance : Type := mkInstance {
  instance_id : InstanceId;
  generation_id : GenerationId;
  lifecycle : Lifecycle;
}.

Definition set_lifecycle (i : ServiceInstance) (l : Lifecycle) : ServiceInstance :=
  {| instance_id := instance_id i; generation_id := generation_id i; lifecycle := l |}.

Inductive ReplacementEvent : Type :=
| Begin (candidate : ServiceInstance)
| CandidateSpawned (instance_id : InstanceId)
| CandidateHandshakeComplete (instance_id : InstanceId)
| CandidatePrepared (instance_id : InstanceId)
| CandidateActivated (instance_id : InstanceId)
| CandidateFailed (instance_id : InstanceId)
| CandidateStopped (instance_id : InstanceId)
| ActiveQuiesced (instance_id : InstanceId)
| ActiveReactivated (instance_id : InstanceId)
| RetiredDrained (instance_id : InstanceId)
| RetiredSnapshotCaptured (instance_id : InstanceId)
| RetiredFailed (instance_id : InstanceId)
| RetiredStopped (instance_id : InstanceId)
| TerminationTimedOut (instance_id : InstanceId).

Inductive ReplacementPhase : Type :=
| Running | AdoptingCandidate | PhaseQuiescing | ActivatingCandidate | RollingBack
| DrainingRetired | StoppingRetired.

Inductive ReplacementAction : Type :=
| Spawn (instance : ServiceInstance)
| Prepare (instance_id : InstanceId)
| Activate (instance_id : InstanceId)
| Quiesce (instance_id : InstanceId)
| Drain (instance_id : InstanceId)
| Snapshot (instance_id : InstanceId)
| Terminate (instance_id : InstanceId)
| Kill (instance_id : InstanceId).

Inductive ReplacementError : Type :=
| ReplacementInProgress
| MissingRole (role : string)
| UnexpectedLifecycle (role : string) (expected actual : Lifecycle)
| DuplicateInstanceId
| UnexpectedInstanceId (role : string) (expected actual : InstanceId)
| StaleGeneration (active candidate : GenerationId)
| NotStopping (instance_id : InstanceId)
| Transition (e : TransitionError).

Record ReplacementSupervisor : Type := mkSupervisor {
  active : ServiceInstance;
  candidate : option ServiceInstance;
  retired : option ServiceInstance;
}.

Definition ReplacementSupervisor_new (active : ServiceInstance) :
    result ReplacementSupervisor ReplacementError :=
  if bool_decide (lifecycle active <> Active) then
    Err (UnexpectedLifecycle "active" Active (lifecycle active))
  else Ok {| active := active; candidate := None; retired := None |}.

(** [phase]; [None] is the [unreachable!] panic. *)
Definition ReplacementSupervisor_phase (self : ReplacementSupervisor) : option ReplacementPhase :=
  match retired self with
  | Some retired =>
      match lifecycle retired with
      | Draining | Snapshotting => Some DrainingRetired
      | Stopping => Some StoppingRetired
      | _ => None
      end
  | None =>
      match candidate self with
      | Some candidate =>
          match lifecycle candidate with
          | Spawned | Handshaking | Preparing => Some AdoptingCandidate
          | Ready => Some PhaseQuiescing
          | Activating => Some ActivatingCandidate
          | Stopping => Some RollingBack
          | _ => None
          end
      | None =>
          match lifecycle (active self) with
          | Reactivating => Some RollingBack
          | _ => Some Running
          end
      end
  end.

(** ** Operations

    A method on [&mut self] is a state transformer; a [&mut Instance] obtained
    from a role is its value, written back by [write_candidate] and
    [write_retired] when the code assigns through the reference. *)

Definition Sup (A : Type) : Type := M ReplacementSupervisor ReplacementError A.

Definition set_active (i : ServiceInstance) (s : ReplacementSupervisor) : ReplacementSupervisor :=
  {| active := i; candidate := candidate s; retired := retired s |}.
Definition set_candidate (c : option ServiceInstance) (s : ReplacementSupervisor) :
    ReplacementSupervisor :=
  {| active := active s; candidate := c; retired := retired s |}.
Definition set_retired (r : option ServiceInstance) (s : ReplacementSupervisor) :
    ReplacementSupervisor :=
  {| active := active s; candidate := candidate s; retired := r |}.

Definition Instance_transition (self : ServiceInstance) (next : Lifecycle) :
    result ServiceInstance ReplacementError :=
  let? l := map_err Transition (Lifecycle_transition (lifecycle self) next) in
  Ok (set_lifecycle self l).

Definition write_candidate (c : ServiceInstance) (next : Lifecycle) : Sup ServiceInstance :=
  let! c := mlift (Instance_transition c next) in
  let! _ := mwrite (set_candidate (Some c)) in
  mret c.
Definition write_retired (r : ServiceInstance) (next : Lifecycle) : Sup ServiceInstance :=
  let! r := mlift (Instance_transition r next) in
  let! _ := mwrite (set_retired (Some r)) in
  mret r.
Definition write_active (next : Lifecycle) : Sup unit :=
  let! a := mread active in
  let! a := mlift (Instance_transition a next) in
  mwrite (set_active a).

Definition expect_lifecycle (instance : ServiceInstance) (role : string) (expected : Lifecycle) :
    result unit ReplacementError :=
  if bool_decide (lifecycle instance <> expected) then
    Err (UnexpectedLifecycle role expected (lifecycle instance))
  else Ok tt.

Definition candidate_mut (expected : Lifecycle) : Sup ServiceInstance :=
  let! c := mtry (fun s => ok_or (MissingRole "candidate") (candidate s)) in
  let! _ := mlift (expect_lifecycle c "candidate" expected) in
  mret c.

Definition retired_mut (expected : Lifecycle) : Sup ServiceInstance :=
  let! r := mtry (fun s => ok_or (MissingRole "retired") (retired s)) in
  let! _ := mlift (expect_lifecycle r "retired" expected) in
  mret r.

Definition expect_instance_id (instance : ServiceInstance) (role : string) (actual : InstanceId) :
    result unit ReplacementError :=
  if bool_decide (instance_id instance <> actual) then
    Err (UnexpectedInstanceId role (instance_id instance) actual)
  else Ok tt.

Definition expect_candidate_id (actual : InstanceId) : Sup unit :=
  mtry (fun s =>
    let? c := ok_or (MissingRole "candidate") (candidate s) in
    expect_instance_id c "candidate" actual).
Definition expect_active_id (actual : InstanceId) : Sup unit :=
  mtry (fun s => expect_instance_id (active s) "active" actual).
Definition expect_retired_id (actual : InstanceId) : Sup unit :=
  mtry (fun s =>
    let? r := ok_or (MissingRole "retired") (retired s) in
    expect_instance_id r "retired" actual).

Definition option_list {A} (o : option A) : list A :=
  match o with Some a => [a] | None => [] end.

Definition ensure_stopping (id : InstanceId) : Sup unit :=
  mtry (fun s =>
    let stopping :=
      existsb (fun i => bool_decide (instance_id i = id) && bool_decide (lifecycle i = Stopping))
        (option_list (candidate s) ++ option_list (retired s)) in
    if stopping then Ok tt else Err (NotStopping id)).

Definition transition_candidate (expected next : Lifecycle) : Sup InstanceId :=
  let! c := candidate_mut expected in
  let! c := write_candidate c next in
  mret (instance_id c).

Definition transition_retired (expected next : Lifecycle) : Sup InstanceId :=
  let! r := retired_mut expected in
  let! r := write_retired r next in
  mret (instance_id r).

Definition ReplacementSupervisor_begin (c : ServiceInstance) : Sup (list ReplacementAction) :=
  fun self =>
    if bool_decide (is_Some (candidate self)) || bool_decide (is_Some (retired self)) then
      (Err ReplacementInProgress, self)
    else if bool_decide (lifecycle (active self) <> Active) then
      (Err ReplacementInProgress, self)
    else if bool_decide (lifecycle c <> Spawned) then
      (Err (UnexpectedLifecycle "candidate" Spawned (lifecycle c)), self)
    else if bool_decide (instance_id c = instance_id (active self)) then
      (Err DuplicateInstanceId, self)
    else if generation_id c <=? generation_id (active self) then
      (Err (StaleGeneration (generation_id (active self)) (generation_id c)), self)
    else (Ok [Spawn c], set_candidate (Some c) self).

(** [take] empties the candidate role before the checks; only the lifecycle
    check puts the candidate back. *)
Definition activate_candidate : Sup (list ReplacementAction) :=
  let! c := mtry (fun s => ok_or (MissingRole "candidate") (candidate s)) in
  let! _ := mwrite (set_candidate None) in
  if bool_decide (lifecycle c <> Activating) then
    let! _ := mwrite (set_candidate (Some c)) in
    mfail (UnexpectedLifecycle "candidate" Activating (lifecycle c))
  else
    let! c := mlift (Instance_transition c Active) in
    let! old := mread active in
    let! _ := mwrite (set_active c) in
    let! old := mlift (Instance_transition old Draining) in
    let! _ := mwrite (set_retired (Some old)) in
    mret [Drain (instance_id old)].

Definition fail_candidate : Sup (list ReplacementAction) :=
  let! c := mtry (fun s => ok_or (MissingRole "candidate") (candidate s)) in
  let! c := write_candidate c Failed in
  let! c := write_candidate c Stopping in
  let! a := mread active in
  let! actions :=
    (if bool_decide (lifecycle a = Quiescing) then
       let! _ := write_active Reactivating in
       mret [Activate (instance_id a)]
     else mret []) in
  mret (actions ++ [Terminate (instance_id c)]).

Definition ReplacementSupervisor_apply (event : ReplacementEvent) : Sup (list ReplacementAction) :=
  match event with
  | Begin c => ReplacementSupervisor_begin c
  | CandidateSpawned id =>
      let! _ := expect_candidate_id id in
      let! _ := transition_candidate Spawned Handshaking in
      mret []
  | CandidateHandshakeComplete id =>
      let! _ := expect_candidate_id id in
      let! id := transition_candidate Handshaking Preparing in
      mret [Prepare id]
  | CandidatePrepared id =>
      let! _ := expect_candidate_id id in
      let! c := candidate_mut Preparing in
      let! _ := write_candidate c Ready in
      let! _ := write_active Quiescing in
      let! a := mread active in
      mret [Quiesce (instance_id a)]
  | CandidateActivated id =>
      let! _ := expect_candidate_id id in
      activate_candidate
  | CandidateFailed id =>
      let! _ := expect_candidate_id id in
      fail_candidate
  | CandidateStopped id =>
      let! _ := expect_candidate_id id in
      let! c := candidate_mut Stopping in
      let! _ := write_candidate c Stopped in
      let! _ := mwrite (set_candidate None) in
      mret []
  | ActiveQuiesced id =>
      let! _ := expect_active_id id in
      let! _ := mtry (fun s => expect_lifecycle (active s) "active" Quiescing) in
      let! c := candidate_mut Ready in
      let! c := write_candidate c Activating in
      mret [Activate (instance_id c)]
  | ActiveReactivated id =>
      let! _ := expect_active_id id in
      let! _ := write_active Active in
      mret []
  | RetiredDrained id =>
      let! _ := expect_retired_id id in
      let! r := retired_mut Draining in
      let! r := write_retired r Snapshotting in
      mret [Snapshot (instance_id r)]
  | RetiredSnapshotCaptured id =>
      let! _ := expect_retired_id id in
      let! id := transition_retired Snapshotting Stopping in
      mret [Terminate id]
  | RetiredFailed id =>
      let! _ := expect_retired_id id in
      let! r := mtry (fun s => ok_or (MissingRole "retired") (retired s)) in
      let! r := write_retired r Failed in
      let! _ := write_retired r Stopping in
      mret [Kill id]
  | RetiredStopped id =>
      let! _ := expect_retired_id id in
      let! r := retired_mut Stopping in
      let! _ := write_retired r Stopped in
      let! _ := mwrite (set_retired None) in
      mret []
  | TerminationTimedOut id =>
      let! _ := ensure_stopping id in
      mret [Kill id]
  end.

(** ** The machine as rules

    [accepted s e actions s'] is the specification of an accepted event: which
    role it concerns, the lifecycle it requires and the side effects it asks
    for. *)

Definition with_candidate (s : ReplacementSupervisor) (c : ServiceInstance) (l : Lifecycle) :
    ReplacementSupervisor :=
  set_candidate (Some (set_lifecycle c l)) s.
Definition with_retired (s : ReplacementSupervisor) (r : ServiceInstance) (l : Lifecycle) :
    ReplacementSupervisor :=
  set_retired (Some (set_lifecycle r l)) s.
Definition with_active (s : ReplacementSupervisor) (l : Lifecycle) : ReplacementSupervisor :=
  set_active (set_lifecycle (active s) l) s.

Inductive accepted (s : ReplacementSupervisor) :
    ReplacementEvent -> list ReplacementAction -> ReplacementSupervisor -> Prop :=
| accept_begin c :
    candidate s = None -> retired s = None -> lifecycle (active s) = Active ->
    lifecycle c = Spawned -> instance_id c <> instance_id (active s) ->
    generation_id (active s) < generation_id c ->
    accepted s (Begin c) [Spawn c] (set_candidate (Some c) s)
| accept_spawned c :
    candidate s = Some c -> lifecycle c = Spawned ->
    accepted s (CandidateSpawned (instance_id c)) [] (with_candidate s c Handshaking)
| accept_handshake c :
    candidate s = Some c -> lifecycle c = Handshaking ->
    accepted s (CandidateHandshakeComplete (instance_id c)) [Prepare (instance_id c)]
      (with_candidate s c Preparing)
| accept_prepared c :
    candidate s = Some c -> lifecycle c = Preparing -> lifecycle (active s) = Active ->
    accepted s (CandidatePrepared (instance_id c)) [Quiesce (instance_id (active s))]
      (with_active (with_candidate s c Ready) Quiescing)
| accept_quiesced c :
    candidate s = Some c -> lifecycle c = Ready -> lifecycle (active s) = Quiescing ->
    accepted s (ActiveQuiesced (instance_id (active s))) [Activate (instance_id c)]
      (with_candidate s c Activating)
| accept_activated c :
    candidate s = Some c -> lifecycle c = Activating -> lifecycle (active s) = Quiescing ->
    accepted s (CandidateActivated (instance_id c)) [Drain (instance_id (active s))]
      {| active := set_lifecycle c Active; candidate := None;
         retired := Some (set_lifecycle (active s) Draining) |}
| accept_failed_serving c :
    candidate s = Some c -> Lifecycle_can_transition_to (lifecycle c) Failed = true ->
    lifecycle (active s) <> Quiescing ->
    accepted s (CandidateFailed (instance_id c)) [Terminate (instance_id c)]
      (with_candidate s c Stopping)
| accept_failed_quiesced c :
    candidate s = Some c -> Lifecycle_can_transition_to (lifecycle c) Failed = true ->
    lifecycle (active s) = Quiescing ->
    accepted s (CandidateFailed (instance_id c))
      [Activate (instance_id (active s)); Terminate (instance_id c)]
      (with_active (with_candidate s c Stopping) Reactivating)
| accept_candidate_stopped c :
    candidate s = Some c -> lifecycle c = Stopping ->
    accepted s (CandidateStopped (instance_id c)) [] (set_candidate None s)
| accept_reactivated :
    lifecycle (active s) = Activating \/ lifecycle (active s) = Reactivating ->
    accepted s (ActiveReactivated (instance_id (active s))) [] (with_active s Active)
| accept_drained r :
    retired s = Some r -> lifecycle r = Draining ->
    accepted s (RetiredDrained (instance_id r)) [Snapshot (instance_id r)]
      (with_retired s r Snapshotting)
| accept_snapshot r :
    retired s = Some r -> lifecycle r = Snapshotting ->
    accepted s (RetiredSnapshotCaptured (instance_id r)) [Terminate (instance_id r)]
      (with_retired s r Stopping)
| accept_retired_failed r :
    retired s = Some r -> Lifecycle_can_transition_to (lifecycle r) Failed = true ->
    accepted s (RetiredFailed (instance_id r)) [Kill (instance_id r)] (with_retired s r Stopping)
| accept_retired_stopped r :
    retired s = Some r -> lifecycle r = Stopping ->
    accepted s (RetiredStopped (instance_id r)) [] (set_retired None s)
| accept_timeout i :
    candidate s = Some i \/ retired s = Some i -> lifecycle i = Stopping ->
    accepted s (TerminationTimedOut (instance_id i)) [Kill (instance_id i)] s.

Create HintDb replacement discriminated.
#[export] Hint Constructors accepted : replacement.

(** What each helper means when it succeeds. *)
Section Helpers.
Implicit Types (s : ReplacementSupervisor) (i c r : ServiceInstance) (l : Lifecycle).

Lemma Instance_transition_Ok i l i' :
  Instance_transition i l = Ok i' <->
  i' = set_lifecycle i l /\ Lifecycle_can_transition_to (lifecycle i) l = true.
Proof.
  unfold Instance_transition, Lifecycle_transition.
  destruct (Lifecycle_can_transition_to _ _); simpl; naive_solver.
Qed.

Lemma expect_lifecycle_Ok i role l u :
  expect_lifecycle i role l = Ok u <-> lifecycle i = l.
Proof. unfold expect_lifecycle. destruct u. case_bool_decide; naive_solver. Qed.

Lemma expect_instance_id_Ok i role id u :
  expect_instance_id i role id = Ok u <-> instance_id i = id.
Proof. unfold expect_instance_id. destruct u. case_bool_decide; naive_solver. Qed.

Lemma candidate_mut_Ok l s c s' :
  candidate_mut l s = (Ok c, s') <-> candidate s = Some c /\ lifecycle c = l /\ s' = s.
Proof.
  unfold candidate_mut, expect_lifecycle, mbind_se, mtry, mlift, mret.
  destruct (candidate s); simpl; [case_bool_decide|]; naive_solver.
Qed.

Lemma retired_mut_Ok l s r s' :
  retired_mut l s = (Ok r, s') <-> retired s = Some r /\ lifecycle r = l /\ s' = s.
Proof.
  unfold retired_mut, expect_lifecycle, mbind_se, mtry, mlift, mret.
  destruct (retired s); simpl; [case_bool_decide|]; naive_solver.
Qed.

Lemma write_candidate_Ok c l s c' s' :
  write_candidate c l s = (Ok c', s') <->
  c' = set_lifecycle c l /\ s' = with_candidate s c l /\
  Lifecycle_can_transition_to (lifecycle c) l = true.
Proof.
  unfold write_candidate, mbind_se, mlift, mwrite, mret.
  destruct (Instance_transition c l) as [c0|e] eqn:E; simpl.
  - apply Instance_transition_Ok in E as [-> ?]. naive_solver.
  - split; [done|]. intros (_ & _ & H).
    assert (Instance_transition c l = Ok (set_lifecycle c l)) by (by apply Instance_transition_Ok).
    congruence.
Qed.

Lemma write_retired_Ok r l s r' s' :
  write_retired r l s = (Ok r', s') <->
  r' = set_lifecycle r l /\ s' = with_retired s r l /\
  Lifecycle_can_transition_to (lifecycle r) l = true.
Proof.
  unfold write_retired, mbind_se, mlift, mwrite, mret.
  destruct (Instance_transition r l) as [r0|e] eqn:E; simpl.
  - apply Instance_transition_Ok in E as [-> ?]. naive_solver.
  - split; [done|]. intros (_ & _ & H).
    assert (Instance_transition r l = Ok (set_lifecycle r l)) by (by apply Instance_transition_Ok).
    congruence.
Qed.

Lemma write_active_Ok l s u s' :
  write_active l s = (Ok u, s') <->
  s' = with_active s l /\ Lifecycle_can_transition_to (lifecycle (active s)) l = true.
Proof.
  unfold write_active, mbind_se, mread, mlift, mwrite. destruct u.
  destruct (Instance_transition (active s) l) as [a|e] eqn:E; simpl.
  - apply Instance_transition_Ok in E as [-> ?]. naive_solver.
  - split; [done|]. intros (_ & H).
    assert (Instance_transition (active s) l = Ok (set_lifecycle (active s) l))
      by (by apply Instance_transition_Ok). congruence.
Qed.

Lemma expect_candidate_id_Ok id s u s' :
  expect_candidate_id id s = (Ok u, s') <->
  s' = s /\ exists c, candidate s = Some c /\ instance_id c = id.
Proof.
  unfold expect_candidate_id, mtry. destruct (candidate s); simpl; [|naive_solver].
  rewrite pair_eq, expect_instance_id_Ok. naive_solver.
Qed.

Lemma expect_retired_id_Ok id s u s' :
  expect_retired_id id s = (Ok u, s') <->
  s' = s /\ exists r, retired s = Some r /\ instance_id r = id.
Proof.
  unfold expect_retired_id, mtry. destruct (retired s); simpl; [|naive_solver].
  rewrite pair_eq, expect_instance_id_Ok. naive_solver.
Qed.

Lemma expect_active_id_Ok id s u s' :
  expect_active_id id s = (Ok u, s') <-> s' = s /\ instance_id (active s) = id.
Proof.
  unfold expect_active_id, mtry. rewrite pair_eq, expect_instance_id_Ok. naive_solver.
Qed.

Lemma ensure_stopping_Ok id s u s' :
  ensure_stopping id s = (Ok u, s') <->
  s' = s /\ exists i, (candidate s = Some i \/ retired s = Some i) /\
                      instance_id i = id /\ lifecycle i = Stopping.
Proof.
  unfold ensure_stopping, mtry. destruct u.
  destruct (existsb _ _) eqn:E; rewrite pair_eq.
  - apply existsb_exists in E as (i & Hin & H). bool_inv. split; [|naive_solver].
    intros [_ <-]. split; [done|]. exists i.
    apply in_app_or in Hin. destruct (candidate s), (retired s); simpl in Hin; naive_solver.
  - split; [naive_solver|]. intros (-> & i & Hin & Hi & Hl). exfalso.
    apply not_true_iff_false in E. apply E, existsb_exists. exists i.
    rewrite !bool_decide_eq_true_2 by done. split; [|done]. apply in_or_app.
    destruct Hin as [-> | ->]; simpl; auto.
Qed.
End Helpers.

(** Inverts a successful chain of helper calls. *)
Ltac sup_inv :=
  repeat first [progress res_inv | match goal with
  | H : Instance_transition _ _ = Ok _ |- _ => apply Instance_transition_Ok in H as [? ?]; subst
  | H : expect_lifecycle _ _ _ = Ok _ |- _ => apply expect_lifecycle_Ok in H
  | H : candidate_mut _ _ = (Ok _, _) |- _ => apply candidate_mut_Ok in H as (? & ? & ?); subst
  | H : retired_mut _ _ = (Ok _, _) |- _ => apply retired_mut_Ok in H as (? & ? & ?); subst
  | H : write_candidate _ _ _ = (Ok _, _) |- _ =>
      apply write_candidate_Ok in H as (? & ? & ?); subst
  | H : write_retired _ _ _ = (Ok _, _) |- _ => apply write_retired_Ok in H as (? & ? & ?); subst
  | H : write_active _ _ = (Ok _, _) |- _ => apply write_active_Ok in H as (? & ?); subst
  | H : expect_candidate_id _ _ = (Ok _, _) |- _ =>
      apply expect_candidate_id_Ok in H as (? & ? & ? & ?); subst
  | H : expect_retired_id _ _ = (Ok _, _) |- _ =>
      apply expect_retired_id_Ok in H as (? & ? & ? & ?); subst
  | H : expect_active_id _ _ = (Ok _, _) |- _ => apply expect_active_id_Ok in H as (? & ?); subst
  | H : ensure_stopping _ _ = (Ok _, _) |- _ =>
      apply ensure_stopping_Ok in H as (? & ? & ? & ? & ?); subst
  | H : transition_candidate _ _ _ = (Ok _, _) |- _ => unfold transition_candidate in H
  | H : transition_retired _ _ _ = (Ok _, _) |- _ => unfold transition_retired in H
  end | progress simplify_eq/=].

Lemma only_from_active l : Lifecycle_can_transition_to l Quiescing = true -> l = Active.
Proof. by destruct l. Qed.
Lemma only_from_quiescing l : Lifecycle_can_transition_to l Draining = true -> l = Quiescing.
Proof. by destruct l. Qed.
Lemma only_to_active l :
  Lifecycle_can_transition_to l Active = true -> l = Activating \/ l = Reactivating.
Proof. destruct l; naive_solver. Qed.

#[export] Hint Resolve only_from_active only_from_quiescing only_to_active : replacement.

Lemma with_candidate_twice s c l l' :
  with_candidate (with_candidate s c l) (set_lifecycle c l) l' = with_candidate s c l'.
Proof. reflexivity. Qed.
Lemma with_retired_twice s r l l' :
  with_retired (with_retired s r l) (set_lifecycle r l) l' = with_retired s r l'.
Proof. reflexivity. Qed.
Lemma clear_candidate s c l : set_candidate None (with_candidate s c l) = set_candidate None s.
Proof. reflexivity. Qed.
Lemma clear_retired s r l : set_retired None (with_retired s r l) = set_retired None s.
Proof. reflexivity. Qed.
Create Rewrite HintDb replacement.
#[export] Hint Rewrite with_candidate_twice with_retired_twice clear_candidate clear_retired
  : replacement.

Lemma apply_accepted s e actions s' :
  ReplacementSupervisor_apply e s = (Ok actions, s') -> accepted s e actions s'.
Proof.
  destruct e; simpl; intros H.
  1: { unfold ReplacementSupervisor_begin in H.
       repeat (case_match; [done|]). simplify_eq. bool_inv.
       rewrite <- !eq_None_not_Some in *.
       by apply accept_begin; try done; apply dec_stable. }
  all: unfold activate_candidate, fail_candidate in H; sup_inv.
  all: try (case_bool_decide; sup_inv).
  all: autorewrite with replacement; eauto with replacement.
Qed.

(** Runs a chain of helper calls whose preconditions are hypotheses. *)
Ltac sup_run :=
  repeat match goal with
  | |- mbind_se _ _ _ = (Ok _, _) => apply mbind_se_Ok; do 2 eexists; split
  | |- mret _ _ = _ => reflexivity
  | |- mread _ _ = _ => reflexivity
  | |- mwrite _ _ = _ => reflexivity
  | |- mtry _ _ = (Ok _, _) => apply mtry_Ok; split; [|reflexivity]
  | |- mlift _ _ = (Ok _, _) => apply mlift_Ok; split; [|reflexivity]
  | |- ok_or _ _ = Ok _ => apply ok_or_Ok; eassumption
  | |- Instance_transition _ _ = Ok _ => apply Instance_transition_Ok; split; [reflexivity|]
  | |- expect_lifecycle _ _ _ = Ok _ => apply (expect_lifecycle_Ok _ _ _ tt)
  | |- candidate_mut _ _ = _ => apply candidate_mut_Ok; split_and!; [eassumption..|reflexivity]
  | |- retired_mut _ _ = _ => apply retired_mut_Ok; split_and!; [eassumption..|reflexivity]
  | |- write_candidate _ _ _ = _ => apply write_candidate_Ok; split_and!; [reflexivity..|]
  | |- write_retired _ _ _ = _ => apply write_retired_Ok; split_and!; [reflexivity..|]
  | |- write_active _ _ = _ => apply (write_active_Ok _ _ tt); split_and!; [reflexivity..|]
  | |- expect_candidate_id _ _ = _ => apply (expect_candidate_id_Ok _ _ tt); eauto
  | |- expect_retired_id _ _ = _ => apply (expect_retired_id_Ok _ _ tt); eauto
  | |- expect_active_id _ _ = _ => apply (expect_active_id_Ok _ _ tt); eauto
  | |- ensure_stopping _ _ = _ => apply (ensure_stopping_Ok _ _ tt); eauto
  | |- (if bool_decide _ then _ else _) _ = _ => case_bool_decide; simpl in *; try congruence
  | H : lifecycle ?i = _ |- lifecycle ?i = _ => exact H
  | H : lifecycle _ = _ |- Lifecycle_can_transition_to _ _ = true => simpl; rewrite H; reflexivity
  | |- Lifecycle_can_transition_to _ _ = true => first [assumption | reflexivity]
  end.

(** The rules are also sufficient: [apply] accepts what they allow. *)
Lemma accepted_apply s e actions s' :
  accepted s e actions s' -> ReplacementSupervisor_apply e s = (Ok actions, s').
Proof.
  intros H; destruct H; simpl; unfold transition_candidate, transition_retired.
  1: { unfold ReplacementSupervisor_begin. 
       rewrite H, H0.
       repeat (case_bool_decide; simpl; try (done || by destruct (is_Some_None ltac:(eassumption)))).
       destruct (Z.leb_spec (generation_id c) (generation_id (active s))); [lia|done]. }
  all: unfold activate_candidate, fail_candidate; sup_run.
  match goal with Hl : _ \/ _ |- _ => by destruct Hl as [-> | ->] end.
Qed.

(** ** The role invariant *)

(** The lifecycles the three roles may have together. *)
Definition roles_ok (s : ReplacementSupervisor) : Prop :=
  match candidate s, retired s with
  | None, None => lifecycle (active s) = Active \/ lifecycle (active s) = Reactivating
  | Some c, None =>
      instance_id c <> instance_id (active s) /\
      generation_id (active s) < generation_id c /\
      match lifecycle c with
      | Spawned | Handshaking | Preparing => lifecycle (active s) = Active
      | Ready | Activating => lifecycle (active s) = Quiescing
      | Stopping => lifecycle (active s) = Active \/ lifecycle (active s) = Reactivating
      | _ => False
      end
  | None, Some r =>
      instance_id r <> instance_id (active s) /\
      generation_id r < generation_id (active s) /\
      lifecycle (active s) = Active /\
      (lifecycle r = Draining \/ lifecycle r = Snapshotting \/ lifecycle r = Stopping)
  | Some _, Some _ => False
  end.

Lemma accepted_roles_ok s e actions s' :
  roles_ok s -> accepted s e actions s' -> roles_ok s'.
Proof.
  intros Hok Hacc; destruct Hacc; destruct s as [a co ro]; unfold roles_ok in *;
    simplify_eq/=; repeat (case_match; simplify_eq/=); naive_solver congruence.
Qed.

(** ** Failed events change nothing *)

Section Errors.
Implicit Types (s : ReplacementSupervisor) (i c r : ServiceInstance) (l : Lifecycle).

Lemma Instance_transition_Err i l e :
  Instance_transition i l = Err e -> Lifecycle_can_transition_to (lifecycle i) l = false.
Proof.
  unfold Instance_transition, Lifecycle_transition.
  by destruct (Lifecycle_can_transition_to _ _).
Qed.

Lemma write_candidate_Err c l s e s' :
  write_candidate c l s = (Err e, s') ->
  s' = s /\ Lifecycle_can_transition_to (lifecycle c) l = false.
Proof.
  unfold write_candidate, mbind_se, mlift, mwrite, mret.
  destruct (Instance_transition c l) eqn:E; [done|].
  apply Instance_transition_Err in E. naive_solver.
Qed.

Lemma write_retired_Err r l s e s' :
  write_retired r l s = (Err e, s') ->
  s' = s /\ Lifecycle_can_transition_to (lifecycle r) l = false.
Proof.
  unfold write_retired, mbind_se, mlift, mwrite, mret.
  destruct (Instance_transition r l) eqn:E; [done|].
  apply Instance_transition_Err in E. naive_solver.
Qed.

Lemma write_active_Err l s e s' :
  write_active l s = (Err e, s') ->
  s' = s /\ Lifecycle_can_transition_to (lifecycle (active s)) l = false.
Proof.
  unfold write_active, mbind_se, mlift, mwrite, mret, mread.
  destruct (Instance_transition (active s) l) eqn:E; [done|].
  apply Instance_transition_Err in E. naive_solver.
Qed.

Lemma candidate_mut_Err l s e s' : candidate_mut l s = (Err e, s') -> s' = s.
Proof.
  unfold candidate_mut, mbind_se, mtry, mlift, mret.
  destruct (ok_or _ _); [destruct (expect_lifecycle _ _ _)|]; naive_solver.
Qed.

Lemma retired_mut_Err l s e s' : retired_mut l s = (Err e, s') -> s' = s.
Proof.
  unfold retired_mut, mbind_se, mtry, mlift, mret.
  destruct (ok_or _ _); [destruct (expect_lifecycle _ _ _)|]; naive_solver.
Qed.
End Errors.

(** Follows a failing chain of helper calls to the call that fails. *)
Ltac sup_err :=
  repeat first [progress sup_inv | match goal with
  | H : mbind_se _ _ _ = (Err _, _) |- _ =>
      apply mbind_se_Err in H; destruct H as [H | (? & ? & ? & H)]
  | H : mret _ _ = (Err _, _) |- _ => discriminate H
  | H : mfail _ _ = (Err _, _) |- _ => injection H as ??; subst
  | H : mread _ _ = (Err _, _) |- _ => discriminate H
  | H : mwrite _ _ = (Err _, _) |- _ => discriminate H
  | H : mtry _ _ = (Err _, _) |- _ => apply mtry_Err in H; destruct H as [H ?]; subst
  | H : mlift _ _ = (Err _, _) |- _ => apply mlift_Err in H; destruct H as [H ?]; subst
  | H : Instance_transition _ _ = Err _ |- _ => apply Instance_transition_Err in H
  | H : candidate_mut _ _ = (Err _, _) |- _ => apply candidate_mut_Err in H; subst
  | H : retired_mut _ _ = (Err _, _) |- _ => apply retired_mut_Err in H; subst
  | H : write_candidate _ _ _ = (Err _, _) |- _ =>
      apply write_candidate_Err in H; destruct H; subst
  | H : write_retired _ _ _ = (Err _, _) |- _ => apply write_retired_Err in H; destruct H; subst
  | H : write_active _ _ = (Err _, _) |- _ => apply write_active_Err in H; destruct H; subst
  | H : transition_candidate _ _ _ = (Err _, _) |- _ => unfold transition_candidate in H
  | H : transition_retired _ _ _ = (Err _, _) |- _ => unfold transition_retired in H
  | H : expect_candidate_id _ _ = (Err _, _) |- _ => unfold expect_candidate_id in H
  | H : expect_retired_id _ _ = (Err _, _) |- _ => unfold expect_retired_id in H
  | H : expect_active_id _ _ = (Err _, _) |- _ => unfold expect_active_id in H
  | H : ensure_stopping _ _ = (Err _, _) |- _ => unfold ensure_stopping in H
  end].

Lemma begin_error c s err s' :
  ReplacementSupervisor_begin c s = (Err err, s') -> s' = s.
Proof. unfold ReplacementSupervisor_begin. repeat case_match; naive_solver. Qed.

Lemma apply_error s e err s' :
  roles_ok s -> ReplacementSupervisor_apply e s = (Err err, s') -> s' = s.
Proof.
  intros Hok H; destruct e; simpl in H; [by eapply begin_error|..].
  all: unfold activate_candidate, fail_candidate in H; sup_err; try done.
  all: try (case_bool_decide; sup_err).
  all: destruct s as [a co ro]; unfold roles_ok in Hok; simplify_eq/=; try done.
  all: destruct ro; simplify_eq/=; try done.
  all: destruct Hok as (_ & _ & Hl); destruct (lifecycle x1), (lifecycle a); naive_solver.
Qed.

(** ** Runs

    A run delivers events in any order, the ones the supervisor refuses
    included; [accepted_events] are those it accepts. *)

Definition replacement_step (s : ReplacementSupervisor) (e : ReplacementEvent) :
    ReplacementSupervisor := (ReplacementSupervisor_apply e s).2.

Definition replacement_run (s : ReplacementSupervisor) (es : list ReplacementEvent) :
    ReplacementSupervisor := foldl replacement_step s es.

Fixpoint accepted_events (s : ReplacementSupervisor) (es : list ReplacementEvent) :
    list ReplacementEvent :=
  match es with
  | [] => []
  | e :: es =>
      let rest := accepted_events (replacement_step s e) es in
      if is_ok (ReplacementSupervisor_apply e s).1 then e :: rest else rest
  end.

(** A step is an accepted event, or changes nothing. *)
Lemma replacement_step_cases s e :
  roles_ok s ->
  (exists actions, accepted s e actions (replacement_step s e) /\
                   is_ok (ReplacementSupervisor_apply e s).1 = true) \/
  (replacement_step s e = s /\ is_ok (ReplacementSupervisor_apply e s).1 = false).
Proof.
  intros Hok. unfold replacement_step.
  destruct (ReplacementSupervisor_apply e s) as [[actions|err] s'] eqn:E; simpl.
  - left. exists actions. split; [by apply apply_accepted|done].
  - right. split; [by eapply apply_error|done].
Qed.

Lemma replacement_step_roles_ok s e : roles_ok s -> roles_ok (replacement_step s e).
Proof.
  intros Hok. destruct (replacement_step_cases s e Hok) as [(? & H & _) | [-> _]]; [|done].
  by eapply accepted_roles_ok.
Qed.

Lemma replacement_run_roles_ok s es : roles_ok s -> roles_ok (replacement_run s es).
Proof.
  revert s; induction es as [|e es IH]; intros s Hok; [done|].
  by apply IH, replacement_step_roles_ok.
Qed.

Lemma new_roles_ok a s : ReplacementSupervisor_new a = Ok s -> roles_ok s.
Proof.
  unfold ReplacementSupervisor_new. case_bool_decide as Ha; [done|]. intros [= <-].
  left; simpl. destruct (decide (lifecycle a = Active)); tauto.
Qed.

#[export] Hint Resolve new_roles_ok replacement_run_roles_ok replacement_step_roles_ok
  : replacement.

Lemma roles_ok_phase s : roles_ok s -> ReplacementSupervisor_phase s <> None.
Proof.
  unfold roles_ok, ReplacementSupervisor_phase. repeat case_match; naive_solver.
Qed.

(** ** The adoption protocol

    The accepted events that led to the candidate's lifecycle. *)

(** The events that adopt a candidate, in order. *)
Definition adoption (begun : ServiceInstance) (old : InstanceId) : list ReplacementEvent :=
  let id := instance_id begun in
  [Begin begun; CandidateSpawned id; CandidateHandshakeComplete id; CandidatePrepared id;
   ActiveQuiesced old].

(** How many of them an adopted candidate has behind it. *)
Definition adoption_progress (l : Lifecycle) : option nat :=
  match l with
  | Spawned => Some 1%nat | Handshaking => Some 2%nat | Preparing => Some 3%nat
  | Ready => Some 4%nat | Activating => Some 5%nat | _ => None
  end.

(** The trace [tr] of accepted events explains the state. *)
Definition trace_explains (s : ReplacementSupervisor) (tr : list ReplacementEvent) : Prop :=
  forall c n, candidate s = Some c -> adoption_progress (lifecycle c) = Some n ->
  exists before begun,
    tr = before ++ take n (adoption begun (instance_id (active s))) /\
    instance_id begun = instance_id c /\ generation_id begun = generation_id c.

Lemma trace_explains_step s e actions s' tr :
  roles_ok s -> accepted s e actions s' -> trace_explains s tr -> trace_explains s' (tr ++ [e]).
Proof.
  intros Hok Hacc Htr. destruct s as [a co ro].
  destruct Hacc; intros c' n Hc Hn; simplify_eq/=;
    unfold roles_ok in Hok; simplify_eq/=;
    try match goal with H : lifecycle ?c = _, Hok : context [lifecycle ?c] |- _ =>
          rewrite H in Hok end; simplify_eq/=.
  1: by exists tr, c'.
  all: repeat (case_match; simplify_eq/=); try naive_solver congruence.
  all: specialize (Htr _ _ eq_refl ltac:(simpl; by rewrite H0)) as (before & begun & -> & Hid & Hg);
    exists before, begun; rewrite <- Hid, <- app_assoc; done.
Qed.

Lemma trace_explains_run s es tr :
  roles_ok s -> trace_explains s tr ->
  trace_explains (replacement_run s es) (tr ++ accepted_events s es).
Proof.
  revert s tr; induction es as [|e es IH]; intros s tr Hok Htr; simpl.
  { by rewrite app_nil_r. }
  destruct (replacement_step_cases s e Hok) as [(actions & Hacc & ->) | [-> ->]]; [|by apply IH].
  rewrite cons_middle, app_assoc. apply IH; [auto with replacement|].
  by eapply trace_explains_step.
Qed.

(** ** Progress *)

(** The number of events a replacement still needs at most. *)
Definition role_rank (l : Lifecycle) : Z :=
  match l with
  | Spawned => 8 | Handshaking => 7 | Preparing => 6 | Ready => 5 | Activating => 4
  | Draining => 3 | Snapshotting => 2 | Stopping => 1 | _ => 0
  end.

Definition replacement_rank (s : ReplacementSupervisor) : Z :=
  default 0 (role_rank ∘ lifecycle <$> candidate s) +
  default 0 (role_rank ∘ lifecycle <$> retired s) +
  (if bool_decide (lifecycle (active s) = Reactivating) then 1 else 0).

Definition is_begin (e : ReplacementEvent) : bool :=
  match e with Begin _ => true | _ => false end.

Lemma accepted_rank s e actions s' :
  roles_ok s -> accepted s e actions s' -> is_begin e = false ->
  s' = s \/ replacement_rank s' < replacement_rank s.
Proof.
  intros Hok Hacc Hb. destruct s as [[ia ga la] [[ic gc lc]|] [[ir gr lr]|]].
  all: try done.
  all: destruct Hacc; simplify_eq/=;
    repeat match goal with i : ServiceInstance |- _ => destruct i end;
    unfold roles_ok in Hok; simplify_eq/=; try done; try (by left).
  all: repeat (case_match; simplify_eq/=); destruct_and?; destruct_or?; simplify_eq/=; try done.
  all: first [by left | right; vm_compute; reflexivity].
Qed.

(** The event that moves a replacement on when everything goes well. *)
Definition next_event (s : ReplacementSupervisor) : ReplacementEvent :=
  match retired s, candidate s with
  | Some r, _ =>
      match lifecycle r with
      | Draining => RetiredDrained (instance_id r)
      | Snapshotting => RetiredSnapshotCaptured (instance_id r)
      | _ => RetiredStopped (instance_id r)
      end
  | None, Some c =>
      match lifecycle c with
      | Spawned => CandidateSpawned (instance_id c)
      | Handshaking => CandidateHandshakeComplete (instance_id c)
      | Preparing => CandidatePrepared (instance_id c)
      | Ready => ActiveQuiesced (instance_id (active s))
      | Activating => CandidateActivated (instance_id c)
      | _ => CandidateStopped (instance_id c)
      end
  | None, None => ActiveReactivated (instance_id (active s))
  end.

(** Follows [next_event] until no replacement is under way, at most [n] times. *)
Fixpoint drive (n : nat) (s : ReplacementSupervisor) : list ReplacementEvent :=
  match n with
  | O => []
  | S n =>
      if replacement_rank s <=? 0 then []
      else next_event s :: drive n (replacement_step s (next_event s))
  end.

Ltac advance :=
  unfold next_event; simpl;
  repeat match goal with H : lifecycle _ = _ |- _ => rewrite H end;
  do 2 eexists; split; [eauto with replacement|];
  unfold replacement_rank, compose; simpl;
  repeat match goal with H : lifecycle _ = _ |- _ => rewrite H end; reflexivity.

Lemma next_event_accepted s :
  roles_ok s -> 0 < replacement_rank s ->
  exists actions s', accepted s (next_event s) actions s' /\
    replacement_rank s' < replacement_rank s.
Proof.
  intros Hok Hr. destruct s as [a [c|] [r|]]; unfold roles_ok in Hok; simpl in *; try done.
  - destruct (lifecycle c) eqn:Hc; try tauto; destruct Hok as (Hid & Hg & Ha);
      destruct_or?; advance.
  - destruct Hok as (Hid & Hg & Ha & [Hl | [Hl | Hl]]); advance.
  - destruct Hok as [Ha | Ha]; [|advance].
    unfold replacement_rank in Hr. simpl in Hr. by rewrite Ha in Hr.
Qed.

Lemma rank_nonneg s : 0 <= replacement_rank s.
Proof.
  unfold replacement_rank, compose.
  destruct (candidate s) as [[? ? []]|], (retired s) as [[? ? []]|]; simpl;
    case_bool_decide; lia.
Qed.

Lemma rank_zero s :
  roles_ok s -> replacement_rank s <= 0 ->
  ReplacementSupervisor_phase s = Some Running /\ lifecycle (active s) = Active.
Proof.
  intros Hok Hr. destruct s as [[ia ga la] [[ic gc lc]|] [[ir gr lr]|]];
    unfold roles_ok in Hok; simpl in *; try done;
    [exfalso; destruct lc; try tauto; destruct_and?; destruct_or?; simplify_eq/=; by apply Hr
    |exfalso; destruct_and?; destruct_or?; simplify_eq/=; by apply Hr
    |destruct Hok as [-> | ->]; [done|exfalso; by apply Hr]].
Qed.

Lemma drive_completes n s :
  roles_ok s -> replacement_rank s <= Z.of_nat n ->
  let s' := replacement_run s (drive n s) in
  ReplacementSupervisor_phase s' = Some Running /\ lifecycle (active s') = Active /\
  accepted_events s (drive n s) = drive n s.
Proof.
  revert s; induction n as [|n IH]; intros s Hok Hn; simpl.
  { destruct (rank_zero s) as [? ?]; [done|lia|done]. }
  destruct (Z.leb_spec (replacement_rank s) 0) as [H0|H0]; simpl.
  { by destruct (rank_zero s) as [? ?]. }
  destruct (next_event_accepted s Hok H0) as (actions & s' & Hacc & Hlt).
  assert (ReplacementSupervisor_apply (next_event s) s = (Ok actions, s')) as Hap
    by by apply accepted_apply.
  unfold replacement_step. rewrite Hap; simpl.
  destruct (IH s') as (? & ? & ->); [by eapply accepted_roles_ok|lia|done].
Qed.

(** ** Ownership of the service

    What the rest of the system relies on: the generation that owns the
    service, and whether a newer one is being adopted or an older one retired. *)

Inductive Ownership : Type :=
| Serving (owner : GenerationId)
| Replacing (owner next : GenerationId)
| Retiring (owner old : GenerationId).

Inductive ownership_step : Ownership -> Ownership -> Prop :=
| own_begin g g' : g < g' -> ownership_step (Serving g) (Replacing g g')
| own_rollback g g' : ownership_step (Replacing g g') (Serving g)
| own_commit g g' : ownership_step (Replacing g g') (Retiring g' g)
| own_retired g g' : ownership_step (Retiring g g') (Serving g).

Definition ownership (s : ReplacementSupervisor) : Ownership :=
  match candidate s, retired s with
  | _, Some r => Retiring (generation_id (active s)) (generation_id r)
  | Some c, None => Replacing (generation_id (active s)) (generation_id c)
  | None, None => Serving (generation_id (active s))
  end.

Create HintDb ownership discriminated.
#[export] Hint Constructors ownership_step : ownership.

Lemma accepted_ownership s e actions s' :
  roles_ok s -> accepted s e actions s' ->
  ownership s' = ownership s \/ ownership_step (ownership s) (ownership s').
Proof.
  intros Hok Hacc. destruct s as [a [c|] [r|]]; try done;
    destruct Hacc; unfold roles_ok, ownership in *; simplify_eq/=;
    eauto with ownership.
Qed.

(** ** Properties *)

(** [apply] accepts exactly what the rules of [accepted] allow: an event
    succeeds, with these actions and this state, if and only if a rule for it
    applies to the roles and lifecycles of the state. *)
Theorem replacement_apply_spec s e actions s' :
  ReplacementSupervisor_apply e s = (Ok actions, s') <-> accepted s e actions s'.
Proof. split; [apply apply_accepted|apply accepted_apply]. Qed.

(** C6: whatever events are delivered to a supervisor that [new] created, in
    whatever order, its roles satisfy the role invariant (at most one of
    candidate and retired, their lifecycles and generations consistent with the
    active instance), and [phase] never reaches its [unreachable!]. *)
Theorem replacement_invariant a s es :
  ReplacementSupervisor_new a = Ok s ->
  roles_ok (replacement_run s es) /\ ReplacementSupervisor_phase (replacement_run s es) <> None.
Proof. intros H. split; [|apply roles_ok_phase]; eauto with replacement. Qed.

(** C40: in every state a supervisor can reach, an event that [apply] refuses
    leaves the supervisor as it was, although the code writes and takes roles
    before its later checks. *)
Theorem replacement_error_atomic a s es e err s' :
  ReplacementSupervisor_new a = Ok s ->
  ReplacementSupervisor_apply e (replacement_run s es) = (Err err, s') ->
  s' = replacement_run s es.
Proof. intros H. apply apply_error; eauto with replacement. Qed.

(** C12: a candidate becomes the active instance only at the end of the adoption
    protocol: when [CandidateActivated] is accepted, the last accepted events
    are [Begin] of this candidate, its spawn, handshake and preparation, and
    the quiescing of the instance it replaces, in this order and with nothing
    accepted in between. *)
Theorem replacement_commit_protocol a s es id actions s' :
  ReplacementSupervisor_new a = Ok s ->
  ReplacementSupervisor_apply (CandidateActivated id) (replacement_run s es) = (Ok actions, s') ->
  exists before begun,
    accepted_events s es =
      before ++ adoption begun (instance_id (active (replacement_run s es))) /\
    instance_id begun = id /\ generation_id begun = generation_id (active s').
Proof.
  intros Hnew Hap. apply apply_accepted in Hap. inversion Hap as [| | | | |c Hc Hl Ha| | | | | | | | |].
  subst. assert (trace_explains s []) as H0.
  { intros ?? Hs. unfold ReplacementSupervisor_new in Hnew. case_match; by simplify_eq. }
  destruct (trace_explains_run s es [] ltac:(eauto with replacement) H0 c 5%nat)
    as (before & begun & Htr & Hid & Hg); [done|by rewrite Hl|].
  by exists before, begun.
Qed.

(** Every accepted event other than [Begin] leaves the state unchanged or
    strictly lowers the number of events the replacement still needs, so no
    replacement can cycle. *)
Theorem replacement_no_cycle a s es e actions s' :
  ReplacementSupervisor_new a = Ok s ->
  ReplacementSupervisor_apply e (replacement_run s es) = (Ok actions, s') ->
  is_begin e = false ->
  s' = replacement_run s es \/
  0 <= replacement_rank s' < replacement_rank (replacement_run s es).
Proof.
  intros Hnew Hap Hb. apply apply_accepted in Hap.
  assert (roles_ok (replacement_run s es)) as Hok by eauto with replacement.
  destruct (accepted_rank _ _ _ _ Hok Hap Hb); auto using rank_nonneg.
Qed.

(** From every reachable state, the events [next_event] names are all
    accepted and bring the supervisor back to [Running] with an active instance
    in at most nine steps: no replacement is stuck. *)
Theorem replacement_completes a s es :
  ReplacementSupervisor_new a = Ok s ->
  let s1 := replacement_run s es in
  let s2 := replacement_run s1 (drive 9 s1) in
  ReplacementSupervisor_phase s2 = Some Running /\ lifecycle (active s2) = Active /\
  accepted_events s1 (drive 9 s1) = drive 9 s1.
Proof.
  intros H s1 s2. assert (roles_ok s1) as Hok by eauto with replacement.
  apply drive_completes; [done|]. clear -Hok. destruct s1 as [a [c|] [r|]];
    unfold roles_ok, replacement_rank, compose in *; simpl in *; try done.
  - destruct (lifecycle c), (lifecycle a); simpl; lia.
  - destruct (lifecycle r), (lifecycle a); simpl; lia.
  - destruct (lifecycle a); simpl; lia.
Qed.

(** C14: the supervisor refines the ownership machine: each event, accepted or
    refused, either leaves the ownership of the service as it is or is one of
    its steps, so ownership passes from a generation only to a newer one and
    only by a commit. *)
Theorem replacement_refines_ownership a s es e :
  ReplacementSupervisor_new a = Ok s ->
  let s1 := replacement_run s es in
  let s2 := replacement_step s1 e in
  ownership s2 = ownership s1 \/ ownership_step (ownership s1) (ownership s2).
Proof.
  intros H s1 s2. assert (roles_ok s1) as Hok by eauto with replacement.
  destruct (replacement_step_cases s1 e Hok) as [(actions & Hacc & _) | [Heq _]].
  - by eapply accepted_ownership.
  - left. subst s2. by rewrite Heq.
Qed.

(** *** Witnesses

    One complete replacement of generation 1 by generation 2. *)

Definition example_id (name : bytes) : InstanceId := mkInstanceId {| BoundedString_0 := name |}.
Definition example_active : ServiceInstance := mkInstance (example_id (lit "blue")) 1 Active.
Definition example_candidate : ServiceInstance := mkInstance (example_id (lit "green")) 2 Spawned.
Definition example_start : ReplacementSupervisor := mkSupervisor example_active None None.
Definition example_adopted : list ReplacementEvent :=
  CandidateStopped (instance_id example_active) ::
  adoption example_candidate (instance_id example_active).

Lemma replacement_invariant_witness :
  roles_ok (replacement_run example_start example_adopted) /\
  ReplacementSupervisor_phase (replacement_run example_start example_adopted) <> None.
Proof. apply (replacement_invariant example_active); vm_compute; reflexivity. Defined.

Lemma replacement_error_atomic_witness :
  (ReplacementSupervisor_apply (Begin example_candidate)
     (replacement_run example_start example_adopted)).2 =
  replacement_run example_start example_adopted.
Proof.
  apply (replacement_error_atomic example_active example_start example_adopted
           (Begin example_candidate) ReplacementInProgress); vm_compute; reflexivity.
Defined.

Lemma replacement_commit_protocol_witness :
  exists before begun,
    accepted_events example_start example_adopted =
      before ++ adoption begun
        (instance_id (active (replacement_run example_start example_adopted))) /\
    instance_id begun = instance_id example_candidate /\ generation_id begun = 2.
Proof.
  apply (replacement_commit_protocol example_active example_start example_adopted
    (instance_id example_candidate) [Drain (instance_id example_active)]
    (replacement_run example_start
       (example_adopted ++ [CandidateActivated (instance_id example_candidate)])));
    vm_compute; reflexivity.
Defined.

Lemma replacement_no_cycle_witness :
  let s1 := replacement_run example_start [Begin example_candidate] in
  let s2 := replacement_step s1 (CandidateSpawned (instance_id example_candidate)) in
  s2 = s1 \/ 0 <= replacement_rank s2 < replacement_rank s1.
Proof.
  apply (replacement_no_cycle example_active example_start [Begin example_candidate]
    (CandidateSpawned (instance_id example_candidate)) []); vm_compute; reflexivity.
Defined.

Lemma replacement_completes_witness :
  let s1 := replacement_run example_start example_adopted in
  let s2 := replacement_run s1 (drive 9 s1) in
  ReplacementSupervisor_phase s2 = Some Running /\ lifecycle (active s2) = Active /\
  accepted_events s1 (drive 9 s1) = drive 9 s1.
Proof. apply (replacement_completes example_active); vm_compute; reflexivity. Defined.

Lemma replacement_refines_ownership_witness :
  let s1 := replacement_run example_start example_adopted in
  let s2 := replacement_step s1 (CandidateActivated (instance_id example_candidate)) in
  ownership s2 = ownership s1 \/ ownership_step (ownership s1) (ownership s2).
Proof. apply (replacement_refines_ownership example_active); vm_compute; reflexivity. Defined.
