(* ===== verification/Catalog.v ===== *)
(** The catalogue of launch documents of one supervised service:
    [crates/oxiroute-supervision/src/catalog.rs].  Revisions and payloads are
    opaque, so the development is over any types of them, as the code is.

    Shows that the catalogue never holds two documents of the same instance or
    generation, that accepted and allocated generations only grow, also across
    the top of [u64], that an allocated generation is accepted, and that a
    refused operation changes nothing. *)

From stdpp Require Import base list sets sorting.
From Stdlib Require Import ZArith Lia.
From S2P Require Import Prelude Bytes Identity.

Open Scope Z_scope.

(** ** Data *)

Inductive GenerationRole : Type :=
| Active | Candidate | Previous | Quarantined | RestartRequired.

Record GenerationLaunchDocument (R T : Type) : Type := mkDocument {
  instance_id : InstanceId;
  generation_id : GenerationId;
  revision : R;
  payload : T;
}.
Arguments mkDocument {R T}.
Arguments instance_id {R T}.
Arguments generation_id {R T}.
Arguments revision {R T}.
Arguments payload {R T}.

Record SupervisedGenerationCatalog (R T : Type) : Type := mkCatalog {
  active : GenerationLaunchDocument R T;
  candidate : option (GenerationLaunchDocument R T);
  previous : option (GenerationLaunchDocument R T);
  quarantined : option (GenerationLaunchDocument R T);
  restart_required : option (GenerationLaunchDocument R T);
  next_generation : option GenerationId;
  generation_high_watermark : GenerationId;
  consumed_generation_high_watermark : GenerationId;
}.
Arguments mkCatalog {R T}.
Arguments active {R T}.
Arguments candidate {R T}.
Arguments previous {R T}.
Arguments quarantined {R T}.
Arguments restart_required {R T}.
Arguments next_generation {R T}.
Arguments generation_high_watermark {R T}.
Arguments consumed_generation_high_watermark {R T}.

Inductive CatalogError : Type :=
| CandidateInProgress
| GenerationExhausted
| MissingRole (role : GenerationRole)
| DuplicateInstanceId (instance_id : InstanceId)
| StaleGeneration (current candidate : GenerationId).

Section Catalogs.
Context {R T : Type}.
Implicit Types (c : SupervisedGenerationCatalog R T) (d : GenerationLaunchDocument R T).

Definition ROLES : list GenerationRole :=
  [Active; Candidate; Previous; Quarantined; RestartRequired].

Definition catalog_new d : SupervisedGenerationCatalog R T :=
  {| active := d; candidate := None; previous := None; quarantined := None;
     restart_required := None;
     next_generation := checked_add u64_max (generation_id d) 1;
     generation_high_watermark := generation_id d;
     consumed_generation_high_watermark := generation_id d |}.

Definition catalog_get c (role : GenerationRole) : option (GenerationLaunchDocument R T) :=
  match role with
  | Active => Some (active c)
  | Candidate => candidate c
  | Previous => previous c
  | Quarantined => quarantined c
  | RestartRequired => restart_required c
  end.

Definition documents c : list (GenerationRole * GenerationLaunchDocument R T) :=
  omap (fun role => (fun document => (role, document)) <$> catalog_get c role) ROLES.

Definition option_iter {A} (o : option A) : list A :=
  match o with Some a => [a] | None => [] end.

(** The four optional roles in the order the code chains them. *)
Definition retained c : list (GenerationLaunchDocument R T) :=
  option_iter (candidate c) ++ option_iter (previous c) ++ option_iter (quarantined c) ++
  option_iter (restart_required c).

Definition contains_instance_id c (id : InstanceId) : bool :=
  bool_decide (instance_id (active c) = id) ||
  existsb (fun document => bool_decide (instance_id document = id)) (retained c).

Definition latest_retained_generation c : GenerationId :=
  foldl Z.max (generation_id (active c)) (map generation_id (retained c)).

Definition validate_generation c (g : GenerationId) : result unit CatalogError :=
  if (g <=? latest_retained_generation c) || (g <=? consumed_generation_high_watermark c) then
    Err (StaleGeneration (generation_high_watermark c) g)
  else Ok tt.

(** Assignments to the fields. *)
Definition with_active d c : SupervisedGenerationCatalog R T :=
  mkCatalog d (candidate c) (previous c) (quarantined c) (restart_required c)
    (next_generation c) (generation_high_watermark c) (consumed_generation_high_watermark c).
Definition with_candidate (o : option (GenerationLaunchDocument R T)) c :
    SupervisedGenerationCatalog R T :=
  mkCatalog (active c) o (previous c) (quarantined c) (restart_required c)
    (next_generation c) (generation_high_watermark c) (consumed_generation_high_watermark c).
Definition with_previous (o : option (GenerationLaunchDocument R T)) c :
    SupervisedGenerationCatalog R T :=
  mkCatalog (active c) (candidate c) o (quarantined c) (restart_required c)
    (next_generation c) (generation_high_watermark c) (consumed_generation_high_watermark c).
Definition with_quarantined (o : option (GenerationLaunchDocument R T)) c :
    SupervisedGenerationCatalog R T :=
  mkCatalog (active c) (candidate c) (previous c) o (restart_required c)
    (next_generation c) (generation_high_watermark c) (consumed_generation_high_watermark c).
Definition with_restart_required (o : option (GenerationLaunchDocument R T)) c :
    SupervisedGenerationCatalog R T :=
  mkCatalog (active c) (candidate c) (previous c) (quarantined c) o
    (next_generation c) (generation_high_watermark c) (consumed_generation_high_watermark c).
Definition with_next_generation (n : option GenerationId) c : SupervisedGenerationCatalog R T :=
  mkCatalog (active c) (candidate c) (previous c) (quarantined c) (restart_required c)
    n (generation_high_watermark c) (consumed_generation_high_watermark c).
Definition with_high_watermark (g : GenerationId) c : SupervisedGenerationCatalog R T :=
  mkCatalog (active c) (candidate c) (previous c) (quarantined c) (restart_required c)
    (next_generation c) g (consumed_generation_high_watermark c).
Definition with_consumed (g : GenerationId) c : SupervisedGenerationCatalog R T :=
  mkCatalog (active c) (candidate c) (previous c) (quarantined c) (restart_required c)
    (next_generation c) (generation_high_watermark c) g.

(** ** Operations *)

Definition Cat (A : Type) : Type := M (SupervisedGenerationCatalog R T) CatalogError A.

Definition allocate_generation : Cat GenerationId :=
  let! generation := mtry (fun c => ok_or GenerationExhausted (next_generation c)) in
  let! _ := mwrite (with_next_generation (checked_add u64_max generation 1)) in
  let! _ := mwrite (with_high_watermark generation) in
  mret generation.

Definition consume_generation (g : GenerationId) : Cat unit := mwrite (with_consumed g).

Definition advance_generation_allocator (g : GenerationId) : Cat unit :=
  let! _ := mwrite (fun c => with_high_watermark (Z.max (generation_high_watermark c) g) c) in
  mwrite (fun c =>
    if match next_generation c with Some next => next <=? g | None => false end then
      with_next_generation (checked_add u64_max g 1) c
    else c).

Definition begin_candidate d : Cat unit :=
  let! _ := mtry (fun c =>
    if bool_decide (is_Some (candidate c)) then Err CandidateInProgress else Ok tt) in
  let! _ := mtry (fun c =>
    if contains_instance_id c (instance_id d) then Err (DuplicateInstanceId (instance_id d))
    else Ok tt) in
  let! _ := mtry (fun c => validate_generation c (generation_id d)) in
  let! _ := consume_generation (generation_id d) in
  let! _ := advance_generation_allocator (generation_id d) in
  mwrite (with_candidate (Some d)).

Definition take_candidate : Cat (GenerationLaunchDocument R T) :=
  let! candidate := mtry (fun c => ok_or (MissingRole Candidate) (candidate c)) in
  let! _ := mwrite (with_candidate None) in
  mret candidate.

Definition catalog_commit_candidate : Cat (option (GenerationLaunchDocument R T)) :=
  let! candidate := take_candidate in
  let! former := mread active in
  let! _ := mwrite (with_active candidate) in
  let! displaced := mread previous in
  let! _ := mwrite (with_previous (Some former)) in
  mret displaced.

Definition quarantine_candidate : Cat (option (GenerationLaunchDocument R T)) :=
  let! candidate := take_candidate in
  let! displaced := mread quarantined in
  let! _ := mwrite (with_quarantined (Some candidate)) in
  mret displaced.

Definition record_restart_required d : Cat (option (GenerationLaunchDocument R T)) :=
  let! _ := mtry (fun c =>
    if contains_instance_id c (instance_id d) then Err (DuplicateInstanceId (instance_id d))
    else Ok tt) in
  let! _ := mtry (fun c => validate_generation c (generation_id d)) in
  let! _ := consume_generation (generation_id d) in
  let! _ := advance_generation_allocator (generation_id d) in
  let! displaced := mread restart_required in
  let! _ := mwrite (with_restart_required (Some d)) in
  mret displaced.

Definition take_previous : Cat (option (GenerationLaunchDocument R T)) :=
  let! taken := mread previous in
  let! _ := mwrite (with_previous None) in
  mret taken.
Definition take_quarantined : Cat (option (GenerationLaunchDocument R T)) :=
  let! taken := mread quarantined in
  let! _ := mwrite (with_quarantined None) in
  mret taken.
Definition take_restart_required : Cat (option (GenerationLaunchDocument R T)) :=
  let! taken := mread restart_required in
  let! _ := mwrite (with_restart_required None) in
  mret taken.

(** Every operation on [&mut self], as one type of requests. *)
Inductive CatalogOp : Type :=
| Allocate
| BeginCandidate (d : GenerationLaunchDocument R T)
| CommitCandidate
| QuarantineCandidate
| RecordRestartRequired (d : GenerationLaunchDocument R T)
| TakePrevious
| TakeQuarantined
| TakeRestartRequired.

Definition discard {A} (m : Cat A) : Cat unit := let! _ := m in mret tt.

Definition catalog_apply (op : CatalogOp) : Cat unit :=
  match op with
  | Allocate => discard allocate_generation
  | BeginCandidate d => begin_candidate d
  | CommitCandidate => discard catalog_commit_candidate
  | QuarantineCandidate => discard quarantine_candidate
  | RecordRestartRequired d => discard (record_restart_required d)
  | TakePrevious => discard take_previous
  | TakeQuarantined => discard take_quarantined
  | TakeRestartRequired => discard take_restart_required
  end.

Definition catalog_step c (op : CatalogOp) : SupervisedGenerationCatalog R T :=
  (catalog_apply op c).2.

Definition catalog_run c (ops : list CatalogOp) : SupervisedGenerationCatalog R T :=
  foldl catalog_step c ops.

(** The generation a request hands out or takes in, when it is granted. *)
Definition consumed_by (op : CatalogOp) c : option GenerationId :=
  match op with
  | BeginCandidate d | RecordRestartRequired d =>
      if is_ok (catalog_apply op c).1 then Some (generation_id d) else None
  | _ => None
  end.
Definition allocated_by (op : CatalogOp) c : option GenerationId :=
  match op with Allocate => result_ok (allocate_generation c).1 | _ => None end.

Fixpoint trace_of (f : CatalogOp -> SupervisedGenerationCatalog R T -> option GenerationId)
    c (ops : list CatalogOp) : list GenerationId :=
  match ops with
  | [] => []
  | op :: ops => option_iter (f op c) ++ trace_of f (catalog_step c op) ops
  end.

(** ** The invariant *)

(** A document's generation is a [u64]. *)
Definition op_in_range (op : CatalogOp) : Prop :=
  match op with
  | BeginCandidate d | RecordRestartRequired d => 0 <= generation_id d <= u64_max
  | _ => True
  end.

Record catalog_ok c : Prop := {
  ok_ids : NoDup (instance_id (active c) :: map instance_id (retained c));
  ok_generations : NoDup (generation_id (active c) :: map generation_id (retained c));
  ok_consumed : forall d, d ∈ active c :: retained c ->
    0 <= generation_id d <= consumed_generation_high_watermark c;
  ok_watermark : consumed_generation_high_watermark c <= generation_high_watermark c <= u64_max;
  ok_next : next_generation c = checked_add u64_max (generation_high_watermark c) 1;
  ok_candidate : forall d, candidate c = Some d -> generation_id (active c) < generation_id d;
  ok_previous : forall d, previous c = Some d -> generation_id d < generation_id (active c);
}.


Lemma foldl_max_le a l m : foldl Z.max a l <= m <-> a <= m /\ Forall (fun x => x <= m) l.
Proof.
  revert a; induction l as [|x l IH]; intros a; simpl; [naive_solver|].
  rewrite IH, Forall_cons. split; intros; destruct_and!; split_and!; try done; lia.
Qed.

Lemma contains_instance_id_false c id :
  contains_instance_id c id = false <-> id ∉ instance_id (active c) :: map instance_id (retained c).
Proof.
  unfold contains_instance_id. rewrite not_elem_of_cons, orb_false_iff, bool_decide_eq_false.
  rewrite <- not_true_iff_false, existsb_exists. setoid_rewrite bool_decide_eq_true.
  rewrite list_elem_of_fmap. setoid_rewrite list_elem_of_In. naive_solver.
Qed.

Lemma validate_generation_Ok c g u :
  catalog_ok c ->
  validate_generation c g = Ok u <-> consumed_generation_high_watermark c < g.
Proof.
  intros Hok. destruct u. unfold validate_generation.
  assert (latest_retained_generation c <= consumed_generation_high_watermark c).
  { apply foldl_max_le. rewrite Forall_map. split; [|apply Forall_forall; intros d Hd];
      apply (ok_consumed c Hok); set_solver. }
  destruct (Z.leb_spec g (latest_retained_generation c)),
    (Z.leb_spec g (consumed_generation_high_watermark c)); naive_solver lia.
Qed.

(** What an accepted document changes: a state with the document consumed and
    the allocator past it, before it is filed under its role. *)
Definition consume c (g : GenerationId) : SupervisedGenerationCatalog R T :=
  let hw := Z.max (generation_high_watermark c) g in
  mkCatalog (active c) (candidate c) (previous c) (quarantined c) (restart_required c)
    (checked_add u64_max hw 1) hw g.

Lemma advance_consume c g :
  catalog_ok c -> g <= u64_max ->
  advance_generation_allocator g (with_consumed g c) = (Ok tt, consume c g).
Proof.
  intros [] Hg. destruct c as [a ca pr qu re nx hw co]; simpl in *. subst nx.
  unfold advance_generation_allocator, mbind_se, mwrite, consume, with_high_watermark,
    with_next_generation, checked_add; simpl.
  destruct (Z.leb_spec (hw + 1) u64_max); simpl.
  - destruct (Z.leb_spec (hw + 1) g); simpl.
    + by rewrite Z.max_r by lia.
    + rewrite Z.max_l by lia. by destruct (Z.leb_spec (hw + 1) u64_max); [|lia].
  - rewrite Z.max_l by lia. by destruct (Z.leb_spec (hw + 1) u64_max); [lia|].
Qed.

Lemma begin_candidate_Ok c d u c' :
  catalog_ok c -> generation_id d <= u64_max ->
  begin_candidate d c = (Ok u, c') <->
  candidate c = None /\ (instance_id d ∉ instance_id (active c) :: map instance_id (retained c)) /\
  consumed_generation_high_watermark c < generation_id d /\
  c' = with_candidate (Some d) (consume c (generation_id d)).
Proof.
  intros Hok Hg. rewrite <- contains_instance_id_false, <- (validate_generation_Ok c _ tt Hok).
  unfold begin_candidate, mtry, mbind_se, consume_generation, mwrite. destruct u.
  rewrite eq_None_not_Some. case_bool_decide; [naive_solver|].
  destruct (contains_instance_id c _); [naive_solver|].
  destruct (validate_generation c _) as [[]|]; [|naive_solver].
  rewrite advance_consume by done. naive_solver.
Qed.

Lemma record_restart_required_Ok c d o c' :
  catalog_ok c -> generation_id d <= u64_max ->
  record_restart_required d c = (Ok o, c') <->
  (instance_id d ∉ instance_id (active c) :: map instance_id (retained c)) /\
  consumed_generation_high_watermark c < generation_id d /\
  o = restart_required c /\ c' = with_restart_required (Some d) (consume c (generation_id d)).
Proof.
  intros Hok Hg. rewrite <- contains_instance_id_false, <- (validate_generation_Ok c _ tt Hok).
  unfold record_restart_required, mtry, mread, mret, mbind_se, consume_generation, mwrite.
  destruct (contains_instance_id c _); [naive_solver|].
  destruct (validate_generation c _) as [[]|]; [|naive_solver].
  rewrite advance_consume by done. naive_solver.
Qed.

(** A refused request changes nothing. *)
Lemma catalog_apply_Err op c e c' : catalog_apply op c = (Err e, c') -> c' = c.
Proof.
  destruct op; unfold catalog_apply, discard, allocate_generation, begin_candidate,
    catalog_commit_candidate, quarantine_candidate, take_candidate, record_restart_required,
    take_previous, take_quarantined, take_restart_required, consume_generation,
    advance_generation_allocator, mbind_se, mtry, mread, mwrite, mret;
    repeat case_match; naive_solver.
Qed.

(** Filing a fresh document under a role keeps the invariant. *)
Lemma file_ok c c' d :
  catalog_ok c -> active c' = active c ->
  active c' :: retained c' ⊆+ d :: active c :: retained c ->
  (instance_id d ∉ instance_id (active c) :: map instance_id (retained c)) ->
  consumed_generation_high_watermark c < generation_id d <= u64_max ->
  next_generation c' = next_generation (consume c (generation_id d)) ->
  generation_high_watermark c' = generation_high_watermark (consume c (generation_id d)) ->
  consumed_generation_high_watermark c' = generation_id d ->
  (candidate c' = Some d \/ candidate c' = candidate c) -> previous c' = previous c ->
  catalog_ok c'.
Proof.
  intros [Hid Hgen Hco Hhw Hnx Hca Hpr] Ha Hsub Hfresh Hd Hnx' Hhw' Hco' Hca' Hpr'.
  assert (forall x, x ∈ active c :: retained c -> 0 <= generation_id x < generation_id d) as Hlt
    by (intros x Hx%Hco; lia).
  split; rewrite ?Hnx', ?Hhw', ?Hco', ?Ha, ?Hpr' in *; simpl; try done; try lia.
  - apply (NoDup_map_submseteq instance_id _ _ Hsub). by apply NoDup_cons.
  - apply (NoDup_map_submseteq generation_id _ _ Hsub). apply NoDup_cons. split; [|done].
    intros (x & Hx & Hin)%(list_elem_of_fmap generation_id (active c :: retained c)).
    specialize (Hlt x Hin). lia.
  - intros x Hx. eapply elem_of_submseteq, elem_of_cons in Hx as [-> | Hx]; [..|exact Hsub].
    + specialize (Hco (active c) ltac:(left)). lia.
    + specialize (Hlt x Hx). lia.
  - intros x Hx. destruct Hca' as [Hca' | Hca']; rewrite Hca' in Hx; [|by apply Hca].
    injection Hx as <-. apply Hlt. left.
Qed.

(** Documents that only move between roles or leave keep the invariant. *)
Lemma shrink_ok c c' :
  catalog_ok c -> active c' :: retained c' ⊆+ active c :: retained c ->
  next_generation c' = next_generation c ->
  generation_high_watermark c' = generation_high_watermark c ->
  consumed_generation_high_watermark c' = consumed_generation_high_watermark c ->
  (forall d, candidate c' = Some d -> generation_id (active c') < generation_id d) ->
  (forall d, previous c' = Some d -> generation_id d < generation_id (active c')) ->
  catalog_ok c'.
Proof.
  intros [] Hsub Hnx Hhw Hco Hca Hpr. split; rewrite ?Hnx, ?Hhw, ?Hco; try done.
  - by apply (NoDup_map_submseteq instance_id _ _ Hsub).
  - by apply (NoDup_map_submseteq generation_id _ _ Hsub).
  - intros d Hd. apply ok_consumed0. by eapply elem_of_submseteq.
Qed.

Lemma begin_candidate_ok c d c' u :
  catalog_ok c -> generation_id d <= u64_max -> begin_candidate d c = (Ok u, c') -> catalog_ok c'.
Proof.
  intros Hok Hg (Hnone & Hfresh & Hlt & ->)%begin_candidate_Ok; [|done..].
  apply (file_ok c _ d); simpl; auto; unfold retained; simpl; rewrite ?Hnone; solve_submseteq.
Qed.

Lemma record_restart_required_ok c d c' o :
  catalog_ok c -> generation_id d <= u64_max ->
  record_restart_required d c = (Ok o, c') -> catalog_ok c'.
Proof.
  intros Hok Hg (Hfresh & Hlt & _ & ->)%record_restart_required_Ok; [|done..].
  apply (file_ok c _ d); simpl; auto; unfold retained; simpl.
  destruct (restart_required c); simpl; solve_submseteq.
Qed.

Lemma take_candidate_Ok c d c' :
  take_candidate c = (Ok d, c') <-> candidate c = Some d /\ c' = with_candidate None c.
Proof.
  unfold take_candidate, mbind_se, mtry, mwrite, mret.
  destruct (candidate c); simpl; naive_solver.
Qed.

Lemma commit_candidate_Ok c o c' :
  catalog_commit_candidate c = (Ok o, c') <->
  exists d, candidate c = Some d /\ o = previous c /\
    c' = with_previous (Some (active c)) (with_active d (with_candidate None c)).
Proof.
  unfold catalog_commit_candidate. rewrite mbind_se_Ok. setoid_rewrite take_candidate_Ok.
  unfold mbind_se, mread, mwrite, mret. naive_solver.
Qed.

Lemma quarantine_candidate_Ok c o c' :
  quarantine_candidate c = (Ok o, c') <->
  exists d, candidate c = Some d /\ o = quarantined c /\
    c' = with_quarantined (Some d) (with_candidate None c).
Proof.
  unfold quarantine_candidate. rewrite mbind_se_Ok. setoid_rewrite take_candidate_Ok.
  unfold mbind_se, mread, mwrite, mret. naive_solver.
Qed.

Lemma allocate_generation_Ok c g c' :
  catalog_ok c ->
  allocate_generation c = (Ok g, c') <->
  g = generation_high_watermark c + 1 /\ g <= u64_max /\
  c' = with_high_watermark g (with_next_generation (checked_add u64_max g 1) c).
Proof.
  intros []. unfold allocate_generation, mbind_se, mtry, mwrite, mret. rewrite ok_next0.
  unfold checked_add at 1. destruct (Z.leb_spec (generation_high_watermark c + 1) u64_max); simpl;
    naive_solver lia.
Qed.

Lemma moved_ok op c c' u :
  catalog_ok c -> (op = CommitCandidate \/ op = QuarantineCandidate) ->
  catalog_apply op c = (Ok u, c') -> catalog_ok c'.
Proof.
  intros Hok [-> | ->]; simpl; unfold discard; intros H; res_inv.
  - apply commit_candidate_Ok in H0 as (d & Hd & _ & ->).
    apply (shrink_ok c); simpl; try done.
    + unfold retained; simpl. rewrite Hd. destruct (previous c); simpl; solve_submseteq.
    + intros ? [= <-]. by apply Hok.
  - apply quarantine_candidate_Ok in H0 as (d & Hd & _ & ->).
    apply (shrink_ok c); simpl; try done; [|by apply Hok].
    unfold retained; simpl. rewrite Hd. destruct (quarantined c); simpl; solve_submseteq.
Qed.

Lemma taken_ok op c c' u :
  catalog_ok c -> (op = TakePrevious \/ op = TakeQuarantined \/ op = TakeRestartRequired) ->
  catalog_apply op c = (Ok u, c') -> catalog_ok c'.
Proof.
  intros Hok [-> | [-> | ->]]; simpl; unfold discard, take_previous, take_quarantined,
    take_restart_required; intros H; res_inv; (eapply shrink_ok; [exact Hok|..]); simpl; try done; try apply Hok;
    unfold retained, option_iter; simpl; repeat case_match; simpl; solve_submseteq.
Qed.

Lemma allocate_ok c c' g : catalog_ok c -> allocate_generation c = (Ok g, c') -> catalog_ok c'.
Proof.
  intros Hok (-> & Hle & ->)%allocate_generation_Ok; [|done].
  destruct Hok; split; simpl; try done. lia.
Qed.

Lemma catalog_step_ok op c : catalog_ok c -> op_in_range op -> catalog_ok (catalog_step c op).
Proof.
  intros Hok Hop. unfold catalog_step. destruct (catalog_apply op c) as [[u|e] c'] eqn:E; simpl;
    [|by apply catalog_apply_Err in E; subst].
  destruct op; try (by refine (moved_ok _ _ _ _ Hok _ E); auto);
    try (by refine (taken_ok _ _ _ _ Hok _ E); auto);
    simpl in E, Hop; unfold discard in E; res_inv;
    eauto using allocate_ok.
  - eapply begin_candidate_ok; [done|apply Hop|done].
  - eapply record_restart_required_ok; [done|apply Hop|done].
Qed.

Lemma catalog_run_ok ops c : catalog_ok c -> Forall op_in_range ops -> catalog_ok (catalog_run c ops).
Proof.
  revert c; induction ops as [|op ops IH]; intros c Hok Hops; [done|]. inversion Hops; subst.
  by apply IH; [apply catalog_step_ok|].
Qed.

Lemma catalog_new_ok d : 0 <= generation_id d <= u64_max -> catalog_ok (catalog_new d).
Proof.
  intros Hd. split; simpl; try done; try lia.
  - apply NoDup_singleton.
  - apply NoDup_singleton.
  - intros x ->%list_elem_of_singleton. lia.
Qed.

(** ** Monotonicity *)

Lemma allocated_step op c g :
  catalog_ok c -> allocated_by op c = Some g ->
  g = generation_high_watermark c + 1 /\
  generation_high_watermark (catalog_step c op) = g /\
  consumed_generation_high_watermark (catalog_step c op) = consumed_generation_high_watermark c.
Proof.
  intros Hok. unfold catalog_step. destruct op; simpl; try done. unfold discard, mbind_se.
  destruct (allocate_generation c) as [[g'|e] c'] eqn:E; simpl; [|done].
  apply allocate_generation_Ok in E as (-> & Hle & ->); [|done]. naive_solver.
Qed.

Lemma consumed_step op c g :
  catalog_ok c -> op_in_range op -> consumed_by op c = Some g ->
  consumed_generation_high_watermark c < g /\
  consumed_generation_high_watermark (catalog_step c op) = g /\
  generation_high_watermark (catalog_step c op) = Z.max (generation_high_watermark c) g.
Proof.
  intros Hok Hop. unfold consumed_by, catalog_step.
  destruct (catalog_apply op c) as [[u|e] c'] eqn:E; [|by destruct op].
  destruct op; simpl in *; try done; intros [= <-].
  - apply begin_candidate_Ok in E as (_ & _ & ? & ->); naive_solver lia.
  - unfold discard in E. res_inv.
    apply record_restart_required_Ok in H as (_ & ? & _ & ->); naive_solver lia.
Qed.

Lemma neither_step op c :
  allocated_by op c = None -> consumed_by op c = None ->
  generation_high_watermark (catalog_step c op) = generation_high_watermark c /\
  consumed_generation_high_watermark (catalog_step c op) = consumed_generation_high_watermark c.
Proof.
  intros Ha Hc. unfold catalog_step. destruct (catalog_apply op c) as [[u|e] c'] eqn:E; simpl;
    [|apply catalog_apply_Err in E; by subst].
  unfold consumed_by, allocated_by in *. destruct op; simpl in *; rewrite ?E in *; simpl in *;
    try done; unfold discard in E; res_inv.
  - by rewrite H in Ha.
  - by apply commit_candidate_Ok in H as (? & _ & _ & ->).
  - by apply quarantine_candidate_Ok in H as (? & _ & _ & ->).
  - unfold take_previous in H. by res_inv.
  - unfold take_quarantined in H. by res_inv.
  - unfold take_restart_required in H. by res_inv.
Qed.

Lemma step_watermarks_mono op c :
  catalog_ok c -> op_in_range op ->
  generation_high_watermark c <= generation_high_watermark (catalog_step c op) /\
  consumed_generation_high_watermark c <= consumed_generation_high_watermark (catalog_step c op).
Proof.
  intros Hok Hop. destruct (allocated_by op c) as [g|] eqn:Ea.
  { destruct (allocated_step op c g Hok Ea). lia. }
  destruct (consumed_by op c) as [g|] eqn:Ec.
  { destruct (consumed_step op c g Hok Hop Ec). lia. }
  destruct (neither_step op c Ea Ec). lia.
Qed.

(** Every number in a trace is above the counter [m] it starts from, and the
    trace climbs. *)
Lemma trace_climbs f (m : SupervisedGenerationCatalog R T -> Z) :
  (forall op c g, catalog_ok c -> op_in_range op -> f op c = Some g ->
     m c < g <= m (catalog_step c op)) ->
  (forall op c, catalog_ok c -> op_in_range op -> m c <= m (catalog_step c op)) ->
  forall ops c, catalog_ok c -> Forall op_in_range ops ->
  Sorted Z.lt (m c :: trace_of f c ops).
Proof.
  intros Hf Hm. enough (forall ops c b, catalog_ok c -> Forall op_in_range ops -> b <= m c ->
    Sorted Z.lt (b :: trace_of f c ops)) by (intros; by apply H).
  intros ops. induction ops as [|op ops IH]; intros c b Hok Hops Hb; simpl; [by repeat constructor|].
  inversion Hops; subst. specialize (IH (catalog_step c op)).
  destruct (f op c) as [g|] eqn:Ef; simpl.
  - destruct (Hf op c g) as [? ?]; [done..|].
    constructor; [apply IH; [by apply catalog_step_ok|done|lia]|constructor; lia].
  - specialize (Hm op c ltac:(done) ltac:(done)). apply IH; [by apply catalog_step_ok|done|lia].
Qed.

(** ** Properties *)

(** C25: whatever requests a catalogue receives, granted or refused, its roles
    hold documents of distinct instances and distinct generations, the previous
    one older and the candidate newer than the active one, none newer than the
    consumed watermark, and the allocator stands right after the watermark of
    the generations handed out, or is exhausted when that is [u64::MAX]. *)
Theorem catalog_invariant d ops :
  0 <= generation_id d <= u64_max -> Forall op_in_range ops ->
  catalog_ok (catalog_run (catalog_new d) ops).
Proof. intros. apply catalog_run_ok; [by apply catalog_new_ok|done]. Qed.

(** The generations the catalogue takes in, and those it allocates, each form
    a strictly increasing sequence that starts above the initial generation: no
    generation is ever reused, also after a document left the catalogue. *)
Theorem catalog_generations_climb d ops :
  0 <= generation_id d <= u64_max -> Forall op_in_range ops ->
  Sorted Z.lt (generation_id d :: trace_of consumed_by (catalog_new d) ops) /\
  Sorted Z.lt (generation_id d :: trace_of allocated_by (catalog_new d) ops).
Proof.
  intros Hd Hops. apply catalog_new_ok in Hd as Hok. split.
  - change (generation_id d) with (consumed_generation_high_watermark (catalog_new d)).
    apply trace_climbs; try done.
    + intros op c g Hc Hop Hg. destruct (consumed_step op c g Hc Hop Hg). lia.
    + intros op c Hc Hop. by apply step_watermarks_mono.
  - change (generation_id d) with (generation_high_watermark (catalog_new d)).
    apply trace_climbs; try done.
    + intros op c g Hc Hop Hg. destruct (allocated_step op c g Hc Hg). lia.
    + intros op c Hc Hop. by apply step_watermarks_mono.
Qed.

(** In every reachable catalogue, allocation succeeds exactly while
    [u64::MAX] has not been handed out, and a document of a generation just
    allocated is accepted as candidate when there is none and its instance is
    new. *)
Theorem catalog_allocated_accepted d ops doc :
  0 <= generation_id d <= u64_max -> Forall op_in_range ops ->
  let c := catalog_run (catalog_new d) ops in
  let '(r, c1) := allocate_generation c in
  (is_ok r = true <-> generation_high_watermark c < u64_max) /\
  (r = Ok (generation_id doc) -> candidate c = None ->
   contains_instance_id c (instance_id doc) = false ->
   exists c2, begin_candidate doc c1 = (Ok tt, c2) /\ candidate c2 = Some doc).
Proof.
  intros Hd Hops c. assert (catalog_ok c) as Hok
    by (apply catalog_run_ok; [by apply catalog_new_ok|done]).
  destruct (allocate_generation c) as [r c1] eqn:E. split.
  - destruct r as [g|e]; simpl.
    + apply allocate_generation_Ok in E as (-> & ? & _); [split; [lia|done]|done].
    + unfold allocate_generation, mbind_se, mtry, mwrite, mret in E.
      rewrite (ok_next c Hok) in E. unfold checked_add in E.
      destruct (Z.leb_spec (generation_high_watermark c + 1) u64_max); simpl in E;
        [simplify_eq|split; [done|lia]].
  - intros -> Hnone Hid. apply allocate_ok in E as Hok1; [|done].
    apply allocate_generation_Ok in E as (Hg & Hle & ->); [|done].
    eexists. split; [apply begin_candidate_Ok; [done|lia|]; split_and!|]; simpl; try done.
    + by apply (contains_instance_id_false c).
    + destruct (ok_watermark c Hok). lia.
Qed.

(** A request the catalogue refuses leaves it exactly as it was. *)
Theorem catalog_error_atomic op c e :
  (catalog_apply op c).1 = Err e -> (catalog_apply op c).2 = c.
Proof.
  destruct (catalog_apply op c) as [r c'] eqn:E; simpl. intros ->.
  by eapply catalog_apply_Err.
Qed.

End Catalogs.
Arguments CatalogOp : clear implicits.

(** The [current] generation that a refusal reports is the highest allocated
    one, not the one a document has to exceed: with 5 allocated and nothing but 1
    taken in, generation 1 is refused with a report of 5, and 4 is accepted. *)
Theorem catalog_stale_report (id id' : InstanceId) :
  id <> id' ->
  let c := catalog_run (catalog_new (mkDocument id 1 tt tt)) [Allocate; Allocate; Allocate; Allocate] in
  (begin_candidate (mkDocument id' 1 tt tt) c).1 = Err (StaleGeneration 5 1) /\
  (begin_candidate (mkDocument id' 4 tt tt) c).1 = Ok tt.
Proof.
  intros Hne c. unfold begin_candidate, mbind_se, mtry; simpl.
  unfold contains_instance_id; simpl. by rewrite bool_decide_eq_false_2 by done.
Qed.

(** *** Witnesses *)

Definition example_instance (n : Z) : InstanceId :=
  mkInstanceId {| BoundedString_0 := [z2b (96 + n)] |}.
Definition example_document (n : Z) : GenerationLaunchDocument unit unit :=
  mkDocument (example_instance n) n tt tt.
Definition example_ops : list (CatalogOp unit unit) :=
  [Allocate; BeginCandidate (example_document 2); BeginCandidate (example_document 3);
   CommitCandidate; RecordRestartRequired (example_document 7); Allocate; QuarantineCandidate].

Lemma example_ops_in_range : Forall op_in_range example_ops.
Proof. repeat constructor; simpl; unfold u64_max; lia. Qed.

Lemma catalog_invariant_witness :
  catalog_ok (catalog_run (catalog_new (example_document 1)) example_ops).
Proof. apply catalog_invariant; [simpl; unfold u64_max; lia|apply example_ops_in_range]. Defined.

Lemma catalog_generations_climb_witness :
  Sorted Z.lt (1 :: trace_of consumed_by (catalog_new (example_document 1)) example_ops) /\
  Sorted Z.lt (1 :: trace_of allocated_by (catalog_new (example_document 1)) example_ops).
Proof.
  apply (catalog_generations_climb (example_document 1));
    [simpl; unfold u64_max; lia|apply example_ops_in_range].
Defined.

Lemma catalog_allocated_accepted_witness :
  let c := catalog_run (catalog_new (example_document 1)) example_ops in
  let '(r, c1) := allocate_generation c in
  (is_ok r = true <-> generation_high_watermark c < u64_max) /\
  (r = Ok 9 -> candidate c = None -> contains_instance_id c (example_instance 9) = false ->
   exists c2, begin_candidate (example_document 9) c1 = (Ok tt, c2) /\
              candidate c2 = Some (example_document 9)).
Proof.
  apply (catalog_allocated_accepted (example_document 1) example_ops (example_document 9));
    [simpl; unfold u64_max; lia|apply example_ops_in_range].
Defined.

Lemma catalog_error_atomic_witness :
  (catalog_apply (BeginCandidate (example_document 1)) (catalog_new (example_document 1))).2 =
  catalog_new (example_document 1).
Proof.
  apply (catalog_error_atomic _ _ (DuplicateInstanceId (example_instance 1))).
  vm_compute; reflexivity.
Defined.

Lemma catalog_stale_report_witness :
  let c := catalog_run (catalog_new (mkDocument (example_instance 1) 1 tt tt))
             [Allocate; Allocate; Allocate; Allocate] in
  (begin_candidate (mkDocument (example_instance 2) 1 tt tt) c).1 = Err (StaleGeneration 5 1) /\
  (begin_candidate (mkDocument (example_instance 2) 4 tt tt) c).1 = Ok tt.
Proof. apply catalog_stale_report. vm_compute. discriminate. Defined.
