(* ===== verification/Correlation.v ===== *)
(** The RPC correlation table: [crates/oxiroute-supervision/src/correlation.rs].
    The [BTreeMap] is a [gmap]; where the code iterates it, [btree_iter] gives
    its entries in key order.

    Shows that the table is a bounded map from tokens to requests: tokens are
    never issued twice, also when request identifiers are reused and when the
    64-bit generation runs out, so completing a token returns the very request
    it was issued for or fails, and [expire] removes exactly the due requests,
    in identifier order. *)

From stdpp Require Import base list gmap sorting.
From Stdlib Require Import ZArith Lia.
From S2P Require Import Prelude Bytes Identity.

Open Scope Z_scope.

(** ** Data *)

Record CorrelationToken : Type := mkToken {
  request_id : RequestId;
  generation : Z;
}.

#[export] Instance CorrelationToken_eq_dec : EqDecision CorrelationToken.
Proof. solve_decision. Defined.

Record PendingRequest (T : Type) : Type := mkPending { deadline : Epoch; value : T }.
Arguments mkPending {T}.
Arguments deadline {T}.
Arguments value {T}.

Inductive CorrelationError : Type :=
| Duplicate (request_id : RequestId)
| Full (maximum : Z)
| Unknown (token : CorrelationToken)
| GenerationExhausted.

Record CorrelationTable (T : Type) : Type := mkTable {
  pending : gmap RequestId (CorrelationToken * PendingRequest T);
  next_generation : Z;
}.
Arguments mkTable {T}.
Arguments pending {T}.
Arguments next_generation {T}.

(** The entries of a [BTreeMap] in key order. *)
Definition key_le {A} (x y : Z * A) : Prop := x.1 <= y.1.
#[export] Instance key_le_dec {A} : RelDecision (@key_le A).
Proof. intros x y; unfold key_le; apply _. Defined.
Definition btree_iter {A} (m : gmap Z A) : list (Z * A) := merge_sort key_le (map_to_list m).

Section Tables.
Context {T : Type} (MAX : Z).
Implicit Types (t : CorrelationTable T) (tok : CorrelationToken).

Definition table_new : CorrelationTable T := {| pending := ∅; next_generation := 1 |}.

Definition table_len t : Z := Z.of_nat (size (pending t)).
Definition table_is_empty t : bool := table_len t =? 0.

(** ** Operations *)

Definition Table (A : Type) : Type := M (CorrelationTable T) CorrelationError A.

(** [NonZeroU64::new]. *)
Definition nonzero (n : Z) : option Z := if n =? 0 then None else Some n.

Definition table_insert (id : RequestId) (d : Epoch) (v : T) : Table CorrelationToken :=
  let! _ := mtry (fun t =>
    if bool_decide (is_Some (pending t !! id)) then Err (Duplicate id) else Ok tt) in
  let! _ := mtry (fun t => if table_len t =? MAX then Err (Full MAX) else Ok tt) in
  let! g := mtry (fun t => ok_or GenerationExhausted (nonzero (next_generation t))) in
  let token := mkToken id g in
  let! _ := mwrite (fun t =>
    mkTable (pending t) (default 0 (checked_add u64_max (next_generation t) 1))) in
  let! _ := mwrite (fun t =>
    mkTable (<[id := (token, mkPending d v)]> (pending t)) (next_generation t)) in
  mret token.

Definition table_complete tok : Table (PendingRequest T) :=
  let! _ := mtry (fun t =>
    match pending t !! request_id tok with
    | Some (pending_token, _) => if bool_decide (pending_token = tok) then Ok tt else Err (Unknown tok)
    | None => Err (Unknown tok)
    end) in
  let! removed := mread (fun t => pending t !! request_id tok) in
  let! _ := mwrite (fun t => mkTable (delete (request_id tok) (pending t)) (next_generation t)) in
  mlift (ok_or (Unknown tok) (snd <$> removed)).

(** The [filter_map] that removes each expired identifier as it is consumed. *)
Fixpoint remove_each (ids : list RequestId)
    (m : gmap RequestId (CorrelationToken * PendingRequest T)) :
    list (CorrelationToken * PendingRequest T) *
    gmap RequestId (CorrelationToken * PendingRequest T) :=
  match ids with
  | [] => ([], m)
  | id :: ids =>
      let '(rest, m') := remove_each ids (delete id m) in
      match m !! id with Some entry => (entry :: rest, m') | None => (rest, m') end
  end.

Definition expired_ids (now : Epoch) t : list RequestId :=
  omap (fun '(id, (_, p)) => if deadline p <=? now then Some id else None) (btree_iter (pending t)).

Definition table_expire (now : Epoch) t :
    BoundedVec (CorrelationToken * PendingRequest T) * CorrelationTable T :=
  let '(expired, m) := remove_each (expired_ids now t) (pending t) in
  (BoundedVec_from_vec_within_bound expired, mkTable m (next_generation t)).

(** ** Invariant *)

(** The generations issued so far lie below [next_generation], or anywhere in
    [u64] once it wrapped to zero. *)
Definition issued t (g : Z) : Prop :=
  1 <= g <= u64_max /\ (next_generation t = 0 \/ g < next_generation t).

Record table_ok t : Prop := {
  ok_bound : table_len t <= MAX;
  ok_next : 0 <= next_generation t <= u64_max;
  ok_entries : forall id tok p, pending t !! id = Some (tok, p) ->
    request_id tok = id /\ issued t (generation tok);
}.

(** ** The table as a map from tokens *)

Definition view t tok : option (PendingRequest T) :=
  match pending t !! request_id tok with
  | Some (tok', p) => if bool_decide (tok' = tok) then Some p else None
  | None => None
  end.

Inductive TableOp : Type :=
| Insert (id : RequestId) (d : Epoch) (v : T)
| Complete (tok : CorrelationToken)
| Expire (now : Epoch).

Definition table_step t (op : TableOp) : CorrelationTable T :=
  match op with
  | Insert id d v => (table_insert id d v t).2
  | Complete tok => (table_complete tok t).2
  | Expire now => (table_expire now t).2
  end.

Definition table_run t (ops : list TableOp) : CorrelationTable T := foldl table_step t ops.

(** Whether an operation takes the request of [tok], due at [d], out of the table. *)
Definition removes tok (d : Epoch) (op : TableOp) : bool :=
  match op with
  | Insert _ _ _ => false
  | Complete tok' => bool_decide (tok' = tok)
  | Expire now => d <=? now
  end.

(** *** Inserting *)

Lemma table_insert_Ok id d v t tok t' :
  table_insert id d v t = (Ok tok, t') <->
  pending t !! id = None /\ table_len t <> MAX /\ next_generation t <> 0 /\
  tok = mkToken id (next_generation t) /\
  t' = mkTable (<[id := (tok, mkPending d v)]> (pending t))
         (default 0 (checked_add u64_max (next_generation t) 1)).
Proof.
  unfold table_insert, mbind_se, mtry, mwrite, mret, nonzero.
  rewrite eq_None_not_Some. case_bool_decide; [naive_solver|].
  destruct (Z.eqb_spec (table_len t) MAX); [naive_solver|].
  destruct (Z.eqb_spec (next_generation t) 0); simpl; naive_solver.
Qed.

Lemma table_insert_Err id d v t e t' : table_insert id d v t = (Err e, t') -> t' = t.
Proof.
  unfold table_insert, mbind_se, mtry, mwrite, mret. repeat case_match; naive_solver.
Qed.

Lemma issued_insert t g m :
  1 <= next_generation t <= u64_max -> issued t g \/ g = next_generation t ->
  issued (mkTable m (default 0 (checked_add u64_max (next_generation t) 1))) g.
Proof.
  unfold issued, checked_add; simpl.
  destruct (Z.leb_spec (next_generation t + 1) u64_max); simpl; lia.
Qed.

Lemma table_insert_ok id d v t tok t' :
  table_ok t -> table_insert id d v t = (Ok tok, t') -> table_ok t'.
Proof.
  intros [Hb Hn He] (Hnone & Hlen & Hg & -> & ->)%table_insert_Ok. split; simpl.
  - unfold table_len in *; simpl in *. rewrite map_size_insert_None by done. lia.
  - unfold checked_add. destruct (Z.leb_spec (next_generation t + 1) u64_max); simpl; lia.
  - intros id' tok p Hl. apply lookup_insert_Some in Hl as [[<- [= <- _]] | [Hne Hl]]; simpl.
    + split; [done|]. apply issued_insert; [lia|by right].
    + destruct (He _ _ _ Hl) as [? ?]. split; [done|]. apply issued_insert; [lia|by left].
Qed.

(** *** Completing *)

Lemma table_complete_spec tok t :
  table_complete tok t =
  match view t tok with
  | Some p => (Ok p, mkTable (delete (request_id tok) (pending t)) (next_generation t))
  | None => (Err (Unknown tok), t)
  end.
Proof.
  unfold table_complete, view, mbind_se, mtry, mread, mwrite, mlift.
  destruct (pending t !! request_id tok) as [[tok' p]|] eqn:E; [|done].
  by case_bool_decide.
Qed.

(** *** Expiring *)

Lemma remove_each_spec ids m :
  NoDup ids ->
  remove_each ids m = (omap (fun id => m !! id) ids, filter (fun kv => kv.1 ∉ ids) m).
Proof.
  revert m; induction ids as [|id ids IH]; intros m Hnd; simpl.
  { f_equal. symmetry. apply map_filter_id. intros. apply not_elem_of_nil. }
  inversion Hnd as [|?? Hid Hnd']; subst. rewrite IH by done.
  assert (omap (fun id0 => delete id m !! id0) ids = omap (fun id0 => m !! id0) ids) as ->.
  { apply list_omap_ext, Forall_Forall2_diag, Forall_forall. intros x Hx.
    apply lookup_delete_ne. set_solver. }
  assert (filter (fun kv : Z * _ => kv.1 ∉ ids) (delete id m) =
          filter (fun kv : Z * _ => kv.1 ∉ id :: ids) m) as ->.
  { apply map_eq. intros k. apply option_eq. intros x. rewrite !map_lookup_filter_Some.
    rewrite lookup_delete_Some. set_solver. }
  by destruct (m !! id).
Qed.

Lemma btree_iter_perm {A} (m : gmap Z A) : btree_iter m ≡ₚ map_to_list m.
Proof. apply merge_sort_Permutation. Qed.

Lemma btree_iter_sorted {A} (m : gmap Z A) : StronglySorted Z.lt (map fst (btree_iter m)).
Proof.
  assert (NoDup (map fst (btree_iter m))) as Hnd.
  { rewrite btree_iter_perm. apply NoDup_fst_map_to_list. }
  assert (StronglySorted key_le (btree_iter m)) as Hs.
  { apply StronglySorted_merge_sort; [intros ???; unfold key_le; lia|].
    intros x y; unfold key_le; lia. }
  induction Hs as [|x l Hs IH HF]; simpl in *; constructor; inversion Hnd; subst; [auto|].
  apply Forall_map, Forall_forall. intros y Hy. rewrite Forall_forall in HF.
  specialize (HF y Hy). unfold key_le in HF.
  assert (x.1 <> y.1); [|simpl; lia]. intros E. destruct H1. rewrite E. by apply list_elem_of_fmap_2.
Qed.

Lemma omap_keys_sorted {A} (f : Z * A -> option Z) l :
  (forall x k, f x = Some k -> k = x.1) ->
  StronglySorted Z.lt (map fst l) -> StronglySorted Z.lt (omap f l).
Proof.
  intros Hf. induction l as [|x l IH]; intros Hs; simpl; [constructor|].
  inversion Hs as [|?? Hs' HF]; subst. destruct (f x) eqn:E; [|auto].
  apply Hf in E as ->. constructor; [auto|]. apply Forall_forall.
  intros k (y & Hy & Hk)%list_elem_of_omap. apply Hf in Hk as ->.
  rewrite Forall_forall in HF. apply HF. by apply list_elem_of_fmap_2.
Qed.

Lemma expired_ids_sorted now t : StronglySorted Z.lt (expired_ids now t).
Proof.
  apply omap_keys_sorted; [|apply btree_iter_sorted].
  intros [k [tok p]] k'; simpl. case_match; naive_solver.
Qed.

Lemma StronglySorted_lt_NoDup (l : list Z) : StronglySorted Z.lt l -> NoDup l.
Proof.
  induction 1 as [|x l _ IH HF]; constructor; [|done].
  intros Hx. rewrite Forall_forall in HF. specialize (HF x Hx). lia.
Qed.

Lemma elem_of_expired_ids now t id :
  id ∈ expired_ids now t <-> exists tok p, pending t !! id = Some (tok, p) /\ deadline p <= now.
Proof.
  unfold expired_ids. rewrite list_elem_of_omap. setoid_rewrite btree_iter_perm. split.
  - intros ([k [tok p]] & Hin%elem_of_map_to_list & H). case_match; [|done].
    simplify_eq. bool_inv. eauto.
  - intros (tok & p & Hl & Hle). exists (id, (tok, p)). rewrite elem_of_map_to_list.
    split; [done|]. by destruct (Z.leb_spec (deadline p) now); [|lia].
Qed.

Definition not_due (now : Epoch) (kv : RequestId * (CorrelationToken * PendingRequest T)) : Prop :=
  now < deadline kv.2.2.
#[local] Instance not_due_dec now kv : Decision (not_due now kv).
Proof. unfold not_due; apply _. Defined.

Lemma table_expire_spec now t :
  table_expire now t =
  (mkBoundedVec (omap (fun id => pending t !! id) (expired_ids now t)),
   mkTable (filter (not_due now) (pending t)) (next_generation t)).
Proof.
  unfold table_expire. rewrite remove_each_spec by apply StronglySorted_lt_NoDup, expired_ids_sorted.
  do 2 f_equal. apply map_filter_ext. intros id [tok p] Hl. unfold not_due; simpl.
  rewrite elem_of_expired_ids. split.
  - intros Hn. destruct (Z.le_gt_cases (deadline p) now); [|lia]. destruct Hn; eauto.
  - intros Hlt (tok' & p' & Hl' & Hle). simplify_eq. lia.
Qed.

(** *** Runs *)

Lemma issued_step t op g : table_ok t -> issued t g -> issued (table_step t op) g.
Proof.
  intros Hok Hg. destruct op as [id d v|tok|now]; simpl.
  - destruct (table_insert id d v t) as [[tok|e] t'] eqn:E; simpl.
    + apply table_insert_Ok in E as (_ & _ & Hn & _ & ->).
      destruct Hok. apply issued_insert; [lia|by left].
    + by apply table_insert_Err in E as ->.
  - rewrite table_complete_spec. by case_match.
  - by rewrite table_expire_spec.
Qed.

Lemma shrink_table_ok t m n :
  table_ok t -> m ⊆ pending t -> n = next_generation t -> table_ok (mkTable m n).
Proof.
  intros [Hb Hn He] Hsub ->. split; simpl; [|done|].
  - unfold table_len in *; simpl. apply map_subseteq_size in Hsub. lia.
  - intros id tok p Hl. eapply He, lookup_weaken; eauto.
Qed.

Lemma table_step_ok t op : table_ok t -> table_ok (table_step t op).
Proof.
  intros Hok. destruct op as [id d v|tok|now]; simpl.
  - destruct (table_insert id d v t) as [[tok|e] t'] eqn:E; simpl.
    + by eapply table_insert_ok.
    + by apply table_insert_Err in E as ->.
  - rewrite table_complete_spec. case_match; [|done].
    eapply shrink_table_ok; [done|apply delete_subseteq|done].
  - rewrite table_expire_spec. eapply shrink_table_ok; [done|apply map_filter_subseteq|done].
Qed.

Lemma table_run_ok t ops : table_ok t -> table_ok (table_run t ops).
Proof.
  revert t; induction ops as [|op ops IH]; intros t Hok; [done|]. by apply IH, table_step_ok.
Qed.

(** The request of an issued token stays until an operation removes it, and does
    not come back. *)
Lemma view_step t op tok :
  table_ok t -> issued t (generation tok) ->
  view (table_step t op) tok =
  match view t tok with
  | Some p => if removes tok (deadline p) op then None else Some p
  | None => None
  end.
Proof.
  intros Hok Hg. destruct op as [id d v|tok'|now]; simpl.
  - destruct (table_insert id d v t) as [[tok'|e] t'] eqn:E; simpl;
      [|apply table_insert_Err in E as ->; by case_match].
    apply table_insert_Ok in E as (Hnone & _ & Hn & -> & ->). unfold view; simpl.
    destruct (decide (id = request_id tok)) as [-> | Hne].
    + rewrite lookup_insert_eq, Hnone. case_bool_decide as Ht; [|done].
      destruct tok as [r g]; injection Ht as Ht; destruct Hg; simpl in *; lia.
    + rewrite lookup_insert_ne by done. by repeat case_match.
  - rewrite table_complete_spec. destruct (view t tok') as [p'|] eqn:Hv'; simpl.
    + unfold view at 1; simpl. destruct (decide (request_id tok' = request_id tok)) as [He | Hne].
      * rewrite He, lookup_delete_eq. unfold view in *. rewrite He in Hv'.
        repeat case_match; try done; repeat case_bool_decide; naive_solver.
      * rewrite lookup_delete_ne by done. rewrite bool_decide_eq_false_2 by congruence.
        unfold view; by repeat case_match.
    + case_bool_decide as Ht; [|by case_match]. subst. by rewrite Hv'.
  - rewrite table_expire_spec; simpl. unfold view; simpl.
    destruct (pending t !! request_id tok) as [[tok' p]|] eqn:Hl; simpl.
    + case_bool_decide; destruct (Z.leb_spec (deadline p) now).
      * rewrite map_lookup_filter_None_2; [done|]. right. intros x. rewrite Hl. intros [= <-].
        unfold not_due; simpl. lia.
      * rewrite (map_lookup_filter_Some_2 _ _ _ _ Hl); [|done]. by rewrite bool_decide_eq_true_2.
      * rewrite map_lookup_filter_None_2; [done|]. right. intros x. rewrite Hl. intros [= <-].
        unfold not_due; simpl. lia.
      * rewrite (map_lookup_filter_Some_2 _ _ _ _ Hl); [|done]. by rewrite bool_decide_eq_false_2.
    + rewrite map_lookup_filter_None_2; [done|]. by left.
Qed.

Lemma view_run t ops tok :
  table_ok t -> issued t (generation tok) ->
  view (table_run t ops) tok =
  match view t tok with
  | Some p => if existsb (removes tok (deadline p)) ops then None else Some p
  | None => None
  end.
Proof.
  revert t; induction ops as [|op ops IH]; intros t Hok Hg; simpl; [by case_match|].
  rewrite IH by auto using table_step_ok, issued_step. rewrite view_step by done.
  destruct (view t tok); [|done]. by destruct (removes _ _ op).
Qed.

(** The tokens a run hands out. *)
Fixpoint tokens_issued t (ops : list TableOp) : list CorrelationToken :=
  match ops with
  | [] => []
  | op :: ops =>
      let rest := tokens_issued (table_step t op) ops in
      match op with
      | Insert id d v => match (table_insert id d v t).1 with Ok tok => tok :: rest | Err _ => rest end
      | _ => rest
      end
  end.

Lemma insert_issued id d v t tok t' :
  table_ok t -> table_insert id d v t = (Ok tok, t') ->
  ~ issued t (generation tok) /\ issued t' (generation tok).
Proof.
  intros [] (_ & _ & Hn & -> & ->)%table_insert_Ok; simpl. split.
  - unfold issued. lia.
  - apply issued_insert; [lia|by right].
Qed.

Lemma tokens_issued_fresh t ops :
  table_ok t -> forall tok, tok ∈ tokens_issued t ops -> ~ issued t (generation tok).
Proof.
  revert t; induction ops as [|op ops IH]; intros t Hok tok Hin; simpl in *; [set_solver|].
  assert (tok ∈ tokens_issued (table_step t op) ops -> ~ issued t (generation tok)) as Hrest.
  { intros Htok%IH Hg; [|by apply table_step_ok]. by apply Htok, issued_step. }
  destruct op as [id d v|tok'|now]; simpl in *; auto.
  destruct (table_insert id d v t) as [[tok'|e] t'] eqn:E; simpl in *; auto.
  apply elem_of_cons in Hin as [-> | Hin]; [|auto]. by apply insert_issued in E as [? _].
Qed.

Lemma tokens_issued_NoDup t ops : table_ok t -> NoDup (tokens_issued t ops).
Proof.
  revert t; induction ops as [|op ops IH]; intros t Hok; simpl; [constructor|].
  destruct op as [id d v|tok'|now].
  2,3: by apply IH, table_step_ok.
  cbn [table_step].
  pose proof (table_step_ok t (Insert id d v) Hok) as Hok'; simpl in Hok'.
  destruct (table_insert id d v t) as [[tok|e] t'] eqn:E; simpl in *; [|auto].
  constructor; [|auto]. intros Hin.
  apply tokens_issued_fresh in Hin; [|done]. by apply insert_issued in E as [_ ?].
Qed.

Lemma table_new_ok : 0 <= MAX -> table_ok table_new.
Proof.
  intros HM. split.
  - done.
  - by vm_compute.
  - intros ???. simpl. by rewrite lookup_empty.
Qed.

Lemma length_omap_le {A B} (f : A -> option B) l : (length (omap f l) <= length l)%nat.
Proof. induction l as [|x l IH]; csimpl; [done|]. destruct (f x); csimpl; lia. Qed.

Lemma expired_bound now t : table_ok t ->
  len (omap (fun id => pending t !! id) (expired_ids now t)) <= MAX.
Proof.
  intros [Hb _ _]. unfold table_len in Hb. unfold len.
  pose proof (length_omap_le (fun id => pending t !! id) (expired_ids now t)).
  pose proof (length_omap_le (fun '(id, (_, p)) => if deadline p <=? now then Some id else None)
                (btree_iter (pending t))) as H1.
  rewrite btree_iter_perm in H1 at 2. rewrite length_map_to_list in H1.
  unfold expired_ids in *. lia.
Qed.

Lemma expired_keys now t : table_ok t ->
  map (request_id ∘ fst) (omap (fun id => pending t !! id) (expired_ids now t)) = expired_ids now t.
Proof.
  intros [_ _ He]. assert (forall id, id ∈ expired_ids now t -> is_Some (pending t !! id)) as Hs
    by (intros id (? & ? & ? & _)%elem_of_expired_ids; eauto).
  induction (expired_ids now t) as [|id ids IH]; simpl; [done|].
  destruct (Hs id ltac:(left)) as [[tok p] Hl]. rewrite Hl; simpl.
  destruct (He id tok p Hl) as [-> _]. f_equal. apply IH. intros. apply Hs. by right.
Qed.

Lemma view_Some t tok p :
  view t tok = Some p <-> pending t !! request_id tok = Some (tok, p).
Proof. unfold view. repeat case_match; try case_bool_decide; naive_solver. Qed.

(** ** Properties *)

(** Completing a token returns exactly the request it was issued for, unless
    an operation since then completed that token or expired its deadline, and
    is refused as unknown otherwise; reuse of the request identifier by other
    requests never matters. *)
Theorem correlation_complete_exact ops0 ops id d v tok t1 :
  0 <= MAX ->
  table_insert id d v (table_run table_new ops0) = (Ok tok, t1) ->
  (table_complete tok (table_run t1 ops)).1 =
  if existsb (removes tok d) ops then Err (Unknown tok) else Ok (mkPending d v).
Proof.
  intros HM E. assert (table_ok (table_run table_new ops0)) as Hok
    by by apply table_run_ok, table_new_ok.
  apply table_insert_ok in E as Hok1; [|done]. apply insert_issued in E as Hi; [|done].
  rewrite table_complete_spec, view_run by naive_solver.
  apply table_insert_Ok in E as (_ & _ & _ & -> & ->). unfold view; simpl.
  rewrite lookup_insert_eq, bool_decide_eq_true_2 by done. simpl. by destruct (existsb _ _).
Qed.

(** No token is ever issued twice, the table never holds more than [MAX]
    requests, and every pending request is filed under its token's identifier,
    whatever operations are applied; this includes the wrap of the generation
    counter, after which nothing more is issued. *)
Theorem correlation_invariant ops :
  0 <= MAX -> NoDup (tokens_issued table_new ops) /\ table_ok (table_run table_new ops).
Proof.
  intros. split; [by apply tokens_issued_NoDup, table_new_ok|by apply table_run_ok, table_new_ok].
Qed.

(** [expire] returns exactly the requests due at [now], in increasing order of
    request identifier and at most [MAX] of them, as its [BoundedVec] requires,
    and leaves exactly the others. *)
Theorem correlation_expire ops now :
  0 <= MAX ->
  let t := table_run table_new ops in
  let '(expired, t') := table_expire now t in
  BoundedVec_wf MAX expired /\
  StronglySorted Z.lt (map (request_id ∘ fst) (BoundedVec_0 expired)) /\
  (forall tok p, (tok, p) ∈ BoundedVec_0 expired <-> view t tok = Some p /\ deadline p <= now) /\
  (forall tok p, view t' tok = Some p <-> view t tok = Some p /\ now < deadline p).
Proof.
  intros HM t. assert (table_ok t) as Hok by by apply table_run_ok, table_new_ok.
  rewrite table_expire_spec; simpl. split_and!.
  - by apply expired_bound.
  - rewrite expired_keys by done. apply expired_ids_sorted.
  - intros tok p. rewrite list_elem_of_omap, view_Some. setoid_rewrite elem_of_expired_ids. split.
    + intros (id & (tok' & p' & Hl & Hle) & Hl'). rewrite Hl' in Hl. injection Hl as <- <-.
      by destruct (ok_entries t Hok id tok p) as [-> _].
    + intros [Hl Hle]. eauto 10.
  - intros tok p. rewrite !view_Some; simpl. rewrite map_lookup_filter_Some. done.
Qed.

End Tables.
Arguments TableOp : clear implicits.

(** *** Witnesses *)

Definition example_calls : list (TableOp bool) :=
  [Insert 7 10 true; Insert 3 4 false; Expire 4; Complete (mkToken 3 2)].

Lemma correlation_complete_exact_witness :
  (table_complete (mkToken 3 3)
     (table_run 2 (table_insert 2 3 20 true (table_run 2 table_new example_calls)).2
        [Insert 3 8 false; Expire 10; Complete (mkToken 7 1)])).1 =
  Ok (mkPending 20 true).
Proof.
  apply (correlation_complete_exact 2 example_calls
    [Insert 3 8 false; Expire 10; Complete (mkToken 7 1)] 3 20 true); [lia|].
  vm_compute; reflexivity.
Defined.

Lemma correlation_invariant_witness :
  NoDup (tokens_issued 2 table_new example_calls) /\ table_ok 2 (table_run 2 table_new example_calls).
Proof. apply correlation_invariant. lia. Defined.

Lemma correlation_expire_witness :
  let t := table_run 2 table_new [Insert 7 10 true; Insert 3 4 false] in
  let '(expired, t') := table_expire 12 t in
  BoundedVec_wf 2 expired /\
  StronglySorted Z.lt (map (request_id ∘ fst) (BoundedVec_0 expired)) /\
  (forall tok p, (tok, p) ∈ BoundedVec_0 expired <-> view t tok = Some p /\ deadline p <= 12) /\
  (forall tok p, view t' tok = Some p <-> view t tok = Some p /\ 12 < deadline p).
Proof. apply correlation_expire. lia. Defined.
