(* ===== verification/Wire.v ===== *)
(** The bounded big-endian wire layer of the supervision protocols:
    [crates/oxiroute-supervision/src/wire.rs].  A protocol maps the failures of
    the layer into its own errors, which is the class [BoundedWireProtocol] as
    it is the trait of that name in the code.  Whether an allocation succeeds is
    the allocator's choice: the parameter [reserve] of the writer.

    The clients are proved against two interfaces: [writes c bs], the writer
    computation [c] appends exactly [bs] or fails, and succeeds when [bs] fits;
    [reads c bs a], the reader computation [c] consumes exactly [bs] and yields
    [a].  Both compose along [let!], so an encoder and its decoder are related
    field by field. *)

From stdpp Require Import base list.
From Stdlib Require Import ZArith Lia.
From S2P Require Import Prelude Bytes.

Open Scope Z_scope.

Class BoundedWireProtocol (E : Type) : Type := {
  invalid : E;
  too_large : Z -> Z -> E;
  allocation : E;
}.

Record BoundedWireWriter : Type := mkWriter { w_bytes : bytes; w_maximum : Z }.
Record BoundedWireReader : Type := mkReader { r_bytes : bytes; r_position : Z }.

Definition Writer_new (maximum : Z) : BoundedWireWriter := mkWriter [] maximum.
Definition Writer_finish (w : BoundedWireWriter) : bytes := w_bytes w.
Definition Reader_new (b : bytes) : BoundedWireReader := mkReader b 0.

Section Writer.
Context {E : Type} `{!BoundedWireProtocol E} (reserve : Z -> bool).

Definition Writer_bytes (value : bytes) : M BoundedWireWriter E unit := fun self =>
  match checked_add usize_max (len (w_bytes self)) (len value) with
  | None => (Err (too_large usize_max (w_maximum self)), self)
  | Some next =>
      if w_maximum self <? next then (Err (too_large next (w_maximum self)), self)
      else if reserve (len value) then (Ok tt, mkWriter (w_bytes self ++ value) (w_maximum self))
      else (Err allocation, self)
  end.

Definition Writer_u8 (value : Z) : M BoundedWireWriter E unit := Writer_bytes [z2b value].
Definition Writer_u16 (value : Z) : M BoundedWireWriter E unit := Writer_bytes (be_bytes 2 value).
Definition Writer_u32 (value : Z) : M BoundedWireWriter E unit := Writer_bytes (be_bytes 4 value).
Definition Writer_u64 (value : Z) : M BoundedWireWriter E unit := Writer_bytes (be_bytes 8 value).

Definition Writer_length_prefixed (value : bytes) : M BoundedWireWriter E unit :=
  let! length := mlift (try_from_uint u32_max invalid (len value)) in
  let! _ := Writer_u32 length in
  Writer_bytes value.

(** *** What a writer computation appends *)

Definition append (w : BoundedWireWriter) (bs : bytes) : BoundedWireWriter :=
  mkWriter (w_bytes w ++ bs) (w_maximum w).
Definition fits (w : BoundedWireWriter) (bs : bytes) : Prop :=
  len (w_bytes w) + len bs <= Z.min (w_maximum w) usize_max.

Definition writes (c : M BoundedWireWriter E unit) (bs : bytes) : Prop :=
  forall w, fits w [] ->
    (forall w', c w = (Ok tt, w') -> w' = append w bs /\ fits w bs) /\
    ((forall n, reserve n = true) -> fits w bs -> c w = (Ok tt, append w bs)).

Lemma append_app w bs1 bs2 : append (append w bs1) bs2 = append w (bs1 ++ bs2).
Proof. unfold append; simpl. by rewrite (assoc_L _). Qed.

Lemma fits_app w bs1 bs2 : fits w (bs1 ++ bs2) <-> fits w bs1 /\ fits (append w bs1) bs2.
Proof.
  unfold fits, append; simpl. autorewrite with oxi.
  pose proof (len_nonneg bs1); pose proof (len_nonneg bs2). lia.
Qed.

Lemma fits_nil_append w bs : fits w bs -> fits (append w bs) [].
Proof. unfold fits, append; simpl. autorewrite with oxi. lia. Qed.

Lemma writes_bytes bs : writes (Writer_bytes bs) bs.
Proof.
  intros w _. unfold Writer_bytes, fits, checked_add. split.
  - intros w'. destruct (Z.leb_spec (len (w_bytes w) + len bs) usize_max); [|done].
    destruct (Z.ltb_spec (w_maximum w) (len (w_bytes w) + len bs)); [done|].
    destruct (reserve _); [|done]. intros [= <-]. split; [done|lia].
  - intros Hr Hf. destruct (Z.leb_spec (len (w_bytes w) + len bs) usize_max); [|lia].
    destruct (Z.ltb_spec (w_maximum w) (len (w_bytes w) + len bs)); [lia|]. by rewrite Hr.
Qed.

Lemma writes_ret : writes (mret tt) [].
Proof.
  intros w Hw. unfold mret, append. rewrite app_nil_r. destruct w as [b m].
  split; [intros w' [= <-]; done|done].
Qed.

Lemma writes_bind c k bs1 bs2 :
  writes c bs1 -> writes (k tt) bs2 -> writes (mbind_se c k) (bs1 ++ bs2).
Proof.
  intros H1 H2 w Hw. destruct (H1 w Hw) as [Hs1 Hc1]. setoid_rewrite fits_app.
  setoid_rewrite <- append_app. split.
  - intros w' ([] & w1 & E1 & E2)%mbind_se_Ok. apply Hs1 in E1 as [-> Hf1].
    destruct (H2 (append w bs1) (fits_nil_append _ _ Hf1)) as [Hs2 _].
    apply Hs2 in E2 as [-> Hf2]. done.
  - intros Hr [Hf1 Hf2]. unfold mbind_se. rewrite Hc1 by done.
    by apply (H2 _ (fits_nil_append _ _ Hf1)).
Qed.

Lemma writes_u8 v : writes (Writer_u8 v) [z2b v].
Proof. apply writes_bytes. Qed.
Lemma writes_u16 v : writes (Writer_u16 v) (be_bytes 2 v).
Proof. apply writes_bytes. Qed.
Lemma writes_u32 v : writes (Writer_u32 v) (be_bytes 4 v).
Proof. apply writes_bytes. Qed.
Lemma writes_u64 v : writes (Writer_u64 v) (be_bytes 8 v).
Proof. apply writes_bytes. Qed.

Definition prefixed (bs : bytes) : bytes := be_bytes 4 (len bs) ++ bs.

Lemma writes_lift {A} (r : result A E) k a bs :
  r = Ok a -> writes (k a) bs -> writes (mbind_se (mlift r) k) bs.
Proof. intros -> H w Hw. by apply H. Qed.

Lemma writes_length_prefixed bs :
  len bs <= u32_max -> writes (Writer_length_prefixed bs) (prefixed bs).
Proof.
  intros Hl. pose proof (len_nonneg bs). apply (writes_lift _ _ (len bs)).
  { unfold try_from_uint. destruct (Z.leb_spec 0 (len bs)), (Z.leb_spec (len bs) u32_max);
      simpl; done || lia. }
  apply writes_bind; [apply writes_u32|apply writes_bytes].
Qed.

(** The prefix is refused beforehand when the length is not a [u32]. *)
Lemma length_prefixed_Ok bs w w' :
  Writer_length_prefixed bs w = (Ok tt, w') -> len bs <= u32_max.
Proof.
  unfold Writer_length_prefixed, try_from_uint. intros H. res_inv.
  destruct (0 <=? len bs); simpl in *; [|done].
  by destruct (Z.leb_spec (len bs) u32_max).
Qed.
End Writer.

Section Reader.
Context {E : Type} `{!BoundedWireProtocol E}.

Definition Reader_bytes (length : Z) : M BoundedWireReader E bytes := fun self =>
  match checked_add usize_max (r_position self) length with
  | None => (Err invalid, self)
  | Some finish =>
      if finish <=? len (r_bytes self) then
        (Ok (slice (r_bytes self) (r_position self) finish), mkReader (r_bytes self) finish)
      else (Err invalid, self)
  end.

(** [self.bytes(1)?[0]]: the slice has the length asked for. *)
Definition Reader_u8 : M BoundedWireReader E Z :=
  let! b := Reader_bytes 1 in
  mret (be_value b).
Definition Reader_u16 : M BoundedWireReader E Z :=
  let! b := Reader_bytes 2 in
  mret (be_value b).
Definition Reader_u32 : M BoundedWireReader E Z :=
  let! b := Reader_bytes 4 in
  mret (be_value b).
Definition Reader_u64 : M BoundedWireReader E Z :=
  let! b := Reader_bytes 8 in
  mret (be_value b).

Definition Reader_length_prefixed : M BoundedWireReader E bytes :=
  let! n := Reader_u32 in
  let! length := mlift (try_from_uint usize_max invalid n) in
  Reader_bytes length.

Definition Reader_finish (self : BoundedWireReader) : result unit E :=
  if r_position self =? len (r_bytes self) then Ok tt else Err invalid.

(** *** What a reader computation consumes *)

Definition reads {A} (c : M BoundedWireReader E A) (bs : bytes) (a : A) : Prop :=
  forall pre post, len (pre ++ bs ++ post) <= usize_max ->
  c (mkReader (pre ++ bs ++ post) (len pre)) =
    (Ok a, mkReader (pre ++ bs ++ post) (len (pre ++ bs))).

Lemma reads_bytes bs n : n = len bs -> reads (Reader_bytes n) bs bs.
Proof.
  intros -> pre post Hl. unfold Reader_bytes; simpl. autorewrite with oxi in *.
  pose proof (len_nonneg post).
  unfold checked_add. destruct (Z.leb_spec (len pre + len bs) usize_max); [|lia].
  destruct (Z.leb_spec (len pre + len bs) (len pre + (len bs + len post))); [|lia].
  unfold slice, len.
  by rewrite Nat2Z.id, drop_app_length, Z.add_simpl_l, Nat2Z.id, take_app_length.
Qed.

Lemma reads_bind {A B} (c : M BoundedWireReader E A) (k : A -> M BoundedWireReader E B)
    bs1 bs2 a b :
  reads c bs1 a -> reads (k a) bs2 b -> reads (mbind_se c k) (bs1 ++ bs2) b.
Proof.
  intros H1 H2 pre post Hl. unfold mbind_se. rewrite <- (assoc_L app) in *.
  rewrite H1 by done. specialize (H2 (pre ++ bs1) post).
  rewrite <- !(assoc_L app) in H2. by rewrite H2.
Qed.

Lemma reads_ret {A} (a : A) : reads (mret a) [] a.
Proof. intros pre post _. by rewrite app_nil_r. Qed.

Lemma reads_map {A B} (c : M BoundedWireReader E A) (f : A -> B) bs a :
  reads c bs a -> reads (let! x := c in mret (f x)) bs (f a).
Proof. intros H. rewrite <- (app_nil_r bs). apply (reads_bind _ _ _ _ a); [done|apply reads_ret]. Qed.

Lemma reads_lift {A B} (r : result A E) (k : A -> M BoundedWireReader E B) a bs b :
  r = Ok a -> reads (k a) bs b -> reads (mbind_se (mlift r) k) bs b.
Proof. intros -> H pre post Hl. by apply H. Qed.

Lemma reads_uint n v :
  0 <= v < 256 ^ Z.of_nat n ->
  reads (let! b := Reader_bytes (Z.of_nat n) in mret (be_value b)) (be_bytes n v) v.
Proof.
  intros Hv. rewrite <- (be_roundtrip n v Hv) at 2. apply (reads_map _ be_value).
  apply reads_bytes. by rewrite len_be_bytes.
Qed.

Lemma reads_u8 v : 0 <= v <= u8_max -> reads Reader_u8 [z2b v] v.
Proof. intros. apply (reads_uint 1). unfold u8_max in *; simpl; lia. Qed.
Lemma reads_u16 v : 0 <= v <= u16_max -> reads Reader_u16 (be_bytes 2 v) v.
Proof. intros. apply (reads_uint 2). unfold u16_max in *; simpl; lia. Qed.
Lemma reads_u32 v : 0 <= v <= u32_max -> reads Reader_u32 (be_bytes 4 v) v.
Proof. intros. apply (reads_uint 4). unfold u32_max in *; simpl; lia. Qed.
Lemma reads_u64 v : 0 <= v <= u64_max -> reads Reader_u64 (be_bytes 8 v) v.
Proof. intros. apply (reads_uint 8). unfold u64_max in *; simpl; lia. Qed.

Lemma reads_length_prefixed bs :
  len bs <= u32_max -> reads Reader_length_prefixed (prefixed bs) bs.
Proof.
  intros Hl. pose proof (len_nonneg bs).
  apply (reads_bind _ _ _ _ (len bs)); [apply reads_u32; lia|].
  apply (reads_lift _ _ (len bs)); [|by apply reads_bytes].
  unfold try_from_uint. unfold u32_max, usize_max, u64_max in *.
  destruct (Z.leb_spec 0 (len bs)), (Z.leb_spec (len bs) (2 ^ 64 - 1)); simpl; done || lia.
Qed.

(** A reader that consumes a whole payload passes [finish]. *)
Lemma reads_all {A} (c : M BoundedWireReader E A) bs a :
  reads c bs a -> len bs <= usize_max ->
  c (Reader_new bs) = (Ok a, mkReader bs (len bs)) /\
  Reader_finish (mkReader bs (len bs)) = Ok tt.
Proof.
  intros H Hl. specialize (H [] []). rewrite app_nil_r in H. split; [by apply H|].
  unfold Reader_finish; simpl. by rewrite Z.eqb_refl.
Qed.

(** Reading never moves past the payload, and a refused read does not move. *)
Definition reader_ok (r : BoundedWireReader) : Prop := 0 <= r_position r <= len (r_bytes r).

Lemma Reader_bytes_spec n r b r' :
  reader_ok r -> 0 <= n -> Reader_bytes n r = (Ok b, r') ->
  reader_ok r' /\ r_bytes r' = r_bytes r /\ len b = n /\
  r_bytes r = take (Z.to_nat (r_position r)) (r_bytes r) ++ b ++ drop (Z.to_nat (r_position r')) (r_bytes r).
Proof.
  unfold reader_ok, Reader_bytes. intros Hr Hn. destruct (checked_add _ _ _) eqn:Hadd; [|done].
  apply checked_add_Some in Hadd as [-> Hmax].
  destruct (Z.leb_spec (r_position r + n) (len (r_bytes r))); [|done].
  intros [= <- <-]; simpl. unfold slice, len in *. split_and!; try done; try lia.
  - rewrite length_take, length_drop. lia.
  - rewrite Z.add_simpl_l, Z2Nat.inj_add, <- drop_drop by lia. by rewrite !take_drop.
Qed.
End Reader.

Create HintDb wire discriminated.
#[export] Hint Resolve writes_bytes writes_ret writes_bind writes_u8 writes_u16 writes_u32 writes_u64
  writes_length_prefixed reads_bytes reads_ret reads_u8 reads_u16 reads_u32 reads_u64
  reads_length_prefixed : wire.


(** ** Messages as sequences of fields *)

Inductive Field : Type :=
| FU8 (v : Z) | FU16 (v : Z) | FU32 (v : Z) | FU64 (v : Z) | FBytes (b : bytes).

Inductive Shape : Type := SU8 | SU16 | SU32 | SU64 | SBytes.

Definition shape_of (f : Field) : Shape :=
  match f with
  | FU8 _ => SU8 | FU16 _ => SU16 | FU32 _ => SU32 | FU64 _ => SU64 | FBytes _ => SBytes
  end.

(** The integers are of their types. *)
Definition field_in_range (f : Field) : Prop :=
  match f with
  | FU8 v => 0 <= v <= u8_max
  | FU16 v => 0 <= v <= u16_max
  | FU32 v => 0 <= v <= u32_max
  | FU64 v => 0 <= v <= u64_max
  | FBytes _ => True
  end.

Definition field_bytes (f : Field) : bytes :=
  match f with
  | FU8 v => [z2b v]
  | FU16 v => be_bytes 2 v
  | FU32 v => be_bytes 4 v
  | FU64 v => be_bytes 8 v
  | FBytes b => prefixed b
  end.

Section Messages.
Context {E : Type} `{!BoundedWireProtocol E} (reserve : Z -> bool).

Definition write_field (f : Field) : M BoundedWireWriter E unit :=
  match f with
  | FU8 v => Writer_u8 reserve v
  | FU16 v => Writer_u16 reserve v
  | FU32 v => Writer_u32 reserve v
  | FU64 v => Writer_u64 reserve v
  | FBytes b => Writer_length_prefixed reserve b
  end.

Fixpoint write_fields (fs : list Field) : M BoundedWireWriter E unit :=
  match fs with
  | [] => mret tt
  | f :: fs => let! _ := write_field f in write_fields fs
  end.

Definition read_field (s : Shape) : M BoundedWireReader E Field :=
  match s with
  | SU8 => let! v := Reader_u8 in mret (FU8 v)
  | SU16 => let! v := Reader_u16 in mret (FU16 v)
  | SU32 => let! v := Reader_u32 in mret (FU32 v)
  | SU64 => let! v := Reader_u64 in mret (FU64 v)
  | SBytes => let! b := Reader_length_prefixed in mret (FBytes b)
  end.

Fixpoint read_fields (ss : list Shape) : M BoundedWireReader E (list Field) :=
  match ss with
  | [] => mret []
  | s :: ss =>
      let! f := read_field s in
      let! fs := read_fields ss in
      mret (f :: fs)
  end.

Definition field_encodable (f : Field) : Prop :=
  field_in_range f /\ match f with FBytes b => len b <= u32_max | _ => True end.

Lemma writes_field f : field_encodable f -> writes reserve (write_field f) (field_bytes f).
Proof. intros [_ H]; destruct f; simpl in *; eauto with wire. Qed.

Lemma writes_fields fs :
  Forall field_encodable fs -> writes reserve (write_fields fs) (fs ≫= field_bytes).
Proof.
  induction 1 as [|f fs Hf _ IH]; simpl; [apply writes_ret|].
  apply writes_bind; [by apply writes_field|done].
Qed.

Lemma reads_field f : field_encodable f -> reads (read_field (shape_of f)) (field_bytes f) f.
Proof. intros [Hr H]; destruct f; simpl in *; apply (reads_map _ _); eauto with wire. Qed.

Lemma reads_fields fs :
  Forall field_encodable fs -> reads (read_fields (map shape_of fs)) (fs ≫= field_bytes) fs.
Proof.
  induction 1 as [|f fs Hf _ IH]; simpl; [apply reads_ret|].
  eapply reads_bind; [by apply reads_field|]. by apply (reads_map _ _).
Qed.

(** A message that was written has only encodable fields. *)
Lemma write_fields_encodable fs w w' :
  Forall field_in_range fs -> write_fields fs w = (Ok tt, w') -> Forall field_encodable fs.
Proof.
  intros Hr. revert w; induction Hr as [|f fs Hf _ IH]; intros w H; [constructor|].
  simpl in H. res_inv. destruct x. constructor; [|by eapply IH]. split; [done|].
  destruct f; simpl in *; try done. by eapply length_prefixed_Ok.
Qed.

(** A message of integers and length-prefixed byte strings that the bounded
    writer accepts is within its bound, and the bounded reader, asked for fields
    of the same shapes, gives back exactly those fields and ends at the end of
    the payload. *)
Theorem wire_roundtrip fs maximum w :
  0 <= maximum -> Forall field_in_range fs ->
  write_fields fs (Writer_new maximum) = (Ok tt, w) ->
  let payload := Writer_finish w in
  len payload <= maximum /\
  exists r, read_fields (map shape_of fs) (Reader_new payload) = (Ok fs, r) /\
            Reader_finish r = Ok tt.
Proof.
  intros Hm Hr Hw. apply write_fields_encodable in Hw as He; [|done].
  assert (fits (Writer_new maximum) []) as Hf 
    by (unfold fits, len, usize_max, u64_max; simpl; lia).
  apply (writes_fields fs He _ Hf) in Hw as [-> Hfit]. unfold Writer_finish; simpl.
  unfold fits in Hfit; simpl in Hfit. rewrite len_nil in Hfit. split; [lia|].
  destruct (reads_all _ _ _ (reads_fields fs He)) as [H1 H2]; [lia|]. eauto.
Qed.
End Messages.

#[local] Instance example_protocol : BoundedWireProtocol Z :=
  { invalid := 1; too_large := fun _ _ => 2; allocation := 3 }.

Lemma wire_roundtrip_witness :
  let fs := [FU8 7; FU64 (2 ^ 64 - 1); FBytes [z2b 1; z2b 2]; FU16 513] in
  let payload := Writer_finish (write_fields (fun _ => true) fs (Writer_new 17)).2 in
  len payload <= 17 /\
  exists r, read_fields (map shape_of fs) (Reader_new payload) = (Ok fs, r) /\
            Reader_finish r = Ok tt.
Proof.
  apply (wire_roundtrip (fun _ => true)); [lia| |vm_compute; reflexivity].
  repeat constructor; by vm_compute.
Defined.
