(* ===== verification/Transport.v ===== *)
(** The seqpacket transport between the supervisor and its workers:
    [crates/oxiroute-supervision-unix/src/transport.rs].  The kernel's calls
    are parameters: [sendmsg], the ancillary buffer's [push], the packet or
    error [recvmsg] returned and the two [fcntl] calls.

    Shows that the 52-byte header is decoded to exactly what was encoded and
    that nothing but an encoded header is accepted; that an endpoint accepts
    frames only in sequence, so none is lost, repeated or reordered; and that
    what one endpoint sends over an intact channel is what the other receives. *)

From stdpp Require Import base list.
From Stdlib Require Import ZArith Lia.
From S2P Require Import Prelude Bytes Identity.

Open Scope Z_scope.

Definition MAX_FRAME_SIZE : Z := 64 * 1024.
Definition MAX_DESCRIPTOR_COUNT : Z := 64.
Definition FRAME_HEADER_SIZE : Z := 52.
Definition MAX_PAYLOAD_SIZE : Z := MAX_FRAME_SIZE - FRAME_HEADER_SIZE.

(** [*b"OXSP"] *)
Definition MAGIC : bytes := [z2b 79; z2b 88; z2b 83; z2b 80].
Definition VERSION : Z := 1.

Abbreviation MessageType := Z (only parsing).
Abbreviation FrameFlags := Z (only parsing).
Abbreviation InstanceToken := bytes (only parsing).

Record FrameHeader : Type := mkHeader {
  message_type : MessageType;
  payload_length : Z;
  flags : FrameFlags;
  descriptor_count : Z;
  sequence : Sequence;
  instance : InstanceToken;
  generation : GenerationId;
}.

Inductive TransportError : Type :=
| Io (errno : Z)
| Closed
| PayloadTooLarge (actual maximum : Z)
| TooManyDescriptors (actual maximum : Z)
| PartialSend (expected actual : Z)
| PayloadTruncated (maximum : Z)
| AncillaryTruncated (maximum : Z)
| HeaderTruncated (actual : Z)
| WrongMagic
| WrongVersion (expected actual : Z)
| ReservedBits
| LengthMismatch (declared actual : Z)
| DescriptorCountMismatch (declared actual : Z)
| AncillaryEncoding
| UnexpectedSequence (expected actual : Sequence)
| MissingCredentials
| MultipleCredentials
| SequenceExhausted.

(** The header's fields in the order of their offsets, which leave no gap. *)
Definition FrameHeader_encode (h : FrameHeader) : bytes :=
  MAGIC ++ be_bytes 2 VERSION ++ be_bytes 2 (message_type h) ++ be_bytes 4 (payload_length h) ++
  be_bytes 4 (flags h) ++ be_bytes 2 (descriptor_count h) ++ be_bytes 2 0 ++
  be_bytes 8 (sequence h) ++ instance h ++ be_bytes 8 (generation h).

Definition FrameHeader_decode (b : bytes) : result FrameHeader TransportError :=
  if len b <? FRAME_HEADER_SIZE then Err (HeaderTruncated (len b))
  else if negb (beqb (slice b 0 4) MAGIC) then Err WrongMagic
  else
    let version := be_value (slice b 4 6) in
    if negb (version =? VERSION) then Err (WrongVersion VERSION version)
    else
      let reserved := be_value (slice b 18 20) in
      if negb (reserved =? 0) then Err ReservedBits
      else Ok {|
        message_type := be_value (slice b 6 8);
        payload_length := be_value (slice b 8 12);
        flags := be_value (slice b 12 16);
        descriptor_count := be_value (slice b 16 18);
        sequence := be_value (slice b 20 28);
        instance := slice b 28 44;
        generation := be_value (slice b 44 52);
      |}.

(** ** Endpoints *)

Record PeerIdentity : Type := mkPeer { pid : Z; uid : Z; gid : Z }.

Record Frame (Fd : Type) : Type := mkFrame {
  header : FrameHeader;
  payload : bytes;
  descriptors : list Fd;
  peer_identity : PeerIdentity;
}.
Arguments mkFrame {Fd}.
Arguments header {Fd}.
Arguments payload {Fd}.
Arguments descriptors {Fd}.
Arguments peer_identity {Fd}.

(** The stream positions of an endpoint; its socket is the kernel's. *)
Record SeqpacketEndpoint : Type := mkEndpoint {
  next_send_sequence : Z;
  last_received_sequence : option Sequence;
}.

Definition SeqpacketEndpoint_new : SeqpacketEndpoint :=
  {| next_send_sequence := 1; last_received_sequence := None |}.

(** The control messages the ancillary iterator exposes. *)
Inductive RecvAncillaryMessage (Fd : Type) : Type :=
| ScmRights (fds : list Fd)
| ScmCredentials (ucred : PeerIdentity)
| OtherAncillary.
Arguments ScmRights {Fd}.
Arguments ScmCredentials {Fd}.
Arguments OtherAncillary {Fd}.

(** What [recvmsg] returned: the byte count and flags, the receive buffer and
    the ancillary messages. *)
Record Received (Fd : Type) : Type := mkReceived {
  received_bytes : Z;
  received_trunc : bool;
  received_ctrunc : bool;
  received_buffer : bytes;
  received_ancillary : list (RecvAncillaryMessage Fd);
}.
Arguments mkReceived {Fd}.
Arguments received_bytes {Fd}.
Arguments received_trunc {Fd}.
Arguments received_ctrunc {Fd}.
Arguments received_buffer {Fd}.
Arguments received_ancillary {Fd}.

Section Endpoint.
Context {Fd : Type}.
Context (sendmsg : bytes -> list Fd -> result Z Z) (ancillary_push : list Fd -> bool).
Context (fcntl_getfd : Fd -> result Z Z) (fcntl_setfd : Fd -> Z -> result unit Z).

Definition FD_CLOEXEC : Z := 1.
Definition contains_cloexec (fd_flags : Z) : bool := Z.testbit fd_flags 0.

Definition SeqpacketEndpoint_send (ty : MessageType) (fl : FrameFlags) (inst : InstanceToken)
    (gen : GenerationId) (pl : bytes) (fds : list Fd) :
    M SeqpacketEndpoint TransportError Sequence :=
  let! _ := mlift (if MAX_PAYLOAD_SIZE <? len pl then
                     Err (PayloadTooLarge (len pl) MAX_PAYLOAD_SIZE) else Ok tt) in
  let! _ := mlift (if MAX_DESCRIPTOR_COUNT <? len fds then
                     Err (TooManyDescriptors (len fds) MAX_DESCRIPTOR_COUNT) else Ok tt) in
  let! seq := mread next_send_sequence in
  let! next := mlift (ok_or SequenceExhausted (checked_add u64_max seq 1)) in
  let! pl_length := mlift (try_from_uint u32_max (PayloadTooLarge (len pl) MAX_PAYLOAD_SIZE)
                             (len pl)) in
  let! fd_count := mlift (try_from_uint u16_max (TooManyDescriptors (len fds) MAX_DESCRIPTOR_COUNT)
                            (len fds)) in
  let header := FrameHeader_encode {|
    message_type := ty; payload_length := pl_length; flags := fl; descriptor_count := fd_count;
    sequence := seq; instance := inst; generation := gen |} in
  let! _ := mlift (if bool_decide (fds <> []) && negb (ancillary_push fds) then
                     Err AncillaryEncoding else Ok tt) in
  let! sent := mlift (map_err Io (sendmsg (header ++ pl) fds)) in
  let expected := FRAME_HEADER_SIZE + len pl in
  let! _ := mlift (if negb (sent =? expected) then Err (PartialSend expected sent) else Ok tt) in
  let! _ := mwrite (fun e => mkEndpoint next (last_received_sequence e)) in
  mret seq.

(** The loop over the ancillary messages: descriptors and credentials so far. *)
Fixpoint drain_ancillary (messages : list (RecvAncillaryMessage Fd)) (fds : list Fd)
    (credentials : option PeerIdentity) :
    result (list Fd * option PeerIdentity) TransportError :=
  match messages with
  | [] => Ok (fds, credentials)
  | ScmRights received :: messages => drain_ancillary messages (fds ++ received) credentials
  | ScmCredentials received :: messages =>
      if bool_decide (is_Some credentials) then Err MultipleCredentials
      else drain_ancillary messages fds (Some received)
  | OtherAncillary :: messages => drain_ancillary messages fds credentials
  end.

Fixpoint ensure_cloexec (fds : list Fd) : result unit TransportError :=
  match fds with
  | [] => Ok tt
  | fd :: fds =>
      let? fd_flags := map_err Io (fcntl_getfd fd) in
      let? _ :=
        (if negb (contains_cloexec fd_flags) then
           map_err Io (fcntl_setfd fd (Z.lor fd_flags FD_CLOEXEC))
         else Ok tt) in
      ensure_cloexec fds
  end.

Definition expected_sequence (last : option Sequence) : result Sequence TransportError :=
  match last with
  | Some previous => ok_or SequenceExhausted (checked_add u64_max previous 1)
  | None => Ok 1
  end.

(** The checks of [receive] up to the stream position. *)
Definition receive_checked (recvmsg : result (Received Fd) Z) : result (Frame Fd) TransportError :=
  let? received := map_err Io recvmsg in
  if received_bytes received =? 0 then Err Closed
  else
    let? drained := drain_ancillary (received_ancillary received) [] None in
    let '(fds, credentials) := drained in
    if received_trunc received || (MAX_FRAME_SIZE <? received_bytes received) then
      Err (PayloadTruncated MAX_FRAME_SIZE)
    else if received_ctrunc received then Err (AncillaryTruncated MAX_DESCRIPTOR_COUNT)
    else if MAX_DESCRIPTOR_COUNT <? len fds then Err (AncillaryTruncated MAX_DESCRIPTOR_COUNT)
    else
      let? peer := ok_or MissingCredentials credentials in
      let? _ := ensure_cloexec fds in
      let b := take (Z.to_nat (received_bytes received)) (received_buffer received) in
      let? h := FrameHeader_decode b in
      let pl := drop (Z.to_nat FRAME_HEADER_SIZE) b in
      let? actual_length := try_from_uint u32_max (PayloadTruncated MAX_FRAME_SIZE) (len pl) in
      if negb (payload_length h =? actual_length) then
        Err (LengthMismatch (payload_length h) (len pl))
      else if negb (descriptor_count h =? len fds) then
        Err (DescriptorCountMismatch (descriptor_count h) (len fds))
      else Ok (mkFrame h pl fds peer).

Definition SeqpacketEndpoint_receive (recvmsg : result (Received Fd) Z) :
    M SeqpacketEndpoint TransportError (Frame Fd) :=
  let! frame := mlift (receive_checked recvmsg) in
  let! expected := mtry (fun e => expected_sequence (last_received_sequence e)) in
  let! _ := mlift (if negb (sequence (header frame) =? expected) then
                     Err (UnexpectedSequence expected (sequence (header frame))) else Ok tt) in
  let! _ := mwrite (fun e => mkEndpoint (next_send_sequence e) (Some (sequence (header frame)))) in
  mret frame.
End Endpoint.

(** ** The header *)

(** The fields have the widths of their types. *)
Definition header_in_range (h : FrameHeader) : Prop :=
  0 <= message_type h <= u16_max /\ 0 <= payload_length h <= u32_max /\
  0 <= flags h <= u32_max /\ 0 <= descriptor_count h <= u16_max /\
  0 <= sequence h <= u64_max /\ len (instance h) = 16 /\ 0 <= generation h <= u64_max.

Lemma len_header_encode h : len (instance h) = 16 -> len (FrameHeader_encode h) = FRAME_HEADER_SIZE.
Proof.
  intros Hi. unfold FrameHeader_encode. autorewrite with oxi. by rewrite ?len_be_bytes, Hi.
Qed.

(** Finds a piece of a concatenation at a constant offset. *)
Ltac piece :=
  rewrite <- ?(assoc_L app); repeat (rewrite slice_skip by lia);
  match goal with
  | |- slice (?x ++ _) ?a ?b = _ =>
      replace a with 0 by lia; replace b with (len x) by lia; apply slice_head
  end.

Lemma decode_pieces m v ty pl fl dc rs sq ins gn rest :
  len m = 4 -> len v = 2 -> len ty = 2 -> len pl = 4 -> len fl = 4 -> len dc = 2 -> len rs = 2 ->
  len sq = 8 -> len ins = 16 -> len gn = 8 ->
  FrameHeader_decode ((m ++ v ++ ty ++ pl ++ fl ++ dc ++ rs ++ sq ++ ins ++ gn) ++ rest) =
  if negb (beqb m MAGIC) then Err WrongMagic
  else if negb (be_value v =? VERSION) then Err (WrongVersion VERSION (be_value v))
  else if negb (be_value rs =? 0) then Err ReservedBits
  else Ok (mkHeader (be_value ty) (be_value pl) (be_value fl) (be_value dc) (be_value sq) ins
             (be_value gn)).
Proof.
  intros. unfold FrameHeader_decode. set (b := (_ ++ rest)).
  assert (slice b 0 4 = m) as -> by (subst b; piece).
  assert (slice b 4 6 = v) as -> by (subst b; piece).
  assert (slice b 6 8 = ty) as -> by (subst b; piece).
  assert (slice b 8 12 = pl) as -> by (subst b; piece).
  assert (slice b 12 16 = fl) as -> by (subst b; piece).
  assert (slice b 16 18 = dc) as -> by (subst b; piece).
  assert (slice b 18 20 = rs) as -> by (subst b; piece).
  assert (slice b 20 28 = sq) as -> by (subst b; piece).
  assert (slice b 28 44 = ins) as -> by (subst b; piece).
  assert (slice b 44 52 = gn) as -> by (subst b; piece).
  destruct (Z.ltb_spec (len b) FRAME_HEADER_SIZE); [|done].
  subst b. autorewrite with oxi in *. unfold FRAME_HEADER_SIZE in *. pose proof (len_nonneg rest). lia.
Qed.

Lemma decode_encode h rest :
  header_in_range h -> FrameHeader_decode (FrameHeader_encode h ++ rest) = Ok h.
Proof.
  intros (Hty & Hpl & Hfl & Hdc & Hse & Hin & Hge). unfold FrameHeader_encode.
  unfold u16_max, u32_max, u64_max in *.
  rewrite decode_pieces by (rewrite ?len_be_bytes; done).
  rewrite !be_roundtrip by (unfold VERSION; simpl; lia). by destruct h.
Qed.

Lemma be_bytes_slice b a c n :
  0 <= a -> c = a + Z.of_nat n -> c <= len b ->
  be_bytes n (be_value (slice b a c)) = slice b a c.
Proof.
  intros ? -> ?. pose proof (len_slice b a (a + Z.of_nat n) ltac:(lia) ltac:(lia)) as Hl.
  unfold len in Hl at 1. rewrite <- (be_bytes_value (slice b a (a + Z.of_nat n))) at 2.
  f_equal. lia.
Qed.

Lemma encode_decode b h :
  FrameHeader_decode b = Ok h ->
  header_in_range h /\ FrameHeader_encode h = take (Z.to_nat FRAME_HEADER_SIZE) b.
Proof.
  unfold FrameHeader_decode. destruct (Z.ltb_spec (len b) FRAME_HEADER_SIZE) as [|Hl]; [done|].
  unfold FRAME_HEADER_SIZE in Hl. unfold beqb. case_bool_decide as Hm; [|done].
  destruct (Z.eqb_spec (be_value (slice b 4 6)) VERSION) as [Hv|]; [|done].
  destruct (Z.eqb_spec (be_value (slice b 18 20)) 0) as [Hr|]; [|done].
  intros [= <-]. split.
  - unfold header_in_range, u16_max, u32_max, u64_max; cbn [message_type payload_length flags
      descriptor_count sequence instance generation].
    pose proof (fun a c => be_value_range (slice b a c)) as H.
    pose proof (H 6 8); pose proof (H 8 12); pose proof (H 12 16); pose proof (H 16 18);
      pose proof (H 20 28); pose proof (H 44 52).
    rewrite !len_slice in * by lia. lia.
  - unfold FrameHeader_encode;
      cbn [message_type payload_length flags descriptor_count sequence instance generation].
    assert (be_bytes 2 VERSION = slice b 4 6) as ->
      by (rewrite <- Hv; apply (be_bytes_slice b 4 6 2); lia).
    assert (be_bytes 2 0 = slice b 18 20) as ->
      by (rewrite <- Hr; apply (be_bytes_slice b 18 20 2); lia).
    rewrite <- Hm, (be_bytes_slice b 6 8 2), (be_bytes_slice b 8 12 4),
      (be_bytes_slice b 12 16 4), (be_bytes_slice b 16 18 2),
      (be_bytes_slice b 20 28 8), (be_bytes_slice b 44 52 8) by lia.
    rewrite <- !slice_split by lia. unfold slice. by rewrite drop_0.
Qed.

(** ** Stream positions *)

Section Streams.
Context {Fd : Type}.
Context (sendmsg : bytes -> list Fd -> result Z Z) (ancillary_push : list Fd -> bool).
Context (fcntl_getfd : Fd -> result Z Z) (fcntl_setfd : Fd -> Z -> result unit Z).
Implicit Types (e : SeqpacketEndpoint) (r : result (Received Fd) Z).

Definition receive := SeqpacketEndpoint_receive fcntl_getfd fcntl_setfd.

Lemma receive_Ok r e frame e' :
  receive r e = (Ok frame, e') <->
  receive_checked fcntl_getfd fcntl_setfd r = Ok frame /\
  expected_sequence (last_received_sequence e) = Ok (sequence (header frame)) /\
  e' = mkEndpoint (next_send_sequence e) (Some (sequence (header frame))).
Proof.
  unfold receive, SeqpacketEndpoint_receive, mbind_se, mlift, mtry, mwrite, mret.
  destruct (receive_checked _ _ r) as [f|]; [|naive_solver].
  destruct (expected_sequence _) as [x|]; [|naive_solver].
  destruct (Z.eqb_spec (sequence (header f)) x); simpl; naive_solver.
Qed.

Lemma receive_Err r e err e' : receive r e = (Err err, e') -> e' = e.
Proof.
  unfold receive, SeqpacketEndpoint_receive, mbind_se, mlift, mtry, mwrite, mret.
  repeat case_match; naive_solver.
Qed.

(** The frames an endpoint accepts from what arrives. *)
Fixpoint accepted_frames (rs : list (result (Received Fd) Z)) e : list (Frame Fd) :=
  match rs with
  | [] => []
  | r :: rs =>
      match receive r e with
      | (Ok frame, e') => frame :: accepted_frames rs e'
      | (Err _, e') => accepted_frames rs e'
      end
  end.

Definition position e : Z := default 0 (last_received_sequence e).

Lemma expected_position e n :
  0 <= position e -> expected_sequence (last_received_sequence e) = Ok n -> n = position e + 1.
Proof.
  unfold position, expected_sequence. destruct (last_received_sequence e); simpl; intros ? H.
  - res_inv. done.
  - by injection H as <-.
Qed.

Lemma accepted_frames_sequences rs e :
  0 <= position e ->
  let frames := accepted_frames rs e in
  map (sequence ∘ header) frames = seqZ (position e + 1) (len frames).
Proof.
  revert e; induction rs as [|r rs IH]; intros e He; simpl; [done|].
  destruct (receive r e) as [[frame|err] e'] eqn:E; simpl.
  - apply receive_Ok in E as (_ & Hs & ->). apply expected_position in Hs as Hp; [|done].
    rewrite len_cons. rewrite seqZ_cons by (pose proof (len_nonneg (accepted_frames rs
      (mkEndpoint (next_send_sequence e) (Some (sequence (header frame)))))); lia).
    rewrite IH; unfold position in *; simpl; [|lia]. rewrite Hp. f_equal. f_equal; lia.
  - apply receive_Err in E as ->. by apply IH.
Qed.

(** ** Delivery over an intact channel *)

Record Message : Type := mkMessage {
  m_type : MessageType; m_flags : FrameFlags; m_instance : InstanceToken;
  m_generation : GenerationId; m_payload : bytes; m_descriptors : list Fd;
}.

Definition message_in_range (m : Message) : Prop :=
  0 <= m_type m <= u16_max /\ 0 <= m_flags m <= u32_max /\ len (m_instance m) = 16 /\
  0 <= m_generation m <= u64_max /\
  len (m_payload m) <= MAX_PAYLOAD_SIZE /\ len (m_descriptors m) <= MAX_DESCRIPTOR_COUNT.

Definition header_of (m : Message) (seq : Sequence) : FrameHeader := {|
  message_type := m_type m; payload_length := len (m_payload m); flags := m_flags m;
  descriptor_count := len (m_descriptors m); sequence := seq; instance := m_instance m;
  generation := m_generation m |}.

Definition packet_of (m : Message) (seq : Sequence) : bytes :=
  FrameHeader_encode (header_of m seq) ++ m_payload m.

(** What the kernel hands over when it delivers a packet whole: the packet at
    the start of the buffer, its descriptors and the sender's credentials. *)
Definition delivered (m : Message) (seq : Sequence) (buffer_rest : bytes) (peer : PeerIdentity) :
    Received Fd :=
  {| received_bytes := len (packet_of m seq); received_trunc := false; received_ctrunc := false;
     received_buffer := packet_of m seq ++ buffer_rest;
     received_ancillary :=
       (if bool_decide (m_descriptors m = []) then [] else [ScmRights (m_descriptors m)]) ++
       [ScmCredentials peer] |}.

Definition send_message (m : Message) : M SeqpacketEndpoint TransportError Sequence :=
  SeqpacketEndpoint_send sendmsg ancillary_push (m_type m) (m_flags m) (m_instance m)
    (m_generation m) (m_payload m) (m_descriptors m).

(** What is assumed of the kernel: a packet within the bounds is sent whole, the
    ancillary buffer takes the descriptors it was sized for, and the descriptor
    flags can be read and written. *)
Record intact_kernel : Prop := {
  sendmsg_whole : forall pkt fds, sendmsg pkt fds = Ok (len pkt);
  push_fits : forall fds, len fds <= MAX_DESCRIPTOR_COUNT -> ancillary_push fds = true;
  getfd_ok : forall fd, exists fl, fcntl_getfd fd = Ok fl;
  setfd_ok : forall fd fl, fcntl_setfd fd fl = Ok tt;
}.

Context (Hk : intact_kernel).

Lemma len_packet m seq :
  message_in_range m -> len (packet_of m seq) = FRAME_HEADER_SIZE + len (m_payload m).
Proof.
  intros (_ & _ & Hi & _). unfold packet_of. by rewrite len_app, len_header_encode.
Qed.

Lemma send_in_range m e :
  message_in_range m -> next_send_sequence e < u64_max ->
  send_message m e = (Ok (next_send_sequence e),
    mkEndpoint (next_send_sequence e + 1) (last_received_sequence e)).
Proof.
  intros Hm Hn. pose proof Hm as (_ & _ & Hi & _ & Hp & Hd).
  pose proof (len_nonneg (m_payload m)). pose proof (len_nonneg (m_descriptors m)).
  unfold send_message, SeqpacketEndpoint_send, mbind_se, mlift, mread, mwrite, mret, try_from_uint,
    checked_add.
  rewrite !(proj2 (Z.ltb_ge _ _)) by done.
  rewrite (proj2 (Z.leb_le (next_send_sequence e + 1) u64_max)) by lia; cbn [ok_or].
  rewrite !(proj2 (Z.leb_le 0 _)) by done.
  rewrite (proj2 (Z.leb_le (len (m_payload m)) u32_max)),
    (proj2 (Z.leb_le (len (m_descriptors m)) u16_max)) by (eapply Z.le_trans; [done|by vm_compute]).
  cbn [andb]. rewrite (push_fits Hk) by done. cbn [negb]. rewrite andb_false_r.
  fold (header_of m (next_send_sequence e)). fold (packet_of m (next_send_sequence e)).
  rewrite (sendmsg_whole Hk); cbn [map_err]. by rewrite len_packet, Z.eqb_refl by done.
Qed.

Lemma cloexec_ok fds : ensure_cloexec fcntl_getfd fcntl_setfd fds = Ok tt.
Proof.
  induction fds as [|fd fds IH]; simpl; [done|]. destruct (getfd_ok Hk fd) as [fl ->]; simpl.
  rewrite (setfd_ok Hk). by destruct (contains_cloexec fl).
Qed.

Lemma drain_delivered m peer :
  drain_ancillary ((if bool_decide (m_descriptors m = []) then [] else [ScmRights (m_descriptors m)])
                   ++ [ScmCredentials peer]) [] None = Ok (m_descriptors m, Some peer).
Proof. case_bool_decide as Hd; simpl; [by rewrite Hd|done]. Qed.

Lemma drop_header h (b : bytes) :
  len (instance h) = 16 -> drop (Z.to_nat FRAME_HEADER_SIZE) (FrameHeader_encode h ++ b) = b.
Proof.
  intros Hi. rewrite <- (len_header_encode h Hi). apply drop_len_app.
Qed.

Lemma receive_delivered m seq rest peer :
  message_in_range m -> 0 <= seq <= u64_max ->
  receive_checked fcntl_getfd fcntl_setfd (Ok (delivered m seq rest peer)) =
  Ok (mkFrame (header_of m seq) (m_payload m) (m_descriptors m) peer).
Proof.
  intros Hm Hs. pose proof Hm as (Hty & Hfl & Hi & Hg & Hp & Hd).
  pose proof (len_nonneg (m_payload m)) as Hp0. pose proof (len_nonneg (m_descriptors m)) as Hd0.
  assert (header_in_range (header_of m seq)) as Hh.
  { unfold header_in_range; simpl. unfold MAX_PAYLOAD_SIZE, MAX_FRAME_SIZE, FRAME_HEADER_SIZE,
      MAX_DESCRIPTOR_COUNT, u32_max, u16_max in *. lia. }
  unfold receive_checked, delivered.
  cbn [map_err result_bind received_bytes received_trunc received_ctrunc received_buffer
       received_ancillary orb].
  rewrite len_packet, drain_delivered by done. cbn [result_bind].
  rewrite (proj2 (Z.eqb_neq (FRAME_HEADER_SIZE + len (m_payload m)) 0))
    by (unfold FRAME_HEADER_SIZE; lia).
  rewrite !(proj2 (Z.ltb_ge _ _)) by (done || unfold MAX_PAYLOAD_SIZE in *; lia).
  cbn [ok_or result_bind]. rewrite cloexec_ok. cbn [result_bind].
  rewrite <- (len_packet m seq Hm). rewrite take_len_app. unfold packet_of. rewrite decode_encode by done. cbn [result_bind].
  rewrite drop_header by done. unfold try_from_uint.
  rewrite (proj2 (Z.leb_le 0 (len (m_payload m)))) by done.
  rewrite (proj2 (Z.leb_le (len (m_payload m)) u32_max))
    by (eapply Z.le_trans; [done|by vm_compute]).
  cbn [andb result_bind header_of payload_length descriptor_count]. by rewrite !Z.eqb_refl.
Qed.

(** Sending a list of messages and receiving each as it arrives. *)
Fixpoint exchange (ms : list Message) (rest : bytes) (peer : PeerIdentity)
    (sender receiver : SeqpacketEndpoint) : result (list (Frame Fd)) TransportError :=
  match ms with
  | [] => Ok []
  | m :: ms =>
      match send_message m sender with
      | (Err e, _) => Err e
      | (Ok seq, sender') =>
          match receive (Ok (delivered m seq rest peer)) receiver with
          | (Err e, _) => Err e
          | (Ok frame, receiver') =>
              let? frames := exchange ms rest peer sender' receiver' in
              Ok (frame :: frames)
          end
      end
  end.

Lemma exchange_delivers ms rest peer sender receiver :
  Forall message_in_range ms -> 1 <= next_send_sequence sender ->
  next_send_sequence sender + len ms <= u64_max ->
  expected_sequence (last_received_sequence receiver) = Ok (next_send_sequence sender) ->
  exchange ms rest peer sender receiver =
  Ok (zip_with (fun m seq => mkFrame (header_of m seq) (m_payload m) (m_descriptors m) peer)
        ms (seqZ (next_send_sequence sender) (len ms))).
Proof.
  intros Hms. revert sender receiver; induction Hms as [|m ms Hm _ IH];
    intros sender receiver Hs Hn Hsync; cbn [exchange]; [done|].
  rewrite len_cons in *. pose proof (len_nonneg ms). rewrite send_in_range by (done || lia).
  assert (receive (Ok (delivered m (next_send_sequence sender) rest peer)) receiver =
    (Ok (mkFrame (header_of m (next_send_sequence sender)) (m_payload m) (m_descriptors m) peer),
     mkEndpoint (next_send_sequence receiver) (Some (next_send_sequence sender)))) as ->.
  { apply receive_Ok. rewrite receive_delivered by (done || lia). done. }
  rewrite IH; cbn [next_send_sequence last_received_sequence]; [|lia|lia|].
  - cbn [result_bind]. rewrite (seqZ_cons (next_send_sequence sender)) by lia. cbn [zip_with].
    do 4 f_equal; lia.
  - cbn [expected_sequence]. unfold checked_add. by rewrite (proj2 (Z.leb_le _ _)) by lia.
Qed.
End Streams.

(** ** Properties *)

(** The header decoder accepts exactly the packets that start with an encoded
    header of in-range fields, and gives those fields; every other packet is
    refused. *)
Theorem transport_header_exact b h :
  FrameHeader_decode b = Ok h <->
  header_in_range h /\ exists rest, b = FrameHeader_encode h ++ rest.
Proof.
  split.
  - intros [Hr He]%encode_decode. split; [done|]. exists (drop (Z.to_nat FRAME_HEADER_SIZE) b).
    by rewrite He, take_drop.
  - intros [Hr [rest ->]]. by apply decode_encode.
Qed.

(** Whatever arrives, failed receptions included, the frames a fresh endpoint
    accepts carry the sequence numbers 1, 2, 3, ... without gap, repetition or
    reordering. *)
Theorem transport_no_replay {Fd} fcntl_getfd fcntl_setfd (rs : list (result (Received Fd) Z)) :
  let frames := accepted_frames fcntl_getfd fcntl_setfd rs SeqpacketEndpoint_new in
  map (sequence ∘ header) frames = seqZ 1 (len frames).
Proof. by apply accepted_frames_sequences. Qed.

(** Over a kernel that sends and delivers packets whole, every list of
    messages within the bounds is received as it was sent, with its payloads,
    descriptors, types and identities, numbered from 1, as long as the 64-bit
    sequence lasts. *)
Theorem transport_delivers {Fd} sendmsg push getfd setfd (ms : list (Message (Fd:=Fd))) rest peer :
  intact_kernel sendmsg push getfd setfd -> Forall message_in_range ms -> len ms < u64_max ->
  exchange sendmsg push getfd setfd ms rest peer SeqpacketEndpoint_new SeqpacketEndpoint_new =
  Ok (zip_with (fun m seq => mkFrame (header_of m seq) (m_payload m) (m_descriptors m) peer)
        ms (seqZ 1 (len ms))).
Proof. intros Hk Hms Hl. apply (exchange_delivers _ _ _ _ Hk); simpl; [done|lia|lia|done]. Qed.

(** *** Witnesses *)

Definition example_message (n : Z) : Message (Fd:=Z) := {|
  m_type := 256 + n; m_flags := 0; m_instance := replicate 16 (z2b n); m_generation := 3;
  m_payload := [z2b 1; z2b n]; m_descriptors := if n =? 1 then [40; 41] else [] |}.

Lemma transport_delivers_witness :
  let ms := [example_message 1; example_message 2] in
  exchange (fun pkt _ => Ok (len pkt)) (fun _ => true) (fun _ => Ok 0) (fun _ _ => Ok tt) ms
    (replicate 10 (z2b 0)) (mkPeer 7 0 0) SeqpacketEndpoint_new SeqpacketEndpoint_new =
  Ok (zip_with (fun m seq =>
        mkFrame (header_of m seq) (m_payload m) (m_descriptors m) (mkPeer 7 0 0))
        ms (seqZ 1 (len ms))).
Proof.
  apply transport_delivers.
  - split; try done. intros fd. by exists 0.
  - repeat constructor; by vm_compute.
  - by vm_compute.
Defined.
