(* ===== verification/Descriptor.v ===== *)
(** Descriptor manifests and the ownership of transferred descriptors:
    [crates/oxiroute-supervision-unix/src/descriptor.rs].  The kernel is the
    class [Kernel]: the calls the code makes, each of which may fail and change
    the kernel's state; [KernelLaws] states what POSIX documents of them.

    Shows that a manifest is accepted exactly when it is well formed, that a
    descriptor set exposes a descriptor only after it was verified against its
    slot, on any kernel that obeys the laws, and that each descriptor is handed
    out exactly once. *)

From stdpp Require Import base list gmap.
From Stdlib Require Import ZArith Lia.
From S2P Require Import Prelude Bytes Identity Transport.

Open Scope Z_scope.

(** ** Manifests *)

Abbreviation SlotId := Z (only parsing).
Abbreviation DescriptorCapabilities := Z (only parsing).

Definition STREAM : DescriptorCapabilities := 1.
Definition DATAGRAM : DescriptorCapabilities := 2.
Definition QUIC : DescriptorCapabilities := 4.
Definition STREAM_AND_DATAGRAM : DescriptorCapabilities := Z.lor STREAM DATAGRAM.
Definition ALL : DescriptorCapabilities := Z.lor (Z.lor STREAM DATAGRAM) QUIC.

Definition capabilities_contains (self required : DescriptorCapabilities) : bool :=
  Z.land self required =? required.

(** [!Self::ALL.0] at 16 bits. *)
Definition capabilities_from_bits (bits : Z) : option DescriptorCapabilities :=
  if Z.land bits (Z.lxor ALL u16_max) =? 0 then Some bits else None.

Definition capabilities_union (self other : DescriptorCapabilities) : DescriptorCapabilities :=
  Z.lor self other.

Inductive DescriptorRole : Type :=
| Traffic (name : bytes)
| Management
| Stats (index : Z)
| StatsPage (index : Z)
| State
| Control.

Inductive DescriptorKind : Type :=
| TcpListener | UnixListener | DatagramListener | QuicListener | Opaque.

#[export] Instance DescriptorKind_eq_dec : EqDecision DescriptorKind.
Proof. solve_decision. Defined.

Definition DescriptorKind_capability (self : DescriptorKind) : DescriptorCapabilities :=
  match self with
  | TcpListener | UnixListener => STREAM
  | DatagramListener => DATAGRAM
  | QuicListener => QUIC
  | Opaque => 0
  end.

(** [std::net::SocketAddr]: octets, port and the IPv6 flow and scope. *)
Inductive SocketAddr : Type :=
| V4 (ip : bytes) (port : Z)
| V6 (ip : bytes) (port flowinfo scope_id : Z).

#[export] Instance SocketAddr_eq_dec : EqDecision SocketAddr.
Proof. solve_decision. Defined.

Inductive BindIdentity : Type :=
| Tcp (address : SocketAddr)
| UnixPath (path : bytes)
| UnixAbstract (name : bytes).

Record DescriptorSlot : Type := mkSlot {
  id : SlotId;
  role : DescriptorRole;
  kind : DescriptorKind;
  bind : option BindIdentity;
  mode : option Z;
}.

Record DescriptorManifest : Type := mkManifest { slots : list DescriptorSlot }.

Inductive DescriptorError : Type :=
| ManifestTooLarge (actual maximum : Z)
| DuplicateSlot (slot : SlotId)
| IncompatibleBind (slot : SlotId)
| IncompatibleMode (slot : SlotId)
| CardinalityMismatch (expected actual : Z)
| UnknownSlot (slot : SlotId)
| AlreadyConsumed (slot : SlotId)
| NotSocket (slot : SlotId)
| NotStream (slot : SlotId)
| NotDatagram (slot : SlotId)
| NotListening (slot : SlotId)
| NonblockingUnavailable (slot : SlotId)
| CloexecUnavailable (slot : SlotId)
| WrongAddressFamily (slot : SlotId)
| BindMismatch (slot : SlotId)
| ModeMismatch (slot : SlotId)
| InspectPath (slot : SlotId) (source : Z)
| Inspect (slot : SlotId) (source : Z).

(** The [matches!] on kind and bind identity, and the one on the Unix mode. *)
Definition bind_compatible (slot : DescriptorSlot) : bool :=
  match kind slot, bind slot with
  | _, None => true
  | (TcpListener | DatagramListener | QuicListener), Some (Tcp _) => true
  | UnixListener, Some (UnixPath _ | UnixAbstract _) => true
  | _, _ => false
  end.
Definition mode_compatible (slot : DescriptorSlot) : bool :=
  match kind slot, bind slot with
  | UnixListener, Some (UnixPath _) => true
  | _, _ => false
  end.

Fixpoint validate_slots (ids : gset SlotId) (l : list DescriptorSlot) :
    result unit DescriptorError :=
  match l with
  | [] => Ok tt
  | slot :: l =>
      if bool_decide (id slot ∈ ids) then Err (DuplicateSlot (id slot))
      else if negb (bind_compatible slot) then Err (IncompatibleBind (id slot))
      else if bool_decide (is_Some (mode slot)) && negb (mode_compatible slot) then
        Err (IncompatibleMode (id slot))
      else validate_slots ({[id slot]} ∪ ids) l
  end.

Definition DescriptorManifest_new (l : list DescriptorSlot) :
    result DescriptorManifest DescriptorError :=
  if MAX_DESCRIPTOR_COUNT <? len l then Err (ManifestTooLarge (len l) MAX_DESCRIPTOR_COUNT)
  else
    let? _ := validate_slots ∅ l in
    Ok (mkManifest l).

Definition DescriptorManifest_capabilities (self : DescriptorManifest) : DescriptorCapabilities :=
  foldl (fun all slot => capabilities_union all (DescriptorKind_capability (kind slot))) 0
    (slots self).

(** ** The kernel *)

Inductive SocketType : Type := SockStream | SockDgram | SockOther.

#[export] Instance SocketType_eq_dec : EqDecision SocketType.
Proof. solve_decision. Defined.

(** [SocketAddrUnix]: its path or abstract name, when it has one. *)
Record SocketAddrUnix : Type := mkUnixAddr {
  path_bytes : option bytes;
  abstract_name : option bytes;
}.

(** [SocketAddrAny]: the family, with the typed address [try_from] yields. *)
Inductive SocketAddrAny : Type :=
| AnyInet (address : result SocketAddr Z)
| AnyUnix (address : result SocketAddrUnix Z)
| AnyOther.

Class Kernel (K Fd : Type) : Type := {
  fcntl_getfd : Fd -> M K Z Z;
  fcntl_setfd : Fd -> Z -> M K Z unit;
  fcntl_getfl : Fd -> M K Z Z;
  fcntl_setfl : Fd -> Z -> M K Z unit;
  fstat_mode : Fd -> M K Z Z;
  socket_type : Fd -> M K Z SocketType;
  socket_acceptconn : Fd -> M K Z bool;
  getsockname : Fd -> M K Z SocketAddrAny;
  symlink_mode : bytes -> M K Z Z;
}.

(** Linux's [S_IFMT], [S_IFSOCK], [FD_CLOEXEC] and [O_NONBLOCK]. *)
Definition is_socket (raw_mode : Z) : bool := Z.land raw_mode 61440 =? 49152.
Definition CLOEXEC : Z := 1.
Definition NONBLOCK : Z := 2048.
Definition flag_set (value flag : Z) : bool := Z.land value flag =? flag.

(** ** Descriptor sets *)

Record DescriptorEntry (Fd : Type) : Type := mkEntry {
  entry_slot : DescriptorSlot;
  descriptor : option Fd;
}.
Arguments mkEntry {Fd}.
Arguments entry_slot {Fd}.
Arguments descriptor {Fd}.

Record DescriptorSet (Fd : Type) : Type := mkSet { entries : gmap SlotId (DescriptorEntry Fd) }.
Arguments mkSet {Fd}.
Arguments entries {Fd}.

Section Sets.
Context {K Fd : Type} `{!Kernel K Fd}.
Implicit Types (slot : DescriptorSlot) (fd : Fd).

Definition Sys (A : Type) : Type := M K DescriptorError A.

(** [inspect]: a failed call becomes an error of the slot. *)
Definition inspect {A} (s : SlotId) (call : M K Z A) : Sys A := fun k =>
  let '(r, k') := call k in (map_err (Inspect s) r, k').

Definition guard (ok : bool) (e : DescriptorError) : Sys unit :=
  mlift (if ok then Ok tt else Err e).

Definition validate_socket_shape slot fd : Sys unit :=
  let! ty := inspect (id slot) (socket_type fd) in
  match kind slot with
  | TcpListener | UnixListener =>
      let! _ := guard (bool_decide (ty = SockStream)) (NotStream (id slot)) in
      let! listening := inspect (id slot) (socket_acceptconn fd) in
      guard listening (NotListening (id slot))
  | DatagramListener | QuicListener =>
      guard (bool_decide (ty = SockDgram)) (NotDatagram (id slot))
  | Opaque => mret tt
  end.

Definition validate_inet_bind slot (address : SocketAddrAny) : result unit DescriptorError :=
  match address with
  | AnyInet converted =>
      match bind slot with
      | Some (Tcp expected) =>
          let? actual := map_err (Inspect (id slot)) converted in
          if bool_decide (actual <> expected) then Err (BindMismatch (id slot)) else Ok tt
      | _ => Ok tt
      end
  | _ => Err (WrongAddressFamily (id slot))
  end.

Definition unix_bind_matches slot (actual : SocketAddrUnix) : bool :=
  match bind slot with
  | None => true
  | Some (UnixPath expected) => bool_decide (path_bytes actual = Some expected)
  | Some (UnixAbstract expected) => bool_decide (abstract_name actual = Some expected)
  | Some (Tcp _) => false
  end.

Definition validate_unix_bind slot (address : SocketAddrAny) : Sys unit :=
  match address with
  | AnyUnix converted =>
      let! actual := mlift (map_err (Inspect (id slot)) converted) in
      let! _ := guard (unix_bind_matches slot actual) (BindMismatch (id slot)) in
      match bind slot, mode slot with
      | Some (UnixPath path), Some expected =>
          let! st_mode := (fun k => let '(r, k') := symlink_mode path k in
                                    (map_err (InspectPath (id slot)) r, k')) in
          guard (is_socket st_mode && (Z.land st_mode 4095 =? expected)) (ModeMismatch (id slot))
      | _, _ => mret tt
      end
  | _ => mfail (WrongAddressFamily (id slot))
  end.

Definition validate_socket_address slot (address : SocketAddrAny) : Sys unit :=
  match kind slot with
  | TcpListener | DatagramListener | QuicListener => mlift (validate_inet_bind slot address)
  | UnixListener => validate_unix_bind slot address
  | Opaque => mret tt
  end.

(** The [unreachable!] arms of the two functions above are behind this check. *)
Definition validate_descriptor slot fd : Sys unit :=
  if bool_decide (kind slot = Opaque) then mret tt
  else
    let! status_flags := inspect (id slot) (fcntl_getfl fd) in
    let! _ :=
      (if negb (flag_set status_flags NONBLOCK) then
         inspect (id slot) (fcntl_setfl fd (Z.lor status_flags NONBLOCK))
       else mret tt) in
    let! status_flags := inspect (id slot) (fcntl_getfl fd) in
    let! _ := guard (flag_set status_flags NONBLOCK) (NonblockingUnavailable (id slot)) in
    let! st_mode := inspect (id slot) (fstat_mode fd) in
    let! _ := guard (is_socket st_mode) (NotSocket (id slot)) in
    let! _ := validate_socket_shape slot fd in
    let! address := inspect (id slot) (getsockname fd) in
    validate_socket_address slot address.

Definition validate_entry slot fd : Sys unit :=
  let! fd_flags := inspect (id slot) (fcntl_getfd fd) in
  let! _ :=
    (if negb (flag_set fd_flags CLOEXEC) then
       inspect (id slot) (fcntl_setfd fd (Z.lor fd_flags CLOEXEC))
     else mret tt) in
  let! fd_flags := inspect (id slot) (fcntl_getfd fd) in
  let! _ := guard (flag_set fd_flags CLOEXEC) (CloexecUnavailable (id slot)) in
  validate_descriptor slot fd.

Fixpoint validate_entries (l : list (DescriptorSlot * Fd)) : Sys unit :=
  match l with
  | [] => mret tt
  | (slot, fd) :: l =>
      let! _ := validate_entry slot fd in
      validate_entries l
  end.

(** [collect] into a map: a later entry of the same key replaces an earlier one. *)
Definition collect_entries (l : list (DescriptorSlot * Fd)) : gmap SlotId (DescriptorEntry Fd) :=
  foldl (fun m '(slot, fd) => <[id slot := mkEntry slot (Some fd)]> m) ∅ l.

Definition DescriptorSet_new (manifest : DescriptorManifest) (fds : list Fd) :
    Sys (DescriptorSet Fd) :=
  if negb (len fds =? len (slots manifest)) then
    mfail (CardinalityMismatch (len (slots manifest)) (len fds))
  else
    let! _ := validate_entries (zip (slots manifest) fds) in
    mret (mkSet (collect_entries (zip (slots manifest) fds))).

Definition DescriptorSet_role (self : DescriptorSet Fd) (s : SlotId) : option DescriptorRole :=
  (fun entry => role (entry_slot entry)) <$> entries self !! s.
Definition DescriptorSet_slot (self : DescriptorSet Fd) (s : SlotId) : option DescriptorSlot :=
  entry_slot <$> entries self !! s.

Definition DescriptorSet_take (s : SlotId) : M (DescriptorSet Fd) DescriptorError Fd :=
  let! entry := mtry (fun self => ok_or (UnknownSlot s) (entries self !! s)) in
  let! _ := mwrite (fun self => mkSet (<[s := mkEntry (entry_slot entry) None]> (entries self))) in
  mlift (ok_or (AlreadyConsumed s) (descriptor entry)).

Definition DescriptorSet_remaining (self : DescriptorSet Fd) : Z :=
  Z.of_nat (length (List.filter (fun '(_, entry) => bool_decide (is_Some (descriptor entry)))
                      (map_to_list (entries self)))).
End Sets.

(** ** Well-formed manifests *)

Record manifest_wf (l : list DescriptorSlot) : Prop := {
  wf_count : len l <= MAX_DESCRIPTOR_COUNT;
  wf_ids : NoDup (map id l);
  wf_binds : Forall (fun slot => bind_compatible slot = true) l;
  wf_modes : Forall (fun slot => is_Some (mode slot) -> mode_compatible slot = true) l;
}.

Lemma validate_slots_Ok ids l u :
  validate_slots ids l = Ok u <->
  NoDup (map id l) /\ Forall (fun slot => id slot ∉ ids) l /\
  Forall (fun slot => bind_compatible slot = true) l /\
  Forall (fun slot => is_Some (mode slot) -> mode_compatible slot = true) l.
Proof.
  destruct u. revert ids; induction l as [|slot l IH]; intros ids; simpl.
  { split; [|done]. intros _. split_and!; constructor. }
  rewrite !Forall_cons, NoDup_cons. case_bool_decide; [naive_solver|].
  destruct (bind_compatible slot); simpl; [|naive_solver].
  case_bool_decide as Hm; [destruct (mode_compatible slot)|]; simpl; [|naive_solver|].
  all: rewrite IH; assert (Forall (fun s => id s ∉ {[id slot]} ∪ ids) l <->
      (id slot ∉ map id l) /\ Forall (fun s => id s ∉ ids) l) as ->; [|naive_solver].
  all: rewrite !Forall_forall; setoid_rewrite list_elem_of_fmap; set_solver.
Qed.

Lemma DescriptorManifest_new_Ok l m :
  DescriptorManifest_new l = Ok m <-> m = mkManifest l /\ manifest_wf l.
Proof.
  unfold DescriptorManifest_new. destruct (Z.ltb_spec MAX_DESCRIPTOR_COUNT (len l)) as [Hl|Hl].
  { split; [done|]. intros [_ []]. lia. }
  rewrite result_bind_Ok. setoid_rewrite validate_slots_Ok. split.
  - intros (u & (? & _ & ? & ?) & [= <-]). done.
  - intros [-> []]. exists tt. split_and!; try done. apply Forall_true. set_solver.
Qed.

(** ** Sets *)

Section Ownership.
Context {K Fd : Type} `{!Kernel K Fd}.
Implicit Types (self : DescriptorSet Fd).

(** The descriptor a slot owns, and a specification of [take]: each is handed out
    once, to the first request for its slot. *)
Definition owners (l : list DescriptorSlot) (fds : list Fd) : gmap SlotId Fd :=
  list_to_map (zip (map id l) fds).

Fixpoint take_spec (owner : gmap SlotId Fd) (consumed : gset SlotId) (requests : list SlotId) :
    list (result Fd DescriptorError) :=
  match requests with
  | [] => []
  | s :: requests =>
      match owner !! s with
      | None => Err (UnknownSlot s)
      | Some fd => if bool_decide (s ∈ consumed) then Err (AlreadyConsumed s) else Ok fd
      end :: take_spec owner ({[s]} ∪ consumed) requests
  end.

Fixpoint take_all (requests : list SlotId) self : list (result Fd DescriptorError) :=
  match requests with
  | [] => []
  | s :: requests =>
      let '(r, self') := DescriptorSet_take s self in r :: take_all requests self'
  end.

Definition owns self (owner : gmap SlotId Fd) (consumed : gset SlotId) : Prop :=
  forall s, (descriptor <$> entries self !! s) =
            (fun fd => if bool_decide (s ∈ consumed) then None else Some fd) <$> owner !! s.

Lemma take_all_spec requests self owner consumed :
  owns self owner consumed -> take_all requests self = take_spec owner consumed requests.
Proof.
  revert self consumed; induction requests as [|s requests IH]; intros self consumed Ho; simpl; [done|].
  unfold DescriptorSet_take, mbind_se, mtry, mwrite, mlift. pose proof (Ho s) as Hs.
  destruct (entries self !! s) as [[slot d]|] eqn:E, (owner !! s) as [fd|] eqn:Eo; simplify_eq/=.
  - f_equal; [by case_bool_decide|]. apply IH. intros s'; simpl.
    destruct (decide (s' = s)) as [-> | Hne].
    + rewrite lookup_insert_eq, Eo; simpl. by rewrite bool_decide_eq_true_2 by set_solver.
    + rewrite lookup_insert_ne by done. rewrite Ho. destruct (owner !! s'); simpl; [|done].
      by rewrite (bool_decide_ext (s' ∈ {[s]} ∪ consumed) (s' ∈ consumed)) by set_solver.
  - f_equal. apply IH. intros s'. rewrite Ho. destruct (decide (s' = s)) as [-> | Hne].
    + by rewrite Eo.
    + destruct (owner !! s'); simpl; [|done].
      by rewrite (bool_decide_ext (s' ∈ {[s]} ∪ consumed) (s' ∈ consumed)) by set_solver.
Qed.

Lemma collect_entries_app l1 l2 :
  collect_entries (l1 ++ l2) =
  foldl (fun m '(slot, fd) => <[id slot := mkEntry slot (Some fd)]> m) (collect_entries (Fd:=Fd) l1) l2.
Proof. unfold collect_entries. by rewrite foldl_app. Qed.

Lemma collect_lookup (l : list DescriptorSlot) (fds : list Fd) s :
  length fds = length l -> NoDup (map id l) ->
  (descriptor <$> collect_entries (zip l fds) !! s) = Some <$> owners l fds !! s.
Proof.
  revert fds; induction l as [|slot l IH] using rev_ind; intros fds Hl Hnd.
  { unfold owners, collect_entries; simpl. by rewrite !lookup_empty. }
  destruct fds as [|fd fds _] using rev_ind; [rewrite length_app in Hl; simpl in Hl; lia|].
  rewrite !length_app in Hl; simpl in Hl. rewrite map_app, NoDup_app in Hnd; simpl in Hnd.
  destruct Hnd as (Hnd & Hne & _). unfold owners. rewrite map_app.
  rewrite !zip_with_app by (rewrite ?length_map; lia). rewrite collect_entries_app; simpl.
  rewrite list_to_map_app. destruct (decide (s = id slot)) as [-> | Hs].
  - rewrite lookup_insert_eq; simpl. rewrite lookup_union_r.
    + by rewrite lookup_insert_eq.
    + apply not_elem_of_list_to_map_1. rewrite fst_zip by (rewrite length_map; lia). set_solver.
  - rewrite lookup_insert_ne by done. rewrite IH by (done || lia). unfold owners.
    rewrite lookup_union_l; [done|]. simpl. by rewrite lookup_insert_ne, lookup_empty by done.
Qed.
End Ownership.

(** ** What the kernel documents of its calls *)

Record Observed : Type := mkObserved {
  o_cloexec : bool;
  o_nonblock : bool;
  o_mode : Z;
  o_type : SocketType;
  o_listening : bool;
  o_name : SocketAddrAny;
}.

(** Two kernel states that agree but for flags that were set meanwhile. *)
Definition grown (o o' : Observed) : Prop :=
  (o_cloexec o = true -> o_cloexec o' = true) /\ (o_nonblock o = true -> o_nonblock o' = true) /\
  o_mode o' = o_mode o /\ o_type o' = o_type o /\ o_listening o' = o_listening o /\
  o_name o' = o_name o.

Class KernelLaws (K Fd : Type) `{!Kernel K Fd} : Type := {
  observe : K -> Fd -> Observed;
  path_mode : K -> bytes -> Z;
  (** the inspecting calls report the state and leave it *)
  getfd_law fd v k k' : fcntl_getfd fd k = (Ok v, k') ->
    k' = k /\ flag_set v CLOEXEC = o_cloexec (observe k fd);
  getfl_law fd v k k' : fcntl_getfl fd k = (Ok v, k') ->
    k' = k /\ flag_set v NONBLOCK = o_nonblock (observe k fd);
  fstat_law fd v k k' : fstat_mode fd k = (Ok v, k') -> k' = k /\ v = o_mode (observe k fd);
  type_law fd v k k' : socket_type fd k = (Ok v, k') -> k' = k /\ v = o_type (observe k fd);
  acceptconn_law fd v k k' : socket_acceptconn fd k = (Ok v, k') ->
    k' = k /\ v = o_listening (observe k fd);
  getsockname_law fd v k k' : getsockname fd k = (Ok v, k') -> k' = k /\ v = o_name (observe k fd);
  symlink_law path v k k' : symlink_mode path k = (Ok v, k') -> k' = k /\ v = path_mode k path;
  (** setting a flag clears none and changes nothing else, on this descriptor or
      one that shares its file description *)
  setfd_law fd v k k' : fcntl_setfd fd v k = (Ok tt, k') -> flag_set v CLOEXEC = true ->
    (forall fd', grown (observe k fd') (observe k' fd')) /\
    (forall path, path_mode k' path = path_mode k path);
  setfl_law fd v k k' : fcntl_setfl fd v k = (Ok tt, k') -> flag_set v NONBLOCK = true ->
    (forall fd', grown (observe k fd') (observe k' fd')) /\
    (forall path, path_mode k' path = path_mode k path);
}.

(** A descriptor satisfies its slot. *)
Definition shape_verified (slot : DescriptorSlot) (o : Observed) : Prop :=
  match kind slot with
  | TcpListener | UnixListener => o_type o = SockStream /\ o_listening o = true
  | DatagramListener | QuicListener => o_type o = SockDgram
  | Opaque => True
  end.

Definition bind_verified {K Fd} `{!Kernel K Fd, !KernelLaws K Fd} (k : K) (slot : DescriptorSlot)
    (o : Observed) : Prop :=
  match kind slot with
  | TcpListener | DatagramListener | QuicListener =>
      exists converted, o_name o = AnyInet converted /\
        forall expected, bind slot = Some (Tcp expected) -> converted = Ok expected
  | UnixListener =>
      exists actual, o_name o = AnyUnix (Ok actual) /\ unix_bind_matches slot actual = true /\
        forall path m, bind slot = Some (UnixPath path) -> mode slot = Some m ->
          is_socket (path_mode k path) = true /\ Z.land (path_mode k path) 4095 = m
  | Opaque => True
  end.

Definition verified {K Fd} `{!Kernel K Fd, !KernelLaws K Fd} (k : K) (slot : DescriptorSlot)
    (fd : Fd) : Prop :=
  let o := observe k fd in
  o_cloexec o = true /\
  (kind slot <> Opaque ->
     o_nonblock o = true /\ is_socket (o_mode o) = true /\ shape_verified slot o /\
     bind_verified k slot o).

Section Verification.
Context {K Fd : Type} `{!Kernel K Fd, !KernelLaws K Fd}.
Implicit Types (k : K) (fd : Fd) (slot : DescriptorSlot).

(** [k'] is [k] after some of the calls of a validation. *)
Definition later k k' : Prop :=
  (forall fd, grown (observe k fd) (observe k' fd)) /\
  (forall path, path_mode k' path = path_mode k path).

#[local] Instance later_refl : Reflexive later.
Proof. intros k. split; [|done]. intros fd. repeat split; auto. Qed.
#[local] Instance later_trans : Transitive later.
Proof.
  intros k1 k2 k3 [H1 P1] [H2 P2]. split; [|congruence]. intros fd.
  specialize (H1 fd); specialize (H2 fd). unfold grown in *.
  destruct_and!. split_and!; auto; congruence.
Qed.

Lemma verified_later k k' slot fd : later k k' -> verified k slot fd -> verified k' slot fd.
Proof.
  intros [Hg Hp] [Hc Hv]. destruct (Hg fd) as (Gc & Gn & Gm & Gt & Gl & Ga).
  split; [by apply Gc|]. intros Hk. destruct (Hv Hk) as (Hn & Hs & Hsh & Hb).
  unfold shape_verified, bind_verified in *. rewrite Gm, Gt, Gl, Ga. split_and!; auto.
  destruct (kind slot); try done. destruct Hb as (actual & Hn' & Hu & Hm). exists actual.
  split_and!; auto. intros path m Hb Hmode. rewrite Hp. by apply Hm.
Qed.

Lemma flag_set_lor v f : flag_set (Z.lor v f) f = true.
Proof.
  unfold flag_set. apply Z.eqb_eq, Z.bits_inj'. intros n _.
  rewrite Z.land_spec, Z.lor_spec. by destruct (Z.testbit v n), (Z.testbit f n).
Qed.

Lemma inspect_Ok {A} s (call : M K Z A) k a k' :
  inspect s call k = (Ok a, k') <-> call k = (Ok a, k').
Proof. unfold inspect. destruct (call k) as [[]]; naive_solver. Qed.

Lemma guard_Ok b e k u k' : guard (K:=K) b e k = (Ok u, k') <-> b = true /\ k' = k.
Proof. unfold guard, mlift. destruct b, u; naive_solver. Qed.

(** Inverts a successful chain of kernel calls with the laws. *)
Ltac sys_inv :=
  repeat first [progress res_inv | match goal with
  | H : inspect _ _ _ = (Ok _, _) |- _ => apply inspect_Ok in H
  | H : guard _ _ _ = (Ok _, _) |- _ => apply guard_Ok in H as [? ?]; subst
  | H : fcntl_getfd _ _ = (Ok _, _) |- _ => apply getfd_law in H as [? ?]; subst
  | H : fcntl_getfl _ _ = (Ok _, _) |- _ => apply getfl_law in H as [? ?]; subst
  | H : fstat_mode _ _ = (Ok _, _) |- _ => apply fstat_law in H as [? ?]; subst
  | H : socket_type _ _ = (Ok _, _) |- _ => apply type_law in H as [? ?]; subst
  | H : socket_acceptconn _ _ = (Ok _, _) |- _ => apply acceptconn_law in H as [? ?]; subst
  | H : getsockname _ _ = (Ok _, _) |- _ => apply getsockname_law in H as [? ?]; subst
  end | progress bool_inv].

(** The two steps that set a flag when it is missing. *)
Lemma ensure_nonblock s fd v k u k' :
  (if negb (flag_set v NONBLOCK) then inspect s (fcntl_setfl fd (Z.lor v NONBLOCK)) else mret tt) k =
    (Ok u, k') -> later k k'.
Proof.
  destruct u, (flag_set v NONBLOCK); simpl; intros H; [by injection H as <-|]. apply inspect_Ok in H.
  by apply setfl_law in H; [|apply flag_set_lor].
Qed.
Lemma ensure_cloexec_flag s fd v k u k' :
  (if negb (flag_set v CLOEXEC) then inspect s (fcntl_setfd fd (Z.lor v CLOEXEC)) else mret tt) k =
    (Ok u, k') -> later k k'.
Proof.
  destruct u, (flag_set v CLOEXEC); simpl; intros H; [by injection H as <-|]. apply inspect_Ok in H.
  by apply setfd_law in H; [|apply flag_set_lor].
Qed.

Lemma validate_socket_shape_Ok slot fd k u k' :
  validate_socket_shape slot fd k = (Ok u, k') -> k' = k /\ shape_verified slot (observe k fd).
Proof.
  unfold validate_socket_shape, shape_verified. intros H. sys_inv. destruct (kind slot); sys_inv; auto.
Qed.

Lemma validate_inet_bind_Ok slot address u :
  validate_inet_bind slot address = Ok u ->
  exists converted, address = AnyInet converted /\
    forall expected, bind slot = Some (Tcp expected) -> converted = Ok expected.
Proof.
  unfold validate_inet_bind. destruct address as [converted| |]; try done.
  intros H. exists converted. split; [done|]. intros expected Hb. rewrite Hb in H. res_inv.
  case_bool_decide as Hn; [done|]. congruence.
Qed.

Lemma validate_unix_bind_Ok slot address k u k' :
  validate_unix_bind slot address k = (Ok u, k') ->
  k' = k /\ exists actual, address = AnyUnix (Ok actual) /\ unix_bind_matches slot actual = true /\
    forall path m, bind slot = Some (UnixPath path) -> mode slot = Some m ->
      is_socket (path_mode k path) = true /\ Z.land (path_mode k path) 4095 = m.
Proof.
  unfold validate_unix_bind. destruct address as [|converted|]; try done. intros H. sys_inv.
  destruct (bind slot) as [[| |]|] eqn:Hb, (mode slot) eqn:Hm; sys_inv;
    try (split; [done|]; eexists; split_and!; [done..|]; congruence).
  match goal with H : context [symlink_mode path ?k] |- _ =>
    destruct (symlink_mode path k) as [[st|e] k1] eqn:Es; simplify_eq/= end.
  apply symlink_law in Es as [-> ->]. sys_inv. split; [done|].
  eexists; split_and!; [done..|]. intros; simplify_eq. done.
Qed.

Lemma validate_socket_address_Ok slot address k u k' :
  kind slot <> Opaque -> validate_socket_address slot address k = (Ok u, k') ->
  k' = k /\ forall o, o_name o = address -> bind_verified k slot o.
Proof.
  unfold validate_socket_address, bind_verified. intros Hk H. destruct (kind slot); try done.
  2: { apply validate_unix_bind_Ok in H as (-> & ? & -> & ?). eauto. }
  all: sys_inv; (split; [done|]); apply validate_inet_bind_Ok in H as (? & -> & ?); eauto.
Qed.

Lemma validate_descriptor_Ok slot fd k u k' :
  validate_descriptor slot fd k = (Ok u, k') ->
  later k k' /\
  (kind slot <> Opaque ->
   o_nonblock (observe k' fd) = true /\ is_socket (o_mode (observe k' fd)) = true /\
   shape_verified slot (observe k' fd) /\ bind_verified k' slot (observe k' fd)).
Proof.
  unfold validate_descriptor. case_bool_decide as Ho; intros H; [by res_inv|]. sys_inv.
  match goal with H : (if _ then _ else _) _ = _ |- _ => apply ensure_nonblock in H as Hl end.
  match goal with H : validate_socket_shape _ _ _ = _ |- _ =>
    apply validate_socket_shape_Ok in H as [-> Hsh] end.
  sys_inv. apply validate_socket_address_Ok in H as [-> Hb]; [|done].
  split; [done|]. intros _. split_and!; auto; congruence.
Qed.

Lemma validate_entry_Ok slot fd k u k' :
  validate_entry slot fd k = (Ok u, k') -> later k k' /\ verified k' slot fd.
Proof.
  unfold validate_entry. intros H. sys_inv.
  match goal with H : (if _ then _ else _) _ = _ |- _ => apply ensure_cloexec_flag in H as Hl end.
  apply validate_descriptor_Ok in H as [Hl' Hv]. split; [by etrans|]. split; [|done].
  apply Hl'. congruence.
Qed.

Lemma validate_entries_Ok l k u k' :
  validate_entries l k = (Ok u, k') ->
  later k k' /\ Forall (fun '(slot, fd) => verified k' slot fd) l.
Proof.
  revert k; induction l as [|[slot fd] l IH]; intros k H; simpl in H; [by res_inv|]. sys_inv.
  match goal with H : validate_entry _ _ _ = _ |- _ => apply validate_entry_Ok in H as [Hl Hv] end.
  apply IH in H as [Hl' HF]. split; [by etrans|]. constructor; [by eapply verified_later|done].
Qed.

Lemma DescriptorSet_new_Ok m fds k set k' :
  DescriptorSet_new m fds k = (Ok set, k') ->
  len fds = len (slots m) /\ set = mkSet (collect_entries (zip (slots m) fds)) /\ later k k' /\
  Forall (fun '(slot, fd) => verified k' slot fd) (zip (slots m) fds).
Proof.
  unfold DescriptorSet_new. destruct (Z.eqb_spec (len fds) (len (slots m))); simpl; [|done].
  intros H. res_inv.
  match goal with H : validate_entries _ _ = _ |- _ => apply validate_entries_Ok in H as [? ?] end.
  done.
Qed.
End Verification.

(** ** Properties *)

(** A manifest is accepted exactly when it has at most 64 slots of distinct
    identifiers, each with a bind identity that fits its kind and a file mode
    only on a filesystem Unix listener, and it then holds these slots. *)
Theorem descriptor_manifest_exact l m :
  DescriptorManifest_new l = Ok m <-> m = mkManifest l /\ manifest_wf l.
Proof. apply DescriptorManifest_new_Ok. Qed.

(** C34: on every kernel that obeys the laws, a descriptor set is only built when
    each descriptor satisfies its slot in the resulting kernel state: it is
    close-on-exec and, unless opaque, a nonblocking socket of the slot's type,
    listening if it is a stream, bound to the slot's identity and, for a Unix
    path, with the slot's file mode. *)
Theorem descriptor_set_verified {K Fd} `{!Kernel K Fd, !KernelLaws K Fd} m (fds : list Fd) k set :
  (DescriptorSet_new m fds k).1 = Ok set ->
  len fds = len (slots m) /\
  Forall (fun '(slot, fd) => verified (DescriptorSet_new m fds k).2 slot fd) (zip (slots m) fds).
Proof.
  destruct (DescriptorSet_new m fds k) as [r k'] eqn:E; simpl. intros ->.
  apply DescriptorSet_new_Ok in E as (? & _ & _ & ?). done.
Qed.

(** A set built for a well-formed manifest hands out each descriptor exactly
    once: any sequence of [take] requests is answered as the specification says,
    with the slot's descriptor the first time, [AlreadyConsumed] afterwards and
    [UnknownSlot] for slots the manifest does not have. *)
Theorem descriptor_take_once {K Fd} `{!Kernel K Fd, !KernelLaws K Fd} l m (fds : list Fd) k set
    requests :
  DescriptorManifest_new l = Ok m -> (DescriptorSet_new m fds k).1 = Ok set ->
  take_all requests set = take_spec (owners l fds) ∅ requests.
Proof.
  intros [-> []]%DescriptorManifest_new_Ok. destruct (DescriptorSet_new _ fds k) as [r k'] eqn:E.
  simpl. intros ->. apply DescriptorSet_new_Ok in E as (Hl & -> & _). simpl in Hl.
  apply take_all_spec. intros s; simpl. unfold len in Hl.
  rewrite collect_lookup by (done || lia). destruct (owners l fds !! s); simpl; [|done].
  by rewrite bool_decide_eq_false_2 by set_solver.
Qed.

(** *** Witnesses

    A kernel whose calls all succeed, with its descriptors' states as a function. *)

Definition ExampleKernel : Type := Z -> Observed.

Definition set_cloexec (b : bool) (o : Observed) : Observed :=
  mkObserved b (o_nonblock o) (o_mode o) (o_type o) (o_listening o) (o_name o).
Definition set_nonblock (b : bool) (o : Observed) : Observed :=
  mkObserved (o_cloexec o) b (o_mode o) (o_type o) (o_listening o) (o_name o).
Definition update (fd : Z) (f : Observed -> Observed) (k : ExampleKernel) : ExampleKernel :=
  fun fd' => if fd' =? fd then f (k fd') else k fd'.

#[local] Instance example_kernel : Kernel ExampleKernel Z := {
  fcntl_getfd fd k := (Ok (if o_cloexec (k fd) then CLOEXEC else 0), k);
  fcntl_setfd fd v k := (Ok tt, update fd (set_cloexec (flag_set v CLOEXEC)) k);
  fcntl_getfl fd k := (Ok (if o_nonblock (k fd) then NONBLOCK else 0), k);
  fcntl_setfl fd v k := (Ok tt, update fd (set_nonblock (flag_set v NONBLOCK)) k);
  fstat_mode fd k := (Ok (o_mode (k fd)), k);
  socket_type fd k := (Ok (o_type (k fd)), k);
  socket_acceptconn fd k := (Ok (o_listening (k fd)), k);
  getsockname fd k := (Ok (o_name (k fd)), k);
  symlink_mode path k := (Ok (49152 + 432), k);
}.

Lemma update_grown fd fd' f (k : ExampleKernel) :
  (forall o, grown o (f o)) -> grown (k fd') (update fd f k fd').
Proof. intros Hf. unfold update. destruct (fd' =? fd); [apply Hf|repeat split; auto]. Qed.

#[local] Instance example_laws : KernelLaws ExampleKernel Z.
Proof.
  refine {| observe := fun (k : ExampleKernel) fd => k fd; path_mode := fun _ _ => 49152 + 432 |}.
  1-7: intros; simplify_eq/=; try (case_match; done); done.
  all: intros fd v k k' H Hv; simplify_eq/=; split; [|done]; intros fd'; apply update_grown;
    intros o; rewrite Hv; repeat split; auto.
Defined.

Definition example_address : SocketAddr := V4 [z2b 127; z2b 0; z2b 0; z2b 1] 9900.
Definition example_slots : list DescriptorSlot :=
  [mkSlot 7 Management TcpListener (Some (Tcp example_address)) None; mkSlot 3 State Opaque None None].
Definition example_open_files : ExampleKernel :=
  fun fd => mkObserved false false 49152 SockStream true (AnyInet (Ok example_address)).

Lemma descriptor_set_verified_witness :
  len [40; 41] = len (slots (mkManifest example_slots)) /\
  Forall (fun '(slot, fd) =>
    verified (DescriptorSet_new (mkManifest example_slots) [40; 41] example_open_files).2 slot fd)
    (zip example_slots [40; 41]).
Proof.
  apply (descriptor_set_verified (mkManifest example_slots) [40; 41] example_open_files
           (mkSet (collect_entries (zip example_slots [40; 41])))).
  vm_compute; reflexivity.
Defined.

Lemma descriptor_take_once_witness :
  take_all [7; 5; 7; 3] (mkSet (collect_entries (zip example_slots [40; 41]))) =
  take_spec (owners example_slots [40; 41]) ∅ [7; 5; 7; 3].
Proof.
  apply (descriptor_take_once example_slots (mkManifest example_slots) [40; 41] example_open_files);
    vm_compute; reflexivity.
Defined.
