(* ===== verification/Channel.v ===== *)
(** Authenticated channels between the master and its workers, and the ownership
    of a worker's process group: [crates/oxiroute-supervisor-process/src/lib.rs].
    The operating system is the class [ProcessOs] (child processes, signals,
    cgroups); what [poll], [recvmsg] and [sendmsg] return are arguments, as in
    [Transport].

    Shows that a frame is accepted exactly when its credentials, identity,
    protocol and nonce are the worker's, that the start-up handshake succeeds
    between two endpoints of the same identity and for no other nonce, and that
    a process group is never signalled after its leader was reaped. *)

From stdpp Require Import base list.
From Stdlib Require Import ZArith Lia.
From S2P Require Import Prelude Bytes Identity Transport.

Open Scope Z_scope.

Definition CHALLENGE : MessageType := 65280.
Definition READY : MessageType := 65281.
Definition AUTH_PREFIX_SIZE : Z := 34.

(** A nonce is 32 bytes. *)
Abbreviation SpawnHandshakeNonce := bytes (only parsing).
Abbreviation ExitStatus := Z (only parsing).
Abbreviation IoError := Z (only parsing).

Record WorkerIdentity : Type := mkIdentity {
  id_instance : InstanceToken;
  id_generation : GenerationId;
  id_protocol : Z;
}.

(** The variants for entropy, cgroups, metadata, timeouts and early exit arise
    in the process I/O around the handshake. *)
Inductive SpawnError : Type :=
| Spawn_Io (e : IoError)
| Spawn_Transport (e : TransportError)
| Spawn_InvalidChildPid
| Spawn_WorkerProcessGroupMismatch (worker_pid pgid : Z)
| Spawn_WorkerParentMismatch (worker_pid launcher_pid : Z)
| Spawn_UnexpectedMessage
| Spawn_InstanceMismatch
| Spawn_GenerationMismatch (expected actual : GenerationId)
| Spawn_ProtocolMismatch (expected actual : Z)
| Spawn_NonceMismatch
| Spawn_UnexpectedDescriptors
| Spawn_InvalidPayload.

Inductive ChildHandshakeError : Type :=
| Child_AlreadyAdopted
| Child_MultipleThreads
| Child_Io (e : IoError)
| Child_Descriptor (e : Z)
| Child_Transport (e : TransportError)
| Child_UnexpectedMessage
| Child_InstanceMismatch
| Child_GenerationMismatch
| Child_ProtocolMismatch (expected actual : Z)
| Child_UnexpectedDescriptors
| Child_UnexpectedPayload
| Child_InvalidPayload.

Inductive AuthenticatedChannelError : Type :=
| Channel_Io (e : IoError)
| Channel_Transport (e : TransportError)
| Channel_WorkerGroupExited (status : ExitStatus)
| Channel_ChannelClosed
| Channel_CredentialMismatch (expected actual : Z)
| Channel_InstanceMismatch
| Channel_GenerationMismatch
| Channel_ProtocolMismatch
| Channel_NonceMismatch
| Channel_InvalidPayload.

(** ** Authenticated payloads and frames *)

Definition authenticated_payload (protocol : Z) (nonce : SpawnHandshakeNonce) (payload : bytes) :
    bytes :=
  be_bytes 2 protocol ++ nonce ++ payload.

Definition parse_authenticated_payload (p : bytes) :
    result (Z * SpawnHandshakeNonce * bytes) ChildHandshakeError :=
  if len p <? AUTH_PREFIX_SIZE then Err Child_InvalidPayload
  else Ok (be_value (slice p 0 2), slice p 2 AUTH_PREFIX_SIZE,
           drop (Z.to_nat AUTH_PREFIX_SIZE) p).

Record AuthenticatedFrame (Fd : Type) : Type := mkAuthenticated { auth_frame : Frame Fd }.
Arguments mkAuthenticated {Fd}.
Arguments auth_frame {Fd}.

Section Frames.
Context {Fd : Type}.
Implicit Types (f : AuthenticatedFrame Fd) (frame : Frame Fd).

Definition auth_header f : FrameHeader := header (auth_frame f).
(** [&payload[AUTH_PREFIX_SIZE..]]: only built for frames that have the prefix. *)
Definition auth_payload f : bytes :=
  drop (Z.to_nat AUTH_PREFIX_SIZE) (payload (auth_frame f)).
Definition auth_descriptors f : list Fd := descriptors (auth_frame f).
Definition auth_peer_identity f : PeerIdentity := peer_identity (auth_frame f).
Definition into_parts f : FrameHeader * bytes * list Fd * PeerIdentity :=
  (header (auth_frame f), auth_payload f, descriptors (auth_frame f), peer_identity (auth_frame f)).

Definition authenticate_frame frame (expected_pid : Z) (identity : WorkerIdentity)
    (nonce : SpawnHandshakeNonce) : result (AuthenticatedFrame Fd) AuthenticatedChannelError :=
  if negb (pid (peer_identity frame) =? expected_pid) then
    Err (Channel_CredentialMismatch expected_pid (pid (peer_identity frame)))
  else if negb (beqb (instance (header frame)) (id_instance identity)) then
    Err Channel_InstanceMismatch
  else if negb (generation (header frame) =? id_generation identity) then
    Err Channel_GenerationMismatch
  else
    let p := payload frame in
    if len p <? AUTH_PREFIX_SIZE then Err Channel_InvalidPayload
    else
      let protocol := be_value (slice p 0 2) in
      if negb (protocol =? id_protocol identity) then Err Channel_ProtocolMismatch
      else if negb (beqb (slice p 2 AUTH_PREFIX_SIZE) nonce) then Err Channel_NonceMismatch
      else Ok (mkAuthenticated frame).

(** [Pid::from_raw] *)
Definition Pid_from_raw (raw : Z) : option Z := if raw =? 0 then None else Some raw.

Definition verify_startup_ready (getpgid process_parent_pid : Z -> result Z IoError) frame
    (launcher_pid pgid : Z) (identity : WorkerIdentity) (nonce : SpawnHandshakeNonce) :
    result Z SpawnError :=
  let? worker_pid := ok_or Spawn_InvalidChildPid (Pid_from_raw (pid (peer_identity frame))) in
  let? group := map_err Spawn_Io (getpgid worker_pid) in
  if negb (group =? pgid) then Err (Spawn_WorkerProcessGroupMismatch worker_pid pgid)
  else
  let? parent := map_err Spawn_Io (process_parent_pid worker_pid) in
  if negb (parent =? launcher_pid) then Err (Spawn_WorkerParentMismatch worker_pid launcher_pid)
  else if negb (message_type (header frame) =? READY) then Err Spawn_UnexpectedMessage
  else if negb (beqb (instance (header frame)) (id_instance identity)) then
    Err Spawn_InstanceMismatch
  else if negb (generation (header frame) =? id_generation identity) then
    Err (Spawn_GenerationMismatch (id_generation identity) (generation (header frame)))
  else if bool_decide (descriptors frame <> []) then Err Spawn_UnexpectedDescriptors
  else
  match parse_authenticated_payload (payload frame) with
  | Err _ => Err Spawn_InvalidPayload
  | Ok (protocol, received_nonce, rest) =>
      if negb (protocol =? id_protocol identity) then
        Err (Spawn_ProtocolMismatch (id_protocol identity) protocol)
      else if negb (beqb received_nonce nonce) then Err Spawn_NonceMismatch
      else if bool_decide (rest <> []) then Err Spawn_InvalidPayload
      else Ok worker_pid
  end.
End Frames.

(** ** The two ends *)

(** The child's end. *)
Record WorkerEndpoint : Type := mkWorkerEndpoint {
  we_endpoint : SeqpacketEndpoint;
  we_expected_parent_pid : Z;
  we_identity : WorkerIdentity;
  we_nonce : SpawnHandshakeNonce;
}.

Section Ends.
Context {Fd : Type}.
Context (sendmsg : bytes -> list Fd -> result Z Z) (ancillary_push : list Fd -> bool).
Context (fcntl_getfd : Fd -> result Z Z) (fcntl_setfd : Fd -> Z -> result unit Z).

Abbreviation transport_send := (SeqpacketEndpoint_send sendmsg ancillary_push).
Abbreviation transport_receive := (SeqpacketEndpoint_receive fcntl_getfd fcntl_setfd).

(** A call on the transport from code with another error type. *)
Definition on_transport {E A} (f : TransportError -> E) (c : M SeqpacketEndpoint TransportError A) :
    M SeqpacketEndpoint E A := fun e =>
  let '(r, e') := c e in (map_err f r, e').

(** The parent's first frame, sent in [WorkerSpawner::spawn]. *)
Definition send_challenge (identity : WorkerIdentity) (nonce : SpawnHandshakeNonce) :
    M SeqpacketEndpoint TransportError Sequence :=
  transport_send CHALLENGE 0 (id_instance identity) (id_generation identity)
    (authenticated_payload (id_protocol identity) nonce []) [].

Definition check_challenge (identity : WorkerIdentity) (challenge : Frame Fd) :
    result (Z * SpawnHandshakeNonce) ChildHandshakeError :=
  if negb (message_type (header challenge) =? CHALLENGE) then Err Child_UnexpectedMessage
  else if negb (beqb (instance (header challenge)) (id_instance identity)) then
    Err Child_InstanceMismatch
  else if negb (generation (header challenge) =? id_generation identity) then
    Err Child_GenerationMismatch
  else if bool_decide (descriptors challenge <> []) then Err Child_UnexpectedDescriptors
  else
    let? parsed := parse_authenticated_payload (payload challenge) in
    let '(protocol, nonce, rest) := parsed in
    if negb (protocol =? id_protocol identity) then
      Err (Child_ProtocolMismatch (id_protocol identity) protocol)
    else if bool_decide (rest <> []) then Err Child_UnexpectedPayload
    else Ok (protocol, nonce).

(** What [adopt_at_process_entry] does before it talks to the parent: the flag
    [STDIN_ADOPTED] is swapped first, then the threads are counted and the
    descriptor is moved away from fd 0. *)
Definition adopt_stdin (threads : result Z IoError) (stdin_io : result unit ChildHandshakeError) :
    M bool ChildHandshakeError unit :=
  let! adopted := mread (fun b : bool => b) in
  let! _ := mwrite (fun _ : bool => true) in
  let! _ := mlift (if adopted then Err Child_AlreadyAdopted else Ok tt) in
  let! count := mlift (map_err Child_Io threads) in
  let! _ := mlift (if negb (count =? 1) then Err Child_MultipleThreads else Ok tt) in
  mlift stdin_io.

(** The child's side of the handshake on its new endpoint. *)
Definition adopt_handshake (identity : WorkerIdentity) (recvmsg : result (Received Fd) Z) :
    M SeqpacketEndpoint ChildHandshakeError WorkerEndpoint :=
  let! challenge := on_transport Child_Transport (transport_receive recvmsg) in
  let! checked := mlift (check_challenge identity challenge) in
  let '(protocol, nonce) := checked in
  let expected_parent_pid := pid (peer_identity challenge) in
  let! _ := on_transport Child_Transport
    (transport_send READY 0 (id_instance identity) (id_generation identity)
       (authenticated_payload protocol nonce []) []) in
  let! endpoint := mread (fun e : SeqpacketEndpoint => e) in
  mret (mkWorkerEndpoint endpoint expected_parent_pid identity nonce).

Definition with_endpoint (e : SeqpacketEndpoint) (self : WorkerEndpoint) : WorkerEndpoint :=
  mkWorkerEndpoint e (we_expected_parent_pid self) (we_identity self) (we_nonce self).

Definition WorkerEndpoint_send (ty : MessageType) (fl : FrameFlags) (pl : bytes) (fds : list Fd) :
    M WorkerEndpoint TransportError Sequence := fun self =>
  let '(r, e) :=
    transport_send ty fl (id_instance (we_identity self)) (id_generation (we_identity self))
      (authenticated_payload (id_protocol (we_identity self)) (we_nonce self) pl) fds
      (we_endpoint self) in
  (r, with_endpoint e self).

Definition WorkerEndpoint_receive (recvmsg : result (Received Fd) Z) :
    M WorkerEndpoint AuthenticatedChannelError (AuthenticatedFrame Fd) := fun self =>
  let '(r, e) := transport_receive recvmsg (we_endpoint self) in
  (let? frame := map_err Channel_Transport r in
   authenticate_frame frame (we_expected_parent_pid self) (we_identity self) (we_nonce self),
   with_endpoint e self).

(** [poll] first; [ready] is the number of ready descriptors it returned. *)
Definition WorkerEndpoint_try_receive (ready : result Z IoError) (recvmsg : result (Received Fd) Z) :
    M WorkerEndpoint AuthenticatedChannelError (option (AuthenticatedFrame Fd)) :=
  let! n := mlift (map_err Channel_Io ready) in
  if n =? 0 then mret None
  else
    let! frame := WorkerEndpoint_receive recvmsg in
    mret (Some frame).
End Ends.

(** ** The process group of a worker *)

Inductive Signal : Type := SIGTERM | SIGKILL.

#[export] Instance Signal_eq_dec : EqDecision Signal.
Proof. solve_decision. Defined.

Definition ESRCH : Z := 3.

(** The operating system as the code calls it: children, process groups and
    cgroups, and the reaper thread that takes over what is dropped. *)
Class ProcessOs (K Child Cgroup : Type) : Type := {
  try_wait : Child -> M K IoError (option ExitStatus);
  child_wait : Child -> M K IoError ExitStatus;
  kill_process_group : Z -> Signal -> M K Z unit;
  cgroup_kill : Cgroup -> M K IoError unit;
  cgroup_cleanup : Cgroup -> M K IoError bool;
  submit_cgroup_to_reaper : Cgroup -> K -> K;
  submit_to_reaper : Child -> option Cgroup -> K -> K;
}.

Record LeaderState (Child Cgroup : Type) : Type := mkLeader {
  l_child : option Child;
  l_pgid : option Z;
  l_cgroup : option Cgroup;
  l_status : option ExitStatus;
  l_event_reported : bool;
}.
Arguments mkLeader {Child Cgroup}.
Arguments l_child {Child Cgroup}.
Arguments l_pgid {Child Cgroup}.
Arguments l_cgroup {Child Cgroup}.
Arguments l_status {Child Cgroup}.
Arguments l_event_reported {Child Cgroup}.

Inductive WorkerEvent : Type := ProcessGroupExited (status : ExitStatus).

Record WorkerProcess (Child Cgroup : Type) : Type := mkWorkerProcess {
  worker_pid : Z;
  expected_worker_pid : Z;
  leader : LeaderState Child Cgroup;
  endpoint : option SeqpacketEndpoint;
  wp_identity : WorkerIdentity;
  wp_nonce : SpawnHandshakeNonce;
}.
Arguments mkWorkerProcess {Child Cgroup}.
Arguments worker_pid {Child Cgroup}.
Arguments expected_worker_pid {Child Cgroup}.
Arguments leader {Child Cgroup}.
Arguments endpoint {Child Cgroup}.
Arguments wp_identity {Child Cgroup}.
Arguments wp_nonce {Child Cgroup}.

Section Leader.
Context {K Child Cgroup : Type} `{!ProcessOs K Child Cgroup}.

(** The leader and the operating system it acts on. *)
Definition LeaderM (A : Type) : Type := M (LeaderState Child Cgroup * K) IoError A.

Definition os {A} (c : M K IoError A) : LeaderM A := fun '(l, k) =>
  let '(r, k') := c k in (r, (l, k')).
Definition leader_read {A} (f : LeaderState Child Cgroup -> A) : LeaderM A := mread (fun s => f s.1).
Definition leader_write (f : LeaderState Child Cgroup -> LeaderState Child Cgroup) : LeaderM unit :=
  mwrite (fun s => (f s.1, s.2)).

Definition LeaderState_new (child : Child) (pgid : Z) (cgroup : option Cgroup) :
    LeaderState Child Cgroup :=
  mkLeader (Some child) (Some pgid) cgroup None false.

(** The errors of [kill] and [cleanup] are ignored, not returned. *)
Definition release_cgroup : LeaderM unit := fun '(l, k) =>
  match l_cgroup l with
  | None => (Ok tt, (l, k))
  | Some cgroup =>
      let l' := mkLeader (l_child l) (l_pgid l) None (l_status l) (l_event_reported l) in
      let '(_, k1) := cgroup_kill cgroup k in
      match cgroup_cleanup cgroup k1 with
      | (Ok true, k2) => (Ok tt, (l', k2))
      | (_, k2) => (Ok tt, (l', submit_cgroup_to_reaper cgroup k2))
      end
  end.

(** The leader was reaped with [status]. *)
Definition reaped (status : ExitStatus) : LeaderM unit :=
  let! _ := leader_write (fun l =>
    mkLeader None None (l_cgroup l) (Some status) (l_event_reported l)) in
  release_cgroup.

Definition refresh : LeaderM (option ExitStatus) :=
  let! status := leader_read l_status in
  match status with
  | Some status => mret (Some status)
  | None =>
      let! child := leader_read l_child in
      match child with
      | None => mret None
      | Some child =>
          let! exited := os (try_wait child) in
          let! _ :=
            match exited with
            | Some status => reaped status
            | None => mret tt
            end in
          leader_read l_status
      end
  end.

Definition leader_poll_event : LeaderM (option WorkerEvent) :=
  let! status := refresh in
  match status with
  | None => mret None
  | Some status =>
      let! reported := leader_read l_event_reported in
      if reported then mret None
      else
        let! _ := leader_write (fun l =>
          mkLeader (l_child l) (l_pgid l) (l_cgroup l) (l_status l) true) in
        mret (Some (ProcessGroupExited status))
  end.

Definition leader_wait_event : LeaderM (option WorkerEvent) :=
  let! l := leader_read (fun l => l) in
  let! _ :=
    match l_status l, l_child l with
    | None, Some child =>
        let! status := os (child_wait child) in
        reaped status
    | _, _ => mret tt
    end in
  leader_poll_event.

Definition has_exited (l : LeaderState Child Cgroup) : bool := bool_decide (is_Some (l_status l)).

(** The free function [signal_group]: a group that is gone is no error. *)
Definition signal_pgid (pgid : Z) (signal : Signal) : M K IoError unit := fun k =>
  match kill_process_group pgid signal k with
  | (Ok _, k') => (Ok tt, k')
  | (Err errno, k') => if errno =? ESRCH then (Ok tt, k') else (Err errno, k')
  end.

(** Both calls are made; the first error is returned. *)
Definition leader_signal_group (signal : Signal) : LeaderM unit := fun '(l, k) =>
  let '(cgroup_result, k1) :=
    if bool_decide (signal = SIGKILL) then
      match l_cgroup l with
      | Some cgroup => cgroup_kill cgroup k
      | None => (Ok tt, k)
      end
    else (Ok tt, k) in
  let '(group_result, k2) :=
    match l_child l, l_pgid l with
    | Some _, Some pgid => signal_pgid pgid signal k1
    | _, _ => (Ok tt, k1)
    end in
  (let? _ := cgroup_result in group_result, (l, k2)).

Definition take_child_and_invalidate_group : LeaderM (option (Child * option Cgroup)) := fun '(l, k) =>
  match l_child l with
  | Some child =>
      (Ok (Some (child, l_cgroup l)),
       (mkLeader None None None (l_status l) (l_event_reported l), k))
  | None =>
      (Ok None, (mkLeader None None (l_cgroup l) (l_status l) (l_event_reported l), k))
  end.

(** ** The parent's end *)

Definition ProcessM (E A : Type) : Type := M (WorkerProcess Child Cgroup * K) E A.

Definition with_leader (l : LeaderState Child Cgroup) (p : WorkerProcess Child Cgroup) :
    WorkerProcess Child Cgroup :=
  mkWorkerProcess (worker_pid p) (expected_worker_pid p) l (endpoint p) (wp_identity p) (wp_nonce p).
Definition with_channel (e : option SeqpacketEndpoint) (p : WorkerProcess Child Cgroup) :
    WorkerProcess Child Cgroup :=
  mkWorkerProcess (worker_pid p) (expected_worker_pid p) (leader p) e (wp_identity p) (wp_nonce p).

(** A call on the leader from a method with another error type. *)
Definition on_leader {E A} (f : IoError -> E) (c : LeaderM A) : ProcessM E A := fun '(p, k) =>
  let '(r, (l, k')) := c (leader p, k) in (map_err f r, (with_leader l p, k')).
Definition set_channel {E} (e : option SeqpacketEndpoint) : ProcessM E unit :=
  mwrite (fun s => (with_channel e s.1, s.2)).

Definition same_error (e : IoError) : IoError := e.

Definition process_group_id (p : WorkerProcess Child Cgroup) : option Z := l_pgid (leader p).

Definition poll_event : ProcessM IoError (option WorkerEvent) :=
  let! event := on_leader same_error leader_poll_event in
  let! exited := mread (fun s => has_exited (leader s.1)) in
  let! _ := if (exited : bool) then set_channel None else mret tt in
  mret event.

Definition wait_event : ProcessM IoError (option WorkerEvent) :=
  let! event := on_leader same_error leader_wait_event in
  let! _ := set_channel None in
  mret event.

Definition request_terminate : ProcessM IoError unit := on_leader same_error (leader_signal_group SIGTERM).
Definition request_kill : ProcessM IoError unit := on_leader same_error (leader_signal_group SIGKILL).

Definition terminate : ProcessM IoError (option WorkerEvent) :=
  let! _ := on_leader same_error (leader_signal_group SIGTERM) in
  let! _ := on_leader same_error (leader_signal_group SIGKILL) in
  wait_event.

Definition kill : ProcessM IoError (option WorkerEvent) :=
  let! _ := on_leader same_error (leader_signal_group SIGKILL) in
  wait_event.

(** [Drop]: nothing it does can fail. *)
Definition drop_process : ProcessM IoError unit := fun s =>
  let '(_, s1) := on_leader same_error (leader_signal_group SIGKILL) s in
  let '(taken, (p, k)) := on_leader same_error take_child_and_invalidate_group s1 in
  match taken with
  | Ok (Some (child, cgroup)) => (Ok tt, (p, submit_to_reaper child cgroup k))
  | _ => (Ok tt, (p, k))
  end.

Definition ensure_child_alive : ProcessM AuthenticatedChannelError unit :=
  let! status := on_leader Channel_Io refresh in
  match status with
  | Some status =>
      let! _ := set_channel None in
      mfail (Channel_WorkerGroupExited status)
  | None =>
      let! e := mread (fun s => endpoint s.1) in
      mlift (if bool_decide (e = None) then Err Channel_ChannelClosed else Ok tt)
  end.

Context {Fd : Type}.
Context (sendmsg : bytes -> list Fd -> result Z Z) (ancillary_push : list Fd -> bool).
Context (fcntl_getfd : Fd -> result Z Z) (fcntl_setfd : Fd -> Z -> result unit Z).

(** A call on the endpoint that is open. *)
Definition on_channel {A} (c : M SeqpacketEndpoint TransportError A) :
    ProcessM AuthenticatedChannelError (result A TransportError) := fun '(p, k) =>
  match endpoint p with
  | None => (Err Channel_ChannelClosed, (p, k))
  | Some e => let '(r, e') := c e in (Ok r, (with_channel (Some e') p, k))
  end.

Definition channel_send (ty : MessageType) (fl : FrameFlags) (pl : bytes) (fds : list Fd) :
    ProcessM AuthenticatedChannelError Sequence :=
  let! _ := ensure_child_alive in
  let! p := mread fst in
  let! r := on_channel (SeqpacketEndpoint_send sendmsg ancillary_push ty fl
    (id_instance (wp_identity p)) (id_generation (wp_identity p))
    (authenticated_payload (id_protocol (wp_identity p)) (wp_nonce p) pl) fds) in
  mlift (map_err Channel_Transport r).

Definition channel_try_receive (ready : result Z IoError) (recvmsg : result (Received Fd) Z) :
    ProcessM AuthenticatedChannelError (option (AuthenticatedFrame Fd)) :=
  let! _ := ensure_child_alive in
  let! n := mlift (map_err Channel_Io ready) in
  if n =? 0 then mret None
  else
    let! r := on_channel (SeqpacketEndpoint_receive fcntl_getfd fcntl_setfd recvmsg) in
    match r with
    | Ok frame =>
        let! p := mread fst in
        let! authenticated := mlift
          (authenticate_frame frame (expected_worker_pid p) (wp_identity p) (wp_nonce p)) in
        mret (Some authenticated)
    | Err error =>
        let! _ := set_channel None in
        let! status := on_leader Channel_Io refresh in
        match status with
        | Some status => mfail (Channel_WorkerGroupExited status)
        | None => mfail (Channel_Transport error)
        end
    end.
End Leader.

(** ** Authentication *)

Section Authentication.
Context {Fd : Type}.
Implicit Types (frame : Frame Fd) (nonce : SpawnHandshakeNonce).

Lemma beqb_spec (a b : bytes) : reflect (a = b) (beqb a b).
Proof. apply bool_decide_reflect. Qed.

(** The prefix of an authenticated payload, read back. *)
Lemma authenticated_pieces protocol nonce pl :
  0 <= protocol <= u16_max -> len nonce = 32 ->
  let p := authenticated_payload protocol nonce pl in
  (len p <? AUTH_PREFIX_SIZE) = false /\ be_value (slice p 0 2) = protocol /\
  slice p 2 AUTH_PREFIX_SIZE = nonce /\ drop (Z.to_nat AUTH_PREFIX_SIZE) p = pl.
Proof.
  intros Hp Hn p. unfold p, authenticated_payload, AUTH_PREFIX_SIZE.
  assert (len (be_bytes 2 protocol) = 2) as H2 by apply len_be_bytes.
  pose proof (len_nonneg pl). split_and!.
  - apply Z.ltb_ge. autorewrite with oxi. lia.
  - rewrite <- H2 at 1. rewrite slice_head. apply be_roundtrip. unfold u16_max in Hp. simpl. lia.
  - rewrite slice_skip, H2 by lia. replace (34 - 2) with (len nonce) by lia. apply slice_head.
  - rewrite (assoc_L app). replace 34 with (len (be_bytes 2 protocol ++ nonce))
      by (rewrite len_app; lia). apply drop_len_app.
Qed.

Lemma payload_authenticated p :
  AUTH_PREFIX_SIZE <= len p ->
  p = authenticated_payload (be_value (slice p 0 2)) (slice p 2 AUTH_PREFIX_SIZE)
        (drop (Z.to_nat AUTH_PREFIX_SIZE) p) /\
  0 <= be_value (slice p 0 2) <= u16_max /\ len (slice p 2 AUTH_PREFIX_SIZE) = 32.
Proof.
  unfold AUTH_PREFIX_SIZE. intros Hl. split_and!.
  - unfold authenticated_payload. rewrite (be_bytes_slice p 0 2 2) by lia.
    rewrite (assoc_L app), <- slice_split by lia. unfold slice. rewrite Z.sub_0_r.
    change (Z.to_nat 0) with 0%nat. by rewrite drop_0, take_drop.
  - pose proof (be_value_range (slice p 0 2)). lia.
  - pose proof (be_value_range (slice p 0 2)) as H. rewrite len_slice in H by lia.
    unfold u16_max. lia.
  - by rewrite len_slice by lia.
Qed.

Lemma authenticate_Ok frame epid identity nonce f :
  authenticate_frame frame epid identity nonce = Ok f <->
  f = mkAuthenticated frame /\ pid (peer_identity frame) = epid /\
  instance (header frame) = id_instance identity /\
  generation (header frame) = id_generation identity /\
  AUTH_PREFIX_SIZE <= len (payload frame) /\
  be_value (slice (payload frame) 0 2) = id_protocol identity /\
  slice (payload frame) 2 AUTH_PREFIX_SIZE = nonce.
Proof.
  unfold authenticate_frame.
  destruct (Z.eqb_spec (pid (peer_identity frame)) epid); [|naive_solver].
  destruct (beqb_spec (instance (header frame)) (id_instance identity)); [|naive_solver].
  destruct (Z.eqb_spec (generation (header frame)) (id_generation identity)); [|naive_solver].
  destruct (Z.ltb_spec (len (payload frame)) AUTH_PREFIX_SIZE); [naive_solver lia|].
  destruct (Z.eqb_spec (be_value (slice (payload frame) 0 2)) (id_protocol identity)); [|naive_solver].
  destruct (beqb_spec (slice (payload frame) 2 AUTH_PREFIX_SIZE) nonce); naive_solver.
Qed.
End Authentication.

Definition identity_in_range (i : WorkerIdentity) : Prop :=
  len (id_instance i) = 16 /\ 0 <= id_generation i <= u64_max /\ 0 <= id_protocol i <= u16_max.

(** ** The start-up handshake *)

Section Handshake.
Context {Fd : Type}.
Context (sendmsg : bytes -> list Fd -> result Z Z) (ancillary_push : list Fd -> bool).
Context (fcntl_getfd : Fd -> result Z Z) (fcntl_setfd : Fd -> Z -> result unit Z).

Definition handshake_message (ty : MessageType) (identity : WorkerIdentity)
    (nonce : SpawnHandshakeNonce) : Message (Fd:=Fd) :=
  mkMessage ty 0 (id_instance identity) (id_generation identity)
    (authenticated_payload (id_protocol identity) nonce []) [].

Definition handshake_frame (ty : MessageType) (identity : WorkerIdentity)
    (nonce : SpawnHandshakeNonce) (peer : PeerIdentity) : Frame Fd :=
  mkFrame (header_of (handshake_message ty identity nonce) 1)
    (authenticated_payload (id_protocol identity) nonce []) [] peer.

Lemma handshake_in_range ty identity nonce :
  0 <= ty <= u16_max -> identity_in_range identity -> len nonce = 32 ->
  message_in_range (handshake_message ty identity nonce).
Proof.
  intros Hty (Hi & Hg & Hp) Hn. unfold message_in_range.
  cbn [m_type m_flags m_instance m_generation m_payload m_descriptors handshake_message].
  split_and!; try done; try lia.
  unfold authenticated_payload. rewrite !len_app, len_be_bytes, Hn. by vm_compute.
Qed.

Lemma parse_authenticated protocol nonce pl :
  0 <= protocol <= u16_max -> len nonce = 32 ->
  parse_authenticated_payload (authenticated_payload protocol nonce pl) = Ok (protocol, nonce, pl).
Proof.
  intros Hp Hn. unfold parse_authenticated_payload.
  by destruct (authenticated_pieces protocol nonce pl Hp Hn) as (-> & -> & -> & ->).
Qed.

Lemma check_challenge_frame identity identity' nonce peer protocol nonce' :
  identity_in_range identity -> len nonce = 32 ->
  check_challenge identity' (handshake_frame CHALLENGE identity nonce peer) = Ok (protocol, nonce') <->
  identity' = identity /\ protocol = id_protocol identity /\ nonce' = nonce.
Proof.
  intros (Hi & Hg & Hp) Hn. unfold check_challenge, handshake_frame.
  cbn [header payload descriptors header_of handshake_message message_type instance generation
       m_type m_instance m_generation m_descriptors]. rewrite Z.eqb_refl. cbn [negb].
  rewrite parse_authenticated by done. rewrite bool_decide_eq_false_2 by (by intros []). cbn [result_bind].
  destruct identity as [i g p], identity' as [i' g' p'].
  cbn [id_instance id_generation id_protocol] in *.
  destruct (beqb_spec i i'), (Z.eqb_spec g g'), (Z.eqb_spec p p'); subst; simpl; naive_solver.
Qed.

Context (Hk : intact_kernel sendmsg ancillary_push fcntl_getfd fcntl_setfd).

Lemma receive_handshake ty identity nonce rest peer e :
  0 <= ty <= u16_max -> identity_in_range identity -> len nonce = 32 ->
  last_received_sequence e = None ->
  receive fcntl_getfd fcntl_setfd (Ok (delivered (handshake_message ty identity nonce) 1 rest peer)) e =
  (Ok (handshake_frame ty identity nonce peer), mkEndpoint (next_send_sequence e) (Some 1)).
Proof.
  intros Hty Hi Hn He. apply receive_Ok. rewrite He.
  rewrite (receive_delivered _ _ _ _ Hk) by (by apply handshake_in_range || done). done.
Qed.

Lemma adopt_handshake_spec identity identity' nonce rest peer :
  identity_in_range identity -> identity_in_range identity' -> len nonce = 32 ->
  let challenge := delivered (handshake_message CHALLENGE identity nonce) 1 rest peer in
  (identity' = identity /\
   adopt_handshake sendmsg ancillary_push fcntl_getfd fcntl_setfd identity' (Ok challenge)
     SeqpacketEndpoint_new =
   (Ok (mkWorkerEndpoint (mkEndpoint 2 (Some 1)) (pid peer) identity nonce), mkEndpoint 2 (Some 1))) \/
  (identity' <> identity /\
   exists err e, adopt_handshake sendmsg ancillary_push fcntl_getfd fcntl_setfd identity' (Ok challenge)
     SeqpacketEndpoint_new = (Err err, e)).
Proof.
  intros Hi Hi' Hn challenge. unfold adopt_handshake, mbind_se, on_transport.
  change (SeqpacketEndpoint_receive fcntl_getfd fcntl_setfd) with (receive fcntl_getfd fcntl_setfd).
  unfold challenge. rewrite receive_handshake by done. cbn [map_err mlift].
  destruct (check_challenge identity' _) as [[protocol nonce']|err] eqn:Hc.
  - apply check_challenge_frame in Hc as (-> & -> & ->); [|done..].
    left. split; [done|].
    pose proof (send_in_range _ _ _ _ Hk (handshake_message READY identity nonce)
      (mkEndpoint (next_send_sequence SeqpacketEndpoint_new) (Some 1))) as Hs.
    unfold send_message in Hs. cbn [m_type m_flags m_instance m_generation m_payload m_descriptors
      handshake_message next_send_sequence last_received_sequence SeqpacketEndpoint_new] in *.
    rewrite Hs; [done|by apply handshake_in_range|by vm_compute].
  - right. split; [|eauto]. intros ->.
    by rewrite (proj2 (check_challenge_frame identity identity nonce peer _ nonce Hi Hn)
      (conj eq_refl (conj eq_refl eq_refl))) in Hc.
Qed.

Lemma verify_ready_frame getpgid parent_pid identity nonce nonce' peer launcher pgid :
  identity_in_range identity -> len nonce = 32 -> pid peer <> 0 ->
  getpgid (pid peer) = Ok pgid -> parent_pid (pid peer) = Ok launcher ->
  verify_startup_ready getpgid parent_pid (handshake_frame READY identity nonce peer) launcher pgid
    identity nonce' =
  if bool_decide (nonce' = nonce) then Ok (pid peer) else Err Spawn_NonceMismatch.
Proof.
  intros (Hi & Hg & Hp) Hn Hpid Hgr Hpa. unfold verify_startup_ready, handshake_frame, Pid_from_raw.
  cbn [header payload descriptors peer_identity header_of handshake_message message_type instance
       generation m_type m_instance m_generation m_descriptors].
  rewrite (proj2 (Z.eqb_neq _ _) Hpid). cbn [ok_or result_bind]. rewrite Hgr. cbn [map_err result_bind].
  rewrite Z.eqb_refl, Hpa. cbn [map_err result_bind]. rewrite !Z.eqb_refl. cbn [negb].
  destruct (beqb_spec (id_instance identity) (id_instance identity)); [|done].
  rewrite parse_authenticated, Z.eqb_refl by done. cbn [negb].
  destruct (beqb_spec nonce nonce'); repeat case_bool_decide; naive_solver.
Qed.
End Handshake.

(** ** The calls a process makes *)

(** What concerns the identity of the group: a wait that reaped the leader, a
    signal to the group, and handing the child over to the reaper thread. *)
Inductive OsCall : Type :=
| CallReaped
| CallSignal (pgid : Z) (signal : Signal)
| CallHandedOver.

Section Traced.
Context {K Child Cgroup : Type} `{!ProcessOs K Child Cgroup}.

(** The operating system with a log of those calls, the last one first. *)
Definition logged {E A} (call : A -> option OsCall) (c : M K E A) : M (K * list OsCall) E A :=
  fun '(k, t) =>
    let '(r, k') := c k in
    (r, (k', match r with
             | Ok a => match call a with Some x => x :: t | None => t end
             | Err _ => t
             end)).

(** A signal counts also when the kernel refuses it. *)
Definition logged_signal (pgid : Z) (signal : Signal) : M (K * list OsCall) Z unit := fun '(k, t) =>
  let '(r, k') := kill_process_group pgid signal k in (r, (k', CallSignal pgid signal :: t)).

#[export] Instance traced_os : ProcessOs (K * list OsCall) Child Cgroup := {
  try_wait child := logged (fun o => match (o : option ExitStatus) with Some _ => Some CallReaped | None => None end)
                      (try_wait child);
  child_wait child := logged (fun _ => Some CallReaped) (child_wait child);
  kill_process_group := logged_signal;
  cgroup_kill cgroup := logged (fun _ => None) (cgroup_kill cgroup);
  cgroup_cleanup cgroup := logged (fun _ => None) (cgroup_cleanup cgroup);
  submit_cgroup_to_reaper cgroup '(k, t) := (submit_cgroup_to_reaper cgroup k, t);
  submit_to_reaper child cgroup '(k, t) := (submit_to_reaper child cgroup k, CallHandedOver :: t);
}.
End Traced.

(** The operations on a process whose owner holds it; [ProcAlive] is the check
    every use of the channel makes. *)
Inductive ProcessOp : Type :=
| ProcPoll | ProcWait | ProcRequestTerminate | ProcRequestKill | ProcTerminate | ProcKill | ProcAlive.

Section Traces.
Context {K Child Cgroup : Type} `{!ProcessOs K Child Cgroup}.

Abbreviation State := (WorkerProcess Child Cgroup * (K * list OsCall))%type.

Definition events_of {E} (r : result (option WorkerEvent) E) : list WorkerEvent :=
  match r with Ok (Some e) => [e] | _ => [] end.

(** One operation: the exit event it reports, if any, and the new state. *)
Definition process_op (op : ProcessOp) (s : State) : list WorkerEvent * State :=
  match op with
  | ProcPoll => let '(r, s') := poll_event s in (events_of r, s')
  | ProcWait => let '(r, s') := wait_event s in (events_of r, s')
  | ProcRequestTerminate => ([], (request_terminate s).2)
  | ProcRequestKill => ([], (request_kill s).2)
  | ProcTerminate => let '(r, s') := terminate s in (events_of r, s')
  | ProcKill => let '(r, s') := kill s in (events_of r, s')
  | ProcAlive => ([], (ensure_child_alive s).2)
  end.

Fixpoint process_run (ops : list ProcessOp) (s : State) : list WorkerEvent * State :=
  match ops with
  | [] => ([], s)
  | op :: ops =>
      let '(es, s1) := process_op op s in
      let '(es', s2) := process_run ops s1 in
      (es ++ es', s2)
  end.

(** In time order, no signal after the leader was reaped or handed over. *)
Definition group_released (c : OsCall) : bool :=
  match c with CallSignal _ _ => false | _ => true end.

(** The newest call comes first: what is older than a signal released nothing,
    and a group is released once. *)
Fixpoint calls_ok (t : list OsCall) : Prop :=
  match t with
  | [] => True
  | _ :: t => forallb (fun c => negb (group_released c)) t = true /\ calls_ok t
  end.

Definition targets (group : Z) (c : OsCall) : Prop :=
  match c with CallSignal g _ => g = group | _ => True end.

Definition only_signals (t : list OsCall) : Prop :=
  forallb (fun c => negb (group_released c)) t = true.

(** Either the group is owned and nothing released it, or the leader was reaped
    by the last call logged. *)
Record leader_ok (group : Z) (l : LeaderState Child Cgroup) (t : list OsCall) : Prop := {
  lo_calls : calls_ok t;
  lo_targets : Forall (targets group) t;
  lo_owned :
    match l_child l with
    | Some _ => l_pgid l = Some group /\ l_status l = None /\ l_event_reported l = false /\
                only_signals t
    | None => l_pgid l = None /\ is_Some (l_status l) /\ exists rest, t = CallReaped :: rest
    end;
}.

Lemma only_signals_ok t : only_signals t -> calls_ok t.
Proof.
  induction t as [|c t IH]; simpl; [done|]. unfold only_signals. simpl. intros [_ H]%andb_true_iff.
  split; [done|by apply IH].
Qed.

Lemma release_cgroup_spec (l : LeaderState Child Cgroup) (k : K) t r l' k' t' :
  release_cgroup (l, (k, t)) = (r, (l', (k', t'))) ->
  r = Ok tt /\ t' = t /\ exists cg, l' = mkLeader (l_child l) (l_pgid l) cg (l_status l) (l_event_reported l).
Proof.
  unfold release_cgroup. destruct (l_cgroup l) as [cg|] eqn:Hcg.
  - cbn. destruct (cgroup_kill cg k) as [rk k1]. cbn.
    destruct (cgroup_cleanup cg k1) as [[[]|] k2]; intros [= <- <- <- <-]; destruct rk; eauto.
  - intros [= <- <- <- <-]. split_and!; [done..|]. exists None. rewrite <- Hcg. by destruct l.
Qed.

Lemma reaped_spec status (l : LeaderState Child Cgroup) (k : K) t r l' k' t' :
  reaped status (l, (k, t)) = (r, (l', (k', t'))) ->
  r = Ok tt /\ t' = t /\ exists cg, l' = mkLeader None None cg (Some status) (l_event_reported l).
Proof.
  unfold reaped, mbind_se, leader_write, mwrite. cbn [fst snd].
  by intros (? & ? & ?)%release_cgroup_spec.
Qed.

Lemma leader_reaped group (l l' : LeaderState Child Cgroup) t cg status :
  leader_ok group l t -> is_Some (l_child l) -> l' = mkLeader None None cg (Some status) (l_event_reported l) ->
  leader_ok group l' (CallReaped :: t).
Proof.
  intros [Hc Ht Ho] [c Hl] ->. rewrite Hl in Ho. destruct Ho as (_ & _ & _ & Hs).
  split; [by split|by constructor|]. cbn. eauto.
Qed.

Lemma refresh_ok group (l : LeaderState Child Cgroup) (k : K) t r l' k' t' :
  leader_ok group l t -> refresh (l, (k, t)) = (r, (l', (k', t'))) ->
  leader_ok group l' t' /\ l_event_reported l' = l_event_reported l /\
  match r with Ok o => o = l_status l' | Err _ => True end.
Proof.
  intros Hl. pose proof (lo_owned _ _ _ Hl) as Ho.
  unfold refresh, mbind_se, leader_read, mread, mret, os. cbn [fst snd].
  destruct (l_status l) as [st|] eqn:Hst; [by intros [= <- <- <- <-]|]. cbn [fst snd].
  destruct (l_child l) as [c|] eqn:Hch; [|by destruct Ho as (_ & [? ?] & _)].
  cbn -[reaped]. destruct (try_wait c k) as [[[st|]|e] k1]; cbn -[reaped].
  - destruct (reaped st (l, (k1, CallReaped :: t))) as [r2 [l2 [k2 t2]]] eqn:Hr.
    apply reaped_spec in Hr as (-> & -> & cg & ->). cbn. intros [= <- <- <- <-]. cbn.
    split_and!; [|done..]. by eapply leader_reaped.
  - intros [= <- <- <- <-]. by rewrite Hst.
  - by intros [= <- <- <- <-].
Qed.

Lemma poll_event_ok group (l : LeaderState Child Cgroup) (k : K) t r l' k' t' :
  leader_ok group l t -> leader_poll_event (l, (k, t)) = (r, (l', (k', t'))) ->
  leader_ok group l' t' /\
  (length (events_of r) + (if l_event_reported l then 1 else 0) =
   if l_event_reported l' then 1 else 0)%nat.
Proof.
  intros Hl. unfold leader_poll_event, mbind_se.
  destruct (refresh (l, (k, t))) as [[o|e] [l1 [k1 t1]]] eqn:Hr;
    apply (refresh_ok group) in Hr as (Hl1 & He & Ho); try done.
  - subst o. destruct (l_status l1) as [st|] eqn:Hst; [|intros [= <- <- <- <-]; by rewrite He].
    unfold leader_read, mread, leader_write, mwrite, mret. cbn [fst snd].
    destruct (l_event_reported l1) eqn:Her.
    + intros [= <- <- <- <-]. by rewrite Her, <- He.
    + intros [= <- <- <- <-]. rewrite <- He. split; [|done]. destruct Hl1 as [Hc Ht Hown].
      split; [done..|]. cbn. destruct (l_child l1); [by destruct Hown as (_ & ? & _); congruence|].
      done.
  - intros [= <- <- <- <-]. by rewrite He.
Qed.

Lemma wait_event_ok group (l : LeaderState Child Cgroup) (k : K) t r l' k' t' :
  leader_ok group l t -> leader_wait_event (l, (k, t)) = (r, (l', (k', t'))) ->
  leader_ok group l' t' /\
  (length (events_of r) + (if l_event_reported l then 1 else 0) =
   if l_event_reported l' then 1 else 0)%nat.
Proof.
  intros Hl. pose proof (lo_owned _ _ _ Hl) as Ho.
  unfold leader_wait_event. unfold mbind_se at 1. unfold leader_read at 1, mread at 1. cbn [fst snd].
  unfold mbind_se at 1.
  destruct (l_status l) as [st|] eqn:Hst; [unfold mret at 1; by apply poll_event_ok|].
  destruct (l_child l) as [c|] eqn:Hch; [|by destruct Ho as (_ & [? ?] & _)].
  unfold mbind_se at 1, os at 1. cbn -[reaped leader_poll_event].
  destruct (child_wait c k) as [[st|e] k1]; cbn -[reaped leader_poll_event].
  - destruct (reaped st (l, (k1, CallReaped :: t))) as [r2 [l2 [k2 t2]]] eqn:Hr.
    apply reaped_spec in Hr as (-> & -> & cg & ->).
    assert (l_event_reported l = l_event_reported (mkLeader (@None Child) None cg (Some st)
      (l_event_reported l))) as -> by done.
    apply poll_event_ok. by eapply leader_reaped.
  - by intros [= <- <- <- <-].
Qed.

Lemma signal_group_ok group signal (l : LeaderState Child Cgroup) (k : K) t r l' k' t' :
  leader_ok group l t -> leader_signal_group signal (l, (k, t)) = (r, (l', (k', t'))) ->
  leader_ok group l' t' /\ l' = l.
Proof.
  intros Hl. pose proof (lo_owned _ _ _ Hl) as Ho. unfold leader_signal_group.
  assert (forall c k0 t0, exists r1 k1, cgroup_kill c (k0, t0) = (r1, (k1, t0)) :> (_ * (K * list OsCall)))
    as Hkill.
  { intros c k0 t0. cbn. destruct (cgroup_kill c k0) as [[]]; eauto. }
  assert (exists r1 k1, (if bool_decide (signal = SIGKILL) then
      match l_cgroup l with Some cgroup => cgroup_kill cgroup (k, t) | None => (Ok tt, (k, t)) end
    else (Ok tt, (k, t))) = (r1, (k1, t))) as (r1 & k1 & ->).
  { case_bool_decide; [|eauto]. destruct (l_cgroup l); eauto. }
  destruct (l_child l) as [c|] eqn:Hch.
  - destruct Ho as (Hpg & Hst & Her & Hs). rewrite Hpg. unfold signal_pgid. cbn.
    assert (leader_ok group l (CallSignal group signal :: t)) as Hok.
    { split; [by split; [|apply only_signals_ok]|constructor; [done|apply Hl]|]. by rewrite Hch. }
    destruct (kill_process_group group signal k1) as [[[]|e] k2]; cbn; [|destruct (e =? ESRCH)];
      by intros [= <- <- <- <-].
  - intros [= <- <- <- <-]. done.
Qed.

(** A computation on the process keeps the invariant, and reports [ev] exits. *)
Definition keeps {E A} (group : Z) (c : M State E A) (ev : result A E -> nat) : Prop :=
  forall p (k : K) t r p' k' t', leader_ok group (leader p) t -> c (p, (k, t)) = (r, (p', (k', t'))) ->
    leader_ok group (leader p') t' /\
    (ev r + (if l_event_reported (leader p) then 1 else 0) =
     if l_event_reported (leader p') then 1 else 0)%nat.

Definition reports {E} (r : result (option WorkerEvent) E) : nat := length (events_of r).
Definition silent {E A} (r : result A E) : nat := 0.

Lemma keeps_leader {E A} group (f : IoError -> E) (c : LeaderM (K:=K * list OsCall) A) ev ev' :
  (forall r, ev' (map_err f r) = ev r) ->
  (forall l (k : K) t r l' k' t', leader_ok group l t -> c (l, (k, t)) = (r, (l', (k', t'))) ->
    leader_ok group l' t' /\
    (ev r + (if l_event_reported l then 1 else 0) = if l_event_reported l' then 1 else 0)%nat) ->
  keeps group (on_leader f c) ev'.
Proof.
  intros Hev H p k t r p' k' t' Hp. unfold on_leader.
  destruct (c (leader p, (k, t))) as [r1 [l1 [k1 t1]]] eqn:Hc.
  intros [= <- <- <- <-]. rewrite Hev. cbn. by eapply H.
Qed.

Lemma keeps_bind {E A B} group (c : M State E A) (q : A -> M State E B) (ev : result B E -> nat) :
  keeps group c silent -> (forall a, keeps group (q a) ev) -> (forall e, ev (Err e) = 0%nat) ->
  keeps group (mbind_se c q) ev.
Proof.
  intros Hc Hq He p k t r p' k' t' Hp. unfold mbind_se.
  destruct (c (p, (k, t))) as [[a|e] [p1 [k1 t1]]] eqn:Hr; apply Hc in Hr as [Hp1 Hn]; try done.
  - intros [? ?]%Hq; [|done]. split; [done|]. unfold silent in Hn. lia.
  - intros [= <- <- <- <-]. by rewrite He.
Qed.

Lemma keeps_then {E A} group (c : M State E A) (q : A -> M State E A) ev :
  keeps group c ev ->
  (forall a s, exists p', q a s = (Ok a, (p', s.2)) /\ leader p' = leader s.1) ->
  keeps group (mbind_se c q) ev.
Proof.
  intros Hc Hq p k t r p' k' t' Hp. unfold mbind_se.
  destruct (c (p, (k, t))) as [[a|e] [p1 [k1 t1]]] eqn:Hr; apply Hc in Hr as [Hp1 Hn]; try done.
  - destruct (Hq a (p1, (k1, t1))) as (p2 & -> & Hp2). intros [= <- <- <- <-]. cbn in *.
    by rewrite Hp2.
  - by intros [= <- <- <- <-].
Qed.

Lemma keeps_poll group : keeps group poll_event reports.
Proof.
  apply keeps_then.
  - apply (keeps_leader _ _ _ reports); [by intros [[]|]|]. intros. by eapply poll_event_ok.
  - intros a [p [k t]]. unfold mbind_se, mread, set_channel, mwrite, mret. cbn [fst snd].
    destruct (has_exited (leader p)); eauto.
Qed.

Lemma keeps_wait group : keeps group wait_event reports.
Proof.
  apply keeps_then.
  - apply (keeps_leader _ _ _ reports); [by intros [[]|]|]. intros. by eapply wait_event_ok.
  - intros a [p [k t]]. unfold mbind_se, set_channel, mwrite, mret. cbn [fst snd]. eauto.
Qed.

Lemma keeps_signal {E} group (f : IoError -> E) signal :
  keeps group (on_leader f (leader_signal_group signal)) silent.
Proof.
  apply (keeps_leader _ _ _ silent); [done|]. intros l k t r l' k' t' Hl H.
  by apply (signal_group_ok group) in H as [? ->].
Qed.

Lemma keeps_alive group : keeps group ensure_child_alive silent.
Proof.
  apply keeps_bind; [|intros [st|]|done].
  - apply (keeps_leader _ _ _ silent); [done|]. intros l k t r l' k' t' Hl H.
    apply (refresh_ok group) in H as (? & He & _); [|done]. by rewrite He.
  - intros p k t r p' k' t' Hp. unfold mbind_se, set_channel, mwrite, mfail. cbn.
    by intros [= <- <- <- <-].
  - intros p k t r p' k' t' Hp. unfold mbind_se, mread, mlift. by intros [= <- <- <- <-].
Qed.

Lemma process_op_ok group op (p : WorkerProcess Child Cgroup) (k : K) t es p' k' t' :
  leader_ok group (leader p) t -> process_op op (p, (k, t)) = (es, (p', (k', t'))) ->
  leader_ok group (leader p') t' /\
  (length es + (if l_event_reported (leader p) then 1 else 0) =
   if l_event_reported (leader p') then 1 else 0)%nat.
Proof.
  intros Hp. unfold process_op.
  assert (forall c, keeps group c reports -> forall es, (let '(r, s') := c (p, (k, t)) in
    (events_of (E:=IoError) r, s')) = (es, (p', (k', t'))) -> leader_ok group (leader p') t' /\
    (length es + (if l_event_reported (leader p) then 1 else 0) =
     if l_event_reported (leader p') then 1 else 0)%nat) as Hev.
  { intros c Hc es'. destruct (c (p, (k, t))) as [r [p1 [k1 t1]]] eqn:Hr.
    intros [= <- <- <- <-]. by eapply Hc. }
  assert (forall E A (c : M State E A), keeps group c silent -> ([], (c (p, (k, t))).2) = (es, (p', (k', t'))) ->
    leader_ok group (leader p') t' /\
    (length es + (if l_event_reported (leader p) then 1 else 0) =
     if l_event_reported (leader p') then 1 else 0)%nat) as Hsi.
  { intros E A c Hc. destruct (c (p, (k, t))) as [r [p1 [k1 t1]]] eqn:Hr.
    intros [= <- <- <- <-]. by eapply Hc. }
  destruct op; [apply Hev, keeps_poll|apply Hev, keeps_wait|apply Hsi, keeps_signal|
    apply Hsi, keeps_signal|apply Hev|apply Hev|apply Hsi, keeps_alive].
  - apply keeps_bind; [apply keeps_signal|intros _|done].
    apply keeps_bind; [apply keeps_signal|intros _; apply keeps_wait|done].
  - apply keeps_bind; [apply keeps_signal|intros _; apply keeps_wait|done].
Qed.

Lemma process_run_ok group ops (p : WorkerProcess Child Cgroup) (k : K) t es p' k' t' :
  leader_ok group (leader p) t -> process_run ops (p, (k, t)) = (es, (p', (k', t'))) ->
  leader_ok group (leader p') t' /\
  (length es + (if l_event_reported (leader p) then 1 else 0) =
   if l_event_reported (leader p') then 1 else 0)%nat.
Proof.
  revert p k t es. induction ops as [|op ops IH]; intros p k t es Hp; cbn [process_run].
  - by intros [= <- <- <- <-].
  - destruct (process_op op (p, (k, t))) as [es1 [p1 [k1 t1]]] eqn:H1.
    destruct (process_run ops (p1, (k1, t1))) as [es2 [p2 [k2 t2]]] eqn:H2.
    apply (process_op_ok group) in H1 as [Hp1 Hn1]; [|done].
    intros [= <- <- <- <-]. apply IH in H2 as [Hp2 Hn2]; [|done]. rewrite length_app. split; [done|lia].
Qed.

Lemma drop_process_ok group (p : WorkerProcess Child Cgroup) (k : K) t r p' k' t' :
  leader_ok group (leader p) t -> drop_process (p, (k, t)) = (r, (p', (k', t'))) ->
  calls_ok t' /\ Forall (targets group) t' /\
  exists c rest, t' = c :: rest /\ group_released c = true.
Proof.
  intros Hp. unfold drop_process.
  destruct (on_leader same_error (leader_signal_group SIGKILL) (p, (k, t))) as [r1 [p1 [k1 t1]]] eqn:Hs.
  eapply keeps_signal in Hs as [Hp1 _]; [|exact Hp]. destruct Hp1 as [Hc Ht Ho].
  unfold on_leader, take_child_and_invalidate_group. destruct (l_child (leader p1)) as [child|]; cbn.
  - intros [= <- <- <- <-]. destruct Ho as (_ & _ & _ & Hs). split_and!; [done..|by constructor|eauto].
  - intros [= <- <- <- <-]. destruct Ho as (_ & _ & rest & ->). split_and!; [done..|eauto].
Qed.
End Traces.

(** ** Properties *)

(** A frame is authenticated exactly when the kernel's credentials name the
    expected process, its header carries the instance and generation of the
    identity, and its payload is an application payload under the identity's
    protocol and the spawn's nonce; that application payload is what the
    authenticated frame gives. *)
Theorem channel_authentic {Fd} (frame : Frame Fd) epid identity nonce f :
  identity_in_range identity -> len nonce = 32 ->
  authenticate_frame frame epid identity nonce = Ok f <->
  f = mkAuthenticated frame /\ pid (peer_identity frame) = epid /\
  instance (header frame) = id_instance identity /\
  generation (header frame) = id_generation identity /\
  payload frame = authenticated_payload (id_protocol identity) nonce (auth_payload f).
Proof.
  intros (_ & _ & Hp) Hn. rewrite authenticate_Ok. split.
  - intros (-> & ? & ? & ? & Hl & Hpr & Hno). split_and!; try done.
    destruct (payload_authenticated (payload frame) Hl) as [Hpl _].
    by rewrite Hpr, Hno in Hpl.
  - intros (-> & ? & ? & ? & Hpl).
    destruct (authenticated_pieces (id_protocol identity) nonce
      (auth_payload (mkAuthenticated frame)) Hp Hn) as (Hl & Hv & Hs & _).
    rewrite Hpl. apply Z.ltb_ge in Hl. done.
Qed.

(** The start-up handshake between a parent and a child over an intact
    channel.  The child accepts the challenge exactly when it was started with
    the identity the parent spawned, and then holds the nonce and the parent's
    process id; the parent accepts its ready frame exactly under the nonce of
    this spawn, as coming from the process the kernel names. *)
Theorem channel_handshake {Fd} sendmsg push getfd setfd identity identity' nonce rest parent child
    getpgid parent_pid launcher pgid :
  intact_kernel (Fd:=Fd) sendmsg push getfd setfd ->
  identity_in_range identity -> identity_in_range identity' -> len nonce = 32 ->
  pid child <> 0 -> getpgid (pid child) = Ok pgid -> parent_pid (pid child) = Ok launcher ->
  let challenge := delivered (handshake_message CHALLENGE identity nonce) 1 rest parent in
  let ready := delivered (handshake_message READY identity nonce) 1 rest child in
  send_challenge sendmsg push identity nonce SeqpacketEndpoint_new = (Ok 1, mkEndpoint 2 None) /\
  match adopt_handshake sendmsg push getfd setfd identity' (Ok challenge) SeqpacketEndpoint_new with
  | (Ok w, e) => identity' = identity /\ w = mkWorkerEndpoint e (pid parent) identity nonce /\
                 e = mkEndpoint 2 (Some 1)
  | (Err _, _) => identity' <> identity
  end /\
  exists frame,
    SeqpacketEndpoint_receive getfd setfd (Ok ready) (mkEndpoint 2 None) =
      (Ok frame, mkEndpoint 2 (Some 1)) /\
    forall nonce', verify_startup_ready getpgid parent_pid frame launcher pgid identity nonce' =
      if bool_decide (nonce' = nonce) then Ok (pid child) else Err Spawn_NonceMismatch.
Proof.
  intros Hk Hi Hi' Hn Hpid Hgr Hpa challenge ready. split_and!.
  - apply (send_in_range _ _ _ _ Hk (handshake_message CHALLENGE identity nonce));
      [by apply handshake_in_range|by vm_compute].
  - unfold challenge.
    by destruct (adopt_handshake_spec sendmsg push getfd setfd Hk identity identity' nonce rest parent)
      as [[-> ->]|(? & err & e & ->)].
  - exists (handshake_frame READY identity nonce child). split.
    + by apply (receive_handshake _ _ _ _ Hk).
    + intros nonce'. by apply verify_ready_frame.
Qed.

(** C28: however a worker process is used, and whatever the operating system
    answers, once it is dropped its leader was given up exactly once, reaped or
    handed to the reaper thread; every signal sent went to the group of this
    worker and was sent before that, so a reused group number is never
    signalled; and its exit was reported at most once. *)
Theorem channel_group_signals {K Child Cgroup} `{!ProcessOs K Child Cgroup} (child : Child) pgid
    cgroup wpid epid e identity nonce (k : K) ops es p k1 t1 r p' k2 t2 :
  process_run ops (mkWorkerProcess wpid epid (LeaderState_new child pgid cgroup) e identity nonce, (k, []))
    = (es, (p, (k1, t1))) ->
  drop_process (p, (k1, t1)) = (r, (p', (k2, t2))) ->
  (exists released signals, t2 = released :: signals /\ group_released released = true /\
     Forall (fun c => exists s, c = CallSignal pgid s) signals) /\
  (length es <= 1)%nat.
Proof.
  intros Hrun Hdrop. apply (process_run_ok pgid) in Hrun as [Hp Hn].
  - apply (drop_process_ok pgid) in Hdrop as (Hs & Ht & c & rest & -> & Hc); [|done].
    split.
    + exists c, rest. split_and!; [done..|]. destruct Hs as [Hs _].
      apply forallb_Forall in Hs. apply Forall_cons in Ht as [_ Ht].
      apply Forall_forall. intros x Hx. rewrite Forall_forall in Hs, Ht.
      specialize (Hs x Hx). specialize (Ht x Hx). destruct x; simpl in *; [done|subst; eauto|done].
    + destruct (l_event_reported (leader p)); simpl in Hn; lia.
  - by split; [|constructor|].
Qed.

(** *** Witnesses *)

Definition example_identity : WorkerIdentity := mkIdentity (replicate 16 (z2b 7)) 3 2.
Definition example_nonce : SpawnHandshakeNonce := replicate 32 (z2b 9).
Definition example_frame : Frame Z :=
  mkFrame (mkHeader 384 36 0 0 4 (replicate 16 (z2b 7)) 3)
    (authenticated_payload 2 example_nonce [z2b 1; z2b 2]) [] (mkPeer 41 0 0).

Lemma channel_authentic_witness :
  authenticate_frame example_frame 41 example_identity example_nonce =
    Ok (mkAuthenticated example_frame) /\
  payload example_frame = authenticated_payload 2 example_nonce
    (auth_payload (mkAuthenticated example_frame)).
Proof.
  assert (authenticate_frame example_frame 41 example_identity example_nonce =
    Ok (mkAuthenticated example_frame)) as H by (vm_compute; reflexivity).
  split; [exact H|].
  apply (channel_authentic example_frame 41 example_identity example_nonce) in H;
    [apply H|by vm_compute|by vm_compute].
Defined.

Lemma channel_handshake_witness :
  exists frame,
    SeqpacketEndpoint_receive (fun _ : Z => Ok 0) (fun _ _ => Ok tt)
      (Ok (delivered (handshake_message READY example_identity example_nonce) 1 [] (mkPeer 41 0 0)))
      (mkEndpoint 2 None) = (Ok frame, mkEndpoint 2 (Some 1)) /\
    forall nonce', verify_startup_ready (fun _ => Ok 40) (fun _ => Ok 40) frame 40 40
      example_identity nonce' =
      if bool_decide (nonce' = example_nonce) then Ok 41 else Err Spawn_NonceMismatch.
Proof.
  apply (channel_handshake (fun pkt _ => Ok (len pkt)) (fun _ => true) (fun _ => Ok 0)
    (fun _ _ => Ok tt) example_identity example_identity example_nonce [] (mkPeer 1 0 0)
    (mkPeer 41 0 0) (fun _ => Ok 40) (fun _ => Ok 40) 40 40);
    [|by vm_compute..].
  split; try done. intros fd. by exists 0.
Defined.

(** A system whose leader exits after a number of waits. *)
#[local] Instance example_os : ProcessOs nat unit unit := {
  try_wait _ k := match k with O => (Ok (Some 9), O) | S k => (Ok None, k) end;
  child_wait _ k := (Ok 9, O);
  kill_process_group _ _ k := (Ok tt, k);
  cgroup_kill _ k := (Ok tt, k);
  cgroup_cleanup _ k := (Ok true, k);
  submit_cgroup_to_reaper _ k := k;
  submit_to_reaper _ _ k := k;
}.

Definition example_process : WorkerProcess unit unit :=
  mkWorkerProcess 41 41 (LeaderState_new tt 40 None) (Some SeqpacketEndpoint_new) example_identity
    example_nonce.

Lemma channel_group_signals_witness :
  let ops := [ProcAlive; ProcRequestTerminate; ProcPoll; ProcRequestKill; ProcPoll; ProcRequestKill;
              ProcPoll] in
  let '(es, (p, (k1, t1))) := process_run ops (example_process, (2%nat, [])) in
  let '(r, (p', (k2, t2))) := drop_process (p, (k1, t1)) in
  t2 = [CallReaped; CallSignal 40 SIGKILL; CallSignal 40 SIGTERM] /\ (length es <= 1)%nat.
Proof.
  intros ops. destruct (process_run ops (example_process, (2%nat, []))) as [es [p [k1 t1]]] eqn:Hrun.
  destruct (drop_process (p, (k1, t1))) as [r [p' [k2 t2]]] eqn:Hdrop.
  split; [|eapply (channel_group_signals (K:=nat) tt 40 None); [exact Hrun|exact Hdrop]].
  vm_compute in Hrun. injection Hrun as <- <- <- <-. vm_compute in Hdrop. by injection Hdrop as <- <- <- <-.
Defined.
