(* ===== verification/Codec.v ===== *)
(** Exact codecs over the wire layer.  [encodes P c bs] says when a writer
    computation succeeds and what it appends; [decodes c enc ok] says that a
    reader computation accepts exactly the encodings of the values that [ok]
    admits.  Both have a rule for each step an encoder or a decoder of the
    sources takes (a field, a check, a loop), so that a whole message is related
    to its byte string field by field. *)

From stdpp Require Import base list.
From Stdlib Require Import ZArith Lia.
From S2P Require Import Prelude Bytes Wire.

Open Scope Z_scope.

(** ** Loops *)

Section Loops.
Context {S E A : Type}.

(** [for x in l { f(x)?; }] *)
Fixpoint mfor (f : A -> M S E unit) (l : list A) : M S E unit :=
  match l with
  | [] => mret tt
  | x :: l => let! _ := f x in mfor f l
  end.

(** [for _ in 0..n { l.push(c?); }] *)
Fixpoint mrepeat (n : nat) (c : M S E A) : M S E (list A) :=
  match n with
  | O => mret []
  | Datatypes.S n =>
      let! x := c in
      let! l := mrepeat n c in
      mret (x :: l)
  end.
End Loops.

(** ** Writers *)

Section Writers.
Context {E : Type} `{!BoundedWireProtocol E} (reserve : Z -> bool).

(** [c] succeeds only when [P] holds and [bs] fits, and then appends [bs]; it
    does succeed in that case unless memory runs out. *)
Definition encodes (P : Prop) (c : M BoundedWireWriter E unit) (bs : bytes) : Prop :=
  forall w, fits w [] ->
    (forall w', c w = (Ok tt, w') -> P /\ w' = append w bs /\ fits w bs) /\
    ((forall n, reserve n = true) -> P -> fits w bs -> c w = (Ok tt, append w bs)).

Lemma encodes_iff P Q c bs : encodes P c bs -> (P <-> Q) -> encodes Q c bs.
Proof.
  intros H HPQ w Hw. destruct (H w Hw) as [H1 H2]. split; [|intros ??; by apply H2, HPQ].
  intros w' (?%HPQ & ?)%H1. done.
Qed.

Lemma encodes_writes c bs : writes reserve c bs -> encodes True c bs.
Proof.
  intros H w Hw. destruct (H w Hw) as [H1 H2]. split; [|by intros; apply H2].
  by intros w' [??]%H1.
Qed.

Lemma encodes_bind P Q c k bs1 bs2 :
  encodes P c bs1 -> encodes Q (k tt) bs2 -> encodes (P /\ Q) (mbind_se c k) (bs1 ++ bs2).
Proof.
  intros H1 H2 w Hw. destruct (H1 w Hw) as [Hs1 Hc1]. setoid_rewrite fits_app.
  setoid_rewrite <- append_app. split.
  - intros w' ([] & w1 & E1 & E2)%mbind_se_Ok. apply Hs1 in E1 as (? & -> & Hf1).
    destruct (H2 (append w bs1) (fits_nil_append _ _ Hf1)) as [Hs2 _].
    by apply Hs2 in E2 as (? & -> & Hf2).
  - intros Hr [HP HQ] [Hf1 Hf2]. unfold mbind_se. rewrite Hc1 by done.
    by apply (H2 _ (fits_nil_append _ _ Hf1)).
Qed.

(** A check or conversion between the writes. *)
Lemma encodes_lift {A} (P Q : Prop) (r : result A E) k a bs :
  (P <-> r = Ok a) -> (forall b, r = Ok b -> a = b) ->
  encodes Q (k a) bs -> encodes (P /\ Q) (mbind_se (mlift r) k) bs.
Proof.
  intros HP Ha H w Hw. destruct (H w Hw) as [H1 H2]. unfold mbind_se, mlift. split.
  - destruct r as [b|e]; [|done]. rewrite <- (Ha b eq_refl) in *.
    intros w' (? & -> & ?)%H1. naive_solver.
  - intros Hr [->%HP HQ] Hf. by apply H2.
Qed.

Lemma encodes_if (P Q : Prop) (b : bool) e k bs :
  (P <-> b = false) -> encodes Q (k tt) bs ->
  encodes (P /\ Q) (mbind_se (mlift (if b then Err e else Ok tt)) k) bs.
Proof.
  intros HP H. apply (encodes_lift _ _ _ _ tt); [destruct b; naive_solver|by intros []|done].
Qed.

Lemma encodes_for {A} (P : A -> Prop) (enc : A -> bytes) f l :
  (forall x, encodes (P x) (f x) (enc x)) -> encodes (Forall P l) (mfor f l) (l ≫= enc).
Proof.
  intros H. induction l as [|x l IH]; cbn [mfor].
  - eapply encodes_iff; [apply encodes_writes, writes_ret|by split; constructor].
  - rewrite bind_cons. eapply encodes_iff; [by apply encodes_bind|by rewrite Forall_cons].
Qed.

(** What a complete encoding of at most [maximum] bytes is. *)
Lemma encodes_all P c bs maximum :
  encodes P c bs -> 0 <= maximum <= usize_max ->
  (forall w, c (Writer_new maximum) = (Ok tt, w) ->
     P /\ Writer_finish w = bs /\ len bs <= maximum) /\
  ((forall n, reserve n = true) -> P -> len bs <= maximum ->
     exists w, c (Writer_new maximum) = (Ok tt, w) /\ Writer_finish w = bs).
Proof.
  intros H Hm. destruct (H (Writer_new maximum)) as [H1 H2].
  { unfold fits, Writer_new; cbn [w_bytes w_maximum]. autorewrite with oxi. lia. }
  assert (fits (Writer_new maximum) bs <-> len bs <= maximum) as Hf.
  { unfold fits, Writer_new; cbn [w_bytes w_maximum]. autorewrite with oxi. lia. }
  split; [|intros ?? ?%Hf; eexists; by split; [apply H2|]].
  by intros w (? & -> & ?%Hf)%H1.
Qed.
End Writers.

(** ** Readers *)

Section Readers.
Context {E : Type} `{!BoundedWireProtocol E}.

(** [c] accepts exactly the encodings of the values that [ok] admits, yields the
    value and consumes its encoding. *)
Definition decodes {A} (c : M BoundedWireReader E A) (enc : A -> bytes) (ok : A -> Prop) : Prop :=
  forall pre rest a r, len (pre ++ rest) <= usize_max ->
    c (mkReader (pre ++ rest) (len pre)) = (Ok a, r) <->
    ok a /\ exists post, rest = enc a ++ post /\ r = mkReader (pre ++ rest) (len (pre ++ enc a)).

Lemma decodes_iff {A} (c : M BoundedWireReader E A) enc enc' ok ok' :
  decodes c enc ok -> (forall a, ok a <-> ok' a) -> (forall a, ok a -> enc a = enc' a) ->
  decodes c enc' ok'.
Proof.
  intros H Hok He pre rest a r Hl. rewrite (H pre rest a r Hl), <- Hok.
  split; intros (Ha & post & -> & ->); rewrite ?He in * by done; rewrite <- ?He by done; eauto.
Qed.

Lemma decodes_ext {A} (c c' : M BoundedWireReader E A) enc ok :
  (forall r, c r = c' r) -> decodes c enc ok -> decodes c' enc ok.
Proof. intros Hc H pre rest a r Hl. rewrite <- Hc. by apply H. Qed.

Lemma decodes_enc {A} (c : M BoundedWireReader E A) enc enc' ok :
  (forall a, enc a = enc' a) -> decodes c enc ok -> decodes c enc' ok.
Proof. intros He H. by apply (decodes_iff _ enc _ ok). Qed.

Lemma decodes_bytes n :
  0 <= n -> decodes (Reader_bytes n) (fun bs => bs) (fun bs => len bs = n).
Proof.
  intros Hn pre rest a r Hl. split.
  - intros H. pose proof (len_nonneg pre). pose proof (len_nonneg rest).
    autorewrite with oxi in Hl.
    unfold Reader_bytes in H. cbn [r_position r_bytes] in H.
    destruct (checked_add _ _ _) eqn:Ha; [|done]. apply checked_add_Some in Ha as [-> Ha].
    autorewrite with oxi in H. destruct (Z.leb_spec (len pre + n) (len pre + len rest)); [|done].
    injection H as <- <-. rewrite slice_skip by lia. rewrite Z.sub_diag, Z.add_simpl_l.
    assert (len (slice rest 0 n) = n) as Hs by (rewrite len_slice; lia).
    split; [done|]. exists (drop (Z.to_nat n) rest). split.
    + unfold slice. rewrite Z.sub_0_r. change (Z.to_nat 0) with 0%nat.
      by rewrite drop_0, take_drop.
    + autorewrite with oxi. by rewrite Hs.
  - intros (<- & post & -> & ->). by apply reads_bytes.
Qed.

(** A decoder read as a transformation of another. *)
Lemma decodes_map {A B} (c : M BoundedWireReader E A) (f : A -> B) (g : B -> A) enc ok :
  decodes c enc ok -> (forall a, ok a -> g (f a) = a) ->
  decodes (let! x := c in mret (f x)) (fun b => enc (g b)) (fun b => ok (g b) /\ f (g b) = b).
Proof.
  intros H Hgf pre rest b r Hl. rewrite mbind_se_Ok. split.
  - intros (a & r1 & (Ha & post & -> & ->)%H & [= <- <-]); [|done].
    rewrite Hgf by done. eauto.
  - intros ((Ha & Hfg) & post & -> & ->). exists (g b). eexists. split; [apply H; eauto|].
    unfold mret. by rewrite Hfg.
Qed.

Lemma decodes_uint n :
  decodes (let! b := Reader_bytes (Z.of_nat n) in mret (be_value b)) (be_bytes n)
    (fun v => 0 <= v < 256 ^ Z.of_nat n).
Proof.
  eapply decodes_iff.
  - apply (decodes_map _ be_value (be_bytes n)); [apply decodes_bytes; lia|].
    intros a Ha. unfold len in Ha. apply Nat2Z.inj in Ha. rewrite <- Ha. apply be_bytes_value.
  - intros v. cbv beta. rewrite len_be_bytes. split; [|intros; by rewrite be_roundtrip].
    intros [_ <-]. pose proof (be_value_range (be_bytes n v)) as Hr.
    by rewrite len_be_bytes in Hr.
  - done.
Qed.

Lemma decodes_u8 : decodes Reader_u8 (fun v => [z2b v]) (fun v => 0 <= v <= u8_max).
Proof. eapply decodes_iff; [apply (decodes_uint 1)|intros; unfold u8_max; lia|done]. Qed.
Lemma decodes_u16 : decodes Reader_u16 (be_bytes 2) (fun v => 0 <= v <= u16_max).
Proof. eapply decodes_iff; [apply (decodes_uint 2)|intros; unfold u16_max; lia|done]. Qed.
Lemma decodes_u64 : decodes Reader_u64 (be_bytes 8) (fun v => 0 <= v <= u64_max).
Proof. eapply decodes_iff; [apply (decodes_uint 8)|intros; unfold u64_max; lia|done]. Qed.

Lemma decodes_ret {B} (b0 : B) (I : B -> Prop) :
  (forall b, I b <-> b = b0) -> decodes (mret b0) (fun _ => []) (fun b => True /\ I b).
Proof.
  intros HI pre rest b r Hl. rewrite HI, app_nil_r. split.
  - intros [= <- <-]. eauto.
  - by intros ((_ & ->) & post & _ & ->).
Qed.

(** A field [c] of a message whose value [p] projects out of the message;
    [I] collects what the fields before have fixed. *)
Lemma decodes_field {A B} (p : B -> A) (c : M BoundedWireReader E A) enc ok (G : B -> Prop)
    (k : A -> M BoundedWireReader E B) enc2 (ok2 I : B -> Prop) :
  decodes c enc ok ->
  (forall b, I b -> G b <-> ok (p b)) ->
  (forall a, ok a -> decodes (k a) enc2 (fun b => ok2 b /\ I b /\ p b = a)) ->
  decodes (mbind_se c k) (fun b => enc (p b) ++ enc2 b) (fun b => (G b /\ ok2 b) /\ I b).
Proof.
  intros Hc HG Hk pre rest b r Hl. rewrite mbind_se_Ok. split.
  - intros (a & r1 & (Ha & post & -> & ->)%Hc & H2); [|done].
    rewrite (assoc_L app) in H2, Hl. apply Hk in H2 as ((H2 & HI & <-) & post2 & -> & ->); [|done..].
    rewrite <- !(assoc_L app). split; [naive_solver|]. exists post2. by rewrite <- (assoc_L app).
  - intros (((Hg & H2) & HI) & post & -> & ->). apply HG in Hg; [|done].
    rewrite <- !(assoc_L app) in *. exists (p b). eexists. split; [apply Hc; eauto|].
    rewrite (assoc_L app pre _ (enc2 b ++ post)), (assoc_L app pre _ (enc2 b)) in *.
    apply Hk; [done..|]. split; [done|eauto].
Qed.

(** A field that takes every value. *)
Lemma decodes_any {A B} (p : B -> A) (c : M BoundedWireReader E A) enc
    (k : A -> M BoundedWireReader E B) enc2 (ok2 I : B -> Prop) :
  decodes c enc (fun _ => True) ->
  (forall a, decodes (k a) enc2 (fun b => ok2 b /\ I b /\ p b = a)) ->
  decodes (mbind_se c k) (fun b => enc (p b) ++ enc2 b) (fun b => ok2 b /\ I b).
Proof.
  intros Hc Hk. eapply decodes_iff;
    [apply (decodes_field p c enc (fun _ => True) (fun _ => True) k enc2 ok2 I); naive_solver| |done].
  naive_solver.
Qed.

(** The last field. *)
Lemma decodes_last {A B} (p : B -> A) (c : M BoundedWireReader E A) enc ok (G I : B -> Prop)
    (f : A -> B) :
  decodes c enc ok ->
  (forall b, I b -> G b <-> ok (p b)) ->
  (forall a, ok a -> forall b, I b /\ p b = a <-> b = f a) ->
  decodes (let! x := c in mret (f x)) (fun b => enc (p b)) (fun b => G b /\ I b).
Proof.
  intros Hc HG HI. eapply (decodes_iff _ (fun b => enc (p b) ++ []) _ (fun b => (G b /\ True) /\ I b));
    [|naive_solver|intros; apply app_nil_r].
  apply (decodes_field p _ _ ok); [done..|]. intros a Ha. apply decodes_ret. by apply HI.
Qed.

(** A check between the fields. *)
Lemma decodes_guard {B} (r : result unit E) (k : unit -> M BoundedWireReader E B) enc2
    (G ok2 I : B -> Prop) :
  (forall b, I b -> G b <-> r = Ok tt) ->
  (r = Ok tt -> decodes (k tt) enc2 (fun b => ok2 b /\ I b)) ->
  decodes (mbind_se (mlift r) k) enc2 (fun b => (G b /\ ok2 b) /\ I b).
Proof.
  intros HG Hk pre rest b r' Hl. unfold mbind_se, mlift.
  destruct r as [[]|e].
  - rewrite (Hk eq_refl pre rest b r' Hl). naive_solver.
  - split; [done|]. intros (((Hg & _) & HI) & _). by apply HG in Hg.
Qed.

Lemma decodes_top {B} (c : M BoundedWireReader E B) enc ok :
  decodes c enc (fun b => ok b /\ True) -> decodes c enc ok.
Proof. intros H. by eapply decodes_iff; [exact H|naive_solver|]. Qed.

(** A tag byte that [decode] maps back to what [encode] mapped to it. *)
Definition tagged {T} (encode : T -> Z) (decode : Z -> result T E) : Prop :=
  (forall t, 0 <= encode t <= u8_max) /\ forall v t, decode v = Ok t <-> v = encode t.

Lemma decodes_tag {T} (encode : T -> Z) (decode : Z -> result T E) :
  tagged encode decode ->
  decodes (let! v := Reader_u8 in mlift (decode v)) (fun t => [z2b (encode t)]) (fun _ => True).
Proof.
  intros [Hr Hd] pre rest t r Hl. rewrite mbind_se_Ok. split.
  - intros (v & r1 & (Hv & post & -> & ->)%decodes_u8 & H2); [|done].
    unfold mlift in H2. injection H2 as ->%Hd <-. eauto.
  - intros (_ & post & -> & ->). exists (encode t). eexists.
    split; [apply decodes_u8; eauto|]. unfold mlift. by rewrite (proj2 (Hd _ _) eq_refl).
Qed.

Lemma decodes_repeat {A} (c : M BoundedWireReader E A) enc ok n :
  decodes c enc ok ->
  decodes (mrepeat n c) (fun l => l ≫= enc) (fun l => length l = n /\ Forall ok l).
Proof.
  intros Hc. induction n as [|n IH]; cbn [mrepeat].
  - intros pre rest l r Hl. split.
    + intros [= <- <-]. rewrite app_nil_r. eauto.
    + intros ((->%nil_length_inv & _) & post & _ & ->). by rewrite app_nil_r.
  - intros pre rest l r Hl. rewrite mbind_se_Ok. split.
    + intros (x & r1 & (Hx & post & -> & ->)%Hc & H2); [|done].
      rewrite (assoc_L app) in H2, Hl.
      apply mbind_se_Ok in H2 as (l' & r2 & ((<- & Hl') & post2 & -> & ->)%IH & [= <- <-]); [|done].
      split; [by split; [|constructor]|]. exists post2. rewrite !bind_cons, <- !(assoc_L app). done.
    + intros ((Hn & Hl') & post & -> & ->).
      destruct l as [|x l]; [done|]. injection Hn as Hn. apply Forall_cons in Hl' as [Hx Hl'].
      rewrite bind_cons, <- !(assoc_L app) in *. exists x. eexists. split; [apply Hc; eauto|].
      rewrite (assoc_L app pre _ ((l ≫= enc) ++ post)), (assoc_L app pre _ (l ≫= enc)) in *.
      apply mbind_se_Ok. exists l. eexists. split; [|reflexivity].
      apply IH; [done|]. split; [done|eauto].
Qed.

(** A whole payload. *)
Lemma decodes_all {A} (c : M BoundedWireReader E A) enc ok payload a :
  decodes c enc ok -> len payload <= usize_max ->
  (exists r, c (Reader_new payload) = (Ok a, r) /\ Reader_finish r = Ok tt) <->
  ok a /\ payload = enc a.
Proof.
  intros H Hl. specialize (H [] payload a). cbn [app] in H. split.
  - intros (r & (Ha & post & -> & ->)%H & Hf); [|done]. split; [done|].
    unfold Reader_finish in Hf. cbn [r_position r_bytes] in Hf. autorewrite with oxi in Hf.
    destruct (Z.eqb_spec (len (enc a)) (len (enc a) + len post)); [|done].
    rewrite (proj1 (len_zero post)) by lia. by rewrite app_nil_r.
  - intros [Ha ->]. eexists. split.
    + apply H; [done|]. split; [done|]. exists []. by rewrite app_nil_r.
    + unfold Reader_finish. cbn [r_position r_bytes]. by rewrite Z.eqb_refl.
Qed.
End Readers.
