(* ===== verification/ControlProtocol.v ===== *)
(** The control protocol between the master and a worker:
    [crates/oxiroute-supervisor-master/src/protocol.rs].  Requests, the binary
    descriptor manifest of an adoption request and acknowledgements, over the
    wire layer of [Wire] and the descriptor sets of [Descriptor].

    Shows that a worker decodes what the master encoded, whatever the manifest,
    that an acknowledgement is read back as it was written, and that only
    encoded acknowledgements are accepted. *)

From stdpp Require Import base list gmap.
From Stdlib Require Import ZArith Lia.
From S2P Require Import Prelude Bytes Identity Wire Transport Descriptor Channel.

Open Scope Z_scope.

Definition CONTROL_PROTOCOL_VERSION : Z := 2.
Definition MAX_MANIFEST_BYTES : Z := 16 * 1024.
Definition DESCRIPTOR_MANIFEST_VERSION : Z := 1.
Definition SUPPORTED_DESCRIPTOR_CAPABILITIES : DescriptorCapabilities := ALL.

Definition ADOPT : MessageType := 256.
Definition QUIESCE : MessageType := 257.
Definition ACTIVATE : MessageType := 258.
Definition DRAIN : MessageType := 259.
Definition REACTIVATE : MessageType := 260.
Definition SHUTDOWN : MessageType := 261.
Definition ACK : MessageType := 384.
Definition PREFIX_SIZE : Z := 10.
Definition ACK_SIZE : Z := 12.

(** The variants for channel, transport and status failures arise in the
    worker's I/O, which is not modelled here. *)
Inductive ControlProtocolError : Type :=
| DescriptorFailure (e : DescriptorError)
| VersionMismatch (expected actual : Z)
| ManifestVersionMismatch (expected actual : Z)
| UnsupportedCapabilities (required supported : Z)
| UnexpectedMessage (message_type : MessageType)
| UnknownPhase (tag : Z)
| InvalidPayload
| EncodedTooLarge (actual maximum : Z)
| Allocation
| UnexpectedDescriptors.

Inductive ControlPhase : Type :=
| AdoptListeners | Quiesce | Activate | Drain | Reactivate | Shutdown.

#[export] Instance ControlPhase_eq_dec : EqDecision ControlPhase.
Proof. solve_decision. Defined.

Definition ControlPhase_tag (self : ControlPhase) : Z :=
  match self with
  | AdoptListeners => 1 | Quiesce => 2 | Activate => 3 | Drain => 4 | Reactivate => 5
  | Shutdown => 6
  end.

Definition ControlPhase_from_tag (tag : Z) : result ControlPhase ControlProtocolError :=
  match tag with
  | 1 => Ok AdoptListeners | 2 => Ok Quiesce | 3 => Ok Activate | 4 => Ok Drain
  | 5 => Ok Reactivate | 6 => Ok Shutdown
  | _ => Err (UnknownPhase tag)
  end.

Definition ControlPhase_message_type (self : ControlPhase) : MessageType :=
  match self with
  | AdoptListeners => ADOPT | Quiesce => QUIESCE | Activate => ACTIVATE | Drain => DRAIN
  | Reactivate => REACTIVATE | Shutdown => SHUTDOWN
  end.

Definition ControlPhase_from_message_type (ty : MessageType) :
    result ControlPhase ControlProtocolError :=
  if ty =? ADOPT then Ok AdoptListeners
  else if ty =? QUIESCE then Ok Quiesce
  else if ty =? ACTIVATE then Ok Activate
  else if ty =? DRAIN then Ok Drain
  else if ty =? REACTIVATE then Ok Reactivate
  else if ty =? SHUTDOWN then Ok Shutdown
  else Err (UnexpectedMessage ty).

Inductive ControlOutcome : Type := Accepted | Rejected (code : Z).

Record ControlRequest (Fd : Type) : Type := mkRequest {
  request_id : Z;
  phase : ControlPhase;
  listeners : option (DescriptorSet Fd);
}.
Arguments mkRequest {Fd}.
Arguments request_id {Fd}.
Arguments phase {Fd}.
Arguments listeners {Fd}.

Record ControlAck : Type := mkAck { ack_request_id : Z; ack_phase : ControlPhase; outcome : ControlOutcome }.

#[export] Instance ControlWire : BoundedWireProtocol ControlProtocolError := {
  invalid := InvalidPayload;
  too_large actual maximum := EncodedTooLarge actual maximum;
  allocation := Allocation;
}.

Definition Encoder (A : Type) : Type := M BoundedWireWriter ControlProtocolError A.
Definition Decoder (A : Type) : Type := M BoundedWireReader ControlProtocolError A.

(** ** Encoding *)

Definition encode_request (id : Z) : bytes := be_bytes 2 CONTROL_PROTOCOL_VERSION ++ be_bytes 8 id.

Section Encode.
Context (reserve : Z -> bool).

Definition encode_bind (bind : option BindIdentity) : Encoder unit :=
  match bind with
  | None => Writer_u8 reserve 0
  | Some (Tcp (V4 ip port)) =>
      let! _ := Writer_u8 reserve 1 in
      let! _ := Writer_bytes reserve ip in
      Writer_u16 reserve port
  | Some (Tcp (V6 ip port flowinfo scope_id)) =>
      let! _ := Writer_u8 reserve 2 in
      let! _ := Writer_bytes reserve ip in
      let! _ := Writer_u16 reserve port in
      let! _ := Writer_u32 reserve flowinfo in
      Writer_u32 reserve scope_id
  | Some (UnixPath path) =>
      let! _ := Writer_u8 reserve 3 in
      Writer_length_prefixed reserve path
  | Some (UnixAbstract name) =>
      let! _ := Writer_u8 reserve 4 in
      Writer_length_prefixed reserve name
  end.

Definition encode_role (role : DescriptorRole) : Encoder unit :=
  match role with
  | Traffic name =>
      let! _ := Writer_u8 reserve 1 in
      Writer_length_prefixed reserve name
  | Management => Writer_u8 reserve 2
  | Stats index =>
      let! _ := Writer_u8 reserve 3 in
      Writer_u16 reserve index
  | StatsPage index =>
      let! _ := Writer_u8 reserve 4 in
      Writer_u16 reserve index
  | State => Writer_u8 reserve 5
  | Control => Writer_u8 reserve 6
  end.

Definition kind_tag (kind : DescriptorKind) : Z :=
  match kind with
  | TcpListener => 1 | UnixListener => 2 | Opaque => 3 | DatagramListener => 4 | QuicListener => 5
  end.

Definition encode_mode (mode : option Z) : Encoder unit :=
  match mode with
  | None => Writer_u8 reserve 0
  | Some mode =>
      let! _ := Writer_u8 reserve 1 in
      Writer_u16 reserve mode
  end.

Definition encode_slot (slot : DescriptorSlot) : Encoder unit :=
  let! _ := Writer_u16 reserve (id slot) in
  let! _ := encode_role (role slot) in
  let! _ := Writer_u8 reserve (kind_tag (kind slot)) in
  let! _ := encode_bind (bind slot) in
  encode_mode (mode slot).

Fixpoint encode_slots (l : list DescriptorSlot) : Encoder unit :=
  match l with
  | [] => mret tt
  | slot :: l =>
      let! _ := encode_slot slot in
      encode_slots l
  end.

Definition encode_manifest (manifest : DescriptorManifest) : Encoder unit :=
  let! _ := Writer_u16 reserve DESCRIPTOR_MANIFEST_VERSION in
  let! _ := Writer_u16 reserve (DescriptorManifest_capabilities manifest) in
  let! count := mlift (try_from_uint u16_max InvalidPayload (len (slots manifest))) in
  let! _ := Writer_u16 reserve count in
  encode_slots (slots manifest).

Definition encode_adopt_request (id : Z) (manifest : DescriptorManifest) :
    result bytes ControlProtocolError :=
  let encode :=
    let! _ := Writer_bytes reserve (be_bytes 2 CONTROL_PROTOCOL_VERSION) in
    let! _ := Writer_bytes reserve (be_bytes 8 id) in
    encode_manifest manifest in
  let '(r, payload) := encode (Writer_new (PREFIX_SIZE + MAX_MANIFEST_BYTES)) in
  let? _ := r in
  Ok (Writer_finish payload).
End Encode.

Definition encode_ack (id : Z) (phase : ControlPhase) (outcome : ControlOutcome) : bytes :=
  be_bytes 2 CONTROL_PROTOCOL_VERSION ++ be_bytes 8 id ++ [z2b (ControlPhase_tag phase)] ++
  [z2b (match outcome with
        | Accepted => 0
        | Rejected code => if code =? 0 then 1 else code
        end)].

(** ** Decoding *)

Definition check_version (payload : bytes) : result unit ControlProtocolError :=
  let actual := be_value (slice payload 0 2) in
  if actual =? CONTROL_PROTOCOL_VERSION then Ok tt
  else Err (VersionMismatch CONTROL_PROTOCOL_VERSION actual).

Definition decode_ack {Fd} (frame : AuthenticatedFrame Fd) : result ControlAck ControlProtocolError :=
  if negb (message_type (auth_header frame) =? ACK) then
    Err (UnexpectedMessage (message_type (auth_header frame)))
  else if bool_decide (auth_descriptors frame <> []) then Err UnexpectedDescriptors
  else
    let p := auth_payload frame in
    if negb (len p =? ACK_SIZE) then Err InvalidPayload
    else
      let? _ := check_version p in
      let code := be_value (slice p 11 12) in
      let outcome := if code =? 0 then Accepted else Rejected code in
      let? phase := ControlPhase_from_tag (be_value (slice p 10 11)) in
      Ok (mkAck (be_value (slice p 2 10)) phase outcome).

Definition decode_bind : Decoder (option BindIdentity) :=
  let! tag := Reader_u8 in
  match tag with
  | 0 => mret None
  | 1 =>
      let! ip := Reader_bytes 4 in
      let! port := Reader_u16 in
      mret (Some (Tcp (V4 ip port)))
  | 2 =>
      let! ip := Reader_bytes 16 in
      let! port := Reader_u16 in
      let! flowinfo := Reader_u32 in
      let! scope_id := Reader_u32 in
      mret (Some (Tcp (V6 ip port flowinfo scope_id)))
  | 3 =>
      let! path := Reader_length_prefixed in
      mret (Some (UnixPath path))
  | 4 =>
      let! name := Reader_length_prefixed in
      mret (Some (UnixAbstract name))
  | _ => mfail InvalidPayload
  end.

Definition decode_role : Decoder DescriptorRole :=
  let! tag := Reader_u8 in
  match tag with
  | 1 =>
      let! name := Reader_length_prefixed in
      if utf8_valid name then mret (Traffic name) else mfail InvalidPayload
  | 2 => mret Management
  | 3 =>
      let! index := Reader_u16 in
      mret (Stats index)
  | 4 =>
      let! index := Reader_u16 in
      mret (StatsPage index)
  | 5 => mret State
  | 6 => mret Control
  | _ => mfail InvalidPayload
  end.

Definition kind_from_tag (tag : Z) : result DescriptorKind ControlProtocolError :=
  match tag with
  | 1 => Ok TcpListener | 2 => Ok UnixListener | 3 => Ok Opaque | 4 => Ok DatagramListener
  | 5 => Ok QuicListener
  | _ => Err InvalidPayload
  end.

Definition decode_mode : Decoder (option Z) :=
  let! tag := Reader_u8 in
  match tag with
  | 0 => mret None
  | 1 =>
      let! mode := Reader_u16 in
      mret (Some mode)
  | _ => mfail InvalidPayload
  end.

Definition decode_slot : Decoder DescriptorSlot :=
  let! id := Reader_u16 in
  let! role := decode_role in
  let! tag := Reader_u8 in
  let! kind := mlift (kind_from_tag tag) in
  let! bind := decode_bind in
  let! mode := decode_mode in
  mret (mkSlot id role kind bind mode).

Fixpoint decode_slots (count : nat) : Decoder (list DescriptorSlot) :=
  match count with
  | O => mret []
  | S count =>
      let! slot := decode_slot in
      let! rest := decode_slots count in
      mret (slot :: rest)
  end.

Section Decode.
(** Whether the slot vector's allocation succeeds. *)
Context (reserve_slots : Z -> bool).

Definition decode_manifest_body : Decoder (DescriptorCapabilities * list DescriptorSlot) :=
  let! version := Reader_u16 in
  let! _ := mlift (if negb (version =? DESCRIPTOR_MANIFEST_VERSION) then
                     Err (ManifestVersionMismatch DESCRIPTOR_MANIFEST_VERSION version)
                   else Ok tt) in
  let! encoded := Reader_u16 in
  let! capabilities := mlift (ok_or
    (UnsupportedCapabilities encoded SUPPORTED_DESCRIPTOR_CAPABILITIES)
    (capabilities_from_bits encoded)) in
  let! slot_count := Reader_u16 in
  let! _ := mlift (if MAX_DESCRIPTOR_COUNT <? slot_count then Err InvalidPayload else Ok tt) in
  let! _ := mlift (if reserve_slots slot_count then Ok tt else Err Allocation) in
  let! l := decode_slots (Z.to_nat slot_count) in
  mret (capabilities, l).

Definition decode_manifest (payload : bytes) : result DescriptorManifest ControlProtocolError :=
  if MAX_MANIFEST_BYTES <? len payload then Err (EncodedTooLarge (len payload) MAX_MANIFEST_BYTES)
  else
    let '(r, decoder) := decode_manifest_body (Reader_new payload) in
    let? decoded := r in
    let '(capabilities, l) := decoded in
    let? _ := Reader_finish decoder in
    let? manifest := map_err DescriptorFailure (DescriptorManifest_new l) in
    if negb (DescriptorManifest_capabilities manifest =? capabilities) then Err InvalidPayload
    else if negb (capabilities_contains SUPPORTED_DESCRIPTOR_CAPABILITIES capabilities) then
      Err (UnsupportedCapabilities capabilities SUPPORTED_DESCRIPTOR_CAPABILITIES)
    else Ok manifest.

Section Requests.
Context {K Fd : Type} `{!Kernel K Fd}.

(** A call of the descriptor layer inside this one. *)
Definition descriptor_call {A} (c : M K DescriptorError A) : M K ControlProtocolError A := fun k =>
  let '(r, k') := c k in (map_err DescriptorFailure r, k').

Definition decode_listeners (payload : bytes) (fds : list Fd) :
    M K ControlProtocolError (option (DescriptorSet Fd)) :=
  let! manifest := mlift (decode_manifest payload) in
  let! set := descriptor_call (DescriptorSet_new manifest fds) in
  mret (Some set).

Definition decode_request (frame : AuthenticatedFrame Fd) : M K ControlProtocolError (ControlRequest Fd) :=
  let! phase := mlift (ControlPhase_from_message_type (message_type (auth_header frame))) in
  let p := auth_payload frame in
  let! _ := mlift (if len p <? PREFIX_SIZE then Err InvalidPayload else Ok tt) in
  let! _ := mlift (check_version p) in
  let id := be_value (slice p 2 10) in
  let! listeners :=
    (if bool_decide (phase = AdoptListeners) then
       decode_listeners (drop (Z.to_nat PREFIX_SIZE) p) (auth_descriptors frame)
     else
       let! _ := mlift (if negb (len p =? PREFIX_SIZE) then Err InvalidPayload else Ok tt) in
       let! _ := mlift (if bool_decide (auth_descriptors frame <> []) then Err UnexpectedDescriptors
                        else Ok tt) in
       mret None) in
  mret (mkRequest id phase listeners).
End Requests.
End Decode.

(** ** Ranges *)

Definition role_in_range (r : DescriptorRole) : Prop :=
  match r with
  | Traffic name => utf8_valid name = true
  | Stats index | StatsPage index => 0 <= index <= u16_max
  | _ => True
  end.
Definition bind_in_range (b : option BindIdentity) : Prop :=
  match b with
  | Some (Tcp (V4 ip port)) => len ip = 4 /\ 0 <= port <= u16_max
  | Some (Tcp (V6 ip port flowinfo scope_id)) =>
      len ip = 16 /\ 0 <= port <= u16_max /\ 0 <= flowinfo <= u32_max /\ 0 <= scope_id <= u32_max
  | _ => True
  end.
(** The slot's fields are of their Rust types. *)
Definition slot_in_range (s : DescriptorSlot) : Prop :=
  0 <= id s <= u16_max /\ role_in_range (role s) /\ bind_in_range (bind s) /\
  match mode s with Some m => 0 <= m <= u16_max | None => True end.

(** ** The encodings as byte strings *)

Definition role_bytes (r : DescriptorRole) : bytes :=
  match r with
  | Traffic name => [z2b 1] ++ prefixed name
  | Management => [z2b 2]
  | Stats index => [z2b 3] ++ be_bytes 2 index
  | StatsPage index => [z2b 4] ++ be_bytes 2 index
  | State => [z2b 5]
  | Control => [z2b 6]
  end.
Definition bind_bytes (b : option BindIdentity) : bytes :=
  match b with
  | None => [z2b 0]
  | Some (Tcp (V4 ip port)) => [z2b 1] ++ ip ++ be_bytes 2 port
  | Some (Tcp (V6 ip port flowinfo scope_id)) =>
      [z2b 2] ++ ip ++ be_bytes 2 port ++ be_bytes 4 flowinfo ++ be_bytes 4 scope_id
  | Some (UnixPath path) => [z2b 3] ++ prefixed path
  | Some (UnixAbstract name) => [z2b 4] ++ prefixed name
  end.
Definition mode_bytes (m : option Z) : bytes :=
  match m with None => [z2b 0] | Some m => [z2b 1] ++ be_bytes 2 m end.
Definition slot_bytes (s : DescriptorSlot) : bytes :=
  be_bytes 2 (id s) ++ role_bytes (role s) ++ [z2b (kind_tag (kind s))] ++ bind_bytes (bind s) ++
  mode_bytes (mode s).
Definition manifest_bytes (m : DescriptorManifest) : bytes :=
  be_bytes 2 DESCRIPTOR_MANIFEST_VERSION ++ be_bytes 2 (DescriptorManifest_capabilities m) ++
  be_bytes 2 (len (slots m)) ++ (slots m ≫= slot_bytes).

(** The length prefixes are [u32]s. *)
Definition slot_encodable (s : DescriptorSlot) : Prop :=
  match role s with Traffic name => len name <= u32_max | _ => True end /\
  match bind s with
  | Some (UnixPath b | UnixAbstract b) => len b <= u32_max
  | _ => True
  end.

(** Relates a chain of writes to the concatenation of their bytes. *)
Ltac write_fields_tac :=
  repeat first [apply writes_bind | apply writes_u8 | apply writes_u16 | apply writes_u32
               | apply writes_bytes | by apply writes_length_prefixed].

Section Encodings.
Context (reserve : Z -> bool).

Lemma writes_role r :
  match r with Traffic name => len name <= u32_max | _ => True end ->
  writes reserve (encode_role reserve r) (role_bytes r).
Proof. destruct r; intros; unfold encode_role, role_bytes; write_fields_tac. Qed.
Lemma writes_bind_identity b :
  match b with Some (UnixPath x | UnixAbstract x) => len x <= u32_max | _ => True end ->
  writes reserve (encode_bind reserve b) (bind_bytes b).
Proof. destruct b as [[[] | |]|]; intros; unfold encode_bind, bind_bytes; write_fields_tac. Qed.
Lemma writes_mode m : writes reserve (encode_mode reserve m) (mode_bytes m).
Proof. destruct m; unfold encode_mode, mode_bytes; write_fields_tac. Qed.
Lemma writes_slot s : slot_encodable s -> writes reserve (encode_slot reserve s) (slot_bytes s).
Proof.
  intros [Hr Hb].
  eauto 10 using writes_bind, writes_u16, writes_u8, writes_role, writes_bind_identity, writes_mode.
Qed.
Lemma writes_slots l :
  Forall slot_encodable l -> writes reserve (encode_slots reserve l) (l ≫= slot_bytes).
Proof.
  induction 1; [apply writes_ret|]. rewrite bind_cons. cbn [encode_slots].
  apply writes_bind; [by apply writes_slot|done].
Qed.
Lemma writes_manifest m :
  len (slots m) <= u16_max -> Forall slot_encodable (slots m) ->
  writes reserve (encode_manifest reserve m) (manifest_bytes m).
Proof.
  intros Hl Hs. pose proof (len_nonneg (slots m)).
  apply writes_bind; [apply writes_u16|]. apply writes_bind; [apply writes_u16|].
  apply (writes_lift _ _ _ (len (slots m))).
  { unfold try_from_uint. by rewrite !(proj2 (Z.leb_le _ _)) by done. }
  apply writes_bind; [apply writes_u16|by apply writes_slots].
Qed.

Lemma encode_slots_encodable l w w' :
  encode_slots reserve l w = (Ok tt, w') -> Forall slot_encodable l.
Proof.
  revert w; induction l as [|s l IH]; intros w H; [constructor|]. simpl in H. res_inv.
  constructor; [|by eapply IH]. unfold encode_slot in *. res_inv. split.
  - unfold encode_role in *. destruct (role s); try done. res_inv.
    match goal with H : Writer_length_prefixed _ _ _ = (Ok ?u, _) |- _ =>
      destruct u; by apply length_prefixed_Ok in H end.
  - unfold encode_bind in *. destruct (bind s) as [[[]| |]|]; try done; res_inv;
    match goal with H : Writer_length_prefixed _ _ _ = (Ok ?u, _) |- _ =>
      destruct u; by apply length_prefixed_Ok in H end.
Qed.

(** *** Reading them back *)

Lemma reads_role r :
  role_in_range r -> match r with Traffic name => len name <= u32_max | _ => True end ->
  reads decode_role (role_bytes r) r.
Proof.
  intros Hr Hl. destruct r; simpl in Hr;
    (eapply (reads_bind _ _ [_]); [by apply reads_u8|cbv beta iota]); try apply reads_ret.
  - rewrite <- (app_nil_r (prefixed name)). eapply reads_bind; [by apply reads_length_prefixed|].
    rewrite Hr. apply reads_ret.
  - apply (reads_map _ Stats). by apply reads_u16.
  - apply (reads_map _ StatsPage). by apply reads_u16.
Qed.

Lemma reads_bind_identity b :
  bind_in_range b ->
  match b with Some (UnixPath x | UnixAbstract x) => len x <= u32_max | _ => True end ->
  reads decode_bind (bind_bytes b) b.
Proof.
  intros Hr Hl. destruct b as [[[ip port|ip port fi sc]|path|name]|]; simpl in Hr;
    (eapply (reads_bind _ _ [_]); [by apply reads_u8|cbv beta iota]); try apply reads_ret.
  - destruct Hr as [Hi Hp]. eapply reads_bind; [by apply reads_bytes|].
    apply (reads_map _ (fun port => Some (Tcp (V4 ip port)))). by apply reads_u16.
  - destruct Hr as (Hi & Hp & Hf & Hs). eapply reads_bind; [by apply reads_bytes|].
    eapply reads_bind; [by apply reads_u16|]. eapply reads_bind; [by apply reads_u32|].
    apply (reads_map _ (fun sc => Some (Tcp (V6 ip port fi sc)))). by apply reads_u32.
  - apply (reads_map _ (fun x => Some (UnixPath x))). by apply reads_length_prefixed.
  - apply (reads_map _ (fun x => Some (UnixAbstract x))). by apply reads_length_prefixed.
Qed.

Lemma reads_mode m :
  match m with Some m => 0 <= m <= u16_max | None => True end -> reads decode_mode (mode_bytes m) m.
Proof.
  intros Hm. destruct m; (eapply (reads_bind _ _ [_]); [by apply reads_u8|cbv beta iota]);
    [|apply reads_ret].
  apply (reads_map _ Some). by apply reads_u16.
Qed.

Lemma reads_slot s : slot_in_range s -> slot_encodable s -> reads decode_slot (slot_bytes s) s.
Proof.
  intros (Hi & Hr & Hb & Hm) [Er Eb]. destruct s as [i r k b m]; unfold slot_bytes;
    cbn [id role kind bind mode] in *.
  eapply reads_bind; [by apply reads_u16|]. eapply reads_bind; [by apply reads_role|].
  eapply (reads_bind _ _ [_]); [by apply reads_u8; destruct k|].
  apply (reads_lift _ _ k); [by destruct k|].
  eapply reads_bind; [by apply reads_bind_identity|].
  apply (reads_map _ (fun m => mkSlot i r k b m)). by apply reads_mode.
Qed.

Lemma reads_slots l :
  Forall slot_in_range l -> Forall slot_encodable l ->
  reads (decode_slots (length l)) (l ≫= slot_bytes) l.
Proof.
  induction 1 as [|s l Hs _ IH]; inversion 1; subst; [apply reads_ret|]. rewrite bind_cons.
  cbn [length decode_slots]. eapply reads_bind; [by apply reads_slot|]. apply (reads_map _ (cons s)). by apply IH.
Qed.
End Encodings.

Lemma capability_cases c :
  0 <= c <= ALL -> c = 0 \/ c = 1 \/ c = 2 \/ c = 3 \/ c = 4 \/ c = 5 \/ c = 6 \/ c = 7.
Proof. change ALL with 7. lia. Qed.

Lemma capabilities_range m : 0 <= DescriptorManifest_capabilities m <= ALL.
Proof.
  unfold DescriptorManifest_capabilities.
  enough (forall l c, 0 <= c <= ALL -> 0 <= foldl (fun all slot =>
    capabilities_union all (DescriptorKind_capability (kind slot))) c l <= ALL) as H
    by (apply H; by vm_compute).
  induction l as [|s l IH]; intros c Hc; simpl; [done|]. apply IH.
  apply capability_cases in Hc.
  destruct_or! Hc; subst; destruct (kind s); by vm_compute.
Qed.

Lemma capabilities_supported m :
  capabilities_from_bits (DescriptorManifest_capabilities m) = Some (DescriptorManifest_capabilities m) /\
  capabilities_contains SUPPORTED_DESCRIPTOR_CAPABILITIES (DescriptorManifest_capabilities m) = true.
Proof.
  pose proof (capabilities_range m) as Hc. revert Hc.
  generalize (DescriptorManifest_capabilities m) as c. intros c Hc.
  apply capability_cases in Hc. destruct_or! Hc; subst; by vm_compute.
Qed.

Lemma reads_manifest reserve_slots m :
  manifest_wf (slots m) -> Forall slot_in_range (slots m) -> Forall slot_encodable (slots m) ->
  reserve_slots (len (slots m)) = true ->
  reads (decode_manifest_body reserve_slots) (manifest_bytes m)
    (DescriptorManifest_capabilities m, slots m).
Proof.
  intros Hwf Hr He Hres. pose proof (len_nonneg (slots m)) as Hn. pose proof (wf_count _ Hwf) as Hc.
  unfold decode_manifest_body, manifest_bytes.
  eapply reads_bind; [by apply reads_u16|]. eapply reads_lift; [reflexivity|].
  pose proof (capabilities_range m).
  eapply reads_bind; [apply reads_u16; change ALL with 7 in *; unfold u16_max; lia|].
  eapply reads_lift; [by rewrite (proj1 (capabilities_supported m))|].
  eapply reads_bind; [apply reads_u16; unfold u16_max, MAX_DESCRIPTOR_COUNT in *; lia|].
  eapply reads_lift; [by rewrite (proj2 (Z.ltb_ge _ _))|].
  eapply reads_lift; [by rewrite Hres|].
  apply (reads_map _ (fun l => (DescriptorManifest_capabilities m, l))).
  unfold len. rewrite Nat2Z.id. by apply reads_slots.
Qed.

Lemma decode_manifest_bytes reserve_slots m :
  manifest_wf (slots m) -> Forall slot_in_range (slots m) -> Forall slot_encodable (slots m) ->
  reserve_slots (len (slots m)) = true -> len (manifest_bytes m) <= MAX_MANIFEST_BYTES ->
  decode_manifest reserve_slots (manifest_bytes m) = Ok m.
Proof.
  intros Hwf Hr He Hres Hl. unfold decode_manifest. rewrite (proj2 (Z.ltb_ge _ _)) by done.
  destruct (reads_all _ _ _ (reads_manifest _ _ Hwf Hr He Hres)) as [-> ->].
  { eapply Z.le_trans; [exact Hl|by vm_compute]. }
  simpl. assert (DescriptorManifest_new (slots m) = Ok m) as ->
    by (apply DescriptorManifest_new_Ok; by destruct m).
  simpl. rewrite Z.eqb_refl. by rewrite (proj2 (capabilities_supported m)).
Qed.

Lemma encode_adopt_request_Ok reserve id m p :
  len (slots m) <= u16_max ->
  encode_adopt_request reserve id m = Ok p ->
  p = encode_request id ++ manifest_bytes m /\ Forall slot_encodable (slots m) /\
  len (manifest_bytes m) <= MAX_MANIFEST_BYTES.
Proof.
  intros Hl. unfold encode_adopt_request, Writer_finish.
  match goal with |- context [(?c (Writer_new ?n))] =>
    destruct (c (Writer_new n)) as [[[]|e] w] eqn:E end; [|done]. intros [= <-].
  assert (Forall slot_encodable (slots m)) as He.
  { unfold encode_manifest in E. res_inv. by eapply encode_slots_encodable. }
  assert (fits (Writer_new (PREFIX_SIZE + MAX_MANIFEST_BYTES)) []) as Hf by by vm_compute.
  eapply (writes_bind reserve _ _ (be_bytes 2 CONTROL_PROTOCOL_VERSION)
            (be_bytes 8 id ++ manifest_bytes m)) in E as [-> Hfit]; [..|exact Hf].
  - unfold fits in Hfit. cbn [w_bytes w_maximum Writer_new] in Hfit. unfold append, encode_request.
    cbn [w_bytes Writer_new app]. autorewrite with oxi in Hfit. rewrite ?len_be_bytes in Hfit.
    unfold PREFIX_SIZE in Hfit. rewrite <- (assoc_L app). split_and!; [done..|lia].
  - apply writes_bytes.
  - apply writes_bind; [apply writes_bytes|by apply writes_manifest].
Qed.

Lemma slice_prefix id rest :
  0 <= id <= u64_max ->
  let p := encode_request id ++ rest in
  check_version p = Ok tt /\ be_value (slice p 2 10) = id /\ drop (Z.to_nat PREFIX_SIZE) p = rest /\
  PREFIX_SIZE <= len p.
Proof.
  intros Hid p. assert (p = be_bytes 2 CONTROL_PROTOCOL_VERSION ++ be_bytes 8 id ++ rest) as Hp
    by (unfold p, encode_request; by rewrite (assoc_L app)).
  assert (len (be_bytes 2 CONTROL_PROTOCOL_VERSION) = 2) as H2 by apply len_be_bytes.
  assert (len (be_bytes 8 id) = 8) as H8 by apply len_be_bytes. split_and!.
  - unfold check_version. rewrite Hp. rewrite <- H2 at 1. rewrite slice_head. by vm_compute.
  - rewrite Hp, slice_skip, H2 by (rewrite H2; lia). replace (10 - 2) with (len (be_bytes 8 id)) by lia.
    rewrite slice_head. apply be_roundtrip. unfold u64_max in Hid. simpl. lia.
  - assert (len (encode_request id) = PREFIX_SIZE) as <-
      by (unfold encode_request, PREFIX_SIZE; autorewrite with oxi; lia).
    apply drop_len_app.
  - rewrite Hp, !len_app, H2, H8. unfold PREFIX_SIZE.
    pose proof (len_nonneg rest). lia.
Qed.

(** ** Properties *)

(** C24: an adoption request is decoded to what was encoded: for every manifest the
    master can build, the worker reads back its request identifier and the very
    manifest, and goes on to adopt the descriptors that came with it; non-UTF-8
    paths and abstract names included. *)
Theorem control_adopt_roundtrip {K Fd} `{!Kernel K Fd} reserve reserve_slots l m rid p
    (frame : AuthenticatedFrame Fd) (k : K) :
  DescriptorManifest_new l = Ok m -> Forall slot_in_range l -> 0 <= rid <= u64_max ->
  encode_adopt_request reserve rid m = Ok p -> reserve_slots (len l) = true ->
  message_type (auth_header frame) = ControlPhase_message_type AdoptListeners -> auth_payload frame = p ->
  decode_request reserve_slots frame k =
  (let! set := descriptor_call (DescriptorSet_new m (auth_descriptors frame)) in
   mret (mkRequest rid AdoptListeners (Some set))) k.
Proof.
  intros [-> Hwf]%DescriptorManifest_new_Ok Hr Hid Henc Hres Hty Hpl.
  apply encode_adopt_request_Ok in Henc as (-> & He & Hl).
  2: { pose proof (wf_count _ Hwf). simpl. unfold u16_max, MAX_DESCRIPTOR_COUNT in *. lia. }
  destruct (slice_prefix rid (manifest_bytes (mkManifest l)) Hid) as (Hv & Hi & Hd & Hp).
  unfold decode_request. rewrite Hty, Hpl. unfold mbind_se at 1. cbn -[encode_request manifest_bytes].
  unfold mbind_se, mlift. rewrite (proj2 (Z.ltb_ge _ _)) by done. rewrite Hv.
  unfold decode_listeners, mbind_se, mlift. rewrite Hd, decode_manifest_bytes by done.
  rewrite Hi, bool_decide_eq_true_2 by done. by destruct (descriptor_call _ k) as [[set|e] k'].
Qed.

(** The encoder refuses what does not fit, and only that: when memory
    suffices, a manifest whose length prefixes fit 32 bits is encoded exactly
    when its encoding has at most 16 KiB, and then to that encoding. *)
Theorem control_adopt_bound reserve l m rid :
  DescriptorManifest_new l = Ok m -> Forall slot_encodable l -> (forall n, reserve n = true) ->
  is_ok (encode_adopt_request reserve rid m) = true <-> len (manifest_bytes m) <= MAX_MANIFEST_BYTES.
Proof.
  intros [-> Hwf]%DescriptorManifest_new_Ok He Hres. pose proof (wf_count _ Hwf) as Hc.
  assert (len l <= u16_max) as Hl by (unfold u16_max, MAX_DESCRIPTOR_COUNT in *; lia). split.
  - destruct (encode_adopt_request reserve rid _) as [p|] eqn:E; [|done]. intros _.
    by apply encode_adopt_request_Ok in E as (_ & _ & ?).
  - intros Hm. unfold encode_adopt_request.
    assert (writes reserve
      (let! _ := Writer_bytes reserve (be_bytes 2 CONTROL_PROTOCOL_VERSION) in
       let! _ := Writer_bytes reserve (be_bytes 8 rid) in encode_manifest reserve (mkManifest l))
      (be_bytes 2 CONTROL_PROTOCOL_VERSION ++ be_bytes 8 rid ++ manifest_bytes (mkManifest l))) as Hw
      by (do 2 (apply writes_bind; [apply writes_bytes|]); by apply writes_manifest).
    destruct (Hw (Writer_new (PREFIX_SIZE + MAX_MANIFEST_BYTES))) as [_ ->]; try done.
    unfold fits. cbn [w_bytes w_maximum Writer_new]. autorewrite with oxi. rewrite ?len_be_bytes.
    unfold PREFIX_SIZE, MAX_MANIFEST_BYTES, usize_max, u64_max in *. lia.
Qed.

(** Every other request is decoded to its identifier and phase, and is refused
    when the payload is longer or descriptors came along. *)
Theorem control_request_roundtrip {K Fd} `{!Kernel K Fd} reserve_slots rid ph rest
    (frame : AuthenticatedFrame Fd) (k : K) :
  ph <> AdoptListeners -> 0 <= rid <= u64_max ->
  message_type (auth_header frame) = ControlPhase_message_type ph ->
  auth_payload frame = encode_request rid ++ rest ->
  decode_request reserve_slots frame k =
  (if bool_decide (rest <> []) then Err InvalidPayload
   else if bool_decide (auth_descriptors frame <> []) then Err UnexpectedDescriptors
   else Ok (mkRequest rid ph None), k).
Proof.
  intros Hph Hid Hty Hpl. destruct (slice_prefix rid rest Hid) as (Hv & Hi & Hd & Hp).
  unfold decode_request. rewrite Hty, Hpl.
  assert (ControlPhase_from_message_type (ControlPhase_message_type ph) = Ok ph) as -> by by destruct ph.
  unfold mbind_se, mlift. rewrite (proj2 (Z.ltb_ge _ _)) by done. rewrite Hv.
  rewrite bool_decide_eq_false_2 by done. rewrite Hi.
  assert ((len (encode_request rid ++ rest) =? PREFIX_SIZE) = bool_decide (rest = [])) as ->.
  { rewrite len_app. unfold encode_request. rewrite len_app, !len_be_bytes.
    unfold PREFIX_SIZE. pose proof (len_nonneg rest). pose proof (len_zero rest).
    case_bool_decide; [apply Z.eqb_eq|apply Z.eqb_neq]; naive_solver lia. }
  rewrite (bool_decide_not (rest = [])). destruct (bool_decide (rest = [])); [|done].
  by destruct (bool_decide (auth_descriptors frame <> [])).
Qed.

Definition ack_in_range (a : ControlAck) : Prop :=
  0 <= ack_request_id a <= u64_max /\
  match outcome a with Accepted => True | Rejected code => 1 <= code <= u8_max end.

Lemma from_tag_Ok tag ph : ControlPhase_from_tag tag = Ok ph <-> tag = ControlPhase_tag ph.
Proof.
  unfold ControlPhase_from_tag. split; [|intros ->; by destruct ph].
  repeat case_match; naive_solver.
Qed.

Lemma decode_ack_pieces {Fd} (frame : AuthenticatedFrame Fd) v i t c :
  message_type (auth_header frame) = ACK -> auth_descriptors frame = [] -> auth_payload frame = v ++ i ++ t ++ c ->
  len v = 2 -> len i = 8 -> len t = 1 -> len c = 1 ->
  decode_ack frame =
  if be_value v =? CONTROL_PROTOCOL_VERSION then
    let? ph := ControlPhase_from_tag (be_value t) in
    Ok (mkAck (be_value i) ph (if be_value c =? 0 then Accepted else Rejected (be_value c)))
  else Err (VersionMismatch CONTROL_PROTOCOL_VERSION (be_value v)).
Proof.
  intros Hty Hd Hp Hv Hi Ht Hc. unfold decode_ack, check_version.
  rewrite <- (app_nil_r c) in Hp. set (b := v ++ i ++ t ++ c ++ []) in Hp.
  assert (len b = ACK_SIZE) as Hb
    by (unfold b, ACK_SIZE; rewrite !len_app, Hv, Hi, Ht, Hc; reflexivity).
  rewrite Hty, Hd, Hp, Z.eqb_refl, bool_decide_eq_false_2 by (intros H; by apply H).
  cbv zeta. rewrite Hb, Z.eqb_refl. cbn [negb].
  assert (slice b 0 2 = v) as -> by (subst b; piece).
  assert (slice b 2 10 = i) as -> by (subst b; piece).
  assert (slice b 10 11 = t) as -> by (subst b; piece).
  assert (slice b 11 12 = c) as -> by (subst b; piece).
  by destruct (be_value v =? _).
Qed.

(** An acknowledgement frame is accepted exactly when it carries no descriptors
    and its payload is an encoded acknowledgement, which is then read back; a
    rejection code of 0 is never on the wire. *)
Theorem control_ack_exact {Fd} (frame : AuthenticatedFrame Fd) a :
  decode_ack frame = Ok a <->
  message_type (auth_header frame) = ACK /\ auth_descriptors frame = [] /\ ack_in_range a /\
  auth_payload frame = encode_ack (ack_request_id a) (ack_phase a) (outcome a).
Proof.
  split.
  - intros H. assert (message_type (auth_header frame) = ACK /\ auth_descriptors frame = [] /\
      len (auth_payload frame) = ACK_SIZE) as (Hty & Hd & Hl).
    { unfold decode_ack in H. destruct (Z.eqb_spec (message_type (auth_header frame)) ACK); [|done].
      case_bool_decide as Hd; [done|]. destruct (Z.eqb_spec (len (auth_payload frame)) ACK_SIZE); [|done].
      destruct (auth_descriptors frame); [done|by destruct Hd]. }
    unfold ACK_SIZE in Hl. set (p := auth_payload frame) in *.
    assert (p = slice p 0 2 ++ slice p 2 10 ++ slice p 10 11 ++ slice p 11 12) as Hp.
    { rewrite <- !slice_split by lia. rewrite <- Hl. by rewrite slice_all. }
    rewrite (decode_ack_pieces frame _ _ _ _ Hty Hd Hp) in H by (rewrite len_slice; lia).
    destruct (Z.eqb_spec (be_value (slice p 0 2)) CONTROL_PROTOCOL_VERSION) as [Hv|]; [|done].
    res_inv. apply from_tag_Ok in H0.
    pose proof (be_value_range (slice p 2 10)) as R1. rewrite len_slice in R1 by lia.
    pose proof (be_value_range (slice p 11 12)) as R2. rewrite len_slice in R2 by lia.
    split_and!; [done..| |].
    + unfold ack_in_range, u64_max, u8_max; simpl. split; [simpl in R1; lia|].
      destruct (Z.eqb_spec (be_value (slice p 11 12)) 0); simpl in *; [done|lia].
    + etransitivity; [exact Hp|]. unfold encode_ack; cbn [ack_request_id ack_phase outcome].
      rewrite <- Hv, <- H0. change [z2b (be_value (slice p 10 11))] with (be_bytes 1 (be_value (slice p 10 11))).
      rewrite (be_bytes_slice p 0 2 2), (be_bytes_slice p 2 10 8), (be_bytes_slice p 10 11 1) by lia.
      do 3 f_equal. rewrite <- (be_bytes_slice p 11 12 1) at 1 by lia.
      unfold be_bytes; simpl. do 2 f_equal.
      destruct (Z.eqb_spec (be_value (slice p 11 12)) 0) as [->|Hc]; [done|].
      by rewrite (proj2 (Z.eqb_neq _ _) Hc).
  - intros (Hty & Hd & [Hi Ho] & Hp).
    rewrite (decode_ack_pieces frame _ _ _ _ Hty Hd Hp) by (rewrite ?len_be_bytes; done).
    rewrite !be_roundtrip by (unfold u64_max in Hi; simpl; lia || by vm_compute).
    rewrite Z.eqb_refl. destruct a as [rid ph o]; simpl in *.
    assert (forall v, 0 <= v <= u8_max -> be_value [z2b v] = v) as H1
      by (intros v Hv; apply (be_roundtrip 1); unfold u8_max in Hv; simpl; lia).
    rewrite H1 by (destruct ph; by vm_compute). rewrite (proj2 (from_tag_Ok _ ph)) by done.
    destruct o as [|code]; [done|]. rewrite (proj2 (Z.eqb_neq code 0)), H1 by lia.
    by rewrite (proj2 (Z.eqb_neq code 0)) by lia.
Qed.

(** *** Witnesses *)

(** [/t] followed by a byte that is not UTF-8. *)
Definition example_path : bytes := [z2b 47; z2b 116; z2b 255].
Definition example_unix_slots : list DescriptorSlot :=
  [mkSlot 9 (Traffic [z2b 117]) UnixListener (Some (UnixPath example_path)) (Some 432)].
Definition example_request (ty : Z) (p : bytes) (fds : list Z) : AuthenticatedFrame Z :=
  let pl := authenticated_payload CONTROL_PROTOCOL_VERSION example_nonce p in
  mkAuthenticated
    (mkFrame (mkHeader ty (len pl) 0 (len fds) 1 (replicate 16 (z2b 0)) 1) pl fds (mkPeer 1 0 0)).
Definition example_adopt_payload : bytes :=
  encode_request 7 ++ manifest_bytes (mkManifest example_unix_slots).

#[local] Instance silent_kernel : Kernel unit Z := {
  fcntl_getfd _ k := (Ok CLOEXEC, k);
  fcntl_setfd _ _ k := (Ok tt, k);
  fcntl_getfl _ k := (Ok NONBLOCK, k);
  fcntl_setfl _ _ k := (Ok tt, k);
  fstat_mode _ k := (Ok 49152, k);
  socket_type _ k := (Ok SockStream, k);
  socket_acceptconn _ k := (Ok true, k);
  getsockname _ k := (Ok (AnyUnix (Ok (mkUnixAddr (Some example_path) None))), k);
  symlink_mode _ k := (Ok (49152 + 432), k);
}.

Lemma control_adopt_roundtrip_witness :
  let frame := example_request ADOPT example_adopt_payload [40] in
  decode_request (fun _ => true) frame tt =
  (let! set := descriptor_call (DescriptorSet_new (mkManifest example_unix_slots) (auth_descriptors frame)) in
   mret (mkRequest 7 AdoptListeners (Some set))) tt.
Proof.
  intros frame. apply (control_adopt_roundtrip (fun _ => true) (fun _ => true) example_unix_slots
    (mkManifest example_unix_slots) 7 example_adopt_payload frame tt).
  - vm_compute; reflexivity.
  - repeat constructor; by vm_compute.
  - by vm_compute.
  - vm_compute; reflexivity.
  - reflexivity.
  - reflexivity.
  - reflexivity.
Defined.

Lemma control_adopt_bound_witness :
  is_ok (encode_adopt_request (fun _ => true) 7 (mkManifest example_unix_slots)) = true <->
  len (manifest_bytes (mkManifest example_unix_slots)) <= MAX_MANIFEST_BYTES.
Proof.
  apply (control_adopt_bound (fun _ => true) example_unix_slots); [vm_compute; reflexivity| |done].
  repeat constructor; by vm_compute.
Defined.

Lemma control_request_roundtrip_witness :
  let frame := example_request QUIESCE (encode_request 5 ++ []) [] in
  decode_request (fun _ => true) frame tt =
  (if bool_decide (@nil Byte.byte <> []) then Err InvalidPayload
   else if bool_decide (auth_descriptors frame <> []) then Err UnexpectedDescriptors
   else Ok (mkRequest 5 Quiesce None), tt).
Proof.
  intros frame. apply (control_request_roundtrip (fun _ => true) 5 Quiesce [] frame tt);
    [done|by vm_compute|reflexivity..].
Defined.
