(* ===== verification/StatusProtocol.v ===== *)
(** Worker status reports: the data and the codec of
    [crates/oxiroute-supervisor-master/src/status.rs], and their path from
    [WorkerControl::report_status] ([protocol.rs]) to the master.  Text is UTF-8
    bytes.

    Shows that the decoder accepts exactly the encodings of well-formed reports,
    so that a report is read back as it was sent and two different reports never
    look alike, and that every report a worker can encode fits the transport and
    reaches the master unchanged. *)

From stdpp Require Import base countable strings list.
From Stdlib Require Import ZArith Lia.
From S2P Require Import Prelude Bytes Identity Wire Transport Descriptor Channel Codec.
From S2P Require Import ControlProtocol.

Open Scope Z_scope.

Definition STATUS_MESSAGE : MessageType := 385.
Definition MAX_STATUS_BYTES : Z := 60 * 1024.
Definition MAX_STATUS_LISTENERS : Z := 64.
Definition MAX_STATUS_EVENTS : Z := 64.
Definition MAX_STATUS_STRING_BYTES : Z := 1024.
Definition STATUS_FORMAT_VERSION : Z := 1.

Inductive WorkerLifecycle : Type :=
| WorkerLifecycle_Starting | WorkerLifecycle_Ready | WorkerLifecycle_Active
| WorkerLifecycle_Quiescing | WorkerLifecycle_Draining | WorkerLifecycle_Reactivating
| WorkerLifecycle_Stopping | WorkerLifecycle_Failed.

Inductive WorkerListenerState : Type :=
| WorkerListenerState_Configured | WorkerListenerState_Listening
| WorkerListenerState_Stopped | WorkerListenerState_Failed.

Inductive WorkerAdministrativeState : Type :=
| WorkerAdministrativeState_Ready | WorkerAdministrativeState_Drain
| WorkerAdministrativeState_Maintenance.

Record WorkerMetrics : Type := mkMetrics {
  m_accepted_connections : Z;
  m_rejected_connections : Z;
  m_active_connections : Z;
  m_bytes_received : Z;
  m_bytes_sent : Z;
}.

Record WorkerListenerStatus : Type := mkListenerStatus {
  wl_name : bytes;
  wl_protocol : bytes;
  wl_bind : bytes;
  wl_administrative_state : WorkerAdministrativeState;
  wl_state : WorkerListenerState;
  wl_accepted_connections : Z;
  wl_rejected_connections : Z;
  wl_active_connections : Z;
  wl_bytes_received : Z;
  wl_bytes_sent : Z;
}.

Record WorkerGenerationStatus : Type := mkGenerationStatus {
  wg_disk_revision : option bytes;
  wg_candidate_revision : option bytes;
  wg_active_revision : option bytes;
  wg_previous_revision : option bytes;
  wg_quarantined_revision : option bytes;
  wg_active_accepting : bool;
  wg_degraded : bool;
  wg_last_failure : option bytes;
  wg_prepares : Z;
  wg_activations : Z;
  wg_failures : Z;
  wg_rollbacks : Z;
}.

Record WorkerEventRecord : Type := mkEventRecord {
  we_cursor : Z;
  we_timestamp_unix_ms : option Z;
  we_event : bytes;
  we_outcome : bytes;
  we_revision : option bytes;
  we_certificate : option bytes;
  we_correlation_id : option bytes;
  we_source : option bytes;
  we_operation : option bytes;
}.

Record WorkerStatus : Type := mkStatus {
  s_sequence : Z;
  s_generation_id : GenerationId;
  s_lifecycle : WorkerLifecycle;
  s_administrative_state : WorkerAdministrativeState;
  s_accepting : bool;
  s_runtime_started : bool;
  s_runtime_failed : bool;
  s_drained : bool;
  s_generation : WorkerGenerationStatus;
  s_metrics : option WorkerMetrics;
  s_listeners : list WorkerListenerStatus;
  s_degraded : bool;
  s_degradation : option bytes;
  s_event_cursor : Z;
  s_event_cursor_lost : bool;
  s_events : list WorkerEventRecord;
}.

Inductive StatusProtocolError : Type :=
| Status_UnexpectedMessage (message_type : MessageType)
| Status_UnexpectedDescriptors
| Status_TooLarge (maximum : Z)
| Status_VersionMismatch (expected actual : Z)
| Status_InvalidPayload
| Status_StringTooLong (maximum : Z)
| Status_CollectionTooLong (kind : bytes)
| Status_Allocation.

#[export] Instance StatusWire : BoundedWireProtocol StatusProtocolError := {
  invalid := Status_InvalidPayload;
  too_large _ maximum := Status_TooLarge maximum;
  allocation := Status_Allocation;
}.

Abbreviation StatusEncoder := (M BoundedWireWriter StatusProtocolError) (only parsing).
Abbreviation StatusDecoder := (M BoundedWireReader StatusProtocolError) (only parsing).

(** A check that stops with an error. *)
Definition check {S E} (b : bool) (e : E) : M S E unit := mlift (if b then Err e else Ok tt).

(** ** Tags *)

Definition bool_bit (b : bool) : Z := if b then 1 else 0.

Definition status_flags (s : WorkerStatus) : Z :=
  Z.lor (Z.lor (Z.lor (Z.lor (bool_bit (s_accepting s))
    (Z.shiftl (bool_bit (s_runtime_started s)) 1))
    (Z.shiftl (bool_bit (s_runtime_failed s)) 2))
    (Z.shiftl (bool_bit (s_drained s)) 3))
    (Z.shiftl (bool_bit (s_degraded s)) 4).

Definition encode_lifecycle (l : WorkerLifecycle) : Z :=
  match l with
  | WorkerLifecycle_Starting => 1 | WorkerLifecycle_Ready => 2 | WorkerLifecycle_Active => 3
  | WorkerLifecycle_Quiescing => 4 | WorkerLifecycle_Draining => 5
  | WorkerLifecycle_Reactivating => 6 | WorkerLifecycle_Stopping => 7 | WorkerLifecycle_Failed => 8
  end.

Definition decode_lifecycle (value : Z) : result WorkerLifecycle StatusProtocolError :=
  match value with
  | 1 => Ok WorkerLifecycle_Starting | 2 => Ok WorkerLifecycle_Ready | 3 => Ok WorkerLifecycle_Active
  | 4 => Ok WorkerLifecycle_Quiescing | 5 => Ok WorkerLifecycle_Draining
  | 6 => Ok WorkerLifecycle_Reactivating | 7 => Ok WorkerLifecycle_Stopping
  | 8 => Ok WorkerLifecycle_Failed
  | _ => Err Status_InvalidPayload
  end.

Definition encode_listener_state (s : WorkerListenerState) : Z :=
  match s with
  | WorkerListenerState_Configured => 0 | WorkerListenerState_Listening => 1
  | WorkerListenerState_Stopped => 2 | WorkerListenerState_Failed => 3
  end.

Definition decode_listener_state (value : Z) : result WorkerListenerState StatusProtocolError :=
  match value with
  | 0 => Ok WorkerListenerState_Configured | 1 => Ok WorkerListenerState_Listening
  | 2 => Ok WorkerListenerState_Stopped | 3 => Ok WorkerListenerState_Failed
  | _ => Err Status_InvalidPayload
  end.

Definition encode_administrative_state (s : WorkerAdministrativeState) : Z :=
  match s with
  | WorkerAdministrativeState_Ready => 0 | WorkerAdministrativeState_Drain => 1
  | WorkerAdministrativeState_Maintenance => 2
  end.

Definition decode_administrative_state (value : Z) :
    result WorkerAdministrativeState StatusProtocolError :=
  match value with
  | 0 => Ok WorkerAdministrativeState_Ready | 1 => Ok WorkerAdministrativeState_Drain
  | 2 => Ok WorkerAdministrativeState_Maintenance
  | _ => Err Status_InvalidPayload
  end.

(** ** Encoding *)

Section Encode.
Context (reserve : Z -> bool).

Abbreviation u8 := (Writer_u8 reserve).
Abbreviation u16 := (Writer_u16 reserve).
Abbreviation u64 := (Writer_u64 reserve).

Definition encode_string (value : bytes) : StatusEncoder unit :=
  let! _ := check (MAX_STATUS_STRING_BYTES <? len value)
              (Status_StringTooLong MAX_STATUS_STRING_BYTES) in
  let! length := mlift (try_from_uint u16_max (Status_StringTooLong MAX_STATUS_STRING_BYTES)
                          (len value)) in
  let! _ := u16 length in
  Writer_bytes reserve value.

Definition encode_optional_string (value : option bytes) : StatusEncoder unit :=
  match value with
  | Some value => let! _ := u8 1 in encode_string value
  | None => u8 0
  end.

Definition encode_generation (g : WorkerGenerationStatus) : StatusEncoder unit :=
  let! _ := encode_optional_string (wg_disk_revision g) in
  let! _ := encode_optional_string (wg_candidate_revision g) in
  let! _ := encode_optional_string (wg_active_revision g) in
  let! _ := encode_optional_string (wg_previous_revision g) in
  let! _ := encode_optional_string (wg_quarantined_revision g) in
  let! _ := u8 (bool_bit (wg_active_accepting g)) in
  let! _ := u8 (bool_bit (wg_degraded g)) in
  let! _ := encode_optional_string (wg_last_failure g) in
  let! _ := u64 (wg_prepares g) in
  let! _ := u64 (wg_activations g) in
  let! _ := u64 (wg_failures g) in
  u64 (wg_rollbacks g).

Definition encode_timestamp (timestamp : option Z) : StatusEncoder unit :=
  match timestamp with
  | Some timestamp => let! _ := u8 1 in u64 timestamp
  | None => u8 0
  end.

Definition encode_event (e : WorkerEventRecord) : StatusEncoder unit :=
  let! _ := check (we_cursor e =? 0) Status_InvalidPayload in
  let! _ := u64 (we_cursor e) in
  let! _ := encode_timestamp (we_timestamp_unix_ms e) in
  let! _ := encode_string (we_event e) in
  let! _ := encode_string (we_outcome e) in
  let! _ := encode_optional_string (we_revision e) in
  let! _ := encode_optional_string (we_certificate e) in
  let! _ := encode_optional_string (we_correlation_id e) in
  let! _ := encode_optional_string (we_source e) in
  encode_optional_string (we_operation e).

Definition encode_metrics (metrics : option WorkerMetrics) : StatusEncoder unit :=
  match metrics with
  | Some m =>
      let! _ := u8 1 in
      let! _ := u64 (m_accepted_connections m) in
      let! _ := u64 (m_rejected_connections m) in
      let! _ := u64 (m_active_connections m) in
      let! _ := u64 (m_bytes_received m) in
      u64 (m_bytes_sent m)
  | None => u8 0
  end.

Definition encode_listener (l : WorkerListenerStatus) : StatusEncoder unit :=
  let! _ := encode_string (wl_name l) in
  let! _ := encode_string (wl_protocol l) in
  let! _ := encode_string (wl_bind l) in
  let! _ := u8 (encode_administrative_state (wl_administrative_state l)) in
  let! _ := u8 (encode_listener_state (wl_state l)) in
  let! _ := u64 (wl_accepted_connections l) in
  let! _ := u64 (wl_rejected_connections l) in
  let! _ := u64 (wl_active_connections l) in
  let! _ := u64 (wl_bytes_received l) in
  u64 (wl_bytes_sent l).

Definition encode_status_body (s : WorkerStatus) : StatusEncoder unit :=
  let! _ := u16 STATUS_FORMAT_VERSION in
  let! _ := u16 CONTROL_PROTOCOL_VERSION in
  let! _ := u64 (s_sequence s) in
  let! _ := u64 (s_generation_id s) in
  let! _ := u8 (encode_lifecycle (s_lifecycle s)) in
  let! _ := u8 (status_flags s) in
  let! _ := u8 (encode_administrative_state (s_administrative_state s)) in
  let! _ := encode_generation (s_generation s) in
  let! _ := encode_metrics (s_metrics s) in
  let! listener_count := mlift (try_from_uint u16_max Status_InvalidPayload (len (s_listeners s))) in
  let! _ := u16 listener_count in
  let! _ := mfor encode_listener (s_listeners s) in
  let! _ := encode_optional_string (s_degradation s) in
  let! _ := u64 (s_event_cursor s) in
  let! _ := u8 (bool_bit (s_event_cursor_lost s)) in
  let! event_count := mlift (try_from_uint u16_max Status_InvalidPayload (len (s_events s))) in
  let! _ := u16 event_count in
  mfor encode_event (s_events s).

Definition encode_status (s : WorkerStatus) : result bytes StatusProtocolError :=
  if (s_sequence s =? 0) || (MAX_STATUS_LISTENERS <? len (s_listeners s)) then
    Err Status_InvalidPayload
  else if MAX_STATUS_EVENTS <? len (s_events s) then Err (Status_CollectionTooLong (lit "events"))
  else
    let '(r, encoder) := encode_status_body s (Writer_new MAX_STATUS_BYTES) in
    let? _ := r in
    Ok (Writer_finish encoder).
End Encode.

(** ** Decoding *)

Definition decode_flag : StatusDecoder bool :=
  let! tag := Reader_u8 in
  match tag with
  | 0 => mret false
  | 1 => mret true
  | _ => mfail Status_InvalidPayload
  end.

Definition decode_string : StatusDecoder bytes :=
  let! length := Reader_u16 in
  let! _ := check (MAX_STATUS_STRING_BYTES <? length)
              (Status_StringTooLong MAX_STATUS_STRING_BYTES) in
  let! value := Reader_bytes length in
  let! _ := check (negb (utf8_valid value)) Status_InvalidPayload in
  mret value.

(** A tag byte and the value it announces. *)
Definition decode_optional {A} (c : StatusDecoder A) : StatusDecoder (option A) :=
  let! tag := Reader_u8 in
  match tag with
  | 0 => mret None
  | 1 => let! value := c in mret (Some value)
  | _ => mfail Status_InvalidPayload
  end.

Definition decode_optional_string : StatusDecoder (option bytes) := decode_optional decode_string.

(** A tag byte and what it stands for. *)
Definition decode_tag {T} (decode : Z -> result T StatusProtocolError) : StatusDecoder T :=
  let! value := Reader_u8 in
  mlift (decode value).

Definition decode_generation : StatusDecoder WorkerGenerationStatus :=
  let! disk_revision := decode_optional_string in
  let! candidate_revision := decode_optional_string in
  let! active_revision := decode_optional_string in
  let! previous_revision := decode_optional_string in
  let! quarantined_revision := decode_optional_string in
  let! active_accepting := decode_flag in
  let! degraded := decode_flag in
  let! last_failure := decode_optional_string in
  let! prepares := Reader_u64 in
  let! activations := Reader_u64 in
  let! failures := Reader_u64 in
  let! rollbacks := Reader_u64 in
  mret (mkGenerationStatus disk_revision candidate_revision active_revision previous_revision
          quarantined_revision active_accepting degraded last_failure prepares activations failures
          rollbacks).

Definition decode_event : StatusDecoder WorkerEventRecord :=
  let! cursor := Reader_u64 in
  let! _ := check (cursor =? 0) Status_InvalidPayload in
  let! timestamp_unix_ms := decode_optional Reader_u64 in
  let! event := decode_string in
  let! outcome := decode_string in
  let! revision := decode_optional_string in
  let! certificate := decode_optional_string in
  let! correlation_id := decode_optional_string in
  let! source := decode_optional_string in
  let! operation := decode_optional_string in
  mret (mkEventRecord cursor timestamp_unix_ms event outcome revision certificate correlation_id
          source operation).

Definition decode_metrics_value : StatusDecoder WorkerMetrics :=
  let! accepted_connections := Reader_u64 in
  let! rejected_connections := Reader_u64 in
  let! active_connections := Reader_u64 in
  let! bytes_received := Reader_u64 in
  let! bytes_sent := Reader_u64 in
  mret (mkMetrics accepted_connections rejected_connections active_connections bytes_received
          bytes_sent).

Definition decode_listener : StatusDecoder WorkerListenerStatus :=
  let! name := decode_string in
  let! protocol := decode_string in
  let! bind := decode_string in
  let! administrative_state := decode_tag decode_administrative_state in
  let! state := decode_tag decode_listener_state in
  let! accepted_connections := Reader_u64 in
  let! rejected_connections := Reader_u64 in
  let! active_connections := Reader_u64 in
  let! bytes_received := Reader_u64 in
  let! bytes_sent := Reader_u64 in
  mret (mkListenerStatus name protocol bind administrative_state state accepted_connections
          rejected_connections active_connections bytes_received bytes_sent).

(** [windows(2).any(|w| w[0].cursor >= w[1].cursor)] *)
Fixpoint cursors_unordered (events : list WorkerEventRecord) : bool :=
  match events with
  | a :: (b :: _) as rest => (we_cursor b <=? we_cursor a) || cursors_unordered rest
  | _ => false
  end.

Section Decode.
(** Whether the vectors of listeners and events can be allocated. *)
Context (reserve_vec : Z -> bool).

Definition decode_status_body (header_generation : GenerationId) : StatusDecoder WorkerStatus :=
  let! format_version := Reader_u16 in
  let! _ := check (negb (format_version =? STATUS_FORMAT_VERSION))
              (Status_VersionMismatch STATUS_FORMAT_VERSION format_version) in
  let! protocol_version := Reader_u16 in
  let! _ := check (negb (protocol_version =? CONTROL_PROTOCOL_VERSION))
              (Status_VersionMismatch CONTROL_PROTOCOL_VERSION protocol_version) in
  let! sequence := Reader_u64 in
  let! _ := check (sequence =? 0) Status_InvalidPayload in
  let! generation_id := Reader_u64 in
  let! _ := check (negb (generation_id =? header_generation)) Status_InvalidPayload in
  let! lifecycle := decode_tag decode_lifecycle in
  let! flags := Reader_u8 in
  let! _ := check (negb (Z.land flags (Z.lxor u8_max 31) =? 0)) Status_InvalidPayload in
  let! administrative_state := decode_tag decode_administrative_state in
  let! generation := decode_generation in
  let! metrics := decode_optional decode_metrics_value in
  let! listener_count := Reader_u16 in
  let! _ := check (MAX_STATUS_LISTENERS <? listener_count)
              (Status_CollectionTooLong (lit "listeners")) in
  let! _ := check (negb (reserve_vec listener_count)) Status_Allocation in
  let! listeners := mrepeat (Z.to_nat listener_count) decode_listener in
  let! degradation := decode_optional_string in
  let! event_cursor := Reader_u64 in
  let! event_cursor_lost := decode_flag in
  let! event_count := Reader_u16 in
  let! _ := check (MAX_STATUS_EVENTS <? event_count) (Status_CollectionTooLong (lit "events")) in
  let! _ := check (negb (reserve_vec event_count)) Status_Allocation in
  let! events := mrepeat (Z.to_nat event_count) decode_event in
  let! _ := check (cursors_unordered events) Status_InvalidPayload in
  let! _ := check (match last events with
                   | Some event => event_cursor <? we_cursor event
                   | None => false
                   end) Status_InvalidPayload in
  mret {|
    s_sequence := sequence; s_generation_id := generation_id; s_lifecycle := lifecycle;
    s_administrative_state := administrative_state;
    s_accepting := negb (Z.land flags 1 =? 0);
    s_runtime_started := negb (Z.land flags 2 =? 0);
    s_runtime_failed := negb (Z.land flags 4 =? 0);
    s_drained := negb (Z.land flags 8 =? 0);
    s_degraded := negb (Z.land flags 16 =? 0);
    s_generation := generation; s_metrics := metrics; s_listeners := listeners;
    s_degradation := degradation; s_event_cursor := event_cursor;
    s_event_cursor_lost := event_cursor_lost; s_events := events |}.

Definition decode_status {Fd} (frame : AuthenticatedFrame Fd) :
    result WorkerStatus StatusProtocolError :=
  if negb (message_type (auth_header frame) =? STATUS_MESSAGE) then
    Err (Status_UnexpectedMessage (message_type (auth_header frame)))
  else if bool_decide (auth_descriptors frame <> []) then Err Status_UnexpectedDescriptors
  else if MAX_STATUS_BYTES <? len (auth_payload frame) then Err (Status_TooLarge MAX_STATUS_BYTES)
  else
    let '(r, decoder) :=
      decode_status_body (generation (auth_header frame)) (Reader_new (auth_payload frame)) in
    let? status := r in
    let? _ := Reader_finish decoder in
    Ok status.
End Decode.

(** ** The encodings as byte strings *)

Definition string_bytes (s : bytes) : bytes := be_bytes 2 (len s) ++ s.
Definition optional_bytes {A} (enc : A -> bytes) (o : option A) : bytes :=
  match o with Some a => [z2b 1] ++ enc a | None => [z2b 0] end.
Definition generation_bytes (g : WorkerGenerationStatus) : bytes :=
  optional_bytes string_bytes (wg_disk_revision g) ++
  optional_bytes string_bytes (wg_candidate_revision g) ++
  optional_bytes string_bytes (wg_active_revision g) ++
  optional_bytes string_bytes (wg_previous_revision g) ++
  optional_bytes string_bytes (wg_quarantined_revision g) ++
  [z2b (bool_bit (wg_active_accepting g))] ++ [z2b (bool_bit (wg_degraded g))] ++
  optional_bytes string_bytes (wg_last_failure g) ++
  be_bytes 8 (wg_prepares g) ++ be_bytes 8 (wg_activations g) ++ be_bytes 8 (wg_failures g) ++
  be_bytes 8 (wg_rollbacks g).
Definition event_bytes (e : WorkerEventRecord) : bytes :=
  be_bytes 8 (we_cursor e) ++ optional_bytes (be_bytes 8) (we_timestamp_unix_ms e) ++
  string_bytes (we_event e) ++ string_bytes (we_outcome e) ++
  optional_bytes string_bytes (we_revision e) ++ optional_bytes string_bytes (we_certificate e) ++
  optional_bytes string_bytes (we_correlation_id e) ++ optional_bytes string_bytes (we_source e) ++
  optional_bytes string_bytes (we_operation e).
Definition metrics_bytes (m : WorkerMetrics) : bytes :=
  be_bytes 8 (m_accepted_connections m) ++ be_bytes 8 (m_rejected_connections m) ++
  be_bytes 8 (m_active_connections m) ++ be_bytes 8 (m_bytes_received m) ++
  be_bytes 8 (m_bytes_sent m).
Definition listener_bytes (l : WorkerListenerStatus) : bytes :=
  string_bytes (wl_name l) ++ string_bytes (wl_protocol l) ++ string_bytes (wl_bind l) ++
  [z2b (encode_administrative_state (wl_administrative_state l))] ++
  [z2b (encode_listener_state (wl_state l))] ++
  be_bytes 8 (wl_accepted_connections l) ++ be_bytes 8 (wl_rejected_connections l) ++
  be_bytes 8 (wl_active_connections l) ++ be_bytes 8 (wl_bytes_received l) ++
  be_bytes 8 (wl_bytes_sent l).
Definition status_bytes (s : WorkerStatus) : bytes :=
  be_bytes 2 STATUS_FORMAT_VERSION ++ be_bytes 2 CONTROL_PROTOCOL_VERSION ++
  be_bytes 8 (s_sequence s) ++ be_bytes 8 (s_generation_id s) ++
  [z2b (encode_lifecycle (s_lifecycle s))] ++ [z2b (status_flags s)] ++
  [z2b (encode_administrative_state (s_administrative_state s))] ++
  generation_bytes (s_generation s) ++ optional_bytes metrics_bytes (s_metrics s) ++
  be_bytes 2 (len (s_listeners s)) ++ (s_listeners s ≫= listener_bytes) ++
  optional_bytes string_bytes (s_degradation s) ++ be_bytes 8 (s_event_cursor s) ++
  [z2b (bool_bit (s_event_cursor_lost s))] ++ be_bytes 2 (len (s_events s)) ++
  (s_events s ≫= event_bytes).

(** ** Well-formed reports *)

(** Text of its Rust type, and within the bound of the wire. *)
Definition text_ok (s : bytes) : Prop := utf8_valid s = true.
Definition string_ok (s : bytes) : Prop := len s <= MAX_STATUS_STRING_BYTES.
Definition optional_ok {A} (P : A -> Prop) (o : option A) : Prop :=
  match o with Some a => P a | None => True end.
Definition u64_ok (v : Z) : Prop := 0 <= v <= u64_max.

(** A condition [S] on every text and [U] on every counter of a part of a report. *)
Section Parts.
Context (S : bytes -> Prop) (U : Z -> Prop).

Definition generation_all (g : WorkerGenerationStatus) : Prop :=
  optional_ok S (wg_disk_revision g) /\ optional_ok S (wg_candidate_revision g) /\
  optional_ok S (wg_active_revision g) /\ optional_ok S (wg_previous_revision g) /\
  optional_ok S (wg_quarantined_revision g) /\ optional_ok S (wg_last_failure g) /\
  U (wg_prepares g) /\ U (wg_activations g) /\ U (wg_failures g) /\ U (wg_rollbacks g).

Definition event_all (e : WorkerEventRecord) : Prop :=
  U (we_cursor e) /\ optional_ok U (we_timestamp_unix_ms e) /\ S (we_event e) /\ S (we_outcome e) /\
  optional_ok S (we_revision e) /\ optional_ok S (we_certificate e) /\
  optional_ok S (we_correlation_id e) /\ optional_ok S (we_source e) /\
  optional_ok S (we_operation e).

Definition metrics_all (m : WorkerMetrics) : Prop :=
  U (m_accepted_connections m) /\ U (m_rejected_connections m) /\ U (m_active_connections m) /\
  U (m_bytes_received m) /\ U (m_bytes_sent m).

Definition listener_all (l : WorkerListenerStatus) : Prop :=
  S (wl_name l) /\ S (wl_protocol l) /\ S (wl_bind l) /\ U (wl_accepted_connections l) /\
  U (wl_rejected_connections l) /\ U (wl_active_connections l) /\ U (wl_bytes_received l) /\
  U (wl_bytes_sent l).

Definition status_all (s : WorkerStatus) : Prop :=
  U (s_sequence s) /\ U (s_generation_id s) /\ generation_all (s_generation s) /\
  optional_ok metrics_all (s_metrics s) /\ Forall listener_all (s_listeners s) /\
  optional_ok S (s_degradation s) /\ U (s_event_cursor s) /\ Forall event_all (s_events s).
End Parts.

(** The fields are of their Rust types. *)
Definition status_typed : WorkerStatus -> Prop := status_all text_ok u64_ok.

(** The bounds the encoder checks. *)
Definition anything (_ : Z) : Prop := True.
Record status_encodable (s : WorkerStatus) : Prop := {
  se_sequence : s_sequence s <> 0;
  se_listeners : len (s_listeners s) <= MAX_STATUS_LISTENERS;
  se_events : len (s_events s) <= MAX_STATUS_EVENTS;
  se_strings : status_all string_ok anything s;
  se_cursors : Forall (fun e => we_cursor e <> 0) (s_events s);
  se_size : len (status_bytes s) <= MAX_STATUS_BYTES;
}.

(** What the decoder checks beyond them. *)
Definition events_ordered (s : WorkerStatus) : Prop :=
  cursors_unordered (s_events s) = false /\
  match last (s_events s) with Some e => we_cursor e <= s_event_cursor s | None => True end.

(** ** The encoder *)

Section Encodes.
Context (reserve : Z -> bool).

Lemma encodes_string s :
  encodes reserve (string_ok s) (encode_string reserve s) (string_bytes s).
Proof.
  unfold encode_string, string_bytes, string_ok. pose proof (len_nonneg s).
  eapply encodes_iff.
  - eapply (encodes_if _ (len s <= MAX_STATUS_STRING_BYTES)); [by rewrite Z.ltb_ge|].
    eapply (encodes_lift _ (len s <= u16_max) _ _ _ (len s)).
    + unfold try_from_uint. rewrite (proj2 (Z.leb_le 0 (len s))) by done. simpl.
      destruct (Z.leb_spec (len s) u16_max); naive_solver lia.
    + unfold try_from_uint. by case_match; intros ? [= ->].
    + apply encodes_bind; apply encodes_writes; [apply writes_u16|apply writes_bytes].
  - unfold MAX_STATUS_STRING_BYTES, u16_max. naive_solver lia.
Qed.

Lemma encodes_optional_string o :
  encodes reserve (optional_ok string_ok o) (encode_optional_string reserve o)
    (optional_bytes string_bytes o).
Proof.
  destruct o as [s|]; unfold encode_optional_string, optional_bytes, optional_ok.
  - eapply encodes_iff; [apply encodes_bind; [apply encodes_writes, writes_u8|apply encodes_string]|].
    naive_solver.
  - apply encodes_writes, writes_u8.
Qed.


Lemma encodes_timestamp o :
  encodes reserve (optional_ok anything o) (encode_timestamp reserve o) (optional_bytes (be_bytes 8) o).
Proof.
  destruct o; unfold encode_timestamp, optional_bytes, optional_ok.
  - eapply encodes_iff; [apply encodes_bind; apply encodes_writes; [apply writes_u8|apply writes_u64]|].
    unfold anything. tauto.
  - apply encodes_writes, writes_u8.
Qed.

(** A chain of writes, field by field. *)
Ltac encode_field :=
  lazymatch goal with
  | |- encodes _ _ (mbind_se _ _) _ => apply encodes_bind
  | |- encodes _ _ (encode_string _ _) _ => apply encodes_string
  | |- encodes _ _ (encode_optional_string _ _) _ => apply encodes_optional_string
  | |- encodes _ _ (encode_timestamp _ _) _ => apply encodes_timestamp
  | |- encodes _ _ (Writer_u8 _ _) _ => apply encodes_writes, writes_u8
  | |- encodes _ _ (Writer_u16 _ _) _ => apply encodes_writes, writes_u16
  | |- encodes _ _ (Writer_u64 _ _) _ => apply encodes_writes, writes_u64
  end.
Ltac encode_fields := eapply encodes_iff; [repeat encode_field|].

Lemma encodes_generation g :
  encodes reserve (generation_all string_ok anything g) (encode_generation reserve g)
    (generation_bytes g).
Proof. unfold encode_generation. encode_fields. unfold generation_all, anything. tauto. Qed.

Lemma encodes_event e :
  encodes reserve (we_cursor e <> 0 /\ event_all string_ok anything e) (encode_event reserve e)
    (event_bytes e).
Proof.
  unfold encode_event. eapply encodes_if; [by rewrite Z.eqb_neq|].
  encode_fields. unfold event_all, anything. tauto.
Qed.

Lemma encodes_metrics o :
  encodes reserve (optional_ok (metrics_all anything) o) (encode_metrics reserve o)
    (optional_bytes metrics_bytes o).
Proof.
  destruct o; unfold encode_metrics, optional_bytes, optional_ok; encode_fields;
    unfold metrics_all, anything;
    tauto.
Qed.

Lemma encodes_listener l :
  encodes reserve (listener_all string_ok anything l) (encode_listener reserve l) (listener_bytes l).
Proof. unfold encode_listener. encode_fields. unfold listener_all, anything. tauto. Qed.

Lemma encodes_count {A} (l : list A) Q k bs :
  encodes reserve Q (k (len l)) bs ->
  encodes reserve (len l <= u16_max /\ Q)
    (mbind_se (mlift (try_from_uint u16_max Status_InvalidPayload (len l))) k) bs.
Proof.
  intros H. pose proof (len_nonneg l). eapply encodes_lift; [| |exact H]; unfold try_from_uint;
    rewrite (proj2 (Z.leb_le 0 (len l))) by done; simpl.
  - destruct (Z.leb_spec (len l) u16_max); naive_solver lia.
  - by case_match; intros ? [= ->].
Qed.

Lemma encodes_status_body s :
  encodes reserve
    (len (s_listeners s) <= u16_max /\ len (s_events s) <= u16_max /\
     status_all string_ok anything s /\ Forall (fun e => we_cursor e <> 0) (s_events s))
    (encode_status_body reserve s) (status_bytes s).
Proof.
  unfold encode_status_body, status_bytes. eapply encodes_iff.
  - do 7 (apply encodes_bind; [apply encodes_writes; first [apply writes_u8|apply writes_u16|apply writes_u64]|]).
    apply encodes_bind; [apply encodes_generation|]. apply encodes_bind; [apply encodes_metrics|].
    apply encodes_count. apply encodes_bind; [apply encodes_writes, writes_u16|].
    apply encodes_bind; [apply encodes_for, encodes_listener|].
    apply encodes_bind; [apply encodes_optional_string|].
    do 2 (apply encodes_bind; [apply encodes_writes; first [apply writes_u8|apply writes_u64]|]).
    apply encodes_count. apply encodes_bind; [apply encodes_writes, writes_u16|].
    apply encodes_for, encodes_event.
  - rewrite Forall_and. unfold status_all, anything. tauto.
Qed.

Lemma encode_status_Ok s p :
  encode_status reserve s = Ok p -> status_encodable s /\ p = status_bytes s.
Proof.
  unfold encode_status.
  destruct (Z.eqb_spec (s_sequence s) 0), (Z.ltb_spec MAX_STATUS_LISTENERS (len (s_listeners s)));
    [done..|]. simpl. destruct (Z.ltb_spec MAX_STATUS_EVENTS (len (s_events s))); [done|].
  destruct (encode_status_body reserve s _) as [[[]|] w] eqn:E; [|done]. intros [= <-].
  destruct (encodes_all _ _ _ _ MAX_STATUS_BYTES (encodes_status_body s)) as [He _]; [by vm_compute|].
  apply He in E as ((_ & _ & Hs & Hc) & -> & Hl). done.
Qed.

Lemma encode_status_encodable s :
  (forall n, reserve n = true) -> status_encodable s -> encode_status reserve s = Ok (status_bytes s).
Proof.
  intros Hr [H1 H2 H3 H4 H5 H6]. unfold encode_status.
  rewrite (proj2 (Z.eqb_neq _ _) H1), !(proj2 (Z.ltb_ge _ _)) by done. simpl.
  destruct (encodes_all _ _ _ _ MAX_STATUS_BYTES (encodes_status_body s)) as [_ He]; [by vm_compute|].
  destruct He as (w & -> & Hw); [done| |done|by rewrite <- Hw].
  unfold MAX_STATUS_LISTENERS, MAX_STATUS_EVENTS, u16_max in *. split_and!; [lia..|done|done].
Qed.
End Encodes.

(** ** The decoder *)

Lemma tag_cases {B} (v : Z) (P : B -> Prop) (a b c : B) :
  P a -> P b -> P c -> P (match v with 0 => a | 1 => b | _ => c end).
Proof. destruct v as [|[]|]; auto. Qed.

Lemma decodes_flag : decodes decode_flag (fun b => [z2b (bool_bit b)]) (fun _ => True).
Proof.
  eapply decodes_ext; [|apply (decodes_tag bool_bit (fun v =>
    match v with 0 => Ok false | 1 => Ok true | _ => Err Status_InvalidPayload end))].
  - intros r. unfold decode_flag, mbind_se. destruct (Reader_u8 r) as [[v|e] r1]; [|done].
    by destruct v as [|[]|].
  - split; [intros []; unfold u8_max; simpl; lia|].
    intros v b. split.
    + destruct v as [|[]|]; intros [= <-]; done.
    + intros ->. by destruct b.
Qed.

Lemma decodes_string :
  decodes decode_string string_bytes (fun s => string_ok s /\ text_ok s).
Proof.
  eapply (decodes_iff _ (fun s => be_bytes 2 (len s) ++ (s ++ [])) _
    (fun s => (0 <= len s <= u16_max /\ string_ok s /\ True /\ text_ok s /\ True) /\ True)).
  - apply (decodes_field len _ _ _ _ _ _ _ _ decodes_u16); [done|]. intros n Hn.
    apply decodes_guard.
    { intros s [_ <-]. unfold string_ok. rewrite <- Z.ltb_ge. destruct (_ <? _); naive_solver. }
    intros _. apply (decodes_field (fun s => s) _ _ _ _ _ _ _ _ (decodes_bytes n ltac:(lia))).
    { intros s [_ <-]. done. }
    intros s' <-. apply decodes_guard.
    { intros s [_ ->]. unfold text_ok. destruct (utf8_valid s'); naive_solver. }
    intros _. apply decodes_ret. naive_solver.
  - intros s. pose proof (len_nonneg s). unfold string_ok, MAX_STATUS_STRING_BYTES, u16_max.
    naive_solver lia.
  - intros s _. unfold string_bytes. by rewrite app_nil_r.
Qed.

Lemma decodes_optional {A} (c : M BoundedWireReader StatusProtocolError A) enc ok :
  decodes c enc ok -> decodes (decode_optional c) (optional_bytes enc) (optional_ok ok).
Proof.
  intros Hc pre rest o r Hl. unfold decode_optional. rewrite mbind_se_Ok. split.
  - intros (v & r1 & (Hv & post & -> & ->)%decodes_u8 & H2); [|done]. rewrite (assoc_L app) in H2, Hl.
    destruct v as [|[]|]; try done.
    + injection H2 as <- <-. rewrite <- (assoc_L app). split; [done|]. exists post. done.
    + apply mbind_se_Ok in H2 as (a & r2 & (Ha & post2 & -> & ->)%Hc & [= <- <-]); [|done].
      split; [done|]. exists post2. unfold optional_bytes. rewrite <- !(assoc_L app). done.
  - intros (Ho & post & -> & ->). destruct o as [a|]; simpl in Ho; unfold optional_bytes in *.
    + exists 1. eexists. rewrite <- !(assoc_L app) in *. split; [apply decodes_u8; [done|]; split; [by vm_compute|eauto]|].
      rewrite (assoc_L app pre _ (enc a ++ post)), (assoc_L app pre _ (enc a)) in *.
      apply mbind_se_Ok. exists a. eexists. split; [apply Hc; [done|]; eauto|done].
    + exists 0. eexists. split; [apply decodes_u8; [done|]; split; [by vm_compute|eauto]|done].
Qed.

Definition wire_text (s : bytes) : Prop := string_ok s /\ text_ok s.

Lemma decodes_optional_string :
  decodes decode_optional_string (optional_bytes string_bytes) (optional_ok wire_text).
Proof. apply decodes_optional, decodes_string. Qed.

Lemma decodes_counter : decodes Reader_u64 (be_bytes 8) u64_ok.
Proof. apply decodes_u64. Qed.

(** The next field of a message, projected out by [p]; the last one. *)
Ltac decode_field p :=
  lazymatch goal with
  | |- decodes (mbind_se decode_string _) _ _ =>
      apply (decodes_field p _ _ _ _ _ _ _ _ decodes_string); [done|intros ? ?]
  | |- decodes (mbind_se decode_optional_string _) _ _ =>
      apply (decodes_field p _ _ _ _ _ _ _ _ decodes_optional_string); [done|intros ? ?]
  | |- decodes (mbind_se (decode_optional Reader_u64) _) _ _ =>
      apply (decodes_field p _ _ _ _ _ _ _ _ (decodes_optional _ _ _ decodes_counter));
        [done|intros ? ?]
  | |- decodes (mbind_se Reader_u64 _) _ _ =>
      apply (decodes_field p _ _ _ _ _ _ _ _ decodes_counter); [done|intros ? ?]
  | |- decodes (mbind_se decode_flag _) _ _ =>
      apply (decodes_any p _ _ _ _ _ _ decodes_flag); intros ?
  end.
(** The value built is the one with the fields read. *)
Ltac built :=
  intros ? _; let b := fresh "msg" in intros b; split;
  [intros; destruct_and!; destruct b; simpl in *; congruence | intros ->; simpl; tauto].

Lemma tagged_administrative : tagged encode_administrative_state decode_administrative_state.
Proof.
  split; [intros []; unfold u8_max; simpl; lia|]. intros v t. split.
  - destruct v as [|[[]|[]|]|]; intros [= <-]; done.
  - intros ->. by destruct t.
Qed.
Lemma tagged_listener_state : tagged encode_listener_state decode_listener_state.
Proof.
  split; [intros []; unfold u8_max; simpl; lia|]. intros v t. split.
  - destruct v as [|[[]|[]|]|]; intros [= <-]; done.
  - intros ->. by destruct t.
Qed.
Lemma tagged_lifecycle : tagged encode_lifecycle decode_lifecycle.
Proof.
  split; [intros []; unfold u8_max; simpl; lia|]. intros v t. split.
  - destruct v as [|[[[]|[]|]|[[[]|[]|]|[[]|[]|]|]|]|]; intros [= <-]; done.
  - intros ->. by destruct t.
Qed.

Lemma decodes_metrics :
  decodes decode_metrics_value metrics_bytes (metrics_all u64_ok).
Proof.
  apply decodes_top. unfold decode_metrics_value, metrics_bytes, metrics_all.
  decode_field m_accepted_connections. decode_field m_rejected_connections.
  decode_field m_active_connections. decode_field m_bytes_received.
  apply (decodes_last m_bytes_sent _ _ _ _ _ _ decodes_counter); [done|built].
Qed.

Lemma decodes_generation :
  decodes decode_generation generation_bytes (generation_all wire_text u64_ok).
Proof.
  apply decodes_top. unfold decode_generation, generation_bytes, generation_all.
  decode_field wg_disk_revision. decode_field wg_candidate_revision.
  decode_field wg_active_revision. decode_field wg_previous_revision.
  decode_field wg_quarantined_revision. decode_field wg_active_accepting.
  decode_field wg_degraded. decode_field wg_last_failure.
  decode_field wg_prepares. decode_field wg_activations. decode_field wg_failures.
  apply (decodes_last wg_rollbacks _ _ _ _ _ _ decodes_counter); [done|built].
Qed.

Lemma decodes_listener :
  decodes decode_listener listener_bytes (listener_all wire_text u64_ok).
Proof.
  apply decodes_top. unfold decode_listener, listener_bytes, listener_all.
  decode_field wl_name. decode_field wl_protocol. decode_field wl_bind.
  apply (decodes_any wl_administrative_state _ _ _ _ _ _ (decodes_tag _ _ tagged_administrative)).
  intros ?.
  apply (decodes_any wl_state _ _ _ _ _ _ (decodes_tag _ _ tagged_listener_state)). intros ?.
  decode_field wl_accepted_connections. decode_field wl_rejected_connections.
  decode_field wl_active_connections. decode_field wl_bytes_received.
  apply (decodes_last wl_bytes_sent _ _ _ _ _ _ decodes_counter); [done|built].
Qed.

Lemma decodes_event :
  decodes decode_event event_bytes (fun e => event_all wire_text u64_ok e /\ we_cursor e <> 0).
Proof.
  eapply (decodes_iff _ _ _ (fun e => (u64_ok (we_cursor e) /\ we_cursor e <> 0 /\
    optional_ok u64_ok (we_timestamp_unix_ms e) /\ wire_text (we_event e) /\ wire_text (we_outcome e) /\
    optional_ok wire_text (we_revision e) /\ optional_ok wire_text (we_certificate e) /\
    optional_ok wire_text (we_correlation_id e) /\ optional_ok wire_text (we_source e) /\
    optional_ok wire_text (we_operation e)) /\ True)); [|unfold event_all; tauto|reflexivity].
  unfold decode_event, event_bytes. decode_field we_cursor. apply decodes_guard.
  { intros e [_ <-]. rewrite <- Z.eqb_neq. destruct (_ =? 0); naive_solver. }
  intros _. decode_field we_timestamp_unix_ms. decode_field we_event. decode_field we_outcome.
  decode_field we_revision. decode_field we_certificate. decode_field we_correlation_id.
  decode_field we_source.
  apply (decodes_last we_operation _ _ _ _ _ _ decodes_optional_string); [done|built].
Qed.

Lemma status_flags_range s : 0 <= status_flags s <= 31.
Proof.
  unfold status_flags, bool_bit.
  destruct (s_accepting s), (s_runtime_started s), (s_runtime_failed s), (s_drained s),
    (s_degraded s); by vm_compute.
Qed.

(** The five flags are the bits of the byte. *)
Lemma status_flags_bits s :
  s_accepting s = negb (Z.land (status_flags s) 1 =? 0) /\
  s_runtime_started s = negb (Z.land (status_flags s) 2 =? 0) /\
  s_runtime_failed s = negb (Z.land (status_flags s) 4 =? 0) /\
  s_drained s = negb (Z.land (status_flags s) 8 =? 0) /\
  s_degraded s = negb (Z.land (status_flags s) 16 =? 0) /\
  (Z.land (status_flags s) (Z.lxor u8_max 31) =? 0) = true.
Proof.
  unfold status_flags, bool_bit.
  destruct (s_accepting s), (s_runtime_started s), (s_runtime_failed s), (s_drained s),
    (s_degraded s); by vm_compute.
Qed.

(** A byte without other bits is the flags of its bits. *)
Lemma flags_rebuilt v :
  0 <= v <= u8_max -> (Z.land v (Z.lxor u8_max 31) =? 0) = true ->
  Z.lor (Z.lor (Z.lor (Z.lor (bool_bit (negb (Z.land v 1 =? 0)))
    (Z.shiftl (bool_bit (negb (Z.land v 2 =? 0))) 1))
    (Z.shiftl (bool_bit (negb (Z.land v 4 =? 0))) 2))
    (Z.shiftl (bool_bit (negb (Z.land v 8 =? 0))) 3))
    (Z.shiftl (bool_bit (negb (Z.land v 16 =? 0))) 4) = v.
Proof.
  intros Hv Hc. set (f := fun v => negb (Z.land v (Z.lxor u8_max 31) =? 0) || (
    Z.lor (Z.lor (Z.lor (Z.lor (bool_bit (negb (Z.land v 1 =? 0)))
    (Z.shiftl (bool_bit (negb (Z.land v 2 =? 0))) 1))
    (Z.shiftl (bool_bit (negb (Z.land v 4 =? 0))) 2))
    (Z.shiftl (bool_bit (negb (Z.land v 8 =? 0))) 3))
    (Z.shiftl (bool_bit (negb (Z.land v 16 =? 0))) 4) =? v)).
  assert (f v = true) as Hf.
  { assert (forallb f (seqZ 0 256) = true) as H by by vm_compute.
    rewrite forallb_forall in H. apply H. apply list_elem_of_In, elem_of_seqZ.
    unfold u8_max in Hv. lia. }
  unfold f in Hf. rewrite Hc in Hf. by apply Z.eqb_eq in Hf.
Qed.

Lemma check_Ok {E} (b : bool) (e : E) : (if b then Err e else Ok tt) = Ok tt <-> b = false.
Proof. destruct b; naive_solver. Qed.

(** A check of what was read, as a condition on the message. *)
Ltac decode_check := apply decodes_guard; [|intros _].

Section Body.
Context (reserve_vec : Z -> bool) (header_generation : GenerationId).

Definition body_ok (s : WorkerStatus) : Prop :=
  u64_ok (s_sequence s) /\ s_sequence s <> 0 /\ u64_ok (s_generation_id s) /\
  s_generation_id s = header_generation /\ generation_all wire_text u64_ok (s_generation s) /\
  optional_ok (metrics_all u64_ok) (s_metrics s) /\
  0 <= len (s_listeners s) <= u16_max /\ len (s_listeners s) <= MAX_STATUS_LISTENERS /\
  reserve_vec (len (s_listeners s)) = true /\
  Forall (listener_all wire_text u64_ok) (s_listeners s) /\
  optional_ok wire_text (s_degradation s) /\ u64_ok (s_event_cursor s) /\
  0 <= len (s_events s) <= u16_max /\ len (s_events s) <= MAX_STATUS_EVENTS /\
  reserve_vec (len (s_events s)) = true /\
  Forall (fun e => event_all wire_text u64_ok e /\ we_cursor e <> 0) (s_events s) /\
  cursors_unordered (s_events s) = false /\
  match last (s_events s) with Some e => (s_event_cursor s <? we_cursor e) = false | None => True end.


(** The events at the end of a report, from which [build] makes it. *)
Lemma decodes_events cursor (build : list WorkerEventRecord -> WorkerStatus) (I : WorkerStatus -> Prop) :
  (forall events s, I s /\ s_events s = events <-> s = build events) ->
  (forall s, I s -> s_event_cursor s = cursor) ->
  decodes
    (let! event_count := Reader_u16 in
     let! _ := check (MAX_STATUS_EVENTS <? event_count) (Status_CollectionTooLong (lit "events")) in
     let! _ := check (negb (reserve_vec event_count)) Status_Allocation in
     let! events := mrepeat (Z.to_nat event_count) decode_event in
     let! _ := check (cursors_unordered events) Status_InvalidPayload in
     let! _ := check (match last events with
                      | Some event => cursor <? we_cursor event
                      | None => false
                      end) Status_InvalidPayload in
     mret (build events))
    (fun s => be_bytes 2 (len (s_events s)) ++ (s_events s ≫= event_bytes))
    (fun s => (0 <= len (s_events s) <= u16_max /\ len (s_events s) <= MAX_STATUS_EVENTS /\
      reserve_vec (len (s_events s)) = true /\
      Forall (fun e => event_all wire_text u64_ok e /\ we_cursor e <> 0) (s_events s) /\
      cursors_unordered (s_events s) = false /\
      match last (s_events s) with Some e => (s_event_cursor s <? we_cursor e) = false | None => True end /\
      True) /\ I s).
Proof.
  intros Hb Hc.
  apply (decodes_enc _ (fun s => be_bytes 2 (len (s_events s)) ++ ((s_events s ≫= event_bytes) ++ [])));
    [intros; by rewrite app_nil_r|].
  apply (decodes_field (fun s => len (s_events s)) _ _ _ _ _ _ _ _ decodes_u16); [done|].
  intros n Hn. decode_check; [intros s [_ <-]; by rewrite check_Ok, Z.ltb_ge|].
  decode_check; [intros s [_ <-]; by rewrite check_Ok, negb_false_iff|].
  apply (decodes_field s_events _ _ _ _ _ _ _ _ (decodes_repeat _ _ _ (Z.to_nat n) decodes_event)).
  { intros s [_ <-]. unfold len. rewrite Nat2Z.id. naive_solver. }
  intros events [Hlen _]. decode_check; [intros s [_ <-]; by rewrite check_Ok|].
  decode_check.
  { intros s [[HI _] <-]. rewrite check_Ok, (Hc s HI). by destruct (last (s_events s)). }
  apply decodes_ret. intros s. rewrite <- Hb. split; [naive_solver|]. intros [HI He].
  split_and!; [done| |done]. rewrite He. unfold len. lia.
Qed.

Lemma decodes_status_body :
  decodes (decode_status_body reserve_vec header_generation) status_bytes body_ok.
Proof.
  eapply (decodes_iff _ status_bytes _ (fun s => (True /\ True /\ True /\ True /\
    u64_ok (s_sequence s) /\ s_sequence s <> 0 /\ u64_ok (s_generation_id s) /\
    s_generation_id s = header_generation /\ True /\ True /\
    generation_all wire_text u64_ok (s_generation s) /\
    optional_ok (metrics_all u64_ok) (s_metrics s) /\
    0 <= len (s_listeners s) <= u16_max /\ len (s_listeners s) <= MAX_STATUS_LISTENERS /\
    reserve_vec (len (s_listeners s)) = true /\
    Forall (listener_all wire_text u64_ok) (s_listeners s) /\
    optional_ok wire_text (s_degradation s) /\ u64_ok (s_event_cursor s) /\
    0 <= len (s_events s) <= u16_max /\ len (s_events s) <= MAX_STATUS_EVENTS /\
    reserve_vec (len (s_events s)) = true /\
    Forall (fun e => event_all wire_text u64_ok e /\ we_cursor e <> 0) (s_events s) /\
    cursors_unordered (s_events s) = false /\
    match last (s_events s) with Some e => (s_event_cursor s <? we_cursor e) = false | None => True end /\
    True) /\ True)); [|unfold body_ok; tauto|reflexivity].
  unfold decode_status_body, status_bytes.
  apply (decodes_field (fun _ => STATUS_FORMAT_VERSION) _ _ _ _ _ _ _ _ decodes_u16); [done|].
  intros v1 _. apply decodes_guard; [by intros s [_ <-]|]. intros Hv1%check_Ok%negb_false_iff%Z.eqb_eq.
  apply (decodes_field (fun _ => CONTROL_PROTOCOL_VERSION) _ _ _ _ _ _ _ _ decodes_u16); [done|].
  intros v2 _. apply decodes_guard; [by intros s [_ <-]|]. intros Hv2%check_Ok%negb_false_iff%Z.eqb_eq.
  decode_field s_sequence. decode_check.
  { intros s [_ <-]. by rewrite check_Ok, Z.eqb_neq. }
  decode_field s_generation_id. decode_check.
  { intros s [_ <-]. by rewrite check_Ok, negb_false_iff, Z.eqb_eq. }
  apply (decodes_any s_lifecycle _ _ _ _ _ _ (decodes_tag _ _ tagged_lifecycle)). intros lifecycle.
  apply (decodes_field status_flags _ _ _ _ _ _ _ _ decodes_u8).
  { intros b _. pose proof (status_flags_range b). unfold u8_max. naive_solver lia. }
  intros fl Hfl. apply decodes_guard.
  { intros b [_ <-]. destruct (status_flags_bits b) as (_ & _ & _ & _ & _ & ->). done. }
  intros Hfc%check_Ok%negb_false_iff.
  apply (decodes_any s_administrative_state _ _ _ _ _ _ (decodes_tag _ _ tagged_administrative)).
  intros administrative.
  apply (decodes_field s_generation _ _ _ _ _ _ _ _ decodes_generation); [done|]. intros generation _.
  apply (decodes_field s_metrics _ _ _ _ _ _ _ _ (decodes_optional _ _ _ decodes_metrics)); [done|].
  intros metrics _.
  apply (decodes_field (fun s => len (s_listeners s)) _ _ _ _ _ _ _ _ decodes_u16); [done|].
  intros n Hn. decode_check; [intros s [_ <-]; by rewrite check_Ok, Z.ltb_ge|].
  decode_check; [intros s [_ <-]; by rewrite check_Ok, negb_false_iff|].
  apply (decodes_field s_listeners _ _ _ _ _ _ _ _ (decodes_repeat _ _ _ (Z.to_nat n) decodes_listener)).
  { intros s [_ <-]. unfold len. rewrite Nat2Z.id. naive_solver. }
  intros listeners [Hlen _]. decode_field s_degradation. decode_field s_event_cursor.
  decode_field s_event_cursor_lost.
  apply decodes_events; [|naive_solver].
  intros events s. split.
  - intros. destruct_and!. pose proof (status_flags_bits s) as Hb. destruct_and! Hb.
    destruct s. simpl in *. congruence.
  - intros ->. unfold status_flags. cbn. rewrite flags_rebuilt by done. split_and!; try done.
    unfold len. lia.
Qed.
End Body.

(** Conditions on texts and counters split. *)
Lemma optional_split {A} (P Q R : A -> Prop) o :
  (forall a, R a <-> P a /\ Q a) -> optional_ok R o <-> optional_ok P o /\ optional_ok Q o.
Proof. intros H. destruct o; simpl; [apply H|tauto]. Qed.

Lemma Forall_split {A} (P Q R : A -> Prop) l :
  (forall a, R a <-> P a /\ Q a) -> Forall R l <-> Forall P l /\ Forall Q l.
Proof. intros H. rewrite <- Forall_and. by apply Forall_iff. Qed.

Lemma wire_text_split s : wire_text s <-> text_ok s /\ string_ok s.
Proof. unfold wire_text. tauto. Qed.
Lemma counter_split v : u64_ok v <-> u64_ok v /\ anything v.
Proof. unfold anything. tauto. Qed.

Lemma generation_split g :
  generation_all wire_text u64_ok g <->
  generation_all text_ok u64_ok g /\ generation_all string_ok anything g.
Proof.
  unfold generation_all. rewrite !(optional_split _ _ _ _ wire_text_split). unfold anything. tauto.
Qed.
Lemma event_split e :
  event_all wire_text u64_ok e <-> event_all text_ok u64_ok e /\ event_all string_ok anything e.
Proof.
  unfold event_all. rewrite !(optional_split _ _ _ _ wire_text_split), !wire_text_split.
  rewrite (optional_split _ _ _ (we_timestamp_unix_ms e) counter_split).
  assert (anything (we_cursor e)) by done. tauto.
Qed.
Lemma metrics_split m : metrics_all u64_ok m <-> metrics_all u64_ok m /\ metrics_all anything m.
Proof. unfold metrics_all, anything. tauto. Qed.
Lemma listener_split l :
  listener_all wire_text u64_ok l <-> listener_all text_ok u64_ok l /\ listener_all string_ok anything l.
Proof. unfold listener_all. rewrite !wire_text_split. unfold anything. tauto. Qed.

Lemma status_split s :
  status_all wire_text u64_ok s <-> status_all text_ok u64_ok s /\ status_all string_ok anything s.
Proof.
  unfold status_all. rewrite generation_split, (optional_split _ _ _ _ wire_text_split),
    (optional_split _ _ _ (s_metrics s) metrics_split), (Forall_split _ _ _ _ listener_split),
    (Forall_split _ _ _ _ event_split). 
  assert (forall v, anything v) as Ha by done.
  pose proof (Ha (s_sequence s)). pose proof (Ha (s_generation_id s)). pose proof (Ha (s_event_cursor s)).
  tauto.
Qed.

(** What the decoder admits: reports of the right types within the bounds, with
    events in the order of their cursors. *)
Lemma body_ok_iff reserve_vec g s :
  (forall n, reserve_vec n = true) -> len (status_bytes s) <= MAX_STATUS_BYTES ->
  body_ok reserve_vec g s <->
  s_generation_id s = g /\ status_typed s /\ status_encodable s /\ events_ordered s.
Proof.
  intros Hr Hsize.
  assert (status_encodable s <-> s_sequence s <> 0 /\ len (s_listeners s) <= MAX_STATUS_LISTENERS /\
    len (s_events s) <= MAX_STATUS_EVENTS /\ status_all string_ok anything s /\
    Forall (fun e => we_cursor e <> 0) (s_events s)) as ->.
  { split; [by intros []|]. intros. destruct_and!. by split. }
  assert (match last (s_events s) with
    | Some e => (s_event_cursor s <? we_cursor e) = false | None => True end <->
    match last (s_events s) with Some e => we_cursor e <= s_event_cursor s | None => True end) as Hlast
    by (destruct (last (s_events s)); [by rewrite Z.ltb_ge|done]).
  assert (status_typed s /\ status_all string_ok anything s <-> status_all wire_text u64_ok s) as Hs
    by (symmetry; apply status_split).
  pose proof (len_nonneg (s_listeners s)). pose proof (len_nonneg (s_events s)).
  unfold body_ok, events_ordered. rewrite !Hr, Hlast, Forall_and.
  transitivity ((s_generation_id s = g /\ status_all wire_text u64_ok s) /\ s_sequence s <> 0 /\
    len (s_listeners s) <= MAX_STATUS_LISTENERS /\ len (s_events s) <= MAX_STATUS_EVENTS /\
    Forall (fun e => we_cursor e <> 0) (s_events s) /\ cursors_unordered (s_events s) = false /\
    match last (s_events s) with Some e => we_cursor e <= s_event_cursor s | None => True end);
    [|rewrite <- Hs; tauto].
  assert (len (s_listeners s) <= MAX_STATUS_LISTENERS -> len (s_listeners s) <= u16_max)
    by (unfold MAX_STATUS_LISTENERS, u16_max; lia).
  assert (len (s_events s) <= MAX_STATUS_EVENTS -> len (s_events s) <= u16_max)
    by (unfold MAX_STATUS_EVENTS, u16_max; lia).
  unfold status_all. tauto.
Qed.

Lemma finish_Ok (c : result WorkerStatus StatusProtocolError * BoundedWireReader) s :
  (let '(r, decoder) := c in
   let? status := r in
   let? _ := Reader_finish decoder in
   Ok status) = Ok s <-> exists r, c = (Ok s, r) /\ Reader_finish r = Ok tt.
Proof.
  destruct c as [[s'|err] r]; simpl; [|split; [done|by intros (? & ? & _)]].
  destruct (Reader_finish r) as [[]|] eqn:Hf; simpl.
  - split; [intros [= ->]; eauto|by intros (r' & [= -> ->] & _)].
  - split; [done|]. intros (r' & [= -> ->] & H). congruence.
Qed.

Section Frames.
Context {Fd : Type} (reserve_vec : Z -> bool) (Hr : forall n, reserve_vec n = true).

Lemma decode_status_Ok (frame : AuthenticatedFrame Fd) s :
  len (auth_payload frame) <= usize_max ->
  decode_status reserve_vec frame = Ok s <->
  message_type (auth_header frame) = STATUS_MESSAGE /\ auth_descriptors frame = [] /\
  auth_payload frame = status_bytes s /\ s_generation_id s = generation (auth_header frame) /\
  status_typed s /\ status_encodable s /\ events_ordered s.
Proof.
  intros Hl. unfold decode_status.
  destruct (Z.eqb_spec (message_type (auth_header frame)) STATUS_MESSAGE); [|naive_solver].
  destruct (auth_descriptors frame) as [|fd fds]; [|rewrite bool_decide_eq_true_2 by done; naive_solver].
  rewrite bool_decide_eq_false_2 by naive_solver. cbn [negb].
  destruct (Z.ltb_spec MAX_STATUS_BYTES (len (auth_payload frame))) as [Hb|Hb].
  { split; [done|]. intros (_ & _ & Hp & _ & _ & [_ _ _ _ _ Hz] & _). rewrite Hp in Hb. lia. }
  pose proof (decodes_all _ _ _ (auth_payload frame) s
    (decodes_status_body reserve_vec (generation (auth_header frame))) Hl) as Hd.
  transitivity (exists r, decode_status_body reserve_vec (generation (auth_header frame))
    (Reader_new (auth_payload frame)) = (Ok s, r) /\ Reader_finish r = Ok tt).
  { apply finish_Ok. }
  rewrite Hd. split.
  - intros [Hbo Hp]. apply body_ok_iff in Hbo; [tauto|done|by rewrite <- Hp].
  - intros (_ & _ & Hp & Hbo). split; [|done]. apply body_ok_iff; [done|by rewrite <- Hp|exact Hbo].
Qed.
End Frames.

(** ** The worker's end: [WorkerControl] *)

(** [ControlProtocolError] with the failures of the layers below. *)
Inductive WorkerControlError : Type :=
| ControlFailure (e : ControlProtocolError)
| StatusFailure (e : StatusProtocolError)
| TransportFailure (e : TransportError)
| ChannelFailure (e : AuthenticatedChannelError).

Section WorkerControl.
Context {K Fd : Type} `{!Kernel K Fd}.
Context (sendmsg : bytes -> list Fd -> result Z Z) (ancillary_push : list Fd -> bool).
Context (fcntl_getfd : Fd -> result Z Z) (fcntl_setfd : Fd -> Z -> result unit Z).
Context (reserve reserve_slots : Z -> bool).

Definition worker_send (ty : MessageType) (payload : bytes) :
    M WorkerEndpoint WorkerControlError Sequence := fun w =>
  let '(r, w') := WorkerEndpoint_send sendmsg ancillary_push ty 0 payload [] w in
  (map_err TransportFailure r, w').

Definition acknowledge_raw (request_id : Z) (phase : ControlPhase) (outcome : ControlOutcome) :
    M WorkerEndpoint WorkerControlError Sequence :=
  worker_send ACK (encode_ack request_id phase outcome).

Definition acknowledge (request : ControlRequest Fd) (outcome : ControlOutcome) :
    M WorkerEndpoint WorkerControlError Sequence :=
  acknowledge_raw (request_id request) (phase request) outcome.

Definition report_status (status : WorkerStatus) : M WorkerEndpoint WorkerControlError Sequence :=
  let! payload := mlift (map_err StatusFailure (encode_status reserve status)) in
  worker_send STATUS_MESSAGE payload.

Definition report_status_raw (payload : bytes) : M WorkerEndpoint WorkerControlError Sequence :=
  worker_send STATUS_MESSAGE payload.

(** [receive]: the endpoint, then the kernel for the descriptors that came along. *)
Definition control_receive (recvmsg : result (Received Fd) Z) :
    M (WorkerEndpoint * K) WorkerControlError (ControlRequest Fd) := fun '(w, k) =>
  match WorkerEndpoint_receive fcntl_getfd fcntl_setfd recvmsg w with
  | (Err e, w') => (Err (ChannelFailure e), (w', k))
  | (Ok frame, w') =>
      let '(r, k') := decode_request reserve_slots frame k in
      (map_err ControlFailure r, (w', k'))
  end.

Definition control_try_receive (ready : result Z IoError) (recvmsg : result (Received Fd) Z) :
    M (WorkerEndpoint * K) WorkerControlError (option (ControlRequest Fd)) := fun '(w, k) =>
  match WorkerEndpoint_try_receive fcntl_getfd fcntl_setfd ready recvmsg w with
  | (Err e, w') => (Err (ChannelFailure e), (w', k))
  | (Ok None, w') => (Ok None, (w', k))
  | (Ok (Some frame), w') =>
      let '(r, k') := decode_request reserve_slots frame k in
      (result_map Some (map_err ControlFailure r), (w', k'))
  end.
End WorkerControl.

Section Delivery.
Context {Fd : Type}.
Context (sendmsg : bytes -> list Fd -> result Z Z) (ancillary_push : list Fd -> bool).
Context (fcntl_getfd : Fd -> result Z Z) (fcntl_setfd : Fd -> Z -> result unit Z).
Context (Hk : intact_kernel sendmsg ancillary_push fcntl_getfd fcntl_setfd).

(** The message a worker sends for an application payload. *)
Definition worker_message (w : WorkerEndpoint) (ty : MessageType) (pl : bytes) : Message (Fd:=Fd) :=
  mkMessage ty 0 (id_instance (we_identity w)) (id_generation (we_identity w))
    (authenticated_payload (id_protocol (we_identity w)) (we_nonce w) pl) [].

Definition endpoint_ok (w : WorkerEndpoint) : Prop :=
  identity_in_range (we_identity w) /\ len (we_nonce w) = 32 /\
  1 <= next_send_sequence (we_endpoint w) < u64_max.

Lemma worker_message_in_range w ty pl :
  endpoint_ok w -> 0 <= ty <= u16_max -> AUTH_PREFIX_SIZE + len pl <= MAX_PAYLOAD_SIZE ->
  message_in_range (worker_message w ty pl).
Proof.
  intros ((Hi & Hg & Hp) & Hn & _) Hty Hpl. unfold message_in_range.
  cbn [m_type m_flags m_instance m_generation m_payload m_descriptors worker_message].
  split_and!; try done; try lia.
  unfold authenticated_payload. rewrite !len_app, len_be_bytes, Hn. unfold AUTH_PREFIX_SIZE in Hpl. lia.
Qed.

(** What a worker sends within the bounds arrives, authenticated, as it was sent. *)
Lemma worker_send_delivered w ty pl rest peer e :
  endpoint_ok w -> 0 <= ty <= u16_max -> AUTH_PREFIX_SIZE + len pl <= MAX_PAYLOAD_SIZE ->
  let seq := next_send_sequence (we_endpoint w) in
  expected_sequence (last_received_sequence e) = Ok seq ->
  exists w' frame f,
    worker_send sendmsg ancillary_push ty pl w = (Ok seq, w') /\
    SeqpacketEndpoint_receive fcntl_getfd fcntl_setfd
      (Ok (delivered (worker_message w ty pl) seq rest peer)) e =
      (Ok frame, mkEndpoint (next_send_sequence e) (Some seq)) /\
    authenticate_frame frame (pid peer) (we_identity w) (we_nonce w) = Ok f /\
    message_type (auth_header f) = ty /\ generation (auth_header f) = id_generation (we_identity w) /\
    auth_descriptors f = [] /\ auth_payload f = pl.
Proof.
  intros Hw Hty Hpl seq He. pose proof (worker_message_in_range w ty pl Hw Hty Hpl) as Hm.
  pose proof Hw as ((_ & _ & Hp) & Hn & Hs).
  pose proof (send_in_range _ _ _ _ Hk (worker_message w ty pl) (we_endpoint w) Hm ltac:(lia)) as Hsend.
  pose (frame := mkFrame (Fd:=Fd) (header_of (worker_message w ty pl) seq)
    (authenticated_payload (id_protocol (we_identity w)) (we_nonce w) pl) [] peer).
  destruct (authenticated_pieces (id_protocol (we_identity w)) (we_nonce w) pl Hp Hn) as (H1 & H2 & H3 & H4).
  eexists _, frame, (mkAuthenticated frame). split_and!; try done.
  - unfold worker_send, WorkerEndpoint_send. unfold send_message in Hsend.
    cbn [m_type m_flags m_instance m_generation m_payload m_descriptors worker_message] in Hsend.
    by rewrite Hsend.
  - apply (receive_Ok fcntl_getfd fcntl_setfd).
    rewrite (receive_delivered _ _ _ _ Hk) by (done || unfold seq; lia). done.
  - apply authenticate_Ok. split_and!; try done. apply Z.ltb_ge in H1. exact H1.
Qed.
End Delivery.

(** ** Properties *)

(** C30: a status report is read back exactly.  When memory suffices the encoder
    accepts precisely the reports within its bounds; the decoder accepts a frame
    precisely when it is a status message without descriptors whose payload is
    the encoding of a well-formed report of the frame's generation with events
    in cursor order, and it returns that report.  So a payload has one reading
    and a report one encoding. *)
Theorem status_exact {Fd} reserve reserve_vec (frame : AuthenticatedFrame Fd) s :
  (forall n, reserve n = true) -> (forall n, reserve_vec n = true) ->
  len (auth_payload frame) <= usize_max ->
  (forall p, encode_status reserve s = Ok p <-> status_encodable s /\ p = status_bytes s) /\
  (decode_status reserve_vec frame = Ok s <->
   message_type (auth_header frame) = STATUS_MESSAGE /\ auth_descriptors frame = [] /\
   encode_status reserve s = Ok (auth_payload frame) /\
   s_generation_id s = generation (auth_header frame) /\ status_typed s /\ events_ordered s).
Proof.
  intros Hr Hv Hl.
  assert (forall p, encode_status reserve s = Ok p <-> status_encodable s /\ p = status_bytes s) as He.
  { intros p. split; [apply encode_status_Ok|]. intros [? ->]. by apply encode_status_encodable. }
  split; [exact He|]. rewrite (decode_status_Ok _ Hv) by done. rewrite He. tauto.
Qed.

(** A report reaches the master.  Over a kernel that delivers packets whole,
    a report of the worker's own generation that its encoder accepts is sent,
    since the bound of a report leaves room for the frame and its authentication,
    and the master, expecting the next frame of that worker, authenticates it and
    decodes the very report. *)
Theorem status_delivered {Fd} sendmsg push getfd setfd reserve reserve_vec w s p rest peer e :
  intact_kernel (Fd:=Fd) sendmsg push getfd setfd -> (forall n, reserve_vec n = true) ->
  endpoint_ok w -> encode_status reserve s = Ok p -> status_typed s -> events_ordered s ->
  s_generation_id s = id_generation (we_identity w) ->
  let seq := next_send_sequence (we_endpoint w) in
  expected_sequence (last_received_sequence e) = Ok seq ->
  exists w' frame f,
    report_status sendmsg push reserve s w = (Ok seq, w') /\
    SeqpacketEndpoint_receive getfd setfd
      (Ok (delivered (worker_message w STATUS_MESSAGE p) seq rest peer)) e =
      (Ok frame, mkEndpoint (next_send_sequence e) (Some seq)) /\
    authenticate_frame frame (pid peer) (we_identity w) (we_nonce w) = Ok f /\
    decode_status reserve_vec f = Ok s.
Proof.
  intros Hk Hv Hw Henc Ht Ho Hg seq He. pose proof Henc as [Hs ->]%encode_status_Ok.
  pose proof (se_size _ Hs) as Hsize.
  destruct (worker_send_delivered _ _ _ _ Hk w STATUS_MESSAGE (status_bytes s) rest peer e Hw)
    as (w' & frame & f & Hsend & Hrecv & Hauth & Hty & Hgen & Hd & Hp); [by vm_compute| |done|].
  { unfold MAX_STATUS_BYTES in Hsize. unfold AUTH_PREFIX_SIZE, MAX_PAYLOAD_SIZE, MAX_FRAME_SIZE,
      FRAME_HEADER_SIZE. lia. }
  exists w', frame, f. split_and!; try done.
  - unfold report_status, mbind_se, mlift. by rewrite Henc.
  - apply (decode_status_Ok _ Hv); [|by rewrite Hty, Hgen].
    rewrite Hp. eapply Z.le_trans; [exact Hsize|by vm_compute].
Qed.

(** *** Witnesses *)

Definition example_status : WorkerStatus := {|
  s_sequence := 5; s_generation_id := 3; s_lifecycle := WorkerLifecycle_Active;
  s_administrative_state := WorkerAdministrativeState_Ready;
  s_accepting := true; s_runtime_started := true; s_runtime_failed := false; s_drained := false;
  s_generation := mkGenerationStatus (Some (lit "r2")) None (Some (lit "r1")) None None true false None
                    2 1 0 0;
  s_metrics := Some (mkMetrics 10 1 2 3000 (2 ^ 64 - 1));
  s_listeners := [mkListenerStatus (lit "web") (lit "http") (lit "0.0.0.0:80")
                    WorkerAdministrativeState_Ready WorkerListenerState_Listening 10 1 2 3000 4000];
  s_degraded := true; s_degradation := Some (lit "slow"); s_event_cursor := 9;
  s_event_cursor_lost := false;
  s_events := [mkEventRecord 7 (Some 1000) (lit "reload") (lit "ok") None None None None None;
               mkEventRecord 9 None (lit "reload") (lit "failed") (Some (lit "r2")) None None None None] |}.

Definition example_status_frame : AuthenticatedFrame Z :=
  let pl := authenticated_payload 2 example_nonce (status_bytes example_status) in
  mkAuthenticated (mkFrame (mkHeader STATUS_MESSAGE (len pl) 0 0 4 (replicate 16 (z2b 7)) 3) pl []
    (mkPeer 41 0 0)).

Lemma example_status_typed : status_typed example_status.
Proof.
  unfold status_typed, status_all, generation_all, metrics_all, listener_all, event_all, u64_ok, text_ok.
  cbn [s_sequence s_generation_id s_generation s_metrics s_listeners s_degradation s_event_cursor
    s_events example_status optional_ok wg_disk_revision wg_candidate_revision wg_active_revision
    wg_previous_revision wg_quarantined_revision wg_last_failure wg_prepares wg_activations wg_failures
    wg_rollbacks m_accepted_connections m_rejected_connections m_active_connections m_bytes_received
    m_bytes_sent].
  repeat match goal with
  | |- _ /\ _ => split
  | |- Forall _ (_ :: _) => apply Forall_cons
  | |- Forall _ [] => apply Forall_nil_2
  | |- _ => by vm_compute
  end.
Qed.

Lemma status_exact_witness :
  decode_status (fun _ => true) example_status_frame = Ok example_status /\
  encode_status (fun _ => true) example_status = Ok (auth_payload example_status_frame).
Proof.
  assert (decode_status (fun _ => true) example_status_frame = Ok example_status) as H
    by (vm_compute; reflexivity).
  split; [exact H|].
  apply (status_exact (fun _ => true) (fun _ => true) example_status_frame example_status) in H;
    [apply H|done|done|by vm_compute].
Defined.

Definition example_worker : WorkerEndpoint :=
  mkWorkerEndpoint (mkEndpoint 2 (Some 1)) 1 example_identity example_nonce.

Lemma example_intact :
  intact_kernel (Fd:=Z) (fun pkt _ => Ok (len pkt)) (fun _ => true) (fun _ => Ok 0) (fun _ _ => Ok tt).
Proof. split; try done. intros fd. by exists 0. Qed.

Lemma example_encoded : encode_status (fun _ => true) example_status = Ok (status_bytes example_status).
Proof. vm_compute. reflexivity. Qed.

Lemma status_delivered_witness :
  exists p w' frame f,
    encode_status (fun _ => true) example_status = Ok p /\
    report_status (Fd:=Z) (fun pkt _ => Ok (len pkt)) (fun _ => true) (fun _ => true) example_status
      example_worker = (Ok 2, w') /\
    SeqpacketEndpoint_receive (fun _ : Z => Ok 0) (fun _ _ => Ok tt)
      (Ok (delivered (worker_message example_worker STATUS_MESSAGE p) 2 [] (mkPeer 41 0 0)))
      (mkEndpoint 9 (Some 1)) = (Ok frame, mkEndpoint 9 (Some 2)) /\
    authenticate_frame frame 41 example_identity example_nonce = Ok f /\
    decode_status (fun _ => true) f = Ok example_status.
Proof.
  exists (status_bytes example_status).
  destruct (status_delivered (Fd:=Z) (fun pkt _ => Ok (len pkt)) (fun _ => true) (fun _ => Ok 0)
    (fun _ _ => Ok tt) (fun _ => true) (fun _ => true) example_worker example_status
    (status_bytes example_status) [] (mkPeer 41 0 0) (mkEndpoint 9 (Some 1)) example_intact
    (fun _ => eq_refl) ltac:(by vm_compute) example_encoded example_status_typed ltac:(by vm_compute)
    eq_refl eq_refl) as (w' & frame & f & H).
  exists w', frame, f. exact (conj example_encoded H).
Defined.
