(* ===== verification/Order.v ===== *)
(** Rust's [Ord]: three-way comparison as a class with the laws of a total
    order, its derived instances (lexicographic on slices, tuples and options),
    and the sorting methods of slices.  The element types of the sources have
    no two distinct equal elements, so [sort_unstable] has one possible result
    and merge sort computes it. *)

From stdpp Require Import base list sorting sets.
From Stdlib Require Import ZArith Lia Strings.Byte.
From S2P Require Import Prelude Bytes.

Open Scope Z_scope.

Class Ord (A : Type) := cmp : A -> A -> comparison.

Class OrdLaws (A : Type) `{!Ord A} := {
  cmp_eq : forall a b : A, cmp a b = Eq <-> a = b;
  cmp_opp : forall a b : A, cmp b a = CompOpp (cmp a b);
  cmp_trans : forall a b c : A, cmp a b = Lt -> cmp b c = Lt -> cmp a c = Lt
}.

(** ** Instances *)

#[export] Instance Z_Ord : Ord Z := Z.compare.
#[export] Instance Z_OrdLaws : OrdLaws Z.
Proof.
  split; unfold cmp, Z_Ord.
  - apply Z.compare_eq_iff.
  - intros a b. by rewrite Z.compare_antisym.
  - intros a b c. rewrite !Z.compare_lt_iff. lia.
Qed.

#[export] Instance bool_Ord : Ord bool :=
  fun a b => match a, b with
             | false, true => Lt
             | true, false => Gt
             | _, _ => Eq
             end.
#[export] Instance bool_OrdLaws : OrdLaws bool.
Proof. split; [intros [] []|intros [] []|intros [] [] []]; done. Qed.

#[export] Instance byte_Ord : Ord byte := fun a b => cmp (b2z a) (b2z b).
#[export] Instance byte_OrdLaws : OrdLaws byte.
Proof.
  split; unfold cmp, byte_Ord.
  - intros a b. rewrite cmp_eq. split; [apply b2z_inj|by intros ->].
  - intros. apply cmp_opp.
  - intros a b c. apply cmp_trans.
Qed.

(** Lexicographic composition of two comparisons. *)
Definition then_with (c : comparison) (d : comparison) : comparison :=
  match c with Eq => d | _ => c end.

#[export] Instance prod_Ord {A B} `{Ord A, Ord B} : Ord (A * B) :=
  fun p q => then_with (cmp p.1 q.1) (cmp p.2 q.2).

#[export] Instance option_Ord {A} `{Ord A} : Ord (option A) :=
  fun a b => match a, b with
             | None, None => Eq
             | None, Some _ => Lt
             | Some _, None => Gt
             | Some a, Some b => cmp a b
             end.

Fixpoint list_cmp {A} `{Ord A} (l k : list A) : comparison :=
  match l, k with
  | [], [] => Eq
  | [], _ :: _ => Lt
  | _ :: _, [] => Gt
  | a :: l, b :: k => then_with (cmp a b) (list_cmp l k)
  end.
#[export] Instance list_Ord {A} `{Ord A} : Ord (list A) := list_cmp.

Lemma then_with_Lt c d : then_with c d = Lt <-> c = Lt \/ c = Eq /\ d = Lt.
Proof. destruct c; simpl; naive_solver. Qed.

Lemma then_with_Eq c d : then_with c d = Eq <-> c = Eq /\ d = Eq.
Proof. destruct c; simpl; naive_solver. Qed.

Lemma then_with_opp c d : CompOpp (then_with c d) = then_with (CompOpp c) (CompOpp d).
Proof. by destruct c. Qed.

Lemma cmp_refl {A} `{OrdLaws A} (a : A) : cmp a a = Eq.
Proof. by apply cmp_eq. Qed.

#[export] Instance prod_OrdLaws {A B} `{OrdLaws A, OrdLaws B} : OrdLaws (A * B).
Proof.
  split; unfold cmp, prod_Ord.
  - intros [] []; simpl. rewrite then_with_Eq, !cmp_eq. naive_solver.
  - intros [] []; simpl. by rewrite then_with_opp, <- !cmp_opp.
  - intros [a b] [a' b'] [a'' b'']; simpl. rewrite !then_with_Lt, !cmp_eq.
    intros [|[-> ?]] [|[? ?]]; subst; eauto using cmp_trans.
Qed.

#[export] Instance option_OrdLaws {A} `{OrdLaws A} : OrdLaws (option A).
Proof.
  split; unfold cmp, option_Ord.
  - intros [a|] [b|]; try done. rewrite cmp_eq. naive_solver.
  - intros [a|] [b|]; try done. apply cmp_opp.
  - intros [a|] [b|] [c|]; try done. apply cmp_trans.
Qed.

#[export] Instance list_OrdLaws {A} `{OrdLaws A} : OrdLaws (list A).
Proof.
  split; unfold cmp, list_Ord.
  - induction a as [|x a IH]; intros [|y b]; simpl; try done.
    rewrite then_with_Eq, cmp_eq, IH. naive_solver.
  - induction a as [|x a IH]; intros [|y b]; simpl; try done.
    by rewrite then_with_opp, <- IH, <- cmp_opp.
  - induction a as [|x a IH]; intros [|y b] [|z c]; simpl; try done.
    rewrite !then_with_Lt, !cmp_eq.
    intros [|[-> ?]] [|[? ?]]; subst; eauto using cmp_trans.
Qed.

(** A type ordered through an injective projection, as [derive(Ord)] on a struct
    orders it by the tuple of its fields. *)
Lemma proj_OrdLaws {A B} (f : A -> B) `{OrdLaws B} :
  (forall a b, f a = f b -> a = b) -> @OrdLaws A (fun a b => cmp (f a) (f b)).
Proof.
  intros Hf. split.
  - intros a b. split; [|intros ->; apply (cmp_refl (A:=B))]. intros E. by apply Hf, (cmp_eq (A:=B)).
  - intros a b. apply (cmp_opp (A:=B)).
  - intros a b c. apply (cmp_trans (A:=B)).
Qed.

(** ** Sorting *)

Definition ord_le {A} `{Ord A} (a b : A) : Prop := cmp a b <> Gt.
Definition ord_lt {A} `{Ord A} (a b : A) : Prop := cmp a b = Lt.

#[export] Instance ord_le_dec {A} `{Ord A} : RelDecision (ord_le (A:=A)).
Proof. intros a b. unfold ord_le, Decision. destruct (cmp a b); [left|left|right]; congruence. Defined.

Section Sorting.
Context {A : Type} `{OrdLaws A}.

Lemma ord_le_lt (a b : A) : ord_le a b <-> ord_lt a b \/ a = b.
Proof. unfold ord_le, ord_lt. rewrite <- cmp_eq. destruct (cmp a b); naive_solver. Qed.

Lemma ord_lt_irrefl (a : A) : ~ ord_lt a a.
Proof. unfold ord_lt. rewrite cmp_refl. done. Qed.

#[export] Instance ord_lt_trans : Transitive (ord_lt (A:=A)).
Proof. intros a b c. apply cmp_trans. Qed.

#[export] Instance ord_le_trans : Transitive (ord_le (A:=A)).
Proof.
  intros a b c. rewrite !ord_le_lt. intros [| ->] [| ->]; auto. left. by etransitivity.
Qed.

#[export] Instance ord_le_total : Total (ord_le (A:=A)).
Proof.
  intros a b. unfold ord_le. rewrite (cmp_opp a b). destruct (cmp a b); naive_solver.
Qed.

#[export] Instance ord_le_antisym : AntiSymm eq (ord_le (A:=A)).
Proof.
  intros a b. unfold ord_le. rewrite (cmp_opp a b), <- cmp_eq. destruct (cmp a b); naive_solver.
Qed.

#[export] Instance ord_le_refl : Reflexive (ord_le (A:=A)).
Proof. intros a. unfold ord_le. by rewrite cmp_refl. Qed.
End Sorting.

Lemma sorted_lookup {A} (R : relation A) l i j a b :
  StronglySorted R l -> l !! i = Some a -> l !! j = Some b -> (i < j)%nat -> R a b.
Proof.
  intros Hs. revert i j. induction Hs as [|x l Hs IH Hx]; intros [|i] [|j] Hi Hj ?; simplify_eq/=; try lia.
  - rewrite Forall_lookup in Hx. by apply (Hx j).
  - apply (IH i j); [done..|lia].
Qed.

(** [slice::sort_unstable] *)
Definition sort_unstable {A} `{Ord A} (l : list A) : list A := merge_sort ord_le l.

(** [Vec::dedup]: drops the later ones of equal neighbours. *)
Fixpoint dedup_from {A} `{EqDecision A} (x : A) (l : list A) : list A :=
  match l with
  | [] => []
  | y :: l => if decide (x = y) then dedup_from x l else y :: dedup_from y l
  end.
Definition dedup {A} `{EqDecision A} (l : list A) : list A :=
  match l with [] => [] | x :: l => x :: dedup_from x l end.

Section SortLemmas.
Context {A : Type} `{OrdLaws A}.

Lemma sort_unstable_perm (l : list A) : sort_unstable l ≡ₚ l.
Proof. apply merge_sort_Permutation. Qed.

Lemma sort_unstable_sorted (l : list A) : StronglySorted ord_le (sort_unstable l).
Proof. apply Sorted_StronglySorted; [apply _|]. apply Sorted_merge_sort, _. Qed.

(** Any way of sorting gives the same list. *)
Lemma sort_unstable_unique (l k : list A) :
  l ≡ₚ k -> StronglySorted ord_le k -> sort_unstable l = k.
Proof.
  intros Hp Hs. apply (StronglySorted_unique ord_le); [apply sort_unstable_sorted|done|].
  by rewrite sort_unstable_perm.
Qed.

Context `{!EqDecision A}.

Lemma elem_of_dedup_from (x y : A) l : y ∈ x :: dedup_from x l <-> y ∈ x :: l.
Proof.
  revert x; induction l as [|z l IH]; intros x; simpl; [done|].
  destruct (decide (x = z)) as [->|].
  - rewrite IH. set_solver.
  - rewrite elem_of_cons, IH. set_solver.
Qed.

Lemma elem_of_dedup (y : A) l : y ∈ dedup l <-> y ∈ l.
Proof. destruct l; [done|]. apply elem_of_dedup_from. Qed.

Lemma dedup_from_sorted (x : A) l :
  StronglySorted ord_le (x :: l) -> StronglySorted ord_lt (x :: dedup_from x l).
Proof.
  revert x; induction l as [|z l IH]; intros x Hs; simpl; [by repeat constructor|].
  apply StronglySorted_inv in Hs as [Hs Hx]. apply Forall_cons in Hx as [Hxz Hx].
  destruct (decide (x = z)) as [->|Hne].
  { apply IH. by constructor; [apply StronglySorted_inv in Hs as []|]. }
  apply ord_le_lt in Hxz as [Hlt|]; [|done].
  pose proof (IH z Hs) as Hd. constructor; [done|]. constructor; [done|].
  apply StronglySorted_inv in Hd as [_ Hd].
  eapply Forall_impl; [exact Hd|]. intros w ?. by etransitivity.
Qed.

(** Sorting and deduplicating gives the strictly increasing list of the
    elements. *)
Lemma dedup_sort_sorted (l : list A) : StronglySorted ord_lt (dedup (sort_unstable l)).
Proof.
  pose proof (sort_unstable_sorted l) as Hs. destruct (sort_unstable l); [constructor|].
  by apply dedup_from_sorted.
Qed.

Lemma elem_of_dedup_sort (y : A) l : y ∈ dedup (sort_unstable l) <-> y ∈ l.
Proof. by rewrite elem_of_dedup, sort_unstable_perm. Qed.
End SortLemmas.
