(* ===== verification/SupervisorStatus.v ===== *)
(** The master's view of its workers: [SupervisorSnapshotHistory] and the
    snapshot of [crates/oxiroute-supervisor-master/src/status.rs].  The
    [BTreeMap] of listeners is a [gmap] whose values are listed in key order;
    the [VecDeque] of events is a list, oldest first.

    Shows that worker events are retained once and in order, that reaping a
    worker moves its counters into the history without changing any total, and
    that the totals a snapshot reports never decrease, whatever workers report,
    restart or die. *)

From stdpp Require Import base countable strings list gmap sorting.
From Stdlib Require Import ZArith Lia.
From S2P Require Import Prelude Bytes Identity Catalog Order StatusProtocol.

Open Scope Z_scope.

#[export] Instance GenerationRole_eq_dec : EqDecision GenerationRole.
Proof. solve_decision. Defined.

Definition MAX_AGGREGATED_EVENTS : Z := 2048.

(** ** Data *)

Record AggregatedWorkerEvent : Type := mkAggregated {
  ae_cursor : Z;
  ae_instance_id : InstanceId;
  ae_generation_id : GenerationId;
  ae_worker_event : WorkerEventRecord;
}.

Record SupervisorGenerationSnapshot (R : Type) : Type := mkGenerationSnapshot {
  gs_role : GenerationRole;
  gs_instance_id : InstanceId;
  gs_generation_id : GenerationId;
  gs_revision : R;
}.
Arguments mkGenerationSnapshot {R}.

Record SupervisorProcessSnapshot : Type := mkProcessSnapshot {
  ps_role : GenerationRole;
  ps_instance_id : InstanceId;
  ps_generation_id : GenerationId;
  ps_sequence : Z;
  ps_lifecycle : WorkerLifecycle;
  ps_administrative_state : WorkerAdministrativeState;
  ps_accepting : bool;
  ps_runtime_started : bool;
  ps_runtime_failed : bool;
  ps_drained : bool;
  ps_generation : WorkerGenerationStatus;
}.

Record SupervisorListenerObservation : Type := mkObservation {
  lo_role : GenerationRole;
  lo_instance_id : InstanceId;
  lo_listener : WorkerListenerStatus;
}.

Record SupervisorListenerSnapshot : Type := mkListenerSnapshot {
  ls_name : bytes;
  ls_protocol : bytes;
  ls_bind : bytes;
  ls_administrative_state : WorkerAdministrativeState;
  ls_state : WorkerListenerState;
  ls_accepted_connections : Z;
  ls_rejected_connections : Z;
  ls_active_connections : Z;
  ls_bytes_received : Z;
  ls_bytes_sent : Z;
}.

Record SupervisorDegradation : Type := mkDegradation {
  sd_role : GenerationRole;
  sd_instance_id : InstanceId;
  sd_reason : option bytes;
}.

(** [RetainedEvent] and [SupervisorEventRecord] have the same fields. *)
Record RetainedEvent : Type := mkRetained {
  re_role : GenerationRole;
  re_event : AggregatedWorkerEvent;
}.

Record SupervisorSnapshot (R : Type) : Type := mkSnapshot {
  ss_generations : list (SupervisorGenerationSnapshot R);
  ss_processes : list SupervisorProcessSnapshot;
  ss_listener_observations : list SupervisorListenerObservation;
  ss_listeners : list SupervisorListenerSnapshot;
  ss_degraded : bool;
  ss_degradation : list SupervisorDegradation;
  ss_metrics : WorkerMetrics;
  ss_events : list RetainedEvent;
}.
Arguments mkSnapshot {R}.
Arguments ss_generations {R}.
Arguments ss_processes {R}.
Arguments ss_listener_observations {R}.
Arguments ss_listeners {R}.
Arguments ss_degraded {R}.
Arguments ss_degradation {R}.
Arguments ss_metrics {R}.
Arguments ss_events {R}.

Record SupervisorSnapshotError : Type := mkSnapshotError {
  sse_instance_id : InstanceId;
  sse_observed_role : GenerationRole;
  sse_catalog_role : option GenerationRole;
}.

Record WorkerSnapshotSource : Type := mkSource {
  src_role : GenerationRole;
  src_instance_id : InstanceId;
  src_generation_id : GenerationId;
  src_status : WorkerStatus;
}.

Abbreviation ListenerKey := (bytes * bytes * bytes)%type (only parsing).

Record SupervisorSnapshotHistory : Type := mkHistory {
  h_metrics : WorkerMetrics;
  h_listeners : gmap ListenerKey SupervisorListenerSnapshot;
  h_events : list RetainedEvent;
  h_next_event_cursor : Z;
}.

Definition zero_metrics : WorkerMetrics := mkMetrics 0 0 0 0 0.
Definition history_new : SupervisorSnapshotHistory := mkHistory zero_metrics ∅ [] 1.

(** ** Counters *)

Abbreviation sat := (saturating_add u64_max).

Definition add_cumulative_metrics (total value : WorkerMetrics) : WorkerMetrics :=
  mkMetrics (sat (m_accepted_connections total) (m_accepted_connections value))
    (sat (m_rejected_connections total) (m_rejected_connections value))
    (m_active_connections total)
    (sat (m_bytes_received total) (m_bytes_received value))
    (sat (m_bytes_sent total) (m_bytes_sent value)).

Definition add_all_metrics (total value : WorkerMetrics) : WorkerMetrics :=
  let total := add_cumulative_metrics total value in
  mkMetrics (m_accepted_connections total) (m_rejected_connections total)
    (sat (m_active_connections total) (m_active_connections value))
    (m_bytes_received total) (m_bytes_sent total).

Definition retain_monotonic_metrics (previous current : WorkerMetrics) : WorkerMetrics :=
  mkMetrics (Z.max (m_accepted_connections current) (m_accepted_connections previous))
    (Z.max (m_rejected_connections current) (m_rejected_connections previous))
    (m_active_connections current)
    (Z.max (m_bytes_received current) (m_bytes_received previous))
    (Z.max (m_bytes_sent current) (m_bytes_sent previous)).

Definition listener_key (l : WorkerListenerStatus) : ListenerKey :=
  (wl_name l, wl_protocol l, wl_bind l).

Definition listener_snapshot (l : WorkerListenerStatus) : SupervisorListenerSnapshot :=
  mkListenerSnapshot (wl_name l) (wl_protocol l) (wl_bind l) (wl_administrative_state l) (wl_state l)
    0 0 0 0 0.

Definition add_cumulative_listener (total : SupervisorListenerSnapshot) (value : WorkerListenerStatus) :
    SupervisorListenerSnapshot :=
  mkListenerSnapshot (ls_name total) (ls_protocol total) (ls_bind total)
    (ls_administrative_state total) (ls_state total)
    (sat (ls_accepted_connections total) (wl_accepted_connections value))
    (sat (ls_rejected_connections total) (wl_rejected_connections value))
    (ls_active_connections total)
    (sat (ls_bytes_received total) (wl_bytes_received value))
    (sat (ls_bytes_sent total) (wl_bytes_sent value)).

Definition with_active_connections (n : Z) (l : SupervisorListenerSnapshot) :
    SupervisorListenerSnapshot :=
  mkListenerSnapshot (ls_name l) (ls_protocol l) (ls_bind l) (ls_administrative_state l) (ls_state l)
    (ls_accepted_connections l) (ls_rejected_connections l) n (ls_bytes_received l) (ls_bytes_sent l).

Definition with_states (a : WorkerAdministrativeState) (s : WorkerListenerState)
    (l : SupervisorListenerSnapshot) : SupervisorListenerSnapshot :=
  mkListenerSnapshot (ls_name l) (ls_protocol l) (ls_bind l) a s (ls_accepted_connections l)
    (ls_rejected_connections l) (ls_active_connections l) (ls_bytes_received l) (ls_bytes_sent l).

Definition add_all_listener (total : SupervisorListenerSnapshot) (value : WorkerListenerStatus) :
    SupervisorListenerSnapshot :=
  let total := add_cumulative_listener total value in
  with_active_connections (sat (ls_active_connections total) (wl_active_connections value)) total.

Definition retain_monotonic_listener (previous current : WorkerListenerStatus) : WorkerListenerStatus :=
  mkListenerStatus (wl_name current) (wl_protocol current) (wl_bind current)
    (wl_administrative_state current) (wl_state current)
    (Z.max (wl_accepted_connections current) (wl_accepted_connections previous))
    (Z.max (wl_rejected_connections current) (wl_rejected_connections previous))
    (wl_active_connections current)
    (Z.max (wl_bytes_received current) (wl_bytes_received previous))
    (Z.max (wl_bytes_sent current) (wl_bytes_sent previous)).

Definition role_priority (role : GenerationRole) : Z :=
  match role with
  | Active => 5 | Candidate => 4 | Previous => 3 | Quarantined => 2 | RestartRequired => 1
  end.

(** ** Recording events *)

(** [while events.len() > MAX { events.pop_front(); }] *)
Definition trim_events (events : list RetainedEvent) : list RetainedEvent :=
  drop (Z.to_nat (len events - MAX_AGGREGATED_EVENTS)) events.

(** The loop over the events of a report; [break] when the cursors ran out. *)
Fixpoint record_loop (role : GenerationRole) (instance_id : InstanceId) (generation_id : GenerationId)
    (events : list WorkerEventRecord) (event_cursor : Z) (h : SupervisorSnapshotHistory) :
    Z * SupervisorSnapshotHistory :=
  match events with
  | [] => (event_cursor, h)
  | worker_event :: events =>
      if we_cursor worker_event <=? event_cursor then
        record_loop role instance_id generation_id events event_cursor h
      else
        let cursor := h_next_event_cursor h in
        if cursor =? 0 then (event_cursor, h)
        else
          let next := default 0 (checked_add u64_max cursor 1) in
          let retained := mkRetained role (mkAggregated cursor instance_id generation_id worker_event) in
          let h' := mkHistory (h_metrics h) (h_listeners h)
                      (trim_events (h_events h ++ [retained])) next in
          record_loop role instance_id generation_id events (we_cursor worker_event) h'
  end.

Definition record_events (role : GenerationRole) (instance_id : InstanceId)
    (generation_id : GenerationId) (previous_cursor : Z) (status : WorkerStatus)
    (h : SupervisorSnapshotHistory) : Z * SupervisorSnapshotHistory :=
  let '(event_cursor, h') :=
    record_loop role instance_id generation_id (s_events status) previous_cursor h in
  (Z.max event_cursor (s_event_cursor status), h').

Definition worker_events (after limit : Z) (h : SupervisorSnapshotHistory) :
    list AggregatedWorkerEvent :=
  map re_event (take (Z.to_nat (Z.min limit MAX_AGGREGATED_EVENTS))
    (filter (fun r => after < ae_cursor (re_event r)) (h_events h))).

(** ** Reaping *)

Definition reap_listener (listeners : gmap ListenerKey SupervisorListenerSnapshot)
    (l : WorkerListenerStatus) : gmap ListenerKey SupervisorListenerSnapshot :=
  let entry := default (listener_snapshot l) (listeners !! listener_key l) in
  <[listener_key l := with_active_connections 0 (add_cumulative_listener entry l)]> listeners.

Definition reap (status : option WorkerStatus) (h : SupervisorSnapshotHistory) :
    SupervisorSnapshotHistory :=
  match status with
  | None => h
  | Some status =>
      mkHistory
        (match s_metrics status with
         | Some metrics => add_cumulative_metrics (h_metrics h) metrics
         | None => h_metrics h
         end)
        (foldl reap_listener (h_listeners h) (s_listeners status))
        (h_events h) (h_next_event_cursor h)
  end.

(** ** Newer reports keep older counters *)

Fixpoint retain_listener (previous : WorkerListenerStatus) (current : list WorkerListenerStatus) :
    list WorkerListenerStatus :=
  match current with
  | [] => [previous]
  | c :: current =>
      if bool_decide (wl_name c = wl_name previous) && bool_decide (wl_protocol c = wl_protocol previous)
         && bool_decide (wl_bind c = wl_bind previous)
      then retain_monotonic_listener previous c :: current
      else c :: retain_listener previous current
  end.

Definition retain_generation (previous g : WorkerGenerationStatus) : WorkerGenerationStatus :=
  mkGenerationStatus (wg_disk_revision g) (wg_candidate_revision g) (wg_active_revision g)
    (wg_previous_revision g) (wg_quarantined_revision g) (wg_active_accepting g) (wg_degraded g)
    (wg_last_failure g)
    (Z.max (wg_prepares g) (wg_prepares previous))
    (Z.max (wg_activations g) (wg_activations previous))
    (Z.max (wg_failures g) (wg_failures previous))
    (Z.max (wg_rollbacks g) (wg_rollbacks previous)).

Definition retain_monotonic_status (previous status : WorkerStatus) : WorkerStatus :=
  mkStatus (s_sequence status) (s_generation_id status) (s_lifecycle status)
    (s_administrative_state status) (s_accepting status) (s_runtime_started status)
    (s_runtime_failed status) (s_drained status)
    (retain_generation (s_generation previous) (s_generation status))
    (match s_metrics previous, s_metrics status with
     | Some previous, Some current => Some (retain_monotonic_metrics previous current)
     | Some previous, None => Some previous
     | None, current => current
     end)
    (foldl (fun current previous => retain_listener previous current) (s_listeners status)
       (s_listeners previous))
    (s_degraded status) (s_degradation status) (s_event_cursor status) (s_event_cursor_lost status)
    (s_events status).

(** ** The snapshot *)

(** The variables of the loop over the sources. *)
Record SnapshotAcc : Type := mkAcc {
  acc_metrics : WorkerMetrics;
  acc_listeners : gmap ListenerKey SupervisorListenerSnapshot;
  acc_priorities : gmap ListenerKey Z;
  acc_processes : list SupervisorProcessSnapshot;
  acc_observations : list SupervisorListenerObservation;
  acc_degradation : list SupervisorDegradation;
}.

(** The body of the loop over a source's listeners. *)
Definition snapshot_listener (source : WorkerSnapshotSource) (acc : SnapshotAcc)
    (l : WorkerListenerStatus) : SnapshotAcc :=
  let key := listener_key l in
  let priority := role_priority (src_role source) in
  let entry := add_all_listener (default (listener_snapshot l) (acc_listeners acc !! key)) l in
  let newer := match acc_priorities acc !! key with Some current => current <? priority | None => true end in
  let observations := acc_observations acc ++
    [mkObservation (src_role source) (src_instance_id source) l] in
  if newer then
    mkAcc (acc_metrics acc)
      (<[key := with_states (wl_administrative_state l) (wl_state l) entry]> (acc_listeners acc))
      (<[key := priority]> (acc_priorities acc)) (acc_processes acc) observations (acc_degradation acc)
  else
    mkAcc (acc_metrics acc) (<[key := entry]> (acc_listeners acc)) (acc_priorities acc)
      (acc_processes acc) observations (acc_degradation acc).

Definition process_snapshot (source : WorkerSnapshotSource) : SupervisorProcessSnapshot :=
  let status := src_status source in
  mkProcessSnapshot (src_role source) (src_instance_id source) (src_generation_id source)
    (s_sequence status) (s_lifecycle status) (s_administrative_state status) (s_accepting status)
    (s_runtime_started status) (s_runtime_failed status) (s_drained status) (s_generation status).

Definition source_degradation (source : WorkerSnapshotSource) : list SupervisorDegradation :=
  let status := src_status source in
  if s_degraded status || wg_degraded (s_generation status) || s_runtime_failed status then
    [mkDegradation (src_role source) (src_instance_id source)
       (match s_degradation status with
        | Some reason => Some reason
        | None => wg_last_failure (s_generation status)
        end)]
  else [].

(** The body of the loop over the sources. *)
Definition snapshot_source (acc : SnapshotAcc) (source : WorkerSnapshotSource) : SnapshotAcc :=
  let status := src_status source in
  let acc1 := mkAcc
    (match s_metrics status with
     | Some metrics => add_all_metrics (acc_metrics acc) metrics
     | None => acc_metrics acc
     end)
    (acc_listeners acc) (acc_priorities acc) (acc_processes acc ++ [process_snapshot source])
    (acc_observations acc) (acc_degradation acc) in
  let acc2 := foldl (snapshot_listener source) acc1 (s_listeners status) in
  mkAcc (acc_metrics acc2) (acc_listeners acc2) (acc_priorities acc2) (acc_processes acc2)
    (acc_observations acc2) (acc_degradation acc2 ++ source_degradation source).

(** [BTreeMap::into_values] *)
Definition btree_values {V} (m : gmap ListenerKey V) : list V :=
  omap (fun key => m !! key) (sort_unstable (map fst (map_to_list m))).

Section Snapshot.
Context {R T : Type}.

Definition generation_snapshots (catalog : SupervisedGenerationCatalog R T) :
    list (SupervisorGenerationSnapshot R) :=
  map (fun '(role, document) =>
    mkGenerationSnapshot role (instance_id document) (generation_id document) (revision document))
    (documents catalog).

(** The role under which the catalogue holds a source's document. *)
Definition catalog_role (catalog : SupervisedGenerationCatalog R T) (source : WorkerSnapshotSource) :
    option GenerationRole :=
  fst <$> List.find (fun '(role, document) =>
    bool_decide (instance_id document = src_instance_id source) &&
    (generation_id document =? src_generation_id source)) (documents catalog).

Fixpoint check_sources (catalog : SupervisedGenerationCatalog R T) (sources : list WorkerSnapshotSource) :
    result unit SupervisorSnapshotError :=
  match sources with
  | [] => Ok tt
  | source :: sources =>
      if bool_decide (catalog_role catalog source <> Some (src_role source)) then
        Err (mkSnapshotError (src_instance_id source) (src_role source) (catalog_role catalog source))
      else check_sources catalog sources
  end.

Definition snapshot_acc (h : SupervisorSnapshotHistory) (sources : list WorkerSnapshotSource) :
    SnapshotAcc :=
  foldl snapshot_source (mkAcc (h_metrics h) (h_listeners h) ∅ [] [] []) sources.

Definition history_snapshot (h : SupervisorSnapshotHistory)
    (catalog : SupervisedGenerationCatalog R T) (sources : list WorkerSnapshotSource) :
    result (SupervisorSnapshot R) SupervisorSnapshotError :=
  let generations := generation_snapshots catalog in
  let? _ := check_sources catalog sources in
  let acc := snapshot_acc h sources in
  Ok (mkSnapshot generations (acc_processes acc) (acc_observations acc)
        (btree_values (acc_listeners acc)) (bool_decide (acc_degradation acc <> []))
        (acc_degradation acc) (acc_metrics acc) (h_events h)).
End Snapshot.

(** ** Cumulative counters *)

Inductive Counter : Type :=
| CountAccepted | CountRejected | CountReceived | CountSent.

Definition m_counter (c : Counter) (m : WorkerMetrics) : Z :=
  match c with
  | CountAccepted => m_accepted_connections m | CountRejected => m_rejected_connections m
  | CountReceived => m_bytes_received m | CountSent => m_bytes_sent m
  end.
Definition wl_counter (c : Counter) (l : WorkerListenerStatus) : Z :=
  match c with
  | CountAccepted => wl_accepted_connections l | CountRejected => wl_rejected_connections l
  | CountReceived => wl_bytes_received l | CountSent => wl_bytes_sent l
  end.
Definition ls_counter (c : Counter) (l : SupervisorListenerSnapshot) : Z :=
  match c with
  | CountAccepted => ls_accepted_connections l | CountRejected => ls_rejected_connections l
  | CountReceived => ls_bytes_received l | CountSent => ls_bytes_sent l
  end.
Definition ls_key (l : SupervisorListenerSnapshot) : ListenerKey := (ls_name l, ls_protocol l, ls_bind l).

(** A counter of a map of listeners, zero for a listener it does not have. *)
Definition map_counter (c : Counter) (key : ListenerKey)
    (m : gmap ListenerKey SupervisorListenerSnapshot) : Z :=
  match m !! key with Some l => ls_counter c l | None => 0 end.

(** What one report contributes. *)
Definition report_metric (c : Counter) (s : WorkerStatus) : Z :=
  match s_metrics s with Some m => m_counter c m | None => 0 end.
Definition sum (l : list Z) : Z := foldr Z.add 0 l.
Definition keyed (c : Counter) (key : ListenerKey) (ls : list WorkerListenerStatus) : list Z :=
  map (wl_counter c) (filter (fun l => listener_key l = key) ls).
Definition report_listener (c : Counter) (key : ListenerKey) (s : WorkerStatus) : Z :=
  sum (keyed c key (s_listeners s)).

Definition counter_ok (v : Z) : Prop := 0 <= v <= u64_max.

Lemma sum_nonneg l : Forall (fun v => 0 <= v) l -> 0 <= sum l.
Proof. induction 1; simpl; [done|]. unfold sum in *. lia. Qed.

Lemma sum_app l k : sum (l ++ k) = sum l + sum k.
Proof. unfold sum. induction l as [|x l IH]; simpl; [lia|]. rewrite IH. lia. Qed.

(** Saturating additions add up to the clamped sum. *)
Lemma sat_fold a l :
  counter_ok a -> Forall (fun v => 0 <= v) l -> foldl sat a l = Z.min u64_max (a + sum l).
Proof.
  intros Ha Hl. revert a Ha. induction Hl as [|x l Hx Hl IH]; intros a Ha; cbn [foldl].
  - unfold counter_ok in Ha. unfold sum. simpl. lia.
  - pose proof (sum_nonneg l Hl) as Hs. rewrite IH.
    + unfold saturating_add, sum in *. cbn [foldr]. lia.
    + unfold counter_ok, saturating_add in *. lia.
Qed.

Section Counters.
Context (c : Counter).

Lemma m_counter_add total v :
  m_counter c (add_cumulative_metrics total v) = sat (m_counter c total) (m_counter c v) /\
  m_counter c (add_all_metrics total v) = sat (m_counter c total) (m_counter c v).
Proof. by destruct c. Qed.

Lemma map_counter_insert key key' l m :
  map_counter c key (<[key' := l]> m) =
  if bool_decide (key' = key) then ls_counter c l else map_counter c key m.
Proof.
  unfold map_counter. case_bool_decide as Hk; [subst; by rewrite lookup_insert_eq|].
  by rewrite lookup_insert_ne.
Qed.

Lemma entry_counter l m :
  ls_counter c (add_cumulative_listener (default (listener_snapshot l) (m !! listener_key l)) l) =
  sat (map_counter c (listener_key l) m) (wl_counter c l).
Proof. unfold map_counter. destruct (m !! listener_key l); by destruct c. Qed.

Lemma reap_listener_counter key m l :
  map_counter c key (reap_listener m l) =
  if bool_decide (listener_key l = key) then sat (map_counter c key m) (wl_counter c l)
  else map_counter c key m.
Proof.
  unfold reap_listener. rewrite map_counter_insert. case_bool_decide as Hk; [|done]. subst key.
  rewrite <- entry_counter. by destruct c.
Qed.

Lemma snapshot_listener_counter src key acc l :
  map_counter c key (acc_listeners (snapshot_listener src acc l)) =
  if bool_decide (listener_key l = key) then sat (map_counter c key (acc_listeners acc)) (wl_counter c l)
  else map_counter c key (acc_listeners acc).
Proof.
  unfold snapshot_listener.
  destruct (match acc_priorities acc !! _ with Some current => _ | None => true end);
    cbn [acc_listeners]; rewrite map_counter_insert; (case_bool_decide as Hk; [|done]); subst key;
    rewrite <- entry_counter; by destruct c.
Qed.

(** Folding either over the listeners of a report adds those of the key. *)
Lemma fold_counter {A} (f : A -> WorkerListenerStatus -> A) (at_ : A -> Z) key ls a :
  (forall a l, at_ (f a l) =
     if bool_decide (listener_key l = key) then sat (at_ a) (wl_counter c l) else at_ a) ->
  at_ (foldl f a ls) = foldl sat (at_ a) (keyed c key ls).
Proof.
  intros Hf. revert a. induction ls as [|l ls IH]; intros a; cbn [foldl]; [done|].
  rewrite IH, Hf. unfold keyed. rewrite filter_cons.
  case_bool_decide as Hk; [by rewrite decide_True by done|by rewrite decide_False by done].
Qed.
End Counters.

(** ** Totals *)

(** The counters of a report are of their types and, where reports are said to be
    distinct, it lists a listener once (nothing in the code enforces that). *)
Definition report_ok (distinct : Prop) (s : WorkerStatus) : Prop :=
  status_typed s /\ (distinct -> NoDup (map listener_key (s_listeners s))).

Record history_ok (h : SupervisorSnapshotHistory) : Prop := {
  ho_metrics : forall c, counter_ok (m_counter c (h_metrics h));
  ho_listeners : forall c key, counter_ok (map_counter c key (h_listeners h));
  ho_keys : forall key l, h_listeners h !! key = Some l -> ls_key l = key;
}.

Lemma typed_metric c s : status_typed s -> counter_ok (report_metric c s).
Proof.
  intros (_ & _ & _ & Hm & _). unfold report_metric. destruct (s_metrics s) as [m|].
  - destruct Hm as (H1 & H2 & _ & H4 & H5). by destruct c.
  - unfold counter_ok, u64_max. lia.
Qed.

Lemma typed_keyed c key s : status_typed s -> Forall (fun v => 0 <= v) (keyed c key (s_listeners s)).
Proof.
  intros (_ & _ & _ & _ & Hl & _). unfold keyed. apply Forall_map, Forall_forall.
  rewrite Forall_forall in Hl.
  intros l [_ (_ & _ & _ & H1 & H2 & _ & H4 & H5)%Hl]%list_elem_of_filter.
  unfold u64_ok in *. destruct c; simpl; lia.
Qed.

Lemma report_listener_nonneg c key s : status_typed s -> 0 <= report_listener c key s.
Proof. intros Hs. by apply sum_nonneg, typed_keyed. Qed.

Lemma sat_zero a : counter_ok a -> sat a 0 = a.
Proof. unfold counter_ok, saturating_add. lia. Qed.

Lemma reap_metric c s h :
  history_ok h -> status_typed s ->
  m_counter c (h_metrics (reap (Some s) h)) =
  Z.min u64_max (m_counter c (h_metrics h) + report_metric c s).
Proof.
  intros Hh Hs. cbn. unfold report_metric. pose proof (ho_metrics _ Hh c).
  destruct (s_metrics s); [by apply m_counter_add|]. unfold counter_ok in *. lia.
Qed.

Lemma reap_counter c key s h :
  history_ok h -> status_typed s ->
  map_counter c key (h_listeners (reap (Some s) h)) =
  Z.min u64_max (map_counter c key (h_listeners h) + report_listener c key s).
Proof.
  intros Hh Hs. cbn. rewrite (fold_counter c reap_listener (map_counter c key) key)
    by (intros; apply reap_listener_counter).
  apply sat_fold; [by apply Hh|by apply typed_keyed].
Qed.

Lemma fold_keys {A} (f : A -> WorkerListenerStatus -> A)
    (m : A -> gmap ListenerKey SupervisorListenerSnapshot) ls a :
  (forall a l, exists entry, m (f a l) = <[listener_key l := entry]> (m a) /\
     (ls_key (default (listener_snapshot l) (m a !! listener_key l)) = ls_key entry)) ->
  (forall key l, m a !! key = Some l -> ls_key l = key) ->
  forall key l, m (foldl f a ls) !! key = Some l -> ls_key l = key.
Proof.
  intros Hf. revert a. induction ls as [|l ls IH]; intros a Ha; cbn [foldl]; [done|].
  apply IH. intros key l'. destruct (Hf a l) as (entry & -> & Hk). intros H.
  apply lookup_insert_Some in H as [[<- <-]|[_ H]]; [|by apply Ha].
  rewrite <- Hk. destruct (m a !! listener_key l) eqn:E; [by apply Ha|done].
Qed.

Lemma reap_history_ok s h : history_ok h -> status_typed s -> history_ok (reap (Some s) h).
Proof.
  intros Hh Hs. split.
  - intros c. rewrite reap_metric by done. pose proof (ho_metrics _ Hh c).
    pose proof (typed_metric c s Hs). unfold counter_ok in *. lia.
  - intros c key. rewrite reap_counter by done. pose proof (ho_listeners _ Hh c key).
    pose proof (report_listener_nonneg c key s Hs). unfold counter_ok in *. lia.
  - apply (fold_keys reap_listener (fun m => m)); [|apply Hh].
    intros m l. eexists. split; [reflexivity|]. done.
Qed.

(** The loop over the sources. *)
Lemma snapshot_listener_metrics src acc l :
  acc_metrics (snapshot_listener src acc l) = acc_metrics acc.
Proof. unfold snapshot_listener. by destruct (match acc_priorities acc !! _ with Some _ => _ | None => _ end). Qed.

Lemma fold_listener_metrics src acc ls :
  acc_metrics (foldl (snapshot_listener src) acc ls) = acc_metrics acc.
Proof.
  revert acc. induction ls as [|l ls IH]; intros acc; cbn [foldl]; [done|].
  by rewrite IH, snapshot_listener_metrics.
Qed.

Definition source_metric (c : Counter) (src : WorkerSnapshotSource) : Z := report_metric c (src_status src).
Definition source_listener (c : Counter) (key : ListenerKey) (src : WorkerSnapshotSource) : Z :=
  report_listener c key (src_status src).

Lemma snapshot_metric c h sources :
  history_ok h -> Forall (fun src => status_typed (src_status src)) sources ->
  m_counter c (acc_metrics (snapshot_acc h sources)) =
  Z.min u64_max (m_counter c (h_metrics h) + sum (map (source_metric c) sources)).
Proof.
  intros Hh Hs. unfold snapshot_acc.
  assert (forall acc, counter_ok (m_counter c (acc_metrics acc)) ->
    m_counter c (acc_metrics (foldl snapshot_source acc sources)) =
    Z.min u64_max (m_counter c (acc_metrics acc) + sum (map (source_metric c) sources))) as H;
    [|apply H, Hh].
  induction Hs as [|src sources Hsrc Hs IH]; intros acc Ha; cbn [foldl map].
  - unfold sum, counter_ok in *. simpl. lia.
  - pose proof (typed_metric c _ Hsrc) as Hm.
    assert (m_counter c (acc_metrics (snapshot_source acc src)) =
      Z.min u64_max (m_counter c (acc_metrics acc) + source_metric c src)) as E.
    { unfold snapshot_source. cbn [acc_metrics]. rewrite fold_listener_metrics. cbn [acc_metrics].
      unfold source_metric, report_metric in *. destruct (s_metrics (src_status src)) as [m|].
      - by apply m_counter_add.
      - unfold counter_ok in *. lia. }
    assert (0 <= sum (map (source_metric c) sources)) as Hn.
    { apply sum_nonneg, Forall_map. eapply Forall_impl; [exact Hs|]. intros s' H'.
      apply (typed_metric c) in H'. unfold counter_ok, source_metric in *. simpl. lia. }
    rewrite IH, E; unfold source_metric, counter_ok, sum in *; cbn [foldr] in *; lia.
Qed.

Lemma snapshot_counter c key h sources :
  history_ok h -> Forall (fun src => status_typed (src_status src)) sources ->
  map_counter c key (acc_listeners (snapshot_acc h sources)) =
  Z.min u64_max (map_counter c key (h_listeners h) + sum (map (source_listener c key) sources)).
Proof.
  intros Hh Hs. unfold snapshot_acc.
  assert (forall acc, counter_ok (map_counter c key (acc_listeners acc)) ->
    map_counter c key (acc_listeners (foldl snapshot_source acc sources)) =
    Z.min u64_max (map_counter c key (acc_listeners acc) + sum (map (source_listener c key) sources))) as H;
    [|apply H, Hh].
  induction Hs as [|src sources Hsrc Hs IH]; intros acc Ha; cbn [foldl map].
  - unfold sum, counter_ok in *. simpl. lia.
  - pose proof (report_listener_nonneg c key _ Hsrc) as Hm.
    assert (map_counter c key (acc_listeners (snapshot_source acc src)) =
      Z.min u64_max (map_counter c key (acc_listeners acc) + source_listener c key src)) as E.
    { unfold snapshot_source. cbn [acc_listeners].
      rewrite (fold_counter c (snapshot_listener src) (fun a => map_counter c key (acc_listeners a)) key)
        by (intros; apply snapshot_listener_counter).
      cbn [acc_listeners]. apply sat_fold; [done|by apply typed_keyed]. }
    assert (0 <= sum (map (source_listener c key) sources)) as Hn.
    { apply sum_nonneg, Forall_map. eapply Forall_impl; [exact Hs|]. intros s' H'.
      by apply (report_listener_nonneg c key). }
    rewrite IH, E; unfold source_listener, counter_ok, sum in *; cbn [foldr] in *; lia.
Qed.

(** ** Newer reports keep older counters *)

Lemma same_listener (a b : WorkerListenerStatus) :
  bool_decide (wl_name a = wl_name b) && bool_decide (wl_protocol a = wl_protocol b) &&
  bool_decide (wl_bind a = wl_bind b) = bool_decide (listener_key a = listener_key b).
Proof. unfold listener_key. repeat case_bool_decide; simpl; congruence. Qed.

Lemma keyed_cons c key l ls :
  sum (keyed c key (l :: ls)) =
  (if bool_decide (listener_key l = key) then wl_counter c l else 0) + sum (keyed c key ls).
Proof.
  unfold keyed. rewrite filter_cons.
  case_bool_decide; [by rewrite decide_True by done|by rewrite decide_False by done].
Qed.

Lemma wl_counter_retain c p l :
  wl_counter c (retain_monotonic_listener p l) = Z.max (wl_counter c l) (wl_counter c p).
Proof. by destruct c. Qed.

Lemma retain_listener_keys p ls :
  map listener_key (retain_listener p ls) =
  if decide (listener_key p ∈ map listener_key ls) then map listener_key ls
  else map listener_key ls ++ [listener_key p].
Proof.
  induction ls as [|l ls IH]; cbn [retain_listener map].
  - by rewrite decide_False by (by intros ?%elem_of_nil).
  - rewrite same_listener. case_bool_decide as Hk; cbn [map].
    + rewrite decide_True by (rewrite Hk; left). done.
    + rewrite IH. destruct (decide (listener_key p ∈ map listener_key ls)).
      * by rewrite decide_True by (by right).
      * by rewrite decide_False by (intros [?|?]%elem_of_cons; congruence).
Qed.

Lemma retain_listener_nodup p ls :
  NoDup (map listener_key ls) -> NoDup (map listener_key (retain_listener p ls)).
Proof.
  intros H. rewrite retain_listener_keys. destruct (decide _); [done|].
  apply NoDup_app. split; [done|]. split; [|apply NoDup_singleton].
  intros x Hx. rewrite list_elem_of_singleton. by intros ->.
Qed.

Section Retained.
Context (c : Counter) (key : ListenerKey).

Definition nonneg (ls : list WorkerListenerStatus) : Prop := Forall (fun l => 0 <= wl_counter c l) ls.

Lemma keyed_nonneg ls : nonneg ls -> 0 <= sum (keyed c key ls).
Proof.
  induction 1 as [|l ls Hl _ IH]; [done|]. rewrite keyed_cons. case_bool_decide; lia.
Qed.

Lemma retain_listener_nonneg p ls : 0 <= wl_counter c p -> nonneg ls -> nonneg (retain_listener p ls).
Proof.
  intros Hp. induction 1 as [|l ls Hl Hls IH]; cbn [retain_listener]; [by constructor|].
  destruct (_ && _); constructor; try done. rewrite wl_counter_retain. lia.
Qed.

(** Taking over an older listener lowers no total and reaches its counters. *)
Lemma retain_listener_counter p ls :
  0 <= wl_counter c p -> nonneg ls ->
  sum (keyed c key ls) <= sum (keyed c key (retain_listener p ls)) /\
  (listener_key p = key -> wl_counter c p <= sum (keyed c key (retain_listener p ls))).
Proof.
  intros Hp. induction 1 as [|l ls Hl Hls IH]; cbn [retain_listener].
  - rewrite keyed_cons. unfold keyed. simpl. case_bool_decide; [lia|split; [lia|done]].
  - rewrite same_listener. pose proof (keyed_nonneg ls Hls).
    case_bool_decide as Hk; rewrite !keyed_cons.
    + change (listener_key (retain_monotonic_listener p l)) with (listener_key l).
      rewrite wl_counter_retain. case_bool_decide; [lia|split; [lia|congruence]].
    + destruct IH as [IH1 IH2]. split; [lia|]. intros Hkey. specialize (IH2 Hkey).
      case_bool_decide; lia.
Qed.

Lemma retain_listeners_counter ps ls :
  nonneg ps -> nonneg ls ->
  let ls' := foldl (fun current previous => retain_listener previous current) ls ps in
  nonneg ls' /\ sum (keyed c key ls) <= sum (keyed c key ls') /\
  Forall (fun p => listener_key p = key -> wl_counter c p <= sum (keyed c key ls')) ps.
Proof.
  intros Hps. revert ls. induction Hps as [|p ps Hp Hps IH]; intros ls Hls; cbn [foldl]; [done|].
  destruct (retain_listener_counter p ls Hp Hls) as [H1 H2].
  destruct (IH (retain_listener p ls)) as (H3 & H4 & H5); [by apply retain_listener_nonneg|].
  split_and!; [done|lia|]. constructor; [|done]. intros Hk. specialize (H2 Hk). lia.
Qed.

(** A report that lists a listener once contributes that listener's counter. *)
Lemma keyed_unique ls :
  nonneg ls -> NoDup (map listener_key ls) ->
  sum (keyed c key ls) = 0 \/ exists l, l ∈ ls /\ listener_key l = key /\ sum (keyed c key ls) = wl_counter c l.
Proof.
  intros Hn. induction Hn as [|l ls Hl Hn IH]; cbn [map]; [by left|].
  intros [Hni Hnd]%NoDup_cons. rewrite keyed_cons. case_bool_decide as Hk.
  - right. exists l. split_and!; [by left|done|].
    assert (keyed c key ls = []) as ->; [|simpl; lia].
    unfold keyed. destruct (filter _ ls) as [|x k] eqn:E; [done|]. destruct Hni.
    assert (x ∈ filter (fun l => listener_key l = key) ls) as [Hkx Hx]%list_elem_of_filter
      by (rewrite E; left).
    rewrite Hk, <- Hkx. apply list_elem_of_fmap. eauto.
  - destruct (IH Hnd) as [->|(x & Hx & Hkx & ->)]; [by left|].
    right. exists x. split_and!; [by right|done|lia].
Qed.
End Retained.

Lemma typed_nonneg c s : status_typed s -> nonneg c (s_listeners s).
Proof.
  intros (_ & _ & _ & _ & Hl & _). eapply Forall_impl; [exact Hl|].
  intros l (_ & _ & _ & H1 & H2 & _ & H4 & H5). unfold u64_ok in *. destruct c; simpl; lia.
Qed.

Lemma retain_report_listener c key previous s :
  report_ok True previous -> status_typed s ->
  report_listener c key previous <= report_listener c key (retain_monotonic_status previous s).
Proof.
  intros [Hp Hnd] Hs. specialize (Hnd I). unfold report_listener. cbn [s_listeners retain_monotonic_status].
  destruct (retain_listeners_counter c key (s_listeners previous) (s_listeners s))
    as (Hn & _ & Hall); [by apply typed_nonneg..|].
  destruct (keyed_unique c key (s_listeners previous)) as [->|(l & Hl & Hk & ->)];
    [by apply typed_nonneg|done| |].
  - by apply keyed_nonneg.
  - rewrite Forall_forall in Hall. by apply Hall.
Qed.

Lemma retain_report_metric c previous s :
  status_typed previous -> status_typed s ->
  report_metric c previous <= report_metric c (retain_monotonic_status previous s).
Proof.
  intros Hp Hs. apply (typed_metric c) in Hs. unfold report_metric in *.
  cbn [s_metrics retain_monotonic_status].
  destruct (s_metrics previous) as [m|], (s_metrics s) as [m'|]; unfold counter_ok in *;
    destruct c; simpl in *; lia.
Qed.

Lemma retain_listener_typed p ls :
  listener_all text_ok u64_ok p -> Forall (listener_all text_ok u64_ok) ls ->
  Forall (listener_all text_ok u64_ok) (retain_listener p ls).
Proof.
  intros Hp. induction 1 as [|l ls Hl Hls IH]; cbn [retain_listener]; [by constructor|].
  destruct (_ && _); constructor; try done.
  unfold listener_all, u64_ok in *. cbn. destruct_and!. split_and!; try done; lia.
Qed.

Lemma retain_listeners_ok ps ls :
  Forall (listener_all text_ok u64_ok) ps -> Forall (listener_all text_ok u64_ok) ls ->
  let ls' := foldl (fun current previous => retain_listener previous current) ls ps in
  Forall (listener_all text_ok u64_ok) ls' /\ (NoDup (map listener_key ls) -> NoDup (map listener_key ls')).
Proof.
  intros Hps. revert ls. induction Hps as [|p ps Hp _ IH]; intros ls Hls; cbn [foldl]; [done|].
  destruct (IH (retain_listener p ls)) as [H1 H2]; [by apply retain_listener_typed|].
  split; [done|]. intros Hnd. by apply H2, retain_listener_nodup.
Qed.

Lemma retain_metrics_typed p m :
  metrics_all u64_ok p -> metrics_all u64_ok m -> metrics_all u64_ok (retain_monotonic_metrics p m).
Proof. unfold metrics_all, u64_ok. cbn. intros. destruct_and!. split_and!; lia. Qed.

Lemma retain_generation_typed p g :
  generation_all text_ok u64_ok p -> generation_all text_ok u64_ok g ->
  generation_all text_ok u64_ok (retain_generation p g).
Proof. unfold generation_all, u64_ok. cbn. intros. destruct_and!. split_and!; try done; lia. Qed.

Lemma retain_report_ok distinct previous s :
  report_ok distinct previous -> report_ok distinct s -> report_ok distinct (retain_monotonic_status previous s).
Proof.
  intros [Hp _] [Hs Hsn].
  destruct Hp as (_ & _ & Hg & Hm & Hl & _), Hs as (H1 & H2 & Hg' & Hm' & Hl' & H6 & H7 & H8).
  destruct (retain_listeners_ok _ _ Hl Hl') as [Hl2 Hn2]. split; [|intros Hd; exact (Hn2 (Hsn Hd))].
  split; [exact H1|]. split; [exact H2|]. split; [by apply retain_generation_typed|].
  split; [|split; [exact Hl2|by split_and!]]. cbn [s_metrics retain_monotonic_status].
  destruct (s_metrics previous), (s_metrics s); try done. by apply retain_metrics_typed.
Qed.

(** ** A fleet of workers *)

(** What the master keeps of a worker's reports. *)
Record WorkerView : Type := mkView {
  v_role : GenerationRole;
  v_instance : InstanceId;
  v_generation : GenerationId;
  v_cursor : Z;
  v_status : option WorkerStatus;
}.

Definition previous_sequence (v : WorkerView) : Z :=
  match v_status v with Some status => s_sequence status | None => 0 end.

(** A report taken by [handle_status]; [None] when it is stale. *)
Definition observe_status (v : WorkerView) (status : WorkerStatus) (h : SupervisorSnapshotHistory) :
    option (WorkerView * SupervisorSnapshotHistory) :=
  if s_sequence status <=? previous_sequence v then None
  else
    let '(event_cursor, h') :=
      record_events (v_role v) (v_instance v) (v_generation v) (v_cursor v) status h in
    let retained := match v_status v with
                    | Some previous => retain_monotonic_status previous status
                    | None => status
                    end in
    Some (mkView (v_role v) (v_instance v) (v_generation v) event_cursor (Some retained), h').

Definition view_source (v : WorkerView) : option WorkerSnapshotSource :=
  mkSource (v_role v) (v_instance v) (v_generation v) <$> v_status v.

(** Workers join, report, change role and are reaped in any order. *)
Inductive FleetOp : Type :=
| WorkerJoins (role : GenerationRole) (instance_id : InstanceId) (generation_id : GenerationId)
| WorkerReports (i : nat) (status : WorkerStatus)
| WorkerMoves (i : nat) (role : GenerationRole)
| WorkerReaped (i : nat).

Record Fleet : Type := mkFleet {
  f_workers : list WorkerView;
  f_history : SupervisorSnapshotHistory;
}.

Definition fleet_op (f : Fleet) (op : FleetOp) : Fleet :=
  match op with
  | WorkerJoins role instance_id generation_id =>
      mkFleet (f_workers f ++ [mkView role instance_id generation_id 0 None]) (f_history f)
  | WorkerReports i status =>
      match v ← f_workers f !! i; observe_status v status (f_history f) with
      | Some (v', h') => mkFleet (<[i := v']> (f_workers f)) h'
      | None => f
      end
  | WorkerMoves i role =>
      mkFleet (alter (fun v => mkView role (v_instance v) (v_generation v) (v_cursor v) (v_status v)) i
        (f_workers f)) (f_history f)
  | WorkerReaped i =>
      match f_workers f !! i with
      | Some v => mkFleet (delete i (f_workers f)) (reap (v_status v) (f_history f))
      | None => f
      end
  end.

Definition fleet_run (ops : list FleetOp) : Fleet := foldl fleet_op (mkFleet [] history_new) ops.
Definition fleet_sources (f : Fleet) : list WorkerSnapshotSource := omap view_source (f_workers f).

Definition op_report_ok (distinct : Prop) (op : FleetOp) : Prop :=
  match op with WorkerReports _ status => report_ok distinct status | _ => True end.

Definition view_ok (distinct : Prop) (v : WorkerView) : Prop :=
  match v_status v with Some s => report_ok distinct s | None => True end.

Record fleet_ok (distinct : Prop) (f : Fleet) : Prop := {
  fo_history : history_ok (f_history f);
  fo_reports : Forall (view_ok distinct) (f_workers f);
}.

(** ** Totals of a fleet *)

(** What a worker adds to a total, and a total itself. *)
Definition view_amount (amount : WorkerStatus -> Z) (v : WorkerView) : Z :=
  match v_status v with Some s => amount s | None => 0 end.
Definition fleet_amount (amount : WorkerStatus -> Z) (f : Fleet) : Z :=
  sum (map (view_amount amount) (f_workers f)).

Lemma sources_amount amount f :
  sum (map (fun src => amount (src_status src)) (fleet_sources f)) = fleet_amount amount f.
Proof.
  unfold fleet_sources, fleet_amount. induction (f_workers f) as [|v vs IH]; [done|].
  cbn [map omap list_omap foldr sum]. unfold sum in *. cbn [foldr]. rewrite <- IH.
  unfold view_source, view_amount. by destruct (v_status v).
Qed.

Lemma sum_insert (g : WorkerView -> Z) vs i v v' :
  vs !! i = Some v -> sum (map g (<[i := v']> vs)) = sum (map g vs) - g v + g v'.
Proof.
  revert i. induction vs as [|w vs IH]; intros [|i] H; cbn in H |- *; try done.
  - simplify_eq. unfold sum. lia.
  - etrans; [apply (f_equal (Z.add (g w)) (IH i H))|unfold sum; lia].
Qed.

Lemma sum_delete (g : WorkerView -> Z) vs i v :
  vs !! i = Some v -> sum (map g (delete i vs)) = sum (map g vs) - g v.
Proof.
  revert i. induction vs as [|w vs IH]; intros [|i] H; cbn in H |- *; try done.
  - simplify_eq. unfold sum. lia.
  - etrans; [apply (f_equal (Z.add (g w)) (IH i H))|unfold sum; lia].
Qed.

Lemma record_events_history role i g c s h :
  h_metrics (record_events role i g c s h).2 = h_metrics h /\
  h_listeners (record_events role i g c s h).2 = h_listeners h.
Proof.
  unfold record_events. destruct (record_loop role i g (s_events s) c h) as [c' h'] eqn:E.
  cbn. revert c h E. induction (s_events s) as [|e es IH]; intros c h E; cbn in E; [by simplify_eq|].
  destruct (_ <=? _); [by eapply IH|]. destruct (_ =? 0); [by simplify_eq|].
  by apply IH in E.
Qed.

Lemma observe_status_spec v s h v' h' :
  observe_status v s h = Some (v', h') ->
  h_metrics h' = h_metrics h /\ h_listeners h' = h_listeners h /\
  v_status v' = Some (match v_status v with
                      | Some previous => retain_monotonic_status previous s | None => s end).
Proof.
  unfold observe_status. destruct (_ <=? _); [done|].
  pose proof (record_events_history (v_role v) (v_instance v) (v_generation v) (v_cursor v) s h) as [H1 H2].
  destruct (record_events _ _ _ _ _ _) as [c1 h1]. intros [= <- <-]. done.
Qed.

Lemma history_ok_same h h' :
  h_metrics h' = h_metrics h -> h_listeners h' = h_listeners h -> history_ok h -> history_ok h'.
Proof. intros E1 E2 [H1 H2 H3]. split; rewrite ?E1, ?E2; done. Qed.

Lemma fleet_op_ok distinct op f : op_report_ok distinct op -> fleet_ok distinct f -> fleet_ok distinct (fleet_op f op).
Proof.
  intros Hop [Hh Hr]. destruct op as [role n g|i s|i role|i]; cbn [fleet_op].
  - split; [done|]. apply Forall_app. split; [done|]. by constructor.
  - destruct (f_workers f !! i) as [v|] eqn:Hv; [|done]. cbn.
    destruct (observe_status v s (f_history f)) as [[v' h']|] eqn:E; [|done].
    apply observe_status_spec in E as (E1 & E2 & E3). split; [by eapply history_ok_same|].
    apply Forall_insert; [done|]. pose proof (Forall_lookup_1 _ _ _ _ Hr Hv) as Hp.
    unfold view_ok in *. rewrite E3. cbn in Hop.
    destruct (v_status v); [by apply retain_report_ok|done].
  - split; [done|]. by apply Forall_alter.
  - destruct (f_workers f !! i) as [v|] eqn:Hv; [|done].
    pose proof (Forall_lookup_1 _ _ _ _ Hr Hv) as Hp. split; [|by apply Forall_delete].
    unfold view_ok in Hp. cbn [f_history].
    destruct (v_status v); [|done]. apply reap_history_ok; [done|apply Hp].
Qed.

(** A cumulative counter: what the history holds of it and what a report adds. *)
Class Cumulative (distinct : Prop) (held : SupervisorSnapshotHistory -> Z) (amount : WorkerStatus -> Z) : Prop := {
  amount_nonneg : forall s, status_typed s -> 0 <= amount s;
  amount_retained : forall previous s, report_ok distinct previous -> report_ok distinct s ->
    amount previous <= amount (retain_monotonic_status previous s);
  held_reaped : forall s h, history_ok h -> status_typed s ->
    held (reap (Some s) h) = Z.min u64_max (held h + amount s);
  held_same : forall h h', h_metrics h' = h_metrics h -> h_listeners h' = h_listeners h ->
    held h' = held h;
}.

#[export] Instance metric_cumulative distinct c :
  Cumulative distinct (fun h => m_counter c (h_metrics h)) (report_metric c).
Proof.
  split.
  - intros s Hs. by apply (typed_metric c).
  - intros p s Hp Hs. apply retain_report_metric; [apply Hp|apply Hs].
  - intros s h Hh Hs. by apply reap_metric.
  - by intros h h' -> _.
Qed.

#[export] Instance listener_cumulative c key :
  Cumulative True (fun h => map_counter c key (h_listeners h)) (report_listener c key).
Proof.
  split.
  - intros s Hs. by apply report_listener_nonneg.
  - intros p s Hp Hs. apply retain_report_listener; [apply Hp|apply Hs].
  - intros s h Hh Hs. by apply reap_counter.
  - by intros h h' _ ->.
Qed.

Section Amounts.
Context (distinct : Prop) (held : SupervisorSnapshotHistory -> Z) (amount : WorkerStatus -> Z)
  `{Hc : !Cumulative distinct held amount}.

Definition fleet_total (f : Fleet) : Z := Z.min u64_max (held (f_history f) + fleet_amount amount f).

Lemma fleet_amount_nonneg vs : Forall (view_ok distinct) vs -> 0 <= sum (map (view_amount amount) vs).
Proof.
  intros H. apply sum_nonneg, Forall_map. eapply Forall_impl; [exact H|]. intros v Hv.
  unfold view_ok in Hv. cbn. unfold view_amount. destruct (v_status v); [apply amount_nonneg, Hv|done].
Qed.

(** No operation lowers a total, and reaping leaves it as it is. *)
Lemma fleet_op_total op f :
  op_report_ok distinct op -> fleet_ok distinct f ->
  fleet_total f <= fleet_total (fleet_op f op) /\
  forall i, op = WorkerReaped i -> fleet_total (fleet_op f op) = fleet_total f.
Proof.
  intros Hop [Hh Hr]. unfold fleet_total, fleet_amount.
  destruct op as [role n g|i s|i role|i]; cbn [fleet_op].
  - cbn. rewrite map_app, sum_app. cbn. split; [|done]. change (view_amount amount _) with 0. lia.
  - split; [|done]. destruct (f_workers f !! i) as [v|] eqn:Hv; [|done]. cbn.
    destruct (observe_status v s (f_history f)) as [[v' h']|] eqn:E; [|done].
    apply observe_status_spec in E as (E1 & E2 & E3). cbn. rewrite (held_same (distinct:=distinct) (held:=held) (amount:=amount) _ _ E1 E2).
    rewrite (sum_insert _ _ _ _ _ Hv). pose proof (Forall_lookup_1 _ _ _ _ Hr Hv) as Hp.
    unfold view_amount, view_ok in *. rewrite E3. cbn in Hop. destruct (v_status v) as [p|].
    + pose proof (amount_retained p s Hp Hop). lia.
    + destruct Hop as [Hs _]. pose proof (amount_nonneg s Hs). lia.
  - split; [|done]. cbn. apply Z.eq_le_incl. do 3 f_equal.
    clear. revert i. induction (f_workers f) as [|w vs IH]; intros [|i]; try done.
    cbn. f_equal. by apply IH.
  - destruct (f_workers f !! i) as [v|] eqn:Hv; [|done]. cbn.
    rewrite (sum_delete _ _ _ _ Hv). pose proof (Forall_lookup_1 _ _ _ _ Hr Hv) as Hp.
    pose proof (fleet_amount_nonneg _ (Forall_delete _ _ i Hr)) as Hn.
    rewrite (sum_delete _ _ _ _ Hv) in Hn. unfold view_ok in Hp.
    assert (view_amount amount v = match v_status v with Some s => amount s | None => 0 end) as Ha
      by done.
    destruct (v_status v) as [p|]; rewrite Ha in *; [|cbn [reap]; split; [lia|intros; lia]].
    rewrite (held_reaped (amount:=amount)) by (done || apply Hp). split; [lia|intros; lia].
Qed.

Lemma fleet_run_total ops f :
  Forall (op_report_ok distinct) ops -> fleet_ok distinct f -> fleet_total f <= fleet_total (foldl fleet_op f ops).
Proof.
  intros Hops. revert f. induction Hops as [|op ops Hop Hops IH]; intros f Hf; cbn [foldl]; [done|].
  destruct (fleet_op_total op f Hop Hf) as [H1 _]. specialize (IH _ (fleet_op_ok _ _ _ Hop Hf)). lia.
Qed.
End Amounts.

Lemma fleet_run_ok distinct ops f :
  Forall (op_report_ok distinct) ops -> fleet_ok distinct f -> fleet_ok distinct (foldl fleet_op f ops).
Proof.
  intros Hops. revert f. induction Hops as [|op ops Hop Hops IH]; intros f Hf; cbn [foldl]; [done|].
  by apply IH, fleet_op_ok.
Qed.

Lemma fleet_new_ok distinct : fleet_ok distinct (mkFleet [] history_new).
Proof.
  split; [|done]. split.
  - intros []; unfold counter_ok, u64_max; cbn; lia.
  - intros c key. unfold map_counter, counter_ok, u64_max. cbn. rewrite lookup_empty. lia.
  - intros key l. cbn. by rewrite lookup_empty.
Qed.

(** The two kinds of counter. *)
Definition metric_total (c : Counter) : Fleet -> Z :=
  fleet_total (fun h => m_counter c (h_metrics h)) (report_metric c).
Definition listener_total (c : Counter) (key : ListenerKey) : Fleet -> Z :=
  fleet_total (fun h => map_counter c key (h_listeners h)) (report_listener c key).

(** The totals of a snapshot are those of the fleet. *)
Lemma snapshot_total distinct f :
  fleet_ok distinct f ->
  (forall c, m_counter c (acc_metrics (snapshot_acc (f_history f) (fleet_sources f))) = metric_total c f) /\
  (forall c key, map_counter c key (acc_listeners (snapshot_acc (f_history f) (fleet_sources f))) =
     listener_total c key f).
Proof.
  intros [Hh Hr].
  assert (Forall (fun src => status_typed (src_status src)) (fleet_sources f)) as Hs.
  { unfold fleet_sources. clear Hh. induction Hr as [|v vs Hv _ IH]; cbn; [done|].
    unfold view_ok in Hv. unfold view_source at 1. destruct (v_status v); cbn; [|done].
    constructor; [apply Hv|done]. }
  unfold metric_total, listener_total, fleet_total. split.
  - intros c. rewrite snapshot_metric by done. by rewrite <- sources_amount.
  - intros c key. rewrite snapshot_counter by done. by rewrite <- sources_amount.
Qed.

(** ** The listeners of a snapshot *)

Lemma snapshot_listener_insert src acc l :
  exists entry,
    acc_listeners (snapshot_listener src acc l) = <[listener_key l := entry]> (acc_listeners acc) /\
    ls_key (default (listener_snapshot l) (acc_listeners acc !! listener_key l)) = ls_key entry.
Proof.
  unfold snapshot_listener.
  destruct (match acc_priorities acc !! _ with Some current => _ | None => true end);
    eexists; (split; [reflexivity|done]).
Qed.

Lemma snapshot_keys h sources key l :
  history_ok h -> acc_listeners (snapshot_acc h sources) !! key = Some l -> ls_key l = key.
Proof.
  intros Hh. unfold snapshot_acc.
  assert (forall acc, (forall key l, acc_listeners acc !! key = Some l -> ls_key l = key) ->
    forall key l, acc_listeners (foldl snapshot_source acc sources) !! key = Some l -> ls_key l = key)
    as H; [|apply H, Hh].
  induction sources as [|src sources IH]; intros acc Ha; cbn [foldl]; [done|].
  apply IH. unfold snapshot_source. cbn [acc_listeners].
  apply (fold_keys (snapshot_listener src) acc_listeners); [|done].
  intros a l'. apply snapshot_listener_insert.
Qed.

(** The keys a map of listeners has after the listeners of a report were added to it. *)
Lemma fold_present {A} (f : A -> WorkerListenerStatus -> A)
    (m : A -> gmap ListenerKey SupervisorListenerSnapshot) key ls a :
  (forall a l, exists entry, m (f a l) = <[listener_key l := entry]> (m a)) ->
  is_Some (m (foldl f a ls) !! key) <-> is_Some (m a !! key) \/ key ∈ map listener_key ls.
Proof.
  intros Hf. revert a. induction ls as [|l ls IH]; intros a; cbn [foldl map].
  - split; [by left|]. by intros [?|?%elem_of_nil].
  - rewrite IH. destruct (Hf a l) as [entry ->]. rewrite lookup_insert_is_Some', elem_of_cons.
    split; [intros [[->|?]|?]|intros [?|[->|?]]]; tauto.
Qed.

Definition reported (key : ListenerKey) (s : WorkerStatus) : Prop := key ∈ map listener_key (s_listeners s).

Lemma snapshot_present h sources key :
  is_Some (acc_listeners (snapshot_acc h sources) !! key) <->
  is_Some (h_listeners h !! key) \/ Exists (fun src => reported key (src_status src)) sources.
Proof.
  unfold snapshot_acc.
  assert (forall acc, is_Some (acc_listeners (foldl snapshot_source acc sources) !! key) <->
    is_Some (acc_listeners acc !! key) \/ Exists (fun src => reported key (src_status src)) sources) as H;
    [|apply H].
  induction sources as [|src sources IH]; intros acc; cbn [foldl].
  - rewrite Exists_nil. tauto.
  - rewrite IH, Exists_cons. unfold snapshot_source. cbn [acc_listeners].
    rewrite (fold_present (snapshot_listener src) acc_listeners); [cbn [acc_listeners]; unfold reported; tauto|].
    intros a l. destruct (snapshot_listener_insert src a l) as (e & H & _). by exists e.
Qed.

Definition view_reported (key : ListenerKey) (v : WorkerView) : Prop :=
  match v_status v with Some s => reported key s | None => False end.

(** A listener is known to a fleet through its history or a worker's report. *)
Definition known (key : ListenerKey) (f : Fleet) : Prop :=
  is_Some (h_listeners (f_history f) !! key) \/
  Exists (view_reported key) (f_workers f).

Lemma known_snapshot key f :
  is_Some (acc_listeners (snapshot_acc (f_history f) (fleet_sources f)) !! key) <-> known key f.
Proof.
  rewrite snapshot_present. unfold known, fleet_sources.
  enough (Exists (fun src => reported key (src_status src)) (omap view_source (f_workers f)) <->
    Exists (view_reported key) (f_workers f))
    by tauto.
  induction (f_workers f) as [|v vs IH]; cbn; [by rewrite !Exists_nil|].
  unfold view_source at 1. rewrite Exists_cons. unfold view_reported at 1. destruct (v_status v) as [s|]; cbn.
  - rewrite Exists_cons, IH. done.
  - rewrite IH. tauto.
Qed.

Lemma retain_reported key p s :
  reported key p -> reported key (retain_monotonic_status p s).
Proof.
  unfold reported. cbn [s_listeners retain_monotonic_status].
  generalize (s_listeners s) as ls. 
  assert (forall ps ls, key ∈ map listener_key ls ->
    key ∈ map listener_key (foldl (fun current previous => retain_listener previous current) ls ps)) as Hk.
  { intros ps. induction ps as [|p0 ps IH]; intros ls H; cbn [foldl]; [done|]. apply IH.
    rewrite retain_listener_keys. destruct (decide _); [done|]. apply elem_of_app. by left. }
  induction (s_listeners p) as [|p0 ps IH]; intros ls; cbn [map foldl]; [by intros ?%elem_of_nil|].
  intros [->|H]%elem_of_cons; [|by apply IH]. apply Hk.
  rewrite retain_listener_keys. destruct (decide _); [done|].
  apply elem_of_app. right. by apply list_elem_of_singleton.
Qed.

Lemma reap_known key p h :
  is_Some (h_listeners h !! key) \/ match p with Some s => reported key s | None => False end ->
  is_Some (h_listeners (reap p h) !! key).
Proof.
  destruct p as [s|]; cbn; [|by intros [?|[]]]. intros H.
  apply (fold_present reap_listener (fun m => m)); [|done]. intros m l. by eexists.
Qed.

Lemma known_held key op f :
  is_Some (h_listeners (f_history f) !! key) -> is_Some (h_listeners (f_history (fleet_op f op)) !! key).
Proof.
  intros H. destruct op as [role n g|i s|i role|i]; cbn [fleet_op]; try done.
  - destruct (f_workers f !! i) as [v|]; [|done]. cbn.
    destruct (observe_status v s (f_history f)) as [[v' h']|] eqn:E; [|done].
    apply observe_status_spec in E as (_ & E2 & _). cbn. by rewrite E2.
  - destruct (f_workers f !! i) as [v|]; [|done]. apply reap_known. by left.
Qed.

Lemma known_worker key vs (j : nat) w :
  vs !! j = Some w -> view_reported key w -> Exists (view_reported key) vs.
Proof. intros ?%list_elem_of_lookup_2 ?. apply Exists_exists. eauto. Qed.

Lemma known_reported key op f (j : nat) w :
  f_workers f !! j = Some w -> view_reported key w -> known key (fleet_op f op).
Proof.
  intros Hj Hw. unfold known. destruct op as [role n g|i s|i role|i]; cbn [fleet_op].
  - right. apply Exists_app. left. by eapply known_worker.
  - right. destruct (f_workers f !! i) as [v|] eqn:Hv; [|exact (known_worker key _ j w Hj Hw)]. cbn.
    destruct (observe_status v s (f_history f)) as [[v' h']|] eqn:E; [|exact (known_worker key _ j w Hj Hw)].
    apply observe_status_spec in E as (_ & _ & E3). cbn. destruct (decide (i = j)) as [->|Hne].
    + simplify_eq. apply (known_worker key _ j v').
      { apply list_lookup_insert_eq. by eapply lookup_lt_Some. }
      unfold view_reported in *. rewrite E3. destruct (v_status w); [by apply retain_reported|done].
    + apply (known_worker key _ j w); [by rewrite list_lookup_insert_ne|done].
  - right. cbn. destruct (decide (i = j)) as [->|Hne].
    + eapply (known_worker key _ j); [by rewrite list_lookup_alter_eq, Hj|done].
    + apply (known_worker key _ j w); [by rewrite list_lookup_alter_ne|done].
  - destruct (f_workers f !! i) as [v|] eqn:Hv; [|right; exact (known_worker key _ j w Hj Hw)]. cbn.
    destruct (decide (i = j)) as [->|Hne].
    + left. simplify_eq. apply reap_known. by right.
    + right. destruct (decide (i < j)%nat).
      * apply (known_worker key _ (pred j) w); [|done]. rewrite list_lookup_delete_ge by lia.
        by replace (S (pred j)) with j by lia.
      * apply (known_worker key _ j w); [|done]. by rewrite list_lookup_delete_lt by lia.
Qed.

Lemma known_op key op f : known key f -> known key (fleet_op f op).
Proof.
  intros [Hh|(w & [j Hj]%list_elem_of_lookup & Hw)%Exists_exists].
  - left. by apply known_held.
  - by eapply known_reported.
Qed.

Lemma known_run key ops f : known key f -> known key (foldl fleet_op f ops).
Proof. revert f. induction ops as [|op ops IH]; intros f H; cbn [foldl]; [done|]. by apply IH, known_op. Qed.

Lemma elem_of_btree_values {V} (m : gmap ListenerKey V) v :
  v ∈ btree_values m <-> exists key, m !! key = Some v.
Proof.
  unfold btree_values. rewrite list_elem_of_omap. split.
  - intros (key & _ & H). eauto.
  - intros (key & H). exists key. split; [|done]. rewrite sort_unstable_perm.
    apply list_elem_of_fmap. exists (key, v). split; [done|]. by apply elem_of_map_to_list.
Qed.

Definition fleet_snapshot {R T} (f : Fleet) (catalog : SupervisedGenerationCatalog R T) :
    result (SupervisorSnapshot R) SupervisorSnapshotError :=
  history_snapshot (f_history f) catalog (fleet_sources f).

Lemma fleet_snapshot_Ok {R T} distinct f (catalog : SupervisedGenerationCatalog R T) snap :
  fleet_ok distinct f -> fleet_snapshot f catalog = Ok snap ->
  (forall c, m_counter c (ss_metrics snap) = metric_total c f) /\
  (forall l, l ∈ ss_listeners snap <->
     acc_listeners (snapshot_acc (f_history f) (fleet_sources f)) !! ls_key l = Some l) /\
  (forall l c, l ∈ ss_listeners snap -> ls_counter c l = listener_total c (ls_key l) f) /\
  (forall key, known key f -> exists l, l ∈ ss_listeners snap /\ ls_key l = key) /\
  (forall l, l ∈ ss_listeners snap -> known (ls_key l) f).
Proof.
  intros Hf. unfold fleet_snapshot, history_snapshot. intros H. res_inv. cbn [ss_metrics ss_listeners].
  destruct (snapshot_total _ f Hf) as [H1 H2].
  assert (forall l, l ∈ btree_values (acc_listeners (snapshot_acc (f_history f) (fleet_sources f))) <->
    acc_listeners (snapshot_acc (f_history f) (fleet_sources f)) !! ls_key l = Some l) as H3.
  { intros l. rewrite elem_of_btree_values. split; [|by eauto]. intros [key Hk].
    pose proof (snapshot_keys _ _ _ _ (fo_history _ _ Hf) Hk) as E. by rewrite E. }
  split_and!; [done|done| | |].
  - intros l c Hl. apply H3 in Hl. rewrite <- H2. unfold map_counter. by rewrite Hl.
  - intros key [l Hl]%known_snapshot. exists l.
    pose proof (snapshot_keys _ _ _ _ (fo_history _ _ Hf) Hl) as E. rewrite H3, E. done.
  - intros l Hl%H3. apply known_snapshot. eauto.
Qed.

(** What the codec guarantees of reports, and what it does not: that a report
    names a listener once. *)
Definition op_typed (op : FleetOp) : Prop :=
  match op with WorkerReports _ status => status_typed status | _ => True end.
Definition op_distinct (op : FleetOp) : Prop :=
  match op with WorkerReports _ status => NoDup (map listener_key (s_listeners status)) | _ => True end.

Lemma reports_ok distinct ops : Forall op_typed ops -> (distinct -> Forall op_distinct ops) -> Forall (op_report_ok distinct) ops.
Proof.
  intros Ht Hd. apply Forall_forall. intros op Hop. pose proof (proj1 (Forall_forall _ _) Ht op Hop) as H.
  destruct op as [|i s| |]; try done. split; [done|]. intros HD. exact (proj1 (Forall_forall _ _) (Hd HD) _ Hop).
Qed.

Lemma snapshot_listeners_grow {R T} before after (catalog catalog' : SupervisedGenerationCatalog R T) snap snap' l l' :
  Forall op_typed (before ++ after) -> Forall op_distinct (before ++ after) ->
  fleet_snapshot (fleet_run before) catalog = Ok snap -> fleet_snapshot (fleet_run (before ++ after)) catalog' = Ok snap' ->
  l ∈ ss_listeners snap -> l' ∈ ss_listeners snap' -> ls_key l' = ls_key l -> forall c, ls_counter c l <= ls_counter c l'.
Proof.
  intros Ht Hd. pose proof (reports_ok True _ Ht (fun _ => Hd)) as [Hb Ha]%Forall_app. unfold fleet_run. rewrite foldl_app.
  pose proof (fleet_run_ok _ _ _ Hb (fleet_new_ok _)) as Hf. set (f := foldl fleet_op _ before) in *.
  pose proof (fleet_run_ok _ _ _ Ha Hf) as Hf'.
  intros (_ & _ & H2 & _)%(fleet_snapshot_Ok _ _ _ _ Hf) (_ & _ & H2' & _)%(fleet_snapshot_Ok _ _ _ _ Hf') Hl Hl' Hk c.
  rewrite (H2 _ c Hl), (H2' _ c Hl'), Hk. by refine (fleet_run_total _ _ _ after f Ha Hf).
Qed.

(** C29: the totals the master reports never decrease.  Whatever happens between
    two snapshots (workers join, report, restart their counters, change role or
    are reaped), each cumulative metric of the later snapshot is at least that
    of the earlier one, and each listener of the earlier snapshot is in the
    later one; its counters are at least as large if every report named each
    listener once (without that they can decrease: [repeated_listener_lowers]).
    Reaping a worker alone leaves the metrics exactly as they were. *)
Theorem snapshot_totals_grow {R T} (before after : list FleetOp)
    (catalog catalog' : SupervisedGenerationCatalog R T) snap snap' :
  Forall op_typed (before ++ after) ->
  fleet_snapshot (fleet_run before) catalog = Ok snap ->
  fleet_snapshot (fleet_run (before ++ after)) catalog' = Ok snap' ->
  (forall c, m_counter c (ss_metrics snap) <= m_counter c (ss_metrics snap')) /\
  (forall l, l ∈ ss_listeners snap ->
     exists l', l' ∈ ss_listeners snap' /\ ls_key l' = ls_key l /\
       (Forall op_distinct (before ++ after) -> forall c, ls_counter c l <= ls_counter c l')) /\
  (forall i c, after = [WorkerReaped i] -> m_counter c (ss_metrics snap') = m_counter c (ss_metrics snap)).
Proof.
  intros Ht Hs Hs'. assert (forall l l', l ∈ ss_listeners snap -> l' ∈ ss_listeners snap' -> ls_key l' = ls_key l ->
    Forall op_distinct (before ++ after) -> forall c, ls_counter c l <= ls_counter c l') as Hgrow.
  { intros. by eapply snapshot_listeners_grow. }
  pose proof (reports_ok False _ Ht (fun H => match H with end)) as [Hb Ha]%Forall_app. revert Hs Hs'. unfold fleet_run.
  rewrite foldl_app. pose proof (fleet_run_ok _ _ _ Hb (fleet_new_ok _)) as Hf.
  set (f := foldl fleet_op _ before) in *. pose proof (fleet_run_ok _ _ _ Ha Hf) as Hf'.
  intros (H1 & _ & _ & _ & H3)%(fleet_snapshot_Ok _ _ _ _ Hf) (H1' & _ & _ & H3' & _)%(fleet_snapshot_Ok _ _ _ _ Hf').
  split_and!.
  - intros c. rewrite H1, H1'. by refine (fleet_run_total _ _ _ after f Ha Hf).
  - intros l Hl. destruct (H3' (ls_key l)) as (l' & Hl' & Hk); [by apply known_run, H3|]. exists l'. eauto.
  - intros i c ->. rewrite H1, H1'. inversion Ha; subst.
    by refine (proj2 (fleet_op_total _ _ _ _ f _ Hf) i eq_refl).
Qed.

(** ** Events *)

(** An event with the identity of the worker that reported it, and the master's
    cursor of each entry of a list. *)
Definition Sighting : Type := GenerationRole * InstanceId * GenerationId * WorkerEventRecord.
Definition sight (v : WorkerView) (e : WorkerEventRecord) : Sighting :=
  (v_role v, v_instance v, v_generation v, e).
Definition retained_at (cursor : Z) (x : Sighting) : RetainedEvent :=
  let '(role, instance_id, generation_id, e) := x in
  mkRetained role (mkAggregated cursor instance_id generation_id e).
Fixpoint numbered (cursor : Z) (xs : list Sighting) : list RetainedEvent :=
  match xs with [] => [] | x :: xs => retained_at cursor x :: numbered (cursor + 1) xs end.

Lemma numbered_app n xs ys : numbered n (xs ++ ys) = numbered n xs ++ numbered (n + len xs) ys.
Proof.
  revert n. induction xs as [|x xs IH]; intros n; cbn [numbered app].
  - unfold len. cbn. by rewrite Z.add_0_r.
  - rewrite IH. cbn [app]. do 3 f_equal. unfold len. cbn [length]. lia.
Qed.

Lemma numbered_length n xs : length (numbered n xs) = length xs.
Proof. revert n. induction xs as [|x xs IH]; intros n; cbn; [done|]. by rewrite IH. Qed.

Lemma trim_app (l k : list RetainedEvent) : trim_events (trim_events l ++ k) = trim_events (l ++ k).
Proof.
  unfold trim_events, len. rewrite !length_app, length_drop.
  set (n := Z.to_nat (Z.of_nat (length l) - MAX_AGGREGATED_EVENTS)).
  assert (n <= length l)%nat by (subst n; unfold MAX_AGGREGATED_EVENTS; lia).
  rewrite <- (drop_app_le l k n) by done. rewrite drop_drop. f_equal.
  subst n. unfold MAX_AGGREGATED_EVENTS in *. lia.
Qed.

Lemma unordered_tail e es :
  cursors_unordered (e :: es) = false ->
  cursors_unordered es = false /\ Forall (fun x => we_cursor e < we_cursor x) es.
Proof.
  revert e. induction es as [|x es IH]; intros e; [done|].
  intros [H1 H2]%orb_false_iff. apply Z.leb_gt in H1. split; [done|]. constructor; [done|].
  destruct (IH x H2) as [_ H3]. eapply Forall_impl; [exact H3|]. cbn. lia.
Qed.

(** The events of a report that are newer than a cursor. *)
Definition newer (c : Z) (es : list WorkerEventRecord) : list WorkerEventRecord :=
  filter (fun e => c < we_cursor e) es.

Lemma newer_all c es : Forall (fun e => c < we_cursor e) es -> newer c es = es.
Proof.
  unfold newer. induction 1 as [|e es He _ IH]; [done|]. rewrite filter_cons_True by done. by rewrite IH.
Qed.

Section Record.
Context (v : WorkerView).

(** The loop appends the newer events, each with the next cursor. *)
Lemma record_loop_spec es c h :
  cursors_unordered es = false -> 1 <= h_next_event_cursor h ->
  h_next_event_cursor h + len (newer c es) <= u64_max ->
  exists c',
    record_loop (v_role v) (v_instance v) (v_generation v) es c h =
    (c', mkHistory (h_metrics h) (h_listeners h)
           (match newer c es with
            | [] => h_events h
            | new => trim_events (h_events h ++ numbered (h_next_event_cursor h) (map (sight v) new))
            end)
           (h_next_event_cursor h + len (newer c es))) /\
    c <= c' /\ forall b, Forall (fun e => we_cursor e <= b) es -> c' <= Z.max c b.
Proof.
  revert c h. induction es as [|e es IH]; intros c h Ho Hn Hb.
  - exists c. cbn. rewrite Z.add_0_r. split_and!; [by destruct h|lia|lia].
  - apply unordered_tail in Ho as [Ho Ha]. cbn [record_loop]. unfold newer in Hb |- *.
    rewrite filter_cons in Hb |- *. destruct (decide (c < we_cursor e)) as [Hlt|Hge].
    + assert ((we_cursor e <=? c) = false) as -> by lia.
      assert ((h_next_event_cursor h =? 0) = false) as -> by lia.
      assert (filter (fun e => c < we_cursor e) es = es) as E.
      { apply newer_all. eapply Forall_impl; [exact Ha|]. cbn. lia. }
      rewrite E in *. unfold len in Hb. cbn [length] in Hb.
      unfold checked_add. assert ((h_next_event_cursor h + 1 <=? u64_max) = true) as -> by lia.
      cbn [default]. edestruct (IH (we_cursor e)) as (c' & -> & Hc & Hm); clear IH; cbn.
      * done.
      * lia.
      * rewrite newer_all by done. unfold len. lia.
      * exists c'. rewrite newer_all by done. cbn. split_and!; [|lia|].
        -- do 2 f_equal; [|unfold len; cbn [length]; lia]. destruct es; [done|].
           by rewrite trim_app, <- app_assoc.
        -- intros b Hall. inversion Hall as [|? ? Hb1 Hb2]; subst. specialize (Hm b Hb2). lia.
    + assert ((we_cursor e <=? c) = true) as -> by lia.
      destruct (IH c h) as (c' & -> & Hc & Hm); [done..|]. exists c'. split_and!; [done|lia|].
      intros b Hall. inversion Hall as [|? ? _ Hb2]; subst. by apply Hm.
Qed.
End Record.

(** What the master has seen of a worker, and all it has seen of any event. *)
Record Mark : Type := mkMark {
  k_role : GenerationRole;
  k_instance : InstanceId;
  k_generation : GenerationId;
  k_sequence : Z;
  k_seen : Z;
}.
Record EventLog : Type := mkLog {
  log_marks : list Mark;
  log_entries : list Sighting;
}.

(** An accepted report logs its events above the worker's mark and raises the mark. *)
Definition log_report (k : Mark) (s : WorkerStatus) : option (Mark * list Sighting) :=
  if s_sequence s <=? k_sequence k then None
  else Some (mkMark (k_role k) (k_instance k) (k_generation k) (s_sequence s)
               (Z.max (k_seen k) (s_event_cursor s)),
             map (fun e => (k_role k, k_instance k, k_generation k, e)) (newer (k_seen k) (s_events s))).

Definition log_op (log : EventLog) (op : FleetOp) : EventLog :=
  match op with
  | WorkerJoins role instance_id generation_id =>
      mkLog (log_marks log ++ [mkMark role instance_id generation_id 0 0]) (log_entries log)
  | WorkerReports i status =>
      match k ← log_marks log !! i; log_report k status with
      | Some (k', news) => mkLog (<[i := k']> (log_marks log)) (log_entries log ++ news)
      | None => log
      end
  | WorkerMoves i role =>
      mkLog (alter (fun k => mkMark role (k_instance k) (k_generation k) (k_sequence k) (k_seen k)) i
        (log_marks log)) (log_entries log)
  | WorkerReaped i => mkLog (delete i (log_marks log)) (log_entries log)
  end.

Definition fleet_log (ops : list FleetOp) : list Sighting := log_entries (foldl log_op (mkLog [] []) ops).

Definition op_events_ok (op : FleetOp) : Prop :=
  match op with WorkerReports _ status => events_ordered status | _ => True end.

Definition view_mark (v : WorkerView) : Mark :=
  mkMark (v_role v) (v_instance v) (v_generation v) (previous_sequence v) (v_cursor v).

Record logged (f : Fleet) (log : EventLog) : Prop := {
  lg_marks : map view_mark (f_workers f) = log_marks log;
  lg_events : h_events (f_history f) = trim_events (numbered 1 (log_entries log));
  lg_next : h_next_event_cursor (f_history f) = 1 + len (log_entries log);
}.

Lemma ordered_below s :
  events_ordered s -> Forall (fun e => we_cursor e <= s_event_cursor s) (s_events s).
Proof.
  intros [Ho Hl]. revert Ho Hl. generalize (s_event_cursor s) as b.
  induction (s_events s) as [|e es IH]; intros b Ho Hl; [done|].
  apply unordered_tail in Ho as [Ho Ha]. destruct es as [|x es]; [by constructor|].
  specialize (IH b Ho Hl). constructor; [|done].
  inversion Ha; subst. inversion IH; subst. lia.
Qed.

(** Taking a report is logging it. *)
Lemma observe_logged v s h entries :
  events_ordered s -> h_events h = trim_events (numbered 1 entries) ->
  h_next_event_cursor h = 1 + len entries ->
  match log_report (view_mark v) s with
  | None => observe_status v s h = None
  | Some (k', news) =>
      len (entries ++ news) < u64_max ->
      exists v' h', observe_status v s h = Some (v', h') /\ view_mark v' = k' /\
        h_events h' = trim_events (numbered 1 (entries ++ news)) /\
        h_next_event_cursor h' = 1 + len (entries ++ news)
  end.
Proof.
  intros Ho He Hn. unfold log_report, observe_status. cbn [view_mark k_sequence k_seen k_role k_instance k_generation].
  destruct (_ <=? _); [done|]. intros Hlen. unfold record_events. unfold len in *.
  rewrite length_app, length_map in Hlen |- *.
  destruct (record_loop_spec v (s_events s) (v_cursor v) h) as (c' & -> & Hc & Hm).
  - apply Ho.
  - lia.
  - unfold len. lia.
  - specialize (Hm _ (ordered_below s Ho)). eexists _, _. split; [reflexivity|].
    unfold view_mark, previous_sequence. cbn. split_and!.
    + f_equal; [by destruct (v_status v)|lia].
    + fold (sight v). rewrite numbered_app, He. change (fun e => _) with (sight v).
      destruct (newer (v_cursor v) (s_events s)) as [|x xs]; [by rewrite app_nil_r|].
      rewrite trim_app, Hn. unfold len. done.
    + rewrite Hn. unfold len. lia.
Qed.

Lemma log_op_grows log op : exists news, log_entries (log_op log op) = log_entries log ++ news.
Proof.
  destruct op as [role n g|i s|i role|i]; cbn; try (exists []; by rewrite app_nil_r).
  destruct (log_marks log !! i) as [k|]; cbn; [|exists []; by rewrite app_nil_r].
  destruct (log_report k s) as [[k' news]|]; [by exists news|exists []; by rewrite app_nil_r].
Qed.

Lemma log_run_grows log ops : len (log_entries log) <= len (log_entries (foldl log_op log ops)).
Proof.
  revert log. induction ops as [|op ops IH]; intros log; cbn [foldl]; [done|].
  specialize (IH (log_op log op)). destruct (log_op_grows log op) as [news E].
  rewrite E in IH. unfold len in *. rewrite length_app in IH. lia.
Qed.

Lemma map_delete (vs : list WorkerView) i : map view_mark (delete i vs) = delete i (map view_mark vs).
Proof. revert i. induction vs as [|v vs IH]; intros [|i]; cbn; try done. f_equal. apply IH. Qed.

Lemma delete_absent {A} (l : list A) (i : nat) : l !! i = None -> delete i l = l.
Proof.
  revert i. induction l as [|x l IH]; intros [|i] H; cbn in *; try done. f_equal. by apply IH.
Qed.

Lemma reap_events p h :
  h_events (reap p h) = h_events h /\ h_next_event_cursor (reap p h) = h_next_event_cursor h.
Proof. by destruct p. Qed.

Lemma logged_op f log op :
  op_events_ok op -> logged f log -> len (log_entries (log_op log op)) < u64_max ->
  logged (fleet_op f op) (log_op log op).
Proof.
  intros Hop [Hm He Hn] Hlen. destruct op as [role n g|i s|i role|i]; cbn [fleet_op].
  - split; cbn; [|done..]. by rewrite map_app, Hm.
  - cbn in Hop, Hlen |- *. rewrite <- Hm in Hlen |- *. rewrite list_lookup_fmap in Hlen |- *.
    destruct (f_workers f !! i) as [v|]; [|done]. cbn in Hlen |- *.
    pose proof (observe_logged v s (f_history f) (log_entries log) Hop He Hn) as H.
    destruct (log_report (view_mark v) s) as [[k' news]|]; [|by rewrite H].
    destruct (H Hlen) as (v' & h' & -> & <- & He' & Hn').
    split; cbn; [|done..]. by apply list_fmap_insert.
  - split; cbn; [|done..]. rewrite <- Hm. apply list_fmap_alter. by apply Forall_true.
  - cbn. destruct (f_workers f !! i) as [v|] eqn:Hv.
    + destruct (reap_events (v_status v) (f_history f)) as [E1 E2].
      split; cbn; rewrite ?E1, ?E2; [|done..]. by rewrite map_delete, Hm.
    + split; cbn; [|done..]. rewrite <- Hm, <- map_delete. by rewrite delete_absent.
Qed.

Lemma logged_run f log ops :
  Forall op_events_ok ops -> logged f log -> len (log_entries (foldl log_op log ops)) < u64_max ->
  logged (foldl fleet_op f ops) (foldl log_op log ops).
Proof.
  intros Hops. revert f log. induction Hops as [|op ops Hop Hops IH]; intros f log Hl Hlen;
    cbn [foldl] in *; [done|]. apply IH; [|done]. apply logged_op; [done..|].
  pose proof (log_run_grows (log_op log op) ops). lia.
Qed.

Lemma numbered_drop n k xs : drop k (numbered n xs) = numbered (n + Z.of_nat k) (drop k xs).
Proof.
  revert n xs. induction k as [|k IH]; intros n xs; [by rewrite Z.add_0_r, !drop_0|].
  destruct xs as [|x xs]; [done|]. cbn [numbered drop]. rewrite IH. f_equal. lia.
Qed.

Lemma numbered_after n after xs :
  filter (fun r => after < ae_cursor (re_event r)) (numbered n xs) =
  drop (Z.to_nat (after + 1 - n)) (numbered n xs).
Proof.
  revert n. induction xs as [|[[[role i] g] e] xs IH]; intros n; cbn [numbered]; [by rewrite drop_nil|].
  rewrite filter_cons. cbn [retained_at re_event ae_cursor]. destruct (decide (after < n)) as [Hlt|Hge].
  - replace (Z.to_nat (after + 1 - n)) with 0%nat by lia. rewrite drop_0, IH.
    by replace (Z.to_nat (after + 1 - (n + 1))) with 0%nat by lia.
  - replace (Z.to_nat (after + 1 - n)) with (S (Z.to_nat (after + 1 - (n + 1)))) by lia. apply IH.
Qed.

(** C31: the events workers report are retained once, in the order seen and under
    consecutive cursors.  The reference keeps one log: a report that is not
    stale adds those of its events that are above everything the worker has
    shown before.  The master's history is the last 2048 entries of that log,
    numbered from 1 over its whole life, and a reader that asks for the events
    after a cursor gets exactly the next entries of the log, from the oldest
    retained one when it has fallen behind. *)
Theorem events_retained_once (ops : list FleetOp) (after limit : Z) :
  Forall op_events_ok ops -> len (fleet_log ops) < u64_max -> 0 <= after -> 0 <= limit ->
  let h := f_history (fleet_run ops) in
  let lost := Z.max 0 (len (fleet_log ops) - MAX_AGGREGATED_EVENTS) in
  h_events h = numbered (1 + lost) (drop (Z.to_nat lost) (fleet_log ops)) /\
  h_next_event_cursor h = 1 + len (fleet_log ops) /\
  worker_events after limit h =
    map re_event (take (Z.to_nat (Z.min limit MAX_AGGREGATED_EVENTS))
      (drop (Z.to_nat (Z.max after lost)) (numbered 1 (fleet_log ops)))).
Proof.
  intros Hops Hlen Ha Hl h lost. unfold fleet_log in *.
  destruct (logged_run (mkFleet [] history_new) (mkLog [] []) ops Hops) as [_ He Hn]; [by split|done|].
  fold (fleet_run ops) in He, Hn. fold h in He, Hn. set (log := log_entries _) in *.
  assert (h_events h = numbered (1 + lost) (drop (Z.to_nat lost) log)) as E.
  { rewrite He. unfold trim_events. rewrite numbered_drop. unfold len. rewrite numbered_length.
    unfold lost, len. f_equal; [lia|]. f_equal. lia. }
  split_and!; [done|done|]. unfold worker_events. do 2 f_equal. rewrite E, numbered_after, !numbered_drop.
  rewrite drop_drop. f_equal; [lia|]. f_equal. lia.
Qed.

(** *** Witnesses *)

(** A worker reports, loses its counters, reports again and is reaped. *)
Definition example_restart : WorkerStatus := {|
  s_sequence := 6; s_generation_id := 3; s_lifecycle := WorkerLifecycle_Draining;
  s_administrative_state := WorkerAdministrativeState_Drain;
  s_accepting := false; s_runtime_started := true; s_runtime_failed := false; s_drained := true;
  s_generation := s_generation example_status;
  s_metrics := Some (mkMetrics 4 2 0 10 0); s_listeners := []; s_degraded := false;
  s_degradation := None; s_event_cursor := 10; s_event_cursor_lost := false;
  s_events := [mkEventRecord 9 None (lit "reload") (lit "failed") None None None None None;
               mkEventRecord 10 None (lit "drain") (lit "ok") None None None None None] |}.

Definition example_before : list FleetOp :=
  [WorkerJoins Active (example_instance 3) 3; WorkerReports 0 example_status].
Definition example_after : list FleetOp :=
  [WorkerReports 0 example_restart; WorkerReports 0 example_status; WorkerReaped 0].

Lemma example_restart_typed : status_typed example_restart.
Proof.
  pose proof example_status_typed as (_ & _ & Hg & _).
  split; [by vm_compute|]. split; [by vm_compute|]. split; [exact Hg|].
  unfold metrics_all, event_all, u64_ok, text_ok.
  cbn [s_metrics s_listeners s_degradation s_event_cursor s_events example_restart optional_ok
    m_accepted_connections m_rejected_connections m_active_connections m_bytes_received m_bytes_sent].
  repeat match goal with
  | |- _ /\ _ => split
  | |- Forall _ (_ :: _) => apply Forall_cons
  | |- Forall _ [] => apply Forall_nil_2
  | |- _ => by vm_compute
  end.
Qed.

Lemma example_fleet_reports : Forall op_typed (example_before ++ example_after).
Proof.
  pose proof example_status_typed as H1. pose proof example_restart_typed as H2.
  repeat (apply Forall_cons; split; [done || exact I|]). by apply Forall_nil_2.
Qed.

Lemma example_fleet_distinct : Forall op_distinct (example_before ++ example_after).
Proof.
  repeat (apply Forall_cons; split; [exact I || apply NoDup_singleton || apply NoDup_nil_2|]). by apply Forall_nil_2.
Qed.

Lemma snapshot_totals_grow_witness :
  exists snap snap' : SupervisorSnapshot unit,
    fleet_snapshot (fleet_run example_before) (catalog_new (example_document 3)) = Ok snap /\
    fleet_snapshot (fleet_run (example_before ++ example_after)) (catalog_new (example_document 4)) =
      Ok snap' /\
    m_accepted_connections (ss_metrics snap) = 10 /\
    m_counter CountAccepted (ss_metrics snap) <= m_counter CountAccepted (ss_metrics snap') /\
    exists l l', l ∈ ss_listeners snap /\ l' ∈ ss_listeners snap' /\ ls_key l' = ls_key l /\
      ls_counter CountAccepted l <= ls_counter CountAccepted l'.
Proof.
  destruct (fleet_snapshot (fleet_run example_before) (catalog_new (example_document 3)))
    as [snap|] eqn:E; [|vm_compute in E; discriminate].
  destruct (fleet_snapshot (fleet_run (example_before ++ example_after)) (catalog_new (example_document 4)))
    as [snap'|] eqn:E'; [|vm_compute in E'; discriminate].
  destruct (snapshot_totals_grow example_before example_after _ _ snap snap' example_fleet_reports E E') as (H1 & H2 & _).
  exists snap, snap'. vm_compute in E. injection E as <-. split_and!; [done|done|done|apply H1|].
  destruct (H2 _ (list_elem_of_here _ _)) as (l' & Hl' & Hk & Hc). eexists _, l'.
  split_and!; [apply list_elem_of_here|done|done|by apply Hc, example_fleet_distinct].
Defined.

(** A report can name a listener twice; only the first of the two takes over the
    counters of an earlier report, and the total can decrease. *)
Definition with_listeners (sequence : Z) (accepted : list Z) : WorkerStatus := {|
  s_sequence := sequence; s_generation_id := 3; s_lifecycle := WorkerLifecycle_Active;
  s_administrative_state := WorkerAdministrativeState_Ready;
  s_accepting := true; s_runtime_started := true; s_runtime_failed := false; s_drained := false;
  s_generation := s_generation example_status; s_metrics := None;
  s_listeners := (fun n => mkListenerStatus (lit "web") (lit "http") (lit "0.0.0.0:80") WorkerAdministrativeState_Ready
                             WorkerListenerState_Listening n 0 0 0 0) <$> accepted;
  s_degraded := false; s_degradation := None; s_event_cursor := 0; s_event_cursor_lost := false; s_events := [] |}.

Definition accepted_total (ops : list FleetOp) : option (list Z) :=
  match fleet_snapshot (fleet_run ops) (catalog_new (example_document 3)) with
  | Ok snap => Some (ls_counter CountAccepted <$> ss_listeners snap)
  | Err _ => None
  end.

Theorem repeated_listener_lowers :
  let joins := WorkerJoins Active (example_instance 3) 3 in
  accepted_total [joins; WorkerReports 0 (with_listeners 1 [10; 20])] = Some [30] /\
  accepted_total [joins; WorkerReports 0 (with_listeners 1 [10; 20]); WorkerReports 0 (with_listeners 2 [5])] = Some [20].
Proof. by vm_compute. Qed.

Lemma events_retained_once_witness :
  map (fun r => (ae_cursor (re_event r), we_cursor (ae_worker_event (re_event r))))
    (h_events (f_history (fleet_run (example_before ++ example_after)))) = [(1, 7); (2, 9); (3, 10)] /\
  map ae_cursor (worker_events 1 10 (f_history (fleet_run (example_before ++ example_after)))) = [2; 3].
Proof.
  destruct (events_retained_once (example_before ++ example_after) 1 10) as (H1 & _ & H3).
  - repeat (apply Forall_cons; split; [by vm_compute|]). by apply Forall_nil_2.
  - by vm_compute.
  - done.
  - done.
  - rewrite H1, H3. by vm_compute.
Defined.
