(* ===== verification/Clock.v ===== *)
(** Time as the cache sees it: [std::time::Duration] and [SystemTime] as
    nanoseconds, the monotonic clock reading of [oxiroute-cache/src/clock.rs],
    and the single-precision division [Duration::div_f32] that the heuristic
    freshness uses. *)

From stdpp Require Import base list.
From Stdlib Require Import ZArith Lia.
From S2P Require Import Prelude.

Open Scope Z_scope.

(** ** Durations

    A [Duration] is [u64] seconds and a nanosecond part below 10^9. *)

Abbreviation Duration := Z (only parsing).
Definition NANOS_PER_SEC : Z := 10 ^ 9.
Definition Duration_MAX : Duration := (u64_max + 1) * NANOS_PER_SEC - 1.

Definition duration_ok (d : Duration) : Prop := 0 <= d <= Duration_MAX.

Definition from_secs (s : Z) : Duration := s * NANOS_PER_SEC.
Definition as_secs (d : Duration) : Z := d / NANOS_PER_SEC.
Definition subsec_nanos (d : Duration) : Z := d mod NANOS_PER_SEC.
Definition dur_add (a b : Duration) : Duration := saturating_add Duration_MAX a b.
Definition dur_sub (a b : Duration) : Duration := saturating_sub a b.

(** [SystemTime::duration_since(earlier).unwrap_or_default()]: zero when
    [earlier] is later. *)
Abbreviation SystemTime := Z (only parsing).
Definition duration_since_or_default (t earlier : SystemTime) : Duration := Z.max 0 (t - earlier).

(** [MonoTime]: a duration since the clock's epoch. *)
Abbreviation MonoTime := Z (only parsing).
Definition saturating_duration_since (t earlier : MonoTime) : Duration := dur_sub t earlier.

Lemma dur_add_ok a b : duration_ok a -> duration_ok b -> duration_ok (dur_add a b).
Proof. unfold duration_ok, dur_add, saturating_add. lia. Qed.

Lemma dur_sub_ok a b : duration_ok a -> 0 <= b -> duration_ok (dur_sub a b).
Proof. unfold duration_ok, dur_sub, saturating_sub. lia. Qed.

Lemma from_secs_ok s : 0 <= s <= u64_max -> duration_ok (from_secs s).
Proof. unfold duration_ok, from_secs, Duration_MAX, NANOS_PER_SEC. lia. Qed.

#[export] Hint Resolve dur_add_ok dur_sub_ok from_secs_ok : oxi.

(** ** Single precision

    A finite nonnegative [f32] is [m * 2^e]; every operation rounds the exact
    quotient to 24 significant bits, ties to even.  The values that occur, from
    10^-10 to 2^64, are far from the limits of the exponent. *)

Definition round_half_even (p q : Z) : Z :=
  let d := p / q in
  let r := p mod q in
  if 2 * r <? q then d
  else if q <? 2 * r then d + 1
  else if Z.even d then d else d + 1.

Record f32 := mkF32 { f32_m : Z; f32_e : Z }.

(** The fraction [p / q] divided by [2^e]. *)
Definition scaled (p q e : Z) : Z * Z :=
  if 0 <=? e then (p, q * 2 ^ e) else (p * 2 ^ (- e), q).

(** The exponent that leaves [p / q] 24 bits before the point. *)
Definition f32_exponent (p q : Z) : Z :=
  let e := Z.log2 p - Z.log2 q - 24 in
  let '(p', q') := scaled p q e in
  if 2 ^ 24 <=? p' / q' then e + 1 else e.

Definition round_f32 (p q : Z) : f32 :=
  if p =? 0 then mkF32 0 0
  else
    let e := f32_exponent p q in
    let '(p', q') := scaled p q e in
    mkF32 (round_half_even p' q') e.

(** The exact fraction an [f32] stands for. *)
Definition f32_num (x : f32) : Z := if 0 <=? f32_e x then f32_m x * 2 ^ f32_e x else f32_m x.
Definition f32_den (x : f32) : Z := if 0 <=? f32_e x then 1 else 2 ^ (- f32_e x).

Definition f32_of_Z (z : Z) : f32 := round_f32 z 1.
Definition f32_add (x y : f32) : f32 :=
  round_f32 (f32_num x * f32_den y + f32_num y * f32_den x) (f32_den x * f32_den y).
Definition f32_div (x y : f32) : f32 :=
  round_f32 (f32_num x * f32_den y) (f32_den x * f32_num y).

Definition as_secs_f32 (d : Duration) : f32 :=
  f32_add (f32_of_Z (as_secs d)) (f32_div (f32_of_Z (subsec_nanos d)) (f32_of_Z NANOS_PER_SEC)).

(** [Duration::from_secs_f32] rounds to the nearest nanosecond, ties to even. *)
Definition from_secs_f32 (x : f32) : Duration :=
  round_half_even (f32_num x * NANOS_PER_SEC) (f32_den x).

Definition div_f32 (d : Duration) (rhs : f32) : Duration :=
  from_secs_f32 (f32_div (as_secs_f32 d) rhs).

Lemma round_half_even_nonneg p q : 0 <= p -> 0 < q -> 0 <= round_half_even p q.
Proof.
  intros. unfold round_half_even. pose proof (Z.div_pos p q). repeat case_match; lia.
Qed.

Lemma f32_den_pos x : 0 < f32_den x.
Proof. unfold f32_den. destruct (Z.leb_spec 0 (f32_e x)); [lia|]. apply Z.pow_pos_nonneg; lia. Qed.

Lemma scaled_range p q e p' q' :
  0 <= p -> 0 < q -> scaled p q e = (p', q') -> 0 <= p' /\ 0 < q'.
Proof.
  unfold scaled. intros Hp Hq. destruct (Z.leb_spec 0 e); intros [= <- <-];
    (split; [|]); try done; try (apply Z.mul_pos_pos; [lia|apply Z.pow_pos_nonneg; lia]).
  apply Z.mul_nonneg_nonneg; [done|]. apply Z.pow_nonneg. lia.
Qed.

Lemma round_f32_nonneg p q : 0 <= p -> 0 < q -> 0 <= f32_num (round_f32 p q).
Proof.
  intros Hp Hq. unfold round_f32. destruct (Z.eqb_spec p 0) as [->|]; [done|].
  set (e := f32_exponent p q). destruct (scaled p q e) as [p' q'] eqn:E.
  apply scaled_range in E as [? ?]; [|done..].
  assert (0 <= round_half_even p' q') by by apply round_half_even_nonneg.
  unfold f32_num; simpl. destruct (Z.leb_spec 0 e); [|done].
  apply Z.mul_nonneg_nonneg; [done|]. apply Z.pow_nonneg. lia.
Qed.

Lemma f32_div_nonneg x y : 0 <= f32_num x -> 0 < f32_num y -> 0 <= f32_num (f32_div x y).
Proof.
  intros. apply round_f32_nonneg; pose proof (f32_den_pos x); pose proof (f32_den_pos y); nia.
Qed.

Lemma div_f32_nonneg d : 0 <= d -> 0 <= div_f32 d (f32_of_Z 10).
Proof.
  intros. unfold div_f32, from_secs_f32, as_secs_f32.
  assert (forall z, 0 <= z -> 0 <= f32_num (f32_of_Z z)) as Hof
    by (intros; apply round_f32_nonneg; lia).
  assert (0 <= d / NANOS_PER_SEC) by (apply Z.div_pos; [done|by vm_compute]).
  assert (0 <= d mod NANOS_PER_SEC) by (apply Z.mod_pos_bound; by vm_compute).
  apply round_half_even_nonneg; [|apply f32_den_pos].
  apply Z.mul_nonneg_nonneg; [|by vm_compute].
  apply f32_div_nonneg; [|by vm_compute].
  assert (0 <= f32_num (f32_div (f32_of_Z (subsec_nanos d)) (f32_of_Z NANOS_PER_SEC)))
    by (apply f32_div_nonneg; [by apply Hof|by vm_compute]).
  assert (0 <= f32_num (f32_of_Z (as_secs d))) by by apply Hof.
  apply round_f32_nonneg; repeat match goal with |- context [f32_den ?x] =>
    pose proof (f32_den_pos x); generalize dependent (f32_den x); intros end; nia.
Qed.

(** The documented example of [Duration::div_f32], and a tenth of ten days. *)
Lemma div_f32_examples :
  div_f32 2700000000 (round_f32 314 100) = 859872580 /\
  div_f32 (from_secs 864000) (f32_of_Z 10) = from_secs 86400.
Proof. split; vm_compute; reflexivity. Qed.
