(* ===== verification/Listeners.v ===== *)
(** What the master owns before any worker runs: its validated deadlines
    ([config.rs]) and the listeners it keeps open across replacements
    ([listeners.rs], both of [crates/oxiroute-supervisor-master/src/]).

    Shows that a configuration is accepted exactly when every deadline is
    positive and at most an hour, and that listeners are only kept when every
    original descriptor is close-on-exec and duplicates of all of them satisfy
    the manifest. *)

From stdpp Require Import base countable strings list.
From Stdlib Require Import ZArith Lia.
From S2P Require Import Prelude Bytes Clock Descriptor.

Open Scope Z_scope.

(** ** Deadlines *)

(** [Duration::from_hours(1)] *)
Definition MAX_TIMEOUT : Duration := from_secs 3600.

Record MasterConfig : Type := mkConfig {
  adoption_timeout : Duration;
  quiesce_timeout : Duration;
  activation_timeout : Duration;
  drain_timeout : Duration;
  shutdown_timeout : Duration;
}.

Inductive ConfigError : Type :=
| InvalidTimeout (phase : bytes) (maximum : Duration).

(** The loop over the named deadlines. *)
Fixpoint check_timeouts (timeouts : list (bytes * Duration)) : result unit ConfigError :=
  match timeouts with
  | [] => Ok tt
  | (phase, timeout) :: timeouts =>
      if (timeout =? 0) || (MAX_TIMEOUT <? timeout) then Err (InvalidTimeout phase MAX_TIMEOUT)
      else check_timeouts timeouts
  end.

Definition MasterConfig_new (adoption quiesce activation drain shutdown : Duration) :
    result MasterConfig ConfigError :=
  let? _ := check_timeouts
    [(lit "listener adoption", adoption); (lit "quiesce", quiesce); (lit "activation", activation);
     (lit "drain", drain); (lit "shutdown", shutdown)] in
  Ok (mkConfig adoption quiesce activation drain shutdown).

Definition timeout_ok (d : Duration) : Prop := 0 < d <= MAX_TIMEOUT.

Record config_ok (c : MasterConfig) : Prop := {
  co_adoption : timeout_ok (adoption_timeout c);
  co_quiesce : timeout_ok (quiesce_timeout c);
  co_activation : timeout_ok (activation_timeout c);
  co_drain : timeout_ok (drain_timeout c);
  co_shutdown : timeout_ok (shutdown_timeout c);
}.

(** ** Listeners *)

Inductive ListenerOwnershipError : Type :=
| OriginalFlags (errno : Z)
| OriginalCloexecUnavailable
| Duplicate (errno : Z)
| ListenerDescriptor (e : DescriptorError).

Record StableListeners (Fd : Type) : Type := mkListeners {
  manifest : DescriptorManifest;
  originals : list Fd;
}.
Arguments mkListeners {Fd}.
Arguments manifest {Fd}.
Arguments originals {Fd}.

Section Listeners.
Context {K Fd : Type} `{!Kernel K Fd}.
(** [fcntl_dupfd_cloexec] with a minimum of 0 *)
Context (fcntl_dupfd_cloexec : Fd -> M K Z Fd).

Abbreviation ListenersM := (M K ListenerOwnershipError).

Definition io_call {A} (f : Z -> ListenerOwnershipError) (c : M K Z A) : ListenersM A := fun k =>
  let '(r, k') := c k in (map_err f r, k').
Definition set_call {A} (c : M K DescriptorError A) : ListenersM A := fun k =>
  let '(r, k') := c k in (map_err ListenerDescriptor r, k').

(** The loop that enforces close-on-exec on the originals. *)
Fixpoint enforce_cloexec (fds : list Fd) : ListenersM unit :=
  match fds with
  | [] => mret tt
  | original :: fds =>
      let! flags := io_call OriginalFlags (fcntl_getfd original) in
      let! _ := (if flag_set flags CLOEXEC then mret tt
                 else io_call OriginalFlags (fcntl_setfd original (Z.lor flags CLOEXEC))) in
      let! flags := io_call OriginalFlags (fcntl_getfd original) in
      if flag_set flags CLOEXEC then enforce_cloexec fds
      else mfail OriginalCloexecUnavailable
  end.

Fixpoint duplicate_all (fds : list Fd) : ListenersM (list Fd) :=
  match fds with
  | [] => mret []
  | descriptor :: fds =>
      let! copy := io_call Duplicate (fcntl_dupfd_cloexec descriptor) in
      let! copies := duplicate_all fds in
      mret (copy :: copies)
  end.

Definition StableListeners_new (m : DescriptorManifest) (fds : list Fd) :
    ListenersM (StableListeners Fd) :=
  if negb (len fds =? len (slots m)) then
    mfail (ListenerDescriptor (CardinalityMismatch (len (slots m)) (len fds)))
  else
    let! _ := enforce_cloexec fds in
    let! validation := duplicate_all fds in
    let! _ := set_call (DescriptorSet_new m validation) in
    mret (mkListeners m fds).

Definition duplicates (self : StableListeners Fd) : ListenersM (list Fd) :=
  duplicate_all (originals self).
End Listeners.

(** ** Facts *)

Lemma check_timeouts_Ok timeouts :
  check_timeouts timeouts = Ok tt <->
  Forall (fun p => p.2 <> 0 /\ p.2 <= MAX_TIMEOUT) timeouts.
Proof.
  induction timeouts as [|[phase t] timeouts IH]; cbn [check_timeouts]; [by split|].
  rewrite Forall_cons. cbn [snd]. destruct (_ || _) eqn:E.
  - split; [done|]. intros [[H1 H2] _]. apply orb_true_iff in E as [E|E]; lia.
  - apply orb_false_iff in E as [E1 E2]. rewrite IH. split; [intros ?|tauto].
    split; [lia|done].
Qed.

(** The master only runs with deadlines that are positive and at most an hour. *)
Lemma MasterConfig_new_Ok a q v d s c :
  0 <= a -> 0 <= q -> 0 <= v -> 0 <= d -> 0 <= s ->
  MasterConfig_new a q v d s = Ok c <-> c = mkConfig a q v d s /\ config_ok c.
Proof.
  intros Ha Hq Hv Hd Hs. unfold MasterConfig_new.
  match goal with |- context [check_timeouts ?l] => pose proof (check_timeouts_Ok l) as E;
    assert (Forall (fun p => p.2 <> 0 /\ p.2 <= MAX_TIMEOUT) l <-> config_ok (mkConfig a q v d s)) as F;
    [|rewrite F in E; clear F; destruct (check_timeouts l) as [[]|e]] end.
  - rewrite !Forall_cons, Forall_nil. cbn [snd]. split.
    + intros. split; unfold timeout_ok; cbn; lia.
    + intros [H1 H2 H3 H4 H5]. unfold timeout_ok in *. cbn in *. split_and!; done || lia.
  - cbn [result_bind]. split; [intros [= <-]; split; [done|by apply E]|by intros [-> _]].
  - cbn [result_bind]. split; [done|]. intros [-> Hc]. by apply E in Hc.
Qed.

Section ListenerFacts.
Context {K Fd : Type} `{!Kernel K Fd, !KernelLaws K Fd}.
Context (fcntl_dupfd_cloexec : Fd -> M K Z Fd).

Lemma io_call_Ok {A} f (c : M K Z A) k a k' : io_call f c k = (Ok a, k') <-> c k = (Ok a, k').
Proof. unfold io_call. destruct (c k) as [[] ?]; cbn; split; congruence. Qed.

Lemma grown_trans (o o' o'' : Observed) : grown o o' -> grown o' o'' -> grown o o''.
Proof. unfold grown. intuition congruence. Qed.

(** After the loop every original is close-on-exec, and no flag of any
    descriptor was cleared. *)
Lemma enforce_cloexec_Ok fds k k' :
  enforce_cloexec fds k = (Ok tt, k') ->
  Forall (fun fd => o_cloexec (observe k' fd) = true) fds /\
  forall fd, grown (observe k fd) (observe k' fd).
Proof.
  revert k. induction fds as [|fd fds IH]; intros k H; cbn [enforce_cloexec] in H.
  - injection H as ->. split; [done|]. intros fd. done.
  - apply mbind_se_Ok in H as (v & k1 & H1%io_call_Ok & H).
    apply getfd_law in H1 as [-> H1]. apply mbind_se_Ok in H as ([] & k2 & H2 & H).
    apply mbind_se_Ok in H as (v' & k3 & H3%io_call_Ok & H). apply getfd_law in H3 as [-> H3].
    destruct (flag_set v' CLOEXEC) eqn:E; [|done].
    assert (forall fd, grown (observe k fd) (observe k2 fd)) as Hg.
    { destruct (flag_set v CLOEXEC); [injection H2 as ->; done|].
      apply io_call_Ok, setfd_law in H2 as [? _]; [done|]. apply flag_set_lor. }
    destruct (IH k2 H) as [Hall Hgrow]. split.
    + constructor; [|done]. destruct (Hgrow fd) as [Hc _]. by apply Hc.
    + intros fd'. by apply (grown_trans _ _ _ (Hg fd') (Hgrow fd')).
Qed.

Lemma set_call_Ok {A} (c : M K DescriptorError A) k a k' : set_call c k = (Ok a, k') <-> c k = (Ok a, k').
Proof. unfold set_call. destruct (c k) as [[] ?]; cbn; split; congruence. Qed.

(** The master keeps descriptors only when all were close-on-exec and copies of
    them satisfy the manifest slot by slot. *)
Lemma StableListeners_new_Ok m fds k l k' :
  StableListeners_new fcntl_dupfd_cloexec m fds k = (Ok l, k') ->
  l = mkListeners m fds /\ len fds = len (slots m) /\
  exists k1 k2 copies,
    enforce_cloexec fds k = (Ok tt, k1) /\
    Forall (fun fd => o_cloexec (observe k1 fd) = true) fds /\
    duplicate_all fcntl_dupfd_cloexec fds k1 = (Ok copies, k2) /\
    Forall (fun '(slot, fd) => verified k' slot fd) (zip (slots m) copies).
Proof.
  unfold StableListeners_new. destruct (Z.eqb_spec (len fds) (len (slots m))) as [Hl|]; [|done].
  cbn [negb]. intros H. apply mbind_se_Ok in H as ([] & k1 & H1 & H).
  apply mbind_se_Ok in H as (copies & k2 & H2 & H).
  apply mbind_se_Ok in H as (set & k3 & H3%set_call_Ok & [= <- <-]).
  apply DescriptorSet_new_Ok in H3 as (_ & _ & _ & Hv).
  split_and!; [done|done|]. exists k1, k2, copies. split_and!; try done.
  by apply enforce_cloexec_Ok in H1 as [? _].
Qed.
End ListenerFacts.
