(* ===== verification/Master.v ===== *)
(** The master: [Master] of [crates/oxiroute-supervisor-master/src/master.rs],
    the state machine that owns the listeners and the worker processes and
    drives a replacement by the supervisor's actions.  Each method is a state
    transformer over the master and the operating system [K] its workers'
    processes act on; the worker process and the [ActionExecutor] trait are
    type classes, which [Channel] and the production executor implement.

    The methods call each other in a cycle (executing an action may fail, whose
    compensation applies an event, whose actions are executed), so executing
    actions takes fuel; [MasterFacts] proves the fuel is never used up. *)

From stdpp Require Import base countable strings list.
From Stdlib Require Import ZArith Lia.
From S2P Require Import Prelude Bytes Identity Catalog Transport Descriptor Channel ControlProtocol.
From S2P Require Import StatusProtocol SupervisorStatus Clock Listeners Replacement.

Open Scope Z_scope.

(** ** Data *)

(** [Instant]: nanoseconds of the monotonic clock, whose seconds are an [i64]. *)
Abbreviation Instant := Z (only parsing).
Definition INSTANT_MAX : Instant := 2 ^ 63 * NANOS_PER_SEC - 1.

Record WorkerInput (C : Type) : Type := mkInput {
  in_instance_id : InstanceId;
  in_identity : WorkerIdentity;
  in_command : C;
}.
Arguments mkInput {C}.
Arguments in_instance_id {C}.
Arguments in_identity {C}.
Arguments in_command {C}.

Inductive WorkerRole : Type := RoleActive | RoleCandidate | RoleRetired.

#[export] Instance WorkerRole_eq_dec : EqDecision WorkerRole.
Proof. solve_decision. Defined.

Inductive WorkerState : Type := WorkerRunning | Terminating (forced : bool).

#[export] Instance WorkerState_eq_dec : EqDecision WorkerState.
Proof. solve_decision. Defined.

Inductive MasterState : Type :=
| StateStarting | StateActivatingInitial | StateRunning | StateAdoptingCandidate | StateQuiescing
| StateActivatingCandidate | StateRollingBack | StateDrainingRetired | StateStoppingRetired
| StateShuttingDown | StateFailing | StateStopped | StateFailed.

#[export] Instance MasterState_eq_dec : EqDecision MasterState.
Proof. solve_decision. Defined.

Inductive FailurePhase : Type :=
| FailListenerAdoption | FailActivation | FailQuiesce | FailReactivation | FailDrain | FailShutdown
| FailCrash | FailDisconnected | FailProtocol.

Inductive ActionKind : Type :=
| DuplicateListeners
| Send (phase : ControlPhase).

Inductive PreparationStep : Type :=
| StepRequestId | StepDeadline | StepEncoding | StepAllocation.

Inductive PreparationError : Type :=
| PreparationInjected
| RequestIdExhausted
| PreparationDeadlineOverflow
| PreparationProtocol (e : ControlProtocolError)
| PreparationAllocation.

Inductive ActionError : Type :=
| ActionListeners (e : ListenerOwnershipError)
| ActionChannel (e : AuthenticatedChannelError)
| ActionInjected.

Inductive ShutdownProgress : Type :=
| ShutdownPending (remaining : Z) (forced : bool)
| ShutdownComplete (forced : bool).

Inductive MasterEvent : Type :=
| InitialActivated (instance_id : InstanceId)
| SpawnFailed (instance_id : InstanceId)
| ReplacementStarted (instance_id : InstanceId)
| ReplacementCommitted (active retired : InstanceId)
| ReplacementCompleted (active : InstanceId)
| RollbackStarted (candidate : InstanceId) (phase : FailurePhase)
| RollbackCompleted (active : InstanceId)
| ActionFailed (role : WorkerRole) (action : ActionKind)
| PreparationFailed (role : WorkerRole) (phase : ControlPhase) (step : PreparationStep)
| StaleAcknowledgement (role : WorkerRole) (request_id : Z) (phase : ControlPhase)
| WorkerDisconnected (role : WorkerRole) (instance_id : InstanceId)
| WorkerExited (role : WorkerRole) (instance_id : InstanceId) (status : ExitStatus)
| TerminationRequested (role : WorkerRole) (forced : bool)
| RetiredFailedEvent (phase : FailurePhase)
| ShutdownStarted
| ShutdownForced
| ShutdownCompleted (forced : bool)
| FailClosed (phase : FailurePhase)
| FailedEvent (phase : FailurePhase)
| WorkerStatusUpdated (role : WorkerRole) (instance_id : InstanceId) (sequence : Z)
| StaleStatus (role : WorkerRole) (sequence : Z).

Record Pending : Type := mkPending {
  p_request_id : Z;
  p_phase : ControlPhase;
  p_deadline : Instant;
}.

Record PreparedRequest : Type := mkPrepared {
  pr_pending : Pending;
  pr_payload : bytes;
}.

Record ManagedWorker (P : Type) : Type := mkWorker {
  w_instance_id : InstanceId;
  w_generation : GenerationId;
  w_process : P;
  w_pending : option Pending;
  w_termination_deadline : option Instant;
  w_state : WorkerState;
  w_channel_open : bool;
  w_status : option WorkerStatus;
  w_last_event_cursor : Z;
}.
Arguments mkWorker {P}.
Arguments w_instance_id {P}.
Arguments w_generation {P}.
Arguments w_process {P}.
Arguments w_pending {P}.
Arguments w_termination_deadline {P}.
Arguments w_state {P}.
Arguments w_channel_open {P}.
Arguments w_status {P}.
Arguments w_last_event_cursor {P}.

Definition ManagedWorker_new {P} (id : InstanceId) (g : GenerationId) (process : P) : ManagedWorker P :=
  mkWorker id g process None None WorkerRunning true None 0.

Inductive Stage : Type :=
| BootAdopting
| BootActivating
| Operational
| ShuttingDown (deadline : Instant) (forced : bool)
| Failing (phase : FailurePhase)
| StageStopped (forced : bool)
| StageFailed.

Record Master (E P Fd : Type) : Type := mkMaster {
  ms_config : MasterConfig;
  ms_listeners : StableListeners Fd;
  ms_executor : E;
  ms_supervisor : option ReplacementSupervisor;
  ms_active : option (ManagedWorker P);
  ms_candidate : option (ManagedWorker P);
  ms_retired : option (ManagedWorker P);
  ms_deferred_active_exit : option ExitStatus;
  ms_replacement_failure : option FailurePhase;
  ms_stage : Stage;
  ms_next_request_id : Z;
  ms_events : list MasterEvent;
  ms_snapshot_history : SupervisorSnapshotHistory;
}.
Arguments mkMaster {E P Fd}.
Arguments ms_config {E P Fd}.
Arguments ms_listeners {E P Fd}.
Arguments ms_executor {E P Fd}.
Arguments ms_supervisor {E P Fd}.
Arguments ms_active {E P Fd}.
Arguments ms_candidate {E P Fd}.
Arguments ms_retired {E P Fd}.
Arguments ms_deferred_active_exit {E P Fd}.
Arguments ms_replacement_failure {E P Fd}.
Arguments ms_stage {E P Fd}.
Arguments ms_next_request_id {E P Fd}.
Arguments ms_events {E P Fd}.
Arguments ms_snapshot_history {E P Fd}.

Inductive MasterError : Type :=
| MasterSpawn (message : bytes)
| InvalidState (state : MasterState)
| ProtocolVersion (expected actual : Z)
| DeadlineOverflow
| MissingWorker (role : WorkerRole)
| MissingSupervisor
| UnexpectedAcknowledgement
| UnexpectedReplacementActions
| MasterProtocol (e : ControlProtocolError)
| MasterAction (action : ActionKind) (source : ActionError)
| MasterPreparation (step : PreparationStep) (source : PreparationError)
| MasterIo (e : IoError)
| MasterReplacement (e : ReplacementError).

(** How a call ends without a value: it returns an error, or the thread panics.
    [OutOfFuel] belongs to the model alone. *)
Inductive MasterFailure : Type :=
| Returned (e : MasterError)
| Panicked
| OutOfFuel.

Definition is_issue_failure (e : MasterError) : bool :=
  match e with MasterAction _ _ | MasterPreparation _ _ => true | _ => false end.

Inductive Observation : Type :=
| ObservedAck (ack : ControlAck)
| ObservedStatus (status : WorkerStatus)
| ObservedExit (status : ExitStatus)
| ObservedDisconnected
| ObservedProtocolFailure.

Record Observed : Type := mkObserved { ob_instance_id : InstanceId; ob_observation : Observation }.

Definition generation_role (role : WorkerRole) : GenerationRole :=
  match role with
  | RoleActive => Catalog.Active | RoleCandidate => Catalog.Candidate | RoleRetired => Catalog.Previous
  end.

(** [ECONNRESET] *)
Definition CONNRESET : Z := 104.

Definition channel_disconnected (e : AuthenticatedChannelError) : bool :=
  match e with
  | Channel_ChannelClosed => true
  | Channel_Transport Transport.Closed => true
  | Channel_Transport (Transport.Io errno) => errno =? CONNRESET
  | _ => false
  end.

Definition validate_identity (identity : WorkerIdentity) : result unit MasterError :=
  if negb (id_protocol identity =? CONTROL_PROTOCOL_VERSION) then
    Err (ProtocolVersion CONTROL_PROTOCOL_VERSION (id_protocol identity))
  else Ok tt.

Definition deadline (now : Instant) (timeout : Duration) : result Instant MasterError :=
  ok_or DeadlineOverflow (checked_add INSTANT_MAX now timeout).

Definition phase_failure (phase : ControlPhase) : FailurePhase :=
  match phase with
  | ControlProtocol.AdoptListeners => FailListenerAdoption
  | ControlProtocol.Quiesce => FailQuiesce
  | ControlProtocol.Activate => FailActivation
  | ControlProtocol.Drain => FailDrain
  | ControlProtocol.Reactivate => FailReactivation
  | ControlProtocol.Shutdown => FailShutdown
  end.

(** ** What the master uses *)

(** The worker process, as [Channel] implements it; [ready] and [recvmsg] are what
    polling and reading its channel return. *)
Class ManagedProcess (P K Fd : Type) : Type := {
  process_poll_event : M (P * K) IoError (option WorkerEvent);
  process_try_receive : result Z IoError -> result (Received Fd) Z ->
    M (P * K) AuthenticatedChannelError (option (AuthenticatedFrame Fd));
  process_send : MessageType -> FrameFlags -> bytes -> list Fd ->
    M (P * K) AuthenticatedChannelError Sequence;
  process_request_kill : M (P * K) IoError unit;
}.

(** The [ActionExecutor] trait. *)
Class ActionExecutor (E P K Fd : Type) : Type := {
  prepare : WorkerRole -> ControlPhase -> PreparationStep -> M E PreparationError unit;
  duplicate_listeners : WorkerRole -> StableListeners Fd -> M (E * K) ActionError (list Fd);
  send_request : WorkerRole -> ControlPhase -> bytes -> list Fd -> M (E * P * K) ActionError unit;
}.

(** [SystemActionExecutor] *)
Section System.
Context {P K Fd : Type} `{!ManagedProcess P K Fd, !Kernel K Fd} (dupfd : Fd -> M K Z Fd).

Definition system_duplicate (role : WorkerRole) (listeners : StableListeners Fd) :
    M (unit * K) ActionError (list Fd) := fun '(e, k) =>
  let '(r, k') := duplicates dupfd listeners k in (map_err ActionListeners r, (e, k')).

Definition system_send (role : WorkerRole) (phase : ControlPhase) (payload : bytes) (fds : list Fd) :
    M (unit * P * K) ActionError unit := fun '(e, p, k) =>
  let '(r, (p', k')) := process_send (ControlPhase_message_type phase) 0 payload fds (p, k) in
  (result_map (fun _ => tt) (map_err ActionChannel r), (e, p', k')).

Definition SystemActionExecutor : ActionExecutor unit P K Fd := {|
  prepare _ _ _ := mret tt;
  duplicate_listeners := system_duplicate;
  send_request := system_send;
|}.
End System.

(** [WorkerProcess] of [Channel] is a managed process. *)
Section Processes.
Context {K Child Cgroup Fd : Type} `{!ProcessOs K Child Cgroup}.
Context (sendmsg : bytes -> list Fd -> result Z Z) (ancillary_push : list Fd -> bool).
Context (getfd : Fd -> result Z Z) (setfd : Fd -> Z -> result unit Z).

Definition worker_process : ManagedProcess (WorkerProcess Child Cgroup) K Fd := {|
  process_poll_event := poll_event;
  process_try_receive := channel_try_receive getfd setfd;
  process_send := channel_send sendmsg ancillary_push;
  process_request_kill := request_kill;
|}.
End Processes.

(** ** Access to the state *)

Section Fields.
Context {E P Fd : Type}.
Implicit Types (m : Master E P Fd) (w : ManagedWorker P).

Definition with_process (p : P) w : ManagedWorker P :=
  mkWorker (w_instance_id w) (w_generation w) p (w_pending w) (w_termination_deadline w) (w_state w)
    (w_channel_open w) (w_status w) (w_last_event_cursor w).
Definition with_pending (p : option Pending) w : ManagedWorker P :=
  mkWorker (w_instance_id w) (w_generation w) (w_process w) p (w_termination_deadline w) (w_state w)
    (w_channel_open w) (w_status w) (w_last_event_cursor w).
Definition with_termination_deadline (d : option Instant) w : ManagedWorker P :=
  mkWorker (w_instance_id w) (w_generation w) (w_process w) (w_pending w) d (w_state w)
    (w_channel_open w) (w_status w) (w_last_event_cursor w).
Definition with_state (st : WorkerState) w : ManagedWorker P :=
  mkWorker (w_instance_id w) (w_generation w) (w_process w) (w_pending w) (w_termination_deadline w) st
    (w_channel_open w) (w_status w) (w_last_event_cursor w).
Definition with_channel_open (b : bool) w : ManagedWorker P :=
  mkWorker (w_instance_id w) (w_generation w) (w_process w) (w_pending w) (w_termination_deadline w)
    (w_state w) b (w_status w) (w_last_event_cursor w).
Definition with_report (cursor : Z) (st : option WorkerStatus) w : ManagedWorker P :=
  mkWorker (w_instance_id w) (w_generation w) (w_process w) (w_pending w) (w_termination_deadline w)
    (w_state w) (w_channel_open w) st cursor.

Definition set_executor (e : E) m : Master E P Fd :=
  mkMaster (ms_config m) (ms_listeners m) e (ms_supervisor m) (ms_active m) (ms_candidate m)
    (ms_retired m) (ms_deferred_active_exit m) (ms_replacement_failure m) (ms_stage m)
    (ms_next_request_id m) (ms_events m) (ms_snapshot_history m).
Definition set_supervisor (s : option ReplacementSupervisor) m : Master E P Fd :=
  mkMaster (ms_config m) (ms_listeners m) (ms_executor m) s (ms_active m) (ms_candidate m)
    (ms_retired m) (ms_deferred_active_exit m) (ms_replacement_failure m) (ms_stage m)
    (ms_next_request_id m) (ms_events m) (ms_snapshot_history m).
Definition set_workers (a c r : option (ManagedWorker P)) m : Master E P Fd :=
  mkMaster (ms_config m) (ms_listeners m) (ms_executor m) (ms_supervisor m) a c r
    (ms_deferred_active_exit m) (ms_replacement_failure m) (ms_stage m)
    (ms_next_request_id m) (ms_events m) (ms_snapshot_history m).
Definition set_deferred (d : option ExitStatus) m : Master E P Fd :=
  mkMaster (ms_config m) (ms_listeners m) (ms_executor m) (ms_supervisor m) (ms_active m)
    (ms_candidate m) (ms_retired m) d (ms_replacement_failure m) (ms_stage m)
    (ms_next_request_id m) (ms_events m) (ms_snapshot_history m).
Definition set_failure (f : option FailurePhase) m : Master E P Fd :=
  mkMaster (ms_config m) (ms_listeners m) (ms_executor m) (ms_supervisor m) (ms_active m)
    (ms_candidate m) (ms_retired m) (ms_deferred_active_exit m) f (ms_stage m)
    (ms_next_request_id m) (ms_events m) (ms_snapshot_history m).
Definition set_stage (s : Stage) m : Master E P Fd :=
  mkMaster (ms_config m) (ms_listeners m) (ms_executor m) (ms_supervisor m) (ms_active m)
    (ms_candidate m) (ms_retired m) (ms_deferred_active_exit m) (ms_replacement_failure m) s
    (ms_next_request_id m) (ms_events m) (ms_snapshot_history m).
Definition set_next_request_id (n : Z) m : Master E P Fd :=
  mkMaster (ms_config m) (ms_listeners m) (ms_executor m) (ms_supervisor m) (ms_active m)
    (ms_candidate m) (ms_retired m) (ms_deferred_active_exit m) (ms_replacement_failure m) (ms_stage m)
    n (ms_events m) (ms_snapshot_history m).
Definition set_events (l : list MasterEvent) m : Master E P Fd :=
  mkMaster (ms_config m) (ms_listeners m) (ms_executor m) (ms_supervisor m) (ms_active m)
    (ms_candidate m) (ms_retired m) (ms_deferred_active_exit m) (ms_replacement_failure m) (ms_stage m)
    (ms_next_request_id m) l (ms_snapshot_history m).
Definition set_history (h : SupervisorSnapshotHistory) m : Master E P Fd :=
  mkMaster (ms_config m) (ms_listeners m) (ms_executor m) (ms_supervisor m) (ms_active m)
    (ms_candidate m) (ms_retired m) (ms_deferred_active_exit m) (ms_replacement_failure m) (ms_stage m)
    (ms_next_request_id m) (ms_events m) h.

Definition worker m (role : WorkerRole) : option (ManagedWorker P) :=
  match role with
  | RoleActive => ms_active m | RoleCandidate => ms_candidate m | RoleRetired => ms_retired m
  end.

Definition set_worker (role : WorkerRole) (w : option (ManagedWorker P)) m : Master E P Fd :=
  match role with
  | RoleActive => set_workers w (ms_candidate m) (ms_retired m) m
  | RoleCandidate => set_workers (ms_active m) w (ms_retired m) m
  | RoleRetired => set_workers (ms_active m) (ms_candidate m) w m
  end.

Definition all_roles : list WorkerRole := [RoleActive; RoleCandidate; RoleRetired].

Definition role_for m (id : InstanceId) : option WorkerRole :=
  List.find (fun role =>
    match worker m role with Some w => bool_decide (w_instance_id w = id) | None => false end) all_roles.

Definition workers m : list (ManagedWorker P) := omap (worker m) all_roles.
Definition worker_count m : Z := len (workers m).

Definition shutdown_progress m : ShutdownProgress :=
  match ms_stage m with
  | StageStopped forced => ShutdownComplete forced
  | ShuttingDown _ forced => ShutdownPending (worker_count m) forced
  | _ => ShutdownPending (worker_count m) false
  end.

(** [Iterator::min] *)
Definition min_list (l : list Z) : option Z :=
  match l with [] => None | x :: l => Some (foldl Z.min x l) end.

Definition worker_deadline w : option Instant :=
  min_list (option_list (p_deadline <$> w_pending w) ++ option_list (w_termination_deadline w)).

Definition next_deadline m : option Instant :=
  match ms_stage m with
  | ShuttingDown deadline _ => Some deadline
  | _ => min_list (omap worker_deadline (workers m))
  end.

(** What the snapshot sees of a worker. *)
Definition worker_view (role : WorkerRole) w : WorkerView :=
  mkView (generation_role role) (w_instance_id w) (w_generation w) (w_last_event_cursor w) (w_status w).

Definition supervisor_snapshot {R T} m (catalog : SupervisedGenerationCatalog R T) :
    result (SupervisorSnapshot R) SupervisorSnapshotError :=
  history_snapshot (ms_snapshot_history m) catalog
    (omap (fun role => worker m role ≫= fun w => view_source (worker_view role w)) all_roles).
End Fields.

(** ** Operations *)

Section Operations.
Context {E P K Fd : Type} `{!ManagedProcess P K Fd, !ActionExecutor E P K Fd}.
(** Whether a buffer of a size can be allocated, for encoding and for decoding. *)
Context (reserve reserve_vec : Z -> bool).

Definition MM (A : Type) : Type := M (Master E P Fd * K) MasterFailure A.

Definition get {A} (f : Master E P Fd -> A) : MM A := mread (fun s => f s.1).
Definition put (f : Master E P Fd -> Master E P Fd) : MM unit := mwrite (fun s => (f s.1, s.2)).
Definition fail {A} (e : MasterError) : MM A := mfail (Returned e).
Definition ensure {A} (f : Master E P Fd -> result A MasterError) : MM A :=
  mtry (fun s => map_err Returned (f s.1)).
Definition emit (event : MasterEvent) : MM unit := put (fun m => set_events (ms_events m ++ [event]) m).

(** A call whose error the caller inspects; a panic is not caught. *)
Definition attempt {A} (c : MM A) : MM (result A MasterError) := fun s =>
  match c s with
  | (Ok a, s') => (Ok (Ok a), s')
  | (Err (Returned e), s') => (Ok (Err e), s')
  | (Err failure, s') => (Err failure, s')
  end.

Fixpoint for_each {A} (f : A -> MM unit) (l : list A) : MM unit :=
  match l with
  | [] => mret tt
  | x :: l => let! _ := f x in for_each f l
  end.

Definition require_worker (role : WorkerRole) : MM (ManagedWorker P) :=
  ensure (fun m => ok_or (MissingWorker role) (worker m role)).

(** [active_id], [candidate_id] and [retired_id] *)
Definition worker_id (role : WorkerRole) : MM InstanceId :=
  ensure (fun m => ok_or (MissingWorker role) (w_instance_id <$> worker m role)).

(** Writing through [worker_mut]. *)
Definition update_worker (role : WorkerRole) (f : ManagedWorker P -> ManagedWorker P) : MM unit :=
  let! w := require_worker role in
  put (set_worker role (Some (f w))).

(** A call on the process of a worker that is there. *)
Definition on_process {X A} (role : WorkerRole) (w : ManagedWorker P) (c : M (P * K) X A) :
    MM (result A X) := fun '(m, k) =>
  let '(r, (p', k')) := c (w_process w, k) in
  (Ok r, (set_worker role (Some (with_process p' w)) m, k')).

Definition replacement_phase : MM (option ReplacementPhase) := fun s =>
  match ms_supervisor s.1 with
  | None => (Ok None, s)
  | Some supervisor =>
      match ReplacementSupervisor_phase supervisor with
      | Some phase => (Ok (Some phase), s)
      | None => (Err Panicked, s)
      end
  end.

(** [supervisor_mut()?.apply(event)?] *)
Definition supervisor_apply (event : ReplacementEvent) : MM (list ReplacementAction) := fun '(m, k) =>
  match ms_supervisor m with
  | None => (Err (Returned MissingSupervisor), (m, k))
  | Some supervisor =>
      let '(r, supervisor') := ReplacementSupervisor_apply event supervisor in
      (map_err (fun e => Returned (MasterReplacement e)) r, (set_supervisor (Some supervisor') m, k))
  end.

Definition state : MM MasterState :=
  let! stage := get ms_stage in
  match stage with
  | BootAdopting => mret StateStarting
  | BootActivating => mret StateActivatingInitial
  | Operational =>
      let! phase := replacement_phase in
      match phase with
      | None => mfail Panicked
      | Some Running => mret StateRunning
      | Some AdoptingCandidate => mret StateAdoptingCandidate
      | Some PhaseQuiescing => mret StateQuiescing
      | Some ActivatingCandidate => mret StateActivatingCandidate
      | Some RollingBack => mret StateRollingBack
      | Some DrainingRetired => mret StateDrainingRetired
      | Some StoppingRetired => mret StateStoppingRetired
      end
  | ShuttingDown _ _ => mret StateShuttingDown
  | Failing _ => mret StateFailing
  | StageStopped _ => mret StateStopped
  | StageFailed => mret StateFailed
  end.

(** *** Issuing requests *)

Definition prepare_step (role : WorkerRole) (phase : ControlPhase) (step : PreparationStep) : MM unit :=
  fun '(m, k) =>
    let '(r, e') := prepare role phase step (ms_executor m) in
    (map_err (fun source => Returned (MasterPreparation step source)) r, (set_executor e' m, k)).

Definition take_request_id : MM Z :=
  let! id := get ms_next_request_id in
  match checked_add u64_max id 1 with
  | Some next => let! _ := put (set_next_request_id next) in mret id
  | None => fail (MasterPreparation StepRequestId RequestIdExhausted)
  end.

Definition encode_payload (id : Z) (phase : ControlPhase) (adoption : bool)
    (listeners : StableListeners Fd) : result bytes MasterError :=
  if adoption then
    map_err (fun source =>
      MasterPreparation
        (match source with ControlProtocol.Allocation => StepAllocation | _ => StepEncoding end)
        (PreparationProtocol source))
      (encode_adopt_request reserve id (manifest listeners))
  else
    let encoded := encode_request id in
    if reserve (len encoded) then Ok encoded
    else Err (MasterPreparation StepAllocation PreparationAllocation).

Definition prepare_request_at_deadline (role : WorkerRole) (phase : ControlPhase) (d : Instant)
    (adoption : bool) : MM PreparedRequest :=
  let! _ := prepare_step role phase StepRequestId in
  let! id := take_request_id in
  let! _ := prepare_step role phase StepEncoding in
  let! _ := prepare_step role phase StepAllocation in
  let! payload := ensure (fun m => encode_payload id phase adoption (ms_listeners m)) in
  mret (mkPrepared (mkPending id phase d) payload).

Definition prepare_request (role : WorkerRole) (phase : ControlPhase) (now : Instant)
    (timeout : Duration) (adoption : bool) : MM PreparedRequest :=
  let! _ := prepare_step role phase StepDeadline in
  let! d := ensure (fun _ =>
    ok_or (MasterPreparation StepDeadline PreparationDeadlineOverflow)
      (checked_add INSTANT_MAX now timeout)) in
  prepare_request_at_deadline role phase d adoption.

Definition executor_duplicate (role : WorkerRole) : MM (list Fd) := fun '(m, k) =>
  let '(r, (e', k')) := duplicate_listeners role (ms_listeners m) (ms_executor m, k) in
  (map_err (fun source => Returned (MasterAction DuplicateListeners source)) r, (set_executor e' m, k')).

Definition dispatch (role : WorkerRole) (request : PreparedRequest) (fds : list Fd) : MM unit :=
  fun '(m, k) =>
    match worker m role with
    | None => (Err (Returned (MissingWorker role)), (m, k))
    | Some w =>
        let phase := p_phase (pr_pending request) in
        let '(r, (e', p', k')) :=
          send_request role phase (pr_payload request) fds (ms_executor m, w_process w, k) in
        let w' := with_process p' w in
        match r with
        | Ok _ =>
            (Ok tt, (set_executor e'
               (set_worker role (Some (with_pending (Some (pr_pending request)) w')) m), k'))
        | Err source =>
            (Err (Returned (MasterAction (Send phase) source)),
             (set_executor e' (set_worker role (Some w') m), k'))
        end
    end.

Definition issue_adoption (role : WorkerRole) (now : Instant) : MM unit :=
  let! timeout := get (fun m => adoption_timeout (ms_config m)) in
  let! request := prepare_request role ControlProtocol.AdoptListeners now timeout true in
  let! copies := executor_duplicate role in
  dispatch role request copies.

Definition issue (role : WorkerRole) (phase : ControlPhase) (now : Instant) (timeout : Duration) :
    MM Instant :=
  let! request := prepare_request role phase now timeout false in
  let! _ := dispatch role request [] in
  mret (p_deadline (pr_pending request)).

Definition issue_at_deadline (role : WorkerRole) (phase : ControlPhase) (d : Instant) : MM unit :=
  let! _ := prepare_step role phase StepDeadline in
  let! request := prepare_request_at_deadline role phase d false in
  dispatch role request [].

(** *** Ending workers *)

Definition mark_terminating (role : WorkerRole) (forced : bool) : MM unit :=
  let! _ := update_worker role (with_state (Terminating forced)) in
  emit (TerminationRequested role forced).

Definition force_role (role : WorkerRole) : MM unit :=
  let! st := get (fun m => w_state <$> worker m role) in
  match st with
  | Some (Terminating true) => mret tt
  | _ =>
      let! w := require_worker role in
      let! r := on_process role w process_request_kill in
      let! _ := ensure (fun _ => map_err MasterIo r) in
      let! _ := update_worker role (fun w => with_state (Terminating true) (with_pending None w)) in
      emit (TerminationRequested role true)
  end.

Definition take_worker (role : WorkerRole) : MM unit :=
  let! w := get (fun m => worker m role) in
  let! _ := put (set_worker role None) in
  put (fun m => set_history (reap (w ≫= w_status) (ms_snapshot_history m)) m).

(** [if self.worker(role).is_some() { self.force_role(role)?; }] *)
Definition force_if_present (role : WorkerRole) : MM unit :=
  let! w := get (fun m => worker m role) in
  match w with Some _ => force_role role | None => mret tt end.

(** [if self.deferred_active_exit.take().is_some() { self.take_worker(Active); }] *)
Definition take_deferred_active : MM unit :=
  let! deferred := get ms_deferred_active_exit in
  let! _ := put (set_deferred None) in
  match deferred with Some _ => take_worker RoleActive | None => mret tt end.

Definition fail_master (phase : FailurePhase) : MM unit :=
  let! stage := get ms_stage in
  match stage with
  | StageFailed => mret tt
  | _ =>
      let! _ :=
        match stage with
        | Failing _ => mret tt
        | _ => let! _ := put (set_stage (Failing phase)) in emit (FailClosed phase)
        end in
      let! _ := take_deferred_active in
      for_each force_if_present all_roles
  end.

Definition record_issue_failure (role : WorkerRole) (phase : ControlPhase) (error : MasterError) :
    MM unit :=
  match error with
  | MasterAction action _ => emit (ActionFailed role action)
  | MasterPreparation step _ => emit (PreparationFailed role phase step)
  | error => fail error
  end.

Definition maybe_finish_rollback : MM unit :=
  let! phase := replacement_phase in
  match phase with
  | Some Running =>
      let! failure := get ms_replacement_failure in
      let! _ := put (set_failure None) in
      match failure with
      | Some _ => let! active := worker_id RoleActive in emit (RollbackCompleted active)
      | None => mret tt
      end
  | _ => mret tt
  end.

Definition complete_replacement : MM unit :=
  let! active := worker_id RoleActive in
  emit (ReplacementCompleted active).

Definition complete_failed_retired : MM unit :=
  let! failure := get ms_replacement_failure in
  let! _ := put (set_failure None) in
  match failure with
  | None => fail UnexpectedReplacementActions
  | Some phase =>
      let! _ := emit (RetiredFailedEvent phase) in
      complete_replacement
  end.

Definition commit_candidate (retired_id : InstanceId) : MM unit :=
  let! candidate := ensure (fun m =>
    ok_or MissingSupervisor ((fun s => instance_id (active s)) <$> ms_supervisor m)) in
  let! active_id := worker_id RoleActive in
  let! matches :=
    (if bool_decide (active_id <> retired_id) then mret false
     else let! candidate_id := worker_id RoleCandidate in mret (bool_decide (candidate_id = candidate))) in
  if negb matches then fail UnexpectedReplacementActions
  else
    let! old := require_worker RoleActive in
    let! _ := put (set_worker RoleActive None) in
    let! promoted := require_worker RoleCandidate in
    let! _ := put (set_worker RoleCandidate None) in
    let! _ := put (set_worker RoleActive (Some promoted)) in
    let! _ := put (set_worker RoleRetired (Some old)) in
    emit (ReplacementCommitted candidate retired_id).

(** *** The methods of the cycle

    [execute] stands for [execute_replacement_actions] without a spawn action. *)
Section Cycle.
Context (execute : list ReplacementAction -> MM unit) (now : Instant).

Definition apply_replacement_event (event : ReplacementEvent) : MM unit :=
  let! actions := supervisor_apply event in
  execute actions.

Definition begin_rollback (phase : FailurePhase) : MM unit :=
  let! deferred := get ms_deferred_active_exit in
  match deferred with
  | Some _ => fail_master FailCrash
  | None =>
      let! candidate := ensure (fun m =>
        ok_or (MissingWorker RoleCandidate) (instance_id <$> (ms_supervisor m ≫= candidate))) in
      let! _ := put (set_failure (Some phase)) in
      let! _ := emit (RollbackStarted candidate phase) in
      let! _ := apply_replacement_event (CandidateFailed candidate) in
      maybe_finish_rollback
  end.

Definition fail_retired (phase : FailurePhase) : MM unit :=
  let! retired := worker_id RoleRetired in
  let! _ := put (set_failure (Some phase)) in
  apply_replacement_event (RetiredFailed retired).

Definition handle_phase_failure (role : WorkerRole) (phase : FailurePhase) : MM unit :=
  let! stage := get ms_stage in
  let! replacement := replacement_phase in
  match stage, replacement, role with
  | Operational, Some (AdoptingCandidate | PhaseQuiescing | ActivatingCandidate), RoleCandidate
  | Operational, Some PhaseQuiescing, RoleActive => begin_rollback phase
  | Operational, Some (DrainingRetired | StoppingRetired), RoleRetired => fail_retired phase
  | ShuttingDown _ _, _, _ => force_role role
  | _, _, _ => fail_master phase
  end.

Definition compensate_issue_error (role : WorkerRole) (phase : ControlPhase) (failure : FailurePhase)
    (error : MasterError) : MM unit :=
  let! _ := record_issue_failure role phase error in
  handle_phase_failure role failure.

Definition issue_or_compensate (role : WorkerRole) (phase : ControlPhase) (timeout : Duration)
    (failure : FailurePhase) : MM unit :=
  let! r := attempt (issue role phase now timeout) in
  match r with
  | Ok _ => mret tt
  | Err error => compensate_issue_error role phase failure error
  end.

(** *** Executing one action; the result is the actions it adds to the queue *)

Definition execute_spawn (spawn : option (ServiceInstance -> M K MasterError (ManagedWorker P)))
    (instance : ServiceInstance) : MM unit :=
  match spawn with
  | None => fail UnexpectedReplacementActions
  | Some spawn => fun '(m, k) =>
      match spawn instance k with
      | (Ok w, k') =>
          (let! _ := put (set_worker RoleCandidate (Some w)) in
           emit (ReplacementStarted (instance_id instance))) (m, k')
      | (Err error, k') =>
          (let! _ := emit (SpawnFailed (instance_id instance)) in fail error) (m, k')
      end
  end.

Definition execute_prepare (id : InstanceId) : MM unit :=
  let! role := ensure (fun m => ok_or (MissingWorker RoleCandidate) (role_for m id)) in
  match role with
  | RoleCandidate =>
      let! r := attempt (issue_adoption role now) in
      match r with
      | Ok _ => mret tt
      | Err error =>
          compensate_issue_error role ControlProtocol.AdoptListeners FailListenerAdoption error
      end
  | _ => fail UnexpectedReplacementActions
  end.

Definition execute_activate (id : InstanceId) : MM unit :=
  let! role := ensure (fun m => ok_or UnexpectedReplacementActions (role_for m id)) in
  let! timeout := get (fun m => activation_timeout (ms_config m)) in
  match role with
  | RoleActive => issue_or_compensate role ControlProtocol.Reactivate timeout FailReactivation
  | RoleCandidate => issue_or_compensate role ControlProtocol.Activate timeout FailActivation
  | RoleRetired => fail UnexpectedReplacementActions
  end.

Definition execute_quiesce (id : InstanceId) : MM unit :=
  let! role := get (fun m => role_for m id) in
  if bool_decide (role <> Some RoleActive) then fail UnexpectedReplacementActions
  else
    let! timeout := get (fun m => quiesce_timeout (ms_config m)) in
    issue_or_compensate RoleActive ControlProtocol.Quiesce timeout FailQuiesce.

Definition execute_drain (id : InstanceId) : MM unit :=
  let! _ := commit_candidate id in
  let! deferred := get ms_deferred_active_exit in
  let! _ := put (set_deferred None) in
  match deferred with
  | Some _ =>
      let! _ := fail_retired FailCrash in
      let! retired := worker_id RoleRetired in
      let! _ := take_worker RoleRetired in
      let! _ := apply_replacement_event (RetiredStopped retired) in
      complete_failed_retired
  | None =>
      let! timeout := get (fun m => drain_timeout (ms_config m)) in
      issue_or_compensate RoleRetired ControlProtocol.Drain timeout FailDrain
  end.

Definition execute_terminate (id : InstanceId) : MM unit :=
  let! role := ensure (fun m => ok_or UnexpectedReplacementActions (role_for m id)) in
  match role with
  | RoleCandidate => force_role role
  | RoleRetired =>
      let! timeout := get (fun m => shutdown_timeout (ms_config m)) in
      let! r := attempt (issue role ControlProtocol.Shutdown now timeout) in
      match r with
      | Ok d =>
          let! _ := mark_terminating role false in
          update_worker role (with_termination_deadline (Some d))
      | Err error =>
          if is_issue_failure error then
            let! _ := record_issue_failure role ControlProtocol.Shutdown error in
            fail_retired FailShutdown
          else fail error
      end
  | RoleActive => fail UnexpectedReplacementActions
  end.

Definition execute_kill (id : InstanceId) : MM unit :=
  let! role := ensure (fun m => ok_or UnexpectedReplacementActions (role_for m id)) in
  force_role role.

Definition then_nothing (c : MM unit) : MM (list ReplacementAction) :=
  let! _ := c in mret [].

Definition execute_action (spawn : option (ServiceInstance -> M K MasterError (ManagedWorker P)))
    (action : ReplacementAction) : MM (list ReplacementAction) :=
  match action with
  | Spawn instance => then_nothing (execute_spawn spawn instance)
  | Prepare id => then_nothing (execute_prepare id)
  | Activate id => then_nothing (execute_activate id)
  | Quiesce id => then_nothing (execute_quiesce id)
  | Drain id => then_nothing (execute_drain id)
  | Snapshot id => supervisor_apply (RetiredSnapshotCaptured id)
  | Terminate id => then_nothing (execute_terminate id)
  | Kill id => then_nothing (execute_kill id)
  end.
End Cycle.

(** The command of a replacement is taken by the first spawn. *)
Definition spent (spawn : option (ServiceInstance -> M K MasterError (ManagedWorker P)))
    (action : ReplacementAction) : option (ServiceInstance -> M K MasterError (ManagedWorker P)) :=
  match action, spawn with
  | Spawn _, Some _ => Some (fun _ => mfail UnexpectedReplacementActions)
  | _, spawn => spawn
  end.

(** The queue of actions.  A unit of fuel is spent per action, and an action whose
    execution applies further events gets what is left. *)
Fixpoint execute_replacement_actions (fuel : nat) (now : Instant)
    (spawn : option (ServiceInstance -> M K MasterError (ManagedWorker P)))
    (actions : list ReplacementAction) : MM unit :=
  match actions with
  | [] => mret tt
  | action :: actions =>
      match fuel with
      | O => mfail OutOfFuel
      | S fuel =>
          let! added := execute_action (execute_replacement_actions fuel now None) now spawn action in
          execute_replacement_actions fuel now (spent spawn action) (actions ++ added)
      end
  end.

(** Every queue is done within this; see [MasterFacts]. *)
Definition FUEL : nat := 8.

Definition run_actions (now : Instant) : list ReplacementAction -> MM unit :=
  execute_replacement_actions FUEL now None.

(** *** Observations *)

Definition handle_status (role : WorkerRole) (status : WorkerStatus) : MM unit :=
  let! w := require_worker role in
  let! h := get ms_snapshot_history in
  match observe_status (worker_view role w) status h with
  | None => emit (StaleStatus role (s_sequence status))
  | Some (view, h') =>
      let! _ := put (set_history h') in
      let! _ := update_worker role (with_report (v_cursor view) (v_status view)) in
      emit (WorkerStatusUpdated role (w_instance_id w) (s_sequence status))
  end.

Definition handle_phase_success (role : WorkerRole) (phase : ControlPhase) (now : Instant) : MM unit :=
  let! stage := get ms_stage in
  let! replacement :=
    match stage with Operational => replacement_phase | _ => mret None end in
  let apply := apply_replacement_event (run_actions now) in
  match stage, role, phase, replacement with
  | BootAdopting, RoleActive, ControlProtocol.AdoptListeners, _ =>
      let! _ := put (set_stage BootActivating) in
      let! timeout := get (fun m => activation_timeout (ms_config m)) in
      issue_or_compensate (run_actions now) now RoleActive ControlProtocol.Activate timeout FailActivation
  | BootActivating, RoleActive, ControlProtocol.Activate, _ =>
      let! w := require_worker RoleActive in
      let! supervisor := ensure (fun _ => map_err MasterReplacement
        (ReplacementSupervisor_new (mkInstance (w_instance_id w) (w_generation w) Active))) in
      let! _ := put (set_supervisor (Some supervisor)) in
      let! _ := put (set_stage Operational) in
      emit (InitialActivated (w_instance_id w))
  | Operational, RoleCandidate, ControlProtocol.AdoptListeners, Some AdoptingCandidate =>
      let! id := worker_id RoleCandidate in
      apply (CandidatePrepared id)
  | Operational, RoleActive, ControlProtocol.Quiesce, Some PhaseQuiescing =>
      let! id := worker_id RoleActive in
      apply (ActiveQuiesced id)
  | Operational, RoleCandidate, ControlProtocol.Activate, Some ActivatingCandidate =>
      let! id := worker_id RoleCandidate in
      apply (CandidateActivated id)
  | Operational, RoleActive, ControlProtocol.Reactivate, Some RollingBack =>
      let! id := worker_id RoleActive in
      let! _ := apply (ActiveReactivated id) in
      maybe_finish_rollback
  | Operational, RoleRetired, ControlProtocol.Drain, Some DrainingRetired =>
      let! id := worker_id RoleRetired in
      apply (RetiredDrained id)
  | Operational, RoleRetired, ControlProtocol.Shutdown, Some StoppingRetired => mret tt
  | ShuttingDown _ _, _, ControlProtocol.Shutdown, _ => mret tt
  | _, _, _, _ => fail UnexpectedAcknowledgement
  end.

(** The request an acknowledgement answers. *)
Definition ack_matches (ack : ControlAck) (pending : option Pending) : bool :=
  match pending with
  | None => false
  | Some p => (p_request_id p =? ack_request_id ack) && bool_decide (p_phase p = ack_phase ack)
  end.

Definition handle_ack (role : WorkerRole) (ack : ControlAck) (now : Instant) : MM unit :=
  let! pending := get (fun m => worker m role ≫= w_pending) in
  if negb (ack_matches ack pending) then
    emit (StaleAcknowledgement role (ack_request_id ack) (ack_phase ack))
  else
    let! _ := update_worker role (with_pending None) in
    match outcome ack with
    | Rejected _ => handle_phase_failure (run_actions now) role (phase_failure (ack_phase ack))
    | Accepted => handle_phase_success role (ack_phase ack) now
    end.

Definition handle_disconnect (role : WorkerRole) (now : Instant) : MM unit :=
  let! id := worker_id role in
  let! _ := emit (WorkerDisconnected role id) in
  let! st := get (fun m => w_state <$> worker m role) in
  match st with
  | Some (Terminating _) => mret tt
  | _ => handle_phase_failure (run_actions now) role FailDisconnected
  end.

Definition handle_exit (role : WorkerRole) (status : ExitStatus) (now : Instant) : MM unit :=
  let! id := worker_id role in
  let! replacement := replacement_phase in
  let apply := apply_replacement_event (run_actions now) in
  match replacement, role with
  | Some ActivatingCandidate, RoleActive =>
      let! _ := put (set_deferred (Some status)) in
      emit (WorkerExited role id status)
  | _, _ =>
      let! _ := emit (WorkerExited role id status) in
      let! stage := get ms_stage in
      match stage, replacement, role with
      | (Failing _ | ShuttingDown _ _), _, _ => take_worker role
      | Operational, Some RollingBack, RoleCandidate =>
          let! _ := take_worker role in
          let! _ := apply (CandidateStopped id) in
          maybe_finish_rollback
      | Operational, Some StoppingRetired, RoleRetired =>
          let! _ := take_worker role in
          let! _ := apply (RetiredStopped id) in
          let! failure := get ms_replacement_failure in
          match failure with
          | Some _ => complete_failed_retired
          | None => complete_replacement
          end
      | Operational, Some (AdoptingCandidate | PhaseQuiescing | ActivatingCandidate), RoleCandidate =>
          let! _ := begin_rollback (run_actions now) FailCrash in
          let! _ := take_worker role in
          let! _ := apply (CandidateStopped id) in
          maybe_finish_rollback
      | Operational, Some DrainingRetired, RoleRetired =>
          let! _ := fail_retired (run_actions now) FailCrash in
          let! _ := take_worker role in
          let! _ := apply (RetiredStopped id) in
          complete_failed_retired
      | _, _, _ =>
          let! _ := take_worker role in
          fail_master FailCrash
      end
  end.

Definition handle_observation (role : WorkerRole) (o : Observation) (now : Instant) : MM unit :=
  match o with
  | ObservedAck ack => handle_ack role ack now
  | ObservedStatus status => handle_status role status
  | ObservedExit status => handle_exit role status now
  | ObservedDisconnected => handle_disconnect role now
  | ObservedProtocolFailure => handle_phase_failure (run_actions now) role FailProtocol
  end.

(** What a frame of a worker says. *)
Definition decode_observation (frame : AuthenticatedFrame Fd) : Observation :=
  let ty := message_type (auth_header frame) in
  if ty =? ACK then
    match decode_ack frame with Ok ack => ObservedAck ack | Err _ => ObservedProtocolFailure end
  else if ty =? STATUS_MESSAGE then
    match decode_status reserve_vec frame with
    | Ok status => ObservedStatus status
    | Err _ => ObservedProtocolFailure
    end
  else ObservedProtocolFailure.

(** Polling and reading the channel of the worker in a role. *)
Abbreviation ChannelInputs := (WorkerRole -> result Z IoError * result (Received Fd) Z).

Definition receive_observation (role : WorkerRole) (inputs : ChannelInputs) : MM (option Observation) :=
  let! w := require_worker role in
  if negb (w_channel_open w) then mret None
  else
    let! r := on_process role w (process_try_receive (inputs role).1 (inputs role).2) in
    match r with
    | Ok (Some frame) => mret (Some (decode_observation frame))
    | Ok None => mret None
    | Err (Channel_WorkerGroupExited status) => mret (Some (ObservedExit status))
    | Err error =>
        if channel_disconnected error then
          let! _ := update_worker role (with_channel_open false) in
          mret (Some ObservedDisconnected)
        else mret (Some ObservedProtocolFailure)
    end.

Definition observe_worker (role : WorkerRole) (inputs : ChannelInputs) : MM (option Observed) :=
  let! deferred := get ms_deferred_active_exit in
  let! skip :=
    match role, deferred with
    | RoleActive, Some _ =>
        let! phase := replacement_phase in
        mret (match phase with Some ActivatingCandidate => true | _ => false end)
    | _, _ => mret false
    end in
  if skip : bool then mret None
  else
    let! w := get (fun m => worker m role) in
    match w with
    | None => mret None
    | Some w =>
        let id := w_instance_id w in
        let! r := on_process role w process_poll_event in
        let! event := ensure (fun _ => map_err MasterIo r) in
        match event with
        | Some (ProcessGroupExited status) => mret (Some (mkObserved id (ObservedExit status)))
        | None =>
            let! observation := receive_observation role inputs in
            mret (mkObserved id <$> observation)
        end
    end.

(** *** Deadlines *)

Definition pending_expired (now : Instant) (m : Master E P Fd) (role : WorkerRole) : bool :=
  match worker m role ≫= w_pending with Some p => p_deadline p <=? now | None => false end.

(** The termination deadline of a retired worker that is stopping has passed. *)
Definition retired_expired (now : Instant) : MM bool :=
  let! phase := replacement_phase in
  match phase with
  | Some StoppingRetired =>
      get (fun m => match ms_retired m ≫= w_termination_deadline with
                    | Some d => d <=? now | None => false end)
  | _ => mret false
  end.

Definition handle_timeout (now : Instant) : MM unit :=
  let! next := get next_deadline in
  match next with
  | None => mret tt
  | Some next =>
      if now <? next then mret tt
      else
        let! stage := get ms_stage in
        match stage with
        | ShuttingDown d forced =>
            let! _ := (if forced then mret tt else emit ShutdownForced) in
            let! _ := put (set_stage (ShuttingDown d true)) in
            for_each force_if_present all_roles
        | _ =>
            let! expired := retired_expired now in
            if expired : bool then
              let! retired := worker_id RoleRetired in
              let! _ := put (set_failure (Some FailShutdown)) in
              let! _ := update_worker RoleRetired (with_termination_deadline None) in
              apply_replacement_event (run_actions now) (TerminationTimedOut retired)
            else
              let! timed_out := get (fun m => List.find (pending_expired now m) all_roles) in
              match timed_out with
              | None => mret tt
              | Some role =>
                  let! phase := get (fun m =>
                    match worker m role ≫= w_pending with
                    | Some p => phase_failure (p_phase p) | None => FailProtocol end) in
                  let! _ := update_worker role (with_pending None) in
                  handle_phase_failure (run_actions now) role phase
              end
        end
  end.

Definition finish_terminal_states : MM unit :=
  let! count := get worker_count in
  if negb (count =? 0) then mret tt
  else
    let! stage := get ms_stage in
    match stage with
    | ShuttingDown _ forced =>
        let! _ := put (set_stage (StageStopped forced)) in
        emit (ShutdownCompleted forced)
    | Failing phase =>
        let! _ := put (set_stage StageFailed) in
        emit (FailedEvent phase)
    | _ => mret tt
    end.

(** *** The public operations *)

(** The stable sort of the observations: a candidate's accepted activation first. *)
Definition is_candidate_activation (candidate_id : option InstanceId) (o : Observed) : bool :=
  bool_decide (candidate_id = Some (ob_instance_id o)) &&
  match ob_observation o with
  | ObservedAck ack =>
      bool_decide (ack_phase ack = ControlProtocol.Activate) &&
      match outcome ack with Accepted => true | Rejected _ => false end
  | _ => false
  end.

Definition prioritize (candidate_id : option InstanceId) (observed : list Observed) : list Observed :=
  filter (fun o => is_candidate_activation candidate_id o = true) observed ++
  filter (fun o => is_candidate_activation candidate_id o = false) observed.

Definition handle_observed (now : Instant) (o : Observed) : MM unit :=
  let! role := get (fun m => role_for m (ob_instance_id o)) in
  match role with
  | None => mret tt
  | Some role => handle_observation role (ob_observation o) now
  end.

Definition poll (inputs : ChannelInputs) (now : Instant) : MM (list MasterEvent) :=
  let! _ := handle_timeout now in
  let! stage := get ms_stage in
  let! _ := match stage with Failing phase => fail_master phase | _ => mret tt end in
  let! phase := replacement_phase in
  let! candidate_id := get (fun m => w_instance_id <$> ms_candidate m) in
  let! a := observe_worker RoleActive inputs in
  let! c := observe_worker RoleCandidate inputs in
  let! r := observe_worker RoleRetired inputs in
  let observed := option_list a ++ option_list c ++ option_list r in
  let observed := match phase with
                  | Some ActivatingCandidate => prioritize candidate_id observed
                  | _ => observed
                  end in
  let! _ := for_each (handle_observed now) observed in
  let! _ := finish_terminal_states in
  let! events := get ms_events in
  let! _ := put (set_events []) in
  mret events.

(** The body of the loop over the roles at the start of a shutdown. *)
Definition shutdown_role (d : Instant) (role : WorkerRole) : MM unit :=
  let! w := get (fun m => worker m role) in
  match w with
  | None => mret tt
  | Some _ =>
      let! r := attempt (issue_at_deadline role ControlProtocol.Shutdown d) in
      match r with
      | Ok _ => mark_terminating role false
      | Err error =>
          if is_issue_failure error then
            let! _ := record_issue_failure role ControlProtocol.Shutdown error in
            let! _ := force_role role in
            put (fun m => match ms_stage m with
                          | ShuttingDown d _ => set_stage (ShuttingDown d true) m
                          | _ => m
                          end)
          else fail error
      end
  end.

Definition begin_shutdown (now : Instant) : MM unit :=
  let! timeout := get (fun m => shutdown_timeout (ms_config m)) in
  let! d := ensure (fun _ => deadline now timeout) in
  let! _ := take_deferred_active in
  let! _ := put (set_stage (ShuttingDown d false)) in
  let! _ := put (set_supervisor None) in
  let! _ := put (set_failure None) in
  let! _ := emit ShutdownStarted in
  for_each (shutdown_role d) all_roles.

Definition shutdown (now : Instant) : MM ShutdownProgress :=
  let! stage := get ms_stage in
  let! _ :=
    match stage with
    | ShuttingDown _ _ | StageStopped _ => mret tt
    | _ => begin_shutdown now
    end in
  let! _ := handle_timeout now in
  get shutdown_progress.

(** *** Starting workers *)

Section Factory.
(** [WorkerFactory::spawn], with its error as the text the master keeps of it. *)
Context {C : Type} (factory_spawn : C -> WorkerIdentity -> M K bytes P).

Definition launch_with_executor (config : MasterConfig) (listeners : StableListeners Fd) (executor : E)
    (input : WorkerInput C) (now : Instant) : M K MasterFailure (Master E P Fd) := fun k =>
  match validate_identity (in_identity input) with
  | Err e => (Err (Returned e), k)
  | Ok _ =>
      match factory_spawn (in_command input) (in_identity input) k with
      | (Err message, k') => (Err (Returned (MasterSpawn message)), k')
      | (Ok process, k') =>
          let m := mkMaster config listeners executor None
            (Some (ManagedWorker_new (in_instance_id input) (id_generation (in_identity input)) process))
            None None None None BootAdopting 1 [] history_new in
          let start :=
            let! r := attempt (issue_adoption RoleActive now) in
            match r with
            | Ok _ => mret tt
            | Err error =>
                compensate_issue_error (run_actions now) RoleActive ControlProtocol.AdoptListeners
                  FailListenerAdoption error
            end in
          let '(r, (m', k'')) := start (m, k') in
          (result_map (fun _ => m') r, k'')
      end
  end.

(** The closure [spawn] of [replace]. *)
Definition spawn_candidate (input : WorkerInput C) (instance : ServiceInstance) :
    M K MasterError (ManagedWorker P) := fun k =>
  let '(r, k') := factory_spawn (in_command input) (in_identity input) k in
  (result_map (ManagedWorker_new (instance_id instance) (id_generation (in_identity input)))
     (map_err MasterSpawn r), k').

Definition replace (input : WorkerInput C) (now : Instant) : MM unit :=
  let! current := state in
  if bool_decide (current <> StateRunning) then fail (InvalidState current)
  else
    let! _ := ensure (fun _ => validate_identity (in_identity input)) in
    let instance := mkInstance (in_instance_id input) (id_generation (in_identity input)) Spawned in
    let! original := get ms_supervisor in
    let! validated := ensure (fun _ =>
      let? supervisor := ok_or MissingSupervisor original in
      match ReplacementSupervisor_apply (Begin instance) supervisor with
      | (Ok actions, supervisor') => Ok (actions, supervisor')
      | (Err e, _) => Err (MasterReplacement e)
      end) in
    let! _ := put (set_supervisor (Some validated.2)) in
    let! r := attempt (execute_replacement_actions FUEL now (Some (spawn_candidate input)) validated.1) in
    match r with
    | Err error => let! _ := put (set_supervisor original) in fail error
    | Ok _ =>
        let apply := apply_replacement_event (run_actions now) in
        let! _ := apply (CandidateSpawned (in_instance_id input)) in
        apply (CandidateHandshakeComplete (in_instance_id input))
    end.
End Factory.
End Operations.
