(* ===== verification/MasterFacts.v ===== *)
(** Facts about [Master].

    The part of the master that decides what happens next, its control state, is
    projected out of the whole; every method is given a specification on it,
    whatever the executor, the processes and the operating system answer.  From
    these follow, in [MasterRuns] and [MasterEnd], the invariant of the master,
    which errors its methods return, and that a shutdown ends. *)

From stdpp Require Import base countable strings list.
From Stdlib Require Import ZArith Lia.
From S2P Require Import Prelude Bytes Identity Catalog Transport Descriptor Channel ControlProtocol.
From S2P Require Import StatusProtocol SupervisorStatus Clock Listeners Replacement Master.

Open Scope Z_scope.

(** ** The control state *)

Record CW : Type := mkCW {
  cw_id : InstanceId;
  cw_generation : GenerationId;
  cw_pending : option Pending;
  cw_deadline : option Z;
  cw_state : WorkerState;
}.

Record Ctl : Type := mkCtl {
  c_supervisor : option ReplacementSupervisor;
  c_active : option CW;
  c_candidate : option CW;
  c_retired : option CW;
  c_deferred : option ExitStatus;
  c_failure : option FailurePhase;
  c_stage : Stage;
}.

Definition c_worker (C : Ctl) (role : WorkerRole) : option CW :=
  match role with
  | RoleActive => c_active C | RoleCandidate => c_candidate C | RoleRetired => c_retired C
  end.
Definition c_set_worker (role : WorkerRole) (w : option CW) (C : Ctl) : Ctl :=
  match role with
  | RoleActive =>
      mkCtl (c_supervisor C) w (c_candidate C) (c_retired C) (c_deferred C) (c_failure C) (c_stage C)
  | RoleCandidate =>
      mkCtl (c_supervisor C) (c_active C) w (c_retired C) (c_deferred C) (c_failure C) (c_stage C)
  | RoleRetired =>
      mkCtl (c_supervisor C) (c_active C) (c_candidate C) w (c_deferred C) (c_failure C) (c_stage C)
  end.
Definition c_set_supervisor (s : option ReplacementSupervisor) (C : Ctl) : Ctl :=
  mkCtl s (c_active C) (c_candidate C) (c_retired C) (c_deferred C) (c_failure C) (c_stage C).
Definition c_set_deferred (d : option ExitStatus) (C : Ctl) : Ctl :=
  mkCtl (c_supervisor C) (c_active C) (c_candidate C) (c_retired C) d (c_failure C) (c_stage C).
Definition c_set_failure (f : option FailurePhase) (C : Ctl) : Ctl :=
  mkCtl (c_supervisor C) (c_active C) (c_candidate C) (c_retired C) (c_deferred C) f (c_stage C).
Definition c_set_stage (st : Stage) (C : Ctl) : Ctl :=
  mkCtl (c_supervisor C) (c_active C) (c_candidate C) (c_retired C) (c_deferred C) (c_failure C) st.

Definition c_role_for (C : Ctl) (id : InstanceId) : option WorkerRole :=
  List.find (fun role =>
    match c_worker C role with Some w => bool_decide (cw_id w = id) | None => false end) all_roles.

Definition cw_with_pending (p : option Pending) (w : CW) : CW :=
  mkCW (cw_id w) (cw_generation w) p (cw_deadline w) (cw_state w).
Definition cw_with_deadline (d : option Z) (w : CW) : CW :=
  mkCW (cw_id w) (cw_generation w) (cw_pending w) d (cw_state w).
Definition cw_with_state (st : WorkerState) (w : CW) : CW :=
  mkCW (cw_id w) (cw_generation w) (cw_pending w) (cw_deadline w) st.
Definition forced (w : CW) : CW :=
  mkCW (cw_id w) (cw_generation w) None (cw_deadline w) (Terminating true).

(** A killed worker has no request outstanding. *)
Definition cw_ok (w : CW) : Prop := cw_state w = Terminating true -> cw_pending w = None.

Lemma running_ok i g p d : cw_ok (mkCW i g p d WorkerRunning).
Proof. done. Qed.

(** A statement about every worker of an explicit control state. *)
Ltac workers :=
  intros [] w Hw; first [discriminate Hw | injection Hw as <-; first [exact I | reflexivity | assumption | intros ?; reflexivity | by intros [=]]].

#[local] Arguments execute_replacement_actions : simpl never.

Section Control.
Context {E P K Fd : Type} `{!ManagedProcess P K Fd, !ActionExecutor E P K Fd}.
Context (reserve reserve_vec : Z -> bool).
Implicit Types (m : Master E P Fd) (C : Ctl) (role : WorkerRole).

Definition cw_of (w : ManagedWorker P) : CW :=
  mkCW (w_instance_id w) (w_generation w) (w_pending w) (w_termination_deadline w) (w_state w).
Definition ctl m : Ctl :=
  mkCtl (ms_supervisor m) (cw_of <$> ms_active m) (cw_of <$> ms_candidate m) (cw_of <$> ms_retired m)
    (ms_deferred_active_exit m) (ms_replacement_failure m) (ms_stage m).

Lemma ctl_worker m role : c_worker (ctl m) role = cw_of <$> worker m role.
Proof. by destruct role. Qed.
Lemma ctl_set_worker m role o : ctl (set_worker role o m) = c_set_worker role (cw_of <$> o) (ctl m).
Proof. by destruct role. Qed.
Lemma ctl_role_for m id : role_for m id = c_role_for (ctl m) id.
Proof.
  unfold role_for, c_role_for, all_roles. cbn [List.find]. rewrite !ctl_worker.
  by destruct (worker m RoleActive), (worker m RoleCandidate), (worker m RoleRetired).
Qed.

(** ** Specifications of methods

    [spec Er c C Q]: from a master with control state [C] the method does not
    panic or run out of fuel; it returns a value and leaves a control state that
    satisfy [Q], or it returns an error that satisfies [Er] there. *)
Section Spec.
Context (Er : MasterError -> Ctl -> Prop).

Definition spec {A} (c : MM (E:=E) (P:=P) (K:=K) (Fd:=Fd) A) C (Q : A -> Ctl -> Prop) : Prop :=
  forall m k, ctl m = C ->
    match c (m, k) with
    | (Ok a, (m', _)) => Q a (ctl m')
    | (Err (Returned e), (m', _)) => Er e (ctl m')
    | (Err _, _) => False
    end.

Lemma spec_ret {A} (a : A) C Q : Q a C -> spec (mret a) C Q.
Proof. intros H m k <-. done. Qed.
Lemma spec_fail {A} e C (Q : A -> Ctl -> Prop) : Er e C -> spec (fail e) C Q.
Proof. intros H m k <-. done. Qed.
Lemma spec_bind {A B} (c : MM A) (f : A -> MM B) C Q :
  spec c C (fun a C' => spec (f a) C' Q) -> spec (mbind_se c f) C Q.
Proof.
  intros H m k HC. unfold mbind_se. specialize (H m k HC).
  destruct (c (m, k)) as [[a|[]] [m' k']]; [by apply H|done..].
Qed.
Lemma spec_weaken {A} (c : MM A) C (Q Q' : A -> Ctl -> Prop) :
  spec c C Q -> (forall a C', Q a C' -> Q' a C') -> spec c C Q'.
Proof.
  intros H HQ m k HC. specialize (H m k HC). destruct (c (m, k)) as [[a|[]] [m' k']]; auto.
Qed.
Lemma spec_get {A} (f : Master E P Fd -> A) C (Q : A -> Ctl -> Prop) :
  (forall m, ctl m = C -> Q (f m) C) -> spec (get f) C Q.
Proof. intros H m k HC. cbn. rewrite HC. by apply H. Qed.
Lemma spec_ensure {A} (f : Master E P Fd -> result A MasterError) C (Q : A -> Ctl -> Prop) :
  (forall m, ctl m = C -> match f m with Ok a => Q a C | Err e => Er e C end) -> spec (ensure f) C Q.
Proof.
  intros H m k HC. specialize (H m HC). unfold ensure, mtry. cbn [fst].
  destruct (f m); cbn; by rewrite HC.
Qed.
Lemma spec_put f C C' (Q : unit -> Ctl -> Prop) :
  (forall m, ctl m = C -> ctl (f m) = C') -> Q tt C' -> spec (put f) C Q.
Proof. intros H HQ m k HC. cbn. by rewrite (H m HC). Qed.
Lemma spec_emit ev C (Q : unit -> Ctl -> Prop) : Q tt C -> spec (emit ev) C Q.
Proof. intros H. by apply (spec_put _ C C). Qed.

Lemma spec_attempt {A} (c : MM A) C (Q : result A MasterError -> Ctl -> Prop) :
  (forall m k, ctl m = C -> match c (m, k) with
     | (Ok a, (m', _)) => Q (Ok a) (ctl m')
     | (Err (Returned e), (m', _)) => Q (Err e) (ctl m')
     | (Err _, _) => False end) ->
  spec (attempt c) C Q.
Proof.
  intros H m k HC. specialize (H m k HC). unfold attempt.
  destruct (c (m, k)) as [[a|[]] [m' k']]; done.
Qed.

Lemma spec_worker_id role (w : CW) C (Q : InstanceId -> Ctl -> Prop) :
  c_worker C role = Some w -> Q (cw_id w) C -> spec (worker_id role) C Q.
Proof.
  intros Hw HQ. apply spec_ensure. intros m <-. rewrite ctl_worker in Hw.
  destruct (worker m role); cbn in *; by simplify_eq.
Qed.
Lemma spec_require role cw C (Q : ManagedWorker P -> Ctl -> Prop) :
  c_worker C role = Some cw -> (forall w, cw_of w = cw -> Q w C) -> spec (require_worker role) C Q.
Proof.
  intros Hw HQ. apply spec_ensure. intros m <-. rewrite ctl_worker in Hw.
  destruct (worker m role); cbn in *; simplify_eq. by apply HQ.
Qed.
Lemma spec_update role cw cw' f C (Q : unit -> Ctl -> Prop) :
  c_worker C role = Some cw -> (forall w, cw_of w = cw -> cw_of (f w) = cw') ->
  Q tt (c_set_worker role (Some cw') C) -> spec (update_worker role f) C Q.
Proof.
  intros Hw Hf HQ. apply spec_bind, (spec_require _ _ _ _ Hw). intros w Ew.
  eapply spec_put; [|exact HQ]. intros m <-. rewrite ctl_set_worker. cbn. by rewrite (Hf w Ew).
Qed.
Lemma spec_on_process {X A} role cw w (c : M (P * K) X A) C (Q : result A X -> Ctl -> Prop) :
  c_worker C role = Some cw -> cw_of w = cw -> (forall s, Q (c s).1 C) -> spec (on_process role w c) C Q.
Proof.
  intros Hw Ew HQ m k HC. unfold on_process. specialize (HQ (w_process w, k)).
  destruct (c (w_process w, k)) as [r [p' k']].
  rewrite ctl_set_worker, HC. cbn.
  replace (c_set_worker role _ C) with C; [exact HQ|].
  change (cw_of (with_process p' w)) with (cw_of w). rewrite Ew, <- Hw. by destruct C, role.
Qed.
Lemma spec_phase_none C (Q : option ReplacementPhase -> Ctl -> Prop) :
  c_supervisor C = None -> Q None C -> spec replacement_phase C Q.
Proof. intros Hs HQ m k <-. unfold replacement_phase. cbn in *. by rewrite Hs. Qed.
Lemma spec_phase s p C (Q : option ReplacementPhase -> Ctl -> Prop) :
  c_supervisor C = Some s -> ReplacementSupervisor_phase s = Some p -> Q (Some p) C ->
  spec replacement_phase C Q.
Proof. intros Hs Hp HQ m k <-. unfold replacement_phase. cbn in *. by rewrite Hs, Hp. Qed.
Lemma spec_apply s ev acts s' C (Q : list ReplacementAction -> Ctl -> Prop) :
  c_supervisor C = Some s -> accepted s ev acts s' -> Q acts (c_set_supervisor (Some s') C) ->
  spec (supervisor_apply ev) C Q.
Proof.
  intros Hs Ha HQ m k <-. unfold supervisor_apply. cbn in Hs. rewrite Hs.
  apply accepted_apply in Ha. by rewrite Ha.
Qed.
End Spec.

(** *** Issuing a request

    Preparing one leaves the control state as it is and fails only as an issue. *)
Definition quiet {A} (c : MM (E:=E) (P:=P) (K:=K) (Fd:=Fd) A) (R : A -> Prop) : Prop :=
  forall m k, let '(r, (m', _)) := c (m, k) in
    ctl m' = ctl m /\
    match r with Ok a => R a | Err (Returned e) => is_issue_failure e = true | Err _ => False end.

Lemma quiet_ret {A} (a : A) (R : A -> Prop) : R a -> quiet (mret a) R.
Proof. by intros H m k. Qed.
Lemma quiet_bind {A B} (c : MM A) (f : A -> MM B) (R : A -> Prop) (R' : B -> Prop) :
  quiet c R -> (forall a, R a -> quiet (f a) R') -> quiet (mbind_se c f) R'.
Proof.
  intros Hc Hf m k. unfold mbind_se. specialize (Hc m k).
  destruct (c (m, k)) as [[a|e] [m' k']]; [|done]. destruct Hc as [HC HR].
  specialize (Hf a HR m' k'). destruct (f a (m', k')) as [r [m'' k'']]. by rewrite <- HC.
Qed.
Lemma quiet_get {A} (f : Master E P Fd -> A) : quiet (get f) (fun _ => True).
Proof. by intros m k. Qed.
Lemma quiet_prepare_step role phase step : quiet (prepare_step role phase step) (fun _ => True).
Proof.
  intros m k. unfold prepare_step. by destruct (prepare role phase step (ms_executor m)) as [[] e'].
Qed.
Lemma quiet_take_request_id : quiet take_request_id (fun _ => True).
Proof.
  eapply quiet_bind; [apply quiet_get|]. intros id _.
  destruct (checked_add u64_max id 1); [|by intros m k].
  eapply (quiet_bind _ _ (fun _ => True)); [by intros m k|]. intros _ _. by apply quiet_ret.
Qed.
Lemma quiet_encode id phase adoption :
  quiet (ensure (fun m => encode_payload reserve id phase adoption (ms_listeners m))) (fun _ => True).
Proof.
  intros m k. unfold ensure, mtry, encode_payload. cbn [fst]. destruct adoption.
  - by destruct (encode_adopt_request reserve id (manifest (ms_listeners m))).
  - by destruct (reserve (len (encode_request id))).
Qed.
Lemma quiet_duplicate role : quiet (executor_duplicate role) (fun _ => True).
Proof.
  intros m k. unfold executor_duplicate.
  by destruct (duplicate_listeners role (ms_listeners m) (ms_executor m, k)) as [[] [e' k']].
Qed.

Lemma quiet_prepare_at role phase d adoption :
  quiet (prepare_request_at_deadline reserve role phase d adoption)
    (fun request => p_phase (pr_pending request) = phase).
Proof.
  unfold prepare_request_at_deadline.
  eapply quiet_bind; [apply quiet_prepare_step|intros _ _].
  eapply quiet_bind; [apply quiet_take_request_id|intros id _].
  eapply quiet_bind; [apply quiet_prepare_step|intros _ _].
  eapply quiet_bind; [apply quiet_prepare_step|intros _ _].
  eapply quiet_bind; [apply quiet_encode|intros payload _]. by apply quiet_ret.
Qed.
Lemma quiet_prepare_request role phase now timeout adoption :
  quiet (prepare_request reserve role phase now timeout adoption)
    (fun request => p_phase (pr_pending request) = phase).
Proof.
  eapply quiet_bind; [apply quiet_prepare_step|intros _ _].
  eapply (quiet_bind _ _ (fun _ => True)); [|intros d _; apply quiet_prepare_at].
  intros m k. unfold ensure, mtry. by destruct (checked_add INSTANT_MAX now timeout).
Qed.

(** The outcomes of issuing a request in [phase] to the worker of [role]. *)
Definition issued {A} role (phase : ControlPhase) (w : CW) C (r : result A MasterError) C' : Prop :=
  match r with
  | Ok _ => exists p, p_phase p = phase /\ C' = c_set_worker role (Some (cw_with_pending (Some p) w)) C
  | Err e => is_issue_failure e = true /\ C' = C
  end.

Definition issue_outcome {A} role phase w C (out : result A MasterFailure * (Master E P Fd * K)) : Prop :=
  match out with
  | (Ok a, (m', _)) => issued role phase w C (Ok a) (ctl m')
  | (Err (Returned e), (m', _)) => issued (A:=A) role phase w C (Err e) (ctl m')
  | (Err _, _) => False
  end.

Lemma dispatch_issued role request fds w C m k :
  ctl m = C -> c_worker C role = Some w ->
  issue_outcome role (p_phase (pr_pending request)) w C (dispatch role request fds (m, k)).
Proof.
  intros HC Hw. unfold dispatch. rewrite <- HC, ctl_worker in Hw.
  destruct (worker m role) as [w0|] eqn:E0; [|done]. cbn in Hw. simplify_eq.
  destruct (send_request _ _ _ _ _) as [[u|e] [[e' p'] k']]; cbn [issued issue_outcome].
  - exists (pr_pending request). split; [done|].
    change (ctl (set_executor e' ?x)) with (ctl x). by rewrite ctl_set_worker.
  - split; [done|]. change (ctl (set_executor e' ?x)) with (ctl x). rewrite ctl_set_worker. cbn.
    change (cw_of (with_process p' w0)) with (cw_of w0).
    assert (c_worker (ctl m) role = Some (cw_of w0)) as <- by (by rewrite ctl_worker, E0).
    by destruct role.
Qed.

(** A prepared request is dispatched. *)
Lemma quiet_issued {A B} (prep : MM B) (rest : B -> MM A) (R : B -> Prop) role phase w C m k :
  quiet prep R -> ctl m = C ->
  (forall b m k, R b -> ctl m = C -> issue_outcome role phase w C (rest b (m, k))) ->
  issue_outcome role phase w C (mbind_se prep rest (m, k)).
Proof.
  intros Hq HC Hr. unfold mbind_se. specialize (Hq m k).
  destruct (prep (m, k)) as [[b|[]] [m' k']]; destruct Hq as [Hm Hb]; [|cbn|done..].
  - apply Hr; [done|congruence].
  - split; [done|congruence].
Qed.

Section Issue.
Context (Er : MasterError -> Ctl -> Prop).
Context role (w : CW) C (Hw : c_worker C role = Some w).

Lemma spec_attempt_issue {A} (c : MM A) phase (Q : result A MasterError -> Ctl -> Prop) :
  (forall m k, ctl m = C -> issue_outcome role phase w C (c (m, k))) ->
  (forall r C', issued role phase w C r C' -> Q r C') -> spec Er (attempt c) C Q.
Proof.
  intros Hc HQ. apply spec_attempt. intros m k HC. specialize (Hc m k HC).
  destruct (c (m, k)) as [[a|[]] [m' k']]; auto.
Qed.

Lemma spec_issue phase now timeout (Q : result Z MasterError -> Ctl -> Prop) :
  (forall r C', issued role phase w C r C' -> Q r C') ->
  spec Er (attempt (issue reserve role phase now timeout)) C Q.
Proof.
  apply spec_attempt_issue. intros m k HC.
  eapply quiet_issued; [apply quiet_prepare_request|done|]. intros b m1 k1 <- HC1.
  unfold mbind_se. pose proof (dispatch_issued role b [] w C m1 k1 HC1 Hw) as H.
  by destruct (dispatch _ _ _ _) as [[a|[]] [m' k']].
Qed.

Lemma spec_issue_adoption now (Q : result unit MasterError -> Ctl -> Prop) :
  (forall r C', issued role ControlProtocol.AdoptListeners w C r C' -> Q r C') ->
  spec Er (attempt (issue_adoption reserve role now)) C Q.
Proof.
  apply spec_attempt_issue. intros m k HC.
  eapply quiet_issued; [apply quiet_get|done|]. intros timeout m1 k1 _ HC1.
  eapply quiet_issued; [apply quiet_prepare_request|done|]. intros b m2 k2 <- HC2.
  eapply quiet_issued; [apply quiet_duplicate|done|]. intros fds m3 k3 _ HC3.
  by apply dispatch_issued.
Qed.

Lemma spec_issue_at phase d (Q : result unit MasterError -> Ctl -> Prop) :
  (forall r C', issued role phase w C r C' -> Q r C') ->
  spec Er (attempt (issue_at_deadline reserve role phase d)) C Q.
Proof.
  apply spec_attempt_issue. intros m k HC.
  eapply quiet_issued; [apply quiet_prepare_step|done|]. intros _ m1 k1 _ HC1.
  eapply quiet_issued; [apply quiet_prepare_at|done|]. intros b m2 k2 <- HC2.
  by apply dispatch_issued.
Qed.
End Issue.

(** *** Ending workers *)

(** The errors the operating system can give: to a request to kill a worker, and
    to a poll of its process. *)
Definition kill_error (e : IoError) : Prop := exists s : P * K, (process_request_kill s).1 = Err e.
Definition poll_error (e : IoError) : Prop := exists s : P * K, (process_poll_event s).1 = Err e.

Section Ends.
Context (Er : MasterError -> Ctl -> Prop).

(** What a failed attempt to kill a worker returns is allowed in [C]. *)
Definition may_fail C : Prop := forall e, kill_error e -> Er (MasterIo e) C.

Lemma spec_stage C (Q : Stage -> Ctl -> Prop) : Q (c_stage C) C -> spec Er (get ms_stage) C Q.
Proof. intros H. apply spec_get. by intros m <-. Qed.
Lemma spec_deferred C (Q : option ExitStatus -> Ctl -> Prop) :
  Q (c_deferred C) C -> spec Er (get ms_deferred_active_exit) C Q.
Proof. intros H. apply spec_get. by intros m <-. Qed.
Lemma spec_failure C (Q : option FailurePhase -> Ctl -> Prop) :
  Q (c_failure C) C -> spec Er (get ms_replacement_failure) C Q.
Proof. intros H. apply spec_get. by intros m <-. Qed.
Lemma spec_role_for id C (Q : option WorkerRole -> Ctl -> Prop) :
  Q (c_role_for C id) C -> spec Er (get (fun m => role_for m id)) C Q.
Proof. intros H. apply spec_get. intros m <-. by rewrite ctl_role_for. Qed.
Lemma spec_ensure_role id role e C (Q : WorkerRole -> Ctl -> Prop) :
  c_role_for C id = Some role -> Q role C ->
  spec Er (ensure (fun m => ok_or e (role_for m id))) C Q.
Proof. intros Hr H. apply spec_ensure. intros m <-. by rewrite ctl_role_for, Hr. Qed.
Lemma spec_worker_state role C (Q : option WorkerState -> Ctl -> Prop) :
  Q (cw_state <$> c_worker C role) C -> spec Er (get (fun m => w_state <$> worker m role)) C Q.
Proof. intros H. apply spec_get. intros m <-. rewrite ctl_worker in H. by destruct (worker m role). Qed.
Lemma spec_worker_pending role C (Q : option Pending -> Ctl -> Prop) :
  Q (c_worker C role ≫= cw_pending) C -> spec Er (get (fun m => worker m role ≫= w_pending)) C Q.
Proof. intros H. apply spec_get. intros m <-. rewrite ctl_worker in H. by destruct (worker m role). Qed.
Lemma spec_set_stage st C (Q : unit -> Ctl -> Prop) :
  Q tt (c_set_stage st C) -> spec Er (put (set_stage st)) C Q.
Proof. apply spec_put. by intros m <-. Qed.
Lemma spec_set_failure f C (Q : unit -> Ctl -> Prop) :
  Q tt (c_set_failure f C) -> spec Er (put (set_failure f)) C Q.
Proof. apply spec_put. by intros m <-. Qed.
Lemma spec_set_deferred d C (Q : unit -> Ctl -> Prop) :
  Q tt (c_set_deferred d C) -> spec Er (put (set_deferred d)) C Q.
Proof. apply spec_put. by intros m <-. Qed.
Lemma spec_set_supervisor s C (Q : unit -> Ctl -> Prop) :
  Q tt (c_set_supervisor s C) -> spec Er (put (set_supervisor s)) C Q.
Proof. apply spec_put. by intros m <-. Qed.

Lemma forced_id w : cw_ok w -> cw_state w = Terminating true -> forced w = w.
Proof. intros Hok Hs. destruct w as [i g p d st]; cbn in *. unfold forced. cbn.
  unfold cw_ok in Hok. cbn in Hok. by rewrite (Hok Hs), Hs. Qed.
Lemma c_set_same role C : c_set_worker role (c_worker C role) C = C.
Proof. by destruct role, C. Qed.

Lemma spec_force role w C (Q : unit -> Ctl -> Prop) :
  may_fail C -> c_worker C role = Some w -> cw_ok w -> Q tt (c_set_worker role (Some (forced w)) C) ->
  spec Er (force_role role) C Q.
Proof.
  intros Hio Hw Hok HQ. unfold force_role. apply spec_bind, spec_worker_state. rewrite Hw. cbn.
  destruct (decide (cw_state w = Terminating true)) as [Hs|Hs].
  - rewrite Hs. apply spec_ret. rewrite (forced_id w Hok Hs), <- Hw, c_set_same in HQ. done.
  - assert (spec Er (let! w := require_worker role in
      let! r := on_process role w process_request_kill in
      let! _ := ensure (fun _ => map_err MasterIo r) in
      let! _ := update_worker role (fun w => with_state (Terminating true) (with_pending None w)) in
      emit (TerminationRequested role true)) C Q) as H; [|by destruct (cw_state w) as [|[]]].
    eapply spec_bind, spec_require; [done|]. intros w0 <-.
    eapply spec_bind, spec_on_process; [done|done|]. intros s.
    apply spec_bind, spec_ensure. intros _ _.
    destruct (process_request_kill s).1 as [[]|e] eqn:Ee; cbn; [|apply Hio; by exists s].
    eapply spec_bind, (spec_update _ _ _ (forced (cw_of w0))); [done| |by apply spec_emit].
    intros w' E'. unfold forced. by rewrite <- E'.
Qed.

Lemma spec_take role C (Q : unit -> Ctl -> Prop) :
  Q tt (c_set_worker role None C) -> spec Er (take_worker role) C Q.
Proof.
  intros HQ. unfold take_worker. apply spec_bind, spec_get. intros m _.
  apply spec_bind, (spec_put _ _ _ (c_set_worker role None C)); [intros m' <-; by rewrite ctl_set_worker|].
  eapply spec_put; [|exact HQ]. by intros m' <-.
Qed.

Lemma spec_record_issue role phase e C (Q : unit -> Ctl -> Prop) :
  is_issue_failure e = true -> Q tt C -> spec Er (record_issue_failure role phase e) C Q.
Proof. intros He HQ. destruct e; try done; by apply spec_emit. Qed.

Definition c_force role C : Ctl :=
  match c_worker C role with Some w => c_set_worker role (Some (forced w)) C | None => C end.
Definition workers_ok C : Prop := forall role w, c_worker C role = Some w -> cw_ok w.

Lemma spec_force_if_present role C (Q : unit -> Ctl -> Prop) :
  may_fail C -> workers_ok C -> Q tt (c_force role C) -> spec Er (force_if_present role) C Q.
Proof.
  intros Hio Hok HQ. unfold force_if_present. apply spec_bind, spec_get. intros m <-.
  unfold c_force in HQ. rewrite ctl_worker in HQ. specialize (Hok role). rewrite ctl_worker in Hok.
  destruct (worker m role) as [w|] eqn:Ew; cbn in *; [|by apply spec_ret].
  apply (spec_force _ (cw_of w)); [done|by rewrite ctl_worker, Ew|by apply Hok|done].
Qed.

Lemma forced_ok w : cw_ok (forced w).
Proof. done. Qed.
Lemma c_force_ok role C : workers_ok C -> workers_ok (c_force role C).
Proof.
  unfold workers_ok, c_force. intros H r w. specialize (H r).
  destruct role, C as [s [] [] [] d f st], r; cbn in *; try done; intros [= <-]; auto using forced_ok.
Qed.

Definition c_force_all C : Ctl := c_force RoleRetired (c_force RoleCandidate (c_force RoleActive C)).

(** [C'] is [C] with some of its workers killed. *)
Definition forcing C C' : Prop :=
  c_supervisor C' = c_supervisor C /\ c_deferred C' = c_deferred C /\ c_stage C' = c_stage C /\
  forall role, c_worker C' role = c_worker C role \/ c_worker C' role = forced <$> c_worker C role.

Lemma forcing_refl C : forcing C C.
Proof. split_and!; try done. by left. Qed.
Lemma forcing_force role C C' : forcing C C' -> forcing C (c_force role C').
Proof.
  intros (Hs & Hd & Ht & Hw). unfold c_force. destruct (c_worker C' role) as [w|] eqn:Ew; [|done].
  split_and!; [by destruct role..|]. intros r. destruct (decide (r = role)) as [->|Hne].
  - right. transitivity (Some (forced w)); [by destruct role|]. destruct (Hw role) as [Hr|Hr]; rewrite Ew in Hr.
    + by rewrite <- Hr.
    + destruct (c_worker C role); [|done]. by injection Hr as ->.
  - destruct (Hw r) as [<- | <-]; [left|right]; by destruct r, role.
Qed.
Lemma forcing_workers C C' : forcing C C' -> workers_ok C -> workers_ok C'.
Proof.
  intros (_ & _ & _ & Hw) Hok role w Hr. destruct (Hw role) as [E'|E']; rewrite E' in Hr; [by apply (Hok role)|].
  destruct (c_worker C role); [|done]. by injection Hr as <-.
Qed.

Lemma spec_force_all C (Q : unit -> Ctl -> Prop) :
  (forall C', forcing C C' -> may_fail C') ->
  workers_ok C -> Q tt (c_force_all C) -> spec Er (for_each force_if_present all_roles) C Q.
Proof.
  intros Hio H HQ. cbn [for_each all_roles]. pose proof (forcing_refl C) as F.
  apply spec_bind, spec_force_if_present; [by apply Hio|done|]. apply (forcing_force RoleActive) in F.
  apply spec_bind, spec_force_if_present; [by apply Hio|by apply c_force_ok|]. apply (forcing_force RoleCandidate) in F.
  apply spec_bind, spec_force_if_present; [by apply Hio|by do 2 apply c_force_ok|]. by apply spec_ret.
Qed.

Lemma spec_take_deferred C (Q : unit -> Ctl -> Prop) :
  Q tt (match c_deferred C with
        | Some _ => c_set_worker RoleActive None (c_set_deferred None C)
        | None => c_set_deferred None C end) ->
  spec Er take_deferred_active C Q.
Proof.
  intros HQ. unfold take_deferred_active. apply spec_bind, spec_deferred.
  apply spec_bind, spec_set_deferred. destruct (c_deferred C); [by apply spec_take|by apply spec_ret].
Qed.

(** The state that failing closed forces the workers of. *)
Definition c_closing (phase : FailurePhase) C : Ctl :=
  let C := match c_stage C with Failing _ => C | _ => c_set_stage (Failing phase) C end in
  match c_deferred C with
  | Some _ => c_set_worker RoleActive None (c_set_deferred None C)
  | None => c_set_deferred None C
  end.

(** The control state after failing closed. *)
Definition c_failed (phase : FailurePhase) C : Ctl := c_force_all (c_closing phase C).

Lemma spec_fail_master phase C (Q : unit -> Ctl -> Prop) :
  (forall C', forcing (c_closing phase C) C' -> may_fail C') ->
  workers_ok C -> c_stage C <> StageFailed -> Q tt (c_failed phase C) -> spec Er (fail_master phase) C Q.
Proof.
  intros Hio Hok Hst HQ. unfold fail_master. apply spec_bind, spec_stage.
  unfold c_failed, c_closing in HQ, Hio.
  set (C1 := match c_stage C with Failing _ => C | _ => c_set_stage (Failing phase) C end) in *.
  assert (workers_ok C1 /\ spec Er (match c_stage C with
    | Failing _ => mret tt
    | _ => let! _ := put (set_stage (Failing phase)) in emit (FailClosed phase) end) C
    (fun _ C' => C' = C1)) as [Hok1 H1].
  { split; [by unfold C1; destruct (c_stage C)|].
    unfold C1. destruct (c_stage C); try (apply spec_bind, spec_set_stage, spec_emit; done).
    by apply spec_ret. }
  assert (spec Er (let! _ := match c_stage C with
    | Failing _ => mret tt
    | _ => let! _ := put (set_stage (Failing phase)) in emit (FailClosed phase) end in
    let! _ := take_deferred_active in for_each force_if_present all_roles) C Q) as H;
    [|by destruct (c_stage C)].
  apply spec_bind. eapply spec_weaken; [exact H1|]. intros [] C' ->.
  apply spec_bind, spec_take_deferred. apply spec_force_all; [exact Hio| |done].
  destruct (c_deferred C1); [|done]. 
  intros [] w Hw; [done|exact (Hok1 RoleCandidate w Hw)|exact (Hok1 RoleRetired w Hw)].
Qed.
End Ends.
(** ** The invariant

    The shapes a master at rest can have: the roles of the supervisor agree with
    the workers, and a worker waits at most for the acknowledgement that its
    phase of the replacement expects.  [lapsed] says that the operating system
    has refused to kill a worker: then a worker that was to be killed may still
    wait for an acknowledgement, and still send it. *)
Definition waits (phase : ControlPhase) (p : option Pending) : Prop :=
  match p with Some p => p_phase p = phase | None => True end.

Inductive operational (lapsed : Prop) : Ctl -> Prop :=
| op_running a ga da f :
    operational lapsed (mkCtl (Some (mkSupervisor (mkInstance a ga Active) None None))
      (Some (mkCW a ga None da WorkerRunning)) None None None f Operational)
| op_adopting a ga da c gc pc dc f :
    a <> c -> waits ControlProtocol.AdoptListeners pc ->
    operational lapsed (mkCtl (Some (mkSupervisor (mkInstance a ga Active) (Some (mkInstance c gc Preparing)) None))
      (Some (mkCW a ga None da WorkerRunning)) (Some (mkCW c gc pc dc WorkerRunning)) None None f Operational)
| op_quiescing a ga pa da c gc dc f :
    a <> c -> waits ControlProtocol.Quiesce pa ->
    operational lapsed (mkCtl (Some (mkSupervisor (mkInstance a ga Quiescing) (Some (mkInstance c gc Ready)) None))
      (Some (mkCW a ga pa da WorkerRunning)) (Some (mkCW c gc None dc WorkerRunning)) None None f Operational)
| op_activating a ga da c gc pc dc d f :
    a <> c -> waits ControlProtocol.Activate pc ->
    operational lapsed (mkCtl (Some (mkSupervisor (mkInstance a ga Quiescing) (Some (mkInstance c gc Activating)) None))
      (Some (mkCW a ga None da WorkerRunning)) (Some (mkCW c gc pc dc WorkerRunning)) None d f Operational)
| op_rolling a ga la pa da c gc pc dc sc f :
    a <> c -> pc = None \/ lapsed -> cw_ok (mkCW c gc pc dc sc) -> la = Active /\ pa = None \/ la = Reactivating /\ waits ControlProtocol.Reactivate pa ->
    operational lapsed (mkCtl (Some (mkSupervisor (mkInstance a ga la) (Some (mkInstance c gc Stopping)) None))
      (Some (mkCW a ga pa da WorkerRunning)) (Some (mkCW c gc pc dc sc)) None None f Operational)
| op_restoring a ga pa da f :
    waits ControlProtocol.Reactivate pa ->
    operational lapsed (mkCtl (Some (mkSupervisor (mkInstance a ga Reactivating) None None))
      (Some (mkCW a ga pa da WorkerRunning)) None None None f Operational)
| op_draining a ga da r gr pr dr f :
    a <> r -> waits ControlProtocol.Drain pr ->
    operational lapsed (mkCtl (Some (mkSupervisor (mkInstance a ga Active) None (Some (mkInstance r gr Draining))))
      (Some (mkCW a ga None da WorkerRunning)) None (Some (mkCW r gr pr dr WorkerRunning)) None f Operational)
| op_stopping a ga da r gr pr dr sr f :
    a <> r -> waits ControlProtocol.Shutdown pr \/ lapsed -> cw_ok (mkCW r gr pr dr sr) ->
    operational lapsed (mkCtl (Some (mkSupervisor (mkInstance a ga Active) None (Some (mkInstance r gr Stopping))))
      (Some (mkCW a ga None da WorkerRunning)) None (Some (mkCW r gr pr dr sr)) None f Operational).

(** The supervisor is in a phase, and one that stops the retired worker agrees
    with it. *)
Definition readable C : Prop :=
  match c_supervisor C with
  | None => True
  | Some s => exists p, ReplacementSupervisor_phase s = Some p /\
      (p = StoppingRetired -> forall r w, retired s = Some r -> c_retired C = Some w -> cw_id w = instance_id r)
  end.

Definition all_idle C : Prop := forall role w, c_worker C role = Some w -> cw_pending w = None.
Definition all_wait (phase : ControlPhase) C : Prop :=
  forall role w, c_worker C role = Some w -> waits phase (cw_pending w).

Inductive master_ok (lapsed : Prop) : Ctl -> Prop :=
| ok_adopting a ga pa da f :
    waits ControlProtocol.AdoptListeners pa ->
    master_ok lapsed (mkCtl None (Some (mkCW a ga pa da WorkerRunning)) None None None f BootAdopting)
| ok_activating a ga pa da f :
    waits ControlProtocol.Activate pa ->
    master_ok lapsed (mkCtl None (Some (mkCW a ga pa da WorkerRunning)) None None None f BootActivating)
| ok_operational C : operational lapsed C -> master_ok lapsed C
| ok_failing C phase : c_stage C = Failing phase -> all_idle C \/ lapsed -> workers_ok C -> readable C -> master_ok lapsed C
| ok_shutting C d forced :
    c_stage C = ShuttingDown d forced -> c_supervisor C = None -> c_deferred C = None ->
    all_wait ControlProtocol.Shutdown C \/ lapsed -> workers_ok C -> master_ok lapsed C
| ok_ended s d f st :
    match st with StageStopped _ | StageFailed => True | _ => False end ->
    readable (mkCtl s None None None d f st) -> master_ok lapsed (mkCtl s None None None d f st).

Arguments op_running {lapsed}.
Arguments op_adopting {lapsed}.
Arguments op_quiescing {lapsed}.
Arguments op_activating {lapsed}.
Arguments op_rolling {lapsed}.
Arguments op_restoring {lapsed}.
Arguments op_draining {lapsed}.
Arguments op_stopping {lapsed}.
Arguments ok_adopting {lapsed}.
Arguments ok_activating {lapsed}.
Arguments ok_operational {lapsed}.
Arguments ok_failing {lapsed}.
Arguments ok_shutting {lapsed}.
Arguments ok_ended {lapsed}.

(** What holds of a run holds of one in which more may have gone wrong. *)
Lemma operational_mono (lapsed lapsed' : Prop) C :
  (lapsed -> lapsed') -> operational lapsed C -> operational lapsed' C.
Proof. intros Hl. destruct 1; constructor; naive_solver. Qed.
Lemma master_ok_mono (lapsed lapsed' : Prop) C :
  (lapsed -> lapsed') -> master_ok lapsed C -> master_ok lapsed' C.
Proof.
  intros Hl. destruct 1 as [| |C Ho|C ph Hst Hi|C d b Hst Hs Hd Ha|].
  - by apply ok_adopting.
  - by apply ok_activating.
  - by eapply ok_operational, operational_mono.
  - apply (ok_failing _ ph); tauto.
  - apply (ok_shutting _ d b); tauto.
  - by apply ok_ended.
Qed.

(** A master whose workers are being killed, whether they wait or not. *)
Lemma lapsed_failing C ph : c_stage C = Failing ph -> workers_ok C -> readable C -> master_ok True C.
Proof. intros. apply (ok_failing _ ph); auto. Qed.

Context (lapsed : Prop).
Abbreviation at_work := (operational lapsed).
Abbreviation sound := (master_ok lapsed).

Lemma idle_workers C : all_idle C -> workers_ok C.
Proof. intros H role w Hw _. by apply (H role). Qed.

Lemma c_force_fields role C :
  c_supervisor (c_force role C) = c_supervisor C /\ c_deferred (c_force role C) = c_deferred C /\
  c_failure (c_force role C) = c_failure C /\ c_stage (c_force role C) = c_stage C /\
  forall r, c_worker (c_force role C) r =
    if bool_decide (r = role) then forced <$> c_worker C r else c_worker C r.
Proof. unfold c_force. destruct C as [s wa wc wr d f st], role; cbn; case_match; split_and!; try done;
  intros []; cbn; by simplify_eq. Qed.

Lemma c_force_all_fields C :
  c_supervisor (c_force_all C) = c_supervisor C /\ c_deferred (c_force_all C) = c_deferred C /\
  c_failure (c_force_all C) = c_failure C /\ c_stage (c_force_all C) = c_stage C /\
  forall role, c_worker (c_force_all C) role = forced <$> c_worker C role.
Proof.
  unfold c_force_all.
  destruct (c_force_fields RoleActive C) as (S1 & D1 & F1 & T1 & W1).
  destruct (c_force_fields RoleCandidate (c_force RoleActive C)) as (S2 & D2 & F2 & T2 & W2).
  destruct (c_force_fields RoleRetired (c_force RoleCandidate (c_force RoleActive C)))
    as (S3 & D3 & F3 & T3 & W3).
  rewrite S3, D3, F3, T3. split_and!; [congruence..|]. intros []; by rewrite W3, W2, W1.
Qed.

Lemma c_closing_fields phase C :
  c_supervisor (c_closing phase C) = c_supervisor C /\ c_deferred (c_closing phase C) = None /\
  (exists ph, c_stage (c_closing phase C) = Failing ph) /\
  c_candidate (c_closing phase C) = c_candidate C /\ c_retired (c_closing phase C) = c_retired C.
Proof. unfold c_closing. destruct C as [s wa wc wr d f []], d; cbn; eauto 10. Qed.

(** Failing closed from any state whose supervisor is readable. *)
Lemma failed_ok phase C : readable C -> sound (c_failed phase C).
Proof.
  intros Hr. unfold c_failed.
  destruct (c_closing_fields phase C) as (S1 & _ & [ph T1] & _ & R1).
  destruct (c_force_all_fields (c_closing phase C)) as (S2 & _ & _ & T2 & W2).
  apply (ok_failing _ ph); [congruence| | |].
  - left. intros role w. rewrite W2. destruct (c_worker _ role); cbn; by intros [= <-].
  - intros role w. rewrite W2. destruct (c_worker _ role); cbn; by intros [= <-].
  - unfold readable in *. rewrite S2, S1. destruct (c_supervisor C) as [s|]; [|done].
    destruct Hr as (p & Hp & Hr). exists p. split; [done|]. intros Hs r w Hrs Hw.
    specialize (W2 RoleRetired). cbn in W2. rewrite Hw, R1 in W2.
    destruct (c_retired C) as [w0|] eqn:E0; cbn in W2; simplify_eq. by apply (Hr eq_refl r w0).
Qed.
(** While a worker is being killed the master may be stopped by the operating
    system, and its state is sound. *)
Lemma forcing_readable C C' : forcing C C' -> readable C -> readable C'.
Proof.
  intros (Hs & _ & _ & Hw) Hr. unfold readable in *. rewrite Hs. destruct (c_supervisor C) as [s|]; [|done].
  destruct Hr as (p & Hp & Hr). exists p. split; [done|]. intros Hps r w Hrs Hw'.
  specialize (Hw RoleRetired). cbn in Hw. rewrite Hw' in Hw. destruct (c_retired C) as [w0|] eqn:E0.
  - assert (cw_id w = cw_id w0) as -> by (by destruct Hw as [[= ->]|[= ->]]). by apply (Hr Hps r w0).
  - by destruct Hw.
Qed.
Lemma closing_workers phase C : workers_ok C -> workers_ok (c_closing phase C).
Proof.
  intros H role w Hw. apply (H role). unfold c_closing in Hw.
  by destruct C as [s wa wc wr d f []], d, role.
Qed.
Lemma closing_readable phase C : readable C -> readable (c_closing phase C).
Proof. unfold readable, c_closing. by destruct C as [s wa wc wr d f []], d. Qed.
Lemma closing_lapsed phase C C' :
  workers_ok C -> readable C -> forcing (c_closing phase C) C' -> master_ok True C'.
Proof.
  intros Hw Hr F. destruct (c_closing_fields phase C) as (_ & _ & [ph Hst] & _).
  apply (lapsed_failing _ ph); [by destruct F as (_ & _ & -> & _)| |].
  - by eapply forcing_workers, closing_workers.
  - by eapply forcing_readable, closing_readable.
Qed.

(** ** Executing actions *)

Lemma role_active w C : c_active C = Some w -> c_role_for C (cw_id w) = Some RoleActive.
Proof. intros H. unfold c_role_for. cbn. by rewrite H, bool_decide_eq_true_2. Qed.
Lemma role_candidate w C :
  (forall wa, c_active C = Some wa -> cw_id wa <> cw_id w) -> c_candidate C = Some w ->
  c_role_for C (cw_id w) = Some RoleCandidate.
Proof.
  intros Ha H. unfold c_role_for. cbn. rewrite H, (bool_decide_eq_true_2 (cw_id w = cw_id w)) by done.
  destruct (c_active C) as [wa|]; [|done]. by rewrite bool_decide_eq_false_2 by (by apply Ha).
Qed.
Lemma role_retired w C :
  (forall wa, c_active C = Some wa -> cw_id wa <> cw_id w) -> c_candidate C = None ->
  c_retired C = Some w -> c_role_for C (cw_id w) = Some RoleRetired.
Proof.
  intros Ha Hc H. unfold c_role_for. cbn. rewrite H, Hc, (bool_decide_eq_true_2 (cw_id w = cw_id w)) by done.
  destruct (c_active C) as [wa|]; [|done]. by rewrite bool_decide_eq_false_2 by (by apply Ha).
Qed.

Section Execute.
Context (Er : MasterError -> Ctl -> Prop) (now : Z).
Context (Hkill : forall e C, kill_error e -> master_ok True C -> Er (MasterIo e) C).

Lemma sound_lapsed C : sound C -> master_ok True C.
Proof. by apply master_ok_mono. Qed.
Lemma may_fail_lapsed C : master_ok True C -> may_fail Er C.
Proof. intros H e He. by apply Hkill. Qed.
Lemma may_fail_closing phase C C' :
  workers_ok C -> readable C -> forcing (c_closing phase C) C' -> may_fail Er C'.
Proof. intros Hw Hr F. by eapply may_fail_lapsed, closing_lapsed. Qed.

Lemma spec_fail_closed phase C (Q : unit -> Ctl -> Prop) :
  workers_ok C -> readable C -> c_stage C <> StageFailed -> Q tt (c_failed phase C) ->
  spec Er (fail_master phase) C Q.
Proof. intros Hw Hr. apply spec_fail_master; [|done]. intros C'. by apply may_fail_closing. Qed.

Abbreviation Ex n := (execute_replacement_actions reserve n now None).

Lemma spec_nil n C (Q : unit -> Ctl -> Prop) : Q tt C -> spec Er (Ex n []) C Q.
Proof. intros H. destruct n; by apply spec_ret. Qed.

Lemma spec_cons n action actions C (Q : unit -> Ctl -> Prop) :
  spec Er (execute_action reserve (Ex n) now None action) C
    (fun added C' => spec Er (Ex n (actions ++ added)) C' Q) ->
  spec Er (Ex (S n) (action :: actions)) C Q.
Proof.
  intros H. cbn [execute_replacement_actions]. apply spec_bind.
  replace (spent None action) with (@None (ServiceInstance -> M K MasterError (ManagedWorker P)))
    by (by destruct action). exact H.
Qed.

Lemma spec_nothing (c : MM unit) C (Q : list ReplacementAction -> Ctl -> Prop) :
  spec Er c C (fun _ C' => Q [] C') -> spec Er (then_nothing c) C Q.
Proof.
  intros H. apply spec_bind. eapply spec_weaken; [exact H|]. intros [] C' HQ. by apply spec_ret.
Qed.

(** The last action of a queue, when it adds none. *)
Lemma spec_one n action (c : MM unit) C (Q : unit -> Ctl -> Prop) :
  execute_action reserve (Ex n) now None action = then_nothing c ->
  spec Er c C Q -> spec Er (Ex (S n) [action]) C Q.
Proof.
  intros Hc H. apply spec_cons. rewrite Hc. apply spec_nothing. eapply spec_weaken; [exact H|].
  intros [] C' HQ. by apply spec_nil.
Qed.

Lemma spec_kill n id role w C (Q : unit -> Ctl -> Prop) :
  master_ok True C -> c_role_for C id = Some role -> c_worker C role = Some w -> cw_ok w ->
  Q tt (c_set_worker role (Some (forced w)) C) -> spec Er (Ex (S n) [Kill id]) C Q.
Proof.
  intros Hl Hr Hw Hok HQ. eapply spec_one; [done|].
  eapply spec_bind, spec_ensure_role; [done|]. by eapply spec_force; [apply may_fail_lapsed|..].
Qed.

Lemma spec_terminate_candidate n id w C (Q : unit -> Ctl -> Prop) :
  master_ok True C -> c_role_for C id = Some RoleCandidate -> c_candidate C = Some w -> cw_ok w ->
  Q tt (c_set_worker RoleCandidate (Some (forced w)) C) -> spec Er (Ex (S n) [Terminate id]) C Q.
Proof.
  intros Hl Hr Hw Hok HQ. eapply spec_one; [done|].
  eapply spec_bind, spec_ensure_role; [done|]. by eapply spec_force; [apply may_fail_lapsed|..].
Qed.

(** Issuing a request, or compensating for its failure. *)
Lemma spec_issue_or_compensate execute role phase timeout failure w C (Q : unit -> Ctl -> Prop) :
  c_worker C role = Some w ->
  (forall p, p_phase p = phase -> Q tt (c_set_worker role (Some (cw_with_pending (Some p) w)) C)) ->
  spec Er (handle_phase_failure execute role failure) C Q ->
  spec Er (issue_or_compensate reserve execute now role phase timeout failure) C Q.
Proof.
  intros Hw Hok Hfail. apply spec_bind. eapply spec_issue; [done|].
  intros [d|e] C' Hi; cbn in Hi.
  - destruct Hi as (p & Hp & ->). by apply spec_ret, Hok.
  - destruct Hi as [He ->]. by apply spec_bind, spec_record_issue.
Qed.
(** *** Rolling back *)

(** The candidate is being stopped and the old worker serves or comes back. *)
Definition rolled (a c : InstanceId) C : Prop :=
  exists ga gc l, (l = Active /\ c_stage C = Operational \/ l = Reactivating) /\
    c_supervisor C = Some (mkSupervisor (mkInstance a ga l) (Some (mkInstance c gc Stopping)) None) /\
    sound C.

Lemma spec_handle_failure execute role phase s p C (Q : unit -> Ctl -> Prop) :
  c_supervisor C = Some s -> ReplacementSupervisor_phase s = Some p ->
  spec Er (match c_stage C, Some p, role with
    | Operational, Some (AdoptingCandidate | PhaseQuiescing | ActivatingCandidate), RoleCandidate
    | Operational, Some PhaseQuiescing, RoleActive => begin_rollback execute phase
    | Operational, Some (DrainingRetired | StoppingRetired), RoleRetired => fail_retired execute phase
    | ShuttingDown _ _, _, _ => force_role role
    | _, _, _ => fail_master phase
    end) C Q ->
  spec Er (handle_phase_failure execute role phase) C Q.
Proof.
  intros Hs Hp H. apply spec_bind, spec_stage. eapply spec_bind, spec_phase; [done|done|exact H].
Qed.

(** The old worker is told to serve again, or the master fails closed; then the
    candidate is killed. *)
Lemma spec_reactivate n a ga pa da c gc pc dc f :
  a <> c ->
  spec Er (Ex (S (S n)) [Activate a; Terminate c])
    (mkCtl (Some (mkSupervisor (mkInstance a ga Reactivating) (Some (mkInstance c gc Stopping)) None))
      (Some (mkCW a ga pa da WorkerRunning)) (Some (mkCW c gc pc dc WorkerRunning)) None None f Operational)
    (fun _ => rolled a c).
Proof.
  intros Hac. apply spec_cons, spec_nothing.
  eapply spec_bind, spec_ensure_role; [by eapply (role_active (mkCW a ga pa da WorkerRunning))|].
  apply spec_bind, spec_get. intros m _. cbn beta iota.
  eapply spec_issue_or_compensate; [reflexivity| |].
  - intros p Hp. cbn. eapply spec_terminate_candidate; [| |done|done|].
    + apply ok_operational, op_rolling; [done|by right|done|by right].
    + apply (role_candidate (mkCW c gc pc dc WorkerRunning)); [by intros wa [= <-]|done].
    + exists ga, gc, Reactivating. split_and!; [by right|done|]. apply ok_operational. cbn.
      apply op_rolling; [done|by left|done|by right].
  - eapply spec_handle_failure; [done|done|]. cbn.
    apply spec_fail_closed; [workers|by exists RollingBack|done|].
    assert (sound (c_failed FailReactivation (mkCtl (Some (mkSupervisor (mkInstance a ga Reactivating) (Some (mkInstance c gc Stopping)) None))
      (Some (mkCW a ga pa da WorkerRunning)) (Some (mkCW c gc pc dc WorkerRunning)) None None f Operational))) as Hf
      by (apply failed_ok; by exists RollingBack).
    cbn in Hf |- *. eapply spec_terminate_candidate; [by apply sound_lapsed| |done|done|].
    + apply (role_candidate (forced (mkCW c gc pc dc WorkerRunning))); [by intros wa [= <-]|done].
    + exists ga, gc, Reactivating. by split_and!; [right|..].
Qed.

Lemma spec_begin_rollback n phase a ga la pa da c gc lc pc dc f :
  a <> c ->
  la = Active /\ lc = Preparing /\ pa = None \/ la = Quiescing /\ (lc = Ready \/ lc = Activating) ->
  spec Er (begin_rollback (Ex (S (S n))) phase)
    (mkCtl (Some (mkSupervisor (mkInstance a ga la) (Some (mkInstance c gc lc)) None))
      (Some (mkCW a ga pa da WorkerRunning)) (Some (mkCW c gc pc dc WorkerRunning)) None None f Operational)
    (fun _ => rolled a c).
Proof.
  intros Hac Hl. apply spec_bind, spec_deferred. cbn beta iota.
  apply spec_bind, spec_ensure. intros m Hm. injection Hm as Hs _ _ _ _ _ _. rewrite Hs. cbn.
  apply spec_bind, spec_set_failure. apply spec_bind, spec_emit. apply spec_bind.
  destruct Hl as [(-> & -> & ->)|(-> & Hlc)].
  - eapply spec_bind, spec_apply; [done|by apply (accept_failed_serving _ (mkInstance c gc Preparing))|].
    eapply spec_terminate_candidate; [| |done|done|].
    { apply ok_operational, op_rolling; [done|by right|done|by left]. }
    { apply (role_candidate (mkCW c gc pc dc WorkerRunning)); [by intros wa [= <-]|done]. }
    eapply spec_bind, spec_phase; [done|done|]. apply spec_ret.
    exists ga, gc, Active. split_and!; [by left|done|]. apply ok_operational. cbn.
    apply op_rolling; [done|by left|done|by left].
  - eapply spec_bind, spec_apply; [done| |].
    { apply (accept_failed_quiesced _ (mkInstance c gc lc)); [done| |done]. by destruct Hlc as [-> | ->]. }
    cbn. eapply spec_weaken; [by apply spec_reactivate|].
    intros [] C' (ga' & gc' & l & Hl & Hs' & Hok). eapply spec_bind, spec_phase; [done|done|].
    apply spec_ret. by exists ga', gc', l.
Qed.
Lemma rolled_ok a c C : rolled a c C -> sound C.
Proof. by intros (? & ? & ? & ? & ? & ?). Qed.

(** *** Ending the retired worker *)

Lemma spec_fail_retired n phase a ga da r gr lr pr dr sr f :
  a <> r -> lr = Draining \/ lr = Snapshotting \/ lr = Stopping -> cw_ok (mkCW r gr pr dr sr) ->
  spec Er (fail_retired (Ex (S n)) phase)
    (mkCtl (Some (mkSupervisor (mkInstance a ga Active) None (Some (mkInstance r gr lr))))
      (Some (mkCW a ga None da WorkerRunning)) None (Some (mkCW r gr pr dr sr)) None f Operational)
    (fun _ C' => C' =
      mkCtl (Some (mkSupervisor (mkInstance a ga Active) None (Some (mkInstance r gr Stopping))))
        (Some (mkCW a ga None da WorkerRunning)) None (Some (mkCW r gr None dr (Terminating true))) None
        (Some phase) Operational).
Proof.
  intros Har Hl Hok. eapply spec_bind, spec_worker_id; [done|]. apply spec_bind, spec_set_failure.
  eapply spec_bind, spec_apply; [done| |].
  { apply (accept_retired_failed _ (mkInstance r gr lr)); [done|]. by destruct Hl as [->|[-> | ->]]. }
  apply (spec_kill n r RoleRetired (mkCW r gr pr dr sr)); [by apply ok_operational, op_stopping; auto| |done|done|done].
  apply (role_retired (mkCW r gr pr dr sr)); [by intros wa [= <-]|done|done].
Qed.

Lemma fail_retired_ok n phase a ga da r gr lr pr dr sr f :
  a <> r -> lr = Draining \/ lr = Snapshotting \/ lr = Stopping -> cw_ok (mkCW r gr pr dr sr) ->
  spec Er (fail_retired (Ex (S n)) phase)
    (mkCtl (Some (mkSupervisor (mkInstance a ga Active) None (Some (mkInstance r gr lr))))
      (Some (mkCW a ga None da WorkerRunning)) None (Some (mkCW r gr pr dr sr)) None f Operational)
    (fun _ => sound).
Proof.
  intros Har Hl Hok. eapply spec_weaken; [by apply spec_fail_retired|]. intros [] C' ->.
  by apply ok_operational, op_stopping; [|left|].
Qed.

(** The retired worker is gone. *)
Lemma spec_retired_stopped n a ga da r gr f C :
  C = mkCtl (Some (mkSupervisor (mkInstance a ga Active) None (Some (mkInstance r gr Stopping))))
        (Some (mkCW a ga None da WorkerRunning)) None None None f Operational ->
  spec Er (apply_replacement_event (Ex n) (RetiredStopped r)) C
    (fun _ C' => C' = mkCtl (Some (mkSupervisor (mkInstance a ga Active) None None))
        (Some (mkCW a ga None da WorkerRunning)) None None None f Operational).
Proof.
  intros ->. eapply spec_bind, spec_apply; [done|by apply (accept_retired_stopped _ (mkInstance r gr Stopping))|].
  by apply spec_nil.
Qed.

Lemma spec_complete a ga da f :
  let C := mkCtl (Some (mkSupervisor (mkInstance a ga Active) None None))
    (Some (mkCW a ga None da WorkerRunning)) None None None f Operational in
  spec Er complete_replacement C (fun _ => sound) /\
  (f <> None -> spec Er complete_failed_retired C (fun _ => sound)).
Proof.
  assert (forall f, spec Er complete_replacement
    (mkCtl (Some (mkSupervisor (mkInstance a ga Active) None None))
      (Some (mkCW a ga None da WorkerRunning)) None None None f Operational) (fun _ => sound)) as H.
  { intros f0. eapply spec_bind, spec_worker_id; [done|]. apply spec_emit, ok_operational, op_running. }
  split; [apply H|]. intros Hf. apply spec_bind, spec_failure. cbn [c_failure].
  apply spec_bind, spec_set_failure. destruct f; [|done]. apply spec_bind, spec_emit, H.
Qed.

Lemma spec_fail_and_complete n a ga da r gr lr pr dr sr f phase (retired : MM InstanceId) :
  a <> r -> lr = Draining \/ lr = Snapshotting \/ lr = Stopping -> cw_ok (mkCW r gr pr dr sr) ->
  retired = worker_id RoleRetired \/ retired = mret r ->
  spec Er (let! _ := fail_retired (Ex (S n)) phase in
           let! id := retired in
           let! _ := take_worker RoleRetired in
           let! _ := apply_replacement_event (Ex (S n)) (RetiredStopped id) in
           complete_failed_retired)
    (mkCtl (Some (mkSupervisor (mkInstance a ga Active) None (Some (mkInstance r gr lr))))
      (Some (mkCW a ga None da WorkerRunning)) None (Some (mkCW r gr pr dr sr)) None f Operational)
    (fun _ => sound).
Proof.
  intros Har Hl Hok Hid. apply spec_bind. eapply spec_weaken; [by apply spec_fail_retired|].
  intros [] C' ->. apply spec_bind.
  apply (spec_weaken _ _ _ (fun id C' => id = r /\ C' =
    mkCtl (Some (mkSupervisor (mkInstance a ga Active) None (Some (mkInstance r gr Stopping))))
        (Some (mkCW a ga None da WorkerRunning)) None (Some (mkCW r gr None dr (Terminating true))) None
        (Some phase) Operational)).
  { destruct Hid as [-> | ->]; [by eapply spec_worker_id|by apply spec_ret]. }
  intros id C' [-> ->]. apply spec_bind, spec_take. apply spec_bind.
  eapply spec_weaken; [by eapply spec_retired_stopped|]. intros [] C' ->. by apply spec_complete.
Qed.

(** *** The steps of a replacement *)

Lemma spec_prepared n a ga da c gc dc f :
  a <> c ->
  spec Er (apply_replacement_event (Ex (S (S (S n)))) (CandidatePrepared c))
    (mkCtl (Some (mkSupervisor (mkInstance a ga Active) (Some (mkInstance c gc Preparing)) None))
      (Some (mkCW a ga None da WorkerRunning)) (Some (mkCW c gc None dc WorkerRunning)) None None f
      Operational) (fun _ => sound).
Proof.
  intros Hac. eapply spec_bind, spec_apply; [done|by apply (accept_prepared _ (mkInstance c gc Preparing))|].
  eapply spec_one; [done|]. apply spec_bind, spec_role_for.
  rewrite (role_active (mkCW a ga None da WorkerRunning)) by done.
  rewrite bool_decide_eq_false_2 by (by intros []). apply spec_bind, spec_get. intros m _.
  eapply spec_issue_or_compensate; [reflexivity| |].
  - intros p Hp. by apply ok_operational, op_quiescing.
  - eapply spec_handle_failure; [done|done|]. cbn -[begin_rollback].
    eapply spec_weaken; [apply spec_begin_rollback; [done|right; auto]|]. intros [] C'. apply rolled_ok.
Qed.

Lemma spec_quiesced n a ga da c gc dc f :
  a <> c ->
  spec Er (apply_replacement_event (Ex (S (S (S n)))) (ActiveQuiesced a))
    (mkCtl (Some (mkSupervisor (mkInstance a ga Quiescing) (Some (mkInstance c gc Ready)) None))
      (Some (mkCW a ga None da WorkerRunning)) (Some (mkCW c gc None dc WorkerRunning)) None None f
      Operational) (fun _ => sound).
Proof.
  intros Hac.
  eapply spec_bind, spec_apply; [done|by apply (accept_quiesced (mkSupervisor (mkInstance a ga Quiescing) _ _)
    (mkInstance c gc Ready))|].
  eapply spec_one; [done|]. eapply spec_bind, spec_ensure_role.
  { apply (role_candidate (mkCW c gc None dc WorkerRunning)); [by intros wa [= <-]|done]. }
  apply spec_bind, spec_get. intros m _. cbn beta iota.
  eapply spec_issue_or_compensate; [reflexivity| |].
  - intros p Hp. by apply ok_operational, op_activating.
  - eapply spec_handle_failure; [done|done|]. cbn -[begin_rollback].
    eapply spec_weaken; [apply spec_begin_rollback; [done|right; auto]|]. intros [] C'. apply rolled_ok.
Qed.

Lemma spec_commit a ga da sa c gc dc sc d f s :
  a <> c -> instance_id (active s) = c ->
  spec Er (commit_candidate a)
    (mkCtl (Some s) (Some (mkCW a ga None da sa)) (Some (mkCW c gc None dc sc)) None d f Operational)
    (fun _ C' => C' =
      mkCtl (Some s) (Some (mkCW c gc None dc sc)) None (Some (mkCW a ga None da sa)) d f Operational).
Proof.
  intros Hac Hs. apply spec_bind, spec_ensure. intros m Hm. injection Hm as Hm _ _ _ _ _ _.
  rewrite Hm. cbn. eapply spec_bind, spec_worker_id; [done|]. cbn [cw_id].
  rewrite bool_decide_eq_false_2 by tauto. eapply spec_bind, spec_bind, spec_worker_id; [done|].
  cbn [cw_id]. apply spec_ret. rewrite bool_decide_eq_true_2 by done. cbn [negb].
  eapply spec_bind, spec_require; [done|]. intros wa Hwa.
  eapply spec_bind, (spec_put _ _ _ (mkCtl (Some s) None (Some (mkCW c gc None dc sc)) None d f Operational)).
  { intros m' Hm'. by rewrite ctl_set_worker, Hm'. }
  eapply spec_bind, spec_require; [done|]. intros wc Hwc.
  eapply spec_bind, (spec_put _ _ _ (mkCtl (Some s) None None None d f Operational)).
  { intros m' Hm'. by rewrite ctl_set_worker, Hm'. }
  eapply spec_bind, (spec_put _ _ _ (mkCtl (Some s) (Some (mkCW c gc None dc sc)) None None d f Operational)).
  { intros m' Hm'. rewrite ctl_set_worker, Hm'. cbn. by rewrite Hwc. }
  eapply spec_bind, (spec_put _ _ _ (mkCtl (Some s) (Some (mkCW c gc None dc sc)) None
    (Some (mkCW a ga None da sa)) d f Operational)).
  { intros m' Hm'. rewrite ctl_set_worker, Hm'. cbn. by rewrite Hwa. }
  by apply spec_emit.
Qed.

Lemma spec_activated n a ga da c gc dc d f :
  a <> c ->
  spec Er (apply_replacement_event (Ex (S (S (S n)))) (CandidateActivated c))
    (mkCtl (Some (mkSupervisor (mkInstance a ga Quiescing) (Some (mkInstance c gc Activating)) None))
      (Some (mkCW a ga None da WorkerRunning)) (Some (mkCW c gc None dc WorkerRunning)) None d f
      Operational) (fun _ => sound).
Proof.
  intros Hac.
  eapply spec_bind, spec_apply; [done|by apply (accept_activated _ (mkInstance c gc Activating))|].
  eapply spec_one; [done|]. apply spec_bind. eapply spec_weaken; [by apply spec_commit|].
  intros [] C' ->. apply spec_bind, spec_deferred. cbn [c_deferred].
  apply spec_bind, spec_set_deferred. destruct d.
  - eapply spec_weaken; [eapply spec_fail_and_complete; [|by left|done|by left]; by intros ->|done].
  - apply spec_bind, spec_get. intros m _. eapply spec_issue_or_compensate; [reflexivity| |].
    + intros p Hp. apply ok_operational. cbn. apply op_draining; [by intros ->|done].
    + eapply spec_handle_failure; [done|done|]. cbn -[fail_retired].
      apply fail_retired_ok; [by intros ->|by left|done].
Qed.

Lemma spec_drained n a ga da r gr dr f :
  a <> r ->
  spec Er (apply_replacement_event (Ex (S (S (S n)))) (RetiredDrained r))
    (mkCtl (Some (mkSupervisor (mkInstance a ga Active) None (Some (mkInstance r gr Draining))))
      (Some (mkCW a ga None da WorkerRunning)) None (Some (mkCW r gr None dr WorkerRunning)) None f
      Operational) (fun _ => sound).
Proof.
  intros Har. eapply spec_bind, spec_apply; [done|by apply (accept_drained _ (mkInstance r gr Draining))|].
  apply spec_cons. eapply spec_apply; [done|by apply (accept_snapshot _ (mkInstance r gr Snapshotting))|].
  eapply spec_one; [done|]. eapply spec_bind, spec_ensure_role.
  { apply (role_retired (mkCW r gr None dr WorkerRunning)); [by intros wa [= <-]|done|done]. }
  apply spec_bind, spec_get. intros m _. apply spec_bind. eapply spec_issue; [reflexivity|].
  intros [d|e] C' Hi; cbn in Hi.
  - destruct Hi as (p & Hp & ->). apply spec_bind.
    eapply spec_bind, (spec_update _ _ _ (mkCW r gr (Some p) dr (Terminating false))); [done| |].
    { intros w Hw. change (cw_of (with_state ?st w)) with (cw_with_state st (cw_of w)). by rewrite Hw. }
    apply spec_emit. eapply (spec_update _ _ _ (mkCW r gr (Some p) (Some d) (Terminating false))); [done| |].
    { intros w Hw. change (cw_of (with_termination_deadline ?d w)) with (cw_with_deadline d (cw_of w)).
      by rewrite Hw. }
    by apply ok_operational, op_stopping; [|left|].
  - destruct Hi as [He ->]. rewrite He. apply spec_bind, spec_record_issue; [done|].
    apply fail_retired_ok; [done|by right; right|done].
Qed.

(** ** The methods keep the invariant *)

Lemma operational_readable C : at_work C -> readable C.
Proof.
  destruct 1; cbn; try (by eexists; split; [reflexivity|]).
  exists StoppingRetired. split; [done|]. by intros _ ? ? [= <-] [= <-].
Qed.

Lemma operational_workers C : at_work C -> workers_ok C.
Proof. destruct 1; workers. Qed.

Lemma master_readable C : sound C -> readable C.
Proof.
  destruct 1 as [| |C Ho| |C d b _ Hs| ]; try done; [by apply operational_readable|].
  unfold readable. by rewrite Hs.
Qed.

Lemma master_workers C : sound C -> workers_ok C.
Proof.
  destruct 1 as [| |C Ho|C ph _ Hi| | ]; try done; [workers|workers|by apply operational_workers|workers].
Qed.

Lemma fail_master_ok phase C :
  sound C -> c_stage C <> StageFailed -> spec Er (fail_master phase) C (fun _ => sound).
Proof.
  intros Hok Hst. apply spec_fail_closed; [by apply master_workers|by apply master_readable|done|].
  by apply failed_ok, master_readable.
Qed.

Lemma removed_fields role w C :
  c_stage (c_set_worker role w C) = c_stage C /\ c_supervisor (c_set_worker role w C) = c_supervisor C /\
  c_deferred (c_set_worker role w C) = c_deferred C /\ c_failure (c_set_worker role w C) = c_failure C.
Proof. by destruct role. Qed.

(** A request that is no longer waited for. *)
Lemma clear_workers role w C :
  workers_ok C -> workers_ok (c_set_worker role (Some (cw_with_pending None w)) C).
Proof.
  intros H r w' Hw'. destruct (decide (r = role)) as [->|Hne]; [by destruct role; cbn in Hw'; simplify_eq|].
  apply (H r). by destruct r, role.
Qed.
Lemma clear_pending_ok role w C :
  sound C -> c_worker C role = Some w ->
  sound (c_set_worker role (Some (cw_with_pending None w)) C).
Proof.
  intros Hok0 Hrw. pose proof (clear_workers role w C (master_workers C Hok0)) as Hwk.
  destruct Hok0 as [a ga pa da f H|a ga pa da f H|C Ho|C ph Hst Hi _ Hr|C d b Hst Hs Hd Hw _|s df f st Hst Hr].
  - destruct role; simplify_eq/=. by apply ok_adopting.
  - destruct role; simplify_eq/=. by apply ok_activating.
  - apply ok_operational.
    destruct Ho as [| | | |a ga la pa da c gc pc dc sc f Hac Hpc Hk Hl| | |], role; simplify_eq/=; constructor;
      try done; try (by left). by destruct Hl as [[-> _]|[-> _]]; [left|right].
  - eapply ok_failing; [by destruct role| |done|].
    + destruct Hi as [Hi|Hi]; [left|by right]. intros r w' Hw'. destruct (decide (r = role)) as [->|Hne].
      * destruct role; cbn in Hw'; by simplify_eq.
      * apply (Hi r). by destruct r, role.
    + unfold readable in *. destruct role; [done|done|]. cbn in *.
      destruct (c_supervisor C) as [s|]; [|done]. destruct Hr as (p & Hp & Hr). exists p. split; [done|].
      intros Hps r w' Hrs [= <-]. by apply (Hr Hps r w).
  - eapply (ok_shutting _ d b); [by destruct role|by destruct role|by destruct role| |done].
    destruct Hw as [Hw|Hw]; [left|by right]. intros r w' Hw'. destruct (decide (r = role)) as [->|Hne].
    + destruct role; cbn in Hw'; by simplify_eq.
    + apply (Hw r). by destruct r, role.
  - by destruct role.
Qed.

Lemma begin_rollback_ok n phase a ga la pa da c gc lc pc dc f :
  a <> c ->
  la = Active /\ lc = Preparing /\ pa = None \/ la = Quiescing /\ (lc = Ready \/ lc = Activating) ->
  spec Er (begin_rollback (Ex (S (S n))) phase)
    (mkCtl (Some (mkSupervisor (mkInstance a ga la) (Some (mkInstance c gc lc)) None))
      (Some (mkCW a ga pa da WorkerRunning)) (Some (mkCW c gc pc dc WorkerRunning)) None None f Operational)
    (fun _ => sound).
Proof.
  intros Hac Hl. eapply spec_weaken; [by apply spec_begin_rollback|]. intros [] C'. apply rolled_ok.
Qed.

Lemma rollback_ok n phase s p C :
  at_work C -> c_candidate C <> None -> c_supervisor C = Some s ->
  ReplacementSupervisor_phase s = Some p -> p <> RollingBack ->
  spec Er (begin_rollback (Ex (S (S n))) phase) C (fun _ => sound).
Proof.
  intros Ho Hc Hs Hp Hph.
  destruct (c_deferred C) as [d|] eqn:Hd.
  - apply spec_bind, spec_deferred. rewrite Hd.
    apply fail_master_ok; [by apply ok_operational|by destruct Ho].
  - destruct Ho as [|a ga da c gc pc dc f Hac|a ga pa da c gc dc f Hac|a ga da c gc pc dc d f Hac| | | |];
      cbn in *; try done; [| | |injection Hs as <-; cbn in Hp; congruence].
    + apply begin_rollback_ok; [done|by left].
    + apply begin_rollback_ok; [done|right; auto].
    + subst d. apply begin_rollback_ok; [done|right; auto].
Qed.

Lemma force_shutting_ok role w C d b :
  c_stage C = ShuttingDown d b -> sound C -> c_worker C role = Some w ->
  spec Er (force_role role) C (fun _ C' => sound C' /\ c_stage C' = ShuttingDown d b).
Proof.
  intros Hst Hok Hw. assert (Hwk := master_workers C Hok).
  destruct Hok as [| |C Ho|C ph Hst'|C d' b' Hst' Hs Hd Ha _|s df f st Hst' _];
    [done|done|by destruct Ho|congruence| |by destruct role].
  eapply spec_force; [|done|by apply (Hwk role)|].
  { by apply may_fail_lapsed, sound_lapsed, (ok_shutting _ d' b'). }
  split; [|by destruct role]. apply (ok_shutting _ d b); try (by destruct role).
  - destruct Ha as [Ha|Ha]; [left|by right].
    intros r w' Hw'. destruct (decide (r = role)) as [->|Hne]; [by destruct role; simplify_eq/=|].
    apply (Ha r). by destruct r, role.
  - intros r w' Hw'. destruct (decide (r = role)) as [->|Hne]; [by destruct role; simplify_eq/=|].
    apply (Hwk r). by destruct r, role.
Qed.

Lemma operational_failure_ok n role w phase C :
  at_work C -> c_worker C role = Some w ->
  spec Er (handle_phase_failure (Ex (S (S n))) role phase) C (fun _ => sound).
Proof.
  intros Ho Hw. pose proof (ok_operational C Ho) as Hok.
  assert (c_stage C = Operational) as Hst by (by destruct Ho).
  destruct (c_supervisor C) as [s|] eqn:Hs; [|by destruct Ho].
  pose proof (operational_readable C Ho) as Hr. unfold readable in Hr. rewrite Hs in Hr.
  destruct Hr as (p & Hp & _). eapply spec_handle_failure; [done|done|]. rewrite Hst.
  assert (spec Er (fail_master phase) C (fun _ => sound)) as Hf by (apply fail_master_ok; congruence).
  destruct p, role; cbn [c_worker] in Hw; try done; try (by eapply rollback_ok; [done|congruence|done|done|]).
  - eapply rollback_ok; [done| |done|done|done]. by destruct Ho; simplify_eq/=.
  - destruct Ho; simplify_eq/=; apply fail_retired_ok; auto using running_ok.
  - destruct Ho; simplify_eq/=; apply fail_retired_ok; auto using running_ok.
Qed.

Lemma phase_failure_ok n role w phase C :
  sound C -> c_worker C role = Some w ->
  spec Er (handle_phase_failure (Ex (S (S n))) role phase) C (fun _ => sound).
Proof.
  intros Hok Hw. pose proof (fail_master_ok phase C Hok) as Hf.
  destruct Hok as [a ga pa da f H|a ga pa da f H|C Ho|C ph Hst Hi _ Hr|C d b Hst Hs Hd Ha Hwk|s df f st Hst Hr].
  - apply spec_bind, spec_stage. apply spec_bind, spec_phase_none; [done|]. by apply Hf.
  - apply spec_bind, spec_stage. apply spec_bind, spec_phase_none; [done|]. by apply Hf.
  - by eapply operational_failure_ok.
  - apply spec_bind, spec_stage. rewrite Hst in *. apply spec_bind. unfold readable in Hr.
    destruct (c_supervisor C) as [s|] eqn:Hs.
    + destruct Hr as (p & Hp & _). eapply spec_phase; [done|done|]. by apply Hf.
    + apply spec_phase_none; [done|]. by apply Hf.
  - apply spec_bind, spec_stage. apply spec_bind, spec_phase_none; [done|]. rewrite Hst.
    eapply spec_weaken; [eapply (force_shutting_ok role w C d b); [done| |done]|by intros [] C' [? _]].
    by eapply ok_shutting.
  - by destruct role.
Qed.
Lemma spec_finish_rollback C (Q : unit -> Ctl -> Prop) :
  readable C -> (forall f, Q tt (c_set_failure f C)) -> c_active C <> None ->
  spec Er maybe_finish_rollback C Q.
Proof.
  intros Hr HQ Ha. assert (Q tt C) as HQ0 by (replace C with (c_set_failure (c_failure C) C); [done|by destruct C]).
  apply spec_bind. unfold readable in Hr. destruct (c_supervisor C) as [s|] eqn:Hs.
  - destruct Hr as (p & Hp & _). eapply spec_phase; [done|done|]. destruct p; try by apply spec_ret.
    apply spec_bind, spec_failure. apply spec_bind, spec_set_failure.
    destruct (c_failure C); [|by apply spec_ret]. destruct (c_active C) as [w|] eqn:Hw; [|done].
    eapply spec_bind, spec_worker_id; [exact Hw|]. by apply spec_emit.
  - apply spec_phase_none; [done|]. by apply spec_ret.
Qed.

Lemma operational_failure_field f C : at_work C -> at_work (c_set_failure f C).
Proof. destruct 1; by constructor. Qed.

Lemma spec_reactivated n a ga la pa da c gc pc dc sc f :
  a <> c -> pc = None \/ lapsed -> cw_ok (mkCW c gc pc dc sc) -> la = Reactivating ->
  spec Er (let! _ := apply_replacement_event (Ex n) (ActiveReactivated a) in maybe_finish_rollback)
    (mkCtl (Some (mkSupervisor (mkInstance a ga la) (Some (mkInstance c gc Stopping)) None))
      (Some (mkCW a ga pa da WorkerRunning)) (Some (mkCW c gc pc dc sc)) None None f Operational)
    (fun _ C' => pa = None -> sound C').
Proof.
  intros Hac Hpc Hk ->. apply spec_bind.
  eapply spec_bind, spec_apply; [done|apply (accept_reactivated (mkSupervisor (mkInstance a ga Reactivating) _ _)); by right|].
  apply spec_nil. apply spec_finish_rollback; [by exists RollingBack| |done].
  intros f' ->. by apply ok_operational, op_rolling; [| | |left].
Qed.

Lemma spec_restored n a ga pa da f :
  spec Er (let! _ := apply_replacement_event (Ex n) (ActiveReactivated a) in maybe_finish_rollback)
    (mkCtl (Some (mkSupervisor (mkInstance a ga Reactivating) None None))
      (Some (mkCW a ga pa da WorkerRunning)) None None None f Operational)
    (fun _ C' => pa = None -> sound C').
Proof.
  apply spec_bind.
  eapply spec_bind, spec_apply; [done|apply (accept_reactivated (mkSupervisor (mkInstance a ga Reactivating) _ _)); by right|].
  apply spec_nil. apply spec_finish_rollback; [by exists Running| |done].
  intros f' ->. apply ok_operational, op_running.
Qed.

(** An acknowledgement of a worker that should have been killed is refused. *)
Context (Hack : forall C, lapsed -> sound C -> Er UnexpectedAcknowledgement C).

(** The acknowledgement a worker waits for moves the master on. *)
Lemma operational_success_ok role w p C :
  at_work C -> c_worker C role = Some w -> cw_pending w = Some p ->
  spec Er (handle_phase_success reserve role (p_phase p) now)
    (c_set_worker role (Some (cw_with_pending None w)) C) (fun _ => sound).
Proof.
  intros Ho Hw Hp. pose proof (clear_pending_ok role w C (ok_operational C Ho) Hw) as Hcl.
  apply spec_bind, spec_stage.
  destruct Ho as [|a ga da c gc pc dc f Hac Hl|a ga pa da c gc dc f Hac Hl|a ga da c gc pc dc d f Hac Hl
    |a ga la pa da c gc pc dc sc f Hac Hpc Hk Hl|a ga pa da f Hl|a ga da r gr pr dr f Har Hl|a ga da r gr pr dr sr f Har Hl Hk],
    role; cbn in Hw; try discriminate; injection Hw as <-; cbn in Hp; try discriminate; subst;
    cbn in Hl.
  - rewrite Hl. eapply spec_bind, spec_phase; [done|done|]. eapply spec_bind, spec_worker_id; [done|].
    by apply spec_prepared.
  - rewrite Hl. eapply spec_bind, spec_phase; [done|done|]. eapply spec_bind, spec_worker_id; [done|].
    by apply spec_quiesced.
  - rewrite Hl. eapply spec_bind, spec_phase; [done|done|]. eapply spec_bind, spec_worker_id; [done|].
    by apply spec_activated.
  - destruct Hl as [[_ ?]|[-> ->]]; [done|].
    eapply spec_bind, spec_phase; [done|done|]. eapply spec_bind, spec_worker_id; [done|].
    eapply spec_weaken; [by apply spec_reactivated|]. intros [] C' H. by apply H.
  - destruct Hpc as [?|Hlap]; [done|]. eapply spec_bind, spec_phase; [by destruct Hl as [[-> _]|[-> _]]|by destruct Hl as [[-> _]|[-> _]]|].
    cbn. destruct (p_phase p); by apply spec_fail, Hack.
  - rewrite Hl. eapply spec_bind, spec_phase; [done|done|]. eapply spec_bind, spec_worker_id; [done|].
    eapply spec_weaken; [by apply spec_restored|]. intros [] C' H. by apply H.
  - rewrite Hl. eapply spec_bind, spec_phase; [done|done|]. eapply spec_bind, spec_worker_id; [done|].
    by apply spec_drained.
  - eapply spec_bind, spec_phase; [done|done|]. destruct Hl as [Hl|Hlap].
    + rewrite Hl. by apply spec_ret.
    + cbn. destruct (p_phase p); first [by apply spec_ret|by apply spec_fail, Hack].
Qed.

Lemma success_ok role w p C :
  sound C -> c_worker C role = Some w -> cw_pending w = Some p ->
  spec Er (handle_phase_success reserve role (p_phase p) now)
    (c_set_worker role (Some (cw_with_pending None w)) C) (fun _ => sound).
Proof.
  intros Hok Hw Hp. pose proof (clear_pending_ok role w C Hok Hw) as Hcl.
  destruct (removed_fields role (Some (cw_with_pending None w)) C) as [Est _].
  destruct Hok as [a ga pa da f H|a ga pa da f H|C Ho|C ph Hst Hi _ Hr|C d b Hst Hs Hd Ha Hwk|s df f st Hst Hr].
  - destruct role; simplify_eq/=. rewrite H. apply spec_bind, spec_stage. cbn [c_stage].
    apply spec_bind, spec_ret. apply spec_bind, spec_set_stage. apply spec_bind, spec_get. intros m _.
    eapply spec_issue_or_compensate; [reflexivity| |].
    + intros p' Hp'. by apply ok_activating.
    + eapply (phase_failure_ok _ RoleActive); [by apply ok_activating|done].
  - destruct role; simplify_eq/=. rewrite H. apply spec_bind, spec_stage. cbn [c_stage].
    apply spec_bind, spec_ret. eapply spec_bind, spec_require; [done|]. intros w Hcw.
    apply spec_bind, spec_ensure. intros _ _. injection Hcw as -> -> _ _ _. cbn.
    apply spec_bind, spec_set_supervisor. apply spec_bind, spec_set_stage.
    apply spec_emit, ok_operational, op_running.
  - by apply operational_success_ok.
  - destruct Hi as [Hi|Hlap]; [by rewrite (Hi role w Hw) in Hp|]. apply spec_bind, spec_stage.
    rewrite Est, Hst. apply spec_bind, spec_ret. by apply spec_fail, Hack.
  - apply spec_bind, spec_stage. rewrite Est, Hst. apply spec_bind, spec_ret.
    destruct Ha as [Ha|Hlap].
    + pose proof (Ha role w Hw) as Hph. rewrite Hp in Hph. cbn in Hph. rewrite Hph. by apply spec_ret.
    + cbn. destruct (p_phase p); first [by apply spec_ret|by apply spec_fail, Hack].
  - by destruct role.
Qed.

Lemma spec_clear_pending role w C (Q : unit -> Ctl -> Prop) :
  c_worker C role = Some w -> Q tt (c_set_worker role (Some (cw_with_pending None w)) C) ->
  spec Er (update_worker role (with_pending None)) C Q.
Proof.
  intros Hw HQ. eapply spec_update; [done| |done].
  intros w' Hw'. change (cw_of (with_pending None w')) with (cw_with_pending None (cw_of w')). by rewrite Hw'.
Qed.

Lemma c_set_worker_same role w C : c_worker (c_set_worker role w C) role = w.
Proof. by destruct role. Qed.

Lemma handle_ack_ok role w ack C :
  sound C -> c_worker C role = Some w ->
  spec Er (handle_ack reserve role ack now) C (fun _ => sound).
Proof.
  intros Hok Hw. apply spec_bind, spec_worker_pending. rewrite Hw. cbn [mbind option_bind].
  destruct (ack_matches ack (cw_pending w)) eqn:Em; cbn [negb]; [|by apply spec_emit].
  unfold ack_matches in Em. destruct (cw_pending w) as [p|] eqn:Hp; [|done].
  apply andb_true_iff in Em as [_ Em%bool_decide_eq_true_1].
  eapply spec_bind, spec_clear_pending; [done|]. rewrite <- Em. destruct (outcome ack).
  - by eapply success_ok.
  - eapply phase_failure_ok; [by apply clear_pending_ok|apply c_set_worker_same].
Qed.

Lemma handle_disconnect_ok role w C :
  sound C -> c_worker C role = Some w ->
  spec Er (handle_disconnect reserve role now) C (fun _ => sound).
Proof.
  intros Hok Hw. eapply spec_bind, spec_worker_id; [done|]. apply spec_bind, spec_emit.
  apply spec_bind, spec_worker_state.
  destruct (cw_state <$> c_worker C role) as [[|b]|]; [|by apply spec_ret|]; by eapply phase_failure_ok.
Qed.

Lemma handle_status_ok role w status C :
  sound C -> c_worker C role = Some w -> spec Er (handle_status role status) C (fun _ => sound).
Proof.
  intros Hok Hw. eapply spec_bind, spec_require; [done|]. intros w0 Hw0.
  apply spec_bind, spec_get. intros m _. case_match; [|by apply spec_emit].
  destruct p as [v h']. apply spec_bind, (spec_put _ _ _ C); [by intros m' <-|].
  eapply spec_bind, (spec_update _ _ _ w); [done|by intros w' <-|]. apply spec_emit.
  rewrite <- Hw. by rewrite c_set_same.
Qed.

(** *** A worker is gone *)

Lemma removed_readable role C : readable C -> readable (c_set_worker role None C).
Proof.
  unfold readable. destruct role; [done|done|]. cbn. destruct (c_supervisor C); [|done].
  intros (p & Hp & _). by exists p.
Qed.

Lemma removed_worker role role' w C :
  c_worker (c_set_worker role None C) role' = Some w -> c_worker C role' = Some w.
Proof. by destruct role, role'. Qed.

Lemma removed_workers role C : workers_ok C -> workers_ok (c_set_worker role None C).
Proof. intros H r w Hw. eapply H, removed_worker, Hw. Qed.


(** Losing a worker that nothing replaces. *)
Lemma take_fail_ok role phase C :
  sound C -> c_stage C <> StageFailed ->
  spec Er (let! _ := take_worker role in fail_master phase) C (fun _ => sound).
Proof.
  intros Hok Hst. apply spec_bind, spec_take. destruct (removed_fields role None C) as (Hs & _).
  apply spec_fail_closed; [by apply removed_workers, master_workers| |congruence|];
    [by apply removed_readable, master_readable|]. by apply failed_ok, removed_readable, master_readable.
Qed.

(** Losing a worker while all are being stopped. *)
Lemma take_ending_ok role C :
  sound C -> match c_stage C with Failing _ | ShuttingDown _ _ => True | _ => False end ->
  spec Er (take_worker role) C (fun _ => sound).
Proof.
  intros Hok Hst. apply spec_take. destruct (removed_fields role None C) as (Es & Ev & Ed & _).
  destruct Hok as [| |C Ho|C ph Hs Hi Hw Hr|C d b Hs Hv Hd Ha Hw|s df f st Hs]; [done|done|by destruct Ho| | |by destruct st].
  - apply (ok_failing _ ph); [congruence| |by apply removed_workers|by apply removed_readable].
    destruct Hi as [Hi|Hi]; [left|by right]. intros r w Hw'. by eapply Hi, removed_worker.
  - apply (ok_shutting _ d b); [congruence..| |by apply removed_workers].
    destruct Ha as [Ha|Ha]; [left|by right]. intros r w Hw'. by eapply Ha, removed_worker.
Qed.

(** The candidate of a rollback is gone. *)
Lemma spec_candidate_gone n a c C :
  rolled a c C ->
  spec Er (let! _ := take_worker RoleCandidate in
           let! _ := apply_replacement_event (Ex n) (CandidateStopped c) in
           maybe_finish_rollback) C (fun _ => sound).
Proof.
  intros (ga & gc & l & Hl & Hs & Hok). apply spec_bind, spec_take. apply spec_bind.
  eapply spec_bind, spec_apply; [exact Hs|by apply (accept_candidate_stopped _ (mkInstance c gc Stopping))|].
  apply spec_nil. destruct Hok as [| |C Ho|C ph Hst Hi Hwk Hr|C d b Hst Hs'|s df f st Hst]; [done|done| |..].
  - destruct Ho as [| | | |a' ga' la pa da c' gc' pc dc sc f Hac Hpc Hk Hla| | |]; simplify_eq/=.
    apply spec_finish_rollback; [|intros f'|done]; cbn.
    + by destruct Hla as [[-> _]|[-> _]]; eexists; split.
    + apply ok_operational. destruct Hla as [[-> ->]|[-> Hw]]; [apply op_running|by apply op_restoring].
  - destruct Hl as [[_ ?]| ->]; [congruence|].
    eapply spec_bind, spec_phase; [done|done|]. apply spec_ret.
    apply (ok_failing _ ph); [done| | |by exists RollingBack].
    + destruct Hi as [Hi|Hi]; [left|by right]. intros r w Hw. apply (Hi r). by destruct r.
    + intros r w Hw. apply (Hwk r). by destruct r.
  - congruence.
  - destruct Hl as [[_ Hl]| ->]; simplify_eq/=; [done|].
    eapply spec_bind, spec_phase; [done|done|]. apply spec_ret. apply ok_ended; [done|by exists RollingBack].
Qed.

(** Failing closed does not end the rollback it interrupts: the candidate that
    exited is still activating in the supervisor, which rejects that it stopped. *)
Definition stuck : MasterError := MasterReplacement (UnexpectedLifecycle "candidate" Stopping Activating).
Context (Hstuck : forall C, sound C -> Er stuck C).

Lemma spec_stuck n a ga c gc C (Q : unit -> Ctl -> Prop) :
  c_supervisor C = Some (mkSupervisor (mkInstance a ga Quiescing) (Some (mkInstance c gc Activating)) None) ->
  sound C -> spec Er (apply_replacement_event (Ex n) (CandidateStopped c)) C Q.
Proof.
  intros Hs Hok. apply spec_bind. intros m k <-. unfold supervisor_apply. cbn in Hs. rewrite Hs.
  unfold ReplacementSupervisor_apply, expect_candidate_id, expect_instance_id, mbind_se, mtry. cbn.
  rewrite bool_decide_eq_false_2 by tauto. cbn.
  apply Hstuck. unfold ctl in *. cbn in *. by rewrite <- Hs.
Qed.

(** What [handle_exit] does once the exit is recorded. *)
Definition exit_handled role (id : InstanceId) (replacement : option ReplacementPhase) (stage : Stage) : MM unit :=
  let apply := apply_replacement_event (run_actions reserve now) in
  match stage, replacement, role with
  | (Failing _ | ShuttingDown _ _), _, _ => take_worker role
  | Operational, Some RollingBack, RoleCandidate =>
      let! _ := take_worker role in
      let! _ := apply (CandidateStopped id) in
      maybe_finish_rollback
  | Operational, Some StoppingRetired, RoleRetired =>
      let! _ := take_worker role in
      let! _ := apply (RetiredStopped id) in
      let! failure := get ms_replacement_failure in
      match failure with
      | Some _ => complete_failed_retired
      | None => complete_replacement
      end
  | Operational, Some (AdoptingCandidate | PhaseQuiescing | ActivatingCandidate), RoleCandidate =>
      let! _ := begin_rollback (run_actions reserve now) FailCrash in
      let! _ := take_worker role in
      let! _ := apply (CandidateStopped id) in
      maybe_finish_rollback
  | Operational, Some DrainingRetired, RoleRetired =>
      let! _ := fail_retired (run_actions reserve now) FailCrash in
      let! _ := take_worker role in
      let! _ := apply (RetiredStopped id) in
      complete_failed_retired
  | _, _, _ =>
      let! _ := take_worker role in
      fail_master FailCrash
  end.

Lemma spec_exit role w status p C (Q : unit -> Ctl -> Prop) :
  c_worker C role = Some w ->
  (match c_supervisor C with None => p = None | Some s => exists q, ReplacementSupervisor_phase s = Some q /\ p = Some q end) ->
  (p = Some ActivatingCandidate -> role = RoleActive -> Q tt (c_set_deferred (Some status) C)) ->
  (p <> Some ActivatingCandidate \/ role <> RoleActive ->
   spec Er (exit_handled role (cw_id w) p (c_stage C)) C Q) ->
  spec Er (handle_exit reserve role status now) C Q.
Proof.
  intros Hw Hp Hd Hx. eapply spec_bind, spec_worker_id; [done|]. apply spec_bind.
  assert (forall Q', Q' p C -> spec Er replacement_phase C Q') as Hph.
  { intros Q' HQ'. destruct (c_supervisor C) as [s|] eqn:Hs.
    - destruct Hp as (q & Hq & ->). by eapply spec_phase.
    - subst p. by apply spec_phase_none. }
  apply Hph. clear Hph Hp.
  assert (p <> Some ActivatingCandidate \/ role <> RoleActive ->
    spec Er (let! _ := emit (WorkerExited role (cw_id w) status) in
             let! stage := get ms_stage in exit_handled role (cw_id w) p stage) C Q) as Hr.
  { intros H. apply spec_bind, spec_emit. apply spec_bind, spec_stage. by apply Hx. }
  destruct p as [[]|], role; try (apply Hr; first [by left|by right]).
  apply spec_bind, spec_set_deferred, spec_emit. by apply Hd.
Qed.

(** The exit of the candidate while it is being activated. *)
Lemma exit_rollback_ok a ga la pa da c gc lc pc dc d f :
  a <> c ->
  la = Active /\ lc = Preparing /\ pa = None /\ d = None \/ la = Quiescing /\ lc = Ready /\ d = None \/
  la = Quiescing /\ lc = Activating ->
  spec Er (let! _ := begin_rollback (run_actions reserve now) FailCrash in
           let! _ := take_worker RoleCandidate in
           let! _ := apply_replacement_event (run_actions reserve now) (CandidateStopped c) in
           maybe_finish_rollback)
    (mkCtl (Some (mkSupervisor (mkInstance a ga la) (Some (mkInstance c gc lc)) None))
      (Some (mkCW a ga pa da WorkerRunning)) (Some (mkCW c gc pc dc WorkerRunning)) None d f Operational)
    (fun _ => sound).
Proof.
  intros Hac Hl. apply spec_bind. destruct d as [st|].
  - destruct Hl as [(_ & _ & _ & [=])|[(_ & _ & [=])|[-> ->]]].
    apply spec_bind, spec_deferred. cbn beta iota.
    apply spec_fail_closed; [workers|by exists ActivatingCandidate|done|]. cbn. apply spec_bind, spec_take. cbn.
    eapply spec_bind, spec_stuck; [done|].
    eapply ok_failing; [done|left; workers|workers|by exists ActivatingCandidate].
  - eapply spec_weaken; [apply spec_begin_rollback; [done|naive_solver]|].
    intros [] C' Hr. by eapply spec_candidate_gone.
Qed.

Lemma exit_stopped_ok a ga da r gr pr dr sr f :
  spec Er (let! _ := take_worker RoleRetired in
           let! _ := apply_replacement_event (run_actions reserve now) (RetiredStopped r) in
           let! failure := get ms_replacement_failure in
           match failure with
           | Some _ => complete_failed_retired
           | None => complete_replacement
           end)
    (mkCtl (Some (mkSupervisor (mkInstance a ga Active) None (Some (mkInstance r gr Stopping))))
      (Some (mkCW a ga None da WorkerRunning)) None (Some (mkCW r gr pr dr sr)) None f Operational)
    (fun _ => sound).
Proof.
  apply spec_bind, spec_take. apply spec_bind.
  eapply spec_weaken; [by eapply spec_retired_stopped|]. intros [] C' ->.
  apply spec_bind, spec_failure. cbn [c_failure]. destruct (spec_complete a ga da f) as [Hc Hf].
  destruct f; [by apply Hf|exact Hc].
Qed.

Lemma operational_exit_ok role w status C :
  at_work C -> c_worker C role = Some w ->
  spec Er (handle_exit reserve role status now) C (fun _ => sound).
Proof.
  intros Ho Hw. pose proof (ok_operational C Ho) as Hok.
  assert (forall r, spec Er (let! _ := take_worker r in fail_master FailCrash) C (fun _ => sound)) as Hf.
  { intros r. apply take_fail_ok; [done|by destruct Ho]. }
  assert (c_stage C = Operational) as Hst by (by destruct Ho).
  pose proof (operational_readable C Ho) as Hr. unfold readable in Hr.
  destruct (c_supervisor C) as [s|] eqn:Hs; [|by destruct Ho]. destruct Hr as (p & Hp & _).
  eapply (spec_exit _ _ _ (Some p)); [done|rewrite Hs; by exists p| |].
  - intros [= ->] ->. apply ok_operational.
    destruct Ho; simplify_eq/=; by apply op_activating.
  - intros Hn. rewrite Hst. destruct p, role; try apply Hf;
      destruct Ho as [| | | |a ga la pa da c gc pc dc sc f Hac Hpc Hk [[-> _]|[-> _]]| | |]; simplify_eq/=; try discriminate.
    + apply exit_rollback_ok; naive_solver.
    + apply exit_rollback_ok; naive_solver.
    + apply exit_rollback_ok; naive_solver.
    + apply (spec_candidate_gone _ a c). by exists ga, gc, Active; split_and!; [left| |].
    + apply (spec_candidate_gone _ a c). by exists ga, gc, Reactivating; split_and!; [right| |].
    + apply (spec_fail_and_complete _ a _ _ r _ _ _ _ _ _ _ (mret r)); [done|by left|done|by right].
    + apply exit_stopped_ok.
Qed.

Lemma handle_exit_ok role w status C :
  sound C -> c_worker C role = Some w ->
  spec Er (handle_exit reserve role status now) C (fun _ => sound).
Proof.
  intros Hok Hw.
  assert (match c_stage C with Failing _ | ShuttingDown _ _ => True | _ => False end ->
    spec Er (take_worker role) C (fun _ => sound)) as Ht by (intros ?; by apply take_ending_ok).
  pose proof (fun H => take_fail_ok role FailCrash C Hok H) as Hf.
  destruct Hok as [a ga pa da f H|a ga pa da f H|C Ho|C ph Hst Hi Hwk Hr|C d b Hst Hs Hd Ha Hwk|s df f st Hst Hr].
  - eapply (spec_exit _ _ _ None); [done|done|done|]. intros _. by apply Hf.
  - eapply (spec_exit _ _ _ None); [done|done|done|]. intros _. by apply Hf.
  - by eapply operational_exit_ok.
  - unfold readable in Hr. pose proof Hst as Hst'. rewrite Hst in Ht.
    eapply (spec_exit _ _ _ (c_supervisor C ≫= ReplacementSupervisor_phase)); [done| | |].
    + destruct (c_supervisor C); [|done]. destruct Hr as (p & Hp & _). by exists p.
    + intros _ _. by apply (ok_failing _ ph).
    + intros _. rewrite Hst. by apply Ht.
  - eapply (spec_exit _ _ _ None); [done|by rewrite Hs|done|]. intros _. rewrite Hst in *. by apply Ht.
  - by destruct role.
Qed.

Lemma handle_observation_ok role w o C :
  sound C -> c_worker C role = Some w ->
  spec Er (handle_observation reserve role o now) C (fun _ => sound).
Proof.
  intros Hok Hw. destruct o.
  - by eapply handle_ack_ok.
  - by eapply handle_status_ok.
  - by eapply handle_exit_ok.
  - by eapply handle_disconnect_ok.
  - by eapply phase_failure_ok.
Qed.

Lemma role_for_worker C id role :
  c_role_for C id = Some role -> exists w, c_worker C role = Some w /\ cw_id w = id.
Proof.
  intros H%List.find_some. destruct H as [_ H]. destruct (c_worker C role) as [w|]; [|done].
  exists w. by apply bool_decide_eq_true in H.
Qed.

Lemma handle_observed_ok o C :
  sound C -> spec Er (handle_observed reserve now o) C (fun _ => sound).
Proof.
  intros Hok. apply spec_bind, spec_role_for. destruct (c_role_for C _) as [role|] eqn:Hr; [|by apply spec_ret].
  apply role_for_worker in Hr as (w & Hw & _). by eapply handle_observation_ok.
Qed.

Lemma for_each_ok {A} (f : A -> MM unit) l C :
  (forall x C, sound C -> spec Er (f x) C (fun _ => sound)) ->
  sound C -> spec Er (for_each f l) C (fun _ => sound).
Proof.
  intros Hf. revert C. induction l as [|x l IH]; intros C Hok; [by apply spec_ret|].
  apply spec_bind. eapply spec_weaken; [by apply Hf|]. intros [] C'. apply IH.
Qed.

(** *** Observing and deadlines *)

Lemma spec_readable_phase C (Q : option ReplacementPhase -> Ctl -> Prop) :
  readable C -> (forall p, p = c_supervisor C ≫= ReplacementSupervisor_phase -> Q p C) ->
  spec Er replacement_phase C Q.
Proof.
  unfold readable. intros Hr HQ. destruct (c_supervisor C) as [s|] eqn:Hs.
  - destruct Hr as (p & Hp & _). eapply spec_phase; [done|done|]. by apply HQ; cbn.
  - apply spec_phase_none; [done|]. by apply HQ.
Qed.

Lemma spec_receive role w inputs C :
  c_worker C role = Some w ->
  spec Er (receive_observation reserve_vec role inputs) C (fun _ C' => C' = C).
Proof.
  intros Hw. eapply spec_bind, spec_require; [done|]. intros w0 Hw0.
  destruct (w_channel_open w0); cbn [negb]; [|by apply spec_ret].
  eapply spec_bind, spec_on_process; [done|done|]. intros s.
  destruct (process_try_receive _ _ s).1 as [[frame|]|e]; [by apply spec_ret..|].
  assert (spec Er (if channel_disconnected e then
      let! _ := update_worker role (with_channel_open false) in mret (Some ObservedDisconnected)
    else mret (Some ObservedProtocolFailure)) C (fun _ C' => C' = C)) as H;
    [|destruct e; first [exact H|by apply spec_ret]].
  destruct (channel_disconnected e); [|by apply spec_ret].
  eapply spec_bind, (spec_update _ _ _ w); [done|by intros w' <-|]. apply spec_ret.
  by rewrite <- Hw, c_set_same.
Qed.

(** Observing leaves the control state as it is. *)
Lemma spec_observe role inputs C :
  (forall e, poll_error e -> Er (MasterIo e) C) -> readable C -> spec Er (observe_worker reserve_vec role inputs) C (fun _ C' => C' = C).
Proof.
  intros Hpoll Hr. apply spec_bind, spec_deferred. apply spec_bind.
  apply (spec_weaken _ _ _ (fun _ C' => C' = C)).
  { destruct role; [destruct (c_deferred C); [|by apply spec_ret]|by apply spec_ret..].
    apply spec_bind, spec_readable_phase; [done|]. intros p _. by apply spec_ret. }
  intros skip C' ->. destruct skip; [by apply spec_ret|].
  apply spec_bind, spec_get. intros m <-. destruct (worker m role) as [w|] eqn:Hw; [|by apply spec_ret].
  assert (c_worker (ctl m) role = Some (cw_of w)) as Hcw by (by rewrite ctl_worker, Hw).
  eapply spec_bind, spec_on_process; [exact Hcw|done|]. intros s.
  apply spec_bind, spec_ensure. intros _ _.
  destruct (process_poll_event s).1 as [[[status]|]|e] eqn:Ee; cbn; [by apply spec_ret| |apply Hpoll; by exists s].
  apply spec_bind. eapply spec_weaken; [by eapply spec_receive|]. intros o C' ->. by apply spec_ret.
Qed.

Lemma force_all_workers C role w :
  c_worker (c_force_all C) role = Some w -> cw_pending w = None /\ cw_state w = Terminating true.
Proof.
  destruct (c_force_all_fields C) as (_ & _ & _ & _ & ->). destruct (c_worker C role); by intros [= <-].
Qed.

Lemma stopping_retired C w :
  readable C -> c_supervisor C ≫= ReplacementSupervisor_phase = Some StoppingRetired -> c_retired C = Some w ->
  exists s r, c_supervisor C = Some s /\ retired s = Some r /\ lifecycle r = Stopping /\ instance_id r = cw_id w.
Proof.
  unfold readable. intros Hr Hp Hw. destruct (c_supervisor C) as [s|]; [|done].
  destruct Hr as (p & Hp' & Hsame). cbn in Hp. rewrite Hp in Hp'. injection Hp' as <-.
  unfold ReplacementSupervisor_phase in Hp.
  destruct (retired s) as [r|] eqn:Hr; [|by repeat case_match].
  exists s, r. split_and!; [done|done|by destruct (lifecycle r)|]. by symmetry; apply (Hsame eq_refl).
Qed.

Lemma role_for_retired C w : c_retired C = Some w -> exists role, c_role_for C (cw_id w) = Some role.
Proof.
  intros Hw. destruct (c_role_for C (cw_id w)) as [role|] eqn:Hr; [by exists role|].
  apply (List.find_none _ _ ) with (x := RoleRetired) in Hr; [|cbn; auto].
  cbn in Hr. rewrite Hw in Hr. by rewrite bool_decide_eq_true_2 in Hr.
Qed.

(** A worker that is killed in a failing master. *)
Lemma force_failing_ok role w C ph :
  c_stage C = Failing ph -> all_idle C \/ lapsed -> workers_ok C -> readable C -> c_worker C role = Some w ->
  sound (c_set_worker role (Some (forced w)) C).
Proof.
  intros Hst Hi Hwk Hr Hw. apply (ok_failing _ ph); [by destruct role| | |].
  - destruct Hi as [Hi|Hi]; [left|by right].
    intros r w' Hw'. destruct (decide (r = role)) as [->|Hne]; [by destruct role; simplify_eq/=|].
    apply (Hi r). by destruct r, role.
  - intros r w' Hw'. destruct (decide (r = role)) as [->|Hne]; [by destruct role; simplify_eq/=|].
    apply (Hwk r). by destruct r, role.
  - unfold readable in *. destruct role; [done|done|]. cbn in *. destruct (c_supervisor C) as [s|]; [|done].
    destruct Hr as (p & Hp & Hr). exists p. split; [done|]. intros Hps i w' Hrs [= <-]. by apply (Hr Hps i w).
Qed.

(** The stage, the exit that was put off and the identities stay. *)
Definition same_workers C C' : Prop :=
  c_stage C' = c_stage C /\ c_deferred C' = c_deferred C /\
  forall role, cw_id <$> c_worker C' role = cw_id <$> c_worker C role.

(** The retired worker did not stop in time. *)
Lemma termination_ok C :
  sound C -> c_supervisor C ≫= ReplacementSupervisor_phase = Some StoppingRetired ->
  c_retired C <> None ->
  spec Er (let! retired := worker_id RoleRetired in
           let! _ := put (set_failure (Some FailShutdown)) in
           let! _ := update_worker RoleRetired (with_termination_deadline None) in
           apply_replacement_event (run_actions reserve now) (TerminationTimedOut retired)) C
    (fun _ C' => sound C' /\ same_workers C C').
Proof.
  intros Hok Hp Hret. destruct (c_retired C) as [w|] eqn:Hw; [|done]. clear Hret.
  destruct (stopping_retired C w (master_readable C Hok) Hp Hw) as (s & r & Hs & Hr & Hl & Hid).
  eapply spec_bind, spec_worker_id; [done|]. apply spec_bind, spec_set_failure.
  eapply spec_bind, (spec_update _ _ _ (cw_with_deadline None w)); [done| |].
  { intros w' Hw'. change (cw_of (with_termination_deadline ?d w')) with (cw_with_deadline d (cw_of w')).
    by rewrite Hw'. }
  rewrite <- Hid. eapply spec_bind, spec_apply; [exact Hs|apply accept_timeout; [by right|done]|].
  set (C1 := c_set_supervisor _ _). assert (c_supervisor C1 = c_supervisor C) as Hs1 by done.
  destruct (role_for_retired C1 (cw_with_deadline None w) eq_refl) as [role Hrole].
  destruct (role_for_worker C1 _ role Hrole) as (w1 & Hw1 & _).
  assert (Hwk := master_workers C Hok).
  destruct Hok as [| |C Ho|C ph Hst Hi _ Hrd|C d b Hst Hs'|s' df f st Hst]; [done|done| | |congruence|done].
  - destruct Ho as [| | | | | | |a ga da r' gr pr dr sr f Har Hph Hk]; simplify_eq/=.
    eapply (spec_kill _ _ RoleRetired); [by apply ok_operational, op_stopping; auto| |reflexivity|done|].
    + apply (role_retired (mkCW (instance_id r) gr pr None sr)); [by intros wa [= <-]|done|done].
    + split; [by apply ok_operational, op_stopping; [|left|]|]. by split_and!; [..|intros []].
  - assert (workers_ok C1) as Hwk1.
    { intros [] w2 Hw2; [by apply (Hwk RoleActive)|by apply (Hwk RoleCandidate)|].
      injection Hw2 as <-. exact (Hwk RoleRetired w Hw). }
    assert (readable C1) as Hrd1.
    { unfold readable in *. rewrite Hs1, Hs in *. destruct Hrd as (p & Hp' & Hrd).
      exists p. split; [done|]. intros Hps r2 w2 Hr2 [= <-]. by apply (Hrd Hps r2 w). }
    eapply (spec_kill _ _ role w1); [by eapply lapsed_failing|by rewrite Hid|done|by apply (Hwk1 role)|].
    split; [eapply (force_failing_ok role w1 C1 ph); [done| |done|done|done]|].
    + destruct Hi as [Hi|Hi]; [left|by right].
      intros [] w2 Hw2; [by apply (Hi RoleActive)|by apply (Hi RoleCandidate)|].
      injection Hw2 as <-. exact (Hi RoleRetired w Hw).
    + split_and!; [by destruct role..|]. intros r'. destruct (decide (r' = role)) as [->|Hne].
      * rewrite c_set_worker_same. change (cw_id <$> Some (forced w1)) with (cw_id <$> Some w1).
        rewrite <- Hw1. destruct role; [done..|]. cbn. by rewrite Hw.
      * transitivity (cw_id <$> c_worker C1 r'); [by destruct r', role|]. destruct r'; [done..|]. cbn. by rewrite Hw.
Qed.

Definition c_shutdown_forced (d : Instant) C : Ctl := c_force_all (c_set_stage (ShuttingDown d true) C).

Lemma shutdown_forced_ok d b C :
  c_stage C = ShuttingDown d b -> sound C -> sound (c_shutdown_forced d C).
Proof.
  intros Hst Hok. destruct Hok as [| |C Ho|C ph Hst'|C d' b' Hst' Hs Hd Ha Hw|s df f st Hst' Hr];
    [done|done|by destruct Ho|congruence| |cbn in Hst; by subst st].
  unfold c_shutdown_forced.
  destruct (c_force_all_fields (c_set_stage (ShuttingDown d true) C)) as (Es & Ed & _ & Et & _).
  apply (ok_shutting _ d true); [by rewrite Et|by rewrite Es|by rewrite Ed| |].
  - left. intros role w Hw'. apply force_all_workers in Hw' as [-> _]. done.
  - intros role w Hw' _. by apply force_all_workers in Hw' as [-> _].
Qed.

Lemma shutting_lapsed d b d' b' C C' :
  c_stage C = ShuttingDown d b -> sound C -> forcing (c_set_stage (ShuttingDown d' b') C) C' -> master_ok True C'.
Proof.
  intros Hst Hok F. pose proof (master_workers C Hok) as Hw.
  destruct Hok as [| |C Ho|C ph Hst'|C d0 b0 Hst' Hs Hd Ha _|s df f st Hst' Hr];
    [done|done|by destruct Ho|congruence| |cbn in Hst; by subst st].
  pose proof F as (Es & Ed & Et & _). apply (ok_shutting _ d' b'); [done|by rewrite Es|by rewrite Ed|by right|].
  by eapply forcing_workers.
Qed.

Lemma spec_shutdown_forced d (forced : bool) C (Q : unit -> Ctl -> Prop) :
  (forall C', forcing (c_set_stage (ShuttingDown d true) C) C' -> may_fail Er C') ->
  workers_ok C -> Q tt (c_shutdown_forced d C) ->
  spec Er (let! _ := (if forced then mret tt else emit ShutdownForced) in
           let! _ := put (set_stage (ShuttingDown d true)) in
           for_each force_if_present all_roles) C Q.
Proof.
  intros Hio Hw HQ. apply spec_bind. apply (spec_weaken _ _ _ (fun _ C' => C' = C)).
  { by destruct forced; [apply spec_ret|apply spec_emit]. }
  intros [] C' ->. apply spec_bind, spec_set_stage. by apply spec_force_all.
Qed.

(** What [handle_timeout] does when the master is not shutting down. *)
Definition expire : MM unit :=
  let! expired := retired_expired now in
  if expired : bool then
    let! retired := worker_id RoleRetired in
    let! _ := put (set_failure (Some FailShutdown)) in
    let! _ := update_worker RoleRetired (with_termination_deadline None) in
    apply_replacement_event (run_actions reserve now) (TerminationTimedOut retired)
  else
    let! timed_out := get (fun m => List.find (pending_expired now m) all_roles) in
    match timed_out with
    | None => mret tt
    | Some role =>
        let! phase := get (fun m =>
          match worker m role ≫= w_pending with
          | Some p => phase_failure (p_phase p) | None => FailProtocol end) in
        let! _ := update_worker role (with_pending None) in
        handle_phase_failure (run_actions reserve now) role phase
    end.

Lemma expire_pending_ok C :
  sound C ->
  spec Er (let! timed_out := get (fun m => List.find (pending_expired now m) all_roles) in
    match timed_out with
    | None => mret tt
    | Some role =>
        let! phase := get (fun m =>
          match worker m role ≫= w_pending with
          | Some p => phase_failure (p_phase p) | None => FailProtocol end) in
        let! _ := update_worker role (with_pending None) in
        handle_phase_failure (run_actions reserve now) role phase
    end) C (fun _ => sound).
Proof.
  intros Hok. apply spec_bind, spec_get. intros m <-.
  destruct (List.find (pending_expired now m) all_roles) as [role|] eqn:Hf; [|by apply spec_ret].
  apply List.find_some in Hf as [_ Hf]. unfold pending_expired in Hf.
  destruct (worker m role) as [w|] eqn:Hw; [|done].
  assert (c_worker (ctl m) role = Some (cw_of w)) as Hcw by (by rewrite ctl_worker, Hw).
  apply spec_bind, spec_get. intros m' _. eapply spec_bind, spec_clear_pending; [done|].
  eapply phase_failure_ok; [by apply clear_pending_ok|apply c_set_worker_same].
Qed.

Lemma expire_ok C : sound C -> spec Er expire C (fun _ => sound).
Proof.
  intros Hok. apply spec_bind, spec_bind, spec_readable_phase; [by apply master_readable|].
  intros p Hp. pose proof (expire_pending_ok C Hok) as He.
  assert (spec Er (mret false) C (fun b C' => b = false /\ C' = C)) as Hf by (by apply spec_ret).
  destruct p as [[]|]; try (apply spec_ret; exact He).
  apply spec_get. intros m <-.
  destruct (ms_retired m ≫= w_termination_deadline) as [d|] eqn:Hd; [|exact He].
  destruct (d <=? now); [|exact He]. eapply spec_weaken;
    [apply termination_ok; [done|done|cbn; by destruct (ms_retired m)]|by intros [] C' [? _]].
Qed.

Lemma handle_timeout_ok C : sound C -> spec Er (handle_timeout reserve now) C (fun _ => sound).
Proof.
  intros Hok. apply spec_bind, spec_get. intros m _. destruct (next_deadline m) as [next|]; [|by apply spec_ret].
  destruct (now <? next); [by apply spec_ret|]. apply spec_bind, spec_stage.
  pose proof (expire_ok C Hok) as He. destruct (c_stage C) as [| | |d b| | |] eqn:Hst; try exact He.
  apply spec_shutdown_forced; [|by apply master_workers|by eapply shutdown_forced_ok].
  intros C' F. by eapply may_fail_lapsed, shutting_lapsed.
Qed.

(** *** Ending *)

Definition no_workers C : Prop := forall role, c_worker C role = None.

Lemma worker_count_zero m : (worker_count m =? 0) = true <-> no_workers (ctl m).
Proof.
  rewrite Z.eqb_eq. unfold no_workers, worker_count, workers, len.
  destruct m as [? ? ? ? a c r ? ? ? ? ? ?]; destruct a, c, r; cbn; (split; [try lia|intros H]);
    try (by specialize (H RoleActive)); try (by specialize (H RoleCandidate));
    try (by specialize (H RoleRetired)); by intros _ [].
Qed.

(** The stage once no worker is left. *)
Definition c_ended C : Ctl :=
  match c_stage C with
  | ShuttingDown _ forced => c_set_stage (StageStopped forced) C
  | Failing _ => c_set_stage StageFailed C
  | _ => C
  end.

Lemma spec_finish C (Q : unit -> Ctl -> Prop) :
  (no_workers C -> Q tt (c_ended C)) -> (~ no_workers C -> Q tt C) -> spec Er finish_terminal_states C Q.
Proof.
  intros Hn Hw. apply spec_bind, spec_get. intros m Hm.
  destruct (worker_count m =? 0) eqn:Ec; cbn [negb].
  - apply worker_count_zero in Ec. rewrite Hm in Ec. specialize (Hn Ec). unfold c_ended in Hn.
    apply spec_bind, spec_stage.
    destruct (c_stage C); try (by apply spec_ret); apply spec_bind, spec_set_stage; by apply spec_emit.
  - apply spec_ret, Hw. rewrite <- Hm, <- worker_count_zero. by rewrite Ec.
Qed.


Lemma ended_ok C : sound C -> no_workers C -> sound (c_ended C).
Proof.
  intros Hok Hn. assert (readable C) as Hr by (by apply master_readable).
  assert (forall st, match st with StageStopped _ | StageFailed => True | _ => False end ->
    sound (c_set_stage st C)) as He.
  { intros st Hst. unfold c_set_stage. pose proof (Hn RoleActive) as Ha. pose proof (Hn RoleCandidate) as Hc.
    pose proof (Hn RoleRetired) as Hrt. cbn in Ha, Hc, Hrt. rewrite Ha, Hc, Hrt. apply ok_ended; [done|].
    unfold readable in *. cbn. destruct (c_supervisor C); [|done]. destruct Hr as (p & Hp & _). by exists p. }
  unfold c_ended. destruct (c_stage C); try done; by apply He.
Qed.

Lemma finish_ok C : sound C -> spec Er finish_terminal_states C (fun _ => sound).
Proof. intros Hok. apply spec_finish; [|done]. by apply ended_ok. Qed.

(** Draining the events leaves the control state. *)
Lemma spec_drain_events C (Q : list MasterEvent -> Ctl -> Prop) :
  (forall events, Q events C) ->
  spec Er (let! events := get ms_events in let! _ := put (set_events []) in mret events) C Q.
Proof.
  intros HQ. apply spec_bind, spec_get. intros m Hm. apply spec_bind, (spec_put _ _ _ C); [by intros m' <-|].
  by apply spec_ret.
Qed.

Lemma poll_ok inputs C :
  (forall e C, poll_error e -> sound C -> Er (MasterIo e) C) ->
  sound C -> spec Er (poll reserve reserve_vec inputs now) C (fun _ => sound).
Proof.
  intros Hpoll Hok. apply spec_bind. eapply spec_weaken; [by apply handle_timeout_ok|]. clear C Hok. intros [] C Hok.
  apply spec_bind, spec_stage. apply spec_bind. apply (spec_weaken _ _ _ (fun _ => sound)).
  { destruct (c_stage C) eqn:Hst; try (by apply spec_ret). apply fail_master_ok; [done|congruence]. }
  clear C Hok. intros [] C Hok. pose proof (master_readable C Hok) as Hr.
  apply spec_bind, spec_readable_phase; [done|]. intros p _. apply spec_bind, spec_get. intros m _.
  do 3 (apply spec_bind; eapply spec_weaken; [apply spec_observe; [|done]; intros e He; by apply Hpoll|]; intros ? C' ->).
  apply spec_bind. eapply spec_weaken; [apply for_each_ok; [|exact Hok]|].
  { intros o C'. apply handle_observed_ok. }
  intros [] C' Hok'. apply spec_bind. eapply spec_weaken; [by apply finish_ok|]. intros [] C'' Hok''.
  by apply spec_drain_events.
Qed.

(** The state is always one of the documented ones. *)
Lemma spec_state C (Q : MasterState -> Ctl -> Prop) :
  sound C -> (forall st, (st = StateRunning -> c_stage C = Operational /\
    c_supervisor C ≫= ReplacementSupervisor_phase = Some Running) -> Q st C) -> spec Er state C Q.
Proof.
  intros Hok HQ. apply spec_bind, spec_stage.
  destruct (c_stage C) eqn:Hst; try (apply spec_ret, HQ; by intros [=]).
  apply spec_bind, spec_readable_phase; [by apply master_readable|]. intros p Hp.
  destruct p as [[]|]; try (apply spec_ret, HQ; by intros [=]).
  exfalso. destruct Hok as [| |C Ho|C ph Hst'|C d b Hst'|s d f st Hst']; try done; [|congruence..|cbn in Hst; by subst].
  apply operational_readable in Ho as Hr. unfold readable in Hr.
  destruct (c_supervisor C) as [s|] eqn:Hs; [|by destruct Ho]. destruct Hr as (p & Hp' & _).
  cbn in Hp. congruence.
Qed.

(** *** Shutting down *)

(** A shutdown that has told the workers of [told]. *)
Definition telling (d : Instant) (told : list WorkerRole) C : Prop :=
  (exists b, c_stage C = ShuttingDown d b) /\ c_supervisor C = None /\ c_deferred C = None /\ workers_ok C /\
  forall role w, role ∈ told -> c_worker C role = Some w -> waits ControlProtocol.Shutdown (cw_pending w).

Lemma telling_set d told role w C :
  telling d told C -> cw_ok w -> waits ControlProtocol.Shutdown (cw_pending w) ->
  telling d (role :: told) (c_set_worker role (Some w) C).
Proof.
  intros ([b Hst] & Hs & Hd & Hwk & Ht) Hok Hw.
  destruct (removed_fields role (Some w) C) as (Est & Es & Ed & _).
  split_and!; [exists b; congruence|congruence|congruence| |].
  - intros r w' Hw'. destruct (decide (r = role)) as [->|Hne]; [by rewrite c_set_worker_same in Hw'; simplify_eq|].
    apply (Hwk r). by destruct r, role.
  - intros r w' Hr Hw'. destruct (decide (r = role)) as [->|Hne];
      [by rewrite c_set_worker_same in Hw'; simplify_eq|].
    apply (Ht r); [by apply elem_of_cons in Hr as [?|?]|by destruct r, role].
Qed.

Lemma telling_none d told role C : telling d told C -> c_worker C role = None -> telling d (role :: told) C.
Proof.
  intros (Hst & Hs & Hd & Hwk & Ht) Hn. split_and!; try done. intros r w Hr Hw.
  apply elem_of_cons in Hr as [->|Hr]; [congruence|by eapply Ht].
Qed.

Lemma telling_forced d told role C C' :
  telling d (role :: told) C ->
  C' = match c_stage C with ShuttingDown d _ => c_set_stage (ShuttingDown d true) C | _ => C end ->
  telling d (role :: told) C'.
Proof. intros ([b Hst] & Hs & Hd & Hwk & Ht) ->. rewrite Hst. split_and!; try done. by exists true. Qed.

Lemma telling_lapsed d told C : telling d told C -> master_ok True C.
Proof. intros ([b Hst] & Hs & Hd & Hwk & _). by apply (ok_shutting _ d b); [..|right|]. Qed.

Lemma spec_shutdown_role d told role C :
  telling d told C ->
  spec Er (shutdown_role reserve d role) C (fun _ C' => telling d (role :: told) C').
Proof.
  intros Ht. apply spec_bind, spec_get. intros m Hm. pose proof (ctl_worker m role) as Hw. rewrite Hm in Hw.
  destruct (worker m role) as [w0|]; cbn in Hw; [|by apply spec_ret, telling_none].
  set (w := cw_of w0) in *. apply spec_bind. eapply spec_issue_at; [done|].
  intros [u|e] C' Hi; cbn in Hi.
  - destruct Hi as (p & Hp & ->).
    eapply spec_bind, (spec_update _ _ _ (cw_with_state (Terminating false) (cw_with_pending (Some p) w)));
      [apply c_set_worker_same| |].
    { intros w' Hw'. change (cw_of (with_state ?st w')) with (cw_with_state st (cw_of w')). by rewrite Hw'. }
    apply spec_emit. replace (c_set_worker role _ (c_set_worker role _ C)) with
      (c_set_worker role (Some (cw_with_state (Terminating false) (cw_with_pending (Some p) w))) C)
      by (by destruct role). by apply telling_set.
  - destruct Hi as [He ->]. rewrite He. apply spec_bind, spec_record_issue; [done|].
    pose proof (telling_lapsed d told C Ht) as Hl.
    destruct Ht as (Hst & Hs & Hd & Hwk & Ht).
    eapply spec_bind, spec_force; [by apply may_fail_lapsed|done|by apply (Hwk role)|].
    set (C1 := c_set_worker role (Some (forced w)) C).
    apply (spec_put _ _ _
      (match c_stage C1 with ShuttingDown d _ => c_set_stage (ShuttingDown d true) C1 | _ => C1 end)).
    { intros m' <-. cbn. by destruct (ms_stage m'). }
    eapply telling_forced; [|done]. by apply telling_set; [split_and!|..].
Qed.

Lemma told_ok d told C : telling d told C -> (forall role, role ∈ told) -> sound C.
Proof.
  intros ([b Hst] & Hs & Hd & Hwk & Ht) Hall. apply (ok_shutting _ d b); try done.
  left. intros role w Hw. by apply (Ht role).
Qed.

Lemma begin_shutdown_ok C :
  sound C -> Er DeadlineOverflow C -> spec Er (begin_shutdown reserve now) C (fun _ => sound).
Proof.
  intros Hok Hover. apply spec_bind, spec_get. intros m _. apply spec_bind, spec_ensure. intros _ _.
  unfold deadline. destruct (checked_add INSTANT_MAX now _) as [d|]; cbn [ok_or]; [|done].
  apply spec_bind, spec_take_deferred. set (C1 := match c_deferred C with Some _ => _ | None => _ end).
  assert (workers_ok C1 /\ c_deferred C1 = None) as [Hwk Hd].
  { pose proof (master_workers C Hok). unfold C1. destruct (c_deferred C); split; try done. by apply removed_workers. }
  apply spec_bind, spec_set_stage. apply spec_bind, spec_set_supervisor. apply spec_bind, spec_set_failure.
  apply spec_bind, spec_emit. cbn [for_each all_roles]. apply spec_bind.
  eapply spec_weaken; [apply (spec_shutdown_role d [])|].
  { split_and!; try done; [by exists false|]. intros role w Hr. by apply elem_of_nil in Hr. }
  do 2 (intros [] C2 H2; apply spec_bind; eapply spec_weaken; [by eapply spec_shutdown_role|]; clear C2 H2).
  intros [] C2 H2. apply spec_ret. apply (told_ok d _ _ H2). intros []; repeat constructor.
Qed.

Lemma shutdown_ok C :
  sound C -> Er DeadlineOverflow C -> spec Er (shutdown reserve now) C (fun _ => sound).
Proof.
  intros Hok Hover. apply spec_bind, spec_stage. apply spec_bind. apply (spec_weaken _ _ _ (fun _ => sound)).
  { destruct (c_stage C); try (by apply begin_shutdown_ok); by apply spec_ret. }
  intros [] C' Hok'. apply spec_bind. eapply spec_weaken; [by apply handle_timeout_ok|].
  intros [] C'' Hok''. apply spec_get. by intros m _.
Qed.

(** *** Starting workers *)

Section Start.
Context {Cmd : Type} (factory_spawn : Cmd -> WorkerIdentity -> M K bytes P).

(** A candidate that was spawned is told to adopt the listeners. *)
Lemma spec_handshake n n' a ga da c gc f :
  a <> c ->
  spec Er (let! _ := apply_replacement_event (Ex n) (CandidateSpawned c) in
           apply_replacement_event (Ex (S (S (S n')))) (CandidateHandshakeComplete c))
    (mkCtl (Some (mkSupervisor (mkInstance a ga Active) (Some (mkInstance c gc Spawned)) None))
      (Some (mkCW a ga None da WorkerRunning)) (Some (mkCW c gc None None WorkerRunning)) None None f Operational)
    (fun _ => sound).
Proof.
  intros Hac. apply spec_bind.
  eapply spec_bind, spec_apply; [done|by apply (accept_spawned _ (mkInstance c gc Spawned))|]. apply spec_nil.
  eapply spec_bind, spec_apply; [done|by apply (accept_handshake _ (mkInstance c gc Handshaking))|].
  eapply spec_one; [done|]. eapply spec_bind, spec_ensure_role.
  { apply (role_candidate (mkCW c gc None None WorkerRunning)); [by intros wa [= <-]|done]. }
  cbn beta iota. apply spec_bind. eapply spec_issue_adoption; [reflexivity|]. intros [u|e] C' Hi; cbn in Hi.
  - destruct Hi as (p & Hp & ->). apply spec_ret. by apply ok_operational, op_adopting.
  - destruct Hi as [He ->]. apply spec_bind, spec_record_issue; [done|].
    eapply spec_handle_failure; [done|done|]. cbn -[begin_rollback]. apply begin_rollback_ok; [done|by left].
Qed.

(** Spawning the candidate. *)
Lemma spec_spawn n input id g l C (Q : result unit MasterError -> Ctl -> Prop) :
  Q (Ok tt) (c_set_worker RoleCandidate
    (Some (mkCW id (id_generation (in_identity input)) None None WorkerRunning)) C) ->
  (forall message, Q (Err (MasterSpawn message)) C) ->
  spec Er (attempt (execute_replacement_actions reserve (S n) now
    (Some (spawn_candidate factory_spawn input)) [Spawn (mkInstance id g l)])) C Q.
Proof.
  intros Hok Hfail. apply spec_attempt. intros m k <-. set (spawn := Some _).
  change (execute_replacement_actions reserve (S n) now spawn [Spawn (mkInstance id g l)]) with
    (let! added := then_nothing (execute_spawn spawn (mkInstance id g l)) in
     execute_replacement_actions reserve n now (spent spawn (Spawn (mkInstance id g l))) ([] ++ added)).
  unfold then_nothing, execute_spawn, spawn, spawn_candidate, mbind_se.
  destruct (factory_spawn (in_command input) (in_identity input) k) as [[process|message] k'].
  - cbn. by destruct n.
  - cbn. apply Hfail.
Qed.

(** The errors [replace] returns itself. *)
Definition replace_rejects (e : MasterError) : bool :=
  match e with InvalidState _ | ProtocolVersion _ _ | MasterSpawn _ | MasterReplacement _ => true | _ => false end.

Lemma replace_ok input C :
  sound C -> (forall e C, replace_rejects e = true -> sound C -> Er e C) ->
  spec Er (replace reserve factory_spawn input now) C (fun _ => sound).
Proof.
  intros Hok Hrej. apply spec_bind, spec_state; [done|]. intros st Hst.
  destruct (bool_decide (st <> StateRunning)) eqn:Eb; [by apply spec_fail, Hrej|].
  apply bool_decide_eq_false in Eb. destruct (Hst (dec_stable Eb)) as [Hop Hph]. clear st Hst Eb.
  apply spec_bind, spec_ensure. intros _ _. destruct (validate_identity _) as [[]|e] eqn:Ev.
  2: { apply Hrej; [|done]. unfold validate_identity in Ev. by case_match; simplify_eq. }
  apply spec_bind, spec_get. intros m Hm. 
  destruct Hok as [| |C Ho|C ph Hst'|C d b Hst'|s d f st Hst']; try done; [|congruence..|cbn in Hop; by subst].
  destruct Ho as [a ga da f| | | |a ga la pa da c gc pc dc sc f Hac _ _ [[-> _]|[-> _]]| | |]; try discriminate.
  injection Hm as Hs _ _ _ _ _ _. rewrite Hs. clear m Hs.
  apply spec_bind, spec_ensure. intros _ _.
  set (inst := mkInstance (in_instance_id input) (id_generation (in_identity input)) Spawned).
  set (s := mkSupervisor (mkInstance a ga Active) None None). cbn -[ReplacementSupervisor_apply].
  destruct (ReplacementSupervisor_apply (Begin inst) s) as [[actions|e] s'] eqn:Ea;
    [|apply Hrej; [done|apply ok_operational, op_running]].
  apply apply_accepted in Ea. inversion Ea as [c _ _ _ _ Hne Hg| | | | | | | | | | | | | |]; subst. cbn in Hne, Hg.
  apply spec_bind, spec_set_supervisor. cbn [fst snd]. apply spec_bind, spec_spawn.
  - apply (spec_handshake _ _ a ga da (in_instance_id input) (id_generation (in_identity input)) f). congruence.
  - intros message. apply spec_bind, spec_set_supervisor, spec_fail, Hrej; [done|].
    apply ok_operational, op_running.
Qed.
End Start.

End Execute.
End Control.
