(* ===== verification/MasterFrame.v ===== *)
(** Which worker plays which role: what the master's methods do to the identities
    of the workers in the three roles.  A method keeps the worker of a role or
    takes it away; only an accepted activation makes the candidate the active
    worker, and only [replace] brings in a new one. *)

From stdpp Require Import base countable strings list.
From Stdlib Require Import ZArith Lia.
From S2P Require Import Prelude Bytes Identity Catalog Transport Descriptor Channel ControlProtocol.
From S2P Require Import StatusProtocol SupervisorStatus Clock Listeners Replacement Master.

Open Scope Z_scope.

#[local] Arguments execute_replacement_actions : simpl never.

Section Frame.
Context {E P K Fd : Type} `{!ManagedProcess P K Fd, !ActionExecutor E P K Fd}.
Context (reserve reserve_vec : Z -> bool).
Implicit Types (m : Master E P Fd) (k : K) (role : WorkerRole).
Abbreviation MMs := (MM (E:=E) (P:=P) (K:=K) (Fd:=Fd)).

Definition id_of m role : option InstanceId := w_instance_id <$> worker m role.

(** ** Keeping the workers *)

(** Every role keeps its worker or loses it. *)
Definition frames m m' : Prop := forall role, id_of m' role = id_of m role \/ id_of m' role = None.

#[export] Instance frames_preorder : PreOrder frames.
Proof.
  split; [by intros m role; left|]. intros m1 m2 m3 H H' role.
  destruct (H' role) as [-> | ->]; [|by right]. apply H.
Qed.

Definition kept {A} (c : MMs A) : Prop := forall m k, frames m (c (m, k)).2.1.

Lemma kept_ret {A} (a : A) : kept (mret a).
Proof. by intros m k. Qed.
Lemma kept_fail {A} e : kept (A:=A) (mfail e).
Proof. by intros m k. Qed.
Lemma kept_get {A} (f : Master E P Fd -> A) : kept (get f).
Proof. by intros m k. Qed.
Lemma kept_ensure {A} (f : Master E P Fd -> result A MasterError) : kept (ensure f).
Proof. intros m k. unfold ensure, mtry. by destruct (map_err _ _). Qed.
Lemma kept_bind {A B} (c : MMs A) (f : A -> MMs B) : kept c -> (forall a, kept (f a)) -> kept (mbind_se c f).
Proof.
  intros Hc Hf m k. unfold mbind_se. specialize (Hc m k). destruct (c (m, k)) as [[a|e] [m' k']]; cbn in *; [|done].
  etransitivity; [exact Hc|apply Hf].
Qed.
Lemma kept_put f : (forall m, frames m (f m)) -> kept (put f).
Proof. intros H m k. apply H. Qed.
Lemma kept_attempt {A} (c : MMs A) : kept c -> kept (attempt c).
Proof. intros Hc m k. unfold attempt. specialize (Hc m k). by destruct (c (m, k)) as [[a|[]] [m' k']]. Qed.
Lemma kept_for_each {A} (f : A -> MMs unit) l : (forall x, kept (f x)) -> kept (for_each f l).
Proof. intros H. induction l; cbn; [apply kept_ret|by apply kept_bind]. Qed.
(** Writing another field. *)
Lemma frames_same m m' : (forall role, worker m' role = worker m role) -> frames m m'.
Proof. intros H role. left. unfold id_of. by rewrite H. Qed.
Lemma kept_emit ev : kept (emit ev).
Proof. apply kept_put. intros m. by apply frames_same; intros []. Qed.
Lemma kept_phase : kept replacement_phase.
Proof. intros m k. unfold replacement_phase. cbn. by repeat case_match. Qed.
Lemma kept_apply ev : kept (supervisor_apply ev).
Proof. intros m k. unfold supervisor_apply. case_match; [|done].
  destruct (ReplacementSupervisor_apply _ _). by apply frames_same; intros [].
Qed.

Lemma frames_set role w m :
  (w_instance_id <$> w = id_of m role \/ w = None) -> frames m (set_worker role w m).
Proof. intros H r. destruct H as [H| ->], role, r; cbn; eauto. Qed.

(** A worker is written back with its identity. *)
Lemma kept_update role f : (forall w, w_instance_id (f w) = w_instance_id w) -> kept (update_worker role f).
Proof.
  intros Hf m k. unfold update_worker, require_worker, ensure, mtry, mbind_se, put, mwrite. cbn.
  destruct (worker m role) as [w|] eqn:Hw; [|done]. apply frames_set. left. unfold id_of. rewrite Hw. cbn. by rewrite Hf.
Qed.
Lemma frames_on_process {X A B} role w (c : M (P * K) X A) (rest : result A X -> MMs B) m k :
  worker m role = Some w -> (forall r, kept (rest r)) ->
  frames m ((let! r := on_process role w c in rest r) (m, k)).2.1.
Proof.
  intros Hw Hr. unfold mbind_se, on_process. destruct (c (w_process w, k)) as [r [p' k']].
  etransitivity; [|apply Hr]. apply frames_set. left. unfold id_of. by rewrite Hw.
Qed.
Lemma kept_with_worker {B} role (body : ManagedWorker P -> MMs B) :
  (forall m k w, worker m role = Some w -> frames m (body w (m, k)).2.1) ->
  kept (let! w := require_worker role in body w).
Proof.
  intros Hb m k. unfold require_worker, ensure, mtry, mbind_se. cbn.
  destruct (worker m role) as [w|] eqn:Hw; [by apply Hb|done].
Qed.
Lemma kept_if_worker {B} role (body : ManagedWorker P -> MMs B) (none : MMs B) :
  (forall m k w, worker m role = Some w -> frames m (body w (m, k)).2.1) -> kept none ->
  kept (let! w := get (fun m => worker m role) in match w with None => none | Some w => body w end).
Proof.
  intros Hb Hn m k. unfold get, mread, mbind_se. cbn.
  destruct (worker m role) as [w|] eqn:Hw; [by apply Hb|apply Hn].
Qed.

Lemma kept_set_stage st : kept (put (set_stage st)).
Proof. apply kept_put. intros m. by apply frames_same; intros []. Qed.
Lemma kept_set_failure f : kept (put (set_failure f)).
Proof. apply kept_put. intros m. by apply frames_same; intros []. Qed.
Lemma kept_set_deferred d : kept (put (set_deferred d)).
Proof. apply kept_put. intros m. by apply frames_same; intros []. Qed.
Lemma kept_set_supervisor s : kept (put (set_supervisor s)).
Proof. apply kept_put. intros m. by apply frames_same; intros []. Qed.
Lemma kept_set_history f : kept (put (fun m => set_history (f m) m)).
Proof. apply kept_put. intros m. by apply frames_same; intros []. Qed.
Lemma kept_set_events l : kept (put (set_events l)).
Proof. apply kept_put. intros m. by apply frames_same; intros []. Qed.
Lemma kept_set_request_id n : kept (put (set_next_request_id n)).
Proof. apply kept_put. intros m. by apply frames_same; intros []. Qed.
Lemma kept_remove role : kept (put (set_worker role None)).
Proof. apply kept_put. intros m. apply frames_set. by right. Qed.
Lemma kept_prepare_step role phase step : kept (prepare_step role phase step).
Proof.
  intros m k. unfold prepare_step. destruct (prepare role phase step (ms_executor m)).
  by apply frames_same; intros [].
Qed.
Lemma kept_duplicate role : kept (executor_duplicate role).
Proof.
  intros m k. unfold executor_duplicate.
  destruct (duplicate_listeners role (ms_listeners m) (ms_executor m, k)) as [r [e' k']].
  by apply frames_same; intros [].
Qed.
Lemma kept_dispatch role request fds : kept (dispatch role request fds).
Proof.
  intros m k. unfold dispatch. destruct (worker m role) as [w|] eqn:Hw; [|done].
  destruct (send_request _ _ _ _ _) as [[u|e] [[e' p'] k']]; cbn.
  all: transitivity (set_worker role (Some (with_process p' w)) m);
    [apply frames_set; left; unfold id_of; by rewrite Hw|].
  all: intros r; left; by destruct role, r.
Qed.
End Frame.

Create HintDb kept discriminated.
#[export] Hint Resolve kept_ret kept_fail kept_get kept_ensure kept_emit kept_phase kept_apply kept_set_stage
  kept_set_failure kept_set_deferred kept_set_supervisor kept_set_history kept_set_events kept_set_request_id
  kept_remove kept_prepare_step kept_duplicate kept_dispatch : kept.

(** Goes through a method statement by statement. *)
Ltac keep :=
  repeat match goal with
  | |- kept (mbind_se _ _) => apply kept_bind; [|intros ?]
  | |- kept (match ?x with _ => _ end) => destruct x
  | |- kept (attempt _) => apply kept_attempt
  | |- kept (for_each _ _) => apply kept_for_each; intros ?
  | |- kept (update_worker _ _) => apply kept_update; by intros []
  | |- kept _ => solve [eauto 1 with kept nocore]
  end.

Section Methods.
Context {E P K Fd : Type} `{!ManagedProcess P K Fd, !ActionExecutor E P K Fd}.
Context (reserve reserve_vec : Z -> bool).
Implicit Types (m : Master E P Fd) (k : K) (role : WorkerRole).
Abbreviation MMs := (MM (E:=E) (P:=P) (K:=K) (Fd:=Fd)).

Abbreviation keptM := (kept (E:=E) (P:=P) (K:=K) (Fd:=Fd)).

Lemma kept_prepare_at role phase d adoption : keptM (prepare_request_at_deadline reserve role phase d adoption).
Proof. unfold prepare_request_at_deadline, take_request_id. keep. Qed.
#[local] Hint Resolve kept_prepare_at : kept.
Lemma kept_issue_adoption role now : keptM (issue_adoption reserve role now).
Proof. unfold issue_adoption, prepare_request. keep. Qed.
Lemma kept_issue role phase now timeout : keptM (issue reserve role phase now timeout).
Proof. unfold issue, prepare_request. keep. Qed.
Lemma kept_issue_at role phase d : keptM (issue_at_deadline reserve role phase d).
Proof. unfold issue_at_deadline. keep. Qed.
Lemma kept_worker_id role : keptM (worker_id role).
Proof. apply kept_ensure. Qed.
Lemma kept_require role : keptM (require_worker role).
Proof. apply kept_ensure. Qed.
#[local] Hint Resolve kept_issue_adoption kept_issue kept_issue_at kept_worker_id kept_require : kept.

(** *** Ending workers *)

Lemma kept_mark role forced : keptM (mark_terminating role forced).
Proof. unfold mark_terminating. keep. Qed.
Lemma kept_force role : keptM (force_role role).
Proof.
  unfold force_role. apply kept_bind; [keep|]. intros st.
  destruct st as [[|[]]|]; [|keep|..];
    apply kept_with_worker; intros m k w Hw; (apply frames_on_process; [done|]); intros r; keep.
Qed.
Lemma kept_take role : keptM (take_worker role).
Proof. unfold take_worker. keep. Qed.
#[local] Hint Resolve kept_mark kept_force kept_take : kept.
Lemma kept_fail_master phase : keptM (fail_master phase).
Proof. unfold fail_master, take_deferred_active, force_if_present. keep. Qed.
Lemma kept_record role phase e : keptM (record_issue_failure role phase e).
Proof. unfold record_issue_failure. keep. Qed.
Lemma kept_finish_rollback : keptM maybe_finish_rollback.
Proof. unfold maybe_finish_rollback. keep. Qed.
Lemma kept_complete : keptM complete_replacement.
Proof. unfold complete_replacement. keep. Qed.
#[local] Hint Resolve kept_fail_master kept_record kept_finish_rollback kept_complete : kept.
Lemma kept_complete_failed : keptM complete_failed_retired.
Proof. unfold complete_failed_retired. keep. Qed.
#[local] Hint Resolve kept_complete_failed : kept.

(** *** Executing actions

    Only [Drain] changes which worker is active, and only an activation of the
    candidate asks for it. *)
Definition no_drain (actions : list ReplacementAction) : Prop :=
  Forall (fun a => match a with Drain _ => False | _ => True end) actions.
Definition activates (e : ReplacementEvent) : Prop :=
  match e with CandidateActivated _ => True | _ => False end.

Lemma accepted_no_drain s e actions s' : accepted s e actions s' -> ~ activates e -> no_drain actions.
Proof. destruct 1; cbn; intros He; try (by destruct He); repeat constructor. Qed.

Section Cycle.
Context (execute : list ReplacementAction -> MM (E:=E) (P:=P) (K:=K) (Fd:=Fd) unit).
Context (Hex : forall actions, no_drain actions -> keptM (execute actions)).

Lemma kept_apply_event e : ~ activates e -> keptM (apply_replacement_event execute e).
Proof.
  intros He m k. unfold apply_replacement_event, mbind_se, supervisor_apply.
  destruct (ms_supervisor m) as [s|]; [|done].
  destruct (ReplacementSupervisor_apply e s) as [[actions|err] s'] eqn:Ea; cbn.
  - transitivity (set_supervisor (Some s') m); [by apply frames_same; intros []|].
    apply Hex. apply apply_accepted in Ea. by eapply accepted_no_drain.
  - by apply frames_same; intros [].
Qed.

Lemma kept_rollback phase : keptM (begin_rollback execute phase).
Proof.
  pose proof (fun id => kept_apply_event (CandidateFailed id) (fun H => H)). unfold begin_rollback. keep.
Qed.
Lemma kept_fail_retired phase : keptM (fail_retired execute phase).
Proof.
  pose proof (fun id => kept_apply_event (RetiredFailed id) (fun H => H)). unfold fail_retired. keep.
Qed.
Lemma kept_phase_failure role phase : keptM (handle_phase_failure execute role phase).
Proof.
  pose proof kept_rollback. pose proof kept_fail_retired. unfold handle_phase_failure. keep.
Qed.
Lemma kept_compensate role phase failure e : keptM (compensate_issue_error execute role phase failure e).
Proof. pose proof kept_phase_failure. unfold compensate_issue_error. keep. Qed.
Lemma kept_issue_or role phase now timeout failure :
  keptM (issue_or_compensate reserve execute now role phase timeout failure).
Proof. pose proof kept_compensate. unfold issue_or_compensate. keep. Qed.

Lemma kept_action now action :
  match action with Drain _ => False | _ => True end ->
  keptM (execute_action reserve execute now None action).
Proof.
  pose proof kept_compensate. pose proof kept_issue_or. pose proof kept_fail_retired.
  destruct action; intros []; unfold execute_action, then_nothing.
  - keep.
  - unfold execute_prepare. keep.
  - unfold execute_activate. keep.
  - unfold execute_quiesce. keep.
  - keep.
  - unfold execute_terminate. keep.
  - unfold execute_kill. keep.
Qed.
End Cycle.

(** What an action adds to the queue is no drain either. *)
Lemma added_no_drain execute now action m k added s' :
  execute_action (E:=E) (P:=P) (K:=K) (Fd:=Fd) reserve execute now None action (m, k) = (Ok added, s') ->
  no_drain added.
Proof.
  assert (forall c, then_nothing c (m, k) = (Ok added, s') -> no_drain added) as Hn.
  { intros c. unfold then_nothing, mbind_se. destruct (c (m, k)) as [[|] ?]; [|done].
    intros [= <- _]. constructor. }
  destruct action; try apply Hn. cbn [execute_action]. unfold supervisor_apply.
  destruct (ms_supervisor m) as [s|]; [|done].
  destruct (ReplacementSupervisor_apply _ s) as [[actions|err] s''] eqn:Ea; [|done].
  intros [= <- _]. apply apply_accepted in Ea. eapply accepted_no_drain; [exact Ea|]. by intros [].
Qed.

Lemma kept_execute n now actions :
  no_drain actions -> keptM (execute_replacement_actions reserve n now None actions).
Proof.
  revert actions. induction n as [|n IH]; intros actions Hd.
  { destruct actions; [apply kept_ret|apply kept_fail]. }
  destruct actions as [|action actions]; [apply kept_ret|]. inversion Hd as [|? ? Ha Hd']; subst.
  intros m k. change (execute_replacement_actions reserve (S n) now None (action :: actions)) with
    (let! added := execute_action reserve (execute_replacement_actions (E:=E) (P:=P) (K:=K) (Fd:=Fd) reserve n now None)
       now None action in
     execute_replacement_actions reserve n now (spent None action) (actions ++ added)).
  unfold mbind_se. pose proof (kept_action _ IH now action Ha m k) as H.
  destruct (execute_action _ _ _ _ _ (m, k)) as [[added|e] [m' k']] eqn:Ee; [|done].
  apply added_no_drain in Ee. etransitivity; [exact H|].
  assert (spent (K:=K) (P:=P) None action = None) as -> by (by destruct action).
  apply IH. by apply Forall_app.
Qed.

Lemma kept_run now actions : no_drain actions -> keptM (run_actions reserve now actions).
Proof. apply kept_execute. Qed.
#[local] Hint Resolve kept_run : kept.

Lemma kept_apply_run now e : ~ activates e -> keptM (apply_replacement_event (run_actions reserve now) e).
Proof. apply kept_apply_event. intros actions. apply kept_run. Qed.
Lemma kept_rollback_run now phase : keptM (begin_rollback (run_actions reserve now) phase).
Proof. apply kept_rollback. intros actions. apply kept_run. Qed.
Lemma kept_fail_retired_run now phase : keptM (fail_retired (run_actions reserve now) phase).
Proof. apply kept_fail_retired. intros actions. apply kept_run. Qed.
Lemma kept_phase_failure_run now role phase : keptM (handle_phase_failure (run_actions reserve now) role phase).
Proof. apply kept_phase_failure. intros actions. apply kept_run. Qed.
Lemma kept_issue_or_run now role phase timeout failure :
  keptM (issue_or_compensate reserve (run_actions reserve now) now role phase timeout failure).
Proof. apply kept_issue_or. intros actions. apply kept_run. Qed.
#[local] Hint Resolve kept_rollback_run kept_fail_retired_run kept_phase_failure_run kept_issue_or_run : kept.
#[local] Hint Extern 1 (kept (apply_replacement_event _ _)) => apply kept_apply_run; by intros [] : kept.

(** *** Observations and deadlines *)

Lemma kept_status role status : keptM (handle_status role status).
Proof.
  unfold handle_status. apply kept_bind; [keep|]. intros w. apply kept_bind; [keep|]. intros h.
  destruct (observe_status _ _ _) as [[view h']|]; [|keep]. apply kept_bind; [apply kept_put|intros _; keep].
  intros m. by apply frames_same; intros [].
Qed.
Lemma kept_disconnect role now : keptM (handle_disconnect reserve role now).
Proof. unfold handle_disconnect. keep. Qed.
Lemma kept_exit role status now : keptM (handle_exit reserve role status now).
Proof. unfold handle_exit. keep. Qed.
Lemma kept_receive role inputs : keptM (receive_observation reserve_vec role inputs).
Proof.
  unfold receive_observation. apply kept_with_worker. intros m k w Hw. destruct (w_channel_open w); cbn [negb]; [|done].
  apply frames_on_process; [done|]. intros r. keep.
Qed.
#[local] Hint Resolve kept_receive : kept.
Lemma kept_observe role inputs : keptM (observe_worker reserve_vec role inputs).
Proof.
  unfold observe_worker. apply kept_bind; [keep|]. intros d. apply kept_bind; [keep|]. intros []; [keep|].
  apply kept_if_worker; [|keep]. intros m k w Hw. apply frames_on_process; [done|]. intros r. keep.
Qed.
Lemma kept_timeout now : keptM (handle_timeout reserve now).
Proof. unfold handle_timeout, force_if_present, retired_expired. keep. Qed.
Lemma kept_finish : keptM finish_terminal_states.
Proof. unfold finish_terminal_states. keep. Qed.
Lemma kept_shutdown_role d role : keptM (shutdown_role reserve d role).
Proof.
  unfold shutdown_role. keep. apply kept_put. intros m'. by destruct (ms_stage m'); apply frames_same; intros [].
Qed.
#[local] Hint Resolve kept_shutdown_role kept_timeout : kept.
Lemma kept_shutdown now : keptM (shutdown reserve now).
Proof. unfold shutdown, begin_shutdown, take_deferred_active. keep. Qed.

(** ** Switching the active worker *)

(** The candidate becomes active and the active worker retires. *)
Definition committed m m' : Prop :=
  id_of m RoleCandidate <> None /\
  (id_of m' RoleActive = id_of m RoleCandidate \/ id_of m' RoleActive = None) /\
  id_of m' RoleCandidate = None /\
  (id_of m' RoleRetired = id_of m RoleActive \/ id_of m' RoleRetired = None).
Definition moves m m' : Prop := frames m m' \/ committed m m'.

#[export] Instance moves_preorder : PreOrder moves.
Proof.
  split; [by left|]. intros m1 m2 m3 [F|(C1 & Ca & Cc & Cr)] [F'|(C1' & Ca' & Cc' & Cr')].
  - left. by etransitivity.
  - right. destruct (F RoleCandidate) as [Hc|Hc]; [|congruence]. destruct (F RoleActive) as [Ha|Ha].
    + unfold committed. by rewrite <- Hc, <- Ha.
    + split_and!; [congruence|by rewrite <- Hc|done|right; destruct Cr'; congruence].
  - right. split_and!; [done|..].
    + destruct (F' RoleActive) as [-> | ->]; [done|by right].
    + by destruct (F' RoleCandidate) as [-> | ->].
    + destruct (F' RoleRetired) as [-> | ->]; [done|by right].
  - congruence.
Qed.

Definition moved {A} (c : MM (E:=E) (P:=P) (K:=K) (Fd:=Fd) A) : Prop := forall m k, moves m (c (m, k)).2.1.

Lemma kept_moved {A} (c : MM (E:=E) (P:=P) (K:=K) (Fd:=Fd) A) : kept c -> moved c.
Proof. intros H m k. left. apply H. Qed.
Lemma moved_bind {A B} (c : MM A) (f : A -> MM B) : moved c -> (forall a, moved (f a)) -> moved (mbind_se c f).
Proof.
  intros Hc Hf m k. unfold mbind_se. specialize (Hc m k). destruct (c (m, k)) as [[a|e] [m' k']]; cbn in *; [|done].
  etransitivity; [exact Hc|apply Hf].
Qed.

Lemma moved_commit retired_id : moved (commit_candidate retired_id).
Proof.
  intros m k. destruct m as [cfg ls ex s a c r de f st rid ev h]. unfold commit_candidate, mbind_se, ensure, mtry. cbn.
  destruct s as [s|]; cbn; [|done]. destruct a as [a|]; cbn; [|done].
  destruct (bool_decide (w_instance_id a <> retired_id)); cbn; [done|].
  destruct c as [c|]; cbn; [|done]. destruct (bool_decide _); cbn; [|done].
  right. split_and!; auto.
Qed.

Lemma moved_drain n now id :
  moved (execute_drain reserve (execute_replacement_actions reserve n now None) now id).
Proof.
  unfold execute_drain. apply moved_bind; [apply moved_commit|]. intros _. apply kept_moved.
  assert (forall actions, no_drain actions -> keptM (execute_replacement_actions reserve n now None actions))
    as Hex by (intros; by apply kept_execute).
  pose proof (kept_fail_retired _ Hex). pose proof (kept_issue_or _ Hex).
  pose proof (fun id => kept_apply_event _ Hex (RetiredStopped id) (fun H => H)). keep.
Qed.

Lemma moved_execute n now actions : moved (execute_replacement_actions reserve n now None actions).
Proof.
  revert actions. induction n as [|n IH]; intros actions.
  { destruct actions; apply kept_moved; [apply kept_ret|apply kept_fail]. }
  destruct actions as [|action actions]; [apply kept_moved, kept_ret|].
  change (execute_replacement_actions reserve (S n) now None (action :: actions)) with
    (let! added := execute_action reserve (execute_replacement_actions (E:=E) (P:=P) (K:=K) (Fd:=Fd) reserve n now None)
       now None action in
     execute_replacement_actions reserve n now (spent None action) (actions ++ added)).
  apply moved_bind.
  - destruct action as [ | | | |id| | | ]; try (apply kept_moved, kept_action; [|done]; intros; by apply kept_execute).
    apply moved_bind; [apply moved_drain|]. intros _. apply kept_moved, kept_ret.
  - intros added. assert (spent (K:=K) (P:=P) None action = None) as -> by (by destruct action). apply IH.
Qed.

(** An acknowledgement that is not an activation of the candidate. *)
Lemma kept_success role phase now :
  role <> RoleCandidate \/ phase <> ControlProtocol.Activate -> keptM (handle_phase_success reserve role phase now).
Proof. intros Hne. unfold handle_phase_success. keep. by destruct Hne as [[]|[]]. Qed.

Lemma moved_success role phase now : moved (handle_phase_success reserve role phase now).
Proof.
  clear reserve_vec.
  destruct (decide (role = RoleCandidate /\ phase = ControlProtocol.Activate)) as [[-> ->]|Hne].
  2: { apply kept_moved, kept_success. destruct (decide (role = RoleCandidate)); [right|by left]. naive_solver. }
  unfold handle_phase_success. apply moved_bind; [apply kept_moved; keep|]. intros stage.
  apply moved_bind; [apply kept_moved; keep|]. intros replacement.
  destruct stage, replacement as [[]|]; try (apply kept_moved; keep; fail).
  apply moved_bind; [apply kept_moved; keep|]. intros id.
  apply moved_bind; [apply kept_moved; keep|]. intros actions. apply moved_execute.
Qed.

(** The candidate acknowledged the activation it was asked for, in its phase. *)
Definition activation_acknowledged m role (o : Observation) : Prop :=
  role = RoleCandidate /\ ms_stage m = Operational /\
  (exists s, ms_supervisor m = Some s /\ ReplacementSupervisor_phase s = Some ActivatingCandidate) /\
  exists ack w p, o = ObservedAck ack /\ outcome ack = Accepted /\ ack_phase ack = ControlProtocol.Activate /\
    ms_candidate m = Some w /\ w_pending w = Some p /\ p_request_id p = ack_request_id ack /\
    p_phase p = ControlProtocol.Activate.

Lemma success_frames phase now m k :
  ~ (phase = ControlProtocol.Activate /\ ms_stage m = Operational /\
     exists s, ms_supervisor m = Some s /\ ReplacementSupervisor_phase s = Some ActivatingCandidate) ->
  frames m (handle_phase_success reserve RoleCandidate phase now (m, k)).2.1.
Proof.
  intros Hne. destruct (decide (phase = ControlProtocol.Activate)) as [->|Hp]; [|by apply kept_success; right].
  unfold handle_phase_success, mbind_se, get, mread, replacement_phase. cbn.
  destruct (ms_stage m) eqn:Hst; try done. cbn. destruct (ms_supervisor m) as [s|] eqn:Hs; [|done].
  destruct (ReplacementSupervisor_phase s) as [[]|] eqn:Hph; try done. destruct Hne. eauto.
Qed.

Lemma ack_frames role ack now m k :
  ~ activation_acknowledged m role (ObservedAck ack) -> frames m (handle_ack reserve role ack now (m, k)).2.1.
Proof.
  intros Hne. unfold handle_ack. unfold mbind_se at 1, get, mread. cbn [fst snd].
  destruct (ack_matches ack (worker m role ≫= w_pending)) eqn:Em; cbn [negb]; [|apply kept_emit].
  unfold ack_matches in Em. destruct (worker m role) as [w|] eqn:Hw; [|done]. cbn in Em.
  destruct (w_pending w) as [p|] eqn:Hp; [|done].
  apply andb_true_iff in Em as [Hid%Z.eqb_eq Hph%bool_decide_eq_true_1].
  pose proof (kept_update role (with_pending None) (fun w => eq_refl) m k) as Hu.
  unfold update_worker, require_worker, ensure, mtry, mbind_se, put, mwrite in Hu |- *. cbn in Hu |- *.
  rewrite Hw in Hu |- *. cbn in Hu |- *. etransitivity; [exact Hu|]. clear Hu.
  destruct (outcome ack) eqn:Ho; [|apply kept_phase_failure_run].
  destruct (decide (role = RoleCandidate)) as [->|Hr]; [|by apply kept_success; left].
  apply success_frames. intros (Hact & Hst & s & Hs & Hsp). apply Hne.
  split_and!; [done|done|by exists s|]. exists ack, w, p. split_and!; try done. congruence.
Qed.

Lemma observation_frames role o now m k :
  ~ activation_acknowledged m role o -> frames m (handle_observation reserve role o now (m, k)).2.1.
Proof.
  intros Hne. destruct o; cbn [handle_observation].
  - by apply ack_frames.
  - apply kept_status.
  - apply kept_exit.
  - apply kept_disconnect.
  - apply kept_phase_failure_run.
Qed.

Lemma moved_observation role o now : moved (handle_observation reserve role o now).
Proof.
  destruct o as [ack|status|status| |]; cbn [handle_observation].
  - unfold handle_ack. apply moved_bind; [apply kept_moved; keep|]. intros pending.
    destruct (negb _); [apply kept_moved; keep|]. apply moved_bind; [apply kept_moved; keep|]. intros _.
    destruct (outcome ack); [apply moved_success|apply kept_moved; keep].
  - apply kept_moved, kept_status.
  - apply kept_moved, kept_exit.
  - apply kept_moved, kept_disconnect.
  - apply kept_moved, kept_phase_failure_run.
Qed.

Lemma moved_for_each {A} (f : A -> MM (E:=E) (P:=P) (K:=K) (Fd:=Fd) unit) l :
  (forall x, moved (f x)) -> moved (for_each f l).
Proof. intros H. induction l; cbn; [apply kept_moved, kept_ret|by apply moved_bind]. Qed.

Lemma moved_poll inputs now : moved (poll reserve reserve_vec inputs now).
Proof.
  unfold poll. apply moved_bind; [apply kept_moved; keep|]. intros _.
  do 3 (apply moved_bind; [apply kept_moved; keep|intros ?]).
  do 4 (apply moved_bind; [apply kept_moved; first [apply kept_observe|keep]|intros ?]).
  apply moved_bind; [|intros _; apply kept_moved; pose proof kept_finish; keep].
  apply moved_for_each. intros o. unfold handle_observed. apply moved_bind; [apply kept_moved; keep|].
  intros [role|]; [apply moved_observation|apply kept_moved; keep].
Qed.

(** ** Bringing in a candidate *)

Definition grows (id : InstanceId) m m' : Prop :=
  forall role, id_of m' role = id_of m role \/ id_of m' role = None \/
    role = RoleCandidate /\ id_of m' role = Some id.

Lemma frames_grow id m m' : frames m m' -> grows id m m'.
Proof. intros H role. destruct (H role); auto. Qed.
#[export] Instance grows_preorder id : PreOrder (grows id).
Proof.
  split; [by intros m role; left|]. intros m1 m2 m3 H H' role.
  destruct (H' role) as [-> |[-> |[-> ->]]]; [apply H|auto|auto].
Qed.

Section Spawning.
Context {Cmd : Type} (factory_spawn : Cmd -> WorkerIdentity -> M K bytes P).

Definition grown {A} id (c : MM (E:=E) (P:=P) (K:=K) (Fd:=Fd) A) : Prop := forall m k, grows id m (c (m, k)).2.1.
Lemma kept_grown {A} id (c : MM A) : kept c -> grown id c.
Proof. intros H m k. apply frames_grow, H. Qed.
Lemma grown_bind {A B} id (c : MM A) (f : A -> MM B) :
  grown id c -> (forall a, grown id (f a)) -> grown id (mbind_se c f).
Proof.
  intros Hc Hf m k. unfold mbind_se. specialize (Hc m k). destruct (c (m, k)) as [[a|e] [m' k']]; cbn in *; [|done].
  etransitivity; [exact Hc|apply Hf].
Qed.
Lemma grown_attempt {A} id (c : MM A) : grown id c -> grown id (attempt c).
Proof. intros Hc m k. unfold attempt. specialize (Hc m k). by destruct (c (m, k)) as [[a|[]] [m' k']]. Qed.

Lemma grown_spawn n input now id g l :
  grown id (execute_replacement_actions reserve (S n) now (Some (spawn_candidate factory_spawn input))
    [Spawn (mkInstance id g l)]).
Proof.
  change (execute_replacement_actions reserve (S n) now (Some (spawn_candidate factory_spawn input))
    [Spawn (mkInstance id g l)]) with
    (let! added := then_nothing (execute_spawn (E:=E) (Fd:=Fd) (Some (spawn_candidate factory_spawn input))
       (mkInstance id g l)) in
     execute_replacement_actions reserve n now
       (spent (Some (spawn_candidate factory_spawn input)) (Spawn (mkInstance id g l))) ([] ++ added)).
  intros m k. unfold then_nothing, execute_spawn, spawn_candidate, mbind_se.
  destruct (factory_spawn (in_command input) (in_identity input) k) as [[process|message] k'].
  - cbn. destruct n; cbn; intros []; auto.
  - cbn. intros []; auto.
Qed.

Lemma state_reads (s : Master E P Fd * K) : (state s).2 = s.
Proof. unfold state, mbind_se, get, mread, replacement_phase, mret. cbn. by repeat case_match; simplify_eq/=. Qed.

Lemma grown_begin input now g l s original :
  grown (in_instance_id input)
    (let! _ := put (set_supervisor s) in
     let! r := attempt (execute_replacement_actions reserve FUEL now (Some (spawn_candidate factory_spawn input))
       [Spawn (mkInstance (in_instance_id input) g l)]) in
     match r with
     | Err error => let! _ := put (set_supervisor original) in fail error
     | Ok _ =>
         let! _ := apply_replacement_event (run_actions reserve now) (CandidateSpawned (in_instance_id input)) in
         apply_replacement_event (run_actions reserve now) (CandidateHandshakeComplete (in_instance_id input))
     end).
Proof.
  apply grown_bind; [apply kept_grown; keep|]. intros _.
  apply grown_bind; [apply grown_attempt, grown_spawn|]. intros r. apply kept_grown. keep.
Qed.

(** What [replace] does to the workers: nothing new, or a candidate whose identity
    the supervisor accepted. *)
Lemma replace_grows input now m k :
  let m' := (replace reserve factory_spawn input now (m, k)).2.1 in
  frames m m' \/
  grows (in_instance_id input) m m' /\ (state (m, k)).1 = Ok StateRunning /\
  exists s, ms_supervisor m = Some s /\ in_instance_id input <> instance_id (active s) /\
    candidate s = None /\ retired s = None.
Proof.
  intros m'. assert (m' = (replace reserve factory_spawn input now (m, k)).2.1) as Hm' by done. clearbody m'.
  unfold replace in Hm'. unfold mbind_se at 1 in Hm'. pose proof (state_reads (m, k)) as Hm.
  destruct (state (m, k)) as [[st|e] [m1 k1]]; cbn [snd] in Hm; injection Hm as -> ->; [|subst; by left].
  destruct (bool_decide (st <> StateRunning)) eqn:Est; [subst; by left|].
  apply bool_decide_eq_false, dec_stable in Est. subst st.
  unfold mbind_se at 1, ensure at 1, mtry at 1 in Hm'.
  destruct (validate_identity (in_identity input)); cbn [map_err] in Hm'; [|subst; by left].
  unfold mbind_se at 1, get at 1, mread at 1 in Hm'. cbn [fst snd] in Hm'.
  unfold mbind_se at 1, ensure at 1, mtry at 1 in Hm'.
  destruct (ms_supervisor m) as [s|] eqn:Hs; [|subst; by left]. cbn [ok_or] in Hm'.
  cbn -[ReplacementSupervisor_apply execute_replacement_actions attempt mbind_se] in Hm'.
  destruct (ReplacementSupervisor_apply _ s) as [[actions|e] s'] eqn:Ea; cbn [map_err] in Hm'; [|subst; by left].
  apply apply_accepted in Ea. inversion Ea as [c Hc Hr _ _ Hne _| | | | | | | | | | | | | |]; subst. cbn in Hne.
  right. split_and!; [|done|by exists s]. exact (grown_begin input now _ _ _ (Some s) m k).
Qed.
End Spawning.
End Methods.
