(* ===== verification/MasterEnd.v ===== *)
(** The end of a master: once it shuts down or fails closed, it has ended as soon as
    its workers have exited and it has been polled. *)

From stdpp Require Import base countable strings list.
From Stdlib Require Import ZArith Lia.
From S2P Require Import Prelude Bytes Identity Catalog Transport Descriptor Channel ControlProtocol.
From S2P Require Import StatusProtocol SupervisorStatus Clock Listeners Replacement Master.
From S2P Require Import MasterFacts.

Open Scope Z_scope.

#[local] Arguments execute_replacement_actions : simpl never.

Definition c_distinct (C : Ctl) : Prop := forall role role' w w',
  c_worker C role = Some w -> c_worker C role' = Some w' -> cw_id w = cw_id w' -> role = role'.

Lemma role_for_distinct C role w :
  c_distinct C -> c_worker C role = Some w -> c_role_for C (cw_id w) = Some role.
Proof.
  intros Hd Hw. destruct (c_role_for C (cw_id w)) as [r|] eqn:Hr.
  - apply role_for_worker in Hr as (w' & Hw' & Hid). f_equal. by apply (Hd r role w' w).
  - apply List.find_none with (x := role) in Hr; [|destruct role; cbn; auto].
    rewrite Hw in Hr. by rewrite bool_decide_eq_true_2 in Hr.
Qed.

Lemma distinct_ids C C' :
  (forall role, cw_id <$> c_worker C' role = cw_id <$> c_worker C role \/ c_worker C' role = None) ->
  c_distinct C -> c_distinct C'.
Proof.
  intros H Hd role role' w w' Hw Hw' Hid.
  assert (forall r v, c_worker C' r = Some v -> exists v0, c_worker C r = Some v0 /\ cw_id v0 = cw_id v) as Hb.
  { intros r v Hv. destruct (H r) as [Hr|Hr]; [|congruence]. rewrite Hv in Hr.
    destruct (c_worker C r) as [v0|]; [|done]. exists v0. by injection Hr as ->. }
  destruct (Hb _ _ Hw) as (v & Hv & Ev), (Hb _ _ Hw') as (v' & Hv' & Ev').
  apply (Hd role role' v v'); [done..|congruence].
Qed.

Lemma distinct_removed C role : c_distinct C -> c_distinct (c_set_worker role None C).
Proof.
  apply distinct_ids. intros r. destruct (c_worker (c_set_worker role None C) r) eqn:Hw; [|by right].
  left. by rewrite (removed_worker _ _ _ _ Hw).
Qed.

Section Ending.
Context {E P K Fd : Type} `{!ManagedProcess P K Fd, !ActionExecutor E P K Fd}.
Context (reserve reserve_vec : Z -> bool).
Context (Hexit : forall s : P * K, exists status, (process_poll_event s).1 = Ok (Some (ProcessGroupExited status))).
Context (Hkill : forall s : P * K, (process_request_kill s).1 = Ok tt).
Implicit Types (m : Master E P Fd) (C : Ctl) (role : WorkerRole).

(** With such processes no call fails. *)
Definition never (e : MasterError) C : Prop := False.
Abbreviation specN := (spec (E:=E) (P:=P) (K:=K) (Fd:=Fd) never).

Lemma no_kill_error C : may_fail (P:=P) (K:=K) never C.
Proof. intros e [s H]. by rewrite Hkill in H. Qed.
Lemma no_lapse e C : kill_error (P:=P) (K:=K) e -> master_ok True C -> never (MasterIo e) C.
Proof. intros He _. exact (no_kill_error C e He). Qed.

(** ** Observing the exits *)

Definition exit_of C role (o : option Observed) : Prop :=
  match c_worker C role with
  | Some w => exists status, o = Some (mkObserved (cw_id w) (ObservedExit status))
  | None => o = None
  end.

Lemma spec_observe_exit role inputs C :
  c_deferred C = None ->
  specN (observe_worker reserve_vec role inputs) C (fun o C' => C' = C /\ exit_of C role o).
Proof.
  intros Hd. apply spec_bind, spec_deferred. rewrite Hd. apply spec_bind.
  apply (spec_weaken _ _ _ (fun b C' => b = false /\ C' = C)); [by destruct role; apply spec_ret|].
  intros b C' [-> ->]. apply spec_bind, spec_get. intros m <-. unfold exit_of. rewrite ctl_worker.
  destruct (worker m role) as [w|] eqn:Hw; [|by apply spec_ret].
  eapply spec_bind, (spec_on_process _ _ (cw_of w)); [by rewrite ctl_worker, Hw|done|]. intros s.
  destruct (Hexit s) as [status ->]. apply spec_bind, spec_ensure. intros _ _. cbn. apply spec_ret. split; [done|].
  by exists status.
Qed.

(** ** Handling them *)

Definition ending C : Prop := match c_stage C with Failing _ | ShuttingDown _ _ => True | _ => False end.
Definition phase_of C : option ReplacementPhase := c_supervisor C ≫= ReplacementSupervisor_phase.

(** The exit of an active worker is put off while its candidate activates. *)
Definition exit_deferred C role : Prop := phase_of C = Some ActivatingCandidate /\ role = RoleActive.

Lemma spec_exit_ending now role w status C (Q : unit -> Ctl -> Prop) :
  ending C -> readable C -> c_distinct C -> c_worker C role = Some w ->
  (exit_deferred C role -> Q tt (c_set_deferred (Some status) C)) ->
  (~ exit_deferred C role -> Q tt (c_set_worker role None C)) ->
  specN (handle_observed reserve now (mkObserved (cw_id w) (ObservedExit status))) C Q.
Proof.
  intros He Hr Hd Hw Hdef Htake. apply spec_bind, spec_role_for. cbn [ob_instance_id].
  rewrite (role_for_distinct C role w Hd Hw). cbn [ob_observation handle_observation].
  eapply (spec_exit _ _ _ _ _ _ (phase_of C)); [done| | |].
  - unfold readable, phase_of in *. destruct (c_supervisor C); [|done]. destruct Hr as (p & Hp & _). by exists p.
  - intros Hp ->. by apply Hdef.
  - intros Hn. unfold ending in He. unfold exit_handled. destruct (c_stage C) eqn:Hst; try done.
    all: apply spec_take, Htake; intros [? ?]; destruct Hn; congruence.
Qed.

Lemma for_each_app {A} (f : A -> MM (E:=E) (P:=P) (K:=K) (Fd:=Fd) unit) l l' s :
  for_each f (l ++ l') s = (let! _ := for_each f l in for_each f l') s.
Proof.
  revert s. induction l as [|x l IH]; intros s; [done|]. cbn. unfold mbind_se in *.
  destruct (f x s) as [[|] s']; [apply IH|done].
Qed.

Lemma spec_for_each_app {A} (f : A -> MM unit) l l' C Q :
  specN (for_each f l) C (fun _ C' => specN (for_each f l') C' Q) -> specN (for_each f (l ++ l')) C Q.
Proof. intros H m k Hm. rewrite for_each_app. by apply (spec_bind _ _ _ _ _ H). Qed.

(** The exit observed of a role, handled. *)
Lemma spec_exit_role now role o C (Q : unit -> Ctl -> Prop) :
  ending C -> readable C -> c_distinct C -> exit_of C role o -> ~ exit_deferred C role ->
  Q tt (c_set_worker role None C) ->
  specN (for_each (handle_observed reserve now) (option_list o)) C Q.
Proof.
  intros He Hr Hd Ho Hn HQ. unfold exit_of in Ho. destruct (c_worker C role) as [w|] eqn:Hw.
  - destruct Ho as [status ->]. cbn. apply spec_bind. eapply spec_exit_ending; [done..|].
    intros _. by apply spec_ret.
  - subst o. cbn. apply spec_ret. by rewrite <- Hw, c_set_same in HQ.
Qed.

Lemma exit_of_other C role role' o : role <> role' -> exit_of (c_set_worker role None C) role' o <-> exit_of C role' o.
Proof. by destruct role, role'. Qed.

(** The control state without workers. *)
Definition c_empty C : Ctl :=
  c_set_worker RoleRetired None (c_set_worker RoleCandidate None (c_set_worker RoleActive None C)).

Lemma spec_exits_taken now a c r C (Q : unit -> Ctl -> Prop) :
  ending C -> readable C -> c_distinct C ->
  exit_of C RoleActive a -> exit_of C RoleCandidate c -> exit_of C RoleRetired r ->
  phase_of C <> Some ActivatingCandidate -> Q tt (c_empty C) ->
  specN (for_each (handle_observed reserve now) (option_list a ++ option_list c ++ option_list r)) C Q.
Proof.
  intros He Hr Hd Ha Hc Hre Hp HQ.
  apply spec_for_each_app. eapply spec_exit_role; [done..| |]; [by intros [? _]|].
  apply spec_for_each_app. apply (spec_exit_role _ RoleCandidate);
    [done|by apply removed_readable|by apply distinct_removed|done|by intros [? _]|].
  apply (spec_exit_role _ RoleRetired);
    [done|by do 2 apply removed_readable|by do 2 apply distinct_removed|done|by intros [? _]|done].
Qed.

Lemma spec_exits_deferred now a c r C (Q : unit -> Ctl -> Prop) :
  ending C -> readable C -> c_distinct C ->
  exit_of C RoleActive a -> exit_of C RoleCandidate c -> exit_of C RoleRetired r ->
  (c_active C = None -> Q tt (c_empty C)) ->
  (forall status, c_active C <> None ->
    Q tt (c_set_worker RoleRetired None (c_set_worker RoleCandidate None (c_set_deferred (Some status) C)))) ->
  phase_of C = Some ActivatingCandidate ->
  specN (for_each (handle_observed reserve now) (option_list a ++ option_list c ++ option_list r)) C Q.
Proof.
  intros He Hr Hd Ha Hc Hre HQ HQd Hp. apply spec_for_each_app.
  assert (forall C1, ending C1 -> readable C1 -> c_distinct C1 -> exit_of C1 RoleCandidate c ->
    exit_of C1 RoleRetired r -> Q tt (c_set_worker RoleRetired None (c_set_worker RoleCandidate None C1)) ->
    specN (for_each (handle_observed reserve now) (option_list c ++ option_list r)) C1 Q) as Hrest.
  { intros C1 He1 Hr1 Hd1 Hc1 Hre1 HQ1. apply spec_for_each_app.
    apply (spec_exit_role _ RoleCandidate); [done..|by intros [_ ?]|].
    apply (spec_exit_role _ RoleRetired);
      [done|by apply removed_readable|by apply distinct_removed|done|by intros [_ ?]|done]. }
  unfold exit_of in Ha. cbn in Ha. destruct (c_active C) as [w|] eqn:Hw.
  - destruct Ha as [status ->]. cbn. apply spec_bind. eapply (spec_exit_ending _ RoleActive); [done..| |].
    + intros _. apply spec_ret. apply Hrest; try done. by apply HQd.
    + intros Hn. by destruct Hn.
  - subst a. cbn. apply spec_ret. apply Hrest; try done. specialize (HQ eq_refl). unfold c_empty in HQ.
    by replace (c_set_worker RoleActive None C) with C in HQ by (rewrite <- Hw; by destruct C).
Qed.

(** ** Polling *)

Lemma prioritize_exits candidate_id (C : Ctl) a c r :
  exit_of C RoleActive a -> exit_of C RoleCandidate c -> exit_of C RoleRetired r ->
  prioritize candidate_id (option_list a ++ option_list c ++ option_list r) =
  option_list a ++ option_list c ++ option_list r.
Proof.
  assert (forall l, Forall (fun o => is_candidate_activation candidate_id o = false) l -> prioritize candidate_id l = l) as Hp.
  { intros l Hl. unfold prioritize.
    assert (filter (fun o => is_candidate_activation candidate_id o = true) l = []) as ->.
    { induction Hl as [|o l Ho Hl IH]; [done|]. by rewrite filter_cons_False by congruence. }
    induction Hl as [|o l Ho Hl IH]; [done|]. rewrite filter_cons_True by done. cbn in *. by rewrite IH. }
  intros Ha Hc Hr. apply Hp.
  assert (forall role o, exit_of C role o -> Forall (fun o => is_candidate_activation candidate_id o = false) (option_list o)) as Hf.
  { intros role o. unfold exit_of. destruct (c_worker C role); [intros [status ->]|intros ->]; cbn; repeat constructor.
    unfold is_candidate_activation. cbn. apply andb_false_r. }
  apply Forall_app. split; [by eapply Hf|]. apply Forall_app. split; by eapply Hf.
Qed.

Definition shutting C : Prop :=
  (exists d b, c_stage C = ShuttingDown d b) /\ c_supervisor C = None /\ c_deferred C = None /\ workers_ok C /\
  c_distinct C.

Lemma timeout_shutting now C : shutting C -> specN (handle_timeout reserve now) C (fun _ => shutting).
Proof.
  intros Hs. apply spec_bind, spec_get. intros m _. destruct (next_deadline m) as [next|]; [|by apply spec_ret].
  destruct (now <? next); [by apply spec_ret|]. apply spec_bind, spec_stage.
  destruct Hs as ((d & b & Hst) & Hs & Hd & Hw & Hdi). rewrite Hst.
  apply spec_shutdown_forced; [intros C' _; apply no_kill_error|done|]. unfold c_shutdown_forced.
  destruct (c_force_all_fields (c_set_stage (ShuttingDown d true) C)) as (Es & Ed & _ & Et & Ew).
  split_and!; [by exists d, true|by rewrite Es|by rewrite Ed| |].
  - intros role w Hw' _. by apply force_all_workers in Hw' as [-> _].
  - eapply distinct_ids, Hdi. intros role. left. rewrite Ew.
    change (c_worker (c_set_stage (ShuttingDown d true) C) role) with (c_worker C role) at 1.
    by destruct role; cbn; [destruct (c_active C)|destruct (c_candidate C)|destruct (c_retired C)].
Qed.

Lemma empty_workers C : no_workers (c_empty C).
Proof. by intros []. Qed.

(** The rest of a poll, once the deadlines are handled. *)
Definition poll_rest inputs now : MM (list MasterEvent) :=
  let! phase := replacement_phase in
  let! candidate_id := get (fun m => w_instance_id <$> ms_candidate m) in
  let! a := observe_worker reserve_vec RoleActive inputs in
  let! c := observe_worker reserve_vec RoleCandidate inputs in
  let! r := observe_worker reserve_vec RoleRetired inputs in
  let observed := option_list a ++ option_list c ++ option_list r in
  let observed := match phase with
                  | Some ActivatingCandidate => prioritize candidate_id observed
                  | _ => observed
                  end in
  let! _ := for_each (handle_observed reserve now) observed in
  let! _ := finish_terminal_states in
  let! events := get ms_events in
  let! _ := put (set_events []) in
  mret events.

Lemma spec_poll_rest inputs now C (Q : list MasterEvent -> Ctl -> Prop) :
  ending C -> readable C -> c_distinct C -> c_deferred C = None ->
  (forall events, phase_of C <> Some ActivatingCandidate \/ c_active C = None -> Q events (c_ended (c_empty C))) ->
  (forall events status, phase_of C = Some ActivatingCandidate -> c_active C <> None -> Q events
    (c_set_worker RoleRetired None (c_set_worker RoleCandidate None (c_set_deferred (Some status) C)))) ->
  specN (poll_rest inputs now) C Q.
Proof.
  intros He Hr Hd Hdef HQ HQd. apply spec_bind, spec_readable_phase; [done|]. intros p Hp.
  apply spec_bind, spec_get. intros m _.
  apply spec_bind. eapply spec_weaken; [by apply spec_observe_exit|]. intros a C' [-> Ha].
  apply spec_bind. eapply spec_weaken; [by apply spec_observe_exit|]. intros c C' [-> Hc].
  apply spec_bind. eapply spec_weaken; [by apply spec_observe_exit|]. intros r C' [-> Hre].
  assert (forall C', (forall events, Q events (c_ended C')) -> no_workers C' ->
    specN (let! _ := finish_terminal_states in
           let! events := get ms_events in let! _ := put (set_events []) in mret events) C' Q) as Hfin.
  { intros C' HC' Hn. apply spec_bind, spec_finish; [|done]. intros _. by apply spec_drain_events. }
  cbv zeta. rewrite (prioritize_exits (w_instance_id <$> ms_candidate m) C a c r) by done.
  replace (match p with Some ActivatingCandidate => option_list a ++ option_list c ++ option_list r | _ => option_list a ++ option_list c ++ option_list r end)
    with (option_list a ++ option_list c ++ option_list r) by (by destruct p as [[]|]).
  assert (phase_of C = Some ActivatingCandidate \/ phase_of C <> Some ActivatingCandidate) as Hact
    by (destruct (phase_of C) as [[]|]; auto).
  apply spec_bind. destruct Hact as [Hact|Hact].
  - eapply spec_exits_deferred; [done..| | |done].
    + intros Hn. apply Hfin; [intros events; apply HQ; by right|apply empty_workers].
    + intros status Hw. apply spec_bind, spec_finish; [|intros _; apply spec_drain_events; intros events; by apply HQd].
      intros Hn. specialize (Hn RoleActive). cbn in Hn. congruence.
  - eapply spec_exits_taken; [done..|]. apply Hfin; [intros events; apply HQ; by left|apply empty_workers].
Qed.

Lemma poll_shutting inputs now C :
  shutting C -> specN (poll reserve reserve_vec inputs now) C
    (fun _ C' => exists b, c_stage C' = StageStopped b /\ no_workers C').
Proof.
  intros Hs. apply spec_bind. eapply spec_weaken; [by apply timeout_shutting|]. clear C Hs. intros [] C Hs.
  pose proof Hs as ((d & b & Hst) & Hsup & Hdef & Hw & Hd).
  apply spec_bind, spec_stage. rewrite Hst. apply spec_bind, spec_ret.
  apply spec_poll_rest; [by unfold ending; rewrite Hst|by unfold readable; rewrite Hsup|done|done| |].
  - intros events _. exists b. unfold c_ended. cbn. rewrite Hst. split; [done|by intros []].
  - intros events status Hp. unfold phase_of in Hp. by rewrite Hsup in Hp.
Qed.

Definition failing C : Prop :=
  (exists phase, c_stage C = Failing phase) /\ workers_ok C /\ readable C /\ c_distinct C.

Lemma failing_ok C : failing C -> master_ok True C.
Proof. intros ((phase & Hst) & Hw & Hr & _). by eapply lapsed_failing. Qed.

(** Workers are only lost, and an active one whose exit was put off stays so or is
    taken away. *)
Definition lessens C C' : Prop :=
  (forall role, cw_id <$> c_worker C' role = cw_id <$> c_worker C role \/ c_worker C' role = None) /\
  (c_deferred C <> None -> c_deferred C' <> None \/ c_active C' = None).

Lemma lessens_refl C : lessens C C.
Proof. split; auto. Qed.
Lemma lessens_trans C1 C2 C3 : lessens C1 C2 -> lessens C2 C3 -> lessens C1 C3.
Proof.
  intros [W1 D1] [W2 D2]. assert (forall role, c_worker C2 role = None -> c_worker C3 role = None) as Hn.
  { intros role Hr. destruct (W2 role) as [Hi|Hi]; [|done]. rewrite Hr in Hi. by destruct (c_worker C3 role). }
  split.
  - intros role. destruct (W2 role) as [->|]; [|by right]. destruct (W1 role) as [|Hr]; [by left|]. right. by apply Hn.
  - intros Hd. destruct (D1 Hd) as [Hd'|Ha]; [by apply D2|right; by apply (Hn RoleActive)].
Qed.

(** The control state a failing master polls its workers in. *)
Lemma failed_failing phase C :
  failing C ->
  failing (c_failed phase C) /\ c_deferred (c_failed phase C) = None /\ lessens C (c_failed phase C).
Proof.
  intros ((ph & Hst) & Hw & Hr & Hd). unfold c_failed.
  destruct (c_closing_fields phase C) as (_ & D1 & [ph1 T1] & Cc & Cr).
  destruct (c_force_all_fields (c_closing phase C)) as (_ & D2 & _ & T2 & W2).
  assert (forall role, cw_id <$> c_worker (c_force_all (c_closing phase C)) role = cw_id <$> c_worker (c_closing phase C) role) as Hids.
  { intros role. rewrite W2. by destruct (c_worker (c_closing phase C) role). }
  assert (lessens C (c_force_all (c_closing phase C))) as Hl.
  { split.
    - intros role. destruct (c_worker (c_force_all _) role) as [w|] eqn:Hwr; [|by right].
      left. rewrite <- Hwr, Hids. rewrite W2 in Hwr. unfold c_closing in *. rewrite Hst in *.
      destruct role, (c_deferred C); cbn in *; try done.
    - intros Hn. right. specialize (W2 RoleActive). cbn in W2. rewrite W2. unfold c_closing. rewrite Hst.
      by destruct (c_deferred C). }
  unfold failing. split_and!; [exists ph1; congruence| | | |congruence|done].
  - intros role w Hwr _. by apply force_all_workers in Hwr as [-> _].
  - apply (master_readable True), (failed_ok True phase), Hr.
  - eapply distinct_ids, Hd. apply Hl.
Qed.

Lemma same_failing C C' : failing C -> master_ok True C' -> same_workers C C' -> failing C' /\ lessens C C'.
Proof.
  intros ((phase & Hst) & _ & _ & Hd) Hok (Hs & Hdf & Hids). rewrite Hst in Hs. split; [split_and!|split].
  - by exists phase.
  - by eapply master_workers.
  - by eapply master_readable.
  - eapply distinct_ids, Hd. intros role. by left.
  - intros role. by left.
  - rewrite Hdf. by left.
Qed.

Lemma fail_again phase C : failing C -> specN (fail_master phase) C (fun _ C' => failing C' /\ lessens C C').
Proof.
  intros Hf. destruct (failed_failing phase C Hf) as (Hf' & _ & Hl).
  destruct Hf as ((ph & Hst) & Hw & _). apply spec_fail_master; [intros C' _; apply no_kill_error|done|congruence|done].
Qed.

(** A worker of a failing master that does not answer. *)
Lemma clear_failing role w C :
  failing C -> c_worker C role = Some w ->
  let C' := c_set_worker role (Some (cw_with_pending None w)) C in failing C' /\ lessens C C'.
Proof.
  intros Hf Hw C'. apply same_failing; [done|by apply clear_pending_ok; [apply failing_ok|]|].
  split_and!; [by destruct role..|]. intros r. destruct (decide (r = role)) as [->|Hne].
  - unfold C'. rewrite c_set_worker_same, Hw. done.
  - unfold C'. by destruct r, role.
Qed.

Lemma expire_failing now C :
  failing C ->
  specN (let! timed_out := get (fun m => List.find (pending_expired now m) all_roles) in
    match timed_out with
    | None => mret tt
    | Some role =>
        let! phase := get (fun m =>
          match worker m role ≫= w_pending with
          | Some p => phase_failure (p_phase p) | None => FailProtocol end) in
        let! _ := update_worker role (with_pending None) in
        handle_phase_failure (run_actions reserve now) role phase
    end) C (fun _ C' => failing C' /\ lessens C C').
Proof.
  intros Hf. apply spec_bind, spec_get. intros m <-.
  destruct (List.find (pending_expired now m) all_roles) as [role|] eqn:Hfi;
    [|by apply spec_ret; split; [|apply lessens_refl]].
  apply List.find_some in Hfi as [_ Hfi]. unfold pending_expired in Hfi.
  destruct (worker m role) as [w|] eqn:Hw; [|done].
  assert (c_worker (ctl m) role = Some (cw_of w)) as Hcw by (by rewrite ctl_worker, Hw).
  apply spec_bind, spec_get. intros m' _. eapply spec_bind, spec_clear_pending; [done|].
  destruct (clear_failing role (cw_of w) (ctl m) Hf Hcw) as [Hf1 Hl1]. cbv zeta in Hf1, Hl1.
  set (C1 := c_set_worker role _ _) in *. pose proof Hf1 as ((ph & Hst) & _ & Hr1 & _).
  apply spec_bind, spec_stage. apply spec_bind, spec_readable_phase; [done|]. intros p _. rewrite Hst.
  assert (forall phase, specN (fail_master phase) C1 (fun _ C' => failing C' /\ lessens (ctl m) C')) as Hfin.
  { intros phase. eapply spec_weaken; [by apply fail_again|]. intros [] C' [Hf' Hl'].
    split; [done|by eapply lessens_trans]. }
  destruct p as [[]|], role; apply Hfin.
Qed.

Lemma timeout_failing now C :
  failing C -> specN (handle_timeout reserve now) C (fun _ C' => failing C' /\ lessens C C').
Proof.
  intros Hf. assert (specN (mret tt) C (fun _ C' => failing C' /\ lessens C C')) as Hnone
    by (by apply spec_ret; split; [|apply lessens_refl]).
  apply spec_bind, spec_get. intros m0 _. destruct (next_deadline m0) as [next|]; [|done].
  destruct (now <? next); [done|]. apply spec_bind, spec_stage.
  pose proof Hf as ((phase & Hst) & Hi & Hr & Hd). rewrite Hst.
  apply spec_bind, spec_bind, spec_readable_phase; [done|]. intros p Hp.
  pose proof (expire_failing now C Hf) as He.
  destruct p as [[]|]; try (apply spec_ret; exact He). apply spec_get. intros m <-.
  destruct (ms_retired m ≫= w_termination_deadline) as [d|] eqn:Hdl; [|exact He].
  destruct (d <=? now); [|exact He].
  eapply spec_weaken; [apply (termination_ok reserve True); [apply no_lapse|by apply failing_ok|done|cbn; by destruct (ms_retired m)]|].
  intros [] C' [Hok Hsame]. by apply same_failing.
Qed.

(** A failing master that waits for no worker but an active one whose exit it knows. *)
Definition almost_failed C : Prop :=
  failing C /\ c_deferred C <> None /\ c_candidate C = None /\ c_retired C = None.

Lemma ended_failed C phase : c_stage C = Failing phase -> c_stage (c_ended (c_empty C)) = StageFailed.
Proof. intros H. unfold c_ended. cbn. by rewrite H. Qed.

Lemma spec_poll_failing inputs now C (Q : list MasterEvent -> Ctl -> Prop) :
  failing C ->
  (forall C1 phase, failing C1 -> lessens C C1 -> c_stage C1 = Failing phase ->
    specN (poll_rest inputs now) (c_failed phase C1) Q) ->
  specN (poll reserve reserve_vec inputs now) C Q.
Proof.
  intros Hf HQ. apply spec_bind. eapply spec_weaken; [by apply timeout_failing|]. intros [] C1 [Hf1 Hs1].
  pose proof Hf1 as ((phase & Hst) & Hi & Hr & _).
  apply spec_bind, spec_stage. rewrite Hst. apply spec_bind, spec_fail_master;
    [intros C' _; apply no_kill_error|done|congruence|]. by apply (HQ C1 phase).
Qed.

Lemma poll_failing inputs now C :
  failing C ->
  specN (poll reserve reserve_vec inputs now) C (fun _ C' => c_stage C' = StageFailed \/ almost_failed C').
Proof.
  intros Hf. apply spec_poll_failing; [done|]. intros C1 phase Hf1 _ Hst.
  destruct (failed_failing phase C1 Hf1) as (Hf2 & Hd2 & _). pose proof Hf2 as ((ph & Hst2) & Hi & Hr & Hdi).
  apply spec_poll_rest; [by unfold ending; rewrite Hst2|done|done|done| |].
  - intros events _. left. by eapply ended_failed.
  - intros events status _ Hact. right. split_and!; try done.
    unfold failing. split_and!; [by exists ph| | |].
    + intros role w Hw. apply (Hi role). by destruct role.
    + by apply removed_readable.
    + by apply (distinct_removed _ RoleRetired), (distinct_removed _ RoleCandidate).
Qed.

Lemma poll_almost_failed inputs now C :
  almost_failed C -> specN (poll reserve reserve_vec inputs now) C (fun _ C' => c_stage C' = StageFailed).
Proof.
  intros (Hf & Hd & Hc & Hr). apply spec_poll_failing; [done|]. intros C1 phase Hf1 Hl1 Hst.
  destruct (failed_failing phase C1 Hf1) as (Hf2 & Hd2 & Hl2).
  pose proof (lessens_trans _ _ _ Hl1 Hl2) as [_ Ha2].
  pose proof Hf2 as ((ph & Hst2) & Hi & Hrd & Hdi).
  apply spec_poll_rest; [by unfold ending; rewrite Hst2|done|done|done| |].
  - intros events _. by eapply ended_failed.
  - intros events status _ Hact. destruct Hact. destruct (Ha2 Hd) as [?|?]; [congruence|done].
Qed.
End Ending.
