(* ===== verification/MasterExit.v ===== *)
(** Processes that report their exit once, as the worker processes of the repository
    do: what a master that ends does with them is what it does with processes that
    report it at every poll. *)

From stdpp Require Import base countable strings list.
From Stdlib Require Import ZArith Lia.
From S2P Require Import Prelude Bytes Identity Catalog Transport Descriptor Channel ControlProtocol.
From S2P Require Import StatusProtocol SupervisorStatus Clock Listeners Replacement Master.
From S2P Require Import MasterFacts MasterEnd.

Open Scope Z_scope.

#[local] Arguments execute_replacement_actions : simpl never.

(** The processes in the three roles. *)
Definition at_role {A} (role : WorkerRole) (a : A) (f : WorkerRole -> A) : WorkerRole -> A :=
  fun r => if decide (r = role) then a else f r.

(** [exited ps k]: the processes of [ps] have exited in the world [k] and none has
    been asked about its exit.  Asked, each reports it; asked to die, it obeys and
    its exit is still to be reported. *)
Class Exiting {P K Fd : Type} `{!ManagedProcess P K Fd} (exited : (WorkerRole -> option P) -> K -> Prop) : Prop := {
  exiting_fewer ps ps' k :
    exited ps k -> (forall role, ps' role = ps role \/ ps' role = None) -> exited ps' k;
  exiting_kill ps role p k :
    exited ps k -> ps role = Some p ->
    exists p' k', process_request_kill (p, k) = (Ok tt, (p', k')) /\ exited (at_role role (Some p') ps) k';
  exiting_poll ps role p k :
    exited ps k -> ps role = Some p ->
    exists status p' k', process_poll_event (p, k) = (Ok (Some (ProcessGroupExited status)), (p', k')) /\
      exited (at_role role None ps) k';
}.

(** The same processes, reporting an exit whenever they are asked and dying whenever
    they are told to. *)
Definition obliging {P K Fd : Type} (processes : ManagedProcess P K Fd) : ManagedProcess P K Fd := {|
  process_poll_event := fun s =>
    match process_poll_event s with
    | (Ok (Some event), s') => (Ok (Some event), s')
    | (_, s') => (Ok (Some (ProcessGroupExited 0)), s')
    end;
  process_try_receive := process_try_receive;
  process_send := process_send;
  process_request_kill := fun s => (Ok tt, (process_request_kill s).2);
|}.

Lemma obliging_exits {P K Fd} (processes : ManagedProcess P K Fd) (s : P * K) :
  exists status, (@process_poll_event _ _ _ (obliging processes) s).1 = Ok (Some (ProcessGroupExited status)).
Proof.
  cbn. destruct (process_poll_event s) as [[[[status]|]|e] s']; cbn; eauto.
Qed.
Lemma obliging_dies {P K Fd} (processes : ManagedProcess P K Fd) (s : P * K) :
  (@process_request_kill _ _ _ (obliging processes) s).1 = Ok tt.
Proof. done. Qed.

Section Agreement.
Context {E P K Fd : Type} `{!ActionExecutor E P K Fd} (processes : ManagedProcess P K Fd).
Context (exited : (WorkerRole -> option P) -> K -> Prop) `{!Exiting exited}.
Context (reserve reserve_vec : Z -> bool).
Implicit Types (m : Master E P Fd) (k : K) (role : WorkerRole).

Abbreviation MMs := (MM (E:=E) (P:=P) (K:=K) (Fd:=Fd)).
Abbreviation nice := (obliging processes).

(** ** Two computations that do the same

    [agree J c c' Q]: from a state of [J] both return the same, and a state of [Q]. *)
Definition agree {A} (J : Master E P Fd -> K -> Prop) (c c' : MMs A) (Q : A -> Master E P Fd -> K -> Prop) : Prop :=
  forall m k, J m k -> c (m, k) = c' (m, k) /\
    match c (m, k) with (Ok a, (m', k')) => Q a m' k' | _ => True end.

Lemma agree_bind {A B} J (c c' : MMs A) (f f' : A -> MMs B) R Q :
  agree J c c' R -> (forall a, agree (R a) (f a) (f' a) Q) -> agree J (mbind_se c f) (mbind_se c' f') Q.
Proof.
  intros Hc Hf m k HJ. unfold mbind_se. destruct (Hc m k HJ) as [<- HR].
  destruct (c (m, k)) as [[a|e] [m' k']]; [by apply Hf|done].
Qed.
Lemma agree_ret {A} (J : Master E P Fd -> K -> Prop) (a : A) (Q : A -> Master E P Fd -> K -> Prop) :
  (forall m k, J m k -> Q a m k) -> agree J (mret a) (mret a) Q.
Proof. intros H m k HJ. split; [done|by apply H]. Qed.
Lemma agree_get {A} (J : Master E P Fd -> K -> Prop) (f : Master E P Fd -> A) Q :
  (forall m k, J m k -> Q (f m) m k) -> agree J (get f) (get f) Q.
Proof. intros H m k HJ. split; [done|by apply H]. Qed.
Lemma agree_put (J : Master E P Fd -> K -> Prop) f (Q : unit -> Master E P Fd -> K -> Prop) :
  (forall m k, J m k -> Q tt (f m) k) -> agree J (put f) (put f) Q.
Proof. intros H m k HJ. split; [done|by apply H]. Qed.
Lemma agree_weaken {A} (J J' : Master E P Fd -> K -> Prop) (c c' : MMs A) Q Q' :
  agree J c c' Q -> (forall m k, J' m k -> J m k) -> (forall a m k, Q a m k -> Q' a m k) -> agree J' c c' Q'.
Proof.
  intros H HJ HQ m k HJ'. destruct (H m k (HJ m k HJ')) as [-> HR]. split; [done|].
  destruct (c' (m, k)) as [[a|e] [m' k']]; auto.
Qed.
Lemma agree_for_each {A} J (f f' : A -> MMs unit) l :
  (forall x, In x l -> agree J (f x) (f' x) (fun _ => J)) -> agree J (for_each f l) (for_each f' l) (fun _ => J).
Proof.
  induction l as [|x l IH]; intros H; [by apply agree_ret|]. cbn.
  apply (agree_bind _ _ _ _ _ (fun _ => J)); [apply H; by left|]. intros _. apply IH. intros y Hy. apply H. by right.
Qed.

(** ** Killing *)

(** The processes whose exit is to be reported: that of an active worker whose exit
    was put off has been. *)
Definition live m : WorkerRole -> option P := fun role =>
  match role, ms_deferred_active_exit m with
  | RoleActive, Some _ => None
  | _, _ => w_process <$> worker m role
  end.

(** The exits are to be reported, and the stage and the exit that was put off are in [I]. *)
Definition waiting (I : Stage -> option ExitStatus -> Prop) m k : Prop :=
  exited (live m) k /\ I (ms_stage m) (ms_deferred_active_exit m).

Lemma waiting_fewer (I I' : Stage -> option ExitStatus -> Prop) m m' k :
  waiting I m k -> (forall role, live m' role = live m role \/ live m' role = None) ->
  I' (ms_stage m') (ms_deferred_active_exit m') -> waiting I' m' k.
Proof. intros [Hx _] Hl Hi. split; [by eapply exiting_fewer|done]. Qed.

Lemma worker_set m role o : worker (set_worker role o m) role = o.
Proof. by destruct role. Qed.

Lemma live_killed (I : Stage -> option ExitStatus -> Prop) m role w p' k' :
  I (ms_stage m) (ms_deferred_active_exit m) -> worker m role = Some w ->
  live m role = Some (w_process w) -> exited (at_role role (Some p') (live m)) k' ->
  waiting I (set_events (ms_events
      (set_worker role (Some (with_state (Terminating true) (with_pending None (with_process p' w))))
        (set_worker role (Some (with_process p' w)) m)) ++ [TerminationRequested role true])
    (set_worker role (Some (with_state (Terminating true) (with_pending None (with_process p' w))))
      (set_worker role (Some (with_process p' w)) m))) k'.
Proof.
  intros Hi Hw Hl Hx. split; [|by destruct role].
  eapply exiting_fewer; [exact Hx|]. intros r. left. unfold at_role.
  destruct (decide (r = role)) as [->|Hne].
  - destruct role; unfold live in *; cbn in *; [|done..]. by destruct (ms_deferred_active_exit m).
  - by destruct r, role.
Qed.

Lemma force_agrees role (I : Stage -> option ExitStatus -> Prop) :
  (forall st d, I st d -> role = RoleActive -> d = None) ->
  agree (waiting I) (force_role (ManagedProcess0 := processes) role) (force_role (ManagedProcess0 := nice) role)
    (fun _ => waiting I).
Proof.
  intros HI m k [Hx Hi]. unfold force_role, mbind_se, get, mread. cbn [fst snd].
  destruct (worker m role) as [w|] eqn:Hw; cbn [fmap option_fmap option_map];
    [|unfold require_worker, ensure, mtry; cbn; by rewrite Hw].
  assert (live m role = Some (w_process w)) as Hl.
  { unfold live. rewrite Hw. destruct role; [|done..]. by rewrite (HI _ _ Hi eq_refl). }
  destruct (w_state w) as [|[]] eqn:Hst; [|done|];
    (destruct (exiting_kill _ _ _ _ Hx Hl) as (p' & k' & Hk & Hx');
     unfold require_worker, ensure, mtry, update_worker, require_worker, on_process, mbind_se, emit, put, mwrite;
     cbn; rewrite Hw; cbn; rewrite Hk; cbn; rewrite worker_set; cbn; split; [done|]; eapply live_killed; done).
Qed.

Lemma force_if_present_agrees role (I : Stage -> option ExitStatus -> Prop) :
  (forall st d, I st d -> role = RoleActive -> d = None) ->
  agree (waiting I) (force_if_present (ManagedProcess0 := processes) role)
    (force_if_present (ManagedProcess0 := nice) role) (fun _ => waiting I).
Proof.
  intros HI. apply (agree_bind _ _ _ _ _ (fun _ => waiting I)); [by apply agree_get|].
  intros [w|]; [by apply force_agrees|by apply agree_ret].
Qed.

(** Killing all, once no exit is put off. *)
Definition closed (st : Stage) (d : option ExitStatus) : Prop := d = None /\ exists phase, st = Failing phase.

Lemma force_all_agrees (I : Stage -> option ExitStatus -> Prop) :
  (forall st d, I st d -> d = None) ->
  agree (waiting I) (for_each (force_if_present (ManagedProcess0 := processes)) all_roles)
    (for_each (force_if_present (ManagedProcess0 := nice)) all_roles) (fun _ => waiting I).
Proof. intros HI. apply agree_for_each. intros role _. apply force_if_present_agrees. eauto. Qed.

Definition fails (st : Stage) (d : option ExitStatus) : Prop := exists phase, st = Failing phase.

Lemma take_agrees role (I : Stage -> option ExitStatus -> Prop) :
  agree (waiting I) (take_worker role) (take_worker role) (fun _ => waiting I).
Proof.
  intros m k H. split; [done|]. cbn. eapply waiting_fewer; [exact H| |].
  - intros r. unfold live. destruct role, r; cbn; auto; destruct (ms_deferred_active_exit m); auto.
  - destruct H as [_ H]. by destruct role.
Qed.

Lemma take_deferred_agrees :
  agree (waiting fails) take_deferred_active take_deferred_active (fun _ => waiting closed).
Proof.
  intros m k [Hx [phase Hf]]. split; [done|]. unfold take_deferred_active, mbind_se, get, mread, put, mwrite. cbn.
  destruct (ms_deferred_active_exit m) as [st|] eqn:Hd; cbn.
  - split; [|split; [done|by exists phase]]. eapply exiting_fewer; [exact Hx|].
    intros []; unfold live; cbn; rewrite ?Hd; auto.
  - split; [|split; [done|by exists phase]]. eapply exiting_fewer; [exact Hx|].
    intros []; unfold live; cbn; rewrite ?Hd; auto.
Qed.

Lemma agree_failing {A} (J : Master E P Fd -> K -> Prop) (f f' : Stage -> MMs A) Q :
  (forall m k, J m k -> waiting fails m k) ->
  (forall phase, agree J (f (Failing phase)) (f' (Failing phase)) Q) ->
  agree J (let! stage := get ms_stage in f stage) (let! stage := get ms_stage in f' stage) Q.
Proof.
  intros HJ H m k Hm. destruct (HJ m k Hm) as [_ [phase Hf]].
  unfold mbind_se, get, mread. cbn [fst]. rewrite Hf. by apply H.
Qed.

Lemma fail_agrees phase :
  agree (waiting fails) (fail_master (ManagedProcess0 := processes) phase)
    (fail_master (ManagedProcess0 := nice) phase) (fun _ => waiting closed).
Proof.
  apply agree_failing; [done|]. intros ph.
  apply (agree_bind _ _ _ _ _ (fun _ => waiting fails)); [by apply agree_ret|]. intros _.
  apply (agree_bind _ _ _ _ _ (fun _ => waiting closed)); [apply take_deferred_agrees|].
  intros _. apply force_all_agrees. by intros st d [-> _].
Qed.

(** ** Deadlines *)

Lemma phase_agrees (J : Master E P Fd -> K -> Prop) : agree J replacement_phase replacement_phase (fun _ => J).
Proof. intros m k HJ. split; [done|]. unfold replacement_phase. cbn.
  destruct (ms_supervisor m) as [s|]; [|done]. by destruct (ReplacementSupervisor_phase s). Qed.

(** A worker that stays with its process. *)
Lemma update_agrees (I : Stage -> option ExitStatus -> Prop) role f :
  (forall w : ManagedWorker P, w_process (f w) = w_process w) ->
  agree (waiting I) (update_worker role f) (update_worker role f) (fun _ => waiting I).
Proof.
  intros Hf m k Hm. split; [done|]. unfold update_worker, require_worker, ensure, mtry, mbind_se, put, mwrite. cbn.
  destruct (worker m role) as [w|] eqn:Hw; [|done]. cbn. eapply waiting_fewer; [exact Hm| |].
  - intros r. left. unfold live. destruct role, r; cbn in *; rewrite ?Hw; cbn; by rewrite ?Hf.
  - destruct Hm as [_ Hm]. by destruct role.
Qed.

Lemma phase_failure_agrees now role phase :
  agree (waiting fails)
    (handle_phase_failure (ManagedProcess0 := processes) (run_actions (ManagedProcess0 := processes) reserve now) role phase)
    (handle_phase_failure (ManagedProcess0 := nice) (run_actions (ManagedProcess0 := nice) reserve now) role phase)
    (fun _ => waiting fails).
Proof.
  apply agree_failing; [done|]. intros ph. apply (agree_bind _ _ _ _ _ (fun _ => waiting fails)); [apply phase_agrees|].
  intros p. eapply agree_weaken; [by destruct p as [[]|], role; apply fail_agrees|done|].
  intros _ m k [Hx [_ Hf]]. by split.
Qed.

(** The retired worker did not stop in time: it is killed. *)
Lemma timed_out_agrees now id :
  agree (fun m k => waiting fails m k /\ role_for m id = Some RoleRetired)
    (apply_replacement_event (run_actions (ManagedProcess0 := processes) reserve now) (TerminationTimedOut id))
    (apply_replacement_event (run_actions (ManagedProcess0 := nice) reserve now) (TerminationTimedOut id))
    (fun _ => waiting fails).
Proof.
  apply (agree_bind _ _ _ _ _ (fun actions m k => actions = [Kill id] /\ waiting fails m k /\ role_for m id = Some RoleRetired)).
  - intros m k [Hm Hr]. split; [done|]. unfold supervisor_apply. destruct (ms_supervisor m) as [s|]; [|done].
    destruct (ReplacementSupervisor_apply _ s) as [[actions|e] s'] eqn:Ea; [|done].
    apply apply_accepted in Ea. inversion Ea; subst. split_and!; [done| |done].
    by eapply waiting_fewer; [exact Hm|by left|destruct Hm].
  - intros actions m k (-> & Hm & Hr).
    change (run_actions (ManagedProcess0 := processes) reserve now [Kill id]) with
      (let! added := then_nothing (execute_kill (ManagedProcess0 := processes) id) in
       execute_replacement_actions (ManagedProcess0 := processes) reserve 7 now None ([] ++ added)).
    change (run_actions (ManagedProcess0 := nice) reserve now [Kill id]) with
      (let! added := then_nothing (execute_kill (ManagedProcess0 := nice) id) in
       execute_replacement_actions (ManagedProcess0 := nice) reserve 7 now None ([] ++ added)).
    revert m k Hm Hr. enough (agree (fun m k => waiting fails m k /\ role_for m id = Some RoleRetired)
      (let! added := then_nothing (execute_kill (ManagedProcess0 := processes) id) in
       execute_replacement_actions (ManagedProcess0 := processes) reserve 7 now None ([] ++ added))
      (let! added := then_nothing (execute_kill (ManagedProcess0 := nice) id) in
       execute_replacement_actions (ManagedProcess0 := nice) reserve 7 now None ([] ++ added))
      (fun _ => waiting fails)) as H by (intros m k Hm Hr; by apply H).
    apply (agree_bind _ _ _ _ _ (fun added m k => added = [] /\ waiting fails m k)).
    + apply (agree_bind _ _ _ _ _ (fun _ => waiting fails)); [|intros _; by apply agree_ret].
      intros m k [Hm Hr]. unfold execute_kill, ensure, mtry, mbind_se. cbn [fst snd]. rewrite Hr. cbn [ok_or map_err fst snd].
      by apply force_agrees.
    + intros added m k [-> Hm]. by split.
Qed.

Lemma retired_expired_agrees (J : Master E P Fd -> K -> Prop) now :
  agree J (retired_expired now) (retired_expired now)
    (fun b m k => J m k /\ (b = true -> is_Some (ms_retired m))).
Proof.
  apply (agree_bind _ _ _ _ _ (fun _ => J)); [apply phase_agrees|]. intros p.
  destruct p as [[]|]; try (by apply agree_ret). apply agree_get. intros m k HJ. split; [done|].
  destruct (ms_retired m); [by eexists|done].
Qed.

Lemma timeout_failing_agrees now :
  agree (fun m k => waiting fails m k /\ c_distinct (ctl m)) (handle_timeout (ManagedProcess0 := processes) reserve now)
    (handle_timeout (ManagedProcess0 := nice) reserve now) (fun _ => waiting fails).
Proof.
  set (J := fun m k => waiting fails m k /\ c_distinct (ctl m)).
  apply (agree_bind _ _ _ _ _ (fun _ => J)); [by apply agree_get|]. intros [next|]; [|apply agree_ret; by intros m k [? _]].
  destruct (now <? next); [apply agree_ret; by intros m k [? _]|].
  apply agree_failing; [by intros m k [? _]|]. intros phase.
  apply (agree_bind _ _ _ _ _ (fun b m k => J m k /\ (b = true -> is_Some (ms_retired m))));
    [apply retired_expired_agrees|].
  intros [].
  - apply (agree_bind _ _ _ _ _ (fun id m k => waiting fails m k /\ role_for m id = Some RoleRetired)).
    { intros m k [[Hm Hd] [w Hw]%(fun H => H eq_refl)]. split; [done|].
      assert (role_for m (w_instance_id w) = Some RoleRetired) as Hr.
      { rewrite ctl_role_for. apply (role_for_distinct _ RoleRetired (cw_of w)); [done|]. cbn. by rewrite Hw. }
      unfold worker_id, require_worker, ensure, mtry, mbind_se. cbn -[role_for]. rewrite Hw. by split. }
    intros id. apply (agree_bind _ _ _ _ _ (fun _ m k => waiting fails m k /\ role_for m id = Some RoleRetired)).
    { apply agree_put. intros m k [Hm Hr]. split; [|done]. by eapply waiting_fewer; [exact Hm|by left|destruct Hm]. }
    intros _. apply (agree_bind _ _ _ _ _ (fun _ m k => waiting fails m k /\ role_for m id = Some RoleRetired));
      [|intros _; apply timed_out_agrees].
    intros m k [Hm Hr]. destruct (update_agrees fails RoleRetired (with_termination_deadline None) (fun _ => eq_refl) m k Hm)
      as [_ Hu]. split; [done|].
    unfold update_worker, require_worker, ensure, mtry, mbind_se, put, mwrite in *. cbn -[role_for] in *.
    destruct (ms_retired m) as [w|] eqn:Hw; [|done]. cbn -[role_for] in *. split; [done|].
    rewrite ctl_role_for in *. unfold c_role_for in *. cbn in *. by rewrite Hw in Hr.
  - apply (agree_bind _ _ _ _ _ (fun _ => waiting fails)); [by apply agree_get; intros m k [[? _] _]|].
    intros [role|]; [|by apply agree_ret].
    apply (agree_bind _ _ _ _ _ (fun _ => waiting fails)); [by apply agree_get|]. intros ph.
    apply (agree_bind _ _ _ _ _ (fun _ => waiting fails)); [by apply update_agrees|]. intros _.
    apply phase_failure_agrees.
Qed.

(** A master that shuts down has put off no exit. *)
Definition shuts (st : Stage) (d : option ExitStatus) : Prop := d = None /\ exists t b, st = ShuttingDown t b.

Lemma agree_shutting {A} (f f' : Stage -> MMs A) Q :
  (forall t b, agree (waiting shuts) (f (ShuttingDown t b)) (f' (ShuttingDown t b)) Q) ->
  agree (waiting shuts) (let! stage := get ms_stage in f stage) (let! stage := get ms_stage in f' stage) Q.
Proof.
  intros H m k Hm. pose proof Hm as [_ (_ & t & b & Hst)].
  unfold mbind_se, get, mread. cbn [fst]. rewrite Hst. by apply H.
Qed.

Lemma timeout_shutting_agrees now :
  agree (waiting shuts) (handle_timeout (ManagedProcess0 := processes) reserve now)
    (handle_timeout (ManagedProcess0 := nice) reserve now) (fun _ => waiting shuts).
Proof.
  apply (agree_bind _ _ _ _ _ (fun _ => waiting shuts)); [by apply agree_get|].
  intros [next|]; [|by apply agree_ret]. destruct (now <? next); [by apply agree_ret|].
  apply agree_shutting. intros t b. apply (agree_bind _ _ _ _ _ (fun _ => waiting shuts)).
  { destruct b; [by apply agree_ret|]. apply agree_put. intros m k Hm.
    by eapply waiting_fewer; [exact Hm|by left|destruct Hm]. }
  intros _. apply (agree_bind _ _ _ _ _ (fun _ => waiting shuts)).
  { apply agree_put. intros m k Hm. eapply waiting_fewer; [exact Hm|by left|].
    destruct Hm as [_ [Hd _]]. split; [done|by exists t, true]. }
  intros _. apply force_all_agrees. by intros st d [-> _].
Qed.

(** ** Observing *)

(** The exits of the roles in [S] are still to be reported. *)
Definition unasked (S : WorkerRole -> bool) m k : Prop :=
  ms_deferred_active_exit m = None /\ exited (fun role => if S role then w_process <$> worker m role else None) k.

Definition ending_stage m : Prop := match ms_stage m with Failing _ | ShuttingDown _ _ => True | _ => False end.
Definition is_exit (o : Observed) : Prop := exists status, ob_observation o = ObservedExit status.

Lemma observe_agrees (S : WorkerRole -> bool) role inputs :
  S role = true ->
  agree (fun m k => unasked S m k /\ ending_stage m)
    (observe_worker (ManagedProcess0 := processes) reserve_vec role inputs)
    (observe_worker (ManagedProcess0 := nice) reserve_vec role inputs)
    (fun o m k => Forall is_exit (option_list o) /\ unasked (at_role role false S) m k /\ ending_stage m).
Proof.
  intros HS m k [[Hd Hx] He].
  assert (exited (fun r => if at_role role false S r then w_process <$> worker m r else None) k) as Hx0.
  { eapply exiting_fewer; [exact Hx|]. intros r. unfold at_role. destruct (decide (r = role)); auto. }
  unfold observe_worker, mbind_se, get, mread. cbn [fst]. rewrite Hd.
  replace (match role with RoleActive => mret false | _ => mret false end) with (mret (S:=Master E P Fd * K) (E:=MasterFailure) false)
    by (by destruct role).
  unfold mret. cbn [fst snd]. destruct (worker m role) as [w|] eqn:Hw; [|split; [done|split; [constructor|by split]]].
  destruct (exiting_poll _ role (w_process w) _ Hx) as (status & p' & k' & Hp & Hx'); [by rewrite HS, Hw|].
  unfold on_process, ensure, mtry. cbn. rewrite Hp. cbn. split; [done|].
  split; [by constructor; [eexists|]|]. split; [|by destruct role]. split; [by destruct role|].
  eapply exiting_fewer; [exact Hx'|]. intros r. unfold at_role. destruct (decide (r = role)) as [->|Hne]; [by left|].
  left. destruct (S r); [|done]. by destruct r, role.
Qed.

(** ** Handling the exits *)

Lemma exit_agrees now o (G : K -> Prop) :
  is_exit o ->
  agree (fun m k => ending_stage m /\ G k) (handle_observed (ManagedProcess0 := processes) reserve now o)
    (handle_observed (ManagedProcess0 := nice) reserve now o) (fun _ m k => ending_stage m /\ G k).
Proof.
  intros [status Ho]. unfold handle_observed. apply (agree_bind _ _ _ _ _ (fun _ m k => ending_stage m /\ G k)); [by apply agree_get|].
  intros [role|]; [|by apply agree_ret]. rewrite Ho. cbn [handle_observation].
  apply (agree_bind _ _ _ _ _ (fun _ m k => ending_stage m /\ G k)).
  { intros m k He. split; [done|]. unfold worker_id, require_worker, ensure, mtry, mbind_se. cbn.
    by destruct (worker m role). }
  intros id. apply (agree_bind _ _ _ _ _ (fun _ m k => ending_stage m /\ G k)); [apply phase_agrees|]. intros p.
  assert (agree (fun m k => ending_stage m /\ G k)
    (let! _ := emit (WorkerExited role id status) in let! stage := get ms_stage in
     exit_handled (ManagedProcess0 := processes) reserve now role id p stage)
    (let! _ := emit (WorkerExited role id status) in let! stage := get ms_stage in
     exit_handled (ManagedProcess0 := nice) reserve now role id p stage) (fun _ m k => ending_stage m /\ G k)) as H.
  { apply (agree_bind _ _ _ _ _ (fun _ m k => ending_stage m /\ G k)); [by apply agree_put|]. intros _ m k He.
    unfold mbind_se, get, mread. cbn [fst]. unfold ending_stage in He. pose proof He as [Hst _].
    assert (agree (fun m k => ending_stage m /\ G k) (take_worker role) (take_worker role) (fun _ m k => ending_stage m /\ G k)) as Ht.
    { intros m1 k1 He1. split; [done|]. cbn. by destruct role. }
    specialize (Ht m k He). destruct (ms_stage m); try done; exact Ht. }
  destruct p as [[]|], role; try exact H.
  apply (agree_bind _ _ _ _ _ (fun _ m k => ending_stage m /\ G k)); [by apply agree_put|]. intros _. by apply agree_put.
Qed.

Lemma finish_agrees (J : Master E P Fd -> K -> Prop) (G : K -> Prop) :
  (forall m k, J m k -> G k) ->
  agree J (let! _ := finish_terminal_states in
           let! events := get ms_events in let! _ := put (set_events []) in mret events)
    (let! _ := finish_terminal_states in
     let! events := get ms_events in let! _ := put (set_events []) in mret events) (fun _ _ => G).
Proof.
  intros HJ m k Hm%HJ. split; [done|]. unfold finish_terminal_states, mbind_se, get, mread. cbn.
  destruct (negb _); [done|]. cbn [fst]. by destruct (ms_stage m).
Qed.

(** ** Polling *)

Definition none : WorkerRole -> option P := fun _ => None.

Lemma handled_agrees now observed :
  Forall is_exit observed ->
  agree (fun m k => ending_stage m /\ exited none k)
    (let! _ := for_each (handle_observed (ManagedProcess0 := processes) reserve now) observed in
     let! _ := finish_terminal_states in
     let! events := get ms_events in let! _ := put (set_events []) in mret events)
    (let! _ := for_each (handle_observed (ManagedProcess0 := nice) reserve now) observed in
     let! _ := finish_terminal_states in
     let! events := get ms_events in let! _ := put (set_events []) in mret events) (fun _ _ => exited none).
Proof.
  intros Hobs. apply (agree_bind _ _ _ _ _ (fun _ m k => ending_stage m /\ exited none k));
    [apply agree_for_each|intros _; by apply finish_agrees; intros m k [_ ?]].
  intros o Hin. apply exit_agrees. rewrite Forall_forall in Hobs. by apply Hobs, list_elem_of_In.
Qed.

Lemma poll_rest_agrees inputs now :
  agree (fun m k => unasked (fun _ => true) m k /\ ending_stage m)
    (poll_rest (ManagedProcess0 := processes) reserve reserve_vec inputs now)
    (poll_rest (ManagedProcess0 := nice) reserve reserve_vec inputs now) (fun _ _ => exited none).
Proof.
  apply (agree_bind _ _ _ _ _ (fun _ m k => unasked (fun _ => true) m k /\ ending_stage m)); [apply phase_agrees|].
  intros phase. apply (agree_bind _ _ _ _ _ (fun _ m k => unasked (fun _ => true) m k /\ ending_stage m)); [by apply agree_get|].
  intros id. eapply agree_bind; [by apply observe_agrees|]. intros a. cbv beta.
  apply (agree_bind _ _ _ _ _ (fun c m k => Forall is_exit (option_list a ++ option_list c) /\
    unasked (at_role RoleCandidate false (at_role RoleActive false (fun _ => true))) m k /\ ending_stage m)).
  { intros m k [Ha Hm]. destruct (observe_agrees (at_role RoleActive false (fun _ => true)) RoleCandidate inputs eq_refl m k Hm)
      as [<- Ho]. split; [done|]. destruct (observe_worker _ _ _ (m, k)) as [[c|] [m' k']]; [|done].
    destruct Ho as [Hc Hm']. split; [by apply Forall_app|done]. }
  intros c. apply (agree_bind _ _ _ _ _ (fun r m k => Forall is_exit (option_list a ++ option_list c ++ option_list r) /\
    ending_stage m /\ exited none k)).
  { intros m k [Ha Hm].
    destruct (observe_agrees (at_role RoleCandidate false (at_role RoleActive false (fun _ => true))) RoleRetired inputs eq_refl m k Hm)
      as [<- Ho]. split; [done|]. destruct (observe_worker _ _ _ (m, k)) as [[r|] [m' k']]; [|done].
    destruct Ho as [Hr [[_ Hx] He]]. split; [rewrite app_assoc; by apply Forall_app|]. split; [done|].
    eapply exiting_fewer; [exact Hx|]. intros role. by right. }
  intros r m k (Ho & He & Hx).
  apply (handled_agrees now (match phase with
    | Some ActivatingCandidate => prioritize id (option_list a ++ option_list c ++ option_list r)
    | _ => option_list a ++ option_list c ++ option_list r end)); [|done].
  destruct phase as [[]|]; try done. rewrite Forall_forall in Ho. apply Forall_app.
  split; apply Forall_forall; intros o [_ Hin]%list_elem_of_filter; by apply Ho.
Qed.

Lemma waiting_unasked (I : Stage -> option ExitStatus -> Prop) m k :
  waiting I m k -> ms_deferred_active_exit m = None -> unasked (fun _ => true) m k.
Proof.
  intros [Hx _] Hd. split; [done|]. eapply exiting_fewer; [exact Hx|]. intros role. left. unfold live. rewrite Hd.
  by destruct role.
Qed.

Lemma poll_failing_agrees inputs now :
  agree (fun m k => waiting fails m k /\ c_distinct (ctl m))
    (poll (ManagedProcess0 := processes) reserve reserve_vec inputs now)
    (poll (ManagedProcess0 := nice) reserve reserve_vec inputs now) (fun _ _ => exited none).
Proof.
  apply (agree_bind _ _ _ _ _ (fun _ => waiting fails)); [apply timeout_failing_agrees|]. intros _.
  apply agree_failing; [done|]. intros phase.
  apply (agree_bind _ _ _ _ _ (fun _ => waiting closed)); [apply fail_agrees|]. intros _.
  eapply agree_weaken; [apply poll_rest_agrees| |done]. intros m k Hm. pose proof Hm as [_ [Hd [ph Hst]]].
  split; [by eapply waiting_unasked|]. unfold ending_stage. by rewrite Hst.
Qed.

Lemma poll_shutting_agrees inputs now :
  agree (waiting shuts) (poll (ManagedProcess0 := processes) reserve reserve_vec inputs now)
    (poll (ManagedProcess0 := nice) reserve reserve_vec inputs now) (fun _ _ => exited none).
Proof.
  apply (agree_bind _ _ _ _ _ (fun _ => waiting shuts)); [apply timeout_shutting_agrees|]. intros _.
  apply agree_shutting. intros t b.
  apply (agree_bind _ _ _ _ _ (fun _ => waiting shuts)); [by apply agree_ret|]. intros _.
  eapply agree_weaken; [apply poll_rest_agrees| |done]. intros m k Hm. pose proof Hm as [_ (Hd & t' & b' & Hst)].
  split; [by eapply waiting_unasked|]. unfold ending_stage. by rewrite Hst.
Qed.
End Agreement.

(** ** The worker processes of the repository

    An operating system in which every child has exited: waiting for one gives its
    status, and signals to their groups are no errors. *)
Section Workers.
Context {K Child Cgroup Fd : Type} `{!ProcessOs K Child Cgroup}.
Context (sendmsg : bytes -> list Fd -> result Z Z) (ancillary_push : list Fd -> bool).
Context (getfd : Fd -> result Z Z) (setfd : Fd -> Z -> result unit Z).

Record quiet_os (quiet : K -> Prop) : Prop := {
  quiet_wait child k : quiet k -> exists status k', try_wait child k = (Ok (Some status), k') /\ quiet k';
  quiet_group pgid signal k :
    quiet k -> exists r k', kill_process_group pgid signal k = (r, k') /\ (r = Ok tt \/ r = Err ESRCH) /\ quiet k';
  quiet_cgroup cgroup k : quiet k -> exists k', cgroup_kill cgroup k = (Ok tt, k') /\ quiet k';
  quiet_cleanup cgroup k : quiet k -> quiet (cgroup_cleanup cgroup k).2;
  quiet_submit cgroup k : quiet k -> quiet (submit_cgroup_to_reaper cgroup k);
}.

Context (quiet : K -> Prop) (Hos : quiet_os quiet).

(** A process whose exit is yet to be reported. *)
Definition unreported (p : WorkerProcess Child Cgroup) : Prop :=
  l_event_reported (leader p) = false /\ (is_Some (l_child (leader p)) \/ is_Some (l_status (leader p))).
Definition workers_exited (ps : WorkerRole -> option (WorkerProcess Child Cgroup)) (k : K) : Prop :=
  quiet k /\ forall role p, ps role = Some p -> unreported p.

Lemma quiet_release (l : LeaderState Child Cgroup) k :
  quiet k -> exists l' k', release_cgroup (l, k) = (Ok tt, (l', k')) /\ quiet k' /\ l_status l' = l_status l /\
    l_event_reported l' = l_event_reported l.
Proof.
  intros Hk. unfold release_cgroup. destruct (l_cgroup l) as [cgroup|]; [|by exists l, k].
  destruct (quiet_cgroup _ Hos cgroup k Hk) as (k1 & -> & Hk1).
  pose proof (quiet_cleanup _ Hos cgroup k1 Hk1) as Hk2. pose proof (quiet_submit _ Hos cgroup _ Hk2) as Hk3.
  destruct (cgroup_cleanup cgroup k1) as [[[]|e] k2]; cbn in *; by eexists _, _.
Qed.

#[local] Arguments release_cgroup : simpl never.
#[local] Arguments signal_pgid : simpl never.
Lemma quiet_poll p k :
  quiet k -> unreported p ->
  exists status p' k', poll_event (p, k) = (Ok (Some (ProcessGroupExited status)), (p', k')) /\ quiet k'.
Proof.
  intros Hk [Hr Hc]. unfold poll_event, on_leader, leader_poll_event, refresh, mbind_se, leader_read, mread. cbn.
  destruct (l_status (leader p)) as [status|] eqn:Hs; cbn.
  - rewrite Hr. cbn. rewrite Hs. cbn. by eexists _, _, _.
  - destruct Hc as [[child Hc]|[? ?]]; [|done]. rewrite Hc. unfold os. cbn.
    destruct (quiet_wait _ Hos child k Hk) as (status & k1 & -> & Hk1). cbn. unfold reaped, leader_write, mwrite, mbind_se. cbn.
    set (l := mkLeader _ _ _ _ _). destruct (quiet_release l k1 Hk1) as (l' & k2 & -> & Hk2 & Hs' & Hr'). cbn.
    rewrite Hs'. subst l. cbn in *. rewrite Hr', Hr. cbn. rewrite Hs'. cbn. by eexists _, _, _.
Qed.

Lemma quiet_kill p k :
  quiet k -> exists k', request_kill (p, k) = (Ok tt, (p, k')) /\ quiet k'.
Proof.
  intros Hk. unfold request_kill, on_leader, leader_signal_group. cbn.
  assert (exists k1, (match l_cgroup (leader p) with Some cgroup => cgroup_kill cgroup k | None => (Ok tt, k) end) =
    (Ok tt, k1) /\ quiet k1) as (k1 & -> & Hk1).
  { destruct (l_cgroup (leader p)); [by apply quiet_cgroup|by exists k]. }
  rewrite bool_decide_eq_true_2 by done. cbn.
  assert (exists k2, (match l_child (leader p), l_pgid (leader p) with
    | Some _, Some pgid => signal_pgid pgid SIGKILL k1 | _, _ => (Ok tt, k1) end) = (Ok tt, k2) /\ quiet k2) as (k2 & -> & Hk2).
  { destruct (l_child (leader p)), (l_pgid (leader p)) as [pgid|]; try (by exists k1). unfold signal_pgid.
    destruct (quiet_group _ Hos pgid SIGKILL k1 Hk1) as (r & k2 & -> & [-> | ->] & Hk2); by exists k2. }
  exists k2. cbn. destruct p; done.
Qed.

#[export] Instance workers_exiting :
  @Exiting _ _ _ (worker_process sendmsg ancillary_push getfd setfd) workers_exited.
Proof.
  split.
  - intros ps ps' k [Hk Hp] Hf. split; [done|]. intros role p Hps. apply (Hp role). destruct (Hf role); congruence.
  - intros ps role p k [Hk Hp] Hps. destruct (quiet_kill p k Hk) as (k' & H & Hk'). exists p, k'. split; [done|].
    split; [done|]. intros r q Hq. unfold at_role in Hq. destruct (decide (r = role)); [|by apply (Hp r)].
    injection Hq as <-. by apply (Hp role).
  - intros ps role p k [Hk Hp] Hps. destruct (quiet_poll p k Hk (Hp role p Hps)) as (st & p' & k' & H & Hk').
    exists st, p', k'. split; [done|]. split; [done|]. intros r q Hq. unfold at_role in Hq.
    destruct (decide (r = role)); [done|by apply (Hp r)].
Qed.
End Workers.
