(* ===== verification/MasterRuns.v ===== *)
(** Runs of the master: the states a launched master reaches by its public
    operations, whatever its workers, its executor and the operating system do
    in between, and what holds in all of them. *)

From stdpp Require Import base countable strings list.
From Stdlib Require Import ZArith Lia.
From S2P Require Import Prelude Bytes Identity Catalog Transport Descriptor Channel ControlProtocol.
From S2P Require Import StatusProtocol SupervisorStatus Clock Listeners Replacement Master.
From S2P Require Import MasterFacts MasterFrame MasterEnd MasterExit.

Open Scope Z_scope.

#[local] Arguments execute_replacement_actions : simpl never.

Section Runs.
Context {E P K Fd Cmd : Type} `{!ManagedProcess P K Fd, !ActionExecutor E P K Fd}.
Context (reserve reserve_vec : Z -> bool) (factory_spawn : Cmd -> WorkerIdentity -> M K bytes P).
Implicit Types (m : Master E P Fd) (k : K) (s : Master E P Fd * K).

(** ** Calls and reachable states *)

Inductive MasterCall : Type :=
| CallPoll (inputs : WorkerRole -> result Z IoError * result (Received Fd) Z) (now : Instant)
| CallReplace (input : WorkerInput Cmd) (now : Instant)
| CallShutdown (now : Instant)
| CallState.

Definition run_call (c : MasterCall) : MM (E:=E) (P:=P) (K:=K) (Fd:=Fd) unit :=
  match c with
  | CallPoll inputs now => let! _ := poll reserve reserve_vec inputs now in mret tt
  | CallReplace input now => replace reserve factory_spawn input now
  | CallShutdown now => let! _ := shutdown reserve now in mret tt
  | CallState => let! _ := state in mret tt
  end.

(** A master is reached from a launch by calls, whatever they return; the world may
    change between calls.  [lapsed] says whether a call has returned an error that
    the operating system gives when it refuses to kill a worker. *)
Inductive reachable : bool -> Master E P Fd * K -> Prop :=
| reach_launch config listeners executor input now k m k' :
    launch_with_executor reserve factory_spawn config listeners executor input now k = (Ok m, k') ->
    reachable false (m, k')
| reach_call lapsed c s r s' :
    reachable lapsed s -> run_call c s = (r, s') ->
    (forall e, r = Err (Returned (MasterIo e)) -> ~ kill_error (P:=P) (K:=K) e) -> reachable lapsed s'
| reach_lapse lapsed c s r s' : reachable lapsed s -> run_call c s = (r, s') -> reachable true s'
| reach_world lapsed m k k' : reachable lapsed (m, k) -> reachable lapsed (m, k').

(** The errors a call returns. *)
Definition call_error (lapsed : bool) (c : MasterCall) (e : MasterError) : Prop :=
  match c, e with
  | CallState, _ => False
  | CallPoll _ _, MasterIo e => kill_error (P:=P) (K:=K) e \/ poll_error (P:=P) (K:=K) e
  | _, MasterIo e => kill_error (P:=P) (K:=K) e
  | CallPoll _ _, UnexpectedAcknowledgement => lapsed = true
  | CallPoll _ _, e => e = stuck
  | CallReplace _ _, e => replace_rejects e = true
  | CallShutdown _, e => e = DeadlineOverflow
  end.

(** An error leaves the invariant; a worker that could not be killed makes it the
    one of a run in which that has happened. *)
Definition returns (lapsed : Prop) (allowed : MasterError -> Prop) (e : MasterError) (C : Ctl) : Prop :=
  allowed e /\ master_ok True C /\
  ((forall io, e = MasterIo io -> ~ kill_error (P:=P) (K:=K) io) -> master_ok lapsed C).

Lemma returns_ok (lapsed : Prop) (allowed : MasterError -> Prop) e C :
  allowed e -> master_ok lapsed C -> returns lapsed allowed e C.
Proof. intros Ha Hok. split_and!; [done|by eapply master_ok_mono, Hok|done]. Qed.
Lemma returns_kill (lapsed : Prop) (allowed : MasterError -> Prop) e C :
  allowed (MasterIo e) -> kill_error (P:=P) (K:=K) e -> master_ok True C -> returns lapsed allowed (MasterIo e) C.
Proof. intros Ha He Hok. split_and!; [done|done|]. intros H. by destruct (H e eq_refl). Qed.

Lemma spec_discard {A} Er (Q : Ctl -> Prop) (c : MM (E:=E) (P:=P) (K:=K) (Fd:=Fd) A) C :
  spec Er c C (fun _ => Q) -> spec Er (let! _ := c in mret tt) C (fun _ => Q).
Proof.
  intros H. apply spec_bind. eapply spec_weaken; [exact H|]. intros a C' Hok. by apply spec_ret.
Qed.

Lemma call_ok (lapsed : bool) c C :
  master_ok (lapsed = true) C ->
  spec (returns (lapsed = true) (call_error lapsed c)) (run_call c) C (fun _ => master_ok (lapsed = true)).
Proof.
  intros Hok.
  assert (forall c e C, match c with CallState => False | _ => True end -> kill_error (P:=P) (K:=K) e ->
    master_ok True C -> returns (lapsed = true) (call_error lapsed c) (MasterIo e) C) as Hio.
  { intros [] e C' Hc He Hl; try done; apply returns_kill; try done. by left. }
  destruct c; cbn [run_call].
  - apply spec_discard, (poll_ok _ _ (lapsed = true)); [intros e C'; by apply Hio| | | |done].
    + intros C' Hl HC'. by apply returns_ok.
    + intros C' HC'. by apply returns_ok.
    + intros e C' He HC'. apply returns_ok; [by right|done].
  - apply (replace_ok _ reserve_vec); [intros e C'; by apply Hio|done|].
    intros e C' He HC'. apply returns_ok; [by destruct e|done].
  - apply spec_discard, (shutdown_ok _ reserve_vec); [intros e C'; by apply Hio|done|by apply returns_ok].
  - apply spec_discard. eapply spec_state; [done|]. by intros.
Qed.

Lemma launch_ok config listeners executor input now k :
  match launch_with_executor reserve factory_spawn config listeners executor input now k with
  | (Ok m, _) => master_ok False (ctl m)
  | (Err (Returned e), _) =>
      match e with MasterIo e => kill_error (P:=P) (K:=K) e | MasterSpawn _ | ProtocolVersion _ _ => True | _ => False end
  | (Err _, _) => False
  end.
Proof.
  unfold launch_with_executor. destruct (validate_identity (in_identity input)) as [[]|e] eqn:Ev.
  2: { unfold validate_identity in Ev. by case_match; simplify_eq. }
  destruct (factory_spawn (in_command input) (in_identity input) k) as [[process|message] k']; [|done].
  set (m := mkMaster _ _ _ _ _ _ _ _ _ _ _ _ _). set (start := mbind_se _ _).
  set (Er := fun (e : MasterError) (_ : Ctl) => exists io, e = MasterIo io /\ kill_error (P:=P) (K:=K) io).
  assert (spec Er start (ctl m) (fun _ => master_ok False)) as Hs.
  { assert (forall e C, kill_error (P:=P) (K:=K) e -> master_ok True C -> Er (MasterIo e) C) as Hio
      by (intros e C He _; by exists e).
    apply spec_bind. eapply spec_issue_adoption; [reflexivity|]. intros [u|e] C' Hi; cbn in Hi.
    - destruct Hi as (p & Hp & ->). by apply spec_ret, ok_adopting.
    - destruct Hi as [He ->]. apply spec_bind, spec_record_issue; [done|].
      eapply (phase_failure_ok reserve reserve_vec); [exact Hio|by apply ok_adopting|reflexivity]. }
  specialize (Hs m k' eq_refl). destruct (start (m, k')) as [[u|[e| |]] [m' k'']]; cbn; try done.
  destruct Hs as (io & -> & Hio). exact Hio.
Qed.

Lemma reachable_ok lapsed s : reachable lapsed s -> master_ok (lapsed = true) (ctl s.1).
Proof.
  induction 1 as [config listeners executor input now k m k' Hl|lapsed c [m k] r [m' k'] _ IH Hr Hio
    |lapsed c [m k] r [m' k'] _ IH Hr|]; [..|done].
  - pose proof (launch_ok config listeners executor input now k) as H. rewrite Hl in H. by eapply master_ok_mono, H.
  - pose proof (call_ok lapsed c (ctl m) IH m k eq_refl) as H. rewrite Hr in H.
    destruct r as [u|[e| |]]; [done| |done..]. destruct H as (_ & _ & H). apply H. intros io ->. by apply Hio.
  - pose proof (call_ok lapsed c (ctl m) IH m k eq_refl) as H. rewrite Hr in H.
    destruct r as [u|[e| |]]; [|destruct H as (_ & H & _)|done..]; by eapply master_ok_mono, H.
Qed.

(** ** Identities *)

(** No two workers have the same identity. *)
Definition distinct m : Prop :=
  forall role role' id, id_of m role = Some id -> id_of m role' = Some id -> role = role'.

Lemma distinct_frames m m' : frames m m' -> distinct m -> distinct m'.
Proof.
  intros F H role role' id Hr Hr'. apply (H role role' id).
  - by destruct (F role) as [<- |]; [|congruence].
  - by destruct (F role') as [<- |]; [|congruence].
Qed.

Lemma distinct_moves m m' : moves m m' -> distinct m -> distinct m'.
Proof.
  intros [F|(_ & Ha & Hc & Hr)] H; [by eapply distinct_frames|].
  intros [] [] id H1 H2; try done; try congruence.
  - pose proof (H RoleCandidate RoleActive id). destruct Ha, Hr; naive_solver congruence.
  - pose proof (H RoleCandidate RoleActive id). destruct Ha, Hr; naive_solver congruence.
Qed.

Lemma distinct_grows id m m' :
  grows id m m' -> id_of m RoleActive <> Some id -> id_of m RoleRetired <> Some id ->
  id_of m RoleCandidate = None -> distinct m -> distinct m'.
Proof.
  intros G Ha Hr Hc H.
  assert (forall role i, id_of m' role = Some i -> id_of m role = Some i \/ role = RoleCandidate /\ i = id) as G'.
  { intros role i Hi. destruct (G role) as [E'|[E'|[-> E']]]; [left; congruence|congruence|right; split; congruence]. }
  intros role role' i Hi Hi'. destruct (G' role i Hi) as [E1|[-> E1]], (G' role' i Hi') as [E2|[-> E2]].
  - by apply (H role role' i).
  - destruct role; congruence.
  - destruct role'; congruence.
  - done.
Qed.

Lemma running_shape lapsed m k :
  master_ok lapsed (ctl m) -> (state (m, k)).1 = Ok StateRunning ->
  exists s : ReplacementSupervisor, ms_supervisor m = Some s /\ id_of m RoleActive = Some (instance_id (active s)) /\
    id_of m RoleCandidate = None /\ id_of m RoleRetired = None.
Proof.
  intros Hok Hst.
  assert (spec (E:=E) (P:=P) (K:=K) (Fd:=Fd) (fun _ _ => False) state (ctl m) (fun st _ => st = StateRunning ->
    c_stage (ctl m) = Operational /\ c_supervisor (ctl m) ≫= ReplacementSupervisor_phase = Some Running)) as H.
  { apply (spec_state lapsed); [done|]. by intros st H. }
  specialize (H m k eq_refl). destruct (state (m, k)) as [[st|e] [m1 k1]]; cbn in Hst; simplify_eq.
  destruct (H eq_refl) as [Hop Hph].
  assert (id_of m RoleActive = cw_id <$> c_active (ctl m)) as -> by (unfold id_of; cbn; by destruct (ms_active m)).
  assert (id_of m RoleCandidate = cw_id <$> c_candidate (ctl m)) as -> by (unfold id_of; cbn; by destruct (ms_candidate m)).
  assert (id_of m RoleRetired = cw_id <$> c_retired (ctl m)) as -> by (unfold id_of; cbn; by destruct (ms_retired m)).
  change (ms_supervisor m) with (c_supervisor (ctl m)).
  destruct Hok as [| |C Ho|C ph Hst'|C d b Hst'|s d f st Hst']; try done; [|congruence..|cbn in Hop; by subst].
  destruct Ho as [a ga da f| | | |a ga la pa da c gc pc dc sc f Hac _ _ [[-> _]|[-> _]]| | |]; try discriminate.
  by eexists.
Qed.

Lemma call_distinct lapsed c m k : master_ok lapsed (ctl m) -> distinct m -> distinct (run_call c (m, k)).2.1.
Proof.
  intros Hok Hd. destruct c as [inputs now|input now|now|]; cbn [run_call].
  - eapply distinct_moves, Hd.
    apply (moved_bind _ (fun _ => mret tt)); [apply moved_poll|]. intros _. apply kept_moved, kept_ret.
  - destruct (replace_grows reserve factory_spawn input now m k) as [F|(G & Hst & s & Hs & Hne & _)].
    { by eapply distinct_frames. }
    destruct (running_shape lapsed m k Hok Hst) as (s' & Hs' & Ha & Hc & Hr).
    eapply distinct_grows; [exact G| |congruence|done|done]. rewrite Ha. congruence.
  - eapply distinct_frames, Hd.
    apply (kept_bind _ (fun _ => mret tt)); [apply kept_shutdown|]. intros _. apply kept_ret.
  - eapply distinct_frames, Hd. unfold mbind_se. pose proof (state_reads (m, k)) as H.
    destruct (state (m, k)) as [[st|e] [m1 k1]]; cbn in H |- *; by injection H as -> ->.
Qed.

Lemma launch_distinct config listeners executor input now k m k' :
  launch_with_executor reserve factory_spawn config listeners executor input now k = (Ok m, k') -> distinct m.
Proof.
  unfold launch_with_executor. destruct (validate_identity (in_identity input)); [|done].
  destruct (factory_spawn (in_command input) (in_identity input) k) as [[process|message] k0]; [|done].
  set (m0 := mkMaster _ _ _ _ _ _ _ _ _ _ _ _ _). set (start := mbind_se _ _).
  assert (kept (E:=E) (P:=P) (K:=K) (Fd:=Fd) start) as Hk.
  { apply kept_bind; [apply kept_attempt, kept_issue_adoption|]. intros [u|e]; [apply kept_ret|].
    apply kept_compensate. intros actions. apply kept_run. }
  specialize (Hk m0 k0). destruct (start (m0, k0)) as [r [m1 k1]]; cbn in Hk.
  destruct r; intros [= <- <-]. eapply distinct_frames; [exact Hk|].
  intros [] [] id H1 H2; by simplify_eq/=.
Qed.

Lemma reachable_distinct lapsed s : reachable lapsed s -> distinct s.1.
Proof.
  induction 1 as [config listeners executor input now k m k' Hl|lapsed c [m k] r [m' k'] Hre IH Hr Hio
    |lapsed c [m k] r [m' k'] Hre IH Hr|]; [..|done].
  - by eapply launch_distinct.
  - pose proof (call_distinct _ c m k (reachable_ok _ _ Hre) IH) as H. by rewrite Hr in H.
  - pose proof (call_distinct _ c m k (reachable_ok _ _ Hre) IH) as H. by rewrite Hr in H.
Qed.

(** Calls that all succeed. *)
Fixpoint run (calls : list MasterCall) s : option (Master E P Fd * K) :=
  match calls with
  | [] => Some s
  | c :: calls =>
      match run_call c s with
      | (Ok _, s') => run calls s'
      | _ => None
      end
  end.

Lemma run_reachable lapsed calls s s' : reachable lapsed s -> run calls s = Some s' -> reachable lapsed s'.
Proof.
  revert s. induction calls as [|c calls IH]; intros s Hs; cbn; [by intros [= <-]|].
  destruct (run_call c s) as [[u|e] s1] eqn:Ec; [|done]. apply IH. by eapply reach_call.
Qed.
End Runs.

(** ** A scripted world

    Processes that answer what they were told to when they were started: each poll
    finds the process silent, sending a frame, or exited. *)
Inductive ScriptStep : Type :=
| Silent
| Answers (id : Z) (phase : ControlPhase) (outcome : ControlOutcome)
| Garbles
| Exits (status : ExitStatus).

Definition ack_frame (id : Z) (phase : ControlPhase) (outcome : ControlOutcome) : AuthenticatedFrame unit :=
  mkAuthenticated (mkFrame (mkHeader ACK 0 0 0 0 [] 0)
    (replicate (Z.to_nat AUTH_PREFIX_SIZE) (z2b 0) ++ encode_ack id phase outcome) [] (mkPeer 0 0 0)).
Definition garbled_frame : AuthenticatedFrame unit :=
  mkAuthenticated (mkFrame (mkHeader 0 0 0 0 0 [] 0) [] [] (mkPeer 0 0 0)).

Definition script_poll : M (list ScriptStep * unit) IoError (option WorkerEvent) := fun '(p, k) =>
  match p with
  | Exits status :: _ => (Ok (Some (ProcessGroupExited status)), (p, k))
  | _ => (Ok None, (p, k))
  end.
Definition script_receive (ready : result Z IoError) (received : result (Received unit) Z) :
    M (list ScriptStep * unit) AuthenticatedChannelError (option (AuthenticatedFrame unit)) := fun '(p, k) =>
  match p with
  | Answers id phase outcome :: p => (Ok (Some (ack_frame id phase outcome)), (p, k))
  | Garbles :: p => (Ok (Some garbled_frame), (p, k))
  | _ :: p => (Ok None, (p, k))
  | [] => (Ok None, (p, k))
  end.

#[export] Instance script_process : ManagedProcess (list ScriptStep) unit unit := {|
  process_poll_event := script_poll;
  process_try_receive := script_receive;
  process_send _ _ _ _ := mret 0;
  process_request_kill := mret tt;
|}.
#[export] Instance script_executor : ActionExecutor unit (list ScriptStep) unit unit := {|
  prepare _ _ _ := mret tt;
  duplicate_listeners _ _ := mret [];
  send_request _ _ _ _ := mret tt;
|}.

Definition script_spawn (command : list ScriptStep) (identity : WorkerIdentity) : M unit bytes (list ScriptStep) :=
  mret command.

Definition script_config : MasterConfig :=
  mkConfig NANOS_PER_SEC NANOS_PER_SEC NANOS_PER_SEC NANOS_PER_SEC NANOS_PER_SEC.
Definition script_input (name : bytes) (generation : GenerationId) (script : list ScriptStep) :
    WorkerInput (list ScriptStep) :=
  mkInput (mkInstanceId (mkBoundedString name)) (mkIdentity [] generation CONTROL_PROTOCOL_VERSION) script.

Definition script_launch (script : list ScriptStep) :=
  launch_with_executor (fun _ => true) script_spawn script_config (mkListeners (mkManifest []) []) tt
    (script_input (lit "a") 1 script) 0 tt.

(** Polls at a time when no deadline has passed. *)
Definition script_poll_call : MasterCall (Fd := unit) (Cmd := list ScriptStep) :=
  CallPoll (fun _ => (Ok 0, Err 0)) 1.

(** The master after a launch and calls that succeed. *)
Definition script_run (script : list ScriptStep) (calls : list MasterCall) :
    option (Master unit (list ScriptStep) unit * unit) :=
  match script_launch script with
  | (Ok m, k) => run (fun _ => true) (fun _ => true) script_spawn calls (m, k)
  | _ => None
  end.

(** A worker that starts, serves and quiesces when a candidate has come. *)
Definition script_active : list ScriptStep :=
  [Answers 1 ControlProtocol.AdoptListeners Accepted; Answers 2 ControlProtocol.Activate Accepted;
   Silent; Answers 4 ControlProtocol.Quiesce Accepted].

Definition replacing (candidate : list ScriptStep) (polls : nat) : list MasterCall :=
  [script_poll_call; script_poll_call; CallReplace (script_input (lit "b") 2 candidate) 1] ++
  replicate polls script_poll_call.

(** ** What holds in every run *)

Section Properties.
Context {E P K Fd Cmd : Type} `{!ManagedProcess P K Fd, !ActionExecutor E P K Fd}.
Context (reserve reserve_vec : Z -> bool) (factory_spawn : Cmd -> WorkerIdentity -> M K bytes P).
Implicit Types (m : Master E P Fd) (k : K).

(** The workers are those the supervisor tracks, and the active one serves. *)
Definition workers_agree m : Prop :=
  exists (s : ReplacementSupervisor) (w : ManagedWorker P),
    ms_supervisor m = Some s /\ ms_active m = Some w /\ w_state w = WorkerRunning /\
    w_instance_id w = instance_id (active s) /\ w_generation w = generation_id (active s) /\
    (w_instance_id <$> ms_candidate m) = (instance_id <$> candidate s) /\
    (w_instance_id <$> ms_retired m) = (instance_id <$> retired s) /\
    (ms_candidate m = None \/ ms_retired m = None).

Lemma operational_agree lapsed m : operational lapsed (ctl m) -> workers_agree m.
Proof.
  intros Ho. destruct m as [cfg ls ex s a c r de f st rid ev h]. unfold ctl in Ho. cbn in Ho.
  inversion Ho; subst; destruct a as [[]|], c as [[]|], r as [[]|]; unfold cw_of in *; simplify_eq/=;
    (do 2 eexists; split_and!; [done..|]); auto.
Qed.

Lemma ok_stage (lapsed : Prop) C :
  master_ok lapsed C ->
  match c_stage C with
  | Operational => operational lapsed C
  | Failing _ => all_idle C \/ lapsed
  | StageStopped _ | StageFailed => no_workers C
  | _ => c_supervisor C = None
  end.
Proof.
  destruct 1 as [| |C Ho|C ph Hst Hi|C d b Hst Hs|s df f st Hst]; try done.
  - by destruct Ho; cbn; constructor.
  - by rewrite Hst.
  - by rewrite Hst.
  - destruct st; try done; by intros [].
Qed.

(** C1: in every state a launched master reaches by polling, replacing and shutting
    down, also after calls that returned errors of the operating system, no two
    workers share an identity; while it operates, the active worker runs, the three
    roles are held by exactly the instances the replacement supervisor tracks, and
    never by three workers at once; a master that fails closed waits for no
    acknowledgement, unless the operating system has refused to kill a worker; an
    ended master has no worker left. *)
Theorem master_invariant lapsed m k :
  reachable reserve reserve_vec factory_spawn lapsed (m, k) ->
  distinct m /\
  match ms_stage m with
  | Operational => workers_agree m
  | Failing _ => lapsed = false -> forall role w, worker m role = Some w -> w_pending w = None
  | StageStopped _ | StageFailed => worker_count m = 0
  | _ => ms_supervisor m = None
  end.
Proof.
  intros Hr. split; [by eapply (reachable_distinct _ _ _ _ _ Hr)|].
  pose proof (ok_stage _ _ (reachable_ok _ _ _ _ _ Hr)) as Hok. cbn in Hok.
  destruct (ms_stage m); try done.
  - by eapply operational_agree.
  - intros -> role w Hw. destruct Hok as [Hok|Hok]; [|done]. apply (Hok role (cw_of w)). by rewrite ctl_worker, Hw.
  - by apply Z.eqb_eq, worker_count_zero.
  - by apply Z.eqb_eq, worker_count_zero.
Qed.


(** C4: the active worker changes only by an activation: handling what was observed
    of a worker leaves every role with the worker it had or with none, unless the
    candidate accepts the activation it was asked for while it is being activated;
    then the candidate at most takes over from the active worker, which retires. *)
Theorem switch_only_by_activation role (o : Observation) now m k :
  let m' := (handle_observation reserve role o now (m, k)).2.1 in
  moves m m' /\ (~ activation_acknowledged m role o -> frames m m').
Proof.
  split; [exact (moved_observation reserve role o now m k)|exact (observation_frames reserve role o now m k)].
Qed.

(** When a poll puts another worker in charge, it is the candidate of before:
    the candidate's place is empty then and the worker it replaced, if it is still
    there, is the retired one. *)
Theorem poll_switches_to_candidate inputs now m k events m' k' id :
  poll reserve reserve_vec inputs now (m, k) = (Ok events, (m', k')) ->
  id_of m' RoleActive = Some id -> id_of m RoleActive <> Some id ->
  id_of m RoleCandidate = Some id /\ id_of m' RoleCandidate = None /\
  (id_of m' RoleRetired = id_of m RoleActive \/ id_of m' RoleRetired = None).
Proof.
  intros Hp Hid Hne. pose proof (moved_poll reserve reserve_vec inputs now m k) as H. rewrite Hp in H.
  destruct H as [F|(_ & Ha & Hc & Hr)]; [destruct (F RoleActive); cbn in *; congruence|]. cbn in *.
  split_and!; [destruct Ha; congruence|done|done].
Qed.
End Properties.

(** ** Ending *)

Section Ends.
Context {E P K Fd Cmd : Type} `{!ManagedProcess P K Fd, !ActionExecutor E P K Fd}.
Context (reserve reserve_vec : Z -> bool) (factory_spawn : Cmd -> WorkerIdentity -> M K bytes P).

Lemma distinct_ctl (m : Master E P Fd) : distinct m -> c_distinct (ctl m).
Proof.
  intros H role role' w w' Hw Hw' Hid. rewrite ctl_worker in Hw, Hw'.
  apply (H role role' (cw_id w)); unfold id_of.
  - destruct (worker m role); simplify_eq/=. done.
  - destruct (worker m role'); simplify_eq/=. by rewrite Hid.
Qed.

Lemma spec_run {A} (c : MM (E:=E) (P:=P) (K:=K) (Fd:=Fd) A) m k (Q : A -> Ctl -> Prop) :
  spec never c (ctl m) Q -> exists a m' k', c (m, k) = (Ok a, (m', k')) /\ Q a (ctl m').
Proof.
  intros H. specialize (H m k eq_refl). destruct (c (m, k)) as [[a|[]] [m' k']]; try done. by exists a, m', k'.
Qed.

Lemma reachable_shutting lapsed m k d b :
  reachable reserve reserve_vec factory_spawn lapsed (m, k) -> ms_stage m = ShuttingDown d b -> shutting (ctl m).
Proof.
  intros Hr Hst. pose proof (reachable_ok _ _ _ _ _ Hr) as Hok. cbn [fst] in Hok.
  pose proof (distinct_ctl m (reachable_distinct _ _ _ _ _ Hr)) as Hd.
  remember (ctl m) as C eqn:HC. assert (c_stage C = ShuttingDown d b) as HsC by (by rewrite HC).
  pose proof (master_workers _ C Hok) as Hw.
  destruct Hok as [| |C Ho|C ph Hst'|C d' b' Hst' Hsup Hdef|s df f st Hst']; try done; [by destruct Ho|congruence| |].
  - by split_and!; [exists d, b|..].
  - cbn in HsC. by subst st.
Qed.

Lemma reachable_failing lapsed m k phase :
  reachable reserve reserve_vec factory_spawn lapsed (m, k) -> ms_stage m = Failing phase -> failing (ctl m).
Proof.
  intros Hr Hst. pose proof (reachable_ok _ _ _ _ _ Hr) as Hok.
  split_and!; [by exists phase|by eapply master_workers|by eapply master_readable|].
  apply distinct_ctl, (reachable_distinct _ _ _ _ _ Hr).
Qed.

Lemma almost_failed_live (exited : (WorkerRole -> option P) -> K -> Prop) `{!Exiting exited} (m : Master E P Fd) k :
  almost_failed (ctl m) -> exited none k -> waiting exited fails m k /\ c_distinct (ctl m).
Proof.
  intros (((ph & Hst) & _ & _ & Hd) & Hdef & Hc & Hr) Hx. cbn in *. split; [|done]. split; [|by exists ph].
  eapply exiting_fewer; [exact Hx|]. intros role. right. unfold live.
  destruct role; cbn; [by destruct (ms_deferred_active_exit m)|by destruct (ms_candidate m)|by destruct (ms_retired m)].
Qed.

End Ends.

(** ** Two defects *)

Section Defects.
Context {E P K Fd Cmd : Type} `{!ManagedProcess P K Fd, !ActionExecutor E P K Fd}.
Context (reserve reserve_vec : Z -> bool) (factory_spawn : Cmd -> WorkerIdentity -> M K bytes P).
Context (Hos : forall e, ~ kill_error (P := P) (K := K) e).
Implicit Types (m : Master E P Fd) (k : K).

Lemma reachable_operational lapsed m k :
  reachable reserve reserve_vec factory_spawn lapsed (m, k) -> ms_stage m = Operational ->
  operational (lapsed = true) (ctl m).
Proof.
  intros Hr Hst. pose proof (ok_stage _ _ (reachable_ok _ _ _ _ _ Hr)) as H. cbn in H. by rewrite Hst in H.
Qed.

(** A candidate that exits while it is being activated, after the exit of the
    active worker was put off, makes the master return an error: it has failed
    closed by then, and still tells the supervisor that the candidate stopped,
    which the supervisor refuses since no rollback was begun. *)
Theorem candidate_exit_after_deferred_exit lapsed m k exit status now :
  reachable reserve reserve_vec factory_spawn lapsed (m, k) -> ms_stage m = Operational ->
  ms_deferred_active_exit m = Some exit ->
  (handle_exit reserve RoleCandidate status now (m, k)).1 = Err (Returned stuck).
Proof.
  intros Hr Hst Hd. pose proof (reachable_operational lapsed m k Hr Hst) as Ho.
  assert (spec (E:=E) (P:=P) (K:=K) (Fd:=Fd) (fun e _ => e = stuck)
    (handle_exit reserve RoleCandidate status now) (ctl m) (fun _ _ => False)) as H.
  { change (ms_deferred_active_exit m) with (c_deferred (ctl m)) in Hd. clear Hr Hst.
    destruct Ho as [| | |a ga da c gc pc dc d f Hac Hp| | | |]; simplify_eq/=.
    eapply (spec_exit _ _ _ _ _ _ (Some ActivatingCandidate)); [done|by eexists|by intros _ [=]|]. intros _.
    unfold exit_handled. apply spec_bind. apply spec_bind, spec_deferred. cbn beta iota.
    apply spec_fail_master; [|workers|done|]; [intros C' _ e He; by destruct (Hos e)|]. cbn.
    apply spec_bind, spec_take. cbn. eapply spec_bind, (spec_stuck _ reserve_vec True); [done|done|].
    eapply ok_failing; [done|by right|workers|by exists ActivatingCandidate]. }
  specialize (H m k eq_refl). destruct (handle_exit _ _ _ _ (m, k)) as [[u|[e| |]] [m' k']]; cbn; try done.
  by rewrite H.
Qed.

(** A frame that cannot be decoded, from a candidate that is being stopped after
    it failed, takes the service down: the master fails closed and kills the active
    worker, which serves.  (A lost connection of that candidate is ignored.) *)
Theorem stopping_candidate_fails_master lapsed m k now s worker :
  reachable reserve reserve_vec factory_spawn lapsed (m, k) -> ms_stage m = Operational ->
  ms_supervisor m = Some s -> ReplacementSupervisor_phase s = Some RollingBack -> ms_candidate m = Some worker ->
  exists m' k' wa, handle_observation reserve RoleCandidate ObservedProtocolFailure now (m, k) = (Ok tt, (m', k')) /\
    ms_stage m' = Failing FailProtocol /\ ms_active m' = Some wa /\ w_state wa = Terminating true.
Proof.
  intros Hr Hst Hs Hph Hc. pose proof (reachable_operational lapsed m k Hr Hst) as Ho.
  assert (spec (E:=E) (P:=P) (K:=K) (Fd:=Fd) never (handle_observation reserve RoleCandidate ObservedProtocolFailure now)
    (ctl m) (fun _ C' => c_stage C' = Failing FailProtocol /\ exists wa, c_active C' = Some wa /\ cw_state wa = Terminating true)) as H.
  { assert (c_candidate (ctl m) = Some (cw_of worker)) as Hcw by (cbn; by rewrite Hc).
    change (ms_supervisor m) with (c_supervisor (ctl m)) in Hs. clear Hr Hst Hc.
    destruct Ho as [| | | |a ga la pa da c gc pc dc sc f Hac Hpc Hk Hl| | |]; simplify_eq/=.
    eapply spec_handle_failure; [done|done|]. cbn beta iota.
    apply spec_fail_master; [|workers|done|]; [intros C' _ e He; by destruct (Hos e)|]. cbn. eauto. }
  destruct (spec_run _ m k _ H) as ([] & m' & k' & Hm' & Hst' & wa & Hwa & Hwst).
  cbn in Hst', Hwa. destruct (ms_active m') as [wa'|] eqn:Ha; [|done]. exists m', k', wa'.
  injection Hwa as <-. done.
Qed.
End Defects.

(** ** Witnesses *)

Abbreviation script_reachable_from :=
  (reachable (fun _ => true) (fun _ => true) script_spawn false).

Lemma script_reachable script calls s : script_run script calls = Some s -> script_reachable_from s.
Proof.
  unfold script_run, script_launch. destruct (launch_with_executor _ _ _ _ _ _ _ _) as [[m|e] k] eqn:E; [|done].
  intros Hr. eapply run_reachable; [|exact Hr]. by eapply reach_launch.
Qed.

Lemma script_no_io e : ~ kill_error (P := list ScriptStep) (K := unit) e.
Proof. by intros [[p k] H]. Qed.

(** A candidate that adopts the listeners, then one that goes on to serve. *)
Definition script_adopts : list ScriptStep := [Answers 3 ControlProtocol.AdoptListeners Accepted; Silent].
Definition script_serves : list ScriptStep := script_adopts ++ [Answers 5 ControlProtocol.Activate Accepted].

(** What a scripted run has come to. *)
Definition script_at {A} (f : Master unit (list ScriptStep) unit -> A) (script : list ScriptStep)
    (calls : list MasterCall) : option A := (fun s => f s.1) <$> script_run script calls.

Lemma script_at_run {A} (f : Master unit (list ScriptStep) unit -> A) script calls s a :
  script_run script calls = Some s -> script_at f script calls = Some a -> f s.1 = a.
Proof. unfold script_at. intros ->. by intros [= <-]. Qed.

(** In the drain of the replaced worker. *)
Lemma master_invariant_witness :
  exists m k, script_run script_active (replacing script_serves 3) = Some (m, k) /\
    id_of m RoleRetired = Some (mkInstanceId (mkBoundedString (lit "a"))) /\ distinct m /\ workers_agree m.
Proof.
  destruct (script_run script_active (replacing script_serves 3)) as [[m k]|] eqn:Hrun;
    [|vm_compute in Hrun; discriminate].
  pose proof (script_at_run ms_stage _ _ _ Operational Hrun ltac:(by vm_compute)) as Hst.
  pose proof (script_at_run (fun m => id_of m RoleRetired) _ _ _ (Some (mkInstanceId (mkBoundedString (lit "a")))) Hrun
    ltac:(by vm_compute)) as Hid.
  destruct (master_invariant _ _ _ false m k (script_reachable _ _ _ Hrun)) as [Hd Hw]. cbn in Hst. rewrite Hst in Hw.
  exists m, k. exact (conj eq_refl (conj Hid (conj Hd Hw))).
Defined.


(** The poll that activates the candidate. *)
Lemma poll_switches_to_candidate_witness :
  exists m k events m' k',
    script_run script_active (replacing script_serves 2) = Some (m, k) /\
    poll (fun _ => true) (fun _ => true) (fun _ => (Ok 0, Err 0)) 1 (m, k) = (Ok events, (m', k')) /\
    id_of m RoleCandidate = Some (mkInstanceId (mkBoundedString (lit "b"))) /\ id_of m' RoleCandidate = None.
Proof.
  destruct (script_run script_active (replacing script_serves 2)) as [[m []]|] eqn:Hrun;
    [|vm_compute in Hrun; discriminate].
  set (p := poll (fun _ => true) (fun _ => true) (fun _ => (Ok 0, Err 0)) 1).
  destruct (p (m, tt)) as [[events|e] [m' k']] eqn:Hp.
  2: { pose proof (script_at_run (fun m => match (p (m, tt)).1 with Ok _ => true | Err _ => false end) _ _ _ true Hrun
         ltac:(by vm_compute)) as H. cbn [fst] in H. by rewrite Hp in H. }
  set (b := mkInstanceId (mkBoundedString (lit "b"))).
  pose proof (script_at_run (fun m => id_of (p (m, tt)).2.1 RoleActive) _ _ _ (Some b) Hrun ltac:(by vm_compute)) as Hb.
  pose proof (script_at_run (fun m => id_of m RoleActive) _ _ _ (Some (mkInstanceId (mkBoundedString (lit "a")))) Hrun
    ltac:(by vm_compute)) as Ha.
  cbn [fst] in Hb, Ha. rewrite Hp in Hb. cbn in Hb.
  destruct (poll_switches_to_candidate (fun _ => true) (fun _ => true) _ _ m tt events m' k' b Hp Hb) as (Hc & Hn & _).
  { rewrite Ha. intros [=]. }
  exists m, tt, events, m', k'. exact (conj eq_refl (conj Hp (conj Hc Hn))).
Defined.

(** The worker processes of the repository in a world in which they all run or all
    have exited. *)
#[export] Instance two_state_os : ProcessOs bool unit unit := {|
  try_wait _ := fun gone => (Ok (if gone : bool then Some 0 else None), gone);
  child_wait _ := mret 0;
  kill_process_group _ _ := mret tt;
  cgroup_kill _ := mret tt;
  cgroup_cleanup _ := mret true;
  submit_cgroup_to_reaper _ gone := gone;
  submit_to_reaper _ _ gone := gone;
|}.
Lemma two_state_quiet : quiet_os (fun gone => gone = true).
Proof.
  split; try done.
  - intros child k ->. by exists 0, true.
  - intros pgid signal k ->. exists (Ok tt), true. auto.
  - intros cgroup k ->. by exists true.
Qed.
Definition two_state_process : ManagedProcess (WorkerProcess unit unit) bool unit :=
  worker_process (fun _ _ => Ok 0) (fun _ => true) (fun _ => Ok 0) (fun _ _ => Ok tt).
Definition two_state_executor : ActionExecutor unit (WorkerProcess unit unit) bool unit := {|
  prepare _ _ _ := mret tt;
  duplicate_listeners _ _ := mret [];
  send_request _ _ _ _ := mret tt;
|}.
Definition two_state_spawn (command : unit) (identity : WorkerIdentity) : M bool bytes (WorkerProcess unit unit) :=
  mret (mkWorkerProcess 7 7 (LeaderState_new tt 7 None) None identity []).
Definition two_state_launch :=
  @launch_with_executor _ _ _ _ two_state_process two_state_executor (fun _ => true) _ two_state_spawn script_config
    (mkListeners (mkManifest []) []) tt
    (mkInput (mkInstanceId (mkBoundedString (lit "a"))) (mkIdentity [] 1 CONTROL_PROTOCOL_VERSION) tt) 0 false.

Abbreviation two_state_call :=
  (@run_call _ _ _ _ _ two_state_process two_state_executor (fun _ => true) (fun _ => true) two_state_spawn).

(** The master after its launch and a shutdown. *)
Definition two_state_shutdown : option (Master unit (WorkerProcess unit unit) unit * bool) :=
  match two_state_launch with
  | (Ok m, k) => match two_state_call (CallShutdown 1) (m, k) with (Ok _, s) => Some s | _ => None end
  | _ => None
  end.

Lemma two_state_reachable s :
  two_state_shutdown = Some s ->
  @reachable _ _ _ _ _ two_state_process two_state_executor (fun _ => true) (fun _ => true) two_state_spawn false s.
Proof.
  unfold two_state_shutdown. destruct two_state_launch as [[m|e] k] eqn:Hl; [|done].
  destruct (two_state_call (CallShutdown 1) (m, k)) as [[u|e] s'] eqn:Hc; [|done]. intros [= <-].
  eapply reach_call; [by eapply reach_launch|exact Hc|done].
Qed.

(** The stage and what the leaders of the workers know of their exits. *)
Definition two_state_view (m : Master unit (WorkerProcess unit unit) unit) :=
  (ms_stage m, ms_deferred_active_exit m,
   (fun role => (fun w => (l_event_reported (leader (w_process w)), l_child (leader (w_process w)))) <$> worker m role) <$> all_roles).


Lemma candidate_exit_after_deferred_exit_witness :
  exists m, script_run (script_active ++ [Exits 9]) (replacing (script_adopts ++ [Silent; Exits 1]) 3) = Some (m, tt) /\
    (handle_exit (fun _ => true) RoleCandidate 1 1 (m, tt)).1 = Err (Returned stuck).
Proof.
  destruct (script_run (script_active ++ [Exits 9]) (replacing (script_adopts ++ [Silent; Exits 1]) 3))
    as [[m []]|] eqn:Hrun; [|vm_compute in Hrun; discriminate].
  exists m. split; [done|].
  exact (candidate_exit_after_deferred_exit _ _ _ script_no_io false m tt 9 1 1 (script_reachable _ _ _ Hrun)
    (script_at_run ms_stage _ _ _ Operational Hrun ltac:(by vm_compute))
    (script_at_run ms_deferred_active_exit _ _ _ (Some 9) Hrun ltac:(by vm_compute))).
Defined.

Definition script_phase (m : Master unit (list ScriptStep) unit) : option ReplacementPhase :=
  ms_supervisor m ≫= ReplacementSupervisor_phase.

(** The candidate answers its adoption with a frame that cannot be decoded, is told
    to stop, and sends another. *)
Lemma stopping_candidate_fails_master_witness :
  exists m m' k' wa, script_run script_active (replacing [Garbles; Garbles] 1) = Some (m, tt) /\
    handle_observation (fun _ => true) RoleCandidate ObservedProtocolFailure 1 (m, tt) = (Ok tt, (m', k')) /\
    ms_stage m' = Failing FailProtocol /\ ms_active m' = Some wa /\ w_state wa = Terminating true.
Proof.
  destruct (script_run script_active (replacing [Garbles; Garbles] 1)) as [[m []]|] eqn:Hrun;
    [|vm_compute in Hrun; discriminate].
  pose proof (script_at_run ms_stage _ _ _ Operational Hrun ltac:(by vm_compute)) as Hst.
  pose proof (script_at_run script_phase _ _ _ (Some RollingBack) Hrun ltac:(by vm_compute)) as Hph.
  pose proof (script_at_run (fun m => match ms_candidate m with Some _ => true | None => false end) _ _ _ true Hrun ltac:(by vm_compute)) as Hc.
  unfold script_phase in Hph. cbn [fst] in Hst, Hph, Hc. destruct (ms_supervisor m) as [s|] eqn:Hs; [|discriminate].
  destruct (ms_candidate m) as [w|] eqn:Hw; [|discriminate].
  destruct (stopping_candidate_fails_master _ _ _ script_no_io false m tt 1 s w (script_reachable _ _ _ Hrun) Hst Hs Hph Hw)
    as (m' & k' & wa & H).
  exists m, m', k', wa. exact (conj eq_refl H).
Defined.
