(* ===== verification/Http.v ===== *)
(** What the HTTP code shares: optional-whitespace trimming
    ([oxiroute-cache/src/http.rs]), decimal numbers, and the interface to the
    [http] and [httpdate] crates.  A [HeaderMap] is an abstract type of the
    class [HeaderMap] with the documented behaviour as [HeaderMapLaws];
    [HeaderName], [HeaderValue] and [Method] are represented by their bytes, a
    [StatusCode] by its number.  The association list at the end implements
    the interface for concrete evaluations. *)

From stdpp Require Import base list sets strings.
From Stdlib Require Import ZArith Lia Strings.Byte.
From S2P Require Import Prelude Bytes Order.

Open Scope Z_scope.

(** ** [trim_ows] *)

(** A space or a horizontal tab. *)
Definition is_ows (b : byte) : bool := Byte.eqb b x20 || Byte.eqb b x09.

Fixpoint trim_start (s : bytes) : bytes :=
  match s with
  | b :: s' => if is_ows b then trim_start s' else s
  | [] => []
  end.

Definition trim_end (s : bytes) : bytes := rev (trim_start (rev s)).

Definition trim_ows (value : bytes) : bytes := trim_end (trim_start value).

(** Text that starts and ends with something else than optional whitespace. *)
Definition trimmed (s : bytes) : Prop :=
  (forall b, head s = Some b -> is_ows b = false) /\ (forall b, last s = Some b -> is_ows b = false).

Lemma trim_start_pad ws s : Forall (fun b => is_ows b = true) ws -> trim_start (ws ++ s) = trim_start s.
Proof. induction 1 as [|b ws Hb _ IH]; simpl; [done|]. by rewrite Hb. Qed.

Lemma trim_start_id s : (forall b, head s = Some b -> is_ows b = false) -> trim_start s = s.
Proof. destruct s as [|b s]; simpl; [done|]. intros H. by rewrite (H b). Qed.

Lemma trim_start_split s :
  exists ws, Forall (fun b => is_ows b = true) ws /\ s = ws ++ trim_start s /\
             (forall b, head (trim_start s) = Some b -> is_ows b = false).
Proof.
  induction s as [|b s (ws & Hws & Hs & Hh)]; [by exists []|]. simpl.
  destruct (is_ows b) eqn:E.
  - exists (b :: ws). split; [by constructor|]. split; [|done]. by rewrite Hs at 1.
  - exists []. split; [done|]. split; [done|]. simpl. intros ? [= <-]. done.
Qed.

Lemma trim_ows_pad ws s ws' :
  Forall (fun b => is_ows b = true) ws -> Forall (fun b => is_ows b = true) ws' ->
  trimmed s -> trim_ows (ws ++ s ++ ws') = s.
Proof.
  intros Hws Hws' [Hh Hl]. unfold trim_ows. rewrite trim_start_pad by done.
  destruct (decide (s = [])) as [->|Hne].
  { simpl. rewrite <- (app_nil_r ws'), trim_start_pad by done. done. }
  rewrite trim_start_id by (destruct s; naive_solver).
  unfold trim_end. rewrite rev_app_distr, trim_start_pad by by apply Forall_rev.
  rewrite trim_start_id, rev_involutive; [done|]. intros b Hb. apply Hl.
  rewrite <- (rev_involutive s). destruct (rev s); simpl in *; simplify_eq. by rewrite last_snoc.
Qed.

Lemma trim_ows_id s : trimmed s -> trim_ows s = s.
Proof.
  intros. rewrite <- (app_nil_r s) at 1. by apply (trim_ows_pad [] s []).
Qed.

Lemma head_rev {A} (s : list A) : head (rev s) = last s.
Proof. induction s as [|x s _] using rev_ind; [done|]. by rewrite rev_app_distr, last_snoc. Qed.

Lemma trim_ows_split s :
  exists ws ws', Forall (fun b => is_ows b = true) ws /\ Forall (fun b => is_ows b = true) ws' /\
                 s = ws ++ trim_ows s ++ ws' /\ trimmed (trim_ows s).
Proof.
  destruct (trim_start_split s) as (ws & Hws & Hs & Hh).
  destruct (trim_start_split (rev (trim_start s))) as (ws' & Hws' & Hs' & Hh').
  assert (trim_start s = trim_ows s ++ rev ws') as E.
  { unfold trim_ows, trim_end. by rewrite <- rev_app_distr, <- Hs', rev_involutive. }
  exists ws, (rev ws'). split_and!; [done|by apply Forall_rev|by rewrite <- E|].
  split.
  - intros b Hb. apply Hh. rewrite E. by destruct (trim_ows s).
  - intros b. unfold trim_ows, trim_end. rewrite <- head_rev, rev_involutive. apply Hh'.
Qed.

Lemma trim_ows_trimmed s : trimmed (trim_ows s).
Proof. by destruct (trim_ows_split s) as (? & ? & ? & ? & ? & ?). Qed.

(** Joins pieces with a separator. *)
Fixpoint join (sep : bytes) (l : list bytes) : bytes :=
  match l with
  | [] => []
  | [x] => x
  | x :: l => x ++ sep ++ join sep l
  end.

Lemma join_cons sep x l : l <> [] -> join sep (x :: l) = x ++ sep ++ join sep l.
Proof. by destruct l. Qed.

Lemma split_piece c x s : Forall (fun b => b <> c) x -> split c (x ++ c :: s) = x :: split c s.
Proof.
  induction 1 as [|b x Hb _ IH]; simpl; [by rewrite (proj2 (byte_eqb_true c c))|].
  rewrite byte_eqb_spec, bool_decide_eq_false_2 by done. by rewrite IH.
Qed.

Lemma split_last c x : Forall (fun b => b <> c) x -> split c x = [x].
Proof.
  induction 1 as [|b x Hb _ IH]; simpl; [done|].
  rewrite byte_eqb_spec, bool_decide_eq_false_2 by done. by rewrite IH.
Qed.

(** Splitting at a separator that the pieces do not contain undoes the joining. *)
Lemma split_join c l : Forall (Forall (fun b => b <> c)) l -> l <> [] -> split c (join [c] l) = l.
Proof.
  induction 1 as [|x l Hx Hl IH]; [done|]. intros _. destruct l as [|y l]; [by apply split_last|].
  rewrite join_cons by done. cbn [app]. rewrite split_piece by done. by rewrite IH.
Qed.

Lemma split_once_skip c s t :
  Forall (fun b => b <> c) s ->
  split_once c (s ++ c :: t) = Some (s, t) /\ split_once c s = None.
Proof.
  induction 1 as [|b s Hb _ [IH1 IH2]]; simpl.
  - by rewrite Byte.byte_dec_lb.
  - destruct (Byte.eqb b c) eqn:E; [by apply Byte.byte_dec_bl in E|]. by rewrite IH1, IH2.
Qed.

Lemma rsplit_once_last c s t :
  Forall (fun b => b <> c) t -> rsplit_once c (s ++ c :: t) = Some (s, t).
Proof.
  intros H. unfold rsplit_once. rewrite rev_app_distr. cbn [rev]. rewrite <- app_assoc. cbn [app].
  rewrite (proj1 (split_once_skip c (rev t) (rev s) (Forall_rev H))). by rewrite !rev_involutive.
Qed.

(** ** Decimal numbers: [u64::to_string] *)

Fixpoint dec_rev (fuel : nat) (z : Z) : bytes :=
  match fuel with
  | O => []
  | S fuel => z2b (48 + z mod 10) :: (if z <? 10 then [] else dec_rev fuel (z / 10))
  end.

(** One digit for each doubling is more than enough. *)
Definition dec_string (z : Z) : bytes := rev (dec_rev (S (Z.to_nat (Z.log2 z))) z).

Definition digit_value (b : byte) : Z := b2z b - 48.
Definition dec_value (s : bytes) : Z := foldl (fun acc b => acc * 10 + digit_value b) 0 s.

Lemma b2z_digit z : 0 <= z < 10 -> b2z (z2b (48 + z)) = 48 + z.
Proof. intros. rewrite b2z_z2b, Z.mod_small; lia. Qed.

Lemma dec_value_snoc s b : dec_value (s ++ [b]) = dec_value s * 10 + digit_value b.
Proof. unfold dec_value. by rewrite foldl_app. Qed.

Lemma dec_rev_value n z : 0 <= z < 2 ^ Z.of_nat n -> dec_value (rev (dec_rev n z)) = z.
Proof.
  revert z; induction n as [|n IH]; intros z Hz; [simpl in *; unfold dec_value; simpl; lia|].
  pose proof (Z.mod_pos_bound z 10 ltac:(lia)).
  cbn [dec_rev rev]. rewrite dec_value_snoc. unfold digit_value. rewrite b2z_digit by lia.
  destruct (Z.ltb_spec z 10).
  - unfold dec_value; simpl. rewrite Z.mod_small; lia.
  - rewrite IH; [rewrite (Z.div_mod z 10) at 3; lia|].
    rewrite Nat2Z.inj_succ, Z.pow_succ_r in Hz by lia. split; [apply Z.div_pos; lia|].
    apply Z.div_lt_upper_bound; lia.
Qed.

Lemma dec_rev_digits n z : 0 <= z -> Forall (fun b => is_ascii_digit b = true) (dec_rev n z).
Proof.
  revert z; induction n as [|n IH]; intros z Hz; simpl; [done|].
  pose proof (Z.mod_pos_bound z 10 ltac:(lia)).
  constructor; [|destruct (z <? 10); [done|apply IH, Z.div_pos; lia]].
  unfold is_ascii_digit, in_range. rewrite b2z_digit by lia. lia.
Qed.

Lemma dec_string_value z : 0 <= z -> dec_value (dec_string z) = z.
Proof.
  intros. apply dec_rev_value. split; [done|].
  rewrite Nat2Z.inj_succ, Z2Nat.id by apply Z.log2_nonneg.
  destruct (decide (z = 0)) as [->|]; [done|]. apply Z.log2_spec. lia.
Qed.

Lemma dec_string_digits z : 0 <= z -> Forall (fun b => is_ascii_digit b = true) (dec_string z).
Proof. intros. by apply Forall_rev, dec_rev_digits. Qed.

Lemma dec_string_nonempty z : dec_string z <> [].
Proof. unfold dec_string. simpl. by destruct (rev _). Qed.

Lemma digit_value_range b : is_ascii_digit b = true -> 0 <= digit_value b <= 9.
Proof. unfold is_ascii_digit, in_range, digit_value. intros. bool_inv. lia. Qed.

(** [str::parse] of an unsigned integer: an optional plus sign and digits within
    the width. *)
Definition parse_uint (max : Z) (s : bytes) : option Z :=
  let digits := match s with x :: s' => if bool_decide (x = z2b 43) then s' else s | [] => [] end in
  if bool_decide (digits <> []) && forallb is_ascii_digit digits && (dec_value digits <=? max)
  then Some (dec_value digits) else None.

Lemma dec_value_nonneg s : Forall (fun b => is_ascii_digit b = true) s -> 0 <= dec_value s.
Proof.
  induction s as [|b s IH] using rev_ind; intros H; [done|].
  rewrite dec_value_snoc. apply Forall_app in H as [Hs [Hb _]%Forall_cons].
  apply digit_value_range in Hb. specialize (IH Hs). lia.
Qed.

Lemma parse_uint_range max s n : parse_uint max s = Some n -> 0 <= n <= max.
Proof.
  unfold parse_uint. intros H.
  destruct (_ && _ && _) eqn:E in H; [|done]. injection H as <-. bool_inv. split; [|lia].
  apply dec_value_nonneg. apply forallb_Forall. done.
Qed.

Lemma parse_uint_dec max n : 0 <= n <= max -> parse_uint max (dec_string n) = Some n.
Proof.
  intros Hn. unfold parse_uint.
  pose proof (dec_string_digits n ltac:(lia)) as Hd. pose proof (dec_string_nonempty n) as He.
  assert (match dec_string n with
    | x :: s' => if bool_decide (x = z2b 43) then s' else dec_string n | [] => [] end = dec_string n) as ->.
  { destruct (dec_string n) as [|x s]; [done|]. apply Forall_cons in Hd as [Hx _].
    case_bool_decide; [|done]. subst. by vm_compute in Hx. }
  rewrite bool_decide_eq_true_2 by done.
  rewrite (proj2 (forallb_Forall _ _) Hd), dec_string_value by lia.
  by rewrite (proj2 (Z.leb_le n max)) by lia.
Qed.

(** ** The [http] crate *)

Abbreviation HeaderName := bytes (only parsing).
Abbreviation HeaderValue := bytes (only parsing).
Abbreviation Method := bytes (only parsing).
Abbreviation StatusCode := Z (only parsing).

Definition GET : Method := lit "GET".
Definition HEAD : Method := lit "HEAD".

Definition PARTIAL_CONTENT : StatusCode := 206.
Definition NOT_MODIFIED : StatusCode := 304.
Definition is_informational (s : StatusCode) : bool := in_range 100 199 s.

(** [http::HeaderMap]. *)
Class HeaderMap (H : Type) := {
  header_iter : H -> list (HeaderName * HeaderValue);
  header_len : H -> Z;
  header_keys : H -> list HeaderName;
  get_all : H -> HeaderName -> list HeaderValue;
  contains_key : H -> HeaderName -> bool;
  header_insert : H -> HeaderName -> HeaderValue -> H;
  header_append : H -> HeaderName -> HeaderValue -> H;
  header_remove : H -> HeaderName -> H;
  header_or_insert : H -> HeaderName -> HeaderValue -> H   (* entry(n).or_insert(v) *)
}.

Class HeaderMapLaws (H : Type) `{!HeaderMap H} := {
  header_keys_spec h n : n ∈ header_keys h <-> get_all h n <> [];
  contains_key_spec h n : contains_key h n = bool_decide (get_all h n <> []);
  get_all_insert h n v m : get_all (header_insert h n v) m = if decide (n = m) then [v] else get_all h m;
  get_all_append h n v m :
    get_all (header_append h n v) m = if decide (n = m) then get_all h m ++ [v] else get_all h m;
  get_all_remove h n m : get_all (header_remove h n) m = if decide (n = m) then [] else get_all h m;
  get_all_or_insert h n v m :
    get_all (header_or_insert h n v) m =
    if decide (n = m) then (if decide (get_all h m = []) then [v] else get_all h m) else get_all h m
}.

(** [http::uri::Authority] as the code reads it. *)
Record Authority := mkAuthority { authority_host : bytes; authority_port_u16 : option Z }.

(** The parsers of [http] and [httpdate], and the order of [http::Method]. *)
Class HttpText := {
  header_name_from_bytes : bytes -> option HeaderName;
  header_value_from_str : bytes -> option HeaderValue;
  authority_from_str : bytes -> option Authority;
  parse_http_date : bytes -> option Z;
  method_cmp : Method -> Method -> comparison
}.

(** What the proofs use of them: methods are totally ordered, a decimal number
    is a legal field value, and a name is its lower-case form. *)
Class HttpTextLaws `{!HttpText} := {
  method_cmp_laws : @OrdLaws Method method_cmp;
  header_value_decimal z : 0 <= z -> header_value_from_str (dec_string z) = Some (dec_string z);
  header_name_lower s n : header_name_from_bytes s = Some n -> n = to_ascii_lowercase s
}.

(** Header names the sources name. *)
Definition AGE : HeaderName := lit "age".
Definition AUTHORIZATION : HeaderName := lit "authorization".
Definition CACHE_CONTROL : HeaderName := lit "cache-control".
Definition CONTENT_LENGTH : HeaderName := lit "content-length".
Definition DATE : HeaderName := lit "date".
Definition ETAG : HeaderName := lit "etag".
Definition EXPIRES : HeaderName := lit "expires".
Definition IF_MATCH : HeaderName := lit "if-match".
Definition IF_MODIFIED_SINCE : HeaderName := lit "if-modified-since".
Definition IF_NONE_MATCH : HeaderName := lit "if-none-match".
Definition IF_RANGE : HeaderName := lit "if-range".
Definition IF_UNMODIFIED_SINCE : HeaderName := lit "if-unmodified-since".
Definition LAST_MODIFIED : HeaderName := lit "last-modified".
Definition PRAGMA : HeaderName := lit "pragma".
Definition RANGE : HeaderName := lit "range".
Definition SET_COOKIE : HeaderName := lit "set-cookie".
Definition TRANSFER_ENCODING : HeaderName := lit "transfer-encoding".
Definition VARY : HeaderName := lit "vary".

(** ** An implementation for evaluation *)

Abbreviation headers_list := (list (HeaderName * HeaderValue)) (only parsing).

Definition assoc_all (h : headers_list) (n : HeaderName) : list HeaderValue :=
  (filter (fun p => p.1 = n) h).*2.

#[export] Instance assoc_HeaderMap : HeaderMap headers_list := {
  header_iter h := h;
  header_len h := len h;
  header_keys h := dedup (sort_unstable h.*1);
  get_all := assoc_all;
  contains_key h n := bool_decide (assoc_all h n <> []);
  header_insert h n v := filter (fun p => p.1 <> n) h ++ [(n, v)];
  header_append h n v := h ++ [(n, v)];
  header_remove h n := filter (fun p => p.1 <> n) h;
  header_or_insert h n v := if decide (assoc_all h n = []) then h ++ [(n, v)] else h
}.

Lemma fmap_nil_iff {A B} (f : A -> B) l : f <$> l = [] <-> l = [].
Proof. split; [apply fmap_nil_inv|by intros ->]. Qed.

Lemma assoc_all_app h k n : assoc_all (h ++ k) n = assoc_all h n ++ assoc_all k n.
Proof. unfold assoc_all. by rewrite filter_app, fmap_app. Qed.

Lemma assoc_all_single m v n : assoc_all [(m, v)] n = if decide (m = n) then [v] else [].
Proof. unfold assoc_all. rewrite filter_cons; simpl. by destruct (decide (m = n)). Qed.

Lemma assoc_all_filter h n m :
  assoc_all (filter (fun p => p.1 <> n) h) m = if decide (n = m) then [] else assoc_all h m.
Proof.
  unfold assoc_all. rewrite list_filter_filter. destruct (decide (n = m)) as [->|].
  - apply fmap_nil_iff, elem_of_nil_inv. intros x. rewrite list_elem_of_filter. naive_solver.
  - f_equal. apply list_filter_iff. intros [a b]; simpl. naive_solver.
Qed.

#[export] Instance assoc_HeaderMapLaws : HeaderMapLaws headers_list.
Proof.
  split; simpl; intros h n.
  - rewrite elem_of_dedup_sort. unfold assoc_all. rewrite fmap_nil_iff.
    induction h as [|[a b] h IH]; simpl; [set_solver|]. rewrite elem_of_cons, IH, filter_cons; simpl.
    destruct (decide (a = n)); naive_solver.
  - done.
  - intros v m. rewrite assoc_all_app, assoc_all_filter, assoc_all_single.
    destruct (decide (n = m)); [done|]. by rewrite app_nil_r.
  - intros v m. rewrite assoc_all_app, assoc_all_single. destruct (decide (n = m)); [done|].
    by rewrite app_nil_r.
  - intros m. apply assoc_all_filter.
  - intros v m. destruct (decide (assoc_all h n = [])) as [E|E]; destruct (decide (n = m)) as [->|].
    + rewrite assoc_all_app, E, assoc_all_single. rewrite !decide_True; done.
    + rewrite assoc_all_app, assoc_all_single, decide_False, app_nil_r by done. done.
    + by rewrite decide_False.
    + done.
Qed.

(** Parsers that accept simple texts: names in lower case, authorities without a
    port, dates as a number of seconds. *)
Definition example_text : HttpText := {|
  header_name_from_bytes s := Some (to_ascii_lowercase s);
  header_value_from_str s := Some s;
  authority_from_str s := Some (mkAuthority s None);
  parse_http_date s := if forallb is_ascii_digit s then Some (dec_value s * 10 ^ 9) else None;
  method_cmp := cmp
|}.

Lemma example_text_laws : @HttpTextLaws example_text.
Proof. split; simpl; [apply list_OrdLaws|done|]. by intros s n [= <-]. Qed.
