(* ===== verification/Launcher.v ===== *)
(** The command line between the master and the worker launcher:
    [WorkerMetadata] and [WorkerCommand::into_launcher_command] of
    [crates/oxiroute-supervisor-process/src/lib.rs] and the decoder of
    [launcher.rs].  Arguments and environment travel as lowercase hexadecimal in
    the launcher's own arguments; [OsString]s are byte strings.

    Shows that the launcher decodes exactly the arguments, environment and cgroup
    the master encoded, and accepts nothing beyond the bounds. *)

From stdpp Require Import base countable strings list.
From Stdlib Require Import ZArith Lia Strings.Byte.
From S2P Require Import Prelude Bytes Codec Http.

Open Scope Z_scope.

Definition WORKER_METADATA_VERSION : bytes := lit "v2".
Definition MAX_WORKER_ARGUMENTS : Z := 128.
Definition MAX_WORKER_ENVIRONMENT : Z := 128.
Definition MAX_WORKER_METADATA_ITEM_BYTES : Z := 4 * 1024.
Definition MAX_WORKER_METADATA_BYTES : Z := 64 * 1024.

Inductive WorkerMetadataError : Type :=
| TooManyArguments (actual maximum : Z)
| TooManyEnvironmentEntries (actual maximum : Z)
| ItemTooLarge (actual maximum : Z)
| MetadataTooLarge (actual maximum : Z)
| InvalidEnvironmentOrArgument.

Abbreviation WorkerEnvironment := (list (bytes * bytes)) (only parsing).

Record WorkerMetadata : Type := mkMetadata {
  md_arguments : list bytes;
  md_environment : WorkerEnvironment;
}.

(** ** Construction *)

(** [slice::contains] *)
Definition contains (x : byte) (l : bytes) : bool := existsb (fun y => bool_decide (y = x)) l.
Definition NUL : byte := z2b 0.
Definition EQUALS : byte := z2b 61.

Definition environment_items (environment : WorkerEnvironment) : list bytes :=
  flat_map (fun kv => [kv.1; kv.2]) environment.

(** The loop over all items; [total] saturates. *)
Fixpoint total_bytes (items : list bytes) (total : Z) : result Z WorkerMetadataError :=
  match items with
  | [] => Ok total
  | value :: items =>
      let length := len value in
      if MAX_WORKER_METADATA_ITEM_BYTES <? length then
        Err (ItemTooLarge length MAX_WORKER_METADATA_ITEM_BYTES)
      else total_bytes items (saturating_add usize_max total length)
  end.

Definition WorkerMetadata_new (arguments : list bytes) (environment : WorkerEnvironment) :
    result WorkerMetadata WorkerMetadataError :=
  if MAX_WORKER_ARGUMENTS <? len arguments then
    Err (TooManyArguments (len arguments) MAX_WORKER_ARGUMENTS)
  else if MAX_WORKER_ENVIRONMENT <? len environment then
    Err (TooManyEnvironmentEntries (len environment) MAX_WORKER_ENVIRONMENT)
  else
    let? total := total_bytes (arguments ++ environment_items environment) 0 in
    if MAX_WORKER_METADATA_BYTES <? total then
      Err (MetadataTooLarge total MAX_WORKER_METADATA_BYTES)
    else if existsb (fun kv => bool_decide (kv.1 = []) || contains NUL kv.1 || contains EQUALS kv.1)
              environment
            || existsb (fun kv => contains NUL kv.2) environment
            || existsb (contains NUL) arguments then
      Err InvalidEnvironmentOrArgument
    else Ok (mkMetadata arguments environment).

(** ** Encoding *)

(** [DIGITS[n]] of [b"0123456789abcdef"] *)
Definition hex_digit (n : Z) : byte := z2b (if n <? 10 then 48 + n else 87 + n).

Definition encode_hex (b : bytes) : bytes :=
  flat_map (fun x => [hex_digit (Z.shiftr (b2z x) 4); hex_digit (Z.land (b2z x) 15)]) b.

Definition encode_cgroup (cgroup_path : option bytes) : result (list bytes) WorkerMetadataError :=
  match cgroup_path with
  | None => Ok [lit "0"]
  | Some path =>
      if MAX_WORKER_METADATA_ITEM_BYTES <? len path then
        Err (ItemTooLarge (len path) MAX_WORKER_METADATA_ITEM_BYTES)
      else if contains NUL path then Err InvalidEnvironmentOrArgument
      else Ok [lit "1"; encode_hex path]
  end.

(** The arguments of the launcher's command line. *)
Definition into_launcher_command (program : bytes) (args : list bytes) (env : WorkerEnvironment)
    (cgroup_path : option bytes) : result (list bytes) WorkerMetadataError :=
  let? metadata := WorkerMetadata_new args env in
  let arguments := md_arguments metadata in
  let environment := md_environment metadata in
  let? cgroup := encode_cgroup cgroup_path in
  Ok ([program; WORKER_METADATA_VERSION] ++ cgroup ++
      [dec_string (len arguments)] ++ map encode_hex arguments ++
      [dec_string (len environment)] ++ map encode_hex (environment_items environment)).

(** ** Decoding *)

(** [Box<dyn Error>]: a message, or the metadata error. *)
Inductive LauncherError : Type :=
| Message (text : bytes)
| Metadata (e : WorkerMetadataError).

Record LauncherMetadata : Type := mkLauncherMetadata {
  worker : WorkerMetadata;
  cgroup_path : option bytes;
}.

(** The argument iterator. *)
Abbreviation Args := (M (list bytes) LauncherError).
Definition next : Args (option bytes) := fun args =>
  match args with [] => (Ok None, []) | x :: args => (Ok (Some x), args) end.

Definition parse_usize : bytes -> option Z := parse_uint usize_max.

Definition parse_count (encoded : option bytes) (label : bytes) (maximum : Z) :
    result Z LauncherError :=
  let? count := ok_or (Message (lit "missing or invalid " ++ label ++ lit " count"))
    (encoded ≫= fun value => if utf8_valid value then parse_usize value else None) in
  if maximum <? count then Err (Message (label ++ lit " count exceeds bound")) else Ok count.

Definition decode_nibble (b : byte) : result Z LauncherError :=
  let v := b2z b in
  if (48 <=? v) && (v <=? 57) then Ok (v - 48)
  else if (97 <=? v) && (v <=? 102) then Ok (v - 97 + 10)
  else Err (Message (lit "worker metadata is not lowercase hexadecimal")).

(** [chunks_exact(2)]: the length is even. *)
Fixpoint decode_pairs (b : bytes) : result bytes LauncherError :=
  match b with
  | x :: y :: b =>
      let? high := decode_nibble x in
      let? low := decode_nibble y in
      let? rest := decode_pairs b in
      Ok (z2b (Z.lor (Z.shiftl high 4) low) :: rest)
  | _ => Ok []
  end.

Definition decode_item (encoded : option bytes) : result bytes LauncherError :=
  let? b := ok_or (Message (lit "missing worker metadata item")) encoded in
  if negb (len b mod 2 =? 0) || (MAX_WORKER_METADATA_ITEM_BYTES <? len b / 2) then
    Err (Message (lit "invalid or oversized worker metadata item"))
  else decode_pairs b.

Definition next_item : Args bytes :=
  let! encoded := next in
  mlift (decode_item encoded).

Definition next_entry : Args (bytes * bytes) :=
  let! key := next_item in
  let! value := next_item in
  mret (key, value).

(** [Path::is_absolute] on Unix. *)
Definition is_absolute (path : bytes) : bool :=
  match path with x :: _ => bool_decide (x = z2b 47) | [] => false end.

Definition decode_cgroup : Args (option bytes) :=
  let! flag := next in
  match flag with
  | None => mfail (Message (lit "missing worker cgroup metadata"))
  | Some value =>
      if beqb value (lit "0") then mret None
      else if beqb value (lit "1") then
        let! path := next_item in
        if negb (is_absolute path) then
          mfail (Message (lit "worker cgroup path is not absolute"))
        else mret (Some path)
      else mfail (Message (lit "invalid worker cgroup metadata"))
  end.

Definition decode_metadata : Args LauncherMetadata :=
  let! version := next in
  let! _ := mlift
    match version with
    | Some version =>
        if beqb version WORKER_METADATA_VERSION then Ok tt
        else Err (Message (lit "unsupported worker metadata version"))
    | None => Err (Message (lit "missing worker metadata version"))
    end in
  let! cgroup := decode_cgroup in
  let! encoded := next in
  let! argument_count := mlift (parse_count encoded (lit "argument") MAX_WORKER_ARGUMENTS) in
  let! arguments := mrepeat (Z.to_nat argument_count) next_item in
  let! encoded := next in
  let! environment_count :=
    mlift (parse_count encoded (lit "environment entry") MAX_WORKER_ENVIRONMENT) in
  let! environment := mrepeat (Z.to_nat environment_count) next_entry in
  let! metadata := mlift (map_err Metadata (WorkerMetadata_new arguments environment)) in
  let! trailing := next in
  if bool_decide (is_Some trailing) then mfail (Message (lit "trailing launcher metadata"))
  else mret (mkLauncherMetadata metadata cgroup).

(** What [launch] makes of its arguments: the executable and the metadata; in
    between it marks the inherited descriptors, which are the kernel's. *)
Definition launch_arguments : Args (bytes * LauncherMetadata) :=
  let! executable := next in
  let! program := mlift (ok_or (Message (lit "missing resolved worker executable")) executable) in
  let! _ := mlift (if negb (is_absolute program) then
                     Err (Message (lit "worker executable is not absolute")) else Ok tt) in
  let! metadata := decode_metadata in
  mret (program, metadata).

(** ** Hexadecimal *)

Lemma decode_nibble_digit n : 0 <= n < 16 -> decode_nibble (hex_digit n) = Ok n.
Proof.
  intros Hn. unfold decode_nibble, hex_digit. destruct (Z.ltb_spec n 10).
  - rewrite b2z_z2b, Z.mod_small by lia.
    rewrite (proj2 (Z.leb_le 48 _)), (proj2 (Z.leb_le _ 57)) by lia. simpl. f_equal. lia.
  - rewrite b2z_z2b, Z.mod_small by lia.
    rewrite (proj2 (Z.leb_gt (87 + n) 57)), andb_false_r by lia.
    rewrite (proj2 (Z.leb_le 97 _)), (proj2 (Z.leb_le _ 102)) by lia. simpl. f_equal. lia.
Qed.

Lemma nibbles v : 0 <= v < 256 -> Z.lor (Z.shiftl (Z.shiftr v 4) 4) (Z.land v 15) = v.
Proof.
  intros Hv. apply Z.bits_inj'. intros i Hi. rewrite Z.lor_spec, Z.land_spec.
  destruct (Z.ltb_spec i 4).
  - rewrite Z.shiftl_spec_low by done. simpl. change 15 with (Z.ones 4).
    by rewrite Z.ones_spec_low, andb_true_r by lia.
  - rewrite Z.shiftl_spec_high, Z.shiftr_spec by lia. rewrite Z.sub_add.
    change 15 with (Z.ones 4). by rewrite Z.ones_spec_high, andb_false_r, orb_false_r by lia.
Qed.

Lemma decode_encode_hex b : decode_pairs (encode_hex b) = Ok b.
Proof.
  induction b as [|x b IH]; [done|]. pose proof (b2z_range x) as Hx.
  change (encode_hex (x :: b)) with
    (hex_digit (Z.shiftr (b2z x) 4) :: hex_digit (Z.land (b2z x) 15) :: encode_hex b).
  cbn [decode_pairs].
  rewrite !decode_nibble_digit.
  - cbn [result_bind]. rewrite IH. cbn [result_bind]. by rewrite nibbles, z2b_b2z.
  - change 15 with (Z.ones 4). rewrite Z.land_ones by lia. apply Z.mod_pos_bound. lia.
  - rewrite Z.shiftr_div_pow2 by lia. split; [apply Z.div_pos; lia|].
    apply Z.div_lt_upper_bound; simpl; lia.
Qed.

Lemma len_encode_hex b : len (encode_hex b) = 2 * len b.
Proof. unfold len. induction b; simpl; lia. Qed.

Lemma decode_item_hex b :
  len b <= MAX_WORKER_METADATA_ITEM_BYTES -> decode_item (Some (encode_hex b)) = Ok b.
Proof.
  intros Hb. unfold decode_item. cbn [ok_or result_bind].
  rewrite len_encode_hex, (Z.mul_comm 2), Z.mod_mul, Z.div_mul by done.
  rewrite (proj2 (Z.ltb_ge _ _)) by done. apply decode_encode_hex.
Qed.

Lemma parse_usize_dec n : 0 <= n <= usize_max -> parse_usize (dec_string n) = Some n.
Proof. apply parse_uint_dec. Qed.

Lemma parse_count_dec n label maximum :
  0 <= n <= maximum -> maximum <= usize_max ->
  parse_count (Some (dec_string n)) label maximum = Ok n.
Proof.
  intros Hn Hm. unfold parse_count. cbn [mbind option_bind].
  rewrite utf8_valid_ascii; [rewrite parse_usize_dec by lia|].
  - cbn. by rewrite (proj2 (Z.ltb_ge _ _)) by lia.
  - apply forallb_Forall. eapply Forall_impl; [apply dec_string_digits; lia|].
    intros x. unfold is_ascii_digit, is_ascii, in_range. intros. bool_inv. apply Z.ltb_lt. lia.
Qed.

(** ** What the constructor accepts *)

Definition item_ok (b : bytes) : Prop := len b <= MAX_WORKER_METADATA_ITEM_BYTES.
Definition sum_len (items : list bytes) : Z := foldr (fun b n => len b + n) 0 items.

Record metadata_ok (arguments : list bytes) (environment : WorkerEnvironment) : Prop := {
  mo_arguments : len arguments <= MAX_WORKER_ARGUMENTS;
  mo_environment : len environment <= MAX_WORKER_ENVIRONMENT;
  mo_items : Forall item_ok (arguments ++ environment_items environment);
  mo_total : sum_len (arguments ++ environment_items environment) <= MAX_WORKER_METADATA_BYTES;
  mo_keys : Forall (fun kv => kv.1 <> [] /\ EQUALS ∉ kv.1) environment;
  mo_nul : Forall (fun b => NUL ∉ b) (arguments ++ environment_items environment);
}.

Lemma contains_spec x l : contains x l = false <-> x ∉ l.
Proof.
  unfold contains. rewrite <- not_true_iff_false, existsb_exists.
  split; intros H Hx; apply H.
  - exists x. rewrite <- list_elem_of_In. by rewrite bool_decide_eq_true_2.
  - destruct Hx as (y & Hy & ->%bool_decide_eq_true). by apply list_elem_of_In.
Qed.

Lemma existsb_Forall_false {A} (f : A -> bool) l : existsb f l = false <-> Forall (fun x => f x = false) l.
Proof.
  induction l as [|x l IH]; simpl; [done|]. by rewrite orb_false_iff, Forall_cons, IH.
Qed.

Lemma sum_len_nonneg items : 0 <= sum_len items.
Proof. induction items as [|b items IH]; simpl; [lia|]. pose proof (len_nonneg b). lia. Qed.

Lemma total_bytes_Ok items total t :
  total <= usize_max ->
  total_bytes items total = Ok t <->
  Forall item_ok items /\ t = Z.min usize_max (total + sum_len items).
Proof.
  revert total. induction items as [|b items IH]; intros total Hm; cbn [total_bytes sum_len foldr].
  - rewrite Z.add_0_r, Z.min_r by done. split; [intros [= <-]; by split|by intros [_ ->]].
  - pose proof (len_nonneg b). pose proof (sum_len_nonneg items) as Hs. unfold sum_len in Hs.
    rewrite Forall_cons. unfold item_ok at 1.
    destruct (Z.ltb_spec MAX_WORKER_METADATA_ITEM_BYTES (len b)); [naive_solver lia|].
    rewrite IH by (unfold saturating_add; lia). unfold sum_len, saturating_add.
    assert (Z.min usize_max (Z.min usize_max (total + len b) + foldr (fun b n => len b + n) 0 items) =
      Z.min usize_max (total + (len b + foldr (fun b n => len b + n) 0 items))) as -> by lia.
    naive_solver.
Qed.

Lemma environment_items_Forall (P : bytes -> Prop) environment :
  Forall P (environment_items environment) <-> Forall (fun kv => P kv.1 /\ P kv.2) environment.
Proof.
  induction environment as [|kv env IH]; [done|]. unfold environment_items in *. cbn.
  rewrite !Forall_cons, IH. naive_solver.
Qed.

Lemma WorkerMetadata_new_Ok arguments environment m :
  WorkerMetadata_new arguments environment = Ok m <->
  m = mkMetadata arguments environment /\ metadata_ok arguments environment.
Proof.
  unfold WorkerMetadata_new.
  destruct (Z.ltb_spec MAX_WORKER_ARGUMENTS (len arguments)); [split; [done|intros [_ []]; lia]|].
  destruct (Z.ltb_spec MAX_WORKER_ENVIRONMENT (len environment)); [split; [done|intros [_ []]; lia]|].
  set (items := arguments ++ environment_items environment).
  pose proof (sum_len_nonneg items) as Hs.
  assert (forall t, total_bytes items 0 = Ok t <-> Forall item_ok items /\ t = Z.min usize_max (sum_len items))
    as Htot by (intros t; apply total_bytes_Ok; by vm_compute).
  destruct (total_bytes items 0) as [t|e]; cbn [result_bind].
  - destruct (proj1 (Htot t) eq_refl) as [Hi ->].
    destruct (Z.ltb_spec MAX_WORKER_METADATA_BYTES (Z.min usize_max (sum_len items))) as [Hl|Hl].
    { split; [done|]. intros [_ [_ _ _ Ht _ _]]. fold items in Ht. lia. }
    destruct (existsb _ environment || existsb _ environment || existsb _ arguments) eqn:Hx.
    + split; [done|]. intros [_ [_ _ _ _ Hk Hn]]. rewrite <- not_false_iff_true in Hx. destruct Hx.
      rewrite !orb_false_iff, !existsb_Forall_false. apply Forall_app in Hn as [Hna Hne].
      rewrite environment_items_Forall in Hne. split_and!.
      * eapply Forall_impl; [apply Forall_and; split; [exact Hk|exact Hne]|]. intros [k v] [[Hk1 Hk2] [Hn1 _]]; simpl in *.
        rewrite bool_decide_eq_false_2 by done. simpl.
        by rewrite !(proj2 (contains_spec _ _)).
      * eapply Forall_impl; [exact Hne|]. intros [k v] [_ Hn2]. by apply contains_spec.
      * eapply Forall_impl; [exact Hna|]. intros b. by apply contains_spec.
    + rewrite !orb_false_iff, !existsb_Forall_false in Hx. destruct Hx as [[Hk Hv] Ha].
      split; [|by intros [-> _]]. intros [= <-]. split; [done|]. split; try done.
      * fold items. unfold MAX_WORKER_METADATA_BYTES, usize_max, u64_max in *. lia.
      * eapply Forall_impl; [exact Hk|]. intros [k v]; simpl. intros H'. bool_inv.
        split; [done|by apply contains_spec].
      * apply Forall_app. split; [eapply Forall_impl; [exact Ha|]; intros b; by apply contains_spec|].
        apply environment_items_Forall. eapply Forall_impl; [apply Forall_and; split; [exact Hk|exact Hv]|].
        intros [k v] [H1 H2]; simpl in *. bool_inv. by rewrite <- !contains_spec.
  - split; [done|]. intros [_ [_ _ Hi _ _ _]]. fold items in Hi. by pose proof (proj2 (Htot _) (conj Hi eq_refl)).
Qed.

(** ** The launcher reads what was written *)

Lemma next_item_hex b rest : item_ok b -> next_item (encode_hex b :: rest) = (Ok b, rest).
Proof.
  intros Hb. unfold next_item, mbind_se, next, mlift. by rewrite decode_item_hex.
Qed.

Lemma repeat_items l rest :
  Forall item_ok l -> mrepeat (length l) next_item (map encode_hex l ++ rest) = (Ok l, rest).
Proof.
  induction 1 as [|b l Hb _ IH]; [done|]. cbn [length mrepeat map app]. unfold mbind_se at 1.
  rewrite next_item_hex by done. unfold mbind_se. by rewrite IH.
Qed.

Lemma repeat_entries (env : WorkerEnvironment) rest :
  Forall (fun kv => item_ok kv.1 /\ item_ok kv.2) env ->
  mrepeat (length env) next_entry (map encode_hex (environment_items env) ++ rest) = (Ok env, rest).
Proof.
  induction 1 as [|[k v] env [Hk Hv] _ IH]; [done|]. cbn [length mrepeat]. unfold mbind_se at 1.
  change (environment_items ((k, v) :: env)) with (k :: v :: environment_items env).
  cbn [app map]. unfold next_entry at 1.
  unfold mbind_se at 1. rewrite next_item_hex by done.
  unfold mbind_se at 1. rewrite next_item_hex by done. unfold mret at 1.
  unfold mbind_se. by rewrite IH.
Qed.

Lemma decode_cgroup_encoded cgroup encoded rest :
  match cgroup with Some path => is_absolute path = true | None => True end ->
  encode_cgroup cgroup = Ok encoded -> decode_cgroup (encoded ++ rest) = (Ok cgroup, rest).
Proof.
  unfold encode_cgroup, decode_cgroup. destruct cgroup as [path|]; intros Ha.
  - destruct (Z.ltb_spec MAX_WORKER_METADATA_ITEM_BYTES (len path)); [done|].
    destruct (contains NUL path); [done|]. intros [= <-]. cbn [app]. unfold mbind_se at 1, next at 1.
    change (beqb (lit "1") (lit "0")) with false. change (beqb (lit "1") (lit "1")) with true.
    cbv iota. unfold mbind_se. rewrite next_item_hex by done. by rewrite Ha.
  - by intros [= <-].
Qed.

Lemma launch_encoded program args env cgroup argv :
  is_absolute program = true ->
  match cgroup with Some path => is_absolute path = true | None => True end ->
  into_launcher_command program args env cgroup = Ok argv ->
  launch_arguments argv = (Ok (program, mkLauncherMetadata (mkMetadata args env) cgroup), []).
Proof.
  intros Hp Hc H. unfold into_launcher_command in H.
  destruct (WorkerMetadata_new args env) as [m|] eqn:Hm; [|done]. cbn [result_bind] in H.
  pose proof Hm as (-> & [Ha He Hi _ _ _])%WorkerMetadata_new_Ok. cbn [md_arguments md_environment] in H.
  destruct (encode_cgroup cgroup) as [encoded|] eqn:Hg; [|done]. injection H as <-.
  apply Forall_app in Hi as [Hia Hie]. rewrite environment_items_Forall in Hie.
  unfold launch_arguments. cbn [app]. unfold mbind_se at 1, next at 1, mbind_se at 1, mlift at 1.
  cbn [ok_or]. unfold mbind_se at 1. rewrite Hp. unfold mlift at 1. cbn [negb].
  unfold mbind_se at 1. unfold decode_metadata. unfold mbind_se at 1, next at 1.
  change (beqb WORKER_METADATA_VERSION WORKER_METADATA_VERSION) with true.
  unfold mbind_se at 1, mlift at 1, mbind_se at 1. rewrite (decode_cgroup_encoded _ _ _ Hc Hg).
  pose proof (len_nonneg args). pose proof (len_nonneg env).
  unfold mbind_se at 1, next at 1, mbind_se at 1, mlift at 1.
  rewrite parse_count_dec by (done || by vm_compute). unfold len at 1. rewrite Nat2Z.id.
  unfold mbind_se at 1. rewrite repeat_items by done.
  unfold mbind_se at 1, next at 1, mbind_se at 1, mlift at 1.
  rewrite parse_count_dec by (done || by vm_compute). unfold len at 1. rewrite Nat2Z.id.
  rewrite <- (app_nil_r (map encode_hex (environment_items env))).
  unfold mbind_se at 1. rewrite repeat_entries by done. unfold mbind_se, mlift. by rewrite Hm.
Qed.

Lemma decode_cgroup_absolute argv cgroup rest :
  decode_cgroup argv = (Ok cgroup, rest) ->
  match cgroup with Some path => is_absolute path = true | None => True end.
Proof.
  unfold decode_cgroup. intros H. res_inv. destruct x as [value|]; [|done].
  destruct (beqb value (lit "0")); [by injection H as <- _|].
  destruct (beqb value (lit "1")); [|done]. res_inv.
  destruct (is_absolute _) eqn:Ha; [|done]. by injection H as <- _.
Qed.

Lemma launch_accepted argv program lm rest :
  launch_arguments argv = (Ok (program, lm), rest) ->
  rest = [] /\ is_absolute program = true /\
  metadata_ok (md_arguments (worker lm)) (md_environment (worker lm)) /\
  match cgroup_path lm with Some path => is_absolute path = true | None => True end.
Proof.
  unfold launch_arguments. intros H. res_inv. destruct (is_absolute program) eqn:Hp; [|done].
  match goal with H : decode_metadata _ = _ |- _ => rename H into Hd end.
  unfold decode_metadata in Hd. res_inv.
  match goal with H : WorkerMetadata_new _ _ = Ok _ |- _ => apply WorkerMetadata_new_Ok in H as [-> Hm] end.
  match goal with H : decode_cgroup _ = _ |- _ => apply decode_cgroup_absolute in H end.
  match goal with H : next _ = (Ok ?o, _), H' : (if bool_decide (is_Some ?o) then _ else _) _ = _ |- _ =>
    rename H into Hn, H' into Hr end.
  case_bool_decide as Ht; [done|]. injection Hr as <- <-. apply eq_None_not_Some in Ht as ->.
  split_and!; try done. unfold next in Hn. case_match; by simplify_eq.
Qed.

(** The launcher decodes what the master encoded.  The command line that
    [into_launcher_command] builds for an absolute executable and cgroup path is
    read back by the launcher to the same executable, arguments, environment and
    cgroup, with nothing left over; and whatever the launcher accepts, from any
    command line, is within the bounds and free of NUL bytes and malformed
    environment keys. *)
Theorem launcher_roundtrip :
  (forall program args env cgroup argv,
     is_absolute program = true ->
     match cgroup with Some path => is_absolute path = true | None => True end ->
     into_launcher_command program args env cgroup = Ok argv ->
     launch_arguments argv = (Ok (program, mkLauncherMetadata (mkMetadata args env) cgroup), [])) /\
  (forall argv program lm rest,
     launch_arguments argv = (Ok (program, lm), rest) ->
     rest = [] /\ is_absolute program = true /\
     metadata_ok (md_arguments (worker lm)) (md_environment (worker lm)) /\
     match cgroup_path lm with Some path => is_absolute path = true | None => True end).
Proof. split; [exact launch_encoded|exact launch_accepted]. Qed.

Lemma launcher_roundtrip_witness :
  exists argv,
    into_launcher_command (lit "/bin/w") [lit "mode"; [z2b 255]] [(lit "KEY", [z2b 254])]
      (Some (lit "/cg/w")) = Ok argv /\
    launch_arguments argv =
      (Ok (lit "/bin/w", mkLauncherMetadata (mkMetadata [lit "mode"; [z2b 255]] [(lit "KEY", [z2b 254])])
         (Some (lit "/cg/w"))), []).
Proof.
  eexists. split; [vm_compute; reflexivity|].
  apply (proj1 launcher_roundtrip); [done..|vm_compute; reflexivity].
Defined.
