(* ===== verification/Net.v ===== *)
(** What the network code uses of [std::net]: IPv4 and IPv6 addresses as the
    integers [u32::from] and [u128::from] give for them, socket addresses, the
    parser behind [str::parse::<IpAddr>] and the [Display] output.  Parsing
    what is displayed gives the address back ([parse_ip_display]). *)

From stdpp Require Import base list strings.
From Stdlib Require Import ZArith Lia Strings.Byte.
From S2P Require Import Prelude Bytes Http.

Open Scope Z_scope.

(** ** Addresses *)

Inductive IpAddr : Type :=
| V4 (a : Z)
| V6 (a : Z).

#[export] Instance IpAddr_eq_dec : EqDecision IpAddr.
Proof. solve_decision. Defined.

Record SocketAddr : Type := mkSocketAddr { ip : IpAddr; port : Z }.

#[export] Instance SocketAddr_eq_dec : EqDecision SocketAddr.
Proof. solve_decision. Defined.

Definition is_ipv4 (a : IpAddr) : bool := match a with V4 _ => true | V6 _ => false end.

(** The widths of the integers. *)
Definition ip_ok (a : IpAddr) : Prop :=
  match a with V4 a => 0 <= a < 2 ^ 32 | V6 a => 0 <= a < 2 ^ 128 end.
Definition socket_ok (a : SocketAddr) : Prop := ip_ok (ip a) /\ 0 <= port a <= u16_max.

(** [octets] and the address of octets. *)
Definition octets (a : IpAddr) : bytes :=
  match a with V4 a => be_bytes 4 a | V6 a => be_bytes 16 a end.

(** [Ipv6Addr::segments] and the address of segments. *)
Definition segment (a : Z) (i : Z) : Z := Z.shiftr a (112 - 16 * i) mod 65536.
Definition segments (a : Z) : list Z := segment a <$> [0; 1; 2; 3; 4; 5; 6; 7].
Definition of_segments (l : list Z) : Z := foldl (fun acc s => acc * 65536 + s) 0 l.

(** [Ipv6Addr::to_ipv4_mapped]: the address [::ffff:a.b.c.d]. *)
Definition to_ipv4_mapped (a : Z) : option Z :=
  if Z.shiftr a 32 =? 0xffff then Some (a mod 2 ^ 32) else None.

(** ** The parser: [core::net::parser]

    A reader takes the remaining text and returns a value and the text after
    it; a reader that fails leaves the text where it was. *)

Abbreviation reader A := (bytes -> option (A * bytes)).

Definition to_digit (radix : Z) (b : byte) : option Z :=
  let v := b2z b in
  let d := if in_range 48 57 v then v - 48
           else if in_range 97 122 v then v - 87
           else if in_range 65 90 v then v - 55 else radix in
  if d <? radix then Some d else None.

(** The loop of [read_number]. *)
Fixpoint read_digits (radix max_digits max acc count : Z) (s : bytes) : option (Z * Z * bytes) :=
  match s with
  | [] => Some (acc, count, [])
  | b :: s' =>
      match to_digit radix b with
      | None => Some (acc, count, s)
      | Some d =>
          if max <? acc * radix + d then None
          else if max_digits <? count + 1 then None
          else read_digits radix max_digits max (acc * radix + d) (count + 1) s'
      end
  end.

Definition read_number (radix max_digits max : Z) (allow_zero_prefix : bool) : reader Z := fun s =>
  match read_digits radix max_digits max 0 0 s with
  | None => None
  | Some (acc, count, s') =>
      if count =? 0 then None
      else if negb allow_zero_prefix && bool_decide (head s = Some x30) && (1 <? count) then None
      else Some (acc, s')
  end.

Definition read_given_char (c : byte) (s : bytes) : option bytes :=
  match s with b :: s' => if Byte.eqb b c then Some s' else None | [] => None end.

Definition read_separator {A} (sep : byte) (index : nat) (inner : reader A) : reader A := fun s =>
  match index with
  | O => inner s
  | S _ => read_given_char sep s ≫= inner
  end.

Definition read_octet : reader Z := read_number 10 3 u8_max false.

Definition read_ipv4_addr : reader Z := fun s =>
  '(a, s) ← read_octet s;
  '(b, s) ← read_separator x2e 1 read_octet s;
  '(c, s) ← read_separator x2e 2 read_octet s;
  '(d, s) ← read_separator x2e 3 read_octet s;
  Some (((a * 256 + b) * 256 + c) * 256 + d, s).

(** [read_groups] with [n] places left after [i] groups. *)
Fixpoint read_groups (n i : nat) (s : bytes) : list Z * bool * bytes :=
  match n with
  | O => ([], false, s)
  | S n' =>
      match (if (0 <? n')%nat then read_separator x3a i read_ipv4_addr s else None) with
      | Some (a, s') => ([a / 65536; a mod 65536], true, s')
      | None =>
          match read_separator x3a i (read_number 16 4 u16_max true) s with
          | Some (g, s') =>
              let '(gs, v4, s'') := read_groups n' (S i) s' in (g :: gs, v4, s'')
          | None => ([], false, s)
          end
      end
  end.

Definition read_ipv6_addr : reader Z := fun s =>
  let '(head, head_ipv4, s) := read_groups 8 0 s in
  if (length head =? 8)%nat then Some (of_segments head, s)
  else if (head_ipv4 : bool) then None
  else
    s ← read_given_char x3a s;
    s ← read_given_char x3a s;
    let '(tail, _, s) := read_groups (8 - (length head + 1)) 0 s in
    Some (of_segments (head ++ replicate (8 - length head - length tail) 0 ++ tail), s).

(** [str::parse::<IpAddr>]: the whole text has to be read. *)
Definition parse_ip (s : bytes) : option IpAddr :=
  match read_ipv4_addr s with
  | Some (a, s') => if decide (s' = []) then Some (V4 a) else None
  | None =>
      match read_ipv6_addr s with
      | Some (a, s') => if decide (s' = []) then Some (V6 a) else None
      | None => None
      end
  end.

(** ** [Display] *)

Definition display_v4 (a : Z) : bytes := join [x2e] ((fun b => dec_string (b2z b)) <$> be_bytes 4 a).

Definition hex_char (d : Z) : byte := z2b (if d <? 10 then 48 + d else 87 + d).

(** ["{:x}"] of a [u16]. *)
Definition hex_string (g : Z) : bytes :=
  hex_char <$> (if g <? 16 then [g]
                else if g <? 256 then [g / 16; g mod 16]
                else if g <? 4096 then [g / 256; g / 16 mod 16; g mod 16]
                else [g / 4096; g / 256 mod 16; g / 16 mod 16; g mod 16]).

Definition fmt_subslice (chunk : list Z) : bytes := join [x3a] (hex_string <$> chunk).

(** The longest run of zero segments, the first one of several: the loop over
    the segments with the current and the longest span as (start, length). *)
Definition longest_zeroes (l : list Z) : nat * nat :=
  (foldl (fun '(i, (longest, current)) s =>
     let current := if s =? 0
       then ((if (current.2 =? 0)%nat then i else current.1), S current.2) else (0, 0)%nat in
     (S i, ((if (longest.2 <? current.2)%nat then current else longest), current)))
   (0, ((0, 0), (0, 0)))%nat l).2.1.

Definition display_v6 (a : Z) : bytes :=
  match to_ipv4_mapped a with
  | Some v4 => lit "::ffff:" ++ display_v4 v4
  | None =>
      let l := segments a in
      let '(start, n) := longest_zeroes l in
      if (1 <? n)%nat then fmt_subslice (take start l) ++ lit "::" ++ fmt_subslice (drop (start + n) l)
      else fmt_subslice l
  end.

Definition display_ip (a : IpAddr) : bytes :=
  match a with V4 a => display_v4 a | V6 a => display_v6 a end.

(** ** Readers on displayed text *)

(** The text is over or goes on with something that is not a digit. *)
Definition stops (radix : Z) (s : bytes) : Prop :=
  match s with b :: _ => to_digit radix b = None | [] => True end.

Lemma read_digits_app radix max_digits max acc count s v n rest :
  read_digits radix max_digits max acc count s = Some (v, n, []) -> stops radix rest ->
  read_digits radix max_digits max acc count (s ++ rest) = Some (v, n, rest).
Proof.
  revert acc count; induction s as [|b s IH]; intros acc count H Hrest; simpl in *.
  - simplify_eq. destruct rest as [|b rest]; simpl in *; [done|]. by rewrite Hrest.
  - destruct (to_digit radix b); [|done]. do 2 (case_match; [done|]). by apply IH.
Qed.

Definition octet_reads (d : Z) : bool :=
  match read_digits 10 3 u8_max 0 0 (dec_string d) with
  | Some (v, n, []) =>
      (v =? d) && (0 <? n) && negb (bool_decide (head (dec_string d) = Some x30) && (1 <? n))
  | _ => false
  end.

Lemma octets_read d : 0 <= d < 256 -> octet_reads d = true.
Proof. revert d. apply (below 256), forallb_Forall. by vm_compute. Qed.

Lemma read_octet_dec d rest :
  0 <= d < 256 -> stops 10 rest -> read_octet (dec_string d ++ rest) = Some (d, rest).
Proof.
  intros Hd Hrest. pose proof (octets_read d Hd) as H. unfold octet_reads in H.
  destruct (read_digits _ _ _ _ _ _) as [[[v n] [|? ?]]|] eqn:E in H; try done.
  unfold read_octet, read_number. erewrite read_digits_app by done.
  bool_inv. subst v. rewrite (proj2 (Z.eqb_neq n 0)) by lia.
  pose proof (dec_string_nonempty d) as Hne. destruct (dec_string d) as [|b l]; [done|]. simpl in *.
  destruct (bool_decide _); simpl in *; [|done]. by destruct (1 <? n).
Qed.

Lemma to_digit_hex d : 0 <= d < 16 -> to_digit 16 (hex_char d) = Some d.
Proof. revert d. apply (below 16). by repeat constructor. Qed.

Lemma read_digits_hex l acc count max :
  Forall (fun d => 0 <= d < 16) l -> 0 <= acc -> count + len l <= 4 ->
  foldl (fun a d => a * 16 + d) acc l <= max ->
  read_digits 16 4 max acc count (hex_char <$> l) =
  Some (foldl (fun a d => a * 16 + d) acc l, count + len l, []).
Proof.
  intros Hl. revert acc count; induction Hl as [|d l Hd Hl IH]; intros acc count Hacc Hc Hmax.
  { simpl. by rewrite len_nil, Z.add_0_r. }
  simpl in *. rewrite len_cons in *. pose proof (len_nonneg l). rewrite to_digit_hex by done.
  assert (acc * 16 + d <= foldl (fun a d => a * 16 + d) (acc * 16 + d) l) as Hle.
  { assert (0 <= acc * 16 + d) as Hz by lia. clear -Hl Hz. revert Hz. generalize (acc * 16 + d).
    induction Hl as [|x l Hx _ IH]; intros z Hz; simpl; [lia|]. specialize (IH (z * 16 + x)). lia. }
  rewrite (proj2 (Z.ltb_ge max _)), (proj2 (Z.ltb_ge 4 _)) by lia.
  rewrite IH by lia. do 3 f_equal; lia.
Qed.

(** The digits [hex_string] prints. *)
Definition hex_digits (g : Z) : list Z :=
  if g <? 16 then [g]
  else if g <? 256 then [g / 16; g mod 16]
  else if g <? 4096 then [g / 256; g / 16 mod 16; g mod 16]
  else [g / 4096; g / 256 mod 16; g / 16 mod 16; g mod 16].

Lemma hex_digits_spec g :
  0 <= g < 65536 ->
  Forall (fun d => 0 <= d < 16) (hex_digits g) /\ 1 <= len (hex_digits g) <= 4 /\
  foldl (fun a d => a * 16 + d) 0 (hex_digits g) = g.
Proof.
  intros Hg. unfold hex_digits, len.
  pose proof (Z.div_mod g 16). pose proof (Z.div_mod (g / 16) 16). pose proof (Z.div_mod (g / 256) 16).
  assert (g / 256 = g / 16 / 16) by by rewrite Z.div_div.
  assert (g / 4096 = g / 256 / 16) by by rewrite Z.div_div.
  pose proof (Z.mod_pos_bound g 16). pose proof (Z.mod_pos_bound (g / 16) 16).
  pose proof (Z.mod_pos_bound (g / 256) 16).
  repeat (case_match; bool_inv); simpl; split_and!;
    repeat (apply Forall_cons; split); try apply Forall_nil_2; lia.
Qed.

Lemma read_hex g rest :
  0 <= g < 65536 -> stops 16 rest ->
  read_number 16 4 u16_max true (hex_string g ++ rest) = Some (g, rest).
Proof.
  intros Hg Hrest. destruct (hex_digits_spec g Hg) as (Hd & Hn & Hv).
  unfold read_number. change (hex_string g) with (hex_char <$> hex_digits g).
  erewrite read_digits_app; [|apply read_digits_hex; unfold u16_max; (done || lia)|done].
  rewrite Hv. simpl. by rewrite (proj2 (Z.eqb_neq _ 0)) by lia.
Qed.

Lemma octets_v4 a :
  0 <= a < 2 ^ 32 ->
  exists b c d e, be_bytes 4 a = [b; c; d; e] /\
    ((b2z b * 256 + b2z c) * 256 + b2z d) * 256 + b2z e = a.
Proof.
  intros Ha. pose proof (be_roundtrip 4 a Ha) as Hv.
  pose proof (length_be_bytes 4 a) as Hl. destruct (be_bytes 4 a) as [|b [|c [|d [|e [|? ?]]]]]; try done.
  exists b, c, d, e. split; [done|]. unfold be_value in Hv. simpl in Hv. lia.
Qed.

Lemma stops_dot rest : stops 10 (x2e :: rest).
Proof. done. Qed.

Lemma read_ipv4_display a rest :
  0 <= a < 2 ^ 32 -> stops 10 rest -> read_ipv4_addr (display_v4 a ++ rest) = Some (a, rest).
Proof.
  intros Ha Hrest. destruct (octets_v4 a Ha) as (b & c & d & e & Hb & Hv).
  unfold display_v4. rewrite Hb. cbn [fmap list_fmap join]. unfold read_ipv4_addr.
  rewrite <- !app_assoc. rewrite read_octet_dec by (apply b2z_range || apply stops_dot).
  cbn [mbind option_bind]. unfold read_separator.
  do 3 (cbn [app read_given_char Byte.eqb mbind option_bind]; change (Byte.eqb x2e x2e) with true;
        cbn [mbind option_bind]; rewrite ?read_octet_dec by first [apply b2z_range | apply stops_dot | done];
        cbn [mbind option_bind]).
  by rewrite Hv.
Qed.

(** The first byte that is not a hexadecimal digit. *)
Fixpoint first_nonhex (s : bytes) : option byte :=
  match s with
  | [] => None
  | b :: s' => match to_digit 16 b with Some _ => first_nonhex s' | None => Some b end
  end.

Lemma to_digit_mono b d : to_digit 10 b = Some d -> to_digit 16 b = Some d.
Proof. unfold to_digit. repeat (case_match; bool_inv); intros; simplify_eq; try done; lia. Qed.

Lemma read_digits_suffix max_digits max acc count s v n r :
  read_digits 10 max_digits max acc count s = Some (v, n, r) -> first_nonhex r = first_nonhex s.
Proof.
  revert acc count; induction s as [|b s IH]; intros acc count H; simpl in H; [by simplify_eq|].
  destruct (to_digit 10 b) eqn:E; [|by simplify_eq].
  do 2 (case_match; [done|]). simpl. rewrite (to_digit_mono _ _ E). by eapply IH.
Qed.

Lemma read_ipv4_none s : first_nonhex s <> Some x2e -> read_ipv4_addr s = None.
Proof.
  intros H. unfold read_ipv4_addr. destruct (read_octet s) as [[a r]|] eqn:E; [|done].
  cbn [mbind option_bind]. unfold read_octet, read_number in E.
  destruct (read_digits _ _ _ _ _ s) as [[[v n] r']|] eqn:D; [|done].
  apply read_digits_suffix in D. repeat (case_match; [done|]). simplify_eq.
  unfold read_separator. destruct r as [|b r]; [done|]. cbn [read_given_char].
  destruct (Byte.eqb b x2e) eqn:B; [|done]. apply byte_eqb_true in B as ->. by rewrite <- D in H.
Qed.

Lemma first_nonhex_hex g rest : 0 <= g < 65536 -> first_nonhex (hex_string g ++ rest) = first_nonhex rest.
Proof.
  intros Hg. destruct (hex_digits_spec g Hg) as (Hd & _).
  change (hex_string g) with (hex_char <$> hex_digits g).
  induction Hd as [|d l Hd _ IH]; [done|]. simpl. by rewrite to_digit_hex.
Qed.

(** Where a run of groups ends: at the end, or before the double colon. *)
Definition run_end (rest : bytes) : Prop := rest = [] \/ exists r, rest = x3a :: x3a :: r.

(** Groups that follow another group. *)
Definition more_groups (gs : list Z) : bytes := concat ((fun g => x3a :: hex_string g) <$> gs).

Lemma fmt_subslice_cons g gs : fmt_subslice (g :: gs) = hex_string g ++ more_groups gs.
Proof.
  revert g; induction gs as [|h gs IH]; intros g; [unfold fmt_subslice; simpl; by rewrite app_nil_r|].
  change (fmt_subslice (g :: h :: gs)) with (hex_string g ++ [x3a] ++ fmt_subslice (h :: gs)).
  by rewrite IH.
Qed.

Lemma run_end_stops rest : run_end rest -> stops 16 rest /\ first_nonhex rest <> Some x2e.
Proof. by intros [->|[r ->]]. Qed.

Lemma more_groups_stops gs rest :
  run_end rest -> stops 16 (more_groups gs ++ rest) /\ first_nonhex (more_groups gs ++ rest) <> Some x2e.
Proof. intros H. destruct gs as [|g gs]; [by apply run_end_stops|done]. Qed.

Lemma read_more_groups gs n i rest :
  Forall (fun g => 0 <= g < 65536) gs -> (length gs <= n)%nat -> run_end rest ->
  read_groups n (S i) (more_groups gs ++ rest) = (gs, false, rest).
Proof.
  intros Hg. revert n i; induction Hg as [|g gs Hg _ IH]; intros n i Hn Hrest.
  - destruct n as [|n]; [done|]. cbn [read_groups more_groups fmap list_fmap concat app].
    unfold read_separator. destruct Hrest as [->|[r ->]]; [by destruct (0 <? n)%nat|].
    cbn [read_given_char]. change (Byte.eqb x3a x3a) with true. cbn [mbind option_bind].
    rewrite read_ipv4_none by done. by destruct (0 <? n)%nat.
  - destruct n as [|n]; simpl in Hn; [lia|]. destruct (more_groups_stops gs rest Hrest) as [Hs Hd].
    change (more_groups (g :: gs)) with (x3a :: hex_string g ++ more_groups gs).
    rewrite <- app_comm_cons, <- app_assoc. cbn [read_groups]. unfold read_separator. cbn [read_given_char].
    change (Byte.eqb x3a x3a) with true. cbn [mbind option_bind].
    rewrite read_ipv4_none by by rewrite first_nonhex_hex.
    rewrite read_hex by done. rewrite IH by (done || lia). by destruct (0 <? n)%nat.
Qed.

Lemma read_groups_display gs n rest :
  Forall (fun g => 0 <= g < 65536) gs -> (length gs <= n)%nat -> run_end rest ->
  read_groups n 0 (fmt_subslice gs ++ rest) = (gs, false, rest).
Proof.
  intros Hg Hn Hrest. destruct Hg as [|g gs Hg Hgs].
  - destruct n as [|n]; [done|]. cbn [read_groups read_separator fmt_subslice fmap list_fmap join app].
    destruct Hrest as [->|[r ->]]; (rewrite read_ipv4_none by done); by destruct (0 <? n)%nat.
  - destruct n as [|n]; simpl in Hn; [lia|]. destruct (more_groups_stops gs rest Hrest) as [Hs Hd].
    rewrite fmt_subslice_cons, <- app_assoc. cbn [read_groups read_separator].
    rewrite read_ipv4_none by by rewrite first_nonhex_hex.
    rewrite read_hex by done. rewrite read_more_groups by (done || lia). by destruct (0 <? n)%nat.
Qed.

(** ** The longest run of zeroes *)

(** A span of zeroes of a list. *)
Definition zero_span (l : list Z) (span : nat * nat) : Prop :=
  exists l1 l2, l = l1 ++ replicate span.2 0 ++ l2 /\ (span.2 = 0%nat \/ length l1 = span.1).

(** The state of the loop after a prefix [l]. *)
Definition zeroes_loop (l : list Z) (st : nat * ((nat * nat) * (nat * nat))) : Prop :=
  st.1 = length l /\ zero_span l st.2.1 /\
  exists l1, l = l1 ++ replicate st.2.2.2 0 /\ (st.2.2.2 = 0%nat \/ length l1 = st.2.2.1).

Lemma zero_span_snoc l x span : zero_span l span -> zero_span (l ++ [x]) span.
Proof. intros (l1 & l2 & -> & H). exists l1, (l2 ++ [x]). by rewrite <- !app_assoc. Qed.

Lemma longest_zeroes_span l : zero_span l (longest_zeroes l).
Proof.
  unfold longest_zeroes.
  assert (zeroes_loop l (foldl (fun '(i, (longest, current)) s =>
     let current := if s =? 0
       then ((if (current.2 =? 0)%nat then i else current.1), S current.2) else (0, 0)%nat in
     (S i, ((if (longest.2 <? current.2)%nat then current else longest), current)))
   (0, ((0, 0), (0, 0)))%nat l)) as (_ & H & _); [|done].
  induction l as [|x l IH] using rev_ind; [split_and!; [done|exists [], []; auto|exists []; auto]|].
  rewrite foldl_app. cbn [foldl]. destruct (foldl _ _ l) as [i [longest [c m]]].
  destruct IH as (Hi & Hlong & l1 & Hl & Hc). cbn [fst snd] in *. unfold zeroes_loop. cbn [fst snd].
  assert (exists l1, l ++ [x] = l1 ++ replicate
      (if x =? 0 then ((if (m =? 0)%nat then i else c), S m) else (0, 0)%nat).2 0 /\
     ((if x =? 0 then ((if (m =? 0)%nat then i else c), S m) else (0, 0)%nat).2 = 0%nat \/
      length l1 = (if x =? 0 then ((if (m =? 0)%nat then i else c), S m) else (0, 0)%nat).1)) as Hcur.
  { destruct (Z.eqb_spec x 0) as [->|]; cbn [fst snd]; [|exists (l ++ [x]); simpl; rewrite app_nil_r; auto].
    exists l1. rewrite replicate_S_end, app_assoc, <- Hl. split; [done|]. right.
    destruct (Nat.eqb_spec m 0) as [->|]; [|naive_solver]. simpl in Hl. rewrite app_nil_r in Hl. naive_solver. }
  split_and!; [rewrite length_app; simpl; lia| |done].
  destruct (longest.2 <? _)%nat; [|by apply zero_span_snoc]. destruct Hcur as (l1' & Hl' & Hc').
  exists l1', []. rewrite app_nil_r. exact (conj Hl' Hc').
Qed.

(** ** Round trips *)

Lemma segments_range a : Forall (fun g => 0 <= g < 65536) (segments a).
Proof. apply Forall_fmap, Forall_true. intros i. by apply Z.mod_pos_bound. Qed.

Lemma shiftr_step a k k' :
  0 <= k -> k' = k + 16 -> Z.shiftr a k = Z.shiftr a k' * 65536 + Z.shiftr a k mod 65536.
Proof.
  intros Hk ->. rewrite <- Z.shiftr_shiftr by lia. rewrite (Z.shiftr_div_pow2 _ 16) by lia.
  rewrite (Z.div_mod (Z.shiftr a k) 65536) at 1 by lia. change (2 ^ 16) with 65536. lia.
Qed.

Lemma of_segments_segments a : 0 <= a < 2 ^ 128 -> of_segments (segments a) = a.
Proof.
  intros Ha. unfold of_segments, segments, segment. cbn [fmap list_fmap foldl].
  assert (Z.shiftr a 128 = 0) as H by (rewrite Z.shiftr_div_pow2, Z.div_small; lia).
  repeat match goal with |- context [112 - 16 * ?i] =>
    let v := eval vm_compute in (112 - 16 * i) in change (112 - 16 * i) with v end.
  pose proof (Z.shiftr_0_r a).
  pose proof (shiftr_step a 0 16). pose proof (shiftr_step a 16 32). pose proof (shiftr_step a 32 48).
  pose proof (shiftr_step a 48 64). pose proof (shiftr_step a 64 80). pose proof (shiftr_step a 80 96).
  pose proof (shiftr_step a 96 112). pose proof (shiftr_step a 112 128). clear Ha. lia.
Qed.

Lemma read_groups_S n i s :
  read_groups (S n) i s =
  match (if (0 <? n)%nat then read_separator x3a i read_ipv4_addr s else None) with
  | Some (a, s') => ([a / 65536; a mod 65536], true, s')
  | None =>
      match read_separator x3a i (read_number 16 4 u16_max true) s with
      | Some (g, s') => let '(gs, v4, s'') := read_groups n (S i) s' in (g :: gs, v4, s'')
      | None => ([], false, s)
      end
  end.
Proof. done. Qed.

Lemma read_separator_S {A} sep i (inner : reader A) s :
  read_separator sep (S i) inner (sep :: s) = inner s.
Proof. cbn [read_separator read_given_char]. by rewrite (proj2 (byte_eqb_true sep sep)). Qed.

Lemma read_groups_mapped v rest :
  0 <= v < 2 ^ 32 -> stops 10 rest ->
  read_groups 7 0 (hex_string 0xffff ++ x3a :: display_v4 v ++ rest) =
  ([0xffff; v / 65536; v mod 65536], true, rest).
Proof.
  intros Hv Hrest. rewrite read_groups_S. cbn [Nat.ltb Nat.leb read_separator].
  rewrite read_ipv4_none by done. rewrite read_hex by done. rewrite read_groups_S, read_separator_S.
  by rewrite read_ipv4_display.
Qed.

Lemma read_ipv6_mapped a v :
  to_ipv4_mapped a = Some v -> 0 <= a -> read_ipv6_addr (lit "::ffff:" ++ display_v4 v) = Some (a, []).
Proof.
  intros Hm Ha. unfold to_ipv4_mapped in Hm.
  destruct (Z.eqb_spec (Z.shiftr a 32) 0xffff) as [Hs|]; [|done]. injection Hm as <-.
  pose proof (Z.mod_pos_bound a (2 ^ 32) ltac:(lia)) as Hv.
  unfold read_ipv6_addr. rewrite <- (app_nil_r (display_v4 _)).
  change (lit "::ffff:" ++ display_v4 (a mod 2 ^ 32) ++ []) with
    (fmt_subslice [] ++ x3a :: x3a :: hex_string 0xffff ++ x3a :: display_v4 (a mod 2 ^ 32) ++ []).
  rewrite read_groups_display; [|constructor|simpl; lia|right; eauto].
  do 2 (cbn [length Nat.eqb mbind option_bind read_given_char Nat.add Nat.sub];
        change (Byte.eqb x3a x3a) with true).
  cbn [mbind option_bind]. rewrite read_groups_mapped by done.
  cbn [length Nat.sub replicate app of_segments foldl].
  rewrite Z.shiftr_div_pow2 in Hs by lia.
  pose proof (Z.div_mod a (2 ^ 32) ltac:(lia)).
  pose proof (Z.div_mod (a mod 2 ^ 32) 65536 ltac:(lia)). do 2 f_equal. lia.
Qed.

Lemma read_ipv6_display a :
  0 <= a < 2 ^ 128 -> read_ipv6_addr (display_v6 a) = Some (a, []).
Proof.
  intros Ha. destruct (to_ipv4_mapped a) as [v|] eqn:Hm.
  { unfold display_v6. rewrite Hm. apply read_ipv6_mapped; [done|lia]. }
  unfold display_v6. rewrite Hm. pose proof (longest_zeroes_span (segments a)) as Hz.
  pose proof (segments_range a) as Hr. pose proof (of_segments_segments a Ha) as Hv.
  assert (length (segments a) = 8%nat) as Hlen by done.
  revert Hz Hr Hv Hlen. generalize (segments a). intros l (l1 & l2 & Hl & Hpos) Hr Hv Hlen.
  destruct (longest_zeroes l) as [start n]. cbn [fst snd] in *. unfold read_ipv6_addr.
  destruct (Nat.ltb_spec 1 n) as [Hn|Hn].
  - destruct Hpos as [->|<-]; [lia|]. rewrite Hl, !length_app, length_replicate in Hlen.
    rewrite Hl in Hr. apply Forall_app in Hr as [Hr1 [_ Hr2]%Forall_app].
    replace (take (length l1) l) with l1 by (subst l; by rewrite take_app_length).
    replace (drop (length l1 + n) l) with l2.
    2: { subst l. rewrite app_assoc. rewrite drop_app_length'; [done|]. rewrite length_app, length_replicate. lia. }
    change (lit "::" ++ fmt_subslice l2) with (x3a :: x3a :: fmt_subslice l2).
    rewrite read_groups_display; [|done|lia|right; eauto].
    rewrite (proj2 (Nat.eqb_neq _ 8)) by lia.
    do 2 (cbn [mbind option_bind read_given_char]; change (Byte.eqb x3a x3a) with true).
    cbn [mbind option_bind]. rewrite <- (app_nil_r (fmt_subslice l2)), read_groups_display; [|done|lia|by left].
    replace (8 - length l1 - length l2)%nat with n by lia. by rewrite <- Hl, Hv.
  - rewrite <- (app_nil_r (fmt_subslice l)), read_groups_display; [|done|lia|by left].
    by rewrite Hlen, Hv.
Qed.

Lemma display_v6_nonhex a : read_ipv4_addr (display_v6 a) = None.
Proof.
  apply read_ipv4_none. unfold display_v6. destruct (to_ipv4_mapped a); [done|].
  pose proof (segments_range a) as Hr. pose proof (longest_zeroes_span (segments a)) as Hz.
  destruct (longest_zeroes (segments a)) as [start n]. case_match.
  - apply (Forall_take _ start) in Hr. destruct Hr as [|g gs Hg _]; [done|].
    rewrite fmt_subslice_cons, <- app_assoc, first_nonhex_hex by done.
    by apply more_groups_stops; right; eauto.
  - destruct Hr as [|g gs Hg _]; [done|]. rewrite fmt_subslice_cons, first_nonhex_hex by done.
    rewrite <- (app_nil_r (more_groups gs)). by apply more_groups_stops; left.
Qed.

(** Parsing a displayed address gives it back. *)
Lemma parse_ip_display a : ip_ok a -> parse_ip (display_ip a) = Some a.
Proof.
  intros Ha. unfold parse_ip. destruct a as [a|a]; simpl in Ha; cbn [display_ip].
  - rewrite <- (app_nil_r (display_v4 a)), read_ipv4_display by done. done.
  - by rewrite display_v6_nonhex, read_ipv6_display by done.
Qed.

(** ** The characters and the length of displayed addresses *)

Definition addr_char (b : byte) : bool :=
  is_ascii_digit b || in_range 97 102 (b2z b) || Byte.eqb b x3a || Byte.eqb b x2e.

Lemma addr_char_digits s :
  Forall (fun b => is_ascii_digit b = true) s -> Forall (fun b => addr_char b = true) s.
Proof. intros H. eapply Forall_impl; [exact H|]. intros b Hb. unfold addr_char. by rewrite Hb. Qed.

Lemma hex_string_spec g :
  0 <= g < 65536 -> Forall (fun b => addr_char b = true) (hex_string g) /\ len (hex_string g) <= 4.
Proof.
  intros Hg. destruct (hex_digits_spec g Hg) as (Hd & Hn & _).
  change (hex_string g) with (hex_char <$> hex_digits g).
  split; [|unfold len in *; rewrite length_fmap; lia]. apply Forall_fmap.
  eapply Forall_impl; [exact Hd|]. apply (below 16). by repeat constructor.
Qed.

Lemma join_chars (P : byte -> Prop) sep l :
  Forall P sep -> Forall (Forall P) l -> Forall P (join sep l).
Proof.
  intros Hsep. induction 1 as [|x l Hx Hl IH]; [constructor|]. destruct l as [|y l]; [done|].
  rewrite join_cons by done. by repeat (apply Forall_app; split).
Qed.

Lemma len_join sep l k :
  Forall (fun x => len x <= k) l -> l <> [] -> len (join sep l) <= len l * (k + len sep) - len sep.
Proof.
  intros Hl. pose proof (len_nonneg sep). induction Hl as [|x l Hx _ IH]; [done|]. intros _.
  rewrite len_cons. destruct l as [|y l]; [rewrite len_nil; simpl; lia|].
  rewrite join_cons, !len_app by done. specialize (IH ltac:(done)). lia.
Qed.

Lemma fmt_subslice_spec gs :
  Forall (fun g => 0 <= g < 65536) gs ->
  Forall (fun b => addr_char b = true) (fmt_subslice gs) /\
  len (fmt_subslice gs) <= Z.max 0 (len gs * 5 - 1).
Proof.
  intros Hg. split.
  - apply join_chars; [by repeat constructor|]. apply Forall_fmap.
    eapply Forall_impl; [exact Hg|]. intros g H. by apply hex_string_spec.
  - destruct (decide (gs = [])) as [->|Hne]; [done|].
    etransitivity; [apply (len_join _ _ 4); [|by rewrite fmap_nil_iff]|].
    + apply Forall_fmap. eapply Forall_impl; [exact Hg|]. intros g H. by apply hex_string_spec.
    + unfold len at 1. rewrite length_fmap. change (len [x3a]) with 1. unfold len. lia.
Qed.

Lemma len_dec_rev n z k : 0 <= z < 10 ^ k -> 1 <= k -> len (dec_rev n z) <= k.
Proof.
  revert z k; induction n as [|n IH]; intros z k Hz Hk; [simpl; rewrite len_nil; lia|].
  cbn [dec_rev]. rewrite len_cons. destruct (Z.ltb_spec z 10); [rewrite len_nil; lia|].
  destruct (decide (k = 1)) as [->|]; [lia|].
  replace (10 ^ k) with (10 * 10 ^ (k - 1)) in Hz by (rewrite <- Z.pow_succ_r by lia; f_equal; lia).
  ospecialize (IH (z / 10) (k - 1) _ _); [|lia|lia].
  split; [apply Z.div_pos; lia|apply Z.div_lt_upper_bound; lia].
Qed.

Lemma len_dec_string z k : 0 <= z < 10 ^ k -> 1 <= k -> len (dec_string z) <= k.
Proof. intros. unfold dec_string, len. rewrite length_rev. by apply len_dec_rev. Qed.

Lemma display_v4_spec a :
  Forall (fun b => addr_char b = true) (display_v4 a) /\ len (display_v4 a) <= 15.
Proof.
  unfold display_v4. split.
  - apply join_chars; [by repeat constructor|]. apply Forall_fmap, Forall_true. intros b.
    apply addr_char_digits, dec_string_digits. pose proof (b2z_range b). lia.
  - etransitivity; [apply (len_join _ _ 3); [|done]|].
    + apply Forall_fmap, Forall_true. intros b. pose proof (b2z_range b).
      apply len_dec_string; [|lia]. change (10 ^ 3) with 1000. lia.
    + unfold len at 1. by rewrite length_fmap, length_be_bytes.
Qed.

Lemma display_ip_spec a :
  Forall (fun b => addr_char b = true) (display_ip a) /\ len (display_ip a) <= 39.
Proof.
  destruct a as [a|a]; cbn [display_ip].
  { destruct (display_v4_spec a). split; [done|lia]. }
  unfold display_v6. destruct (to_ipv4_mapped a) as [v|].
  - destruct (display_v4_spec v). rewrite len_app. change (len (lit "::ffff:")) with 7.
    split; [apply Forall_app; split; [by repeat constructor|done]|lia].
  - pose proof (segments_range a) as Hr. assert (len (segments a) = 8) as Hn by done.
    pose proof (longest_zeroes_span (segments a)) as (l1 & l2 & Hl & Hs).
    destruct (longest_zeroes (segments a)) as [start n]. destruct (Nat.ltb_spec 1 n).
    + destruct (fmt_subslice_spec (take start (segments a)) ltac:(by apply Forall_take)) as [? Hl1].
      destruct (fmt_subslice_spec (drop (start + n) (segments a)) ltac:(by apply Forall_drop)) as [? Hl2].
      split; [apply Forall_app; split; [done|]; apply Forall_app; split; [by repeat constructor|done]|].
      rewrite !len_app. change (len (lit "::")) with 2.
      pose proof (len_nonneg (take start (segments a))).
      pose proof (len_nonneg (drop (start + n) (segments a))).
      assert (len (take start (segments a)) + len (drop (start + n) (segments a)) <= 6); [|lia].
      apply (f_equal length) in Hl. rewrite !length_app, length_replicate in Hl. simpl in Hl, Hs.
      unfold len. rewrite length_take, length_drop. change (length (segments a)) with 8%nat. lia.
    + destruct (fmt_subslice_spec (segments a) Hr). split; [done|lia].
Qed.

(** ** Parsed addresses have their width *)

Lemma read_digits_range radix max_digits max acc count s v n r :
  0 <= radix -> 0 <= acc <= max -> read_digits radix max_digits max acc count s = Some (v, n, r) -> 0 <= v <= max.
Proof.
  intros Hr. revert acc count; induction s as [|b s IH]; intros acc count Hacc H; simpl in H; [by simplify_eq|].
  destruct (to_digit radix b) as [d|] eqn:E; [|by simplify_eq].
  assert (0 <= d).
  { unfold to_digit, in_range in E. pose proof (b2z_range b). repeat (case_match; bool_inv; simplify_eq; try lia). }
  destruct (Z.ltb_spec max (acc * radix + d)); [done|]. case_match; [done|]. eapply IH; [|done]. nia.
Qed.

Lemma read_number_range radix max_digits max z s v r :
  0 <= radix -> 0 <= max -> read_number radix max_digits max z s = Some (v, r) -> 0 <= v <= max.
Proof.
  unfold read_number. destruct (read_digits _ _ _ _ _ s) as [[[v' n] r']|] eqn:E; [|done].
  intros Hr Hmax H. apply read_digits_range in E; [|lia..]. repeat (case_match; [done|]). by simplify_eq.
Qed.

Lemma read_ipv4_range s a r : read_ipv4_addr s = Some (a, r) -> 0 <= a < 2 ^ 32.
Proof.
  unfold read_ipv4_addr, read_separator, read_octet. intros H.
  apply bind_Some in H as ([o1 s1] & H1 & H). apply bind_Some in H as ([o2 s2] & H2 & H).
  apply bind_Some in H2 as (? & _ & H2). apply bind_Some in H as ([o3 s3] & H3 & H).
  apply bind_Some in H3 as (? & _ & H3). apply bind_Some in H as ([o4 s4] & H4 & H).
  apply bind_Some in H4 as (? & _ & H4). injection H as <- <-.
  apply read_number_range in H1, H2, H3, H4; try done. unfold u8_max in *. lia.
Qed.

Lemma read_groups_range n i s gs v4 r :
  read_groups n i s = (gs, v4, r) -> Forall (fun g => 0 <= g < 65536) gs /\ (length gs <= n)%nat.
Proof.
  revert i s gs v4 r; induction n as [|n IH]; intros i s gs v4 r H; [by injection H as <- _ _|].
  rewrite read_groups_S in H.
  destruct (if (0 <? n)%nat then read_separator x3a i read_ipv4_addr s else None) as [[a s']|] eqn:E.
  - injection H as <- _ _. destruct (Nat.ltb_spec 0 n); [|done].
    assert (0 <= a < 2 ^ 32) as Ha.
    { destruct i as [|i]; cbn [read_separator] in E; [by eapply read_ipv4_range|].
      apply bind_Some in E as (? & _ & E). by eapply read_ipv4_range. }
    split; [|simpl; lia]. pose proof (Z.mod_pos_bound a 65536 ltac:(lia)). repeat constructor; try lia.
    + apply Z.div_pos; lia.
    + apply Z.div_lt_upper_bound; lia.
  - destruct (read_separator x3a i (read_number 16 4 u16_max true) s) as [[g s']|] eqn:G.
    2: { injection H as <- _ _. split; [constructor|simpl; lia]. }
    destruct (read_groups n (S i) s') as [[gs' v4'] r'] eqn:R. injection H as <- _ _. apply IH in R as [Hg Hn].
    split; [|simpl; lia]. constructor; [|done].
    assert (0 <= g <= u16_max); [|unfold u16_max in *; lia].
    destruct i as [|i]; cbn [read_separator] in G; [by apply read_number_range in G|].
    apply bind_Some in G as (? & _ & G). by apply read_number_range in G.
Qed.

Lemma of_segments_range l :
  Forall (fun g => 0 <= g < 65536) l -> 0 <= of_segments l < 65536 ^ len l.
Proof.
  induction l as [|g l IH] using rev_ind; intros H; [done|]. apply Forall_app in H as [Hl [Hg _]%Forall_cons].
  unfold of_segments in *. rewrite foldl_app, len_app. simpl. change (len [g]) with 1.
  rewrite Z.pow_add_r by (try done; apply len_nonneg). specialize (IH Hl). lia.
Qed.

Lemma read_ipv6_range s a r : read_ipv6_addr s = Some (a, r) -> 0 <= a < 2 ^ 128.
Proof.
  unfold read_ipv6_addr. destruct (read_groups 8 0 s) as [[h v4] s1] eqn:E. apply read_groups_range in E as [Hh Hn].
  destruct (Nat.eqb_spec (length h) 8) as [Hl|Hl].
  { intros [= <- <-]. pose proof (of_segments_range h Hh) as H. unfold len in H. by rewrite Hl in H. }
  destruct v4; [done|]. intros H. apply bind_Some in H as (s2 & _ & H). apply bind_Some in H as (s3 & _ & H).
  destruct (read_groups _ 0 s3) as [[t v4] s4] eqn:T. apply read_groups_range in T as [Ht Hm]. injection H as <- <-.
  pose proof (of_segments_range (h ++ replicate (8 - length h - length t) 0 ++ t)) as H.
  ospecialize (H _).
  { apply Forall_app; split; [done|]. apply Forall_app; split; [|done]. by apply Forall_replicate. }
  unfold len in H. rewrite !length_app, length_replicate in H.
  by replace (length h + (8 - length h - length t + length t))%nat with 8%nat in H by lia.
Qed.

Lemma parse_ip_ok s a : parse_ip s = Some a -> ip_ok a.
Proof.
  unfold parse_ip. destruct (read_ipv4_addr s) as [[v r]|] eqn:E.
  - case_decide; [|done]. intros [= <-]. by eapply read_ipv4_range.
  - destruct (read_ipv6_addr s) as [[v r]|] eqn:F; [|done]. case_decide; [|done]. intros [= <-]. by eapply read_ipv6_range.
Qed.
