(* ===== verification/Lexical.v ===== *)
(** Product-neutral lexical validation and normalisation of the configuration
    crate ([oxiroute-config/src/lexical.rs]): addresses, DNS names, file and
    socket paths, HTTP paths and tokens, hosts.  A [Path] is its bytes, whose
    [to_str] succeeds when they are UTF-8; a function that updates its argument
    returns the new value.  The details of the rejections, static strings in
    the source, are strings here. *)

From stdpp Require Import base list sets strings.
From Stdlib Require Import ZArith Lia Strings.Byte.
From S2P Require Import Prelude Bytes Order Http Net.

Open Scope Z_scope.

Definition MAX_FILE_PATH_BYTES : Z := 4096.
Definition MAX_SERVER_NAME_BYTES : Z := 253.
Definition MAX_UNIX_SOCKET_PATH_BYTES : Z := 107.
Definition MAX_HTTP_METHOD_BYTES : Z := 32.
Definition MAX_RECORDING_SUFFIX_TEMPLATE_BYTES : Z := 128.

Inductive LexicalError : Type :=
| InvalidUtf8 | Empty | TooLong | RelativePath | Nul | RepeatedSeparator | TrailingSeparator | DotSegment
| NonAsciiDnsName | Wildcard | IpAddress | InvalidDnsLabel | InvalidHttpToken.

(** ** Addresses *)

Definition canonical_ip (a : IpAddr) : IpAddr :=
  match a with
  | V6 v6 => match to_ipv4_mapped v6 with Some v4 => V4 v4 | None => V6 v6 end
  | V4 _ => a
  end.

Definition normalize_socket_address (address : SocketAddr) : SocketAddr :=
  mkSocketAddr (canonical_ip (ip address)) (port address).

(** ** DNS names *)

Definition is_valid_dns_label (label : bytes) : bool :=
  negb (bool_decide (label = [])) && (len label <=? 63) &&
  forallb (fun b => is_ascii_alphanumeric b || Byte.eqb b x2d) label &&
  default false (is_ascii_alphanumeric <$> head label) && default false (is_ascii_alphanumeric <$> last label).

Definition validate_dns_name (name : bytes) (certificate_wildcard : bool) : result unit LexicalError :=
  if negb (forallb is_ascii name) then Err NonAsciiDnsName
  else if bool_decide (name = []) then Err Empty
  else if MAX_SERVER_NAME_BYTES <? len name then Err TooLong
  else if ends_with name (lit ".") then Err InvalidDnsLabel
  else
    let exact_name := if certificate_wildcard then default name (strip_prefix (lit "*.") name) else name in
    if contains_byte x2a exact_name then Err Wildcard
    else if bool_decide (exact_name = []) || negb (forallb is_valid_dns_label (split x2e exact_name))
    then Err InvalidDnsLabel
    else Ok tt.

Definition canonical_dns_name (name : bytes) : result bytes LexicalError :=
  let? _ := validate_dns_name name false in
  if bool_decide (is_Some (parse_ip name)) then Err IpAddress
  else Ok (to_ascii_lowercase name).

Definition canonical_certificate_dns_name (name : bytes) : result bytes LexicalError :=
  let? _ := validate_dns_name name true in
  let exact_name := default name (strip_prefix (lit "*.") name) in
  if bool_decide (is_Some (parse_ip exact_name)) then Err IpAddress
  else Ok (to_ascii_lowercase name).

Definition is_valid_certificate_dns_name (dns_name : bytes) : bool :=
  bool_decide (is_Some (parse_ip dns_name)) || is_ok (canonical_certificate_dns_name dns_name).

Definition is_valid_dns_name (name : bytes) : bool := is_ok (canonical_dns_name name).

(** The host of a selector: whether it is acceptable, and what it becomes. *)
Definition lexical_normalize_host (host : bytes) : bool * bytes :=
  let host := to_ascii_lowercase host in
  match parse_ip host with
  | Some ip => (true, display_ip ip)
  | None =>
      if MAX_SERVER_NAME_BYTES <? len host then (false, host)
      else
        match strip_prefix (lit "*.") host with
        | Some dns_name =>
            if bool_decide (is_Some (parse_ip dns_name)) then (false, host)
            else (negb (bool_decide (dns_name = [])) && forallb is_valid_dns_label (split x2e dns_name), host)
        | None =>
            if starts_with host (lit "*") then (false, host)
            else (negb (bool_decide (host = [])) && forallb is_valid_dns_label (split x2e host), host)
        end
  end.

(** ** Paths *)

Definition dot_segment (segment : bytes) : bool := beqb segment (lit ".") || beqb segment (lit "..").

(** [contains("//")]. *)
Fixpoint repeated_separator (s : bytes) : bool :=
  match s with
  | b :: (c :: _) as t => Byte.eqb b x2f && Byte.eqb c x2f || repeated_separator t
  | _ => false
  end.

Definition validate_absolute_file_path (path : bytes) : result unit LexicalError :=
  if negb (utf8_valid path) then Err InvalidUtf8
  else if MAX_FILE_PATH_BYTES <? len path then Err TooLong
  else if negb (starts_with path (lit "/")) then Err RelativePath
  else if contains_byte x00 path then Err Nul
  else if repeated_separator path then Err RepeatedSeparator
  else if ends_with path (lit "/") then Err TrailingSeparator
  else if existsb dot_segment (split x2f path) then Err DotSegment
  else Ok tt.

(** The loop that rebuilds a path from its nonempty segments. *)
Fixpoint push_segments {E} (dots : E) (normalized : bytes) (segments : list bytes) : result bytes E :=
  match segments with
  | [] => Ok normalized
  | segment :: segments =>
      if bool_decide (segment = []) then push_segments dots normalized segments
      else if dot_segment segment then Err dots
      else push_segments dots (normalized ++ x2f :: segment) segments
  end.

Definition normalize_unix_socket_path (path : bytes) : result bytes LexicalError :=
  if negb (utf8_valid path) then Err InvalidUtf8
  else if negb (starts_with path (lit "/")) then Err RelativePath
  else if contains_byte x00 path then Err Nul
  else if ends_with path (lit "/") then Err TrailingSeparator
  else
    let? normalized := push_segments DotSegment [] (split x2f path) in
    if bool_decide (normalized = []) then Err Empty
    else if MAX_UNIX_SOCKET_PATH_BYTES <? len normalized then Err TooLong
    else Ok normalized.

Definition normalize_absolute_path (path : bytes) (max_bytes : Z)
    (trailing_separator_detail empty_detail too_long_detail : string) : result bytes string :=
  if negb (utf8_valid path) then Err "path must be valid UTF-8"%string
  else if negb (starts_with path (lit "/")) then Err "path must be absolute"%string
  else if existsb (fun b => Byte.eqb b x00 || is_ascii_control b) path
  then Err "path must not contain NUL or control bytes"%string
  else if ends_with path (lit "/") then Err trailing_separator_detail
  else
    let? normalized :=
      push_segments "path must not contain `.` or `..` segments"%string [] (split x2f path) in
    if bool_decide (normalized = []) then Err empty_detail
    else if max_bytes <? len normalized then Err too_long_detail
    else Ok normalized.

Definition normalize_absolute_directory (path : bytes) : result bytes string :=
  if utf8_valid path && (MAX_FILE_PATH_BYTES <? len path) then Err "path exceeds 4096 bytes"%string
  else normalize_absolute_path path MAX_FILE_PATH_BYTES "directory path must not end with `/`"
         "path must identify a directory" "path exceeds 4096 bytes".

Definition validate_relative_path (path : bytes) (max_bytes : Z) : result unit string :=
  if negb (utf8_valid path) then Err "path must be valid UTF-8"%string
  else if bool_decide (path = []) then Err "path must not be empty"%string
  else if max_bytes <? len path then Err "path exceeds its byte limit"%string
  else if starts_with path (lit "/") then Err "path must be relative"%string
  else if existsb (fun b => Byte.eqb b x00 || is_ascii_control b) path
  then Err "path must not contain NUL or control bytes"%string
  else if contains_byte x5c path then Err "path must not contain backslashes"%string
  else if ends_with path (lit "/") || repeated_separator path
  then Err "path must not contain empty segments"%string
  else if existsb dot_segment (split x2f path) then Err "path must not contain `.` or `..` segments"%string
  else Ok tt.

(** The scan of a recording suffix for its format items. *)
Fixpoint format_items_supported (s : bytes) : bool :=
  match s with
  | [] => true
  | b :: s' =>
      if negb (Byte.eqb b x25) then format_items_supported s'
      else
        match s' with
        | c :: s'' => contains_byte c (lit "YmdHMS%") && format_items_supported s''
        | [] => false
        end
  end.

Definition validate_recording_suffix_template (suffix_template : bytes) : result unit string :=
  if MAX_RECORDING_SUFFIX_TEMPLATE_BYTES <? len suffix_template then Err "template exceeds 128 bytes"%string
  else if contains_byte x00 suffix_template then Err "template must not contain NUL"%string
  else if existsb (fun b => Byte.eqb b x2f || Byte.eqb b x5c) suffix_template
  then Err "template must not contain path separators"%string
  else if negb (format_items_supported suffix_template)
  then Err "template contains an unsupported percent format item"%string
  else Ok tt.

(** ** HTTP paths and tokens *)

Definition to_ascii_uppercase_byte (b : byte) : byte :=
  if is_ascii_lowercase b then z2b (b2z b - 32) else b.

Definition hex_nibble (value : byte) : option Z :=
  let v := b2z value in
  if in_range 48 57 v then Some (v - 48)
  else if in_range 97 102 v then Some (v - 97 + 10)
  else if in_range 65 70 v then Some (v - 65 + 10)
  else None.

Definition decode_hex_byte (high low : byte) : option byte :=
  h ← hex_nibble high; l ← hex_nibble low; Some (z2b (Z.lor (Z.shiftl h 4) l)).

(** An escape that would only hide a character with a meaning of its own. *)
Definition escape_rejected (encoded : byte) : bool :=
  is_ascii_alphanumeric encoded || contains_byte encoded (lit "-._~/\").

(** The scan of the escapes: the path with their digits in upper case, and
    whether that changed anything. *)
Fixpoint canonicalize_escapes (bs : bytes) : option (bytes * bool) :=
  match bs with
  | [] => Some ([], false)
  | b :: bs' =>
      if negb (Byte.eqb b x25) then
        r ← canonicalize_escapes bs'; let '(rest, changed) := r in Some (b :: rest, changed)
      else
        match bs' with
        | h :: l :: bs'' =>
            encoded ← decode_hex_byte h l;
            if escape_rejected encoded then None
            else
              r ← canonicalize_escapes bs'';
              let '(rest, changed) := r in
              let h' := to_ascii_uppercase_byte h in
              let l' := to_ascii_uppercase_byte l in
              Some (b :: h' :: l' :: rest, negb (Byte.eqb h h') || negb (Byte.eqb l l') || changed)
        | _ => None
        end
  end.

Definition canonicalize_http_path (path : bytes) : option bytes :=
  if contains_byte x5c path || repeated_separator path || existsb dot_segment (split x2f path) then None
  else
    r ← canonicalize_escapes path;
    let '(canonical, changed) := r in
    if negb changed then Some path
    else if utf8_valid canonical then Some canonical else None.

Definition is_unambiguous_http_path (path : bytes) : bool := bool_decide (is_Some (canonicalize_http_path path)).

Definition normalize_http_token (method : bytes) : result bytes LexicalError :=
  if bool_decide (method = []) then Err Empty
  else if MAX_HTTP_METHOD_BYTES <? len method then Err TooLong
  else if negb (forallb (fun b => is_ascii_alphanumeric b || contains_byte b (lit "!#$%&'*+-.^_`|~")) method)
  then Err InvalidHttpToken
  else Ok (to_ascii_uppercase_byte <$> method).

(** ** Case and separators *)

Lemma lowercase_byte_other c b :
  is_ascii_alphabetic c = false -> Byte.eqb (to_ascii_lowercase_byte b) c = Byte.eqb b c.
Proof.
  intros Hc. rewrite !byte_eqb_spec. apply bool_decide_ext. split; [|intros ->; by destruct c].
  intros <-. by destruct b.
Qed.

Lemma split_lowercase c s :
  is_ascii_alphabetic c = false -> split c (to_ascii_lowercase s) = to_ascii_lowercase <$> split c s.
Proof.
  intros Hc. induction s as [|b s IH]; [done|].
  change (to_ascii_lowercase (b :: s)) with (to_ascii_lowercase_byte b :: to_ascii_lowercase s).
  simpl. rewrite lowercase_byte_other by done. rewrite IH. destruct (Byte.eqb b c); [done|]. by destruct (split c s).
Qed.

Lemma contains_lowercase c s :
  is_ascii_alphabetic c = false -> contains_byte c (to_ascii_lowercase s) = contains_byte c s.
Proof.
  intros Hc. induction s as [|b s IH]; [done|]. unfold contains_byte in *. simpl. rewrite IH. f_equal.
  rewrite !(byte_eqb_spec c), (bool_decide_ext _ (to_ascii_lowercase_byte b = c)) by done.
  rewrite <- byte_eqb_spec, lowercase_byte_other by done. rewrite byte_eqb_spec. by apply bool_decide_ext.
Qed.

Lemma repeated_separator_lowercase s : repeated_separator (to_ascii_lowercase s) = repeated_separator s.
Proof.
  induction s as [|b [|c s] IH]; [done|done|].
  change (repeated_separator (to_ascii_lowercase (b :: c :: s)))
    with (Byte.eqb (to_ascii_lowercase_byte b) x2f && Byte.eqb (to_ascii_lowercase_byte c) x2f ||
          repeated_separator (to_ascii_lowercase (c :: s))).
  by rewrite IH, !lowercase_byte_other.
Qed.

Lemma beqb_lowercase s t :
  Forall (fun c => is_ascii_alphabetic c = false) t -> beqb (to_ascii_lowercase s) t = beqb s t.
Proof.
  intros Ht. apply bool_decide_ext. revert s. induction Ht as [|c t Hc Ht IH]; intros [|b s]; try done.
  change (to_ascii_lowercase (b :: s)) with (to_ascii_lowercase_byte b :: to_ascii_lowercase s).
  specialize (IH s). assert (to_ascii_lowercase_byte b = c <-> b = c) as Hb
    by by rewrite <- !byte_eqb_true, lowercase_byte_other.
  split; intros H; injection H as H1 H2; (f_equal; [by apply Hb|by apply IH]).
Qed.

Lemma dot_segment_lowercase s : dot_segment (to_ascii_lowercase s) = dot_segment s.
Proof. unfold dot_segment. by rewrite !beqb_lowercase by by repeat constructor. Qed.

Lemma existsb_fmap {A B} (f : B -> bool) (g : A -> B) l :
  existsb f (g <$> l) = existsb (fun x => f (g x)) l.
Proof. induction l as [|x l IH]; [done|]. rewrite fmap_cons. simpl. by rewrite IH. Qed.

Lemma existsb_ext_all {A} (f g : A -> bool) l : (forall x, f x = g x) -> existsb f l = existsb g l.
Proof. intros H. induction l as [|x l IH]; [done|]. simpl. by rewrite H, IH. Qed.

(** What [canonicalize_http_path] looks at before the escapes. *)
Definition separators_bad (p : bytes) : bool :=
  contains_byte x5c p || repeated_separator p || existsb dot_segment (split x2f p).

Lemma separators_bad_lowercase p q :
  to_ascii_lowercase p = to_ascii_lowercase q -> separators_bad p = separators_bad q.
Proof.
  assert (forall s, separators_bad s = separators_bad (to_ascii_lowercase s)) as H.
  { intros s. unfold separators_bad.
    rewrite contains_lowercase, repeated_separator_lowercase, split_lowercase, existsb_fmap by done.
    f_equal. apply existsb_ext_all. intros x. by rewrite dot_segment_lowercase. }
  intros E. by rewrite (H p), (H q), E.
Qed.

(** ** Escapes *)

(** Percent-decoding as a client of the path does it: an escape becomes the
    byte it stands for, anything else stays. *)
Fixpoint decoded (bs : bytes) : bytes :=
  match bs with
  | b :: bs' =>
      if negb (Byte.eqb b x25) then b :: decoded bs'
      else
        match bs' with
        | h :: l :: bs'' =>
            match decode_hex_byte h l with Some e => e :: decoded bs'' | None => b :: decoded bs' end
        | _ => b :: decoded bs'
        end
  | [] => []
  end.

(** A path whose escapes are well formed and hide no unreserved character, as
    a derivation. *)
Inductive escaped : bytes -> Prop :=
| escaped_nil : escaped []
| escaped_plain b s : b <> x25 -> escaped s -> escaped (b :: s)
| escaped_escape h l e s :
    decode_hex_byte h l = Some e -> escape_rejected e = false -> escaped s -> escaped (x25 :: h :: l :: s).

Fixpoint upper_escapes (bs : bytes) : bytes :=
  match bs with
  | b :: bs' =>
      if negb (Byte.eqb b x25) then b :: upper_escapes bs'
      else
        match bs' with
        | h :: l :: bs'' => b :: to_ascii_uppercase_byte h :: to_ascii_uppercase_byte l :: upper_escapes bs''
        | _ => bs
        end
  | [] => []
  end.

Lemma plain_eqb b : b <> x25 -> Byte.eqb b x25 = false.
Proof. intros H. rewrite byte_eqb_spec. by apply bool_decide_eq_false. Qed.

Lemma canonicalize_escapes_Some p r :
  canonicalize_escapes p = Some r ->
  escaped p /\ r.1 = upper_escapes p /\ (r.2 = false -> r.1 = p).
Proof.
  revert r. induction p as [p IH] using (induction_ltof1 _ (@length byte)). unfold ltof in IH.
  intros r. destruct p as [|b p]; [intros [= <-]; by repeat constructor|]. simpl.
  destruct (Byte.eqb b x25) eqn:Eb; simpl.
  - apply byte_eqb_true in Eb as ->. destruct p as [|h [|l p]]; [done|done|].
    destruct (decode_hex_byte h l) as [e|] eqn:Ee; [|done]. simpl.
    destruct (escape_rejected e) eqn:Er; [done|].
    destruct (canonicalize_escapes p) as [[rest changed]|] eqn:Ep; [|done]. simpl. intros [= <-].
    destruct (IH p ltac:(simpl; lia) _ Ep) as (Hs & Hu & Hc). simpl in *. split_and!.
    + by eapply escaped_escape.
    + by rewrite Hu.
    + intros H. apply orb_false_iff in H as [H Hc']. apply orb_false_iff in H as [H1 H2].
      apply negb_false_iff, byte_eqb_true in H1, H2. rewrite <- H1, <- H2. by rewrite Hc.
  - destruct (canonicalize_escapes p) as [[rest changed]|] eqn:Ep; [|done]. simpl. intros [= <-].
    destruct (IH p ltac:(simpl; lia) _ Ep) as (Hs & Hu & Hc). simpl in *. split_and!.
    + constructor; [|done]. intros ->. done.
    + by rewrite Hu.
    + intros H. by rewrite Hc.
Qed.

Lemma hex_nibble_upper b : hex_nibble (to_ascii_uppercase_byte b) = hex_nibble b.
Proof. by destruct b. Qed.

Lemma decode_hex_byte_upper h l :
  decode_hex_byte (to_ascii_uppercase_byte h) (to_ascii_uppercase_byte l) = decode_hex_byte h l.
Proof. unfold decode_hex_byte. by rewrite !hex_nibble_upper. Qed.

Lemma upper_idempotent b : to_ascii_uppercase_byte (to_ascii_uppercase_byte b) = to_ascii_uppercase_byte b.
Proof. by destruct b. Qed.

Lemma lower_upper b : to_ascii_lowercase_byte (to_ascii_uppercase_byte b) = to_ascii_lowercase_byte b.
Proof. by destruct b. Qed.

(** Upper-casing the digits keeps the path's text up to case, what it decodes
    to, and leaves nothing to change. *)
Lemma upper_escapes_spec p : escaped p ->
  canonicalize_escapes (upper_escapes p) = Some (upper_escapes p, false) /\
  to_ascii_lowercase (upper_escapes p) = to_ascii_lowercase p /\
  decoded (upper_escapes p) = decoded p.
Proof.
  induction 1 as [|b s Hb Hs (IH1 & IH2 & IH3)|h l e s He Hr Hs (IH1 & IH2 & IH3)]; [done| |].
  - simpl. rewrite plain_eqb by done. simpl. rewrite plain_eqb, IH1 by done. simpl. rewrite IH3.
    split_and!; [done| |done]. unfold to_ascii_lowercase in *. simpl. by rewrite IH2.
  - simpl. rewrite decode_hex_byte_upper, He. simpl. rewrite Hr, IH1. simpl.
    rewrite !upper_idempotent, IH3. split_and!; [| |done].
    + assert (forall b, Byte.eqb b b = true) as Hrefl by (intros; by apply byte_eqb_true). by rewrite !Hrefl.
    + unfold to_ascii_lowercase in *. simpl. by rewrite !lower_upper, IH2.
Qed.

(** The digits of an escape are no separators. *)
Lemma hex_nibble_separator b n : hex_nibble b = Some n -> Byte.eqb b x2f = false.
Proof. destruct b; try done; vm_compute; done. Qed.

Lemma decode_hex_byte_digits h l e :
  decode_hex_byte h l = Some e -> Byte.eqb h x2f = false /\ Byte.eqb l x2f = false.
Proof.
  unfold decode_hex_byte. destruct (hex_nibble h) eqn:Hh; [|done]. destruct (hex_nibble l) eqn:Hl; [|done].
  intros _. split; by eapply hex_nibble_separator.
Qed.

Lemma split_nonempty c s : split c s <> [].
Proof. destruct s as [|b s]; [done|]. simpl. destruct (Byte.eqb b c), (split c s); done. Qed.

Lemma split_plain c b s piece rest :
  Byte.eqb b c = false -> split c s = piece :: rest -> split c (b :: s) = (b :: piece) :: rest.
Proof. intros Hb Hs. simpl. by rewrite Hb, Hs. Qed.

Lemma escape_rejected_not e c :
  escape_rejected e = false -> escape_rejected c = true -> Byte.eqb e c = false.
Proof. intros He Hc. rewrite byte_eqb_spec. apply bool_decide_eq_false. intros ->. congruence. Qed.

(** Cutting into segments and decoding commute. *)
Lemma decoded_segments p : escaped p ->
  split x2f (decoded p) = decoded <$> split x2f p /\ Forall escaped (split x2f p).
Proof.
  induction 1 as [|b s Hb Hs (IH & HF)|h l e s He Hr Hs (IH & HF)]; [split; [done|by repeat constructor]| |].
  - simpl decoded. rewrite plain_eqb by done. simpl negb. cbv iota.
    destruct (Byte.eqb b x2f) eqn:Eb.
    { simpl. rewrite Eb, IH. split; [done|]. by constructor; [constructor|]. }
    destruct (split x2f s) as [|piece rest] eqn:Es; [by apply split_nonempty in Es|].
    rewrite (split_plain _ _ _ _ _ Eb Es), (split_plain _ _ _ _ _ Eb IH). simpl.
    rewrite plain_eqb by done. apply Forall_cons in HF as [HF1 HF2].
    split; [done|]. constructor; [|done]. by constructor.
  - destruct (decode_hex_byte_digits _ _ _ He) as [Hh Hl].
    destruct (split x2f s) as [|piece rest] eqn:Es; [by apply split_nonempty in Es|].
    rewrite (split_plain x2f x25 (h :: l :: s) (h :: l :: piece) rest);
      [|done|by apply split_plain, split_plain].
    change (decoded (x25 :: h :: l :: s)) with
      (match decode_hex_byte h l with Some e => e :: decoded s | None => x25 :: decoded (h :: l :: s) end).
    rewrite He. rewrite (split_plain x2f e _ _ _ (escape_rejected_not e x2f Hr eq_refl) IH).
    rewrite fmap_cons. apply Forall_cons in HF as [HF1 HF2]. split.
    + f_equal. simpl. by rewrite He.
    + constructor; [|done]. by eapply escaped_escape.
Qed.

(** No escape stands for a character with a meaning of its own: decoded text
    made of such characters was not escaped. *)
Lemma decoded_plain s : escaped s -> Forall (fun b => escape_rejected b = true) (decoded s) -> decoded s = s.
Proof.
  induction 1 as [|b s Hb Hs IH|h l e s He Hr Hs IH]; [done| |].
  - simpl. rewrite plain_eqb by done. simpl. intros [_ H]%Forall_cons. by rewrite IH.
  - simpl. rewrite He. intros [H _]%Forall_cons. congruence.
Qed.

Lemma decoded_byte c s : escaped s -> escape_rejected c = true -> c ∈ decoded s -> c ∈ s.
Proof.
  intros Hs Hc. induction Hs as [|b s Hb Hs IH|h l e s He Hr Hs IH]; [done| |].
  - simpl. rewrite plain_eqb by done. simpl. set_solver.
  - simpl. rewrite He. intros [->|H]%elem_of_cons; [congruence|]. set_solver.
Qed.

(** C38: A path that is accepted has one interpretation: canonicalising again
    changes nothing; the canonical path decodes to what the given one decodes
    to; cutting it into segments and decoding them in either order gives the
    same; and after decoding it has no backslash and no dot segment. *)
Theorem http_path_stable (p q : bytes) :
  canonicalize_http_path p = Some q ->
  canonicalize_http_path q = Some q /\ decoded q = decoded p /\
  split x2f (decoded q) = decoded <$> split x2f q /\
  (x5c ∉ decoded q) /\ Forall (fun segment => dot_segment segment = false) (split x2f (decoded q)).
Proof.
  unfold canonicalize_http_path. fold (separators_bad p) (separators_bad q).
  destruct (separators_bad p) eqn:Hp; [done|].
  destruct (canonicalize_escapes p) as [[u changed]|] eqn:E; [|done]. simpl. intros H.
  destruct (canonicalize_escapes_Some _ _ E) as (Hs & Hu & Hc). simpl in *.
  assert (q = upper_escapes p) as -> by (destruct changed; simpl in H; [case_match|]; naive_solver).
  destruct (upper_escapes_spec _ Hs) as (Hi & Hl & Hd).
  destruct (canonicalize_escapes_Some _ _ Hi) as (Hsu & _ & _).
  assert (separators_bad (upper_escapes p) = false) as Hq by by rewrite (separators_bad_lowercase _ p).
  rewrite Hq, Hi. simpl. destruct (decoded_segments _ Hsu) as [Hseg HF]. split_and!; try done.
  - intros Hb%decoded_byte; [|done|done]. unfold separators_bad in Hq.
    apply contains_byte_true in Hb. by rewrite Hb in Hq.
  - rewrite Hseg. apply Forall_fmap, Forall_forall. intros s Hin. simpl.
    apply not_true_iff_false. intros Hdot. rewrite Forall_forall in HF. specialize (HF _ Hin).
    assert (decoded s = s) as Hds.
    { apply decoded_plain; [done|]. unfold dot_segment, beqb in Hdot. apply orb_true_iff in Hdot as [Hdot|Hdot];
        apply bool_decide_eq_true in Hdot; rewrite Hdot; by repeat constructor. }
    rewrite Hds in Hdot. unfold separators_bad in Hq. apply orb_false_iff in Hq as [_ Hq].
    apply not_true_iff_false in Hq. apply Hq, existsb_exists. exists s. by rewrite <- list_elem_of_In.
Qed.

Lemma http_path_stable_witness :
  canonicalize_http_path (lit "/a%2a/b%C3%a9") = Some (lit "/a%2A/b%C3%A9") /\
  canonicalize_http_path (lit "/a%2A/b%C3%A9") = Some (lit "/a%2A/b%C3%A9").
Proof.
  split; [by vm_compute|].
  apply (http_path_stable (lit "/a%2a/b%C3%a9") (lit "/a%2A/b%C3%A9") ltac:(by vm_compute)).
Defined.

(** ** Paths stay where they point *)

(** How the file system reads a path from a directory: the names it goes
    through, with empty and single-dot segments standing still and double dots
    going up. *)
Fixpoint walk (here : list bytes) (segments : list bytes) : list bytes :=
  match segments with
  | [] => here
  | segment :: segments =>
      walk (if beqb segment [] || beqb segment (lit ".") then here
            else if beqb segment (lit "..") then take (length here - 1) here
            else here ++ [segment]) segments
  end.

Lemma walk_down here segments :
  Forall (fun s => s <> [] /\ dot_segment s = false) segments -> walk here segments = here ++ segments.
Proof.
  intros H. revert here. induction H as [|s l [Hne Hd] H IH]; intros here; simpl; [by rewrite app_nil_r|].
  unfold dot_segment in Hd. apply orb_false_iff in Hd as [Hd1 Hd2].
  unfold beqb at 1. rewrite bool_decide_eq_false_2, Hd1, Hd2 by done. simpl. by rewrite IH, <- app_assoc.
Qed.

Lemma split_no_sep c s : Forall (Forall (fun b => b <> c)) (split c s).
Proof.
  induction s as [|b s IH]; simpl; [by repeat constructor|].
  destruct (Byte.eqb b c) eqn:E; [by constructor|].
  assert (b <> c) as Hb by (intros ->; by rewrite (proj2 (byte_eqb_true c c) eq_refl) in E).
  destruct (split c s) as [|piece rest]; [by repeat constructor|].
  apply Forall_cons in IH as [IH1 IH2]. constructor; [by constructor|done].
Qed.

(** Without repeated separators only the first and the last segment can be
    empty. *)
Lemma segments_nonempty s :
  repeated_separator s = false -> ends_with s (lit "/") = false -> s <> [] ->
  Forall (fun segment => segment <> []) (tail (split x2f s)).
Proof.
  intros Hr He _. induction s as [|b s IH]; [by constructor|].
  destruct s as [|c s]; [simpl; destruct (Byte.eqb b x2f) eqn:E; [|by constructor]|].
  { apply byte_eqb_true in E as ->. by vm_compute in He. }
  assert (repeated_separator (c :: s) = false /\ (b = x2f -> c <> x2f)) as [Hr' Hbc].
  { simpl in Hr. apply orb_false_iff in Hr as [H1 H2]. split; [done|]. intros -> ->. done. }
  assert (ends_with (c :: s) (lit "/") = false) as He'.
  { apply not_true_iff_false. intros (t & Ht)%ends_with_spec. apply not_true_iff_false in He. apply He.
    apply ends_with_spec. exists (b :: t). by rewrite Ht. }
  specialize (IH Hr' He').
  change (split x2f (b :: c :: s)) with (if Byte.eqb b x2f then [] :: split x2f (c :: s)
    else match split x2f (c :: s) with piece :: rest => (b :: piece) :: rest | [] => [[b]] end).
  destruct (Byte.eqb b x2f) eqn:Eb.
  - apply byte_eqb_true in Eb. simpl tail. simpl in *. destruct (Byte.eqb c x2f) eqn:Ec.
    { apply byte_eqb_true in Ec. naive_solver. }
    destruct (split x2f s) as [|piece rest]; by constructor.
  - destruct (split x2f (c :: s)); [by constructor|done].
Qed.

Lemma existsb_dots l : existsb dot_segment l = false -> Forall (fun s => dot_segment s = false) l.
Proof.
  intros H. apply Forall_forall. intros s Hs. apply not_true_iff_false. intros Hd.
  apply not_true_iff_false in H. apply H, existsb_exists. exists s. by rewrite <- list_elem_of_In.
Qed.

Lemma Forall_tail {A} (P : A -> Prop) l : Forall P l -> Forall P (tail l).
Proof. by destruct 1. Qed.

Lemma absolute_split s : starts_with s (lit "/") = true -> split x2f s = [] :: tail (split x2f s).
Proof. intros (t & ->)%starts_with_spec. done. Qed.

Lemma push_segments_Ok {E} (dots : E) acc segs q :
  push_segments dots acc segs = Ok q ->
  q = acc ++ concat (cons x2f <$> filter (fun s => s <> []) segs) /\
  Forall (fun s => dot_segment s = false) (filter (fun s => s <> []) segs).
Proof.
  revert acc. induction segs as [|s segs IH]; intros acc; simpl.
  { intros [= <-]. by rewrite app_nil_r. }
  case_bool_decide as Hs.
  - rewrite filter_cons_False by (intros H; congruence). apply IH.
  - rewrite filter_cons_True by done. destruct (dot_segment s) eqn:Hd; [done|].
    intros (-> & HF)%IH. rewrite fmap_cons. simpl. split; [by rewrite <- app_assoc|]. by constructor.
Qed.

Lemma split_pushed segs :
  Forall (Forall (fun b => b <> x2f)) segs -> segs <> [] ->
  split x2f (concat (cons x2f <$> segs)) = [] :: segs.
Proof.
  intros HF Hne. assert (concat (cons x2f <$> segs) = x2f :: join [x2f] segs) as ->.
  { clear HF. induction segs as [|s [|s' segs] IH]; [done|by rewrite fmap_cons; simpl; rewrite app_nil_r|].
    change (concat (cons x2f <$> s :: s' :: segs)) with ((x2f :: s) ++ concat (cons x2f <$> s' :: segs)).
    by rewrite IH. }
  simpl. by rewrite split_join.
Qed.

Lemma walk_nonempty here segs : walk here (filter (fun s => s <> []) segs) = walk here segs.
Proof.
  revert here. induction segs as [|s segs IH]; intros here; [done|]. destruct (decide (s = [])) as [->|Hs].
  - rewrite filter_cons_False by (intros H; congruence). apply IH.
  - rewrite filter_cons_True by done. simpl. apply IH.
Qed.

Lemma relative_segments p max :
  validate_relative_path p max = Ok tt -> Forall (fun s => s <> [] /\ dot_segment s = false) (split x2f p).
Proof.
  unfold validate_relative_path. intros H. repeat case_match; try done. clear H. bool_inv.
  destruct (split x2f p) as [|first rest] eqn:Hsp; [by constructor|].
  pose proof (segments_nonempty p ltac:(done) ltac:(done) ltac:(done)) as Hne. rewrite Hsp in Hne. simpl in Hne.
  assert (first <> []) as Hf.
  { intros ->. destruct p as [|b p]; [done|]. simpl in Hsp. destruct (Byte.eqb b x2f) eqn:Eb.
    - apply byte_eqb_true in Eb as ->. done.
    - by destruct (split x2f p). }
  apply Forall_and. split; [by constructor|]. by apply existsb_dots.
Qed.

Lemma absolute_segments p :
  validate_absolute_file_path p = Ok tt ->
  split x2f p = [] :: tail (split x2f p) /\ Forall (fun s => s <> [] /\ dot_segment s = false) (tail (split x2f p)).
Proof.
  unfold validate_absolute_file_path. intros H. repeat case_match; try done. clear H. bool_inv.
  split; [by apply absolute_split|]. apply Forall_and. split.
  - apply segments_nonempty; [done..|]. by intros ->.
  - by apply Forall_tail, existsb_dots.
Qed.

Lemma socket_segments p q :
  normalize_unix_socket_path p = Ok q ->
  split x2f q = [] :: filter (fun s => s <> []) (split x2f p) /\ len q <= MAX_UNIX_SOCKET_PATH_BYTES /\
  Forall (fun s => s <> [] /\ dot_segment s = false) (filter (fun s => s <> []) (split x2f p)).
Proof.
  unfold normalize_unix_socket_path. intros H.
  destruct (negb (utf8_valid p)); [done|]. destruct (negb (starts_with p (lit "/"))); [done|].
  destruct (contains_byte x00 p); [done|]. destruct (ends_with p (lit "/")); [done|].
  res_inv. case_bool_decide as Hne; [done|].
  match goal with H : (if ?b then _ else _) = Ok _ |- _ => destruct b eqn:Hlen; [done|]; injection H as H end.
  subst. bool_inv. match goal with H : push_segments _ _ _ = Ok _ |- _ => apply push_segments_Ok in H as [Hq HF] end.
  simpl in Hq. set (segs := filter (fun s => s <> []) (split x2f p)) in *.
  assert (forall s, s ∈ segs -> s <> [] /\ s ∈ split x2f p) as Hin by by intros s ?%list_elem_of_filter.
  split_and!; [|done|].
  - rewrite Hq. apply split_pushed; [|intros E; rewrite E in Hq; by subst].
    pose proof (split_no_sep x2f p) as Hsep. rewrite Forall_forall in Hsep |- *. naive_solver.
  - apply Forall_and. split; [|done]. apply Forall_forall. naive_solver.
Qed.

(** A relative path that is accepted leads, from any directory, exactly
    through its own segments and so never out of it; the same holds of an
    accepted file path from the root; and a socket path is normalised to a
    bounded one that leads to the same place, through its own segments. *)
Theorem paths_confined (p q : bytes) (max : Z) (here : list bytes) :
  (validate_relative_path p max = Ok tt -> walk here (split x2f p) = here ++ split x2f p) /\
  (validate_absolute_file_path p = Ok tt -> walk [] (split x2f p) = tail (split x2f p)) /\
  (normalize_unix_socket_path p = Ok q ->
     walk [] (split x2f q) = walk [] (split x2f p) /\ len q <= MAX_UNIX_SOCKET_PATH_BYTES /\
     walk [] (split x2f q) = tail (split x2f q)).
Proof.
  split_and!.
  - intros H%relative_segments. by apply walk_down.
  - intros [Hsp H]%absolute_segments. rewrite Hsp. exact (walk_down [] _ H).
  - intros (Hsp & Hlen & H)%socket_segments. rewrite Hsp.
    split_and!; [apply (walk_nonempty [])|done|exact (walk_down [] _ H)].
Qed.

Lemma paths_confined_witness :
  validate_relative_path (lit "media/clip") 64 = Ok tt /\
  normalize_unix_socket_path (lit "//run///app.sock") = Ok (lit "/run/app.sock") /\
  walk [] (split x2f (lit "/run/app.sock")) = [lit "run"; lit "app.sock"].
Proof.
  split_and!; [by vm_compute|by vm_compute|].
  destruct (paths_confined (lit "//run///app.sock") (lit "/run/app.sock") 64 []) as (_ & _ & H).
  destruct (H ltac:(by vm_compute)) as (_ & _ & ->). reflexivity.
Defined.
