(* ===== verification/Routing.v ===== *)
(** The HTTP route table of the server ([oxiroute-server/src/routing.rs]):
    normalising the selectors of a route, matching a request against it, and
    selecting the route of highest priority.  An [Authority] of the [http]
    crate is its text with its parts; parsing an authority or a
    [PathAndQuery] is the crate's and a parameter. *)

From stdpp Require Import base list sets strings.
From Stdlib Require Import ZArith Lia Strings.Byte.
From S2P Require Import Prelude Bytes Order Http Net Lexical.

Open Scope Z_scope.

(** ** Selectors and matchers *)

Inductive HttpHostSelector : Type :=
| NormalizedHost (value : bytes)
| Selector_ExactAuthority (value : bytes)
| Selector_AsciiCaseInsensitiveExactAuthority (value : bytes)
| Selector_NginxLeadingWildcard (value : bytes)
| Selector_NginxLeadingDot (value : bytes).

Inductive HttpPathSelector : Type :=
| Selector_SegmentPrefix (value : bytes)
| Selector_RawPrefix (value : bytes)
| Selector_Exact (value : bytes)
| Selector_AsciiCaseInsensitiveExact (value : bytes).

Inductive HostMatcher : Type :=
| Any
| ExactAuthority (expected : bytes)
| AsciiCaseInsensitiveExactAuthority (expected : bytes)
| NormalizedExact (expected : bytes)
| Wildcard (suffix : bytes)
| NginxLeadingWildcard (suffix : bytes)
| NginxLeadingDot (suffix : bytes).

Inductive PathMatcher : Type :=
| RawPrefix (value : bytes)
| SegmentPrefix (value : bytes)
| Exact (value : bytes)
| AsciiCaseInsensitiveExact (value : bytes).

Inductive RouteError : Type :=
| InvalidHost (host : bytes) | InvalidPathPrefix (path : bytes) | EmptyMethodSet | EmptyRouteIdentity
| UnsupportedHostSelector.

Record Route : Type := mkRoute {
  host : HostMatcher;
  path : PathMatcher;
  methods : option (list Method);
  identity : bytes;
}.

(** An authority of a request: its text and what the [http] crate reads off it. *)
Record RequestAuthority : Type := mkRequestAuthority { as_str : bytes; parts : Authority }.

(** ** Hosts *)

Definition parse_host_ip (h : bytes) : option IpAddr :=
  match parse_ip h with
  | Some a => Some a
  | None =>
      match (h ← strip_prefix (lit "[") h; h ← strip_suffix (lit "]") h; parse_ip h) with
      | Some (V6 a) => Some (V6 a)
      | _ => None
      end
  end.

(** The closure on labels is that of [is_valid_dns_label]. *)
Definition is_dns_name (h : bytes) : bool :=
  negb (bool_decide (h = [])) && forallb is_valid_dns_label (split x2e h).

Definition wildcard_matches (h suffix : bytes) : bool :=
  if len h <? len suffix then false
  else
    let suffix_start := len h - len suffix in
    if suffix_start <? 1 then false
    else
      let dot_index := Z.to_nat (suffix_start - 1) in
      bool_decide (h !! dot_index = Some x2e) &&
      eq_ignore_ascii_case (drop (Z.to_nat suffix_start) h) suffix &&
      (0 <? Z.of_nat dot_index) && negb (contains_byte x2e (take dot_index h)).

Definition nginx_suffix_matches (h suffix : bytes) (include_base : bool) : bool :=
  if include_base && beqb h suffix then true
  else (len suffix <? len h) && ends_with h suffix &&
       bool_decide (h !! Z.to_nat (len h - len suffix - 1) = Some x2e).

Definition normalized_authority_host (authority : RequestAuthority) : option bytes :=
  let authority_host := authority_host (parts authority) in
  let h := default authority_host (strip_suffix (lit ".") authority_host) in
  match parse_host_ip h with
  | Some ip => Some (display_ip ip)
  | None => if is_dns_name h then Some (to_ascii_lowercase h) else None
  end.

Definition is_some_and {A} (o : option A) (f : A -> bool) : bool := match o with Some a => f a | None => false end.
Definition then_some {A} (b : bool) (a : A) : option A := if b then Some a else None.

Definition HostMatcher_rank_if_matches (m : HostMatcher) (authority : option RequestAuthority) : option (Z * Z) :=
  match m with
  | Any => Some (0, 0)
  | ExactAuthority expected =>
      then_some (is_some_and authority (fun a => beqb (as_str a) expected)) (3, len expected)
  | AsciiCaseInsensitiveExactAuthority expected =>
      then_some (is_some_and authority (fun a => eq_ignore_ascii_case (as_str a) expected)) (3, len expected)
  | NormalizedExact expected =>
      then_some (is_some_and (authority ≫= normalized_authority_host) (fun h => beqb h expected)) (2, len expected)
  | Wildcard suffix =>
      then_some (is_some_and (authority ≫= normalized_authority_host) (fun h => wildcard_matches h suffix))
                (1, len suffix)
  | NginxLeadingWildcard suffix =>
      then_some (is_some_and (authority ≫= normalized_authority_host)
                             (fun h => nginx_suffix_matches h suffix false)) (1, len suffix)
  | NginxLeadingDot suffix =>
      then_some (is_some_and (authority ≫= normalized_authority_host)
                             (fun h => nginx_suffix_matches h suffix true)) (1, len suffix)
  end.

(** ** Paths *)

Definition PathMatcher_value (m : PathMatcher) : bytes :=
  match m with
  | RawPrefix value | SegmentPrefix value | Exact value | AsciiCaseInsensitiveExact value => value
  end.

Definition PathMatcher_rank_if_matches (m : PathMatcher) (p : bytes) : option (Z * Z) :=
  let '(rank, value, matches) :=
    match m with
    | RawPrefix value => (0, value, starts_with p value)
    | SegmentPrefix value =>
        (1, value,
         beqb value (lit "/") || beqb p value ||
         is_some_and (strip_prefix value p)
                     (fun remainder => ends_with value (lit "/") || starts_with remainder (lit "/")))
    | Exact value => (2, value, beqb p value)
    | AsciiCaseInsensitiveExact value => (2, value, eq_ignore_ascii_case p value)
    end in
  then_some matches (rank, len value).

(** ** Construction *)

Section Construction.
Context {text : HttpText}.

(** [PathAndQuery::from_str]: the path and the query. *)
Variable path_and_query_from_str : bytes -> option (bytes * option bytes).

Definition authority_valid (value : bytes) : bool :=
  (len value <=? 255) && negb (contains_byte x2a value || contains_byte x40 value) &&
  is_some_and (authority_from_str value) (fun authority => negb (bool_decide (authority_host authority = []))).

Definition dns_selector (value : bytes) (matcher : bytes -> HostMatcher) : result HostMatcher RouteError :=
  let value := to_ascii_lowercase value in
  if (253 <? len value) || negb (is_dns_name value) then Err (InvalidHost value) else Ok (matcher value).

Definition normalize_host (h : option HttpHostSelector) : result HostMatcher RouteError :=
  match h with
  | None => Ok Any
  | Some (Selector_ExactAuthority value) =>
      if authority_valid value then Ok (ExactAuthority value) else Err (InvalidHost value)
  | Some (Selector_AsciiCaseInsensitiveExactAuthority value) =>
      if forallb is_ascii value && authority_valid value
      then Ok (AsciiCaseInsensitiveExactAuthority value) else Err (InvalidHost value)
  | Some (NormalizedHost value) =>
      let value := to_ascii_lowercase value in
      match strip_prefix (lit "*.") value with
      | Some suffix =>
          if bool_decide (is_Some (parse_ip suffix)) || negb (is_dns_name suffix) then Err (InvalidHost value)
          else Ok (Wildcard suffix)
      | None =>
          match parse_host_ip value with
          | Some ip => Ok (NormalizedExact (display_ip ip))
          | None => if (253 <? len value) || negb (is_dns_name value) then Err (InvalidHost value)
                    else Ok (NormalizedExact value)
          end
      end
  | Some (Selector_NginxLeadingWildcard value) => dns_selector value NginxLeadingWildcard
  | Some (Selector_NginxLeadingDot value) => dns_selector value NginxLeadingDot
  end.

Definition selector_value (p : HttpPathSelector) : bytes :=
  match p with
  | Selector_SegmentPrefix value | Selector_RawPrefix value | Selector_Exact value
  | Selector_AsciiCaseInsensitiveExact value => value
  end.

Definition normalize_path (p : HttpPathSelector) : result PathMatcher RouteError :=
  let value := selector_value p in
  let valid_path :=
    starts_with value (lit "/") &&
    is_some_and (path_and_query_from_str value)
                (fun pq => bool_decide (snd pq = None) && beqb (fst pq) value) in
  if negb valid_path then Err (InvalidPathPrefix value)
  else
    match canonicalize_http_path value with
    | None => Err (InvalidPathPrefix value)
    | Some canonical =>
        if negb (beqb canonical value) then Err (InvalidPathPrefix value)
        else
          Ok match p with
             | Selector_SegmentPrefix value => SegmentPrefix value
             | Selector_RawPrefix value => RawPrefix value
             | Selector_Exact value => Exact value
             | Selector_AsciiCaseInsensitiveExact value => AsciiCaseInsensitiveExact value
             end
    end.

Definition Route_new (h : option HttpHostSelector) (p : HttpPathSelector) (ms : option (list Method))
    (route_id : bytes) : result Route RouteError :=
  let? h := normalize_host h in
  let? p := normalize_path p in
  let? ms := match ms with Some [] => Err EmptyMethodSet | _ => Ok ms end in
  if bool_decide (route_id = []) then Err EmptyRouteIdentity else Ok (mkRoute h p ms route_id).
End Construction.

(** ** Selection *)

Definition matches_method (r : Route) (m : Method) : bool :=
  match methods r with None => true | Some ms => bool_decide (m ∈ ms) end.

Abbreviation Score := ((Z * Z) * (Z * (Z * Z)))%type.

(** One turn of the selection loop. *)
Definition select_step (authority : option RequestAuthority) (p : bytes) (m : Method)
    (best : option (Route * Score)) (route : Route) : option (Route * Score) :=
  if negb (matches_method route m) then best
  else
    match HostMatcher_rank_if_matches (host route) authority with
    | None => best
    | Some host_rank =>
        match PathMatcher_rank_if_matches (path route) p with
        | None => best
        | Some (path_rank, path_length) =>
            let method_rank := match methods route with Some _ => 1 | None => 0 end in
            let score := (host_rank, (path_rank, (path_length, method_rank))) in
            match best with
            | Some (_, best_score) => if decide (ord_le score best_score) then best else Some (route, score)
            | None => Some (route, score)
            end
        end
    end.

Definition RouteTable_select (routes : list Route) (authority uri_authority : option RequestAuthority)
    (uri_path : bytes) (m : Method) : option Route :=
  let authority := match authority with Some a => Some a | None => uri_authority end in
  p ← canonicalize_http_path uri_path;
  fst <$> foldl (select_step authority p m) None routes.

(** ** What a route accepts *)

(** How a host is known: an address by its canonical text, a name in lower
    case. *)
Definition host_identity (h : bytes) : option bytes :=
  match parse_host_ip h with
  | Some ip => Some (display_ip ip)
  | None => if is_dns_name h then Some (to_ascii_lowercase h) else None
  end.

(** The host a request names, without the dot that may end it. *)
Definition bare_host (a : RequestAuthority) : bytes :=
  let h := authority_host (parts a) in default h (strip_suffix (lit ".") h).

Definition names_host (a : option RequestAuthority) (P : bytes -> Prop) : Prop :=
  exists a' h, a = Some a' /\ host_identity (bare_host a') = Some h /\ P h.

(** The requests a host selector of the configuration stands for. *)
Definition host_accepts (sel : option HttpHostSelector) (a : option RequestAuthority) : Prop :=
  match sel with
  | None => True
  | Some (Selector_ExactAuthority v) => exists a', a = Some a' /\ as_str a' = v
  | Some (Selector_AsciiCaseInsensitiveExactAuthority v) =>
      exists a', a = Some a' /\ to_ascii_lowercase (as_str a') = to_ascii_lowercase v
  | Some (NormalizedHost v) =>
      names_host a (fun h =>
        match strip_prefix (lit "*.") (to_ascii_lowercase v) with
        | Some suffix => exists label, label <> [] /\ (x2e ∉ label) /\ h = label ++ x2e :: suffix
        | None => host_identity (to_ascii_lowercase v) = Some h
        end)
  | Some (Selector_NginxLeadingWildcard v) =>
      names_host a (fun h => exists labels, h = labels ++ x2e :: to_ascii_lowercase v)
  | Some (Selector_NginxLeadingDot v) =>
      names_host a (fun h => h = to_ascii_lowercase v \/ exists labels, h = labels ++ x2e :: to_ascii_lowercase v)
  end.

Definition path_accepts (sel : HttpPathSelector) (p : bytes) : Prop :=
  match sel with
  | Selector_RawPrefix v => exists rest, p = v ++ rest
  | Selector_SegmentPrefix v =>
      v = lit "/" \/ p = v \/ (exists rest, p = v ++ x2f :: rest) \/ (exists w rest, v = w ++ lit "/" /\ p = v ++ rest)
  | Selector_Exact v => p = v
  | Selector_AsciiCaseInsensitiveExact v => to_ascii_lowercase p = to_ascii_lowercase v
  end.

(** The priority of a route, whatever the request: the kind of its host
    matcher and its length, the kind of its path matcher and its length, and
    whether it names methods. *)
Definition host_priority (m : HostMatcher) : Z * Z :=
  match m with
  | Any => (0, 0)
  | ExactAuthority v | AsciiCaseInsensitiveExactAuthority v => (3, len v)
  | NormalizedExact v => (2, len v)
  | Wildcard v | NginxLeadingWildcard v | NginxLeadingDot v => (1, len v)
  end.

Definition path_priority (m : PathMatcher) : Z * Z :=
  match m with
  | RawPrefix v => (0, len v)
  | SegmentPrefix v => (1, len v)
  | Exact v | AsciiCaseInsensitiveExact v => (2, len v)
  end.

Definition priority (r : Route) : Score :=
  (host_priority (host r),
   (fst (path_priority (path r)),
    (snd (path_priority (path r)), match methods r with Some _ => 1 | None => 0 end))).

(** ** Hosts *)

Lemma then_some_Some {A} b (a x : A) : then_some b a = Some x <-> b = true /\ x = a.
Proof. destruct b; simpl; naive_solver. Qed.

Lemma is_some_and_true {A} (o : option A) f : is_some_and o f = true <-> exists a, o = Some a /\ f a = true.
Proof. destruct o; simpl; naive_solver. Qed.

Lemma beqb_true a b : beqb a b = true <-> a = b.
Proof. apply bool_decide_eq_true. Qed.

Lemma display_ip_lower a : to_ascii_lowercase (display_ip a) = display_ip a.
Proof.
  destruct (display_ip_spec a) as [Hc _]. unfold to_ascii_lowercase.
  induction Hc as [|b s Hb Hs IH]; [done|]. rewrite fmap_cons. f_equal; [|done]. by destruct b.
Qed.

Lemma host_identity_lower h t : host_identity h = Some t -> to_ascii_lowercase t = t.
Proof.
  unfold host_identity. destruct (parse_host_ip h) as [a|] eqn:E.
  { intros [= <-]. apply display_ip_lower. }
  destruct (is_dns_name h); [|done]. intros [= <-]. apply lowercase_idempotent.
Qed.

Lemma lowercase_drop n s : to_ascii_lowercase (drop n s) = drop n (to_ascii_lowercase s).
Proof. unfold to_ascii_lowercase. by rewrite fmap_drop. Qed.

Lemma wildcard_matches_spec h suffix :
  to_ascii_lowercase h = h -> to_ascii_lowercase suffix = suffix ->
  wildcard_matches h suffix = true <-> exists label, label <> [] /\ (x2e ∉ label) /\ h = label ++ x2e :: suffix.
Proof.
  intros Hh Hs. unfold wildcard_matches. split.
  - destruct (Z.ltb_spec (len h) (len suffix)); [done|].
    destruct (Z.ltb_spec (len h - len suffix) 1); [done|].
    set (i := Z.to_nat (len h - len suffix - 1)). intros H'. bool_inv.
    exists (take i h). split_and!.
    + intros E. apply (f_equal length) in E. rewrite length_take in E. simpl in E.
      match goal with H : 0 < Z.of_nat i |- _ => unfold len in *; lia end.
    + intros Hin. apply contains_byte_true in Hin. congruence.
    + match goal with H : eq_ignore_ascii_case _ _ = true |- _ => apply beqb_true in H; rename H into He end.
      rewrite lowercase_drop, Hh, Hs in He.
      replace (Z.to_nat (len h - len suffix)) with (S i) in He by (unfold i; lia).
      rewrite <- He. symmetry. by apply take_drop_middle.
  - intros (label & Hne & Hdot & ->). rewrite len_app, len_cons.
    pose proof (len_nonneg suffix). assert (0 < len label) by (destruct label; [done|rewrite len_cons; pose proof (len_nonneg label); lia]).
    destruct (Z.ltb_spec (len label + (1 + len suffix)) (len suffix)); [lia|].
    destruct (Z.ltb_spec (len label + (1 + len suffix) - len suffix) 1); [lia|].
    replace (Z.to_nat (len label + (1 + len suffix) - len suffix - 1)) with (length label) by (unfold len in *; lia).
    replace (Z.to_nat (len label + (1 + len suffix) - len suffix)) with (S (length label)) by (unfold len in *; lia).
    rewrite take_app_length, list_lookup_middle by done.
    replace (drop (S (length label)) (label ++ x2e :: suffix)) with suffix
      by (rewrite (cons_middle x2e), app_assoc; symmetry; apply drop_app_length'; rewrite length_app; simpl; lia).
    rewrite bool_decide_eq_true_2 by done. repeat (apply andb_true_iff; split); try done.
    + by apply beqb_true.
    + apply Z.ltb_lt. unfold len in *. lia.
    + apply negb_true_iff, not_true_iff_false. by intros ?%contains_byte_true.
Qed.

Lemma nginx_suffix_matches_spec h suffix base :
  nginx_suffix_matches h suffix base = true <->
  base = true /\ h = suffix \/ exists labels, h = labels ++ x2e :: suffix.
Proof.
  unfold nginx_suffix_matches. destruct (base && beqb h suffix) eqn:Hb.
  { apply andb_true_iff in Hb as [-> Hb%beqb_true]. naive_solver. }
  assert (~ (base = true /\ h = suffix)) as Hno.
  { intros [-> ->]. apply not_true_iff_false in Hb. apply Hb. simpl. by apply beqb_true. }
  split.
  - intros H. bool_inv. right.
    match goal with H : ends_with _ _ = true |- _ => apply ends_with_spec in H as [t ->] end.
    match goal with H : _ !! _ = Some _ |- _ => rename H into Hdot end. rewrite len_app in *.
    destruct t as [|c t _] using rev_ind; [simpl in *; rewrite len_nil in *; lia|].
    exists t. rewrite <- app_assoc in Hdot |- *. simpl in *. rewrite len_app, len_cons, len_nil in Hdot.
    replace (Z.to_nat (len t + (1 + 0) + len suffix - len suffix - 1)) with (length t) in Hdot by (unfold len; lia).
    rewrite list_lookup_middle in Hdot by done. by simplify_eq.
  - intros [?|[labels ->]]; [done|]. rewrite len_app, len_cons. pose proof (len_nonneg labels).
    replace (Z.to_nat (len labels + (1 + len suffix) - len suffix - 1)) with (length labels) by (unfold len; lia).
    rewrite list_lookup_middle, bool_decide_eq_true_2 by done. repeat (apply andb_true_iff; split); try done.
    + apply Z.ltb_lt. lia.
    + apply ends_with_spec. exists (labels ++ [x2e]). by rewrite <- app_assoc.
Qed.

Lemma normalized_named a P :
  (exists h, (a ≫= normalized_authority_host) = Some h /\ P h) <-> names_host a P.
Proof. unfold names_host. destruct a as [a|]; simpl; [|naive_solver]. split; naive_solver. Qed.

Lemma named_iff a (f : bytes -> bool) P :
  (forall h, to_ascii_lowercase h = h -> f h = true <-> P h) ->
  is_some_and (a ≫= normalized_authority_host) f = true <-> names_host a P.
Proof.
  intros H. rewrite is_some_and_true, <- normalized_named.
  assert (forall h, (a ≫= normalized_authority_host) = Some h -> to_ascii_lowercase h = h) as Hlow.
  { destruct a as [a|]; [|done]. intros h. apply host_identity_lower. }
  split; intros (h & Hn & Hh); exists h; (split; [done|]); by apply H; [apply Hlow|].
Qed.

Lemma strip_prefix_Some prefix s t : strip_prefix prefix s = Some t <-> s = prefix ++ t.
Proof.
  unfold strip_prefix. destruct (starts_with s prefix) eqn:E.
  - apply starts_with_spec in E as [u ->]. rewrite drop_app_length. naive_solver.
  - split; [done|]. intros ->. apply not_true_iff_false in E. destruct E. apply starts_with_spec. by eexists.
Qed.

Lemma strip_prefix_lower prefix v t :
  strip_prefix prefix (to_ascii_lowercase v) = Some t -> to_ascii_lowercase t = t.
Proof.
  unfold strip_prefix. case_match; [|done]. intros [= <-]. by rewrite lowercase_drop, lowercase_idempotent.
Qed.

Section Matching.
Context {text : HttpText}.
Variable path_and_query_from_str : bytes -> option (bytes * option bytes).

Lemma normalized_exact v m :
  strip_prefix (lit "*.") (to_ascii_lowercase v) = None -> normalize_host (Some (NormalizedHost v)) = Ok m ->
  exists e, m = NormalizedExact e /\ host_identity (to_ascii_lowercase v) = Some e.
Proof.
  simpl. intros ->. unfold host_identity. destruct (parse_host_ip _) as [a|].
  { intros [= <-]. by eexists. }
  destruct (_ || _) eqn:E; [done|]. intros [= <-]. bool_inv.
  match goal with H : is_dns_name _ = true |- _ => rewrite H end. rewrite lowercase_idempotent. by eexists.
Qed.

Lemma host_matches_exact sel m a rank :
  normalize_host sel = Ok m ->
  HostMatcher_rank_if_matches m a = Some rank <-> host_accepts sel a /\ rank = host_priority m.
Proof.
  intros H. destruct sel as [[v|v|v|v|v]|]; [revert H|simpl in H..].
  - destruct (strip_prefix (lit "*.") (to_ascii_lowercase v)) as [suffix|] eqn:Hp.
    + simpl. rewrite Hp. destruct (_ || _); [done|]. intros [= <-]. simpl. rewrite then_some_Some.
      rewrite named_iff; [done|]. intros h Hh. apply wildcard_matches_spec; [done|]. by eapply strip_prefix_lower.
    + intros H. destruct (normalized_exact _ _ Hp H) as (e & -> & He). simpl. rewrite Hp, then_some_Some, He.
      rewrite named_iff; [done|]. intros h _. rewrite beqb_true. naive_solver.
  - destruct (authority_valid v); [|done]. injection H as <-. simpl. rewrite then_some_Some, is_some_and_true.
    by setoid_rewrite beqb_true.
  - destruct (_ && _); [|done]. injection H as <-. simpl. rewrite then_some_Some, is_some_and_true.
    unfold eq_ignore_ascii_case. by setoid_rewrite beqb_true.
  - unfold dns_selector in H. destruct (_ || _); [done|]. injection H as <-. simpl. rewrite then_some_Some.
    rewrite named_iff; [done|]. intros h _. rewrite nginx_suffix_matches_spec. naive_solver.
  - unfold dns_selector in H. destruct (_ || _); [done|]. injection H as <-. simpl. rewrite then_some_Some.
    rewrite named_iff; [done|]. intros h _. rewrite nginx_suffix_matches_spec. naive_solver.
  - injection H as <-. simpl. naive_solver.
Qed.

Lemma segment_prefix_spec v p :
  beqb v (lit "/") || beqb p v ||
    is_some_and (strip_prefix v p) (fun rest => ends_with v (lit "/") || starts_with rest (lit "/")) = true <->
  path_accepts (Selector_SegmentPrefix v) p.
Proof.
  rewrite !orb_true_iff, !beqb_true, is_some_and_true. setoid_rewrite strip_prefix_Some.
  setoid_rewrite orb_true_iff. setoid_rewrite ends_with_spec. setoid_rewrite starts_with_spec. simpl. split.
  - intros [[H|H]|(rest & Hp & [(w & Hw)|(t & Ht)])]; [by left|by right; left| |].
    + right. right. right. by exists w, rest.
    + right. right. left. exists t. by rewrite Hp, Ht.
  - intros [H|[H|[(rest & H)|(w & rest & Hw & H)]]]; [by left; left|by left; right| |].
    + right. exists (x2f :: rest). split; [done|]. right. by exists rest.
    + right. exists rest. split; [done|]. left. by exists w.
Qed.

Lemma path_matches_exact sel m p rank :
  normalize_path path_and_query_from_str sel = Ok m ->
  PathMatcher_rank_if_matches m p = Some rank <-> path_accepts sel p /\ rank = path_priority m.
Proof.
  unfold normalize_path. destruct (negb _); [done|]. destruct (canonicalize_http_path _) as [c|]; [|done].
  destruct (negb _); [done|]. destruct sel as [v|v|v|v]; intros [= <-]; unfold PathMatcher_rank_if_matches;
    rewrite then_some_Some.
  - by rewrite segment_prefix_spec.
  - by rewrite starts_with_spec.
  - by rewrite beqb_true.
  - unfold eq_ignore_ascii_case. by rewrite beqb_true.
Qed.

(** A route as the configuration gives it. *)
Record RouteSpec : Type := mkRouteSpec {
  spec_host : option HttpHostSelector;
  spec_path : HttpPathSelector;
  spec_methods : option (list Method);
  spec_id : bytes;
}.

Definition compile_route (s : RouteSpec) : result Route RouteError :=
  Route_new path_and_query_from_str (spec_host s) (spec_path s) (spec_methods s) (spec_id s).

Definition accepts (s : RouteSpec) (a : option RequestAuthority) (p : bytes) (m : Method) : Prop :=
  host_accepts (spec_host s) a /\ path_accepts (spec_path s) p /\
  match spec_methods s with None => True | Some ms => m ∈ ms end.

Lemma compile_route_Ok s r :
  compile_route s = Ok r ->
  normalize_host (spec_host s) = Ok (host r) /\ normalize_path path_and_query_from_str (spec_path s) = Ok (path r) /\
  methods r = spec_methods s.
Proof.
  unfold compile_route, Route_new. intros H. res_inv. case_bool_decide; [done|]. simplify_eq. simpl.
  split_and!; [done..|]. by destruct (spec_methods s) as [[|]|]; simplify_eq.
Qed.

(** One turn of the loop either passes over the route or offers it with its
    priority. *)
Lemma select_step_accepts s r a p m best :
  compile_route s = Ok r ->
  (accepts s a p m -> select_step a p m best r =
     match best with
     | Some (_, b) => if decide (ord_le (priority r) b) then best else Some (r, priority r)
     | None => Some (r, priority r)
     end) /\
  (~ accepts s a p m -> select_step a p m best r = best).
Proof.
  intros (Hh & Hp & Hm)%compile_route_Ok. unfold select_step, accepts, matches_method, priority. rewrite <- Hm.
  pose proof (fun rank => host_matches_exact _ _ a rank Hh) as Eh.
  pose proof (fun rank => path_matches_exact _ _ p rank Hp) as Ep.
  destruct (HostMatcher_rank_if_matches (host r) a) as [hr|] eqn:E1;
    [destruct (proj1 (Eh hr) eq_refl) as [Ah ->]|].
  2:{ split; [intros (H & _); by specialize (proj2 (Eh _) (conj H eq_refl))|]. by destruct (negb _). }
  destruct (PathMatcher_rank_if_matches (path r) p) as [[pr pl]|] eqn:E2;
    [destruct (proj1 (Ep (pr, pl)) eq_refl) as [Ap Hpp]|].
  2:{ split; [intros (_ & H & _); by specialize (proj2 (Ep _) (conj H eq_refl))|]. by destruct (negb _). }
  rewrite <- Hpp. simpl. destruct (methods r) as [ms|]; [|by split; [|intros []]].
  case_bool_decide as Hms; simpl; split; try done; naive_solver.
Qed.

(** The position of the route to select: an accepting one of highest priority,
    the first of these. *)
Definition preferred (specs : list RouteSpec) (routes : list Route) (a : option RequestAuthority) (p : bytes)
    (m : Method) (i : nat) : Prop :=
  exists s r, specs !! i = Some s /\ routes !! i = Some r /\ accepts s a p m /\
  forall j s' r', specs !! j = Some s' -> routes !! j = Some r' -> accepts s' a p m ->
    ord_lt (priority r') (priority r) \/ priority r' = priority r /\ (i <= j)%nat.

Lemma preferred_unique specs routes a p m i j :
  preferred specs routes a p m i -> preferred specs routes a p m j -> i = j.
Proof.
  intros (s & r & Hs & Hr & Ha & Hmax) (s' & r' & Hs' & Hr' & Ha' & Hmax').
  destruct (Hmax _ _ _ Hs' Hr' Ha') as [H1|[H1 L1]], (Hmax' _ _ _ Hs Hr Ha) as [H2|[H2 L2]]; try lia.
  - destruct (ord_lt_irrefl (priority r)). by etrans.
  - rewrite H2 in H1. by destruct (ord_lt_irrefl (priority r')).
  - rewrite H1 in H2. by destruct (ord_lt_irrefl (priority r)).
Qed.

Lemma lookup_snoc_cases {A} (l : list A) x i y :
  (l ++ [x]) !! i = Some y -> l !! i = Some y \/ i = length l /\ y = x.
Proof.
  intros [H|[Hl H]]%lookup_app_Some; [by left|]. right. apply list_lookup_singleton_Some in H as [? ?]. split; [lia|done].
Qed.

(** What the loop has found after any number of routes. *)
Definition found (specs : list RouteSpec) (routes : list Route) (a : option RequestAuthority) (p : bytes)
    (m : Method) (best : option (Route * Score)) : Prop :=
  match best with
  | Some (r, score) => score = priority r /\ exists i, routes !! i = Some r /\ preferred specs routes a p m i
  | None => forall s, s ∈ specs -> ~ accepts s a p m
  end.

Lemma found_same specs routes a p m s r best :
  length specs = length routes -> ~ accepts s a p m ->
  found specs routes a p m best -> found (specs ++ [s]) (routes ++ [r]) a p m best.
Proof.
  intros Hlen Hno. destruct best as [[b score]|]; simpl.
  - intros (Hsc & i & Hr & sb & r' & Hs & Hr' & Ha & Hmax). split; [done|]. exists i.
    split; [by apply lookup_app_l_Some|]. exists sb, r'.
    split_and!; [by apply lookup_app_l_Some|by apply lookup_app_l_Some|done|].
    intros j s1 r1 [H1|[-> ->]]%lookup_snoc_cases [H2|[Hj ->]]%lookup_snoc_cases Ha1.
    + by eapply Hmax.
    + apply lookup_lt_Some in H1. lia.
    + done.
    + done.
  - intros H s1 [H1| ->%list_elem_of_singleton]%elem_of_app; auto.
Qed.

Lemma accepts_or_not s r a p m : compile_route s = Ok r -> accepts s a p m \/ ~ accepts s a p m.
Proof.
  intros (Hh & Hp & _)%compile_route_Ok. unfold accepts.
  destruct (HostMatcher_rank_if_matches (host r) a) as [hr|] eqn:E1.
  2:{ right. intros (H & _). by specialize (proj2 (host_matches_exact _ _ a _ Hh) (conj H eq_refl)) as ?%(eq_trans (eq_sym E1)). }
  destruct (PathMatcher_rank_if_matches (path r) p) as [pr|] eqn:E2.
  2:{ right. intros (_ & H & _). by specialize (proj2 (path_matches_exact _ _ p _ Hp) (conj H eq_refl)) as ?%(eq_trans (eq_sym E2)). }
  apply host_matches_exact with (sel := spec_host s) in E1 as [Ah _]; [|done].
  apply path_matches_exact with (sel := spec_path s) in E2 as [Ap _]; [|done].
  destruct (spec_methods s) as [ms|]; [|by left]. destruct (decide (m ∈ ms)); naive_solver.
Qed.

(** The accepting route that is seen last is the best one if nothing before it
    is as good. *)
Lemma found_new specs routes a p m s r :
  length specs = length routes -> accepts s a p m ->
  (forall j s' r', specs !! j = Some s' -> routes !! j = Some r' -> accepts s' a p m ->
     ord_lt (priority r') (priority r)) ->
  found (specs ++ [s]) (routes ++ [r]) a p m (Some (r, priority r)).
Proof.
  intros Hlen Ha Hbest. split; [done|]. exists (length routes).
  split; [by apply list_lookup_middle|]. exists s, r.
  split_and!; [rewrite <- Hlen; by apply list_lookup_middle|by apply list_lookup_middle|done|].
  intros j s1 r1 [H1|[-> ->]]%lookup_snoc_cases [H2|[Hj ->]]%lookup_snoc_cases Ha1.
  - left. by eapply Hbest.
  - apply lookup_lt_Some in H1. lia.
  - apply lookup_lt_Some in H2. lia.
  - right. split; [done|lia].
Qed.

Lemma found_kept specs routes a p m s r b :
  length specs = length routes -> ord_le (priority r) (priority b) ->
  found specs routes a p m (Some (b, priority b)) ->
  found (specs ++ [s]) (routes ++ [r]) a p m (Some (b, priority b)).
Proof.
  intros Hlen Hle (_ & i & Hb & sb & b' & Hs & Hb' & Hab & Hmax). simplify_eq. split; [done|]. exists i.
  split; [by apply lookup_app_l_Some|]. exists sb, b.
  split_and!; [by apply lookup_app_l_Some|by apply lookup_app_l_Some|done|].
  apply lookup_lt_Some in Hb.
  intros j s1 r1 [H1|[-> ->]]%lookup_snoc_cases [H2|[Hj ->]]%lookup_snoc_cases Ha1.
  - by eapply Hmax.
  - apply lookup_lt_Some in H1. lia.
  - apply lookup_lt_Some in H2. lia.
  - apply ord_le_lt in Hle as [?|?]; [by left|right; split; [done|lia]].
Qed.

Lemma found_step specs routes a p m s r best :
  length specs = length routes -> compile_route s = Ok r ->
  found specs routes a p m best -> found (specs ++ [s]) (routes ++ [r]) a p m (select_step a p m best r).
Proof.
  intros Hlen Hc Hf. destruct (select_step_accepts s r a p m best Hc) as [Hyes Hno].
  destruct (accepts_or_not s r a p m Hc) as [Ha|Ha]; [|rewrite Hno by done; by apply found_same].
  rewrite Hyes by done. destruct best as [[b score]|].
  - destruct Hf as [-> Hf]. case_decide as Hle; [by apply found_kept|]. apply found_new; [done..|].
    intros j s' r' H1 H2 Ha'. destruct Hf as (i & Hb & sb & b' & Hs & Hb' & Hab & Hmax). simplify_eq.
    assert (ord_lt (priority b) (priority r)) as Hlt.
    { destruct (total ord_le (priority r) (priority b)) as [?|Hl]; [done|].
      apply ord_le_lt in Hl as [?|Heq]; [done|]. rewrite Heq in Hle. by destruct Hle. }
    destruct (Hmax _ _ _ H1 H2 Ha') as [?|[-> _]]; [by etrans|done].
  - apply found_new; [done..|]. intros j s' r' H1 _ Ha'. destruct (Hf s'); [by eapply list_elem_of_lookup_2|done].
Qed.

Lemma found_all specs routes a p m :
  Forall2 (fun s r => compile_route s = Ok r) specs routes ->
  found specs routes a p m (foldl (select_step a p m) None routes).
Proof.
  revert routes. induction specs as [|s specs IH] using rev_ind; intros routes H.
  { apply Forall2_nil_inv_l in H as ->. intros s Hs. by apply elem_of_nil in Hs. }
  apply Forall2_app_inv_l in H as (routes1 & routes2 & H1 & H2 & ->).
  apply Forall2_cons_inv_l in H2 as (r & ? & Hr & H2 & ->). apply Forall2_nil_inv_l in H2 as ->.
  rewrite foldl_snoc. apply found_step; [by eapply Forall2_length|done|by apply IH].
Qed.

End Matching.

(** Parsing for the example: a path has no query. *)
Definition plain_path (s : bytes) : option (bytes * option bytes) := Some (s, None).

Definition example_specs : list RouteSpec :=
  [ mkRouteSpec None (Selector_SegmentPrefix (lit "/")) None (lit "fallback");
    mkRouteSpec (Some (NormalizedHost (lit "*.Example.test"))) (Selector_SegmentPrefix (lit "/api")) None (lit "api");
    mkRouteSpec (Some (NormalizedHost (lit "*.example.test"))) (Selector_Exact (lit "/api/v1")) (Some [GET]) (lit "v1") ].

Definition example_routes : list Route :=
  [ mkRoute Any (SegmentPrefix (lit "/")) None (lit "fallback");
    mkRoute (Wildcard (lit "example.test")) (SegmentPrefix (lit "/api")) None (lit "api");
    mkRoute (Wildcard (lit "example.test")) (Exact (lit "/api/v1")) (Some [GET]) (lit "v1") ].


(** The user documentation has the longest path win within a host class and
    source order resolve the rest.  With hosts of one class, a raw prefix loses
    to a shorter segment prefix, a long path to a short one under a longer
    wildcard, and a route to a later one of the same path that names methods. *)
Definition overlapping_routes : list (list Route) :=
  [ [ mkRoute Any (RawPrefix (lit "/api/v")) None (lit "longer"); mkRoute Any (SegmentPrefix (lit "/api")) None (lit "kind") ];
    [ mkRoute (NginxLeadingDot (lit "test")) (SegmentPrefix (lit "/api/v1")) None (lit "longer");
      mkRoute (NginxLeadingDot (lit "example.test")) (SegmentPrefix (lit "/api")) None (lit "suffix") ];
    [ mkRoute Any (SegmentPrefix (lit "/api")) None (lit "first"); mkRoute Any (SegmentPrefix (lit "/api")) (Some [GET]) (lit "method") ] ].

Theorem route_order_undocumented :
  let a := Some (mkRequestAuthority (lit "www.example.test") (mkAuthority (lit "www.example.test") None)) in
  (fun routes => identity <$> RouteTable_select routes a None (lit "/api/v1") GET) <$> overlapping_routes =
    [Some (lit "kind"); Some (lit "suffix"); Some (lit "method")].
Proof. by vm_compute. Qed.
