(* ===== verification/Pool.v ===== *)
(** The health-aware endpoint pool of the server
    ([oxiroute-server/src/routing.rs]): endpoints with their health, passive
    ejection and capacity, the balancing algorithms, leases, and the queue of
    requests that wait for capacity.

    The atomics of an endpoint are fields of a record, grouped as the code uses
    them; an [AtomicU8] that holds an enum is that enum, a time of 0 stands for
    none as in the source.  Durations are nanoseconds, times milliseconds.
    Reads under [read_health] and the steps of one call are taken together; the
    interleaving of calls is the order of the operations in [PoolSystem]. *)

From stdpp Require Import base list sets strings.
From Stdlib Require Import ZArith Lia Strings.Byte.
From S2P Require Import Prelude Bytes Order Http Net Lexical Routing.

Open Scope Z_scope.

(** ** Configuration *)

Inductive UpstreamAlgorithm : Type :=
| RoundRobin | WeightedRoundRobin (weights : list Z) | LeastConnections | First.

Inductive HealthStartup : Type := Startup_Healthy | Startup_Unhealthy | Startup_Checking.
Inductive PassiveObserve : Type := Layer4 | Layer7.
Inductive PassiveOnError : Type := Count | Immediately | MarkDown.

Record ConfigPassiveHealthPolicy : Type := mkConfigPassiveHealthPolicy {
  cfg_observe : PassiveObserve;
  cfg_on_error : PassiveOnError;
  cfg_error_limit : Z;
  cfg_mark_down : bool;
  cfg_mark_up : bool;
  cfg_initial_backoff_ms : Z;
  cfg_max_backoff_ms : Z;
  cfg_recovery_threshold : Z;
}.

(** ** Endpoints *)

Inductive RuntimeEndpoint : Type :=
| Socket (address : SocketAddr) | DnsEndpoint (dns_host : bytes) (dns_port : Z) | Unix (unix_path : bytes).
#[export] Instance RuntimeEndpoint_eq_dec : EqDecision RuntimeEndpoint.
Proof. solve_decision. Defined.

Inductive PoolError : Type :=
| Pool_Empty
| InvalidWeights (detail : string)
| InvalidPassivePolicy (detail : string)
| InvalidSocketEndpoint (address : SocketAddr)
| InvalidDnsEndpoint (dns_host : bytes) (dns_port : Z)
| InvalidUnixEndpoint (unix_path : bytes).

(** [SocketAddr::from_pathname] takes up to 107 bytes without NUL. *)
Definition valid_unix_endpoint (p : bytes) : bool :=
  utf8_valid p && starts_with p (lit "/") && negb (contains_byte x00 p) && (len p <? 108).

Definition preflight (e : RuntimeEndpoint) : result unit PoolError :=
  match e with
  | Socket address => if port address =? 0 then Err (InvalidSocketEndpoint address) else Ok tt
  | DnsEndpoint h p =>
      if (p =? 0) || bool_decide (is_Some (parse_ip h)) || negb (is_dns_name h)
      then Err (InvalidDnsEndpoint h p) else Ok tt
  | Unix p => if negb (valid_unix_endpoint p) then Err (InvalidUnixEndpoint p) else Ok tt
  end.

Definition MAX_RESOLVED_ENDPOINT_ADDRESSES : Z := 16.
Definition MAX_WEIGHTED_CYCLE : Z := 25600.

(** The kinds of [io::Error] the resolution reports itself. *)
Inductive ResolveErrorKind : Type := InvalidData | NotFound | InvalidInput | PermissionDenied.

(** [SocketAddr]s are ordered by family, address and port. *)
#[export] Instance SocketAddr_Ord : Ord SocketAddr := fun a b =>
  cmp (negb (is_ipv4 (ip a)), (match ip a with V4 v | V6 v => v end, port a))
      (negb (is_ipv4 (ip b)), (match ip b with V4 v | V6 v => v end, port b)).

(** The loop that drops repeated addresses and bounds their number. *)
Fixpoint collect_addresses (normalized addresses : list SocketAddr) : result (list SocketAddr) ResolveErrorKind :=
  match addresses with
  | [] => Ok normalized
  | address :: addresses =>
      if bool_decide (address ∈ normalized) then collect_addresses normalized addresses
      else if len normalized =? MAX_RESOLVED_ENDPOINT_ADDRESSES then Err InvalidData
      else collect_addresses (normalized ++ [address]) addresses
  end.

Definition order_addresses (addresses : list SocketAddr) : result (list SocketAddr) ResolveErrorKind :=
  let? normalized := collect_addresses [] addresses in
  let addresses := sort_unstable normalized in
  if bool_decide (addresses = []) then Err NotFound else Ok addresses.

(** ** Health and its policy *)

Inductive EndpointHealthState : Type := Unchecked | Unknown | Healthy | Unhealthy.
#[export] Instance EndpointHealthState_eq_dec : EqDecision EndpointHealthState.
Proof. solve_decision. Defined.

Definition state_selectable (s : EndpointHealthState) : bool :=
  match s with Unchecked | Healthy => true | _ => false end.

Inductive HealthFailure : Type := Failure_Timeout | ConnectFailed | UnexpectedStatus | ProtocolError.
Inductive AdministrativeState : Type := Admin_Ready | Drain | Maintenance.
#[export] Instance AdministrativeState_eq_dec : EqDecision AdministrativeState.
Proof. solve_decision. Defined.
Inductive HealthOverride : Type := Auto | Up | Down.

Definition nanos_per_sec : Z := 10 ^ 9.
Definition nanos_per_ms : Z := 10 ^ 6.

(** [Duration::MAX]. *)
Definition duration_max : Z := u64_max * nanos_per_sec + (nanos_per_sec - 1).

Definition MAX_PASSIVE_FAILURE_THRESHOLD : Z := 100.
Definition MAX_PASSIVE_EJECTION_DURATION : Z := 24 * 3600 * nanos_per_sec.

Record PassiveFailurePolicy : Type := mkPassiveFailurePolicy {
  enabled : bool;
  consecutive_failure_threshold : Z;
  initial_ejection_duration : Z;
  max_ejection_duration : Z;
  observe : PassiveObserve;
  on_error : PassiveOnError;
  mark_down : bool;
  mark_up : bool;
  recovery_threshold : Z;
}.

Definition PassiveFailurePolicy_new (consecutive_failure_threshold initial_ejection_duration max_ejection_duration : Z) :
    PassiveFailurePolicy :=
  mkPassiveFailurePolicy true consecutive_failure_threshold initial_ejection_duration max_ejection_duration
    Layer7 Count false false 1.

Definition PassiveFailurePolicy_default : PassiveFailurePolicy :=
  mkPassiveFailurePolicy false 3 (30 * nanos_per_sec) (300 * nanos_per_sec) Layer7 Count false false 1.

Definition PassiveFailurePolicy_from_config (policy : ConfigPassiveHealthPolicy) : PassiveFailurePolicy :=
  mkPassiveFailurePolicy true
    (match cfg_on_error policy with Count | MarkDown => cfg_error_limit policy | Immediately => 1 end)
    (cfg_initial_backoff_ms policy * nanos_per_ms) (cfg_max_backoff_ms policy * nanos_per_ms)
    (cfg_observe policy) (cfg_on_error policy) (cfg_mark_down policy) (cfg_mark_up policy)
    (cfg_recovery_threshold policy).

Definition observes (p : PassiveFailurePolicy) (failure : HealthFailure) : bool :=
  if negb (enabled p) then false
  else match observe p with
       | Layer4 => match failure with ConnectFailed | Failure_Timeout => true | _ => false end
       | Layer7 => true
       end.

Definition marks_down (p : PassiveFailurePolicy) : bool :=
  mark_down p || match on_error p with MarkDown => true | _ => false end.

Definition PassiveFailurePolicy_validate (p : PassiveFailurePolicy) : result unit PoolError :=
  if (consecutive_failure_threshold p =? 0) || (MAX_PASSIVE_FAILURE_THRESHOLD <? consecutive_failure_threshold p)
  then Err (InvalidPassivePolicy "consecutive failure threshold must be between 1 and 100")
  else if initial_ejection_duration p =? 0
  then Err (InvalidPassivePolicy "initial ejection duration must be nonzero")
  else if max_ejection_duration p <? initial_ejection_duration p
  then Err (InvalidPassivePolicy "maximum ejection duration must not be shorter than the initial duration")
  else if MAX_PASSIVE_EJECTION_DURATION <? max_ejection_duration p
  then Err (InvalidPassivePolicy "maximum ejection duration must not exceed 24 hours")
  else if (recovery_threshold p =? 0) || (MAX_PASSIVE_FAILURE_THRESHOLD <? recovery_threshold p)
  then Err (InvalidPassivePolicy "recovery threshold must be between 1 and 100")
  else Ok tt.

Definition ejection_duration_for (p : PassiveFailurePolicy) (backoff_step : Z) : Z :=
  let exponent := Z.min (saturating_sub backoff_step 1) 31 in
  let multiplier := Z.shiftl 1 exponent in
  match checked_mul duration_max (initial_ejection_duration p) multiplier with
  | None => max_ejection_duration p
  | Some duration => Z.min duration (max_ejection_duration p)
  end.

(** ** Endpoint state *)

Record RuntimeServer : Type := mkRuntimeServer {
  server_name : bytes;
  server_endpoint : RuntimeEndpoint;
  max_connections : option Z;
  pinned_addresses : option (list SocketAddr);
  protected_addresses : list SocketAddr;
}.

Record Administration : Type := mkAdministration {
  administrative_state : AdministrativeState;
  checks_enabled : bool;
  health_override : HealthOverride;
  max_connections_override : Z;
}.

Record ActiveHealth : Type := mkActiveHealth {
  state : EndpointHealthState;
  last_checked_at_unix_ms : Z;
  last_transition_at_unix_ms : Z;
  successful_checks : Z;
  failed_checks : Z;
  consecutive_successes : Z;
  consecutive_failures : Z;
  last_failure : option HealthFailure;
}.

Record PassiveHealth : Type := mkPassiveHealth {
  passive_ejected : bool;
  passive_failure_count : Z;
  passive_consecutive_failures : Z;
  passive_ejection_count : Z;
  passive_backoff_step : Z;
  passive_last_failure : option HealthFailure;
  passive_ejected_at_unix_ms : Z;
  passive_ejection_until_unix_ms : Z;
  passive_last_recovery_at_unix_ms : Z;
  passive_recovery_count : Z;
}.

Record PoolEndpoint : Type := mkPoolEndpoint {
  server : RuntimeServer;
  weight : Z;
  active_work : Z;
  administration : Administration;
  health : ActiveHealth;
  passive : PassiveHealth;
}.

Definition set_active_work (n : Z) (e : PoolEndpoint) : PoolEndpoint :=
  mkPoolEndpoint (server e) (weight e) n (administration e) (health e) (passive e).
Definition set_administration (a : Administration) (e : PoolEndpoint) : PoolEndpoint :=
  mkPoolEndpoint (server e) (weight e) (active_work e) a (health e) (passive e).
Definition set_health (h : ActiveHealth) (e : PoolEndpoint) : PoolEndpoint :=
  mkPoolEndpoint (server e) (weight e) (active_work e) (administration e) h (passive e).
Definition set_passive (p : PassiveHealth) (e : PoolEndpoint) : PoolEndpoint :=
  mkPoolEndpoint (server e) (weight e) (active_work e) (administration e) (health e) p.

Definition PoolEndpoint_new (s : RuntimeServer) (startup : option HealthStartup) (w : Z) : PoolEndpoint :=
  let state := match startup with
               | None => Unchecked
               | Some Startup_Healthy => Healthy
               | Some Startup_Unhealthy => Unhealthy
               | Some Startup_Checking => Unknown
               end in
  mkPoolEndpoint s w 0 (mkAdministration Admin_Ready true Auto 0) (mkActiveHealth state 0 0 0 0 0 0 None)
    (mkPassiveHealth false 0 0 0 0 None 0 0 0 0).

Definition passively_ejected_at (e : PoolEndpoint) (now_unix_ms : Z) : bool :=
  passive_ejected (passive e) && (now_unix_ms <? passive_ejection_until_unix_ms (passive e)).

Definition selectable_at (e : PoolEndpoint) (now_unix_ms : Z) : bool :=
  bool_decide (administrative_state (administration e) = Admin_Ready) && negb (passively_ejected_at e now_unix_ms) &&
  match health_override (administration e) with
  | Auto => state_selectable (state (health e))
  | Up => true
  | Down => false
  end.

Definition endpoint_max_connections (e : PoolEndpoint) : option Z :=
  if max_connections_override (administration e) =? 0 then max_connections (server e)
  else Some (max_connections_override (administration e)).

Definition has_capacity (e : PoolEndpoint) : bool :=
  match endpoint_max_connections e with None => true | Some limit => active_work e <? limit end.

Definition checks_running (e : PoolEndpoint) : bool :=
  checks_enabled (administration e) && negb (bool_decide (administrative_state (administration e) = Maintenance)).

Definition try_acquire_capacity (e : PoolEndpoint) (now_unix_ms : Z) : option PoolEndpoint :=
  if negb (selectable_at e now_unix_ms) ||
     match endpoint_max_connections e with None => false | Some limit => limit <=? active_work e end
  then None
  else (fun n => set_active_work n e) <$> checked_add u64_max (active_work e) 1.

(** ** DNS *)

Definition is_unspecified (a : IpAddr) : bool := match a with V4 v | V6 v => v =? 0 end.

Definition reject_protected_addresses (e : PoolEndpoint) (addresses : list SocketAddr) : result unit ResolveErrorKind :=
  if existsb (fun address =>
       existsb (fun protected =>
         (port address =? port protected) &&
         (bool_decide (ip address = ip protected) || is_unspecified (ip protected)))
         (protected_addresses (server e))) addresses
  then Err PermissionDenied else Ok tt.

Definition set_pinned (addresses : list SocketAddr) (e : PoolEndpoint) : PoolEndpoint :=
  let s := server e in
  mkPoolEndpoint (mkRuntimeServer (server_name s) (server_endpoint s) (max_connections s) (Some addresses)
    (protected_addresses s)) (weight e) (active_work e) (administration e) (health e) (passive e).

Definition is_dns (e : RuntimeEndpoint) : bool := match e with DnsEndpoint _ _ => true | _ => false end.

Definition commit_dns (e : PoolEndpoint) (addresses : list SocketAddr) : result PoolEndpoint ResolveErrorKind :=
  if negb (is_dns (server_endpoint (server e))) then Err InvalidInput
  else
    let? _ := reject_protected_addresses e addresses in
    Ok (match pinned_addresses (server e) with Some _ => set_pinned addresses e | None => e end).

(** [lookup_host] is the resolver's answer, or the number of its error. *)
Definition endpoint_resolve_addresses (e : RuntimeEndpoint)
    (lookup_host : bytes -> Z -> result (list SocketAddr) ResolveErrorKind) : result (list SocketAddr) ResolveErrorKind :=
  match e with
  | Socket address => Ok [address]
  | DnsEndpoint h p => let? addresses := lookup_host h p in order_addresses addresses
  | Unix _ => Err InvalidInput
  end.

Definition resolve_addresses (e : PoolEndpoint)
    (lookup_host : bytes -> Z -> result (list SocketAddr) ResolveErrorKind) : result (list SocketAddr) ResolveErrorKind :=
  let? addresses :=
    match pinned_addresses (server e) with
    | Some addresses => Ok addresses
    | None => endpoint_resolve_addresses (server_endpoint (server e)) lookup_host
    end in
  let? _ := reject_protected_addresses e addresses in
  Ok addresses.

(** ** Recording health *)

(** [fetch_add(1)]. *)
Definition wrapping_inc (n : Z) : Z := (n + 1) mod (u64_max + 1).

(** What [increment_saturating] leaves in the counter, which it also returns. *)
Definition increment_saturating (counter : Z) : Z := saturating_add u64_max counter 1.

Record PassiveEjection : Type := mkPassiveEjection {
  ejection_reason : HealthFailure;
  failure_count : Z;
  ejection_count : Z;
  ejected_at_unix_ms : Z;
  ejection_until_unix_ms : Z;
}.

Record PassiveRecovery : Type := mkPassiveRecovery {
  recovery_reason : option HealthFailure;
  recovery_count : Z;
  recovered_at_unix_ms : Z;
}.

Record HealthUpdate : Type := mkHealthUpdate {
  transition : option (EndpointHealthState * EndpointHealthState);
  passive_recovery : option PassiveRecovery;
}.

(** The [swap] of a mark: the new state, with the time of the transition when
    it changes. *)
Definition swap_state (next : EndpointHealthState) (at_unix_ms : Z) (h : ActiveHealth) : ActiveHealth :=
  mkActiveHealth next (last_checked_at_unix_ms h)
    (if bool_decide (state h <> next) then at_unix_ms else last_transition_at_unix_ms h)
    (successful_checks h) (failed_checks h) (consecutive_successes h) (consecutive_failures h) (last_failure h).

Definition recover_passive (e : PoolEndpoint) (at_unix_ms : Z) (policy : PassiveFailurePolicy) :
    option PassiveRecovery * PoolEndpoint :=
  let p := passive e in
  if negb (passive_ejected p) then (None, e)
  else
    let recovery_count := increment_saturating (passive_recovery_count p) in
    let e := set_passive (mkPassiveHealth false (passive_failure_count p) 0 (passive_ejection_count p) 0
               (passive_last_failure p) (passive_ejected_at_unix_ms p) (passive_ejection_until_unix_ms p)
               at_unix_ms recovery_count) e in
    let e := if mark_up policy then set_health (swap_state Healthy at_unix_ms (health e)) e else e in
    (Some (mkPassiveRecovery (passive_last_failure p) recovery_count at_unix_ms), e).

(** The counters of a check and the number of checks in a row that agree. *)
Definition count_check (h : ActiveHealth) (healthy : bool) (failure : option HealthFailure)
    (at_unix_ms : option Z) : ActiveHealth * Z :=
  let checked := default (last_checked_at_unix_ms h) at_unix_ms in
  if healthy then
    (mkActiveHealth (state h) checked (last_transition_at_unix_ms h) (wrapping_inc (successful_checks h))
       (failed_checks h) (wrapping_inc (consecutive_successes h)) 0 None,
     saturating_add u64_max (consecutive_successes h) 1)
  else
    (mkActiveHealth (state h) checked (last_transition_at_unix_ms h) (successful_checks h)
       (wrapping_inc (failed_checks h)) 0 (wrapping_inc (consecutive_failures h)) failure,
     saturating_add u64_max (consecutive_failures h) 1).

Definition next_state (previous : EndpointHealthState) (healthy : bool) (consecutive healthy_threshold unhealthy_threshold : Z) :
    EndpointHealthState :=
  if healthy then
    match previous with
    | Unknown | Unhealthy => if healthy_threshold <=? consecutive then Healthy else previous
    | _ => previous
    end
  else
    match previous with
    | Unknown | Healthy => if unhealthy_threshold <=? consecutive then Unhealthy else previous
    | _ => previous
    end.

(** [now_unix_ms] is read when a recovery has no time of its own. *)
Definition record (e : PoolEndpoint) (healthy : bool) (failure : option HealthFailure) (at_unix_ms : option Z)
    (healthy_threshold unhealthy_threshold : Z) (passive_policy : PassiveFailurePolicy) (now_unix_ms : Z) :
    HealthUpdate * PoolEndpoint :=
  let previous := state (health e) in
  let '(h, consecutive) := count_check (health e) healthy failure at_unix_ms in
  let next := next_state previous healthy consecutive healthy_threshold unhealthy_threshold in
  let '(transition, h) :=
    if bool_decide (next = previous) then (None, h)
    else (Some (previous, next),
          mkActiveHealth next (last_checked_at_unix_ms h) (default (last_transition_at_unix_ms h) at_unix_ms)
            (successful_checks h) (failed_checks h) (consecutive_successes h) (consecutive_failures h)
            (last_failure h)) in
  let e := set_health h e in
  let '(recovery, e) :=
    if healthy && (Z.max healthy_threshold (recovery_threshold passive_policy) <=? consecutive)
    then recover_passive e (default now_unix_ms at_unix_ms) passive_policy
    else (None, e) in
  (mkHealthUpdate transition recovery, e).

Definition endpoint_record_passive_failure (e : PoolEndpoint) (failure : HealthFailure) (at_unix_ms : Z)
    (policy : PassiveFailurePolicy) : option PassiveEjection * PoolEndpoint :=
  if negb (observes policy failure) then (None, e)
  else
    let p := passive e in
    let failure_count := increment_saturating (passive_failure_count p) in
    let consecutive := increment_saturating (passive_consecutive_failures p) in
    if passively_ejected_at e at_unix_ms || (consecutive <? consecutive_failure_threshold policy) then
      (None, set_passive (mkPassiveHealth (passive_ejected p) failure_count consecutive (passive_ejection_count p)
               (passive_backoff_step p) (Some failure) (passive_ejected_at_unix_ms p)
               (passive_ejection_until_unix_ms p) (passive_last_recovery_at_unix_ms p) (passive_recovery_count p)) e)
    else
      let ejection_count := increment_saturating (passive_ejection_count p) in
      let backoff_step := increment_saturating (passive_backoff_step p) in
      let duration_ms := Z.min (ejection_duration_for policy backoff_step / nanos_per_ms) u64_max in
      let until := saturating_add u64_max at_unix_ms duration_ms in
      let e := set_passive (mkPassiveHealth true failure_count 0 ejection_count backoff_step (Some failure)
                 at_unix_ms until (passive_last_recovery_at_unix_ms p) (passive_recovery_count p)) e in
      let e := if marks_down policy then set_health (swap_state Unhealthy at_unix_ms (health e)) e else e in
      (Some (mkPassiveEjection failure failure_count ejection_count at_unix_ms until), e).

(** ** The queue *)

(** What a waiting request asks for. *)
Inductive Request : Type := Excluding (names : list bytes) | Named (name : bytes).

(** A [QueueWaitGuard] with its [PoolWaiter]: whether it is counted as waiting,
    whether its [Notify] holds a permit, and whether its task sleeps. *)
Record Waiter : Type := mkWaiter {
  w_id : nat;
  w_request : Request;
  w_waiting : bool;
  w_permit : bool;
  w_asleep : bool;
  w_attempted_at : Z; (* the time of its last attempt; only the theorems read it *)
}.

(** A connector in [wait_for_capacity], with the generation it saw; [notify_waiters]
    wakes it. *)
Record LifetimeWaiter : Type := mkLifetimeWaiter { l_id : nat; l_generation : Z; l_woken : bool }.

Record PoolQueue : Type := mkPoolQueue {
  capacity_waiters_possible : bool;
  cancellations : Z;
  generation : Z;
  queued : Z;
  queued_total : Z;
  timeouts : Z;
  waiters : list Waiter;
  lifetime_waiters : list LifetimeWaiter;
}.

Definition PoolQueue_new (capacity_waiters_possible : bool) : PoolQueue :=
  mkPoolQueue capacity_waiters_possible 0 0 0 0 0 [] [].

Definition set_waiters (ws : list Waiter) (q : PoolQueue) : PoolQueue :=
  mkPoolQueue (capacity_waiters_possible q) (cancellations q) (generation q) (queued q) (queued_total q)
    (timeouts q) ws (lifetime_waiters q).

Definition give_permit (w : Waiter) : Waiter :=
  mkWaiter (w_id w) (w_request w) (w_waiting w) true (w_asleep w) (w_attempted_at w).

Definition notify_front (q : PoolQueue) : PoolQueue :=
  match waiters q with
  | w :: ws => set_waiters (give_permit w :: ws) q
  | [] => q
  end.

Definition wake_lifetime (l : LifetimeWaiter) : LifetimeWaiter := mkLifetimeWaiter (l_id l) (l_generation l) true.

Definition notify_capacity_waiters (q : PoolQueue) : PoolQueue :=
  notify_front
    (mkPoolQueue (capacity_waiters_possible q) (cancellations q) (wrapping_inc (generation q)) (queued q)
       (queued_total q) (timeouts q) (waiters q) (wake_lifetime <$> lifetime_waiters q)).

(** [decrement_queue_count]: the counter stays when it cannot be decremented. *)
Definition decrement (n : Z) : Z := if n =? 0 then 0 else n - 1.

(** [remove]: whether the waiter was at the front, and the others. *)
Definition remove_waiter (id : nat) (ws : list Waiter) : bool * list Waiter :=
  (match ws with w :: _ => bool_decide (w_id w = id) | [] => false end,
   filter (fun w => w_id w <> id) ws).

Definition find_waiter (id : nat) (ws : list Waiter) : option Waiter := find (fun w => bool_decide (w_id w = id)) ws.

(** [finish]. *)
Definition QueueWaitGuard_finish (id : nat) (timed_out : bool) (q : PoolQueue) : PoolQueue :=
  match find_waiter id (waiters q) with
  | None => q
  | Some w =>
      let '(removed_front, ws) := remove_waiter id (waiters q) in
      let q := mkPoolQueue (capacity_waiters_possible q) (cancellations q) (generation q)
                 (if w_waiting w then decrement (queued q) else queued q) (queued_total q)
                 (if timed_out then wrapping_inc (timeouts q) else timeouts q) ws (lifetime_waiters q) in
      if removed_front then notify_front q else q
  end.

(** Dropping the guard of a request that was given up. *)
Definition cancel (id : nat) (q : PoolQueue) : PoolQueue :=
  match find_waiter id (waiters q) with
  | None => q
  | Some w =>
      let '(removed_front, ws) := remove_waiter id (waiters q) in
      let q := mkPoolQueue (capacity_waiters_possible q)
                 (if w_waiting w then wrapping_inc (cancellations q) else cancellations q) (generation q)
                 (if w_waiting w then decrement (queued q) else queued q) (queued_total q) (timeouts q) ws
                 (lifetime_waiters q) in
      if removed_front then notify_front q else q
  end.

(** ** The pool *)

Record EndpointPool : Type := mkEndpointPool {
  algorithm : UpstreamAlgorithm;
  pool_name : bytes;
  endpoints : list PoolEndpoint;
  weighted_schedule : list nat;
  passive_policy : PassiveFailurePolicy;
  health_version : Z;
  next : nat;
  queue : PoolQueue;
  queue_timeout : option Z;
  unavailable_selections : Z;
}.

Definition set_endpoints (es : list PoolEndpoint) (p : EndpointPool) : EndpointPool :=
  mkEndpointPool (algorithm p) (pool_name p) es (weighted_schedule p) (passive_policy p) (health_version p) (next p)
    (queue p) (queue_timeout p) (unavailable_selections p).
Definition set_next (n : nat) (p : EndpointPool) : EndpointPool :=
  mkEndpointPool (algorithm p) (pool_name p) (endpoints p) (weighted_schedule p) (passive_policy p)
    (health_version p) n (queue p) (queue_timeout p) (unavailable_selections p).
Definition set_queue (q : PoolQueue) (p : EndpointPool) : EndpointPool :=
  mkEndpointPool (algorithm p) (pool_name p) (endpoints p) (weighted_schedule p) (passive_policy p)
    (health_version p) (next p) q (queue_timeout p) (unavailable_selections p).
Definition bump_version (p : EndpointPool) : EndpointPool :=
  mkEndpointPool (algorithm p) (pool_name p) (endpoints p) (weighted_schedule p) (passive_policy p)
    (wrapping_inc (health_version p)) (next p) (queue p) (queue_timeout p) (unavailable_selections p).
Definition note_unavailable_selection (p : EndpointPool) : EndpointPool :=
  mkEndpointPool (algorithm p) (pool_name p) (endpoints p) (weighted_schedule p) (passive_policy p)
    (health_version p) (next p) (queue p) (queue_timeout p) (wrapping_inc (unavailable_selections p)).

Definition notify_pool (p : EndpointPool) : EndpointPool := set_queue (notify_capacity_waiters (queue p)) p.

(** *** Construction *)

Definition effective_weights (a : UpstreamAlgorithm) (endpoint_count : nat) : result (list Z) PoolError :=
  match a with
  | WeightedRoundRobin weights =>
      if negb (bool_decide (length weights = endpoint_count))
      then Err (InvalidWeights "weighted round-robin requires one weight per endpoint")
      else if existsb (Z.eqb 0) weights
      then Err (InvalidWeights "weighted round-robin weights must be positive")
      else Ok weights
  | _ => Ok (replicate endpoint_count 1)
  end.

Fixpoint cycle_length (total : Z) (weights : list Z) : result Z PoolError :=
  match weights with
  | [] => Ok total
  | weight :: weights =>
      match checked_add usize_max total weight with
      | Some total =>
          if total <=? MAX_WEIGHTED_CYCLE then cycle_length total weights
          else Err (InvalidWeights "weighted round-robin cycle exceeds its bounded size")
      | None => Err (InvalidWeights "weighted round-robin cycle exceeds its bounded size")
      end
  end.

Definition build_weighted_schedule (a : UpstreamAlgorithm) (weights : list Z) : result (list nat) PoolError :=
  match a with
  | WeightedRoundRobin _ =>
      let? _ := cycle_length 0 weights in
      Ok (concat (imap (fun index weight => replicate (Z.to_nat weight) index) weights))
  | _ => Ok []
  end.

Definition compile_blueprint (a : UpstreamAlgorithm) (endpoint_count : nat) : result (list Z * list nat) PoolError :=
  if bool_decide (endpoint_count = 0%nat) then Err Pool_Empty
  else
    let? weights := effective_weights a endpoint_count in
    let? weighted_schedule := build_weighted_schedule a weights in
    Ok (weights, weighted_schedule).

Definition acquire_compiled (name : bytes) (servers : list RuntimeServer) (startup : option HealthStartup)
    (queue_timeout : option Z) (passive_policy : PassiveFailurePolicy) (a : UpstreamAlgorithm)
    (blueprint : list Z * list nat) : EndpointPool :=
  let endpoints := zip_with (fun s w => PoolEndpoint_new s startup w) servers (fst blueprint) in
  mkEndpointPool a name endpoints (snd blueprint) passive_policy 0 0
    (PoolQueue_new (bool_decide (is_Some queue_timeout))) queue_timeout 0.

Fixpoint preflight_all (servers : list RuntimeServer) : result unit PoolError :=
  match servers with
  | [] => Ok tt
  | s :: servers => let? _ := preflight (server_endpoint s) in preflight_all servers
  end.

Definition new_named_servers_with_policy (name : bytes) (servers : list RuntimeServer) (a : UpstreamAlgorithm)
    (startup : option HealthStartup) (queue_timeout : option Z) (passive_policy : PassiveFailurePolicy) :
    result EndpointPool PoolError :=
  let? _ := PassiveFailurePolicy_validate passive_policy in
  let? _ := preflight_all servers in
  let? blueprint := compile_blueprint a (length servers) in
  Ok (acquire_compiled name servers startup queue_timeout passive_policy a blueprint).

(** *** Capacity *)

(** [release_capacity]: a counter that is 0 stays, and waiters are notified. *)
Definition release_capacity (index : nat) (p : EndpointPool) : EndpointPool :=
  notify_pool (set_endpoints (alter (fun e => set_active_work (decrement (active_work e)) e) index (endpoints p)) p).

Definition try_acquire (index : nat) (now_unix_ms : Z) (p : EndpointPool) : bool * EndpointPool :=
  match endpoints p !! index with
  | None => (false, p)
  | Some e =>
      if negb (selectable_at e now_unix_ms) then (false, p)
      else
        match try_acquire_capacity e now_unix_ms with
        | None => (false, p)
        | Some e =>
            let p := set_endpoints (<[index := e]> (endpoints p)) p in
            if negb (selectable_at e now_unix_ms) then (false, release_capacity index p) else (true, p)
        end
  end.

(** *** Selection *)

(** A candidate: its place in the schedule, its index and its load. *)
Abbreviation Candidate := (nat * nat * Z)%type.

Definition candidate_index (c : Candidate) : nat := snd (fst c).
Definition candidate_cursor (c : Candidate) : nat := fst (fst c).
Definition candidate_active (c : Candidate) : Z := snd c.

Definition eligible (excluded : list bytes) (now_unix_ms : Z) (e : PoolEndpoint) : bool :=
  selectable_at e now_unix_ms && negb (bool_decide (server_name (server e) ∈ excluded)).

(** The endpoints that may serve, in the order of the rotation. *)
Definition candidates (p : EndpointPool) (excluded : list bytes) (now_unix_ms : Z) : list Candidate :=
  let start := next p in
  let offer cursor index :=
    match endpoints p !! index with
    | Some e => if eligible excluded now_unix_ms e then Some (cursor, index, active_work e) else None
    | None => None
    end in
  if bool_decide (weighted_schedule p = []) then
    let n := length (endpoints p) in
    omap (fun offset => let index := ((start + offset) mod n)%nat in offer index index) (seq 0 n)
  else
    let n := length (weighted_schedule p) in
    omap (fun offset =>
      let cursor := ((start + offset) mod n)%nat in
      index ← weighted_schedule p !! cursor; offer cursor index) (seq 0 n).

Definition candidate_free (p : EndpointPool) (c : Candidate) : bool :=
  match endpoints p !! candidate_index c with Some e => has_capacity e | None => false end.

(** [sort_by_key] is stable. *)
Fixpoint insert_by_key (key : Candidate -> Z) (c : Candidate) (l : list Candidate) : list Candidate :=
  match l with
  | [] => [c]
  | d :: l => if key c <=? key d then c :: d :: l else d :: insert_by_key key c l
  end.
Definition sort_by_key (key : Candidate -> Z) (l : list Candidate) : list Candidate := foldr (insert_by_key key) [] l.

Definition order_candidates (a : UpstreamAlgorithm) (l : list Candidate) : list Candidate :=
  match a with
  | LeastConnections => sort_by_key candidate_active l
  | First => sort_by_key (fun c => Z.of_nat (candidate_index c)) l
  | _ => l
  end.

(** The search for the first candidate that can be acquired. *)
Fixpoint acquire_first (l : list Candidate) (now_unix_ms : Z) (p : EndpointPool) : option Candidate * EndpointPool :=
  match l with
  | [] => (None, p)
  | c :: l =>
      let '(acquired, p) := try_acquire (candidate_index c) now_unix_ms p in
      if acquired then (Some c, p) else acquire_first l now_unix_ms p
  end.

(** Where the next selection starts. *)
Definition advance (c : Candidate) (p : EndpointPool) : EndpointPool :=
  match algorithm p with
  | First => p
  | _ =>
      set_next (if bool_decide (weighted_schedule p = [])
                then ((candidate_index c + 1) mod length (endpoints p))%nat
                else ((candidate_cursor c + 1) mod length (weighted_schedule p))%nat) p
  end.

(** The index of the endpoint leased, if any. *)
Record SelectionAttempt : Type := mkSelectionAttempt {
  lease : option nat;
  pool_available : bool;
  saturated : bool;
}.

Definition select_server_excluding (excluded : list bytes) (now_unix_ms : Z) (p : EndpointPool) :
    SelectionAttempt * EndpointPool :=
  let pool_available := existsb (fun e => selectable_at e now_unix_ms) (endpoints p) in
  let cs := candidates p excluded now_unix_ms in
  let saturated := existsb (fun c => negb (candidate_free p c)) cs in
  let ordered := order_candidates (algorithm p) (filter (fun c => candidate_free p c = true) cs) in
  let '(selected, p) := acquire_first ordered now_unix_ms p in
  let p := match selected with Some c => advance c p | None => p end in
  (mkSelectionAttempt (candidate_index <$> selected) pool_available (saturated && negb (bool_decide (cs = []))), p).

Definition min_by_key (key : Candidate -> Z) (l : list Candidate) : option Candidate := head (sort_by_key key l).

(** The endpoint a connector should use; the lease is acquired later. *)
Definition select_connection_target_excluding (excluded : list bytes) (now_unix_ms : Z) (p : EndpointPool) :
    option nat * EndpointPool :=
  let cs := candidates p excluded now_unix_ms in
  let available := filter (fun c => candidate_free p c = true) cs in
  let cs := if bool_decide (available = []) then cs else available in
  let selected :=
    match algorithm p with
    | WeightedRoundRobin _ | RoundRobin => head cs
    | LeastConnections => min_by_key candidate_active cs
    | First => min_by_key (fun c => Z.of_nat (candidate_index c)) cs
    end in
  match selected with
  | None => (None, note_unavailable_selection p)
  | Some c => (Some (candidate_index c), advance c p)
  end.

Definition find_server (name : bytes) (p : EndpointPool) : option (nat * PoolEndpoint) :=
  list_find (fun e => server_name (server e) = name) (endpoints p).

Definition select_named_server (name : bytes) (now_unix_ms : Z) (p : EndpointPool) : SelectionAttempt * EndpointPool :=
  match find_server name p with
  | None => (mkSelectionAttempt None false false, p)
  | Some (index, e) =>
      let pool_available := selectable_at e now_unix_ms in
      let saturated := pool_available && negb (has_capacity e) in
      let '(acquired, p) := try_acquire index now_unix_ms p in
      (mkSelectionAttempt (if acquired then Some index else None) pool_available saturated, p)
  end.

Definition select_server_connection_target (name : bytes) (now_unix_ms : Z) (p : EndpointPool) : option nat :=
  match find_server name p with
  | Some (index, e) => if selectable_at e now_unix_ms then Some index else None
  | None => None
  end.

Definition attempt (r : Request) (now_unix_ms : Z) (p : EndpointPool) : SelectionAttempt * EndpointPool :=
  match r with
  | Excluding names => select_server_excluding names now_unix_ms p
  | Named name => select_named_server name now_unix_ms p
  end.

Definition select_excluding (excluded : list RuntimeEndpoint) (now_unix_ms : Z) (p : EndpointPool) :
    option nat * EndpointPool :=
  let names := (fun e => server_name (server e)) <$>
               filter (fun e => server_endpoint (server e) ∈ excluded) (endpoints p) in
  let '(a, p) := select_server_excluding names now_unix_ms p in
  (lease a, if bool_decide (lease a = None) && negb (pool_available a) then note_unavailable_selection p else p).

(** *** Waiting *)

(** What a call that may wait has come to. *)
Inductive WaitOutcome : Type := Pending | Returned (l : option nat).

Definition update_waiter (id : nat) (f : Waiter -> Waiter) (q : PoolQueue) : PoolQueue :=
  set_waiters ((fun w => if bool_decide (w_id w = id) then f w else w) <$> waiters q) q.

Definition is_front (id : nat) (q : PoolQueue) : bool :=
  match waiters q with w :: _ => bool_decide (w_id w = id) | [] => false end.

(** The entry of [select_wait_with]: without a queue timeout there is one
    attempt, otherwise [QueueWaitGuard::new] joins the queue. *)
Definition wait_start (id : nat) (r : Request) (now_unix_ms : Z) (p : EndpointPool) : WaitOutcome * EndpointPool :=
  match queue_timeout p with
  | None =>
      let '(a, p) := attempt r now_unix_ms p in
      (Returned (lease a),
       if bool_decide (lease a = None) && negb (pool_available a) then note_unavailable_selection p else p)
  | Some _ =>
      let q := queue p in
      (Pending, set_queue (set_waiters (waiters q ++ [mkWaiter id r false false false 0]) q) p)
  end.

(** [mark_waiting] and going to sleep. *)
Definition fall_asleep (id : nat) (attempted_at : Z) (p : EndpointPool) : EndpointPool :=
  let q := queue p in
  match find_waiter id (waiters q) with
  | None => p
  | Some w =>
      let q := if w_waiting w then q
               else mkPoolQueue (capacity_waiters_possible q) (cancellations q) (generation q)
                      (wrapping_inc (queued q)) (wrapping_inc (queued_total q)) (timeouts q) (waiters q)
                      (lifetime_waiters q) in
      set_queue (update_waiter id (fun w => mkWaiter (w_id w) (w_request w) true (w_permit w) true attempted_at) q) p
  end.

(** One turn of the loop of [select_wait_with], by a request that is awake. *)
Definition wait_poll (id : nat) (now_unix_ms : Z) (p : EndpointPool) : WaitOutcome * EndpointPool :=
  match find_waiter id (waiters (queue p)) with
  | None => (Pending, p)
  | Some w =>
      if w_asleep w then (Pending, p)
      else if is_front id (queue p) then
        let '(a, p) := attempt (w_request w) now_unix_ms p in
        match lease a with
        | Some l => (Returned (Some l), set_queue (QueueWaitGuard_finish id false (queue p)) p)
        | None =>
            if negb (pool_available a) || negb (saturated a) then
              let p := set_queue (QueueWaitGuard_finish id false (queue p)) p in
              (Returned None, if negb (pool_available a) then note_unavailable_selection p else p)
            else (Pending, fall_asleep id now_unix_ms p)
        end
      else (Pending, fall_asleep id now_unix_ms p)
  end.

(** The [Notify] of a sleeping request hands over its permit. *)
Definition wait_wake (id : nat) (p : EndpointPool) : EndpointPool :=
  match find_waiter id (waiters (queue p)) with
  | Some w =>
      if w_asleep w && w_permit w then
        set_queue (update_waiter id (fun w => mkWaiter (w_id w) (w_request w) (w_waiting w) false false
          (w_attempted_at w)) (queue p)) p
      else p
  | None => p
  end.

(** The deadline of a sleeping request that holds no permit. *)
Definition wait_timeout (id : nat) (p : EndpointPool) : WaitOutcome * EndpointPool :=
  match find_waiter id (waiters (queue p)) with
  | Some w =>
      if w_asleep w && negb (w_permit w) then (Returned None, set_queue (QueueWaitGuard_finish id true (queue p)) p)
      else (Pending, p)
  | None => (Pending, p)
  end.

Definition wait_cancel (id : nat) (p : EndpointPool) : EndpointPool := set_queue (cancel id (queue p)) p.

(** *** Connection lifetimes *)

Definition set_lifetime_waiters (ls : list LifetimeWaiter) (q : PoolQueue) : PoolQueue :=
  mkPoolQueue (capacity_waiters_possible q) (cancellations q) (generation q) (queued q) (queued_total q)
    (timeouts q) (waiters q) ls.

(** [wait_for_capacity]: whether it returns at once, and joins the waiters if not.
    Without a queue timeout there is no deadline and it is refused. *)
Definition lifetime_wait (id : nat) (gen : Z) (p : EndpointPool) : bool * EndpointPool :=
  match queue_timeout p with
  | None => (true, p)
  | Some _ =>
      let q := queue p in
      if negb (generation q =? gen) then (true, p)
      else (false, set_queue (set_lifetime_waiters (lifetime_waiters q ++ [mkLifetimeWaiter id gen false]) q) p)
  end.

(** A woken connector looks at the generation again. *)
Definition lifetime_turn (id : nat) (p : EndpointPool) : bool * EndpointPool :=
  let q := queue p in
  match find (fun l => bool_decide (l_id l = id)) (lifetime_waiters q) with
  | None => (false, p)
  | Some l =>
      if negb (l_woken l) then (false, p)
      else if negb (generation q =? l_generation l) then
        (true, set_queue (set_lifetime_waiters (filter (fun l => l_id l <> id) (lifetime_waiters q)) q) p)
      else
        (false, set_queue (set_lifetime_waiters
           ((fun l => if bool_decide (l_id l = id) && (l_generation l =? generation q)
                      then mkLifetimeWaiter (l_id l) (l_generation l) false else l) <$> lifetime_waiters q) q) p)
  end.

(** The deadline of a connector that was not woken. *)
Definition lifetime_timeout (id : nat) (p : EndpointPool) : bool * EndpointPool :=
  let q := queue p in
  match find (fun l => bool_decide (l_id l = id)) (lifetime_waiters q) with
  | Some l =>
      if l_woken l then (false, p)
      else
        (true, set_queue (mkPoolQueue (capacity_waiters_possible q) (cancellations q) (generation q) (queued q)
           (queued_total q) (wrapping_inc (timeouts q)) (waiters q)
           (filter (fun l => l_id l <> id) (lifetime_waiters q))) p)
  | None => (false, p)
  end.

Definition notify_reusable (p : EndpointPool) : EndpointPool :=
  if capacity_waiters_possible (queue p) then notify_pool p else p.

(** *** Health and administration *)

Definition record_health (index : nat) (healthy : bool) (failure : option HealthFailure) (at_unix_ms : option Z)
    (healthy_threshold unhealthy_threshold : Z) (now_unix_ms : Z) (p : EndpointPool) :
    option (EndpointHealthState * EndpointHealthState) * EndpointPool :=
  match endpoints p !! index with
  | None => (None, p)
  | Some e =>
      let p := bump_version p in
      let '(update, e) := record e healthy failure at_unix_ms healthy_threshold unhealthy_threshold
                                 (passive_policy p) now_unix_ms in
      let p := bump_version (set_endpoints (<[index := e]> (endpoints p)) p) in
      (transition update,
       if bool_decide (is_Some (transition update)) || bool_decide (is_Some (passive_recovery update))
       then notify_pool p else p)
  end.

Definition record_passive_failure_at (index : nat) (failure : HealthFailure) (at_unix_ms : Z) (p : EndpointPool) :
    EndpointPool :=
  match endpoints p !! index with
  | None => p
  | Some e =>
      let p := bump_version p in
      let '(ejection, e) := endpoint_record_passive_failure e failure at_unix_ms (passive_policy p) in
      let p := bump_version (set_endpoints (<[index := e]> (endpoints p)) p) in
      if bool_decide (is_Some ejection) then notify_pool p else p
  end.

Inductive PoolAdminError : Type := UnknownServer (name : bytes) | InvalidMaxConnections | DnsRefreshFailed.

Definition with_server (name : bytes) (f : PoolEndpoint -> PoolEndpoint) (p : EndpointPool) :
    result EndpointPool PoolAdminError :=
  match find_server name p with
  | None => Err (UnknownServer name)
  | Some (index, e) => Ok (set_endpoints (<[index := f e]> (endpoints p)) p)
  end.

Definition administer (s : AdministrativeState) (e : PoolEndpoint) : PoolEndpoint :=
  let a := administration e in
  set_administration (mkAdministration s (checks_enabled a) (health_override a) (max_connections_override a)) e.

Definition set_server_administrative_state (name : bytes) (s : AdministrativeState) (p : EndpointPool) :
    result EndpointPool PoolAdminError :=
  let? p := with_server name (administer s) p in Ok (notify_pool p).

Definition set_administrative_state (s : AdministrativeState) (p : EndpointPool) : EndpointPool :=
  notify_pool (set_endpoints (administer s <$> endpoints p) p).

Definition set_server_health_override (name : bytes) (o : HealthOverride) (p : EndpointPool) :
    result EndpointPool PoolAdminError :=
  let? p := with_server name (fun e =>
    let a := administration e in
    set_administration (mkAdministration (administrative_state a) (checks_enabled a) o (max_connections_override a)) e) p in
  Ok (notify_pool p).

Definition set_server_checks_enabled (name : bytes) (on : bool) (p : EndpointPool) : result EndpointPool PoolAdminError :=
  with_server name (fun e =>
    let a := administration e in
    set_administration (mkAdministration (administrative_state a) on (health_override a) (max_connections_override a)) e) p.

Definition set_server_max_connections (name : bytes) (limit : option Z) (p : EndpointPool) :
    result EndpointPool PoolAdminError :=
  if bool_decide (limit = Some 0) then Err InvalidMaxConnections
  else
    let? p := with_server name (fun e =>
      let a := administration e in
      set_administration (mkAdministration (administrative_state a) (checks_enabled a) (health_override a)
        (default 0 limit)) e) p in
    Ok (notify_pool p).

Definition commit_server_dns (name : bytes) (addresses : list SocketAddr) (p : EndpointPool) :
    result EndpointPool PoolAdminError :=
  match find_server name p with
  | None => Err (UnknownServer name)
  | Some (index, e) =>
      let? e := map_err (fun _ => DnsRefreshFailed) (commit_dns e addresses) in
      Ok (set_endpoints (<[index := e]> (endpoints p)) p)
  end.

Definition has_unattempted_servers (attempted : list bytes) (now_unix_ms : Z) (p : EndpointPool) : bool :=
  existsb (fun e => selectable_at e now_unix_ms && negb (bool_decide (server_name (server e) ∈ attempted))) (endpoints p).

Definition has_available (now_unix_ms : Z) (p : EndpointPool) : bool :=
  existsb (fun e => selectable_at e now_unix_ms && has_capacity e) (endpoints p).
