(* ===== verification/PoolFacts.v ===== *)
(** What the endpoint pool guarantees ([oxiroute-server/src/routing.rs], model
    in [Pool]): which endpoint a selection takes, the fairness of the weighted
    rotation, when health changes and how long an ejection lasts. *)

From stdpp Require Import base list sets strings sorting.
From Stdlib Require Import ZArith Lia Strings.Byte.
From S2P Require Import Prelude Bytes Order Http Net Lexical Routing Pool.

Open Scope Z_scope.

(** ** The first of the best *)

Lemma omap_step {A B} (f : A -> option B) a l :
  omap f (a :: l) = match f a with Some b => b :: omap f l | None => omap f l end.
Proof. done. Qed.

Lemma sort_by_key_cons key c l : sort_by_key key (c :: l) = insert_by_key key c (sort_by_key key l).
Proof. done. Qed.

Section FirstBest.
Context {A : Type} (f : A -> option Candidate) (key : Candidate -> Z).

(** [c] is offered at position [k], and nothing offered is better, or as good
    and earlier. *)
Definition first_best (l : list A) (k : nat) (c : Candidate) : Prop :=
  (exists a, l !! k = Some a /\ f a = Some c) /\
  forall k' a' c', l !! k' = Some a' -> f a' = Some c' -> key c < key c' \/ key c = key c' /\ (k <= k')%nat.

Lemma first_best_unique l k c k' c' : first_best l k c -> first_best l k' c' -> k = k' /\ c = c'.
Proof.
  intros [(a & Ha & Hc) Hmin] [(a' & Ha' & Hc') Hmin'].
  destruct (Hmin _ _ _ Ha' Hc'), (Hmin' _ _ _ Ha Hc); try lia.
  assert (k = k') as <- by lia. naive_solver.
Qed.

Lemma insert_by_key_head c l :
  head (insert_by_key key c l) =
  match l with d :: _ => if key c <=? key d then Some c else Some d | [] => Some c end.
Proof. destruct l as [|d l]; [done|]. simpl. by destruct (_ <=? _). Qed.

Lemma sort_by_key_nil l : head (sort_by_key key l) = None -> l = [].
Proof. destruct l as [|c l]; [done|]. simpl. rewrite insert_by_key_head. by repeat case_match. Qed.

Lemma sort_head_sound l c : head (sort_by_key key (omap f l)) = Some c -> exists k, first_best l k c.
Proof.
  revert c. induction l as [|a l IH]; intros c; [done|]. rewrite omap_step.
  destruct (f a) as [d|] eqn:Ha.
  - rewrite sort_by_key_cons, insert_by_key_head. destruct (sort_by_key key (omap f l)) as [|b s] eqn:Hs.
    + intros [= <-]. exists 0%nat. split; [by exists a|]. intros [|k'] a' c' H1 H2; simplify_eq/=.
      { right. split; [done|lia]. }
      assert (omap f l = []) as Hnil by by apply sort_by_key_nil; rewrite Hs.
      exfalso. assert (c' ∈ omap f l) as Hin by (apply list_elem_of_omap; exists a'; split; [by eapply list_elem_of_lookup_2|done]).
      rewrite Hnil in Hin. by apply elem_of_nil in Hin.
    + destruct (IH b eq_refl) as (k & (a1 & Ha1 & Hb) & Hmin). case_match eqn:Hle; intros [= <-].
      * apply Z.leb_le in Hle. exists 0%nat. split; [by exists a|]. intros [|k'] a' c' H1 H2; simplify_eq/=.
        { right. split; [done|lia]. }
        destruct (Hmin _ _ _ H1 H2) as [?|[? _]]; [left; lia|]. destruct (decide (key d = key c')); [right; split; [done|lia]|left; lia].
      * apply Z.leb_gt in Hle. exists (S k). split; [by exists a1|]. intros [|k'] a' c' H1 H2; simplify_eq/=; [by left|].
        destruct (Hmin _ _ _ H1 H2) as [?|[? ?]]; [by left|right; split; [done|lia]].
  - intros H. destruct (IH c H) as (k & (a1 & Ha1 & Hb) & Hmin). exists (S k). split; [by exists a1|].
    intros [|k'] a' c' H1 H2; simplify_eq/=. destruct (Hmin _ _ _ H1 H2) as [?|[? ?]]; [by left|right; split; [done|lia]].
Qed.

Lemma sort_head_exact l c : head (sort_by_key key (omap f l)) = Some c <-> exists k, first_best l k c.
Proof.
  split; [apply sort_head_sound|]. intros (k & Hk).
  destruct (head (sort_by_key key (omap f l))) as [c'|] eqn:E.
  - destruct (sort_head_sound _ _ E) as (k' & Hk'). by destruct (first_best_unique _ _ _ _ _ Hk Hk') as [_ ->].
  - apply sort_by_key_nil in E. destruct Hk as [(a & Ha & Hc) _]. exfalso.
    assert (c ∈ omap f l) as Hin by (apply list_elem_of_omap; exists a; split; [by eapply list_elem_of_lookup_2|done]).
    rewrite E in Hin. by apply elem_of_nil in Hin.
Qed.
End FirstBest.

(** ** The rotation *)

(** The places of the schedule, or of the endpoints when there is none, from
    the one whose turn it is, each with the endpoint it stands for. *)
Definition slots (p : EndpointPool) : list (nat * nat) :=
  if bool_decide (weighted_schedule p = []) then
    (fun i => (i, i)) <$> (seq (next p) (length (endpoints p) - next p) ++ seq 0 (next p))
  else
    (fun c => (c, weighted_schedule p !!! c)) <$>
      (seq (next p) (length (weighted_schedule p) - next p) ++ seq 0 (next p)).

(** The endpoint of a place, when it can serve. *)
Definition ready (p : EndpointPool) (excluded : list bytes) (now : Z) (slot : nat * nat) : option Candidate :=
  match endpoints p !! snd slot with
  | Some e => if eligible excluded now e && has_capacity e then Some (slot, active_work e) else None
  | None => None
  end.

(** What an algorithm prefers: the lower the better, and the place that comes
    first when equal. *)
Definition preference (a : UpstreamAlgorithm) (c : Candidate) : Z :=
  match a with
  | LeastConnections => candidate_active c
  | First => Z.of_nat (candidate_index c)
  | _ => 0
  end.

Record pool_ok (p : EndpointPool) : Prop := {
  ok_next : (next p < length (if bool_decide (weighted_schedule p = []) then seq 0 (length (endpoints p))
                              else weighted_schedule p))%nat;
  ok_schedule : Forall (fun i => (i < length (endpoints p))%nat) (weighted_schedule p);
  ok_complete : weighted_schedule p <> [] -> forall i, (i < length (endpoints p))%nat -> i ∈ weighted_schedule p;
}.

Lemma seq_mod s n : (s < n)%nat -> (fun k => (s + k) mod n)%nat <$> seq 0 n = seq s (n - s) ++ seq 0 s.
Proof.
  intros H. assert (seq 0 n = seq 0 (n - s) ++ seq (n - s) s) as ->.
  { replace n with ((n - s) + s)%nat at 1 by lia. by rewrite seq_app. }
  rewrite fmap_app. f_equal.
  - apply list_eq. intros i. rewrite list_lookup_fmap. destruct (decide (i < n - s)%nat).
    + rewrite !lookup_seq_lt by lia. simpl. f_equal. rewrite Nat.mod_small; lia.
    + rewrite !lookup_seq_ge by lia. done.
  - apply list_eq. intros i. rewrite list_lookup_fmap. destruct (decide (i < s)%nat).
    + rewrite !lookup_seq_lt by lia. simpl. f_equal.
      replace (s + (n - s + i))%nat with (i + 1 * n)%nat by lia. rewrite Nat.Div0.mod_add, Nat.mod_small; lia.
    + rewrite !lookup_seq_ge by lia. done.
Qed.

Lemma omap_fmap_compose {A B C} (g : B -> option C) (f : A -> B) (l : list A) : omap g (f <$> l) = omap (fun x => g (f x)) l.
Proof. induction l as [|x l IH]; [done|]. by rewrite fmap_cons, !omap_step, IH. Qed.

Lemma omap_ext_in {A B} (f g : A -> option B) (l : list A) : (forall x, x ∈ l -> f x = g x) -> omap f l = omap g l.
Proof.
  induction l as [|x l IH]; intros H; [done|]. rewrite !omap_step, H by by left. rewrite IH; [done|]. intros y Hy. apply H. by right.
Qed.

Lemma filter_omap {A B} (f : A -> option B) (P : B -> bool) (l : list A) :
  filter (fun b => P b = true) (omap f l) = omap (fun x => b ← f x; if P b then Some b else None) l.
Proof.
  induction l as [|x l IH]; [done|]. rewrite !omap_step. destruct (f x) as [b|]; simpl; [|done].
  destruct (P b) eqn:E.
  - rewrite filter_cons_True by done. by rewrite IH.
  - rewrite filter_cons_False by by rewrite E. by rewrite IH.
Qed.

(** The slot as [candidates] offers it. *)
Definition offer (p : EndpointPool) (excluded : list bytes) (now : Z) (slot : nat * nat) : option Candidate :=
  match endpoints p !! snd slot with
  | Some e => if eligible excluded now e then Some (slot, active_work e) else None
  | None => None
  end.

Lemma candidates_slots p excluded now : pool_ok p -> candidates p excluded now = omap (offer p excluded now) (slots p).
Proof.
  intros [Hn Hs _]. unfold candidates, slots. case_bool_decide as Hw.
  - rewrite length_seq in Hn. rewrite <- seq_mod by done. by rewrite !omap_fmap_compose.
  - rewrite <- seq_mod by done. rewrite !omap_fmap_compose. apply omap_ext_in. intros k _.
    set (c := ((next p + k) mod length (weighted_schedule p))%nat).
    assert (c < length (weighted_schedule p))%nat as Hc by (apply Nat.mod_upper_bound; lia).
    destruct (lookup_lt_is_Some_2 _ _ Hc) as [i Hi]. rewrite (list_lookup_total_correct _ _ _ Hi), Hi. done.
Qed.

Lemma free_slots p excluded now : pool_ok p ->
  filter (fun c => candidate_free p c = true) (candidates p excluded now) = omap (ready p excluded now) (slots p).
Proof.
  intros H. rewrite candidates_slots, filter_omap by done. apply omap_ext_in. intros [c i] _.
  unfold offer, ready, candidate_free, candidate_index. simpl. destruct (endpoints p !! i) as [e|] eqn:E; [|done].
  destruct (eligible excluded now e); simpl; [|done]. by rewrite E.
Qed.

Lemma preferred_slot p excluded now a c : 
  head (order_candidates a (omap (ready p excluded now) (slots p))) = Some c <->
  exists k, first_best (ready p excluded now) (preference a) (slots p) k c.
Proof.
  assert (forall l, head l = head (sort_by_key (fun _ => 0) l)) as Hsame.
  { intros [|x l]; [done|]. simpl. rewrite insert_by_key_head. by case_match. }
  destruct a; simpl; [rewrite Hsame|rewrite Hsame| |]; apply sort_head_exact.
Qed.

(** ** Selection *)

(** The pool after a lease of endpoint [index]. *)
Definition leased (index : nat) (p : EndpointPool) : EndpointPool :=
  set_endpoints (alter (fun e => set_active_work (active_work e + 1) e) index (endpoints p)) p.

Lemma selectable_active_work e n now : selectable_at (set_active_work n e) now = selectable_at e now.
Proof. done. Qed.

Lemma try_acquire_ready p excluded now slot c :
  ready p excluded now slot = Some c -> (forall e, e ∈ endpoints p -> active_work e < u64_max) ->
  try_acquire (snd slot) now p = (true, leased (snd slot) p).
Proof.
  unfold ready, try_acquire, eligible, has_capacity. destruct (endpoints p !! snd slot) as [e|] eqn:E; [|done].
  intros H Hmax. destruct (selectable_at e now) eqn:Hs; [|done]. simpl in *.
  unfold try_acquire_capacity. rewrite Hs. simpl.
  replace (match endpoint_max_connections e with Some limit => limit <=? active_work e | None => false end) with false.
  2:{ destruct (endpoint_max_connections e) as [limit|]; [|done]. symmetry. apply Z.leb_gt.
      destruct (_ && (_ <? _)) eqn:Hc in H; [|done]. bool_inv. lia. }
  pose proof (Hmax e ltac:(by eapply list_elem_of_lookup_2)) as Hm.
  rewrite (proj2 (checked_add_Some u64_max (active_work e) 1 (active_work e + 1))) by (split; lia). simpl.
  rewrite selectable_active_work, Hs. simpl. unfold leased. f_equal. f_equal.
  rewrite list_insert_alter. apply list_alter_ext; [|done]. intros x Hx. by simplify_eq.
Qed.

Lemma acquire_first_ready p excluded now l :
  (forall e, e ∈ endpoints p -> active_work e < u64_max) ->
  (forall c, c ∈ l -> exists slot, slot ∈ slots p /\ ready p excluded now slot = Some c) ->
  acquire_first l now p =
  (head l, match head l with Some c => leased (candidate_index c) p | None => p end).
Proof.
  intros Hmax Hl. destruct l as [|c l]; [done|]. simpl.
  destruct (Hl c ltac:(by left)) as (slot & _ & Hr). pose proof (try_acquire_ready _ _ _ _ _ Hr Hmax) as Ht.
  assert (candidate_index c = snd slot) as ->.
  { unfold ready in Hr. repeat case_match; simplify_eq. done. }
  by rewrite Ht.
Qed.

Lemma insert_by_key_perm key c l : insert_by_key key c l ≡ₚ c :: l.
Proof. induction l as [|d l IH]; [done|]. simpl. case_match; [done|]. rewrite IH. constructor. Qed.

Lemma order_candidates_perm a l : order_candidates a l ≡ₚ l.
Proof.
  assert (forall key, sort_by_key key l ≡ₚ l) as H.
  { intros key. induction l as [|c l IH]; [done|]. rewrite sort_by_key_cons, insert_by_key_perm. by rewrite IH. }
  destruct a; simpl; auto.
Qed.

(** Every endpoint has a place. *)
Lemma slots_complete p i : pool_ok p -> (i < length (endpoints p))%nat -> exists c, (c, i) ∈ slots p.
Proof.
  intros [Hn _ Hc] Hi. unfold slots. case_bool_decide as Hw.
  - exists i. apply list_elem_of_fmap. exists i. split; [done|]. rewrite elem_of_app, !elem_of_seq. lia.
  - destruct (proj1 (list_elem_of_lookup _ _) (Hc Hw i Hi)) as [c Hcur]. exists c. apply list_elem_of_fmap. exists c.
    split; [by rewrite (list_lookup_total_correct _ _ _ Hcur)|]. apply lookup_lt_Some in Hcur.
    rewrite elem_of_app, !elem_of_seq. lia.
Qed.

Lemma ready_none p excluded now : pool_ok p ->
  omap (ready p excluded now) (slots p) = [] ->
  forall i e, endpoints p !! i = Some e -> eligible excluded now e = true -> has_capacity e = false.
Proof.
  intros Hok Hnil i e He Hel. apply not_true_iff_false. intros Hcap.
  destruct (slots_complete p i Hok) as [c Hc]; [by eapply lookup_lt_Some|].
  assert ((c, i, active_work e) ∈ omap (ready p excluded now) (slots p)) as Hin.
  { apply list_elem_of_omap. exists (c, i). split; [done|]. unfold ready. simpl. by rewrite He, Hel, Hcap. }
  rewrite Hnil in Hin. by apply elem_of_nil in Hin.
Qed.

Lemma candidate_eligible p excluded now : pool_ok p ->
  candidates p excluded now <> [] <-> exists e, e ∈ endpoints p /\ eligible excluded now e = true.
Proof.
  intros Hok. rewrite candidates_slots by done. split.
  - destruct (omap _ (slots p)) as [|c l] eqn:E; [done|]. intros _.
    assert (c ∈ omap (offer p excluded now) (slots p)) as Hc by (rewrite E; by left).
    apply list_elem_of_omap in Hc as (slot & _ & Hs). unfold offer in Hs.
    destruct (endpoints p !! snd slot) as [e|] eqn:He; [|done]. destruct (eligible excluded now e) eqn:Hel; [|done].
    exists e. split; [by eapply list_elem_of_lookup_2|done].
  - intros (e & [i He]%list_elem_of_lookup & Hel) Hnil.
    destruct (slots_complete p i Hok) as [c Hc]; [by eapply lookup_lt_Some|].
    assert ((c, i, active_work e) ∈ omap (offer p excluded now) (slots p)) as Hin.
    { apply list_elem_of_omap. exists (c, i). split; [done|]. unfold offer. simpl. by rewrite He, Hel. }
    rewrite Hnil in Hin. by apply elem_of_nil in Hin.
Qed.

(** When nothing is free, every candidate is at its limit. *)
Lemma saturated_exact p excluded now : pool_ok p ->
  omap (ready p excluded now) (slots p) = [] ->
  existsb (fun c => negb (candidate_free p c)) (candidates p excluded now) &&
    negb (bool_decide (candidates p excluded now = [])) = true <->
  exists e, e ∈ endpoints p /\ eligible excluded now e = true.
Proof.
  intros Hok Hnone. rewrite <- candidate_eligible by done. rewrite <- free_slots in Hnone by done.
  rewrite andb_true_iff, negb_true_iff, bool_decide_eq_false. split; [by intros [_ ?]|]. intros Hne. split; [|done].
  destruct (candidates p excluded now) as [|c l]; [done|]. simpl. destruct (candidate_free p c) eqn:E; [|done].
  by rewrite filter_cons_True in Hnone.
Qed.

Lemma nothing_ready p excluded now :
  head (order_candidates (algorithm p) (omap (ready p excluded now) (slots p))) = None ->
  omap (ready p excluded now) (slots p) = [].
Proof.
  intros Ho. destruct (order_candidates _ _) eqn:E; [|done]. apply Permutation_nil_r. rewrite <- E.
  symmetry. apply order_candidates_perm.
Qed.

(** Nothing happens between the search and the lease, so the first in order is
    leased. *)
Lemma select_unfold p excluded now :
  pool_ok p -> (forall e, e ∈ endpoints p -> active_work e < u64_max) ->
  select_server_excluding excluded now p =
  let c := head (order_candidates (algorithm p) (omap (ready p excluded now) (slots p))) in
  (mkSelectionAttempt (candidate_index <$> c) (existsb (fun e => selectable_at e now) (endpoints p))
     (existsb (fun c => negb (candidate_free p c)) (candidates p excluded now) &&
      negb (bool_decide (candidates p excluded now = []))),
   match c with Some c => advance c (leased (candidate_index c) p) | None => p end).
Proof.
  intros Hok Hmax. unfold select_server_excluding. rewrite free_slots by done.
  rewrite (acquire_first_ready p excluded now); [by destruct (head _)|done|].
  intros c Hc. rewrite order_candidates_perm in Hc. apply list_elem_of_omap in Hc as (slot & ? & ?). by exists slot.
Qed.

(** C16: A selection leases exactly the endpoint at the first place, in the
    order of the rotation, among those the algorithm likes best of the places
    whose endpoint is selectable, not excluded and below its limit; the lease
    counts once on that endpoint, the rotation moves on behind it, and nothing
    else changes.  It leases nothing exactly when no such endpoint exists, then
    leaves the pool as it was and reports whether a selectable endpoint exists
    and whether the request could be served later. *)
Theorem pool_select_exact (p : EndpointPool) (excluded : list bytes) (now : Z) :
  pool_ok p -> (forall e, e ∈ endpoints p -> active_work e < u64_max) ->
  let best := first_best (ready p excluded now) (preference (algorithm p)) (slots p) in
  let a := fst (select_server_excluding excluded now p) in
  let p' := snd (select_server_excluding excluded now p) in
  (forall i, lease a = Some i <-> exists k c, best k c /\ candidate_index c = i) /\
  (forall k c, best k c -> p' = advance c (leased (candidate_index c) p)) /\
  (lease a = None ->
     p' = p /\
     (forall e, e ∈ endpoints p -> eligible excluded now e = true -> has_capacity e = false) /\
     (saturated a = true <-> exists e, e ∈ endpoints p /\ eligible excluded now e = true)) /\
  (pool_available a = true <-> exists e, e ∈ endpoints p /\ selectable_at e now = true).
Proof.
  intros Hok Hmax best a p'. unfold a, p'. rewrite select_unfold by done.
  assert (forall c, head (order_candidates (algorithm p) (omap (ready p excluded now) (slots p))) = Some c <->
                    exists k, best k c) as Hhead by (intros c; apply preferred_slot).
  assert (existsb (fun e => selectable_at e now) (endpoints p) = true <->
          exists e, e ∈ endpoints p /\ selectable_at e now = true) as Havail.
  { rewrite existsb_exists. by setoid_rewrite list_elem_of_In. }
  destruct (head _) as [c|] eqn:Ho; simpl.
  - destruct (proj1 (Hhead c) eq_refl) as [k0 Hk0]. split_and!; [|..|done|done].
    + intros i. split; [intros [= <-]; by exists k0, c|]. intros (k & c' & Hb & <-).
      by destruct (first_best_unique _ _ _ _ _ _ _ Hk0 Hb) as [_ ->].
    + intros k c' Hb. by destruct (first_best_unique _ _ _ _ _ _ _ Hk0 Hb) as [_ ->].
  - pose proof (nothing_ready _ _ _ Ho) as Hnone. split_and!; [| | |done].
    + intros i. split; [done|]. intros (k & c & Hb & _). by specialize (proj2 (Hhead c) (ex_intro _ k Hb)).
    + intros k c Hb. by specialize (proj2 (Hhead c) (ex_intro _ k Hb)).
    + intros _. split_and!; [done| |by apply saturated_exact].
      intros e [i He]%list_elem_of_lookup Hel. by eapply ready_none.
Qed.

(** ** Construction *)

Lemma effective_weights_Ok a n ws :
  effective_weights a n = Ok ws -> length ws = n /\ (forall weights, a = WeightedRoundRobin weights -> ws = weights /\ 0 ∉ weights).
Proof.
  unfold effective_weights. destruct a as [|weights| |]; try (intros [= <-]; by rewrite length_replicate).
  case_bool_decide as Hl; [|done]. simpl. destruct (existsb (Z.eqb 0) weights) eqn:E; [done|]. intros [= <-].
  split; [done|]. intros ? [= <-]. split; [done|]. intros Hin. apply not_true_iff_false in E. apply E, existsb_exists.
  exists 0. by rewrite <- list_elem_of_In.
Qed.

(** The schedule with its indices shifted. *)
Definition schedule_from (off : nat) (ws : list Z) : list nat :=
  concat (imap (fun index weight => replicate (Z.to_nat weight) (off + index)%nat) ws).

Lemma schedule_from_cons off w ws :
  schedule_from off (w :: ws) = replicate (Z.to_nat w) off ++ schedule_from (S off) ws.
Proof.
  unfold schedule_from. rewrite imap_cons. simpl. rewrite Nat.add_0_r. f_equal. f_equal. apply imap_ext.
  intros i x _. simpl. f_equal. lia.
Qed.

Lemma elem_of_schedule_from off ws i :
  i ∈ schedule_from off ws <-> exists k w, ws !! k = Some w /\ i = (off + k)%nat /\ (0 < Z.to_nat w)%nat.
Proof.
  revert off. induction ws as [|w ws IH]; intros off; [split; [by intros ?%elem_of_nil|by intros (k & w & ? & _)]|].
  rewrite schedule_from_cons, elem_of_app, elem_of_replicate, IH. split.
  - intros [[-> ?]|(k & w' & ? & -> & ?)]; [exists 0%nat, w|exists (S k), w']; split_and!; (done || lia).
  - intros ([|k] & w' & Hk & -> & ?); simplify_eq/=; [left; split; lia|right]. exists k, w'. split_and!; (done || lia).
Qed.

Lemma filter_none {A} (P : A -> Prop) `{forall x, Decision (P x)} (l : list A) :
  (forall x, x ∈ l -> ~ P x) -> filter P l = [].
Proof.
  induction l as [|x l IH]; intros Hl; [done|]. rewrite filter_cons_False by (apply Hl; by left).
  apply IH. intros y Hy. apply Hl. by right.
Qed.

Lemma count_schedule_from off ws k w :
  ws !! k = Some w -> length (filter (fun i => i = (off + k)%nat) (schedule_from off ws)) = Z.to_nat w.
Proof.
  revert off k. induction ws as [|v ws IH]; intros off k Hk; [done|].
  rewrite schedule_from_cons, filter_app, length_app.
  assert (forall (n m j : nat), filter (fun i => i = j) (replicate n m) = if decide (m = j) then replicate n m else []) as Hrep.
  { intros n m j. induction n as [|n IHn]; [by case_decide|]. simpl. rewrite filter_cons, IHn. by repeat case_decide. }
  rewrite Hrep. destruct k as [|k]; simplify_eq/=.
  - rewrite decide_True, length_replicate by lia.
    replace (filter _ (schedule_from (S off) ws)) with (@nil nat); [simpl; lia|]. symmetry.
    apply filter_none. intros i Hi ->. apply elem_of_schedule_from in Hi as (? & ? & ? & ? & ?). lia.
  - rewrite decide_False by lia. simpl. rewrite <- (IH (S off) k) by done.
    replace (off + S k)%nat with (S off + k)%nat by lia. done.
Qed.

Lemma compile_blueprint_Ok a n ws sched :
  compile_blueprint a n = Ok (ws, sched) ->
  (0 < n)%nat /\ length ws = n /\
  match a with
  | WeightedRoundRobin weights => ws = weights /\ (0 ∉ weights) /\ sched = schedule_from 0 weights
  | _ => sched = []
  end.
Proof.
  unfold compile_blueprint. case_bool_decide; [done|]. intros H'. res_inv.
  match goal with H : effective_weights _ _ = Ok _ |- _ => apply effective_weights_Ok in H as [Hlen Hw] end.
  simplify_eq. split_and!; [lia|done|]. unfold build_weighted_schedule in *. destruct a; res_inv; simplify_eq; try done.
  destruct (Hw _ eq_refl) as [-> ?]. done.
Qed.

Lemma schedule_nonempty ws : ws <> [] -> Forall (fun w => 0 <= w) ws -> 0 ∉ ws -> schedule_from 0 ws <> [].
Proof.
  destruct ws as [|w ws]; [done|]. intros _ Hp%Forall_cons Hz. rewrite schedule_from_cons.
  assert (w <> 0) by (intros ->; apply Hz; by left).
  destruct (Z.to_nat w) eqn:E; [lia|]. done.
Qed.

(** A pool starts in order. *)
Lemma acquire_compiled_ok name servers startup qt policy a bp :
  match a with WeightedRoundRobin weights => Forall (fun w => 0 <= w) weights | _ => True end ->
  compile_blueprint a (length servers) = Ok bp ->
  pool_ok (acquire_compiled name servers startup qt policy a bp).
Proof.
  intros Hw Hc. destruct bp as [ws sched]. apply compile_blueprint_Ok in Hc as (Hn & Hlen & Ha).
  assert (length (zip_with (fun s w => PoolEndpoint_new s startup w) servers ws) = length servers) as Hle
    by (rewrite length_zip_with; lia).
  split; simpl; rewrite ?Hle.
  - case_bool_decide as Hs; [rewrite length_seq; lia|]. destruct sched; [done|simpl; lia].
  - apply Forall_forall. intros i Hi. destruct a as [|weights| |]; simplify_eq; try by apply elem_of_nil in Hi.
    destruct Ha as (-> & Hz & ->). apply elem_of_schedule_from in Hi as (k & w & ?%lookup_lt_Some & -> & _). lia.
  - intros Hs i Hi. destruct a as [|weights| |]; simplify_eq; try done. destruct Ha as (-> & Hz & ->).
    destruct (lookup_lt_is_Some_2 weights i) as [w Hwi]; [lia|]. apply elem_of_schedule_from. exists i, w.
    assert (w <> 0) by (intros ->; apply Hz; by eapply list_elem_of_lookup_2).
    rewrite Forall_forall in Hw. pose proof (Hw w ltac:(by eapply list_elem_of_lookup_2)). split_and!; [done|done|lia].
Qed.

(** ** Fairness of the weighted rotation *)

(** Selections one after the other, at the given times. *)
Fixpoint select_all (nows : list Z) (p : EndpointPool) : list (option nat) * EndpointPool :=
  match nows with
  | [] => ([], p)
  | now :: nows =>
      let '(a, p) := select_server_excluding [] now p in
      let '(ls, p) := select_all nows p in
      (lease a :: ls, p)
  end.

(** Whose turn it is in each of the next [n] selections of the weighted rotation. *)
Definition turns (p : EndpointPool) (n : nat) : list nat :=
  (fun k => weighted_schedule p !!! ((next p + k) mod length (weighted_schedule p))%nat) <$> seq 0 n.
#[local] Arguments turns : simpl never.
Definition times (i : nat) (l : list nat) : Z := len (filter (fun j => j = i) l).

(** Endpoints that can serve whenever it is their turn: selectable at each time,
    and with room for their turns below their limit. *)
Definition serving (nows : list Z) (p : EndpointPool) : Prop :=
  forall i e, endpoints p !! i = Some e ->
    (forall limit, endpoint_max_connections e = Some limit -> active_work e + times i (turns p (length nows)) <= limit) /\
    active_work e + len nows <= u64_max /\ Forall (fun now => selectable_at e now = true) nows.

Lemma turns_step p i n :
  (next p < length (weighted_schedule p))%nat ->
  turns p (S n) = weighted_schedule p !!! next p ::
    turns (set_next ((next p + 1) mod length (weighted_schedule p)) (leased i p)) n.
Proof.
  intros Hn. unfold turns. simpl. rewrite Nat.add_0_r, (Nat.mod_small (next p)) by done. f_equal.
  rewrite <- fmap_S_seq, <- list_fmap_compose. apply list_fmap_ext. intros j k _. simpl. f_equal.
  rewrite Nat.Div0.add_mod_idemp_l. f_equal. lia.
Qed.

Lemma times_cons i j l : times i (j :: l) = (if decide (j = i) then 1 else 0) + times i l.
Proof. unfold times. rewrite filter_cons. case_decide; rewrite ?len_cons; lia. Qed.

Lemma serving_step now nows p :
  (next p < length (weighted_schedule p))%nat -> serving (now :: nows) p ->
  serving nows (set_next ((next p + 1) mod length (weighted_schedule p)) (leased (weighted_schedule p !!! next p) p)).
Proof.
  intros Hn H i e He. simpl in He. rewrite list_lookup_alter in He.
  assert (exists e0, endpoints p !! i = Some e0 /\
    e = if decide (weighted_schedule p !!! next p = i) then set_active_work (active_work e0 + 1) e0 else e0) as (e0 & He0 & ->).
  { case_decide; [|by exists e]. destruct (endpoints p !! _) as [e0|] eqn:E in He; [|done]. injection He as <-.
    exists e0. by subst i. }
  destruct (H i e0 He0) as (Hm & Hw & Hs). rewrite len_cons in Hw. apply Forall_cons in Hs as [_ Hs].
  split_and!; [|by case_decide; simpl; lia|by case_decide].
  intros limit Hl. specialize (Hm limit ltac:(by case_decide)). simpl length in Hm.
  rewrite (turns_step _ (weighted_schedule p !!! next p)), times_cons in Hm by done. case_decide; simpl in *; lia.
Qed.

Lemma slots_first p : pool_ok p -> weighted_schedule p <> [] ->
  head (slots p) = Some (next p, weighted_schedule p !!! next p).
Proof.
  intros [Hn _ _] Hs. rewrite bool_decide_eq_false_2 in Hn by done. unfold slots.
  rewrite bool_decide_eq_false_2 by done.
  destruct (length (weighted_schedule p) - next p)%nat eqn:E; [lia|]. done.
Qed.

(** With every endpoint serving, the weighted rotation leases the one whose
    turn it is. *)
Lemma select_turn now nows p ws :
  pool_ok p -> algorithm p = WeightedRoundRobin ws -> weighted_schedule p <> [] -> serving (now :: nows) p ->
  let i := weighted_schedule p !!! next p in
  let r := select_server_excluding [] now p in
  lease (fst r) = Some i /\
  snd r = set_next ((next p + 1) mod length (weighted_schedule p)) (leased i p).
Proof.
  intros Hok Ha Hs Hserve i r. unfold r, select_server_excluding. rewrite free_slots by done.
  assert (forall e, e ∈ endpoints p -> active_work e < u64_max) as Hmax.
  { intros e [j He]%list_elem_of_lookup. destruct (Hserve j e He) as (_ & Hw & _). rewrite len_cons in Hw. pose proof (len_nonneg nows). lia. }
  rewrite (acquire_first_ready p [] now); [|done|].
  2:{ intros c Hc. rewrite order_candidates_perm in Hc. apply list_elem_of_omap in Hc as (slot & ? & ?). by exists slot. }
  rewrite Ha. simpl order_candidates.
  assert (exists e, endpoints p !! i = Some e /\ head (omap (ready p [] now) (slots p)) = Some (next p, i, active_work e))
    as (e & He & ->).
  { pose proof (ok_next p Hok) as Hn. rewrite bool_decide_eq_false_2 in Hn by done.
    destruct (lookup_lt_is_Some_2 _ _ Hn) as [i' Hi']. pose proof (list_lookup_total_correct _ _ _ Hi') as Hi. fold i in Hi. subst i'.
    pose proof (ok_schedule p Hok) as Hsch. rewrite Forall_forall in Hsch.
    destruct (lookup_lt_is_Some_2 (endpoints p) i) as [e He]; [apply Hsch; by eapply list_elem_of_lookup_2|].
    exists e. split; [done|]. pose proof (slots_first p Hok Hs) as Hf. fold i in Hf.
    destruct (slots p) as [|slot rest]; [done|]. injection Hf as ->. rewrite omap_step. unfold ready at 1. simpl.
    rewrite He. destruct (Hserve i e He) as (Hm & _ & Hsel).
    apply Forall_cons in Hsel as [Hsel _]. unfold eligible, has_capacity. rewrite Hsel.
    destruct (endpoint_max_connections e) as [limit|]; [|done]. specialize (Hm limit eq_refl). simpl length in Hm.
    rewrite (turns_step p i), times_cons, decide_True in Hm by done. pose proof (len_nonneg (filter (fun j => j = i)
      (turns (set_next ((next p + 1) mod length (weighted_schedule p)) (leased i p)) (length nows)))). unfold times in Hm.
    rewrite (proj2 (Z.ltb_lt _ _)) by lia. done. }
  simpl. split; [done|]. unfold advance. simpl. rewrite Ha. by rewrite bool_decide_eq_false_2.
Qed.

Lemma pool_ok_advance n i p :
  pool_ok p -> weighted_schedule p <> [] -> (n < length (weighted_schedule p))%nat -> pool_ok (set_next n (leased i p)).
Proof.
  intros [H1 H2 H3] Hs Hn. split; simpl; rewrite ?length_alter; [|done|done]. by rewrite bool_decide_eq_false_2.
Qed.

Lemma select_all_turns nows p ws :
  pool_ok p -> algorithm p = WeightedRoundRobin ws -> weighted_schedule p <> [] -> serving nows p ->
  fst (select_all nows p) = Some <$> turns p (length nows).
Proof.
  revert p. induction nows as [|now nows IH]; intros p Hok Ha Hs Hserve; [done|].
  pose proof (ok_next p Hok) as Hn. rewrite bool_decide_eq_false_2 in Hn by done.
  cbn [length]. rewrite (turns_step p (weighted_schedule p !!! next p)), fmap_cons by done. cbn [select_all].
  destruct (select_turn _ _ _ _ Hok Ha Hs Hserve) as [Hl Hp].
  destruct (select_server_excluding [] now p) as [a p']. simpl in Hl, Hp. subst p'.
  pose proof (serving_step _ _ _ Hn Hserve) as Hstep.
  specialize (IH _ (pool_ok_advance _ (weighted_schedule p !!! next p) p Hok Hs
    (Nat.mod_upper_bound (next p + 1) (length (weighted_schedule p)) ltac:(lia))) Ha Hs Hstep).
  destruct (select_all nows _) as [ls p''] eqn:E. simpl in IH |- *. by rewrite Hl, IH.
Qed.

Lemma seq_total {A} `{!Inhabited A} (l : list A) : (fun i => l !!! i) <$> seq 0 (length l) = l.
Proof.
  apply list_eq. intros i. rewrite list_lookup_fmap. destruct (decide (i < length l)%nat) as [H|H].
  - rewrite lookup_seq_lt by done. simpl. destruct (lookup_lt_is_Some_2 _ _ H) as [x Hx].
    by rewrite (list_lookup_total_correct _ _ _ Hx).
  - rewrite lookup_seq_ge by lia. symmetry. apply lookup_ge_None. lia.
Qed.

(** A cycle of the rotation gives every place of the schedule one turn. *)
Lemma cycle_turns p :
  pool_ok p -> weighted_schedule p <> [] -> turns p (length (weighted_schedule p)) ≡ₚ weighted_schedule p.
Proof.
  intros Hok Hne. unfold turns. set (m := length (weighted_schedule p)).
  transitivity ((fun k => weighted_schedule p !!! k) <$> seq 0 m); [|unfold m; by rewrite seq_total].
  change (fun k => weighted_schedule p !!! ((next p + k) mod m)%nat)
    with ((fun k => weighted_schedule p !!! k) ∘ (fun k => ((next p + k) mod m)%nat)).
  rewrite list_fmap_compose. apply fmap_Permutation.
  pose proof (ok_next p Hok) as Hnext. rewrite bool_decide_eq_false_2 in Hnext by done. fold m in Hnext.
  rewrite seq_mod by done. rewrite (Permutation_app_comm (seq _ _)).
  replace m with (next p + (m - next p))%nat at 2 by lia. by rewrite seq_app.
Qed.

Lemma times_perm i l l' : l ≡ₚ l' -> times i l = times i l'.
Proof. intros H. unfold times, len. by rewrite (Permutation_length (filter_Permutation _ _ _ H)). Qed.

Lemma times_schedule ws i w : 0 <= w -> ws !! i = Some w -> times i (schedule_from 0 ws) = w.
Proof. intros Hw Hi. unfold times, len. pose proof (count_schedule_from 0 ws i w Hi) as H. simpl in H. rewrite H. lia. Qed.

(** Endpoints that are selectable at each of the times, and below whose limit there
    is room for as many leases as their weight says. *)
Definition able (ws nows : list Z) (p : EndpointPool) : Prop :=
  forall i e, endpoints p !! i = Some e ->
    (forall limit w, endpoint_max_connections e = Some limit -> ws !! i = Some w -> active_work e + w <= limit) /\
    active_work e + len nows <= u64_max /\ Forall (fun now => selectable_at e now = true) nows.

(** C32: When every endpoint can be selected and has room for its share below its
    limit, any selections in a row as many as the weights add up to lease every
    endpoint exactly as often as its weight says, wherever in the rotation they
    start. *)
Theorem weighted_cycle_fair (ws weights : list Z) (sched : list nat) (p : EndpointPool) (nows : list Z) (i : nat) (w : Z) :
  compile_blueprint (WeightedRoundRobin ws) (length (endpoints p)) = Ok (weights, sched) ->
  algorithm p = WeightedRoundRobin ws -> weighted_schedule p = sched -> pool_ok p ->
  Forall (fun w => 0 <= w) ws -> able ws nows p -> length nows = length sched -> ws !! i = Some w ->
  len (filter (fun l => l = Some i) (fst (select_all nows p))) = w.
Proof.
  intros Hc Ha Hsched Hok Hpos Hable Hlen Hi. apply compile_blueprint_Ok in Hc as (Hn & Hl & -> & Hz & Hs).
  assert (weighted_schedule p <> []) as Hne.
  { rewrite Hsched, Hs. apply schedule_nonempty; [|done..]. intros ->. done. }
  assert (forall j v, ws !! j = Some v -> times j (turns p (length nows)) = v) as Hshare.
  { intros j v Hj. rewrite Hlen, <- Hsched, (times_perm _ _ _ (cycle_turns p Hok Hne)), Hsched, Hs.
    apply times_schedule; [|done]. rewrite Forall_forall in Hpos. apply Hpos. by eapply list_elem_of_lookup_2. }
  assert (serving nows p) as Hserve.
  { intros j e He. destruct (Hable j e He) as (Hm & Hw & Hsel). split_and!; [|done|done]. intros limit Hlim.
    destruct (lookup_lt_is_Some_2 ws j) as [v Hv]; [apply lookup_lt_Some in He; lia|].
    rewrite (Hshare j v Hv). by apply Hm. }
  rewrite (select_all_turns _ _ ws) by done. rewrite <- (Hshare i w Hi). unfold times, len. f_equal.
  generalize (turns p (length nows)) as l.
  induction l as [|j l IH]; [done|]. rewrite fmap_cons, !filter_cons. repeat case_decide; simplify_eq; simpl; lia.
Qed.

(** ** Histories of an endpoint *)

Inductive EndpointEvent : Type :=
| Probe (healthy : bool) (failure : option HealthFailure) (at_unix_ms : option Z) (now : Z)
| Failed (failure : HealthFailure) (at_unix_ms : Z).

Section History.
Context (policy : PassiveFailurePolicy) (healthy_threshold unhealthy_threshold : Z).

Definition observe_event (e : PoolEndpoint) (ev : EndpointEvent) : PoolEndpoint :=
  match ev with
  | Probe healthy failure at_ now => snd (record e healthy failure at_ healthy_threshold unhealthy_threshold policy now)
  | Failed failure at_ => snd (endpoint_record_passive_failure e failure at_ policy)
  end.

Definition observe_all (e : PoolEndpoint) (evs : list EndpointEvent) : PoolEndpoint := foldl observe_event e evs.

(** The length, in milliseconds, of the [step]-th ejection in a row. *)
Definition backoff_ms (step : Z) : Z :=
  Z.min (initial_ejection_duration policy * 2 ^ Z.min (step - 1) 31) (max_ejection_duration policy) / nanos_per_ms.

(** The number of probes in a row, up to the last one, with this result. *)
Fixpoint streak_rev (healthy : bool) (evs : list EndpointEvent) : Z :=
  match evs with
  | [] => 0
  | Failed _ _ :: evs => streak_rev healthy evs
  | Probe h _ _ _ :: evs => if Bool.eqb h healthy then 1 + streak_rev healthy evs else 0
  end.
Definition streak (healthy : bool) (evs : list EndpointEvent) : Z := streak_rev healthy (rev evs).

Definition event_time_ok (ev : EndpointEvent) : Prop :=
  match ev with Failed _ at_ => 0 <= at_ <= u64_max | Probe _ _ _ _ => True end.

(** What the passive counters of an endpoint always satisfy. *)
Record passive_inv (p : PassiveHealth) : Prop := {
  pi_streak : 0 <= passive_consecutive_failures p <= u64_max;
  pi_step : 0 <= passive_backoff_step p <= u64_max;
  pi_fresh : passive_ejected p = false ->
    passive_backoff_step p = 0 /\ passive_consecutive_failures p < consecutive_failure_threshold policy;
  pi_ejected : passive_ejected p = true ->
    1 <= passive_backoff_step p /\
    passive_ejection_until_unix_ms p = Z.min u64_max (passive_ejected_at_unix_ms p + backoff_ms (passive_backoff_step p));
}.

Record policy_ok : Prop := {
  po_valid : PassiveFailurePolicy_validate policy = Ok tt;
  po_threshold : 0 <= consecutive_failure_threshold policy;
  po_initial : 0 <= initial_ejection_duration policy;
}.

Lemma policy_bounds : policy_ok ->
  1 <= consecutive_failure_threshold policy <= 100 /\
  1 <= initial_ejection_duration policy <= max_ejection_duration policy /\
  max_ejection_duration policy <= MAX_PASSIVE_EJECTION_DURATION.
Proof.
  intros [H1 H2 H3]. unfold PassiveFailurePolicy_validate in H1. repeat case_match; try done. bool_inv.
  unfold MAX_PASSIVE_FAILURE_THRESHOLD in *. lia.
Qed.

Lemma increment_saturating_range n : 0 <= n <= u64_max -> 0 <= increment_saturating n <= u64_max /\ 1 <= increment_saturating n.
Proof. unfold increment_saturating, saturating_add, u64_max. lia. Qed.

(** Doubling never overflows within the limits of a policy. *)
Lemma ejection_duration_exact step : policy_ok -> 1 <= step ->
  Z.min (ejection_duration_for policy step / nanos_per_ms) u64_max = backoff_ms step.
Proof.
  intros Hp%policy_bounds Hs. destruct Hp as (_ & Hi & Hm). unfold ejection_duration_for, saturating_sub, backoff_ms.
  rewrite Z.max_r by lia. rewrite Z.shiftl_1_l.
  assert (0 < 2 ^ Z.min (step - 1) 31 <= 2 ^ 31) as Hpow.
  { split; [apply Z.pow_pos_nonneg; lia|]. apply Z.pow_le_mono_r; lia. }
  unfold MAX_PASSIVE_EJECTION_DURATION, nanos_per_sec in Hm.
  unfold checked_mul. destruct (Z.leb_spec (initial_ejection_duration policy * 2 ^ Z.min (step - 1) 31) duration_max) as [_|Hbad].
  - apply Z.min_l. unfold nanos_per_ms, u64_max.
    assert (Z.min (initial_ejection_duration policy * 2 ^ Z.min (step - 1) 31) (max_ejection_duration policy) / 10 ^ 6
            <= (24 * 3600 * 10 ^ 9) / 10 ^ 6) by (apply Z.div_le_mono; lia).
    change ((24 * 3600 * 10 ^ 9) / 10 ^ 6) with 86400000 in *. lia.
  - exfalso. assert (initial_ejection_duration policy * 2 ^ Z.min (step - 1) 31 <= (24 * 3600 * 10 ^ 9) * 2 ^ 31) by nia.
    unfold duration_max, u64_max, nanos_per_sec in Hbad. lia.
Qed.

Lemma passive_inv_recover e at_ :
  policy_ok -> passive_inv (passive e) -> passive_inv (passive (snd (recover_passive e at_ policy))).
Proof.
  intros Hp%policy_bounds H. destruct Hp as (Ht & _). unfold recover_passive.
  destruct (passive_ejected (passive e)); simpl; [|done].
  destruct (mark_up policy); split; simpl; unfold u64_max; (done || lia || (intros; split; lia)).
Qed.

Lemma passive_inv_eject p failure at_ :
  policy_ok -> passive_inv p ->
  let step := increment_saturating (passive_backoff_step p) in
  passive_inv (mkPassiveHealth true (increment_saturating (passive_failure_count p)) 0
    (increment_saturating (passive_ejection_count p)) step (Some failure) at_
    (saturating_add u64_max at_ (Z.min (ejection_duration_for policy step / nanos_per_ms) u64_max))
    (passive_last_recovery_at_unix_ms p) (passive_recovery_count p)).
Proof.
  intros Hp H step. destruct (increment_saturating_range _ (pi_step p H)) as [Hk1 Hk2]. fold step in Hk1, Hk2.
  split; simpl; [unfold u64_max; lia|done|done|]. intros _. split; [done|]. by rewrite ejection_duration_exact.
Qed.

Lemma passive_inv_event e ev : policy_ok -> passive_inv (passive e) -> passive_inv (passive (observe_event e ev)).
Proof.
  intros Hp H. destruct ev as [healthy failure at_ now|failure at_]; simpl.
  - unfold record. destruct (count_check _ _ _ _) as [h consecutive].
    destruct (if bool_decide _ then _ else _) as [tr h']. simpl. destruct (healthy && _); [|done].
    pose proof (passive_inv_recover (set_health h' e) (default now at_) Hp H) as Hr. by destruct (recover_passive _ _ _).
  - unfold endpoint_record_passive_failure. destruct (observes policy failure); simpl; [|done].
    destruct (increment_saturating_range _ (pi_streak _ H)) as [Hs1 Hs2].
    destruct (passively_ejected_at e at_ || _) eqn:Hno; simpl.
    + split; simpl; [done|apply H| |apply H]. intros Hej. destruct (pi_fresh _ H Hej) as [-> _]. split; [done|].
      unfold passively_ejected_at in Hno. rewrite Hej in Hno. simpl in Hno. by apply Z.ltb_lt in Hno.
    + pose proof (passive_inv_eject (passive e) failure at_ Hp H) as Hnew. destruct (marks_down policy); exact Hnew.
Qed.

Lemma passive_inv_all e evs : policy_ok -> passive_inv (passive e) -> passive_inv (passive (observe_all e evs)).
Proof.
  intros Hp. revert e. induction evs as [|ev evs IH]; intros e H; [done|]. simpl. by apply IH, passive_inv_event.
Qed.

Lemma passive_inv_new s startup w : policy_ok -> passive_inv (passive (PoolEndpoint_new s startup w)).
Proof.
  intros (Ht & _)%policy_bounds. split; simpl; unfold u64_max; (done || lia || (intros; split; lia)).
Qed.

Lemma backoff_ms_bound step : policy_ok -> 1 <= step -> 0 <= backoff_ms step <= 86400000.
Proof.
  intros Hp%policy_bounds Hs. destruct Hp as (_ & Hi & Hm). unfold backoff_ms, MAX_PASSIVE_EJECTION_DURATION, nanos_per_sec, nanos_per_ms in *.
  assert (0 < 2 ^ Z.min (step - 1) 31) by (apply Z.pow_pos_nonneg; lia).
  split; [apply Z.div_pos; [nia|lia]|]. change 86400000 with ((24 * 3600 * 10 ^ 9) / 10 ^ 6). apply Z.div_le_mono; lia.
Qed.

(** Whatever probes and failures an endpoint sees, when a failure ejects
    it, it had failed as often in a row as the policy allows; the ejection that
    is the n-th since the last recovery lasts the initial duration doubled n-1
    times, up to the maximum of at most a day; and for exactly that time the
    endpoint is not selectable on its account. *)
Theorem passive_ejection_exact (s : RuntimeServer) (startup : option HealthStartup) (w : Z) (evs : list EndpointEvent)
    (failure : HealthFailure) (at_ : Z) (ejection : PassiveEjection) :
  policy_ok ->
  let e := observe_all (PoolEndpoint_new s startup w) evs in
  let e' := snd (endpoint_record_passive_failure e failure at_ policy) in
  fst (endpoint_record_passive_failure e failure at_ policy) = Some ejection ->
  let n := Z.min u64_max (passive_backoff_step (passive e) + 1) in
  passively_ejected_at e at_ = false /\
  consecutive_failure_threshold policy <= passive_consecutive_failures (passive e) + 1 /\
  (passive_ejected (passive e) = false -> n = 1 /\
     passive_consecutive_failures (passive e) + 1 = consecutive_failure_threshold policy) /\
  ejection_until_unix_ms ejection = Z.min u64_max (at_ + backoff_ms n) /\ 0 <= backoff_ms n <= 86400000 /\
  passive_backoff_step (passive e') = n /\
  forall now, passively_ejected_at e' now = (now <? ejection_until_unix_ms ejection).
Proof.
  intros Hp e e'. unfold e'. pose proof (passive_inv_all _ evs Hp (passive_inv_new s startup w Hp)) as H. fold e in H.
  unfold endpoint_record_passive_failure. destruct (observes policy failure); [|done]. simpl.
  destruct (passively_ejected_at e at_ || _) eqn:Hno; [done|]. apply orb_false_iff in Hno as [Hno Hth].
  apply Z.ltb_ge in Hth. intros [= <-]. set (n := Z.min u64_max (passive_backoff_step (passive e) + 1)). simpl.
  destruct (increment_saturating_range _ (pi_step _ H)) as [Hk1 Hk2].
  assert (increment_saturating (passive_backoff_step (passive e)) = n) as Hn by done.
  rewrite Hn in *. pose proof (policy_bounds Hp) as (Hb & _).
  assert (consecutive_failure_threshold policy <= passive_consecutive_failures (passive e) + 1) as Hth'.
  { unfold increment_saturating, saturating_add in Hth. lia. }
  split_and!; [done|done| |by rewrite ejection_duration_exact|by apply backoff_ms_bound..| |].
  - intros Hej. destruct (pi_fresh _ H Hej) as [H1 H2]. split; [unfold n; by rewrite H1|lia].
  - by destruct (marks_down policy).
  - intros now. by destruct (marks_down policy).
Qed.

Lemma streak_snoc b evs ev :
  streak b (evs ++ [ev]) =
  match ev with
  | Failed _ _ => streak b evs
  | Probe h _ _ _ => if Bool.eqb h b then 1 + streak b evs else 0
  end.
Proof. unfold streak. rewrite rev_app_distr. by destruct ev. Qed.

Lemma streak_bound b evs : 0 <= streak b evs <= len evs.
Proof.
  induction evs as [|ev evs IH] using rev_ind; [done|]. rewrite streak_snoc, len_app. change (len [ev]) with 1.
  destruct ev as [h ? ? ?|]; [destruct (Bool.eqb h b)|]; lia.
Qed.

Definition counters (h : ActiveHealth) : Z * Z := (consecutive_successes h, consecutive_failures h).

Lemma counters_passive e failure at_ :
  counters (health (snd (endpoint_record_passive_failure e failure at_ policy))) = counters (health e).
Proof. unfold endpoint_record_passive_failure. repeat case_match; done. Qed.

Lemma counters_recover e at_ : counters (health (snd (recover_passive e at_ policy))) = counters (health e).
Proof. unfold recover_passive. repeat case_match; done. Qed.

Lemma counters_record e healthy failure at_ now :
  counters (health (observe_event e (Probe healthy failure at_ now))) =
  if healthy then (wrapping_inc (consecutive_successes (health e)), 0)
  else (0, wrapping_inc (consecutive_failures (health e))).
Proof.
  simpl. unfold record. destruct (count_check (health e) healthy failure at_) as [h n] eqn:Hc.
  assert (counters h = if healthy then (wrapping_inc (consecutive_successes (health e)), 0)
                       else (0, wrapping_inc (consecutive_failures (health e)))) as <-.
  { unfold count_check in Hc. by destruct healthy; injection Hc as <- <-. }
  match goal with |- context [if bool_decide ?P then ?a else ?b] => destruct (if bool_decide P then a else b) as [tr h'] eqn:Ht end.
  assert (counters h' = counters h) as <- by (case_bool_decide; by injection Ht as <- <-). simpl.
  destruct (healthy && _); [|done].
  pose proof (counters_recover (set_health h' e) (default now at_)) as Hr. by destruct (recover_passive _ _ _).
Qed.

Lemma streak_counters s startup w evs :
  len evs <= u64_max ->
  counters (health (observe_all (PoolEndpoint_new s startup w) evs)) = (streak true evs, streak false evs).
Proof.
  induction evs as [|ev evs IH] using rev_ind; [done|]. rewrite len_app. change (len [ev]) with 1. intros Hlen.
  unfold observe_all in *. rewrite foldl_snoc, !streak_snoc. specialize (IH ltac:(lia)).
  set (e := foldl observe_event _ evs) in *. pose proof (streak_bound true evs). pose proof (streak_bound false evs).
  destruct ev as [healthy failure at_ now|failure at_]; [|simpl observe_event; by rewrite counters_passive].
  rewrite counters_record. unfold counters in IH. injection IH as -> ->.
  unfold wrapping_inc. destruct healthy; simpl; (rewrite Z.mod_small by (unfold u64_max in *; lia)); f_equal; lia.
Qed.

(** Whatever probes and failures an endpoint saw, a probe moves it to
    healthy exactly when it succeeds, the endpoint was unknown or unhealthy,
    and it completes as many successful probes in a row as the threshold asks
    for; and to unhealthy exactly in the opposite case.  No probe moves an
    endpoint otherwise. *)
Theorem health_transition_exact (s : RuntimeServer) (startup : option HealthStartup) (w : Z) (evs : list EndpointEvent)
    (healthy : bool) (failure : option HealthFailure) (at_ : option Z) (now : Z) (old new : EndpointHealthState) :
  len evs < u64_max ->
  let e := observe_all (PoolEndpoint_new s startup w) evs in
  transition (fst (record e healthy failure at_ healthy_threshold unhealthy_threshold policy now)) = Some (old, new) <->
  old = state (health e) /\
  (healthy = true /\ new = Healthy /\ (old = Unknown \/ old = Unhealthy) /\ healthy_threshold <= 1 + streak true evs \/
   healthy = false /\ new = Unhealthy /\ (old = Unknown \/ old = Healthy) /\ unhealthy_threshold <= 1 + streak false evs).
Proof.
  intros Hlen e. pose proof (streak_counters s startup w evs ltac:(lia)) as Hc. fold e in Hc. unfold counters in Hc.
  injection Hc as Hs Hf. pose proof (streak_bound true evs). pose proof (streak_bound false evs).
  unfold record. destruct (count_check (health e) healthy failure at_) as [h n] eqn:Hcc.
  assert (n = 1 + if healthy then streak true evs else streak false evs) as ->.
  { unfold count_check, saturating_add in Hcc. destruct healthy; injection Hcc as _ <-; lia. }
  match goal with |- context [if bool_decide ?P then ?a else ?b] =>
    assert (fst (if bool_decide P then a else b) = if bool_decide P then None else Some (state (health e),
      next_state (state (health e)) healthy (1 + if healthy then streak true evs else streak false evs)
        healthy_threshold unhealthy_threshold)) as Ht by (by case_bool_decide);
    destruct (if bool_decide P then a else b) as [tr h'] end. simpl in Ht.
  match goal with |- context [if ?b then recover_passive ?x ?y ?z else ?d] =>
    destruct (if b then recover_passive x y z else d) as [r e'] end. simpl. rewrite Ht. clear Ht Hcc.
  unfold next_state. destruct healthy, (state (health e)); simpl;
    repeat match goal with |- context [?a <=? ?b] => destruct (Z.leb_spec a b) end; simpl; split;
    (intros [=] || intros (-> & [(? & -> & ? & ?)|(? & -> & ? & ?)])); subst; try done; try lia; try naive_solver lia.
Qed.
End History.

(** ** A pool of two endpoints *)

Definition example_server (n : Z) (limit : option Z) : RuntimeServer :=
  mkRuntimeServer (dec_string n) (Socket (mkSocketAddr (V4 n) 80)) limit None [].

Definition example_policy : PassiveFailurePolicy := PassiveFailurePolicy_new 2 nanos_per_sec (4 * nanos_per_sec).

Definition example_pool (limit : option Z) : EndpointPool :=
  acquire_compiled (lit "web") [example_server 1 limit; example_server 2 limit] None (Some 1) example_policy
    (WeightedRoundRobin [2; 1]) ([2; 1], [0; 0; 1]%nat).

Lemma example_pool_ok limit : pool_ok (example_pool limit).
Proof. apply acquire_compiled_ok; [by repeat constructor|by vm_compute]. Qed.

Lemma pool_select_exact_witness :
  lease (fst (select_server_excluding [lit "1"] 0 (example_pool (Some 1)))) = Some 1%nat /\
  next (snd (select_server_excluding [lit "1"] 0 (example_pool (Some 1)))) = 0%nat.
Proof.
  assert (first_best (ready (example_pool (Some 1)) [lit "1"] 0) (preference (WeightedRoundRobin [2; 1]))
            (slots (example_pool (Some 1))) 2 (2%nat, 1%nat, 0)) as Hb.
  { split; [by eexists|]. intros [|[|[|k]]] a c; vm_compute; intros [=] [=]; subst; try done. right. lia. }
  destruct (pool_select_exact (example_pool (Some 1)) [lit "1"] 0 (example_pool_ok _)) as (H1 & H2 & _).
  { intros e He. vm_compute in He. by apply list_elem_of_In in He as [<-|[<-|[]]]. }
  split; [apply H1; by exists 2%nat, (2%nat, 1%nat, 0)|]. by rewrite (H2 _ _ Hb).
Defined.

Lemma weighted_cycle_fair_witness :
  len (filter (fun l => l = Some 0%nat) (fst (select_all [5; 6; 7] (example_pool (Some 2))))) = 2.
Proof.
  apply (weighted_cycle_fair [2; 1] [2; 1] [0; 0; 1]%nat (example_pool (Some 2)) [5; 6; 7] 0 2); try reflexivity.
  - apply example_pool_ok.
  - by repeat constructor.
  - intros [|[|j]] e He; vm_compute in He; simplify_eq; (split_and!; [|done|by repeat constructor]);
      intros limit w Hl Hw; vm_compute in Hl, Hw; simplify_eq; by vm_compute.
Defined.

Lemma passive_ejection_exact_witness :
  let e := observe_all example_policy 1 1 (PoolEndpoint_new (example_server 1 None) None 1) [Failed ConnectFailed 10] in
  passive_backoff_step (passive (snd (endpoint_record_passive_failure e ConnectFailed 20 example_policy))) = 1.
Proof.
  assert (policy_ok example_policy) as Hp by (split; [by vm_compute|done|done]).
  pose proof (passive_ejection_exact example_policy 1 1 (example_server 1 None) None 1 [Failed ConnectFailed 10]
                ConnectFailed 20 (mkPassiveEjection ConnectFailed 2 1 20 1020) Hp eq_refl) as (_ & _ & _ & _ & _ & H & _).
  intros e. etransitivity; [exact H|reflexivity].
Defined.

Lemma health_transition_exact_witness :
  let e := observe_all example_policy 2 3 (PoolEndpoint_new (example_server 1 None) (Some Startup_Checking) 1)
             [Probe true None None 0] in
  transition (fst (record e true None None 2 3 example_policy 0)) = Some (Unknown, Healthy).
Proof.
  apply (health_transition_exact example_policy 2 3 (example_server 1 None) (Some Startup_Checking) 1
           [Probe true None None 0] true None None 0 Unknown Healthy); [done|].
  split; [done|]. left. split_and!; [done|done|by left|done].
Defined.

(** ** Resolved addresses *)

#[export] Instance SocketAddr_OrdLaws : OrdLaws SocketAddr.
Proof.
  refine (proj_OrdLaws (fun a : SocketAddr =>
    (negb (is_ipv4 (ip a)), (match ip a with V4 v | V6 v => v end, port a))) _).
  intros [[v|v] q] [[v'|v'] q'] H; simpl in H; by simplify_eq.
Qed.

Lemma collect_addresses_Ok acc xs ys :
  collect_addresses acc xs = Ok ys -> NoDup acc ->
  NoDup ys /\ (forall a, a ∈ ys <-> a ∈ acc \/ a ∈ xs) /\ (len acc <= 16 -> len ys <= 16).
Proof.
  revert acc. induction xs as [|x xs IH]; intros acc; simpl.
  { intros [= <-] H. split_and!; [done|set_solver|done]. }
  case_bool_decide as Hx.
  - intros H Hd. destruct (IH _ H Hd) as (H1 & H2 & H3). split_and!; [done|set_solver|done].
  - destruct (Z.eqb_spec (len acc) MAX_RESOLVED_ENDPOINT_ADDRESSES); [done|]. intros H Hd.
    destruct (IH _ H) as (H1 & H2 & H3).
    { apply NoDup_app. split_and!; [done|set_solver|apply NoDup_singleton]. }
    split_and!; [done|set_solver|]. intros Hle. apply H3. rewrite len_app. change (len [x]) with 1.
    unfold MAX_RESOLVED_ENDPOINT_ADDRESSES in *. lia.
Qed.

Lemma NoDup_snoc {A} (l : list A) x : NoDup l -> x ∉ l -> NoDup (l ++ [x]).
Proof. intros Hl Hx. apply NoDup_app. split_and!; [done|set_solver|apply NoDup_singleton]. Qed.

(** It gives up only on seventeen different addresses. *)
Lemma collect_addresses_Err acc xs k :
  collect_addresses acc xs = Err k -> NoDup acc -> len acc <= 16 ->
  exists l, NoDup l /\ len l = 17 /\ forall a, a ∈ l -> a ∈ acc \/ a ∈ xs.
Proof.
  revert acc. induction xs as [|x xs IH]; intros acc; simpl; [done|]. case_bool_decide as Hx.
  - intros H Hd Hl. destruct (IH _ H Hd Hl) as (l & H1 & H2 & H3). exists l. split_and!; [done|done|]. set_solver.
  - intros H Hd Hl. pose proof (NoDup_snoc _ _ Hd Hx) as Hd'.
    assert (len (acc ++ [x]) = len acc + 1) as Hlen by by rewrite len_app.
    destruct (Z.eqb_spec (len acc) MAX_RESOLVED_ENDPOINT_ADDRESSES) as [He|Hne]; unfold MAX_RESOLVED_ENDPOINT_ADDRESSES in *.
    + exists (acc ++ [x]). split_and!; [done|lia|]. set_solver.
    + destruct (IH _ H Hd' ltac:(lia)) as (l & H1 & H2 & H3). exists l. split_and!; [done|done|]. set_solver.
Qed.

Lemma strictly_sorted_NoDup {A} `{OrdLaws A} (l : list A) : StronglySorted ord_lt l -> NoDup l.
Proof.
  induction 1 as [|x l Hs IH Hx]; constructor; [|done]. intros Hin. rewrite Forall_forall in Hx.
  exact (ord_lt_irrefl x (Hx x Hin)).
Qed.

Lemma strictly_sorted_weak {A} `{OrdLaws A} (l : list A) : StronglySorted ord_lt l -> StronglySorted ord_le l.
Proof.
  induction 1 as [|x l Hs IH Hx]; constructor; [done|]. eapply Forall_impl; [exact Hx|].
  intros y Hy. apply ord_le_lt. by left.
Qed.

Lemma NoDup_sorted_strict {A} `{OrdLaws A} (l : list A) : NoDup l -> StronglySorted ord_le l -> StronglySorted ord_lt l.
Proof.
  intros Hd Hs. induction Hs as [|x l Hs IH Hx]; [constructor|]. apply NoDup_cons in Hd as [Hn Hd]. constructor; [auto|].
  rewrite Forall_forall in *. intros y Hy. destruct (proj1 (ord_le_lt x y) (Hx y Hy)) as [?|<-]; done.
Qed.

(** The addresses an endpoint resolves to are accepted exactly when there
    are between one and sixteen different ones, and are then listed once each
    in increasing order, so that the answer depends neither on the resolver's
    order nor on its repetitions. *)
Theorem resolved_addresses_exact (xs ys : list SocketAddr) :
  order_addresses xs = Ok ys <->
  StronglySorted ord_lt ys /\ (forall a, a ∈ ys <-> a ∈ xs) /\ 1 <= len ys <= 16.
Proof.
  unfold order_addresses. destruct (collect_addresses [] xs) as [l|k] eqn:Hc; simpl.
  - destruct (collect_addresses_Ok _ _ _ Hc (NoDup_nil_2)) as (Hd & Hin & Hlen). specialize (Hlen ltac:(done)).
    assert (StronglySorted ord_lt (sort_unstable l)) as Hs.
    { apply NoDup_sorted_strict; [|apply sort_unstable_sorted]. by rewrite sort_unstable_perm. }
    assert (len (sort_unstable l) = len l) as Hl by (unfold len; by rewrite sort_unstable_perm).
    split.
    + case_bool_decide as Hne; [done|]. intros [= <-]. split_and!; [done| | |lia].
      * intros a. rewrite sort_unstable_perm, Hin. set_solver.
      * destruct (sort_unstable l); [done|]. rewrite len_cons. pose proof (len_nonneg l0). lia.
    + intros (Hys & Hel & Hb). assert (sort_unstable l = ys) as ->.
      { apply sort_unstable_unique; [|by apply strictly_sorted_weak].
        apply NoDup_Permutation; [done|by apply strictly_sorted_NoDup|]. intros a. rewrite Hin, Hel. set_solver. }
      rewrite bool_decide_eq_false_2; [done|]. intros ->. unfold len in Hb. simpl in Hb. lia.
  - split; [done|]. intros (Hys & Hel & Hb). exfalso.
    destruct (collect_addresses_Err _ _ _ Hc (NoDup_nil_2) ltac:(done)) as (l & Hd & Hl & Hsub).
    assert (length l <= length ys)%nat as Hle.
    { apply submseteq_length, NoDup_submseteq; [done|]. intros a Ha. apply Hel. destruct (Hsub a Ha) as [?%elem_of_nil|?]; done. }
    unfold len in *. lia.
Qed.
