(* ===== verification/PoolSystem.v ===== *)
(** The endpoint pool in use ([oxiroute-server/src/routing.rs], model in
    [Pool]): requests that select, wait, give up or time out, connectors that
    acquire and drop their leases, probes and administration, in any order.
    The theorems show that the load of an endpoint is the number of its leases
    and that no waiting request is forgotten. *)

From stdpp Require Import base list sets strings.
From Stdlib Require Import ZArith Lia Strings.Byte.
From S2P Require Import Prelude Bytes Order Http Net Lexical Routing Pool PoolFacts.

Open Scope Z_scope.

(** ** The system *)

(** An [EndpointLease]: the endpoint, and whether it counts on it yet. *)
Record Lease : Type := mkLease { le_id : nat; le_index : nat; le_acquired : bool }.

Record System : Type := mkSystem { pool : EndpointPool; leases : list Lease }.

(** [EndpointLeaseInner::try_acquire]. *)
Definition lease_try_acquire (l : Lease) (now : Z) (p : EndpointPool) : option EndpointPool :=
  e ← endpoints p !! le_index l;
  e ← try_acquire_capacity e now;
  Some (set_endpoints (<[le_index l := e]> (endpoints p)) p).

(** Dropping [EndpointLeaseInner]. *)
Definition lease_drop (l : Lease) (p : EndpointPool) : EndpointPool :=
  if le_acquired l then release_capacity (le_index l) p else p.

Inductive PoolOp : Type :=
| Op_select (id : nat) (excluded : list RuntimeEndpoint) (now : Z)
| Op_wait (id : nat) (r : Request) (now : Z)
| Op_poll (id : nat) (now : Z)
| Op_wake (id : nat)
| Op_timeout (id : nat)
| Op_cancel (id : nat)
| Op_target (id : nat) (excluded : list bytes) (now : Z)
| Op_server_target (id : nat) (name : bytes) (now : Z)
| Op_acquire (id : nat) (now : Z)
| Op_drop (id : nat)
| Op_lifetime_wait (id : nat) (generation : Z)
| Op_lifetime_turn (id : nat)
| Op_lifetime_timeout (id : nat)
| Op_reusable
| Op_record (index : nat) (healthy : bool) (failure : option HealthFailure) (at_ : option Z) (ht ut now : Z)
| Op_passive (index : nat) (failure : HealthFailure) (at_ : Z)
| Op_admin (name : bytes) (s : AdministrativeState)
| Op_admin_all (s : AdministrativeState)
| Op_override (name : bytes) (o : HealthOverride)
| Op_checks (name : bytes) (on : bool)
| Op_limit (name : bytes) (limit : option Z)
| Op_dns (name : bytes) (addresses : list SocketAddr).

(** A lease of a request, if it got one. *)
Definition add_lease (id : nat) (acquired : bool) (l : option nat) (ls : list Lease) : list Lease :=
  match l with Some i => ls ++ [mkLease id i acquired] | None => ls end.

Definition returned (o : WaitOutcome) : option nat := match o with Returned l => l | Pending => None end.

(** An administrative call that fails changes nothing. *)
Definition administered (r : result EndpointPool PoolAdminError) (p : EndpointPool) : EndpointPool :=
  match r with Ok p' => p' | Err _ => p end.

Definition fresh_waiter (id : nat) (p : EndpointPool) : bool := bool_decide (find_waiter id (waiters (queue p)) = None).
Definition find_lease (id : nat) (ls : list Lease) : option (nat * Lease) := list_find (fun l => le_id l = id) ls.

(** One operation.  A waiting request is a new object, so an identity in use is
    not taken again. *)
Definition run_op (s : System) (op : PoolOp) : System :=
  let p := pool s in
  match op with
  | Op_select id excluded now =>
      let '(l, p) := select_excluding excluded now p in mkSystem p (add_lease id true l (leases s))
  | Op_wait id r now =>
      if fresh_waiter id p then
        let '(o, p) := wait_start id r now p in mkSystem p (add_lease id true (returned o) (leases s))
      else s
  | Op_poll id now => let '(o, p) := wait_poll id now p in mkSystem p (add_lease id true (returned o) (leases s))
  | Op_wake id => mkSystem (wait_wake id p) (leases s)
  | Op_timeout id => mkSystem (snd (wait_timeout id p)) (leases s)
  | Op_cancel id => mkSystem (wait_cancel id p) (leases s)
  | Op_target id excluded now =>
      let '(l, p) := select_connection_target_excluding excluded now p in mkSystem p (add_lease id false l (leases s))
  | Op_server_target id name now =>
      mkSystem p (add_lease id false (select_server_connection_target name now p) (leases s))
  | Op_acquire id now =>
      match find_lease id (leases s) with
      | Some (k, l) =>
          if le_acquired l then s
          else match lease_try_acquire l now p with
               | Some p => mkSystem p (<[k := mkLease (le_id l) (le_index l) true]> (leases s))
               | None => s
               end
      | None => s
      end
  | Op_drop id =>
      match find_lease id (leases s) with
      | Some (k, l) => mkSystem (lease_drop l p) (delete k (leases s))
      | None => s
      end
  | Op_lifetime_wait id gen => mkSystem (snd (lifetime_wait id gen p)) (leases s)
  | Op_lifetime_turn id => mkSystem (snd (lifetime_turn id p)) (leases s)
  | Op_lifetime_timeout id => mkSystem (snd (lifetime_timeout id p)) (leases s)
  | Op_reusable => mkSystem (notify_reusable p) (leases s)
  | Op_record index healthy failure at_ ht ut now =>
      mkSystem (snd (record_health index healthy failure at_ ht ut now p)) (leases s)
  | Op_passive index failure at_ => mkSystem (record_passive_failure_at index failure at_ p) (leases s)
  | Op_admin name st => mkSystem (administered (set_server_administrative_state name st p) p) (leases s)
  | Op_admin_all st => mkSystem (set_administrative_state st p) (leases s)
  | Op_override name o => mkSystem (administered (set_server_health_override name o p) p) (leases s)
  | Op_checks name on => mkSystem (administered (set_server_checks_enabled name on p) p) (leases s)
  | Op_limit name limit => mkSystem (administered (set_server_max_connections name limit p) p) (leases s)
  | Op_dns name addresses => mkSystem (administered (commit_server_dns name addresses p) p) (leases s)
  end.

Definition run_ops (s : System) (ops : list PoolOp) : System := foldl run_op s ops.

(** ** What is kept *)

(** The leases that count on an endpoint. *)
Definition held (i : nat) (ls : list Lease) : Z :=
  len (filter (fun l => le_acquired l = true /\ le_index l = i) ls).

(** The endpoint at a place that a request may be given. *)
Definition serves (p : EndpointPool) (r : Request) (now : Z) (i : nat) (e : PoolEndpoint) : Prop :=
  match r with
  | Excluding names => eligible names now e = true
  | Named name => find_server name p = Some (i, e) /\ selectable_at e now = true
  end.

(** No endpoint the request may be given has capacity. *)
Definition blocked (p : EndpointPool) (w : Waiter) : Prop :=
  forall i e, endpoints p !! i = Some e -> serves p (w_request w) (w_attempted_at w) i e -> has_capacity e = false.

(** The request at the front sleeps without a permit only when it is blocked. *)
Definition settled (p : EndpointPool) : Prop :=
  match waiters (queue p) with
  | w :: _ => w_asleep w = true -> w_permit w = false -> blocked p w
  | [] => True
  end.

Record queue_inv (q : PoolQueue) : Prop := {
  qi_ids : NoDup (w_id <$> waiters q);
  qi_queued : queued q = len (filter (fun w => w_waiting w = true) (waiters q));
  qi_asleep : Forall (fun w => w_asleep w = true -> w_waiting w = true) (waiters q);
  qi_lifetime : Forall (fun l => l_woken l = false -> l_generation l = generation q) (lifetime_waiters q);
}.

(** After [n] operations. *)
Record system_inv (n : Z) (s : System) : Prop := {
  si_pool : pool_ok (pool s);
  si_held : forall i e, endpoints (pool s) !! i = Some e -> active_work e = held i (leases s);
  si_leases : len (leases s) <= n;
  si_waiters : len (waiters (queue (pool s))) <= n;
  si_queue : queue_inv (queue (pool s));
  si_settled : settled (pool s);
}.

(** ** Changes that make nothing available *)

(** The endpoint serves what it served, and gained no capacity. *)
Definition tighter (e e' : PoolEndpoint) : Prop :=
  server_name (server e') = server_name (server e) /\
  (forall now, selectable_at e' now = selectable_at e now) /\
  (has_capacity e = false -> has_capacity e' = false).

Lemma tighter_refl e : tighter e e.
Proof. done. Qed.

Lemma tighter_list_refl es : Forall2 tighter es es.
Proof. induction es; by constructor. Qed.

Lemma tighter_insert es i e e' :
  es !! i = Some e -> tighter e e' -> Forall2 tighter es (<[i := e']> es).
Proof.
  intros He Ht. apply Forall2_same_length_lookup_2; [by rewrite length_insert|]. intros j x y Hx Hy.
  destruct (decide (i = j)) as [<-|Hne].
  - rewrite list_lookup_insert_eq in Hy by by eapply lookup_lt_Some. by simplify_eq.
  - rewrite list_lookup_insert_ne in Hy by done. by simplify_eq.
Qed.

Lemma tighter_alter es i f :
  (forall e, es !! i = Some e -> tighter e (f e)) -> Forall2 tighter es (alter f i es).
Proof.
  intros H. apply Forall2_same_length_lookup_2; [by rewrite length_alter|]. intros j x y Hx Hy.
  rewrite list_lookup_alter in Hy. case_decide as Hd; simplify_eq; [|done].
  rewrite Hx in Hy. simpl in Hy. simplify_eq. auto.
Qed.

Lemma find_server_tighter name p p' i e' :
  Forall2 tighter (endpoints p) (endpoints p') -> find_server name p' = Some (i, e') ->
  exists e, find_server name p = Some (i, e) /\ endpoints p !! i = Some e /\ tighter e e'.
Proof.
  intros HF (Hi & Hn & Hmin)%list_find_Some. destruct (Forall2_lookup_r _ _ _ _ _ HF Hi) as (e & He & Ht).
  exists e. split; [|done]. apply list_find_Some. split_and!; [done|by destruct Ht as (<- & _)|].
  intros j y Hy Hlt. destruct (Forall2_lookup_l _ _ _ _ _ HF Hy) as (y' & Hy' & (Hs & _)).
  rewrite <- Hs. by eapply Hmin.
Qed.

Lemma blocked_tighter p p' w : Forall2 tighter (endpoints p) (endpoints p') -> blocked p w -> blocked p' w.
Proof.
  intros HF Hb i e' He' Hserve. destruct (Forall2_lookup_r _ _ _ _ _ HF He') as (e & He & (Hn & Hsel & Hcap)).
  apply Hcap, (Hb i e He). unfold serves in *. destruct (w_request w) as [names|name].
  - unfold eligible in *. by rewrite <- Hsel, <- Hn.
  - destruct Hserve as [Hf Hs]. destruct (find_server_tighter _ _ _ _ _ HF Hf) as (e1 & Hf1 & He1 & _).
    simplify_eq. by rewrite <- Hsel.
Qed.

Lemma settled_head p p' :
  head (waiters (queue p')) = head (waiters (queue p)) -> Forall2 tighter (endpoints p) (endpoints p') ->
  settled p -> settled p'.
Proof.
  intros Hw HF. unfold settled. destruct (waiters (queue p)), (waiters (queue p')); simplify_eq/=; try done.
  intros H Ha Hp. by eapply blocked_tighter, H.
Qed.

Lemma settled_permit p :
  match waiters (queue p) with w :: _ => w_permit w = true | [] => True end -> settled p.
Proof. unfold settled. destruct (waiters (queue p)); [done|]. congruence. Qed.

Lemma settled_notify p : settled (notify_pool p).
Proof. apply settled_permit. simpl. unfold notify_capacity_waiters, notify_front. simpl. by destruct (waiters (queue p)). Qed.

(** ** The queue *)

Lemma give_permit_ids ws : w_id <$> (match ws with w :: ws => give_permit w :: ws | [] => [] end) = w_id <$> ws.
Proof. by destruct ws. Qed.

Lemma queue_inv_notify_front q : queue_inv q -> queue_inv (notify_front q).
Proof.
  intros [H1 H2 H3 H4]. unfold notify_front. destruct (waiters q) as [|w ws] eqn:E; [by split; rewrite ?E|].
  split; simpl; [done| |by apply Forall_cons in H3 as [? ?]; constructor|done].
  rewrite H2, !filter_cons. simpl. by repeat case_decide.
Qed.

Lemma queue_inv_notify q : queue_inv q -> queue_inv (notify_capacity_waiters q).
Proof.
  intros [H1 H2 H3 H4]. apply queue_inv_notify_front. split; simpl; [done..|].
  apply Forall_fmap, Forall_forall. by intros l _.
Qed.

Lemma notify_waiters_length q : length (waiters (notify_capacity_waiters q)) = length (waiters q).
Proof. unfold notify_capacity_waiters, notify_front. simpl. by destruct (waiters q). Qed.

Lemma find_waiter_Some id ws w : find_waiter id ws = Some w -> w ∈ ws /\ w_id w = id.
Proof. intros [H1 H2]%find_some. rewrite list_elem_of_In. by case_bool_decide. Qed.

Lemma find_waiter_None id ws : find_waiter id ws = None -> id ∉ w_id <$> ws.
Proof.
  intros H (w & -> & Hin)%list_elem_of_fmap. rewrite list_elem_of_In in Hin.
  pose proof (find_none _ _ H _ Hin) as Hf. simpl in Hf. by rewrite bool_decide_eq_true_2 in Hf.
Qed.

(** Removing a waiter: the others stay, in order. *)
Lemma removed_ids id (ws : list Waiter) : NoDup (w_id <$> ws) -> NoDup (w_id <$> filter (fun w => w_id w <> id) ws).
Proof.
  induction ws as [|w ws IH]; [done|]. rewrite fmap_cons. intros [Hn Hd]%NoDup_cons. rewrite filter_cons. case_decide; [|auto].
  rewrite fmap_cons. apply NoDup_cons. split; [|auto]. intros (x & Hx & [_ Hin]%list_elem_of_filter)%list_elem_of_fmap.
  apply Hn. rewrite Hx. by apply list_elem_of_fmap_2.
Qed.

Lemma removed_absent id (ws : list Waiter) : id ∉ w_id <$> ws -> filter (fun w => w_id w <> id) ws = ws.
Proof.
  induction ws as [|w ws IH]; [done|]. rewrite fmap_cons. intros [Hne Hn]%not_elem_of_cons.
  rewrite filter_cons_True by done. by rewrite IH.
Qed.

Lemma removed_waiting id (ws : list Waiter) w :
  NoDup (w_id <$> ws) -> find_waiter id ws = Some w ->
  len (filter (fun w => w_waiting w = true) ws) =
  len (filter (fun w => w_waiting w = true) (filter (fun w => w_id w <> id) ws)) + (if w_waiting w then 1 else 0).
Proof.
  induction ws as [|x ws IH]; [done|]. rewrite fmap_cons. intros [Hn Hd]%NoDup_cons. simpl. case_bool_decide as Hx.
  - intros [= <-]. rewrite (filter_cons_False (fun w => w_id w <> id)) by (intros H; congruence).
    rewrite removed_absent by by rewrite <- Hx. rewrite filter_cons. destruct (w_waiting x); simpl; rewrite ?len_cons; lia.
  - intros Hf. rewrite (filter_cons_True (fun w => w_id w <> id)) by done. rewrite !filter_cons.
    specialize (IH Hd Hf). case_decide; rewrite ?len_cons; lia.
Qed.

Lemma queue_inv_remove id q w (timeouts' cancellations' : Z) :
  queue_inv q -> find_waiter id (waiters q) = Some w ->
  queue_inv (mkPoolQueue (capacity_waiters_possible q) cancellations' (generation q)
    (if w_waiting w then decrement (queued q) else queued q) (queued_total q) timeouts'
    (filter (fun w => w_id w <> id) (waiters q)) (lifetime_waiters q)).
Proof.
  intros [H1 H2 H3 H4] Hf. split; simpl; [by apply removed_ids| | |done].
  - rewrite H2, (removed_waiting _ _ _ H1 Hf).
    pose proof (len_nonneg (filter (fun w => w_waiting w = true) (filter (fun w => w_id w <> id) (waiters q)))).
    unfold decrement. destruct (w_waiting w); [|lia]. destruct (Z.eqb_spec (len (filter (fun w => w_waiting w = true)
      (filter (fun w => w_id w <> id) (waiters q))) + 1) 0); lia.
  - apply Forall_forall. intros x [_ Hx]%list_elem_of_filter. rewrite Forall_forall in H3. auto.
Qed.

Lemma queue_inv_finish id b q : queue_inv q -> queue_inv (QueueWaitGuard_finish id b q).
Proof.
  intros H. unfold QueueWaitGuard_finish. destruct (find_waiter id (waiters q)) as [w|] eqn:Hf; [|done]. simpl.
  case_match; [apply queue_inv_notify_front|]; by apply queue_inv_remove.
Qed.

Lemma queue_inv_cancel id q : queue_inv q -> queue_inv (cancel id q).
Proof.
  intros H. unfold cancel. destruct (find_waiter id (waiters q)) as [w|] eqn:Hf; [|done]. simpl.
  case_match; [apply queue_inv_notify_front|]; by apply queue_inv_remove.
Qed.

(** ** Sleeping and waking *)

Lemma update_waiter_ids id f q : (forall w, w_id (f w) = w_id w) -> w_id <$> waiters (update_waiter id f q) = w_id <$> waiters q.
Proof.
  intros Hf. simpl. rewrite <- list_fmap_compose. apply list_fmap_ext. intros i w _. simpl. by case_bool_decide.
Qed.

Lemma update_absent id (f : Waiter -> Waiter) (ws : list Waiter) :
  id ∉ w_id <$> ws -> (fun w => if bool_decide (w_id w = id) then f w else w) <$> ws = ws.
Proof.
  induction ws as [|w ws IH]; [done|]. rewrite !fmap_cons. intros [Hne Hn]%not_elem_of_cons.
  by rewrite bool_decide_eq_false_2, IH.
Qed.

(** What a change of one waiter does to the number of those that count. *)
Lemma update_waiting id (f : Waiter -> Waiter) ws w :
  NoDup (w_id <$> ws) -> find_waiter id ws = Some w ->
  len (filter (fun w => w_waiting w = true) ((fun w => if bool_decide (w_id w = id) then f w else w) <$> ws)) =
  len (filter (fun w => w_waiting w = true) ws) - (if w_waiting w then 1 else 0) + (if w_waiting (f w) then 1 else 0).
Proof.
  induction ws as [|x ws IH]; [done|]. rewrite fmap_cons. intros [Hn Hd]%NoDup_cons. simpl. case_bool_decide as Hx.
  - intros [= <-]. rewrite !filter_cons.
    pose proof (update_absent id f ws ltac:(by rewrite <- Hx)) as Hid.
    unfold fmap in Hid. rewrite Hid. destruct (w_waiting (f x)), (w_waiting x); simpl; rewrite ?len_cons; lia.
  - intros Hf. rewrite !filter_cons. specialize (IH Hd Hf). unfold fmap in IH. case_decide; rewrite ?len_cons; lia.
Qed.

Lemma queue_inv_asleep id t q :
  queue_inv q -> len (waiters q) < u64_max -> forall w, find_waiter id (waiters q) = Some w ->
  queue_inv (update_waiter id (fun w => mkWaiter (w_id w) (w_request w) true (w_permit w) true t)
    (if w_waiting w then q
     else mkPoolQueue (capacity_waiters_possible q) (cancellations q) (generation q)
            (wrapping_inc (queued q)) (wrapping_inc (queued_total q)) (timeouts q) (waiters q) (lifetime_waiters q))).
Proof.
  intros [H1 H2 H3 H4] Hlen w Hf.
  assert (waiters (if w_waiting w then q else mkPoolQueue (capacity_waiters_possible q) (cancellations q) (generation q)
            (wrapping_inc (queued q)) (wrapping_inc (queued_total q)) (timeouts q) (waiters q) (lifetime_waiters q)) = waiters q) as Hw
    by by destruct (w_waiting w).
  split.
  - rewrite update_waiter_ids by done. by rewrite Hw.
  - simpl. rewrite Hw, (update_waiting _ _ _ _ H1 Hf). simpl.
    assert (len (filter (fun w => w_waiting w = true) (waiters q)) <= len (waiters q)) as Hle
      by (unfold len; pose proof (length_filter (fun w => w_waiting w = true) (waiters q)); lia).
    pose proof (len_nonneg (filter (fun w => w_waiting w = true) (waiters q))).
    destruct (w_waiting w); simpl; [lia|]. unfold wrapping_inc. rewrite Z.mod_small by lia. lia.
  - simpl. rewrite Hw. apply Forall_fmap. eapply Forall_impl; [done|]. intros x Hx. simpl. by case_bool_decide.
  - by destruct (w_waiting w).
Qed.

Lemma queue_inv_wake id q :
  queue_inv q ->
  queue_inv (update_waiter id (fun w => mkWaiter (w_id w) (w_request w) (w_waiting w) false false (w_attempted_at w)) q).
Proof.
  intros [H1 H2 H3 H4]. split; [by rewrite update_waiter_ids| | |done]; simpl.
  - rewrite H2. destruct (find_waiter id (waiters q)) as [w|] eqn:Hf; [rewrite (update_waiting _ _ _ _ H1 Hf); simpl; lia|].
    by rewrite update_absent by by apply find_waiter_None.
  - apply Forall_fmap. eapply Forall_impl; [done|]. intros x Hx. simpl. by case_bool_decide.
Qed.

(** A waiter leaves: the one behind the front is told, the front is not
    disturbed. *)
Lemma settled_leave id p q' :
  waiters q' = filter (fun w => w_id w <> id) (waiters (queue p)) -> settled p ->
  settled (set_queue (if fst (remove_waiter id (waiters (queue p))) then notify_front q' else q') p).
Proof.
  intros Hw H. unfold remove_waiter. simpl. destruct (waiters (queue p)) as [|w ws] eqn:E.
  { apply settled_permit. simpl. by rewrite Hw. }
  case_bool_decide as Hid.
  - apply settled_permit. simpl. unfold notify_front. by destruct (waiters q') eqn:E'; rewrite ?E'.
  - apply (settled_head p); [|apply tighter_list_refl|done]. simpl. by rewrite Hw, E, filter_cons_True.
Qed.

Lemma set_queue_same p : set_queue (queue p) p = p.
Proof. by destruct p. Qed.

Lemma settled_finish id b p : settled p -> settled (set_queue (QueueWaitGuard_finish id b (queue p)) p).
Proof.
  intros H. unfold QueueWaitGuard_finish. destruct (find_waiter id (waiters (queue p))); [|by rewrite set_queue_same].
  simpl. by apply (settled_leave id p).
Qed.

Lemma settled_cancel id p : settled p -> settled (set_queue (cancel id (queue p)) p).
Proof.
  intros H. unfold cancel. destruct (find_waiter id (waiters (queue p))); [|by rewrite set_queue_same].
  simpl. by apply (settled_leave id p).
Qed.

Lemma notify_front_waiters q : length (waiters (notify_front q)) = length (waiters q).
Proof. unfold notify_front. by destruct (waiters q) eqn:E; rewrite ?E. Qed.

Lemma finish_length id b q : (length (waiters (QueueWaitGuard_finish id b q)) <= length (waiters q))%nat.
Proof.
  unfold QueueWaitGuard_finish. destruct (find_waiter id (waiters q)); [|done]. simpl.
  case_match; rewrite ?notify_front_waiters; simpl; apply length_filter.
Qed.

Lemma cancel_length id q : (length (waiters (cancel id q)) <= length (waiters q))%nat.
Proof.
  unfold cancel. destruct (find_waiter id (waiters q)); [|done]. simpl.
  case_match; rewrite ?notify_front_waiters; simpl; apply length_filter.
Qed.

(** ** Leases *)

(** The pool with one more lease on an endpoint that had room, wherever the
    rotation stands. *)
Definition took (i : nat) (p p' : EndpointPool) : Prop :=
  (exists e, endpoints p !! i = Some e /\ has_capacity e = true) /\
  endpoints p' = endpoints (leased i p) /\ queue p' = queue p /\ (pool_ok p -> pool_ok p').

Lemma pool_ok_endpoints p es :
  length es = length (endpoints p) -> pool_ok p -> pool_ok (set_endpoints es p).
Proof. intros Hl [H1 H2 H3]. split; simpl; rewrite ?Hl; done. Qed.

Lemma pool_ok_queue q p : pool_ok p -> pool_ok (set_queue q p).
Proof. by intros []. Qed.

Lemma pool_ok_bump p : pool_ok p -> pool_ok (bump_version p).
Proof. by intros []. Qed.

Lemma pool_ok_note p : pool_ok p -> pool_ok (note_unavailable_selection p).
Proof. by intros []. Qed.

Lemma pool_ok_advanced c p : pool_ok p -> pool_ok (advance c p).
Proof.
  intros [H1 H2 H3]. unfold advance. set (n := if bool_decide _ then _ else _).
  assert (pool_ok (set_next n p)) as H.
  { split; simpl; [|done|done]. unfold n. case_bool_decide as Hs.
    - rewrite length_seq in *. apply Nat.mod_upper_bound. lia.
    - apply Nat.mod_upper_bound. lia. }
  by destruct (algorithm p).
Qed.

Lemma try_acquire_capacity_effect e now e' :
  try_acquire_capacity e now = Some e' ->
  e' = set_active_work (active_work e + 1) e /\ has_capacity e = true /\ selectable_at e now = true.
Proof.
  unfold try_acquire_capacity, has_capacity. destruct (selectable_at e now); simpl; [|done].
  destruct (checked_add u64_max (active_work e) 1) as [n|] eqn:Hc; [apply checked_add_Some in Hc as [-> _]|by case_match].
  simpl. destruct (endpoint_max_connections e) as [limit|]; [|naive_solver].
  destruct (Z.leb_spec limit (active_work e)); [done|]. rewrite (proj2 (Z.ltb_lt _ _)) by done. naive_solver.
Qed.

Lemma took_insert i p e :
  endpoints p !! i = Some e -> has_capacity e = true ->
  took i p (set_endpoints (<[i := set_active_work (active_work e + 1) e]> (endpoints p)) p).
Proof.
  intros He Hc. split_and!; simpl; [by exists e| |done|by apply pool_ok_endpoints; rewrite length_insert].
  rewrite list_insert_alter. apply list_alter_ext; [|done]. intros x Hx. by simplify_eq.
Qed.

Lemma try_acquire_effect i now p b p' :
  try_acquire i now p = (b, p') ->
  if b then took i p p' else p' = p.
Proof.
  unfold try_acquire. destruct (endpoints p !! i) as [e|] eqn:He; [|by intros [= <- <-]].
  destruct (selectable_at e now) eqn:Hs; simpl; [|by intros [= <- <-]].
  destruct (try_acquire_capacity e now) as [e'|] eqn:Ht; [|by intros [= <- <-]].
  apply try_acquire_capacity_effect in Ht as (-> & Hc & _). rewrite selectable_active_work, Hs. simpl.
  intros [= <- <-]. by apply took_insert.
Qed.

Lemma acquire_first_effect l now p c p' :
  acquire_first l now p = (c, p') ->
  match c with Some c => took (candidate_index c) p p' | None => p' = p end.
Proof.
  revert p. induction l as [|x l IH]; intros p; simpl; [by intros [= <- <-]|].
  destruct (try_acquire (candidate_index x) now p) as [b p1] eqn:Ht. apply try_acquire_effect in Ht.
  destruct b; [intros [= <- <-]; done|]. subst. apply IH.
Qed.

Lemma took_advance i c p p' : took i p p' -> took i p (advance c p').
Proof.
  intros (H1 & H2 & H3 & H4). unfold took.
  assert (endpoints (advance c p') = endpoints p' /\ queue (advance c p') = queue p') as [-> ->]
    by (unfold advance; by destruct (algorithm p')).
  split_and!; [done..|]. intros H. by apply pool_ok_advanced, H4.
Qed.

Lemma attempt_effect r now p a p' :
  attempt r now p = (a, p') ->
  match lease a with Some i => took i p p' | None => p' = p end.
Proof.
  destruct r as [names|name]; simpl.
  - unfold select_server_excluding. destruct (acquire_first _ now p) as [c p1] eqn:Ha.
    apply acquire_first_effect in Ha. intros [= <- <-]. simpl. destruct c as [c|]; simpl; [by apply took_advance|done].
  - unfold select_named_server. destruct (find_server name p) as [[i e]|]; [|by intros [= <- <-]].
    destruct (try_acquire i now p) as [b p1] eqn:Ht. apply try_acquire_effect in Ht. intros [= <- <-]. simpl.
    by destruct b.
Qed.

(** An attempt that fails although something could serve finds no room. *)
Lemma attempt_blocked r now p a p' id waiting permit asleep :
  pool_ok p -> (forall e, e ∈ endpoints p -> active_work e < u64_max) ->
  attempt r now p = (a, p') -> lease a = None -> saturated a = true ->
  blocked p (mkWaiter id r waiting permit asleep now).
Proof.
  intros Hok Hmax Ha Hl Hsat i e He Hserve. simpl in Hserve. destruct r as [names|name]; simpl in Ha.
  - rewrite select_unfold in Ha by done. simpl in Ha. injection Ha as <- <-. simpl in Hl.
    destruct (head _) eqn:Hh in Hl; [done|]. apply nothing_ready in Hh. by eapply ready_none.
  - destruct Hserve as [Hf Hs]. unfold select_named_server in Ha. rewrite Hf in Ha.
    destruct (try_acquire i now p) as [b p1]. injection Ha as <- <-. simpl in Hsat. by bool_inv.
Qed.

(** ** Counting leases *)

Lemma held_app i ls ks : held i (ls ++ ks) = held i ls + held i ks.
Proof. unfold held. by rewrite filter_app, len_app. Qed.

Lemma held_single i l : held i [l] = if le_acquired l && bool_decide (le_index l = i) then 1 else 0.
Proof. unfold held. rewrite filter_cons. destruct (le_acquired l); case_bool_decide; case_decide; naive_solver. Qed.

Lemma held_bound i ls : 0 <= held i ls <= len ls.
Proof. unfold held, len. pose proof (length_filter (fun l => le_acquired l = true /\ le_index l = i) ls). lia. Qed.

Lemma held_split i ls k l :
  ls !! k = Some l -> held i ls = held i (delete k ls) + held i [l].
Proof.
  intros Hk. rewrite delete_take_drop. rewrite <- (take_drop_middle ls k l Hk) at 1.
  rewrite (cons_middle l), !held_app. lia.
Qed.

Lemma held_insert i ls k l l' :
  ls !! k = Some l -> held i (<[k := l']> ls) = held i (delete k ls) + held i [l'].
Proof.
  intros Hk. rewrite insert_take_drop, delete_take_drop by by eapply lookup_lt_Some.
  rewrite (cons_middle l'), !held_app. lia.
Qed.

(** ** Steps *)

(** Endpoints with the same leases on them. *)
Definition same_load (es es' : list PoolEndpoint) : Prop := Forall2 (fun e e' => active_work e' = active_work e) es es'.

Lemma same_load_refl es : same_load es es.
Proof. induction es; by constructor. Qed.

Lemma same_load_insert es i e e' :
  es !! i = Some e -> active_work e' = active_work e -> same_load es (<[i := e']> es).
Proof.
  intros He Ht. apply Forall2_same_length_lookup_2; [by rewrite length_insert|]. intros j x y Hx Hy.
  destruct (decide (i = j)) as [<-|Hne].
  - rewrite list_lookup_insert_eq in Hy by by eapply lookup_lt_Some. by simplify_eq.
  - rewrite list_lookup_insert_ne in Hy by done. by simplify_eq.
Qed.

Lemma held_same s es' :
  (forall i e, endpoints (pool s) !! i = Some e -> active_work e = held i (leases s)) ->
  same_load (endpoints (pool s)) es' -> forall i e, es' !! i = Some e -> active_work e = held i (leases s).
Proof. intros H HF i e' He'. destruct (Forall2_lookup_r _ _ _ _ _ HF He') as (e & He & ->). auto. Qed.

(** A step that makes nothing available, and tells nobody. *)
Lemma inv_quiet n s p' :
  system_inv n s -> pool_ok p' -> queue p' = queue (pool s) ->
  same_load (endpoints (pool s)) (endpoints p') -> Forall2 tighter (endpoints (pool s)) (endpoints p') ->
  system_inv (n + 1) (mkSystem p' (leases s)).
Proof.
  intros [H1 H2 H3 H4 H5 H6] Hok Hq Hl Ht. split; simpl; rewrite ?Hq; try done; try lia.
  - by apply held_same.
  - by apply (settled_head (pool s)); [rewrite Hq|..].
Qed.

(** A step that notifies. *)
Lemma inv_loud n s p' :
  system_inv n s -> pool_ok p' -> queue p' = queue (pool s) -> same_load (endpoints (pool s)) (endpoints p') ->
  system_inv (n + 1) (mkSystem (notify_pool p') (leases s)).
Proof.
  intros [H1 H2 H3 H4 H5 H6] Hok Hq Hl. split; simpl; rewrite ?Hq; try lia.
  - by apply pool_ok_queue.
  - by apply held_same.
  - unfold len. rewrite notify_waiters_length. unfold len in H4. lia.
  - by apply queue_inv_notify.
  - apply settled_notify.
Qed.

Lemma tighter_leased e : tighter e (set_active_work (active_work e + 1) e).
Proof.
  split_and!; [done..|]. unfold has_capacity. change (endpoint_max_connections (set_active_work _ e)) with (endpoint_max_connections e).
  destruct (endpoint_max_connections e); [|done]. simpl. rewrite !Z.ltb_ge. lia.
Qed.

(** A lease is taken: [id] holds it, or [k] is a pending one that becomes real. *)
Lemma inv_took n s i p' ls' :
  system_inv n s -> took i (pool s) p' -> (forall j, held j ls' = held j (leases s) + if bool_decide (i = j) then 1 else 0) ->
  len ls' <= n + 1 -> system_inv (n + 1) (mkSystem p' ls').
Proof.
  intros [H1 H2 H3 H4 H5 H6] ((e0 & He0 & _) & He & Hq & Hok) Hh Hlen. split; simpl; rewrite ?Hq; try done; try lia.
  - by apply Hok.
  - intros j e. rewrite He, Hh. simpl. rewrite list_lookup_alter. case_decide as Hd.
    + subst. rewrite He0. simpl. intros [= <-]. simpl. rewrite (H2 _ _ He0), bool_decide_eq_true_2 by done. done.
    + intros Hj. rewrite bool_decide_eq_false_2 by done. rewrite (H2 _ _ Hj). lia.
  - apply (settled_head (pool s)); [by rewrite Hq| |done]. rewrite He. apply tighter_alter. intros e _. apply tighter_leased.
Qed.

Lemma inv_add n s id i p' :
  system_inv n s -> took i (pool s) p' -> system_inv (n + 1) (mkSystem p' (leases s ++ [mkLease id i true])).
Proof.
  intros Hinv Ht. apply (inv_took n s i); [done..| |].
  - intros j. by rewrite held_app, held_single.
  - rewrite len_app. change (len [_]) with 1. pose proof (si_leases _ _ Hinv). lia.
Qed.

(** A pending lease is handed out. *)
Lemma inv_pending n s id l :
  system_inv n s -> system_inv (n + 1) (mkSystem (pool s) (add_lease id false l (leases s))).
Proof.
  intros [H1 H2 H3 H4 H5 H6]. destruct l as [i|]; simpl.
  - split; simpl; try done; try lia.
    + intros j e He. rewrite held_app, held_single. simpl. rewrite (H2 _ _ He). lia.
    + rewrite len_app. change (len [_]) with 1. lia.
  - by split; simpl; try lia.
Qed.

Lemma inv_mono n s : system_inv n s -> system_inv (n + 1) s.
Proof. intros []. split; try done; lia. Qed.

Lemma inv_note n s : system_inv n s -> system_inv n (mkSystem (note_unavailable_selection (pool s)) (leases s)).
Proof. intros []. split; try done. by apply pool_ok_note. Qed.

(** A step of the queue alone. *)
Lemma inv_queue n n' s q' :
  system_inv n s -> n <= n' -> queue_inv q' -> len (waiters q') <= n' -> settled (set_queue q' (pool s)) ->
  system_inv n' (mkSystem (set_queue q' (pool s)) (leases s)).
Proof. intros [] Hn Hq Hl Hs. split; try done; simpl; try lia. by apply pool_ok_queue. Qed.

Lemma inv_finish n n' s id b :
  system_inv n s -> n <= n' -> system_inv n' (mkSystem (set_queue (QueueWaitGuard_finish id b (queue (pool s))) (pool s)) (leases s)).
Proof.
  intros H Hn. apply (inv_queue n); [done..| | |].
  - by apply queue_inv_finish, H.
  - pose proof (finish_length id b (queue (pool s))). pose proof (si_waiters _ _ H). unfold len in *. lia.
  - by apply settled_finish, H.
Qed.

Lemma inv_cancel n s id :
  system_inv n s -> system_inv (n + 1) (mkSystem (wait_cancel id (pool s)) (leases s)).
Proof.
  intros H. apply (inv_queue n); [done|lia|..].
  - by apply queue_inv_cancel, H.
  - pose proof (cancel_length id (queue (pool s))). pose proof (si_waiters _ _ H). unfold len in *. lia.
  - by apply settled_cancel, H.
Qed.

Lemma inv_wake n s id : system_inv n s -> system_inv (n + 1) (mkSystem (wait_wake id (pool s)) (leases s)).
Proof.
  intros H. unfold wait_wake. destruct (find_waiter id _) as [w|]; [|by apply inv_mono; destruct s].
  destruct (w_asleep w && w_permit w); [|by apply inv_mono; destruct s].
  apply (inv_queue n); [done|lia|by apply queue_inv_wake, H| |].
  - pose proof (si_waiters _ _ H). simpl. unfold len in *. rewrite length_fmap. lia.
  - pose proof (si_settled _ _ H) as Hs. unfold settled in *. simpl. destruct (waiters (queue (pool s))) as [|x ws]; [done|].
    simpl. case_bool_decide; [done|]. intros Ha Hp. exact (Hs Ha Hp).
Qed.

(** A request goes to sleep: it is not at the front, or it is blocked. *)
Lemma inv_asleep n s id t w :
  system_inv n s -> n < u64_max -> find_waiter id (waiters (queue (pool s))) = Some w ->
  (is_front id (queue (pool s)) = true -> blocked (pool s) (mkWaiter id (w_request w) true false true t)) ->
  system_inv (n + 1) (mkSystem (fall_asleep id t (pool s)) (leases s)).
Proof.
  intros H Hn Hf Hb. unfold fall_asleep. rewrite Hf. pose proof (si_waiters _ _ H) as Hw.
  apply (inv_queue n); [done|lia|apply queue_inv_asleep; [apply H|lia|done]| |].
  - unfold len in *. destruct (w_waiting w); simpl; rewrite length_fmap; lia.
  - assert (waiters (if w_waiting w then queue (pool s) else mkPoolQueue (capacity_waiters_possible (queue (pool s)))
        (cancellations (queue (pool s))) (generation (queue (pool s))) (wrapping_inc (queued (queue (pool s))))
        (wrapping_inc (queued_total (queue (pool s)))) (timeouts (queue (pool s))) (waiters (queue (pool s)))
        (lifetime_waiters (queue (pool s)))) = waiters (queue (pool s))) as Hq by by destruct (w_waiting w).
    pose proof (si_settled _ _ H) as Hs. unfold settled, is_front in *. simpl. rewrite Hq.
    destruct (waiters (queue (pool s))) as [|x ws]; [done|]. simpl in *. case_bool_decide as Hx; [|exact Hs].
    injection Hf as ->. intros _ _ i e He Hserve. by apply (Hb eq_refl i e He).
Qed.

(** An attempt, with the lease it may have taken. *)
Lemma inv_attempt n s id r now a p' :
  system_inv n s -> attempt r now (pool s) = (a, p') ->
  system_inv (n + 1) (mkSystem p' (add_lease id true (lease a) (leases s))).
Proof.
  intros H Ha%attempt_effect. destruct (lease a) as [i|]; simpl; [by apply inv_add|].
  subst. apply inv_mono. by destruct s.
Qed.

Lemma load_bound n s e : system_inv n s -> n < u64_max -> e ∈ endpoints (pool s) -> active_work e < u64_max.
Proof.
  intros H Hn [i He]%list_elem_of_lookup. rewrite (si_held _ _ H _ _ He).
  pose proof (held_bound i (leases s)). pose proof (si_leases _ _ H). lia.
Qed.

Lemma inv_poll n s id now :
  system_inv n s -> n < u64_max -> system_inv (n + 1) (run_op s (Op_poll id now)).
Proof.
  intros H Hn. simpl. unfold wait_poll. destruct (find_waiter id _) as [w|] eqn:Hf; [|by apply inv_mono; destruct s].
  destruct (w_asleep w); [by apply inv_mono; destruct s|].
  destruct (is_front id (queue (pool s))) eqn:Hfr; [|by eapply inv_asleep; [..|congruence]].
  destruct (attempt (w_request w) now (pool s)) as [a p1] eqn:Ha.
  pose proof (inv_attempt n s id _ _ _ _ H Ha) as H1. destruct (lease a) as [i|] eqn:Hl.
  { by apply (inv_finish (n + 1) (n + 1) _ id false) in H1. }
  pose proof (attempt_effect _ _ _ _ _ Ha) as Hp. rewrite Hl in Hp. subst p1.
  destruct (negb (pool_available a) || negb (saturated a)) eqn:Hgive.
  - apply (inv_finish (n + 1) (n + 1) _ id false) in H1; [|done]. simpl in *.
    destruct (negb (pool_available a)); [by apply inv_note in H1|done].
  - simpl. apply inv_asleep with (w := w); try done. intros _. bool_inv.
    eapply (attempt_blocked _ _ _ a); [apply H| |done..]. intros e. by eapply load_bound.
Qed.

Lemma inv_release n s k l :
  system_inv n s -> leases s !! k = Some l ->
  system_inv (n + 1) (mkSystem (lease_drop l (pool s)) (delete k (leases s))).
Proof.
  intros [H1 H2 H3 H4 H5 H6] Hk. pose proof (fun i => held_split i _ _ _ Hk) as Hh.
  pose proof (length_delete (leases s) k ltac:(by eexists)) as Hlen.
  assert (len (delete k (leases s)) <= n + 1) as Hle by (unfold len in *; lia).
  unfold lease_drop. destruct (le_acquired l) eqn:Hacq.
  - split; simpl; [by apply pool_ok_queue, pool_ok_endpoints; [rewrite length_alter|]| |done| | |apply settled_notify].
    + intros i e. rewrite list_lookup_alter. specialize (Hh i). rewrite held_single, Hacq in Hh.
      pose proof (held_bound i (delete k (leases s))). case_decide as Hd.
      * subst. destruct (endpoints (pool s) !! le_index l) as [e0|] eqn:He0; [|done]. intros [= <-]. simpl.
        rewrite bool_decide_eq_true_2 in Hh by done. rewrite (H2 _ _ He0). unfold decrement.
        destruct (Z.eqb_spec (held (le_index l) (leases s)) 0); simpl in *; lia.
      * intros He. rewrite bool_decide_eq_false_2 in Hh by done. rewrite (H2 _ _ He). simpl in Hh. lia.
    + unfold len in *. rewrite notify_waiters_length. lia.
    + by apply queue_inv_notify.
  - split; simpl; try done; try lia. intros i e He. rewrite (H2 _ _ He), Hh, held_single, Hacq. simpl. lia.
Qed.

(** *** Health and administration *)

(** A change of health that reports nothing changes nothing that selection
    reads. *)
Lemma tighter_by e e' :
  server e' = server e -> active_work e' = active_work e -> administration e' = administration e ->
  state (health e') = state (health e) -> passive_ejected (passive e') = passive_ejected (passive e) ->
  passive_ejection_until_unix_ms (passive e') = passive_ejection_until_unix_ms (passive e) -> tighter e e'.
Proof.
  intros Hs Hw Ha Hst Hpe Hpu. unfold tighter, selectable_at, passively_ejected_at, has_capacity, endpoint_max_connections.
  by rewrite Hs, Hw, Ha, Hst, Hpe, Hpu.
Qed.

Lemma recover_effect e at_ policy r e' :
  recover_passive e at_ policy = (r, e') -> active_work e' = active_work e /\ (r = None -> e' = e).
Proof. unfold recover_passive. destruct (negb _), (mark_up policy); intros [= <- <-]; done. Qed.

Lemma record_effect e healthy failure at_ ht ut policy now u e' :
  record e healthy failure at_ ht ut policy now = (u, e') ->
  active_work e' = active_work e /\ (transition u = None -> passive_recovery u = None -> tighter e e').
Proof.
  unfold record. destruct (count_check (health e) healthy failure at_) as [h n] eqn:Hc.
  assert (state h = state (health e)) as Hst by (unfold count_check in Hc; destruct healthy; by injection Hc as <- <-).
  match goal with |- context [if bool_decide ?P then ?a else ?b] =>
    assert (fst (if bool_decide P then a else b) = None -> state (snd (if bool_decide P then a else b)) = state h) as Hh
      by (by case_bool_decide);
    destruct (if bool_decide P then a else b) as [tr h'] end. simpl in Hh.
  destruct (healthy && _).
  - destruct (recover_passive _ _ _) as [r e1] eqn:Hr. apply recover_effect in Hr as [Hw He]. intros [= <- <-]. simpl.
    split; [done|]. intros Htr ->. rewrite He by done. apply tighter_by; try done. simpl. by rewrite Hh.
  - intros [= <- <-]. simpl. split; [done|]. intros Htr _. apply tighter_by; try done. simpl. by rewrite Hh.
Qed.

Lemma passive_failure_effect e failure at_ policy r e' :
  endpoint_record_passive_failure e failure at_ policy = (r, e') ->
  active_work e' = active_work e /\ (r = None -> tighter e e').
Proof.
  unfold endpoint_record_passive_failure. repeat case_match; intros [= <- <-]; (split; [done|]); intros; simplify_eq;
    by apply tighter_by.
Qed.

Lemma inv_record n s index healthy failure at_ ht ut now :
  system_inv n s -> system_inv (n + 1) (mkSystem (snd (record_health index healthy failure at_ ht ut now (pool s))) (leases s)).
Proof.
  intros H. unfold record_health. destruct (endpoints (pool s) !! index) as [e|] eqn:He; [|by apply inv_mono; destruct s].
  simpl. destruct (record _ _ _ _ _ _ _ _) as [u e'] eqn:Hr. apply record_effect in Hr as [Hw Ht]. simpl.
  set (p1 := bump_version _).
  assert (pool_ok p1) as Hok by (by apply pool_ok_bump, pool_ok_endpoints; [simpl; rewrite length_insert|apply pool_ok_bump, H]).
  assert (same_load (endpoints (pool s)) (endpoints p1)) as Hl by by eapply same_load_insert.
  destruct (_ || _) eqn:Hn; [by apply inv_loud|]. bool_inv. apply inv_quiet; try done.
  eapply tighter_insert; [done|]. apply Ht; by apply eq_None_not_Some.
Qed.

Lemma inv_passive n s index failure at_ :
  system_inv n s -> system_inv (n + 1) (mkSystem (record_passive_failure_at index failure at_ (pool s)) (leases s)).
Proof.
  intros H. unfold record_passive_failure_at.
  destruct (endpoints (pool s) !! index) as [e|] eqn:He; [|by apply inv_mono; destruct s].
  simpl. destruct (endpoint_record_passive_failure _ _ _ _) as [r e'] eqn:Hr.
  apply passive_failure_effect in Hr as [Hw Ht]. set (p1 := bump_version _).
  assert (pool_ok p1) as Hok by (by apply pool_ok_bump, pool_ok_endpoints; [simpl; rewrite length_insert|apply pool_ok_bump, H]).
  assert (same_load (endpoints (pool s)) (endpoints p1)) as Hl by by eapply same_load_insert.
  case_bool_decide as Hn; [by apply inv_loud|]. apply inv_quiet; try done.
  eapply tighter_insert; [done|]. by apply Ht, eq_None_not_Some.
Qed.

Lemma with_server_Ok name f p p' :
  with_server name f p = Ok p' ->
  exists i e, endpoints p !! i = Some e /\ p' = set_endpoints (<[i := f e]> (endpoints p)) p.
Proof.
  unfold with_server. destruct (find_server name p) as [[i e]|] eqn:Hf; [|done]. intros [= <-].
  apply list_find_Some in Hf as (He & _). by exists i, e.
Qed.

(** A change of one endpoint by name, told to the waiters. *)
Lemma inv_administered n s name f :
  (forall e, active_work (f e) = active_work e) -> system_inv n s ->
  system_inv (n + 1) (mkSystem (administered (let? p := with_server name f (pool s) in Ok (notify_pool p)) (pool s)) (leases s)).
Proof.
  intros Hf H. destruct (with_server name f (pool s)) as [p'|] eqn:Hw; simpl; [|by apply inv_mono; destruct s].
  apply with_server_Ok in Hw as (i & e & He & ->). apply inv_loud; [done| |done|].
  - by apply pool_ok_endpoints; [rewrite length_insert|apply H].
  - by eapply same_load_insert.
Qed.

Lemma inv_changed n s i e e' :
  system_inv n s -> endpoints (pool s) !! i = Some e -> active_work e' = active_work e -> tighter e e' ->
  system_inv (n + 1) (mkSystem (set_endpoints (<[i := e']> (endpoints (pool s))) (pool s)) (leases s)).
Proof.
  intros H He Hw Ht. apply inv_quiet; [done| |done| |].
  - by apply pool_ok_endpoints; [rewrite length_insert|apply H].
  - by eapply same_load_insert.
  - by eapply tighter_insert.
Qed.

Lemma inv_checks n s name on :
  system_inv n s -> system_inv (n + 1) (run_op s (Op_checks name on)).
Proof.
  intros H. simpl. unfold set_server_checks_enabled. destruct (with_server _ _ _) as [p'|] eqn:Hw; simpl; [|by apply inv_mono; destruct s].
  apply with_server_Ok in Hw as (i & e & He & ->). eapply inv_changed; [done..|].
  split_and!; done.
Qed.

Lemma inv_dns n s name addresses :
  system_inv n s -> system_inv (n + 1) (run_op s (Op_dns name addresses)).
Proof.
  intros H. simpl. unfold commit_server_dns. destruct (find_server name (pool s)) as [[i e]|] eqn:Hf; simpl; [|by apply inv_mono; destruct s].
  apply list_find_Some in Hf as (He & _). unfold commit_dns. destruct (negb (is_dns _)); simpl; [by apply inv_mono; destruct s|].
  destruct (reject_protected_addresses e addresses); simpl; [|by apply inv_mono; destruct s].
  eapply inv_changed; [done..| |]; by destruct (pinned_addresses (server e)).
Qed.

(** *** Connectors *)

Lemma inv_lifetime n s ls' :
  system_inv n s -> Forall (fun l => l_woken l = false -> l_generation l = generation (queue (pool s))) ls' ->
  system_inv (n + 1) (mkSystem (set_queue (set_lifetime_waiters ls' (queue (pool s))) (pool s)) (leases s)).
Proof.
  intros H Hls. destruct (si_queue _ _ H). apply (inv_queue n); [done|lia|done| |].
  - pose proof (si_waiters _ _ H). simpl. lia.
  - apply (settled_head (pool s)); [done|apply tighter_list_refl|apply H].
Qed.

Lemma inv_lifetime_wait n s id gen :
  system_inv n s -> system_inv (n + 1) (mkSystem (snd (lifetime_wait id gen (pool s))) (leases s)).
Proof.
  intros H. unfold lifetime_wait. destruct (queue_timeout (pool s)); [|by apply inv_mono; destruct s].
  destruct (Z.eqb_spec (generation (queue (pool s))) gen) as [<-|]; simpl; [|by apply inv_mono; destruct s].
  apply inv_lifetime; [done|]. apply Forall_app. split; [apply H|]. by repeat constructor.
Qed.

Lemma inv_lifetime_turn n s id :
  system_inv n s -> system_inv (n + 1) (mkSystem (snd (lifetime_turn id (pool s))) (leases s)).
Proof.
  intros H. unfold lifetime_turn. destruct (find _ _) as [l|] eqn:Hf; [|by apply inv_mono; destruct s].
  destruct (negb (l_woken l)); [by apply inv_mono; destruct s|]. pose proof (qi_lifetime _ (si_queue _ _ H)) as Hl.
  destruct (negb _); simpl; apply inv_lifetime; try done.
  - apply Forall_forall. intros x [_ Hx]%list_elem_of_filter. rewrite Forall_forall in Hl. auto.
  - apply Forall_fmap. eapply Forall_impl; [exact Hl|]. intros x Hx. simpl.
    destruct (bool_decide (l_id x = id) && _) eqn:E; [|done]. bool_inv. done.
Qed.

Lemma inv_lifetime_timeout n s id :
  system_inv n s -> system_inv (n + 1) (mkSystem (snd (lifetime_timeout id (pool s))) (leases s)).
Proof.
  intros H. unfold lifetime_timeout. destruct (find _ _) as [l|]; [|by apply inv_mono; destruct s].
  destruct (l_woken l); [by apply inv_mono; destruct s|]. destruct (si_queue _ _ H) as [H1 H2 H3 H4].
  apply (inv_queue n); [done|lia| | |].
  - split; try done. simpl. apply Forall_forall. intros x [_ Hx]%list_elem_of_filter. rewrite Forall_forall in H4. auto.
  - pose proof (si_waiters _ _ H). simpl. lia.
  - apply (settled_head (pool s)); [done|apply tighter_list_refl|apply H].
Qed.

(** *** Requests *)

Lemma inv_maybe_note n s (b : bool) :
  system_inv n s -> system_inv n (mkSystem (if b then note_unavailable_selection (pool s) else pool s) (leases s)).
Proof. intros H. destruct b; [by apply inv_note|by destruct s]. Qed.

Lemma inv_select n s id excluded now : system_inv n s -> system_inv (n + 1) (run_op s (Op_select id excluded now)).
Proof.
  intros H. simpl. unfold select_excluding. set (names := _ <$> _).
  destruct (select_server_excluding names now (pool s)) as [a p1] eqn:Ha.
  exact (inv_maybe_note _ (mkSystem _ _) _ (inv_attempt n s id (Excluding names) now a p1 H Ha)).
Qed.

Lemma inv_wait n s id r now :
  system_inv n s -> system_inv (n + 1) (run_op s (Op_wait id r now)).
Proof.
  intros H. simpl. unfold fresh_waiter. case_bool_decide as Hfresh; [|by apply inv_mono].
  unfold wait_start. destruct (queue_timeout (pool s)); simpl.
  - destruct (si_queue _ _ H) as [H1 H2 H3 H4]. apply (inv_queue n); [done|lia| | |].
    + split; simpl; [| |by apply Forall_app; split; [|by repeat constructor]|done].
      * rewrite fmap_app. apply NoDup_app. split_and!; [done| |by apply NoDup_singleton].
        intros x Hx ->%list_elem_of_singleton. by apply find_waiter_None in Hfresh.
      * by rewrite filter_app, len_app, H2, Z.add_0_r.
    + simpl. rewrite len_app. change (len [_]) with 1. pose proof (si_waiters _ _ H). lia.
    + pose proof (si_settled _ _ H) as Hs. unfold settled in *. simpl. by destruct (waiters (queue (pool s))).
  - destruct (attempt r now (pool s)) as [a p1] eqn:Ha. simpl.
    exact (inv_maybe_note _ (mkSystem _ _) _ (inv_attempt n s id r now a p1 H Ha)).
Qed.

Lemma advance_same c p : endpoints (advance c p) = endpoints p /\ queue (advance c p) = queue p.
Proof. unfold advance. by destruct (algorithm p). Qed.

Lemma inv_target n s id excluded now : system_inv n s -> system_inv (n + 1) (run_op s (Op_target id excluded now)).
Proof.
  intros H. simpl. unfold select_connection_target_excluding.
  set (selected := match algorithm (pool s) with RoundRobin => _ | _ => _ end). destruct selected as [c|].
  - assert (system_inv n (mkSystem (advance c (pool s)) (leases s))) as H'.
    { destruct H as [H1 H2 H3 H4 H5 H6]. destruct (advance_same c (pool s)) as [He Hq].
      split; simpl; rewrite ?He, ?Hq; try done; [by apply pool_ok_advanced|].
      apply (settled_head (pool s)); [by rewrite Hq|rewrite He; apply tighter_list_refl|done]. }
    exact (inv_pending _ _ id (Some (candidate_index c)) H').
  - simpl. exact (inv_mono _ _ (inv_note _ _ H)).
Qed.

Lemma inv_acquire n s id now : system_inv n s -> system_inv (n + 1) (run_op s (Op_acquire id now)).
Proof.
  intros H. simpl. destruct (find_lease id (leases s)) as [[k l]|] eqn:Hf; [|by apply inv_mono].
  apply list_find_Some in Hf as (Hk & _). destruct (le_acquired l) eqn:Hacq; [by apply inv_mono|].
  unfold lease_try_acquire. destruct (endpoints (pool s) !! le_index l) as [e|] eqn:He; simpl; [|by apply inv_mono].
  destruct (try_acquire_capacity e now) as [e'|] eqn:Ht; simpl; [|by apply inv_mono].
  apply try_acquire_capacity_effect in Ht as (-> & Hc & _). apply (inv_took n s (le_index l)); [done|by apply took_insert| |].
  - intros j. rewrite (held_insert _ _ _ _ _ Hk), (held_split j _ _ _ Hk), !held_single. simpl. rewrite Hacq. simpl. lia.
  - pose proof (si_leases _ _ H). unfold len in *. rewrite length_insert. lia.
Qed.

Lemma run_op_inv n s op : system_inv n s -> n < u64_max -> system_inv (n + 1) (run_op s op).
Proof.
  intros H Hn. destruct op.
  - by apply inv_select.
  - by apply inv_wait.
  - by apply inv_poll.
  - by apply inv_wake.
  - simpl. unfold wait_timeout. destruct (find_waiter id _) as [w|]; [|by apply inv_mono; destruct s].
    destruct (w_asleep w && _); [|by apply inv_mono; destruct s]. apply (inv_finish n); [done|lia].
  - by apply inv_cancel.
  - by apply inv_target.
  - by apply inv_pending.
  - by apply inv_acquire.
  - simpl. destruct (find_lease id (leases s)) as [[k l]|] eqn:Hf; [|by apply inv_mono].
    apply list_find_Some in Hf as (Hk & _). by apply inv_release.
  - by apply inv_lifetime_wait.
  - by apply inv_lifetime_turn.
  - by apply inv_lifetime_timeout.
  - simpl. unfold notify_reusable. destruct (capacity_waiters_possible _); [|by apply inv_mono; destruct s].
    apply inv_loud; [done|apply H|done|apply same_load_refl].
  - by apply inv_record.
  - by apply inv_passive.
  - by apply inv_administered.
  - simpl. apply inv_loud; [done| |done|].
    + by apply pool_ok_endpoints; [rewrite length_fmap|apply H].
    + apply Forall2_fmap_r, Forall_Forall2_diag. by apply Forall_forall.
  - by apply inv_administered.
  - by apply inv_checks.
  - simpl. unfold set_server_max_connections. case_bool_decide; [by apply inv_mono; destruct s|]. by apply inv_administered.
  - by apply inv_dns.
Qed.

Lemma run_ops_inv n s ops : system_inv n s -> n + len ops <= u64_max -> system_inv (n + len ops) (run_ops s ops).
Proof.
  revert n s. induction ops as [|op ops IH]; intros n s H Hn; simpl.
  - rewrite len_nil, Z.add_0_r. done.
  - rewrite len_cons in *. pose proof (len_nonneg ops). replace (n + (1 + len ops)) with ((n + 1) + len ops) by lia.
    apply IH; [|lia]. apply run_op_inv; [done|lia].
Qed.

(** ** Limits *)

(** The endpoint keeps its limit, and takes a lease only when it has room. *)
Definition calm (e e' : PoolEndpoint) : Prop :=
  max_connections_override (administration e') = max_connections_override (administration e) /\
  max_connections (server e') = max_connections (server e) /\
  (active_work e' <= active_work e \/ has_capacity e = true /\ active_work e' = active_work e + 1).

Lemma calm_refl e : calm e e.
Proof. split_and!; [done..|]. left. lia. Qed.

Lemma calm_list_refl es : Forall2 calm es es.
Proof. induction es; constructor; [apply calm_refl|done]. Qed.

Lemma calm_insert es i e e' : es !! i = Some e -> calm e e' -> Forall2 calm es (<[i := e']> es).
Proof.
  intros He Hc. apply Forall2_same_length_lookup_2; [by rewrite length_insert|]. intros j x y Hx Hy.
  rewrite list_lookup_insert in Hy. case_decide as Hd; [naive_solver|]. simplify_eq. apply calm_refl.
Qed.

Lemma calm_alter es i f : (forall e, es !! i = Some e -> calm e (f e)) -> Forall2 calm es (alter f i es).
Proof.
  intros H. apply Forall2_same_length_lookup_2; [by rewrite length_alter|]. intros j x y Hx Hy.
  rewrite list_lookup_alter in Hy. case_decide; simplify_eq; [|apply calm_refl].
  rewrite Hx in Hy. simpl in Hy. simplify_eq. auto.
Qed.

Lemma calm_took i p p' : took i p p' -> Forall2 calm (endpoints p) (endpoints p').
Proof.
  intros ((e & He & Hc) & -> & _). simpl. apply calm_alter. intros x Hx. simplify_eq. split_and!; [done..|]. by right.
Qed.

Lemma calm_attempt r now p a p' : attempt r now p = (a, p') -> Forall2 calm (endpoints p) (endpoints p').
Proof.
  intros H%attempt_effect. destruct (lease a); [by eapply calm_took|]. subst. apply calm_list_refl.
Qed.

Lemma calm_fixed e e' :
  server e' = server e -> max_connections_override (administration e') = max_connections_override (administration e) ->
  active_work e' = active_work e -> calm e e'.
Proof. intros H1 H2 H3. unfold calm. rewrite H1, H2, H3. split_and!; [done..|]. left. lia. Qed.

Lemma record_fixed e healthy failure at_ ht ut policy now : calm e (snd (record e healthy failure at_ ht ut policy now)).
Proof.
  unfold record, recover_passive. destruct (count_check _ _ _ _) as [h n].
  destruct (if bool_decide _ then _ else _) as [tr h']. destruct (healthy && _); simpl; [|by apply calm_fixed].
  destruct (passive_ejected (passive e)); simpl; [|by apply calm_fixed]. by destruct (mark_up policy); apply calm_fixed.
Qed.

Lemma passive_fixed e failure at_ policy : calm e (snd (endpoint_record_passive_failure e failure at_ policy)).
Proof. unfold endpoint_record_passive_failure. repeat case_match; by apply calm_fixed. Qed.

Lemma calm_named name f p :
  (forall e, calm e (f e)) -> Forall2 calm (endpoints p) (endpoints (administered (with_server name f p) p)).
Proof.
  intros Hf. destruct (with_server name f p) as [p'|] eqn:H; simpl; [|apply calm_list_refl].
  apply with_server_Ok in H as (i & e & He & ->). by eapply calm_insert.
Qed.

Lemma calm_notified name f p :
  (forall e, calm e (f e)) ->
  Forall2 calm (endpoints p) (endpoints (administered (let? p := with_server name f p in Ok (notify_pool p)) p)).
Proof. intros Hf. pose proof (calm_named name f p Hf) as H. by destruct (with_server name f p). Qed.

Lemma decrement_le n : 0 <= n -> decrement n <= n.
Proof. unfold decrement. destruct (Z.eqb_spec n 0); lia. Qed.

Lemma asleep_endpoints id t p : endpoints (fall_asleep id t p) = endpoints p.
Proof. unfold fall_asleep. by repeat case_match. Qed.

Lemma calm_poll id now p : Forall2 calm (endpoints p) (endpoints (snd (wait_poll id now p))).
Proof.
  unfold wait_poll. destruct (find_waiter id _) as [w|]; [|apply calm_list_refl].
  destruct (w_asleep w); [apply calm_list_refl|].
  destruct (is_front id _); [|simpl; rewrite asleep_endpoints; apply calm_list_refl].
  destruct (attempt (w_request w) now p) as [a p1] eqn:Ha. apply calm_attempt in Ha.
  destruct (lease a); [done|]. destruct (_ || _); [|simpl; by rewrite asleep_endpoints]. simpl. by case_match.
Qed.

Lemma calm_target excluded now p :
  Forall2 calm (endpoints p) (endpoints (snd (select_connection_target_excluding excluded now p))).
Proof.
  unfold select_connection_target_excluding.
  set (selected := match algorithm p with RoundRobin => _ | _ => _ end). destruct selected as [c|]; simpl.
  - destruct (advance_same c p) as [-> _]. apply calm_list_refl.
  - apply calm_list_refl.
Qed.

Lemma calm_acquire l now p p' : lease_try_acquire l now p = Some p' -> Forall2 calm (endpoints p) (endpoints p').
Proof.
  unfold lease_try_acquire. destruct (endpoints p !! le_index l) as [e|] eqn:He; simpl; [|done].
  destruct (try_acquire_capacity e now) as [e'|] eqn:Ht; simpl; [|done]. intros [= <-].
  apply try_acquire_capacity_effect in Ht as (-> & Hc & _). eapply calm_insert; [done|].
  split_and!; [done..|]. by right.
Qed.

Lemma calm_dns name addresses p :
  Forall2 calm (endpoints p) (endpoints (administered (commit_server_dns name addresses p) p)).
Proof.
  unfold commit_server_dns. destruct (find_server name p) as [[i e]|] eqn:Hf; simpl; [|apply calm_list_refl].
  apply list_find_Some in Hf as (He & _). unfold commit_dns.
  destruct (negb (is_dns _)); simpl; [apply calm_list_refl|].
  destruct (reject_protected_addresses e addresses); simpl; [|apply calm_list_refl].
  eapply calm_insert; [done|]. destruct (pinned_addresses (server e)); split_and!; simpl; (done || left; lia).
Qed.

Lemma calm_record index healthy failure at_ ht ut now p :
  Forall2 calm (endpoints p) (endpoints (snd (record_health index healthy failure at_ ht ut now p))).
Proof.
  unfold record_health. destruct (endpoints p !! index) as [e|] eqn:He; simpl; [|apply calm_list_refl].
  pose proof (record_fixed e healthy failure at_ ht ut (passive_policy p) now) as Hc.
  destruct (record _ _ _ _ _ _ _ _) as [u e']. simpl in *. case_match; by eapply calm_insert.
Qed.

Lemma calm_passive index failure at_ p :
  Forall2 calm (endpoints p) (endpoints (record_passive_failure_at index failure at_ p)).
Proof.
  unfold record_passive_failure_at. destruct (endpoints p !! index) as [e|] eqn:He; simpl; [|apply calm_list_refl].
  pose proof (passive_fixed e failure at_ (passive_policy p)) as Hc.
  destruct (endpoint_record_passive_failure _ _ _ _) as [u e']. simpl in *. case_match; by eapply calm_insert.
Qed.

(** Only [set_server_max_connections] changes a limit. *)
Lemma run_op_calm n s op :
  system_inv n s -> match op with Op_limit _ _ => False | _ => True end ->
  Forall2 calm (endpoints (pool s)) (endpoints (pool (run_op s op))).
Proof.
  intros Hinv Hop. destruct op; simpl; try done; try apply calm_list_refl.
  - unfold select_excluding. destruct (select_server_excluding _ now (pool s)) as [a p1] eqn:Ha.
    apply (calm_attempt (Excluding _)) in Ha. by case_match.
  - destruct (fresh_waiter id (pool s)); [|apply calm_list_refl]. unfold wait_start.
    destruct (queue_timeout (pool s)); [apply calm_list_refl|].
    destruct (attempt r now (pool s)) as [a p1] eqn:Ha. apply calm_attempt in Ha. by case_match.
  - pose proof (calm_poll id now (pool s)) as H. by destruct (wait_poll id now (pool s)).
  - unfold wait_wake. repeat case_match; apply calm_list_refl.
  - unfold wait_timeout. repeat case_match; apply calm_list_refl.
  - pose proof (calm_target excluded now (pool s)) as H. by destruct (select_connection_target_excluding _ _ _).
  - destruct (find_lease id (leases s)) as [[k l]|]; [|apply calm_list_refl].
    destruct (le_acquired l); [apply calm_list_refl|].
    destruct (lease_try_acquire l now (pool s)) eqn:Ht; [|apply calm_list_refl]. by eapply calm_acquire.
  - destruct (find_lease id (leases s)) as [[k l]|]; [|apply calm_list_refl]. unfold lease_drop.
    simpl. destruct (le_acquired l); [|apply calm_list_refl]. simpl. apply calm_alter. intros e He.
    split_and!; [done..|]. left. apply decrement_le. rewrite (si_held _ _ Hinv _ _ He). apply held_bound.
  - unfold lifetime_wait. repeat case_match; apply calm_list_refl.
  - unfold lifetime_turn. repeat case_match; apply calm_list_refl.
  - unfold lifetime_timeout. repeat case_match; apply calm_list_refl.
  - unfold notify_reusable. case_match; apply calm_list_refl.
  - apply calm_record.
  - apply calm_passive.
  - apply calm_notified. intros e. by apply calm_fixed.
  - apply Forall2_fmap_r, Forall_Forall2_diag, Forall_forall. intros e _. by apply calm_fixed.
  - apply calm_notified. intros e. by apply calm_fixed.
  - apply calm_named. intros e. by apply calm_fixed.
  - apply calm_dns.
Qed.

Definition capped (p : EndpointPool) : Prop :=
  Forall (fun e => max_connections_override (administration e) = 0 /\
                   forall limit, max_connections (server e) = Some limit -> active_work e <= limit) (endpoints p).

Lemma capped_calm p p' : Forall2 calm (endpoints p) (endpoints p') -> capped p -> capped p'.
Proof.
  intros HF Hc. unfold capped in *. rewrite Forall_forall in *. intros e' [i He']%list_elem_of_lookup.
  destruct (Forall2_lookup_r _ _ _ _ _ HF He') as (e & He & (Ho & Hm & Hw)).
  destruct (Hc e ltac:(by eapply list_elem_of_lookup_2)) as [H0 Hlim]. split; [congruence|].
  intros limit Hl. rewrite Hm in Hl. specialize (Hlim _ Hl). destruct Hw as [?|[Hcap ->]]; [lia|].
  unfold has_capacity, endpoint_max_connections in Hcap. rewrite H0, Hl in Hcap. simpl in Hcap. bool_inv. lia.
Qed.

Lemma capped_run n s ops :
  system_inv n s -> n + len ops <= u64_max -> capped (pool s) ->
  Forall (fun op => match op with Op_limit _ _ => False | _ => True end) ops -> capped (pool (run_ops s ops)).
Proof.
  revert n s. induction ops as [|op ops IH]; intros n s H Hn Hc Hops; [done|]. simpl.
  apply Forall_cons in Hops as [Hop Hops]. rewrite len_cons in Hn. pose proof (len_nonneg ops).
  apply (IH (n + 1)); [apply run_op_inv; [done|lia]|lia| |done].
  eapply capped_calm; [by eapply run_op_calm|done].
Qed.

(** ** A pool from its start *)

Definition started (name : bytes) (servers : list RuntimeServer) (a : UpstreamAlgorithm) (startup : option HealthStartup)
    (timeout : option Z) (policy : PassiveFailurePolicy) (p : EndpointPool) : Prop :=
  new_named_servers_with_policy name servers a startup timeout policy = Ok p /\
  match a with WeightedRoundRobin weights => Forall (fun w => 0 <= w) weights | _ => True end /\
  Forall (fun s => forall limit, max_connections s = Some limit -> 0 <= limit) servers.

Lemma started_compiled name servers a startup timeout policy p :
  started name servers a startup timeout policy p ->
  exists bp, compile_blueprint a (length servers) = Ok bp /\ p = acquire_compiled name servers startup timeout policy a bp.
Proof.
  intros (H & _). unfold new_named_servers_with_policy in H. res_inv. eexists. split; [done|congruence].
Qed.

Lemma fresh_endpoint name servers a startup timeout policy bp i e :
  endpoints (acquire_compiled name servers startup timeout policy a bp) !! i = Some e ->
  exists s w, servers !! i = Some s /\ e = PoolEndpoint_new s startup w.
Proof. simpl. intros (s & w & -> & Hs & _)%lookup_zip_with_Some. by exists s, w. Qed.

Lemma started_inv name servers a startup timeout policy p :
  started name servers a startup timeout policy p -> system_inv 0 (mkSystem p []) /\ capped p.
Proof.
  intros Hst. destruct (started_compiled _ _ _ _ _ _ _ Hst) as (bp & Hbp & ->). destruct Hst as (_ & Hw & Hlim).
  split.
  - split; [by apply acquire_compiled_ok| |done|done|by repeat constructor|done]. by intros i e (s & w & _ & ->)%(fresh_endpoint name _ a _ timeout policy bp).
  - apply Forall_forall. intros e [i (s & w & Hs & ->)%fresh_endpoint]%list_elem_of_lookup.
    split; [done|]. simpl. rewrite Forall_forall in Hlim. apply Hlim. by eapply list_elem_of_lookup_2.
Qed.

(** A step that gives out a lease leaves the endpoint within the limit in force. *)
Lemma raised_within n s op i e limit :
  system_inv n s -> n < u64_max -> endpoints (pool (run_op s op)) !! i = Some e ->
  endpoint_max_connections e = Some limit -> held i (leases s) < held i (leases (run_op s op)) ->
  held i (leases (run_op s op)) <= limit.
Proof.
  intros Hinv Hn He Hl Hlt. pose proof (run_op_inv n s op Hinv ltac:(lia)) as Hinv'.
  destruct (match op with Op_limit _ _ => true | _ => false end) eqn:Hop; [by destruct op; simpl in Hlt; try lia|].
  pose proof (run_op_calm n s op Hinv ltac:(by destruct op)) as HF.
  destruct (Forall2_lookup_r _ _ _ _ _ HF He) as (e0 & He0 & (Ho & Hm & Hw)).
  rewrite <- (si_held _ _ Hinv' _ _ He) in *. rewrite <- (si_held _ _ Hinv _ _ He0) in Hlt.
  destruct Hw as [?|[Hcap ->]]; [lia|]. unfold has_capacity, endpoint_max_connections in *.
  rewrite Ho, Hm in Hl. rewrite Hl in Hcap. bool_inv. lia.
Qed.

Lemma run_ops_app s ops ops' : run_ops s (ops ++ ops') = run_ops (run_ops s ops) ops'.
Proof. unfold run_ops. by rewrite foldl_app. Qed.

(** C7: In whatever order requests select, wait, time out and give up,
    connectors acquire and drop leases, probes report and the pool is
    administered, the load counted on every endpoint is the number of leases
    held on it, and the number of queued requests is the number of requests that
    wait.  An operation that adds to the load of an endpoint leaves it within the
    limit in force then; where no limit is changed, the load is within the limit
    at any time.  (An operator who lowers a limit does not end leases that are
    held.) *)
Theorem pool_load_exact (name : bytes) (servers : list RuntimeServer) (a : UpstreamAlgorithm)
    (startup : option HealthStartup) (timeout : option Z) (policy : PassiveFailurePolicy) (p : EndpointPool)
    (ops : list PoolOp) :
  started name servers a startup timeout policy p -> len ops <= u64_max ->
  let s := run_ops (mkSystem p []) ops in
  (forall i e, endpoints (pool s) !! i = Some e -> active_work e = held i (leases s)) /\
  queued (queue (pool s)) = len (filter (fun w => w_waiting w = true) (waiters (queue (pool s)))) /\
  (forall earlier op i e limit, ops = earlier ++ [op] ->
   endpoints (pool s) !! i = Some e -> endpoint_max_connections e = Some limit ->
   held i (leases (run_ops (mkSystem p []) earlier)) < held i (leases s) -> held i (leases s) <= limit) /\
  (Forall (fun op => match op with Op_limit _ _ => False | _ => True end) ops ->
   forall i e limit, endpoints (pool s) !! i = Some e -> max_connections (server e) = Some limit ->
     held i (leases s) <= limit).
Proof.
  intros [H0 Hc]%started_inv Hlen s. pose proof (run_ops_inv 0 _ ops H0 Hlen) as H. fold s in H.
  split_and!; [apply H|apply H| |].
  - intros earlier op i e limit Hops He Hl. subst s ops. rewrite run_ops_app in *. rewrite len_app, len_cons, len_nil in Hlen.
    apply (raised_within (len earlier) _ op i e); [|lia|done|done].
    pose proof (run_ops_inv 0 _ earlier H0 ltac:(lia)) as Hi. by rewrite Z.add_0_l in Hi.
  - intros Hops i e limit He Hl. rewrite <- (si_held _ _ H _ _ He).
    pose proof (capped_run 0 _ ops H0 Hlen Hc Hops) as Hcap. fold s in Hcap. unfold capped in Hcap.
    rewrite Forall_forall in Hcap. apply (Hcap e ltac:(by eapply list_elem_of_lookup_2)). done.
Qed.

(** Time alone makes an endpoint selectable only by ending its ejection. *)
Lemma serves_later p r t now i e :
  serves p r now i e -> passively_ejected_at e t = false -> serves p r t i e.
Proof.
  intros Hs Ht. assert (selectable_at e now = true -> selectable_at e t = true) as Hsel.
  { unfold selectable_at. rewrite Ht. intros H. bool_inv. simpl. by rewrite bool_decide_eq_true_2. }
  unfold serves in *. destruct r as [names|name].
  - unfold eligible in *. apply andb_true_iff in Hs as [Hs ->]. by rewrite Hsel.
  - destruct Hs as [Hf Hs]. auto.
Qed.

(** C8: No wakeup is lost: whatever happened, let a request at the front of the
    queue sleep without having been notified.  An endpoint that it could be given
    at any time, as the endpoint is now, has no room left, unless it was ejected
    for passive failures when the request last tried and that ejection has run
    out: the end of an ejection is the one thing that is not announced.  A
    connector that sleeps and has not been woken saw the current generation. *)
Theorem pool_no_lost_wakeup (name : bytes) (servers : list RuntimeServer) (a : UpstreamAlgorithm)
    (startup : option HealthStartup) (timeout : option Z) (policy : PassiveFailurePolicy) (p : EndpointPool)
    (ops : list PoolOp) (w : Waiter) (ws : list Waiter) (i : nat) (e : PoolEndpoint) (now : Z) :
  started name servers a startup timeout policy p -> len ops <= u64_max ->
  let s := run_ops (mkSystem p []) ops in
  Forall (fun l => l_woken l = false -> l_generation l = generation (queue (pool s)))
    (lifetime_waiters (queue (pool s))) /\
  (waiters (queue (pool s)) = w :: ws -> w_asleep w = true -> w_permit w = false ->
   endpoints (pool s) !! i = Some e -> serves (pool s) (w_request w) now i e ->
   has_capacity e = false \/
   passively_ejected_at e (w_attempted_at w) = true /\ passively_ejected_at e now = false).
Proof.
  intros [H0 _]%started_inv Hlen s. pose proof (run_ops_inv 0 _ ops H0 Hlen) as H. fold s in H.
  split; [apply H|]. intros Hw Ha Hp He Hs. pose proof (si_settled _ _ H) as Hset. unfold settled in Hset.
  rewrite Hw in Hset. destruct (passively_ejected_at e (w_attempted_at w)) eqn:Hej.
  - right. split; [done|]. assert (selectable_at e now = true) as Hsel.
    { unfold serves, eligible in Hs. destruct (w_request w); [by apply andb_true_iff in Hs as [? _]|by destruct Hs]. }
    unfold selectable_at in Hsel. by destruct (passively_ejected_at e now); [rewrite andb_false_r in Hsel|].
  - left. eapply (Hset Ha Hp); [exact He|]. by eapply serves_later.
Qed.

(** One endpoint with one connection: the second request waits, and is told
    when the first lets go. *)
Definition small_pool : EndpointPool :=
  acquire_compiled (lit "web") [example_server 1 (Some 1)] None (Some 1) example_policy RoundRobin ([1], []).

Lemma small_pool_started :
  started (lit "web") [example_server 1 (Some 1)] RoundRobin None (Some 1) example_policy small_pool.
Proof.
  split; [by vm_compute|]. split; [done|]. repeat constructor. by intros limit [= <-].
Qed.

Definition small_run : list PoolOp :=
  [Op_wait 0 (Excluding []) 5; Op_poll 0 5; Op_wait 1 (Excluding []) 6; Op_poll 1 6].

Lemma pool_load_exact_witness :
  held 0 (leases (run_ops (mkSystem small_pool []) small_run)) = 1 /\
  queued (queue (pool (run_ops (mkSystem small_pool []) small_run))) = 1.
Proof.
  destruct (pool_load_exact (lit "web") [example_server 1 (Some 1)] RoundRobin None (Some 1) example_policy small_pool
              small_run small_pool_started ltac:(by vm_compute)) as (_ & Hq & _ & _).
  split; [by vm_compute|]. rewrite Hq. by vm_compute.
Defined.

Lemma pool_no_lost_wakeup_witness :
  exists w e, waiters (queue (pool (run_ops (mkSystem small_pool []) small_run))) = [w] /\ w_asleep w = true /\
  endpoints (pool (run_ops (mkSystem small_pool []) small_run)) !! 0%nat = Some e /\ has_capacity e = false.
Proof.
  pose (w := mkWaiter 1 (Excluding []) true false true 6).
  pose (e := set_active_work 1 (PoolEndpoint_new (example_server 1 (Some 1)) None 1)).
  assert (waiters (queue (pool (run_ops (mkSystem small_pool []) small_run))) = [w]) as Hw by by vm_compute.
  assert (endpoints (pool (run_ops (mkSystem small_pool []) small_run)) !! 0%nat = Some e) as He by by vm_compute.
  exists w, e. split_and!; [done|done|done|].
  destruct (pool_no_lost_wakeup (lit "web") [example_server 1 (Some 1)] RoundRobin None (Some 1) example_policy small_pool
              small_run w [] 0 e 6 small_pool_started ltac:(by vm_compute)) as (_ & H).
  destruct (H Hw eq_refl eq_refl He ltac:(by vm_compute)) as [Hc|[_ Hc]]; [exact Hc|by vm_compute].
Defined.

(** The end of an ejection is not announced: a request that found the other
    endpoint full while this one was ejected sleeps on, without a permit, at a
    time when this one could serve it, until its deadline passes. *)
Theorem expired_ejection_unnoticed :
  let policy := PassiveFailurePolicy_new 1 nanos_per_sec (4 * nanos_per_sec) in
  let p := acquire_compiled (lit "web") [example_server 1 (Some 1); example_server 2 (Some 1)] None (Some 1) policy
             RoundRobin ([1; 1], []) in
  let s := run_ops (mkSystem p [])
             [Op_passive 1 ConnectFailed 0; Op_wait 0 (Excluding []) 5; Op_poll 0 5; Op_wait 1 (Excluding []) 6; Op_poll 1 6] in
  has_available 1000 (pool s) = true /\
  waiters (queue (pool s)) = [mkWaiter 1 (Excluding []) true false true 6] /\
  fst (wait_timeout 1 (pool s)) = Returned None.
Proof. by vm_compute. Qed.
