(* ===== verification/ProxyProtocol.v ===== *)
(** The PROXY protocol ([oxiroute-server/src/proxy_protocol.rs]): parsing and
    encoding the version 1 and 2 headers, reading a header off a stream that
    delivers bytes in pieces of any size, and the stream that replays what was
    read beyond the header. *)

From stdpp Require Import base list strings.
From Stdlib Require Import ZArith Lia Strings.Byte.
From S2P Require Import Prelude Bytes Http Net.

Open Scope Z_scope.

(** ** Constants and data *)

Definition MAX_V1_HEADER_BYTES : Z := 108.
Definition MAX_V2_PAYLOAD_BYTES : Z := u16_max.
Definition MAX_V2_HEADER_BYTES : Z := 16 + MAX_V2_PAYLOAD_BYTES.
Definition V1_SIGNATURE : bytes := lit "PROXY ".
Definition V2_SIGNATURE : bytes := [x0d; x0a; x0d; x0a; x00; x0d; x0a; x51; x55; x49; x54; x0a].
Definition V2_HEADER_BYTES : Z := 16.

Inductive ProxyProtocolVersion : Type := Version_V1 | Version_V2 | Version_Auto.
Inductive ProxyProtocolTransport : Type := Stream | Datagram.

#[export] Instance ProxyProtocolVersion_eq_dec : EqDecision ProxyProtocolVersion.
Proof. solve_decision. Defined.
#[export] Instance ProxyProtocolTransport_eq_dec : EqDecision ProxyProtocolTransport.
Proof. solve_decision. Defined.

Inductive ProxyProtocolResult : Type :=
| Result_Accepted | Result_Sent | Result_Timeout | Result_Cancelled | Result_Malformed
| Result_Unsupported | Result_Mismatch | Result_IoError.

Definition ProxyProtocolResult_ALL : list ProxyProtocolResult :=
  [Result_Accepted; Result_Sent; Result_Timeout; Result_Cancelled; Result_Malformed;
   Result_Unsupported; Result_Mismatch; Result_IoError].

Definition ProxyProtocolResult_index (r : ProxyProtocolResult) : nat :=
  match r with
  | Result_Accepted => 0
  | Result_Sent => 1
  | Result_Timeout => 2
  | Result_Cancelled => 3
  | Result_Malformed => 4
  | Result_Unsupported => 5
  | Result_Mismatch => 6
  | Result_IoError => 7
  end.

Inductive ProxyProtocolErrorKind : Type :=
| Cancelled | Timeout | UnexpectedEof | InvalidSignature | HeaderTooLarge | InvalidVersion
| UnsupportedCommand | UnsupportedFamily | ProtocolMismatch | InvalidAddress | InvalidPort
| InvalidLength | Io.

Definition ProxyProtocolErrorKind_result (k : ProxyProtocolErrorKind) : ProxyProtocolResult :=
  match k with
  | Cancelled => Result_Cancelled
  | Timeout => Result_Timeout
  | UnsupportedCommand | UnsupportedFamily => Result_Unsupported
  | ProtocolMismatch => Result_Mismatch
  | Io => Result_IoError
  | UnexpectedEof | InvalidSignature | HeaderTooLarge | InvalidVersion | InvalidAddress
  | InvalidPort | InvalidLength => Result_Malformed
  end.

(** An I/O error is known by its number. *)
Record ProxyProtocolError : Type := mkProxyProtocolError {
  kind : ProxyProtocolErrorKind;
  source_error : option Z;
}.

Definition ProxyProtocolError_new (k : ProxyProtocolErrorKind) : ProxyProtocolError :=
  mkProxyProtocolError k None.
Definition ProxyProtocolError_io (source : Z) : ProxyProtocolError :=
  mkProxyProtocolError Io (Some source).
Definition ProxyProtocolError_result (e : ProxyProtocolError) : ProxyProtocolResult :=
  ProxyProtocolErrorKind_result (kind e).

Record ParsedProxyHeader : Type := mkParsedProxyHeader {
  version : ProxyProtocolVersion;
  source : SocketAddr;
  destination : SocketAddr;
  consumed : Z;
}.

Abbreviation fail_with k := (Err (ProxyProtocolError_new k)).
Abbreviation Parsed := (result (option ParsedProxyHeader) ProxyProtocolError).

(** ** Parsing *)

(** [input[i]], for an index the code has checked. *)
Definition byte_at (input : bytes) (i : nat) : Z := b2z (nth i input x00).

(** [input.windows(2).position(|window| window == b"\r\n")]. *)
Fixpoint find_crlf (input : bytes) : option nat :=
  match input with
  | a :: (b :: _) as rest =>
      if Byte.eqb a x0d && Byte.eqb b x0a then Some 0%nat else S <$> find_crlf rest
  | _ => None
  end.

Definition parse_socket_addr (address port : bytes) (is_v4 : bool) :
    result SocketAddr ProxyProtocolError :=
  let? address := ok_or (ProxyProtocolError_new InvalidAddress) (parse_ip address) in
  if negb (Bool.eqb (is_ipv4 address) is_v4) then fail_with UnsupportedFamily
  else
    let? port := ok_or (ProxyProtocolError_new InvalidPort) (parse_uint u16_max port) in
    Ok (mkSocketAddr address port).

Definition parse_v1 (input : bytes) (transport : ProxyProtocolTransport) : Parsed :=
  if bool_decide (transport <> Stream) then fail_with ProtocolMismatch
  else if len input <? len V1_SIGNATURE then
    if starts_with V1_SIGNATURE input then Ok None else fail_with InvalidSignature
  else if negb (starts_with input V1_SIGNATURE) then
    if starts_with input V2_SIGNATURE then fail_with ProtocolMismatch else fail_with InvalidSignature
  else
    match find_crlf input with
    | None => if MAX_V1_HEADER_BYTES <=? len input then fail_with HeaderTooLarge else Ok None
    | Some line_end =>
        let consumed := Z.of_nat line_end + 2 in
        if MAX_V1_HEADER_BYTES <? consumed then fail_with HeaderTooLarge
        else
          let line := take line_end input in
          if negb (utf8_valid line) then fail_with InvalidSignature
          else
            match split x20 line with
            | [a; b] =>
                if beqb a (lit "PROXY") && beqb b (lit "UNKNOWN")
                then fail_with UnsupportedCommand else fail_with InvalidSignature
            | [proxy; family; source; destination; source_port; destination_port] =>
                if negb (beqb proxy (lit "PROXY")) then fail_with InvalidSignature
                else
                  let? is_v4 :=
                    if beqb family (lit "TCP4") then Ok true
                    else if beqb family (lit "TCP6") then Ok false
                    else if beqb family (lit "UNKNOWN") then fail_with UnsupportedCommand
                    else fail_with UnsupportedFamily in
                  let? source := parse_socket_addr source source_port is_v4 in
                  let? destination := parse_socket_addr destination destination_port is_v4 in
                  Ok (Some (mkParsedProxyHeader Version_V1 source destination consumed))
            | _ => fail_with InvalidSignature
            end
    end.

Definition parse_v2 (input : bytes) (transport : ProxyProtocolTransport) : Parsed :=
  if len input <? len V2_SIGNATURE then
    if starts_with V2_SIGNATURE input then Ok None else fail_with InvalidSignature
  else if negb (starts_with input V2_SIGNATURE) then
    if starts_with input V1_SIGNATURE then fail_with ProtocolMismatch else fail_with InvalidSignature
  else if len input <? V2_HEADER_BYTES then Ok None
  else if negb (Z.shiftr (byte_at input 12) 4 =? 2) then fail_with InvalidVersion
  else if negb (Z.land (byte_at input 12) 0x0f =? 1) then fail_with UnsupportedCommand
  else
    let family := Z.shiftr (byte_at input 13) 4 in
    let protocol := Z.land (byte_at input 13) 0x0f in
    let? is_v4 := if family =? 1 then Ok true
                  else if family =? 2 then Ok false else fail_with UnsupportedFamily in
    let expected_protocol := match transport with Stream => 1 | Datagram => 2 end in
    if negb (protocol =? expected_protocol) then fail_with ProtocolMismatch
    else
      let payload_len := be_value (slice input 14 16) in
      let address_len := if (is_v4 : bool) then 12 else 36 in
      if payload_len <? address_len then fail_with InvalidLength
      else
        let consumed := V2_HEADER_BYTES + payload_len in
        if len input <? consumed then Ok None
        else
          let address := slice input V2_HEADER_BYTES (V2_HEADER_BYTES + address_len) in
          let '(source, destination) :=
            if is_v4
            then (mkSocketAddr (V4 (be_value (slice address 0 4))) (be_value (slice address 8 10)),
                  mkSocketAddr (V4 (be_value (slice address 4 8))) (be_value (slice address 10 12)))
            else (mkSocketAddr (V6 (be_value (slice address 0 16))) (be_value (slice address 32 34)),
                  mkSocketAddr (V6 (be_value (slice address 16 32))) (be_value (slice address 34 36))) in
          Ok (Some (mkParsedProxyHeader Version_V2 source destination consumed)).

Definition parse_header (input : bytes) (configured_version : ProxyProtocolVersion)
    (transport : ProxyProtocolTransport) : Parsed :=
  match input with
  | [] => Ok None
  | first :: _ =>
      match configured_version with
      | Version_V1 => parse_v1 input transport
      | Version_V2 => parse_v2 input transport
      | Version_Auto =>
          if Byte.eqb first (nth 0 V1_SIGNATURE x00) then parse_v1 input transport
          else if Byte.eqb first (nth 0 V2_SIGNATURE x00) then parse_v2 input transport
          else fail_with InvalidSignature
      end
  end.

(** ** Encoding *)

Definition encode_header (version : ProxyProtocolVersion) (transport : ProxyProtocolTransport)
    (source destination : SocketAddr) : result bytes ProxyProtocolError :=
  if negb (Bool.eqb (is_ipv4 (ip source)) (is_ipv4 (ip destination))) then fail_with ProtocolMismatch
  else
    match version with
    | Version_V1 =>
        if bool_decide (transport <> Stream) then fail_with ProtocolMismatch
        else
          let family := if is_ipv4 (ip source) then lit "TCP4" else lit "TCP6" in
          let value := lit "PROXY " ++ family ++ lit " " ++ display_ip (ip source) ++ lit " " ++
            display_ip (ip destination) ++ lit " " ++ dec_string (port source) ++ lit " " ++
            dec_string (port destination) ++ [x0d; x0a] in
          if MAX_V1_HEADER_BYTES <? len value then fail_with HeaderTooLarge else Ok value
    | Version_V2 =>
        let family := match is_ipv4 (ip source), transport with
                      | true, Stream => 0x11
                      | true, Datagram => 0x12
                      | false, Stream => 0x21
                      | false, Datagram => 0x22
                      end in
        let address_len := if is_ipv4 (ip source) then 12 else 36 in
        let? encoded_address_len :=
          try_from_uint u16_max (ProxyProtocolError_new HeaderTooLarge) address_len in
        Ok (V2_SIGNATURE ++ [z2b 0x21; z2b family] ++ be_bytes 2 encoded_address_len ++
            octets (ip source) ++ octets (ip destination) ++
            be_bytes 2 (port source) ++ be_bytes 2 (port destination))
    | Version_Auto => fail_with ProtocolMismatch
    end.

(** ** Streams *)

(** [AsyncRead]: a read into a buffer of [n] bytes; no bytes mean the end. *)
Class AsyncRead (R : Type) := read : R -> Z -> result bytes Z * R.

Record PrefixedStream (R : Type) : Type := mkPrefixedStream {
  prefix : bytes;
  prefix_offset : nat;
  inner : R;
}.
Arguments mkPrefixedStream {R} prefix prefix_offset inner.
Arguments prefix {R} p.
Arguments prefix_offset {R} p.
Arguments inner {R} p.

Definition PrefixedStream_new {R} (inner : R) (prefix : bytes) : PrefixedStream R :=
  mkPrefixedStream prefix 0 inner.

(** [poll_read]. *)
#[export] Instance PrefixedStream_read `{AsyncRead R} : AsyncRead (PrefixedStream R) := fun w n =>
  if (prefix_offset w <? length (prefix w))%nat then
    let remaining := drop (prefix_offset w) (prefix w) in
    let count := (length remaining `min` Z.to_nat n)%nat in
    (Ok (take count remaining), mkPrefixedStream (prefix w) (prefix_offset w + count) (inner w))
  else
    let '(r, i) := read (inner w) n in (r, mkPrefixedStream (prefix w) (prefix_offset w) i).

Record AcceptedProxyStream (R : Type) : Type := mkAcceptedProxyStream {
  stream : PrefixedStream R;
  header : ParsedProxyHeader;
}.
Arguments mkAcceptedProxyStream {R} stream header.
Arguments stream {R} a.
Arguments header {R} a.

(** ** Reading a header *)

Definition read_limit (input : bytes) (version : ProxyProtocolVersion) : option Z :=
  let maximum := match version with
                 | Version_V1 => MAX_V1_HEADER_BYTES
                 | Version_V2 | Version_Auto => MAX_V2_HEADER_BYTES
                 end in
  expected ← (if (V2_HEADER_BYTES <=? len input) && starts_with input V2_SIGNATURE
              then checked_add usize_max V2_HEADER_BYTES (be_value (slice input 14 16))
              else Some maximum);
  if len input <? expected then Some (expected - len input) else None.

(** What may come before a read completes: the shutdown signal, which the
    [select!] prefers, or the end of the time allowed. *)
Inductive Interrupt : Type := ShutdownSignalled | TimeElapsed.

(** Why no header was accepted. *)
Inductive Stop : Type := Failed (e : ProxyProtocolError) | Elapsed.

Section Accept.
Context {R : Type} `{!AsyncRead R}.
Variable interrupt : nat -> option Interrupt.

(** The loop of [accept_stream_inner], in which [step] counts the reads; [None]
    when the fuel is used up. *)
Fixpoint accept_loop (fuel step : nat) (w : R) (version : ProxyProtocolVersion) (collected : bytes) :
    option (result (AcceptedProxyStream R) Stop) :=
  match fuel with
  | O => None
  | S fuel =>
      match read_limit collected version with
      | None => Some (Err (Failed (ProxyProtocolError_new HeaderTooLarge)))
      | Some limit =>
          match interrupt step with
          | Some ShutdownSignalled => Some (Err (Failed (ProxyProtocolError_new Cancelled)))
          | Some TimeElapsed => Some (Err Elapsed)
          | None =>
              match read w limit with
              | (Err e, _) => Some (Err (Failed (ProxyProtocolError_io e)))
              | (Ok [], _) => Some (Err (Failed (ProxyProtocolError_new UnexpectedEof)))
              | (Ok scratch, w') =>
                  let collected := collected ++ scratch in
                  match parse_header collected version Stream with
                  | Err e => Some (Err (Failed e))
                  | Ok (Some header) =>
                      let prefix := drop (Z.to_nat (consumed header)) collected in
                      Some (Ok (mkAcceptedProxyStream (PrefixedStream_new w' prefix) header))
                  | Ok None => accept_loop fuel (step + 1) w' version collected
                  end
              end
          end
      end
  end.

(** A read brings at least one byte, and the longest header has
    [MAX_V2_HEADER_BYTES]. *)
Definition accept_stream_inner (w : R) (version : ProxyProtocolVersion) :
    option (result (AcceptedProxyStream R) Stop) :=
  accept_loop (Z.to_nat MAX_V2_HEADER_BYTES) 0 w version [].

Definition accept_stream (w : R) (version : ProxyProtocolVersion) :
    option (result (AcceptedProxyStream R) ProxyProtocolError) :=
  map_err (fun stop => match stop with Failed e => e | Elapsed => ProxyProtocolError_new Timeout end)
    <$> accept_stream_inner w version.
End Accept.

(** ** More input does not change a verdict *)

Lemma starts_with_app s x p : len p <= len s -> starts_with (s ++ x) p = starts_with s p.
Proof.
  unfold len. revert s; induction p as [|b p IH]; intros s H; [by destruct s|].
  destruct s as [|c s]; simpl in *; [lia|]. by rewrite IH by lia.
Qed.

Lemma slice_app {A} (s x : list A) a b :
  0 <= a <= b -> b <= len s -> slice (s ++ x) a b = slice s a b.
Proof.
  unfold slice, len. intros Hab H. rewrite drop_app_le, take_app_le; [done|rewrite length_drop; lia|lia].
Qed.

Lemma byte_at_app s x i : Z.of_nat i < len s -> byte_at (s ++ x) i = byte_at s i.
Proof. unfold byte_at, len. intros. by rewrite app_nth1 by lia. Qed.

Lemma find_crlf_cons a b s :
  find_crlf (a :: b :: s) =
  if Byte.eqb a x0d && Byte.eqb b x0a then Some 0%nat else S <$> find_crlf (b :: s).
Proof. done. Qed.

Lemma find_crlf_app s x k : find_crlf s = Some k -> find_crlf (s ++ x) = Some k.
Proof.
  revert k; induction s as [|a [|b s] IH]; intros k H; [done|done|]. rewrite <- !app_comm_cons in *.
  rewrite find_crlf_cons in H |- *. destruct (_ && _); [done|].
  apply fmap_Some in H as (j & H & ->). by rewrite (IH j H).
Qed.

Lemma find_crlf_new s x k : find_crlf s = None -> find_crlf (s ++ x) = Some k -> (length s <= k + 1)%nat.
Proof.
  revert k; induction s as [|a [|b s] IH]; intros k Hs H; [simpl; lia|simpl; lia|].
  rewrite <- !app_comm_cons in *. rewrite find_crlf_cons in H, Hs. destruct (_ && _); [done|].
  apply fmap_Some in H as (j & H & ->). apply fmap_None in Hs. specialize (IH j Hs H). simpl in *. lia.
Qed.

Lemma find_crlf_bound s k : find_crlf s = Some k -> (k + 2 <= length s)%nat.
Proof.
  revert k; induction s as [|a [|b s] IH]; intros k H; [done|done|]. rewrite find_crlf_cons in H.
  destruct (_ && _); [injection H as <-; simpl; lia|].
  apply fmap_Some in H as (j & H & ->). specialize (IH j H). simpl in *. lia.
Qed.

(** The verdict on a prefix holds for the longer input: a header stays the same
    header and an error the same error, but for one case: an input with the
    signature of the [other] version, of which the prefix is too short to show
    it. *)
Definition same_error (other : bool) (e e' : ProxyProtocolError) : Prop :=
  e = e' \/ other = true /\ e = ProxyProtocolError_new InvalidSignature /\ e' = ProxyProtocolError_new ProtocolMismatch.

Definition agrees (other : bool) (r r' : Parsed) : Prop :=
  match r with
  | Ok None => True
  | Ok (Some h) => r' = Ok (Some h)
  | Err e => exists e', r' = Err e' /\ same_error other e e'
  end.

Lemma agrees_refl other r : agrees other r r.
Proof. destruct r as [[h|]|e]; simpl; unfold same_error; eauto. Qed.

(** A prefix without either signature, and the longer input. *)
Lemma agrees_signature other : agrees other (fail_with InvalidSignature)
  (if other then fail_with ProtocolMismatch else fail_with InvalidSignature).
Proof. destruct other; eexists; (split; [done|]); unfold same_error; auto. Qed.

(** A text that is not a prefix of the signature never becomes one that starts
    with it. *)
Lemma not_prefix_app s p x :
  len s < len p -> starts_with p s = false -> starts_with (s ++ x) p = false.
Proof.
  intros Hlen H. destruct (starts_with (s ++ x) p) eqn:E; [|done]. apply starts_with_spec in E as [t Ht].
  assert (starts_with p s = true); [|congruence]. apply starts_with_spec.
  exists (drop (length s) p). rewrite <- (take_drop (length s) p) at 1. f_equal.
  apply (f_equal (take (length s))) in Ht. unfold len in Hlen.
  by rewrite take_app_length, take_app_le in Ht by lia.
Qed.

Lemma prefix_grows s p x :
  starts_with p s = false -> starts_with p (s ++ x) = false.
Proof.
  intros H. destruct (starts_with p (s ++ x)) eqn:E; [|done]. apply starts_with_spec in E as [t Ht].
  assert (starts_with p s = true); [|congruence]. apply starts_with_spec.
  exists (x ++ t). by rewrite Ht, app_assoc.
Qed.

Lemma agrees_err other e : agrees other (Err e) (Err e).
Proof. apply agrees_refl. Qed.

Lemma starts_with_longer s x p : starts_with s p = true -> starts_with (s ++ x) p = true.
Proof. rewrite !starts_with_spec. intros [t ->]. exists (t ++ x). by rewrite app_assoc. Qed.

Lemma parse_v1_app s x t : agrees (starts_with (s ++ x) V2_SIGNATURE) (parse_v1 s t) (parse_v1 (s ++ x) t).
Proof.
  unfold parse_v1. case_bool_decide; [apply agrees_err|]. pose proof (len_nonneg x).
  destruct (Z.ltb_spec (len s) (len V1_SIGNATURE)) as [Hs|Hs].
  { destruct (starts_with V1_SIGNATURE s) eqn:E; [done|].
    rewrite (prefix_grows _ _ x E), (not_prefix_app _ _ x Hs E). cbn [negb].
    case_match; [apply agrees_err|apply agrees_signature]. }
  rewrite len_app, (proj2 (Z.ltb_ge (len s + len x) _)) by lia.
  rewrite (starts_with_app s x V1_SIGNATURE) by done.
  destruct (starts_with s V1_SIGNATURE) eqn:E; cbn [negb].
  2: { destruct (starts_with s V2_SIGNATURE) eqn:E2; [rewrite (starts_with_longer s x V2_SIGNATURE E2); apply agrees_err|].
       apply agrees_signature. }
  destruct (find_crlf s) as [k|] eqn:F.
  - rewrite (find_crlf_app s x k F). rewrite take_app_le; [apply agrees_refl|].
    apply find_crlf_bound in F. lia.
  - destruct (Z.leb_spec MAX_V1_HEADER_BYTES (len s)) as [Hl|]; [|done].
    destruct (find_crlf (s ++ x)) as [k|] eqn:F'.
    + pose proof (find_crlf_new s x k F F'). unfold len in Hl.
      rewrite (proj2 (Z.ltb_lt _ (Z.of_nat k + 2))) by lia. apply agrees_err.
    + rewrite (proj2 (Z.leb_le _ (len s + len x))) by lia. apply agrees_err.
Qed.

Lemma parse_v2_app s x t : agrees (starts_with (s ++ x) V1_SIGNATURE) (parse_v2 s t) (parse_v2 (s ++ x) t).
Proof.
  unfold parse_v2. pose proof (len_nonneg x).
  destruct (Z.ltb_spec (len s) (len V2_SIGNATURE)) as [Hs|Hs].
  { destruct (starts_with V2_SIGNATURE s) eqn:E; [done|].
    rewrite (prefix_grows _ _ x E), (not_prefix_app _ _ x Hs E). cbn [negb].
    case_match; [apply agrees_err|apply agrees_signature]. }
  rewrite len_app, (proj2 (Z.ltb_ge (len s + len x) (len V2_SIGNATURE))) by lia.
  rewrite (starts_with_app s x V2_SIGNATURE) by done.
  destruct (starts_with s V2_SIGNATURE) eqn:E; cbn [negb].
  2: { destruct (starts_with s V1_SIGNATURE) eqn:E2; [rewrite (starts_with_longer s x V1_SIGNATURE E2); apply agrees_err|].
       apply agrees_signature. }
  destruct (Z.ltb_spec (len s) V2_HEADER_BYTES) as [|Hh]; [done|].
  rewrite (proj2 (Z.ltb_ge (len s + len x) V2_HEADER_BYTES)) by lia. unfold V2_HEADER_BYTES in Hh.
  rewrite !byte_at_app by lia. rewrite (slice_app s x 14 16) by lia.
  do 2 (case_match; [apply agrees_err|]). match goal with |- context [result_bind ?r _] => destruct r as [a|e] end;
    cbn [result_bind]; [|apply agrees_err].
  destruct (negb (_ =? match t with Stream => 1 | Datagram => 2 end)); [apply agrees_err|].
  destruct (Z.ltb_spec (be_value (slice s 14 16)) (if a then 12 else 36)); [apply agrees_err|].
  destruct (Z.ltb_spec (len s) (V2_HEADER_BYTES + be_value (slice s 14 16))) as [|Hc]; [done|].
  rewrite (proj2 (Z.ltb_ge (len s + len x) _)) by lia. unfold V2_HEADER_BYTES in *. bool_inv.
  rewrite slice_app; [apply agrees_refl|destruct a; lia|destruct a; lia].
Qed.

(** The input has the signature of the version that is not configured. *)
Definition other_version (v : ProxyProtocolVersion) (input : bytes) : bool :=
  match v with
  | Version_V1 => starts_with input V2_SIGNATURE
  | Version_V2 => starts_with input V1_SIGNATURE
  | Version_Auto => false
  end.

Lemma parse_header_app s x v t : agrees (other_version v (s ++ x)) (parse_header s v t) (parse_header (s ++ x) v t).
Proof.
  destruct s as [|b s]; [done|]. unfold parse_header. cbn [app]. rewrite app_comm_cons.
  destruct v; [apply parse_v1_app|apply parse_v2_app|]. cbn [other_version].
  pose proof (parse_v1_app (b :: s) x t) as H1. pose proof (parse_v2_app (b :: s) x t) as H2.
  destruct (Byte.eqb b (nth 0 V1_SIGNATURE x00)) eqn:E1; [apply Byte.byte_dec_bl in E1 as ->; exact H1|].
  destruct (Byte.eqb b (nth 0 V2_SIGNATURE x00)) eqn:E2; [apply Byte.byte_dec_bl in E2 as ->; exact H2|].
  apply agrees_err.
Qed.

(** ** The loop that reads a header *)

Lemma parse_v1_none s t : parse_v1 s t = Ok None ->
  len s < MAX_V1_HEADER_BYTES /\ starts_with s V2_SIGNATURE = false.
Proof.
  unfold parse_v1. case_bool_decide; [done|].
  destruct (Z.ltb_spec (len s) (len V1_SIGNATURE)) as [Hs|Hs].
  { intros _. change (len V1_SIGNATURE) with 6 in Hs. unfold MAX_V1_HEADER_BYTES. split; [lia|].
    destruct (starts_with s V2_SIGNATURE) eqn:E; [|done]. apply starts_with_spec in E as [x ->].
    rewrite len_app in Hs. change (len V2_SIGNATURE) with 12 in Hs. pose proof (len_nonneg x). lia. }
  destruct (starts_with s V1_SIGNATURE) eqn:E; cbn [negb]; [|by case_match].
  apply starts_with_spec in E as [x ->]. intros Hp. split; [|done]. revert Hp.
  destruct (find_crlf _) as [k|] eqn:F.
  - unfold result_bind. intros Hp. repeat (case_match; try done).
  - destruct (Z.leb_spec MAX_V1_HEADER_BYTES (len (V1_SIGNATURE ++ x))); [done|]. lia.
Qed.

Lemma parse_v2_none s t : parse_v2 s t = Ok None ->
  len s < V2_HEADER_BYTES \/
  V2_HEADER_BYTES <= len s < V2_HEADER_BYTES + be_value (slice s 14 16) /\ starts_with s V2_SIGNATURE = true.
Proof.
  unfold parse_v2. destruct (Z.ltb_spec (len s) V2_HEADER_BYTES) as [|Hh]; [by left|].
  change (len V2_SIGNATURE) with 12. rewrite (proj2 (Z.ltb_ge (len s) 12)) by (unfold V2_HEADER_BYTES in *; lia).
  destruct (starts_with s V2_SIGNATURE); cbn [negb]; [|by case_match].
  intros Hp. right. split; [|done]. split; [done|]. revert Hp. do 2 (case_match; [done|]).
  match goal with |- context [result_bind ?r _] => destruct r as [a|e] end; cbn [result_bind]; [|done].
  destruct (negb (_ =? match t with Stream => 1 | Datagram => 2 end)); [done|]. case_match; [done|].
  destruct (Z.ltb_spec (len s) (V2_HEADER_BYTES + be_value (slice s 14 16))); [done|]. by destruct a.
Qed.

Lemma slice_u16 s : be_value (slice s 14 16) <= u16_max.
Proof.
  pose proof (be_value_range (slice s 14 16)) as [_ H]. unfold u16_max.
  assert (256 ^ len (slice s 14 16) <= 256 ^ 2); [|lia]. apply Z.pow_le_mono_r; [lia|].
  unfold slice, len. rewrite length_take. lia.
Qed.

Lemma parse_none_limit s v : parse_header s v Stream = Ok None ->
  exists n, read_limit s v = Some n /\ 0 < n /\ len s + n <= MAX_V2_HEADER_BYTES.
Proof.
  unfold parse_header, read_limit. intros H. pose proof (slice_u16 s) as Hu.
  assert ((len s < MAX_V1_HEADER_BYTES /\ starts_with s V2_SIGNATURE = false) \/
    v <> Version_V1 /\ (len s < V2_HEADER_BYTES \/
      V2_HEADER_BYTES <= len s < V2_HEADER_BYTES + be_value (slice s 14 16) /\
      starts_with s V2_SIGNATURE = true)) as Hc.
  { destruct s as [|b s]; [by left|]. destruct v.
    - left. by eapply parse_v1_none.
    - right. split; [done|]. by eapply parse_v2_none.
    - revert H. repeat case_match; [|right|done]; intros.
      + left. by eapply parse_v1_none.
      + split; [done|]. by eapply parse_v2_none. }
  unfold MAX_V2_HEADER_BYTES, MAX_V2_PAYLOAD_BYTES, MAX_V1_HEADER_BYTES, V2_HEADER_BYTES, u16_max in *.
  destruct Hc as [[Hl ->]|[Hv [Hl|[Hl ->]]]].
  - rewrite andb_false_r. cbn [mbind option_bind].
    destruct v; (rewrite (proj2 (Z.ltb_lt _ _)) by lia); eexists; split; [done|lia|done|lia|done|lia].
  - rewrite (proj2 (Z.leb_gt 16 (len s))) by lia. cbn [andb mbind option_bind].
    destruct v; [done| |]; (rewrite (proj2 (Z.ltb_lt _ _)) by lia); eexists; (split; [done|lia]).
  - rewrite (proj2 (Z.leb_le 16 (len s))) by lia. cbn [andb].
    unfold checked_add. rewrite (proj2 (Z.leb_le _ usize_max)) by (unfold usize_max, u64_max; lia).
    cbn [mbind option_bind]. rewrite (proj2 (Z.ltb_lt _ _)) by lia. eexists. split; [done|lia].
Qed.

(** A connection: what is still to be read, delivered in pieces of any size that
    the buffer takes, then the end. *)
Class Connection (R : Type) `{!AsyncRead R} := {
  pending : R -> bytes;
  connection_end w n : 0 < n -> pending w = [] -> exists w', read w n = (Ok [], w') /\ pending w' = [];
  connection_data w n : 0 < n -> pending w <> [] ->
    exists bs w', read w n = (Ok bs, w') /\ bs <> [] /\ len bs <= n /\ pending w = bs ++ pending w'
}.

(** A stream with a prefix is a connection with the prefix in front. *)
Definition prefixed_pending `{Connection R} (w : PrefixedStream R) : bytes :=
  drop (prefix_offset w) (prefix w) ++ pending (inner w).

Lemma prefixed_end `{Connection R} (w : PrefixedStream R) n :
  0 < n -> prefixed_pending w = [] -> exists w', read w n = (Ok [], w') /\ prefixed_pending w' = [].
Proof.
  intros Hn Hw. apply app_nil in Hw as [Hp Hi]. unfold read, PrefixedStream_read.
  rewrite (proj2 (Nat.ltb_ge _ _)).
  2: { apply (f_equal length) in Hp. rewrite length_drop in Hp. simpl in Hp. lia. }
  destruct (connection_end (inner w) n Hn Hi) as (w' & -> & Hw').
  eexists. split; [done|]. unfold prefixed_pending. simpl. by rewrite Hp.
Qed.

Lemma prefixed_data `{Connection R} (w : PrefixedStream R) n :
  0 < n -> prefixed_pending w <> [] ->
  exists bs w', read w n = (Ok bs, w') /\ bs <> [] /\ len bs <= n /\
                prefixed_pending w = bs ++ prefixed_pending w'.
Proof.
  intros Hn Hw. unfold read, PrefixedStream_read, prefixed_pending in *.
  destruct (Nat.ltb_spec (prefix_offset w) (length (prefix w))) as [Ho|Ho].
  - assert (0 < length (drop (prefix_offset w) (prefix w)))%nat as Hl by (rewrite length_drop; lia).
    eexists _, _. split; [done|]. cbn [prefix prefix_offset inner]. split_and!.
    + intros E. apply (f_equal length) in E. rewrite length_take in E. simpl in E. lia.
    + unfold len. rewrite length_take. lia.
    + by rewrite app_assoc, <- drop_drop, take_drop.
  - rewrite drop_ge in * by done. destruct (connection_data (inner w) n Hn Hw) as (bs & w' & -> & Hb & Hl & Hp).
    eexists _, _. split; [done|]. cbn [prefix prefix_offset inner]. rewrite drop_ge by done. done.
Qed.

#[export] Instance PrefixedStream_Connection `{Connection R} : Connection (PrefixedStream R) := {
  pending := prefixed_pending;
  connection_end := prefixed_end;
  connection_data := prefixed_data
}.

(** Segments in the order of their arrival. *)
Abbreviation segments_in := (list bytes) (only parsing).
Fixpoint read_segments (w : segments_in) (n : Z) : result bytes Z * segments_in :=
  match w with
  | [] => (Ok [], [])
  | [] :: w => read_segments w n
  | bs :: w => if len bs <=? n then (Ok bs, w) else (Ok (take (Z.to_nat n) bs), drop (Z.to_nat n) bs :: w)
  end.
#[export] Instance segments_AsyncRead : AsyncRead segments_in := read_segments.

Lemma segments_end (w : segments_in) n :
  0 < n -> concat w = [] -> exists w', read w n = (Ok [], w') /\ concat w' = [].
Proof.
  intros Hn. induction w as [|[|b bs] w IH]; intros H; [by exists []| |done]. by apply IH.
Qed.

Lemma segments_data (w : segments_in) n :
  0 < n -> concat w <> [] ->
  exists bs w', read w n = (Ok bs, w') /\ bs <> [] /\ len bs <= n /\ concat w = bs ++ concat w'.
Proof.
  intros Hn. induction w as [|[|b bs] w IH]; intros H; [done|by apply IH|].
  unfold read, segments_AsyncRead. cbn [read_segments]. destruct (Z.leb_spec (len (b :: bs)) n).
  - by exists (b :: bs), w.
  - eexists _, _. split; [done|]. split_and!.
    + destruct (Z.to_nat n) eqn:E; [lia|done].
    + unfold len in *. rewrite length_take. lia.
    + cbn [concat]. by rewrite app_assoc, take_drop.
Qed.

#[export] Instance segments_Connection : Connection segments_in := {
  pending w := concat w;
  connection_end := segments_end;
  connection_data := segments_data
}.

(** ** Properties *)

Lemma parse_v1_consumed s t h : parse_v1 s t = Ok (Some h) ->
  0 < consumed h <= len s /\ consumed h <= MAX_V1_HEADER_BYTES.
Proof.
  unfold parse_v1. case_bool_decide; [done|]. do 2 (case_match; [by case_match|]).
  destruct (find_crlf s) as [k|] eqn:F; [|by case_match]. apply find_crlf_bound in F.
  destruct (Z.ltb_spec MAX_V1_HEADER_BYTES (Z.of_nat k + 2)); [done|].
  case_match; [done|]. intros Hp. unfold result_bind in Hp.
  repeat (case_match; try done); simplify_eq; cbn [consumed]; unfold len; lia.
Qed.

Lemma parse_v2_consumed s t h : parse_v2 s t = Ok (Some h) ->
  0 < consumed h <= len s /\ consumed h <= MAX_V2_HEADER_BYTES.
Proof.
  unfold parse_v2. do 2 (case_match; [by case_match|]). do 3 (case_match; [done|]).
  match goal with |- context [result_bind ?r _] => destruct r as [a|e] end; cbn [result_bind]; [|done].
  destruct (negb (_ =? match t with Stream => 1 | Datagram => 2 end)); [done|]. case_match; [done|].
  destruct (Z.ltb_spec (len s) (V2_HEADER_BYTES + be_value (slice s 14 16))); [done|].
  pose proof (slice_u16 s). pose proof (be_value_range (slice s 14 16)).
  unfold MAX_V2_HEADER_BYTES, MAX_V2_PAYLOAD_BYTES, V2_HEADER_BYTES in *.
  destruct a; intros [= <-]; cbn [consumed]; lia.
Qed.

Lemma parse_header_consumed s v t h : parse_header s v t = Ok (Some h) ->
  0 < consumed h <= len s /\ consumed h <= MAX_V2_HEADER_BYTES.
Proof.
  assert (MAX_V1_HEADER_BYTES <= MAX_V2_HEADER_BYTES) by by vm_compute.
  unfold parse_header. destruct s as [|b s]; [done|].
  destruct v; repeat case_match; try done; intros Hp;
    first [apply parse_v2_consumed in Hp; lia | apply parse_v1_consumed in Hp; lia].
Qed.

Section AcceptFacts.
Context {R : Type} `{!AsyncRead R}.
Implicit Types (w : R) (interrupt : nat -> option Interrupt).

(** An answer, with the bound on an accepted header. *)
Definition answered (r : result (AcceptedProxyStream R) Stop) : Prop :=
  forall a, r = Ok a -> 0 < consumed (header a) <= MAX_V2_HEADER_BYTES.

Lemma accept_loop_total interrupt fuel step w v collected :
  parse_header collected v Stream = Ok None -> MAX_V2_HEADER_BYTES <= Z.of_nat fuel + len collected ->
  exists r, accept_loop interrupt fuel step w v collected = Some r /\ answered r.
Proof.
  assert (forall e, answered (Err e)) as He by done.
  revert step w collected; induction fuel as [|fuel IH]; intros step w collected Hp Hf;
    destruct (parse_none_limit _ _ Hp) as (n & Hn & Hpos & Hmax); [lia|].
  cbn [accept_loop]. rewrite Hn. destruct (interrupt step) as [[]|]; [eauto|eauto|].
  destruct (read w n) as [[bs|e] w']; [|eauto]. destruct bs as [|b bs]; [eauto|].
  destruct (parse_header (collected ++ b :: bs) v Stream) as [[h|]|e] eqn:Hp'; [| |eauto].
  - eexists. split; [done|]. intros a [= <-]. apply parse_header_consumed in Hp'. simpl. lia.
  - apply IH; [done|]. rewrite len_app, len_cons. pose proof (len_nonneg bs). lia.
Qed.
End AcceptFacts.

(** What accepting a connection amounts to when the whole input is known. *)
Definition accepts `{Connection R} (input : bytes) (v : ProxyProtocolVersion)
    (r : option (result (AcceptedProxyStream R) Stop)) : Prop :=
  match parse_header input v Stream with
  | Ok (Some h) =>
      exists st, r = Some (Ok (mkAcceptedProxyStream st h)) /\
                 pending st = drop (Z.to_nat (consumed h)) input
  | Ok None => r = Some (Err (Failed (ProxyProtocolError_new UnexpectedEof)))
  | Err e' => exists e, r = Some (Err (Failed e)) /\ same_error (other_version v input) e e'
  end.

Lemma accept_loop_accepts `{Connection R} fuel step (w : R) v collected :
  parse_header collected v Stream = Ok None -> MAX_V2_HEADER_BYTES <= Z.of_nat fuel + len collected ->
  accepts (collected ++ pending w) v (accept_loop (fun _ => None) fuel step w v collected).
Proof.
  revert step w collected; induction fuel as [|fuel IH]; intros step w collected Hp Hf;
    destruct (parse_none_limit _ _ Hp) as (n & Hn & Hpos & Hmax); [lia|].
  cbn [accept_loop]. rewrite Hn. destruct (decide (pending w = [])) as [He|He].
  { destruct (connection_end w n Hpos He) as (w' & -> & _). unfold accepts. by rewrite He, app_nil_r, Hp. }
  destruct (connection_data w n Hpos He) as ([|b bs] & w' & -> & Hb & _ & Hw); [done|].
  rewrite Hw, app_assoc. pose proof (parse_header_app (collected ++ b :: bs) (pending w') v Stream) as Ha.
  destruct (parse_header (collected ++ b :: bs) v Stream) as [[h|]|e] eqn:Hp'; cbn [agrees] in Ha.
  - unfold accepts. rewrite Ha. eexists. split; [done|]. unfold pending, PrefixedStream_Connection, prefixed_pending.
    cbn [prefix prefix_offset inner PrefixedStream_new]. rewrite drop_0.
    apply parse_header_consumed in Hp'. rewrite (drop_app_le (collected ++ b :: bs)); [done|]. unfold len in Hp'. lia.
  - apply IH; [done|]. rewrite len_app, len_cons. pose proof (len_nonneg bs). lia.
  - destruct Ha as (e' & Ha & He'). unfold accepts. rewrite Ha. eauto.
Qed.

(** The whole of a slice that is one of the pieces. *)
Lemma slice_mid {A} (x y z : list A) a b : a = len x -> b = a + len y -> slice (x ++ y ++ z) a b = y.
Proof.
  intros -> ->. rewrite slice_skip by lia. rewrite Z.sub_diag, Z.add_simpl_l. apply slice_head.
Qed.

(** The version 2 header of two addresses of one family. *)
Definition v2_header (family address_len : Z) (source destination : SocketAddr) : bytes :=
  V2_SIGNATURE ++ [z2b 0x21; z2b family] ++ be_bytes 2 address_len ++
  octets (ip source) ++ octets (ip destination) ++ be_bytes 2 (port source) ++ be_bytes 2 (port destination).

Definition v2_family (is_v4 : bool) (t : ProxyProtocolTransport) : Z :=
  match is_v4, t with
  | true, Stream => 0x11 | true, Datagram => 0x12 | false, Stream => 0x21 | false, Datagram => 0x22
  end.

(** The address block of a version 2 header. *)
Definition v2_address (s d : SocketAddr) : bytes :=
  octets (ip s) ++ octets (ip d) ++ be_bytes 2 (port s) ++ be_bytes 2 (port d).

Lemma len_octets a : len (octets a) = if is_ipv4 a then 4 else 16.
Proof. destruct a; apply len_be_bytes. Qed.

Lemma len_v2_address s d :
  is_ipv4 (ip s) = is_ipv4 (ip d) -> len (v2_address s d) = if is_ipv4 (ip s) then 12 else 36.
Proof.
  intros E. unfold v2_address. rewrite !len_app, !len_octets, !len_be_bytes, E. by destruct (is_ipv4 (ip d)).
Qed.

(** A port of a parsed address block. *)
Lemma be_port p : 0 <= p <= u16_max -> be_value (be_bytes 2 p) = p.
Proof. intros H. apply be_roundtrip. unfold u16_max in H. change (256 ^ Z.of_nat 2) with (2 ^ 16). lia. Qed.

Lemma slice_pieces (w x y z : bytes) a b c d :
  len w = a -> a + len x = b -> b + len y = c -> c + len z = d ->
  let l := w ++ x ++ y ++ z in
  slice l 0 a = w /\ slice l a b = x /\ slice l b c = y /\ slice l c d = z.
Proof.
  intros Hw Hx Hy Hz l. unfold l. split_and!.
  - rewrite <- Hw. apply slice_head.
  - apply slice_mid; lia.
  - rewrite app_assoc. apply slice_mid; rewrite ?len_app; lia.
  - rewrite !app_assoc, <- (app_nil_r (_ ++ z)), <- app_assoc.
    apply slice_mid; rewrite ?len_app; lia.
Qed.

Lemma v2_address_parse s d :
  socket_ok s -> socket_ok d -> is_ipv4 (ip s) = is_ipv4 (ip d) ->
  (let address := v2_address s d in
   if is_ipv4 (ip s)
   then (mkSocketAddr (V4 (be_value (slice address 0 4))) (be_value (slice address 8 10)),
         mkSocketAddr (V4 (be_value (slice address 4 8))) (be_value (slice address 10 12)))
   else (mkSocketAddr (V6 (be_value (slice address 0 16))) (be_value (slice address 32 34)),
         mkSocketAddr (V6 (be_value (slice address 16 32))) (be_value (slice address 34 36)))) = (s, d).
Proof.
  destruct s as [[a|a] p], d as [[b|b] q]; cbn [ip is_ipv4 socket_ok ip_ok port]; try done;
    intros [Ha Hp] [Hb Hq] _; unfold v2_address; cbn [ip port octets] in *.
  - destruct (slice_pieces (be_bytes 4 a) (be_bytes 4 b) (be_bytes 2 p) (be_bytes 2 q) 4 8 10 12)
      as (E1 & E2 & E3 & E4); [done..|].
    by rewrite E1, E2, E3, E4, !be_port, !be_roundtrip.
  - destruct (slice_pieces (be_bytes 16 a) (be_bytes 16 b) (be_bytes 2 p) (be_bytes 2 q) 16 32 34 36)
      as (E1 & E2 & E3 & E4); [done..|].
    by rewrite E1, E2, E3, E4, !be_port, !be_roundtrip.
Qed.

(** What the parser reads of a version 2 header. *)
Lemma v2_header_fields (pre : bytes) n s d rest :
  len pre = 14 -> len (v2_address s d) = n ->
  let input := (pre ++ be_bytes 2 n ++ v2_address s d) ++ rest in
  slice input 14 16 = be_bytes 2 n /\ slice input 16 (16 + n) = v2_address s d.
Proof.
  intros Hp Hn input. unfold input. rewrite <- !app_assoc. split; [by apply slice_mid|].
  rewrite (app_assoc pre). apply slice_mid; rewrite ?len_app, ?len_be_bytes; lia.
Qed.

Lemma parse_v2_header t s d rest :
  socket_ok s -> socket_ok d -> is_ipv4 (ip s) = is_ipv4 (ip d) ->
  let h := v2_header (v2_family (is_ipv4 (ip s)) t) (if is_ipv4 (ip s) then 12 else 36) s d in
  parse_v2 (h ++ rest) t = Ok (Some (mkParsedProxyHeader Version_V2 s d (len h))).
Proof.
  intros Hs Hd E h. pose proof (len_nonneg rest). pose proof (v2_address_parse s d Hs Hd E) as Ha.
  pose proof (len_v2_address s d E) as Hl. set (n := if is_ipv4 (ip s) then 12 else 36) in *.
  assert (12 <= n <= 36) as Hn by (unfold n; destruct (is_ipv4 (ip s)); lia).
  set (pre := V2_SIGNATURE ++ [z2b 0x21; z2b (v2_family (is_ipv4 (ip s)) t)]).
  assert (h = pre ++ be_bytes 2 n ++ v2_address s d) as Eh
    by (unfold h, v2_header, pre, v2_address; by rewrite <- !app_assoc).
  destruct (v2_header_fields pre n s d rest) as [H14 H16]; [done..|]. rewrite <- Eh in H14, H16.
  assert (len h = 16 + n) as Hh by (rewrite Eh, !len_app, len_be_bytes, Hl; change (len pre) with 14; lia).
  unfold parse_v2. assert (starts_with (h ++ rest) V2_SIGNATURE = true) as -> by done.
  assert (byte_at (h ++ rest) 12 = 0x21) as -> by done.
  assert (byte_at (h ++ rest) 13 = v2_family (is_ipv4 (ip s)) t) as ->.
  { unfold h. by destruct (is_ipv4 (ip s)), t. }
  rewrite H14, be_port, len_app, Hh by (unfold u16_max; lia).
  unfold V2_HEADER_BYTES. change (len V2_SIGNATURE) with 12.
  rewrite !(proj2 (Z.ltb_ge (16 + n + len rest) _)) by lia. cbn [negb].
  assert (Z.shiftr (v2_family (is_ipv4 (ip s)) t) 4 = if is_ipv4 (ip s) then 1 else 2) as ->
    by (by destruct (is_ipv4 (ip s)), t).
  assert (Z.land (v2_family (is_ipv4 (ip s)) t) 15 = match t with Stream => 1 | Datagram => 2 end) as ->
    by (by destruct (is_ipv4 (ip s)), t).
  clearbody h. revert Ha. unfold n in *. clear n.
  destruct (is_ipv4 (ip s)); cbn [Z.eqb Pos.eqb result_bind negb Z.shiftr Z.land]; rewrite H16; cbn zeta;
    intros [= Hs' Hd']; rewrite Hs', Hd'; by destruct t.
Qed.

(** The fields of a version 1 header. *)
Definition v1_fields (s d : SocketAddr) : list bytes :=
  [lit "PROXY"; if is_ipv4 (ip s) then lit "TCP4" else lit "TCP6"; display_ip (ip s); display_ip (ip d);
   dec_string (port s); dec_string (port d)].

Definition v1_line (s d : SocketAddr) : bytes := join [x20] (v1_fields s d).

(** A field has printable characters only. *)
Lemma v1_fields_chars s d :
  socket_ok s -> socket_ok d -> Forall (Forall (fun b => is_ascii_graphic b = true)) (v1_fields s d).
Proof.
  assert (forall b, addr_char b = true -> is_ascii_graphic b = true) as Hc.
  { intros b. by destruct b. }
  assert (forall a, Forall (fun b => is_ascii_graphic b = true) (display_ip a)) as Ha.
  { intros a. eapply Forall_impl; [apply display_ip_spec|]. done. }
  assert (forall p, 0 <= p -> Forall (fun b => is_ascii_graphic b = true) (dec_string p)) as Hp.
  { intros p H. eapply Forall_impl; [apply addr_char_digits, dec_string_digits; done|]. done. }
  intros [_ Hs] [_ Hd]. unfold v1_fields.
  constructor; [by repeat constructor|]. constructor; [by case_match; repeat constructor|].
  repeat constructor; first [apply Ha | apply Hp; lia].
Qed.

Lemma v1_line_len s d : socket_ok s -> socket_ok d -> len (v1_line s d) <= 102.
Proof.
  intros [_ Hs] [_ Hd]. unfold v1_line, v1_fields. cbn [join]. rewrite !len_app.
  change (len (lit "PROXY")) with 5. change (len [x20]) with 1.
  assert (len (if is_ipv4 (ip s) then lit "TCP4" else lit "TCP6") = 4) as -> by by case_match.
  destruct (display_ip_spec (ip s)), (display_ip_spec (ip d)). unfold u16_max in *.
  pose proof (len_dec_string (port s) 5). pose proof (len_dec_string (port d) 5). lia.
Qed.

(** The first line end of a line without one. *)
Lemma find_crlf_line l rest :
  Forall (fun b => b <> x0d) l -> find_crlf (l ++ x0d :: x0a :: rest) = Some (length l).
Proof.
  induction 1 as [|b l Hb _ IH]; [done|]. rewrite <- app_comm_cons.
  destruct l as [|c l]; simpl app in *; rewrite find_crlf_cons.
  - by rewrite byte_eqb_spec, bool_decide_eq_false_2 by done.
  - rewrite byte_eqb_spec, bool_decide_eq_false_2 by done. simpl andb. cbn iota. by rewrite IH.
Qed.

Lemma parse_socket_addr_display a v4 :
  socket_ok a -> is_ipv4 (ip a) = v4 -> parse_socket_addr (display_ip (ip a)) (dec_string (port a)) v4 = Ok a.
Proof.
  intros [Hi Hp] <-. unfold parse_socket_addr. rewrite parse_ip_display by done. cbn [ok_or result_bind].
  rewrite Bool.eqb_reflx. cbn [negb]. rewrite parse_uint_dec by done. by destruct a.
Qed.

(** What the parser reads of a version 1 line. *)
Lemma v1_line_parts s d rest :
  socket_ok s -> socket_ok d ->
  split x20 (v1_line s d) = v1_fields s d /\ utf8_valid (v1_line s d) = true /\
  find_crlf (v1_line s d ++ x0d :: x0a :: rest) = Some (length (v1_line s d)).
Proof.
  intros Hs Hd. pose proof (v1_fields_chars s d Hs Hd) as Hc.
  assert (Forall (fun b => is_ascii_graphic b = true \/ b = x20) (v1_line s d)) as Hline.
  { apply join_chars; [by repeat constructor; right|]. eapply Forall_impl; [exact Hc|].
    intros x Hx. eapply Forall_impl; [exact Hx|]. by left. }
  split_and!.
  - apply split_join; [|done]. eapply Forall_impl; [exact Hc|]. intros x Hx.
    eapply Forall_impl; [exact Hx|]. by intros b Hb ->.
  - apply utf8_valid_ascii, forallb_Forall. eapply Forall_impl; [exact Hline|]. by intros [] [|].
  - apply find_crlf_line. eapply Forall_impl; [exact Hline|]. by intros b [Hb|Hb] ->.
Qed.

Lemma v1_line_signature s d : exists x, v1_line s d = V1_SIGNATURE ++ x.
Proof. unfold v1_line, v1_fields. cbn [join]. by eexists. Qed.

Lemma parse_v1_header s d rest :
  socket_ok s -> socket_ok d -> is_ipv4 (ip s) = is_ipv4 (ip d) ->
  let h := v1_line s d ++ [x0d; x0a] in
  parse_v1 (h ++ rest) Stream = Ok (Some (mkParsedProxyHeader Version_V1 s d (len h))).
Proof.
  intros Hs Hd E h. pose proof (v1_line_len s d Hs Hd) as Hl.
  destruct (v1_line_parts s d rest Hs Hd) as (Hsplit & Hutf & Hfind).
  assert (h ++ rest = v1_line s d ++ x0d :: x0a :: rest) as -> by (unfold h; by rewrite <- app_assoc).
  assert (len h = len (v1_line s d) + 2) as Hh by (unfold h; by rewrite len_app).
  destruct (v1_line_signature s d) as [x Hx].
  assert (starts_with (v1_line s d ++ x0d :: x0a :: rest) V1_SIGNATURE = true) as Hsig.
  { apply starts_with_spec. rewrite Hx, <- app_assoc. eauto. }
  assert (len V1_SIGNATURE <= len (v1_line s d)) as Hlen by (rewrite Hx, len_app; pose proof (len_nonneg x); lia).
  clear Hx. unfold parse_v1. rewrite bool_decide_eq_false_2 by by intros []. rewrite len_app.
  rewrite (proj2 (Z.ltb_ge _ (len V1_SIGNATURE))) by (pose proof (len_nonneg (x0d :: x0a :: rest)); lia).
  rewrite Hsig, Hfind. cbn [negb]. rewrite take_app_length, Hutf, Hsplit.
  change (Z.of_nat (length (v1_line s d))) with (len (v1_line s d)).
  rewrite (proj2 (Z.ltb_ge MAX_V1_HEADER_BYTES _)) by (unfold MAX_V1_HEADER_BYTES; lia).
  cbn [negb v1_fields]. change (beqb (lit "PROXY") (lit "PROXY")) with true. cbn [negb].
  rewrite Hh. destruct (is_ipv4 (ip s)) eqn:F;
    cbn [result_bind beqb]; [change (beqb (lit "TCP4") (lit "TCP4")) with true|
      change (beqb (lit "TCP6") (lit "TCP4")) with false; change (beqb (lit "TCP6") (lit "TCP6")) with true];
    cbn [result_bind]; by rewrite !parse_socket_addr_display by congruence.
Qed.

Lemma encode_v1 s d :
  socket_ok s -> socket_ok d -> is_ipv4 (ip s) = is_ipv4 (ip d) ->
  encode_header Version_V1 Stream s d = Ok (v1_line s d ++ [x0d; x0a]).
Proof.
  intros Hs Hd E. pose proof (v1_line_len s d Hs Hd) as Hl. unfold encode_header. rewrite E, Bool.eqb_reflx.
  rewrite bool_decide_eq_false_2 by by intros []. cbn [negb].
  match goal with |- (if _ <? len ?v then _ else _) = _ => assert (v = v1_line s d ++ [x0d; x0a]) as -> end.
  { rewrite <- E. unfold v1_line, v1_fields. cbn [join]. by rewrite <- !app_assoc. }
  rewrite len_app. change (len [x0d; x0a]) with 2. by rewrite (proj2 (Z.ltb_ge _ _)) by (unfold MAX_V1_HEADER_BYTES; lia).
Qed.

Lemma encode_v2 t s d :
  is_ipv4 (ip s) = is_ipv4 (ip d) ->
  encode_header Version_V2 t s d =
  Ok (v2_header (v2_family (is_ipv4 (ip s)) t) (if is_ipv4 (ip s) then 12 else 36) s d).
Proof.
  intros E. unfold encode_header. rewrite E, Bool.eqb_reflx. cbn [negb].
  by destruct (is_ipv4 (ip d)), t.
Qed.

(** C37: the encoder fails exactly on addresses of different families, on the
    version [Auto] and on a version 1 header for datagrams, and a header it
    makes is parsed back, whatever follows it, to the version, the addresses and
    the length that were encoded, under its own version and under [Auto]. *)
Theorem proxy_roundtrip (v : ProxyProtocolVersion) (t : ProxyProtocolTransport) (s d : SocketAddr)
    (Hs : socket_ok s) (Hd : socket_ok d) :
  match encode_header v t s d with
  | Ok h => forall configured rest, configured = v \/ configured = Version_Auto ->
      parse_header (h ++ rest) configured t = Ok (Some (mkParsedProxyHeader v s d (len h)))
  | Err e => e = ProxyProtocolError_new ProtocolMismatch /\
      (is_ipv4 (ip s) <> is_ipv4 (ip d) \/ v = Version_Auto \/ v = Version_V1 /\ t = Datagram)
  end.
Proof.
  destruct (decide (is_ipv4 (ip s) = is_ipv4 (ip d))) as [E|E].
  2: { unfold encode_header. destruct (is_ipv4 (ip s)), (is_ipv4 (ip d)); try done; simpl; auto. }
  destruct v.
  - destruct t; [|unfold encode_header; rewrite E, Bool.eqb_reflx; simpl; auto].
    rewrite encode_v1 by done. intros c rest Hc.
    destruct (v1_line_signature s d) as [x Hx]. pose proof (parse_v1_header s d rest Hs Hd E) as Hp. cbn zeta in Hp.
    destruct ((v1_line s d ++ [x0d; x0a]) ++ rest) as [|b l] eqn:El; [by rewrite Hx in El|].
    assert (b = x50) as -> by (rewrite Hx in El; by injection El). by destruct Hc as [->| ->].
  - rewrite encode_v2 by done. intros c rest Hc. pose proof (parse_v2_header t s d rest Hs Hd E) as Hp.
    by destruct Hc as [->| ->].
  - unfold encode_header. rewrite E, Bool.eqb_reflx. simpl. auto.
Qed.

Lemma proxy_roundtrip_witness :
  match encode_header Version_V1 Stream (mkSocketAddr (V6 1) 1234) (mkSocketAddr (V6 2) 443) with
  | Ok h => forall configured rest, configured = Version_V1 \/ configured = Version_Auto ->
      parse_header (h ++ rest) configured Stream =
      Ok (Some (mkParsedProxyHeader Version_V1 (mkSocketAddr (V6 1) 1234) (mkSocketAddr (V6 2) 443) (len h)))
  | Err e => False
  end.
Proof.
  exact (proxy_roundtrip Version_V1 Stream (mkSocketAddr (V6 1) 1234) (mkSocketAddr (V6 2) 443)
    ltac:(by vm_compute) ltac:(by vm_compute)).
Defined.

(** C23: whatever pieces a connection delivers its input in, accepting it (with
    no shutdown, timeout or read error in between) gives
    the verdict of parsing the whole input at once: the header, and a stream on
    which exactly the bytes after the header are read; the unexpected end, when
    the input is only a prefix of a header; or the same error, except that an
    input with the signature of the version that is not configured, a protocol
    mismatch, counts as an invalid signature when its first pieces are too short
    to show that signature. *)
Theorem proxy_accept_exact `{Connection R} (w : R) (v : ProxyProtocolVersion) :
  match parse_header (pending w) v Stream with
  | Ok (Some h) => exists st,
      accept_stream (fun _ => None) w v = Some (Ok (mkAcceptedProxyStream st h)) /\
      pending st = drop (Z.to_nat (consumed h)) (pending w)
  | Ok None =>
      accept_stream (fun _ => None) w v = Some (Err (ProxyProtocolError_new UnexpectedEof))
  | Err e => exists e', accept_stream (fun _ => None) w v = Some (Err e') /\
      (e' = e \/
       other_version v (pending w) = true /\
       e' = ProxyProtocolError_new InvalidSignature /\ e = ProxyProtocolError_new ProtocolMismatch)
  end.
Proof.
  pose proof (accept_loop_accepts (Z.to_nat MAX_V2_HEADER_BYTES) 0 w v []) as Ha.
  ospecialize (Ha _ _); [done|rewrite len_nil, Z2Nat.id; done|]. unfold accepts in Ha. simpl app in Ha.
  unfold accept_stream, accept_stream_inner.
  destruct (parse_header (pending w) v Stream) as [[h|]|e];
    [destruct Ha as (st & -> & Hst)|rewrite Ha|destruct Ha as (e' & -> & He)]; simpl; eauto.
Qed.

Lemma proxy_accept_exact_witness :
  let w := [lit "PROXY TC"; lit "P4 1.2.3.4 5.6.7.8 80 443"; [x0d]; [x0a; x68; x69]; lit "rest"] in
  match parse_header (pending w) Version_Auto Stream with
  | Ok (Some h) => exists st,
      accept_stream (fun _ => None) w Version_Auto = Some (Ok (mkAcceptedProxyStream st h)) /\
      pending st = lit "hirest"
  | _ => False
  end.
Proof. exact (proxy_accept_exact [lit "PROXY TC"; lit "P4 1.2.3.4 5.6.7.8 80 443"; [x0d]; [x0a; x68; x69]; lit "rest"] Version_Auto). Defined.

(** C35: reading a header ends: whatever the connection delivers, whether the
    shutdown signal or the timer comes first, after at most
    [MAX_V2_HEADER_BYTES] reads there is an answer, and an accepted header is at
    most that long. *)
Theorem proxy_accept_terminates `{AsyncRead R} (interrupt : nat -> option Interrupt) (w : R)
    (v : ProxyProtocolVersion) :
  exists r, accept_stream interrupt w v = Some r /\
            forall a, r = Ok a -> 0 < consumed (header a) <= MAX_V2_HEADER_BYTES.
Proof.
  destruct (accept_loop_total interrupt (Z.to_nat MAX_V2_HEADER_BYTES) 0 w v []) as (r & Hr & Ha);
    [done|rewrite len_nil, Z2Nat.id; done|].
  unfold accept_stream, accept_stream_inner. rewrite Hr. simpl. eexists. split; [done|].
  intros a Hok. apply map_err_Ok in Hok. by apply Ha.
Qed.
