(* ===== verification/Capsule.v ===== *)
(** CONNECT-UDP over HTTP/1 ([oxiroute-server/src/capsule.rs]): capsules with
    QUIC variable-length integers, and the relay between a stream of capsules
    and a UDP socket.

    A reader is the bytes that are still to come and what comes after them, the
    end or an I/O error; the asynchronous reads the code uses wait until they
    have what they need, so the pieces the bytes arrive in do not matter.  The
    relay is a step function on what its [select!] blocks return. *)

From stdpp Require Import base list strings.
From Stdlib Require Import ZArith Lia Strings.Byte.
From S2P Require Import Prelude Bytes.

Open Scope Z_scope.

Definition DATAGRAM_CAPSULE : Z := 0.
Definition UDP_CONTEXT_ID : Z := 0.
Definition MAX_UDP_PAYLOAD : Z := 65527.
Definition MAX_CAPSULE_VALUE : Z := MAX_UDP_PAYLOAD + 1.

(** ** Readers *)

Inductive IoError : Type := UnexpectedEof | InvalidData | OtherIo (code : Z).

Record Reader : Type := mkReader { incoming : bytes; final : option IoError }.

(** What a read finds when the bytes are used up. *)
Definition at_end (r : Reader) : IoError := default UnexpectedEof (final r).

Definition ReadM (A : Type) : Type := M Reader IoError A.

Definition read_u8 : ReadM Z := fun r =>
  match incoming r with
  | b :: rest => (Ok (b2z b), mkReader rest (final r))
  | [] => (Err (at_end r), r)
  end.

Definition read_exact (n : Z) : ReadM bytes := fun r =>
  if n <=? len (incoming r)
  then (Ok (take (Z.to_nat n) (incoming r)), mkReader (drop (Z.to_nat n) (incoming r)) (final r))
  else (Err (at_end r), mkReader [] (final r)).

(** ** Variable-length integers *)

(** [1_usize << usize::from(first >> 6)]. *)
Definition varint_width (first : Z) : Z := Z.shiftl 1 (Z.shiftr first 6).

(** The [for] loop of [read_varint]. *)
Fixpoint read_varint_rest (n : nat) (value : Z) : ReadM Z :=
  match n with
  | O => mret value
  | S n => let! b := read_u8 in read_varint_rest n (Z.lor (Z.shiftl value 8) b)
  end.

Definition read_varint (allow_eof : bool) : ReadM (option Z) := fun r =>
  match read_u8 r with
  | (Err UnexpectedEof, r') => if allow_eof then (Ok None, r') else (Err UnexpectedEof, r')
  | (Err e, r') => (Err e, r')
  | (Ok first, r') =>
      (let! value := read_varint_rest (Z.to_nat (varint_width first) - 1) (Z.land first 0x3f) in
       mret (Some value)) r'
  end.

Definition decode_varint (bs : bytes) : option (Z * Z) :=
  first ← b2z <$> head bs;
  let width := varint_width first in
  if len bs <? width then None
  else Some (foldl (fun value b => Z.lor (Z.shiftl value 8) (b2z b)) (Z.land first 0x3f) (slice bs 1 width), width).

(** [(0..shift).step_by(8).rev()], for a [shift] that is a multiple of 8. *)
Fixpoint shifts_down (n : nat) : list Z :=
  match n with O => [] | S n => Z.of_nat n * 8 :: shifts_down n end.

Definition encode_varint (value : Z) (output : bytes) : result bytes IoError :=
  if 0x3fffffffffffffff <? value then Err InvalidData
  else
    let '(width, prefix) :=
      if value <=? 0x3f then (1, 0)
      else if value <=? 0x3fff then (2, 0x40)
      else if value <=? 0x3fffffff then (4, 0x80)
      else (8, 0xc0) in
    let shift := (width - 1) * 8 in
    Ok (output ++ [z2b (Z.lor prefix (Z.shiftr value shift))] ++
        ((fun index => z2b (Z.land (Z.shiftr value index) 0xff)) <$> shifts_down (Z.to_nat (shift / 8)))).

(** ** Capsules *)

Record Capsule : Type := mkCapsule { kind : Z; value : bytes }.

Definition read_capsule (max_value : Z) : ReadM (option Capsule) :=
  let! kind := read_varint true in
  match kind with
  | None => mret None
  | Some kind =>
      let! length := read_varint false in
      let! length := mlift (ok_or UnexpectedEof length) in
      let! length := mlift (if length <=? max_value then Ok length else Err InvalidData) in
      let! value := read_exact length in
      mret (Some (mkCapsule kind value))
  end.

Definition decode_datagram (value : bytes) : option (option bytes) :=
  '(context, consumed) ← decode_varint value;
  if negb (context =? UDP_CONTEXT_ID) then Some None
  else
    let payload := drop (Z.to_nat consumed) value in
    if len payload <=? MAX_UDP_PAYLOAD then Some (Some payload) else None.

(** The bytes [write_datagram_capsule] hands to [write_all]. *)
Definition datagram_capsule (payload : bytes) : result bytes IoError :=
  let? value_length := ok_or InvalidData (checked_add usize_max (len payload) 1) in
  let? capsule := encode_varint DATAGRAM_CAPSULE [] in
  let? capsule := encode_varint value_length capsule in
  let? capsule := encode_varint UDP_CONTEXT_ID capsule in
  Ok (capsule ++ payload).

(** The reader task: capsules until the end or an error, which is sent too, or
    until a send fails because the relay, after taking [room] of them, dropped the
    receiver. *)
Fixpoint reader_task (fuel room : nat) (r : Reader) : list (result (option Capsule) IoError) :=
  match fuel, room with
  | O, _ => []
  | S _, O => []
  | S fuel, S room =>
      match read_capsule MAX_CAPSULE_VALUE r with
      | (Ok (Some capsule), r') => Ok (Some capsule) :: reader_task fuel room r'
      | (result, _) => [result]
      end
  end.

(** ** Variable-length integers round trip *)

(** A byte appended to a number: both loops do this for every further byte. *)
Definition append_byte (value : Z) (b : byte) : Z := Z.lor (Z.shiftl value 8) (b2z b).

Lemma byte_shift v : 0 <= v -> Z.lor (Z.shiftl (Z.shiftr v 8) 8) (Z.land v 0xff) = v.
Proof.
  intros Hv. apply Z.bits_inj'. intros i Hi. rewrite Z.lor_spec, Z.land_spec. change 0xff with (Z.ones 8).
  rewrite Z.testbit_ones_nonneg by lia. destruct (Z.ltb_spec i 8).
  - rewrite Z.shiftl_spec_low by lia. by rewrite andb_true_r.
  - rewrite Z.shiftl_spec_high, Z.shiftr_spec by lia. rewrite andb_false_r, orb_false_r. f_equal. lia.
Qed.

Lemma b2z_low_byte v : b2z (z2b (Z.land v 0xff)) = Z.land v 0xff.
Proof. rewrite b2z_z2b. change 0xff with (Z.ones 8). rewrite Z.land_ones by lia. by rewrite Z.mod_mod. Qed.

Lemma append_shifts v n :
  0 <= v ->
  foldl append_byte (Z.shiftr v (Z.of_nat n * 8))
    ((fun index => z2b (Z.land (Z.shiftr v index) 0xff)) <$> shifts_down n) = v.
Proof.
  intros Hv. induction n as [|n IH]; [by rewrite Z.shiftr_0_r|]. cbn [shifts_down fmap list_fmap foldl].
  etransitivity; [|exact IH]. f_equal. unfold append_byte. rewrite b2z_low_byte.
  rewrite <- (byte_shift (Z.shiftr v (Z.of_nat n * 8))) at 2 by by apply Z.shiftr_nonneg.
  rewrite Z.shiftr_shiftr by lia. do 3 f_equal. lia.
Qed.

Lemma varint_first prefix width x :
  (prefix, width) ∈ [(0, 1); (0x40, 2); (0x80, 4); (0xc0, 8)] -> 0 <= x < 64 ->
  varint_width (b2z (z2b (Z.lor prefix x))) = width /\ Z.land (b2z (z2b (Z.lor prefix x))) 0x3f = x /\
  Z.lor prefix x < 256.
Proof.
  intros Hp Hx. revert x Hx. apply (below 64).
  repeat (apply elem_of_cons in Hp as [[= -> ->]|Hp]; [by repeat constructor|]). by apply elem_of_nil in Hp.
Qed.

(** The text of a number: a first byte that says how many follow. *)
Definition varint_text (v : Z) (bs : bytes) : Prop :=
  exists first tail, bs = first :: tail /\ varint_width (b2z first) = len bs /\
    foldl append_byte (Z.land (b2z first) 0x3f) tail = v.

Lemma varint_text_cons v prefix width n :
  (prefix, width) ∈ [(0, 1); (0x40, 2); (0x80, 4); (0xc0, 8)] -> 0 <= v ->
  width = Z.of_nat n + 1 -> Z.shiftr v (Z.of_nat n * 8) < 64 ->
  varint_text v ([z2b (Z.lor prefix (Z.shiftr v (Z.of_nat n * 8)))] ++
    ((fun index => z2b (Z.land (Z.shiftr v index) 0xff)) <$> shifts_down n)).
Proof.
  intros Hp Hv Hw Hlt. assert (0 <= Z.shiftr v (Z.of_nat n * 8)) as Hnn by by apply Z.shiftr_nonneg.
  destruct (varint_first prefix width _ Hp (conj Hnn Hlt)) as (Hwidth & Hland & _).
  eexists _, _. split; [done|]. rewrite Hwidth, Hland. split; [|by apply append_shifts].
  rewrite len_app. unfold len. rewrite length_fmap. assert (length (shifts_down n) = n) as ->; [|simpl; lia].
  clear. induction n; simpl; congruence.
Qed.

Lemma encode_varint_text v out :
  0 <= v < 2 ^ 62 -> exists bs, encode_varint v out = Ok (out ++ bs) /\ varint_text v bs /\ len bs <= 8.
Proof.
  intros Hv. unfold encode_varint. rewrite (proj2 (Z.ltb_ge _ v)) by lia.
  assert (forall bs, varint_text v bs -> len bs <= 8 ->
    exists bs', Ok (E := IoError) (out ++ bs) = Ok (out ++ bs') /\ varint_text v bs' /\ len bs' <= 8) as Hk by eauto.
  repeat case_match; simplify_eq; bool_inv; apply Hk; try (by rewrite len_app; unfold len; rewrite length_fmap);
    [apply (varint_text_cons v 0 1 0)|apply (varint_text_cons v 0x40 2 1)|
     apply (varint_text_cons v 0x80 4 3)|apply (varint_text_cons v 0xc0 8 7)];
    rewrite ?list_elem_of_In; simpl; auto 10; try lia;
    rewrite Z.shiftr_div_pow2 by lia; simpl; apply Z.div_lt_upper_bound; lia.
Qed.

(** Numbers of 63 bits and more are refused. *)
Lemma encode_varint_large v out : 2 ^ 62 <= v -> encode_varint v out = Err InvalidData.
Proof. intros Hv. unfold encode_varint. by rewrite (proj2 (Z.ltb_lt _ v)) by lia. Qed.

Lemma decode_varint_text v bs rest : varint_text v bs -> decode_varint (bs ++ rest) = Some (v, len bs).
Proof.
  intros (first & tail & -> & Hw & Hv). unfold decode_varint. cbn [app head fmap option_fmap option_map mbind option_bind].
  pose proof (len_nonneg rest). rewrite Hw. change (first :: tail ++ rest) with ((first :: tail) ++ rest).
  rewrite len_app, (proj2 (Z.ltb_ge _ _)) by lia. do 2 f_equal. rewrite len_cons.
  change ((first :: tail) ++ rest) with ([first] ++ tail ++ rest). rewrite slice_skip by (unfold len; simpl; lia).
  change (len [first]) with 1. rewrite Z.sub_diag. replace (1 + len tail - 1) with (len tail) by lia.
  by rewrite slice_head.
Qed.

Lemma read_varint_rest_bytes tail v rest e :
  read_varint_rest (length tail) v (mkReader (tail ++ rest) e) = (Ok (foldl append_byte v tail), mkReader rest e).
Proof. revert v; induction tail as [|b tail IH]; intros v; [done|]. cbn. apply IH. Qed.

Lemma read_varint_text v bs rest e allow :
  varint_text v bs -> read_varint allow (mkReader (bs ++ rest) e) = (Ok (Some v), mkReader rest e).
Proof.
  intros (first & tail & -> & Hw & Hv). unfold read_varint. cbn [app read_u8 incoming final].
  rewrite Hw, len_cons. unfold len. replace (Z.to_nat (1 + Z.of_nat (length tail)) - 1)%nat with (length tail) by lia.
  unfold mbind_se. by rewrite read_varint_rest_bytes, Hv.
Qed.

(** ** Capsules round trip *)

Lemma datagram_capsule_spec payload :
  len payload <= MAX_UDP_PAYLOAD ->
  exists bs value, datagram_capsule payload = Ok bs /\ decode_datagram value = Some (Some payload) /\
    forall rest e, read_capsule MAX_CAPSULE_VALUE (mkReader (bs ++ rest) e) =
                   (Ok (Some (mkCapsule DATAGRAM_CAPSULE value)), mkReader rest e).
Proof.
  intros Hlen. pose proof (len_nonneg payload). unfold MAX_UDP_PAYLOAD in Hlen. unfold datagram_capsule, checked_add.
  rewrite (proj2 (Z.leb_le (len payload + 1) usize_max)) by (unfold usize_max, u64_max; lia). cbn [ok_or result_bind].
  destruct (encode_varint_text DATAGRAM_CAPSULE [] ltac:(done)) as (k & -> & Hk & _). cbn [app result_bind].
  destruct (encode_varint_text (len payload + 1) k ltac:(lia)) as (l & -> & Hl & _). cbn [result_bind].
  change (encode_varint UDP_CONTEXT_ID (k ++ l)) with (Ok (E := IoError) ((k ++ l) ++ [x00])). cbn [result_bind].
  exists (((k ++ l) ++ [x00]) ++ payload), (x00 :: payload). split_and!; [done| |].
  - unfold decode_datagram. change (decode_varint (x00 :: payload)) with (decode_varint ([x00] ++ payload)).
    rewrite (decode_varint_text 0) by by exists x00, []. cbn.
    change (drop (Z.to_nat (len [x00])) (x00 :: payload)) with payload. by rewrite (proj2 (Z.leb_le _ MAX_UDP_PAYLOAD)) by (unfold MAX_UDP_PAYLOAD; lia).
  - intros rest e. unfold read_capsule, mbind_se. rewrite <- !app_assoc, (read_varint_text _ _ _ _ _ Hk).
    rewrite (read_varint_text _ _ _ _ _ Hl). cbn [mlift ok_or].
    rewrite (proj2 (Z.leb_le _ MAX_CAPSULE_VALUE)) by (unfold MAX_CAPSULE_VALUE, MAX_UDP_PAYLOAD; lia). cbn [mlift].
    replace (len payload + 1) with (len (x00 :: payload)) by (rewrite len_cons; lia).
    change ([x00] ++ payload ++ rest) with ((x00 :: payload) ++ rest). unfold read_exact. cbn [incoming final].
    rewrite len_app, (proj2 (Z.leb_le _ _)) by (pose proof (len_nonneg rest); lia).
    by rewrite take_len_app, drop_len_app.
Qed.

(** *** Capsules cut off *)

Lemma read_varint_rest_short t n v :
  (length t < n)%nat -> exists r, read_varint_rest n v (mkReader t None) = (Err UnexpectedEof, r).
Proof.
  revert n v; induction t as [|b t IH]; intros [|n] v Hn; simpl in Hn; [lia|by eexists|lia|]. apply IH. lia.
Qed.

Lemma read_varint_short v t q :
  varint_text v (t ++ q) -> q <> [] -> exists r, read_varint false (mkReader t None) = (Err UnexpectedEof, r).
Proof.
  intros (first & tail & E & Hw & _) Hq. unfold read_varint. destruct t as [|b t]; [by eexists|]. injection E as -> <-.
  cbn [read_u8 incoming final]. rewrite Hw. unfold mbind_se.
  destruct (read_varint_rest_short t (Z.to_nat (len ((first :: t) ++ q)) - 1) (Z.land (b2z first) 0x3f)) as [r ->]; [|by eexists].
  destruct q; [done|]. unfold len. simpl. rewrite length_app. simpl. lia.
Qed.

(** The capsule of a datagram: its kind, its length and its value. *)
Lemma datagram_capsule_bytes payload bs :
  len payload <= MAX_UDP_PAYLOAD -> datagram_capsule payload = Ok bs ->
  exists l, bs = x00 :: l ++ x00 :: payload /\ varint_text (len payload + 1) l.
Proof.
  intros Hlen. pose proof (len_nonneg payload). unfold MAX_UDP_PAYLOAD in Hlen. unfold datagram_capsule, checked_add.
  rewrite (proj2 (Z.leb_le (len payload + 1) usize_max)) by (unfold usize_max, u64_max; lia). cbn [ok_or result_bind].
  change (encode_varint DATAGRAM_CAPSULE []) with (Ok (E := IoError) [x00]). cbn [result_bind].
  destruct (encode_varint_text (len payload + 1) [x00] ltac:(lia)) as (l & -> & Hl & _). cbn [result_bind].
  change (encode_varint UDP_CONTEXT_ID ([x00] ++ l)) with (Ok (E := IoError) (([x00] ++ l) ++ [x00])). cbn [result_bind].
  intros [= <-]. exists l. split; [|done]. simpl. by rewrite <- !app_assoc.
Qed.

Lemma read_capsule_short payload t q :
  len payload <= MAX_UDP_PAYLOAD -> datagram_capsule payload = Ok (t ++ q) -> t <> [] -> q <> [] ->
  exists r, read_capsule MAX_CAPSULE_VALUE (mkReader t None) = (Err UnexpectedEof, r).
Proof.
  intros Hlen (l & E & Hl)%datagram_capsule_bytes Ht Hq; [|done]. destruct t as [|b t]; [done|]. injection E as -> E.
  unfold read_capsule, mbind_se. change (x00 :: t) with ([x00] ++ t).
  rewrite (read_varint_text 0 [x00] t None true) by by exists x00, [].
  apply app_eq_inv in E as [(k & -> & Ek)|(k & -> & Ek)].
  - rewrite (read_varint_text _ _ _ _ _ Hl). cbn [mlift ok_or].
    rewrite (proj2 (Z.leb_le _ MAX_CAPSULE_VALUE)) by (unfold MAX_CAPSULE_VALUE, MAX_UDP_PAYLOAD in *; lia).
    cbn [mlift]. unfold read_exact. cbn [incoming]. apply (f_equal len) in Ek. rewrite len_cons, len_app in Ek.
    rewrite (proj2 (Z.leb_gt _ _)); [by eexists|]. destruct q; [done|]. rewrite len_cons in Ek. pose proof (len_nonneg q). lia.
  - destruct k as [|c k]; [|by destruct (read_varint_short _ _ _ Hl ltac:(done)) as [r ->]; eexists].
    rewrite app_nil_r in Hl. pose proof (read_varint_text _ _ [] None false Hl) as Hr. rewrite app_nil_r in Hr. rewrite Hr.
    cbn [mlift ok_or]. rewrite (proj2 (Z.leb_le _ MAX_CAPSULE_VALUE)) by (unfold MAX_CAPSULE_VALUE, MAX_UDP_PAYLOAD in *; lia).
    cbn [mlift]. unfold read_exact. cbn [incoming]. pose proof (len_nonneg payload).
    rewrite (proj2 (Z.leb_gt _ _)) by (rewrite len_nil; lia). by eexists.
Qed.

(** ** The relay *)

Inductive UdpRelayEnd : Type :=
| Eof | ByteLimitClientToUdp | ByteLimitUdpToClient | IdleTimeout | LifetimeTimeout | Cancelled
| IoFailure | Malformed.

Record UdpRelayStats : Type := mkUdpRelayStats { client_to_udp : Z; udp_to_client : Z }.
Record UdpRelayOutcome : Type := mkUdpRelayOutcome { end_ : UdpRelayEnd; stats : UdpRelayStats }.

(** [TunnelLimits] as the relay reads it. *)
Record RelayLimits : Type := mkRelayLimits { max_bytes_per_direction : Z; idle_timeout : Z }.

(** The branch of a [select!] that wins before the operation completes. *)
Inductive Interruption : Type := ShutdownChanged | LifetimeElapsed | IdleElapsed.
Definition interruption_end (i : Interruption) : UdpRelayEnd :=
  match i with
  | ShutdownChanged => Cancelled
  | LifetimeElapsed => LifetimeTimeout
  | IdleElapsed => IdleTimeout
  end.

(** How the write of a capsule ends.  One that is interrupted or fails may have
    written a part, but not all of it: then it would have completed. *)
Inductive Writing : Type := Written | WriteInterrupted (i : Interruption) (part : nat) | WriteFailed (part : nat).

(** One turn of the loop: what the first [select!] returns, at which time, and
    what the operation that follows it meets. *)
Inductive RelayEvent : Type :=
| Interrupted (i : Interruption)
| CapsuleEvent (outcome : option (result (option Capsule) IoError)) (now : Z)
    (sending : Interruption + result Z IoError)
| UdpEvent (outcome : result bytes IoError) (now : Z) (writing : Writing).

(** The counters, the idle deadline, the datagrams the socket took (whole, or not
    at all) and the bytes the client was sent. *)
Record RelayState : Type := mkRelayState {
  counted : UdpRelayStats;
  idle_deadline : Z;
  sent : list bytes;
  written : bytes;
}.

(** A turn goes on with a state or breaks the loop. *)
Abbreviation RelayTurn := (result RelayState (UdpRelayEnd * RelayState)).

Definition set_idle (limits : RelayLimits) (now : Z) (st : RelayState) : RelayState :=
  mkRelayState (counted st) (now + idle_timeout limits) (sent st) (written st).

Definition capsule_turn (limits : RelayLimits) (st : RelayState)
    (outcome : option (result (option Capsule) IoError)) (now : Z)
    (sending : Interruption + result Z IoError) : RelayTurn :=
  match outcome with
  | None => Err (IoFailure, st)
  | Some (Ok None) => Err (Eof, st)
  | Some (Err e) => match e with InvalidData => Err (Malformed, st) | _ => Err (IoFailure, st) end
  | Some (Ok (Some received)) =>
      let st := set_idle limits now st in
      if negb (kind received =? DATAGRAM_CAPSULE) then Ok st
      else
        match decode_datagram (value received) with
        | None => Err (Malformed, st)
        | Some None => Ok st
        | Some (Some payload) =>
            let next := saturating_add u64_max (client_to_udp (counted st)) (len payload) in
            if max_bytes_per_direction limits <? next then Err (ByteLimitClientToUdp, st)
            else
              match sending with
              | inl i => Err (interruption_end i, st)
              | inr (Ok length) =>
                  if length =? len payload
                  then Ok (mkRelayState (mkUdpRelayStats next (udp_to_client (counted st)))
                             (idle_deadline st) (sent st ++ [payload]) (written st))
                  else Err (IoFailure, st)
              | inr (Err _) => Err (IoFailure, st)
              end
        end
  end.

(** What a write of [capsule] that did not complete has written of it. *)
Definition write_part (st : RelayState) (capsule : bytes) (part : nat) : RelayState :=
  mkRelayState (counted st) (idle_deadline st) (sent st) (written st ++ take (part `min` pred (length capsule)) capsule).

(** A datagram longer than the buffer is cut off by the socket. *)
Definition udp_turn (limits : RelayLimits) (st : RelayState) (outcome : result bytes IoError) (now : Z)
    (writing : Writing) : RelayTurn :=
  match outcome with
  | Err _ => Err (IoFailure, st)
  | Ok datagram =>
      let payload := take (Z.to_nat MAX_UDP_PAYLOAD) datagram in
      let next := saturating_add u64_max (udp_to_client (counted st)) (len payload) in
      if max_bytes_per_direction limits <? next then Err (ByteLimitUdpToClient, st)
      else
        match datagram_capsule payload, writing with
        | Err _, WriteInterrupted i _ => Err (interruption_end i, st)
        | Err _, _ => Err (IoFailure, st)
        | Ok capsule, WriteInterrupted i part => Err (interruption_end i, write_part st capsule part)
        | Ok capsule, WriteFailed part => Err (IoFailure, write_part st capsule part)
        | Ok capsule, Written =>
            Ok (set_idle limits now
                  (mkRelayState (mkUdpRelayStats (client_to_udp (counted st)) next)
                     (idle_deadline st) (sent st) (written st ++ capsule)))
        end
  end.

Definition relay_turn (limits : RelayLimits) (st : RelayState) (event : RelayEvent) : RelayTurn :=
  match event with
  | Interrupted i => Err (interruption_end i, st)
  | CapsuleEvent outcome now sending => capsule_turn limits st outcome now sending
  | UdpEvent outcome now writing => udp_turn limits st outcome now writing
  end.

(** The loop over the events: the state it reaches, and the end if there was one. *)
Fixpoint relay_loop (limits : RelayLimits) (st : RelayState) (events : list RelayEvent) :
    RelayState * option UdpRelayEnd :=
  match events with
  | [] => (st, None)
  | event :: events =>
      match relay_turn limits st event with
      | Ok st' => relay_loop limits st' events
      | Err (e, st') => (st', Some e)
      end
  end.

Definition relay_start (limits : RelayLimits) (now : Z) : RelayState :=
  mkRelayState (mkUdpRelayStats 0 0) (now + idle_timeout limits) [] [].

(** [relay_udp]: the outcome once the loop has ended. *)
Definition relay_udp (limits : RelayLimits) (now : Z) (events : list RelayEvent) : option UdpRelayOutcome :=
  let '(st, e) := relay_loop limits (relay_start limits now) events in
  (fun e => mkUdpRelayOutcome e (counted st)) <$> e.

(** ** Reading to the end *)

(** A capsule takes at least one byte. *)
Definition read_all (r : Reader) : list (result (option Capsule) IoError) :=
  reader_task (S (length (incoming r))) (S (length (incoming r))) r.

(** Reading never makes the rest longer. *)
Definition shortens {A} (c : ReadM A) : Prop :=
  forall r a r', c r = (Ok a, r') -> (length (incoming r') <= length (incoming r))%nat.

Lemma shortens_read_u8 r b r' :
  read_u8 r = (Ok b, r') -> (S (length (incoming r')) = length (incoming r))%nat.
Proof. unfold read_u8. destruct r as [[|x l] e]; [done|]. by intros [= <- <-]. Qed.

Lemma shortens_rest n v : shortens (read_varint_rest n v).
Proof.
  revert v; induction n as [|n IH]; intros v r a r' H; [by injection H as _ <-|]. cbn [read_varint_rest] in H.
  apply mbind_se_Ok in H as (b & r1 & H1%shortens_read_u8 & H2%IH). lia.
Qed.

Lemma shortens_varint allow r v r' :
  read_varint allow r = (Ok (Some v), r') -> (length (incoming r') < length (incoming r))%nat.
Proof.
  unfold read_varint. destruct (read_u8 r) as [[first|e] r1] eqn:E.
  - apply shortens_read_u8 in E. intros H. apply mbind_se_Ok in H as (x & r2 & H1%shortens_rest & H2).
    injection H2 as _ <-. lia.
  - by destruct e, allow.
Qed.

Lemma shortens_capsule max r c r' :
  0 <= max -> read_capsule max r = (Ok (Some c), r') ->
  (length (incoming r') < length (incoming r))%nat /\ len (value c) <= max.
Proof.
  unfold read_capsule. intros Hmax H. apply mbind_se_Ok in H as ([k|] & r1 & H1 & H); [|done].
  apply shortens_varint in H1.
  apply mbind_se_Ok in H as (l & r2 & H2 & H). apply mbind_se_Ok in H as (l' & r3 & H3 & H).
  apply mlift_Ok in H3 as [H3 ->]. apply ok_or_Ok in H3 as ->. apply shortens_varint in H2.
  apply mbind_se_Ok in H as (l'' & r4 & H4 & H). apply mlift_Ok in H4 as [H4 ->].
  destruct (Z.leb_spec l' max); [|done]. injection H4 as <-.
  apply mbind_se_Ok in H as (v & r5 & H5 & H6). unfold read_exact in H5. injection H6 as <- <-.
  destruct (Z.leb_spec l' (len (incoming r2))); [|done]. injection H5 as <- <-. cbn [incoming value].
  rewrite length_drop. unfold len. rewrite length_take. split; lia.
Qed.

(** The end of the input or an error, after which nothing is read. *)
Definition terminal (r : result (option Capsule) IoError) : Prop :=
  match r with Ok (Some _) => False | _ => True end.

Lemma reader_task_ends fuel r :
  (length (incoming r) < fuel)%nat ->
  exists capsules final, reader_task fuel fuel r = (Ok ∘ Some <$> capsules) ++ [final] /\ terminal final /\
    Forall (fun c => len (value c) <= MAX_CAPSULE_VALUE) capsules /\ (length capsules <= length (incoming r))%nat.
Proof.
  revert r; induction fuel as [|fuel IH]; intros r Hf; [lia|]. cbn [reader_task].
  destruct (read_capsule MAX_CAPSULE_VALUE r) as [[[c|]|e] r'] eqn:E.
  - apply shortens_capsule in E as [Hlt Hc]; [|done].
    destruct (IH r' ltac:(lia)) as (cs & f & -> & Hf' & Hcs & Hlen). exists (c :: cs), f.
    split; [done|]. split; [done|]. split; [by constructor|]. simpl. lia.
  - exists [], (Ok None). split_and!; [done|done|constructor|simpl; lia].
  - exists [], (Err e). split_and!; [done|done|constructor|simpl; lia].
Qed.

(** A relay that stops taking capsules gets the first of them. *)
Lemma reader_task_room fuel room more r : reader_task fuel room r `prefix_of` reader_task fuel (room + more) r.
Proof.
  revert room r; induction fuel as [|fuel IH]; intros [|room] r; [done|done|apply prefix_nil|]. cbn [reader_task Nat.add].
  destruct (read_capsule MAX_CAPSULE_VALUE r) as [[[c|]|e] r']; [by apply prefix_cons|done|done].
Qed.

(** What a context-zero datagram capsule carries. *)
Definition capsule_payload (c : Capsule) : option bytes :=
  if kind c =? DATAGRAM_CAPSULE then mjoin (decode_datagram (value c)) else None.

Definition outcome_payload (r : result (option Capsule) IoError) : option bytes :=
  match r with Ok (Some c) => capsule_payload c | _ => None end.

Definition payloads (rs : list (result (option Capsule) IoError)) : list bytes := omap outcome_payload rs.

Lemma payloads_cons r rs :
  payloads (r :: rs) = match outcome_payload r with Some d => d :: payloads rs | None => payloads rs end.
Proof. done. Qed.

(** The capsules of datagrams, one after the other. *)
Fixpoint encode_all (ds : list bytes) : bytes :=
  match ds with
  | [] => []
  | d :: ds => match datagram_capsule d with Ok bs => bs ++ encode_all ds | Err _ => encode_all ds end
  end.

Lemma encode_all_app ds es : encode_all (ds ++ es) = encode_all ds ++ encode_all es.
Proof. induction ds as [|d ds IH]; simpl; [done|]. rewrite IH. case_match; [by rewrite app_assoc|done]. Qed.

(** A capsule that was cut off, if there is one. *)
Definition cut_capsule (tail : bytes) : Prop :=
  tail = [] \/ exists d q, len d <= MAX_UDP_PAYLOAD /\ tail <> [] /\ q <> [] /\ datagram_capsule d = Ok (tail ++ q).

(** What the client's reader finds after the last whole capsule. *)
Definition found_at_end (tail : bytes) : result (option Capsule) IoError :=
  match tail with [] => Ok None | _ => Err UnexpectedEof end.

Lemma read_cut_capsule tail : cut_capsule tail ->
  exists r, read_capsule MAX_CAPSULE_VALUE (mkReader tail None) = (found_at_end tail, r).
Proof.
  intros [->|(d & q & Hd & Hne & Hq & H)]; [by eexists|]. destruct (read_capsule_short d tail q Hd H Hne Hq) as [r Hr].
  exists r. rewrite Hr. by destruct tail.
Qed.

Lemma reader_task_encoded fuel ds tail :
  Forall (fun d => len d <= MAX_UDP_PAYLOAD) ds -> cut_capsule tail -> (length (encode_all ds ++ tail) < fuel)%nat ->
  payloads (reader_task fuel fuel (mkReader (encode_all ds ++ tail) None)) = ds /\
  last (reader_task fuel fuel (mkReader (encode_all ds ++ tail) None)) = Some (found_at_end tail).
Proof.
  intros Hds Ht. revert fuel; induction Hds as [|d ds Hd _ IH]; intros fuel Hf; (destruct fuel as [|fuel]; [lia|]).
  { cbn [encode_all app reader_task]. destruct (read_cut_capsule tail Ht) as [r ->]. by destruct tail. }
  destruct (datagram_capsule_spec d Hd) as (bs & v & Hbs & Hv & Hread).
  cbn [encode_all] in *. rewrite Hbs, <- app_assoc in *. cbn [reader_task]. rewrite Hread.
  destruct (IH fuel) as [IH1 IH2].
  { assert (length (encode_all ds ++ tail) < length (bs ++ encode_all ds ++ tail))%nat; [|lia].
    specialize (Hread (encode_all ds ++ tail) None). by apply shortens_capsule in Hread as [? _]. }
  rewrite payloads_cons. unfold outcome_payload, capsule_payload. cbn [kind value].
  rewrite Z.eqb_refl, Hv. cbn [mjoin option_join]. rewrite IH1. split; [done|].
  by destruct (reader_task fuel fuel _).
Qed.

Lemma read_all_encoded ds tail :
  Forall (fun d => len d <= MAX_UDP_PAYLOAD) ds -> cut_capsule tail ->
  payloads (read_all (mkReader (encode_all ds ++ tail) None)) = ds /\
  last (read_all (mkReader (encode_all ds ++ tail) None)) = Some (found_at_end tail).
Proof. intros H Ht. apply reader_task_encoded; [done..|]. simpl. lia. Qed.

(** ** What the relay passes on *)

Definition event_client_payload (event : RelayEvent) : option bytes :=
  match event with CapsuleEvent (Some r) _ _ => outcome_payload r | _ => None end.
Definition event_udp_payload (event : RelayEvent) : option bytes :=
  match event with UdpEvent (Ok d) _ _ => Some (take (Z.to_nat MAX_UDP_PAYLOAD) d) | _ => None end.

(** The datagrams the client sent and those the socket received. *)
Definition client_payloads (events : list RelayEvent) : list bytes := omap event_client_payload events.
Definition udp_payloads (events : list RelayEvent) : list bytes := omap event_udp_payload events.

Definition total (ds : list bytes) : Z := foldr (fun d n => len d + n) 0 ds.

Lemma total_app ds es : total (ds ++ es) = total ds + total es.
Proof. unfold total. induction ds; simpl; lia. Qed.

Lemma total_nonneg ds : 0 <= total ds.
Proof. unfold total. induction ds as [|d ds IH]; simpl; [lia|]. pose proof (len_nonneg d). lia. Qed.

(** The counters and the output of a relay that passed on [us] to the client, and
    then perhaps a part of one more. *)
Record relay_inv (limits : RelayLimits) (st : RelayState) (us : list bytes) (tail : bytes) : Prop := {
  inv_client : client_to_udp (counted st) = Z.min u64_max (total (sent st));
  inv_udp : udp_to_client (counted st) = Z.min u64_max (total us);
  inv_limits : client_to_udp (counted st) <= max_bytes_per_direction limits /\
               udp_to_client (counted st) <= max_bytes_per_direction limits;
  inv_written : written st = encode_all us ++ tail;
  inv_small : Forall (fun d => len d <= MAX_UDP_PAYLOAD) us;
  inv_tail : cut_capsule tail
}.

(** The ends that can cut a write off. *)
Definition cuts_off (e : UdpRelayEnd) : Prop := e ∈ [Cancelled; LifetimeTimeout; IdleTimeout; IoFailure].

Lemma saturating_total ds d :
  saturating_add u64_max (Z.min u64_max (total ds)) (len d) = Z.min u64_max (total (ds ++ [d])).
Proof.
  assert (total [d] = len d) as Hd by (unfold total; simpl; lia).
  rewrite total_app, Hd. unfold saturating_add. pose proof (total_nonneg ds). pose proof (len_nonneg d). lia.
Qed.

Lemma capsule_turn_inv limits st us outcome now sending :
  relay_inv limits st us [] ->
  match capsule_turn limits st outcome now sending with
  | Ok st' => sent st' = sent st ++ option_list (outcome ≫= outcome_payload) /\ relay_inv limits st' us []
  | Err (_, st') => sent st' = sent st /\ relay_inv limits st' us []
  end.
Proof.
  intros [Hc Hu Hl Hw Hs Ht]. unfold capsule_turn. destruct outcome as [[[c|]|e]|]; [|done|by destruct e|done].
  cbn [mbind option_bind outcome_payload]. unfold capsule_payload.
  assert (relay_inv limits (set_idle limits now st) us []) as Hsame by by constructor.
  destruct (kind c =? DATAGRAM_CAPSULE); cbn [negb]; [|by rewrite app_nil_r].
  destruct (decode_datagram (value c)) as [[p|]|]; [|by rewrite app_nil_r|done]. cbn [mjoin option_join option_list].
  cbn [counted set_idle]. rewrite Hc, saturating_total.
  destruct (Z.ltb_spec (max_bytes_per_direction limits) (Z.min u64_max (total (sent st ++ [p])))); [done|].
  destruct sending as [i|[n|e]]; [done| |done]. destruct (n =? len p); [|done].
  split; [done|]. constructor; cbn [counted client_to_udp udp_to_client sent written set_idle idle_deadline]; (done || lia).
Qed.

Lemma write_part_inv limits st us d capsule part :
  relay_inv limits st us [] -> len d <= MAX_UDP_PAYLOAD -> datagram_capsule d = Ok capsule ->
  exists tail, sent (write_part st capsule part) = sent st /\ relay_inv limits (write_part st capsule part) us tail.
Proof.
  intros [Hc Hu Hl Hw Hs Ht] Hd E. set (n := (part `min` pred (length capsule))%nat).
  exists (take n capsule). split; [done|]. constructor; cbn; try done; [by rewrite Hw, app_nil_r|].
  destruct (take n capsule) as [|b t] eqn:Hn; [by left|]. right. exists d, (drop n capsule).
  split_and!; [done|done| |by rewrite <- Hn, take_drop]. intros Hz. apply (f_equal length) in Hn, Hz.
  rewrite length_take in Hn. rewrite length_drop in Hz. simpl in *. unfold n in *. lia.
Qed.

Lemma udp_turn_inv limits st us outcome now writing :
  relay_inv limits st us [] ->
  match udp_turn limits st outcome now writing with
  | Ok st' => exists d, outcome = Ok d /\ sent st' = sent st /\
                relay_inv limits st' (us ++ [take (Z.to_nat MAX_UDP_PAYLOAD) d]) []
  | Err (e, st') => exists tail, sent st' = sent st /\ relay_inv limits st' us tail /\ (tail = [] \/ cuts_off e)
  end.
Proof.
  intros Hinv. pose proof Hinv as [Hc Hu Hl Hw Hs Ht]. unfold udp_turn. destruct outcome as [d|e]; [|by exists []; auto].
  set (p := take _ d) in *. assert (len p <= MAX_UDP_PAYLOAD) as Hp by (unfold p, len; rewrite length_take; unfold MAX_UDP_PAYLOAD; lia).
  rewrite Hu, saturating_total.
  destruct (Z.ltb_spec (max_bytes_per_direction limits) (Z.min u64_max (total (us ++ [p])))); [by exists []; auto|].
  destruct (datagram_capsule_spec p Hp) as (bs & v & Hbs & _ & _). rewrite Hbs.
  destruct writing as [|i part|part].
  - exists d. split; [done|]. split; [done|]. fold p.
    constructor; cbn [counted client_to_udp udp_to_client sent written set_idle idle_deadline]; try (done || lia).
    + rewrite Hw, encode_all_app. cbn [encode_all]. by rewrite Hbs, !app_nil_r.
    + apply Forall_app. auto.
  - destruct (write_part_inv _ _ _ _ _ part Hinv Hp Hbs) as (tail & H1 & H2). exists tail. split_and!; [done|done|].
    right. unfold cuts_off. destruct i; simpl; repeat constructor.
  - destruct (write_part_inv _ _ _ _ _ part Hinv Hp Hbs) as (tail & H1 & H2). exists tail. split_and!; [done|done|].
    right. unfold cuts_off. repeat constructor.
Qed.

(** A turn passes on what its event brought, or breaks the loop. *)
Lemma relay_turn_inv limits st us event :
  relay_inv limits st us [] ->
  match relay_turn limits st event with
  | Ok st' => sent st' = sent st ++ option_list (event_client_payload event) /\
              relay_inv limits st' (us ++ option_list (event_udp_payload event)) []
  | Err (e, st') => exists tail, sent st' = sent st /\ relay_inv limits st' us tail /\ (tail = [] \/ cuts_off e)
  end.
Proof.
  intros Hinv. destruct event as [i|outcome now sending|outcome now writing]; cbn [relay_turn event_client_payload event_udp_payload].
  - exists []. auto.
  - pose proof (capsule_turn_inv limits st us outcome now sending Hinv) as H.
    destruct (capsule_turn limits st outcome now sending) as [st'|[e st']].
    + destruct H as [H1 H2]. cbn [option_list]. rewrite app_nil_r. split; [|done]. rewrite H1. by destruct outcome.
    + exists []. naive_solver.
  - pose proof (udp_turn_inv limits st us outcome now writing Hinv) as H.
    destruct (udp_turn limits st outcome now writing) as [st'|[e st']]; [|done].
    destruct H as (d & -> & H1 & H2). cbn [option_list]. by rewrite app_nil_r.
Qed.

Lemma relay_loop_spec limits st us events st' e :
  relay_inv limits st us [] -> relay_loop limits st events = (st', e) ->
  exists ps rest vs rest' tail, client_payloads events = ps ++ rest /\ sent st' = sent st ++ ps /\
    udp_payloads events = vs ++ rest' /\ relay_inv limits st' (us ++ vs) tail /\
    match e with None => rest = [] /\ rest' = [] /\ tail = [] | Some e => tail = [] \/ cuts_off e end.
Proof.
  revert st us; induction events as [|event events IH]; intros st us Hinv H.
  { injection H as <- <-. exists [], [], [], [], []. by rewrite !app_nil_r. }
  cbn [relay_loop] in H. pose proof (relay_turn_inv limits st us event Hinv) as Hturn.
  destruct (relay_turn limits st event) as [st1|[x st1]].
  2: { injection H as <- <-. destruct Hturn as (tail & Hs & Hi & Ht).
       exists [], (client_payloads (event :: events)), [], (udp_payloads (event :: events)), tail. by rewrite !app_nil_r. }
  destruct Hturn as [Hs1 Hi1]. destruct (IH st1 _ Hi1 H) as (ps & rest & vs & rest' & tail & H1 & H2 & H3 & H4 & H5).
  exists (option_list (event_client_payload event) ++ ps), rest, (option_list (event_udp_payload event) ++ vs), rest', tail.
  split_and!; [| | | |done].
  - rewrite <- app_assoc, <- H1. unfold client_payloads. simpl. by destruct (event_client_payload event).
  - by rewrite H2, Hs1, <- app_assoc.
  - rewrite <- app_assoc, <- H3. unfold udp_payloads. simpl. by destruct (event_udp_payload event).
  - by rewrite app_assoc.
Qed.

(** C27: whatever arrives on either side and in whatever order, the socket is
    given the datagrams of the client's context-zero datagram capsules, in their
    order and whole, and the bytes written to the client read back as the
    datagrams of the socket, in their order, and then the end; only when a
    shutdown, a deadline or an I/O error ends the relay can a part of one more
    capsule follow, which reads as an unexpected end.  Nothing is skipped while
    the relay runs, and the counters are the bytes passed on, which never exceed
    the limit. *)
Theorem capsule_relay_exact (limits : RelayLimits) (now : Z) (events : list RelayEvent)
    (Hlimit : 0 <= max_bytes_per_direction limits) :
  let '(st, e) := relay_loop limits (relay_start limits now) events in
  exists rest received rest' final,
    client_payloads events = sent st ++ rest /\ udp_payloads events = received ++ rest' /\
    payloads (read_all (mkReader (written st) None)) = received /\
    last (read_all (mkReader (written st) None)) = Some final /\
    (final = Ok None \/ final = Err UnexpectedEof /\ exists e', e = Some e' /\ cuts_off e') /\
    (e = None -> rest = [] /\ rest' = []) /\
    counted st = mkUdpRelayStats (Z.min u64_max (total (sent st))) (Z.min u64_max (total received)) /\
    client_to_udp (counted st) <= max_bytes_per_direction limits /\
    udp_to_client (counted st) <= max_bytes_per_direction limits.
Proof.
  destruct (relay_loop limits (relay_start limits now) events) as [st e] eqn:E.
  apply (relay_loop_spec _ _ []) in E as (ps & rest & vs & rest' & tail & H1 & H2 & H3 & H4 & H5); [|by constructor; try done; left].
  simpl in H2, H4. subst ps. destruct H4 as [Hc Hu [Hl1 Hl2] Hw Hs Ht]. rewrite Hw.
  destruct (read_all_encoded vs tail Hs Ht) as [Hr1 Hr2]. exists rest, vs, rest', (found_at_end tail).
  split_and!; try done; [|by intros ->; naive_solver|destruct (counted st); simpl in *; by subst].
  destruct tail as [|b tail]; [by left|]. right. split; [done|]. destruct e as [e|]; [|naive_solver].
  exists e. split; [done|]. by destruct H5.
Qed.

(** The last write is cut off after two bytes. *)
Definition example_relay : list RelayEvent :=
  [CapsuleEvent (Some (Ok (Some (mkCapsule 0 (x00 :: lit "ping"))))) 1 (inr (Ok 4));
   UdpEvent (Ok (lit "pong")) 2 Written; UdpEvent (Ok (lit "more")) 3 (WriteInterrupted IdleElapsed 2)].

Lemma capsule_relay_exact_witness :
  let limits := mkRelayLimits 8 60 in
  let '(st, e) := relay_loop limits (relay_start limits 0) example_relay in
  sent st = [lit "ping"] /\ e = Some IdleTimeout /\
  exists rest received rest' final,
    client_payloads example_relay = sent st ++ rest /\ udp_payloads example_relay = received ++ rest' /\
    payloads (read_all (mkReader (written st) None)) = received /\
    last (read_all (mkReader (written st) None)) = Some final /\
    (final = Ok None \/ final = Err UnexpectedEof /\ exists e', e = Some e' /\ cuts_off e') /\
    (e = None -> rest = [] /\ rest' = []) /\
    counted st = mkUdpRelayStats (Z.min u64_max (total (sent st))) (Z.min u64_max (total received)) /\
    client_to_udp (counted st) <= max_bytes_per_direction limits /\
    udp_to_client (counted st) <= max_bytes_per_direction limits.
Proof.
  pose proof (capsule_relay_exact (mkRelayLimits 8 60) 0 example_relay ltac:(done)) as H.
  split; [done|]. split; [done|]. exact H.
Defined.

(** C36: the task that reads capsules ends on every finite input: after at most as
    many capsules as there are bytes it reports the end or an error and stops,
    and no capsule it reports is longer than the limit. *)
Theorem capsule_reader_terminates (r : Reader) :
  exists capsules final,
    read_all r = (Ok ∘ Some <$> capsules) ++ [final] /\ terminal final /\
    Forall (fun c => len (value c) <= MAX_CAPSULE_VALUE) capsules /\
    (length capsules <= length (incoming r))%nat.
Proof. apply reader_task_ends. lia. Qed.
