(* ===== verification/ForwardTarget.v ===== *)
(** Request targets of the forward proxy ([oxiroute-forward-proxy/src/target.rs]):
    absolute-form, authority-form and CONNECT-UDP targets, and the
    normalisation of the host they name.  The [http] crate's [Uri] is the class
    [UriText]; its [Authority] is the one of [Http]. *)

From stdpp Require Import base list strings.
From Stdlib Require Import ZArith Lia Strings.Byte.
From S2P Require Import Prelude Bytes Order Http Net.

Open Scope Z_scope.

(** [http::Uri] as the code reads it. *)
Class UriText (Uri : Type) := {
  uri_parse : bytes -> option Uri;
  scheme_str : Uri -> option bytes;
  uri_authority : Uri -> option bytes;
  path_and_query : Uri -> option bytes;
  uri_path : Uri -> bytes;
  uri_query : Uri -> option bytes;
}.

(** ** Data *)

Inductive ForwardScheme : Type := Scheme_Http | Scheme_Https.

Definition default_port (s : ForwardScheme) : Z :=
  match s with Scheme_Http => 80 | Scheme_Https => 443 end.

Inductive Host : Type := Dns (name : bytes) | Ip (address : IpAddr).

#[export] Instance Host_eq_dec : EqDecision Host.
Proof. solve_decision. Defined.

Definition Host_display (h : Host) : bytes :=
  match h with
  | Dns name => name
  | Ip (V4 a) => display_ip (V4 a)
  | Ip (V6 a) => lit "[" ++ display_ip (V6 a) ++ lit "]"
  end.

Record Destination : Type := mkDestination { host : Host; dest_port : Z }.

#[export] Instance Destination_eq_dec : EqDecision Destination.
Proof. solve_decision. Defined.

Definition Destination_authority (d : Destination) : bytes :=
  Host_display (host d) ++ lit ":" ++ dec_string (dest_port d).

Record ForwardTarget (Uri : Type) : Type := mkForwardTarget {
  scheme : ForwardScheme;
  target_destination : Destination;
  origin_form : Uri;
}.
Arguments mkForwardTarget {Uri} _ _ _.
Arguments scheme {Uri} _.
Arguments target_destination {Uri} _.
Arguments origin_form {Uri} _.

Inductive TargetError : Type :=
| InvalidUri | AbsoluteFormRequired | UnsupportedScheme | UserInfoForbidden | InvalidAuthority
| ConnectAuthorityRequired | ConnectUdpPathRequired | ZeroPort | InvalidDnsName.

(** ** Hosts *)

Definition label_rejected (label : bytes) : bool :=
  bool_decide (label = []) || (63 <? len label) || starts_with label (lit "-") || ends_with label (lit "-") ||
  negb (forallb (fun b => is_ascii_alphanumeric b || Byte.eqb b x2d) label).

Definition target_normalize_host (raw : bytes) : result Host TargetError :=
  let unbracketed := default raw (strip_prefix (lit "[") raw ≫= strip_suffix (lit "]")) in
  match parse_ip unbracketed with
  | Some address => Ok (Ip address)
  | None =>
      if negb (forallb is_ascii unbracketed) then Err InvalidDnsName
      else
        let normalized := to_ascii_lowercase unbracketed in
        let normalized := default normalized (strip_suffix (lit ".") normalized) in
        if bool_decide (normalized = []) || (253 <? len normalized) then Err InvalidDnsName
        else if existsb label_rejected (split x2e normalized) then Err InvalidDnsName
        else Ok (Dns normalized)
  end.

(** ** Authorities *)

(** [raw.matches(c).count()]. *)
Definition count_byte (c : byte) (s : bytes) : Z := len (filter (fun b => b = c) s).

Definition explicit_port (raw : bytes) : result (option bytes) TargetError :=
  if starts_with raw (lit "[") then
    match split_once x5d raw with
    | None => Err InvalidAuthority
    | Some (_, suffix) =>
        if bool_decide (suffix = []) then Ok None
        else
          match strip_prefix (lit ":") suffix with
          | Some (b :: port) => Ok (Some (b :: port))
          | _ => Err InvalidAuthority
          end
    end
  else Ok (snd <$> rsplit_once x3a raw).

Section Targets.
Context {Uri : Type} `{!UriText Uri} `{!HttpText}.

Definition parse_authority (raw : bytes) (default_port : option Z) (require_port : bool) :
    result Destination TargetError :=
  if contains_byte x40 raw then Err UserInfoForbidden
  else if (1 <? count_byte x3a raw) && negb (starts_with raw (lit "[")) then Err InvalidAuthority
  else
    let? explicit_port := explicit_port raw in
    let? authority := ok_or InvalidAuthority (authority_from_str raw) in
    let? port :=
      match explicit_port with
      | Some port =>
          match parse_uint u16_max port with
          | Some 0 => Err ZeroPort
          | Some port => Ok port
          | None => Err InvalidAuthority
          end
      | None => if require_port then Err ConnectAuthorityRequired else ok_or InvalidAuthority default_port
      end in
    let? host := target_normalize_host (authority_host authority) in
    Ok (mkDestination host port).

Definition parse_absolute_form (raw : bytes) : result (ForwardTarget Uri) TargetError :=
  if existsb (fun b => is_ascii_control b || Byte.eqb b x20) raw then Err InvalidUri
  else
    let? uri := ok_or InvalidUri (uri_parse raw) in
    let? scheme :=
      match scheme_str uri with
      | Some value =>
          if eq_ignore_ascii_case value (lit "http") then Ok Scheme_Http
          else if eq_ignore_ascii_case value (lit "https") then Ok Scheme_Https
          else Err UnsupportedScheme
      | None => Err AbsoluteFormRequired
      end in
    let? authority := ok_or AbsoluteFormRequired (uri_authority uri) in
    let? destination := parse_authority authority (Some (default_port scheme)) false in
    let path_and_query := default (lit "/") (path_and_query uri) in
    let? origin_form := ok_or InvalidUri (uri_parse path_and_query) in
    Ok (mkForwardTarget scheme destination origin_form).

Definition parse_connect_authority (raw : bytes) : result Destination TargetError :=
  if contains_byte x2f raw || contains_byte x3f raw || contains_byte x23 raw || contains_byte x40 raw
  then Err ConnectAuthorityRequired
  else
    map_err (fun error => match error with
      | UserInfoForbidden | ZeroPort | InvalidDnsName => error
      | _ => ConnectAuthorityRequired
      end) (parse_authority raw None true).

(** ** CONNECT-UDP paths *)

Definition hex_value (b : byte) : option Z :=
  let v := b2z b in
  if in_range 48 57 v then Some (v - 48)
  else if in_range 97 102 v then Some (v - 97 + 10)
  else if in_range 65 70 v then Some (v - 65 + 10)
  else None.

(** The loop of [percent_decode_segment]. *)
Fixpoint percent_decode (raw : bytes) : result bytes TargetError :=
  match raw with
  | [] => Ok []
  | b :: raw' =>
      if negb (Byte.eqb b x25) then
        if is_ascii_control b || Byte.eqb b x20 then Err ConnectUdpPathRequired
        else let? rest := percent_decode raw' in Ok (b :: rest)
      else
        match raw' with
        | h :: l :: raw'' =>
            let? high := ok_or ConnectUdpPathRequired (hex_value h) in
            let? low := ok_or ConnectUdpPathRequired (hex_value l) in
            let? rest := percent_decode raw'' in
            Ok (z2b (Z.lor (Z.shiftl high 4) low) :: rest)
        | _ => Err ConnectUdpPathRequired
        end
  end.

Definition percent_decode_segment (raw : bytes) : result bytes TargetError :=
  let? decoded := percent_decode raw in
  if utf8_valid decoded then Ok decoded else Err ConnectUdpPathRequired.

Definition parse_connect_udp_path (raw : bytes) : result Destination TargetError :=
  let? uri := ok_or InvalidUri (uri_parse raw) in
  if bool_decide (is_Some (uri_query uri)) then Err ConnectUdpPathRequired
  else
    let? suffix := ok_or ConnectUdpPathRequired
      (strip_prefix (lit "/.well-known/masque/udp/") (uri_path uri) ≫= strip_suffix (lit "/")) in
    let? parts := ok_or ConnectUdpPathRequired
      (match rsplit_once x2f suffix with
       | Some (host, port) => if bool_decide (host <> []) && bool_decide (port <> []) then Some (host, port) else None
       | None => None
       end) in
    let '(encoded_host, port) := parts in
    if contains_byte x3a encoded_host then Err ConnectUdpPathRequired
    else
      let? host := percent_decode_segment encoded_host in
      let authority := if contains_byte x3a host then lit "[" ++ host ++ lit "]:" ++ port
                       else host ++ lit ":" ++ port in
      map_err (fun _ => ConnectUdpPathRequired) (parse_connect_authority authority).
End Targets.

(** ** Canonical destinations *)

Definition dns_byte (b : byte) : bool := is_ascii_alphanumeric b || Byte.eqb b x2d.

(** A name as [target_normalize_host] leaves it: lower case, at most 253 bytes, and
    labels of 1 to 63 letters, digits and inner hyphens. *)
Definition canonical_name (name : bytes) : Prop :=
  name <> [] /\ len name <= 253 /\ to_ascii_lowercase name = name /\
  Forall (fun label => label_rejected label = false) (split x2e name).

Definition canonical_host (h : Host) : Prop :=
  match h with Dns name => canonical_name name | Ip a => ip_ok a end.

Definition canonical (d : Destination) : Prop := canonical_host (host d) /\ 1 <= dest_port d <= u16_max.

Lemma strip_suffix_lowercase s t suffix :
  strip_suffix suffix (to_ascii_lowercase s) = Some t -> to_ascii_lowercase t = t.
Proof.
  intros H. apply strip_suffix_Some in H. pose proof (lowercase_idempotent s) as Hl. rewrite H in Hl.
  unfold to_ascii_lowercase in Hl at 1. rewrite fmap_app in Hl. by apply app_inj_1 in Hl as [Hl _]; [|by rewrite length_fmap].
Qed.

Lemma normalize_host_canonical raw h : target_normalize_host raw = Ok h -> canonical_host h.
Proof.
  unfold target_normalize_host. set (u := default raw _). destruct (parse_ip u) as [a|] eqn:E.
  { intros [= <-]. by eapply parse_ip_ok. }
  case_match; [done|]. set (name := default _ _).
  assert (to_ascii_lowercase name = name) as Hlow.
  { unfold name. destruct (strip_suffix _ _) as [t|] eqn:S; simpl; [by eapply strip_suffix_lowercase|].
    apply lowercase_idempotent. }
  destruct (bool_decide (name = [])) eqn:Hne; [done|]. destruct (Z.ltb_spec 253 (len name)) as [|Hlen]; [done|].
  destruct (existsb label_rejected (split x2e name)) eqn:Hlab; [done|]. intros [= <-].
  apply bool_decide_eq_false in Hne. split_and!; try done. apply Forall_forall. intros l Hl.
  apply not_true_iff_false. intros Hr. apply not_true_iff_false in Hlab. apply Hlab, existsb_exists.
  exists l. by rewrite <- list_elem_of_In.
Qed.

(** The bytes of a piece and the separators make up the text. *)
Lemma split_bytes c s (P : byte -> Prop) : P c -> Forall (Forall P) (split c s) -> Forall P s.
Proof.
  intros Hc. induction s as [|b s IH]; intros H; [done|]. simpl in H.
  destruct (Byte.eqb b c) eqn:E.
  - apply byte_eqb_true in E as ->. apply Forall_cons in H as [_ H]. constructor; auto.
  - destruct (split c s) as [|piece rest] eqn:S.
    + apply Forall_cons in H as [H _]. apply Forall_cons in H as [Hb _]. constructor; [done|]. apply IH. constructor.
    + apply Forall_cons in H as [Hp Hr]. apply Forall_cons in Hp as [Hb Hp]. constructor; [done|]. apply IH. by constructor.
Qed.

Lemma label_ok label : label_rejected label = false ->
  label <> [] /\ Forall (fun b => dns_byte b = true) label.
Proof.
  unfold label_rejected. intros H. bool_inv. split; [done|]. by apply forallb_Forall.
Qed.

(** Letters, digits, hyphens and dots: the bytes of a name. *)
Lemma canonical_bytes name :
  canonical_name name -> Forall (fun b => dns_byte b = true \/ b = x2e) name.
Proof.
  intros (_ & _ & _ & H). apply (split_bytes x2e); [by right|]. eapply Forall_impl; [exact H|].
  intros l Hl%label_ok. destruct Hl as [_ Hl]. eapply Forall_impl; [exact Hl|]. by left.
Qed.

Lemma split_trailing c t : exists p rest, split c (t ++ [c]) = p :: rest ++ [[]].
Proof.
  induction t as [|b t (p & rest & IH)]; simpl; [rewrite (proj2 (byte_eqb_true c c)) by done; by exists [], []|].
  rewrite IH. destruct (Byte.eqb b c); [by exists [], (p :: rest)|by exists (b :: p), rest].
Qed.

Lemma canonical_no_dot name : canonical_name name -> strip_suffix (lit ".") name = None.
Proof.
  intros (_ & _ & _ & H). destruct (strip_suffix (lit ".") name) as [t|] eqn:E; [|done].
  apply strip_suffix_Some in E. change (lit ".") with [x2e] in E. subst name.
  destruct (split_trailing x2e t) as (p & rest & Es). rewrite Es in H.
  apply Forall_cons in H as [_ H]. apply Forall_app in H as [_ H]. by apply Forall_cons in H as [H _].
Qed.

(** A canonical name is normalised to itself, unless it reads as an address. *)
Lemma normalize_canonical name :
  canonical_name name -> parse_ip name = None -> target_normalize_host name = Ok (Dns name).
Proof.
  intros Hc Hip. pose proof (canonical_bytes name Hc) as Hb. pose proof (canonical_no_dot name Hc) as Hdot.
  destruct Hc as (Hne & Hlen & Hlow & Hlab). unfold target_normalize_host.
  assert (strip_prefix (lit "[") name = None) as ->.
  { unfold strip_prefix. destruct name as [|b name]; [done|]. apply Forall_cons in Hb as [Hb _]. simpl.
    destruct (Byte.eqb x5b b) eqn:E; [|done]. apply byte_eqb_true in E as <-. by destruct Hb as [Hb|Hb]. }
  cbn [mbind option_bind default]. rewrite Hip.
  assert (forallb is_ascii name = true) as ->.
  { apply forallb_Forall. eapply Forall_impl; [exact Hb|]. by intros [] [|]. }
  cbn [negb]. rewrite Hlow, Hdot. cbn [default].
  rewrite bool_decide_eq_false_2, (proj2 (Z.ltb_ge 253 _)) by done. cbn [orb].
  destruct (existsb label_rejected (split x2e name)) eqn:E; [|done]. apply existsb_exists in E as (l & Hl & Hr).
  rewrite Forall_forall in Hlab. rewrite Hlab in Hr; [done|]. by apply list_elem_of_In.
Qed.

Lemma contains_byte_false c s : Forall (fun b => b <> c) s -> contains_byte c s = false.
Proof.
  intros H. apply not_true_iff_false. rewrite contains_byte_true. intros Hc.
  rewrite Forall_forall in H. by apply (H c).
Qed.

Lemma count_byte_none c s : Forall (fun b => b <> c) s -> count_byte c s = 0.
Proof.
  intros H. unfold count_byte. induction H as [|b s Hb _ IH]; [done|]. rewrite filter_cons, decide_False by done. done.
Qed.

Lemma count_byte_app c s t : count_byte c (s ++ t) = count_byte c s + count_byte c t.
Proof. unfold count_byte. by rewrite filter_app, len_app. Qed.

Section TargetFacts.
Context {Uri : Type} `{!UriText Uri} `{!HttpText}.

Lemma parse_authority_canonical raw dp (req : bool) d :
  (forall p, dp = Some p -> 1 <= p <= u16_max) -> parse_authority raw dp req = Ok d -> canonical d.
Proof.
  intros Hdp. unfold parse_authority. do 2 (case_match; [done|]). intros Hd.
  apply result_bind_Ok in Hd as (port & _ & Hd). apply result_bind_Ok in Hd as (a & _ & Hd).
  apply result_bind_Ok in Hd as (p & Hp & Hd). apply result_bind_Ok in Hd as (h & Hh & [= <-]).
  split; [by eapply normalize_host_canonical|]. cbn [dest_port]. destruct port as [port|].
  - destruct (parse_uint u16_max port) as [q|] eqn:Eq; [|done]. apply parse_uint_range in Eq.
    destruct q; [done| |lia]. injection Hp as <-. lia.
  - destruct req; [done|]. apply ok_or_Ok in Hp. auto.
Qed.

Lemma parse_connect_canonical raw d : parse_connect_authority raw = Ok d -> canonical d.
Proof.
  unfold parse_connect_authority. case_match; [done|]. intros Hd. apply map_err_Ok in Hd.
  by apply parse_authority_canonical in Hd.
Qed.

(** C39: every destination the three parsers of request targets return is in
    canonical form: a nonzero port of 16 bits and an address of its width or a
    lower-case name of at most 253 bytes with well-formed labels, without a
    trailing dot. *)
Theorem forward_targets_canonical :
  (forall raw (t : ForwardTarget Uri), parse_absolute_form raw = Ok t -> canonical (target_destination t)) /\
  (forall raw d, parse_connect_authority raw = Ok d -> canonical d) /\
  (forall raw d, parse_connect_udp_path raw = Ok d -> canonical d).
Proof.
  split_and!; [|apply parse_connect_canonical|].
  - intros raw t. unfold parse_absolute_form. case_match; [done|]. intros Ht.
    apply result_bind_Ok in Ht as (uri & _ & Ht). apply result_bind_Ok in Ht as (sch & _ & Ht).
    apply result_bind_Ok in Ht as (a & _ & Ht). apply result_bind_Ok in Ht as (d & Hd & Ht).
    apply result_bind_Ok in Ht as (o & _ & [= <-]). cbn [target_destination].
    eapply parse_authority_canonical; [|exact Hd]. intros p [= <-]. by destruct sch.
  - intros raw d. unfold parse_connect_udp_path. intros Hd.
    apply result_bind_Ok in Hd as (uri & _ & Hd). case_match; [done|].
    apply result_bind_Ok in Hd as (suffix & _ & Hd). apply result_bind_Ok in Hd as ([h p] & _ & Hd).
    case_match; [done|]. apply result_bind_Ok in Hd as (dh & _ & Hd). apply map_err_Ok in Hd.
    by eapply parse_connect_canonical.
Qed.
End TargetFacts.

(** ** Round trip of authorities *)

(** The bytes of a name or of an IPv4 address. *)
Definition plain (b : byte) : Prop := dns_byte b = true \/ b = x2e.

(** A host as a URI writes it: a name, an IPv4 address, or an IPv6 address in
    brackets. *)
Definition plain_host (h : bytes) : Prop :=
  (h <> [] /\ Forall plain h) \/ exists a, ip_ok (V6 a) /\ h = lit "[" ++ display_ip (V6 a) ++ lit "]".

(** What the [http] crate documents: a host, a colon and a port are an authority
    with that host and that port. *)
Class AuthorityLaws `{!HttpText} :=
  authority_host_port h p : plain_host h -> 1 <= p <= u16_max ->
    authority_from_str (h ++ lit ":" ++ dec_string p) = Some (mkAuthority h (Some p)).

Section RoundTrip.
Context `{!HttpText} `{!AuthorityLaws}.

Lemma dec_string_not p c : 0 <= p -> is_ascii_digit c = false -> Forall (fun b => b <> c) (dec_string p).
Proof.
  intros Hp Hc. eapply Forall_impl; [apply dec_string_digits; done|]. intros b Hb ->. congruence.
Qed.

Lemma plain_not h c : Forall plain h -> ~ plain c -> Forall (fun b => b <> c) h.
Proof. intros Hpl Hc. eapply Forall_impl; [exact Hpl|]. by intros b Hb ->. Qed.

Lemma authority_bytes h p c :
  Forall (fun b => b <> c) h -> 0 <= p -> is_ascii_digit c = false -> c <> x3a ->
  contains_byte c (h ++ lit ":" ++ dec_string p) = false.
Proof.
  intros Hh Hp Hd Hc. apply contains_byte_false. apply Forall_app; split; [done|].
  apply Forall_app; split; [|by apply dec_string_not]. constructor; [|constructor]. intros E. by apply Hc.
Qed.

(** Once the port is found, the host decides. *)
Lemma parse_authority_host h p hst :
  plain_host h -> 1 <= p <= u16_max -> contains_byte x40 (h ++ lit ":" ++ dec_string p) = false ->
  (1 <? count_byte x3a (h ++ lit ":" ++ dec_string p)) && negb (starts_with (h ++ lit ":" ++ dec_string p) (lit "[")) = false ->
  explicit_port (h ++ lit ":" ++ dec_string p) = Ok (Some (dec_string p)) -> target_normalize_host h = Ok hst ->
  parse_authority (h ++ lit ":" ++ dec_string p) None true = Ok (mkDestination hst p).
Proof.
  intros Hh Hp Hat Hcount Hport Hn. unfold parse_authority. rewrite Hat, Hcount, Hport. cbn [result_bind].
  rewrite authority_host_port by done. cbn [ok_or result_bind authority_host].
  rewrite parse_uint_dec by lia. destruct p; [lia| |lia]. cbn [result_bind]. by rewrite Hn.
Qed.

Lemma parse_plain h p hst :
  h <> [] -> Forall plain h -> 1 <= p <= u16_max -> target_normalize_host h = Ok hst ->
  parse_connect_authority (h ++ lit ":" ++ dec_string p) = Ok (mkDestination hst p).
Proof.
  intros Hne Hh Hp Hn. unfold parse_connect_authority.
  assert (forall c, ~ plain c -> is_ascii_digit c = false -> c <> x3a ->
    contains_byte c (h ++ lit ":" ++ dec_string p) = false) as Hc.
  { intros c H1 H2 H3. apply authority_bytes; [by apply plain_not|lia|done..]. }
  assert (starts_with (h ++ lit ":" ++ dec_string p) (lit "[") = false) as Hs.
  { destruct h as [|b h]; [done|]. apply Forall_cons in Hh as [Hb _]. cbn [app]. simpl.
    destruct (Byte.eqb x5b b) eqn:E; [|done]. apply byte_eqb_true in E as <-. by destruct Hb. }
  rewrite !Hc by (done || by intros []). cbn [orb].
  rewrite (parse_authority_host h p hst); [done|by left|done|apply Hc; [by intros []|done|done]| | |done].
  - change (lit ":" ++ dec_string p) with (x3a :: dec_string p).
    rewrite count_byte_app, count_byte_none by (apply plain_not; [done|by intros []]).
    change (x3a :: dec_string p) with ([x3a] ++ dec_string p).
    rewrite count_byte_app, (count_byte_none _ (dec_string p)) by (apply dec_string_not; [lia|done]). done.
  - unfold explicit_port. rewrite Hs. change (lit ":" ++ dec_string p) with (x3a :: dec_string p).
    rewrite rsplit_once_last by (apply dec_string_not; [lia|done]). done.
Qed.

Lemma display_v4_plain a : Forall plain (display_v4 a).
Proof.
  apply join_chars; [by repeat constructor; right|]. apply Forall_fmap, Forall_true. intros b.
  eapply Forall_impl; [apply dec_string_digits; pose proof (b2z_range b); lia|]. intros c Hc. left.
  unfold dns_byte, is_ascii_alphanumeric. by rewrite Hc, orb_true_r.
Qed.

Lemma display_ip_not a c : addr_char c = false -> Forall (fun b => b <> c) (display_ip a).
Proof.
  intros Hc. eapply Forall_impl; [apply display_ip_spec|]. intros b Hb ->. simpl in Hb. congruence.
Qed.

Lemma normalize_v6 a :
  ip_ok (V6 a) -> target_normalize_host (lit "[" ++ display_ip (V6 a) ++ lit "]") = Ok (Ip (V6 a)).
Proof.
  intros Ha. unfold target_normalize_host.
  assert (strip_prefix (lit "[") (lit "[" ++ display_ip (V6 a) ++ lit "]") = Some (display_ip (V6 a) ++ lit "]")) as ->
    by done.
  cbn [mbind option_bind]. rewrite (proj2 (strip_suffix_Some _ _ _) eq_refl).
  change (default _ (Some (display_ip (V6 a)))) with (display_ip (V6 a)). by rewrite parse_ip_display.
Qed.

Lemma parse_v6 a p :
  ip_ok (V6 a) -> 1 <= p <= u16_max ->
  parse_connect_authority ((lit "[" ++ display_ip (V6 a) ++ lit "]") ++ lit ":" ++ dec_string p) =
  Ok (mkDestination (Ip (V6 a)) p).
Proof.
  intros Ha Hp. unfold parse_connect_authority.
  assert (forall c, addr_char c = false -> c <> x5b -> c <> x5d -> c <> x3a ->
    contains_byte c ((lit "[" ++ display_ip (V6 a) ++ lit "]") ++ lit ":" ++ dec_string p) = false) as Hc.
  { intros c H1 H2 H3 H4. apply authority_bytes; [|lia| |done].
    - constructor; [by intros <-|]. apply Forall_app; split; [by apply display_ip_not|]. constructor; [by intros <-|constructor].
    - unfold addr_char in H1. by destruct (is_ascii_digit c). }
  rewrite !Hc by done. cbn [orb].
  rewrite (parse_authority_host _ p (Ip (V6 a))); [done|right; eauto|done|by apply Hc| | |by apply normalize_v6].
  - by rewrite andb_false_r.
  - assert (Forall (fun b => b <> x5d) (x5b :: display_ip (V6 a))) as Hb
      by (constructor; [done|by apply display_ip_not]).
    unfold explicit_port. change (starts_with _ (lit "[")) with true. cbn iota.
    change (lit "[" ++ display_ip (V6 a) ++ lit "]") with ((x5b :: display_ip (V6 a)) ++ [x5d]).
    rewrite <- app_assoc. change ([x5d] ++ lit ":" ++ dec_string p) with (x5d :: lit ":" ++ dec_string p).
    rewrite (proj1 (split_once_skip _ _ _ Hb)).
    cbn iota. pose proof (dec_string_nonempty p). by destruct (dec_string p).
Qed.
End RoundTrip.

(** A name that does not read as an address. *)
Definition proper_name (h : Host) : Prop :=
  match h with Dns name => parse_ip name = None | Ip _ => True end.

(** The authority a destination in canonical form is written as, in a [Host]
    field or a log, is parsed back to that destination, unless its name reads as
    an address. *)
Theorem forward_authority_roundtrip `{!HttpText} `{!AuthorityLaws} (d : Destination)
    (Hd : canonical d) (Hname : proper_name (host d)) :
  parse_connect_authority (Destination_authority d) = Ok d.
Proof.
  destruct d as [[name|[a|a]] p]; destruct Hd as [Hh Hp]; cbn [host dest_port canonical_host proper_name] in *;
    unfold Destination_authority; cbn [host dest_port Host_display].
  - apply parse_plain; [by destruct Hh|by apply canonical_bytes|done|by apply normalize_canonical].
  - apply parse_plain; [|apply display_v4_plain|done|].
    + intros E. pose proof (parse_ip_display (V4 a) Hh) as Hr. by rewrite E in Hr.
    + unfold target_normalize_host. assert (strip_prefix (lit "[") (display_ip (V4 a)) = None) as ->.
      { pose proof (display_v4_plain a) as Hpl. unfold strip_prefix. cbn [display_ip].
        destruct Hpl as [|b l Hb _]; [done|]. simpl. destruct (Byte.eqb x5b b) eqn:E; [|done].
        apply byte_eqb_true in E as <-. by destruct Hb. }
      change (default (display_ip (V4 a)) (None ≫= _)) with (display_ip (V4 a)). by rewrite parse_ip_display.
  - by apply parse_v6.
Qed.

(** Authorities split at the last colon, for evaluation. *)
Definition split_text : HttpText := {|
  header_name_from_bytes := @header_name_from_bytes example_text;
  header_value_from_str := @header_value_from_str example_text;
  authority_from_str s :=
    match rsplit_once x3a s with
    | Some (h, p) => Some (mkAuthority h (parse_uint u16_max p))
    | None => Some (mkAuthority s None)
    end;
  parse_http_date := @parse_http_date example_text;
  method_cmp := @method_cmp example_text
|}.

Lemma split_text_laws : @AuthorityLaws split_text.
Proof.
  intros h p _ Hp. cbn [authority_from_str split_text]. change (lit ":" ++ dec_string p) with (x3a :: dec_string p).
  rewrite rsplit_once_last by (apply dec_string_not; [lia|done]). by rewrite parse_uint_dec by lia.
Qed.

Lemma forward_authority_roundtrip_witness :
  @parse_connect_authority split_text (lit "[2001:db8::42]:443") =
  Ok (mkDestination (Ip (V6 0x20010db8000000000000000000000042)) 443).
Proof.
  exact (@forward_authority_roundtrip split_text split_text_laws
    (mkDestination (Ip (V6 0x20010db8000000000000000000000042)) 443)
    ltac:(repeat split; vm_compute; congruence) I).
Defined.

(** An IPv4 address with a trailing dot becomes the name of that address, which
    is written as an authority that is parsed to the address instead. *)
Theorem dotted_address_is_name `{!HttpText} `{!AuthorityLaws} :
  let d := mkDestination (Dns (lit "127.0.0.1")) 80 in
  parse_connect_authority (lit "127.0.0.1.:80") = Ok d /\
  parse_connect_authority (Destination_authority d) = Ok (mkDestination (Ip (V4 0x7f000001)) 80).
Proof.
  split.
  - apply (parse_plain (lit "127.0.0.1.") 80); [done| |done|by vm_compute].
    repeat (apply Forall_cons; split); try apply Forall_nil_2; (by left) || (by right).
  - apply (parse_plain (lit "127.0.0.1") 80); [done| |done|by vm_compute].
    repeat (apply Forall_cons; split); try apply Forall_nil_2; (by left) || (by right).
Qed.
