(* ===== verification/ForwardPolicy.v ===== *)
(** Destination policy of the forward proxy
    ([oxiroute-forward-proxy/src/policy.rs]): the fail-closed list of addresses
    that are not public, and the configured rules on names, networks and times.
    A [SystemTime] is a number of nanoseconds since the epoch, negative before
    it. *)

From stdpp Require Import base list sets strings.
From Stdlib Require Import ZArith Lia Strings.Byte.
From S2P Require Import Prelude Bytes Order Http Net ForwardTarget.

Open Scope Z_scope.

(** ** Data *)

Inductive Protocol : Type := Http1 | Http2 | Http3.
#[export] Instance Protocol_eq_dec : EqDecision Protocol.
Proof. solve_decision. Defined.

(** [Principal], by its identity. *)
Abbreviation Principal := bytes (only parsing).

Record PolicyContext : Type := mkPolicyContext { ctx_protocol : Protocol; ctx_principal : Principal }.

Inductive PolicyError : Type := LocalName | ForbiddenAddress | ForbiddenTime | ForbiddenPort | Rejected.

Inductive RuleError : Type := Malformed | Duplicate | InvalidTimeWindow.

(** [DestinationPolicy::authorize]. *)
Abbreviation DestinationPolicy := (PolicyContext -> Destination -> list IpAddr -> result unit PolicyError)
  (only parsing).

Record ApprovedDestination : Type := mkApprovedDestination {
  approved : Destination;
  socket_addresses : list SocketAddr;
}.

Definition ApprovedDestination_new (destination : Destination) (addresses : list IpAddr) : ApprovedDestination :=
  mkApprovedDestination destination ((fun a => mkSocketAddr a (dest_port destination)) <$> addresses).

(** ** Addresses that are not public *)

(** [uN::MAX << k] at width [w]. *)
Definition mask_of (w k : Z) : Z := Z.land (Z.shiftl (Z.ones w) k) (Z.ones w).

Definition in_v4 (value network prefix : Z) : bool :=
  let mask := mask_of 32 (32 - prefix) in Z.land value mask =? Z.land network mask.
Definition in_v6 (value network prefix : Z) : bool :=
  let mask := mask_of 128 (128 - prefix) in Z.land value mask =? Z.land network mask.

Definition is_forbidden_v4 (value : Z) : bool :=
  in_v4 value 0x00000000 8 || in_v4 value 0x0a000000 8 || in_v4 value 0x64400000 10 ||
  in_v4 value 0x7f000000 8 || in_v4 value 0xa9fe0000 16 || in_v4 value 0xac100000 12 ||
  in_v4 value 0xc0000000 24 || in_v4 value 0xc0000200 24 || in_v4 value 0xc0a80000 16 ||
  in_v4 value 0xc6120000 15 || in_v4 value 0xc6336400 24 || in_v4 value 0xcb007100 24 ||
  in_v4 value 0xe0000000 4 || in_v4 value 0xf0000000 4.

(** [is_unspecified] and [is_loopback] of an IPv6 address. *)
Definition v6_unspecified (value : Z) : bool := value =? 0.
Definition v6_loopback (value : Z) : bool := value =? 1.

Definition is_forbidden_v6 (value : Z) : bool :=
  v6_unspecified value || v6_loopback value || in_v6 value 0 96 ||
  in_v6 value 0x0064ff9b000000000000000000000000 96 || in_v6 value 0x0064ff9b000100000000000000000000 48 ||
  in_v6 value 0x01000000000000000000000000000000 64 || in_v6 value 0x20010000000000000000000000000000 23 ||
  in_v6 value 0x20010db8000000000000000000000000 32 || in_v6 value 0x20020000000000000000000000000000 16 ||
  in_v6 value 0x3fff0000000000000000000000000000 20 || in_v6 value 0xfc000000000000000000000000000000 7 ||
  in_v6 value 0xfe800000000000000000000000000000 10 || in_v6 value 0xfec00000000000000000000000000000 10 ||
  in_v6 value 0xff000000000000000000000000000000 8.

Definition is_forbidden_address (address : IpAddr) : bool :=
  match address with
  | V4 a => is_forbidden_v4 a
  | V6 a => match to_ipv4_mapped a with Some mapped => is_forbidden_v4 mapped | None => is_forbidden_v6 a end
  end.

Definition ForbiddenDestinationPolicy_authorize : DestinationPolicy := fun _ destination addresses =>
  let local := match host destination with
               | Dns name => beqb name (lit "localhost") || ends_with name (lit ".localhost")
               | Ip _ => false
               end in
  if local then Err LocalName
  else if existsb is_forbidden_address addresses then Err ForbiddenAddress
  else Ok tt.

(** ** Rules *)

Record TimeWindow : Type := mkTimeWindow { days : Z; start_minute : Z; end_minute : Z }.
#[export] Instance TimeWindow_eq_dec : EqDecision TimeWindow.
Proof. solve_decision. Defined.

(** [days & !0x7f] of a [u8]. *)
Definition window_malformed (days start_minute end_minute : Z) : bool :=
  (days =? 0) || negb (Z.land days (Z.lxor 0x7f 0xff) =? 0) || (end_minute <=? start_minute) || (24 * 60 <? end_minute).

Definition TimeWindow_new (days start_minute end_minute : Z) : result TimeWindow RuleError :=
  if window_malformed days start_minute end_minute then Err InvalidTimeWindow
  else Ok (mkTimeWindow days start_minute end_minute).

Definition matches_at (w : TimeWindow) (now : Z) : bool :=
  if now <? 0 then false
  else
    let secs := now / 10 ^ 9 in
    let days_since_epoch := secs / (24 * 60 * 60) in
    let weekday := (days_since_epoch + 3) mod 7 in
    let minute := (secs mod 86400) / 60 in
    negb (Z.land (days w) (Z.shiftl 1 weekday) =? 0) && ((start_minute w <=? minute) && (minute <? end_minute w)).

Inductive DomainRule : Type := Exact (name : bytes) | OneLabelWildcard (suffix : bytes).
#[export] Instance DomainRule_eq_dec : EqDecision DomainRule.
Proof. solve_decision. Defined.

Definition label_valid (label : bytes) : bool :=
  negb (bool_decide (label = [])) && (len label <=? 63) &&
  forallb (fun b => is_ascii_alphanumeric b || Byte.eqb b x2d) label &&
  default false (is_ascii_alphanumeric <$> head label) && default false (is_ascii_alphanumeric <$> last label).

Definition valid_dns_name (name : bytes) : bool :=
  negb (bool_decide (name = [])) && (len name <=? 253) && negb (ends_with name (lit ".")) &&
  bool_decide (parse_ip name = None) && forallb label_valid (split x2e name).

Definition DomainRule_parse (value : bytes) : result DomainRule RuleError :=
  let value := to_ascii_lowercase value in
  match strip_prefix (lit "*.") value with
  | Some suffix => if valid_dns_name suffix then Ok (OneLabelWildcard suffix) else Err Malformed
  | None => if valid_dns_name value then Ok (Exact value) else Err Malformed
  end.

Definition DomainRule_matches (rule : DomainRule) (name : bytes) : bool :=
  match rule with
  | Exact expected => beqb name expected
  | OneLabelWildcard suffix =>
      match strip_suffix suffix name ≫= strip_suffix (lit ".") with
      | Some label => negb (bool_decide (label = [])) && negb (contains_byte x2e label)
      | None => false
      end
  end.

Inductive IpNetwork : Type := NetV4 (network prefix : Z) | NetV6 (network prefix : Z).
#[export] Instance IpNetwork_eq_dec : EqDecision IpNetwork.
Proof. solve_decision. Defined.

Definition v4_mask (prefix : Z) : Z := if prefix =? 0 then 0 else mask_of 32 (32 - prefix).
Definition v6_mask (prefix : Z) : Z := if prefix =? 0 then 0 else mask_of 128 (128 - prefix).

Definition IpNetwork_parse (value : bytes) : result IpNetwork RuleError :=
  let? parts := ok_or Malformed (split_once x2f value) in
  let '(address, prefix) := parts in
  let? address := ok_or Malformed (parse_ip address) in
  let? prefix := ok_or Malformed (parse_uint u8_max prefix) in
  match address with
  | V4 network =>
      if (prefix <=? 32) && (Z.land network (v4_mask prefix) =? network)
      then Ok (NetV4 network prefix) else Err Malformed
  | V6 network =>
      if (prefix <=? 128) && (Z.land network (v6_mask prefix) =? network)
      then Ok (NetV6 network prefix) else Err Malformed
  end.

Definition IpNetwork_contains (n : IpNetwork) (address : IpAddr) : bool :=
  match n, address with
  | NetV4 network prefix, V4 a => Z.land a (v4_mask prefix) =? network
  | NetV6 network prefix, V6 a => Z.land a (v6_mask prefix) =? network
  | NetV4 _ _, V6 _ | NetV6 _ _, V4 _ => false
  end.

(** [parse_unique]: the loop with the list parsed so far. *)
Fixpoint parse_unique_from {T} `{!EqDecision T} (parse : bytes -> result T RuleError) (parsed : list T)
    (values : list bytes) : result (list T) RuleError :=
  match values with
  | [] => Ok parsed
  | value :: values =>
      let? value := parse value in
      if bool_decide (value ∈ parsed) then Err Duplicate
      else parse_unique_from parse (parsed ++ [value]) values
  end.
Definition parse_unique {T} `{!EqDecision T} (values : list bytes) (parse : bytes -> result T RuleError) :
    result (list T) RuleError := parse_unique_from parse [] values.

Fixpoint parse_time_windows_from (parsed values : list TimeWindow) : result (list TimeWindow) RuleError :=
  match values with
  | [] => Ok parsed
  | value :: values =>
      if window_malformed (days value) (start_minute value) (end_minute value) then Err InvalidTimeWindow
      else if bool_decide (value ∈ parsed) then Err Duplicate
      else parse_time_windows_from (parsed ++ [value]) values
  end.
Definition parse_time_windows (values : list TimeWindow) : result (list TimeWindow) RuleError :=
  parse_time_windows_from [] values.

Record DestinationRules : Type := mkDestinationRules {
  allow_domains : list DomainRule;
  deny_domains : list DomainRule;
  allow_networks : list IpNetwork;
  deny_networks : list IpNetwork;
  allow_times : list TimeWindow;
  deny_times : list TimeWindow;
  deny_private : bool;
}.

Definition DestinationRules_new (allow_domains deny_domains allow_cidrs deny_cidrs : list bytes)
    (deny_private : bool) : result DestinationRules RuleError :=
  let? allow_domains := parse_unique allow_domains DomainRule_parse in
  let? deny_domains := parse_unique deny_domains DomainRule_parse in
  let? allow_networks := parse_unique allow_cidrs IpNetwork_parse in
  let? deny_networks := parse_unique deny_cidrs IpNetwork_parse in
  Ok (mkDestinationRules allow_domains deny_domains allow_networks deny_networks [] [] deny_private).

Definition with_time_windows (rules : DestinationRules) (allow deny : list TimeWindow) :
    result DestinationRules RuleError :=
  let? allow_times := parse_time_windows allow in
  let? deny_times := parse_time_windows deny in
  Ok (mkDestinationRules (allow_domains rules) (deny_domains rules) (allow_networks rules)
        (deny_networks rules) allow_times deny_times (deny_private rules)).

(** [matches!(&destination.host, Host::Dns(name) if ...)]. *)
Definition host_matches (rules : list DomainRule) (h : Host) : bool :=
  match h with Dns name => existsb (fun rule => DomainRule_matches rule name) rules | Ip _ => false end.

Definition authorize_at (rules : DestinationRules) (context : PolicyContext) (destination : Destination)
    (addresses : list IpAddr) (now : Z) : result unit PolicyError :=
  let? _ := if deny_private rules then ForbiddenDestinationPolicy_authorize context destination addresses else Ok tt in
  if host_matches (deny_domains rules) (host destination) then Err Rejected
  else if negb (bool_decide (allow_domains rules = [])) && negb (host_matches (allow_domains rules) (host destination))
  then Err Rejected
  else if existsb (fun w => matches_at w now) (deny_times rules) ||
          (negb (bool_decide (allow_times rules = [])) && negb (existsb (fun w => matches_at w now) (allow_times rules)))
  then Err ForbiddenTime
  else if existsb (fun a => existsb (fun n => IpNetwork_contains n a) (deny_networks rules)) addresses
  then Err ForbiddenAddress
  else if negb (bool_decide (allow_networks rules = [])) &&
          existsb (fun a => negb (existsb (fun n => IpNetwork_contains n a) (allow_networks rules))) addresses
  then Err Rejected
  else Ok tt.

Definition approve_at (rules : DestinationRules) (context : PolicyContext) (destination : Destination)
    (addresses : list IpAddr) (now : Z) : result ApprovedDestination PolicyError :=
  let? _ := authorize_at rules context destination addresses now in
  Ok (ApprovedDestination_new destination addresses).

(** ** What rules mean *)

(** Two addresses of one family agree on their first [n] bits. *)
Definition same_block (n : Z) (x y : IpAddr) : Prop :=
  match x, y with
  | V4 x, V4 y => Z.shiftr x (32 - n) = Z.shiftr y (32 - n)
  | V6 x, V6 y => Z.shiftr x (128 - n) = Z.shiftr y (128 - n)
  | _, _ => False
  end.

(** The address lies in the network a text like [10.0.0.0/8] writes. *)
Definition network_text (text : bytes) (a : IpAddr) : Prop :=
  exists address prefix x n, split_once x2f text = Some (address, prefix) /\ parse_ip address = Some x /\
    parse_uint u8_max prefix = Some n /\ same_block n x a.

(** The name is the one a text like [example.com] writes, or [*.example.com]
    without the star stands for one label before the rest. *)
Definition domain_text (text name : bytes) : Prop :=
  match strip_prefix (lit "*.") (to_ascii_lowercase text) with
  | Some suffix => exists label, label <> [] /\ (x2e ∉ label) /\ name = label ++ lit "." ++ suffix
  | None => name = to_ascii_lowercase text
  end.

(** The time is on a day and in the minutes of the window; day 0 is Monday, and
    the epoch was a Thursday. *)
Definition window_holds (w : TimeWindow) (now : Z) : Prop :=
  let secs := now / 10 ^ 9 in
  0 <= now /\ Z.testbit (days w) ((secs / 86400 + 3) mod 7) = true /\
  start_minute w <= (secs mod 86400) / 60 < end_minute w.

Lemma land_mask a w k : 0 <= k <= w -> 0 <= a < 2 ^ w -> Z.land a (mask_of w k) = Z.shiftl (Z.shiftr a k) k.
Proof.
  intros Hk Ha. apply Z.bits_inj'. intros i Hi. unfold mask_of. rewrite !Z.land_spec.
  destruct (Z.ltb_spec i k).
  - rewrite !Z.shiftl_spec_low by lia. by rewrite andb_false_l, andb_false_r.
  - rewrite !Z.shiftl_spec by lia. rewrite Z.shiftr_spec by lia. replace (i - k + k) with i by lia.
    rewrite !Z.testbit_ones_nonneg by lia. destruct (Z.ltb_spec i w).
    + by rewrite (proj2 (Z.ltb_lt (i - k) w)), !andb_true_r by lia.
    + rewrite !andb_false_r. symmetry. destruct (decide (a = 0)) as [->|]; [apply Z.bits_0|].
      apply Z.bits_above_log2; [lia|]. assert (Z.log2 a < w); [|lia]. apply Z.log2_lt_pow2; lia.
Qed.

Lemma shiftl_inj a b k : 0 <= k -> Z.shiftl a k = Z.shiftl b k -> a = b.
Proof. intros Hk H. rewrite !Z.shiftl_mul_pow2 in H by lia. apply Z.mul_cancel_r in H; [done|lia]. Qed.

Lemma masked_eq a b w k :
  0 <= k <= w -> 0 <= a < 2 ^ w -> 0 <= b < 2 ^ w ->
  (Z.land a (mask_of w k) =? Z.land b (mask_of w k)) = true <-> Z.shiftr b k = Z.shiftr a k.
Proof.
  intros Hk Ha Hb. rewrite Z.eqb_eq, !land_mask by done. split; [intros H|by intros ->].
  symmetry. by apply (shiftl_inj _ _ k); [lia|].
Qed.

(** Membership in a network with its host bits cleared. *)
Lemma masked_network a net w n :
  0 <= n <= w -> 0 <= a < 2 ^ w -> 0 <= net < 2 ^ w ->
  Z.land net (if n =? 0 then 0 else mask_of w (w - n)) = net ->
  (Z.land a (if n =? 0 then 0 else mask_of w (w - n)) =? net) = true <-> Z.shiftr net (w - n) = Z.shiftr a (w - n).
Proof.
  intros Hn Ha Hnet Hm. destruct (Z.eqb_spec n 0) as [->|].
  - rewrite Z.land_0_r in *. subst net. rewrite Z.sub_0_r, !Z.shiftr_div_pow2 by lia.
    rewrite !Z.div_small by lia. by rewrite Z.eqb_refl.
  - rewrite <- Hm at 1. apply masked_eq; lia.
Qed.

Lemma IpNetwork_parse_spec text n a :
  IpNetwork_parse text = Ok n -> ip_ok a -> IpNetwork_contains n a = true <-> network_text text a.
Proof.
  unfold IpNetwork_parse. intros H Ha. apply result_bind_Ok in H as ([address prefix] & Hs%ok_or_Ok & H).
  apply result_bind_Ok in H as (x & Hx%ok_or_Ok & H). apply result_bind_Ok in H as (p & Hp%ok_or_Ok & H).
  assert (same_block p x a <-> network_text text a) as <-.
  { split; [intros Hb; by exists address, prefix, x, p|]. intros (? & ? & ? & ? & ? & ? & ? & ?). by simplify_eq. }
  pose proof (parse_uint_range _ _ _ Hp). pose proof (parse_ip_ok _ _ Hx) as Hok.
  destruct x as [net|net]; (destruct (_ && _) eqn:E in H; [|done]); injection H as <-; bool_inv;
    destruct a as [a|a]; cbn [IpNetwork_contains same_block ip_ok] in *; try done; apply masked_network; (done || lia).
Qed.

Lemma DomainRule_parse_spec text r name :
  DomainRule_parse text = Ok r -> DomainRule_matches r name = true <-> domain_text text name.
Proof.
  unfold DomainRule_parse, domain_text. destruct (strip_prefix _ _) as [suffix|]; (case_match; [|done]); intros [= <-].
  - cbn [DomainRule_matches]. destruct (strip_suffix suffix name) as [t|] eqn:E; cbn [mbind option_bind].
    + apply strip_suffix_Some in E as ->. destruct (strip_suffix (lit ".") t) as [label|] eqn:F.
      * apply strip_suffix_Some in F as ->. rewrite andb_true_iff, !negb_true_iff, bool_decide_eq_false.
        rewrite <- not_true_iff_false, contains_byte_true, <- app_assoc.
        split; [intros [Hne Hd]; eauto|]. intros (l & Hl & Hd & He). apply app_inv_tail in He as ->. done.
      * split; [done|]. intros (l & _ & _ & He). rewrite app_assoc in He. apply app_inv_tail in He as ->.
        by rewrite (proj2 (strip_suffix_Some _ _ _) eq_refl) in F.
    + split; [done|]. intros (l & _ & _ & ->). rewrite app_assoc in E.
      by rewrite (proj2 (strip_suffix_Some _ _ _) eq_refl) in E.
  - cbn [DomainRule_matches]. unfold beqb. by rewrite bool_decide_eq_true.
Qed.

Lemma parse_unique_spec {T} `{!EqDecision T} (parse : bytes -> result T RuleError) values parsed :
  parse_unique values parse = Ok parsed -> Forall2 (fun v t => parse v = Ok t) values parsed /\ NoDup parsed.
Proof.
  unfold parse_unique.
  assert (forall acc, NoDup acc -> parse_unique_from parse acc values = Ok parsed ->
    exists more, parsed = acc ++ more /\ Forall2 (fun v t => parse v = Ok t) values more /\ NoDup parsed) as Hk.
  { induction values as [|v values IH]; intros acc Hacc H.
    - injection H as <-. exists []. by rewrite app_nil_r.
    - cbn [parse_unique_from] in H. apply result_bind_Ok in H as (t & Ht & H). case_bool_decide as Hin; [done|].
      apply IH in H as (more & -> & Hm & Hnd).
      + exists (t :: more). rewrite <- app_assoc in *. split_and!; [done|by constructor|done].
      + apply NoDup_app. split_and!; [done|set_solver|apply NoDup_singleton]. }
  intros H. apply Hk in H as (more & -> & Hm & Hnd); [done|constructor].
Qed.

(** A rule of the parsed list holds when one of the texts does. *)
Lemma existsb_texts {T} (parse : bytes -> result T RuleError) (test : T -> bool) (holds : bytes -> Prop) values parsed :
  Forall2 (fun v t => parse v = Ok t) values parsed ->
  (forall v t, parse v = Ok t -> test t = true <-> holds v) ->
  existsb test parsed = true <-> Exists holds values.
Proof.
  intros H Hspec. induction H as [|v t values parsed Hv _ IH]; simpl; [by rewrite Exists_nil|].
  by rewrite orb_true_iff, Exists_cons, IH, (Hspec v t Hv).
Qed.

Lemma matches_at_spec w now : matches_at w now = true <-> window_holds w now.
Proof.
  unfold matches_at, window_holds. change (24 * 60 * 60) with 86400. destruct (Z.ltb_spec now 0); [split; [done|lia]|].
  rewrite !andb_true_iff, Z.leb_le, Z.ltb_lt, negb_true_iff, Z.eqb_neq.
  set (k := (now / 10 ^ 9 / 86400 + 3) mod 7). assert (0 <= k) as Hk by (by apply Z.mod_pos_bound).
  assert (Z.land (days w) (Z.shiftl 1 k) <> 0 <-> Z.testbit (days w) k = true) as ->; [|tauto].
  rewrite Z.shiftl_1_l, <- Z.land_comm. split; intros Hn.
  - destruct (Z.testbit (days w) k) eqn:E; [done|]. destruct Hn. apply Z.bits_inj'. intros i Hi.
    rewrite Z.land_spec, Z.bits_0, Z.pow2_bits_eqb by done. destruct (Z.eqb_spec k i) as [<-|]; [by rewrite E|done].
  - intros H0. apply (f_equal (fun z => Z.testbit z k)) in H0.
    rewrite Z.land_spec, Z.bits_0, Z.pow2_bits_true, Hn in H0 by done. done.
Qed.

(** ** The addresses that are never public *)

Definition special_networks_v4 : list bytes :=
  [lit "0.0.0.0/8"; lit "10.0.0.0/8"; lit "100.64.0.0/10"; lit "127.0.0.0/8"; lit "169.254.0.0/16";
   lit "172.16.0.0/12"; lit "192.0.0.0/24"; lit "192.0.2.0/24"; lit "192.168.0.0/16"; lit "198.18.0.0/15";
   lit "198.51.100.0/24"; lit "203.0.113.0/24"; lit "224.0.0.0/4"; lit "240.0.0.0/4"].
Definition special_networks_v6 : list bytes :=
  [lit "::/96"; lit "64:ff9b::/96"; lit "64:ff9b:1::/48"; lit "100::/64"; lit "2001::/23"; lit "2001:db8::/32";
   lit "2002::/16"; lit "3fff::/20"; lit "fc00::/7"; lit "fe80::/10"; lit "fec0::/10"; lit "ff00::/8"].

(** An IPv4-mapped address stands for the IPv4 address in it. *)
Definition unmapped (a : IpAddr) : IpAddr :=
  match a with
  | V6 x => match to_ipv4_mapped x with Some v4 => V4 v4 | None => V6 x end
  | V4 x => V4 x
  end.

Lemma unmapped_ok a : ip_ok a -> ip_ok (unmapped a).
Proof.
  destruct a as [x|x]; [done|]. cbn [unmapped]. unfold to_ipv4_mapped. destruct (_ =? _); [|done].
  intros _. by apply Z.mod_pos_bound.
Qed.

Lemma in_v4_contains x net p :
  (p =? 0) = false -> Z.land net (mask_of 32 (32 - p)) = net -> in_v4 x net p = IpNetwork_contains (NetV4 net p) (V4 x).
Proof. intros Hp Hm. unfold in_v4, IpNetwork_contains, v4_mask. by rewrite Hp, Hm. Qed.

Lemma in_v6_contains x net p :
  (p =? 0) = false -> Z.land net (mask_of 128 (128 - p)) = net -> in_v6 x net p = IpNetwork_contains (NetV6 net p) (V6 x).
Proof. intros Hp Hm. unfold in_v6, IpNetwork_contains, v6_mask. by rewrite Hp, Hm. Qed.

Definition parsed_networks (texts : list bytes) : list IpNetwork :=
  omap (fun text => result_ok (IpNetwork_parse text)) texts.

Lemma parsed_networks_spec texts a :
  forallb (fun text => is_ok (IpNetwork_parse text)) texts = true -> ip_ok a ->
  existsb (fun n => IpNetwork_contains n a) (parsed_networks texts) = true <->
  Exists (fun text => network_text text a) texts.
Proof.
  intros Hok Ha. apply (existsb_texts IpNetwork_parse); [|intros v t Hv; by apply IpNetwork_parse_spec].
  induction texts as [|text texts IH]; [constructor|]. simpl in Hok. bool_inv.
  unfold parsed_networks. simpl. destruct (IpNetwork_parse text) as [n|e] eqn:E; [|done]. constructor; auto.
Qed.

Lemma parsed_v4 :
  parsed_networks special_networks_v4 =
  [NetV4 0x00000000 8; NetV4 0x0a000000 8; NetV4 0x64400000 10; NetV4 0x7f000000 8; NetV4 0xa9fe0000 16;
   NetV4 0xac100000 12; NetV4 0xc0000000 24; NetV4 0xc0000200 24; NetV4 0xc0a80000 16; NetV4 0xc6120000 15;
   NetV4 0xc6336400 24; NetV4 0xcb007100 24; NetV4 0xe0000000 4; NetV4 0xf0000000 4].
Proof. by vm_compute. Qed.

Lemma parsed_v6 :
  parsed_networks special_networks_v6 =
  [NetV6 0 96; NetV6 0x0064ff9b000000000000000000000000 96; NetV6 0x0064ff9b000100000000000000000000 48;
   NetV6 0x01000000000000000000000000000000 64; NetV6 0x20010000000000000000000000000000 23;
   NetV6 0x20010db8000000000000000000000000 32; NetV6 0x20020000000000000000000000000000 16;
   NetV6 0x3fff0000000000000000000000000000 20; NetV6 0xfc000000000000000000000000000000 7;
   NetV6 0xfe800000000000000000000000000000 10; NetV6 0xfec00000000000000000000000000000 10;
   NetV6 0xff000000000000000000000000000000 8].
Proof. by vm_compute. Qed.

Lemma special_networks_parse :
  forallb (fun text => is_ok (IpNetwork_parse text)) special_networks_v4 = true /\
  forallb (fun text => is_ok (IpNetwork_parse text)) special_networks_v6 = true.
Proof. by vm_compute. Qed.

Lemma forbidden_v4_table x :
  is_forbidden_v4 x = existsb (fun n => IpNetwork_contains n (V4 x)) (parsed_networks special_networks_v4).
Proof.
  rewrite parsed_v4. unfold is_forbidden_v4. rewrite !in_v4_contains by done. cbn [existsb].
  by rewrite orb_false_r, <- !orb_assoc.
Qed.

Lemma forbidden_v6_table x :
  is_forbidden_v6 x = existsb (fun n => IpNetwork_contains n (V6 x)) (parsed_networks special_networks_v6).
Proof.
  rewrite parsed_v6. unfold is_forbidden_v6. rewrite !in_v6_contains by done. cbn [existsb].
  assert (v6_unspecified x || v6_loopback x || IpNetwork_contains (NetV6 0 96) (V6 x) =
          IpNetwork_contains (NetV6 0 96) (V6 x)) as ->.
  { unfold v6_unspecified, v6_loopback. destruct (Z.eqb_spec x 0) as [->|]; [done|].
    destruct (Z.eqb_spec x 1) as [->|]; [done|]. done. }
  by rewrite orb_false_r, <- !orb_assoc.
Qed.

Lemma is_forbidden_spec a :
  ip_ok a -> is_forbidden_address a = true <->
  Exists (fun text => network_text text (unmapped a)) (special_networks_v4 ++ special_networks_v6).
Proof.
  intros Ha. pose proof (unmapped_ok a Ha) as Hu. rewrite Exists_app.
  rewrite <- !parsed_networks_spec by (done || apply special_networks_parse).
  assert (is_forbidden_address a =
    existsb (fun n => IpNetwork_contains n (unmapped a)) (parsed_networks special_networks_v4) ||
    existsb (fun n => IpNetwork_contains n (unmapped a)) (parsed_networks special_networks_v6)) as ->;
    [|by rewrite orb_true_iff].
  unfold is_forbidden_address, unmapped. destruct a as [x|x].
  - rewrite forbidden_v4_table, parsed_v6. by rewrite orb_false_r.
  - destruct (to_ipv4_mapped x) as [v|]; [rewrite forbidden_v4_table, parsed_v6; by rewrite orb_false_r|].
    rewrite forbidden_v6_table, parsed_v4. cbn [existsb IpNetwork_contains orb]. done.
Qed.

(** ** What the rules admit *)

Lemma parse_time_windows_spec values parsed : parse_time_windows values = Ok parsed -> parsed = values.
Proof.
  unfold parse_time_windows. change parsed with ([] ++ parsed) at 1.
  assert (forall acc, parse_time_windows_from acc values = Ok parsed -> parsed = acc ++ values) as Hk; [|apply Hk].
  induction values as [|w values IH]; intros acc H; cbn [parse_time_windows_from] in H.
  - injection H as <-. by rewrite app_nil_r.
  - do 2 (case_match; [done|]). apply IH in H as ->. by rewrite <- app_assoc.
Qed.

Definition local_name (name : bytes) : Prop := name = lit "localhost" \/ exists t, name = t ++ lit ".localhost".

(** The destination with the addresses it resolved to is admitted at a time by
    rules given as texts.  An IPv4-mapped address stands for the IPv4 address in
    it, and is refused as not public. *)
Record admitted (allow_domains deny_domains allow_cidrs deny_cidrs : list bytes)
    (allow_times deny_times : list TimeWindow) (deny_private : bool)
    (d : Destination) (addresses : list IpAddr) (now : Z) : Prop := {
  adm_private : deny_private = true ->
    (forall name, host d = Dns name -> ~ local_name name) /\
    Forall (fun a => unmapped a = a /\ ~ Exists (fun t => network_text t a) (special_networks_v4 ++ special_networks_v6)) addresses;
  adm_not_denied : forall name, host d = Dns name -> ~ Exists (fun t => domain_text t name) deny_domains;
  adm_allowed : allow_domains = [] \/ exists name, host d = Dns name /\ Exists (fun t => domain_text t name) allow_domains;
  adm_time : ~ Exists (fun w => window_holds w now) deny_times /\
    (allow_times = [] \/ Exists (fun w => window_holds w now) allow_times);
  adm_networks : Forall (fun a => ~ Exists (fun t => network_text t (unmapped a)) deny_cidrs) addresses /\
    (allow_cidrs = [] \/ Forall (fun a => Exists (fun t => network_text t (unmapped a)) allow_cidrs) addresses)
}.

(** No element passes the test. *)
Lemma existsb_none {A} (test : A -> bool) (holds : A -> Prop) l :
  Forall (fun a => test a = true <-> holds a) l -> existsb test l = false <-> Forall (fun a => ~ holds a) l.
Proof.
  induction 1 as [|a l Ha _ IH]; simpl; [by rewrite Forall_nil|].
  rewrite orb_false_iff, Forall_cons, IH, <- Ha, <- not_true_iff_false. done.
Qed.

Lemma existsb_all {A} (test : A -> bool) (holds : A -> Prop) l :
  Forall (fun a => test a = true <-> holds a) l -> existsb (fun a => negb (test a)) l = false <-> Forall holds l.
Proof.
  induction 1 as [|a l Ha _ IH]; simpl; [by rewrite Forall_nil|].
  by rewrite orb_false_iff, Forall_cons, IH, <- Ha, negb_false_iff.
Qed.

Lemma existsb_windows now ws :
  existsb (fun w => matches_at w now) ws = true <-> Exists (fun w => window_holds w now) ws.
Proof.
  rewrite existsb_exists, Exists_exists. setoid_rewrite matches_at_spec. by setoid_rewrite list_elem_of_In.
Qed.

Lemma Forall2_nil_iff {A B} (P : A -> B -> Prop) l k : Forall2 P l k -> k = [] <-> l = [].
Proof. by destruct 1. Qed.

Lemma private_spec ctx d addresses :
  Forall ip_ok addresses ->
  ForbiddenDestinationPolicy_authorize ctx d addresses = Ok tt <->
  (forall name, host d = Dns name -> ~ local_name name) /\
  Forall (fun a => ~ Exists (fun t => network_text t (unmapped a)) (special_networks_v4 ++ special_networks_v6)) addresses.
Proof.
  intros Hok. rewrite <- (existsb_none is_forbidden_address).
  2: { eapply Forall_impl; [exact Hok|]. apply is_forbidden_spec. }
  unfold ForbiddenDestinationPolicy_authorize.
  assert (forall name, beqb name (lit "localhost") || ends_with name (lit ".localhost") = true <-> local_name name) as Hl.
  { intros name. unfold beqb. by rewrite orb_true_iff, bool_decide_eq_true, ends_with_spec. }
  destruct (host d) as [name|a].
  - destruct (beqb name _ || _) eqn:E; [apply Hl in E; split; [done|naive_solver]|].
    assert (~ local_name name) by (rewrite <- Hl; congruence).
    destruct (existsb is_forbidden_address addresses); split; naive_solver.
  - destruct (existsb is_forbidden_address addresses); split; naive_solver.
Qed.

(** Without IPv4-mapped addresses. *)
Lemma private_unmapped ctx d addresses :
  Forall ip_ok addresses -> Forall (fun a => unmapped a = a) addresses ->
  ForbiddenDestinationPolicy_authorize ctx d addresses = Ok tt <->
  (forall name, host d = Dns name -> ~ local_name name) /\
  Forall (fun a => unmapped a = a /\ ~ Exists (fun t => network_text t a) (special_networks_v4 ++ special_networks_v6)) addresses.
Proof.
  intros Hok Hu. rewrite private_spec, !Forall_forall in * by done. split; intros [Hn Hf]; (split; [done|]); intros a Ha;
    specialize (Hf a Ha); specialize (Hu a Ha); rewrite Hu in *; naive_solver.
Qed.

(** A check that returns early. *)
Lemma unless_Ok {A E} (b : bool) (e : E) (k : result A E) a :
  (if b then Err e else k) = Ok a <-> b = false /\ k = Ok a.
Proof. destruct b; naive_solver. Qed.

Lemma unless_empty_false {A} `{!EqDecision A} (l : list A) b :
  negb (bool_decide (l = [])) && b = false <-> l = [] \/ b = false.
Proof. case_bool_decide; destruct b; naive_solver. Qed.

Lemma bind_unit_Ok {B E} (r : result unit E) (k : result B E) b :
  result_bind r (fun _ => k) = Ok b <-> r = Ok tt /\ k = Ok b.
Proof. destruct r as [[]|]; naive_solver. Qed.

Lemma optional_Ok {E} (b : bool) (r : result unit E) : (if b then r else Ok tt) = Ok tt <-> (b = true -> r = Ok tt).
Proof. destruct b; naive_solver. Qed.

Lemma authorize_at_Ok rules ctx d addresses now :
  authorize_at rules ctx d addresses now = Ok tt <->
  (deny_private rules = true -> ForbiddenDestinationPolicy_authorize ctx d addresses = Ok tt) /\
  host_matches (deny_domains rules) (host d) = false /\
  (allow_domains rules = [] \/ host_matches (allow_domains rules) (host d) = true) /\
  (existsb (fun w => matches_at w now) (deny_times rules) = false /\
   (allow_times rules = [] \/ existsb (fun w => matches_at w now) (allow_times rules) = true)) /\
  existsb (fun a => existsb (fun n => IpNetwork_contains n a) (deny_networks rules)) addresses = false /\
  (allow_networks rules = [] \/
   existsb (fun a => negb (existsb (fun n => IpNetwork_contains n a) (allow_networks rules))) addresses = false).
Proof.
  unfold authorize_at. rewrite bind_unit_Ok, optional_Ok, !unless_Ok, orb_false_iff, !unless_empty_false, !negb_false_iff.
  tauto.
Qed.

Lemma host_matches_spec rules texts h :
  Forall2 (fun v t => DomainRule_parse v = Ok t) texts rules ->
  host_matches rules h = true <-> exists name, h = Dns name /\ Exists (fun t => domain_text t name) texts.
Proof.
  intros Hp. destruct h as [name|a]; cbn [host_matches]; [|naive_solver].
  rewrite (existsb_texts DomainRule_parse _ (fun t => domain_text t name) texts); [naive_solver|done|].
  intros v t Hv. by apply DomainRule_parse_spec.
Qed.

Lemma networks_spec nets texts a :
  Forall2 (fun v t => IpNetwork_parse v = Ok t) texts nets -> ip_ok a -> unmapped a = a ->
  existsb (fun n => IpNetwork_contains n a) nets = true <-> Exists (fun t => network_text t (unmapped a)) texts.
Proof.
  intros Hp Ha ->. apply (existsb_texts IpNetwork_parse); [done|]. intros v t Hv. by apply IpNetwork_parse_spec.
Qed.

Lemma rules_spec ad dd an dn dp rules ctx d addresses now :
  Forall2 (fun v t => DomainRule_parse v = Ok t) ad (allow_domains rules) ->
  Forall2 (fun v t => DomainRule_parse v = Ok t) dd (deny_domains rules) ->
  Forall2 (fun v t => IpNetwork_parse v = Ok t) an (allow_networks rules) ->
  Forall2 (fun v t => IpNetwork_parse v = Ok t) dn (deny_networks rules) ->
  deny_private rules = dp -> Forall ip_ok addresses -> Forall (fun a => unmapped a = a) addresses ->
  authorize_at rules ctx d addresses now = Ok tt <->
  admitted ad dd an dn (allow_times rules) (deny_times rules) dp d addresses now.
Proof.
  intros Had Hdd Han Hdn <- Hok Hu. rewrite authorize_at_Ok, private_unmapped by done.
  pose proof (proj2 (Forall_and _ _) (conj Hok Hu)) as Hb.
  rewrite (existsb_none (fun a => existsb (fun n => IpNetwork_contains n a) (deny_networks rules))
    (fun a => Exists (fun t => network_text t (unmapped a)) dn)).
  2: { eapply Forall_impl; [exact Hb|]. intros a [Ha Hm]. by apply networks_spec. }
  rewrite (existsb_all (fun a => existsb (fun n => IpNetwork_contains n a) (allow_networks rules))
    (fun a => Exists (fun t => network_text t (unmapped a)) an)).
  2: { eapply Forall_impl; [exact Hb|]. intros a [Ha Hm]. by apply networks_spec. }
  rewrite <- (not_true_iff_false (host_matches (deny_domains rules) _)), (host_matches_spec _ dd) by done.
  rewrite (host_matches_spec _ ad), (Forall2_nil_iff _ _ _ Had), (Forall2_nil_iff _ _ _ Han) by done.
  rewrite <- (not_true_iff_false (existsb _ (deny_times rules))), !existsb_windows.
  split.
  - intros (H1 & H2 & H3 & H4 & H5 & H6). constructor; naive_solver.
  - intros [H1 H2 H3 H4 [H5 H6]]. split_and!; naive_solver.
Qed.

(** C26: rules built from texts approve a destination exactly when it is admitted
    by what the texts say: for every resolved address, not only for one, and with
    deny rules before allow rules; what is approved is the destination with
    exactly the addresses that were given. This is for addresses that are not
    IPv4-mapped: how the rules treat those is not what the documentation says, see
    [mapped_address_evades_deny] and [mapped_public_address_passes]. *)
Theorem forward_rules_exact (ad dd an dn : list bytes) (dp : bool) (ta td : list TimeWindow)
    (rules0 rules : DestinationRules) (ctx : PolicyContext) (d : Destination) (addresses : list IpAddr) (now : Z)
    (Hnew : DestinationRules_new ad dd an dn dp = Ok rules0) (Htimes : with_time_windows rules0 ta td = Ok rules)
    (Hok : Forall ip_ok addresses) (Hunmapped : Forall (fun a => unmapped a = a) addresses) :
  match approve_at rules ctx d addresses now with
  | Ok a => admitted ad dd an dn ta td dp d addresses now /\
            a = mkApprovedDestination d ((fun a => mkSocketAddr a (dest_port d)) <$> addresses)
  | Err _ => ~ admitted ad dd an dn ta td dp d addresses now
  end.
Proof.
  unfold DestinationRules_new in Hnew. apply result_bind_Ok in Hnew as (a1 & [H1 _]%parse_unique_spec & Hnew).
  apply result_bind_Ok in Hnew as (a2 & [H2 _]%parse_unique_spec & Hnew).
  apply result_bind_Ok in Hnew as (a3 & [H3 _]%parse_unique_spec & Hnew).
  apply result_bind_Ok in Hnew as (a4 & [H4 _]%parse_unique_spec & [= <-]).
  unfold with_time_windows in Htimes. apply result_bind_Ok in Htimes as (t1 & ->%parse_time_windows_spec & Htimes).
  apply result_bind_Ok in Htimes as (t2 & ->%parse_time_windows_spec & [= <-]).
  pose proof (rules_spec ad dd an dn dp (mkDestinationRules a1 a2 a3 a4 ta td dp) ctx d addresses now
    H1 H2 H3 H4 eq_refl Hok Hunmapped) as Hs. cbn [allow_times deny_times] in Hs. cbn [allow_domains deny_domains allow_networks
    deny_networks deny_private]. unfold approve_at.
  destruct (authorize_at _ ctx d addresses now) as [[]|e]; cbn [result_bind]; [by split; [apply Hs|]|].
  intros Ha. by apply Hs in Ha.
Qed.

Definition example_rules : DestinationRules :=
  mkDestinationRules [] [Exact (lit "bad.example")] [NetV4 0xc6000000 8] [] [mkTimeWindow 0x1f 540 1020] [] true.

Lemma forward_rules_exact_witness :
  approve_at example_rules (mkPolicyContext Http1 []) (mkDestination (Dns (lit "good.example")) 443) [V4 0xc6000001]
    (10 ^ 9 * (4 * 86400 + 600 * 60)) =
    Ok (mkApprovedDestination (mkDestination (Dns (lit "good.example")) 443) [mkSocketAddr (V4 0xc6000001) 443]) /\
  admitted [] [lit "Bad.Example"] [lit "198.0.0.0/8"] [] [mkTimeWindow 0x1f 540 1020] [] true
    (mkDestination (Dns (lit "good.example")) 443) [V4 0xc6000001] (10 ^ 9 * (4 * 86400 + 600 * 60)).
Proof.
  pose proof (forward_rules_exact [] [lit "Bad.Example"] [lit "198.0.0.0/8"] [] true [mkTimeWindow 0x1f 540 1020] []
    (mkDestinationRules [] [Exact (lit "bad.example")] [NetV4 0xc6000000 8] [] [] [] true) example_rules
    (mkPolicyContext Http1 []) (mkDestination (Dns (lit "good.example")) 443) [V4 0xc6000001]
    (10 ^ 9 * (4 * 86400 + 600 * 60)) ltac:(by vm_compute) ltac:(by vm_compute)
    ltac:(repeat constructor; by vm_compute) ltac:(repeat constructor; by vm_compute)) as H.
  exact (conj (eq_refl _) (proj1 H)).
Defined.

(** An address is refused as not public exactly when the address, or the IPv4
    address mapped into it, lies in one of twenty-six special-purpose networks. *)
Theorem forbidden_addresses_exact (a : IpAddr) (Ha : ip_ok a) :
  is_forbidden_address a = true <->
  Exists (fun text => network_text text (unmapped a)) (special_networks_v4 ++ special_networks_v6).
Proof. by apply is_forbidden_spec. Qed.

Lemma forbidden_addresses_exact_witness :
  is_forbidden_address (V6 0xffff0a000001) = true <->
  Exists (fun text => network_text text (V4 0x0a000001)) (special_networks_v4 ++ special_networks_v6).
Proof. exact (forbidden_addresses_exact (V6 0xffff0a000001) ltac:(by vm_compute)). Defined.

(** A network that is denied does not cover the IPv4-mapped form of its
    addresses: with [10.0.0.0/8] denied, [10.0.0.1] is refused and
    [::ffff:10.0.0.1], which connects to the same host, is approved. *)
Theorem mapped_address_evades_deny :
  let rules := mkDestinationRules [] [] [] [NetV4 0x0a000000 8] [] [] false in
  let ctx := mkPolicyContext Http1 [] in
  DestinationRules_new [] [] [] [lit "10.0.0.0/8"] false = Ok rules /\
  authorize_at rules ctx (mkDestination (Ip (V4 0x0a000001)) 80) [V4 0x0a000001] 0 = Err ForbiddenAddress /\
  authorize_at rules ctx (mkDestination (Ip (V6 0xffff0a000001)) 80) [V6 0xffff0a000001] 0 = Ok tt.
Proof. by vm_compute. Qed.

(** IPv4-mapped addresses are not refused as such. *)
Theorem mapped_public_address_passes : is_forbidden_address (V6 0xffff08080808) = false.
Proof. by vm_compute. Qed.
