(* ===== verification/ForwardDecision.v ===== *)
(** Decisions of the forward proxy ([oxiroute-forward-proxy/src/decision.rs],
    [headers.rs], [auth.rs]): a request is parsed, authenticated, resolved once,
    authorised and, unless it is a tunnel, its header fields are sanitised.

    The authenticator and the resolver are traits whose implementations the
    caller chooses; they act on a world of their own, so that a decision tells
    which of them were called and in which order. *)

From stdpp Require Import base list sets strings.
From Stdlib Require Import ZArith Lia Strings.Byte.
From S2P Require Import Prelude Bytes Order Http Net ForwardTarget ForwardPolicy.

Open Scope Z_scope.

(** ** Header fields *)

Definition CONNECTION : HeaderName := lit "connection".
Definition PROXY_AUTHORIZATION : HeaderName := lit "proxy-authorization".
Definition HOST : HeaderName := lit "host".

(** The fields that are removed besides those [Connection] names. *)
Definition hop_by_hop : list HeaderName :=
  [CONNECTION; lit "keep-alive"; lit "proxy-authenticate"; PROXY_AUTHORIZATION; lit "te"; lit "trailer";
   lit "transfer-encoding"; lit "upgrade"; lit "proxy-connection"].

Inductive HeaderSanitizationError : Type := InvalidConnectionToken | InvalidHost.

(** [HeaderValue::to_str]: visible ASCII, spaces and tabs. *)
Definition header_to_str (value : HeaderValue) : option bytes :=
  if forallb (fun b => in_range 32 126 (b2z b) || Byte.eqb b x09) value then Some value else None.

Section Headers.
Context {H : Type} `{!HeaderMap H} `{!HttpText}.

(** The tokens of one [Connection] field. *)
Fixpoint connection_tokens (tokens : list bytes) : result (list HeaderName) HeaderSanitizationError :=
  match tokens with
  | [] => Ok []
  | token :: tokens =>
      let token := trim_ows token in
      if bool_decide (token = []) then Err InvalidConnectionToken
      else
        let? name := ok_or InvalidConnectionToken (header_name_from_bytes token) in
        let? names := connection_tokens tokens in
        Ok (name :: names)
  end.

(** The tokens of all [Connection] fields. *)
Fixpoint connection_headers (values : list HeaderValue) : result (list HeaderName) HeaderSanitizationError :=
  match values with
  | [] => Ok []
  | value :: values =>
      let? text := ok_or InvalidConnectionToken (header_to_str value) in
      let? names := connection_tokens (split x2c text) in
      let? rest := connection_headers values in
      Ok (names ++ rest)
  end.

Definition sanitize_request_headers (source : H) (destination : Destination) :
    result H HeaderSanitizationError :=
  let? connection_headers := connection_headers (get_all source CONNECTION) in
  let sanitized := foldl header_remove source connection_headers in
  let sanitized := foldl header_remove sanitized hop_by_hop in
  let? host := ok_or InvalidHost (header_value_from_str (Destination_authority destination)) in
  Ok (header_insert sanitized HOST host).
End Headers.

(** ** Requests and decisions *)

Inductive AuthError : Type := Auth_Missing | Auth_Invalid | Auth_Unavailable.
Inductive ResolveError : Type := NoAddresses | Resolve_Failed.

Record AuthRequest : Type := mkAuthRequest {
  auth_protocol : Protocol;
  auth_client_addr : SocketAddr;
  auth_credentials : option bytes;
}.

Inductive H3RequestError : Type := MalformedClassicConnect | ExtendedConnectUnsupported.

Inductive DecisionError : Type :=
| InvalidTarget (e : TargetError)
| Authentication (e : AuthError)
| Resolution (e : ResolveError)
| Policy (e : PolicyError)
| InvalidHeaders (e : HeaderSanitizationError)
| InvalidHttp3 (e : H3RequestError).

Record DecisionRejection : Type := mkDecisionRejection { status : Z; proxy_authenticate : bool }.

Definition DecisionError_rejection (e : DecisionError) : DecisionRejection :=
  match e with
  | InvalidTarget _ | InvalidHeaders _ | InvalidHttp3 _ => mkDecisionRejection 400 false
  | Authentication _ => mkDecisionRejection 407 true
  | Policy _ => mkDecisionRejection 403 false
  | Resolution _ => mkDecisionRejection 502 false
  end.

Definition deduplicate (addresses : list IpAddr) : list IpAddr :=
  foldl (fun unique a => if bool_decide (a ∈ unique) then unique else unique ++ [a]) [] addresses.

Definition CONNECT : Method := lit "CONNECT".

Section Decisions.
Context {H Uri : Type} `{!HeaderMap H} `{!HttpText} `{!UriText Uri}.

Record IncomingRequest : Type := mkIncomingRequest {
  req_protocol : Protocol;
  req_client_addr : SocketAddr;
  req_method : Method;
  req_target : bytes;
  req_headers : H;
}.

Record ForwardDecision : Type := mkForwardDecision {
  fwd_principal : Principal;
  fwd_method : Method;
  fwd_scheme : ForwardScheme;
  fwd_target : Uri;
  fwd_headers : H;
  fwd_destination : ApprovedDestination;
}.

Record TunnelDecision : Type := mkTunnelDecision {
  tun_principal : Principal;
  tun_destination : ApprovedDestination;
}.

Inductive Decision : Type := Forward (f : ForwardDecision) | Tunnel (t : TunnelDecision).

Inductive ParsedRequest : Type := Parsed_Forward (t : ForwardTarget Uri) | Parsed_Tunnel (d : Destination).

Definition parsed_destination (p : ParsedRequest) : Destination :=
  match p with Parsed_Forward t => target_destination t | Parsed_Tunnel d => d end.

(** What the proxy is built from: an authenticator, a resolver and a policy. *)
Context {W : Type}.
Variable authenticate : AuthRequest -> M W AuthError Principal.
Variable resolve : bytes -> M W ResolveError (list IpAddr).
Variable authorize : PolicyContext -> Destination -> list IpAddr -> result unit PolicyError.

Abbreviation DecisionM := (M W DecisionError).

(** [?] on a call that fails with another error. *)
Definition wrap {E A} (f : E -> DecisionError) (c : M W E A) : DecisionM A := fun w =>
  match c w with (Ok a, w') => (Ok a, w') | (Err e, w') => (Err (f e), w') end.

Definition parse_request (request : IncomingRequest) : result ParsedRequest DecisionError :=
  if beqb (req_method request) CONNECT
  then map_err InvalidTarget (result_map Parsed_Tunnel (parse_connect_authority (req_target request)))
  else map_err InvalidTarget (result_map Parsed_Forward (parse_absolute_form (req_target request))).

(** The part of [decide] after the resolution. *)
Definition conclude (request : IncomingRequest) (parsed : ParsedRequest) (principal : Principal)
    (addresses : list IpAddr) : result Decision DecisionError :=
  if bool_decide (addresses = []) then Err (Resolution NoAddresses)
  else
    let destination := parsed_destination parsed in
    let addresses := deduplicate addresses in
    let? _ := map_err Policy
      (authorize (mkPolicyContext (req_protocol request) principal) destination addresses) in
    let approved := ApprovedDestination_new destination addresses in
    match parsed with
    | Parsed_Forward target =>
        let? headers := map_err InvalidHeaders
          (sanitize_request_headers (req_headers request) (target_destination target)) in
        Ok (Forward (mkForwardDecision principal (req_method request) (scheme target) (origin_form target)
                       headers approved))
    | Parsed_Tunnel _ => Ok (Tunnel (mkTunnelDecision principal approved))
    end.

Definition ForwardProxy_decide (request : IncomingRequest) : DecisionM Decision :=
  let! parsed := mlift (parse_request request) in
  let values := get_all (req_headers request) PROXY_AUTHORIZATION in
  let credentials := head values in
  let! _ := mlift (if bool_decide (tail values <> []) then Err (Authentication Auth_Invalid) else Ok tt) in
  let! principal := wrap Authentication
    (authenticate (mkAuthRequest (req_protocol request) (req_client_addr request) credentials)) in
  let! addresses := match host (parsed_destination parsed) with
                    | Ip address => mret [address]
                    | Dns name => wrap Resolution (resolve name)
                    end in
  mlift (conclude request parsed principal addresses).

(** [decide_request]: a framed request by its URI, with the display of a URI and
    the [:protocol] pseudo-header as arguments. *)
Definition ForwardProxy_decide_request (uri_display : Uri -> bytes) (protocol : Protocol) (client_addr : SocketAddr)
    (method : Method) (uri : Uri) (extended : bool) (headers : H) : DecisionM Decision :=
  let! _ := mlift
    (if bool_decide (protocol = Http3) && beqb method CONNECT then
       if extended then Err (InvalidHttp3 ExtendedConnectUnsupported)
       else if bool_decide (uri_authority uri = None) || bool_decide (is_Some (scheme_str uri)) ||
               bool_decide (is_Some (path_and_query uri))
       then Err (InvalidHttp3 MalformedClassicConnect)
       else Ok tt
     else Ok tt) in
  ForwardProxy_decide (mkIncomingRequest protocol client_addr method (uri_display uri) headers).
End Decisions.

(** ** Facts *)

Section HeaderFacts.
Context {H : Type} `{!HeaderMap H} `{!HeaderMapLaws H} `{!HttpText}.

Lemma get_all_removed (names : list HeaderName) (source : H) n :
  get_all (foldl header_remove source names) n = if decide (n ∈ names) then [] else get_all source n.
Proof.
  revert source; induction names as [|m names IH]; intros source; cbn [foldl].
  - by rewrite decide_False by apply not_elem_of_nil.
  - rewrite IH, get_all_remove. repeat case_decide; set_solver.
Qed.

Lemma sanitize_spec (source out : H) d :
  sanitize_request_headers source d = Ok out ->
  exists names v, connection_headers (get_all source CONNECTION) = Ok names /\
    header_value_from_str (Destination_authority d) = Some v /\
    forall n, get_all out n = if decide (n = HOST) then [v]
                              else if decide (n ∈ names ++ hop_by_hop) then [] else get_all source n.
Proof.
  unfold sanitize_request_headers. intros Hs. apply result_bind_Ok in Hs as (names & Hn & Hs).
  apply result_bind_Ok in Hs as (v & Hv%ok_or_Ok & Hs). exists names, v. split_and!; [done..|].
  match type of Hs with Ok ?x = _ => assert (out = x) as -> by congruence end.
  intros n. rewrite get_all_insert, !get_all_removed. repeat case_decide; set_solver.
Qed.
End HeaderFacts.

Lemma deduplicate_spec addresses :
  NoDup (deduplicate addresses) /\ (forall a, a ∈ deduplicate addresses <-> a ∈ addresses).
Proof.
  unfold deduplicate.
  assert (forall acc, NoDup acc ->
    let r := foldl (fun unique a => if bool_decide (a ∈ unique) then unique else unique ++ [a]) acc addresses in
    NoDup r /\ forall a, a ∈ r <-> a ∈ acc \/ a ∈ addresses) as Hk.
  { induction addresses as [|x addresses IH]; intros acc Hacc; cbn [foldl]; [set_solver|].
    case_bool_decide as Hin.
    - destruct (IH acc Hacc) as [H1 H2]. split; [done|]. intros a. rewrite H2. set_solver.
    - destruct (IH (acc ++ [x])) as [H1 H2]; [apply NoDup_app; split_and!; [done|set_solver|apply NoDup_singleton]|].
      split; [done|]. intros a. rewrite H2. set_solver. }
  destruct (Hk [] ltac:(constructor)) as [H1 H2]. split; [done|]. intros a. rewrite H2. set_solver.
Qed.

Section DecisionFacts.
Context {H Uri : Type} `{!HeaderMap H} `{!HeaderMapLaws H} `{!HttpText} `{!UriText Uri}.
Context {W : Type}.
Variable authenticate : AuthRequest -> M W AuthError Principal.
Variable resolve : bytes -> M W ResolveError (list IpAddr).
Variable authorize : PolicyContext -> Destination -> list IpAddr -> result unit PolicyError.

Lemma wrap_Ok {E A} (f : E -> DecisionError) (c : M W E A) w a w' :
  wrap f c w = (Ok a, w') <-> c w = (Ok a, w').
Proof. unfold wrap. destruct (c w) as [[b|e] w1]; naive_solver. Qed.

Definition decision_principal (d : Decision (H := H) (Uri := Uri)) : Principal :=
  match d with Forward f => fwd_principal f | Tunnel t => tun_principal t end.
Definition decision_destination (d : Decision (H := H) (Uri := Uri)) : ApprovedDestination :=
  match d with Forward f => fwd_destination f | Tunnel t => tun_destination t end.

(** The addresses of a destination: the literal one, or the answer of the one
    resolution that was made. *)
Definition resolved (h : Host) (w w' : W) (addresses : list IpAddr) : Prop :=
  match h with
  | Ip a => addresses = [a] /\ w' = w
  | Dns name => resolve name w = (Ok addresses, w')
  end.

(** What a decision rests on. *)
Record grounded (request : IncomingRequest (H := H)) (w : W) (d : Decision (H := H) (Uri := Uri)) (w' : W) : Prop := {
  gr_calls : exists parsed w1 addresses,
    parse_request request = Ok parsed /\
    (length (get_all (req_headers request) PROXY_AUTHORIZATION) <= 1)%nat /\
    authenticate (mkAuthRequest (req_protocol request) (req_client_addr request)
      (head (get_all (req_headers request) PROXY_AUTHORIZATION))) w = (Ok (decision_principal d), w1) /\
    resolved (host (parsed_destination parsed)) w1 w' addresses /\ addresses <> [] /\
    authorize (mkPolicyContext (req_protocol request) (decision_principal d)) (parsed_destination parsed)
      (deduplicate addresses) = Ok tt /\
    decision_destination d = ApprovedDestination_new (parsed_destination parsed) (deduplicate addresses);
  gr_headers : forall f, d = Forward f ->
    sanitize_request_headers (req_headers request) (approved (fwd_destination f)) = Ok (fwd_headers f)
}.

Lemma decide_grounded request w d w' :
  ForwardProxy_decide authenticate resolve authorize request w = (Ok d, w') -> grounded request w d w'.
Proof.
  unfold ForwardProxy_decide. intros Hd. apply mbind_se_Ok in Hd as (parsed & w0 & [Hp ->]%mlift_Ok & Hd).
  apply mbind_se_Ok in Hd as ([] & w1 & [Hc ->]%mlift_Ok & Hd). case_bool_decide as Htail; [done|].
  apply mbind_se_Ok in Hd as (principal & w2 & Ha%wrap_Ok & Hd).
  apply mbind_se_Ok in Hd as (addresses & w3 & Hr & Hd).
  apply mlift_Ok in Hd as [Hd ->]. unfold conclude in Hd. case_bool_decide as Hne; [done|].
  apply result_bind_Ok in Hd as ([] & Hz%map_err_Ok & Hd).
  assert (length (get_all (req_headers request) PROXY_AUTHORIZATION) <= 1)%nat as Hone.
  { destruct (get_all (req_headers request) PROXY_AUTHORIZATION) as [|x [|y l]]; simpl in *; [lia|lia|]. done. }
  assert (resolved (host (parsed_destination parsed)) w2 w3 addresses) as Hres.
  { unfold resolved. destruct (host (parsed_destination parsed)); [by apply wrap_Ok in Hr|by injection Hr as <- <-]. }
  destruct parsed as [t|dest].
  - apply result_bind_Ok in Hd as (headers & Hh%map_err_Ok & [= <-]).
    constructor; [by exists (Parsed_Forward t), w2, addresses|]. by intros f [= <-].
  - injection Hd as <-. constructor; [by exists (Parsed_Tunnel dest), w2, addresses|done].
Qed.

(** The calls a request makes: none; the authenticator; or the authenticator,
    which accepted, and then the resolver once. *)
Definition calls (request : IncomingRequest (H := H)) (w w' : W) : Prop :=
  w' = w \/
  exists r w1, authenticate (mkAuthRequest (req_protocol request) (req_client_addr request)
      (head (get_all (req_headers request) PROXY_AUTHORIZATION))) w = (r, w1) /\
    (w' = w1 \/ exists p name answer, r = Ok p /\ resolve name w1 = (answer, w')).

Lemma mlift_bind {A B E} (r : result A E) (k : A -> M W E B) w :
  mbind_se (mlift r) k w = match r with Ok a => k a w | Err e => (Err e, w) end.
Proof. by destruct r. Qed.

Lemma wrap_bind {A B E} (f : E -> DecisionError) (c : M W E A) (k : A -> M W DecisionError B) w :
  mbind_se (wrap f c) k w = match c w with (Ok a, w') => k a w' | (Err e, w') => (Err (f e), w') end.
Proof. unfold mbind_se, wrap. by destruct (c w) as [[a|e] w']. Qed.

Lemma decide_calls request w :
  calls request w (ForwardProxy_decide (Uri := Uri) authenticate resolve authorize request w).2.
Proof.
  unfold ForwardProxy_decide, calls. rewrite mlift_bind. destruct (parse_request request) as [parsed|e]; [|by left].
  rewrite mlift_bind. case_bool_decide; [by left|]. right.
  rewrite wrap_bind. destruct (authenticate _ w) as [r w1]. exists r, w1. split; [done|].
  destruct r as [p|e]; [|by left].
  destruct (host (parsed_destination parsed)) as [name|a]; [|by left].
  right. exists p, name. rewrite wrap_bind. destruct (resolve name w1) as [[addresses|e] w2]; by eexists.
Qed.
End DecisionFacts.

(** C15: a request is decided in favour only when its target parses, it carries at
    most one credential, the authenticator accepts it, the name is resolved once
    after that, and the policy authorises every address of the answer; the
    decision carries that principal and exactly those addresses, without
    repetitions, so nothing is resolved again.  A forwarded request has lost the
    hop-by-hop fields, the credentials and what [Connection] names, and its
    [Host] is the destination. *)
Theorem forward_decision_pinned {H Uri W : Type} `{!HeaderMap H} `{!HeaderMapLaws H} `{!HttpText} `{!UriText Uri}
    (authenticate : AuthRequest -> M W AuthError Principal) (resolve : bytes -> M W ResolveError (list IpAddr))
    (authorize : PolicyContext -> Destination -> list IpAddr -> result unit PolicyError)
    (request : IncomingRequest (H := H)) (w : W) (d : Decision (H := H) (Uri := Uri)) (w' : W)
    (Hd : ForwardProxy_decide authenticate resolve authorize request w = (Ok d, w')) :
  grounded authenticate resolve authorize request w d w' /\
  NoDup (socket_addresses (decision_destination d)) /\
  forall f, d = Forward f -> exists names v,
    connection_headers (get_all (req_headers request) CONNECTION) = Ok names /\
    header_value_from_str (Destination_authority (approved (fwd_destination f))) = Some v /\
    forall n, get_all (fwd_headers f) n =
      if decide (n = HOST) then [v]
      else if decide (n ∈ names ++ hop_by_hop) then [] else get_all (req_headers request) n.
Proof.
  apply decide_grounded in Hd. split; [done|]. split.
  - destruct (gr_calls _ _ _ _ _ _ _ Hd) as (parsed & w1 & addresses & _ & _ & _ & _ & _ & _ & ->).
    cbn [ApprovedDestination_new socket_addresses]. apply NoDup_fmap_2; [by intros ? ? [= ->]|apply deduplicate_spec].
  - intros f Hf. by apply sanitize_spec, (gr_headers _ _ _ _ _ _ _ Hd).
Qed.

(** Whatever the outcome, the authenticator is called at most once and the
    resolver at most once, and the resolver only for a request whose target is
    valid and whose client the authenticator has accepted. *)
Theorem forward_call_order {H Uri W : Type} `{!HeaderMap H} `{!HttpText} `{!UriText Uri}
    (authenticate : AuthRequest -> M W AuthError Principal) (resolve : bytes -> M W ResolveError (list IpAddr))
    (authorize : PolicyContext -> Destination -> list IpAddr -> result unit PolicyError)
    (request : IncomingRequest (H := H)) (w : W) :
  calls authenticate resolve request w
    (ForwardProxy_decide (Uri := Uri) authenticate resolve authorize request w).2.
Proof. apply decide_calls. Qed.

(** ** An evaluation *)

(** URIs of the two forms the example uses, [http://authority/path] and [/path]. *)
Definition example_uri : Type := option bytes * option bytes * bytes.
#[export] Instance example_UriText : UriText example_uri := {
  uri_parse raw :=
    match strip_prefix (lit "http://") raw with
    | Some rest =>
        match split_once x2f rest with
        | Some (authority, path) => Some (Some (lit "http"), Some authority, x2f :: path)
        | None => Some (Some (lit "http"), Some rest, lit "/")
        end
    | None => if starts_with raw (lit "/") then Some (None, None, raw) else None
    end;
  scheme_str u := u.1.1;
  uri_authority u := u.1.2;
  path_and_query u := Some u.2;
  uri_path u := u.2;
  uri_query u := None
}.

(** The world is the log of the names that were resolved. *)
Definition example_decide (headers : list (HeaderName * HeaderValue)) (target : bytes) :
    M (list bytes) DecisionError (Decision (H := list (HeaderName * HeaderValue)) (Uri := example_uri)) :=
  @ForwardProxy_decide _ _ _ split_text _ (list bytes)
    (fun _ => mret (lit "alice"))
    (fun name log => (Ok [V4 0x5db8d822; V4 0x5db8d822], log ++ [name]))
    ForbiddenDestinationPolicy_authorize
    (mkIncomingRequest Http1 (mkSocketAddr (V4 0x7f000001) 1234) GET target headers).

Definition example_headers : list (HeaderName * HeaderValue) :=
  [(CONNECTION, lit "keep-alive, x-private"); (lit "x-private", lit "secret"); (PROXY_AUTHORIZATION, lit "Basic x");
   (lit "accept", lit "*/*")].

Definition example_decision : Decision (H := list (HeaderName * HeaderValue)) (Uri := example_uri) :=
  Forward (mkForwardDecision (lit "alice") GET Scheme_Http (None, None, lit "/resource")
    [(lit "accept", lit "*/*"); (HOST, lit "example.com:80")]
    (mkApprovedDestination (mkDestination (Dns (lit "example.com")) 80) [mkSocketAddr (V4 0x5db8d822) 80])).

Lemma forward_decision_pinned_witness :
  example_decide example_headers (lit "http://Example.com/resource") [] = (Ok example_decision, [lit "example.com"]) /\
  NoDup (socket_addresses (decision_destination example_decision)).
Proof.
  split; [by vm_compute|].
  exact (proj1 (proj2 (@forward_decision_pinned _ _ _ _ _ split_text _ _ _ _ _ [] example_decision [lit "example.com"]
    (eq_refl : example_decide example_headers (lit "http://Example.com/resource") [] = _)))).
Defined.
