(* ===== verification/Tunnel.v ===== *)
(** Bounded tunnels of the forward proxy
    ([oxiroute-forward-proxy/src/tunnel.rs]): the limits, the relay of an HTTP/2
    CONNECT stream, and the stream that replays overread bytes.

    A relay is a step function on what its [select!] blocks return.  Durations
    and instants are numbers; an I/O error is known by its number. *)

From stdpp Require Import base list strings.
From Stdlib Require Import ZArith Lia Strings.Byte.
From S2P Require Import Prelude Bytes Http Net ProxyProtocol.

Open Scope Z_scope.

(** ** Limits and outcomes *)

Definition MAX_TUNNEL_BUFFER_SIZE : Z := 1024 * 1024.

Record TunnelLimits : Type := mkTunnelLimits {
  max_bytes_per_direction : Z;
  idle_timeout : Z;
  lifetime_timeout : Z;
  buffer_size : Z;
}.

Inductive TunnelConfigError : Type := ZeroByteLimit | ZeroIdleTimeout | ZeroLifetimeTimeout | InvalidBufferSize.

Definition BoundedTunnel_new (limits : TunnelLimits) : result TunnelLimits TunnelConfigError :=
  if max_bytes_per_direction limits =? 0 then Err ZeroByteLimit
  else if idle_timeout limits =? 0 then Err ZeroIdleTimeout
  else if lifetime_timeout limits =? 0 then Err ZeroLifetimeTimeout
  else if (buffer_size limits =? 0) || (MAX_TUNNEL_BUFFER_SIZE <? buffer_size limits) then Err InvalidBufferSize
  else Ok limits.

Record TunnelStats : Type := mkTunnelStats { left_to_right : Z; right_to_left : Z }.

Inductive TunnelEnd : Type :=
| Eof | ByteLimitLeftToRight | ByteLimitRightToLeft | IdleTimeout | LifetimeTimeout.

Inductive TunnelOutcome : Type :=
| Ended (e : TunnelEnd) (stats : TunnelStats)
| IoFailed (stats : TunnelStats) (source : Z).

Inductive TunnelOutcomeKind : Type :=
| Kind_Eof | Kind_ByteLimitLeftToRight | Kind_ByteLimitRightToLeft | Kind_IdleTimeout | Kind_LifetimeTimeout
| Kind_IoError.

Definition TunnelOutcome_kind (o : TunnelOutcome) : TunnelOutcomeKind :=
  match o with
  | Ended Eof _ => Kind_Eof
  | Ended ByteLimitLeftToRight _ => Kind_ByteLimitLeftToRight
  | Ended ByteLimitRightToLeft _ => Kind_ByteLimitRightToLeft
  | Ended IdleTimeout _ => Kind_IdleTimeout
  | Ended LifetimeTimeout _ => Kind_LifetimeTimeout
  | IoFailed _ _ => Kind_IoError
  end.

Definition TunnelOutcome_stats (o : TunnelOutcome) : TunnelStats :=
  match o with Ended _ stats | IoFailed stats _ => stats end.

(** ** Bytes read beyond the header *)

Record OverreadIo (R : Type) : Type := mkOverreadIo { over_prefix : bytes; over_inner : R }.
Arguments mkOverreadIo {R} _ _.
Arguments over_prefix {R} _.
Arguments over_inner {R} _.

#[export] Instance OverreadIo_read `{AsyncRead R} : AsyncRead (OverreadIo R) := fun w n =>
  if bool_decide (over_prefix w <> []) && (0 <? n) then
    let length := Z.to_nat (Z.min (len (over_prefix w)) n) in
    (Ok (take length (over_prefix w)), mkOverreadIo (drop length (over_prefix w)) (over_inner w))
  else
    let '(r, i) := read (over_inner w) n in (r, mkOverreadIo (over_prefix w) i).

(** ** The HTTP/2 relay *)

Inductive OperationError : Type := OpEnd (e : TunnelEnd) | OpIo (source : Z).

(** How an operation with deadlines ends: it completes, or one of the two
    deadlines passes or it fails, when [part] of what it was to put out is out
    already. *)
Inductive Operation : Type :=
| Lifetime_passed (part : nat) | Idle_passed (part : nat) | Failed_io (source : Z) (part : nat) | Completed.

Definition with_deadlines (o : Operation) : result unit OperationError :=
  match o with
  | Lifetime_passed _ => Err (OpEnd LifetimeTimeout)
  | Idle_passed _ => Err (OpEnd IdleTimeout)
  | Failed_io source _ => Err (OpIo source)
  | Completed => Ok tt
  end.

Definition part_of (o : Operation) : nat :=
  match o with Lifetime_passed part | Idle_passed part | Failed_io _ part => part | Completed => 0 end.

(** What a frame that was cut off has put out: nothing, some of its bytes, or all
    of them, with the end flag last. *)
Definition frame_part (data : bytes) (last : bool) (part : nat) : list (bytes * bool) :=
  match part with O => [] | _ => [(take part data, last && (len data <? Z.of_nat part))] end.

(** Which branch the [select!] takes, and how the operation that follows it ends:
    the next frame of the client or its end, or a read that finds [ready] bytes or
    the end; either may fail instead. *)
Inductive H2RelayEvent : Type :=
| Event_LifetimeTimeout
| Event_IdleTimeout
| DownstreamData (failed : option Z) (operation : Operation) (now : Z)
| DownstreamClosed (r : result unit Z)
| UpstreamData (ready : result nat Z) (operation : Operation) (now : Z).

(** The state of [relay_h2] and of its two ends: the frames of the client that
    are still to come, the bytes of the upstream that are still to come, what
    reached the upstream, the frames that went downstream with their end flags, and
    whether the stream was reset.  A write that is cut off leaves a part of its
    bytes there, which the counters do not have. *)
Record H2Relay : Type := mkH2Relay {
  transferred : TunnelStats;
  idle_deadline : Z;
  downstream_open : bool;
  upstream_read_open : bool;
  upstream_write_open : bool;
  response_open : bool;
  client_frames : list bytes;
  upstream_pending : bytes;
  upstream_bytes : bytes;
  downstream_frames : list (bytes * bool);
  was_reset : bool;
}.

Definition h2_start (limits : TunnelLimits) (now : Z) (client : list bytes) (upstream : bytes) : H2Relay :=
  mkH2Relay (mkTunnelStats 0 0) (now + idle_timeout limits) true true true true client upstream [] [] false.

Definition set_reset (st : H2Relay) : H2Relay :=
  mkH2Relay (transferred st) (idle_deadline st) (downstream_open st) (upstream_read_open st)
    (upstream_write_open st) (response_open st) (client_frames st) (upstream_pending st) (upstream_bytes st)
    (downstream_frames st) true.

(** A turn goes on with a state, or ends the relay with one. *)
Inductive Turn : Type := Continue (st : H2Relay) | Done (o : TunnelOutcome) (st : H2Relay).

(** What an operation that did not complete has put out. *)
Definition with_upstream_bytes (st : H2Relay) (out : bytes) : H2Relay :=
  mkH2Relay (transferred st) (idle_deadline st) (downstream_open st) (upstream_read_open st)
    (upstream_write_open st) (response_open st) (client_frames st) (upstream_pending st) out
    (downstream_frames st) (was_reset st).
Definition with_downstream_frames (st : H2Relay) (frames : list (bytes * bool)) : H2Relay :=
  mkH2Relay (transferred st) (idle_deadline st) (downstream_open st) (upstream_read_open st)
    (upstream_write_open st) (response_open st) (client_frames st) (upstream_pending st) (upstream_bytes st)
    frames (was_reset st).

Definition h2_ended (st : H2Relay) (e : TunnelEnd) : Turn := Done (Ended e (transferred st)) (set_reset st).
Definition h2_io (st : H2Relay) (source : Z) : Turn := Done (IoFailed (transferred st) source) (set_reset st).
Definition h2_operation_failure (st : H2Relay) (error : OperationError) : Turn :=
  match error with OpEnd e => h2_ended st e | OpIo source => h2_io st source end.

Definition BROKEN_PIPE : Z := 32.

(** [coordinator.progress()]. *)
Definition progress (limits : TunnelLimits) (now : Z) (st : H2Relay) : H2Relay :=
  mkH2Relay (transferred st) (now + idle_timeout limits) (downstream_open st) (upstream_read_open st)
    (upstream_write_open st) (response_open st) (client_frames st) (upstream_pending st) (upstream_bytes st)
    (downstream_frames st) (was_reset st).

(** A frame of the client goes to the upstream, up to the limit. *)
Definition downstream_data (limits : TunnelLimits) (st : H2Relay) (data : bytes) (operation : Operation) (now : Z) : Turn :=
  let current := left_to_right (transferred st) in
  if max_bytes_per_direction limits <=? current then h2_ended st ByteLimitLeftToRight
  else
    let allowed := Z.min (len data) (max_bytes_per_direction limits - current) in
    let written :=
      if 0 <? allowed then
        let? _ := with_deadlines operation in
        Ok (progress limits now
             (mkH2Relay (mkTunnelStats (current + allowed) (right_to_left (transferred st))) (idle_deadline st)
                (downstream_open st) (upstream_read_open st) (upstream_write_open st) (response_open st)
                (client_frames st) (upstream_pending st) (upstream_bytes st ++ take (Z.to_nat allowed) data)
                (downstream_frames st) (was_reset st)))
      else Ok st in
    match written with
    | Err error =>
        let out := take (part_of operation) (take (Z.to_nat allowed) data) in
        h2_operation_failure (with_upstream_bytes st (upstream_bytes st ++ out)) error
    | Ok st =>
        if (allowed <? len data) || (max_bytes_per_direction limits <=? left_to_right (transferred st))
        then h2_ended st ByteLimitLeftToRight
        else Continue st
    end.

(** The client closed its half: the upstream's write half is shut down. *)
Definition downstream_eof (st : H2Relay) (operation : Operation) : Turn :=
  let closed := fun upstream_write_open =>
    mkH2Relay (transferred st) (idle_deadline st) false (upstream_read_open st) upstream_write_open
      (response_open st) (client_frames st) (upstream_pending st) (upstream_bytes st) (downstream_frames st)
      (was_reset st) in
  if upstream_write_open st then
    match with_deadlines operation with
    | Ok _ => Continue (closed false)
    | Err error => h2_operation_failure (closed true) error
    end
  else Continue (closed (upstream_write_open st)).

(** [recv_data]: the next frame. *)
Definition take_frame (st : H2Relay) (frames : list bytes) : H2Relay :=
  mkH2Relay (transferred st) (idle_deadline st) (downstream_open st) (upstream_read_open st)
    (upstream_write_open st) (response_open st) frames (upstream_pending st) (upstream_bytes st)
    (downstream_frames st) (was_reset st).

(** A read into a buffer of [limit] bytes that finds [ready] bytes. *)
Definition read_upstream (st : H2Relay) (limit : Z) (ready : nat) : bytes * H2Relay :=
  let n := (Z.to_nat limit `min` (1 `max` ready))%nat in
  (take n (upstream_pending st),
   mkH2Relay (transferred st) (idle_deadline st) (downstream_open st) (upstream_read_open st)
     (upstream_write_open st) (response_open st) (client_frames st) (drop n (upstream_pending st))
     (upstream_bytes st) (downstream_frames st) (was_reset st)).

(** [relay_h2_upstream_read] and what the loop does with its answer. *)
Definition upstream_data (limits : TunnelLimits) (st : H2Relay) (data : bytes) (operation : Operation) (now : Z) : Turn :=
  let send := fun data (last : bool) =>
    match with_deadlines operation with
    | Ok _ => Ok (downstream_frames st ++ [(data, last)])
    | Err error =>
        Err (h2_operation_failure
               (with_downstream_frames st (downstream_frames st ++ frame_part data last (part_of operation))) error)
    end in
  match data with
  | [] =>
      match send [] true with
      | Err turn => turn
      | Ok frames =>
          Continue (mkH2Relay (transferred st) (idle_deadline st) (downstream_open st) false
                      (upstream_write_open st) false (client_frames st) (upstream_pending st)
                      (upstream_bytes st) frames (was_reset st))
      end
  | _ =>
      let current := right_to_left (transferred st) in
      let allowed := Z.min (len data) (max_bytes_per_direction limits - current) in
      let last := (allowed <? len data) || (max_bytes_per_direction limits <=? current + allowed) in
      match send (take (Z.to_nat allowed) data) last with
      | Err turn => turn
      | Ok frames =>
          let st := progress limits now
            (mkH2Relay (mkTunnelStats (left_to_right (transferred st)) (current + allowed)) (idle_deadline st)
               (downstream_open st) (upstream_read_open st) (upstream_write_open st) (response_open st)
               (client_frames st) (upstream_pending st) (upstream_bytes st) frames (was_reset st)) in
          if last then h2_ended st ByteLimitRightToLeft else Continue st
      end
  end.

(** One turn of the loop of [relay_h2].  A branch the [select!] does not offer in
    this state leaves the relay where it is. *)
Definition h2_turn (limits : TunnelLimits) (st : H2Relay) (event : H2RelayEvent) : Turn :=
  if negb (response_open st) && negb (upstream_write_open st) then Done (Ended Eof (transferred st)) st
  else if max_bytes_per_direction limits <=? right_to_left (transferred st) then h2_ended st ByteLimitRightToLeft
  else
    let read_limit := Z.min (buffer_size limits) (max_bytes_per_direction limits - right_to_left (transferred st)) in
    match event with
    | Event_LifetimeTimeout => h2_ended st LifetimeTimeout
    | Event_IdleTimeout => h2_ended st IdleTimeout
    | DownstreamData failed operation now =>
        if negb (downstream_open st) then Continue st
        else match failed, client_frames st with
             | Some source, _ => h2_io st source
             | None, [] => downstream_eof st operation
             | None, data :: frames => downstream_data limits (take_frame st frames) data operation now
             end
    | DownstreamClosed r =>
        if downstream_open st then Continue st
        else h2_io st (match r with Ok _ => BROKEN_PIPE | Err source => source end)
    | UpstreamData ready operation now =>
        if negb (upstream_read_open st) then Continue st
        else match ready with
             | Err source => h2_operation_failure st (OpIo source)
             | Ok ready =>
                 let '(data, st) := read_upstream st read_limit ready in
                 upstream_data limits st data operation now
             end
    end.

Fixpoint h2_loop (limits : TunnelLimits) (st : H2Relay) (events : list H2RelayEvent) : Turn :=
  match events with
  | [] => Continue st
  | event :: events =>
      match h2_turn limits st event with
      | Continue st' => h2_loop limits st' events
      | Done o st' => Done o st'
      end
  end.

Definition relay_h2 (limits : TunnelLimits) (now : Z) (client : list bytes) (upstream : bytes)
    (events : list H2RelayEvent) : Turn :=
  h2_loop limits (h2_start limits now client upstream) events.

(** ** What the HTTP/2 relay delivers *)

Definition sent (st : H2Relay) : bytes := concat (downstream_frames st).*1.

Lemma sent_snoc (frames : list (bytes * bool)) data last :
  concat (frames ++ [(data, last)]).*1 = concat frames.*1 ++ data.
Proof. rewrite fmap_app, concat_app. simpl. by rewrite app_nil_r. Qed.

Section H2Facts.
Variable limits : TunnelLimits.
Variable client : list bytes.
Variable upstream : bytes.

(** What reached either side is a prefix of what was offered, within the limit. *)
Record delivered (st : H2Relay) : Prop := {
  del_limits : len (upstream_bytes st) <= max_bytes_per_direction limits /\
               len (sent st) <= max_bytes_per_direction limits;
  del_upstream : upstream_bytes st `prefix_of` concat client;
  del_downstream : sent st `prefix_of` upstream
}.

(** The counters are what was delivered. *)
Definition counted_left (st : H2Relay) : Prop := left_to_right (transferred st) = len (upstream_bytes st).
Definition counted_right (st : H2Relay) : Prop := right_to_left (transferred st) = len (sent st).
Definition counted (st : H2Relay) : Prop := counted_left st /\ counted_right st.

(** A running relay has lost nothing. *)
Record running (st : H2Relay) : Prop := {
  run_delivered : delivered st;
  run_counted : counted st;
  run_client : concat client = upstream_bytes st ++ concat (client_frames st);
  run_upstream : upstream = sent st ++ upstream_pending st;
  run_read : upstream_read_open st = response_open st;
  run_response : if response_open st then Forall (fun f => f.2 = false) (downstream_frames st)
                 else upstream_pending st = [] /\ exists frames, downstream_frames st = frames ++ [([], true)] /\
                        Forall (fun f => f.2 = false) frames;
  run_closed : downstream_open st = false -> client_frames st = [];
  run_write : upstream_write_open st = downstream_open st;
  run_reset : was_reset st = false
}.

(** How a relay ends: with everything delivered in both directions, both ends
    closed and no reset; or with a reset.  After a write that was cut off by a
    deadline or an error, one counter may be less than what was delivered. *)
Definition ends (o : TunnelOutcome) (st : H2Relay) : Prop :=
  delivered st /\ TunnelOutcome_stats o = transferred st /\
  left_to_right (transferred st) <= len (upstream_bytes st) /\ right_to_left (transferred st) <= len (sent st) /\
  match o with
  | Ended Eof _ =>
      counted st /\ upstream_bytes st = concat client /\ sent st = upstream /\ was_reset st = false /\
      upstream_write_open st = false /\
      exists frames, downstream_frames st = frames ++ [([], true)] /\ Forall (fun f => f.2 = false) frames
  | Ended (ByteLimitLeftToRight | ByteLimitRightToLeft) _ => counted st /\ was_reset st = true
  | _ => (counted_left st \/ counted_right st) /\ was_reset st = true
  end.

(** A turn is right, given how much of a write it cut off. *)
Definition turn_ok (part : nat) (t : Turn) : Prop :=
  match t with Continue st => running st | Done o st => ends o st /\ (part = 0%nat -> counted st) end.

Lemma delivered_reset st : delivered st -> delivered (set_reset st).
Proof. by intros [H1 H2 H3]. Qed.

Lemma h2_ended_ok part st e : delivered st -> counted st -> e <> Eof -> turn_ok part (h2_ended st e).
Proof.
  intros Hd [Hl Hr] He. unfold counted_left, counted_right in *.
  split; [split; [by apply delivered_reset|]; cbn; unfold sent in *; split_and!; [done|lia|lia|]|done].
  destruct e; try done; by (split; [|done]; (split || left)).
Qed.

Lemma io_ok part st source : delivered st -> counted st -> turn_ok part (h2_io st source).
Proof.
  intros Hd [Hl Hr]. unfold counted_left, counted_right in *.
  split; [split; [by apply delivered_reset|]; cbn; unfold sent in *; split_and!; [done|lia|lia|by left|done]|done].
Qed.

(** An operation that did not complete has put out a part in one direction. *)
Lemma failure_ok st st' o error :
  delivered st' -> counted st -> transferred st' = transferred st ->
  len (upstream_bytes st) <= len (upstream_bytes st') -> len (sent st) <= len (sent st') ->
  upstream_bytes st' = upstream_bytes st \/ sent st' = sent st ->
  (part_of o = 0%nat -> upstream_bytes st' = upstream_bytes st /\ sent st' = sent st) ->
  with_deadlines o = Err error -> turn_ok (part_of o) (h2_operation_failure st' error).
Proof.
  intros Hd [Hl Hr] Ht Hu Hs Hone Hnone Ho. unfold counted_left, counted_right in *.
  assert (counted_left st' \/ counted_right st') as Hc.
  { unfold counted_left, counted_right. rewrite Ht. destruct Hone as [->| ->]; [left|right]; congruence. }
  assert (part_of o = 0%nat -> counted st') as Hz.
  { intros [E1 E2]%Hnone. unfold counted, counted_left, counted_right. rewrite Ht, E1, E2. done. }
  destruct o as [| | |]; simplify_eq/=; (split; [|by intros ?%Hz]); (split; [by apply delivered_reset|]); cbn; rewrite Ht;
    unfold sent in *; split_and!; (done || lia).
Qed.

(** With nothing put out. *)
Lemma failure_same_ok st o error :
  delivered st -> counted st -> with_deadlines o = Err error -> turn_ok (part_of o) (h2_operation_failure st error).
Proof. intros Hd Hc Ho. apply (failure_ok st); auto with lia. Qed.

Lemma upstream_part_ok st client_rest data allowed o error :
  delivered st -> counted st -> concat client = upstream_bytes st ++ data ++ client_rest ->
  0 <= allowed <= max_bytes_per_direction limits - left_to_right (transferred st) -> with_deadlines o = Err error ->
  turn_ok (part_of o) (h2_operation_failure
    (with_upstream_bytes st (upstream_bytes st ++ take (part_of o) (take (Z.to_nat allowed) data))) error).
Proof.
  intros Hd [Hl Hr] Hc Ha Ho. pose proof Hd as [[Hm1 Hm2] Hp1 Hp2]. unfold counted_left in Hl.
  set (out := take _ _). assert (len out <= allowed) as Hout by (unfold out, len; rewrite !length_take; lia).
  apply (failure_ok st); cbn; rewrite ?len_app; pose proof (len_nonneg out); try done; [|lia|by right|].
  - constructor; cbn; [rewrite len_app; split; [lia|done]| |done]. rewrite Hc. apply prefix_app.
    unfold out. rewrite take_take. set (k := (_ `min` _)%nat). exists (drop k data ++ client_rest).
    by rewrite app_assoc, take_drop.
  - intros E. unfold out. by rewrite E, take_0, app_nil_r.
Qed.

Lemma sent_part st data last part :
  sent (with_downstream_frames st (downstream_frames st ++ frame_part data last part)) = sent st ++ take part data.
Proof.
  unfold sent, frame_part. cbn [downstream_frames with_downstream_frames]. destruct part; [by rewrite !app_nil_r|].
  by rewrite sent_snoc.
Qed.

Lemma downstream_part_ok st data last o error :
  delivered st -> counted st -> upstream = sent st ++ data ++ upstream_pending st ->
  len (sent st ++ data) <= max_bytes_per_direction limits -> with_deadlines o = Err error ->
  turn_ok (part_of o) (h2_operation_failure
    (with_downstream_frames st (downstream_frames st ++ frame_part data last (part_of o))) error).
Proof.
  intros Hd Hcount Hu Hm Ho. pose proof Hd as [[Hm1 Hm2] Hp1 Hp2]. rewrite len_app in Hm.
  apply (failure_ok st); rewrite ?sent_part; [| |done| | | | |done]; cbn [upstream_bytes with_downstream_frames]; try done.
  - assert (len (take (part_of o) data) <= len data) by (unfold len; rewrite length_take; lia).
    constructor; rewrite ?sent_part; [|done|].
    + cbn [upstream_bytes with_downstream_frames]. rewrite len_app. lia.
    + exists (drop (part_of o) data ++ upstream_pending st). by rewrite <- app_assoc, (app_assoc (take _ _)), take_drop.
  - rewrite len_app. pose proof (len_nonneg (take (part_of o) data)). lia.
  - by left.
  - intros ->. by rewrite take_0, app_nil_r.
Qed.

Lemma downstream_data_ok st data frames o now :
  running st -> client_frames st = data :: frames ->
  turn_ok (part_of o) (downstream_data limits (take_frame st frames) data o now).
Proof.
  intros [Hd Hcount Hc Hu Hr Hresp Hcl Hw Hres] Hf. rewrite Hf in Hc. cbn [concat] in Hc.
  pose proof Hd as [[Hm1 Hm2] Hp1 Hp2]. unfold downstream_data. cbn [transferred take_frame].
  assert (delivered (take_frame st frames)) as Hd' by by constructor. pose proof Hcount as [Hl _]. unfold counted_left in Hl.
  destruct (Z.leb_spec (max_bytes_per_direction limits) (left_to_right (transferred st))); [by apply h2_ended_ok|].
  set (allowed := Z.min _ _). pose proof (len_nonneg data) as Hn.
  destruct (Z.ltb_spec 0 allowed) as [Hpos|Hpos].
  2: { assert (data = []) as -> by (apply len_zero; lia). rewrite len_nil in *. cbn [result_bind].
       assert (0 <= allowed) as Ha by (unfold allowed, len; simpl; lia).
       rewrite (proj2 (Z.ltb_ge allowed 0)) by done. cbn [orb transferred take_frame].
       rewrite (proj2 (Z.leb_gt _ _)) by done.
       constructor; try done. cbn [downstream_open take_frame client_frames]. intros E. apply Hcl in E. by rewrite E in Hf. }
  destruct (with_deadlines o) as [[]|error] eqn:Ho; cbn [result_bind].
  2: { apply (upstream_part_ok _ (concat frames)); try done. cbn. unfold allowed. lia. }
  assert (len (take (Z.to_nat allowed) data) = allowed) as Hlen by (unfold len, allowed in *; rewrite length_take; unfold len in *; lia).
  match goal with |- turn_ok _ (if _ then h2_ended ?s _ else _) => set (st' := s) end.
  assert (delivered st' /\ counted st') as [Hd'' Hc''].
  { split; [|by (split; [unfold counted_left; cbn; rewrite len_app; lia|apply Hcount])].
    constructor; cbn [st' progress upstream_bytes sent downstream_frames take_frame]; [| |done].
    - rewrite len_app, Hlen. split; [unfold allowed; lia|exact Hm2].
    - rewrite Hc. apply prefix_app. exists (drop (Z.to_nat allowed) data ++ concat frames).
      by rewrite app_assoc, take_drop. }
  destruct (Z.ltb_spec allowed (len data)) as [Hlt|Hge]; cbn [orb]; [by apply h2_ended_ok|].
  destruct (max_bytes_per_direction limits <=? left_to_right (transferred st')); [by apply h2_ended_ok|].
  constructor; cbn [st' progress take_frame upstream_bytes client_frames sent downstream_frames upstream_pending
    upstream_read_open response_open downstream_open upstream_write_open was_reset]; try done.
  - rewrite <- app_assoc, Hc, take_ge; [done|]. unfold len in Hge. lia.
  - intros E. apply Hcl in E. by rewrite E in Hf.
Qed.

Lemma downstream_eof_ok st o :
  running st -> client_frames st = [] -> turn_ok (part_of o) (downstream_eof st o).
Proof.
  intros [Hd Hcount Hc Hu Hr Hresp Hcl Hw Hres] Hf. unfold downstream_eof. destruct Hd as [H1 H2 H3].
  destruct (upstream_write_open st); [|by constructor].
  destruct (with_deadlines o) as [[]|error] eqn:Ho; [by constructor|]. by apply (failure_same_ok _ o).
Qed.

Lemma read_upstream_spec st limit ready data st' :
  0 < limit -> read_upstream st limit ready = (data, st') ->
  upstream_pending st = data ++ upstream_pending st' /\ len data <= limit /\
  (data = [] -> upstream_pending st = []) /\
  st' = mkH2Relay (transferred st) (idle_deadline st) (downstream_open st) (upstream_read_open st)
     (upstream_write_open st) (response_open st) (client_frames st) (upstream_pending st')
     (upstream_bytes st) (downstream_frames st) (was_reset st).
Proof.
  intros Hl [= <- <-]. cbn [upstream_pending]. split_and!; [by rewrite take_drop| | |done].
  - unfold len. rewrite length_take. lia.
  - destruct (upstream_pending st); [done|]. destruct (Z.to_nat limit `min` (1 `max` ready))%nat eqn:E; [lia|done].
Qed.

Lemma upstream_data_ok st data st' o now limit :
  running st -> response_open st = true -> 0 < limit <= max_bytes_per_direction limits - right_to_left (transferred st) ->
  (exists ready, read_upstream st limit ready = (data, st')) -> turn_ok (part_of o) (upstream_data limits st' data o now).
Proof.
  intros [Hd Hcount Hc Hu Hr Hresp Hcl Hw Hres] Hopen Hl [ready Hread]. rewrite Hopen in Hresp.
  apply read_upstream_spec in Hread as (Hp & Hlen & He & ->); [|lia]. cbn [upstream_pending] in *.
  set (pending := upstream_pending st') in *. destruct Hd as [[H3 H3'] H4 H5]. pose proof Hcount as [_ H2]. unfold counted_right in H2.
  match goal with |- turn_ok _ (upstream_data _ ?s _ _ _) => set (st1 := s) end.
  assert (delivered st1 /\ counted st1) as [Hd Hc1] by (split; [by constructor|done]).
  assert (upstream = sent st1 ++ data ++ upstream_pending st1) as Hu1 by by rewrite Hu, Hp.
  unfold upstream_data. destruct data as [|b data].
  - destruct (with_deadlines o) as [[]|error] eqn:Ho; [|by apply (downstream_part_ok st1); rewrite ?app_nil_r].
    specialize (He eq_refl). rewrite He in Hp. simpl in Hp. rewrite He, app_nil_r in Hu.
    assert (concat (downstream_frames st ++ [([], true)]).*1 = sent st) as Hs by by rewrite sent_snoc, app_nil_r.
    constructor; cbn; unfold sent; cbn; rewrite ?Hs, <- ?Hp, ?app_nil_r; try done.
    + constructor; cbn; unfold sent; cbn; rewrite ?Hs; done.
    + split; [apply Hcount|]. unfold counted_right, sent. cbn. by rewrite Hs.
    + split; [done|]. by exists (downstream_frames st).
  - cbn [transferred st1]. rewrite (Z.min_l (len (b :: data))), (Z.ltb_irrefl (len (b :: data))) by lia. cbn [orb].
    assert (take (Z.to_nat (len (b :: data))) (b :: data) = b :: data) as -> by (unfold len; rewrite Nat2Z.id; by apply take_ge).
    destruct (with_deadlines o) as [[]|error] eqn:Ho.
    2: { apply (downstream_part_ok st1); try done. change (sent st1) with (sent st). rewrite len_app. lia. }
    cbn [downstream_frames left_to_right]. match goal with |- turn_ok _ (if _ then h2_ended ?s _ else _) => set (st2 := s) end.
    assert (sent st2 = sent st ++ b :: data) as Hs by by (unfold sent; cbn [st2 progress downstream_frames]; rewrite sent_snoc).
    assert (delivered st2 /\ counted st2) as [Hd2 Hc2].
    { split; [constructor; rewrite ?Hs; [rewrite len_app; split; [done|lia]|done|]|].
      - exists pending. by rewrite Hu, Hp, app_assoc.
      - split; [apply Hcount|]. unfold counted_right. rewrite Hs, len_app, <- H2. done. }
    destruct (Z.leb_spec (max_bytes_per_direction limits) (right_to_left (transferred st) + len (b :: data))); [by apply h2_ended_ok|].
    constructor; rewrite ?Hs; cbn [st1 st2 progress upstream_bytes client_frames upstream_pending upstream_read_open response_open
      downstream_frames downstream_open upstream_write_open was_reset]; try done.
    + by rewrite Hu, Hp, app_assoc.
    + rewrite Hopen. apply Forall_app. split; [done|]. by constructor.
Qed.

(** How much of a write an event cuts off. *)
Definition event_part (event : H2RelayEvent) : nat :=
  match event with DownstreamData _ o _ | UpstreamData _ o _ => part_of o | _ => 0 end.

Lemma h2_turn_ok st event :
  0 < max_bytes_per_direction limits -> 0 < buffer_size limits -> running st ->
  turn_ok (event_part event) (h2_turn limits st event).
Proof.
  intros Hmax Hbuf Hrun. pose proof Hrun as [Hd Hcount Hc Hu Hr Hresp Hcl Hw Hres]. unfold h2_turn.
  destruct (negb (response_open st) && negb (upstream_write_open st)) eqn:E.
  { bool_inv. rewrite H in Hresp. destruct Hresp as [Hp Hf]. split; [|done]. split; [done|]. split; [done|].
    rewrite Hp, app_nil_r in Hu. rewrite Hcl, app_nil_r in Hc by congruence.
    pose proof Hcount as [H1 H2]. unfold counted_left, counted_right in *. split_and!; (done || lia). }
  destruct (Z.leb_spec (max_bytes_per_direction limits) (right_to_left (transferred st))); [by apply h2_ended_ok|].
  destruct event as [| |failed o now|r|ready o now]; [by apply h2_ended_ok..| | |].
  - destruct (downstream_open st); [|done]. cbn [negb]. destruct failed as [source|]; [by apply io_ok|].
    destruct (client_frames st) as [|data frames] eqn:Hf; [by apply downstream_eof_ok|by apply downstream_data_ok].
  - destruct (downstream_open st); [done|by apply io_ok].
  - destruct (upstream_read_open st) eqn:Ho; [|done]. cbn [negb]. destruct ready as [ready|source]; [|by apply io_ok].
    set (limit := Z.min _ _). destruct (read_upstream st limit ready) as [data st'] eqn:Hread.
    apply (upstream_data_ok st data st' o now limit); [done|congruence| |eauto]. unfold limit. lia.
Qed.

Lemma h2_loop_ok st events :
  0 < max_bytes_per_direction limits -> 0 < buffer_size limits -> running st ->
  match h2_loop limits st events with
  | Continue st' => running st'
  | Done o st' => ends o st' /\ (Forall (fun event => event_part event = 0%nat) events -> counted st')
  end.
Proof.
  intros Hmax Hbuf. revert st; induction events as [|event events IH]; intros st Hrun; [done|]. cbn [h2_loop].
  pose proof (h2_turn_ok st event Hmax Hbuf Hrun) as H. destruct (h2_turn limits st event) as [st'|o st'].
  - specialize (IH st' H). destruct (h2_loop limits st' events); [done|]. rewrite Forall_cons. naive_solver.
  - rewrite Forall_cons. destruct H as [H1 H2]. split; [done|]. intros [H _]. auto.
Qed.
End H2Facts.

(** C18: An HTTP/2 tunnel relays exactly: whatever happens in whatever order,
    what reached the upstream is a prefix of the client's frames and what went to
    the client is a prefix of the upstream's bytes, neither beyond the limit; while
    the relay runs nothing is lost, the counters are exactly what was delivered and
    the upstream's write half is open as long as the client's stream is; a regular
    end means that both directions were delivered in full, closed once and not
    reset, and every other end resets the stream.  The counters of the end never
    exceed what was delivered; they are exactly that at a regular end, at a byte
    limit, and whenever no write was cut off in the middle by a deadline or an
    error, and otherwise in all but the direction of that write. *)
Theorem tunnel_h2_exact (limits : TunnelLimits) (now : Z) (client : list bytes) (upstream : bytes)
    (events : list H2RelayEvent) (Hlimits : BoundedTunnel_new limits = Ok limits)
    (Hunsigned : 0 <= max_bytes_per_direction limits /\ 0 <= buffer_size limits) :
  match relay_h2 limits now client upstream events with
  | Continue st => running limits client upstream st
  | Done o st => ends limits client upstream o st /\
                 (Forall (fun event => event_part event = 0%nat) events -> counted st)
  end.
Proof.
  unfold BoundedTunnel_new in Hlimits.
  destruct (Z.eqb_spec (max_bytes_per_direction limits) 0); [done|]. do 2 (case_match; [done|]).
  destruct (Z.eqb_spec (buffer_size limits) 0); [done|].
  apply (h2_loop_ok limits client upstream (h2_start limits now client upstream)); [lia..|].
  constructor; try done; [|by constructor]. constructor; cbn; try done; [split; unfold len; simpl; lia|apply prefix_nil..].
Qed.

(** The second write is cut off after one byte. *)
Definition example_events : list H2RelayEvent :=
  [DownstreamData None Completed 1; UpstreamData (Ok 9%nat) Completed 2;
   UpstreamData (Ok 9%nat) Completed 3; DownstreamData None (Idle_passed 1) 4].

Definition example_end : H2Relay :=
  mkH2Relay (mkTunnelStats 5 4) 62 true false true false [] [] (lit "helloy")
    [(lit "pong", false); ([], true)] true.

Lemma tunnel_h2_exact_witness :
  relay_h2 (mkTunnelLimits 8 60 3600 4) 0 [lit "hello"; lit "you"] (lit "pong") example_events =
    Done (Ended IdleTimeout (mkTunnelStats 5 4)) example_end /\
  ends (mkTunnelLimits 8 60 3600 4) [lit "hello"; lit "you"] (lit "pong")
    (Ended IdleTimeout (mkTunnelStats 5 4)) example_end.
Proof.
  assert (relay_h2 (mkTunnelLimits 8 60 3600 4) 0 [lit "hello"; lit "you"] (lit "pong") example_events =
    Done (Ended IdleTimeout (mkTunnelStats 5 4)) example_end) as E by (by vm_compute).
  pose proof (tunnel_h2_exact (mkTunnelLimits 8 60 3600 4) 0 [lit "hello"; lit "you"] (lit "pong")
    example_events eq_refl ltac:(simpl; lia)) as H.
  rewrite E in H. exact (conj E (proj1 H)).
Defined.

(** ** Replayed bytes *)

(** A stream with overread bytes is a connection with these bytes in front. *)
Definition overread_pending `{Connection R} (w : OverreadIo R) : bytes := over_prefix w ++ pending (over_inner w).

Lemma overread_end `{Connection R} (w : OverreadIo R) n :
  0 < n -> overread_pending w = [] -> exists w', read w n = (Ok [], w') /\ overread_pending w' = [].
Proof.
  intros Hn Hw. apply app_nil in Hw as [Hp Hi]. unfold read, OverreadIo_read. rewrite Hp. cbn [bool_decide andb].
  rewrite bool_decide_eq_false_2 by by intros []. cbn [andb].
  destruct (connection_end (over_inner w) n Hn Hi) as (w' & -> & Hw').
  eexists. split; [done|]. unfold overread_pending. simpl. done.
Qed.

Lemma overread_data `{Connection R} (w : OverreadIo R) n :
  0 < n -> overread_pending w <> [] ->
  exists bs w', read w n = (Ok bs, w') /\ bs <> [] /\ len bs <= n /\ overread_pending w = bs ++ overread_pending w'.
Proof.
  intros Hn Hw. unfold read, OverreadIo_read, overread_pending in *. case_bool_decide as Hp; cbn [andb].
  - rewrite (proj2 (Z.ltb_lt 0 n)) by done. eexists _, _. split; [done|]. cbn [over_prefix over_inner]. split_and!.
    + destruct (over_prefix w) as [|b l]; [done|]. destruct (Z.to_nat _) eqn:E; [|done].
      rewrite len_cons in E. pose proof (len_nonneg l). lia.
    + unfold len. rewrite length_take. lia.
    + by rewrite app_assoc, take_drop.
  - assert (over_prefix w = []) as Hnil by (by destruct (over_prefix w); [|destruct Hp]). rewrite Hnil in *.
    destruct (connection_data (over_inner w) n Hn Hw) as (bs & w' & -> & Hb & Hl & Hq).
    eexists _, _. split; [done|]. cbn [over_prefix over_inner]. done.
Qed.

#[export] Instance OverreadIo_Connection `{Connection R} : Connection (OverreadIo R) := {
  pending := overread_pending;
  connection_end := overread_end;
  connection_data := overread_data
}.
