(* ===== verification/CacheKey.v ===== *)
(** Cache keys, [oxiroute-cache/src/key.rs]: the [Vary] selection of a response,
    the canonical base key of a request and the full representation key with
    its normalised request fields, and how a stored key selects requests. *)

From stdpp Require Import base countable list sorting sets strings.
From Stdlib Require Import ZArith Lia Strings.Byte.
From S2P Require Import Prelude Bytes Order Http.

Open Scope Z_scope.

(** ** Data *)

Record RequestKeyInput (H : Type) := mkKeyInput {
  rk_method : Method;
  rk_scheme : bytes;
  rk_authority : bytes;
  rk_path : bytes;
  rk_query : option bytes;
  rk_headers : H
}.
Arguments mkKeyInput {H}.
Arguments rk_method {H}.
Arguments rk_scheme {H}.
Arguments rk_authority {H}.
Arguments rk_path {H}.
Arguments rk_query {H}.
Arguments rk_headers {H}.

Inductive Vary :=
| Any
| Names (names : list HeaderName).

Record BaseKey := mkBaseKey {
  bk_method : Method;
  bk_scheme : bytes;
  bk_authority : bytes;
  bk_path : bytes;
  bk_query : option bytes
}.

Record VaryValue := mkVaryValue {
  vv_name : HeaderName;
  vv_present : bool;
  vv_value : bytes
}.

Record CacheKey := mkCacheKey {
  ck_base : BaseKey;
  ck_vary : list VaryValue
}.

Inductive KeyError :=
| InvalidScheme
| InvalidAuthority
| InvalidPath
| InvalidQuery
| InvalidVary
| VaryAny
| TooManyVaryFields
| TooLarge.

#[export] Instance Vary_eq_dec : EqDecision Vary.
Proof. solve_decision. Defined.
#[export] Instance BaseKey_eq_dec : EqDecision BaseKey.
Proof. solve_decision. Defined.
#[export] Instance VaryValue_eq_dec : EqDecision VaryValue.
Proof. solve_decision. Defined.
#[export] Instance CacheKey_eq_dec : EqDecision CacheKey.
Proof. solve_decision. Defined.

Definition BaseKey_tuple (k : BaseKey) :=
  (bk_method k, (bk_scheme k, (bk_authority k, (bk_path k, bk_query k)))).
Definition VaryValue_tuple (v : VaryValue) := (vv_name v, (vv_present v, vv_value v)).
Definition CacheKey_tuple (k : CacheKey) := (ck_base k, ck_vary k).

#[export] Instance BaseKey_countable : Countable BaseKey.
Proof.
  refine (inj_countable' BaseKey_tuple
    (fun '(m, (s, (a, (p, q)))) => mkBaseKey m s a p q) _). by intros [].
Defined.
#[export] Instance VaryValue_countable : Countable VaryValue.
Proof.
  refine (inj_countable' VaryValue_tuple (fun '(n, (p, v)) => mkVaryValue n p v) _). by intros [].
Defined.
#[export] Instance CacheKey_countable : Countable CacheKey.
Proof.
  refine (inj_countable' CacheKey_tuple (fun '(b, v) => mkCacheKey b v) _). by intros [].
Defined.

(** ** [Vary::parse] *)

Section Keys.
Context {H : Type} `{!HeaderMap H, text : !HttpText}.

(** One list element; [None] is the early return of [Vary::Any]. *)
Definition vary_item (max_fields max_bytes : Z) (raw : bytes) (acc : list HeaderName * Z) :
    result (option (list HeaderName * Z)) KeyError :=
  let '(names, size) := acc in
  let raw := trim_ows raw in
  if beqb raw (lit "*") then Ok None
  else if beqb raw [] then Err InvalidVary
  else
    let? size := ok_or TooLarge (checked_add usize_max size (len raw)) in
    if max_bytes <? size then Err TooLarge
    else
      let? name := ok_or InvalidVary (header_name_from_bytes raw) in
      let names := names ++ [name] in
      if max_fields <? len names then Err TooManyVaryFields
      else Ok (Some (names, size)).

Fixpoint vary_items (max_fields max_bytes : Z) (raws : list bytes) (acc : list HeaderName * Z) :
    result (option (list HeaderName * Z)) KeyError :=
  match raws with
  | [] => Ok (Some acc)
  | raw :: raws =>
      let? next := vary_item max_fields max_bytes raw acc in
      match next with
      | None => Ok None
      | Some acc => vary_items max_fields max_bytes raws acc
      end
  end.

Fixpoint vary_lines (max_fields max_bytes : Z) (values : list HeaderValue) (acc : list HeaderName * Z) :
    result (option (list HeaderName * Z)) KeyError :=
  match values with
  | [] => Ok (Some acc)
  | value :: values =>
      let? next := vary_items max_fields max_bytes (split x2c value) acc in
      match next with
      | None => Ok None
      | Some acc => vary_lines max_fields max_bytes values acc
      end
  end.

Definition Vary_parse (headers : H) (max_fields max_bytes : Z) : result Vary KeyError :=
  let? parsed := vary_lines max_fields max_bytes (get_all headers VARY) ([], 0) in
  match parsed with
  | None => Ok Any
  | Some (names, _) => Ok (Names (dedup (sort_unstable names)))
  end.

Definition Vary_names (v : Vary) : option (list HeaderName) :=
  match v with Any => None | Names names => Some names end.

(** ** [BaseKey] *)

Definition is_scheme_byte (b : byte) (first : bool) : bool :=
  is_ascii_alphabetic b ||
  (negb first && (is_ascii_digit b || Byte.eqb b x2b || Byte.eqb b x2d || Byte.eqb b x2e)).

Definition is_uri_byte (b : byte) : bool := in_range 33 126 (b2z b).

(** [str::trim_start_matches(c)] and [str::trim_end_matches(c)] *)
Fixpoint trim_start_matches (c : byte) (s : bytes) : bytes :=
  match s with
  | b :: s' => if Byte.eqb b c then trim_start_matches c s' else s
  | [] => []
  end.
Definition trim_end_matches (c : byte) (s : bytes) : bytes := rev (trim_start_matches c (rev s)).

Definition canonical_authority (raw scheme : bytes) : result bytes KeyError :=
  let? authority := ok_or InvalidAuthority (authority_from_str raw) in
  let host := to_ascii_lowercase
                (trim_end_matches x5d (trim_start_matches x5b (authority_host authority))) in
  let host := if contains_byte x3a host then [x5b] ++ host ++ [x5d] else host in
  match authority_port_u16 authority with
  | Some port =>
      if (port =? 80) && beqb scheme (lit "http") then Ok host
      else if (port =? 443) && beqb scheme (lit "https") then Ok host
      else Ok (host ++ [x3a] ++ dec_string port)
  | None => Ok host
  end.

Definition BaseKey_encoded_len (k : BaseKey) : Z :=
  len (bk_method k) + len (bk_scheme k) + len (bk_authority k) + len (bk_path k)
  + from_option len 0 (bk_query k) + 5 * 4.

Definition BaseKey_new (input : RequestKeyInput H) (max_bytes : Z) : result BaseKey KeyError :=
  if beqb (rk_path input) [] || negb (starts_with (rk_path input) [x2f])
     || (contains_byte x3f (rk_path input) || contains_byte x23 (rk_path input))
     || negb (forallb is_uri_byte (rk_path input))
  then Err InvalidPath
  else if from_option (fun query => contains_byte x23 query || negb (forallb is_uri_byte query))
            false (rk_query input)
  then Err InvalidQuery
  else
    let scheme := to_ascii_lowercase (rk_scheme input) in
    if beqb scheme []
       || negb (forallb (fun p => is_scheme_byte p.2 (Nat.eqb p.1 0)) (imap pair scheme))
    then Err InvalidScheme
    else
      let? authority := canonical_authority (rk_authority input) scheme in
      let method := if beqb (rk_method input) HEAD then GET else rk_method input in
      let key := mkBaseKey method scheme authority (rk_path input) (rk_query input) in
      if max_bytes <? BaseKey_encoded_len key then Err TooLarge else Ok key.

Definition is_get (k : BaseKey) : bool := beqb (bk_method k) GET.

(** ** [CacheKey] *)

(** The loop of [normalize_field_value] with its two variables. *)
Fixpoint normalize_bytes (value : bytes) (whitespace : bool) (output : bytes) : bytes :=
  match value with
  | [] => output
  | b :: value =>
      if is_ows b then normalize_bytes value true output
      else
        let output :=
          if whitespace && negb (beqb output []) && bool_decide (last output <> Some x2c)
          then output ++ [x20] else output in
        normalize_bytes value false (output ++ [b])
  end.

Definition normalize_field_value (value output : bytes) : bytes :=
  normalize_bytes (trim_ows value) false output.

(** The loop over the field lines of one name. *)
Fixpoint normalize_lines (first : bool) (values : list HeaderValue) (normalized : bytes) : bytes :=
  match values with
  | [] => normalized
  | value :: values =>
      let normalized := if first then normalized else normalized ++ [x2c] in
      normalize_lines false values (normalize_field_value value normalized)
  end.

Definition vary_value (request_headers : H) (name : HeaderName) : VaryValue :=
  let all := get_all request_headers name in
  mkVaryValue name (bool_decide (all <> [])) (normalize_lines true all []).

Definition CacheKey_encoded_len (k : CacheKey) : Z :=
  foldl (fun size value =>
           saturating_add usize_max
             (saturating_add usize_max
                (saturating_add usize_max size (len (vv_name value)))
                (len (vv_value value)))
             (1 + 2 * 4))
        (BaseKey_encoded_len (ck_base k)) (ck_vary k).

Definition CacheKey_new (base : BaseKey) (request_headers : H) (vary : Vary) (max_bytes : Z) :
    result CacheKey KeyError :=
  let? names := ok_or VaryAny (Vary_names vary) in
  let key := mkCacheKey base (map (vary_value request_headers) names) in
  if max_bytes <? CacheKey_encoded_len key then Err TooLarge else Ok key.

Definition matches_request (self : CacheKey) (base : BaseKey) (headers : H) (max_bytes : Z) : bool :=
  if bool_decide (ck_base self <> base) then false
  else
    let vary := Names (map vv_name (ck_vary self)) in
    match CacheKey_new base headers vary max_bytes with
    | Ok key => bool_decide (key = self)
    | Err _ => false
    end.

Definition same_vary_schema (self other : CacheKey) : bool :=
  (len (ck_vary self) =? len (ck_vary other)) &&
  forallb (fun p => beqb (vv_name p.1) (vv_name p.2)) (zip (ck_vary self) (ck_vary other)).

(** ** The order of keys: derived on the fields, with [VaryValue]'s written out *)

#[export] Instance BaseKey_Ord : Ord BaseKey :=
  fun a b =>
    then_with (method_cmp (bk_method a) (bk_method b))
      (cmp (bk_scheme a, (bk_authority a, (bk_path a, bk_query a)))
           (bk_scheme b, (bk_authority b, (bk_path b, bk_query b)))).
#[export] Instance VaryValue_Ord : Ord VaryValue :=
  fun a b => cmp (VaryValue_tuple a) (VaryValue_tuple b).
#[export] Instance CacheKey_Ord : Ord CacheKey :=
  fun a b => cmp (CacheKey_tuple a) (CacheKey_tuple b).

#[export] Instance BaseKey_OrdLaws `{!HttpTextLaws} : OrdLaws BaseKey.
Proof.
  pose proof method_cmp_laws as Hm.
  pose proof (@prod_OrdLaws _ (bytes * (bytes * (bytes * option bytes))) method_cmp Hm _ _) as Hp.
  refine (@proj_OrdLaws BaseKey _ BaseKey_tuple _ Hp _). intros [] []; unfold BaseKey_tuple; simpl. congruence.
Qed.
#[export] Instance VaryValue_OrdLaws : OrdLaws VaryValue.
Proof.
  apply (proj_OrdLaws VaryValue_tuple). intros [] []; unfold VaryValue_tuple; simpl. congruence.
Qed.
#[export] Instance CacheKey_OrdLaws `{!HttpTextLaws} : OrdLaws CacheKey.
Proof.
  apply (proj_OrdLaws CacheKey_tuple). intros [] []; unfold CacheKey_tuple; simpl. congruence.
Qed.
End Keys.

(** ** What [Vary::parse] accepts *)

Section VaryFacts.
Context {H : Type} `{!HeaderMap H, text : !HttpText}.

Lemma vary_items_app mf mb l k acc :
  vary_items mf mb (l ++ k) acc =
  let? next := vary_items mf mb l acc in
  match next with None => Ok None | Some acc => vary_items mf mb k acc end.
Proof.
  revert acc; induction l as [|raw l IH]; intros acc; simpl; [done|].
  destruct (vary_item mf mb raw acc) as [[acc'|]|]; simpl; auto.
Qed.

Lemma vary_lines_items mf mb values acc :
  vary_lines mf mb values acc = vary_items mf mb (concat (map (split x2c) values)) acc.
Proof.
  revert acc; induction values as [|v values IH]; intros acc; simpl; [done|].
  rewrite vary_items_app. destruct (vary_items mf mb (split x2c v) acc) as [[acc'|]|]; simpl; auto.
Qed.

(** The list elements of a [Vary] selection. *)
Definition vary_elements (headers : H) : list bytes :=
  map trim_ows (concat (map (split x2c) (get_all headers VARY))).

Definition total_len (l : list bytes) : Z := foldr (fun s n => len s + n) 0 l.

Lemma total_len_nonneg l : 0 <= total_len l.
Proof. induction l as [|s l IH]; simpl; [lia|]. pose proof (len_nonneg s). lia. Qed.

(** An element [Vary::parse] takes as a name. *)
Definition vary_name (element name : bytes) : Prop :=
  element <> lit "*" /\ element <> [] /\ header_name_from_bytes element = Some name.

Lemma vary_item_Some mf mb raw ns sz acc :
  mb <= usize_max ->
  vary_item mf mb raw (ns, sz) = Ok (Some acc) <->
  exists name, vary_name (trim_ows raw) name /\ acc = (ns ++ [name], sz + len (trim_ows raw)) /\
               sz + len (trim_ows raw) <= mb /\ len ns + 1 <= mf.
Proof.
  intros Hmb. unfold vary_item, vary_name, beqb. case_bool_decide as Hs; [naive_solver|].
  case_bool_decide as He; [naive_solver|]. unfold checked_add.
  destruct (Z.leb_spec (sz + len (trim_ows raw)) usize_max); simpl; [|naive_solver lia].
  destruct (Z.ltb_spec mb (sz + len (trim_ows raw))); [naive_solver lia|].
  destruct (header_name_from_bytes (trim_ows raw)) as [n|]; simpl; [|naive_solver].
  autorewrite with oxi. destruct (Z.ltb_spec mf (len ns + (1 + 0))); naive_solver lia.
Qed.

Lemma vary_items_Some mf mb raws ns sz ns' sz' :
  mb <= usize_max ->
  vary_items mf mb raws (ns, sz) = Ok (Some (ns', sz')) <->
  exists names, Forall2 vary_name (map trim_ows raws) names /\ ns' = ns ++ names /\
    sz' = sz + total_len (map trim_ows raws) /\
    (raws <> [] -> sz' <= mb /\ len ns' <= mf).
Proof.
  intros Hmb. revert ns sz; induction raws as [|raw raws IH]; intros ns sz; simpl.
  { split; [intros [= -> ->]; exists []; rewrite app_nil_r, Z.add_0_r; naive_solver|].
    intros (names & Hn & -> & -> & _). apply Forall2_nil_inv_l in Hn as ->.
    by rewrite app_nil_r, Z.add_0_r. }
  rewrite result_bind_Ok. split.
  - intros ([[ns1 sz1]|] & E & Hr); [|done].
    apply vary_item_Some in E as (n & Hn & [= -> ->] & ? & ?); [|done].
    apply IH in Hr as (names & Hns & -> & -> & Hb). exists (n :: names).
    split; [by constructor|]. rewrite <- (assoc_L app). split; [done|]. split; [lia|]. intros _.
    destruct raws; [|rewrite (assoc_L app); by apply Hb]. simpl in *. apply Forall2_nil_inv_l in Hns as ->.
    autorewrite with oxi in *. lia.
  - intros (names & Hns & -> & -> & Hb). apply Forall2_cons_inv_l in Hns as (n & names' & Hn & Hns & ->).
    destruct (Hb ltac:(done)) as [Hb1 Hb2]. autorewrite with oxi in Hb2.
    pose proof (total_len_nonneg (map trim_ows raws)). pose proof (len_nonneg names').
    exists (Some (ns ++ [n], sz + len (trim_ows raw))). split.
    { apply vary_item_Some; [done|]. exists n. split_and!; [done|done|lia|lia]. }
    apply IH. exists names'. split; [done|]. rewrite <- (assoc_L app). split; [done|].
    split; [lia|]. intros _. autorewrite with oxi. simpl. lia.
Qed.
End VaryFacts.

(** Two strictly increasing lists of the same elements are the same list. *)
Lemma sorted_elements_unique {A} `{OrdLaws A} (l k : list A) :
  StronglySorted ord_lt l -> StronglySorted ord_lt k -> (forall x, x ∈ l <-> x ∈ k) -> l = k.
Proof.
  assert (forall m : list A, StronglySorted ord_lt m -> NoDup m /\ StronglySorted ord_le m) as Hd.
  { induction 1 as [|x m Hs [Hn Hle] Hx]; [split; constructor|].
    rewrite Forall_forall in Hx. split; constructor; auto.
    - intros Hin. by destruct (ord_lt_irrefl x); apply Hx.
    - apply Forall_forall. intros y Hy. apply ord_le_lt. left. by apply Hx. }
  intros [Hnl Hl]%Hd [Hnk Hk]%Hd Hlk.
  apply (StronglySorted_unique ord_le); [done|done|]. by apply NoDup_Permutation.
Qed.

(** ** Normalisation of request fields *)

Lemma normalize_after_comma s ws out :
  normalize_bytes s ws (out ++ [x2c]) = normalize_bytes s false (out ++ [x2c]).
Proof.
  destruct ws; [|done]. destruct s as [|b s]; simpl; [done|]. destruct (is_ows b); [done|].
  rewrite last_snoc, bool_decide_eq_false_2 by naive_solver. by rewrite andb_false_r.
Qed.

Lemma normalize_ows ws s w out :
  Forall (fun b => is_ows b = true) ws ->
  normalize_bytes (ws ++ s) w out = normalize_bytes s (w || bool_decide (ws <> [])) out.
Proof.
  intros Hws. revert w. induction Hws as [|b ws Hb _ IH]; intros w; simpl; [by rewrite orb_false_r|].
  rewrite Hb, IH. by rewrite orb_true_r.
Qed.

Lemma normalize_app s t w out :
  s <> [] -> (forall b, last s = Some b -> is_ows b = false) ->
  normalize_bytes (s ++ t) w out = normalize_bytes t false (normalize_bytes s w out).
Proof.
  revert w out; induction s as [|b s IH]; intros w out Hne Hl; [done|]. simpl.
  destruct (decide (s = [])) as [->|].
  - simpl. rewrite (Hl b) by done. done.
  - destruct (is_ows b); apply IH; try done; intros b' Hb'; apply Hl;
      (destruct s; [done|]; by simpl in *).
Qed.

Lemma normalize_app_trimmed s t out :
  trimmed s -> normalize_bytes (s ++ t) false out = normalize_bytes t false (normalize_bytes s false out).
Proof.
  intros [_ Hl]. destruct (decide (s = [])) as [->|]; [done|]. by apply normalize_app.
Qed.

(** Trailing whitespace does not matter, and leading neither. *)
Lemma normalize_field_bytes s out :
  (forall b, head s = Some b -> is_ows b = false) ->
  normalize_field_value s out = normalize_bytes s false out.
Proof.
  intros Hh. destruct (trim_ows_split s) as (ws & ws' & Hws & Hws' & Hs & Ht).
  assert (ws = []) as ->.
  { destruct Hws as [|b ws Hb]; [done|]. rewrite Hs in Hh. simpl in Hh. naive_solver congruence. }
  simpl in Hs. unfold normalize_field_value. rewrite Hs at 2. rewrite normalize_app_trimmed by done.
  rewrite <- (app_nil_r ws'), normalize_ows by done. done.
Qed.

Lemma normalize_join pad values out :
  Forall (fun b => is_ows b = true) pad ->
  normalize_bytes (join (x2c :: pad) (map trim_ows values)) false out = normalize_lines true values out.
Proof.
  intros Hpad. revert out. induction values as [|v values IH]; intros out; [done|].
  pose proof (trim_ows_trimmed v) as Ht. destruct values as [|v' values].
  { cbn [map join normalize_lines]. done. }
  cbn [map normalize_lines]. rewrite join_cons by done.
  rewrite normalize_app_trimmed by done. change ((x2c :: pad) ++ ?r) with (x2c :: (pad ++ r)).
  change (normalize_bytes (x2c :: ?r) false ?o) with (normalize_bytes r false (o ++ [x2c])).
  rewrite normalize_ows by done. rewrite normalize_after_comma.
  change (trim_ows v' :: map trim_ows values) with (map trim_ows (v' :: values)). rewrite IH.
  cbn [normalize_lines]. done.
Qed.

Lemma head_join pad values b :
  head (join (x2c :: pad) (map trim_ows values)) = Some b -> is_ows b = false.
Proof.
  destruct values as [|v values]; simpl; [done|]. destruct (trim_ows_trimmed v) as [Hh _].
  destruct values; simpl; [apply Hh|]. destruct (trim_ows v) eqn:E; simpl; [by intros [= <-]|].
  simpl in Hh. naive_solver.
Qed.

(** ** Properties *)

Section KeyProperties.
Context {H : Type} `{!HeaderMap H, text : !HttpText, !HttpTextLaws}.

(** The names of a [Vary] selection depend only on the set of elements its
    field lines list: it is accepted as names exactly when no element is the
    wildcard, each is a legal field name, and count and total size are within the
    bounds, and the result is then the strictly increasing list of the
    lower-cased elements, however they were ordered, repeated or spread over
    lines. *)
Theorem key_vary_exact (headers : H) max_fields max_bytes names :
  0 <= max_fields -> 0 <= max_bytes <= usize_max ->
  let elements := vary_elements headers in
  Vary_parse headers max_fields max_bytes = Ok (Names names) <->
  (forall e, e ∈ elements -> e <> lit "*" /\ e <> [] /\ is_Some (header_name_from_bytes e)) /\
  len elements <= max_fields /\ total_len elements <= max_bytes /\
  StronglySorted ord_lt names /\
  (forall n, n ∈ names <-> n ∈ map to_ascii_lowercase elements).
Proof.
  intros Hf Hb elements. unfold Vary_parse. rewrite vary_lines_items, result_bind_Ok.
  fold (vary_elements headers). split.
  - intros ([[ns sz]|] & E & Hr); [|done]. injection Hr as <-.
    apply vary_items_Some in E as (ns' & Hns & Hn & Hsz & Hbd); [|lia].
    change (map trim_ows _) with elements in *. subst ns sz. simpl in *.
    assert (Forall2 (fun e n => n = to_ascii_lowercase e) elements ns') as Hlow.
    { eapply Forall2_impl; [exact Hns|]. intros e n (_ & _ & He). by apply header_name_lower. }
    assert (map to_ascii_lowercase elements = ns') as <-.
    { clear -Hlow. induction Hlow; simpl; congruence. }
    assert (len elements <= max_fields /\ total_len elements <= max_bytes) as [? ?].
    { unfold elements, vary_elements in *. destruct (concat _); [simpl; unfold len; simpl; lia|].
      destruct Hbd as [? Hl]; [done|]. unfold len in *. rewrite length_map in Hl. done. }
    split_and!; [|done|done|apply dedup_sort_sorted|intros; apply elem_of_dedup_sort].
    intros e He. apply list_elem_of_lookup in He as [i Hi].
    eapply Forall2_lookup_l in Hns as (n & _ & ? & ? & ?); [|exact Hi]. naive_solver.
  - intros (Hel & Hl & Ht & Hs & Hin).
    exists (Some (map to_ascii_lowercase elements, total_len elements)). split.
    + apply vary_items_Some; [lia|]. exists (map to_ascii_lowercase elements).
      change (map trim_ows _) with elements. split_and!; [|done|lia|].
      * rewrite Forall2_fmap_r. apply Forall_Forall2_diag, Forall_forall. intros e He.
        destruct (Hel e He) as (? & ? & n & Hn). split_and!; [done..|].
        rewrite Hn. f_equal. by apply header_name_lower.
      * intros _. split; [done|]. unfold len in *. by rewrite length_map.
    + f_equal. f_equal. apply sorted_elements_unique; [apply dedup_sort_sorted|done|].
      intros x. rewrite elem_of_dedup_sort. by rewrite Hin.
Qed.

Lemma CacheKey_new_Ok base (h : H) names mb k :
  CacheKey_new base h (Names names) mb = Ok k <->
  k = mkCacheKey base (map (vary_value h) names) /\ CacheKey_encoded_len k <= mb.
Proof.
  unfold CacheKey_new. simpl. destruct (Z.ltb_spec mb (CacheKey_encoded_len
    (mkCacheKey base (map (vary_value h) names)))); naive_solver lia.
Qed.

Lemma map_vv_name (h : H) names : map vv_name (map (vary_value h) names) = names.
Proof. rewrite map_map. simpl. apply map_id. Qed.

(** The key made for one request selects another exactly when their base keys
    agree and, for every field the response varies on, both have it or neither
    does, with the same normalised value; the size bound, which also the
    selection checks, never hides a match. *)
Theorem key_selects base base' (h h' : H) names mb k :
  CacheKey_new base h (Names names) mb = Ok k ->
  matches_request k base' h' mb = true <->
  base' = base /\ forall n, n ∈ names -> vary_value h' n = vary_value h n.
Proof.
  intros [-> Hl]%CacheKey_new_Ok. unfold matches_request. simpl. rewrite map_vv_name.
  case_bool_decide as Hb; [naive_solver|]. subst base'. split.
  - destruct (CacheKey_new base h' _ mb) as [k|] eqn:E; [|done].
    intros ->%bool_decide_eq_true. apply CacheKey_new_Ok in E as [[= Hm] _]. split; [done|].
    intros n [i Hi]%list_elem_of_lookup. apply (f_equal (fun l => l !! i)) in Hm.
    rewrite !list_lookup_fmap, Hi in Hm. simpl in Hm. congruence.
  - intros [_ Hn]. assert (map (vary_value h') names = map (vary_value h) names) as Hm.
    { apply map_ext_in. intros n Hin. apply Hn. by apply list_elem_of_In. }
    assert (CacheKey_new base h' (Names names) mb = Ok (mkCacheKey base (map (vary_value h) names))) as ->.
    { apply CacheKey_new_Ok. by rewrite Hm. }
    by apply bool_decide_eq_true.
Qed.

(** A field sent in several lines has the same normalised value as the lines
    combined into one, separated by commas and any amount of whitespace, as the
    combination rule of HTTP allows an intermediary to do. *)
Theorem key_lines_combine pad values :
  Forall (fun b => is_ows b = true) pad ->
  normalize_lines true values [] =
  normalize_lines true [join (x2c :: pad) (map trim_ows values)] [].
Proof.
  intros Hpad. rewrite <- (normalize_join pad) by done. simpl.
  rewrite normalize_field_bytes; [done|]. apply head_join.
Qed.
End KeyProperties.

(** ** Canonical base keys *)

Section BaseKeyProperties.
Context {H : Type} `{!HeaderMap H, text : !HttpText}.

(** The port that distinguishes an authority: none when it is the scheme's. *)
Definition effective_port (scheme : bytes) (port : option Z) : option Z :=
  match port with
  | Some p => if ((p =? 80) && beqb scheme (lit "http")) || ((p =? 443) && beqb scheme (lit "https"))
              then None else Some p
  | None => None
  end.

(** Host without brackets and case. *)
Definition plain_host (a : Authority) : bytes :=
  to_ascii_lowercase (trim_end_matches x5d (trim_start_matches x5b (authority_host a))).

Lemma canonical_authority_eq raw scheme a :
  authority_from_str raw = Some a ->
  canonical_authority raw scheme =
  let host := if contains_byte x3a (plain_host a) then [x5b] ++ plain_host a ++ [x5d] else plain_host a in
  Ok (from_option (fun p => host ++ [x3a] ++ dec_string p) host
        (effective_port scheme (authority_port_u16 a))).
Proof.
  intros E. unfold canonical_authority, effective_port. rewrite E. cbn [result_bind ok_or].
  fold (plain_host a). destruct (authority_port_u16 a) as [p|]; simpl; [|done].
  destruct ((p =? 80) && _); simpl; [done|]. by destruct ((p =? 443) && _).
Qed.

(** Requests that differ only in the case of the scheme and of the host, in
    naming the scheme's default port, or in being HEAD instead of GET have the
    same base key or are refused alike. *)
Theorem key_base_canonical (i i' : RequestKeyInput H) a a' mb :
  to_ascii_lowercase (rk_scheme i) = to_ascii_lowercase (rk_scheme i') ->
  authority_from_str (rk_authority i) = Some a -> authority_from_str (rk_authority i') = Some a' ->
  plain_host a = plain_host a' ->
  effective_port (to_ascii_lowercase (rk_scheme i)) (authority_port_u16 a)
  = effective_port (to_ascii_lowercase (rk_scheme i)) (authority_port_u16 a') ->
  (if decide (rk_method i = HEAD) then GET else rk_method i)
  = (if decide (rk_method i' = HEAD) then GET else rk_method i') ->
  rk_path i = rk_path i' -> rk_query i = rk_query i' ->
  BaseKey_new i mb = BaseKey_new i' mb.
Proof.
  intros Hs Ha Ha' Hh Hp Hm Hpath Hq. unfold BaseKey_new.
  rewrite (canonical_authority_eq _ _ _ Ha), (canonical_authority_eq _ _ _ Ha').
  unfold beqb in *. rewrite <- Hpath, <- Hq, <- Hs, <- Hh, <- Hp. cbn [result_bind].
  repeat (case_match; [done|]).
  assert ((if bool_decide (rk_method i = HEAD) then GET else rk_method i)
          = if bool_decide (rk_method i' = HEAD) then GET else rk_method i') as ->; [|done].
  repeat case_bool_decide; repeat case_decide; done.
Qed.
End BaseKeyProperties.

(** ** Witnesses *)

Definition example_headers : headers_list :=
  [(VARY, lit "Accept, accept-encoding"); (VARY, lit " Accept")].
Definition example_request : headers_list :=
  [(lit "accept", lit " text/html "); (lit "accept", lit "text/plain"); (lit "cookie", lit "a=1")].
Definition example_request' : headers_list := [(lit "accept", lit "text/html, text/plain")].
Definition example_base : BaseKey := mkBaseKey GET (lit "http") (lit "h") (lit "/") None.

Lemma key_vary_exact_witness :
  Vary_parse (text := example_text) example_headers 8 100
    = Ok (Names [lit "accept"; lit "accept-encoding"]) /\
  len (vary_elements example_headers) <= 8.
Proof.
  pose proof (proj1 (@key_vary_exact headers_list _ example_text example_text_laws example_headers 8 100
    [lit "accept"; lit "accept-encoding"] ltac:(lia) ltac:(unfold usize_max, u64_max; lia))) as Hx.
  assert (Vary_parse (text := example_text) example_headers 8 100
    = Ok (Names [lit "accept"; lit "accept-encoding"])) as E by (vm_compute; reflexivity).
  split; [exact E|]. by destruct (Hx E) as (_ & ? & _).
Defined.

Lemma key_selects_witness :
  exists k, CacheKey_new example_base example_request (Names [lit "accept"]) 100 = Ok k /\
            matches_request k example_base example_request' 100 = true.
Proof.
  eexists. split; [vm_compute; reflexivity|].
  refine (proj2 (key_selects example_base example_base example_request example_request' [lit "accept"]
    100 _ eq_refl) _). split; [reflexivity|].
  intros n Hn. apply list_elem_of_singleton in Hn as ->. vm_compute. reflexivity.
Defined.

Lemma key_lines_combine_witness :
  normalize_lines true [lit " a  b "; lit "c"] [] = normalize_lines true [lit "a  b, c"] [].
Proof. apply (key_lines_combine [x20] [lit " a  b "; lit "c"]). by repeat constructor. Defined.

Lemma key_base_canonical_witness :
  BaseKey_new (text := example_text) (mkKeyInput HEAD (lit "HTTP") (lit "Example.org") (lit "/a") None example_request) 100
  = BaseKey_new (text := example_text) (mkKeyInput GET (lit "http") (lit "example.ORG") (lit "/a") None example_request) 100.
Proof.
  apply (@key_base_canonical headers_list example_text _ _
    (mkAuthority (lit "Example.org") None) (mkAuthority (lit "example.ORG") None)); vm_compute; reflexivity.
Defined.
