(* ===== verification/CachePolicy.v ===== *)
(** Cache policy, [oxiroute-cache/src/policy.rs]: the strict parser of
    [Cache-Control], the request policy, the decision whether a response may be
    stored and for how long it is fresh, the canonical timeline of the server,
    and the merge of a 304 response into stored headers. *)

From stdpp Require Import base list sorting sets strings.
From Stdlib Require Import ZArith Lia Strings.Byte.
From S2P Require Import Prelude Bytes Order Clock Http CacheKey.

Open Scope Z_scope.

(** ** Data *)

Record CacheTimeline := mkTimeline {
  use_origin_cache_control : bool;
  default_ttl : Duration;
  status_ttls : list (StatusCode * Duration);
  grace : Duration;
  keep : Duration
}.

Inductive CacheTimelineError := GraceExceedsKeep | DuplicateStatus | UnsupportedStatus.

Inductive ParseError :=
| InvalidDirective
| DuplicateDirective
| InvalidDeltaSeconds
| DuplicateField
| InvalidDate
| InvalidValidator.

Inductive ResponseRejection :=
| InvalidMetadata (e : ParseError)
| NoStore
| Private
| SetCookie
| HopByHop
| RejectAuthorization
| RejectStatus
| RejectInvalidVary
| RejectVaryAny
| InvalidTiming.

Inductive RevalidationError := ProhibitedField.

Record CacheControl := mkControl {
  cc_no_store : bool;
  cc_private : bool;
  cc_no_cache : bool;
  cc_must_revalidate : bool;
  cc_proxy_revalidate : bool;
  cc_public : bool;
  cc_only_if_cached : bool;
  cc_immutable : bool;
  cc_max_age : option Duration;
  cc_shared_max_age : option Duration;
  cc_min_fresh : option Duration;
  cc_max_stale : option (option Duration);
  cc_stale_while_revalidate : option Duration;
  cc_stale_if_error : option Duration
}.

Definition CacheControl_default : CacheControl :=
  mkControl false false false false false false false false None None None None None None.

Inductive RequestMode := LookupMode | RevalidateMode | BypassMode.

Record RequestPolicy := mkRequestPolicy {
  mode : RequestMode;
  only_if_cached : bool;
  max_age : option Duration;
  min_fresh : Duration;
  max_stale : option (option Duration)
}.

Record ResponseTiming := mkTiming {
  request_started : MonoTime;
  response_received : MonoTime;
  response_received_wall : SystemTime
}.

Record Validators := mkValidators {
  v_etag : option HeaderValue;
  v_last_modified : option HeaderValue
}.

Inductive RetentionPolicy :=
| Rfc
| Canonical (keep : Duration).

Record ResponsePolicy := mkPolicy {
  freshness_lifetime : Duration;
  corrected_initial_age : Duration;
  stale_while_revalidate : Duration;
  stale_if_error : Duration;
  retention : RetentionPolicy;
  always_revalidate : bool;
  must_revalidate_stale : bool;
  allows_authorized_reuse : bool
}.

Record ResponsePolicyInput (H : Type) := mkPolicyInput {
  pi_request_headers : H;
  pi_status : StatusCode;
  pi_headers : H;
  pi_timing : ResponseTiming;
  pi_max_heuristic_freshness : Duration;
  pi_max_vary_fields : Z;
  pi_max_vary_bytes : Z;
  pi_timeline : option CacheTimeline
}.
Arguments mkPolicyInput {H}.
Arguments pi_request_headers {H}.
Arguments pi_status {H}.
Arguments pi_headers {H}.
Arguments pi_timing {H}.
Arguments pi_max_heuristic_freshness {H}.
Arguments pi_max_vary_fields {H}.
Arguments pi_max_vary_bytes {H}.
Arguments pi_timeline {H}.

Record ResponseFreshness := mkFreshness {
  lifetime : Duration;
  f_corrected_initial_age : Duration;
  f_stale_while_revalidate : Duration;
  f_stale_if_error : Duration;
  f_retention : RetentionPolicy
}.

#[export] Instance RequestMode_eq_dec : EqDecision RequestMode.
Proof. solve_decision. Defined.

(** ** [CacheTimeline] *)

(** Two neighbours with the same status: [windows(2)]. *)
Fixpoint adjacent_duplicate (l : list (StatusCode * Duration)) : bool :=
  match l with
  | a :: ((b :: _) as rest) => (a.1 =? b.1) || adjacent_duplicate rest
  | _ => false
  end.

Definition status_le (a b : StatusCode * Duration) : Prop := a.1 <= b.1.
#[export] Instance status_le_dec : RelDecision status_le.
Proof. intros a b. unfold status_le. apply _. Defined.

Definition CacheTimeline_new (use_origin : bool) (ttl : Duration) (ttls : list (StatusCode * Duration))
    (grace keep : Duration) : result CacheTimeline CacheTimelineError :=
  if keep <? grace then Err GraceExceedsKeep
  else
    let ttls := merge_sort status_le ttls in
    if adjacent_duplicate ttls then Err DuplicateStatus
    else if existsb (fun p => is_informational p.1 || (p.1 =? PARTIAL_CONTENT) || (p.1 =? NOT_MODIFIED)) ttls
    then Err UnsupportedStatus
    else Ok (mkTimeline use_origin ttl ttls grace keep).

(** [slice::binary_search_by_key] between two indices; the range halves, so its
    length is fuel enough. *)
Fixpoint binary_search (fuel : nat) (l : list (StatusCode * Duration)) (status : StatusCode) (lo hi : nat) :
    option nat :=
  match fuel with
  | O => None
  | S fuel =>
      if (hi <=? lo)%nat then None
      else
        let mid := (lo + (hi - lo) / 2)%nat in
        match l !! mid with
        | None => None
        | Some (candidate, _) =>
            match Z.compare candidate status with
            | Eq => Some mid
            | Lt => binary_search fuel l status (S mid) hi
            | Gt => binary_search fuel l status lo mid
            end
        end
  end.

Definition status_ttl (self : CacheTimeline) (status : StatusCode) : option Duration :=
  let l := status_ttls self in
  match binary_search (length l) l status 0 (length l) with
  | Some index => snd <$> l !! index
  | None => None
  end.

(** ** Text *)

Definition is_token (b : byte) : bool :=
  is_ascii_alphanumeric b || contains_byte b (lit "!#$%&'*+-.^_`|~").

(** The loop of [comma_items]; [item] is [value[start..index]]. *)
Fixpoint comma_loop (value item : bytes) (quoted escaped : bool) (items : list bytes) :
    result (list bytes) ParseError :=
  match value with
  | [] =>
      if quoted || escaped then Err InvalidDirective
      else
        let final_item := trim_ows item in
        if beqb final_item [] then Err InvalidDirective else Ok (items ++ [final_item])
  | b :: value =>
      if escaped then comma_loop value (item ++ [b]) quoted false items
      else if quoted && Byte.eqb b x5c then comma_loop value (item ++ [b]) quoted true items
      else if Byte.eqb b x22 then comma_loop value (item ++ [b]) (negb quoted) escaped items
      else if Byte.eqb b x2c && negb quoted then
        let item := trim_ows item in
        if beqb item [] then Err InvalidDirective
        else comma_loop value [] quoted escaped (items ++ [item])
      else comma_loop value (item ++ [b]) quoted escaped items
  end.

Definition comma_items (value : bytes) : result (list bytes) ParseError :=
  comma_loop value [] false false [].

Definition text_byte (b : byte) : bool := Byte.eqb b x09 || ((32 <=? b2z b) && negb (Byte.eqb b x7f)).

Fixpoint quoted_text (escaped : bool) (s : bytes) : bool :=
  match s with
  | [] => negb escaped
  | b :: s =>
      if escaped then text_byte b && quoted_text false s
      else if Byte.eqb b x5c then quoted_text true s
      else if Byte.eqb b x22 || negb (text_byte b) then false
      else quoted_text false s
  end.

Definition valid_directive_value (value : bytes) : bool :=
  if forallb is_token value then true
  else if (len value <? 2) || bool_decide (head value <> Some x22) || bool_decide (last value <> Some x22)
  then false
  else quoted_text false (slice value 1 (len value - 1)).

Definition directive (item : bytes) : result (bytes * option bytes) ParseError :=
  let '(name, value) :=
    match split_once x3d item with
    | None => (item, None)
    | Some (l, r) => (trim_ows l, Some (trim_ows r))
    end in
  if beqb name [] || negb (forallb is_token name) then Err InvalidDirective
  else if from_option (fun value => beqb value [] || negb (valid_directive_value value)) false value
  then Err InvalidDirective
  else Ok (name, value).

Definition flag (value : option bytes) : result bool ParseError :=
  match value with Some _ => Err InvalidDirective | None => Ok true end.

Definition optional_field_list (value : option bytes) : result bool ParseError :=
  if from_option (fun value => bool_decide (head value <> Some x22)) false value
  then Err InvalidDirective else Ok true.

Definition required (value : option bytes) : result bytes ParseError := ok_or InvalidDirective value.

Fixpoint delta_loop (value : bytes) (seconds : Z) : result Z ParseError :=
  match value with
  | [] => Ok seconds
  | digit :: value =>
      let? seconds := ok_or InvalidDeltaSeconds
        (number ← checked_mul u64_max seconds 10; checked_add u64_max number (b2z digit - 48)) in
      delta_loop value seconds
  end.

Definition delta_seconds (value : bytes) : result Duration ParseError :=
  if beqb value [] || negb (forallb is_ascii_digit value) then Err InvalidDeltaSeconds
  else result_map from_secs (delta_loop value 0).

Definition ascii_list_contains (value expected : bytes) : bool :=
  existsb (fun item => eq_ignore_ascii_case item expected) (map trim_ows (split x2c value)).

(** ** [CacheControl::parse] *)

Definition recognized_directives : list bytes :=
  [lit "no-store"; lit "private"; lit "no-cache"; lit "must-revalidate"; lit "proxy-revalidate";
   lit "public"; lit "only-if-cached"; lit "immutable"; lit "max-age"; lit "s-maxage"; lit "min-fresh";
   lit "max-stale"; lit "stale-while-revalidate"; lit "stale-if-error"].

Definition recognized (lower : bytes) : bool := bool_decide (lower ∈ recognized_directives).

(** The assignments of the [match] on the directive name. *)
Definition assign_directive (lower : bytes) (value : option bytes) (p : CacheControl) :
    result CacheControl ParseError :=
  let '(mkControl ns pr nc mr xr pu oc im ma sm mf ms sw se) := p in
  let seconds := let? v := required value in delta_seconds v in
  if beqb lower (lit "no-store") then
    let? ns := flag value in Ok (mkControl ns pr nc mr xr pu oc im ma sm mf ms sw se)
  else if beqb lower (lit "private") then
    let? pr := optional_field_list value in Ok (mkControl ns pr nc mr xr pu oc im ma sm mf ms sw se)
  else if beqb lower (lit "no-cache") then
    let? nc := optional_field_list value in Ok (mkControl ns pr nc mr xr pu oc im ma sm mf ms sw se)
  else if beqb lower (lit "must-revalidate") then
    let? mr := flag value in Ok (mkControl ns pr nc mr xr pu oc im ma sm mf ms sw se)
  else if beqb lower (lit "proxy-revalidate") then
    let? xr := flag value in Ok (mkControl ns pr nc mr xr pu oc im ma sm mf ms sw se)
  else if beqb lower (lit "public") then
    let? pu := flag value in Ok (mkControl ns pr nc mr xr pu oc im ma sm mf ms sw se)
  else if beqb lower (lit "only-if-cached") then
    let? oc := flag value in Ok (mkControl ns pr nc mr xr pu oc im ma sm mf ms sw se)
  else if beqb lower (lit "immutable") then
    let? im := flag value in Ok (mkControl ns pr nc mr xr pu oc im ma sm mf ms sw se)
  else if beqb lower (lit "max-age") then
    let? ma := seconds in Ok (mkControl ns pr nc mr xr pu oc im (Some ma) sm mf ms sw se)
  else if beqb lower (lit "s-maxage") then
    let? sm := seconds in Ok (mkControl ns pr nc mr xr pu oc im ma (Some sm) mf ms sw se)
  else if beqb lower (lit "min-fresh") then
    let? mf := seconds in Ok (mkControl ns pr nc mr xr pu oc im ma sm (Some mf) ms sw se)
  else if beqb lower (lit "max-stale") then
    let? ms := transpose (delta_seconds <$> value) in
    Ok (mkControl ns pr nc mr xr pu oc im ma sm mf (Some ms) sw se)
  else if beqb lower (lit "stale-while-revalidate") then
    let? sw := seconds in Ok (mkControl ns pr nc mr xr pu oc im ma sm mf ms (Some sw) se)
  else if beqb lower (lit "stale-if-error") then
    let? se := seconds in Ok (mkControl ns pr nc mr xr pu oc im ma sm mf ms sw (Some se))
  else Ok p.

(** The loop body after the directive is split. *)
Definition control_directive (d : bytes * option bytes) (acc : CacheControl * list bytes) :
    result (CacheControl * list bytes) ParseError :=
  let '(parsed, seen) := acc in
  let lower := to_ascii_lowercase d.1 in
  if recognized lower && bool_decide (lower ∈ seen) then Err DuplicateDirective
  else
    let seen := if recognized lower then seen ++ [lower] else seen in
    let? parsed := assign_directive lower d.2 parsed in
    Ok (parsed, seen).

Fixpoint control_items (items : list bytes) (acc : CacheControl * list bytes) :
    result (CacheControl * list bytes) ParseError :=
  match items with
  | [] => Ok acc
  | item :: items =>
      let? d := directive item in
      let? acc := control_directive d acc in
      control_items items acc
  end.

Fixpoint control_lines (values : list HeaderValue) (acc : CacheControl * list bytes) :
    result (CacheControl * list bytes) ParseError :=
  match values with
  | [] => Ok acc
  | value :: values =>
      let? items := comma_items value in
      let? acc := control_items items acc in
      control_lines values acc
  end.

Section Policies.
Context {H : Type} `{!HeaderMap H, text : !HttpText}.

Definition CacheControl_parse (headers : H) : result CacheControl ParseError :=
  result_map fst (control_lines (get_all headers CACHE_CONTROL) (CacheControl_default, [])).

(** ** Requests *)

Definition RequestPolicy_evaluate (method : Method) (headers : H) : result RequestPolicy ParseError :=
  let? control := CacheControl_parse headers in
  let cache_method := beqb method GET || beqb method HEAD in
  let has_range := contains_key headers RANGE in
  let has_body :=
    contains_key headers TRANSFER_ENCODING
    || existsb (fun value => negb (beqb value (lit "0"))) (get_all headers CONTENT_LENGTH) in
  let has_condition :=
    existsb (contains_key headers)
      [IF_MATCH; IF_NONE_MATCH; IF_MODIFIED_SINCE; IF_UNMODIFIED_SINCE; IF_RANGE] in
  let pragma_no_cache :=
    negb (contains_key headers CACHE_CONTROL)
    && existsb (fun value => ascii_list_contains value (lit "no-cache")) (get_all headers PRAGMA) in
  let m :=
    if negb cache_method || has_range || has_body || has_condition || cc_no_store control then BypassMode
    else if cc_no_cache control || bool_decide (cc_max_age control = Some 0) || pragma_no_cache
    then RevalidateMode
    else LookupMode in
  Ok (mkRequestPolicy m (cc_only_if_cached control) (cc_max_age control)
        (default 0 (cc_min_fresh control)) (cc_max_stale control)).

(** ** Responses *)

Definition current_age (date : option SystemTime) (age_value : Duration) (timing : ResponseTiming)
    (now : MonoTime) : Duration :=
  let apparent_age :=
    from_option (fun date => duration_since_or_default (response_received_wall timing) date) 0 date in
  let response_delay := saturating_duration_since (response_received timing) (request_started timing) in
  let corrected_age := dur_add age_value response_delay in
  let corrected_initial_age := Z.max apparent_age corrected_age in
  dur_add corrected_initial_age (saturating_duration_since now (response_received timing)).

Definition Validators_is_empty (self : Validators) : bool :=
  bool_decide (v_etag self = None) && bool_decide (v_last_modified self = None).

Definition Validators_apply (self : Validators) (headers : H) : H :=
  let headers :=
    from_option (fun etag => header_or_insert headers IF_NONE_MATCH etag) headers (v_etag self) in
  from_option (fun last_modified => header_or_insert headers IF_MODIFIED_SINCE last_modified) headers
    (v_last_modified self).

Definition request_stale_allowed (self : RetentionPolicy) : bool :=
  match self with Rfc => true | Canonical _ => false end.

Definition RetentionPolicy_keep (self : RetentionPolicy) : option Duration :=
  match self with Rfc => None | Canonical keep => Some keep end.

Definition prohibited_304 (name : HeaderName) : bool :=
  bool_decide (name ∈ [lit "connection"; lit "content-length"; lit "keep-alive"; lit "proxy-authenticate";
    lit "proxy-authorization"; lit "set-cookie"; lit "te"; lit "trailer"; lit "transfer-encoding";
    lit "upgrade"]).

Definition prohibited_stored_header (name : HeaderName) : bool :=
  bool_decide (name ∈ [lit "connection"; lit "keep-alive"; lit "proxy-authenticate";
    lit "proxy-authorization"; lit "te"; lit "trailer"; lit "transfer-encoding"; lit "upgrade"]).

Definition default_cacheable (status : StatusCode) : bool :=
  bool_decide (status ∈ [200; 203; 204; 300; 301; 308; 404; 405; 410; 414; 501]).

Definition etag_byte (b : byte) : bool :=
  (b2z b =? 33) || in_range 35 126 (b2z b) || (128 <=? b2z b).

Definition valid_etag (value : bytes) : bool :=
  let value := default value (strip_prefix (lit "W/") value) in
  (2 <=? len value) && bool_decide (head value = Some x22) && bool_decide (last value = Some x22)
  && forallb etag_byte (slice value 1 (len value - 1)).

Definition single_header (headers : H) (name : HeaderName) : result (option HeaderValue) ParseError :=
  match get_all headers name with
  | [] => Ok None
  | [first] => Ok (Some first)
  | _ :: _ :: _ => Err DuplicateField
  end.

Definition parse_date (value : bytes) : result SystemTime ResponseRejection :=
  if utf8_valid value then ok_or (InvalidMetadata InvalidDate) (parse_http_date value)
  else Err (InvalidMetadata InvalidDate).

Definition optional_date (headers : H) (name : HeaderName) : result (option SystemTime) ResponseRejection :=
  let? value := map_err InvalidMetadata (single_header headers name) in
  transpose (parse_date <$> value).

Definition optional_delta_header (headers : H) (name : HeaderName) :
    result (option Duration) ResponseRejection :=
  let? value := map_err InvalidMetadata (single_header headers name) in
  transpose ((fun value => map_err InvalidMetadata (delta_seconds value)) <$> value).

Definition response_freshness (status : StatusCode) (headers : H) (timing : ResponseTiming)
    (max_heuristic_freshness : Duration) (timeline : option CacheTimeline) (control : CacheControl) :
    result ResponseFreshness ResponseRejection :=
  let? date := optional_date headers DATE in
  let? expires := optional_date headers EXPIRES in
  let? last_modified := optional_date headers LAST_MODIFIED in
  let? age := optional_delta_header headers AGE in
  let age := default 0 age in
  let received := default (response_received_wall timing) date in
  let explicit :=
    match cc_shared_max_age control, cc_max_age control with
    | Some d, _ => Some d
    | None, Some d => Some d
    | None, None => (fun expires => duration_since_or_default expires received) <$> expires
    end in
  let configured_status_ttl := timeline ≫= fun timeline => status_ttl timeline status in
  if bool_decide (configured_status_ttl = None) && bool_decide (explicit = None)
     && negb (default_cacheable status) && negb (cc_public control)
  then Err RejectStatus
  else
    let heuristic :=
      from_option (fun modified =>
        Z.min (div_f32 (duration_since_or_default received modified) (f32_of_Z 10)) max_heuristic_freshness)
        0 last_modified in
    let lifetime :=
      match timeline with
      | None => default heuristic explicit
      | Some timeline =>
          match configured_status_ttl with
          | Some ttl => ttl
          | None =>
              default (default_ttl timeline)
                (if use_origin_cache_control timeline then explicit else None)
          end
      end in
    Ok (mkFreshness lifetime
          (current_age date age timing (response_received timing))
          (match timeline with None => default 0 (cc_stale_while_revalidate control) | Some _ => 0 end)
          (match timeline with
           | None => default 0 (cc_stale_if_error control)
           | Some timeline => grace timeline
           end)
          (match timeline with None => Rfc | Some timeline => Canonical (keep timeline) end)).

Definition response_validators (headers : H) : result Validators ResponseRejection :=
  let? etag := map_err InvalidMetadata (single_header headers ETAG) in
  if from_option (fun value => negb (valid_etag value)) false etag
  then Err (InvalidMetadata InvalidValidator)
  else
    let? last_modified := map_err InvalidMetadata (single_header headers LAST_MODIFIED) in
    Ok (mkValidators etag last_modified).

Definition ResponsePolicy_evaluate (input : ResponsePolicyInput H) :
    result (ResponsePolicy * Vary * Validators) ResponseRejection :=
  let headers := pi_headers input in
  let status := pi_status input in
  let? control := map_err InvalidMetadata (CacheControl_parse headers) in
  if (status =? PARTIAL_CONTENT) || (status =? NOT_MODIFIED) then Err RejectStatus
  else if cc_no_store control then Err NoStore
  else if cc_private control then Err Private
  else if contains_key headers SET_COOKIE then Err SetCookie
  else if existsb prohibited_stored_header (header_keys headers) then Err HopByHop
  else
    let allows_authorized_reuse :=
      cc_public control || bool_decide (is_Some (cc_shared_max_age control)) || cc_must_revalidate control in
    if contains_key (pi_request_headers input) AUTHORIZATION && negb allows_authorized_reuse
    then Err RejectAuthorization
    else
      let? vary := map_err (fun _ => RejectInvalidVary)
                     (Vary_parse headers (pi_max_vary_fields input) (pi_max_vary_bytes input)) in
      if bool_decide (vary = Any) then Err RejectVaryAny
      else
        let? freshness := response_freshness status headers (pi_timing input)
                            (pi_max_heuristic_freshness input) (pi_timeline input) control in
        let must_revalidate_stale :=
          cc_no_cache control || cc_must_revalidate control || cc_proxy_revalidate control
          || bool_decide (is_Some (cc_shared_max_age control)) in
        let? validators := response_validators headers in
        Ok (mkPolicy (lifetime freshness) (f_corrected_initial_age freshness)
              (f_stale_while_revalidate freshness) (f_stale_if_error freshness) (f_retention freshness)
              (cc_no_cache control) must_revalidate_stale allows_authorized_reuse,
            vary, validators).

(** ** 304 responses *)

(** The first loop: the distinct names, unless one is prohibited. *)
Fixpoint not_modified_names (keys names : list HeaderName) : result (list HeaderName) RevalidationError :=
  match keys with
  | [] => Ok names
  | name :: keys =>
      if prohibited_304 name then Err ProhibitedField
      else not_modified_names keys (if bool_decide (name ∈ names) then names else names ++ [name])
  end.

Definition replace_field (not_modified merged : H) (name : HeaderName) : H :=
  foldl (fun merged value => header_append merged name value) (header_remove merged name)
    (get_all not_modified name).

Definition merge_not_modified_headers (stored not_modified : H) : result H RevalidationError :=
  let? names := not_modified_names (header_keys not_modified) [] in
  Ok (foldl (replace_field not_modified) stored names).
End Policies.

(** ** The timeline *)

Definition status_lt (a b : StatusCode * Duration) : Prop := a.1 < b.1.

Lemma adjacent_strict l :
  StronglySorted status_le l -> adjacent_duplicate l = false -> StronglySorted status_lt l.
Proof.
  induction 1 as [|a l Hs IH Ha]; [constructor|]. destruct l as [|b l].
  { intros _. repeat constructor. }
  cbn [adjacent_duplicate]. intros [Hab Hl]%orb_false_iff. apply Z.eqb_neq in Hab.
  specialize (IH Hl). apply Forall_cons in Ha as [Hle _]. unfold status_le in Hle.
  constructor; [done|]. constructor; [unfold status_lt; lia|].
  apply StronglySorted_inv in IH as [_ Hb]. eapply Forall_impl; [exact Hb|].
  unfold status_lt. intros; lia.
Qed.

Lemma binary_search_sound fuel l s lo hi i :
  binary_search fuel l s lo hi = Some i -> exists d, l !! i = Some (s, d).
Proof.
  revert lo hi; induction fuel as [|fuel IH]; intros lo hi; cbn [binary_search]; [done|].
  case_match; [done|]. destruct (l !! (lo + (hi - lo) / 2)%nat) as [[c d]|] eqn:E; [|done].
  destruct (Z.compare_spec c s); eauto. intros [= <-]. subst. eauto.
Qed.

Lemma binary_search_complete fuel l s lo hi j d :
  StronglySorted status_lt l -> (hi - lo <= fuel)%nat -> (hi <= length l)%nat -> (lo <= j < hi)%nat ->
  l !! j = Some (s, d) ->
  binary_search fuel l s lo hi = Some j.
Proof.
  intros Hs. revert lo hi; induction fuel as [|fuel IH]; intros lo hi Hf Hh Hj Hl; [lia|]. cbn [binary_search].
  destruct (Nat.leb_spec hi lo); [lia|].
  pose proof (Nat.div_lt (hi - lo) 2 ltac:(lia) ltac:(lia)).
  set (mid := (lo + (hi - lo) / 2)%nat) in *. assert (lo <= mid < hi)%nat by lia.
  destruct (l !! mid) as [[c d']|] eqn:E.
  2: { apply lookup_ge_None in E. lia. }
  destruct (Z.compare_spec c s) as [->|Hlt|Hgt].
  - f_equal. destruct (Nat.lt_trichotomy mid j) as [Hm|[->|Hm]]; [|done|].
    + pose proof (sorted_lookup _ _ _ _ _ _ Hs E Hl Hm). unfold status_lt in *. simpl in *. lia.
    + pose proof (sorted_lookup _ _ _ _ _ _ Hs Hl E Hm). unfold status_lt in *. simpl in *. lia.
  - apply IH; [lia|lia| |done]. split; [|lia]. destruct (Nat.lt_trichotomy mid j) as [Hm|[->|Hm]]; [lia| |].
    + rewrite E in Hl. injection Hl as -> _. lia.
    + pose proof (sorted_lookup _ _ _ _ _ _ Hs Hl E Hm). unfold status_lt in *. simpl in *. lia.
  - apply IH; [lia|lia| |done]. split; [lia|]. destruct (Nat.lt_trichotomy mid j) as [Hm|[->|Hm]]; [| |lia].
    + pose proof (sorted_lookup _ _ _ _ _ _ Hs E Hl Hm). unfold status_lt in *. simpl in *. lia.
    + rewrite E in Hl. injection Hl as -> _. lia.
Qed.

Lemma timeline_sorted uo ttl ttls g k t :
  CacheTimeline_new uo ttl ttls g k = Ok t ->
  StronglySorted status_lt (status_ttls t) /\ status_ttls t ≡ₚ ttls.
Proof.
  unfold CacheTimeline_new. destruct (k <? g); [done|].
  destruct (adjacent_duplicate _) eqn:Ed; [done|]. case_match; [done|]. intros [= <-]; simpl.
  split; [|apply merge_sort_Permutation]. apply adjacent_strict; [|done].
  apply StronglySorted_merge_sort.
  - intros a b c. unfold status_le. lia.
  - intros a b. unfold status_le. lia.
Qed.

(** An accepted timeline answers every status with the lifetime configured
    for it and no other status with any: the binary search of the sorted table
    finds exactly the configured pairs. *)
Theorem timeline_status_exact uo ttl ttls g k t s d :
  CacheTimeline_new uo ttl ttls g k = Ok t -> status_ttl t s = Some d <-> (s, d) ∈ ttls.
Proof.
  intros [Hs Hp]%timeline_sorted. rewrite <- Hp. unfold status_ttl. split.
  - destruct (binary_search _ _ _ _ _) as [i|] eqn:E; [|done].
    apply binary_search_sound in E as [d' E]. rewrite E. intros [= ->].
    by eapply list_elem_of_lookup_2.
  - intros [i Hi]%list_elem_of_lookup. pose proof (lookup_lt_Some _ _ _ Hi).
    rewrite (binary_search_complete _ _ s _ _ i d); [by rewrite Hi|done|lia|done|lia|done].
Qed.

(** ** Numbers *)

Lemma dec_value_acc s acc :
  foldl (fun a b => a * 10 + digit_value b) acc s = acc * 10 ^ len s + dec_value s.
Proof.
  unfold dec_value. revert acc; induction s as [|b s IH]; intros acc; [simpl; unfold len; simpl; lia|].
  cbn [foldl]. rewrite IH, (IH (0 * 10 + digit_value b)), len_cons.
  rewrite Z.pow_add_r by (pose proof (len_nonneg s); lia). lia.
Qed.

Lemma delta_loop_Ok s acc n :
  0 <= acc -> Forall (fun b => is_ascii_digit b = true) s ->
  delta_loop s acc = Ok n <->
  n = foldl (fun a b => a * 10 + digit_value b) acc s /\ (s = [] \/ n <= u64_max).
Proof.
  intros Hacc Hs. revert acc Hacc. induction Hs as [|b s Hb Hs IH]; intros acc Hacc; simpl; [naive_solver|].
  apply digit_value_range in Hb as Hd. fold (digit_value b). unfold checked_mul.
  set (acc' := acc * 10 + digit_value b).
  assert (acc' <= foldl (fun a b => a * 10 + digit_value b) acc' s) as Hmono.
  { rewrite dec_value_acc. pose proof (dec_value_nonneg s Hs). pose proof (len_nonneg s).
    assert (1 <= 10 ^ len s) by (apply (Z.pow_le_mono_r 10 0); lia). nia. }
  destruct (Z.leb_spec (acc * 10) u64_max); simpl.
  - unfold checked_add. fold acc'. destruct (Z.leb_spec acc' u64_max); simpl.
    + rewrite IH by lia. destruct s; simpl in *; naive_solver lia.
    + naive_solver lia.
  - naive_solver lia.
Qed.

(** A number of seconds is read exactly when it is a nonempty string of
    digits whose value fits 64 bits, and then to that value: overflow is an error
    and never wraps or saturates. *)
Theorem delta_seconds_exact v d :
  delta_seconds v = Ok d <->
  v <> [] /\ Forall (fun b => is_ascii_digit b = true) v /\ dec_value v <= u64_max /\
  d = from_secs (dec_value v).
Proof.
  unfold delta_seconds, beqb. case_bool_decide as Hv; simpl; [naive_solver|].
  destruct (forallb is_ascii_digit v) eqn:E; simpl.
  - apply forallb_Forall in E as Hd.
    destruct (delta_loop v 0) as [n|] eqn:En; simpl.
    + apply delta_loop_Ok in En as [Hn Hb]; [|lia|done]. unfold dec_value. rewrite <- Hn. naive_solver.
    + split; [done|]. intros (_ & _ & Hle & _).
      assert (delta_loop v 0 = Ok (dec_value v)) by (apply delta_loop_Ok; [lia|done|]; auto). congruence.
  - split; [done|]. intros (_ & Hd & _). exfalso.
    apply forallb_Forall in Hd. congruence.
Qed.

(** ** The text of [Cache-Control] *)

(** A directive as it is written. *)
Definition render (d : bytes * option bytes) : bytes :=
  d.1 ++ from_option (fun v => x3d :: v) [] d.2.

Definition directive_ok (d : bytes * option bytes) : Prop :=
  d.1 <> [] /\ Forall (fun b => is_token b = true) d.1 /\
  forall v, d.2 = Some v -> v <> [] /\ valid_directive_value v = true.

Lemma is_token_plain b :
  is_token b = true -> is_ows b = false /\ b <> x2c /\ b <> x22 /\ b <> x3d.
Proof. destruct b; done. Qed.

Lemma tokens_trimmed s : Forall (fun b => is_token b = true) s -> trimmed s.
Proof.
  intros Hs. rewrite Forall_forall in Hs. split; intros b Hb; apply is_token_plain, Hs.
  - destruct s; simplify_eq/=. by left.
  - by apply last_Some_elem_of.
Qed.

Lemma quoted_split v :
  2 <= len v -> head v = Some x22 -> last v = Some x22 -> v = x22 :: slice v 1 (len v - 1) ++ [x22].
Proof.
  intros Hl Hh Ht. destruct v as [|a v]; [done|]. simpl in Hh. injection Hh as ->.
  destruct v as [|b v _] using rev_ind; [unfold len in Hl; simpl in Hl; lia|].
  rewrite app_comm_cons, last_snoc in Ht. injection Ht as ->. f_equal.
  unfold slice. autorewrite with oxi. change (Z.to_nat 1) with 1%nat. simpl. rewrite drop_0.
  replace (1 + (len v + (1 + 0)) - 1 - 1) with (len v) by lia. by rewrite take_len_app.
Qed.

(** A legal value is a token or a quoted string. *)
Lemma valid_value_cases v :
  v <> [] -> valid_directive_value v = true ->
  Forall (fun b => is_token b = true) v \/
  exists inner, v = x22 :: inner ++ [x22] /\ quoted_text false inner = true.
Proof.
  intros Hne. unfold valid_directive_value. destruct (forallb is_token v) eqn:E.
  { left. by apply forallb_Forall. }
  destruct (Z.ltb_spec (len v) 2); simpl; [done|]. case_bool_decide as Hh; simpl; [done|].
  case_bool_decide as Ht; simpl; [done|]. right.
  exists (slice v 1 (len v - 1)). split; [|done]. by apply quoted_split.
Qed.

Lemma valid_value_trimmed v : v <> [] -> valid_directive_value v = true -> trimmed v.
Proof.
  intros Hne Hv. destruct (valid_value_cases v Hne Hv) as [|(inner & -> & _)]; [by apply tokens_trimmed|].
  split; simpl; [by intros ? [= <-]|]. intros b. by rewrite app_comm_cons, last_snoc; intros [= <-].
Qed.

Lemma directive_render d : directive_ok d -> directive (render d) = Ok d.
Proof.
  destruct d as [n v]. intros (Hn & Ht & Hv). simpl in *. unfold directive, render; simpl.
  assert (Forall (fun b => b <> x3d) n) as Hd
    by (eapply Forall_impl; [exact Ht|]; intros b ?; by apply is_token_plain).
  assert (forallb is_token n = true) as Htok by by apply forallb_Forall.
  pose proof (tokens_trimmed n Ht) as Htr. destruct v as [v|]; simpl.
  - destruct (split_once_skip _ _ v Hd) as [-> _]. destruct (Hv v) as [Hne Hval]; [done|].
    rewrite !trim_ows_id by (done || by apply valid_value_trimmed). unfold beqb.
    rewrite bool_decide_eq_false_2, Htok by done. simpl.
    by rewrite bool_decide_eq_false_2, Hval by done.
  - rewrite app_nil_r. destruct (split_once_skip _ _ [] Hd) as [_ ->]. unfold beqb.
    by rewrite bool_decide_eq_false_2, Htok by done.
Qed.

(** The quoting state after some text, if no comma in it separates items. *)
Fixpoint scan (s : bytes) (quoted escaped : bool) : option (bool * bool) :=
  match s with
  | [] => Some (quoted, escaped)
  | b :: s =>
      if escaped then scan s quoted false
      else if quoted && Byte.eqb b x5c then scan s quoted true
      else if Byte.eqb b x22 then scan s (negb quoted) escaped
      else if Byte.eqb b x2c && negb quoted then None
      else scan s quoted escaped
  end.

Lemma scan_app s t q e : scan (s ++ t) q e = scan s q e ≫= fun '(q, e) => scan t q e.
Proof. revert q e; induction s as [|b s IH]; intros q e; simpl; [done|]. by repeat case_match. Qed.

Lemma comma_loop_scan s t item q e q' e' items :
  scan s q e = Some (q', e') ->
  comma_loop (s ++ t) item q e items = comma_loop t (item ++ s) q' e' items.
Proof.
  revert item q e; induction s as [|b s IH]; intros item q e; simpl.
  { intros [= -> ->]. by rewrite app_nil_r. }
  intros E. replace (item ++ b :: s) with ((item ++ [b]) ++ s) by by rewrite <- (assoc_L app).
  repeat case_match; try done; by apply IH.
Qed.

Lemma scan_plain s :
  Forall (fun b => b <> x2c /\ b <> x22) s -> scan s false false = Some (false, false).
Proof.
  induction 1 as [|b s [Hc Hq] _ IH]; simpl; [done|].
  destruct (Byte.eqb b x22) eqn:E1; [by apply Byte.byte_dec_bl in E1|].
  destruct (Byte.eqb b x2c) eqn:E2; [by apply Byte.byte_dec_bl in E2|]. done.
Qed.

Lemma scan_quoted e s : quoted_text e s = true -> scan s true e = Some (true, false).
Proof.
  revert e; induction s as [|b s IH]; intros e; simpl; [by destruct e|].
  destruct e; [intros [_ ?]%andb_true_iff; auto|]. simpl.
  destruct (Byte.eqb b x5c); [apply IH|]. destruct (Byte.eqb b x22); simpl; [done|].
  destruct (text_byte b); simpl; [|done]. intros ?. rewrite andb_false_r. auto.
Qed.

Lemma token_scan_plain s :
  Forall (fun b => is_token b = true) s -> Forall (fun b => b <> x2c /\ b <> x22) s.
Proof. intros Hs. eapply Forall_impl; [exact Hs|]. intros b Hb%is_token_plain. naive_solver. Qed.

Lemma scan_render d : directive_ok d -> scan (render d) false false = Some (false, false).
Proof.
  destruct d as [n [v|]]; intros (_ & Hn & Hv); unfold render; simpl in *;
    (rewrite scan_app, scan_plain by (by apply token_scan_plain)); simpl; [|done].
  destruct (Hv v) as [Hne Hval]; [done|].
  destruct (valid_value_cases v Hne Hval) as [Ht|(inner & -> & Hi)].
  - by apply scan_plain, token_scan_plain.
  - simpl. by rewrite scan_app, (scan_quoted false) by done.
Qed.

Lemma render_trimmed d : directive_ok d -> render d <> [] /\ trimmed (render d).
Proof.
  destruct d as [n v]; intros (Hn & Ht & Hv); unfold render; simpl in *.
  destruct n as [|b n]; [done|]. split; [done|]. pose proof (tokens_trimmed _ Ht) as [Hh Hl].
  split; simpl; [by intros ? [= <-]; apply (Hh b)|]. destruct v as [v|]; simpl; [|by rewrite app_nil_r].
  intros c. destruct (Hv v) as [Hne Hval]; [done|]. destruct (valid_value_trimmed v Hne Hval) as [_ Hlast].
  change (b :: n ++ x3d :: v) with ((b :: n) ++ [x3d] ++ v).
  rewrite !last_app. destruct v; [done|]. destruct (last (b0 :: v)) eqn:E; [|by apply last_None in E].
  intros [= <-]. by apply Hlast.
Qed.

Lemma comma_loop_join pad ds pre items :
  Forall (fun b => is_ows b = true) pad -> Forall (fun b => is_ows b = true) pre ->
  ds <> [] -> Forall directive_ok ds ->
  comma_loop (join (x2c :: pad) (map render ds)) pre false false items = Ok (items ++ map render ds).
Proof.
  intros Hpad Hpre Hne Hok. revert pre Hpre items. induction Hok as [|d ds Hd Hds IH]; [done|].
  intros pre Hpre items. destruct (render_trimmed d Hd) as [Hr Htr].
  assert (trim_ows (pre ++ render d) = render d) as Htrim.
  { rewrite <- (app_nil_r (render d)) at 1. by apply trim_ows_pad. }
  destruct (decide (ds = [])) as [->|Hne'].
  - cbn [map join]. rewrite <- (app_nil_r (render d)) at 1.
    rewrite (comma_loop_scan _ _ _ _ _ false false) by by apply scan_render. simpl. rewrite Htrim.
    unfold beqb. by rewrite bool_decide_eq_false_2.
  - cbn [map]. rewrite join_cons by by destruct ds.
    rewrite (comma_loop_scan _ _ _ _ _ false false) by by apply scan_render. simpl. rewrite Htrim.
    unfold beqb. rewrite bool_decide_eq_false_2 by done.
    assert (scan pad false false = Some (false, false)) as Hs.
    { apply scan_plain. eapply Forall_impl; [exact Hpad|]. intros b. by destruct b. }
    rewrite (comma_loop_scan _ _ _ _ _ _ _ _ Hs). rewrite IH by done. by rewrite <- (assoc_L app).
Qed.

(** What the parser does with directives that are already split. *)
Fixpoint control_directives (ds : list (bytes * option bytes)) (acc : CacheControl * list bytes) :
    result (CacheControl * list bytes) ParseError :=
  match ds with
  | [] => Ok acc
  | d :: ds => let? acc := control_directive d acc in control_directives ds acc
  end.

Lemma control_items_render ds acc :
  Forall directive_ok ds -> control_items (map render ds) acc = control_directives ds acc.
Proof.
  intros Hds. revert acc; induction Hds as [|d ds Hd _ IH]; intros acc; [done|]. cbn [map control_items].
  rewrite directive_render by done. cbn [result_bind control_directives].
  destruct (control_directive d acc); [apply IH|done].
Qed.

Lemma control_directives_app ds es acc :
  control_directives (ds ++ es) acc = let? acc := control_directives ds acc in control_directives es acc.
Proof.
  revert acc; induction ds as [|d ds IH]; intros acc; simpl; [done|].
  destruct (control_directive d acc); simpl; [apply IH|done].
Qed.

(** The field lines that carry groups of directives. *)
Definition control_text (pad : bytes) (lines : list (list (bytes * option bytes))) : list HeaderValue :=
  map (fun ds => join (x2c :: pad) (map render ds)) lines.

Lemma control_lines_text pad lines acc :
  Forall (fun b => is_ows b = true) pad ->
  Forall (fun ds => ds <> [] /\ Forall directive_ok ds) lines ->
  control_lines (control_text pad lines) acc = control_directives (concat lines) acc.
Proof.
  intros Hpad Hl. revert acc; induction Hl as [|ds lines [Hne Hds] _ IH]; intros acc; [done|].
  cbn [control_text map control_lines concat]. unfold comma_items.
  rewrite comma_loop_join by done. cbn [result_bind app].
  rewrite control_items_render, control_directives_app by done.
  destruct (control_directives ds acc); simpl; [apply IH|done].
Qed.

(** ** Printing a [CacheControl] *)

(** The value of each recognised directive, [None] when it is absent. *)
Definition flag_value (b : bool) : option (option bytes) := if b then Some None else None.
Definition seconds_text (d : Duration) : bytes := dec_string (as_secs d).
Definition seconds_value (o : option Duration) : option (option bytes) :=
  match o with Some d => Some (Some (seconds_text d)) | None => None end.
Definition stale_value (o : option (option Duration)) : option (option bytes) :=
  match o with Some d => Some (option_map seconds_text d) | None => None end.

Definition control_values (cc : CacheControl) : list (bytes * option (option bytes)) :=
  zip recognized_directives
    [flag_value (cc_no_store cc); flag_value (cc_private cc); flag_value (cc_no_cache cc);
     flag_value (cc_must_revalidate cc); flag_value (cc_proxy_revalidate cc); flag_value (cc_public cc);
     flag_value (cc_only_if_cached cc); flag_value (cc_immutable cc);
     seconds_value (cc_max_age cc); seconds_value (cc_shared_max_age cc); seconds_value (cc_min_fresh cc);
     stale_value (cc_max_stale cc);
     seconds_value (cc_stale_while_revalidate cc); seconds_value (cc_stale_if_error cc)].

Definition present (l : list (bytes * option (option bytes))) : list (bytes * option bytes) :=
  omap (fun p => pair p.1 <$> p.2) l.

Definition control_print (cc : CacheControl) : list (bytes * option bytes) := present (control_values cc).

(** Durations of whole seconds, as [delta-seconds] can express them. *)
Definition whole_seconds (d : Duration) : Prop := exists s, 0 <= s <= u64_max /\ d = from_secs s.

Record printable (cc : CacheControl) : Prop := {
  pr_max_age d : cc_max_age cc = Some d -> whole_seconds d;
  pr_shared d : cc_shared_max_age cc = Some d -> whole_seconds d;
  pr_min_fresh d : cc_min_fresh cc = Some d -> whole_seconds d;
  pr_max_stale d : cc_max_stale cc = Some (Some d) -> whole_seconds d;
  pr_swr d : cc_stale_while_revalidate cc = Some d -> whole_seconds d;
  pr_sie d : cc_stale_if_error cc = Some d -> whole_seconds d
}.

Lemma as_secs_from_secs s : as_secs (from_secs s) = s.
Proof. unfold as_secs, from_secs. by apply Z.div_mul. Qed.

Lemma delta_seconds_text d : whole_seconds d -> delta_seconds (seconds_text d) = Ok d.
Proof.
  intros (s & Hs & ->). unfold seconds_text. rewrite as_secs_from_secs.
  unfold delta_seconds, beqb. rewrite bool_decide_eq_false_2 by apply dec_string_nonempty.
  pose proof (dec_string_digits s ltac:(lia)) as Hd. rewrite (proj2 (forallb_Forall _ _) Hd). simpl.
  rewrite (proj2 (delta_loop_Ok (dec_string s) 0 s ltac:(lia) Hd)); [done|].
  split; [|lia]. symmetry. apply dec_string_value. lia.
Qed.

Definition assign_value (p : bytes * option (option bytes)) (cc : CacheControl) :
    result CacheControl ParseError :=
  match p.2 with Some v => assign_directive p.1 v cc | None => Ok cc end.

Fixpoint assign_values (l : list (bytes * option (option bytes))) (cc : CacheControl) :
    result CacheControl ParseError :=
  match l with
  | [] => Ok cc
  | p :: l => let? cc := assign_value p cc in assign_values l cc
  end.

(** Distinct recognised directives are never taken for duplicates. *)
Lemma control_directives_present l cc seen :
  NoDup (l.*1 ++ seen) -> Forall (fun p => p.1 ∈ recognized_directives /\ to_ascii_lowercase p.1 = p.1) l ->
  result_map fst (control_directives (present l) (cc, seen)) = assign_values l cc.
Proof.
  intros Hnd Hl. revert cc seen Hnd; induction Hl as [|[n o] l [Hr Hlow] _ IH]; intros cc seen Hnd; [done|].
  simpl in *. apply NoDup_cons in Hnd as [Hn Hnd]. unfold assign_value; simpl.
  destruct o as [v|]; simpl; [|by apply IH].
  rewrite Hlow. unfold recognized. rewrite bool_decide_eq_true_2 by done. simpl.
  rewrite bool_decide_eq_false_2 by set_solver.
  destruct (assign_directive n v cc) as [cc'|]; simpl; [|done]. apply IH.
  rewrite (assoc_L app). apply NoDup_app. split; [done|]. split; [|apply NoDup_singleton].
  intros x Hx ->%list_elem_of_singleton. done.
Qed.

(** Assigning one printed value sets its field. *)
Ltac assign_flag b := destruct b; reflexivity.
Ltac assign_seconds o Ho :=
  destruct o as [d|]; simpl; [|reflexivity];
  pose proof (delta_seconds_text d (Ho d eq_refl)) as Hdelta; unfold assign_value, assign_directive; simpl;
  rewrite Hdelta; reflexivity.

Ltac assign_stale o Ho :=
  destruct o as [d|]; simpl; [|reflexivity];
  pose proof (delta_seconds_text d (Ho d eq_refl)) as Hdelta; unfold assign_value, assign_directive; simpl;
  rewrite Hdelta; reflexivity.

Lemma assign_values_print cc :
  printable cc -> assign_values (control_values cc) CacheControl_default = Ok cc.
Proof.
  destruct cc as [ns pr nc mr xr pu oc im ma sm mf ms sw se]. intros []; simpl in *.
  unfold control_values, CacheControl_default; simpl.
  assert (assign_value (lit "no-store", flag_value ns) (mkControl false false false false false false false false None None None None None None) = Ok (mkControl ns false false false false false false false None None None None None None)) as E0
    by (assign_flag ns).
  assert (assign_value (lit "private", flag_value pr) (mkControl ns false false false false false false false None None None None None None) = Ok (mkControl ns pr false false false false false false None None None None None None)) as E1
    by (assign_flag pr).
  assert (assign_value (lit "no-cache", flag_value nc) (mkControl ns pr false false false false false false None None None None None None) = Ok (mkControl ns pr nc false false false false false None None None None None None)) as E2
    by (assign_flag nc).
  assert (assign_value (lit "must-revalidate", flag_value mr) (mkControl ns pr nc false false false false false None None None None None None) = Ok (mkControl ns pr nc mr false false false false None None None None None None)) as E3
    by (assign_flag mr).
  assert (assign_value (lit "proxy-revalidate", flag_value xr) (mkControl ns pr nc mr false false false false None None None None None None) = Ok (mkControl ns pr nc mr xr false false false None None None None None None)) as E4
    by (assign_flag xr).
  assert (assign_value (lit "public", flag_value pu) (mkControl ns pr nc mr xr false false false None None None None None None) = Ok (mkControl ns pr nc mr xr pu false false None None None None None None)) as E5
    by (assign_flag pu).
  assert (assign_value (lit "only-if-cached", flag_value oc) (mkControl ns pr nc mr xr pu false false None None None None None None) = Ok (mkControl ns pr nc mr xr pu oc false None None None None None None)) as E6
    by (assign_flag oc).
  assert (assign_value (lit "immutable", flag_value im) (mkControl ns pr nc mr xr pu oc false None None None None None None) = Ok (mkControl ns pr nc mr xr pu oc im None None None None None None)) as E7
    by (assign_flag im).
  assert (assign_value (lit "max-age", seconds_value ma) (mkControl ns pr nc mr xr pu oc im None None None None None None) = Ok (mkControl ns pr nc mr xr pu oc im ma None None None None None)) as E8
    by (assign_seconds ma pr_max_age0).
  assert (assign_value (lit "s-maxage", seconds_value sm) (mkControl ns pr nc mr xr pu oc im ma None None None None None) = Ok (mkControl ns pr nc mr xr pu oc im ma sm None None None None)) as E9
    by (assign_seconds sm pr_shared0).
  assert (assign_value (lit "min-fresh", seconds_value mf) (mkControl ns pr nc mr xr pu oc im ma sm None None None None) = Ok (mkControl ns pr nc mr xr pu oc im ma sm mf None None None)) as E10
    by (assign_seconds mf pr_min_fresh0).
  assert (assign_value (lit "max-stale", stale_value ms) (mkControl ns pr nc mr xr pu oc im ma sm mf None None None) = Ok (mkControl ns pr nc mr xr pu oc im ma sm mf ms None None)) as E11
    by (destruct ms as [o|]; [|reflexivity]; assign_stale o pr_max_stale0).
  assert (assign_value (lit "stale-while-revalidate", seconds_value sw) (mkControl ns pr nc mr xr pu oc im ma sm mf ms None None) = Ok (mkControl ns pr nc mr xr pu oc im ma sm mf ms sw None)) as E12
    by (assign_seconds sw pr_swr0).
  assert (assign_value (lit "stale-if-error", seconds_value se) (mkControl ns pr nc mr xr pu oc im ma sm mf ms sw None) = Ok (mkControl ns pr nc mr xr pu oc im ma sm mf ms sw se)) as E13
    by (assign_seconds se pr_sie0).
  by repeat match goal with E : assign_value _ _ = _ |- _ => rewrite E; clear E; cbn [result_bind] end.
Qed.

Lemma digits_valid s :
  s <> [] -> Forall (fun b => is_ascii_digit b = true) s -> s <> [] /\ valid_directive_value s = true.
Proof.
  intros Hne Hs. split; [done|]. unfold valid_directive_value.
  rewrite (proj2 (forallb_Forall is_token s)); [done|]. eapply Forall_impl; [exact Hs|].
  intros b Hb. unfold is_token, is_ascii_alphanumeric. rewrite Hb. by rewrite orb_true_r.
Qed.

Lemma seconds_text_valid d :
  whole_seconds d -> seconds_text d <> [] /\ valid_directive_value (seconds_text d) = true.
Proof.
  intros (s & Hs & ->). unfold seconds_text. rewrite as_secs_from_secs.
  apply digits_valid; [apply dec_string_nonempty|apply dec_string_digits; lia].
Qed.

Lemma recognized_plain n :
  n ∈ recognized_directives ->
  n <> [] /\ Forall (fun b => is_token b = true) n /\ to_ascii_lowercase n = n.
Proof.
  intros Hn. assert (Forall (fun n => n <> [] /\ Forall (fun b => is_token b = true) n /\
    to_ascii_lowercase n = n) recognized_directives) as Hall.
  { by repeat constructor. }
  by rewrite Forall_forall in Hall; apply Hall.
Qed.

Lemma control_values_ok cc :
  printable cc ->
  Forall (fun p => p.1 ∈ recognized_directives /\
            forall v, p.2 = Some (Some v) -> v <> [] /\ valid_directive_value v = true) (control_values cc).
Proof.
  intros Hp. apply Forall_forall. intros [n o] Hin. split.
  { by eapply elem_of_zip_l. }
  apply elem_of_zip_r in Hin. simpl in *. intros v ->.
  assert (forall b, flag_value b = Some (Some v) -> False) as Hflag by by intros [].
  assert (forall o, (forall d, o = Some d -> whole_seconds d) -> Some (Some v) = seconds_value o ->
    v <> [] /\ valid_directive_value v = true) as Hsec.
  { intros [d|] Hd [= ->]. by apply seconds_text_valid, Hd. }
  assert (Some (Some v) = stale_value (cc_max_stale cc) -> v <> [] /\ valid_directive_value v = true) as Hst.
  { destruct (cc_max_stale cc) as [[d|]|] eqn:E; intros [= ->]. by apply seconds_text_valid, (pr_max_stale cc). }
  rewrite !elem_of_cons in Hin. destruct Hp.
  repeat (destruct Hin as [Hin|Hin];
    [first [by destruct (Hflag _ (eq_sym Hin)) | by apply Hst | by (eapply Hsec; [|exact Hin]; assumption)]|]).
  by apply elem_of_nil in Hin.
Qed.

Lemma control_print_ok cc : printable cc -> Forall directive_ok (control_print cc).
Proof.
  intros Hp%control_values_ok. unfold control_print, present. apply Forall_forall.
  intros [n v] Hin. apply list_elem_of_omap in Hin as ([n' o] & Hin & E). rewrite Forall_forall in Hp.
  destruct (Hp _ Hin) as [Hr Hv]. destruct o as [o|]; simplify_eq/=.
  destruct (recognized_plain n Hr) as (? & ? & _). split_and!; simpl; naive_solver.
Qed.

(** ** Properties *)

Section PolicyProperties.
Context {H : Type} `{!HeaderMap H, text : !HttpText}.

(** Directives printed in any number of field lines, with any whitespace
    after the commas, are parsed back to the value they were printed from. *)
Theorem cache_control_roundtrip (headers : H) cc pad lines :
  printable cc -> Forall (fun b => is_ows b = true) pad -> Forall (fun ds => ds <> []) lines ->
  concat lines = control_print cc -> get_all headers CACHE_CONTROL = control_text pad lines ->
  CacheControl_parse headers = Ok cc.
Proof.
  intros Hp Hpad Hne Hc Hget. unfold CacheControl_parse. rewrite Hget, control_lines_text, Hc.
  - unfold control_print. rewrite control_directives_present.
    + by apply assign_values_print.
    + rewrite app_nil_r. unfold control_values. rewrite fst_zip by done.
      by apply (bool_decide_unpack (NoDup recognized_directives)); vm_compute.
    + eapply Forall_impl; [by apply control_values_ok|]. intros p [Hr _]. split; [done|].
      by apply recognized_plain.
  - done.
  - pose proof (control_print_ok cc Hp) as Hok. rewrite <- Hc, Forall_concat in Hok.
    rewrite Forall_forall in *. intros ds Hds. auto.
Qed.

Lemma existsb_false {A} (f : A -> bool) l : existsb f l = false <-> forall x, x ∈ l -> f x = false.
Proof.
  induction l as [|a l IH]; simpl; [set_solver|]. rewrite orb_false_iff, IH. set_solver.
Qed.

(** A response is only prepared for storage when its metadata parses and it
    is neither no-store nor private, has no cookie and no hop-by-hop field, is no
    partial or not-modified response, varies on named fields only, and, if the
    request was authorised, explicitly allows shared reuse; the stored policy
    then carries the revalidation duties of the response, and without a canonical
    timeline its lifetime is the shared maximum age, else the maximum age, and
    never more than the heuristic bound when nothing explicit was said. *)
Theorem response_policy_safe `{!HeaderMapLaws H} (input : ResponsePolicyInput H) policy vary validators :
  ResponsePolicy_evaluate input = Ok (policy, vary, validators) ->
  exists control,
    CacheControl_parse (pi_headers input) = Ok control /\
    cc_no_store control = false /\ cc_private control = false /\
    pi_status input <> PARTIAL_CONTENT /\ pi_status input <> NOT_MODIFIED /\
    get_all (pi_headers input) SET_COOKIE = [] /\
    (forall n, prohibited_stored_header n = true -> get_all (pi_headers input) n = []) /\
    (exists names, vary = Names names) /\
    allows_authorized_reuse policy =
      cc_public control || bool_decide (is_Some (cc_shared_max_age control)) || cc_must_revalidate control /\
    (get_all (pi_request_headers input) AUTHORIZATION <> [] -> allows_authorized_reuse policy = true) /\
    always_revalidate policy = cc_no_cache control /\
    (cc_no_cache control || cc_must_revalidate control || cc_proxy_revalidate control = true ->
     must_revalidate_stale policy = true) /\
    (pi_timeline input = None ->
     retention policy = Rfc /\
     match cc_shared_max_age control, cc_max_age control with
     | Some d, _ | None, Some d => freshness_lifetime policy = d
     | None, None => get_all (pi_headers input) EXPIRES = [] -> 0 <= pi_max_heuristic_freshness input ->
                     freshness_lifetime policy <= pi_max_heuristic_freshness input
     end).
Proof.
  unfold ResponsePolicy_evaluate. intros Hev. res_inv. rename x into control, H0 into Hc.
  destruct (_ =? PARTIAL_CONTENT) eqn:E1; [done|]. destruct (_ =? NOT_MODIFIED) eqn:E2; [done|]. simpl in Hev.
  destruct (cc_no_store control) eqn:E3; [done|]. destruct (cc_private control) eqn:E4; [done|].
  destruct (contains_key _ SET_COOKIE) eqn:E5; [done|]. destruct (existsb _ _) eqn:E6; [done|].
  destruct (contains_key _ AUTHORIZATION && _) eqn:E7; [done|]. res_inv.
  case_bool_decide as Hv; [done|]. res_inv. bool_inv. rewrite contains_key_spec in E5, E7. bool_inv.
  exists control. rewrite existsb_false in E6. split_and!; simpl; try done.
  - by apply dec_stable.
  - intros n Hn. apply dec_stable. intros Hg%header_keys_spec%E6. congruence.
  - destruct vary; [done|eauto].
  - intros Ha. rewrite bool_decide_eq_true_2 in E7 by done. simpl in E7. by apply negb_false_iff in E7.
  - intros ->. by rewrite ?orb_true_l.
  - intros Ht. unfold response_freshness in *. rewrite Ht in *. res_inv.
    match goal with Hb : (if ?b then _ else _) = Ok _ |- _ => destruct b eqn:?; [done|]; injection Hb as <- end.
    simpl. split; [done|]. destruct (cc_shared_max_age control); [done|].
    destruct (cc_max_age control); [done|]. intros Hex Hm. unfold optional_date, single_header in *.
    rewrite Hex in *. simpl in *. res_inv. simplify_eq/=.
    match goal with |- from_option _ _ ?o <= _ => destruct o; simpl; lia end.
Qed.
End PolicyProperties.

(** ** Merging a 304 response *)

Section Merge.
Context {H : Type} `{!HeaderMap H, !HeaderMapLaws H}.

Lemma get_all_append_values (h : H) name vs n :
  get_all (foldl (fun h v => header_append h name v) h vs) n =
  if decide (name = n) then get_all h n ++ vs else get_all h n.
Proof.
  revert h; induction vs as [|v vs IH]; intros h; simpl.
  { rewrite app_nil_r. by destruct (decide (name = n)). }
  rewrite IH, get_all_append. destruct (decide (name = n)); [|done]. by rewrite <- (assoc_L app).
Qed.

Lemma get_all_replace (nm m : H) name n :
  get_all (replace_field nm m name) n = if decide (name = n) then get_all nm n else get_all m n.
Proof.
  unfold replace_field. rewrite get_all_append_values, get_all_remove.
  destruct (decide (name = n)) as [->|]; done.
Qed.

Lemma get_all_replace_fields (nm : H) names m n :
  get_all (foldl (replace_field nm) m names) n =
  if decide (n ∈ names) then get_all nm n else get_all m n.
Proof.
  revert m; induction names as [|name names IH]; intros m; cbn [foldl].
  { by rewrite decide_False by set_solver. }
  rewrite IH, get_all_replace. repeat case_decide; set_solver.
Qed.

Lemma not_modified_names_spec keys names :
  match not_modified_names keys names with
  | Ok r => (forall n, n ∈ keys -> prohibited_304 n = false) /\ (forall n, n ∈ r <-> n ∈ names \/ n ∈ keys)
  | Err _ => exists n, n ∈ keys /\ prohibited_304 n = true
  end.
Proof.
  revert names; induction keys as [|k keys IH]; intros names; simpl; [set_solver|].
  destruct (prohibited_304 k) eqn:E; [exists k; set_solver|].
  set (names' := if bool_decide _ then _ else _).
  assert (forall n, n ∈ names' <-> n ∈ names \/ n = k) as Hn'.
  { intros n. unfold names'. case_bool_decide; set_solver. }
  specialize (IH names'). destruct (not_modified_names keys names').
  - destruct IH as [Hp Hr]. split; [set_solver|]. intros n. rewrite Hr, Hn'. set_solver.
  - destruct IH as (n & ? & ?). exists n. set_solver.
Qed.

(** Merging a 304 response succeeds exactly when it carries no prohibited
    field, and the result has, for every name the response mentions, its values
    and no stored ones, and for every other name the stored values. *)
Theorem merge_not_modified_exact (stored nm : H) :
  match merge_not_modified_headers stored nm with
  | Ok merged =>
      (forall n, prohibited_304 n = true -> get_all nm n = []) /\
      (forall n, get_all merged n = if decide (get_all nm n = []) then get_all stored n else get_all nm n)
  | Err ProhibitedField => exists n, prohibited_304 n = true /\ get_all nm n <> []
  end.
Proof.
  unfold merge_not_modified_headers. pose proof (not_modified_names_spec (header_keys nm) []) as Hs.
  destruct (not_modified_names (header_keys nm) []) as [names|[]]; cbn [result_bind].
  - destruct Hs as [Hp Hn]. split.
    + intros n Hpn. apply dec_stable. intros Hg%header_keys_spec%Hp. congruence.
    + intros n. rewrite get_all_replace_fields.
      destruct (decide (n ∈ names)) as [Hd|Hd], (decide (get_all nm n = [])) as [He|He]; try done.
      * apply Hn in Hd as [Hd|Hd%header_keys_spec]; [by apply elem_of_nil in Hd|done].
      * destruct Hd. apply Hn. right. by apply header_keys_spec.
  - destruct Hs as (n & Hk%header_keys_spec & ?). eauto.
Qed.
End Merge.

(** ** Witnesses *)

Lemma timeline_status_exact_witness :
  exists t, CacheTimeline_new true 0 [(404, from_secs 5); (200, from_secs 60)] 0 0 = Ok t /\
            status_ttl t 200 = Some (from_secs 60).
Proof.
  eexists. split; [vm_compute; reflexivity|].
  apply (timeline_status_exact true 0 [(404, from_secs 5); (200, from_secs 60)] 0 0);
    [vm_compute; reflexivity|]. right. left.
Defined.

Definition example_control : CacheControl :=
  mkControl false false true false false true false false (Some (from_secs 60)) None None
    (Some None) None (Some (from_secs 5)).

Lemma cache_control_roundtrip_witness :
  CacheControl_parse [(CACHE_CONTROL, lit "no-cache,  public"); (DATE, lit "0");
    (CACHE_CONTROL, lit "max-age=60,  max-stale,  stale-if-error=5")] = Ok example_control.
Proof.
  apply (cache_control_roundtrip _ example_control [x20; x20]
    [[(lit "no-cache", None); (lit "public", None)];
     [(lit "max-age", Some (lit "60")); (lit "max-stale", None); (lit "stale-if-error", Some (lit "5"))]]).
  - split; simpl; intros d [= <-]; [exists 60|exists 5]; (split; [unfold u64_max; lia|done]).
  - by repeat constructor.
  - by repeat constructor.
  - vm_compute. reflexivity.
  - vm_compute. reflexivity.
Defined.

Definition example_response : headers_list :=
  [(CACHE_CONTROL, lit "public, max-age=60"); (ETAG, lit "W/x"); (VARY, lit "Accept")].
Definition example_policy_input : ResponsePolicyInput headers_list :=
  mkPolicyInput [(AUTHORIZATION, lit "x")] 200
    [(CACHE_CONTROL, lit "public, max-age=60"); (VARY, lit "Accept")] (mkTiming 0 5 1000) 0 8 100 None.

Lemma response_policy_safe_witness :
  exists policy, ResponsePolicy_evaluate (text := example_text) example_policy_input
    = Ok (policy, Names [lit "accept"], mkValidators None None) /\ allows_authorized_reuse policy = true.
Proof.
  eexists. split; [vm_compute; reflexivity|].
  edestruct (@response_policy_safe headers_list _ example_text _ example_policy_input) as
    (control & _ & _ & _ & _ & _ & _ & _ & _ & _ & Ha & _); [vm_compute; reflexivity|].
  apply Ha. vm_compute. discriminate.
Defined.

Lemma merge_not_modified_exact_witness :
  match merge_not_modified_headers example_response [(ETAG, lit "y"); (ETAG, lit "z")] with
  | Ok merged => get_all merged ETAG = [lit "y"; lit "z"]
  | Err _ => False
  end.
Proof.
  pose proof (merge_not_modified_exact example_response [(ETAG, lit "y"); (ETAG, lit "z")]) as Hm.
  destruct (merge_not_modified_headers _ _) as [merged|] eqn:E; [|vm_compute in E; discriminate].
  destruct Hm as [_ Hm]. rewrite Hm. vm_compute. reflexivity.
Defined.
