(* ===== verification/CacheStore.v ===== *)
(** The shared cache, [oxiroute-cache/src/cache.rs]: bounded storage with
    least-recently-used eviction, lookup with request and response freshness,
    collapsed forwarding with generation-checked fills, and purging.

    The cache's state is behind one mutex, so each operation below is one atomic
    step and threads interleave as sequences of steps.  [HashMap] is [gmap], its
    iteration order the unspecified order of [map_to_list].  An [Arc] compared by
    pointer is a number drawn from a counter.  The [watch] channel of a fill is
    the last value sent on it, kept under the number of the fill. *)

From stdpp Require Import base countable list sorting sets gmap strings.
From Stdlib Require Import ZArith Lia Strings.Byte.
From S2P Require Import Prelude Bytes Order Clock Http CacheKey CachePolicy.

Open Scope Z_scope.

Definition ENTRY_ACCOUNTING_OVERHEAD : Z := 128.
Definition HEADER_ACCOUNTING_OVERHEAD : Z := 32.
Definition TAG_ACCOUNTING_OVERHEAD : Z := 16.

(** ** Data *)

Record CacheConfig := mkConfig {
  max_entries : Z;
  max_total_bytes : Z;
  max_object_bytes : Z;
  max_header_bytes : Z;
  max_header_fields : Z;
  max_body_bytes : Z;
  max_key_bytes : Z;
  max_vary_fields : Z;
  max_tags_per_entry : Z;
  max_tag_bytes : Z;
  max_in_flight : Z;
  max_followers_per_fill : Z;
  max_heuristic_freshness : Duration
}.

Definition CacheConfig_default : CacheConfig :=
  mkConfig 10000 (256 * 1024 * 1024) (8 * 1024 * 1024) (64 * 1024) 256 (8 * 1024 * 1024) (16 * 1024)
    32 16 256 1024 1024 (from_secs (24 * 3600)).

(** An [Arc<CacheIdentity>] and an [Arc<FlightGeneration>]. *)
Abbreviation CacheIdentity := Z (only parsing).
Abbreviation FlightGeneration := Z (only parsing).

Inductive FillOutcome := Filling | Stored | NotStored | Cancelled | Purged.
#[export] Instance FillOutcome_eq_dec : EqDecision FillOutcome.
Proof. solve_decision. Defined.

Record PreparedEntry (H : Type) := mkPrepared {
  e_identity : CacheIdentity;
  e_key : CacheKey;
  e_status : StatusCode;
  e_headers : H;
  e_body : bytes;
  e_tags : list bytes;
  e_policy : ResponsePolicy;
  e_validators : Validators;
  e_response_received : MonoTime;
  e_charge : Z
}.
Arguments mkPrepared {H}.
Arguments e_identity {H}.
Arguments e_key {H}.
Arguments e_status {H}.
Arguments e_headers {H}.
Arguments e_body {H}.
Arguments e_tags {H}.
Arguments e_policy {H}.
Arguments e_validators {H}.
Arguments e_response_received {H}.
Arguments e_charge {H}.

Record StoredEntry (H : Type) := mkStored { s_entry : PreparedEntry H; last_access : Z }.
Arguments mkStored {H}.
Arguments s_entry {H}.
Arguments last_access {H}.

Record Flight := mkFlight { f_generation : FlightGeneration; followers : Z }.

Record CacheStats := mkStats {
  s_hits : Z;
  s_misses : Z;
  s_bypasses : Z;
  s_revalidations : Z;
  s_stale_while_revalidate : Z;
  s_stale_hits : Z;
  s_stale_if_error : Z;
  s_stores : Z;
  s_rejected : Z;
  s_evictions : Z;
  s_purged : Z;
  s_fill_leaders : Z;
  s_fill_followers : Z;
  s_fill_cancelled : Z;
  s_entries : Z;
  s_bytes_used : Z;
  s_in_flight : Z
}.

Definition CacheStats_default : CacheStats := mkStats 0 0 0 0 0 0 0 0 0 0 0 0 0 0 0 0 0.

(** The counters among the fields. *)
Inductive Counter :=
| C_hits
| C_misses
| C_bypasses
| C_revalidations
| C_stale_while_revalidate
| C_stale_hits
| C_stale_if_error
| C_stores
| C_rejected
| C_evictions
| C_purged
| C_fill_leaders
| C_fill_followers
| C_fill_cancelled.
#[export] Instance Counter_eq_dec : EqDecision Counter.
Proof. solve_decision. Defined.

(** [stats.counter = stats.counter.saturating_add(n)] *)
Definition add_counter (c : Counter) (n : Z) (s : CacheStats) : CacheStats :=
  let up d x := if decide (c = d) then saturating_add u64_max x n else x in
  mkStats
    (up C_hits (s_hits s))
    (up C_misses (s_misses s))
    (up C_bypasses (s_bypasses s))
    (up C_revalidations (s_revalidations s))
    (up C_stale_while_revalidate (s_stale_while_revalidate s))
    (up C_stale_hits (s_stale_hits s))
    (up C_stale_if_error (s_stale_if_error s))
    (up C_stores (s_stores s))
    (up C_rejected (s_rejected s))
    (up C_evictions (s_evictions s))
    (up C_purged (s_purged s))
    (up C_fill_leaders (s_fill_leaders s))
    (up C_fill_followers (s_fill_followers s))
    (up C_fill_cancelled (s_fill_cancelled s))
    (s_entries s) (s_bytes_used s) (s_in_flight s).

(** [State], with the counter of fills started so far and the last value sent on
    the channel of each. *)
Record State (H : Type) := mkState {
  entries : gmap CacheKey (StoredEntry H);
  flights : gmap BaseKey Flight;
  bytes_used : Z;
  sequence : Z;
  stats : CacheStats;
  fills : FlightGeneration;
  signals : gmap FlightGeneration FillOutcome
}.
Arguments mkState {H}.
Arguments entries {H}.
Arguments flights {H}.
Arguments bytes_used {H}.
Arguments sequence {H}.
Arguments stats {H}.
Arguments fills {H}.
Arguments signals {H}.

Record CacheResponse (H : Type) := mkResponse {
  r_status : StatusCode;
  r_headers : H;
  r_body : bytes;
  r_timing : ResponseTiming;
  r_tags : list bytes
}.
Arguments mkResponse {H}.
Arguments r_status {H}.
Arguments r_headers {H}.
Arguments r_body {H}.
Arguments r_timing {H}.
Arguments r_tags {H}.

Record CachedResponse (H : Type) := mkCached {
  c_key : CacheKey;
  c_status : StatusCode;
  c_headers : H;
  c_body : bytes;
  c_age : Duration
}.
Arguments mkCached {H}.
Arguments c_key {H}.
Arguments c_status {H}.
Arguments c_headers {H}.
Arguments c_body {H}.
Arguments c_age {H}.

Inductive LookupStatus :=
| StBypass | StMiss | StHit | StStaleWhileRevalidate | StStale | StRevalidate | StStaleIfError.

Inductive Lookup (H : Type) :=
| Bypass (status : LookupStatus)
| Miss (status : LookupStatus) (only_if_cached : bool) (base : BaseKey)
| Hit (status : LookupStatus) (response : CachedResponse H)
| Revalidate (status : LookupStatus) (response : CachedResponse H) (validators : Validators)
    (stale_if_error : bool).
Arguments Bypass {H}.
Arguments Miss {H}.
Arguments Hit {H}.
Arguments Revalidate {H}.

Record FillGuard := mkGuard {
  g_identity : CacheIdentity;
  g_base : BaseKey;
  g_generation : FlightGeneration;
  g_active : bool
}.

Record FillWaiter := mkWaiter { w_channel : FlightGeneration }.

Inductive FillJoin :=
| Leader (guard : FillGuard)
| Follower (waiter : FillWaiter)
| AtCapacity.

Record InsertionDelta := mkDelta { inserted : CacheKey; removed : list CacheKey; evicted : Z }.

Inductive ClaimedStoreOutcome := ClaimedStored (delta : InsertionDelta) | ClaimedGenerationLost.
Inductive StoreOutcome := StoredOutcome (evicted : Z) | GenerationLost.

Record PurgeResult := mkPurge { p_entries : Z; p_bytes : Z; p_fills_cancelled : Z }.

Inductive CacheError :=
| InvalidConfig
| InvalidRequest (e : ParseError)
| InvalidKey (e : KeyError)
| ResponseRejected (e : ResponseRejection)
| HeadOrUnsupportedMethod
| HeadersTooLarge
| BodyTooLarge
| ObjectTooLarge
| InvalidTag
| TooManyTags
| VaryChanged
| FillKeyMismatch
| PreparedEntryOwnerMismatch
| InvalidFillKey
| InvalidNotModified.

(** ** Bounds *)

Definition validate_config (config : CacheConfig) : result unit CacheError :=
  let nonzero :=
    (0 <? max_entries config) && (0 <? max_total_bytes config) && (0 <? max_object_bytes config)
    && (0 <? max_header_bytes config) && (0 <? max_header_fields config) && (0 <? max_body_bytes config)
    && (0 <? max_key_bytes config) && (0 <? max_vary_fields config) && (0 <? max_tags_per_entry config)
    && (0 <? max_tag_bytes config) && (0 <? max_in_flight config) && (0 <? max_followers_per_fill config) in
  if negb nonzero || (max_total_bytes config <? max_object_bytes config)
     || (max_object_bytes config <? max_body_bytes config)
  then Err InvalidConfig else Ok tt.

Definition tag_byte (b : byte) : bool := is_ascii_graphic b && negb (Byte.eqb b x2c || Byte.eqb b x22).

Definition validate_tag (tag : bytes) (max_bytes : Z) : result unit CacheError :=
  if beqb tag [] || (max_bytes <? len tag) || negb (forallb tag_byte tag)
  then Err InvalidTag else Ok tt.

Fixpoint parse_tags_loop (config : CacheConfig) (tags parsed : list bytes) : result (list bytes) CacheError :=
  match tags with
  | [] => Ok parsed
  | tag :: tags =>
      let? _ := validate_tag tag (max_tag_bytes config) in
      parse_tags_loop config tags (if bool_decide (tag ∈ parsed) then parsed else parsed ++ [tag])
  end.

Definition parse_tags (tags : list bytes) (config : CacheConfig) : result (list bytes) CacheError :=
  if max_tags_per_entry config <? len tags then Err TooManyTags
  else parse_tags_loop config tags [].

(** ** State updates *)

Section Store.
Context {H : Type} `{!HeaderMap H, text : !HttpText}.
Implicit Types st : State H.

Definition set_entries (m : gmap CacheKey (StoredEntry H)) st : State H :=
  mkState m (flights st) (bytes_used st) (sequence st) (stats st) (fills st) (signals st).
Definition set_flights (m : gmap BaseKey Flight) st : State H :=
  mkState (entries st) m (bytes_used st) (sequence st) (stats st) (fills st) (signals st).
Definition set_bytes_used (n : Z) st : State H :=
  mkState (entries st) (flights st) n (sequence st) (stats st) (fills st) (signals st).
Definition set_sequence (n : Z) st : State H :=
  mkState (entries st) (flights st) (bytes_used st) n (stats st) (fills st) (signals st).
Definition count (c : Counter) (n : Z) st : State H :=
  mkState (entries st) (flights st) (bytes_used st) (sequence st) (add_counter c n (stats st))
    (fills st) (signals st).

(** [signal.send_replace(outcome)] *)
Definition send (g : FlightGeneration) (outcome : FillOutcome) st : State H :=
  mkState (entries st) (flights st) (bytes_used st) (sequence st) (stats st) (fills st)
    (<[g := outcome]> (signals st)).

Definition State_new : State H := mkState ∅ ∅ 0 0 CacheStats_default 0 ∅.

Definition with_clock (config : CacheConfig) : result (State H) CacheError :=
  let? _ := validate_config config in Ok State_new.

(** Removes an entry and its charge; [None] when there is none. *)
Definition remove_entry (key : CacheKey) st : option (StoredEntry H) * State H :=
  match entries st !! key with
  | Some stored =>
      (Some stored,
       set_bytes_used (saturating_sub (bytes_used st) (e_charge (s_entry stored)))
         (set_entries (delete key (entries st)) st))
  | None => (None, st)
  end.

Definition set_last_access (n : Z) (s : StoredEntry H) : StoredEntry H := mkStored (s_entry s) n.

(** The entries in the order of their use, numbered from 0. *)
Definition renumber (m : gmap CacheKey (StoredEntry H)) : gmap CacheKey (StoredEntry H) :=
  let order := sort_unstable (map (fun p => (last_access p.2, p.1)) (map_to_list m)) in
  foldl (fun m p => alter (set_last_access (Z.of_nat p.1)) p.2.2 m) m (imap pair order).

Definition next_sequence st : Z * State H :=
  let st :=
    if sequence st =? u64_max then
      let m := renumber (entries st) in
      set_sequence (Z.of_nat (size m)) (set_entries m st)
    else st in
  let st := set_sequence (sequence st + 1) st in
  (sequence st, st).

Definition generation_matches st (base : BaseKey) (g : FlightGeneration) : bool :=
  match flights st !! base with
  | Some flight => f_generation flight =? g
  | None => false
  end.

Definition cancel_flight (base : BaseKey) (outcome : FillOutcome) st : bool * State H :=
  match flights st !! base with
  | Some flight =>
      (true, count C_fill_cancelled 1
               (send (f_generation flight) outcome (set_flights (delete base (flights st)) st)))
  | None => (false, st)
  end.

(** ** Preparing entries *)

Definition check_header_bounds (headers : H) (config : CacheConfig) : result unit CacheError :=
  if max_header_fields config <? header_len headers then Err HeadersTooLarge
  else
    let size :=
      foldl (fun acc p => size ← acc; size ← checked_add usize_max size (len p.1);
                          checked_add usize_max size (len p.2)) (Some 0) (header_iter headers) in
    if from_option (fun size => max_header_bytes config <? size) true size
    then Err HeadersTooLarge else Ok tt.

(** The bodies of the two loops of [object_charge]. *)
Definition charge_field (field : HeaderName * HeaderValue) (charge : Z) : option Z :=
  charge ← checked_add usize_max charge HEADER_ACCOUNTING_OVERHEAD;
  charge ← checked_add usize_max charge (len field.1);
  checked_add usize_max charge (len field.2).

Definition charge_tag (tag : bytes) (charge : Z) : option Z :=
  charge ← checked_add usize_max charge TAG_ACCOUNTING_OVERHEAD;
  checked_add usize_max charge (len tag).

Definition object_charge (key : CacheKey) (headers : H) (body_bytes : Z) (tags : list bytes) : option Z :=
  charge ← checked_add usize_max ENTRY_ACCOUNTING_OVERHEAD (CacheKey_encoded_len key);
  charge ← foldl (fun acc field => acc ≫= charge_field field) (Some charge) (header_iter headers);
  charge ← checked_add usize_max charge body_bytes;
  foldl (fun acc tag => acc ≫= charge_tag tag) (Some charge) tags.

(** The immutable parts of [Shared]. *)
Context (identity : CacheIdentity) (config : CacheConfig).

Definition prepare_inner (request : RequestKeyInput H) (response : CacheResponse H)
    (timeline : option CacheTimeline) : result (PreparedEntry H) CacheError :=
  let timing := r_timing response in
  if negb (beqb (rk_method request) GET) then Err HeadOrUnsupportedMethod
  else if response_received timing <? request_started timing then Err (ResponseRejected InvalidTiming)
  else
    let? _ := check_header_bounds (rk_headers request) config in
    let? _ := check_header_bounds (r_headers response) config in
    if max_body_bytes config <? len (r_body response) then Err BodyTooLarge
    else
      let? evaluated := map_err ResponseRejected
        (ResponsePolicy_evaluate
           (mkPolicyInput (rk_headers request) (r_status response) (r_headers response) timing
              (max_heuristic_freshness config) (max_vary_fields config) (max_header_bytes config)
              timeline)) in
      let '(policy, vary, validators) := evaluated in
      let? base := map_err InvalidKey (BaseKey_new request (max_key_bytes config)) in
      let? key := map_err InvalidKey (CacheKey_new base (rk_headers request) vary (max_key_bytes config)) in
      let? tags := parse_tags (r_tags response) config in
      let? charge := ok_or ObjectTooLarge
        (object_charge key (r_headers response) (len (r_body response)) tags) in
      if (max_object_bytes config <? charge) || (max_total_bytes config <? charge) then Err ObjectTooLarge
      else Ok (mkPrepared identity key (r_status response) (r_headers response) (r_body response) tags
                 policy validators (response_received timing) charge).

(** [prepare] and [prepare_with_timeline]: a refusal is counted. *)
Definition prepare_counted (request : RequestKeyInput H) (response : CacheResponse H)
    (timeline : option CacheTimeline) : M (State H) CacheError (PreparedEntry H) :=
  fun st =>
    let r := prepare_inner request response timeline in
    (r, if is_ok r then st else count C_rejected 1 st).

Definition prepare (request : RequestKeyInput H) (status : StatusCode) (headers : H) (body : bytes)
    (timing : ResponseTiming) (tags : list bytes) : M (State H) CacheError (PreparedEntry H) :=
  prepare_counted request (mkResponse status headers body timing tags) None.

Definition prepare_with_timeline (request : RequestKeyInput H) (response : CacheResponse H)
    (timeline : CacheTimeline) : M (State H) CacheError (PreparedEntry H) :=
  prepare_counted request response (Some timeline).

Definition prepare_not_modified (request : RequestKeyInput H) (key : CacheKey) (not_modified : H)
    (timing : ResponseTiming) (timeline : option CacheTimeline) st : result (PreparedEntry H) CacheError :=
  let? existing := ok_or InvalidNotModified (s_entry <$> entries st !! key) in
  let? merged := map_err (fun _ => InvalidNotModified)
                   (merge_not_modified_headers (e_headers existing) not_modified) in
  let? prepared := prepare_inner request
    (mkResponse (e_status existing) merged (e_body existing) timing (e_tags existing)) timeline in
  if bool_decide (e_key prepared <> key) then Err VaryChanged else Ok prepared.

(** ** Lookup *)

Definition entry_age (e : PreparedEntry H) (now : MonoTime) : Duration :=
  dur_add (corrected_initial_age (e_policy e)) (saturating_duration_since now (e_response_received e)).

Definition is_expired (key : CacheKey) (now : MonoTime) st : bool :=
  match entries st !! key with
  | Some stored =>
      let policy := e_policy (s_entry stored) in
      from_option (fun keep => dur_add (freshness_lifetime policy) keep <? entry_age (s_entry stored) now)
        false (RetentionPolicy_keep (retention policy))
  | None => false
  end.

Definition remove_expired_entry (key : CacheKey) (now : MonoTime) st : bool * State H :=
  (is_expired key now st, if is_expired key now st then (remove_entry key st).2 else st).

Definition cache_miss (policy : RequestPolicy) (base : BaseKey) st : Lookup H * State H :=
  (Miss StMiss (only_if_cached policy) base, count C_misses 1 st).

(** [Iterator::max_by_key]: the last of the maximal elements. *)
Definition max_by_key {A} (f : A -> Z) (l : list A) : option A :=
  foldl (fun best x => match best with
                       | None => Some x
                       | Some b => if f b <=? f x then Some x else Some b
                       end) None l.

Definition matching_key st (base : BaseKey) (headers : H) (authorized : bool) : option CacheKey :=
  let candidates :=
    filter (fun key =>
              matches_request key base headers (max_key_bytes config)
              && from_option (fun stored => negb authorized
                                || allows_authorized_reuse (e_policy (s_entry stored)))
                   false (entries st !! key) = true)
      (map_to_list (entries st)).*1 in
  max_by_key (fun key => from_option last_access 0 (entries st !! key)) candidates.

Definition response_snapshot (e : PreparedEntry H) (age : Duration) : CachedResponse H :=
  let headers :=
    from_option (fun value => header_insert (e_headers e) AGE value) (e_headers e)
      (header_value_from_str (dec_string (as_secs age))) in
  mkCached (e_key e) (e_status e) headers (e_body e) age.

(** What [lookup] decides about a stored entry of the given age. *)
Definition lookup_decision (policy : RequestPolicy) (e : PreparedEntry H) (age : Duration) :
    Lookup H * Counter :=
  let p := e_policy e in
  let response := response_snapshot e age in
  let request_fresh := from_option (fun maximum => age <=? maximum) true (max_age policy) in
  let fresh := dur_add age (min_fresh policy) <=? freshness_lifetime p in
  let forced :=
    bool_decide (mode policy = RevalidateMode) || negb request_fresh
    || (negb (min_fresh policy =? 0) && negb fresh)
    || always_revalidate p || (must_revalidate_stale p && negb fresh) in
  if fresh && request_fresh && negb forced then (Hit StHit response, C_hits)
  else
    let staleness := dur_sub age (freshness_lifetime p) in
    let request_allows_stale :=
      request_stale_allowed (retention p) && negb forced && negb (must_revalidate_stale p)
      && from_option (fun limit => from_option (fun limit => staleness <=? limit) true limit) false
           (max_stale policy) in
    let swr :=
      negb forced && (staleness <=? stale_while_revalidate p) && negb (stale_while_revalidate p =? 0) in
    if request_allows_stale then (Hit StStale response, C_stale_hits)
    else if swr then (Hit StStaleWhileRevalidate response, C_stale_while_revalidate)
    else
      let sie :=
        bool_decide (mode policy <> RevalidateMode) && negb (must_revalidate_stale p)
        && (staleness <=? stale_if_error p) && negb (stale_if_error p =? 0) in
      (Revalidate StRevalidate response (e_validators e) sie, C_revalidations).

Definition lookup (request : RequestKeyInput H) (now : MonoTime) : M (State H) CacheError (Lookup H) :=
  fun st =>
    if negb (is_ok (check_header_bounds (rk_headers request) config)) then
      (Ok (Bypass StBypass), count C_bypasses 1 st)
    else
      match map_err InvalidRequest (RequestPolicy_evaluate (rk_method request) (rk_headers request)) with
      | Err e => (Err e, st)
      | Ok policy =>
          if bool_decide (mode policy = BypassMode) then (Ok (Bypass StBypass), count C_bypasses 1 st)
          else
            match map_err InvalidKey (BaseKey_new request (max_key_bytes config)) with
            | Err e => (Err e, st)
            | Ok base =>
                let authorized := contains_key (rk_headers request) AUTHORIZATION in
                match matching_key st base (rk_headers request) authorized with
                | None => let '(l, st) := cache_miss policy base st in (Ok l, st)
                | Some key =>
                    let '(expired, st) := remove_expired_entry key now st in
                    if expired then let '(l, st) := cache_miss policy base st in (Ok l, st)
                    else
                      let '(access, st) := next_sequence st in
                      match entries st !! key with
                      | None => (Err InvalidNotModified, st)
                      | Some stored =>
                          let st := set_entries (<[key := set_last_access access stored]> (entries st)) st in
                          let age := entry_age (s_entry stored) now in
                          let '(l, counter) := lookup_decision policy (s_entry stored) age in
                          (Ok l, count counter 1 st)
                      end
                end
            end
      end.

Definition cache_stale_if_error (key : CacheKey) (now : MonoTime) st : option (CachedResponse H) * State H :=
  match entries st !! key with
  | None => (None, st)
  | Some stored =>
      let p := e_policy (s_entry stored) in
      let age := entry_age (s_entry stored) now in
      let staleness := dur_sub age (freshness_lifetime p) in
      if must_revalidate_stale p || (stale_if_error p =? 0) || (stale_if_error p <? staleness) then (None, st)
      else
        let response := response_snapshot (s_entry stored) age in
        let '(access, st) := next_sequence st in
        match entries st !! key with
        | None => (None, st)
        | Some stored =>
            (Some response,
             count C_stale_if_error 1
               (set_entries (<[key := set_last_access access stored]> (entries st)) st))
        end
  end.

(** ** Insertion *)

(** [Iterator::min_by]: the first of the minimal elements. *)
Definition min_by {A} `{Ord A} (l : list A) : option A :=
  foldl (fun best x => match best with
                       | None => Some x
                       | Some b => match cmp x b with Lt => Some x | _ => Some b end
                       end) None l.

(** The loop that removes the entries of conflicting keys. *)
Fixpoint remove_keys (keys : list CacheKey) (removed : list CacheKey) st : list CacheKey * State H :=
  match keys with
  | [] => (removed, st)
  | key :: keys =>
      match remove_entry key st with
      | (Some _, st) => remove_keys keys (removed ++ [key]) st
      | (None, st) => remove_keys keys removed st
      end
  end.

Definition lru_key st : option CacheKey :=
  snd <$> min_by (map (fun p => (last_access p.2, p.1)) (map_to_list (entries st))).

(** The eviction loop; each turn removes an entry or leaves the loop, so one
    more turn than there are entries is enough. *)
Fixpoint evict (fuel : nat) (charge : Z) (removed : list CacheKey) (evicted : Z) st :
    list CacheKey * Z * State H :=
  match fuel with
  | O => (removed, evicted, st)
  | S fuel =>
      if (max_entries config <=? Z.of_nat (size (entries st)))
         || (max_total_bytes config <? saturating_add usize_max (bytes_used st) charge)
      then
        match lru_key st with
        | None => (removed, evicted, st)
        | Some lru =>
            match remove_entry lru st with
            | (Some _, st) => evict fuel charge (removed ++ [lru]) (evicted + 1) st
            | (None, st) => evict fuel charge removed evicted st
            end
        end
      else (removed, evicted, st)
  end.

Definition conflicting_keys (key : CacheKey) st : list CacheKey :=
  sort_unstable
    (filter (fun k => bool_decide (ck_base k = ck_base key) && negb (same_vary_schema k key) = true)
       (map_to_list (entries st)).*1).

Definition insert_entry (entry : PreparedEntry H) st : InsertionDelta * State H :=
  let key := e_key entry in
  let '(old, st) := remove_entry key st in
  let removed := match old with Some _ => [key] | None => [] end in
  let '(removed, st) := remove_keys (conflicting_keys key st) removed st in
  let '(removed, evicted, st) := evict (S (size (entries st))) (e_charge entry) removed 0 st in
  let '(access, st) := next_sequence st in
  let st := set_bytes_used (saturating_add usize_max (bytes_used st) (e_charge entry)) st in
  let st := set_entries (<[key := mkStored entry access]> (entries st)) st in
  (mkDelta key removed evicted, count C_evictions evicted st).

(** [restore]: a recovered entry gets this cache's identity. *)
Definition restore (e : PreparedEntry H) st : InsertionDelta * State H :=
  insert_entry (mkPrepared identity (e_key e) (e_status e) (e_headers e) (e_body e) (e_tags e)
    (e_policy e) (e_validators e) (e_response_received e) (e_charge e)) st.

(** ** Fills *)

Definition begin_fill (base : BaseKey) : M (State H) CacheError FillJoin :=
  fun st =>
    if negb (is_get base) || (max_key_bytes config <? BaseKey_encoded_len base) then (Err InvalidFillKey, st)
    else
      match flights st !! base with
      | Some flight =>
          if max_followers_per_fill config <=? followers flight then (Ok AtCapacity, st)
          else
            (Ok (Follower (mkWaiter (f_generation flight))),
             count C_fill_followers 1
               (set_flights (<[base := mkFlight (f_generation flight) (followers flight + 1)]> (flights st)) st))
      | None =>
          if max_in_flight config <=? Z.of_nat (size (flights st)) then (Ok AtCapacity, st)
          else
            let g := fills st in
            let st := mkState (entries st) (<[base := mkFlight g 0]> (flights st)) (bytes_used st)
                        (sequence st) (stats st) (fills st + 1) (<[g := Filling]> (signals st)) in
            (Ok (Leader (mkGuard identity base g true)), count C_fill_leaders 1 st)
      end.

Definition is_current (alive : bool) (guard : FillGuard) st : bool :=
  alive && generation_matches st (g_base guard) (g_generation guard).

(** What dropping a guard does; [alive] is whether [Weak::upgrade] succeeds. *)
Definition drop_guard (alive : bool) (guard : FillGuard) st : State H :=
  if negb (g_active guard) then st
  else if alive && generation_matches st (g_base guard) (g_generation guard) then
    let st :=
      match flights st !! g_base guard with
      | Some flight =>
          send (f_generation flight) Cancelled (set_flights (delete (g_base guard) (flights st)) st)
      | None => st
      end in
    count C_fill_cancelled 1 st
  else st.

Definition claim (guard : FillGuard) (entry : PreparedEntry H) : result (PreparedEntry H) CacheError :=
  if negb (e_identity entry =? g_identity guard) then Err PreparedEntryOwnerMismatch
  else if bool_decide (ck_base (e_key entry) <> g_base guard) then Err FillKeyMismatch
  else Ok entry.

Definition store_claimed (alive : bool) (guard : FillGuard) (entry : PreparedEntry H) st :
    ClaimedStoreOutcome * State H :=
  if negb alive then (ClaimedGenerationLost, st)
  else if negb (generation_matches st (g_base guard) (g_generation guard)) then (ClaimedGenerationLost, st)
  else
    let flight := flights st !! g_base guard in
    let st := set_flights (delete (g_base guard) (flights st)) st in
    let '(delta, st) := insert_entry entry st in
    let st := count C_stores 1 st in
    let st := match flight with Some flight => send (f_generation flight) Stored st | None => st end in
    (ClaimedStored delta, st).

(** A refused claim drops the guard and with it the fill. *)
Definition store (alive : bool) (guard : FillGuard) (entry : PreparedEntry H) :
    M (State H) CacheError StoreOutcome :=
  fun st =>
    match claim guard entry with
    | Err e => (Err e, drop_guard alive guard st)
    | Ok entry =>
        match store_claimed alive guard entry st with
        | (ClaimedStored delta, st) => (Ok (StoredOutcome (evicted delta)), st)
        | (ClaimedGenerationLost, st) => (Ok GenerationLost, st)
        end
    end.

Definition finish (alive : bool) (guard : FillGuard) (outcome : FillOutcome) st : bool * State H :=
  if negb alive then (false, st)
  else if negb (generation_matches st (g_base guard) (g_generation guard)) then (false, st)
  else
    match flights st !! g_base guard with
    | Some flight =>
        (true, send (f_generation flight) outcome (set_flights (delete (g_base guard) (flights st)) st))
    | None => (false, st)
    end.

Definition complete_without_store (alive : bool) (guard : FillGuard) st : bool * State H :=
  finish alive guard NotStored st.

(** [FillWaiter::wait] returns once the channel holds a terminal outcome. *)
Definition wait (waiter : FillWaiter) st : option FillOutcome :=
  match signals st !! w_channel waiter with
  | Some Filling | None => None
  | Some outcome => Some outcome
  end.

(** ** Purging *)

Definition purge_exact (key : CacheKey) st : PurgeResult * State H :=
  let '(old, st) := remove_entry key st in
  let '(n, bytes) := match old with Some stored => (1, e_charge (s_entry stored)) | None => (0, 0) end in
  let '(cancelled, st) := cancel_flight (ck_base key) Purged st in
  (mkPurge n bytes (Z.b2z cancelled), count C_purged n st).

(** Removes each key, adding up; [cancel] is whether the fill of its base is
    cancelled in the same turn. *)
Fixpoint purge_keys (cancel : bool) (keys : list CacheKey) (result : PurgeResult) st : PurgeResult * State H :=
  match keys with
  | [] => (result, st)
  | key :: keys =>
      let '(old, st) := remove_entry key st in
      let result :=
        match old with
        | Some stored =>
            mkPurge (p_entries result + 1)
              (saturating_add usize_max (p_bytes result) (e_charge (s_entry stored)))
              (p_fills_cancelled result)
        | None => result
        end in
      let '(cancelled, st) := if cancel then cancel_flight (ck_base key) Purged st else (false, st) in
      purge_keys cancel keys
        (mkPurge (p_entries result) (p_bytes result) (p_fills_cancelled result + Z.b2z cancelled)) st
  end.

Definition purge_base (base : BaseKey) st : PurgeResult * State H :=
  let keys := filter (fun key => ck_base key = base) (map_to_list (entries st)).*1 in
  let '(result, st) := purge_keys false keys (mkPurge 0 0 0) st in
  let '(cancelled, st) := cancel_flight base Purged st in
  (mkPurge (p_entries result) (p_bytes result) (Z.b2z cancelled),
   count C_purged (p_entries result) st).

Definition purge_tag (tag : bytes) : M (State H) CacheError PurgeResult :=
  fun st =>
    match validate_tag tag (max_tag_bytes config) with
    | Err e => (Err e, st)
    | Ok _ =>
        let keys :=
          (filter (fun p => existsb (fun t => beqb t tag) (e_tags (s_entry p.2)) = true)
             (map_to_list (entries st))).*1 in
        let '(result, st) := purge_keys true keys (mkPurge 0 0 0) st in
        (Ok result, count C_purged (p_entries result) st)
    end.

Definition cache_stats st : CacheStats :=
  let s := stats st in
  mkStats (s_hits s) (s_misses s) (s_bypasses s) (s_revalidations s) (s_stale_while_revalidate s)
    (s_stale_hits s) (s_stale_if_error s) (s_stores s) (s_rejected s) (s_evictions s) (s_purged s)
    (s_fill_leaders s) (s_fill_followers s) (s_fill_cancelled s)
    (Z.of_nat (size (entries st))) (bytes_used st) (Z.of_nat (size (flights st))).

Definition remove_without_cancelling_fill (key : CacheKey) st : bool * State H :=
  let '(old, st) := remove_entry key st in
  (bool_decide (is_Some old), st).

Definition cancel_all_fills st : State H :=
  let n := Z.of_nat (size (flights st)) in
  let st := foldl (fun st p => send (f_generation p.2) Cancelled st) st (map_to_list (flights st)) in
  count C_fill_cancelled n (set_flights ∅ st).
End Store.
