(* ===== verification/CacheFacts.v ===== *)
(** Correctness of the shared cache of [CacheStore]: the invariant of its state
    under every sequence of operations, eviction in the order of use, what a
    lookup may return, and the protocol of collapsed fills. *)

From stdpp Require Import base countable list sorting sets gmap strings.
From Stdlib Require Import ZArith Lia Strings.Byte.
From S2P Require Import Prelude Bytes Order Clock Http CacheKey CachePolicy CacheStore.

Open Scope Z_scope.

(** ** Well-formed states *)

Section StoreFacts.
Context {H : Type} `{!HeaderMap H, text : !HttpText, !HttpTextLaws}.
Implicit Types (st : State H) (m : gmap CacheKey (StoredEntry H)).

Definition charge_of (s : StoredEntry H) : Z := e_charge (s_entry s).
Definition total_charge m : Z := map_fold (fun _ s acc => charge_of s + acc) 0 m.

Lemma total_charge_insert m k s : m !! k = None -> total_charge (<[k := s]> m) = charge_of s + total_charge m.
Proof. intros. unfold total_charge. rewrite map_fold_insert_L; [done| |done]. intros. lia. Qed.

Lemma total_charge_delete m k s : m !! k = Some s -> total_charge m = charge_of s + total_charge (delete k m).
Proof. intros. unfold total_charge. rewrite (map_fold_delete_L _ _ k s m); [done| |done]. intros. lia. Qed.

Lemma total_charge_ext m m' :
  (forall k, s_entry <$> m !! k = s_entry <$> m' !! k) -> total_charge m = total_charge m'.
Proof.
  revert m'. induction m as [|k s m Hk IH] using map_ind; intros m' Hm.
  - replace m' with (∅ : gmap CacheKey (StoredEntry H)); [done|]. symmetry. apply map_empty. intros k.
    specialize (Hm k). rewrite lookup_empty in Hm. by destruct (m' !! k).
  - pose proof (Hm k) as Hmk. rewrite lookup_insert_eq in Hmk.
    destruct (m' !! k) as [s'|] eqn:E'; [|done].
    injection Hmk as Hs. rewrite total_charge_insert, (total_charge_delete m' k s') by done.
    unfold charge_of. rewrite Hs. f_equal. apply IH. intros k'. destruct (decide (k = k')) as [<-|Hne].
    + by rewrite Hk, lookup_delete_eq.
    + specialize (Hm k'). rewrite lookup_insert_ne in Hm by done. by rewrite lookup_delete_ne.
Qed.

(** Each entry is filed under its key, the accounted bytes are the sum of the
    charges, no two entries were last used at the same time, and the entries of
    one request agree on the fields they vary on. *)
Record entries_ok m (bytes seq : Z) : Prop := {
  eo_entry k s : m !! k = Some s -> e_key (s_entry s) = k /\ 0 <= charge_of s /\ 0 <= last_access s <= seq;
  eo_bytes : bytes = total_charge m;
  eo_inj k k' s s' : m !! k = Some s -> m !! k' = Some s' -> last_access s = last_access s' -> k = k';
  eo_schema k k' s s' : m !! k = Some s -> m !! k' = Some s' -> ck_base k = ck_base k' ->
    same_vary_schema k k' = true
}.

Lemma total_charge_nonneg m :
  (forall k s, m !! k = Some s -> 0 <= charge_of s) -> 0 <= total_charge m.
Proof.
  induction m as [|k s m Hk IH] using map_ind; intros Hm; [done|].
  rewrite total_charge_insert by done. assert (0 <= charge_of s).
  { apply (Hm k). by rewrite lookup_insert_eq. }
  assert (0 <= total_charge m); [|lia]. apply IH. intros k' s' Hk'. apply (Hm k').
  rewrite lookup_insert_ne; [done|]. intros ->. congruence.
Qed.

Lemma entries_ok_delete m b q k s :
  entries_ok m b q -> m !! k = Some s ->
  entries_ok (delete k m) (saturating_sub b (charge_of s)) q /\
  saturating_sub b (charge_of s) = b - charge_of s.
Proof.
  intros [He Hb Hi Hs] Hk.
  assert (forall k' s', delete k m !! k' = Some s' -> m !! k' = Some s') as Hd
    by (intros k' s' [_ ?]%lookup_delete_Some; done).
  pose proof (total_charge_delete m k s Hk) as Ht.
  assert (0 <= total_charge (delete k m)) as Hn.
  { apply total_charge_nonneg. intros k' s' Hk'. by apply (He k'), Hd. }
  assert (saturating_sub b (charge_of s) = b - charge_of s) as E
    by (rewrite Hb, Ht; unfold saturating_sub; lia).
  split; [|done]. rewrite E. split; [naive_solver|rewrite Hb, Ht; lia|naive_solver|naive_solver].
Qed.

Lemma entries_ok_mono m b q q' : entries_ok m b q -> q <= q' -> entries_ok m b q'.
Proof. intros [He ? ? ?] ?. split; try done. intros k s Hk. destruct (He k s Hk) as (? & ? & ?). split_and!; (done || lia). Qed.

(** What a removal leaves alone. *)
Record shrinks st st' : Prop := {
  sh_entries : entries st' ⊆ entries st;
  sh_sequence : sequence st' = sequence st;
  sh_flights : flights st' = flights st;
  sh_fills : fills st' = fills st;
  sh_signals : signals st' = signals st;
  sh_stats : stats st' = stats st
}.

#[export] Instance shrinks_preorder : PreOrder shrinks.
Proof.
  split; [by split|]. intros st1 st2 st3 [] []. split; try congruence. by etransitivity.
Qed.

Definition state_ok st : Prop := entries_ok (entries st) (bytes_used st) (sequence st).

Lemma remove_entry_spec key st o st' :
  state_ok st -> remove_entry key st = (o, st') ->
  state_ok st' /\ shrinks st st' /\ o = entries st !! key /\ entries st' = delete key (entries st) /\
  bytes_used st' <= bytes_used st.
Proof.
  intros Hok. unfold remove_entry. destruct (entries st !! key) as [s|] eqn:E; intros [= <- <-].
  - destruct (entries_ok_delete _ _ _ _ _ Hok E) as [Hd Hb]. unfold state_ok; simpl. fold (charge_of s).
    split; [done|]. split; [split; try done; simpl; apply delete_subseteq|]. split; [done|]. split; [done|].
    rewrite Hb. destruct (eo_entry _ _ _ Hok _ _ E). lia.
  - split; [done|]. split; [done|]. split; [done|]. split; [|lia]. by rewrite delete_id.
Qed.

Lemma remove_keys_spec keys rm st rm' st' :
  state_ok st -> remove_keys keys rm st = (rm', st') ->
  state_ok st' /\ shrinks st st' /\ bytes_used st' <= bytes_used st /\
  (forall k, entries st' !! k = if decide (k ∈ keys) then None else entries st !! k).
Proof.
  revert rm st. induction keys as [|key keys IH]; intros rm st Hok; simpl.
  { by intros [= <- <-]; split_and!. }
  destruct (remove_entry key st) as [o st1] eqn:E.
  apply remove_entry_spec in E as (Hok1 & Hsh & -> & He & Hb); [|done].
  intros Hr. assert (exists rm1, remove_keys keys rm1 st1 = (rm', st')) as [rm1 Hr'].
  { by destruct (entries st !! key); eexists. }
  apply IH in Hr' as (Hok' & Hsh' & Hb' & Hk'); [|done]. split_and!; [done|by etransitivity|lia|].
  intros k. rewrite Hk', He. destruct (decide (k = key)) as [->|Hne].
  - rewrite (decide_True (P := key ∈ key :: keys)) by left. rewrite lookup_delete_eq.
    by destruct (decide (key ∈ keys)).
  - rewrite lookup_delete_ne by done. destruct (decide (k ∈ keys)).
    + by rewrite decide_True by by right.
    + by rewrite decide_False by by rewrite elem_of_cons; intros [].
Qed.

(** ** Recency *)

Lemma min_by_spec {A} `{OrdLaws A} (l : list A) :
  match min_by l with
  | None => l = []
  | Some x => x ∈ l /\ forall y, y ∈ l -> ord_le x y
  end.
Proof.
  unfold min_by. induction l as [|a l IH] using rev_ind; [done|]. rewrite foldl_app; simpl.
  destruct (foldl _ None l) as [b|].
  - destruct IH as [Hb Hmin]. destruct (cmp a b) eqn:E.
    + apply cmp_eq in E as ->. split; [set_solver|]. intros y [Hy| ->%list_elem_of_singleton]%elem_of_app; auto.
    + split; [set_solver|]. intros y [Hy| ->%list_elem_of_singleton]%elem_of_app; [|reflexivity].
      transitivity b; [|by apply Hmin]. unfold ord_le. congruence.
    + split; [set_solver|]. intros y [Hy| ->%list_elem_of_singleton]%elem_of_app; auto.
      unfold ord_le. rewrite (cmp_opp a b), E. done.
  - subst l. split; [set_solver|]. intros y [Hy| ->%list_elem_of_singleton]%elem_of_app; [set_solver|reflexivity].
Qed.

Lemma lru_key_spec st :
  match lru_key st with
  | None => entries st = ∅
  | Some k => exists s, entries st !! k = Some s /\
                forall k' s', entries st !! k' = Some s' -> last_access s <= last_access s'
  end.
Proof.
  unfold lru_key. set (l := map _ (map_to_list (entries st))).
  assert (forall a k, (a, k) ∈ l <-> exists s, entries st !! k = Some s /\ a = last_access s) as Hl.
  { intros a k. unfold l. rewrite list_elem_of_fmap. split.
    - intros ([k' s] & [= -> ->] & Hin). apply elem_of_map_to_list in Hin. eauto.
    - intros (s & Hk & ->). exists (k, s). split; [done|]. by apply elem_of_map_to_list. }
  pose proof (min_by_spec l) as Hm. destruct (min_by l) as [[a k]|]; simpl.
  - destruct Hm as [Hin Hmin]. apply Hl in Hin as (s & Hk & ->). exists s. split; [done|].
    intros k' s' Hk'. assert (ord_le (last_access s, k) (last_access s', k')) as Hle
      by (apply Hmin, Hl; eauto).
    unfold ord_le, cmp, prod_Ord in Hle. simpl in Hle. unfold cmp, Z_Ord in Hle.
    destruct (Z.compare_spec (last_access s) (last_access s')); [lia|lia|done].
  - apply map_empty. intros k. destruct (entries st !! k) as [s|] eqn:E; [|done].
    assert ((last_access s, k) ∈ l) as Hin by (apply Hl; eauto). rewrite Hm in Hin. by apply elem_of_nil in Hin.
Qed.
End StoreFacts.

Section InsertFacts.
Context {H : Type} `{!HeaderMap H, text : !HttpText, !HttpTextLaws}.
Context (config : CacheConfig).
Implicit Types (st : State H) (m : gmap CacheKey (StoredEntry H)).

(** ** Renumbering *)

(** The entries of [m'] are those of [m] in the same order of use. *)
Record same_order m m' : Prop := {
  so_entry k : s_entry <$> m' !! k = s_entry <$> m !! k;
  so_order k k' s s' t t' :
    m !! k = Some s -> m !! k' = Some s' -> m' !! k = Some t -> m' !! k' = Some t' ->
    last_access s < last_access s' -> last_access t < last_access t'
}.

Lemma foldl_alter_out (l : list (nat * (Z * CacheKey))) m k :
  k ∉ map (fun p => p.2.2) l ->
  foldl (fun m p => alter (set_last_access (Z.of_nat p.1)) p.2.2 m) m l !! k = m !! k.
Proof.
  revert m; induction l as [|[i [a k']] l IH]; intros m Hk; [done|].
  cbn [map] in Hk. apply not_elem_of_cons in Hk as [Hne Hk]. cbn [foldl]. rewrite IH by done.
  by apply lookup_alter_ne.
Qed.

Lemma foldl_alter_in (l : list (nat * (Z * CacheKey))) m i a k :
  NoDup (map (fun p => p.2.2) l) -> (i, (a, k)) ∈ l ->
  foldl (fun m p => alter (set_last_access (Z.of_nat p.1)) p.2.2 m) m l !! k
  = set_last_access (Z.of_nat i) <$> m !! k.
Proof.
  revert m; induction l as [|[i' [a' k']] l IH]; intros m Hnd Hin; [by apply elem_of_nil in Hin|].
  cbn [map] in Hnd. apply NoDup_cons in Hnd as [Hk' Hnd]. cbn [foldl].
  apply elem_of_cons in Hin as [[= <- <- <-]|Hin].
  - rewrite foldl_alter_out by done. apply lookup_alter_eq.
  - rewrite (IH _ Hnd Hin), lookup_alter_ne; [done|]. simpl. intros ->. apply Hk'.
    apply list_elem_of_fmap. by exists (i, (a, k)).
Qed.

Definition use_order m : list (Z * CacheKey) :=
  sort_unstable (map (fun p => (last_access p.2, p.1)) (map_to_list m)).

Lemma elem_of_use_order m a k : (a, k) ∈ use_order m <-> exists s, m !! k = Some s /\ a = last_access s.
Proof.
  unfold use_order. rewrite sort_unstable_perm, list_elem_of_fmap. split.
  - intros ([k' s] & [= -> ->] & Hin). apply elem_of_map_to_list in Hin. eauto.
  - intros (s & Hk & ->). exists (k, s). split; [done|]. by apply elem_of_map_to_list.
Qed.

Lemma use_order_keys m : NoDup (map snd (use_order m)) /\ length (use_order m) = size m.
Proof.
  unfold use_order. split.
  - rewrite sort_unstable_perm, map_map. simpl. apply NoDup_fst_map_to_list.
  - rewrite sort_unstable_perm, length_map. by rewrite length_map_to_list.
Qed.

Lemma map_imap_pair {A B} (l : list (A * B)) : map (fun p : nat * (A * B) => p.2.2) (imap pair l) = map snd l.
Proof.
  change (map (fun p : nat * (A * B) => p.2.2)) with (fmap (M := list) (fun p : nat * (A * B) => p.2.2)).
  rewrite fmap_imap. apply (imap_const snd).
Qed.

Lemma renumber_lookup m k s :
  m !! k = Some s ->
  exists i, use_order m !! i = Some (last_access s, k) /\
            renumber m !! k = Some (set_last_access (Z.of_nat i) s).
Proof.
  intros Hk. assert ((last_access s, k) ∈ use_order m) as Hin by (apply elem_of_use_order; eauto).
  apply list_elem_of_lookup in Hin as [i Hi]. exists i. split; [done|].
  unfold renumber. fold (use_order m). rewrite (foldl_alter_in _ _ i (last_access s) k); [by rewrite Hk| |].
  - rewrite map_imap_pair. apply use_order_keys.
  - apply elem_of_lookup_imap. eauto.
Qed.

Lemma renumber_None m k : m !! k = None -> renumber m !! k = None.
Proof.
  intros Hk. unfold renumber. fold (use_order m). rewrite foldl_alter_out; [done|].
  intros (p & -> & Hin)%list_elem_of_fmap. apply elem_of_lookup_imap in Hin as (i & [a k] & -> & Hi).
  apply list_elem_of_lookup_2, elem_of_use_order in Hi as (s & ? & _). simpl in *. congruence.
Qed.

Lemma same_order_refl m : same_order m m.
Proof. split; [done|]. intros. simplify_eq. done. Qed.

Lemma renumber_same_order m : same_order m (renumber m).
Proof.
  assert (forall k s t, m !! k = Some s -> renumber m !! k = Some t ->
    exists i, use_order m !! i = Some (last_access s, k) /\ t = set_last_access (Z.of_nat i) s) as Hr.
  { intros k s t Hk Ht. destruct (renumber_lookup m k s Hk) as (i & Hi & E). exists i. split; [done|].
    congruence. }
  split.
  - intros k. destruct (m !! k) as [s|] eqn:E; [|by rewrite renumber_None].
    destruct (renumber_lookup m k s E) as (i & _ & ->). done.
  - intros k k' s s' t t' Hk Hk' Ht Ht' Hlt.
    destruct (Hr _ _ _ Hk Ht) as (i & Hi & ->), (Hr _ _ _ Hk' Ht') as (i' & Hi' & ->). simpl.
    destruct (decide (i < i')%nat) as [|Hge]; [lia|]. exfalso.
    assert (ord_le (last_access s', k') (last_access s, k)) as Hle.
    { destruct (decide (i = i')) as [->|]; [simplify_eq; lia|].
      eapply (sorted_lookup ord_le (use_order m) i' i); [apply sort_unstable_sorted|done|done|lia]. }
    unfold ord_le, cmp, prod_Ord, cmp, Z_Ord in Hle. simpl in Hle.
    destruct (Z.compare_spec (last_access s') (last_access s)); [lia|lia|done].
Qed.

Lemma same_order_size m m' : same_order m m' -> size m' = size m.
Proof.
  intros [He _]. rewrite <- !length_map_to_list, <- !(length_fmap fst).
  apply Permutation_length, NoDup_Permutation; [apply NoDup_fst_map_to_list..|].
  intros k. rewrite !list_elem_of_fmap. specialize (He k).
  assert (forall m1 : gmap CacheKey (StoredEntry H),
    (exists p, k = p.1 /\ p ∈ map_to_list m1) <-> is_Some (m1 !! k)) as Hm.
  { intros m1. split.
    - intros ([k' s] & -> & Hin). apply elem_of_map_to_list in Hin. by exists s.
    - intros [s Hs]. exists (k, s). split; [done|]. by apply elem_of_map_to_list. }
  rewrite !Hm. rewrite <- !(fmap_is_Some s_entry). by rewrite He.
Qed.

(** Only the times of use may change, and only to others in the same order. *)
Lemma same_order_ok m m' b q q' :
  entries_ok m b q -> same_order m m' ->
  (forall k s, m' !! k = Some s -> 0 <= last_access s <= q') -> entries_ok m' b q'.
Proof.
  intros [He Hb Hi Hs] [Hse Hso] Hq.
  assert (forall k t, m' !! k = Some t -> exists s, m !! k = Some s /\ s_entry s = s_entry t) as Hback.
  { intros k t Ht. specialize (Hse k). rewrite Ht in Hse. simpl in Hse.
    destruct (m !! k) as [s|]; [|done]. injection Hse as Hse. eauto. }
  split.
  - intros k t Ht. destruct (Hback k t Ht) as (s & Hk & E). destruct (He k s Hk) as (? & ? & _).
    unfold charge_of in *. rewrite <- E. split_and!; [done|done|by apply (Hq k)..].
  - rewrite Hb. apply total_charge_ext. intros k. by rewrite Hse.
  - intros k k' t t' Ht Ht' E. destruct (Hback k t Ht) as (s & Hk & _), (Hback k' t' Ht') as (s' & Hk' & _).
    destruct (Z.lt_trichotomy (last_access s) (last_access s')) as [Hl|[Hl|Hl]].
    + pose proof (Hso k k' _ _ _ _ Hk Hk' Ht Ht' Hl). lia.
    + by apply (Hi k k' s s').
    + pose proof (Hso k' k _ _ _ _ Hk' Hk Ht' Ht Hl). lia.
  - intros k k' t t' Ht Ht'. destruct (Hback k t Ht) as (s & Hk & _), (Hback k' t' Ht') as (s' & Hk' & _).
    by apply (Hs k k' s s').
Qed.

Lemma next_sequence_spec st n st' :
  state_ok st -> 0 <= sequence st <= u64_max -> Z.of_nat (size (entries st)) < u64_max ->
  next_sequence st = (n, st') ->
  sequence st' = n /\ 0 < n <= u64_max /\ same_order (entries st) (entries st') /\
  entries_ok (entries st') (bytes_used st') (n - 1) /\
  bytes_used st' = bytes_used st /\ flights st' = flights st /\ fills st' = fills st /\
  signals st' = signals st /\ stats st' = stats st.
Proof.
  intros Hok Hq Hsz. unfold next_sequence. destruct (Z.eqb_spec (sequence st) u64_max) as [E|E];
    intros [= <- <-]; simpl; (split; [done|]).
  - rewrite (same_order_size _ _ (renumber_same_order (entries st))).
    pose proof (renumber_same_order (entries st)) as Hso.
    split; [lia|]. split; [done|]. split; [|done].
    eapply same_order_ok; [exact Hok|done|]. intros k t Ht.
    destruct (entries st !! k) as [s|] eqn:Ek; [|by rewrite renumber_None in Ht].
    destruct (renumber_lookup _ k s Ek) as (i & Hi & Hr). rewrite Hr in Ht. injection Ht as <-. simpl.
    apply lookup_lt_Some in Hi. destruct (use_order_keys (entries st)) as [_ Hl]. lia.
  - split; [lia|]. split; [apply same_order_refl|]. split; [|done].
    replace (sequence st + 1 - 1) with (sequence st) by lia. exact Hok.
Qed.

(** ** Eviction *)

(** What construction guarantees, and that the limits are below the largest
    machine integer. *)
Record config_ok : Prop := {
  cfg_entries : 0 < max_entries config < u64_max;
  cfg_total : 0 < max_total_bytes config < usize_max;
  cfg_in_flight : 0 < max_in_flight config;
  cfg_followers : 0 < max_followers_per_fill config
}.

(** There is room for one more entry of the given charge. *)
Definition has_room (charge : Z) st : Prop :=
  Z.of_nat (size (entries st)) < max_entries config /\ bytes_used st + charge <= max_total_bytes config.

(** Only the least recently used entries go, and none of them needlessly: without
    the last one there would have been no room. *)
Definition lru_evicted (charge : Z) st st' : Prop :=
  (forall k s k' s', entries st !! k = Some s -> entries st' !! k = None ->
     entries st' !! k' = Some s' -> last_access s < last_access s') /\
  (entries st' <> entries st ->
   exists k s, entries st !! k = Some s /\ entries st' !! k = None /\
     (forall k' s', entries st !! k' = Some s' -> entries st' !! k' = None -> last_access s' <= last_access s) /\
     (max_entries config <= Z.of_nat (size (entries st')) + 1 \/
      max_total_bytes config < bytes_used st' + charge_of s + charge)).

Lemma evict_test charge st :
  config_ok -> (max_entries config <=? Z.of_nat (size (entries st)))
     || (max_total_bytes config <? saturating_add usize_max (bytes_used st) charge) = false <->
  has_room charge st.
Proof.
  intros [? ? _ _]. unfold has_room, saturating_add. rewrite orb_false_iff, Z.leb_gt, Z.ltb_ge. lia.
Qed.

(** Evicting the least recently used entry first. *)
Lemma lru_evicted_step charge lru s st st1 st' : state_ok st -> state_ok st' -> entries st !! lru = Some s ->
  (forall k t, entries st !! k = Some t -> last_access s <= last_access t) -> entries st1 = delete lru (entries st) ->
  size (entries st) = S (size (entries st1)) -> shrinks st1 st' -> ~ has_room charge st -> lru_evicted charge st1 st' -> lru_evicted charge st st'.
Proof.
  intros Hok Hok' Hs Hmin He1 Hsz Hsh' Hfull [Hlt Hnec]. split.
  - intros k t k' t' Hk Hk' Ht'. assert (entries st1 !! k' = Some t') as Hk1.
    { eapply lookup_weaken; [exact Ht'|apply Hsh']. }
    destruct (decide (k = lru)) as [->|Hne].
    + rewrite Hs in Hk. injection Hk as ->. rewrite He1 in Hk1.
      apply lookup_delete_Some in Hk1 as [Hne Hk1]. specialize (Hmin _ _ Hk1).
      assert (last_access t <> last_access t'); [|lia].
      intros E. by destruct Hne; apply (eo_inj _ _ _ Hok _ _ _ _ Hs Hk1).
    + eapply Hlt; [|exact Hk'|exact Ht']. rewrite He1. by rewrite lookup_delete_ne.
  - intros _. destruct (decide (size (entries st1) <= size (entries st'))%nat) as [E|Hne];
      [apply map_subseteq_size_eq in E; [|apply Hsh']|].
    + exists lru, s. rewrite E, He1, lookup_delete_eq. split_and!; [done|done| |].
      * intros k t Hk Hd. apply lookup_delete_None in Hd as [<-|Hd]; [|congruence].
        rewrite Hs in Hk. injection Hk as ->. lia.
      * unfold has_room in Hfull. destruct (entries_ok_delete _ _ _ _ _ Hok Hs) as [Hd _].
        assert (bytes_used st' = bytes_used st - charge_of s) as ->.
        { rewrite (eo_bytes _ _ _ Hok'), E, He1, (eo_bytes _ _ _ Hok).
          rewrite (total_charge_delete _ _ _ Hs). lia. }
        rewrite <- He1. lia.
    + assert (entries st' <> entries st1) as Hne' by (intros E; rewrite E in Hne; lia).
      destruct (Hnec Hne') as (k & t & Hk & Hk' & Hmax & Hover). exists k, t.
      assert (entries st !! k = Some t) as Hkst.
      { rewrite He1 in Hk. by apply lookup_delete_Some in Hk as [_ ?]. }
      split_and!; [done|done| |done]. intros k2 t2 Hk2 Hd2. destruct (decide (k2 = lru)) as [->|Hne2].
      * rewrite Hs in Hk2. injection Hk2 as <-. by apply (Hmin k).
      * apply (Hmax k2); [|done]. rewrite He1. by rewrite lookup_delete_ne.
Qed.

Lemma evict_spec fuel charge rm ev st rm' ev' st' :
  config_ok -> 0 <= charge <= max_total_bytes config -> state_ok st ->
  (size (entries st) < fuel)%nat ->
  evict config fuel charge rm ev st = (rm', ev', st') ->
  state_ok st' /\ shrinks st st' /\ has_room charge st' /\ lru_evicted charge st st' /\
  ev' - ev = Z.of_nat (size (entries st)) - Z.of_nat (size (entries st')).
Proof.
  intros Hc Hch. revert rm ev st. induction fuel as [|fuel IH]; intros rm ev st Hok Hf; [lia|]. simpl.
  destruct (_ || _) eqn:Et.
  2: { intros [= <- <- <-]. apply evict_test in Et; [|done]. split_and!; [done|done|done| |lia].
       split; [congruence|by intros []]. }
  pose proof (lru_key_spec st) as Hlru. destruct (lru_key st) as [lru|].
  2: { exfalso. assert (has_room charge st) as Hr; [|apply evict_test in Hr; [congruence|done]].
       unfold has_room. rewrite Hlru, map_size_empty. rewrite (eo_bytes _ _ _ Hok), Hlru.
       destruct Hc. unfold total_charge. rewrite map_fold_empty. lia. }
  destruct Hlru as (s & Hs & Hmin). destruct (remove_entry lru st) as [o st1] eqn:Er.
  apply remove_entry_spec in Er as (Hok1 & Hsh1 & -> & He1 & _); [|done]. rewrite Hs.
  assert (size (entries st) = S (size (entries st1))) as Hsz.
  { rewrite He1, map_size_delete, Hs. assert (size (entries st) <> 0%nat); [|lia].
    intros E. apply map_size_empty_inv in E. by rewrite E, lookup_empty in Hs. }
  intros Hev. apply IH in Hev as (Hok' & Hsh' & Hroom & Hlru & Hn); [|done|lia].
  split_and!; [done|by etransitivity|done| |lia]. eapply lru_evicted_step; try done.
  by intros Hr%evict_test; [congruence|].
Qed.

(** ** Insertion *)

Lemma same_vary_schema_names a b :
  same_vary_schema a b = true <-> map vv_name (ck_vary a) = map vv_name (ck_vary b).
Proof.
  unfold same_vary_schema. rewrite andb_true_iff, Z.eqb_eq. unfold len.
  assert (forall l k : list VaryValue, length l = length k ->
    forallb (fun p => beqb (vv_name p.1) (vv_name p.2)) (zip l k) = true <-> map vv_name l = map vv_name k) as Hz.
  { induction l as [|x l IH]; intros [|y k]; simpl; intros Hl; try done.
    rewrite andb_true_iff, IH by lia. unfold beqb. rewrite bool_decide_eq_true. naive_solver congruence. }
  split.
  - intros [Hl%Nat2Z.inj Hf]. by apply Hz.
  - intros E. pose proof (f_equal length E) as Hl. rewrite !length_map in Hl. split; [lia|]. by apply Hz.
Qed.

(** Stored under another selection of the same request. *)
Definition conflicts (key k : CacheKey) : Prop :=
  ck_base k = ck_base key /\ same_vary_schema k key = false.

Lemma elem_of_conflicting key st k :
  k ∈ conflicting_keys key st <-> is_Some (entries st !! k) /\ conflicts key k.
Proof.
  unfold conflicting_keys, conflicts. rewrite sort_unstable_perm, list_elem_of_filter.
  rewrite andb_true_iff, bool_decide_eq_true, negb_true_iff, list_elem_of_fmap. split.
  - intros [? ([k' s] & -> & Hin)]. apply elem_of_map_to_list in Hin. naive_solver.
  - intros [[s Hs] ?]. split; [done|]. exists (k, s). split; [done|]. by apply elem_of_map_to_list.
Qed.

(** What [insert_entry] does, in the steps of its body: [st1] is left when the
    replaced and the conflicting entries are gone, [st2] after the evictions. *)
Record insertion (entry : PreparedEntry H) st st1 st2 st' (delta : InsertionDelta) : Prop := {
  ins_shrinks1 : shrinks st st1;
  ins_entries1 k : entries st1 !! k = entries st !! k \/
                   entries st1 !! k = None /\ (k = e_key entry \/ conflicts (e_key entry) k);
  ins_gone k : k = e_key entry \/ conflicts (e_key entry) k -> entries st1 !! k = None;
  ins_shrinks2 : shrinks st1 st2;
  ins_room : has_room (e_charge entry) st2;
  ins_lru : lru_evicted (e_charge entry) st1 st2;
  ins_evicted : evicted delta = Z.of_nat (size (entries st1)) - Z.of_nat (size (entries st2));
  ins_order : same_order (entries st2) (delete (e_key entry) (entries st'));
  ins_new : entries st' !! e_key entry = Some (mkStored entry (sequence st'));
  ins_newest k s : k <> e_key entry -> entries st' !! k = Some s -> last_access s < sequence st';
  ins_bytes : bytes_used st' = bytes_used st2 + e_charge entry;
  ins_size : size (entries st') = S (size (entries st2));
  ins_flights : flights st' = flights st;
  ins_fills : fills st' = fills st;
  ins_signals : signals st' = signals st
}.

(** The entries within their bounds. *)
Definition store_ok st : Prop :=
  state_ok st /\ 0 <= sequence st <= u64_max /\
  Z.of_nat (size (entries st)) <= max_entries config /\ bytes_used st <= max_total_bytes config.

Lemma entries_ok_insert m b q key entry :
  entries_ok m b q -> m !! key = None -> (forall k s, m !! k = Some s -> ~ conflicts key k) ->
  e_key entry = key -> 0 <= e_charge entry -> 0 <= q ->
  entries_ok (<[key := mkStored entry (q + 1)]> m) (b + e_charge entry) (q + 1).
Proof.
  intros [He Hb Hi Hs] Hk Hnc Hkey Hch Hq. split.
  - intros k s [[<- <-]|[_ Hk']]%lookup_insert_Some; [simpl; unfold charge_of; simpl; split_and!; done || lia|].
    destruct (He k s Hk') as (? & ? & ?). split_and!; done || lia.
  - rewrite total_charge_insert by done. unfold charge_of; simpl. lia.
  - intros k k' s s' [[<- <-]|[? Hk1]]%lookup_insert_Some [[<- <-]|[? Hk2]]%lookup_insert_Some; simpl; try done.
    + destruct (He _ _ Hk2) as (_ & _ & ?). lia.
    + destruct (He _ _ Hk1) as (_ & _ & ?). lia.
    + by apply (Hi _ _ _ _ Hk1 Hk2).
  - intros k k' s s' [[<- <-]|[? Hk1]]%lookup_insert_Some [[<- <-]|[? Hk2]]%lookup_insert_Some Hbase.
    + by apply same_vary_schema_names.
    + apply same_vary_schema_names. symmetry. apply same_vary_schema_names.
      apply not_false_iff_true. intros Hf. by apply (Hnc _ _ Hk2).
    + apply not_false_iff_true. intros Hf. by apply (Hnc _ _ Hk1).
    + by apply (Hs _ _ _ _ Hk1 Hk2).
Qed.

Lemma insert_entry_spec entry st delta st' :
  config_ok -> 0 <= e_charge entry <= max_total_bytes config -> store_ok st ->
  insert_entry config entry st = (delta, st') ->
  store_ok st' /\ exists st1 st2, insertion entry st st1 st2 st' delta.
Proof.
  intros Hc Hch (Hok & Hq & Hsz & Hby). unfold insert_entry.
  destruct (remove_entry (e_key entry) st) as [old sta] eqn:Ea.
  apply remove_entry_spec in Ea as (Hoka & Hsha & -> & Hea & _); [|done].
  destruct (remove_keys _ _ sta) as [rm1 st1] eqn:E1.
  apply remove_keys_spec in E1 as (Hok1 & Hsh1 & _ & He1); [|done].
  destruct (evict _ _ _ _ _ st1) as [[rm2 ev] st2] eqn:E2.
  apply evict_spec in E2 as (Hok2 & Hsh2 & Hroom & Hlru & Hn); [|done|done|done|lia].
  destruct (next_sequence st2) as [n st3] eqn:E3. intros [= <- <-].
  assert (sequence st2 = sequence st) as Hq2 by (destruct Hsha, Hsh1, Hsh2; congruence).
  pose proof Hroom as [Hroom1 Hroom2]. pose proof Hc as [Hce Hct _ _].
  apply next_sequence_spec in E3 as (Hn3 & Hnr & Hso & Hok3 & Hb3 & Hf3 & Hfi3 & Hs3 & _); [|done|lia|lia].
  assert (forall k, k = e_key entry \/ conflicts (e_key entry) k -> entries st1 !! k = None) as Hgone.
  { intros k Hk. rewrite He1. destruct (decide (k ∈ _)) as [|Hnk]; [done|]. rewrite Hea.
    destruct Hk as [->|Hk]; [apply lookup_delete_eq|]. apply lookup_delete_None. right.
    destruct (entries st !! k) as [s|] eqn:Ek; [|done]. destruct Hnk. apply elem_of_conflicting.
    split; [|done]. rewrite Hea, lookup_delete_ne; [by eexists|]. intros <-.
    destruct Hk as [_ Hk]. rewrite (proj2 (same_vary_schema_names _ _)) in Hk; done. }
  assert (forall k, entries st1 !! k = None -> entries st3 !! k = None) as Hnone.
  { intros k Hk. assert (entries st2 !! k = None) as Hk2 by (eapply lookup_weaken_None; [exact Hk|apply Hsh2]).
    pose proof (so_entry _ _ Hso k) as E. rewrite Hk2 in E. by destruct (entries st3 !! k). }
  split.
  - unfold store_ok, state_ok; simpl. rewrite Hn3.
    assert (saturating_add usize_max (bytes_used st3) (e_charge entry) = bytes_used st3 + e_charge entry) as ->
      by (unfold saturating_add; lia).
    split_and!; [|lia|lia| |lia].
    + replace n with (n - 1 + 1) by lia. apply entries_ok_insert; try done; try lia.
      * apply Hnone, Hgone. by left.
      * intros k s Hk Hcf. rewrite (Hnone k) in Hk; [done|]. apply Hgone. by right.
    + rewrite map_size_insert_None by (apply Hnone, Hgone; by left).
      rewrite (same_order_size _ _ Hso). lia.
  - exists st1, st2. split; simpl; try done.
    + by etransitivity.
    + intros k. rewrite He1, Hea. destruct (decide (k ∈ _)) as [[_ Hk]%elem_of_conflicting|]; [by auto|].
      rewrite lookup_delete. case_decide; naive_solver.
    + lia.
    + rewrite delete_insert_id; [done|]. apply Hnone, Hgone. by left.
    + rewrite lookup_insert_eq. by rewrite Hn3.
    + intros k s Hne Hk. rewrite lookup_insert_ne in Hk by done.
      destruct (eo_entry _ _ _ Hok3 k s Hk) as (_ & _ & ?). lia.
    + unfold saturating_add. lia.
    + rewrite map_size_insert_None by (apply Hnone, Hgone; by left). by rewrite (same_order_size _ _ Hso).
    + destruct Hsha, Hsh1, Hsh2. congruence.
    + destruct Hsha, Hsh1, Hsh2. congruence.
    + destruct Hsha, Hsh1, Hsh2. congruence.
Qed.
End InsertFacts.

(** ** The fill protocol

    What the operations do to fills: the fills in progress, the number of the
    next one and the value of every channel. *)

Section Fills.
Context (config : CacheConfig).

Definition fill_part : Type := gmap BaseKey Flight * Z * gmap Z FillOutcome.

Inductive fill_step : fill_part -> fill_part -> Prop :=
| fill_ends fl n sg base f o :
    fl !! base = Some f -> o <> Filling ->
    fill_step (fl, n, sg) (delete base fl, n, <[f_generation f := o]> sg)
| fill_begins fl n sg base :
    fl !! base = None -> Z.of_nat (size fl) < max_in_flight config ->
    fill_step (fl, n, sg) (<[base := mkFlight n 0]> fl, n + 1, <[n := Filling]> sg)
| fill_joined fl n sg base f :
    fl !! base = Some f -> followers f < max_followers_per_fill config ->
    fill_step (fl, n, sg) (<[base := mkFlight (f_generation f) (followers f + 1)]> fl, n, sg).

(** Fills in progress have distinct numbers, their channels say so, and every
    other channel holds an outcome. *)
Record fill_ok (p : fill_part) : Prop := {
  fo_flight b f : p.1.1 !! b = Some f ->
    0 <= f_generation f < p.1.2 /\ 0 <= followers f <= max_followers_per_fill config /\
    p.2 !! f_generation f = Some Filling;
  fo_inj b b' f f' : p.1.1 !! b = Some f -> p.1.1 !! b' = Some f' -> f_generation f = f_generation f' -> b = b';
  fo_signal g o : p.2 !! g = Some o ->
    0 <= g < p.1.2 /\ (o = Filling -> exists b f, p.1.1 !! b = Some f /\ f_generation f = g);
  fo_started g : 0 <= g < p.1.2 -> is_Some (p.2 !! g);
  fo_next : 0 <= p.1.2;
  fo_size : Z.of_nat (size p.1.1) <= max_in_flight config
}.

Lemma fill_ok_ends fl n sg base f o :
  fill_ok (fl, n, sg) -> fl !! base = Some f -> o <> Filling ->
  fill_ok (delete base fl, n, <[f_generation f := o]> sg).
Proof.
  intros [Hf Hi Hs Hst Hn Hz] Hb Ho; simpl in *. destruct (Hf _ _ Hb) as (Hg & _ & _). split; simpl.
  - intros b f' [Hne Hb']%lookup_delete_Some. destruct (Hf _ _ Hb') as (? & ? & ?). split_and!; try lia.
    rewrite lookup_insert_ne; [done|]. intros E. by destruct Hne; apply (Hi _ _ _ _ Hb Hb').
  - intros b b' f1 f2 [_ H1]%lookup_delete_Some [_ H2]%lookup_delete_Some. by apply Hi.
  - intros g o' [[<- <-]|[Hne Hg']]%lookup_insert_Some; [naive_solver lia|].
    destruct (Hs _ _ Hg') as [? Hfl]. split; [done|]. intros Ho'. destruct (Hfl Ho') as (b & f' & Hb' & <-).
    exists b, f'. split; [|done]. rewrite lookup_delete_ne; [done|]. intros <-. congruence.
  - intros g Hgr. destruct (decide (f_generation f = g)) as [<-|]; [by rewrite lookup_insert_eq|].
    rewrite lookup_insert_ne by done. by apply Hst.
  - done.
  - rewrite map_size_delete_Some by (by eexists). lia.
Qed.

Lemma fill_ok_begins fl n sg base :
  0 < max_followers_per_fill config ->
  fill_ok (fl, n, sg) -> fl !! base = None -> Z.of_nat (size fl) < max_in_flight config ->
  fill_ok (<[base := mkFlight n 0]> fl, n + 1, <[n := Filling]> sg).
Proof.
  intros Hm [Hf Hi Hs Hst Hn Hz] Hb Hsz; simpl in *. split; simpl.
  - intros b f [[<- <-]|[? Hb']]%lookup_insert_Some; simpl; [rewrite lookup_insert_eq; naive_solver lia|].
    destruct (Hf _ _ Hb') as (? & ? & ?). rewrite lookup_insert_ne by lia. naive_solver lia.
  - intros b b' f f' [[<- <-]|[? H1]]%lookup_insert_Some [[<- <-]|[? H2]]%lookup_insert_Some; simpl; try done.
    + destruct (Hf _ _ H2) as (? & _). lia.
    + destruct (Hf _ _ H1) as (? & _). lia.
    + by apply Hi.
  - intros g o [[<- <-]|[Hne Hg]]%lookup_insert_Some.
    + split; [lia|]. intros _. exists base, (mkFlight n 0). by rewrite lookup_insert_eq.
    + destruct (Hs _ _ Hg) as [? Hfl]. split; [lia|]. intros Ho. destruct (Hfl Ho) as (b & f & Hb' & <-).
      exists b, f. rewrite lookup_insert_ne; [done|]. intros <-. congruence.
  - intros g Hg. destruct (decide (n = g)) as [<-|]; [by rewrite lookup_insert_eq|].
    rewrite lookup_insert_ne by done. apply Hst. lia.
  - lia.
  - rewrite map_size_insert_None by done. lia.
Qed.

Lemma fill_ok_joined fl n sg base f :
  fill_ok (fl, n, sg) -> fl !! base = Some f -> followers f < max_followers_per_fill config ->
  fill_ok (<[base := mkFlight (f_generation f) (followers f + 1)]> fl, n, sg).
Proof.
  intros [Hf Hi Hs Hst Hn Hz] Hb Hfo; simpl in *. destruct (Hf _ _ Hb) as (Hg & Hfr & Hsg). split; simpl.
  - intros b f' [[<- <-]|[? Hb']]%lookup_insert_Some; simpl; [naive_solver lia|by apply (Hf b)].
  - intros b b' f1 f2 [[<- <-]|[? H1]]%lookup_insert_Some [[<- <-]|[? H2]]%lookup_insert_Some; simpl; intros E;
      try done; eauto.
  - intros g o Hg'. destruct (Hs _ _ Hg') as [? Hfl]. split; [done|]. intros Ho.
    destruct (Hfl Ho) as (b & f' & Hb' & <-). destruct (decide (base = b)) as [<-|].
    + exists base, (mkFlight (f_generation f) (followers f + 1)). rewrite lookup_insert_eq.
      split; [done|]. simpl. congruence.
    + exists b, f'. by rewrite lookup_insert_ne.
  - done.
  - done.
  - rewrite map_size_insert_Some by (by eexists). lia.
Qed.

Lemma fill_step_ok p p' :
  0 < max_followers_per_fill config -> fill_ok p -> fill_step p p' -> fill_ok p'.
Proof.
  intros Hm Hok Hs. destruct Hs; [by apply fill_ok_ends|by apply fill_ok_begins|by apply fill_ok_joined].
Qed.

Lemma fill_steps_ok p p' :
  0 < max_followers_per_fill config -> fill_ok p -> rtc fill_step p p' -> fill_ok p'.
Proof. intros ? Hok. induction 1; eauto using fill_step_ok. Qed.

(** The fill [g] is the one in progress for [base]. *)
Definition current (p : fill_part) (base : BaseKey) (g : Z) : Prop :=
  exists f, p.1.1 !! base = Some f /\ f_generation f = g.

(** A fill that is over never becomes current again, and its outcome is final. *)
Lemma fill_step_over p p' base g :
  fill_step p p' -> g < p.1.2 -> ~ current p base g -> g < p'.1.2 /\ ~ current p' base g.
Proof.
  intros Hs Hg Hc. destruct Hs as [fl n sg b f o Hb Ho|fl n sg b Hb Hsz|fl n sg b f Hb Hfo]; simpl in *;
    (split; [lia|]); intros (f' & Hf' & E); simpl in *.
  - apply Hc. exists f'. by apply lookup_delete_Some in Hf' as [_ ?].
  - apply lookup_insert_Some in Hf' as [[<- <-]|[_ Hf']]; [simpl in E; lia|]. apply Hc. by exists f'.
  - apply lookup_insert_Some in Hf' as [[<- <-]|[_ Hf']]; [|apply Hc; by exists f'].
    apply Hc. by exists f.
Qed.

Lemma fill_step_outcome p p' g o :
  fill_ok p -> fill_step p p' -> p.2 !! g = Some o -> o <> Filling -> p'.2 !! g = Some o.
Proof.
  intros Hok Hs Hg Ho. destruct Hs as [fl n sg b f o' Hb Ho'|fl n sg b Hb Hsz|fl n sg b f Hb Hfo]; simpl in *.
  - rewrite lookup_insert_ne; [done|]. intros <-. destruct (fo_flight _ Hok _ _ Hb) as (_ & _ & Hf).
    simpl in Hf. congruence.
  - rewrite lookup_insert_ne; [done|]. intros <-. destruct (fo_signal _ Hok _ _ Hg) as [? _]. simpl in *. lia.
  - done.
Qed.

Lemma fill_steps_over p p' base g :
  rtc fill_step p p' -> g < p.1.2 -> ~ current p base g -> ~ current p' base g.
Proof.
  induction 1 as [|p1 p2 p3 Hs _ IH]; [done|]. intros Hg Hc.
  destruct (fill_step_over _ _ _ _ Hs Hg Hc). by apply IH.
Qed.

Lemma fill_steps_outcome p p' g o :
  0 < max_followers_per_fill config -> fill_ok p -> rtc fill_step p p' ->
  p.2 !! g = Some o -> o <> Filling -> p'.2 !! g = Some o.
Proof.
  intros Hm Hok. induction 1 as [|p1 p2 p3 Hs _ IH]; [done|]. intros Hg Ho.
  apply IH; [by eapply fill_step_ok| |done]. by eapply fill_step_outcome.
Qed.
End Fills.

(** ** Operations *)

Section Operations.
Context {H : Type} `{!HeaderMap H, text : !HttpText, !HttpTextLaws}.
Context (identity : CacheIdentity) (config : CacheConfig) (Hconfig : config_ok config).
Implicit Types st : State H.

Definition fills_of st : fill_part := (flights st, fills st, signals st).

(** An operation keeps the store within its bounds and follows the protocol. *)
Definition effect st st' : Prop := store_ok config st' /\ rtc (fill_step config) (fills_of st) (fills_of st').

Lemma effect_trans st1 st2 st3 : effect st1 st2 -> effect st2 st3 -> effect st1 st3.
Proof. intros [_ H1] [H2 H3]. split; [done|]. by etransitivity. Qed.

Lemma effect_count st st' c n : effect st st' -> effect st (count c n st').
Proof. done. Qed.

Lemma effect_refl st : store_ok config st -> effect st st.
Proof. by split. Qed.

Lemma shrinks_effect st st' :
  store_ok config st -> state_ok st' -> shrinks st st' -> bytes_used st' <= bytes_used st -> effect st st'.
Proof.
  intros (_ & Hq & Hsz & Hb) Hok Hsh Hb'. destruct Hsh as [He Hs Hfl Hfi Hsg _]. split.
  - split; [done|]. rewrite Hs. apply map_subseteq_size in He. split_and!; lia.
  - unfold fills_of. by rewrite Hfl, Hfi, Hsg.
Qed.

Lemma remove_entry_effect key st : store_ok config st -> effect st (remove_entry key st).2.
Proof.
  intros Hok. destruct (remove_entry key st) as [o st'] eqn:E. simpl.
  apply remove_entry_spec in E as (? & ? & _ & _ & ?); [|apply Hok]. by apply shrinks_effect.
Qed.

Lemma end_fill_effect base f o st :
  store_ok config st -> flights st !! base = Some f -> o <> Filling ->
  effect st (send (f_generation f) o (set_flights (delete base (flights st)) st)).
Proof. intros Hok Hf Ho. split; [done|]. apply rtc_once. by constructor. Qed.

Lemma cancel_flight_effect base o st :
  store_ok config st -> o <> Filling -> effect st (cancel_flight base o st).2.
Proof.
  intros Hok Ho. unfold cancel_flight. destruct (flights st !! base) as [f|] eqn:E; simpl.
  - apply effect_count. by apply end_fill_effect.
  - by apply effect_refl.
Qed.

Lemma insert_entry_effect entry st :
  0 <= e_charge entry <= max_total_bytes config -> store_ok config st ->
  effect st (insert_entry config entry st).2.
Proof.
  intros Hch Hok. destruct (insert_entry config entry st) as [d st'] eqn:E. simpl.
  apply insert_entry_spec in E as (Hok' & st1 & st2 & Hi); [|done..]. split; [done|].
  unfold fills_of. by rewrite (ins_flights _ _ _ _ _ _ _ Hi), (ins_fills _ _ _ _ _ _ _ Hi),
    (ins_signals _ _ _ _ _ _ _ Hi).
Qed.

(** Using an entry makes it the most recent one. *)
Lemma entries_ok_touch (m : gmap CacheKey (StoredEntry H)) b n k s :
  entries_ok m b (n - 1) -> 0 <= n -> m !! k = Some s -> entries_ok (<[k := set_last_access n s]> m) b n.
Proof.
  intros [He Hb Hi Hs] Hn Hk.
  assert (forall k' s', <[k := set_last_access n s]> m !! k' = Some s' ->
    exists t, m !! k' = Some t /\ s_entry t = s_entry s' /\
              (k' = k /\ last_access s' = n \/ k' <> k /\ s' = t)) as Hm.
  { intros k' s' [[<- <-]|[? ?]]%lookup_insert_Some; [exists s|exists s']; naive_solver. }
  split.
  - intros k' s' (t & Ht & E & Hc)%Hm. destruct (He _ _ Ht) as (? & ? & ?). unfold charge_of in *.
    rewrite <- E. destruct Hc as [[-> ->]|[? ->]]; split_and!; done || lia.
  - rewrite Hb. apply total_charge_ext. intros k'. destruct (decide (k = k')) as [<-|].
    + by rewrite lookup_insert_eq, Hk.
    + by rewrite lookup_insert_ne.
  - intros k1 k2 s1 s2 (t1 & Ht1 & _ & H1)%Hm (t2 & Ht2 & _ & H2)%Hm E.
    destruct (He _ _ Ht1) as (_ & _ & ?), (He _ _ Ht2) as (_ & _ & ?).
    destruct H1 as [[-> H1]|[? ->]], H2 as [[-> H2]|[? ->]]; try done; try lia. by apply (Hi _ _ _ _ Ht1 Ht2).
  - intros k1 k2 s1 s2 (t1 & Ht1 & _)%Hm (t2 & Ht2 & _)%Hm. by apply (Hs _ _ _ _ Ht1 Ht2).
Qed.

Lemma touch_effect st n st1 key stored :
  store_ok config st -> next_sequence st = (n, st1) -> entries st1 !! key = Some stored ->
  effect st (set_entries (<[key := set_last_access n stored]> (entries st1)) st1).
Proof.
  intros (Hok & Hq & Hsz & Hb) E Hk. pose proof (cfg_entries _ Hconfig).
  apply next_sequence_spec in E as (Hn & Hnr & Hso & Hok1 & Hb1 & Hfl & Hfi & Hsg & _); [|done|done|lia].
  split.
  - unfold store_ok, state_ok; simpl. rewrite Hn. split_and!; [|lia|lia| |lia].
    + apply entries_ok_touch; [done|lia|done].
    + rewrite map_size_insert_Some by (by eexists). rewrite (same_order_size _ _ Hso). lia.
  - unfold fills_of; simpl. by rewrite Hfl, Hfi, Hsg.
Qed.

Lemma next_sequence_lookup st n st1 key :
  store_ok config st -> next_sequence st = (n, st1) ->
  s_entry <$> entries st1 !! key = s_entry <$> entries st !! key.
Proof.
  intros (Hok & Hq & Hsz & Hb) E. pose proof (cfg_entries _ Hconfig).
  apply next_sequence_spec in E as (_ & _ & Hso & _); [|done|done|lia]. apply Hso.
Qed.

Lemma stale_if_error_effect key now st :
  store_ok config st -> effect st (cache_stale_if_error key now st).2.
Proof.
  intros Hok. unfold cache_stale_if_error.
  destruct (entries st !! key) as [stored|] eqn:Ek0; [|by apply effect_refl].
  case_match; [by apply effect_refl|]. destruct (next_sequence st) as [n st1] eqn:E.
  destruct (entries st1 !! key) as [s|] eqn:Ek; simpl.
  - apply effect_count. by eapply touch_effect.
  - apply next_sequence_lookup with (key := key) in E; [|done]. by rewrite Ek, Ek0 in E.
Qed.

Lemma max_by_key_spec {A} (f : A -> Z) l :
  match max_by_key f l with
  | None => l = []
  | Some x => x ∈ l /\ forall y, y ∈ l -> f y <= f x
  end.
Proof.
  unfold max_by_key. induction l as [|a l IH] using rev_ind; [done|]. rewrite foldl_app; simpl.
  destruct (foldl _ None l) as [b|].
  - destruct IH as [Hb Hmax]. destruct (Z.leb_spec (f b) (f a)); (split; [set_solver|]);
      intros y [Hy| ->%list_elem_of_singleton]%elem_of_app; try specialize (Hmax _ Hy); lia.
  - subst l. split; [set_solver|]. intros y [Hy| ->%list_elem_of_singleton]%elem_of_app; [set_solver|lia].
Qed.

(** The stored entries that may answer a request. *)
Definition answers st base (headers : H) (authorized : bool) (key : CacheKey) (stored : StoredEntry H) : Prop :=
  entries st !! key = Some stored /\ matches_request key base headers (max_key_bytes config) = true /\
  (authorized = true -> allows_authorized_reuse (e_policy (s_entry stored)) = true).

Lemma matching_key_spec st base headers authorized :
  match matching_key config st base headers authorized with
  | None => forall key stored, ~ answers st base headers authorized key stored
  | Some key => exists stored, answers st base headers authorized key stored
  end.
Proof.
  unfold matching_key. set (l := filter _ _).
  assert (forall key, key ∈ l <-> exists stored, answers st base headers authorized key stored) as Hl.
  { intros key. unfold l, answers. rewrite list_elem_of_filter, andb_true_iff, list_elem_of_fmap. split.
    - intros ([Hm Ha] & [k s] & -> & Hin%elem_of_map_to_list). exists s. simpl in *. rewrite Hin in Ha.
      split_and!; [done|done|]. simpl in Ha. intros ->. done.
    - intros (s & Hs & Hm & Ha). rewrite Hs. split.
      + split; [done|]. simpl. destruct authorized; simpl; auto.
      + exists (key, s). split; [done|]. by apply elem_of_map_to_list. }
  pose proof (max_by_key_spec (fun key => from_option last_access 0 (entries st !! key)) l) as Hm.
  destruct (max_by_key _ l) as [key|].
  - apply Hl, Hm.
  - intros key stored Ha. assert (key ∈ l) as Hin by (apply Hl; eauto). rewrite Hm in Hin.
    by apply elem_of_nil in Hin.
Qed.

Lemma remove_expired_effect key now st :
  store_ok config st ->
  let '(expired, st1) := remove_expired_entry key now st in effect st st1 /\ (expired = false -> st1 = st).
Proof.
  intros Hok. unfold remove_expired_entry. destruct (is_expired key now st).
  - split; [by apply remove_entry_effect|done].
  - split; [by apply effect_refl|done].
Qed.

(** What [lookup] returns and the entry it returns it for. *)
Inductive lookup_result request now st : result (Lookup H) CacheError -> Prop :=
| lookup_fails e : lookup_result request now st (Err e)
| lookup_bypasses s : lookup_result request now st (Ok (Bypass s))
| lookup_misses s o b : lookup_result request now st (Ok (Miss s o b))
| lookup_finds policy base key stored l counter :
    RequestPolicy_evaluate (rk_method request) (rk_headers request) = Ok policy ->
    mode policy <> BypassMode ->
    BaseKey_new request (max_key_bytes config) = Ok base ->
    answers st base (rk_headers request) (contains_key (rk_headers request) AUTHORIZATION) key stored ->
    is_expired key now st = false ->
    lookup_decision policy (s_entry stored) (entry_age (s_entry stored) now) = (l, counter) ->
    lookup_result request now st (Ok l).

Lemma lookup_spec request now st r st' :
  store_ok config st -> lookup config request now st = (r, st') ->
  effect st st' /\ lookup_result request now st r.
Proof.
  intros Hok. pose proof (effect_refl st Hok) as Hr. unfold lookup.
  case_match; [intros [= <- <-]; split; [by apply effect_count|constructor]|].
  destruct (RequestPolicy_evaluate _ _) as [policy|e] eqn:Ep; cbn [map_err];
    [|intros [= <- <-]; split; [done|constructor]].
  case_bool_decide as Hm; [intros [= <- <-]; split; [by apply effect_count|constructor]|].
  destruct (BaseKey_new _ _) as [base|e] eqn:Eb; cbn [map_err]; [|intros [= <- <-]; split; [done|constructor]].
  pose proof (matching_key_spec st base (rk_headers request)
    (contains_key (rk_headers request) AUTHORIZATION)) as Hk.
  destruct (matching_key _ _ _ _ _) as [key|];
    [|intros [= <- <-]; split; [by apply effect_count|constructor]].
  destruct Hk as [stored Ha]. pose proof Ha as [Hst _].
  destruct (remove_expired_entry key now st) as [expired st1] eqn:Ee.
  pose proof (remove_expired_effect key now st Hok) as He. rewrite Ee in He. destruct He as [He1 He2].
  destruct expired; [unfold cache_miss; intros [= <- <-]; split; [by apply effect_count|constructor]|].
  rewrite He2 in * by done. destruct (next_sequence st) as [n st2] eqn:En.
  pose proof (next_sequence_lookup _ _ _ key Hok En) as Hl. rewrite Hst in Hl.
  destruct (entries st2 !! key) as [s2|] eqn:Es; [|done]. injection Hl as Hl.
  destruct (lookup_decision _ _ _) as [l counter] eqn:El. intros [= <- <-]. split.
  - apply effect_count. by eapply touch_effect.
  - eapply (lookup_finds _ _ _ policy base key stored); try done; [by injection Ee|]. rewrite <- Hl. exact El.
Qed.
End Operations.

(** ** Runs *)

Section Runs.
Context {H : Type} `{!HeaderMap H, text : !HttpText, !HttpTextLaws}.
Context (identity : CacheIdentity) (config : CacheConfig).
Implicit Types st : State H.

(** The operations that change the state, one step each. *)
Inductive CacheOp :=
| OpPrepare (request : RequestKeyInput H) (response : CacheResponse H) (timeline : option CacheTimeline)
| OpLookup (request : RequestKeyInput H) (now : MonoTime)
| OpStaleIfError (key : CacheKey) (now : MonoTime)
| OpRestore (entry : PreparedEntry H)
| OpBeginFill (base : BaseKey)
| OpStore (alive : bool) (guard : FillGuard) (entry : PreparedEntry H)
| OpComplete (alive : bool) (guard : FillGuard)
| OpDrop (alive : bool) (guard : FillGuard)
| OpPurgeExact (key : CacheKey)
| OpPurgeBase (base : BaseKey)
| OpPurgeTag (tag : bytes)
| OpRemove (key : CacheKey)
| OpCancelAll.

Definition cache_apply (op : CacheOp) st : State H :=
  match op with
  | OpPrepare request response timeline => (prepare_counted identity config request response timeline st).2
  | OpLookup request now => (lookup config request now st).2
  | OpStaleIfError key now => (cache_stale_if_error key now st).2
  | OpRestore entry => (restore identity config entry st).2
  | OpBeginFill base => (begin_fill identity config base st).2
  | OpStore alive guard entry => (store config alive guard entry st).2
  | OpComplete alive guard => (complete_without_store alive guard st).2
  | OpDrop alive guard => drop_guard alive guard st
  | OpPurgeExact key => (purge_exact key st).2
  | OpPurgeBase base => (purge_base base st).2
  | OpPurgeTag tag => (purge_tag config tag st).2
  | OpRemove key => (remove_without_cancelling_fill key st).2
  | OpCancelAll => cancel_all_fills st
  end.

Definition cache_run (ops : list CacheOp) st : State H := foldl (fun st op => cache_apply op st) st ops.

(** Entries come with a charge within the total bound, as [prepare] makes them. *)
Definition op_ok (op : CacheOp) : Prop :=
  match op with
  | OpRestore entry | OpStore _ _ entry => 0 <= e_charge entry <= max_total_bytes config
  | _ => True
  end.

Definition cache_ok st : Prop := store_ok config st /\ fill_ok config (fills_of st).

(** ** Each operation has an effect the protocol allows *)

Context (Hconfig : config_ok config).

Lemma purge_keys_effect cancel keys r st :
  store_ok config st -> effect config st (purge_keys cancel keys r st).2.
Proof.
  revert r st. induction keys as [|key keys IH]; intros r st Hok; [by apply effect_refl|]. simpl.
  pose proof (remove_entry_effect config key st Hok) as He1.
  destruct (remove_entry key st) as [o st1]. simpl in He1. destruct cancel.
  - pose proof (cancel_flight_effect config (ck_base key) Purged st1 (proj1 He1) ltac:(done)) as He2.
    destruct (cancel_flight _ _ st1) as [c st2]. simpl in He2.
    eapply effect_trans; [exact He1|]. eapply effect_trans; [exact He2|]. apply IH, He2.
  - eapply effect_trans; [exact He1|]. apply IH, He1.
Qed.

Lemma begin_fill_effect base st : store_ok config st -> effect config st (begin_fill identity config base st).2.
Proof.
  intros Hok. unfold begin_fill. case_match; [by apply effect_refl|].
  destruct (flights st !! base) as [f|] eqn:E.
  - destruct (Z.leb_spec (max_followers_per_fill config) (followers f)); [by apply effect_refl|].
    split; [done|]. apply rtc_once. by constructor.
  - destruct (Z.leb_spec (max_in_flight config) (Z.of_nat (size (flights st)))); [by apply effect_refl|].
    split; [done|]. apply rtc_once. by constructor.
Qed.

Lemma drop_guard_effect alive guard st : store_ok config st -> effect config st (drop_guard alive guard st).
Proof.
  intros Hok. unfold drop_guard. case_match; [by apply effect_refl|]. case_match; [|by apply effect_refl].
  destruct (flights st !! g_base guard) eqn:E; apply effect_count; [by apply end_fill_effect|by apply effect_refl].
Qed.

Lemma finish_effect alive guard o st :
  store_ok config st -> o <> Filling -> effect config st (finish alive guard o st).2.
Proof.
  intros Hok Ho. unfold finish. repeat (case_match; [by apply effect_refl|]).
  destruct (flights st !! g_base guard) eqn:E; [by apply end_fill_effect|by apply effect_refl].
Qed.

Lemma generation_matches_Some st base g :
  generation_matches st base g = true <-> exists f, flights st !! base = Some f /\ f_generation f = g.
Proof.
  unfold generation_matches. destruct (flights st !! base) as [f|]; [|naive_solver].
  rewrite Z.eqb_eq. naive_solver.
Qed.

Lemma store_claimed_effect alive guard entry st :
  0 <= e_charge entry <= max_total_bytes config -> store_ok config st ->
  effect config st (store_claimed config alive guard entry st).2.
Proof.
  intros Hch Hok. unfold store_claimed. case_match; [by apply effect_refl|].
  destruct (generation_matches st _ _) eqn:Eg; simpl; [|by apply effect_refl].
  apply generation_matches_Some in Eg as (f & Hf & _). rewrite Hf.
  set (st1 := set_flights _ st). assert (store_ok config st1) as Hok1 by done.
  destruct (insert_entry config entry st1) as [d st2] eqn:Ei.
  pose proof (insert_entry_spec config entry st1 d st2 Hconfig Hch Hok1 Ei) as (Hok2 & sa & sb & Hi).
  split; [done|]. apply rtc_once. unfold fills_of; simpl.
  rewrite (ins_flights _ _ _ _ _ _ _ Hi), (ins_fills _ _ _ _ _ _ _ Hi), (ins_signals _ _ _ _ _ _ _ Hi). simpl.
  by constructor.
Qed.

Lemma store_effect alive guard entry st :
  0 <= e_charge entry <= max_total_bytes config -> store_ok config st ->
  effect config st (store config alive guard entry st).2.
Proof.
  intros Hch Hok. unfold store, claim. destruct (negb _); [by apply drop_guard_effect|].
  case_bool_decide; [by apply drop_guard_effect|].
  pose proof (store_claimed_effect alive guard entry st Hch Hok) as He.
  by destruct (store_claimed config alive guard entry st) as [[d|] st'].
Qed.

Lemma foldl_send l st :
  foldl (fun st p => send (f_generation p.2) Cancelled st) st l =
  mkState (entries st) (flights st) (bytes_used st) (sequence st) (stats st) (fills st)
    (foldl (fun sg (p : BaseKey * Flight) => <[f_generation p.2 := Cancelled]> sg) (signals st) l).
Proof. revert st; induction l as [|p l IH]; intros st; simpl; [by destruct st|]. by rewrite IH. Qed.

Lemma cancel_list (l : list (BaseKey * Flight)) n sg :
  NoDup l.*1 ->
  rtc (fill_step config) (list_to_map l, n, sg)
    (∅, n, foldl (fun sg (p : BaseKey * Flight) => <[f_generation p.2 := Cancelled]> sg) sg l).
Proof.
  revert sg; induction l as [|[b f] l IH]; intros sg Hnd; simpl; [done|].
  apply NoDup_cons in Hnd as [Hb Hnd].
  eapply rtc_l; [apply (fill_ends _ _ _ _ b f Cancelled); [by rewrite lookup_insert_eq|done]|].
  rewrite delete_insert_id by by apply not_elem_of_list_to_map_1. by apply IH.
Qed.

Lemma cancel_all_effect st : store_ok config st -> effect config st (cancel_all_fills st).
Proof.
  intros Hok. unfold cancel_all_fills. rewrite foldl_send. split; [done|]. unfold fills_of; simpl.
  pose proof (cancel_list (map_to_list (flights st)) (fills st) (signals st)
    (NoDup_fst_map_to_list _)) as Hc. by rewrite list_to_map_to_list in Hc.
Qed.

Lemma purge_exact_effect st key : store_ok config st -> effect config st (purge_exact key st).2.
Proof.
  intros Hok. unfold purge_exact. pose proof (remove_entry_effect config key st Hok) as He.
  destruct (remove_entry key st) as [o st1]. simpl in He. destruct (match o with Some _ => _ | None => _ end).
  pose proof (cancel_flight_effect config (ck_base key) Purged st1 (proj1 He) ltac:(done)) as He2.
  destruct (cancel_flight _ _ st1) as [c st2]. simpl in *. apply effect_count. by eapply effect_trans.
Qed.

Lemma purge_base_effect st base : store_ok config st -> effect config st (purge_base base st).2.
Proof.
  intros Hok. unfold purge_base. set (keys := filter _ _).
  pose proof (purge_keys_effect false keys (mkPurge 0 0 0) st Hok) as He.
  destruct (purge_keys _ _ _ st) as [r st1]. simpl in He.
  pose proof (cancel_flight_effect config base Purged st1 (proj1 He) ltac:(done)) as He2.
  destruct (cancel_flight _ _ st1) as [c st2]. simpl in *. apply effect_count. by eapply effect_trans.
Qed.

Lemma purge_tag_effect st tag : store_ok config st -> effect config st (purge_tag config tag st).2.
Proof.
  intros Hok. unfold purge_tag. case_match; [|by apply effect_refl]. set (keys := fmap _ _).
  pose proof (purge_keys_effect true keys (mkPurge 0 0 0) st Hok) as He.
  by destruct (purge_keys _ _ _ st) as [r st1].
Qed.

Lemma cache_apply_effect op st : op_ok op -> store_ok config st -> effect config st (cache_apply op st).
Proof.
  intros Ho Hok. destruct op; simpl.
  - unfold prepare_counted. simpl. case_match; [|apply effect_count]; by apply effect_refl.
  - destruct (lookup config request now st) as [r st'] eqn:E. by apply lookup_spec in E as [? _].
  - by apply stale_if_error_effect.
  - by apply insert_entry_effect.
  - by apply begin_fill_effect.
  - by apply store_effect.
  - by apply finish_effect.
  - by apply drop_guard_effect.
  - by apply purge_exact_effect.
  - by apply purge_base_effect.
  - by apply purge_tag_effect.
  - unfold remove_without_cancelling_fill. pose proof (remove_entry_effect config key st Hok) as He.
    by destruct (remove_entry key st).
  - by apply cancel_all_effect.
Qed.

Lemma cache_run_effect ops st : Forall op_ok ops -> store_ok config st -> effect config st (cache_run ops st).
Proof.
  intros Ho. revert st; induction Ho as [|op ops Hop _ IH]; intros st Hok; [by apply effect_refl|].
  pose proof (cache_apply_effect op st Hop Hok) as He. eapply effect_trans; [exact He|]. apply IH, He.
Qed.

Lemma cache_run_ok ops st : Forall op_ok ops -> cache_ok st -> cache_ok (cache_run ops st).
Proof.
  intros Ho [Hs Hf]. destruct (cache_run_effect ops st Ho Hs) as [Hs' Hst]. split; [done|].
  eapply fill_steps_ok; [apply Hconfig|exact Hf|done].
Qed.

Lemma State_new_ok : cache_ok State_new.
Proof.
  destruct Hconfig. split.
  - split; [|simpl; rewrite map_size_empty; unfold u64_max; lia].
    split; simpl; try done; intros; by rewrite ?lookup_empty in *.
  - split; simpl; intros; rewrite ?lookup_empty, ?map_size_empty in *; done || lia.
Qed.
End Runs.

(** ** Properties *)

Section CacheProperties.
Context {H : Type} `{!HeaderMap H, text : !HttpText, !HttpTextLaws}.
Context (identity : CacheIdentity) (config : CacheConfig).
Implicit Types st : State H.

Lemma validated_config_ok :
  validate_config config = Ok tt -> max_entries config < u64_max -> max_total_bytes config < usize_max ->
  config_ok config.
Proof.
  unfold validate_config. intros Hv He Ht. case_match eqn:E; [done|]. bool_inv. split; lia.
Qed.

(** C5: whatever operations a validated cache receives, in any interleaving, its
    entries and bytes stay within the configured bounds, the bytes accounted are
    the sum of the charges, every entry is filed under its key, no two were used
    at the same time, the representations of one request vary on the same fields,
    the fills in progress are bounded and distinct, and exactly their channels
    are still open. *)
Theorem cache_invariant ops :
  validate_config config = Ok tt -> max_entries config < u64_max -> max_total_bytes config < usize_max ->
  Forall (op_ok (H:=H) config) ops ->
  cache_ok config (cache_run identity config ops State_new).
Proof.
  intros Hv He Ht Ho. assert (config_ok config) as Hc by by apply validated_config_ok.
  apply cache_run_ok; [done|done|]. by apply State_new_ok.
Qed.

(** C22: storing an entry makes it the most recently used one and removes what it
    replaces or conflicts with; of the others only the least recently used are
    evicted, as many as needed and no more: the most recently used of those that
    were evicted would not fit back in.  Those that stay keep their content. *)
Theorem cache_evicts_lru entry st delta st' :
  config_ok config -> store_ok config st -> 0 <= e_charge entry <= max_total_bytes config ->
  insert_entry config entry st = (delta, st') ->
  let key := e_key entry in
  let other k := k <> key /\ ~ conflicts key k in
  entries st' !! key = Some (mkStored entry (sequence st')) /\
  (forall k s, k <> key -> entries st' !! k = Some s ->
     other k /\ last_access s < sequence st' /\ s_entry <$> entries st !! k = Some (s_entry s)) /\
  (forall k s k' s', other k -> other k' -> entries st !! k = Some s -> entries st !! k' = Some s' ->
     entries st' !! k = None -> is_Some (entries st' !! k') -> last_access s < last_access s') /\
  (0 < evicted delta ->
   exists k s, other k /\ entries st !! k = Some s /\ entries st' !! k = None /\
     (forall k' s', other k' -> entries st !! k' = Some s' -> entries st' !! k' = None -> last_access s' <= last_access s) /\
     (max_entries config < Z.of_nat (size (entries st')) + 1 \/
      max_total_bytes config < bytes_used st' + charge_of s)).
Proof.
  intros Hc Hok Hch E key other.
  pose proof (insert_entry_spec config entry st delta st' Hc Hch Hok E) as (Hok' & st1 & st2 & Hi).
  assert (forall k, k <> key -> s_entry <$> entries st' !! k = s_entry <$> entries st2 !! k) as Hst'.
  { intros k Hne. rewrite <- (so_entry _ _ (ins_order _ _ _ _ _ _ _ Hi) k). by rewrite lookup_delete_ne. }
  assert (forall k, other k -> entries st1 !! k = entries st !! k) as Hst1.
  { intros k [Hne Hcf]. destruct (ins_entries1 _ _ _ _ _ _ _ Hi k) as [|[_ [|]]]; done. }
  assert (forall k s, entries st2 !! k = Some s -> entries st1 !! k = Some s /\ other k) as Hst2.
  { intros k s Hk. assert (entries st1 !! k = Some s) as Hk1
      by (eapply lookup_weaken; [exact Hk|apply (ins_shrinks2 _ _ _ _ _ _ _ Hi)]).
    split; [done|]. split; [intros ->|intros Hcf];
      rewrite (ins_gone _ _ _ _ _ _ _ Hi) in Hk1 by auto; done. }
  assert (forall k, other k -> entries st' !! k = None <-> entries st2 !! k = None) as Hnone.
  { intros k [Hne _]. specialize (Hst' k Hne). split; intros En; rewrite En in Hst'; simpl in Hst';
      [by destruct (entries st2 !! k)|by destruct (entries st' !! k)]. }
  destruct (ins_lru _ _ _ _ _ _ _ Hi) as [Hlt Hnec]. split_and!.
  - apply (ins_new _ _ _ _ _ _ _ Hi).
  - intros k s Hne Hk. specialize (Hst' k Hne). rewrite Hk in Hst'. simpl in Hst'.
    destruct (entries st2 !! k) as [s2|] eqn:E2; [|done]. injection Hst' as Hs.
    destruct (Hst2 _ _ E2) as [Hk1 Ho]. split; [done|].
    split; [by apply (ins_newest _ _ _ _ _ _ _ Hi k)|]. by rewrite <- Hst1, Hk1, Hs.
  - intros k s k' s' Ho Ho' Hk Hk' Hn [s2 Hs]. apply Hnone in Hn; [|done].
    destruct Ho' as [Hne' Hcf']. pose proof (Hst' k' Hne') as E2. rewrite Hs in E2. simpl in E2.
    destruct (entries st2 !! k') as [t|] eqn:Et; [|done]. destruct (Hst2 _ _ Et) as [Ht1 _].
    rewrite Hst1, Hk' in Ht1 by done. injection Ht1 as <-.
    apply (Hlt k s k' s'); [by rewrite Hst1|done|done].
  - intros Hev. rewrite (ins_evicted _ _ _ _ _ _ _ Hi) in Hev.
    destruct Hnec as (k & s & Hk & Hn & Hlast & Hover); [intros Eq; rewrite Eq in Hev; lia|].
    assert (other k) as Ho.
    { split; [intros ->|intros Hcf]; rewrite (ins_gone _ _ _ _ _ _ _ Hi) in Hk by auto; done. }
    exists k, s. split; [done|]. split; [by rewrite <- Hst1|]. split; [by apply Hnone|]. split.
    { intros k' s' Ho' Hk' Hn'. apply (Hlast k' s'); [by rewrite Hst1|by apply Hnone]. }
    rewrite (ins_bytes _ _ _ _ _ _ _ Hi), (ins_size _ _ _ _ _ _ _ Hi). lia.
Qed.

(** What each way of answering from the cache requires. *)
Definition served_fairly (policy : RequestPolicy) (p : ResponsePolicy) (age : Duration) (status : LookupStatus) : Prop :=
  let staleness := dur_sub age (freshness_lifetime p) in
  mode policy <> RevalidateMode /\ always_revalidate p = false /\
  (forall maximum, max_age policy = Some maximum -> age <= maximum) /\
  (must_revalidate_stale p = true -> dur_add age (min_fresh policy) <= freshness_lifetime p) /\
  (min_fresh policy <> 0 -> dur_add age (min_fresh policy) <= freshness_lifetime p) /\
  match status with
  | StHit => dur_add age (min_fresh policy) <= freshness_lifetime p
  | StStale => retention p = Rfc /\
      exists limit, max_stale policy = Some limit /\ forall l, limit = Some l -> staleness <= l
  | StStaleWhileRevalidate => staleness <= stale_while_revalidate p /\ stale_while_revalidate p <> 0
  | _ => False
  end.

Lemma lookup_decision_Hit policy (e : PreparedEntry H) age status response counter :
  lookup_decision policy e age = (Hit status response, counter) ->
  response = response_snapshot e age /\ served_fairly policy (e_policy e) age status.
Proof.
  unfold lookup_decision, served_fairly. set (p := e_policy e).
  set (request_fresh := from_option _ _ (max_age policy)). set (fresh := dur_add _ _ <=? _).
  set (forced := _ || (must_revalidate_stale p && negb fresh)).
  assert (fresh = true <-> dur_add age (min_fresh policy) <= freshness_lifetime p) as Hfresh by apply Z.leb_le.
  assert (forced = false -> mode policy <> RevalidateMode /\ always_revalidate p = false /\
    (forall maximum, max_age policy = Some maximum -> age <= maximum) /\
    (must_revalidate_stale p = true -> dur_add age (min_fresh policy) <= freshness_lifetime p) /\
    (min_fresh policy <> 0 -> dur_add age (min_fresh policy) <= freshness_lifetime p)) as Hforced.
  { unfold forced, request_fresh. intros Hf. repeat (apply orb_false_iff in Hf as [Hf ?]). bool_inv. split_and!; try done.
    - intros m Hm. rewrite Hm in *. simpl in *. by bool_inv.
    - intros Hm. rewrite Hm in *. apply Hfresh. by destruct fresh.
    - intros Hm. apply Z.eqb_neq in Hm. rewrite Hm in *. apply Hfresh. by destruct fresh. }
  clearbody forced. destruct forced; rewrite ?andb_false_r; simpl.
  - by repeat case_match.
  - destruct (Hforced eq_refl) as (? & ? & ? & ? & ?). destruct (fresh && request_fresh) eqn:Ef; simpl.
    + intros [= <- <- _]. apply andb_true_iff in Ef as [Ef%Hfresh _]. done.
    + case_match eqn:Es; [|case_match eqn:Ew].
      * intros [= <- <- _]. bool_inv. split; [done|]. split_and!; try done.
        -- by destruct (retention p).
        -- destruct (max_stale policy) as [limit|]; [|done]. exists limit. split; [done|]. intros l ->.
           simpl in *. by bool_inv.
      * intros [= <- <- _]. bool_inv. split; [done|]. split_and!; done || lia.
      * intros [=].
Qed.

(** C13: an answer from the cache is the stored response of an entry selected by
    the request, with its age; it is never given to a request that demands
    revalidation or fresher content, never from an entry that must be
    revalidated now or is past its retention, never to an authorised request
    unless the response allowed it, and a stale one only within what the request
    or the response permits. *)
Theorem cache_hit_safe request now st status response st' :
  config_ok config -> cache_ok config st ->
  lookup config request now st = (Ok (Hit status response), st') ->
  exists policy base key stored,
    RequestPolicy_evaluate (rk_method request) (rk_headers request) = Ok policy /\
    mode policy <> BypassMode /\
    BaseKey_new request (max_key_bytes config) = Ok base /\
    entries st !! key = Some stored /\
    matches_request key base (rk_headers request) (max_key_bytes config) = true /\
    (contains_key (rk_headers request) AUTHORIZATION = true ->
     allows_authorized_reuse (e_policy (s_entry stored)) = true) /\
    is_expired key now st = false /\
    response = response_snapshot (s_entry stored) (entry_age (s_entry stored) now) /\
    served_fairly policy (e_policy (s_entry stored)) (entry_age (s_entry stored) now) status.
Proof.
  intros Hc [Hok _] E. apply lookup_spec in E as [_ Hr]; [|done..].
  inversion Hr as [| | |policy base key stored l counter Hp Hm Hb Ha Hx Hd]; subst.
  apply lookup_decision_Hit in Hd as [Hresp Hs]. destruct Ha as (Hk & Hma & Hau).
  exists policy, base, key, stored. split_and!; try done; apply Hs.
Qed.

(** ** Fills *)

Lemma begin_fill_Leader base st guard st1 :
  begin_fill identity config base st = (Ok (Leader guard), st1) ->
  guard = mkGuard identity base (fills st) true /\ flights st !! base = None /\
  flights st1 = <[base := mkFlight (fills st) 0]> (flights st) /\ fills st1 = fills st + 1.
Proof.
  unfold begin_fill. case_match; [done|]. destruct (flights st !! base) as [f|]; case_match; try done.
  by intros [= <- <-].
Qed.

(** The operations that end the fill of a request from outside; a tag ends it when
    a variant of the request that has the tag is in the cache. *)
Definition purges (base : BaseKey) st (op : CacheOp (H:=H)) : Prop :=
  match op with
  | OpPurgeExact key => ck_base key = base
  | OpPurgeBase b => b = base
  | OpPurgeTag tag =>
      validate_tag tag (max_tag_bytes config) = Ok tt /\
      exists key stored, entries st !! key = Some stored /\ ck_base key = base /\
        existsb (fun t => beqb t tag) (e_tags (s_entry stored)) = true
  | OpCancelAll => True
  | _ => False
  end.

Lemma cancel_flight_gone base o st : flights (cancel_flight base o st).2 !! base = None.
Proof.
  unfold cancel_flight. destruct (flights st !! base) as [f|] eqn:E; simpl; [apply lookup_delete_eq|done].
Qed.

Lemma cancel_flight_stays base base' o st : flights st !! base = None -> flights (cancel_flight base' o st).2 !! base = None.
Proof.
  intros Hb. unfold cancel_flight. destruct (flights st !! base') as [f|] eqn:E; simpl; [|done].
  destruct (decide (base' = base)) as [->|Hne]; [apply lookup_delete_eq|by rewrite lookup_delete_ne].
Qed.

Lemma remove_entry_flights key st : flights (remove_entry key st).2 = flights st.
Proof. unfold remove_entry. by destruct (entries st !! key). Qed.

Lemma purge_keys_gone base keys r st :
  flights st !! base = None \/ base ∈ (ck_base <$> keys) -> flights (purge_keys true keys r st).2 !! base = None.
Proof.
  revert r st. induction keys as [|key keys IH]; intros r st Hb.
  { destruct Hb as [Hb|Hb]; [done|by apply elem_of_nil in Hb]. }
  simpl. pose proof (remove_entry_flights key st) as Hr. destruct (remove_entry key st) as [old st1]. simpl in Hr.
  pose proof (cancel_flight_gone (ck_base key) Purged st1) as Hg.
  pose proof (cancel_flight_stays base (ck_base key) Purged st1) as Hs.
  destruct (cancel_flight (ck_base key) Purged st1) as [c st2]. simpl in Hg, Hs. apply IH.
  destruct Hb as [Hb|Hb]; [left; apply Hs; by rewrite Hr|]. rewrite fmap_cons in Hb.
  apply elem_of_cons in Hb as [->|Hb]; [by left|by right].
Qed.

Lemma purges_gone base op st : purges base st op -> flights (cache_apply identity config op st) !! base = None.
Proof.
  destruct op; simpl; try done.
  - intros <-. unfold purge_exact. destruct (remove_entry key st) as [o st1].
    destruct (match o with Some _ => _ | None => _ end). pose proof (cancel_flight_gone (ck_base key) Purged st1).
    by destruct (cancel_flight _ _ st1).
  - intros <-. unfold purge_base. destruct (purge_keys _ _ _ st) as [r st1].
    pose proof (cancel_flight_gone base0 Purged st1). by destruct (cancel_flight _ _ st1).
  - intros (Hv & key & stored & Hk & <- & Ht). unfold purge_tag. rewrite Hv.
    match goal with |- context [purge_keys true ?ks ?r st] => set (keys := ks); set (r0 := r) end.
    assert (flights (purge_keys true keys r0 st).2 !! ck_base key = None) as Hgone.
    { apply purge_keys_gone. right. apply list_elem_of_fmap. exists key. split; [done|].
      unfold keys. apply list_elem_of_fmap. exists (key, stored). split; [done|].
      apply list_elem_of_filter. split; [done|]. by apply elem_of_map_to_list. }
    by destruct (purge_keys true keys r0 st) as [result st1].
Qed.

(** C21: a fill that was purged (by key, by request or by a tag) or cancelled never publishes its response: whatever
    happened before and after, storing through its guard reports that the
    generation is lost and leaves the cache as it is, also when another fill of
    the same request was started since. *)
Theorem cache_purged_fill_lost base st guard st1 ops1 op ops2 alive entry :
  config_ok config -> cache_ok config st ->
  begin_fill identity config base st = (Ok (Leader guard), st1) ->
  Forall (op_ok config) (ops1 ++ op :: ops2) -> purges base (cache_run identity config ops1 st1) op ->
  claim guard entry = Ok entry ->
  let st2 := cache_run identity config (ops1 ++ op :: ops2) st1 in
  store config alive guard entry st2 = (Ok GenerationLost, st2).
Proof.
  intros Hc [Hok Hf] Hb Ho Hp Hcl st2.
  pose proof (begin_fill_effect identity config base st Hok) as He1. rewrite Hb in He1. simpl in He1.
  apply begin_fill_Leader in Hb as (-> & _ & Hfl & Hfi). destruct (proj1 (Forall_app _ _ _) Ho) as [Ho1 Ho2].
  apply Forall_cons in Ho2 as [Hop Ho2].
  pose proof (cache_run_effect identity config Hc ops1 st1 Ho1 (proj1 He1)) as He2.
  set (sta := cache_run identity config ops1 st1) in *.
  pose proof (cache_apply_effect identity config Hc op sta Hop (proj1 He2)) as He3.
  pose proof (cache_run_effect identity config Hc ops2 _ Ho2 (proj1 He3)) as He4.
  set (stb := cache_apply identity config op sta) in *.
  assert (fills st < fills stb) as Hlt.
  { assert (forall p p', rtc (fill_step config) p p' -> p.1.2 <= p'.1.2) as Hmono.
    { induction 1 as [|p1 p2 p3 Hs _ IH]; [lia|]. destruct Hs; simpl in *; lia. }
    pose proof (Hmono _ _ (proj2 He2)). pose proof (Hmono _ _ (proj2 He3)). simpl in *. lia. }
  assert (~ current (fills_of stb) base (fills st)) as Hnc.
  { intros (f & Hf' & _). simpl in Hf'. unfold stb in Hf'. by rewrite purges_gone in Hf'. }
  assert (st2 = cache_run identity config ops2 stb) as Est2.
  { unfold st2, cache_run. rewrite foldl_app. done. }
  rewrite <- Est2 in He4. apply (fill_steps_over _ _ _ _ _ (proj2 He4) Hlt) in Hnc.
  unfold store. rewrite Hcl. unfold store_claimed. destruct alive; [|done]. simpl.
  destruct (generation_matches st2 base (fills st)) eqn:Eg; [|done].
  destruct Hnc. by apply generation_matches_Some in Eg.
Qed.

(** No follower waits for ever: the channel of a fill that was started is
    without an outcome exactly while that fill is in progress, and an outcome once
    given is what every later wait returns. *)
Theorem cache_followers_released ops st g :
  config_ok config -> cache_ok config st -> Forall (op_ok config) ops -> 0 <= g < fills st ->
  (wait (mkWaiter g) st = None <-> exists base, generation_matches st base g = true) /\
  (forall o, wait (mkWaiter g) st = Some o -> wait (mkWaiter g) (cache_run identity config ops st) = Some o).
Proof.
  intros Hc [Hok Hf] Ho Hg.
  assert (forall st' o, wait (mkWaiter g) st' = Some o <-> signals st' !! g = Some o /\ o <> Filling) as Hw.
  { intros st' o. unfold wait; simpl. destruct (signals st' !! g) as [[]|]; naive_solver. }
  destruct (fo_started _ _ Hf g Hg) as [o Hs]. simpl in Hs. split.
  - split.
    + intros Hn. destruct (decide (o = Filling)) as [->|Hne]; [|by rewrite (proj2 (Hw st o)) in Hn].
      destruct (fo_signal _ _ Hf _ _ Hs) as [_ Hfl]. destruct (Hfl eq_refl) as (b & f & Hb & <-). exists b.
      apply generation_matches_Some. eauto.
    + intros [b (f & Hb & <-)%generation_matches_Some]. destruct (fo_flight _ _ Hf _ _ Hb) as (_ & _ & Hfl).
      unfold wait; simpl in *. by rewrite Hfl.
  - intros o' [Hs' Hne]%Hw. apply Hw. split; [|done].
    destruct (cache_run_effect identity config Hc ops st Ho Hok) as [_ Hst].
    apply (fill_steps_outcome config _ _ g o' (cfg_followers _ Hc) Hf Hst); done.
Qed.

(** ** Storing and finding *)

Lemma matches_request_key k base (h : H) mb :
  matches_request k base h mb = true ->
  k = mkCacheKey base (map (vary_value h) (map vv_name (ck_vary k))).
Proof.
  unfold matches_request. case_bool_decide; [done|]. destruct (CacheKey_new _ _ _ _) as [k'|] eqn:E; [|done].
  intros ->%bool_decide_eq_true. by apply CacheKey_new_Ok in E as [? _].
Qed.

(** Entries of one request that vary on the same fields are told apart by them. *)
Lemma answers_unique st base h authorized key key' stored stored' :
  store_ok config st -> answers config st base h authorized key stored ->
  answers config st base h authorized key' stored' -> key = key' /\ stored = stored'.
Proof.
  intros [Hok _] (Hk & Hm & _) (Hk' & Hm' & _).
  apply matches_request_key in Hm as E, Hm' as E'.
  assert (same_vary_schema key key' = true) as Hs%same_vary_schema_names.
  { apply (eo_schema _ _ _ Hok _ _ _ _ Hk Hk'). by rewrite E, E'. }
  assert (key = key') as ->; [by rewrite E, E', Hs|]. by rewrite Hk in Hk'; injection Hk' as ->.
Qed.

(** A request that is content with a fresh entry of the given policy and age. *)
Definition satisfied_by (request : RequestKeyInput H) (base : BaseKey) (p : ResponsePolicy) (age : Duration) : Prop :=
  is_ok (check_header_bounds (rk_headers request) config) = true /\
  BaseKey_new request (max_key_bytes config) = Ok base /\
  (contains_key (rk_headers request) AUTHORIZATION = true -> allows_authorized_reuse p = true) /\
  always_revalidate p = false /\
  exists policy, RequestPolicy_evaluate (rk_method request) (rk_headers request) = Ok policy /\
    mode policy = LookupMode /\ (forall maximum, max_age policy = Some maximum -> age <= maximum) /\
    dur_add age (min_fresh policy) <= freshness_lifetime p.

Lemma lookup_decision_fresh policy (e : PreparedEntry H) age :
  mode policy = LookupMode -> always_revalidate (e_policy e) = false ->
  (forall maximum, max_age policy = Some maximum -> age <= maximum) ->
  dur_add age (min_fresh policy) <= freshness_lifetime (e_policy e) ->
  lookup_decision policy e age = (Hit StHit (response_snapshot e age), C_hits).
Proof.
  intros Hm Ha Hx Hf. unfold lookup_decision.
  assert (from_option (fun maximum => age <=? maximum) true (max_age policy) = true) as ->.
  { destruct (max_age policy) as [m|]; simpl; [|done]. apply Z.leb_le. by apply Hx. }
  apply Z.leb_le in Hf. rewrite Hf, Ha, Hm. simpl. by rewrite !andb_false_r.
Qed.

Lemma lookup_answer request base now st key stored :
  config_ok config -> store_ok config st -> is_expired key now st = false ->
  satisfied_by request base (e_policy (s_entry stored)) (entry_age (s_entry stored) now) ->
  entries st !! key = Some stored ->
  matches_request key base (rk_headers request) (max_key_bytes config) = true ->
  (lookup config request now st).1
  = Ok (Hit StHit (response_snapshot (s_entry stored) (entry_age (s_entry stored) now))).
Proof.
  intros Hc Hok Hx (Hhb & Hb & Hau & Har & policy & Hp & Hm & Hma & Hfr) Hk Hmr. unfold lookup.
  rewrite Hhb, Hp, Hb. cbn [negb map_err]. rewrite bool_decide_eq_false_2 by (rewrite Hm; done).
  set (authorized := contains_key _ _) in *.
  assert (answers config st base (rk_headers request) authorized key stored) as Ha by done.
  pose proof (matching_key_spec config Hc st base (rk_headers request) authorized) as Hs.
  destruct (matching_key _ _ _ _ _) as [key'|]; [|by apply Hs in Ha]. destruct Hs as [stored' Ha'].
  destruct (answers_unique st base _ authorized key key' stored stored' Hok Ha Ha') as [<- <-].
  unfold remove_expired_entry. rewrite Hx. destruct (next_sequence st) as [n st2] eqn:En.
  pose proof (next_sequence_lookup config Hc st n st2 key Hok En) as Hl. rewrite Hk in Hl.
  destruct (entries st2 !! key) as [s2|]; [|done]. injection Hl as Hl. rewrite Hl.
  by rewrite lookup_decision_fresh.
Qed.

Lemma prepare_inner_charge request response timeline entry :
  prepare_inner identity config request response timeline = Ok entry ->
  e_charge entry <= max_total_bytes config /\ e_identity entry = identity /\
  (exists base names, BaseKey_new request (max_key_bytes config) = Ok base /\
     CacheKey_new base (rk_headers request) (Names names) (max_key_bytes config) = Ok (e_key entry)) /\
  object_charge (e_key entry) (e_headers entry) (len (e_body entry)) (e_tags entry) = Some (e_charge entry).
Proof.
  unfold prepare_inner. intros E. destruct (negb _); [done|]. destruct (_ <? _); [done|]. res_inv.
  destruct (_ <? _); [done|]. res_inv.
  match goal with x : ResponsePolicy * Vary * Validators |- _ => destruct x as [[policy vary] validators] end.
  res_inv. destruct (_ || _) eqn:Eb; [done|]. injection E as <-. simpl.
  bool_inv. split; [lia|]. split; [done|]. split; [|done].
  destruct vary as [|names]; [by unfold CacheKey_new in *|]. eauto.
Qed.

Lemma fold_charge {A} (f : A -> Z -> option Z) (l : list A) c0 c :
  (forall a x y, f a x = Some y -> x <= y) ->
  foldl (fun acc a => acc ≫= f a) (Some c0) l = Some c -> c0 <= c.
Proof.
  intros Hf. revert c. induction l as [|a l IH] using rev_ind; intros c; simpl; [intros [= <-]; lia|].
  rewrite foldl_app. simpl. destruct (foldl _ _ l) as [d|]; [|done]. simpl. intros E%Hf.
  specialize (IH _ eq_refl). lia.
Qed.

Lemma CacheKey_encoded_len_nonneg k : 0 <= CacheKey_encoded_len k.
Proof.
  unfold CacheKey_encoded_len. assert (0 <= BaseKey_encoded_len (ck_base k)) as Hb.
  { unfold BaseKey_encoded_len. pose proof (fun s : bytes => len_nonneg s).
    destruct (bk_query (ck_base k)) as [q|]; simpl; [pose proof (len_nonneg q)|];
      pose proof (len_nonneg (bk_method (ck_base k))); pose proof (len_nonneg (bk_scheme (ck_base k)));
      pose proof (len_nonneg (bk_authority (ck_base k))); pose proof (len_nonneg (bk_path (ck_base k))); lia. }
  revert Hb. generalize (BaseKey_encoded_len (ck_base k)). induction (ck_vary k) as [|v l IH]; intros z Hz; [done|].
  simpl. apply IH. unfold saturating_add, usize_max, u64_max.
  pose proof (len_nonneg (vv_name v)). pose proof (len_nonneg (vv_value v)). lia.
Qed.

Lemma charge_field_le p x y : charge_field p x = Some y -> x <= y.
Proof.
  unfold charge_field. pose proof (len_nonneg p.1). pose proof (len_nonneg p.2).
  destruct (checked_add _ x _) as [a|] eqn:Ea; simpl; [|done].
  destruct (checked_add _ a _) as [b|] eqn:Eb; simpl; [|done]. intros Ec.
  apply checked_add_Some in Ea, Eb, Ec. unfold HEADER_ACCOUNTING_OVERHEAD in *. lia.
Qed.

Lemma charge_tag_le t x y : charge_tag t x = Some y -> x <= y.
Proof.
  unfold charge_tag. pose proof (len_nonneg t).
  destruct (checked_add _ x _) as [a|] eqn:Ea; simpl; [|done]. intros Eb.
  apply checked_add_Some in Ea, Eb. unfold TAG_ACCOUNTING_OVERHEAD in *. lia.
Qed.

Lemma object_charge_nonneg key (headers : H) n tags c :
  0 <= n -> object_charge key headers n tags = Some c -> 0 <= c.
Proof.
  unfold object_charge. intros Hn E. pose proof (CacheKey_encoded_len_nonneg key).
  destruct (checked_add _ ENTRY_ACCOUNTING_OVERHEAD _) as [c1|] eqn:E1; simpl in E; [|done].
  destruct (foldl _ (Some c1) (header_iter headers)) as [c2|] eqn:E2; simpl in E; [|done].
  destruct (checked_add usize_max c2 n) as [c3|] eqn:E3; simpl in E; [|done].
  apply (fold_charge charge_field) in E2; [|apply charge_field_le].
  apply (fold_charge charge_tag) in E; [|apply charge_tag_le].
  unfold ENTRY_ACCOUNTING_OVERHEAD in *. res_inv. lia.
Qed.

(** Storing through the guard of a fill that is current puts the entry into the
    cache. *)
Lemma store_current guard entry st :
  config_ok config -> 0 <= e_charge entry <= max_total_bytes config -> store_ok config st ->
  claim guard entry = Ok entry -> is_current true guard st = true ->
  exists evicted st', store config true guard entry st = (Ok (StoredOutcome evicted), st') /\
    exists n, entries st' !! e_key entry = Some (mkStored entry n).
Proof.
  intros Hc Hch Hok Hcl Hg. unfold store. rewrite Hcl. unfold store_claimed. cbn [negb].
  unfold is_current in Hg. cbn [andb] in Hg. rewrite Hg. cbn [negb].
  apply generation_matches_Some in Hg as (f & Hf & _). rewrite Hf.
  set (st1 := set_flights _ st). destruct (insert_entry config entry st1) as [delta st3] eqn:Ei.
  pose proof (insert_entry_spec config entry st1 delta st3 Hc Hch Hok Ei) as (_ & sa & sb & Hi).
  pose proof (ins_new _ _ _ _ _ _ _ Hi) as Hnew. eexists _, _. split; [done|]. exists (sequence st3). exact Hnew.
Qed.

(** C11: the fill cycle works: when the leader of a fill prepares a response and
    stores it while its fill is still current, whatever else was done with the
    cache in between, the store succeeds; and from then on, as long as that entry
    is in the cache, whatever else is done with it, every request the stored key
    selects and that is content with its freshness is answered with exactly that
    response from the cache, with its age. *)
Theorem cache_fill_then_hit base st guard st1 ops request response timeline entry now request' :
  config_ok config -> cache_ok config st ->
  begin_fill identity config base st = (Ok (Leader guard), st1) ->
  BaseKey_new request (max_key_bytes config) = Ok base ->
  prepare_inner identity config request response timeline = Ok entry ->
  Forall (op_ok config) ops ->
  let st2 := cache_run identity config ops st1 in
  is_current true guard st2 = true ->
  let age := entry_age entry now in
  satisfied_by request' base (e_policy entry) age ->
  matches_request (e_key entry) base (rk_headers request') (max_key_bytes config) = true ->
  from_option (fun keep => age <= dur_add (freshness_lifetime (e_policy entry)) keep) True
    (RetentionPolicy_keep (retention (e_policy entry))) ->
  exists evicted st3,
    store config true guard entry st2 = (Ok (StoredOutcome evicted), st3) /\ cache_ok config st3 /\
    s_entry <$> entries st3 !! e_key entry = Some entry /\
    forall ops', Forall (op_ok config) ops' ->
      let st4 := cache_run identity config ops' st3 in
      s_entry <$> entries st4 !! e_key entry = Some entry ->
      (lookup config request' now st4).1 = Ok (Hit StHit (response_snapshot entry age)).
Proof.
  intros Hc [Hok Hfl] Hbf Hb Hpr Hops st2 Hcur age Hsat Hmr Hkeep.
  apply prepare_inner_charge in Hpr as (Hch & Hid & (base' & names & Hb' & Hk) & Hobj).
  apply object_charge_nonneg in Hobj as Hch0; [|apply len_nonneg].
  rewrite Hb in Hb'. injection Hb' as <-. apply CacheKey_new_Ok in Hk as [Hk _].
  pose proof (begin_fill_effect identity config base st Hok) as He. rewrite Hbf in He. simpl in He.
  apply begin_fill_Leader in Hbf as (-> & _ & _).
  pose proof (cache_run_effect identity config Hc ops st1 Hops (proj1 He)) as Hr. fold st2 in Hr.
  set (guard := mkGuard identity base (fills st) true) in *.
  pose proof (store_effect config Hc true guard entry st2 (conj Hch0 Hch) (proj1 Hr)) as He2.
  assert (claim guard entry = Ok entry) as Hcl.
  { unfold claim; simpl. rewrite Hid, Z.eqb_refl, Hk. simpl. rewrite bool_decide_eq_false_2; [done|]. by intros []. }
  destruct (store_current guard entry st2 Hc (conj Hch0 Hch) (proj1 Hr) Hcl Hcur) as (ev & st3 & Hst & n & Hnew).
  rewrite Hst in He2. simpl in He2. exists ev, st3. split; [done|]. split.
  { split; [apply He2|]. eapply fill_steps_ok; [apply Hc| |apply He2]. eapply fill_steps_ok; [apply Hc| |apply Hr].
    eapply fill_steps_ok; [apply Hc|exact Hfl|apply He]. }
  split; [by rewrite Hnew|]. intros ops' Hops' st4 Hin. destruct (entries st4 !! e_key entry) as [stored|] eqn:E4; [|done].
  destruct stored as [entry' n']. injection Hin as ->.
  pose proof (cache_run_effect identity config Hc ops' st3 Hops' (proj1 He2)) as Hr'. fold st4 in Hr'.
  apply (lookup_answer request' base now _ (e_key entry) (mkStored entry n')); try done.
  - apply Hr'.
  - unfold is_expired; simpl. rewrite E4. simpl.
    destruct (RetentionPolicy_keep _); simpl in *; [by apply Z.ltb_ge|done].
Qed.
End CacheProperties.

(** ** Witnesses *)

#[local] Existing Instance example_text.
#[local] Existing Instance example_text_laws.

Definition example_input : RequestKeyInput headers_list :=
  mkKeyInput GET (lit "http") (lit "h") (lit "/") None [(lit "accept", lit "text/html")].
Definition example_upstream : CacheResponse headers_list :=
  mkResponse 200 [(CACHE_CONTROL, lit "max-age=60"); (VARY, lit "Accept")] (lit "hello") (mkTiming 0 5 1000) [lit "t1"].
Definition example_entry : PreparedEntry headers_list :=
  Eval vm_compute in
  match prepare_inner 0 CacheConfig_default example_input example_upstream None with
  | Ok e => e
  | Err _ => mkPrepared 0 (mkCacheKey example_base []) 0 [] [] [] (mkPolicy 0 0 0 0 Rfc false false false)
               (mkValidators None None) 0 0
  end.
Definition example_guard (g : Z) : FillGuard := mkGuard 0 example_base g true.
Definition example_ops : list (CacheOp (H:=headers_list)) :=
  [OpBeginFill example_base; OpStore true (example_guard 0) example_entry; OpBeginFill example_base].
Definition example_state : State headers_list := cache_run 0 CacheConfig_default example_ops State_new.

Lemma default_config_ok : config_ok CacheConfig_default.
Proof. split; vm_compute; split; done || reflexivity || discriminate. Qed.

Lemma example_ops_ok : Forall (op_ok CacheConfig_default) example_ops.
Proof. repeat constructor; vm_compute; discriminate. Qed.

Lemma example_state_ok : cache_ok CacheConfig_default example_state.
Proof.
  apply cache_run_ok; [apply default_config_ok|apply example_ops_ok|].
  apply State_new_ok, default_config_ok.
Qed.

Lemma cache_invariant_witness :
  cache_ok CacheConfig_default (cache_run 0 CacheConfig_default example_ops State_new) /\
  size (entries example_state) = 1%nat.
Proof.
  split; [|vm_compute; reflexivity].
  apply (cache_invariant 0 CacheConfig_default example_ops);
    [vm_compute; reflexivity..|apply example_ops_ok].
Defined.

(** A cache of one entry: storing another evicts the first. *)
Definition single_config : CacheConfig :=
  mkConfig 1 (256 * 1024 * 1024) (8 * 1024 * 1024) (64 * 1024) 256 (8 * 1024 * 1024) (16 * 1024)
    32 16 256 1024 1024 (from_secs (24 * 3600)).
Definition single_state : State headers_list := cache_run 0 single_config [OpRestore example_entry] State_new.
Definition second_entry : PreparedEntry headers_list :=
  mkPrepared 0 (mkCacheKey (mkBaseKey GET (lit "http") (lit "h") (lit "/second") None) []) 200 [] [] []
    (e_policy example_entry) (e_validators example_entry) 0 (e_charge example_entry).

Lemma single_config_ok : config_ok single_config.
Proof. split; vm_compute; split; done || reflexivity || discriminate. Qed.
Lemma single_state_ok : cache_ok single_config single_state.
Proof.
  apply cache_run_ok; [apply single_config_ok| |apply State_new_ok, single_config_ok].
  repeat constructor; vm_compute; discriminate.
Qed.

Lemma cache_evicts_lru_witness :
  exists delta st' k s, insert_entry single_config second_entry single_state = (delta, st') /\ evicted delta = 1 /\
    entries single_state !! k = Some s /\ entries st' !! k = None /\
    entries st' !! e_key second_entry = Some (mkStored second_entry (sequence st')).
Proof.
  destruct (insert_entry single_config second_entry single_state) as [delta st'] eqn:E.
  destruct (cache_evicts_lru single_config second_entry single_state delta st' single_config_ok (proj1 single_state_ok)
    ltac:(vm_compute; split; discriminate) E) as (Hnew & _ & _ & Hev).
  assert (evicted delta = 1) as Hn.
  { assert ((insert_entry single_config second_entry single_state).1 = delta) as <- by (by rewrite E). by vm_compute. }
  destruct Hev as (k & s & _ & Hk & Hgone & _); [rewrite Hn; reflexivity|].
  exists delta, st', k, s. exact (conj eq_refl (conj Hn (conj Hk (conj Hgone Hnew)))).
Defined.

Lemma cache_hit_safe_witness :
  match lookup CacheConfig_default example_input 10 example_state with
  | (Ok (Hit StHit response), _) => exists key stored,
      entries example_state !! key = Some stored /\
      response = response_snapshot (s_entry stored) (entry_age (s_entry stored) 10)
  | _ => False
  end.
Proof.
  destruct (lookup CacheConfig_default example_input 10 example_state) as [r st'] eqn:E.
  assert (fst (lookup CacheConfig_default example_input 10 example_state) = r) as Er by (by rewrite E).
  destruct r as [[| |[] response|]|]; vm_compute in Er; try discriminate Er. clear Er.
  destruct (cache_hit_safe CacheConfig_default example_input 10 example_state StHit response st'
    default_config_ok example_state_ok E) as (_ & _ & key & stored & _ & _ & _ & Hk & _ & _ & _ & Hr & _).
  exists key, stored. split; [exact Hk|exact Hr].
Defined.

Definition example_started : State headers_list :=
  (begin_fill 0 CacheConfig_default example_base State_new).2.

Lemma example_begin :
  begin_fill 0 CacheConfig_default example_base (State_new (H:=headers_list))
  = (Ok (Leader (example_guard 0)), example_started).
Proof.
  unfold example_started. rewrite (surjective_pairing (begin_fill _ _ _ _)) at 1.
  by f_equal.
Qed.

Lemma cache_purged_fill_lost_witness :
  let st := cache_run 0 CacheConfig_default
              ([] ++ OpPurgeBase example_base :: [OpBeginFill example_base]) example_started in
  store CacheConfig_default true (example_guard 0) example_entry st = (Ok GenerationLost, st).
Proof.
  apply (cache_purged_fill_lost 0 CacheConfig_default example_base State_new (example_guard 0) example_started []
    (OpPurgeBase example_base) [OpBeginFill example_base] true example_entry default_config_ok).
  - apply State_new_ok, default_config_ok.
  - exact example_begin.
  - by repeat constructor.
  - reflexivity.
  - vm_compute. reflexivity.
Defined.

Lemma cache_followers_released_witness :
  wait (mkWaiter 0) example_state = Some Stored /\
  wait (mkWaiter 0) (cache_run 0 CacheConfig_default [OpPurgeBase example_base] example_state) = Some Stored.
Proof.
  assert (wait (mkWaiter 0) example_state = Some Stored) as Hw by (vm_compute; reflexivity).
  split; [exact Hw|].
  refine (proj2 (cache_followers_released 0 CacheConfig_default [OpPurgeBase example_base] example_state 0
    default_config_ok example_state_ok _ _) Stored Hw).
  - by repeat constructor.
  - vm_compute. split; [discriminate|reflexivity].
Defined.

Lemma example_satisfied :
  satisfied_by CacheConfig_default example_input example_base (e_policy example_entry) (entry_age example_entry 10).
Proof.
  split_and!; [vm_compute; reflexivity|vm_compute; reflexivity|vm_compute; discriminate|vm_compute; reflexivity|].
  eexists. split; [vm_compute; reflexivity|]. vm_compute. split; [reflexivity|]. split; [discriminate|discriminate].
Qed.

(** A lookup and a second request for the same key come between the start of the
    fill and its store, and another lookup after it. *)
Lemma cache_fill_then_hit_witness :
  exists evicted st3,
    store CacheConfig_default true (example_guard 0) example_entry
      (cache_run 0 CacheConfig_default [OpLookup example_input 3; OpBeginFill example_base] example_started)
      = (Ok (StoredOutcome evicted), st3) /\
    (lookup CacheConfig_default example_input 10
      (cache_run 0 CacheConfig_default [OpLookup example_input 9] st3)).1
    = Ok (Hit StHit (response_snapshot example_entry (entry_age example_entry 10))).
Proof.
  destruct (cache_fill_then_hit 0 CacheConfig_default example_base State_new (example_guard 0) example_started
    [OpLookup example_input 3; OpBeginFill example_base]
    example_input example_upstream None example_entry 10 example_input default_config_ok
    (State_new_ok CacheConfig_default default_config_ok) example_begin ltac:(by vm_compute) ltac:(by vm_compute)
    ltac:(by repeat constructor) ltac:(by vm_compute) example_satisfied ltac:(by vm_compute) ltac:(by vm_compute))
    as (evicted & st3 & Hst & _ & _ & Hlook).
  exists evicted, st3. split; [exact Hst|]. apply Hlook; [by repeat constructor|].
  assert (st3 = (store CacheConfig_default true (example_guard 0) example_entry
      (cache_run 0 CacheConfig_default [OpLookup example_input 3; OpBeginFill example_base] example_started)).2) as ->
    by (by rewrite Hst).
  vm_compute. reflexivity.
Defined.
