(* ===== verification/Media.v ===== *)
(** RTMP media messages ([oxiroute-rtmp/src/live.rs]): the classification of an
    audio or video payload into the kind of message the live hub, the recorder
    and video on demand work with.  The metadata of a stream is a type of the
    RTMP package and a parameter, as are its encoding and decoding. *)

From stdpp Require Import base list strings.
From Stdlib Require Import ZArith Lia Strings.Byte.
From S2P Require Import Prelude Bytes.

Definition AAC_CODEC_ID : Z := 10.
Definition AVC_CODEC_ID : Z := 7.
Definition ENHANCED_VIDEO_HEADER : Z := 128.

(** Largest payload of an FLV tag, whose size field has 24 bits. *)
Definition MAX_FLV_TAG_DATA_SIZE : Z := 16777215.

Inductive MediaEventKind : Type :=
| Metadata | AacSequenceHeader | AvcSequenceHeader | HevcSequenceHeader | Av1SequenceHeader
| Audio | VideoKeyframe | VideoInterframe | VideoDisposable.
#[export] Instance MediaEventKind_eq_dec : EqDecision MediaEventKind.
Proof. solve_decision. Defined.

Inductive VideoCodec : Type := Avc | Hevc | Av1.
#[export] Instance VideoCodec_eq_dec : EqDecision VideoCodec.
Proof. solve_decision. Defined.

Inductive VideoCodecIdentifier : Type := FlvCodec (codec_id : Z) | FourCc (four_cc : bytes).

Definition VideoCodecIdentifier_codec (i : VideoCodecIdentifier) : option VideoCodec :=
  match i with
  | FlvCodec codec_id => if codec_id =? AVC_CODEC_ID then Some Avc else None
  | FourCc four_cc =>
      if beqb four_cc (lit "avc1") then Some Avc
      else if beqb four_cc (lit "hvc1") then Some Hevc
      else if beqb four_cc (lit "av01") then Some Av1
      else None
  end.

Inductive MediaEventError : Type :=
| MalformedAudio | MalformedVideo
| UnsupportedVideoCodec (codec : VideoCodecIdentifier)
| MetadataEncoding
| Event_PayloadTooLarge (size maximum : Z).

Section Events.
Context {T : Type}.

Record MediaEvent : Type := mkMediaEvent {
  kind : MediaEventKind;
  timestamp_ms : Z;
  payload : bytes;
  metadata : option T;
  video_codec : option VideoCodec;
  video_codec_identifier : option VideoCodecIdentifier;
}.

Definition MediaEvent_new (k : MediaEventKind) (at_ms : Z) (body : bytes) : result MediaEvent MediaEventError :=
  if MAX_FLV_TAG_DATA_SIZE <? len body then Err (Event_PayloadTooLarge (len body) MAX_FLV_TAG_DATA_SIZE)
  else Ok (mkMediaEvent k at_ms body None None None).

Definition MediaEvent_metadata (encode_metadata : T -> result bytes MediaEventError) (meta : T) :
    result MediaEvent MediaEventError :=
  let? body := encode_metadata meta in
  let? e := MediaEvent_new Metadata 0 body in
  Ok (mkMediaEvent (kind e) (timestamp_ms e) (payload e) (Some meta) (video_codec e)
        (video_codec_identifier e)).

Definition MediaEvent_audio (at_ms : Z) (body : bytes) : result MediaEvent MediaEventError :=
  match body with
  | [] => Err MalformedAudio
  | sound_header :: _ =>
      let? k :=
        if Z.shiftr (b2z sound_header) 4 =? AAC_CODEC_ID then
          match b2z <$> body !! 1%nat with
          | Some 0 => if 2 <? len body then Ok AacSequenceHeader else Err MalformedAudio
          | Some 1 => if 2 <? len body then Ok Audio else Err MalformedAudio
          | _ => Err MalformedAudio
          end
        else Ok Audio in
      MediaEvent_new k at_ms body
  end.

Definition classify_video_frame (frame_type : Z) : result MediaEventKind MediaEventError :=
  if (frame_type =? 1) || (frame_type =? 4) then Ok VideoKeyframe
  else if frame_type =? 2 then Ok VideoInterframe
  else if frame_type =? 3 then Ok VideoDisposable
  else Err MalformedVideo.

Definition classify_legacy_video (body : bytes) (video_header : Z) :
    result (MediaEventKind * VideoCodec * VideoCodecIdentifier) MediaEventError :=
  let? frame_kind := classify_video_frame (Z.shiftr video_header 4) in
  let codec_id := Z.land video_header 15 in
  if negb (codec_id =? AVC_CODEC_ID) then Err (UnsupportedVideoCodec (FlvCodec codec_id))
  else
    let? k :=
      match b2z <$> body !! 1%nat with
      | Some 0 =>
          if (5 <? len body) && bool_decide (frame_kind = VideoKeyframe) then Ok AvcSequenceHeader
          else Err MalformedVideo
      | Some 1 => if 5 <? len body then Ok frame_kind else Err MalformedVideo
      | _ => Err MalformedVideo
      end in
    Ok (k, Avc, FlvCodec codec_id).

Definition classify_enhanced_video (body : bytes) (video_header : Z) :
    result (MediaEventKind * VideoCodec * VideoCodecIdentifier) MediaEventError :=
  if len body <=? 5 then Err MalformedVideo
  else
    let? frame_kind := classify_video_frame (Z.land (Z.shiftr video_header 4) 7) in
    let four_cc := slice body 1 5 in
    let? codec :=
      if beqb four_cc (lit "avc1") then Ok Avc
      else if beqb four_cc (lit "hvc1") then Ok Hevc
      else if beqb four_cc (lit "av01") then Ok Av1
      else Err (UnsupportedVideoCodec (FourCc four_cc)) in
    let? k :=
      match Z.land video_header 15 with
      | 0 =>
          if bool_decide (frame_kind = VideoKeyframe) then
            Ok (match codec with
                | Avc => AvcSequenceHeader
                | Hevc => HevcSequenceHeader
                | Av1 => Av1SequenceHeader
                end)
          else Err MalformedVideo
      | 1 | 3 => Ok frame_kind
      | _ => Err MalformedVideo
      end in
    Ok (k, codec, FourCc four_cc).

Definition MediaEvent_video (at_ms : Z) (body : bytes) : result MediaEvent MediaEventError :=
  match body with
  | [] => Err MalformedVideo
  | b :: _ =>
      let video_header := b2z b in
      let? c :=
        if Z.land video_header ENHANCED_VIDEO_HEADER =? 0 then classify_legacy_video body video_header
        else classify_enhanced_video body video_header in
      let '(k, codec, identifier) := c in
      let? e := MediaEvent_new k at_ms body in
      Ok (mkMediaEvent (kind e) (timestamp_ms e) (payload e) (metadata e) (Some codec) (Some identifier))
  end.

(** A message of the wire of automatic pushes, classified by its sender. *)
Definition from_wire (decode_metadata : bytes -> option T) (k : MediaEventKind) (at_ms : Z) (body : bytes)
    (identifier : option VideoCodecIdentifier) : result MediaEvent MediaEventError :=
  let? e := MediaEvent_new k at_ms body in
  Ok (mkMediaEvent (kind e) (timestamp_ms e) (payload e)
        (if bool_decide (k = Metadata) then decode_metadata (payload e) else metadata e)
        (i ← identifier; VideoCodecIdentifier_codec i) identifier).

Definition payload_len (e : MediaEvent) : Z := len (payload e).
End Events.
Arguments MediaEvent : clear implicits.
