(* ===== verification/LiveHub.v ===== *)
(** The live hub of the media server ([oxiroute-rtmp/src/live.rs]): one publisher
    and bounded viewer queues for each stream.  The state is behind one mutex, so
    each operation is one step, and the leases and subscriptions of the code are
    the identities they hold.  [BTreeMap] is [gmap]; where the code iterates it
    the order does not matter or is made explicit by a sort.  A [usize] is a
    number; [-=] is subtraction, which the invariant shows never to underflow. *)

From stdpp Require Import base list gmap sorting strings.
From Stdlib Require Import ZArith Lia Strings.Byte.
From S2P Require Import Prelude Bytes Order Media.

Record StreamKey : Type := mkStreamKey { server_id : bytes; application : bytes; name : bytes }.
#[export] Instance StreamKey_eq_dec : EqDecision StreamKey.
Proof. solve_decision. Defined.
#[export] Program Instance StreamKey_countable : Countable StreamKey :=
  inj_countable' (fun k => (server_id k, application k, name k)) (fun '(a, b, c) => mkStreamKey a b c) _.
Next Obligation. by intros []. Qed.

#[export] Program Instance VideoCodec_countable : Countable VideoCodec :=
  inj_countable' (fun c => match c with Avc => 0 | Hevc => 1 | Av1 => 2 end)
    (fun n => if n =? 0 then Avc else if n =? 1 then Hevc else Av1) _.
Next Obligation. by intros []. Qed.

Record LiveHubLimits : Type := mkLiveHubLimits {
  max_streams : Z;
  max_subscribers : Z;
  max_subscribers_per_stream : Z;
  max_queue_messages_per_subscriber : Z;
  max_queue_bytes_per_subscriber : Z;
  max_fanout_bytes : Z;
  max_cached_metadata_bytes : Z;
  max_cached_codec_header_bytes : Z;
}.

Record PublishReport : Type := mkPublishReport {
  queued_events : Z;
  dropped_events : Z;
  viewers_resynchronized : Z;
  stream_fanout_bytes : Z;
}.

Inductive LiveHubError : Type :=
| StreamLimitReached (maximum : Z)
| SubscriberLimitReached (maximum : Z)
| StreamSubscriberLimitReached (key : StreamKey) (maximum : Z)
| PublisherAlreadyAttached (key : StreamKey)
| PublisherExpired (key : StreamKey)
| CachedEventTooLarge (k : MediaEventKind) (size maximum : Z)
| IdentityExhausted.

(** What ends a call other than by returning a value: an error, or a panic. *)
Inductive HubFault : Type := Refused (e : LiveHubError) | Panicked.

Inductive CurrentVideoTrack : Type := Track_Unknown | Track_Absent | Track_Present (codec : option VideoCodec).
#[export] Instance CurrentVideoTrack_eq_dec : EqDecision CurrentVideoTrack.
Proof. solve_decision. Defined.

Inductive VideoTrackTransition : Type :=
| Transition_None | Transition_Absent | Transition_Present (codec_changed : bool).

Definition VideoTrackTransition_between (previous next : CurrentVideoTrack) : VideoTrackTransition :=
  if bool_decide (previous = next) then Transition_None
  else
    match next with
    | Track_Unknown => Transition_None
    | Track_Absent => Transition_Absent
    | Track_Present _ => Transition_Present (match previous with Track_Present _ => true | _ => false end)
    end.

Inductive SubscriberState : Type := AwaitingMedia | AwaitingKeyframe | PlaysAudio | PlaysMixed.

Section Hub.
(** The metadata of a stream and the codec it announces. *)
Context {T : Type} (video_codec_id : T -> option Z).
Abbreviation Event := (MediaEvent T).

Record MediaCache : Type := mkMediaCache {
  cached_metadata : option Event;
  aac_sequence_header : option Event;
  video_sequence_headers : gmap VideoCodec Event;
  video_track : CurrentVideoTrack;
}.
Definition MediaCache_default : MediaCache := mkMediaCache None None ∅ Track_Unknown.

Definition MediaCache_transition (c : MediaCache) (event : Event) : VideoTrackTransition * MediaCache :=
  let next_track :=
    match kind event with
    | Metadata =>
        Some (match metadata event ≫= video_codec_id with
              | None => Track_Absent
              | Some codec_id => if codec_id =? AVC_CODEC_ID then Track_Present (Some Avc) else Track_Present None
              end)
    | AvcSequenceHeader | HevcSequenceHeader | Av1SequenceHeader
    | VideoKeyframe | VideoInterframe | VideoDisposable => Some (Track_Present (video_codec event))
    | AacSequenceHeader | Audio => None
    end in
  match next_track with
  | None => (Transition_None, c)
  | Some next_track =>
      (VideoTrackTransition_between (video_track c) next_track,
       mkMediaCache (cached_metadata c) (aac_sequence_header c) (video_sequence_headers c) next_track)
  end.

(** [None] is the panic of a video sequence header without a codec. *)
Definition MediaCache_store (c : MediaCache) (event : Event) : option MediaCache :=
  match kind event with
  | Metadata => Some (mkMediaCache (Some event) (aac_sequence_header c) (video_sequence_headers c) (video_track c))
  | AacSequenceHeader =>
      Some (mkMediaCache (cached_metadata c) (Some event) (video_sequence_headers c) (video_track c))
  | AvcSequenceHeader | HevcSequenceHeader | Av1SequenceHeader =>
      codec ← video_codec event;
      Some (mkMediaCache (cached_metadata c) (aac_sequence_header c) (<[codec := event]> (video_sequence_headers c))
              (video_track c))
  | Audio | VideoKeyframe | VideoInterframe | VideoDisposable => Some c
  end.

Definition video_sequence_header (c : MediaCache) (keyframe : Event) : option Event :=
  codec ← video_codec keyframe; video_sequence_headers c !! codec.

Definition mixed_bootstrap (c : MediaCache) (keyframe : Event) : list Event :=
  option_list (cached_metadata c) ++ option_list (aac_sequence_header c) ++
  option_list (video_sequence_header c keyframe) ++ [keyframe].
Definition audio_bootstrap (c : MediaCache) (audio : Event) : list Event :=
  option_list (cached_metadata c) ++ option_list (aac_sequence_header c) ++ [audio].
Definition video_bootstrap (c : MediaCache) (keyframe : Event) : list Event :=
  option_list (video_sequence_header c keyframe) ++ [keyframe].

Definition expects_video (c : MediaCache) : bool := match video_track c with Track_Present _ => true | _ => false end.

Record SubscriberQueue : Type := mkSubscriberQueue {
  events : list Event;
  queue_bytes : Z;
  subscriber_state : SubscriberState;
}.
Definition SubscriberQueue_new (video_expected : bool) : SubscriberQueue :=
  mkSubscriberQueue [] 0 (if video_expected then AwaitingKeyframe else AwaitingMedia).

Record LiveStream : Type := mkLiveStream {
  publisher : option Z;
  cache : MediaCache;
  subscribers : gmap Z SubscriberQueue;
}.
Definition LiveStream_default : LiveStream := mkLiveStream None MediaCache_default ∅.

Record LiveHubState : Type := mkLiveHubState {
  streams : gmap StreamKey LiveStream;
  subscriber_count : Z;
  fanout_bytes : Z;
  next_publisher_incarnation : Z;
  next_subscriber_id : Z;
}.
Definition LiveHubState_default : LiveHubState := mkLiveHubState ∅ 0 0 0 0.

(** ** Queues *)

(** A subscriber, the bytes of all queues, and the report, as a fan-out updates
    them. *)
Abbreviation Fan := (SubscriberQueue * Z * PublishReport)%type.

Definition set_subscriber_state (s : SubscriberState) (q : SubscriberQueue) : SubscriberQueue :=
  mkSubscriberQueue (events q) (queue_bytes q) s.

(** [clear_queue]: the bytes released and the empty queue. *)
Definition clear_queue (q : SubscriberQueue) : Z * SubscriberQueue :=
  (queue_bytes q, mkSubscriberQueue [] 0 (subscriber_state q)).

Definition report_add (queued dropped resynchronized : Z) (r : PublishReport) : PublishReport :=
  mkPublishReport (queued_events r + queued) (dropped_events r + dropped) (viewers_resynchronized r + resynchronized)
    (stream_fanout_bytes r).

Fixpoint batch_size (total : Z) (batch : list Event) : option Z :=
  match batch with
  | [] => Some total
  | event :: batch => total ← checked_add usize_max total (payload_len event); batch_size total batch
  end.

(** [enqueue]: the queue and the bytes of all queues after it, or none when it
    refuses and changes nothing. *)
Definition enqueue (q : SubscriberQueue) (batch : list Event) (limits : LiveHubLimits) (total_bytes : Z) :
    option (SubscriberQueue * Z) :=
  message_count ← checked_add usize_max (len (events q)) (len batch);
  batch_bytes ← batch_size 0 batch;
  bytes ← checked_add usize_max (queue_bytes q) batch_bytes;
  total_fanout_bytes ← checked_add usize_max total_bytes batch_bytes;
  if (max_queue_messages_per_subscriber limits <? message_count) ||
     (max_queue_bytes_per_subscriber limits <? bytes) || (max_fanout_bytes limits <? total_fanout_bytes)
  then None
  else Some (mkSubscriberQueue (events q ++ batch) bytes (subscriber_state q), total_fanout_bytes).

Definition enqueue_bootstrap (next : SubscriberState) (bootstrap : list Event) (limits : LiveHubLimits) (f : Fan) : Fan :=
  let '(q, total, r) := f in
  match enqueue q bootstrap limits total with
  | Some (q, total) => (set_subscriber_state next q, total, report_add (len bootstrap) 0 0 r)
  | None => (q, total, report_add 0 1 0 r)
  end.
Definition enqueue_audio_bootstrap (c : MediaCache) (audio : Event) : LiveHubLimits -> Fan -> Fan :=
  enqueue_bootstrap PlaysAudio (audio_bootstrap c audio).
Definition enqueue_mixed_bootstrap (c : MediaCache) (keyframe : Event) : LiveHubLimits -> Fan -> Fan :=
  enqueue_bootstrap PlaysMixed (mixed_bootstrap c keyframe).

(** A viewer starts over: its queue is cleared and it waits. *)
Definition resynchronize (next : SubscriberState) (dropped : Z) (f : Fan) : Fan :=
  let '(q, total, r) := f in
  let '(released, q) := clear_queue q in
  (set_subscriber_state next q, total - released, report_add 0 dropped 1 r).

Definition apply_video_transition (transition : VideoTrackTransition) (f : Fan) : Fan :=
  let '(q, total, r) := f in
  match transition, subscriber_state q with
  | Transition_None, _ => f
  | Transition_Absent, AwaitingKeyframe => (set_subscriber_state AwaitingMedia q, total, r)
  | Transition_Absent, PlaysMixed => resynchronize AwaitingMedia 0 f
  | Transition_Absent, _ => f
  | Transition_Present _, AwaitingMedia => (set_subscriber_state AwaitingKeyframe q, total, r)
  | Transition_Present codec_changed, PlaysMixed => if codec_changed then resynchronize AwaitingKeyframe 0 f else f
  | Transition_Present _, _ => f
  end.

Definition fanout_audio_event (c : MediaCache) (event : Event) (limits : LiveHubLimits) (f : Fan) : Fan :=
  let '(q, total, r) := f in
  match kind event with
  | VideoKeyframe =>
      let bootstrap := video_bootstrap c event in
      match enqueue q bootstrap limits total with
      | Some (q, total) => (set_subscriber_state PlaysMixed q, total, report_add (len bootstrap) 0 0 r)
      | None => enqueue_mixed_bootstrap c event limits (resynchronize AwaitingKeyframe 1 f)
      end
  | AvcSequenceHeader | HevcSequenceHeader | Av1SequenceHeader | VideoInterframe | VideoDisposable => f
  | Metadata | AacSequenceHeader | Audio =>
      match enqueue q [event] limits total with
      | Some (q, total) => (q, total, report_add 1 0 0 r)
      | None =>
          let f := resynchronize AwaitingMedia 1 f in
          if bool_decide (kind event = Audio) then enqueue_audio_bootstrap c event limits f else f
      end
  end.

Definition fanout_mixed_event (c : MediaCache) (event : Event) (limits : LiveHubLimits) (f : Fan) : Fan :=
  let '(q, total, r) := f in
  match enqueue q [event] limits total with
  | Some (q, total) => (q, total, report_add 1 0 0 r)
  | None =>
      if bool_decide (kind event = VideoDisposable) then (q, total, report_add 0 1 0 r)
      else
        let f := resynchronize AwaitingKeyframe 1 f in
        if bool_decide (kind event = VideoKeyframe) then enqueue_mixed_bootstrap c event limits f else f
  end.

Definition fanout_event (c : MediaCache) (event : Event) (limits : LiveHubLimits) (f : Fan) : Fan :=
  match subscriber_state (fst (fst f)) with
  | AwaitingMedia =>
      match kind event with
      | Audio => enqueue_audio_bootstrap c event limits f
      | VideoKeyframe => enqueue_mixed_bootstrap c event limits f
      | _ => f
      end
  | AwaitingKeyframe =>
      if bool_decide (kind event = VideoKeyframe) then enqueue_mixed_bootstrap c event limits f else f
  | PlaysAudio => fanout_audio_event c event limits f
  | PlaysMixed => fanout_mixed_event c event limits f
  end.

Definition sum_bytes (qs : gmap Z SubscriberQueue) : Z := map_fold (fun _ q acc => queue_bytes q + acc) 0 qs.

(** [reset_subscribers]: the bytes released, and the queues emptied. *)
Definition reset_subscribers (s : LiveStream) : Z * LiveStream :=
  (sum_bytes (subscribers s),
   mkLiveStream (publisher s) (cache s) ((fun _ => mkSubscriberQueue [] 0 AwaitingMedia) <$> subscribers s)).

Definition validate_cache_size (limits : LiveHubLimits) (event : Event) : result unit LiveHubError :=
  let check maximum :=
    if maximum <? payload_len event then Err (CachedEventTooLarge (kind event) (payload_len event) maximum) else Ok tt in
  match kind event with
  | Metadata => check (max_cached_metadata_bytes limits)
  | AacSequenceHeader | AvcSequenceHeader | HevcSequenceHeader | Av1SequenceHeader =>
      check (max_cached_codec_header_bytes limits)
  | Audio | VideoKeyframe | VideoInterframe | VideoDisposable => Ok tt
  end.

(** ** Operations *)

Definition set_streams (ss : gmap StreamKey LiveStream) (st : LiveHubState) : LiveHubState :=
  mkLiveHubState ss (subscriber_count st) (fanout_bytes st) (next_publisher_incarnation st) (next_subscriber_id st).
Definition set_fanout_bytes (n : Z) (st : LiveHubState) : LiveHubState :=
  mkLiveHubState (streams st) (subscriber_count st) n (next_publisher_incarnation st) (next_subscriber_id st).

Definition stream_full (limits : LiveHubLimits) (key : StreamKey) (st : LiveHubState) : bool :=
  bool_decide (streams st !! key = None) && (max_streams limits <=? Z.of_nat (size (streams st))).

Definition create_publisher (limits : LiveHubLimits) (key : StreamKey) : M LiveHubState LiveHubError Z := fun st =>
  if stream_full limits key st then (Err (StreamLimitReached (max_streams limits)), st)
  else
    match checked_add u64_max (next_publisher_incarnation st) 1 with
    | None => (Err IdentityExhausted, st)
    | Some incarnation =>
        let stream := default LiveStream_default (streams st !! key) in
        let '(released, stream) :=
          reset_subscribers (mkLiveStream (Some incarnation) MediaCache_default (subscribers stream)) in
        (Ok incarnation,
         mkLiveHubState (<[key := stream]> (streams st)) (subscriber_count st) (fanout_bytes st - released) incarnation
           (next_subscriber_id st))
    end.

Definition attach_publisher (limits : LiveHubLimits) (key : StreamKey) : M LiveHubState LiveHubError Z := fun st =>
  if stream_full limits key st then (Err (StreamLimitReached (max_streams limits)), st)
  else if bool_decide (is_Some (streams st !! key ≫= publisher)) then (Err (PublisherAlreadyAttached key), st)
  else create_publisher limits key st.

Definition replace_publisher (limits : LiveHubLimits) (key : StreamKey) : M LiveHubState LiveHubError Z :=
  create_publisher limits key.

Definition subscribe (limits : LiveHubLimits) (key : StreamKey) : M LiveHubState LiveHubError Z := fun st =>
  if max_subscribers limits <=? subscriber_count st then (Err (SubscriberLimitReached (max_subscribers limits)), st)
  else if stream_full limits key st then (Err (StreamLimitReached (max_streams limits)), st)
  else if match streams st !! key with
          | Some stream => max_subscribers_per_stream limits <=? Z.of_nat (size (subscribers stream))
          | None => false
          end
  then (Err (StreamSubscriberLimitReached key (max_subscribers_per_stream limits)), st)
  else
    match checked_add u64_max (next_subscriber_id st) 1 with
    | None => (Err IdentityExhausted, st)
    | Some subscriber_id =>
        let stream := default LiveStream_default (streams st !! key) in
        let q := SubscriberQueue_new (expects_video (cache stream)) in
        let stream := mkLiveStream (publisher stream) (cache stream) (<[subscriber_id := q]> (subscribers stream)) in
        (Ok subscriber_id,
         mkLiveHubState (<[key := stream]> (streams st)) (subscriber_count st + 1) (fanout_bytes st)
           (next_publisher_incarnation st) subscriber_id)
    end.

(** The subscribers in the order a publication serves them: fewest queued bytes
    first. *)
Definition fanout_order (qs : gmap Z SubscriberQueue) : list Z :=
  snd <$> sort_unstable ((fun p => (queue_bytes p.2, p.1)) <$> map_to_list qs).

Definition fanout_subscriber (transition : VideoTrackTransition) (c : MediaCache) (event : Event)
    (limits : LiveHubLimits) (acc : gmap Z SubscriberQueue * Z * PublishReport) (subscriber_id : Z) :
    gmap Z SubscriberQueue * Z * PublishReport :=
  let '(qs, total, r) := acc in
  match qs !! subscriber_id with
  | None => acc
  | Some q =>
      let '(q, total, r) := fanout_event c event limits (apply_video_transition transition (q, total, r)) in
      (<[subscriber_id := q]> qs, total, r)
  end.

Definition publish (limits : LiveHubLimits) (key : StreamKey) (incarnation : Z) (event : Event) :
    M LiveHubState HubFault PublishReport := fun st =>
  match validate_cache_size limits event with
  | Err e => (Err (Refused e), st)
  | Ok _ =>
      match streams st !! key with
      | Some stream =>
          if bool_decide (publisher stream = Some incarnation) then
            let '(transition, c) := MediaCache_transition (cache stream) event in
            let '(qs, total, r) :=
              foldl (fanout_subscriber transition c event limits)
                (subscribers stream, fanout_bytes st, mkPublishReport 0 0 0 0) (fanout_order (subscribers stream)) in
            let r := mkPublishReport (queued_events r) (dropped_events r) (viewers_resynchronized r) (sum_bytes qs) in
            match MediaCache_store c event with
            | None => (Err Panicked, set_streams (<[key := mkLiveStream (publisher stream) c qs]> (streams st)) st)
            | Some c =>
                (Ok r, set_fanout_bytes total
                         (set_streams (<[key := mkLiveStream (publisher stream) c qs]> (streams st)) st))
            end
          else (Err (Refused (PublisherExpired key)), st)
      | None => (Err (Refused (PublisherExpired key)), st)
      end
  end.

(** Dropping the lease of a publisher. *)
Definition PublisherLease_drop (key : StreamKey) (incarnation : Z) (st : LiveHubState) : LiveHubState :=
  match streams st !! key with
  | None => st
  | Some stream =>
      if bool_decide (publisher stream = Some incarnation) then
        let '(released, stream) := reset_subscribers (mkLiveStream None MediaCache_default (subscribers stream)) in
        let st := set_fanout_bytes (fanout_bytes st - released) st in
        if bool_decide (subscribers stream = ∅) then set_streams (delete key (streams st)) st
        else set_streams (<[key := stream]> (streams st)) st
      else st
  end.

Definition try_next (key : StreamKey) (subscriber_id : Z) (st : LiveHubState) : option Event * LiveHubState :=
  match streams st !! key with
  | None => (None, st)
  | Some stream =>
      match subscribers stream !! subscriber_id with
      | None => (None, st)
      | Some q =>
          match events q with
          | [] => (None, st)
          | event :: rest =>
              let q := mkSubscriberQueue rest (queue_bytes q - payload_len event) (subscriber_state q) in
              let stream := mkLiveStream (publisher stream) (cache stream) (<[subscriber_id := q]> (subscribers stream)) in
              (Some event, set_fanout_bytes (fanout_bytes st - payload_len event)
                             (set_streams (<[key := stream]> (streams st)) st))
          end
      end
  end.

(** Dropping a subscription. *)
Definition PlaybackSubscription_drop (key : StreamKey) (subscriber_id : Z) (st : LiveHubState) : LiveHubState :=
  match streams st !! key with
  | None => st
  | Some stream =>
      match subscribers stream !! subscriber_id with
      | None => st
      | Some q =>
          let qs := delete subscriber_id (subscribers stream) in
          let ss :=
            if bool_decide (publisher stream = None) && bool_decide (qs = ∅) then delete key (streams st)
            else <[key := mkLiveStream (publisher stream) (cache stream) qs]> (streams st) in
          mkLiveHubState ss (subscriber_count st - 1) (fanout_bytes st - queue_bytes q) (next_publisher_incarnation st)
            (next_subscriber_id st)
      end
  end.
End Hub.
