(* ===== verification/LiveFacts.v ===== *)
(** What the live hub guarantees ([oxiroute-rtmp/src/live.rs], model in [LiveHub]):
    its memory stays within the limits in every sequence of operations, with exact
    accounting and no leaked stream; and what a viewer is shown is always a
    complete continuation of a key frame or of an audio frame of the publisher. *)

From stdpp Require Import base list gmap sorting strings.
From Stdlib Require Import ZArith Lia Strings.Byte.
From S2P Require Import Prelude Bytes Order Media LiveHub.

(** ** Sums over maps *)

Definition msum {K A} `{Countable K} (f : A -> Z) (m : gmap K A) : Z := map_fold (fun _ a acc => f a + acc) 0 m.

Section Sums.
Context {K A : Type} `{Countable K} (f : A -> Z).
Implicit Types m : gmap K A.

Lemma msum_empty : msum f (∅ : gmap K A) = 0.
Proof. done. Qed.

Lemma msum_insert m k a : m !! k = None -> msum f (<[k := a]> m) = f a + msum f m.
Proof. intros. unfold msum. rewrite map_fold_insert_L; [done| |done]. intros. lia. Qed.

Lemma msum_delete m k a : m !! k = Some a -> msum f (delete k m) = msum f m - f a.
Proof. intros. unfold msum at 2. rewrite (map_fold_delete_L _ _ k a m); [unfold msum; lia| |done]. intros. lia. Qed.

Lemma msum_update m k a b : m !! k = Some b -> msum f (<[k := a]> m) = msum f m - f b + f a.
Proof.
  intros Hk. rewrite <- (insert_delete_eq m k a), msum_insert, (msum_delete m k b) by (done || apply lookup_delete_eq).
  lia.
Qed.

(** Whatever was at a key, default or not. *)
Lemma msum_set m k a d : f d = 0 -> msum f (<[k := a]> m) = msum f m - f (default d (m !! k)) + f a.
Proof.
  intros Hd. destruct (m !! k) as [b|] eqn:E; simpl; [by apply msum_update|]. rewrite msum_insert by done. lia.
Qed.

Lemma msum_nonneg m : (forall k a, m !! k = Some a -> 0 <= f a) -> 0 <= msum f m.
Proof.
  induction m as [|k a m Hk IH] using map_ind; intros Hf; [done|]. rewrite msum_insert by done.
  pose proof (Hf k a (lookup_insert_eq _ _ _)). enough (0 <= msum f m) by lia. apply IH. intros k' a' Hk'.
  apply (Hf k'). rewrite lookup_insert_ne; [done|]. intros ->. congruence.
Qed.

Lemma msum_const m (c : Z) : (forall k a, m !! k = Some a -> f a = c) -> msum f m = c * Z.of_nat (size m).
Proof.
  induction m as [|k a m Hk IH] using map_ind; intros Hf; [rewrite map_size_empty; unfold msum; rewrite map_fold_empty; lia|].
  rewrite msum_insert, map_size_insert_None, IH, (Hf k a); [lia|apply lookup_insert_eq| |done..].
  intros k' a' Hk'. apply (Hf k'). rewrite lookup_insert_ne; [done|]. intros ->. congruence.
Qed.
End Sums.

Section Facts.
Context {T : Type} (video_codec_id : T -> option Z) (limits : LiveHubLimits).
Abbreviation Event := (MediaEvent T).
Abbreviation Queue := (SubscriberQueue (T := T)).
Abbreviation Fan := (Queue * Z * PublishReport)%type.
Abbreviation Hub := (LiveHubState (T := T)).

(** ** One queue *)

Definition payload_total (es : list Event) : Z := foldr (fun e acc => payload_len e + acc) 0 es.

Lemma payload_total_app es es' : payload_total (es ++ es') = payload_total es + payload_total es'.
Proof. induction es as [|e es IH]; simpl; [done|]. rewrite IH. lia. Qed.

Lemma payload_total_nonneg es : 0 <= payload_total es.
Proof. induction es as [|e es IH]; simpl; [done|]. pose proof (len_nonneg (payload e)). unfold payload_len. lia. Qed.

Lemma batch_size_Some n es total : batch_size n es = Some total -> total = n + payload_total es.
Proof.
  revert n; induction es as [|e es IH]; intros n E; simpl in *; [injection E; lia|].
  destruct (checked_add usize_max n (payload_len e)) as [m|] eqn:Hm; [|done]. simpl in E.
  apply checked_add_Some in Hm. apply IH in E. lia.
Qed.

Record queue_ok (q : Queue) : Prop := {
  queue_exact : queue_bytes q = payload_total (events q);
  queue_messages : len (events q) <= max_queue_messages_per_subscriber limits;
  queue_size : queue_bytes q <= max_queue_bytes_per_subscriber limits;
}.

Lemma enqueue_Some q batch total q' total' :
  enqueue q batch limits total = Some (q', total') ->
  q' = mkSubscriberQueue (events q ++ batch) (queue_bytes q + payload_total batch) (subscriber_state q) /\
  total' = total + payload_total batch /\ total' <= max_fanout_bytes limits /\
  len (events q') <= max_queue_messages_per_subscriber limits /\
  queue_bytes q' <= max_queue_bytes_per_subscriber limits.
Proof.
  unfold enqueue. destruct (checked_add _ (len (events q)) _) as [count|] eqn:E1; [|done]. simpl.
  destruct (batch_size 0 batch) as [size|] eqn:E2; [|done]. simpl.
  destruct (checked_add _ (queue_bytes q) _) as [bytes|] eqn:E3; [|done]. simpl.
  destruct (checked_add _ total _) as [all|] eqn:E4; [|done]. simpl.
  apply checked_add_Some in E1, E3, E4. apply batch_size_Some in E2. subst size.
  destruct (_ || _) eqn:E; [done|]. intros [= <- <-]. bool_inv. simpl. rewrite len_app.
  destruct E1 as [E1 _], E3 as [E3 _], E4 as [E4 _]. subst. split_and!; try lia. f_equal; lia.
Qed.

(** How a fan-out treats a queue: it stays within its limits, and the bytes of all
    queues move with it and stay within theirs. *)
Definition balanced (f f' : Fan) : Prop :=
  queue_ok f.1.1 -> f.1.2 <= max_fanout_bytes limits ->
  queue_ok f'.1.1 /\ f'.1.2 - queue_bytes f'.1.1 = f.1.2 - queue_bytes f.1.1 /\ f'.1.2 <= max_fanout_bytes limits.

#[local] Instance balanced_refl : Reflexive balanced.
Proof. intros f Hq Hm. done. Qed.
#[local] Instance balanced_trans : Transitive balanced.
Proof. intros f g h Hfg Hgh Hq Hm. destruct (Hfg Hq Hm) as (Hq' & E & Hm'). destruct (Hgh Hq' Hm') as (? & ? & ?). split_and!; [done|lia|done]. Qed.

Lemma balanced_state q total r r' s : balanced (q, total, r) (set_subscriber_state s q, total, r').
Proof. intros [H1 H2 H3] Hm. by split_and!. Qed.

Lemma balanced_report q total r r' : balanced (q, total, r) (q, total, r').
Proof. intros Hq Hm. done. Qed.

Lemma balanced_enqueue q batch total r q' total' r' s :
  enqueue q batch limits total = Some (q', total') -> balanced (q, total, r) (set_subscriber_state s q', total', r').
Proof.
  intros (-> & -> & H1 & H2 & H3)%enqueue_Some [Hx Hy Hz] Hm. simpl in *.
  split_and!; [|lia|done]. constructor; simpl; [by rewrite payload_total_app, Hx|done..].
Qed.

Lemma balanced_enqueue_same q batch total r q' total' r' :
  enqueue q batch limits total = Some (q', total') -> balanced (q, total, r) (q', total', r').
Proof.
  intros H. pose proof (balanced_enqueue q batch total r q' total' r' (subscriber_state q') H) as Hb. by destruct q'.
Qed.

Hypothesis limits_unsigned :
  0 <= max_queue_messages_per_subscriber limits /\ 0 <= max_queue_bytes_per_subscriber limits /\
  0 <= max_fanout_bytes limits /\ 0 <= max_streams limits /\ 0 <= max_subscribers limits /\
  0 < max_subscribers_per_stream limits.

Lemma queue_ok_empty s : queue_ok (mkSubscriberQueue [] 0 s).
Proof. constructor; simpl; unfold len; simpl; lia. Qed.

Lemma balanced_resynchronize s dropped f : balanced f (resynchronize s dropped f).
Proof.
  destruct f as [[q total] r]. intros [Hx Hy Hz] Hm. simpl in *. split_and!; [apply queue_ok_empty|lia|].
  pose proof (payload_total_nonneg (events q)). lia.
Qed.

Lemma balanced_bootstrap s batch f : balanced f (enqueue_bootstrap s batch limits f).
Proof.
  destruct f as [[q total] r]. unfold enqueue_bootstrap.
  destruct (enqueue q batch limits total) as [[q' total']|] eqn:E; [by eapply balanced_enqueue|apply balanced_report].
Qed.

Lemma balanced_transition t f : balanced f (apply_video_transition t f).
Proof.
  destruct f as [[q total] r]. unfold apply_video_transition. destruct t as [| |[]], (subscriber_state q);
    auto using balanced_state, balanced_resynchronize, balanced_refl.
Qed.

Lemma balanced_audio c e f : balanced f (fanout_audio_event c e limits f).
Proof.
  destruct f as [[q total] r]. unfold fanout_audio_event.
  assert (forall s batch, balanced (q, total, r) (enqueue_bootstrap s batch limits (resynchronize AwaitingKeyframe 1 (q, total, r)))) as Hkey.
  { intros. etrans; [apply balanced_resynchronize|apply balanced_bootstrap]. }
  assert (balanced (q, total, r)
    match enqueue q [e] limits total with
    | Some (q, total) => (q, total, report_add 1 0 0 r)
    | None => let f := resynchronize AwaitingMedia 1 (q, total, r) in
              if bool_decide (kind e = Audio) then enqueue_audio_bootstrap c e limits f else f
    end) as Haudio.
  { destruct (enqueue q [e] limits total) as [[q' total']|] eqn:E; [by eapply balanced_enqueue_same|].
    cbv zeta. case_bool_decide; [etrans; [apply balanced_resynchronize|apply balanced_bootstrap]|apply balanced_resynchronize]. }
  destruct (kind e); try exact Haudio; try reflexivity. cbv zeta.
  destruct (enqueue q (video_bootstrap c e) limits total) as [[q' total']|] eqn:E; [by eapply balanced_enqueue|apply Hkey].
Qed.

Lemma balanced_mixed c e f : balanced f (fanout_mixed_event c e limits f).
Proof.
  destruct f as [[q total] r]. unfold fanout_mixed_event.
  destruct (enqueue q [e] limits total) as [[q' total']|] eqn:E; [by eapply balanced_enqueue_same|].
  case_bool_decide; [apply balanced_report|]. cbv zeta.
  case_bool_decide; [etrans; [apply balanced_resynchronize|apply balanced_bootstrap]|apply balanced_resynchronize].
Qed.

Lemma balanced_fanout t c e f : balanced f (fanout_event c e limits (apply_video_transition t f)).
Proof.
  etrans; [apply (balanced_transition t)|]. set (g := apply_video_transition t f). unfold fanout_event.
  destruct (subscriber_state g.1.1); [| |apply balanced_audio|apply balanced_mixed].
  - destruct (kind e); try reflexivity; apply balanced_bootstrap.
  - case_bool_decide; [apply balanced_bootstrap|reflexivity].
Qed.

(** ** The hub *)

Record stream_ok (npub nsub : Z) (s : LiveStream (T := T)) : Prop := {
  stream_queues : forall id q, subscribers s !! id = Some q -> queue_ok q /\ id <= nsub;
  stream_viewers : Z.of_nat (size (subscribers s)) <= max_subscribers_per_stream limits;
  stream_used : publisher s = None -> subscribers s <> ∅;
  stream_publisher : forall inc, publisher s = Some inc -> inc <= npub;
}.

Definition viewers (s : LiveStream (T := T)) : Z := Z.of_nat (size (subscribers s)).
Definition stream_bytes (s : LiveStream (T := T)) : Z := sum_bytes (subscribers s).

Record hub_ok (st : Hub) : Prop := {
  hub_streams : forall key s, streams st !! key = Some s ->
    stream_ok (next_publisher_incarnation st) (next_subscriber_id st) s;
  hub_size : Z.of_nat (size (streams st)) <= max_streams limits;
  hub_count : subscriber_count st = msum viewers (streams st);
  hub_viewers : subscriber_count st <= max_subscribers limits;
  hub_bytes : fanout_bytes st = msum stream_bytes (streams st);
  hub_memory : fanout_bytes st <= max_fanout_bytes limits;
}.

Lemma stream_ok_mono npub nsub npub' nsub' s :
  stream_ok npub nsub s -> npub <= npub' -> nsub <= nsub' -> stream_ok npub' nsub' s.
Proof.
  intros [Hq Hv Hu Hp] Hn Hs. constructor; [|done..|].
  - intros id q Hid. destruct (Hq id q Hid). split; [done|lia].
  - intros inc Hinc. specialize (Hp inc Hinc). lia.
Qed.

Definition old_stream (st : Hub) (key : StreamKey) : LiveStream := default LiveStream_default (streams st !! key).

Lemma hub_insert st key s count bytes npub nsub :
  hub_ok st -> stream_ok npub nsub s ->
  next_publisher_incarnation st <= npub -> next_subscriber_id st <= nsub ->
  (streams st !! key = None -> Z.of_nat (size (streams st)) < max_streams limits) ->
  count = subscriber_count st - viewers (old_stream st key) + viewers s -> count <= max_subscribers limits ->
  bytes = fanout_bytes st - stream_bytes (old_stream st key) + stream_bytes s -> bytes <= max_fanout_bytes limits ->
  hub_ok (mkLiveHubState (<[key := s]> (streams st)) count bytes npub nsub).
Proof.
  intros [H1 H2 H3 H4 H5 H6] Hs Hp Hn Hnew -> Hc -> Hb. constructor; simpl; try done.
  - intros key' s' [[-> <-]|[Hne Hk]]%lookup_insert_Some; [done|]. by eapply stream_ok_mono; [eapply H1| |].
  - destruct (streams st !! key) eqn:E; [by rewrite map_size_insert_Some by eauto|].
    rewrite map_size_insert_None by done. specialize (Hnew eq_refl). lia.
  - by rewrite (msum_set viewers (streams st) key s LiveStream_default), <- H3.
  - by rewrite (msum_set stream_bytes (streams st) key s LiveStream_default), <- H5.
Qed.

Lemma hub_delete st key s count bytes :
  hub_ok st -> streams st !! key = Some s -> count = subscriber_count st - viewers s ->
  bytes = fanout_bytes st - stream_bytes s -> count <= max_subscribers limits -> bytes <= max_fanout_bytes limits ->
  hub_ok (mkLiveHubState (delete key (streams st)) count bytes (next_publisher_incarnation st) (next_subscriber_id st)).
Proof.
  intros [H1 H2 H3 H4 H5 H6] Hk -> -> Hc Hb. constructor; simpl; try done.
  - intros key' s' [Hne Hk']%lookup_delete_Some. by eapply H1.
  - rewrite map_size_delete_Some by eauto. lia.
  - by rewrite (msum_delete viewers _ _ _ Hk), <- H3.
  - by rewrite (msum_delete stream_bytes _ _ _ Hk), <- H5.
Qed.

Lemma old_stream_Some st key s : streams st !! key = Some s -> old_stream st key = s.
Proof. unfold old_stream. by intros ->. Qed.

Lemma sum_bytes_nonneg (qs : gmap Z Queue) : (forall id q, qs !! id = Some q -> queue_ok q) -> 0 <= sum_bytes qs.
Proof.
  intros Hq. apply (msum_nonneg queue_bytes). intros id q Hid. rewrite (queue_exact _ (Hq id q Hid)).
  apply payload_total_nonneg.
Qed.

Lemma stream_bytes_nonneg npub nsub s : stream_ok npub nsub s -> 0 <= stream_bytes s.
Proof. intros [Hq _ _ _]. apply sum_bytes_nonneg. intros id q Hid. by apply (Hq id q). Qed.

Lemma old_stream_bytes st key : hub_ok st -> 0 <= stream_bytes (old_stream st key).
Proof.
  intros H. unfold old_stream. destruct (streams st !! key) as [s|] eqn:E; [|done]. simpl.
  eapply stream_bytes_nonneg, hub_streams; eauto.
Qed.

Lemma emptied_bytes (qs : gmap Z Queue) s : sum_bytes ((fun _ => mkSubscriberQueue [] 0 s) <$> qs : gmap Z Queue) = 0.
Proof.
  change (msum queue_bytes ((fun _ => mkSubscriberQueue [] 0 s) <$> qs : gmap Z Queue) = 0).
  rewrite (msum_const _ _ 0); [lia|]. intros k q. rewrite lookup_fmap. by intros (q' & _ & ->)%fmap_Some.
Qed.

(** ** Fan-out *)

Section Publication.
Variables (t : VideoTrackTransition) (c : MediaCache (T := T)) (e : Event).

Record fanned (total0 : Z) (qs0 : gmap Z Queue) (acc : gmap Z Queue * Z * PublishReport) : Prop := {
  fanned_queues : forall id q, acc.1.1 !! id = Some q -> queue_ok q;
  fanned_total : acc.1.2 - sum_bytes acc.1.1 = total0 - sum_bytes qs0;
  fanned_memory : acc.1.2 <= max_fanout_bytes limits;
  fanned_dom : dom acc.1.1 = dom qs0;
}.

Lemma fanout_subscriber_ok total0 qs0 acc id :
  fanned total0 qs0 acc -> fanned total0 qs0 (fanout_subscriber t c e limits acc id).
Proof.
  destruct acc as [[qs total] r]. intros [H1 H2 H3 H4]. unfold fanout_subscriber.
  destruct (qs !! id) as [q|] eqn:E; [|by constructor]. cbn [fst snd] in *.
  destruct (fanout_event c e limits (apply_video_transition t (q, total, r))) as [[q' total'] r'] eqn:F.
  pose proof (balanced_fanout t c e (q, total, r)) as B. rewrite F in B. destruct B as (Hq & Hb & Hm); [by eapply H1|done|].
  simpl in *. constructor; simpl; [| |done|].
  - intros id' q'' [[-> <-]|[_ Hid']]%lookup_insert_Some; [done|by eapply H1].
  - unfold sum_bytes in *. fold (msum queue_bytes qs) in *. fold (msum queue_bytes (<[id:=q']> qs)).
    rewrite (msum_update queue_bytes qs id q' q E). lia.
  - rewrite dom_insert_L, <- H4. apply elem_of_dom_2 in E. set_solver.
Qed.

Lemma fanout_fold_ok total0 qs0 acc ids :
  fanned total0 qs0 acc -> fanned total0 qs0 (foldl (fanout_subscriber t c e limits) acc ids).
Proof. revert acc; induction ids as [|id ids IH]; intros acc H; [done|]. by apply IH, fanout_subscriber_ok. Qed.
End Publication.

(** ** Operations keep the hub within its limits *)

Lemma stream_full_false key (st : Hub) :
  stream_full limits key st = false -> streams st !! key = None -> Z.of_nat (size (streams st)) < max_streams limits.
Proof. unfold stream_full. intros H Hk. rewrite bool_decide_eq_true_2 in H by done. by apply Z.leb_gt in H. Qed.

Lemma create_publisher_ok key st : hub_ok st -> hub_ok (create_publisher limits key st).2.
Proof.
  intros H. unfold create_publisher. destruct (stream_full limits key st) eqn:F; [done|].
  destruct (checked_add _ _ 1) as [inc|] eqn:E; [|done]. apply checked_add_Some in E as [E _]. cbn [reset_subscribers snd].
  pose proof (old_stream_bytes st key H) as Hold. fold (old_stream st key).
  apply hub_insert; try done; [|lia| |..].
  - constructor; simpl; [| |done|intros ? [= <-]; lia].
    + intros id q. rewrite lookup_fmap. intros (q' & Hq' & ->)%fmap_Some. split; [apply queue_ok_empty|].
      unfold old_stream in Hq'. destruct (streams st !! key) as [s|] eqn:Hs; [|done].
      apply (stream_queues _ _ _ (hub_streams _ H key s Hs) id q' Hq').
    + rewrite map_size_fmap. unfold old_stream. destruct (streams st !! key) as [s|] eqn:Hs; [|simpl; rewrite map_size_empty; lia].
      apply (stream_viewers _ _ _ (hub_streams _ H key s Hs)).
  - by apply stream_full_false.
  - unfold viewers. simpl. rewrite map_size_fmap. lia.
  - apply H.
  - unfold stream_bytes. simpl. rewrite emptied_bytes. lia.
  - pose proof (hub_memory _ H). unfold stream_bytes in Hold. simpl. lia.
Qed.

Lemma attach_publisher_ok key st : hub_ok st -> hub_ok (attach_publisher limits key st).2.
Proof. intros H. unfold attach_publisher. do 2 (case_match; [done|]). by apply create_publisher_ok. Qed.

Lemma subscribe_ok key st : hub_ok st -> hub_ok (subscribe limits key st).2.
Proof.
  intros H. unfold subscribe. destruct (Z.leb_spec (max_subscribers limits) (subscriber_count st)); [done|].
  destruct (stream_full limits key st) eqn:F; [done|].
  destruct (match streams st !! key with Some _ => _ | None => false end) eqn:P; [done|].
  destruct (checked_add _ _ 1) as [id|] eqn:E; [|done]. apply checked_add_Some in E as [E _]. cbn [snd].
  fold (old_stream st key). set (q := SubscriberQueue_new _).
  assert (subscribers (old_stream st key) !! id = None) as Hfresh.
  { unfold old_stream. destruct (streams st !! key) as [s|] eqn:Hs; [|done]. simpl.
    destruct (subscribers s !! id) as [q'|] eqn:Hq; [|done].
    pose proof (stream_queues _ _ _ (hub_streams _ H key s Hs) id q' Hq). lia. }
  apply hub_insert; try done; [|lia| |..].
  - constructor; simpl; [| | |].
    + intros id' q' [[-> <-]|[_ Hq']]%lookup_insert_Some; [split; [apply queue_ok_empty|lia]|].
      unfold old_stream in Hq'. destruct (streams st !! key) as [s|] eqn:Hs; [|done].
      destruct (stream_queues _ _ _ (hub_streams _ H key s Hs) id' q' Hq'). split; [done|lia].
    + rewrite map_size_insert_None by done. unfold old_stream. destruct (streams st !! key) as [s|] eqn:Hs; simpl; [lia|].
      rewrite map_size_empty. lia.
    + intros _. apply insert_non_empty.
    + intros inc Hinc. unfold old_stream in Hinc. destruct (streams st !! key) as [s|] eqn:Hs; [|done].
      apply (stream_publisher _ _ _ (hub_streams _ H key s Hs) inc Hinc).
  - by apply stream_full_false.
  - unfold viewers. simpl. rewrite map_size_insert_None by done. lia.
  - lia.
  - unfold stream_bytes, sum_bytes. cbn [subscribers].
    fold (msum queue_bytes (subscribers (old_stream st key))). fold (msum queue_bytes (<[id:=q]> (subscribers (old_stream st key)))).
    rewrite msum_insert by done. simpl. lia.
  - apply H.
Qed.

(** How an event reaches the hub: by one of the constructors of the code. *)
Definition made (e : Event) : Prop :=
  (exists at_ms body, MediaEvent_audio at_ms body = Ok e) \/ (exists at_ms body, MediaEvent_video at_ms body = Ok e) \/
  (exists encode m, MediaEvent_metadata encode m = Ok e) \/
  (exists decode at_ms body, from_wire decode Metadata at_ms body None = Ok e).

Definition is_video_header (k : MediaEventKind) : bool :=
  match k with AvcSequenceHeader | HevcSequenceHeader | Av1SequenceHeader => true | _ => false end.

Lemma MediaEvent_new_Ok k at_ms body (e : Event) :
  MediaEvent_new k at_ms body = Ok e -> e = mkMediaEvent k at_ms body None None None.
Proof. unfold MediaEvent_new. case_match; [done|]. by intros [= <-]. Qed.

Lemma made_codec e : made e -> is_video_header (kind e) = true -> is_Some (video_codec e).
Proof.
  intros [(a & b & H)|[(a & b & H)|[(enc & m & H)|(dec & a & b & H)]]].
  - unfold MediaEvent_audio in H. destruct b as [|x b]; [done|]. apply result_bind_Ok in H as (k & Hk & ->%MediaEvent_new_Ok).
    simpl. intros. exfalso. revert Hk. repeat case_match; intros; simplify_eq.
  - unfold MediaEvent_video in H. destruct b as [|x b]; [done|]. apply result_bind_Ok in H as ([[k codec] i] & _ & H).
    apply result_bind_Ok in H as (e' & _ & [= <-]). simpl. by eexists.
  - apply result_bind_Ok in H as (b & _ & H). apply result_bind_Ok in H as (e' & ->%MediaEvent_new_Ok & [= <-]). done.
  - apply result_bind_Ok in H as (e' & ->%MediaEvent_new_Ok & [= <-]). done.
Qed.

Lemma store_Some c (e : Event) : made e -> exists c', MediaCache_store c e = Some c'.
Proof.
  intros Hm. unfold MediaCache_store. destruct (kind e) eqn:E; try by eexists.
  all: destruct (made_codec e Hm) as [codec ->]; [by rewrite E|by eexists].
Qed.

Lemma size_dom_eq {K A B} `{Countable K} (m : gmap K A) (m' : gmap K B) : dom m = dom m' -> size m = size m'.
Proof. intros E. by rewrite <- !size_dom, E. Qed.

Lemma publish_ok key inc e st : hub_ok st -> made e -> hub_ok (publish video_codec_id limits key inc e st).2.
Proof.
  intros H Hm. unfold publish. destruct (validate_cache_size limits e); [|done].
  destruct (streams st !! key) as [s|] eqn:Hs; [|done]. case_bool_decide as Hp; [|done].
  destruct (MediaCache_transition video_codec_id (cache s) e) as [t c].
  pose proof (hub_streams _ H key s Hs) as [Hq Hv Hu Hi].
  assert (fanned (fanout_bytes st) (subscribers s) (subscribers s, fanout_bytes st, mkPublishReport 0 0 0 0)) as F.
  { constructor; simpl; [|done|apply H|done]. intros id q Hid. by apply (Hq id q). }
  apply (fanout_fold_ok t c e _ _ _ (fanout_order (subscribers s))) in F.
  destruct (foldl _ _ _) as [[qs total] r]. destruct F as [F1 F2 F3 F4]. simpl in F1, F2, F3, F4.
  destruct (store_Some c e Hm) as [c' ->]. cbn [snd]. unfold set_fanout_bytes, set_streams. cbn [streams subscriber_count
    fanout_bytes next_publisher_incarnation next_subscriber_id].
  apply hub_insert; try done; rewrite ?(old_stream_Some _ _ _ Hs).
  - constructor; simpl; [| | |done].
    + intros id q Hid. split; [by eapply F1|]. apply elem_of_dom_2 in Hid. rewrite F4 in Hid.
      apply elem_of_dom in Hid as [q' Hid]. by apply (Hq id q').
    + by rewrite (size_dom_eq _ _ F4).
    + congruence.
  - congruence.
  - unfold viewers. simpl. rewrite (size_dom_eq _ _ F4). lia.
  - apply H.
  - unfold stream_bytes. simpl. lia.
Qed.

Lemma PublisherLease_drop_ok key inc st : hub_ok st -> hub_ok (PublisherLease_drop key inc st).
Proof.
  intros H. unfold PublisherLease_drop. destruct (streams st !! key) as [s|] eqn:Hs; [|done].
  case_bool_decide as Hp; [|done]. cbn [reset_subscribers subscribers].
  pose proof (hub_streams _ H key s Hs) as Hok. pose proof (stream_bytes_nonneg _ _ _ Hok) as Hnn. destruct Hok as [Hq Hv Hu Hi].
  pose proof (hub_memory _ H) as Hmem. pose proof (hub_viewers _ H) as Hcount.
  unfold stream_bytes in Hnn. case_bool_decide as He; unfold set_streams, set_fanout_bytes; cbn.
  - assert (viewers s = 0) as Hz.
    { unfold viewers. rewrite (fmap_empty_inv _ _ He), map_size_empty. done. }
    apply (hub_delete st key s); try done; unfold stream_bytes; lia.
  - apply hub_insert; try done; rewrite ?(old_stream_Some _ _ _ Hs).
    + constructor; simpl; [| |done|done].
      * intros id q. rewrite lookup_fmap. intros (q' & Hq' & ->)%fmap_Some. split; [apply queue_ok_empty|by apply (Hq id q')].
      * by rewrite map_size_fmap.
    + congruence.
    + unfold viewers. simpl. rewrite map_size_fmap. lia.
    + unfold stream_bytes. simpl. rewrite emptied_bytes. lia.
    + lia.
Qed.

Lemma try_next_ok key id st : hub_ok st -> hub_ok (try_next key id st).2.
Proof.
  intros H. unfold try_next. destruct (streams st !! key) as [s|] eqn:Hs; [|done].
  destruct (subscribers s !! id) as [q|] eqn:Hid; [|done]. destruct (events q) as [|e rest] eqn:He; [done|].
  pose proof (hub_streams _ H key s Hs) as [Hq Hv Hu Hi]. pose proof (len_nonneg (payload e)) as Hlen.
  pose proof (hub_memory _ H) as Hmem. unfold payload_len in *.
  destruct (Hq id q Hid) as [[Hx Hy Hz] Hn]. rewrite He in Hx, Hy. simpl in Hx. rewrite len_cons in Hy. unfold payload_len in Hx.
  cbn [snd]. unfold set_streams, set_fanout_bytes. cbn. apply hub_insert; try done; rewrite ?(old_stream_Some _ _ _ Hs).
  - constructor; simpl; [| |intros _; apply insert_non_empty|done].
    + intros id' q' [[-> <-]|[_ Hq']]%lookup_insert_Some; [|by apply Hq]. split; [|done]. constructor; simpl; lia.
    + by rewrite map_size_insert_Some by eauto.
  - congruence.
  - unfold viewers. simpl. rewrite map_size_insert_Some by eauto. lia.
  - apply H.
  - unfold stream_bytes, sum_bytes. cbn [subscribers]. fold (msum queue_bytes (subscribers s)).
    match goal with |- context [map_fold _ _ ?m] => fold (msum queue_bytes m) end.
    rewrite (msum_update queue_bytes _ _ _ _ Hid). simpl. lia.
  - lia.
Qed.

Lemma PlaybackSubscription_drop_ok key id st : hub_ok st -> hub_ok (PlaybackSubscription_drop key id st).
Proof.
  intros H. unfold PlaybackSubscription_drop. destruct (streams st !! key) as [s|] eqn:Hs; [|done].
  destruct (subscribers s !! id) as [q|] eqn:Hid; [|done].
  pose proof (hub_streams _ H key s Hs) as [Hq Hv Hu Hi].
  pose proof (hub_memory _ H) as Hmem. pose proof (hub_viewers _ H) as Hcount.
  destruct (Hq id q Hid) as [[Hx _ _] _]. pose proof (payload_total_nonneg (events q)) as Hnn.
  assert (sum_bytes (delete id (subscribers s)) = sum_bytes (subscribers s) - queue_bytes q) as Hsum.
  { unfold sum_bytes. fold (msum queue_bytes (subscribers s)). fold (msum queue_bytes (delete id (subscribers s))).
    by apply msum_delete. }
  assert (Z.of_nat (size (subscribers s)) = 1 + Z.of_nat (size (delete id (subscribers s)))) as Hsize.
  { rewrite map_size_delete_Some by eauto. assert (size (subscribers s) <> 0%nat); [|lia].
    intros E%map_size_empty_inv. by rewrite E, lookup_empty in Hid. }
  destruct (bool_decide _ && bool_decide _) eqn:E.
  - apply andb_prop in E as [_ Hd%bool_decide_eq_true].
    rewrite Hd, map_size_empty in Hsize. rewrite Hd in Hsum. change (sum_bytes ∅) with 0 in Hsum.
    apply (hub_delete st key s); unfold viewers, stream_bytes; try done; lia.
  - apply hub_insert; try done; rewrite ?(old_stream_Some _ _ _ Hs).
    + constructor; simpl; [|lia| |done].
      * intros id' q' [_ Hq']%lookup_delete_Some. by apply Hq.
      * intros Hp Hd. rewrite !bool_decide_eq_true_2 in E by done. done.
    + congruence.
    + unfold viewers. simpl. lia.
    + lia.
    + unfold stream_bytes. simpl. lia.
    + lia.
Qed.

(** ** Runs *)

Inductive HubOp : Type :=
| Op_attach (key : StreamKey) | Op_replace (key : StreamKey) | Op_subscribe (key : StreamKey)
| Op_publish (key : StreamKey) (inc : Z) (e : Event) | Op_release (key : StreamKey) (inc : Z)
| Op_next (key : StreamKey) (id : Z) | Op_unsubscribe (key : StreamKey) (id : Z).

Inductive HubOut : Type :=
| Out_identity (r : result Z LiveHubError)
| Out_published (r : result PublishReport HubFault)
| Out_event (e : option Event)
| Out_done.

Definition hub_step (st : Hub) (op : HubOp) : HubOut * Hub :=
  match op with
  | Op_attach key => let '(r, st) := attach_publisher limits key st in (Out_identity r, st)
  | Op_replace key => let '(r, st) := replace_publisher limits key st in (Out_identity r, st)
  | Op_subscribe key => let '(r, st) := subscribe limits key st in (Out_identity r, st)
  | Op_publish key inc e => let '(r, st) := publish video_codec_id limits key inc e st in (Out_published r, st)
  | Op_release key inc => (Out_done, PublisherLease_drop key inc st)
  | Op_next key id => let '(e, st) := try_next key id st in (Out_event e, st)
  | Op_unsubscribe key id => (Out_done, PlaybackSubscription_drop key id st)
  end.

Abbreviation Trace := (list (HubOp * HubOut)).

Definition hub_extend (run : Trace * Hub) (op : HubOp) : Trace * Hub :=
  let '(out, st) := hub_step run.2 op in (run.1 ++ [(op, out)], st).

Definition hub_run (ops : list HubOp) : Trace * Hub := foldl hub_extend ([], LiveHubState_default) ops.

Definition op_made (op : HubOp) : Prop := match op with Op_publish _ _ e => made e | _ => True end.

Lemma hub_step_ok st op : hub_ok st -> op_made op -> hub_ok (hub_step st op).2.
Proof.
  intros H Hm. destruct op; cbn [hub_step]; unfold replace_publisher.
  - pose proof (attach_publisher_ok key st H). by destruct (attach_publisher limits key st).
  - pose proof (create_publisher_ok key st H). by destruct (create_publisher limits key st).
  - pose proof (subscribe_ok key st H). by destruct (subscribe limits key st).
  - pose proof (publish_ok key inc e st H Hm). by destruct (publish video_codec_id limits key inc e st).
  - by apply PublisherLease_drop_ok.
  - pose proof (try_next_ok key id st H). by destruct (try_next key id st).
  - by apply PlaybackSubscription_drop_ok.
Qed.

Lemma hub_default_ok : hub_ok LiveHubState_default.
Proof.
  constructor; simpl; [done|rewrite map_size_empty; lia|done|lia|done|lia].
Qed.

(** A property of the trace and the state that every step keeps holds in all runs. *)
Lemma hub_run_ind (P : Trace -> Hub -> Prop) (ops : list HubOp) :
  P [] LiveHubState_default -> Forall op_made ops ->
  (forall tr st op, P tr st -> hub_ok st -> op_made op -> P (tr ++ [(op, (hub_step st op).1)]) (hub_step st op).2) ->
  P (hub_run ops).1 (hub_run ops).2 /\ hub_ok (hub_run ops).2.
Proof.
  intros H0 Hops Hstep. unfold hub_run. induction ops as [|op ops IH] using rev_ind.
  - split; [done|]. apply hub_default_ok.
  - apply Forall_app in Hops as [Hops Hop]. apply Forall_cons_1 in Hop as [Hop _]. destruct (IH Hops) as [HP Hok].
    rewrite foldl_snoc. destruct (foldl hub_extend _ ops) as [tr st]. unfold hub_extend at 1 2 3. simpl in *.
    pose proof (Hstep tr st op HP Hok Hop). pose proof (hub_step_ok st op Hok Hop). by destruct (hub_step st op).
Qed.

Lemma publish_no_panic key inc e st : made e -> (publish video_codec_id limits key inc e st).1 <> Err Panicked.
Proof.
  intros Hm. unfold publish. repeat (case_match; simpl; [|done]).
  destruct (MediaCache_transition video_codec_id (cache _) e) as [t c].
  destruct (foldl _ _ _) as [[qs total] r]. destruct (store_Some c e Hm) as [c' ->]. done.
Qed.

(** ** What a viewer is shown *)

Definition audible (k : MediaEventKind) : bool :=
  match k with Metadata | AacSequenceHeader | Audio => true | _ => false end.

Definition latest (P : Event -> bool) (log : list Event) : option Event := last (filter (fun e => P e = true) log).

Definition latest_metadata (log : list Event) : option Event := latest (fun e => bool_decide (kind e = Metadata)) log.
Definition latest_aac (log : list Event) : option Event := latest (fun e => bool_decide (kind e = AacSequenceHeader)) log.
Definition latest_header (codec : VideoCodec) (log : list Event) : option Event :=
  latest (fun e => is_video_header (kind e) && bool_decide (video_codec e = Some codec)) log.

(** The start of a viewing at an audio frame, and at a key frame, of a publisher
    that has published [log] before: the current headers, then the frame. *)
Definition audio_start (log : list Event) (audio : Event) : list Event :=
  option_list (latest_metadata log) ++ option_list (latest_aac log) ++ [audio].
Definition video_start (log : list Event) (keyframe : Event) : list Event :=
  option_list (codec ← video_codec keyframe; latest_header codec log) ++ [keyframe].
Definition mixed_start (log : list Event) (keyframe : Event) : list Event :=
  option_list (latest_metadata log) ++ option_list (latest_aac log) ++ video_start log keyframe.

(** What is shown of what is published: all of it, up to disposable frames. *)
Inductive thins : list Event -> list Event -> Prop :=
| thins_nil : thins [] []
| thins_keep e log shown : thins log shown -> thins (e :: log) (e :: shown)
| thins_drop e log shown : kind e = VideoDisposable -> thins log shown -> thins (e :: log) shown.

(** A viewing without video: from an audio frame on everything audible, as long as
    no key frame comes. *)
Definition audio_segment (log seg : list Event) : Prop :=
  exists pre a post, log = pre ++ a :: post /\ kind a = Audio /\ Forall (fun e => kind e <> VideoKeyframe) post /\
    seg = audio_start pre a ++ filter (fun e => audible (kind e) = true) post.

(** A viewing with video: from a key frame on everything, all video being of the
    codec of the key frame; it starts afresh or goes on from one without video. *)
Definition mixed_segment (codec : option VideoCodec) (log seg : list Event) : Prop :=
  exists pre keyframe post shown start, log = pre ++ keyframe :: post /\ kind keyframe = VideoKeyframe /\
    video_codec keyframe = codec /\
    Forall (fun e => audible (kind e) = true \/ video_codec e = codec) post /\ thins post shown /\
    (start = mixed_start pre keyframe \/ exists seg0, audio_segment pre seg0 /\ start = seg0 ++ video_start pre keyframe) /\
    seg = start ++ shown.

Definition segment (log seg : list Event) : Prop := audio_segment log seg \/ exists codec, mixed_segment codec log seg.

Lemma latest_snoc P log e : latest P (log ++ [e]) = if P e then Some e else latest P log.
Proof.
  unfold latest. rewrite filter_app. simpl. rewrite filter_cons, filter_nil. case_decide as H.
  - rewrite last_snoc. by rewrite H.
  - rewrite app_nil_r. by destruct (P e).
Qed.

Lemma thins_snoc log shown e : thins log shown -> thins (log ++ [e]) (shown ++ [e]).
Proof. induction 1; simpl; constructor; try done. constructor. Qed.
Lemma thins_snoc_drop log shown e : kind e = VideoDisposable -> thins log shown -> thins (log ++ [e]) shown.
Proof. intros He. induction 1; simpl; constructor; try done. constructor. Qed.

Lemma audio_begins log e : kind e = Audio -> audio_segment (log ++ [e]) (audio_start log e).
Proof. intros He. exists log, e, []. rewrite filter_nil, app_nil_r. by split_and!. Qed.

Lemma audio_heard log seg e : audio_segment log seg -> audible (kind e) = true -> audio_segment (log ++ [e]) (seg ++ [e]).
Proof.
  intros (pre & a & post & -> & Ha & Hpost & ->) He. exists pre, a, (post ++ [e]).
  rewrite filter_app, filter_cons, filter_nil, decide_True by done. rewrite <- !app_assoc. split_and!; try done.
  apply Forall_app. split; [done|]. constructor; [|done]. by intros E; rewrite E in He.
Qed.

Lemma audio_ignored log seg e :
  audio_segment log seg -> audible (kind e) = false -> kind e <> VideoKeyframe -> audio_segment (log ++ [e]) seg.
Proof.
  intros (pre & a & post & -> & Ha & Hpost & ->) He Hk. exists pre, a, (post ++ [e]).
  rewrite filter_app, filter_cons, filter_nil, decide_False, app_nil_r by (by rewrite He). rewrite <- !app_assoc.
  split_and!; try done. apply Forall_app. split; [done|]. by constructor.
Qed.

Lemma mixed_begins log e : kind e = VideoKeyframe -> mixed_segment (video_codec e) (log ++ [e]) (mixed_start log e).
Proof.
  intros He. exists log, e, [], [], (mixed_start log e). rewrite app_nil_r. split_and!; try done; [constructor|by left].
Qed.

Lemma audio_upgrades log seg e :
  audio_segment log seg -> kind e = VideoKeyframe -> mixed_segment (video_codec e) (log ++ [e]) (seg ++ video_start log e).
Proof.
  intros Hs He. exists log, e, [], [], (seg ++ video_start log e). rewrite app_nil_r. split_and!; try done; [constructor|].
  right. eauto.
Qed.

Lemma mixed_shown codec log seg e :
  mixed_segment codec log seg -> (audible (kind e) = true \/ video_codec e = codec) ->
  mixed_segment codec (log ++ [e]) (seg ++ [e]).
Proof.
  intros (pre & kf & post & shown & start & -> & Hk & Hc & Hpost & Ht & Hs & ->) He.
  exists pre, kf, (post ++ [e]), (shown ++ [e]), start. rewrite <- !app_assoc. split_and!; try done; [|by apply thins_snoc].
  apply Forall_app. split; [done|]. by constructor.
Qed.

Lemma mixed_thinned codec log seg e :
  mixed_segment codec log seg -> kind e = VideoDisposable -> video_codec e = codec -> mixed_segment codec (log ++ [e]) seg.
Proof.
  intros (pre & kf & post & shown & start & -> & Hk & Hc & Hpost & Ht & Hs & ->) He Hco.
  exists pre, kf, (post ++ [e]), shown, start. rewrite <- !app_assoc. split_and!; try done; [|by apply thins_snoc_drop].
  apply Forall_app. split; [done|]. constructor; [by right|done].
Qed.

(** What was pulled of a viewing, and what is still queued, make up a segment. *)
Definition viewing (track : CurrentVideoTrack) (log : list Event) (q : Queue) (pulled : list Event) : Prop :=
  match subscriber_state q with
  | AwaitingMedia | AwaitingKeyframe => events q = [] /\ pulled = []
  | PlaysAudio => audio_segment log (pulled ++ events q)
  | PlaysMixed => exists codec, track = Track_Present codec /\ mixed_segment codec log (pulled ++ events q)
  end.

Definition shown_part (log s : list Event) : Prop := exists seg, segment log seg /\ s `prefix_of` seg.

(** A viewing goes on, or ends and what was pulled of it stays a part of a segment. *)
Definition moved (log pulled pulled' : list Event) : Prop :=
  pulled' = pulled \/ pulled' = [] /\ shown_part log pulled.

Lemma viewing_part track log q pulled : viewing track log q pulled -> moved log pulled [].
Proof.
  unfold viewing. destruct (subscriber_state q); [intros [_ ->]; by left..| |].
  - intros H. right. split; [done|]. eexists. split; [by left|by eexists].
  - intros (codec & _ & H). right. split; [done|]. eexists. split; [right; by eexists|by eexists].
Qed.

Lemma moved_trans log p1 p2 p3 : moved log p1 p2 -> moved log p2 p3 -> moved log p1 p3.
Proof. unfold moved. naive_solver. Qed.

Record cache_ok (c : MediaCache (T := T)) (log : list Event) : Prop := {
  cache_metadata_ok : cached_metadata c = latest_metadata log;
  cache_aac_ok : aac_sequence_header c = latest_aac log;
  cache_video_ok : forall codec, video_sequence_headers c !! codec = latest_header codec log;
}.

Lemma video_header_ok c log e : cache_ok c log ->
  video_sequence_header c e = (codec ← video_codec e; latest_header codec log).
Proof. intros [_ _ H]. unfold video_sequence_header. destruct (video_codec e); [apply H|done]. Qed.

Lemma store_ok c log e c' : cache_ok c log -> made e -> MediaCache_store c e = Some c' ->
  cache_ok c' (log ++ [e]) /\ video_track c' = video_track c.
Proof.
  intros [H1 H2 H3] Hm Hs.
  unfold latest_metadata, latest_aac, latest_header in *. unfold MediaCache_store in Hs.
  destruct (kind e) eqn:K; simplify_eq; [| |destruct (made_codec e Hm) as [codec Hc]; [by rewrite K|];
    rewrite Hc in Hs; simplify_eq/=..| | | |];
  (split; [|done]); constructor; unfold latest_metadata, latest_aac, latest_header; intros;
    rewrite latest_snoc, K; simpl; try done.
  all: destruct (decide (codec = codec0)) as [<-|Hne];
    [by rewrite lookup_insert_eq, Hc, bool_decide_eq_true_2|
     rewrite lookup_insert_ne, Hc, bool_decide_eq_false_2 by congruence; apply H3].
Qed.

Definition is_video (k : MediaEventKind) : bool := negb (audible k).

Lemma transition_cache c e t c' log : MediaCache_transition video_codec_id c e = (t, c') -> cache_ok c log ->
  cache_ok c' log /\ (is_video (kind e) = true -> video_track c' = Track_Present (video_codec e)).
Proof.
  unfold MediaCache_transition. intros H [H1 H2 H3]. destruct (kind e); simplify_eq/=; split; try done; by constructor.
Qed.

(** A viewing with video survives a message only if the track stays the same. *)
Lemma transition_mixed c e t c' codec : MediaCache_transition video_codec_id c e = (t, c') ->
  video_track c = Track_Present codec ->
  t = Transition_None /\ video_track c' = video_track c \/ t = Transition_Absent \/ t = Transition_Present true.
Proof.
  unfold MediaCache_transition, VideoTrackTransition_between. intros H Hc. rewrite Hc in H.
  destruct (kind e); simplify_eq/=; try (by left); (case_bool_decide as Heq; [left; split; congruence|right]);
    try (by right); by repeat case_match; auto.
Qed.

Lemma transition_viewing c e t c' log q total r pulled :
  MediaCache_transition video_codec_id c e = (t, c') -> viewing (video_track c) log q pulled ->
  exists pulled', moved log pulled pulled' /\
    viewing (video_track c') log (apply_video_transition t (q, total, r)).1.1 pulled'.
Proof.
  intros Ht Hv. pose proof (viewing_part _ _ _ _ Hv) as Hpart. pose proof Hv as Hv0. unfold viewing in Hv, Hv0.
  destruct (subscriber_state q) eqn:S.
  - exists pulled. split; [by left|]. unfold apply_video_transition, viewing. destruct t as [| |[]]; rewrite ?S; simpl; by rewrite ?S.
  - exists pulled. split; [by left|]. unfold apply_video_transition, viewing. destruct t as [| |[]]; rewrite ?S; simpl; by rewrite ?S.
  - exists pulled. split; [by left|]. unfold apply_video_transition, viewing. destruct t as [| |[]]; rewrite ?S; simpl; by rewrite ?S.
  - destruct Hv as (codec & Htr & Hseg). destruct (transition_mixed c e t c' codec Ht Htr) as [[-> Hsame]|[ ->| ->]].
    + exists pulled. split; [by left|]. unfold viewing. simpl. rewrite S, Hsame. eauto.
    + exists []. split; [done|]. unfold apply_video_transition, viewing. by rewrite S.
    + exists []. split; [done|]. unfold apply_video_transition, viewing. by rewrite S.
Qed.

Section Fanout.
Variables (c : MediaCache (T := T)) (log : list Event) (e : Event) (track : CurrentVideoTrack).
Hypotheses (Hc : cache_ok c log) (Hvideo : is_video (kind e) = true -> track = Track_Present (video_codec e)).

Definition awaits (q : Queue) : Prop :=
  events q = [] /\ (subscriber_state q = AwaitingMedia \/ subscriber_state q = AwaitingKeyframe).

Lemma awaits_viewing q l : awaits q -> viewing track l q [].
Proof. intros [He [Hs|Hs]]; unfold viewing; by rewrite Hs. Qed.

Lemma mixed_bootstrap_start : mixed_bootstrap c e = mixed_start log e.
Proof.
  unfold mixed_bootstrap, mixed_start, video_start. by rewrite (video_header_ok c log), (cache_metadata_ok _ _ Hc), (cache_aac_ok _ _ Hc).
Qed.

Lemma bootstrap_mixed q total r : awaits q -> kind e = VideoKeyframe ->
  viewing track (log ++ [e]) (enqueue_mixed_bootstrap c e limits (q, total, r)).1.1 [].
Proof.
  intros Hq He. unfold enqueue_mixed_bootstrap, enqueue_bootstrap.
  destruct (enqueue _ _ _ _) as [[q' total']|] eqn:E; [|by apply awaits_viewing].
  apply enqueue_Some in E as (-> & _). destruct Hq as [-> _]. unfold viewing. simpl. exists (video_codec e).
  split; [apply Hvideo; by rewrite He|]. rewrite mixed_bootstrap_start. by apply mixed_begins.
Qed.

Lemma bootstrap_audio q total r : awaits q -> kind e = Audio ->
  viewing track (log ++ [e]) (enqueue_audio_bootstrap c e limits (q, total, r)).1.1 [].
Proof.
  intros Hq He. unfold enqueue_audio_bootstrap, enqueue_bootstrap.
  destruct (enqueue _ _ _ _) as [[q' total']|] eqn:E; [|by apply awaits_viewing].
  apply enqueue_Some in E as (-> & _). destruct Hq as [-> _]. unfold viewing, audio_bootstrap. simpl.
  rewrite (cache_metadata_ok _ _ Hc), (cache_aac_ok _ _ Hc). by apply audio_begins.
Qed.

Lemma restarted s : s = AwaitingMedia \/ s = AwaitingKeyframe -> awaits (mkSubscriberQueue [] 0 s).
Proof. by split. Qed.

Lemma fanout_audio_viewing q total r pulled : subscriber_state q = PlaysAudio -> viewing track log q pulled ->
  exists pulled', moved log pulled pulled' /\ viewing track (log ++ [e]) (fanout_audio_event c e limits (q, total, r)).1.1 pulled'.
Proof.
  intros S Hv. pose proof (viewing_part _ _ _ _ Hv) as Hpart. unfold viewing in Hv. rewrite S in Hv. unfold fanout_audio_event.
  assert (forall q' total' batch, enqueue q batch limits total = Some (q', total') ->
    subscriber_state q' = PlaysAudio /\ events q' = events q ++ batch) as Hen.
  { intros q' total' batch (-> & _)%enqueue_Some. done. }
  assert (audible (kind e) = true -> exists pulled', moved log pulled pulled' /\ viewing track (log ++ [e])
    (match enqueue q [e] limits total with
     | Some (q, total) => (q, total, report_add 1 0 0 r)
     | None => let f := resynchronize AwaitingMedia 1 (q, total, r) in
               if bool_decide (kind e = Audio) then enqueue_audio_bootstrap c e limits f else f
     end).1.1 pulled') as Haudible.
  { intros He. destruct (enqueue q [e] limits total) as [[q' total']|] eqn:E.
    - apply Hen in E as [S' E]. exists pulled. split; [by left|]. unfold viewing. simpl. rewrite S', E, app_assoc. by apply audio_heard.
    - exists []. split; [done|]. cbv zeta. case_bool_decide; [apply bootstrap_audio; [apply restarted; by left|done]|].
      apply awaits_viewing, restarted. by left. }
  pose proof (fun q => bootstrap_mixed q) as Hboot. pose proof Hvideo as Htrack. destruct (kind e) eqn:K; try by apply Haudible.
  all: try (exists pulled; split; [by left|]; unfold viewing; simpl; rewrite S; apply audio_ignored; by rewrite ?K).
  cbv zeta. destruct (enqueue q (video_bootstrap c e) limits total) as [[q' total']|] eqn:E.
  - apply Hen in E as [S' E]. exists pulled. split; [by left|]. unfold viewing. simpl. exists (video_codec e). split; [by apply Htrack|].
    rewrite E, app_assoc. unfold video_bootstrap. rewrite (video_header_ok c log) by done. by apply audio_upgrades.
  - exists []. split; [done|]. apply Hboot; [apply restarted; by right|done].
Qed.

Lemma fanout_mixed_viewing q total r pulled : subscriber_state q = PlaysMixed -> viewing track log q pulled ->
  exists pulled', moved log pulled pulled' /\ viewing track (log ++ [e]) (fanout_mixed_event c e limits (q, total, r)).1.1 pulled'.
Proof.
  intros S Hv. pose proof (viewing_part _ _ _ _ Hv) as Hpart. unfold viewing in Hv. rewrite S in Hv.
  destruct Hv as (codec & Ht & Hseg). unfold fanout_mixed_event.
  assert (audible (kind e) = true \/ video_codec e = codec) as Hcodec.
  { destruct (audible (kind e)) eqn:Ha; [by left|right]. pose proof Hvideo as Htrack. unfold is_video in Htrack. rewrite Ht, Ha in Htrack.
    by injection (Htrack eq_refl). }
  destruct (enqueue q [e] limits total) as [[q' total']|] eqn:E.
  - apply enqueue_Some in E as (-> & _). exists pulled. split; [by left|]. unfold viewing. simpl. rewrite S. exists codec.
    split; [done|]. rewrite app_assoc. by apply mixed_shown.
  - case_bool_decide as Hd.
    + exists pulled. split; [by left|]. unfold viewing. simpl. rewrite S. exists codec. split; [done|]. apply mixed_thinned; try done.
      by destruct Hcodec as [Ha|]; [rewrite Hd in Ha|].
    + exists []. split; [done|]. cbv zeta. case_bool_decide; [apply bootstrap_mixed; [apply restarted; by right|done]|].
      apply awaits_viewing, restarted. by right.
Qed.

Lemma fanout_viewing q total r pulled : viewing track log q pulled ->
  exists pulled', moved log pulled pulled' /\ viewing track (log ++ [e]) (fanout_event c e limits (q, total, r)).1.1 pulled'.
Proof.
  intros Hv. unfold fanout_event. cbn [fst]. destruct (subscriber_state q) eqn:S;
    [| |by apply fanout_audio_viewing|by apply fanout_mixed_viewing].
  - unfold viewing in Hv. rewrite S in Hv. destruct Hv as [He ->]. exists []. split; [by left|].
    assert (awaits q) as Hq by (split; [done|by left]).
    pose proof (bootstrap_audio q total r Hq) as Ha. pose proof (bootstrap_mixed q total r Hq) as Hm.
    destruct (kind e) eqn:K; try (by apply awaits_viewing); [by apply Ha|by apply Hm].
  - unfold viewing in Hv. rewrite S in Hv. destruct Hv as [He ->]. exists []. split; [by left|].
    assert (awaits q) as Hq by (split; [done|by right]).
    case_bool_decide; [by apply bootstrap_mixed|by apply awaits_viewing].
Qed.
End Fanout.

(** Every subscriber is served once. *)
Lemma fanout_fold_lookup t (c : MediaCache (T := T)) (e : Event) (ids : list Z) (acc : gmap Z Queue * Z * PublishReport)
    (id : Z) (q' : Queue) : NoDup ids ->
  ((foldl (fanout_subscriber t c e limits) acc ids).1.1) !! id = Some q' ->
  ((id ∉ ids) /\ acc.1.1 !! id = Some q') \/
  (id ∈ ids /\ exists q total r, acc.1.1 !! id = Some q /\
     q' = (fanout_event c e limits (apply_video_transition t (q, total, r))).1.1).
Proof.
  revert acc. induction ids as [|i ids IH]; intros acc Hnd H; [left; split; [apply not_elem_of_nil|done]|].
  apply NoDup_cons in Hnd as [Hi Hnd]. simpl in H. apply IH in H; [|done]. destruct acc as [[qs total] r].
  unfold fanout_subscriber in H. cbn [fst snd] in *. destruct (qs !! i) as [q|] eqn:Q.
  - destruct (fanout_event c e limits (apply_video_transition t (q, total, r))) as [[q1 total1] r1] eqn:F. cbn [fst snd] in H.
    rewrite not_elem_of_cons, elem_of_cons. destruct (decide (id = i)) as [->|Hne].
    + destruct H as [[_ H]|[H _]]; [|done]. rewrite lookup_insert_eq in H. injection H as <-. right. split; [by left|].
      exists q, total, r. by rewrite F.
    + rewrite lookup_insert_ne in H by done. naive_solver.
  - cbn [fst snd] in H. rewrite not_elem_of_cons, elem_of_cons. destruct H as [[Hn H]|[Hn H]]; [left|right]; naive_solver.
Qed.

Lemma fanout_order_perm (qs : gmap Z Queue) : fanout_order qs ≡ₚ (map_to_list qs).*1.
Proof.
  unfold fanout_order. rewrite sort_unstable_perm, <- list_fmap_compose. done.
Qed.

Lemma published_lookup t c e (qs : gmap Z Queue) total r id q' :
  ((foldl (fanout_subscriber t c e limits) (qs, total, r) (fanout_order qs)).1.1) !! id = Some q' ->
  exists q total r, qs !! id = Some q /\ q' = (fanout_event c e limits (apply_video_transition t (q, total, r))).1.1.
Proof.
  intros [[Hn H]|[_ H]]%fanout_fold_lookup; [|done|].
  - exfalso. apply Hn. rewrite fanout_order_perm. apply list_elem_of_fmap. exists (id, q'). split; [done|].
    by apply elem_of_map_to_list.
  - rewrite fanout_order_perm. apply NoDup_fst_map_to_list.
Qed.

(** What a publisher published, and what a viewer pulled, in a trace. *)
Definition published (key : StreamKey) (inc : Z) (tr : Trace) : list Event :=
  omap (fun p => match p with
                 | (Op_publish key' inc' e, Out_published (Ok _)) =>
                     if decide (key' = key /\ inc' = inc) then Some e else None
                 | _ => None
                 end) tr.
Definition received (key : StreamKey) (id : Z) (tr : Trace) : list Event :=
  omap (fun p => match p with
                 | (Op_next key' id', Out_event (Some e)) => if decide (key' = key /\ id' = id) then Some e else None
                 | _ => None
                 end) tr.

Definition log_of (key : StreamKey) (s : LiveStream (T := T)) (tr : Trace) : list Event :=
  match publisher s with Some inc => published key inc tr | None => [] end.

Definition shown (tr : Trace) (key : StreamKey) (s : list Event) : Prop :=
  exists inc log, log `prefix_of` published key inc tr /\ shown_part log s.

(** The history of a viewer of a stream, and the viewing it is in. *)
Definition viewer_at (tr : Trace) (key : StreamKey) (id : Z) (os : option (LiveStream (T := T))) : Prop :=
  exists past pulled, received key id tr = concat past ++ pulled /\ Forall (shown tr key) past /\
    match os with
    | Some s => match subscribers s !! id with
                | Some q => viewing (video_track (cache s)) (log_of key s tr) q pulled
                | None => pulled = []
                end
    | None => pulled = []
    end.

Definition key_inv (tr : Trace) (key : StreamKey) (os : option (LiveStream (T := T))) : Prop :=
  (forall s, os = Some s -> cache_ok (cache s) (log_of key s tr)) /\ forall id, viewer_at tr key id os.

Record view_inv (tr : Trace) (st : Hub) : Prop := {
  view_keys : forall key, key_inv tr key (streams st !! key);
  view_fresh_id : forall key id, next_subscriber_id st < id -> received key id tr = [];
  view_fresh_inc : forall key inc, next_publisher_incarnation st < inc -> published key inc tr = [];
}.

(** A step that neither publishes to a stream nor shows anything of it. *)
Definition quiet (key : StreamKey) (step : HubOp * HubOut) : Prop :=
  (forall inc, published key inc [step] = []) /\ forall id, received key id [step] = [].

Lemma published_app key inc tr tr' : published key inc (tr ++ tr') = published key inc tr ++ published key inc tr'.
Proof. apply omap_app. Qed.
Lemma received_app key id tr tr' : received key id (tr ++ tr') = received key id tr ++ received key id tr'.
Proof. apply omap_app. Qed.

Lemma shown_mono tr tr' key s : shown tr key s -> shown (tr ++ tr') key s.
Proof.
  intros (inc & log & Hp & Hs). exists inc, log. split; [|done]. rewrite published_app. by apply prefix_app_r.
Qed.

Lemma log_of_quiet key s tr step : quiet key step -> log_of key s (tr ++ [step]) = log_of key s tr.
Proof. intros [Hp _]. unfold log_of. destruct (publisher s); [|done]. by rewrite published_app, Hp, app_nil_r. Qed.

Lemma key_inv_quiet tr key os step : quiet key step -> key_inv tr key os -> key_inv (tr ++ [step]) key os.
Proof.
  intros Hq [Hc Hv]. split; [intros s Hs; rewrite log_of_quiet by done; by apply Hc|]. intros id.
  destruct (Hv id) as (past & pulled & Hr & Hpast & Hview). exists past, pulled.
  rewrite received_app, (proj2 Hq), app_nil_r. split_and!; [done|eapply Forall_impl; [done|apply shown_mono]|].
  destruct os as [s|]; [|done]. destruct (subscribers s !! id); [|done]. by rewrite log_of_quiet.
Qed.

Lemma moved_shown tr key s past pulled pulled' :
  Forall (shown tr key) past -> moved (log_of key s tr) pulled pulled' ->
  exists past', concat past ++ pulled = concat past' ++ pulled' /\ Forall (shown tr key) past'.
Proof.
  intros Hpast [->|[-> Hs]]; [by exists past|]. exists (past ++ [pulled]). rewrite concat_app. simpl. rewrite !app_nil_r.
  split; [done|]. apply Forall_app. split; [done|]. constructor; [|done].
  unfold log_of in Hs. destruct (publisher s) as [inc|]; [by exists inc, (published key inc tr)|].
  destruct Hs as (seg & [(pre & a & post & E & _)|(codec & pre & kf & post & sh & start & E & _)] & _); by destruct pre.
Qed.

(** Leaving a viewing: what was pulled of it has been shown. *)
Lemma viewer_retires tr key id os : viewer_at tr key id os ->
  exists past, received key id tr = concat past /\ Forall (shown tr key) past.
Proof.
  intros (past & pulled & Hr & Hpast & Hview). assert (pulled = [] -> exists past, received key id tr = concat past /\ Forall (shown tr key) past) as Hnil.
  { intros ->. exists past. by rewrite app_nil_r in Hr. }
  destruct os as [s|]; [|by apply Hnil]. destruct (subscribers s !! id) as [q|] eqn:Hq; [|by apply Hnil].
  destruct (moved_shown tr key s past pulled [] Hpast (viewing_part _ _ _ _ Hview)) as (past' & E & Hp').
  exists past'. by rewrite Hr, E, app_nil_r.
Qed.

Lemma viewing_awaits track log (q : Queue) : awaits q -> viewing track log q [].
Proof. intros [He [Hs|Hs]]; unfold viewing; by rewrite Hs. Qed.

(** A stream whose viewers all wait, or that is gone. *)
Lemma key_inv_reset tr key os os' : key_inv tr key os ->
  (forall s, os' = Some s -> cache_ok (cache s) (log_of key s tr) /\ forall id q, subscribers s !! id = Some q -> awaits q) ->
  key_inv tr key os'.
Proof.
  intros [_ Hv] H'. split; [intros s Hs; by apply H'|]. intros id.
  destruct (viewer_retires _ _ _ _ (Hv id)) as (past & Hr & Hpast). exists past, []. rewrite app_nil_r. split_and!; try done.
  destruct os' as [s|]; [|done]. destruct (subscribers s !! id) as [q|] eqn:Hq; [|done].
  apply viewing_awaits. by eapply H'.
Qed.

Lemma hub_view_step tr st st' step key : view_inv tr st ->
  (forall k, k <> key -> quiet k step /\ streams st' !! k = streams st !! k) ->
  key_inv (tr ++ [step]) key (streams st' !! key) ->
  next_subscriber_id st <= next_subscriber_id st' -> next_publisher_incarnation st <= next_publisher_incarnation st' ->
  (forall id, next_subscriber_id st' < id -> received key id [step] = []) ->
  (forall inc, next_publisher_incarnation st' < inc -> published key inc [step] = []) ->
  view_inv (tr ++ [step]) st'.
Proof.
  intros [H1 H2 H3] Hother Hkey Hs Hp Hid Hinc. constructor.
  - intros k. destruct (decide (k = key)) as [->|Hne]; [done|]. destruct (Hother k Hne) as [Hq ->]. by apply key_inv_quiet.
  - intros k id Hlt. rewrite received_app, H2 by lia. destruct (decide (k = key)) as [->|Hne]; [by apply Hid|].
    by apply (Hother k Hne).
  - intros k inc Hlt. rewrite published_app, H3 by lia. destruct (decide (k = key)) as [->|Hne]; [by apply Hinc|].
    by apply (Hother k Hne).
Qed.

(** Operations other than publishing and pulling. *)
Definition silent (step : HubOp * HubOut) : Prop := forall key, quiet key step.

Lemma view_silent tr st st' step key : view_inv tr st -> silent step ->
  (forall k, k <> key -> streams st' !! k = streams st !! k) ->
  key_inv tr key (streams st' !! key) ->
  next_subscriber_id st <= next_subscriber_id st' -> next_publisher_incarnation st <= next_publisher_incarnation st' ->
  view_inv (tr ++ [step]) st'.
Proof.
  intros H Hq Hs Hkey Hi Hp. apply (hub_view_step tr st st' step key); try done.
  - intros k Hk. split; [apply Hq|by apply Hs].
  - by apply key_inv_quiet.
  - intros. apply Hq.
  - intros. apply Hq.
Qed.

Lemma view_same tr st step : view_inv tr st -> silent step -> view_inv (tr ++ [step]) st.
Proof.
  intros H Hq. apply (view_silent tr st st step (mkStreamKey [] [] [])); try done. apply H.
Qed.

Lemma cache_default_ok : cache_ok MediaCache_default [].
Proof. by constructor. Qed.

Lemma create_view tr st key step : view_inv tr st -> silent step -> view_inv (tr ++ [step]) (create_publisher limits key st).2.
Proof.
  intros H Hq. unfold create_publisher. case_match; [by apply view_same|].
  destruct (checked_add _ _ 1) as [inc|] eqn:E; [|by apply view_same]. apply checked_add_Some in E as [E _].
  cbn [reset_subscribers snd]. apply (view_silent tr st _ step key); try done; cbn; [| |lia].
  - intros k Hk. by rewrite lookup_insert_ne.
  - rewrite lookup_insert_eq. eapply key_inv_reset; [apply (view_keys _ _ H)|]. intros s [= <-]. cbn. split.
    + unfold log_of. cbn. rewrite (view_fresh_inc _ _ H) by lia. apply cache_default_ok.
    + intros id q. rewrite lookup_fmap. intros (q' & _ & ->)%fmap_Some. split; [done|by left].
Qed.

Lemma subscribe_view tr st key step : view_inv tr st -> hub_ok st -> silent step -> view_inv (tr ++ [step]) (subscribe limits key st).2.
Proof.
  intros H Hok Hq. unfold subscribe. do 3 (case_match; [by apply view_same|]).
  destruct (checked_add _ _ 1) as [id|] eqn:E; [|by apply view_same]. apply checked_add_Some in E as [E _]. cbn [snd].
  apply (view_silent tr st _ step key); try done; cbn; [| |lia].
  { intros k Hk. by rewrite lookup_insert_ne. }
  rewrite lookup_insert_eq. destruct (view_keys _ _ H key) as [Hc Hv]. split.
  - intros s [= <-]. destruct (streams st !! key) as [s0|]; cbn; [exact (Hc s0 eq_refl)|]. unfold log_of. cbn. apply cache_default_ok.
  - intros i. destruct (decide (i = id)) as [->|Hne].
    + exists [], []. rewrite (view_fresh_id _ _ H) by lia. split_and!; try done. cbn. rewrite lookup_insert_eq.
      apply viewing_awaits. split; [done|]. unfold SubscriberQueue_new. cbn. destruct (expects_video _); auto.
    + destruct (Hv i) as (past & pulled & Hr & Hp & Hview). exists past, pulled. split_and!; try done. cbn.
      rewrite lookup_insert_ne by done. destruct (streams st !! key) as [s0|]; cbn in *; [|by rewrite lookup_empty].
      unfold log_of in *. cbn. done.
Qed.

Lemma lease_drop_view tr st key inc step : view_inv tr st -> silent step -> view_inv (tr ++ [step]) (PublisherLease_drop key inc st).
Proof.
  intros H Hq. unfold PublisherLease_drop. destruct (streams st !! key) as [s|] eqn:Hs; [|by apply view_same].
  case_bool_decide as Hp; [|by apply view_same]. cbn [reset_subscribers subscribers].
  case_bool_decide as He; unfold set_streams, set_fanout_bytes; apply (view_silent tr st _ step key); try done; cbn.
  - intros k Hk. by rewrite lookup_delete_ne.
  - rewrite lookup_delete_eq. by eapply key_inv_reset; [apply (view_keys _ _ H)|].
  - intros k Hk. by rewrite lookup_insert_ne.
  - rewrite lookup_insert_eq. eapply key_inv_reset; [apply (view_keys _ _ H)|]. intros s' [= <-]. cbn. split.
    + unfold log_of. cbn. apply cache_default_ok.
    + intros id q. rewrite lookup_fmap. intros (q' & _ & ->)%fmap_Some. split; [done|by left].
Qed.

Lemma unsubscribe_view tr st key id step :
  view_inv tr st -> silent step -> view_inv (tr ++ [step]) (PlaybackSubscription_drop key id st).
Proof.
  intros H Hq. unfold PlaybackSubscription_drop. destruct (streams st !! key) as [s|] eqn:Hs; [|by apply view_same].
  destruct (subscribers s !! id) as [q|] eqn:Hid; [|by apply view_same].
  destruct (view_keys _ _ H key) as [Hc Hv]. rewrite Hs in Hc, Hv.
  destruct (bool_decide _ && bool_decide _) eqn:E; apply (view_silent tr st _ step key); try done; cbn.
  - intros k Hk. by rewrite lookup_delete_ne.
  - rewrite lookup_delete_eq. eapply key_inv_reset; [by split|done].
  - intros k Hk. by rewrite lookup_insert_ne.
  - rewrite lookup_insert_eq. split; [intros s' [= <-]; exact (Hc s eq_refl)|]. intros i.
    destruct (decide (i = id)) as [->|Hne].
    + destruct (viewer_retires _ _ _ _ (Hv id)) as (past & Hr & Hpast). exists past, []. rewrite app_nil_r. split_and!; try done.
      cbn. by rewrite lookup_delete_eq.
    + destruct (Hv i) as (past & pulled & Hr & Hp & Hview). exists past, pulled. split_and!; try done. cbn.
      by rewrite lookup_delete_ne.
Qed.

Lemma received_next key id key' id' e :
  received key' id' [(Op_next key id, Out_event (Some e))] = if decide (key = key' /\ id = id') then [e] else [].
Proof. unfold received. simpl. by case_decide. Qed.

Lemma next_view tr st key id : view_inv tr st -> hub_ok st ->
  view_inv (tr ++ [(Op_next key id, Out_event (try_next key id st).1)]) (try_next key id st).2.
Proof.
  intros H Hok. assert (silent (Op_next key id, Out_event None)) as Hsilent by done.
  unfold try_next. destruct (streams st !! key) as [s|] eqn:Hs; [|by apply view_same].
  destruct (subscribers s !! id) as [q|] eqn:Hid; [|by apply view_same].
  destruct (events q) as [|e rest] eqn:He; [by apply view_same|]. cbn [fst snd].
  destruct (view_keys _ _ H key) as [Hc Hv]. rewrite Hs in Hc, Hv.
  assert (id <= next_subscriber_id st) as Hle by apply (stream_queues _ _ _ (hub_streams _ Hok key s Hs) id q Hid).
  eapply (hub_view_step tr st _ _ key); try done; cbn.
  - intros k Hk. split; [|by rewrite lookup_insert_ne]. split; [done|]. intros i. rewrite received_next. case_decide; naive_solver.
  - rewrite lookup_insert_eq.
    assert (forall s, log_of key s (tr ++ [(Op_next key id, Out_event (Some e))]) = log_of key s tr) as Hlog.
    { intros s'. unfold log_of. destruct (publisher s'); [|done]. by rewrite published_app, app_nil_r. }
    split; [intros s' [= <-]; rewrite Hlog; exact (Hc s eq_refl)|]. intros i.
    destruct (Hv i) as (past & pulled & Hr & Hpast & Hview). rewrite <- (Hlog s) in Hview.
    assert (Forall (shown (tr ++ [(Op_next key id, Out_event (Some e))]) key) past) as Hpast'
      by (eapply Forall_impl; [done|apply shown_mono]).
    unfold viewer_at. rewrite received_app, received_next, Hr. destruct (decide (i = id)) as [->|Hne].
    + rewrite decide_True by done. exists past, (pulled ++ [e]). rewrite <- app_assoc. split_and!; try done. cbn.
      rewrite lookup_insert_eq. rewrite Hid in Hview. unfold viewing, log_of in *. cbn. rewrite He in Hview.
      destruct (subscriber_state q); try (by destruct Hview); by rewrite <- app_assoc.
    + rewrite decide_False, app_nil_r by naive_solver. exists past, pulled. split_and!; try done. cbn.
      by rewrite lookup_insert_ne.
  - intros i Hi. rewrite decide_False; [done|]. intros [_ ->]. lia.
Qed.

Lemma published_one key inc key' inc' e r :
  published key' inc' [(Op_publish key inc e, Out_published (Ok r))] = if decide (key = key' /\ inc = inc') then [e] else [].
Proof. unfold published. simpl. by case_decide. Qed.

Lemma publish_view tr st key inc e : view_inv tr st -> hub_ok st -> made e ->
  view_inv (tr ++ [(Op_publish key inc e, Out_published (publish video_codec_id limits key inc e st).1)])
    (publish video_codec_id limits key inc e st).2.
Proof.
  intros H Hok Hm. unfold publish. destruct (validate_cache_size limits e); [|by apply view_same].
  destruct (streams st !! key) as [s|] eqn:Hs; [|by apply view_same]. case_bool_decide as Hp; [|by apply view_same].
  destruct (MediaCache_transition video_codec_id (cache s) e) as [t c] eqn:Ht.
  destruct (foldl _ _ _) as [[qs total] r] eqn:F. destruct (store_Some c e Hm) as [c' Hstore]. rewrite Hstore. cbn [fst snd].
  destruct (view_keys _ _ H key) as [Hc Hv]. rewrite Hs in Hc, Hv. specialize (Hc s eq_refl).
  destruct (transition_cache _ _ _ _ _ Ht Hc) as [Hcache Htrack].
  destruct (store_ok _ _ _ _ Hcache Hm Hstore) as [Hcache' Hsame].
  set (step := (_, _)). assert (forall k i, published k i [step] = if decide (key = k /\ inc = i) then [e] else []) as Hpub
    by (intros; apply published_one).
  assert (forall k i, received k i [step] = []) as Hrec by done.
  set (s' := mkLiveStream (publisher s) c' qs).
  assert (log_of key s' (tr ++ [step]) = log_of key s tr ++ [e]) as Hlog.
  { unfold log_of. cbn. rewrite Hp, published_app, Hpub, decide_True by done. done. }
  eapply (hub_view_step tr st _ step key); try done; cbn.
  - intros k Hk. split; [|by rewrite lookup_insert_ne]. split; [|done]. intros i. rewrite Hpub, decide_False; [done|naive_solver].
  - rewrite lookup_insert_eq. split; [intros ? [= <-]; fold s'; by rewrite Hlog|]. intros i. unfold viewer_at.
    rewrite received_app, Hrec, app_nil_r. fold s'. cbn [subscribers s'].
    destruct (qs !! i) as [q'|] eqn:Hq'.
    + pose proof (published_lookup t c e (subscribers s) (fanout_bytes st) (mkPublishReport 0 0 0 0) i q') as L.
      rewrite F in L. destruct (L Hq') as (q & total0 & r0 & Hq & ->).
      destruct (Hv i) as (past & pulled & Hr & Hpast & Hview). rewrite Hq in Hview.
      destruct (transition_viewing _ _ _ _ _ _ total0 r0 _ Ht Hview) as (p1 & Hm1 & Hv1).
      destruct (apply_video_transition t (q, total0, r0)) as [[q1 total1] r1]. cbn [fst] in Hv1.
      destruct (fanout_viewing c _ e _ Hcache Htrack q1 total1 r1 p1 Hv1) as (p2 & Hm2 & Hv2).
      destruct (moved_shown tr key s past pulled p2 Hpast (moved_trans _ _ _ _ Hm1 Hm2)) as (past' & E & Hpast').
      exists past', p2. rewrite Hr, E. split_and!; [done|eapply Forall_impl; [done|apply shown_mono]|].
      rewrite Hlog. cbn [cache s']. by rewrite Hsame.
    + destruct (viewer_retires _ _ _ _ (Hv i)) as (past & Hr & Hpast). exists past, []. rewrite app_nil_r.
      split_and!; [done|eapply Forall_impl; [done|apply shown_mono]|done].
  - intros i Hi. rewrite decide_False; [done|]. intros [_ <-].
    pose proof (stream_publisher _ _ _ (hub_streams _ Hok key s Hs) inc Hp). lia.
Qed.

Lemma attach_view tr st key step : view_inv tr st -> silent step -> view_inv (tr ++ [step]) (attach_publisher limits key st).2.
Proof. intros H Hq. unfold attach_publisher. do 2 (case_match; [by apply view_same|]). by apply create_view. Qed.

Lemma hub_view_run ops : Forall op_made ops -> view_inv (hub_run ops).1 (hub_run ops).2.
Proof.
  intros Hops. apply (hub_run_ind view_inv); [|done|].
  - constructor; try done. intros key. cbn. split; [done|]. intros id. by exists [], [].
  - intros tr st op H Hok Hm. destruct op; cbn [hub_step].
    + pose proof (attach_view tr st key (Op_attach key, Out_identity (attach_publisher limits key st).1) H) as G.
      destruct (attach_publisher limits key st). by apply G.
    + pose proof (create_view tr st key (Op_replace key, Out_identity (create_publisher limits key st).1) H) as G.
      unfold replace_publisher. destruct (create_publisher limits key st). by apply G.
    + pose proof (subscribe_view tr st key (Op_subscribe key, Out_identity (subscribe limits key st).1) H Hok) as G.
      destruct (subscribe limits key st). by apply G.
    + pose proof (publish_view tr st key inc e H Hok Hm) as G. by destruct (publish video_codec_id limits key inc e st).
    + by apply lease_drop_view.
    + pose proof (next_view tr st key id H Hok) as G. by destruct (try_next key id st).
    + by apply unsubscribe_view.
Qed.

Lemma no_panic_run ops : Forall op_made ops ->
  Forall (fun p => p.2 <> Out_published (Err Panicked)) (hub_run ops).1 /\ hub_ok (hub_run ops).2.
Proof.
  intros Hops. apply (hub_run_ind (fun tr _ => Forall (fun p => p.2 <> Out_published (Err Panicked)) tr)); [done..|].
  intros tr st op H _ Hm. apply Forall_app. split; [done|]. constructor; [|done]. cbn [snd].
  destruct op; cbn [hub_step]; unfold replace_publisher; try by repeat case_match.
  pose proof (publish_no_panic key inc e st Hm). destruct (publish video_codec_id limits key inc e st). simpl in *. congruence.
Qed.
End Facts.

(** Limits that allow anything at all: sizes are unsigned and a stream may have a
    viewer. *)
Definition limits_ok (l : LiveHubLimits) : Prop :=
  0 <= max_queue_messages_per_subscriber l /\ 0 <= max_queue_bytes_per_subscriber l /\ 0 <= max_fanout_bytes l /\
  0 <= max_streams l /\ 0 <= max_subscribers l /\ 0 < max_subscribers_per_stream l.

(** C9: However publishers and viewers come, go, publish and pull, no call panics;
    every queue holds at most the messages and bytes it may and knows its bytes
    exactly; the bytes of all queues are exactly the count the hub keeps, and
    within its limit; so are the streams and viewers; and a stream is kept only
    while it has a publisher or a viewer. *)
Theorem live_hub_bounded {T} (video_codec_id : T -> option Z) (limits : LiveHubLimits) (ops : list (HubOp (T := T))) :
  limits_ok limits -> Forall op_made ops ->
  let '(tr, st) := hub_run video_codec_id limits ops in
  Forall (fun p => p.2 <> Out_published (Err Panicked)) tr /\
  Z.of_nat (size (streams st)) <= max_streams limits /\
  subscriber_count st = msum viewers (streams st) /\ subscriber_count st <= max_subscribers limits /\
  fanout_bytes st = msum stream_bytes (streams st) /\ fanout_bytes st <= max_fanout_bytes limits /\
  forall key s, streams st !! key = Some s ->
    (publisher s = None -> subscribers s <> ∅) /\ viewers s <= max_subscribers_per_stream limits /\
    forall id q, subscribers s !! id = Some q ->
      queue_bytes q = payload_total (events q) /\ queue_bytes q <= max_queue_bytes_per_subscriber limits /\
      len (events q) <= max_queue_messages_per_subscriber limits.
Proof.
  intros Hl Hops. destruct (no_panic_run video_codec_id limits Hl ops Hops) as [Hp [H1 H2 H3 H4 H5 H6]].
  destruct (hub_run video_codec_id limits ops) as [tr st]. split_and!; try done. intros key s Hs.
  destruct (H1 key s Hs) as [Hq Hv Hu _]. split_and!; try done. intros id q Hid. by destruct (Hq id q Hid) as [[] _].
Qed.

(** C10: What a viewer has pulled is a sequence of beginnings of viewings, each of
    one publisher of its stream.  A viewing starts with the headers that were
    current and an audio frame or a key frame, and goes on with everything that
    was published from there, except disposable frames and, before the first key
    frame, video; and all its video is of the codec of its key frame.  So no
    frame is shown without those it depends on. *)
Theorem live_viewer_complete {T} (video_codec_id : T -> option Z) (limits : LiveHubLimits) (ops : list (HubOp (T := T)))
    (key : StreamKey) (id : Z) :
  limits_ok limits -> Forall op_made ops ->
  let tr := (hub_run video_codec_id limits ops).1 in
  exists parts, received key id tr = concat parts /\
    Forall (fun part => exists inc log seg,
      log `prefix_of` published key inc tr /\ segment log seg /\ part `prefix_of` seg) parts.
Proof.
  intros Hl Hops tr. pose proof (hub_view_run video_codec_id limits Hl ops Hops) as [Hk _ _].
  destruct (viewer_retires _ _ _ _ (proj2 (Hk key) id)) as (past & Hr & Hpast). exists past. split; [done|].
  eapply Forall_impl; [done|]. intros part (inc & log & Hlog & seg & Hseg & Hpart). by exists inc, log, seg.
Qed.

Definition example_limits : LiveHubLimits := mkLiveHubLimits 2 4 2 4 40 60 100 100.
Definition example_key : StreamKey := mkStreamKey (lit "rtmp") (lit "live") (lit "cam").
Definition example_video (at_ms : Z) (body : bytes) : MediaEvent Z :=
  match MediaEvent_video at_ms body with Ok e => e | Err _ => mkMediaEvent Metadata 0 [] None None None end.
Definition example_header : MediaEvent Z := example_video 0 [x17; x00; x00; x00; x00; x01].
Definition example_keyframe : MediaEvent Z := example_video 10 [x17; x01; x00; x00; x00; x65].
Definition example_frame (at_ms : Z) : MediaEvent Z := example_video at_ms [x27; x01; x00; x00; x00; x41].

Definition example_ops : list (HubOp (T := Z)) :=
  [Op_attach example_key; Op_subscribe example_key; Op_publish example_key 1 example_header;
   Op_publish example_key 1 (example_frame 5); Op_publish example_key 1 example_keyframe;
   Op_publish example_key 1 (example_frame 20); Op_next example_key 1; Op_next example_key 1; Op_next example_key 1].

Lemma example_made : Forall op_made example_ops.
Proof.
  unfold example_ops. rewrite !Forall_cons. split_and!; try done; right; left.
  - by exists 0, [x17; x00; x00; x00; x00; x01].
  - by exists 5, [x27; x01; x00; x00; x00; x41].
  - by exists 10, [x17; x01; x00; x00; x00; x65].
  - by exists 20, [x27; x01; x00; x00; x00; x41].
Qed.

Lemma live_hub_bounded_witness :
  fanout_bytes (hub_run Some example_limits (take 6 example_ops)).2 = 18 /\
  Z.of_nat (size (streams (hub_run Some example_limits (take 6 example_ops)).2)) <= 2.
Proof.
  split; [by vm_compute|].
  pose proof (live_hub_bounded Some example_limits (take 6 example_ops) ltac:(unfold limits_ok; simpl; lia)
    (Forall_take _ _ _ example_made)) as H.
  destruct (hub_run Some example_limits (take 6 example_ops)) as [tr st]. apply H.
Defined.

Lemma live_viewer_complete_witness :
  received example_key 1 (hub_run Some example_limits example_ops).1 = [example_header; example_keyframe; example_frame 20] /\
  exists parts, [example_header; example_keyframe; example_frame 20] = concat parts.
Proof.
  assert (received example_key 1 (hub_run Some example_limits example_ops).1 =
    [example_header; example_keyframe; example_frame 20]) as E by (by vm_compute).
  pose proof (live_viewer_complete Some example_limits example_ops example_key 1 ltac:(unfold limits_ok; simpl; lia) example_made) as H.
  split; [exact E|]. destruct H as (parts & H & _). exists parts. rewrite <- E. exact H.
Defined.
