(* ===== verification/Flv.v ===== *)
(** FLV recordings of the media server: the muxer that writes them
    ([oxiroute-rtmp/src/flv.rs]) as the recording worker drives it
    ([recording_worker.rs]), the inspection of a recording that is to be resumed
    ([recording_store/flv.rs]), and the reader of video on demand ([vod.rs]).

    The output of the muxer is any type with the calls of [Write] and [Seek] it
    makes.  What panics is an error of its own. *)

From stdpp Require Import base list strings.
From Stdlib Require Import ZArith Lia Strings.Byte.
From S2P Require Import Prelude Bytes Media.

Definition FLV_HEADER : bytes := lit "FLV" ++ [x01; x00; x00; x00; x00; x09; x00; x00; x00; x00].
Definition FLV_TAG_HEADER_SIZE : Z := 11.
Definition AUDIO_FLAG : Z := 4.
Definition VIDEO_FLAG : Z := 1.
Definition KEYFRAME_TYPE : Z := 1.
Definition TIMESTAMP_HALF_RANGE : Z := 2 ^ 31.
Definition MAX_CACHED_CODEC_HEADER_SIZE : Z := 64 * 1024.

Inductive FlvTagType : Type := Tag_Audio | Tag_Video | Tag_Metadata.
#[export] Instance FlvTagType_eq_dec : EqDecision FlvTagType.
Proof. solve_decision. Defined.

Inductive FlvMuxerError (Io : Type) : Type :=
| MalformedPayload (t : FlvTagType)
| PayloadTooLarge (t : FlvTagType) (size : Z)
| CodecHeaderTooLarge (t : FlvTagType) (size : Z)
| FlvIo (source : Io)
| FlvPanic.
Arguments MalformedPayload {Io}.
Arguments PayloadTooLarge {Io}.
Arguments CodecHeaderTooLarge {Io}.
Arguments FlvIo {Io}.
Arguments FlvPanic {Io}.

Inductive AudioPacketKind : Type := Packet_AacSequenceHeader | Packet_AacRaw | Packet_AudioMedia.
Inductive VideoPacketKind : Type := Packet_SequenceHeader | Packet_Keyframe | Packet_Other | Packet_VideoMedia.

(** [Write] and [Seek], with [seek] only from the start. *)
Class WriteSeek (W Io : Type) := {
  write_all : bytes -> M W Io unit;
  stream_position : M W Io Z;
  seek_start : Z -> M W Io unit;
  flush : M W Io unit;
}.

Section Classification.
Context {Io : Type}.
Abbreviation Res A := (result A (FlvMuxerError Io)).

Definition validate_size (t : FlvTagType) (body : bytes) : Res unit :=
  if MAX_FLV_TAG_DATA_SIZE <? len body then Err (PayloadTooLarge t (len body)) else Ok tt.

Definition tag_size (body : bytes) : Z := saturating_add u64_max (len body) (FLV_TAG_HEADER_SIZE + 4).

Definition validate_codec_header_size (t : FlvTagType) (body : bytes) : Res unit :=
  if MAX_CACHED_CODEC_HEADER_SIZE <? len body then Err (CodecHeaderTooLarge t (len body)) else Ok tt.

Definition classify_audio (body : bytes) : Res AudioPacketKind :=
  match body with
  | [] => Err (MalformedPayload Tag_Audio)
  | sound_header :: _ =>
      if negb (Z.shiftr (b2z sound_header) 4 =? AAC_CODEC_ID) then Ok Packet_AudioMedia
      else
        match b2z <$> body !! 1%nat with
        | Some 0 => if 2 <? len body then Ok Packet_AacSequenceHeader else Err (MalformedPayload Tag_Audio)
        | Some 1 => Ok Packet_AacRaw
        | _ => Err (MalformedPayload Tag_Audio)
        end
  end.

Definition flv_classify_enhanced_video (body : bytes) (video_header : Z) : Res VideoPacketKind :=
  let four_cc := slice body 1 5 in
  if (len body <=? 5) || negb (beqb four_cc (lit "avc1") || beqb four_cc (lit "hvc1") || beqb four_cc (lit "av01"))
  then Err (MalformedPayload Tag_Video)
  else
    let frame_type := Z.land (Z.shiftr video_header 4) 7 in
    if negb (in_range 1 5 frame_type) then Err (MalformedPayload Tag_Video)
    else
      match Z.land video_header 15 with
      | 0 => if frame_type =? KEYFRAME_TYPE then Ok Packet_SequenceHeader else Err (MalformedPayload Tag_Video)
      | 1 | 3 => if frame_type =? KEYFRAME_TYPE then Ok Packet_Keyframe else Ok Packet_Other
      | _ => Err (MalformedPayload Tag_Video)
      end.

Definition classify_video (body : bytes) : Res VideoPacketKind :=
  match body with
  | [] => Err (MalformedPayload Tag_Video)
  | b :: _ =>
      let video_header := b2z b in
      if negb (Z.land video_header 128 =? 0) then flv_classify_enhanced_video body video_header
      else
        let frame_type := Z.shiftr video_header 4 in
        let codec_id := Z.land video_header 15 in
        if negb (in_range 1 5 frame_type) || negb (in_range 1 7 codec_id) then Err (MalformedPayload Tag_Video)
        else if negb (codec_id =? AVC_CODEC_ID) then Ok Packet_VideoMedia
        else if len body <? 5 then Err (MalformedPayload Tag_Video)
        else
          match b2z <$> body !! 1%nat with
          | Some 0 => if 5 <? len body then Ok Packet_SequenceHeader else Err (MalformedPayload Tag_Video)
          | Some 1 =>
              if 5 <? len body then (if frame_type =? KEYFRAME_TYPE then Ok Packet_Keyframe else Ok Packet_Other)
              else Err (MalformedPayload Tag_Video)
          | Some 2 => Ok Packet_Other
          | _ => Err (MalformedPayload Tag_Video)
          end
  end.

Definition relative_timestamp (first_timestamp_ms timestamp_ms : Z) : Z :=
  let elapsed := wrapping_sub u32_max timestamp_ms first_timestamp_ms in
  if elapsed <? TIMESTAMP_HALF_RANGE then elapsed else 0.
End Classification.

(** ** The muxer *)

Section Muxer.
Context {W Io : Type} `{!WriteSeek W Io}.

Record FlvMuxer : Type := mkFlvMuxer {
  writer : W;
  header_start : Z;
  flags : Z;
  timestamp_base_ms : Z;
  first_media_timestamp_ms : option Z;
  cached_codec_headers : list (FlvTagType * bytes);
  aac_sequence_header_seen : bool;
  video_sequence_header_seen : bool;
  waiting_for_video_keyframe : bool;
}.

Abbreviation MM A := (M FlvMuxer (FlvMuxerError Io) A).

Definition set_writer (w : W) (m : FlvMuxer) : FlvMuxer :=
  mkFlvMuxer w (header_start m) (flags m) (timestamp_base_ms m) (first_media_timestamp_ms m) (cached_codec_headers m)
    (aac_sequence_header_seen m) (video_sequence_header_seen m) (waiting_for_video_keyframe m).
Definition set_flags (f : Z) (m : FlvMuxer) : FlvMuxer :=
  mkFlvMuxer (writer m) (header_start m) f (timestamp_base_ms m) (first_media_timestamp_ms m) (cached_codec_headers m)
    (aac_sequence_header_seen m) (video_sequence_header_seen m) (waiting_for_video_keyframe m).
Definition set_started (t : Z) (m : FlvMuxer) : FlvMuxer :=
  mkFlvMuxer (writer m) (header_start m) (flags m) (timestamp_base_ms m) (Some t) [] (aac_sequence_header_seen m)
    (video_sequence_header_seen m) (waiting_for_video_keyframe m).
Definition set_cached (l : list (FlvTagType * bytes)) (m : FlvMuxer) : FlvMuxer :=
  mkFlvMuxer (writer m) (header_start m) (flags m) (timestamp_base_ms m) (first_media_timestamp_ms m) l
    (aac_sequence_header_seen m) (video_sequence_header_seen m) (waiting_for_video_keyframe m).
Definition set_aac_seen (m : FlvMuxer) : FlvMuxer :=
  mkFlvMuxer (writer m) (header_start m) (flags m) (timestamp_base_ms m) (first_media_timestamp_ms m)
    (cached_codec_headers m) true (video_sequence_header_seen m) (waiting_for_video_keyframe m).
Definition set_video_seen (m : FlvMuxer) : FlvMuxer :=
  mkFlvMuxer (writer m) (header_start m) (flags m) (timestamp_base_ms m) (first_media_timestamp_ms m)
    (cached_codec_headers m) (aac_sequence_header_seen m) true true.
Definition set_waiting (b : bool) (m : FlvMuxer) : FlvMuxer :=
  mkFlvMuxer (writer m) (header_start m) (flags m) (timestamp_base_ms m) (first_media_timestamp_ms m)
    (cached_codec_headers m) (aac_sequence_header_seen m) (video_sequence_header_seen m) b.

(** A call on the output. *)
Definition on_writer {A} (c : M W Io A) : MM A := fun m =>
  let '(r, w) := c (writer m) in (map_err FlvIo r, set_writer w m).

Definition FlvMuxer_new : M W (FlvMuxerError Io) FlvMuxer := fun w =>
  match stream_position w with
  | (Err e, w) => (Err (FlvIo e), w)
  | (Ok start, w) =>
      match write_all FLV_HEADER w with
      | (Err e, w) => (Err (FlvIo e), w)
      | (Ok _, w) => (Ok (mkFlvMuxer w start 0 0 None [] false false false), w)
      end
  end.

Definition FlvMuxer_resume (w : W) (flags last_timestamp_ms : Z) : FlvMuxer :=
  mkFlvMuxer w 0 flags last_timestamp_ms None [] false false false.

Definition tag_type_byte (t : FlvTagType) : byte := match t with Tag_Audio => x08 | Tag_Video => x09 | Tag_Metadata => x12 end.
Definition tag_flag (t : FlvTagType) : Z := match t with Tag_Audio => AUDIO_FLAG | Tag_Video => VIDEO_FLAG | Tag_Metadata => 0 end.

Definition write_tag (t : FlvTagType) (timestamp_ms : Z) (body : bytes) : MM unit :=
  if u32_max <? len body then mfail FlvPanic
  else
    let data_size_bytes := be_bytes 4 (len body) in
    let timestamp_bytes := be_bytes 4 timestamp_ms in
    let header := [tag_type_byte t] ++ slice data_size_bytes 1 4 ++ slice timestamp_bytes 1 4 ++ slice timestamp_bytes 0 1 ++
                  [x00; x00; x00] in
    let! _ := on_writer (write_all header) in
    let! _ := on_writer (write_all body) in
    let! _ := on_writer (write_all (be_bytes 4 (FLV_TAG_HEADER_SIZE + len body))) in
    mwrite (fun m => set_flags (Z.lor (flags m) (tag_flag t)) m).

Definition write_normalized_tag (t : FlvTagType) (timestamp_ms : Z) (body : bytes) : MM unit := fun m =>
  match first_media_timestamp_ms m with
  | None => (Err FlvPanic, m)
  | Some first_timestamp =>
      write_tag t (saturating_add u32_max (timestamp_base_ms m) (relative_timestamp first_timestamp timestamp_ms)) body m
  end.

(** The first header of a type is taken out of the list. *)
Fixpoint drop_header (t : FlvTagType) (headers : list (FlvTagType * bytes)) : list (FlvTagType * bytes) :=
  match headers with
  | [] => []
  | h :: headers => if bool_decide (h.1 = t) then headers else h :: drop_header t headers
  end.

Definition cache_codec_header (t : FlvTagType) (body : bytes) (m : FlvMuxer) : FlvMuxer :=
  set_cached (drop_header t (cached_codec_headers m) ++ [(t, body)]) m.

Definition cached_codec_header_size (m : FlvMuxer) : Z :=
  foldr (fun h acc => tag_size h.2 + acc) 0 (cached_codec_headers m).

Fixpoint write_headers (base : Z) (headers : list (FlvTagType * bytes)) : MM unit :=
  match headers with
  | [] => mret tt
  | (t, body) :: headers => let! _ := write_tag t base body in write_headers base headers
  end.

Definition start_if_needed (timestamp_ms : Z) : MM unit := fun m =>
  match first_media_timestamp_ms m with
  | Some _ => (Ok tt, m)
  | None => write_headers (timestamp_base_ms m) (cached_codec_headers m) (set_started timestamp_ms m)
  end.

Definition started (m : FlvMuxer) : bool := bool_decide (is_Some (first_media_timestamp_ms m)).

Definition write_header_packet (t : FlvTagType) (timestamp_ms : Z) (body : bytes) : MM unit := fun m =>
  if started m then write_normalized_tag t timestamp_ms body m else (Ok tt, cache_codec_header t body m).

Definition write_media (t : FlvTagType) (timestamp_ms : Z) (body : bytes) : MM unit :=
  let! _ := start_if_needed timestamp_ms in write_normalized_tag t timestamp_ms body.

Definition write_audio (timestamp_ms : Z) (body : bytes) : MM unit :=
  let! _ := mlift (validate_size Tag_Audio body) in
  let! k := mlift (classify_audio body) in
  match k with
  | Packet_AacSequenceHeader =>
      let! _ := mlift (validate_codec_header_size Tag_Audio body) in
      let! _ := mwrite set_aac_seen in
      write_header_packet Tag_Audio timestamp_ms body
  | Packet_AacRaw => fun m =>
      if negb (aac_sequence_header_seen m) then (Ok tt, m)
      else if waiting_for_video_keyframe m then (Ok tt, m)
      else write_media Tag_Audio timestamp_ms body m
  | Packet_AudioMedia => fun m =>
      if waiting_for_video_keyframe m then (Ok tt, m) else write_media Tag_Audio timestamp_ms body m
  end.

Definition write_video (timestamp_ms : Z) (body : bytes) : MM unit :=
  let! _ := mlift (validate_size Tag_Video body) in
  let! k := mlift (classify_video body) in
  match k with
  | Packet_SequenceHeader =>
      let! _ := mlift (validate_codec_header_size Tag_Video body) in
      let! _ := mwrite set_video_seen in
      write_header_packet Tag_Video timestamp_ms body
  | Packet_Keyframe => fun m =>
      if negb (video_sequence_header_seen m) then (Ok tt, m)
      else
        (let! _ := mwrite (set_waiting false) in write_media Tag_Video timestamp_ms body) m
  | Packet_Other => fun m =>
      if negb (video_sequence_header_seen m) || waiting_for_video_keyframe m then (Ok tt, m)
      else write_normalized_tag Tag_Video timestamp_ms body m
  | Packet_VideoMedia => fun m =>
      if waiting_for_video_keyframe m then (Ok tt, m) else write_media Tag_Video timestamp_ms body m
  end.

Definition write_metadata (body : bytes) : MM unit :=
  let! _ := mlift (validate_size Tag_Metadata body) in
  fun m => write_tag Tag_Metadata (timestamp_base_ms m) body m.

(** [close]: the flags go into the header, and the output is returned. *)
Definition FlvMuxer_close (m : FlvMuxer) : result W (FlvMuxerError Io) :=
  fst ((let! pos := on_writer stream_position in
        let! _ := on_writer (seek_start (header_start m + 4)) in
        let! _ := on_writer (write_all [z2b (flags m)]) in
        let! _ := on_writer (seek_start pos) in
        let! _ := on_writer flush in
        mread writer) m).

Definition projected_audio_size (m : FlvMuxer) (body : bytes) : result Z (FlvMuxerError Io) :=
  let? _ := validate_size Tag_Audio body in
  let? k := classify_audio body in
  let media := if negb (started m) then saturating_add u64_max (cached_codec_header_size m) (tag_size body)
               else tag_size body in
  Ok (match k with
      | Packet_AacSequenceHeader => if negb (started m) then 0 else tag_size body
      | Packet_AacRaw =>
          if negb (aac_sequence_header_seen m) then 0 else if waiting_for_video_keyframe m then 0 else media
      | Packet_AudioMedia => if waiting_for_video_keyframe m then 0 else media
      end).

Definition projected_video_size (m : FlvMuxer) (body : bytes) : result Z (FlvMuxerError Io) :=
  let? _ := validate_size Tag_Video body in
  let? k := classify_video body in
  let media := if negb (started m) then saturating_add u64_max (cached_codec_header_size m) (tag_size body)
               else tag_size body in
  Ok (match k with
      | Packet_SequenceHeader => if negb (started m) then 0 else tag_size body
      | Packet_Keyframe => if negb (video_sequence_header_seen m) then 0 else media
      | Packet_Other =>
          if negb (video_sequence_header_seen m) || waiting_for_video_keyframe m then 0 else media
      | Packet_VideoMedia => if waiting_for_video_keyframe m then 0 else media
      end).

Definition projected_metadata_size (body : bytes) : result Z (FlvMuxerError Io) :=
  let? _ := validate_size Tag_Metadata body in Ok (tag_size body).

(** The recording worker's dispatch on the kind of a message. *)
Definition write_to_muxer {T} (event : MediaEvent T) : MM unit :=
  match kind event with
  | AacSequenceHeader | Audio => write_audio (timestamp_ms event) (payload event)
  | AvcSequenceHeader | HevcSequenceHeader | Av1SequenceHeader
  | VideoKeyframe | VideoInterframe | VideoDisposable => write_video (timestamp_ms event) (payload event)
  | Metadata => write_metadata (payload event)
  end.

Definition projected_bytes {T} (m : FlvMuxer) (event : MediaEvent T) : result Z (FlvMuxerError Io) :=
  match kind event with
  | AacSequenceHeader | Audio => projected_audio_size m (payload event)
  | AvcSequenceHeader | HevcSequenceHeader | Av1SequenceHeader
  | VideoKeyframe | VideoInterframe | VideoDisposable => projected_video_size m (payload event)
  | Metadata => projected_metadata_size (payload event)
  end.
End Muxer.
Arguments FlvMuxer : clear implicits.

(** ** Resuming a recording *)

(** Reading exactly [n] bytes of a file at a position. *)
Definition read_exact (file : bytes) (pos n : Z) : option bytes :=
  if (pos <? 0) || (len file <? pos + n) then None else Some (slice file pos (pos + n)).

(** [inspect_tail]: the flags and the time of the last tag of a file of which the
    metadata told the length; every failure is [ResumeInvalid]. *)
Definition inspect_tail (file : bytes) (length : Z) : option (Z * Z) :=
  if length <? 28 then None
  else
    header ← read_exact file 0 9;
    if negb (beqb (slice header 0 4) (lit "FLV" ++ [x01])) || negb (beqb (slice header 5 9) [x00; x00; x00; x09])
    then None
    else
      previous_tag_size ← read_exact file (len file - 4) 4;
      let tag_size := be_value previous_tag_size in
      if (length - 4 <? 0) || (length - 4 - tag_size <? 0) || (length - 4 - tag_size <? 13) then None
      else
        let tag_start := length - 4 - tag_size in
        tag_header ← read_exact file tag_start 11;
        let data_size := be_value (slice tag_header 1 4) in
        if negb (tag_size =? data_size + 11) then None
        else
          let timestamp_ms := be_value (slice tag_header 7 8 ++ slice tag_header 4 7) in
          flags ← b2z <$> header !! 4%nat;
          Some (flags, timestamp_ms).

(** ** Video on demand *)

Definition MAX_VOD_EVENTS : Z := 4 * 1024 * 1024.

Inductive VodError : Type :=
  | SourceNotFound | Vod_SessionLimit | Vod_InvalidPath | Vod_NotFound | RootOpen | Vod_TooLarge | OriginDenied | Fetch
  | InvalidFlv | InvalidMedia | Vod_InvalidRange.

Section Reader.
Context {T : Type}.

(** The event of a tag, when it is one of audio or video. *)
Definition tag_event (tag_type : byte) (timestamp : Z) (body : bytes) : result (option (MediaEvent T)) VodError :=
  if Byte.eqb tag_type x08 then result_map Some (map_err (fun _ => InvalidMedia) (MediaEvent_audio timestamp body))
  else if Byte.eqb tag_type x09 then result_map Some (map_err (fun _ => InvalidMedia) (MediaEvent_video timestamp body))
  else Ok None.

(** The loop over the tags: the bytes from the offset on, and the events so far.
    A tag takes fifteen bytes at least; [None] is the loop out of fuel. *)
Fixpoint parse_flv_tags (fuel : nat) (maximum_ms : Z) (rest : bytes) (events : list (MediaEvent T)) :
    option (result (list (MediaEvent T)) VodError) :=
  match rest, fuel with
  | [], _ => Some (Ok events)
  | _, O => None
  | tag_type :: _, S fuel =>
      if len rest <? 11 then Some (Err InvalidFlv)
      else
        let data_size := be_value (slice rest 1 4) in
        let timestamp := be_value (slice rest 7 8 ++ slice rest 4 7) in
        if len rest <? 11 + data_size + 4 then Some (Err InvalidFlv)
        else
          let previous_size := be_value (slice rest (11 + data_size) (11 + data_size + 4)) in
          if negb (previous_size =? data_size + 11) then Some (Err InvalidFlv)
          else
            let next := drop (Z.to_nat (11 + data_size + 4)) rest in
            if timestamp <=? maximum_ms then
              match tag_event tag_type timestamp (slice rest 11 (11 + data_size)) with
              | Err e => Some (Err e)
              | Ok None => parse_flv_tags fuel maximum_ms next events
              | Ok (Some event) =>
                  let events := events ++ [event] in
                  if MAX_VOD_EVENTS <? len events then Some (Err Vod_TooLarge)
                  else parse_flv_tags fuel maximum_ms next events
              end
            else parse_flv_tags fuel maximum_ms next events
  end.

(** [maximum_ms] is the limit on the duration in milliseconds, capped to 32 bits. *)
Definition parse_flv_events (file : bytes) (maximum_duration_ms : Z) : option (result (list (MediaEvent T)) VodError) :=
  if (len file <? 13) || negb (beqb (slice file 0 3) (lit "FLV")) || negb (bool_decide (file !! 3%nat = Some x01))
  then Some (Err InvalidFlv)
  else
    let data_offset := be_value (slice file 5 9) in
    if (data_offset <? 9) || (len file <? data_offset + 4) then Some (Err InvalidFlv)
    else
      let maximum_ms := Z.min maximum_duration_ms u32_max in
      parse_flv_tags (length file) maximum_ms (drop (Z.to_nat (data_offset + 4)) file) [].
End Reader.
