(* ===== verification/FlvFacts.v ===== *)
(** What an FLV recording is ([oxiroute-rtmp/src/flv.rs], [vod.rs],
    [recording_store/flv.rs]; model in [Flv]): the muxer never panics, grows by
    exactly what it projected, and a recording, resumed any number of times, is
    played back as it was recorded. *)

From stdpp Require Import base list strings.
From Stdlib Require Import ZArith Lia Strings.Byte.
From S2P Require Import Prelude Bytes Media Flv.

(** ** The muxer's own state *)

Section Safety.
Context {W Io T : Type} `{!WriteSeek W Io}.
Abbreviation Muxer := (FlvMuxer W).
Abbreviation MM A := (M Muxer (FlvMuxerError Io) A).

(** Video flows only after a key frame, which starts the media; only headers of
    bounded size are cached, at most one of each type and none later. *)
Record mux_ok (m : Muxer) : Prop := {
  mux_flows : video_sequence_header_seen m = true -> waiting_for_video_keyframe m = false -> started m = true;
  mux_cached : Forall (fun h => len h.2 <= MAX_CACHED_CODEC_HEADER_SIZE) (cached_codec_headers m);
  mux_types : Forall (fun h => h.1 <> Tag_Metadata) (cached_codec_headers m) /\ NoDup (cached_codec_headers m).*1;
  mux_empty : started m = true -> cached_codec_headers m = [];
}.

(** Two states that differ at most in the output and the flags. *)
Definition same_mux (m m' : Muxer) : Prop :=
  header_start m' = header_start m /\ timestamp_base_ms m' = timestamp_base_ms m /\
  first_media_timestamp_ms m' = first_media_timestamp_ms m /\ cached_codec_headers m' = cached_codec_headers m /\
  aac_sequence_header_seen m' = aac_sequence_header_seen m /\ video_sequence_header_seen m' = video_sequence_header_seen m /\
  waiting_for_video_keyframe m' = waiting_for_video_keyframe m.

#[export] Instance same_mux_refl : Reflexive same_mux.
Proof. done. Qed.
#[export] Instance same_mux_trans : Transitive same_mux.
Proof. intros a b c (?&?&?&?&?&?&?) (?&?&?&?&?&?&?). repeat split; congruence. Qed.

Lemma same_mux_started m m' : same_mux m m' -> started m' = started m.
Proof. intros (_ & _ & E & _). unfold started. by rewrite E. Qed.

Lemma same_mux_ok m m' : same_mux m m' -> mux_ok m -> mux_ok m'.
Proof.
  intros Hs [H1 H2 H3 H4]. pose proof (same_mux_started _ _ Hs) as Hst. destruct Hs as (_ & _ & _ & Hc & _ & Hv & Hw).
  constructor; rewrite ?Hst, ?Hc, ?Hv, ?Hw; done.
Qed.

(** A call that keeps the muxer's state and does not panic. *)
Definition outputs {A} (c : MM A) : Prop := forall m, same_mux m (c m).2 /\ (c m).1 <> Err FlvPanic.

Lemma outputs_writer {A} (c : M W Io A) : outputs (on_writer c).
Proof. intros m. unfold on_writer. destruct (c (writer m)) as [[a|e] w]; by split. Qed.

Lemma outputs_bind {A B} (c : MM A) (k : A -> MM B) : outputs c -> (forall a, outputs (k a)) -> outputs (mbind_se c k).
Proof.
  intros Hc Hk m. unfold mbind_se. destruct (Hc m) as [Hs Hp]. destruct (c m) as [[a|e] m']; [|split; [done|intros [= ->]; by apply Hp]].
  destruct (Hk a m') as [Hs' Hp']. split; [by etrans|done].
Qed.

Lemma outputs_tag t ts body : len body <= u32_max -> outputs (write_tag t ts body).
Proof.
  intros Hl. unfold write_tag. rewrite (proj2 (Z.ltb_ge _ _) Hl). cbv zeta.
  repeat (apply outputs_bind; [apply outputs_writer|intros _]). intros m. by split.
Qed.

Lemma outputs_headers base headers :
  Forall (fun h => len h.2 <= MAX_CACHED_CODEC_HEADER_SIZE) headers -> outputs (write_headers base headers).
Proof.
  induction 1 as [|[t body] headers Hb _ IH]; [intros m; by split|]. cbn [write_headers].
  apply outputs_bind; [|done]. apply outputs_tag. unfold MAX_CACHED_CODEC_HEADER_SIZE, u32_max in *. simpl in Hb. lia.
Qed.

Lemma normalized_outputs t ts body m : started m = true -> len body <= u32_max ->
  same_mux m (write_normalized_tag t ts body m).2 /\ (write_normalized_tag t ts body m).1 <> Err FlvPanic.
Proof.
  unfold started, write_normalized_tag. intros Hs Hl. apply bool_decide_eq_true in Hs as [first ->]. by apply outputs_tag.
Qed.

(** The part of the invariant that does not speak of video. *)
Definition mux_pre (m : Muxer) : Prop :=
  Forall (fun h => len h.2 <= MAX_CACHED_CODEC_HEADER_SIZE) (cached_codec_headers m) /\
  (started m = true -> cached_codec_headers m = []) /\
  Forall (fun h => h.1 <> Tag_Metadata) (cached_codec_headers m) /\ NoDup (cached_codec_headers m).*1.

Lemma mux_pre_ok m : mux_pre m -> started m = true -> mux_ok m.
Proof. intros (H1 & H2 & H3) Hs. by constructor. Qed.

Lemma mux_ok_pre m : mux_ok m -> mux_pre m.
Proof. by intros [H1 H2 H3 H4]. Qed.

Lemma set_started_ok ts m : mux_ok (set_started ts m).
Proof. constructor; cbn; try done. split; [done|constructor]. Qed.

(** Starting: the state is started, whatever the output does. *)
Lemma start_ok ts m : mux_pre m ->
  mux_ok (start_if_needed ts m).2 /\ started (start_if_needed ts m).2 = true /\ (start_if_needed ts m).1 <> Err FlvPanic.
Proof.
  intros H. unfold start_if_needed. destruct (first_media_timestamp_ms m) as [first|] eqn:E.
  - assert (started m = true) as Hs by (unfold started; by rewrite E). by split; [apply mux_pre_ok|].
  - destruct (outputs_headers (timestamp_base_ms m) _ (proj1 H) (set_started ts m)) as [Hs Hp].
    split; [eapply same_mux_ok, set_started_ok; done|]. split; [|done]. by rewrite (same_mux_started _ _ Hs).
Qed.

Definition safe (c : MM unit) : Prop := forall m, mux_ok m -> mux_ok (c m).2 /\ (c m).1 <> Err FlvPanic.

Lemma media_ok t ts body m : len body <= u32_max -> mux_pre m ->
  mux_ok (write_media t ts body m).2 /\ (write_media t ts body m).1 <> Err FlvPanic.
Proof.
  intros Hl H. unfold write_media, mbind_se. destruct (start_ok ts m H) as (H1 & H2 & H3).
  destruct (start_if_needed ts m) as [[[]|e] m']; cbn [fst snd] in *; [|by split; [|congruence]].
  destruct (normalized_outputs t ts body m' H2 Hl) as [Hs Hp]. split; [by eapply same_mux_ok|done].
Qed.

Lemma safe_lift {A} (r : result A (FlvMuxerError Io)) (k : A -> MM unit) :
  r <> Err FlvPanic -> (forall a, r = Ok a -> safe (k a)) -> safe (let! a := mlift r in k a).
Proof. intros Hr Hk m H. unfold mbind_se, mlift. destruct r as [a|e]; [by apply Hk|]. split; [done|]. cbn. congruence. Qed.

Lemma elem_of_drop_header t h headers : h ∈ drop_header t headers -> h ∈ headers.
Proof.
  induction headers as [|x headers IH]; simpl; [done|]. case_bool_decide; rewrite !elem_of_cons; [by right|].
  intros [->|Hh]; [by left|right; by apply IH].
Qed.

Lemma drop_header_types t headers : NoDup headers.*1 -> NoDup (drop_header t headers).*1 /\ (t ∉ (drop_header t headers).*1).
Proof.
  induction headers as [|[u body] headers IH]; simpl; [split; [constructor|apply not_elem_of_nil]|].
  rewrite NoDup_cons. intros [Hu Hnd]. case_bool_decide as E; simpl in E; [by subst|]. cbn [fmap list_fmap fst].
  destruct (IH Hnd) as [IH1 IH2]. rewrite NoDup_cons, not_elem_of_cons. split_and!; try done; try congruence.
  intros (h & Hf & Hh)%list_elem_of_fmap. apply Hu. apply list_elem_of_fmap. exists h. split; [done|].
  by eapply elem_of_drop_header.
Qed.

Lemma cache_ok_header t body m : mux_ok m -> t <> Tag_Metadata -> len body <= MAX_CACHED_CODEC_HEADER_SIZE ->
  started m = false -> mux_ok (cache_codec_header t body m).
Proof.
  intros [H1 H2 [H3 H3'] H4] Ht Hb Hst. constructor; cbn; try done.
  - apply Forall_app. split; [|by constructor]. apply Forall_forall. intros h Hh%elem_of_drop_header.
    by apply (proj1 (Forall_forall _ _) H2).
  - destruct (drop_header_types t _ H3') as [Hn Ht']. split.
    + apply Forall_app. split; [|by constructor]. apply Forall_forall. intros h Hh%elem_of_drop_header.
      by apply (proj1 (Forall_forall _ _) H3).
    + rewrite fmap_app. apply NoDup_app. split_and!; [done| |apply NoDup_singleton].
      intros x Hx Hy%list_elem_of_singleton. subst. by apply Ht'.
  - unfold started in *. cbn. congruence.
Qed.

Lemma safe_header t ts body : t <> Tag_Metadata -> len body <= MAX_CACHED_CODEC_HEADER_SIZE -> safe (write_header_packet t ts body).
Proof.
  intros Ht Hb m H. unfold write_header_packet. destruct (started m) eqn:S.
  - destruct (normalized_outputs t ts body m S) as [Hs Hp]; [unfold MAX_CACHED_CODEC_HEADER_SIZE, u32_max in *; lia|].
    split; [by eapply same_mux_ok|done].
  - split; [by apply cache_ok_header|done].
Qed.

Lemma validate_size_Ok t body : validate_size (Io := Io) t body = Ok tt -> len body <= MAX_FLV_TAG_DATA_SIZE.
Proof. unfold validate_size. destruct (Z.ltb_spec MAX_FLV_TAG_DATA_SIZE (len body)); [done|]. by intros. Qed.

Lemma validate_codec_Ok t body : validate_codec_header_size (Io := Io) t body = Ok tt -> len body <= MAX_CACHED_CODEC_HEADER_SIZE.
Proof. unfold validate_codec_header_size. destruct (Z.ltb_spec MAX_CACHED_CODEC_HEADER_SIZE (len body)); [done|]. by intros. Qed.

Lemma classify_audio_panic body : classify_audio (Io := Io) body <> Err FlvPanic.
Proof. unfold classify_audio. by repeat case_match. Qed.
Lemma classify_video_panic body : classify_video (Io := Io) body <> Err FlvPanic.
Proof. unfold classify_video, flv_classify_enhanced_video. by repeat case_match. Qed.

Lemma set_aac_seen_ok m : mux_ok m -> mux_ok (set_aac_seen m).
Proof. intros [H1 H2 H3 H4]. by constructor. Qed.
Lemma set_video_seen_ok m : mux_ok m -> mux_ok (set_video_seen m).
Proof. intros [H1 H2 H3 H4]. by constructor. Qed.

Lemma safe_after (f : Muxer -> Muxer) (c : MM unit) : (forall m, mux_ok m -> mux_ok (f m)) -> safe c -> safe (let! _ := mwrite f in c).
Proof. intros Hf Hc m H. apply (Hc (f m)), Hf, H. Qed.

Lemma safe_audio ts body : safe (write_audio ts body).
Proof.
  apply safe_lift; [by unfold validate_size; case_match|]. intros [] Hv%validate_size_Ok.
  assert (len body <= u32_max) as Hl by (unfold MAX_FLV_TAG_DATA_SIZE, u32_max in *; lia).
  apply safe_lift; [apply classify_audio_panic|]. intros [] _.
  - apply safe_lift; [by unfold validate_codec_header_size; case_match|]. intros [] Hc%validate_codec_Ok.
    apply safe_after; [apply set_aac_seen_ok|by apply safe_header].
  - intros m H. do 2 (case_match; [done|]). by apply media_ok, mux_ok_pre.
  - intros m H. case_match; [done|]. by apply media_ok, mux_ok_pre.
Qed.

Lemma safe_video ts body : safe (write_video ts body).
Proof.
  apply safe_lift; [by unfold validate_size; case_match|]. intros [] Hv%validate_size_Ok.
  assert (len body <= u32_max) as Hl by (unfold MAX_FLV_TAG_DATA_SIZE, u32_max in *; lia).
  apply safe_lift; [apply classify_video_panic|]. intros [] _.
  - apply safe_lift; [by unfold validate_codec_header_size; case_match|]. intros [] Hc%validate_codec_Ok.
    apply safe_after; [apply set_video_seen_ok|by apply safe_header].
  - intros m H. case_match; [done|]. unfold mbind_se, mwrite. apply media_ok; [done|exact (mux_ok_pre m H)].
  - intros m H. destruct (negb _ || _) eqn:E; [done|]. apply orb_false_iff in E as [E1%negb_false_iff E2].
    destruct (normalized_outputs Tag_Video ts body m) as [Hs Hp]; [by apply H|done|]. by split; [eapply same_mux_ok|].
  - intros m H. case_match; [done|]. by apply media_ok, mux_ok_pre.
Qed.

Lemma safe_metadata body : safe (write_metadata body).
Proof.
  apply safe_lift; [by unfold validate_size; case_match|]. intros [] Hv%validate_size_Ok m H.
  destruct (outputs_tag Tag_Metadata (timestamp_base_ms m) body) with (m := m) as [Hs Hp];
    [unfold MAX_FLV_TAG_DATA_SIZE, u32_max in *; lia|]. by split; [eapply same_mux_ok|].
Qed.

Lemma safe_event (e : MediaEvent T) : safe (write_to_muxer e).
Proof. unfold write_to_muxer. destruct (kind e); auto using safe_audio, safe_video, safe_metadata. Qed.
End Safety.

(** ** The output as a file *)

(** A file behind [Write] and [Seek]: what its calls do when they succeed. *)
Class RecordedFile (W Io : Type) `{!WriteSeek W Io} := {
  contents : W -> bytes;
  position : W -> Z;
  write_all_position : forall bs w w', write_all bs w = (Ok tt, w') -> position w' = position w + len bs;
  write_all_contents : forall bs w w', 0 <= position w <= len (contents w) -> write_all bs w = (Ok tt, w') ->
    contents w' = take (Z.to_nat (position w)) (contents w) ++ bs ++ drop (Z.to_nat (position w + len bs)) (contents w);
  stream_position_spec : forall w p w', stream_position w = (Ok p, w') ->
    p = position w /\ position w' = position w /\ contents w' = contents w;
  seek_start_spec : forall p w w', seek_start p w = (Ok tt, w') -> position w' = p /\ contents w' = contents w;
  flush_spec : forall w w', flush w = (Ok tt, w') -> position w' = position w /\ contents w' = contents w;
}.

Section Projection.
Context {W Io T : Type} `{!WriteSeek W Io, !RecordedFile W Io}.
Abbreviation Muxer := (FlvMuxer W).
Abbreviation MM A := (M Muxer (FlvMuxerError Io) A).

Definition tag_length (body : bytes) : Z := len body + 15.

Lemma tag_size_exact body : len body <= MAX_FLV_TAG_DATA_SIZE -> tag_size body = tag_length body.
Proof.
  unfold tag_size, saturating_add, tag_length, MAX_FLV_TAG_DATA_SIZE, FLV_TAG_HEADER_SIZE, u64_max. lia.
Qed.

Definition grows (n : Z) (c : MM unit) : Prop :=
  forall m m', c m = (Ok tt, m') -> position (writer m') = position (writer m) + n.

Lemma grows_write bs : grows (len bs) (on_writer (write_all bs)).
Proof.
  intros m m'. unfold on_writer. destruct (write_all bs (writer m)) as [[[]|e] w] eqn:E; [|done]. intros [= <-]. cbn.
  by apply write_all_position in E.
Qed.

Lemma grows_bind n k c d : grows n c -> (forall u, grows k (d u)) -> grows (n + k) (mbind_se c d).
Proof.
  intros Hc Hd m m' ([] & m1 & H1 & H2)%mbind_se_Ok. apply Hc in H1. apply Hd in H2. lia.
Qed.

Lemma grows_eq n n' c : grows n c -> n = n' -> grows n' c.
Proof. by intros H ->. Qed.

Lemma grows_tag t ts body : grows (tag_length body) (write_tag t ts body).
Proof.
  unfold write_tag. case_match; [by intros m m'|]. eapply grows_eq.
  - repeat (apply grows_bind; [apply grows_write|intros _]). instantiate (1 := 0). intros m m' [= <-]. cbn. lia.
  - rewrite len_be_bytes. unfold tag_length. rewrite !len_app.
    rewrite !len_slice by (rewrite ?len_be_bytes; lia). change (len [tag_type_byte t]) with 1.
    change (len [x00; x00; x00]) with 3. lia.
Qed.

Definition headers_length (headers : list (FlvTagType * bytes)) : Z :=
  foldr (fun h acc => tag_length h.2 + acc) 0 headers.

Lemma grows_headers base headers : grows (headers_length headers) (write_headers base headers).
Proof.
  induction headers as [|[t body] headers IH]; [intros m m' [= <-]; simpl; lia|]. cbn [write_headers headers_length foldr].
  apply grows_bind; [apply grows_tag|done].
Qed.

Lemma grows_normalized t ts body : grows (tag_length body) (write_normalized_tag t ts body).
Proof. intros m m'. unfold write_normalized_tag. case_match; [|done]. apply grows_tag. Qed.

Lemma media_grows t ts body (m m' : Muxer) : mux_pre m -> write_media t ts body m = (Ok tt, m') ->
  position (writer m') = position (writer m) + headers_length (cached_codec_headers m) + tag_length body.
Proof.
  intros (_ & He & _) ([] & m1 & H1 & H2)%mbind_se_Ok. apply grows_normalized in H2. unfold start_if_needed in H1.
  destruct (first_media_timestamp_ms m) as [first|] eqn:F.
  - injection H1 as <-. rewrite He by (unfold started; by rewrite F). simpl. lia.
  - apply grows_headers in H1. cbn in H1. lia.
Qed.

Lemma headers_projected (m : Muxer) : mux_pre m -> cached_codec_header_size m = headers_length (cached_codec_headers m) /\
  0 <= headers_length (cached_codec_headers m) <= 2 * (MAX_CACHED_CODEC_HEADER_SIZE + 15).
Proof.
  intros (Hs & _ & Ht & Hn). unfold cached_codec_header_size.
  assert (length (cached_codec_headers m) <= 2)%nat as Hl.
  { rewrite <- (length_fmap fst). change 2%nat with (length [Tag_Audio; Tag_Video]). apply submseteq_length.
    apply NoDup_submseteq; [done|]. intros t (h & -> & Hh)%list_elem_of_fmap.
    pose proof (proj1 (Forall_forall _ _) Ht h Hh). simpl in *. destruct (h.1); [apply elem_of_cons; by left|apply elem_of_cons; right; by apply list_elem_of_singleton|done]. }
  assert (foldr (fun h acc => tag_size h.2 + acc) 0 (cached_codec_headers m) = headers_length (cached_codec_headers m) /\
    0 <= headers_length (cached_codec_headers m) <= len (cached_codec_headers m) * (MAX_CACHED_CODEC_HEADER_SIZE + 15)) as [H1 H2].
  { clear Ht Hn Hl. induction Hs as [|h l Hh Hs IH]; [done|]. cbn [foldr headers_length]. fold (headers_length l).
    rewrite len_cons. destruct IH as [-> IH]. rewrite tag_size_exact by (unfold MAX_CACHED_CODEC_HEADER_SIZE, MAX_FLV_TAG_DATA_SIZE in *; lia).
    unfold tag_length. pose proof (len_nonneg (h.2)). split; [done|]. nia. }
  split; [done|]. unfold len, MAX_CACHED_CODEC_HEADER_SIZE in *. lia.
Qed.

Lemma media_projected (m : Muxer) body : mux_pre m -> len body <= MAX_FLV_TAG_DATA_SIZE ->
  (if negb (started m) then saturating_add u64_max (cached_codec_header_size m) (tag_size body) else tag_size body) =
  headers_length (cached_codec_headers m) + tag_length body.
Proof.
  intros H Hb. destruct (headers_projected m H) as [-> Hr]. rewrite tag_size_exact by done. destruct (started m) eqn:S; cbn [negb].
  - rewrite (proj1 (proj2 H) S). done.
  - unfold saturating_add, tag_length, u64_max, MAX_FLV_TAG_DATA_SIZE, MAX_CACHED_CODEC_HEADER_SIZE in *. lia.
Qed.

(** A call does what was projected for it. *)
Definition projects (p : result Z (FlvMuxerError Io)) (r : result unit (FlvMuxerError Io) * Muxer) (m : Muxer) : Prop :=
  match p with
  | Err e => r = (Err e, m)
  | Ok n => forall m', r = (Ok tt, m') -> position (writer m') = position (writer m) + n
  end.

Lemma header_projected t ts body (m : Muxer) : mux_ok m -> len body <= MAX_FLV_TAG_DATA_SIZE ->
  forall m', write_header_packet t ts body m = (Ok tt, m') ->
  position (writer m') = position (writer m) + if negb (started m) then 0 else tag_size body.
Proof.
  intros H Hb m'. unfold write_header_packet. destruct (started m); cbn [negb].
  - intros E%grows_normalized. by rewrite tag_size_exact.
  - intros [= <-]. cbn. lia.
Qed.

Lemma audio_projected ts body m : mux_ok m -> projects (projected_audio_size m body) (write_audio ts body m) m.
Proof.
  intros H. unfold projected_audio_size, write_audio, projects, mbind_se, mlift.
  destruct (validate_size Tag_Audio body) as [[]|e] eqn:V; [|done]. apply validate_size_Ok in V. cbn [result_bind].
  destruct (classify_audio body) as [k|e]; [|done]. cbn [result_bind]. rewrite (media_projected m body (mux_ok_pre m H) V).
  pose proof (fun m' => media_grows Tag_Audio ts body m m' (mux_ok_pre m H)) as Hm.
  destruct k; intros m'.
  - destruct (validate_codec_header_size Tag_Audio body) as [[]|]; [|done]. unfold mwrite.
    intros E. apply (header_projected Tag_Audio ts body (set_aac_seen m)) in E; [done|by apply set_aac_seen_ok|done].
  - destruct (negb _); [intros [= <-]; lia|]. destruct (waiting_for_video_keyframe m); [intros [= <-]; lia|].
    intros E%Hm. lia.
  - destruct (waiting_for_video_keyframe m); [intros [= <-]; lia|]. intros E%Hm. lia.
Qed.

Lemma video_projected ts body m : mux_ok m -> projects (projected_video_size m body) (write_video ts body m) m.
Proof.
  intros H. unfold projected_video_size, write_video, projects, mbind_se, mlift.
  destruct (validate_size Tag_Video body) as [[]|e] eqn:V; [|done]. apply validate_size_Ok in V. cbn [result_bind].
  destruct (classify_video body) as [k|e]; [|done]. cbn [result_bind]. rewrite (media_projected m body (mux_ok_pre m H) V).
  destruct k; intros m'.
  - destruct (validate_codec_header_size Tag_Video body) as [[]|]; [|done]. unfold mwrite.
    intros E. apply (header_projected Tag_Video ts body (set_video_seen m)) in E; [done|by apply set_video_seen_ok|done].
  - destruct (negb _); [intros [= <-]; lia|]. unfold mwrite.
    intros E%media_grows; [cbn [set_waiting writer cached_codec_headers] in E; lia|exact (mux_ok_pre m H)].
  - destruct (negb _ || _) eqn:F; [intros [= <-]; lia|]. apply orb_false_iff in F as [F1%negb_false_iff F2].
    rewrite (mux_empty _ H) by (by apply (mux_flows _ H)). intros E%grows_normalized. simpl. lia.
  - destruct (waiting_for_video_keyframe m); [intros [= <-]; lia|]. intros E%media_grows; [lia|by apply mux_ok_pre].
Qed.

Lemma event_projected (e : MediaEvent T) m : mux_ok m -> projects (projected_bytes m e) (write_to_muxer e m) m.
Proof.
  intros H. unfold projected_bytes, write_to_muxer. destruct (kind e); auto using audio_projected, video_projected.
  unfold projected_metadata_size, write_metadata, projects, mbind_se, mlift.
  destruct (validate_size Tag_Metadata (payload e)) as [[]|err] eqn:V; [|done]. apply validate_size_Ok in V. cbn [result_bind].
  intros m' E%grows_tag. by rewrite tag_size_exact.
Qed.

(** ** What a write can fail with *)

(** Only the output fails, apart from the failures that would be panics. *)
Definition io_only {A} (c : MM A) : Prop :=
  forall m x m', c m = (Err x, m') -> (exists io, x = FlvIo io) \/ x = FlvPanic.

Lemma io_only_bind {A B} (c : MM A) (f : A -> MM B) : io_only c -> (forall a, io_only (f a)) -> io_only (mbind_se c f).
Proof.
  intros Hc Hf m x m'. unfold mbind_se. destruct (c m) as [[a|e] m1] eqn:E; [apply Hf|].
  intros [= -> ->]. by eapply Hc.
Qed.
Lemma io_only_ret {A} (a : A) : io_only (mret a).
Proof. by intros m x m'. Qed.
Lemma io_only_write f : io_only (mwrite f).
Proof. by intros m x m'. Qed.
Lemma io_only_writer {A} (c : W -> result A Io * W) : io_only (on_writer c).
Proof. intros m x m'. unfold on_writer. destruct (c (writer m)) as [[a|io] w]; [done|]. intros [= <- _]. left. by exists io. Qed.
Lemma io_only_tag t ts body : io_only (write_tag t ts body).
Proof.
  unfold write_tag. case_match; [intros m x m' [= <- _]; by right|].
  repeat (apply io_only_bind; [apply io_only_writer|intros _]). apply io_only_write.
Qed.
Lemma io_only_normalized t ts body : io_only (write_normalized_tag t ts body).
Proof.
  intros m x m'. unfold write_normalized_tag. destruct (first_media_timestamp_ms m); [apply io_only_tag|].
  intros [= <- _]. by right.
Qed.
Lemma io_only_headers base headers : io_only (write_headers base headers).
Proof. induction headers as [|[t body] headers IH]; [apply io_only_ret|]. apply io_only_bind; [apply io_only_tag|by intros _]. Qed.
Lemma io_only_media t ts body : io_only (write_media t ts body).
Proof.
  apply io_only_bind; [|intros _; apply io_only_normalized]. intros m x m'. unfold start_if_needed.
  destruct (first_media_timestamp_ms m); [done|apply io_only_headers].
Qed.
Lemma io_only_header_packet t ts body : io_only (write_header_packet t ts body).
Proof. intros m x m'. unfold write_header_packet. destruct (started m); [apply io_only_normalized|done]. Qed.

(** A message that is not malformed or oversized fails with the output, or it is a
    codec header beyond the bound of the cache. *)
Definition refused_header (body : bytes) (x : FlvMuxerError Io) (m m' : Muxer) : Prop :=
  MAX_CACHED_CODEC_HEADER_SIZE < len body /\ (exists t, x = CodecHeaderTooLarge t (len body)) /\ m' = m.

Lemma header_failure t body f (c : MM unit) (m : Muxer) x m' :
  io_only c -> (let! _ := mlift (validate_codec_header_size t body) in let! _ := mwrite f in c) m = (Err x, m') ->
  (exists io, x = FlvIo io) \/ x = FlvPanic \/ refused_header body x m m'.
Proof.
  intros Hc. unfold mbind_se at 1, mlift, validate_codec_header_size.
  destruct (Z.ltb_spec MAX_CACHED_CODEC_HEADER_SIZE (len body)) as [Hlt|_].
  - intros [= <- <-]. right. right. split_and!; [done|by exists t|done].
  - intros E. apply (io_only_bind _ _ (io_only_write f) (fun _ => Hc)) in E. tauto.
Qed.

Lemma io_failure (c : MM unit) (P : Prop) (m : Muxer) x m' :
  io_only c -> c m = (Err x, m') -> (exists io, x = FlvIo io) \/ x = FlvPanic \/ P.
Proof. intros Hc E. apply Hc in E. tauto. Qed.

Lemma event_failure (e : MediaEvent T) m n x m' :
  projected_bytes (Io := Io) m e = Ok n -> write_to_muxer e m = (Err x, m') ->
  (exists io, x = FlvIo io) \/ x = FlvPanic \/ refused_header (payload e) x m m'.
Proof.
  assert (projected_audio_size (Io := Io) m (payload e) = Ok n -> write_audio (timestamp_ms e) (payload e) m = (Err x, m') ->
    (exists io, x = FlvIo io) \/ x = FlvPanic \/ refused_header (payload e) x m m') as Haudio.
  { unfold projected_audio_size, write_audio, mbind_se at 1 2, mlift at 1 2.
    destruct (validate_size Tag_Audio (payload e)) as [[]|]; [|done]. cbn [result_bind].
    destruct (classify_audio (payload e)) as [[]|]; [| | |done]; intros _.
    - apply header_failure, io_only_header_packet.
    - repeat case_match; [done..|]. apply io_failure, io_only_media.
    - case_match; [done|]. apply io_failure, io_only_media. }
  assert (projected_video_size (Io := Io) m (payload e) = Ok n -> write_video (timestamp_ms e) (payload e) m = (Err x, m') ->
    (exists io, x = FlvIo io) \/ x = FlvPanic \/ refused_header (payload e) x m m') as Hvideo.
  { unfold projected_video_size, write_video, mbind_se at 1 2, mlift at 1 2.
    destruct (validate_size Tag_Video (payload e)) as [[]|]; [|done]. cbn [result_bind].
    destruct (classify_video (payload e)) as [[]|]; [| | | |done]; intros _.
    - apply header_failure, io_only_header_packet.
    - case_match; [done|]. apply io_failure. apply io_only_bind; [apply io_only_write|intros _; apply io_only_media].
    - case_match; [done|]. apply io_failure, io_only_normalized.
    - case_match; [done|]. apply io_failure, io_only_media. }
  unfold projected_bytes, write_to_muxer. destruct (kind e); auto.
  unfold projected_metadata_size, write_metadata, mbind_se, mlift.
  destruct (validate_size Tag_Metadata (payload e)) as [[]|]; [|done]. intros _. apply io_failure. intros m0. apply io_only_tag.
Qed.
End Projection.

(** ** Tags *)

Record Tag : Type := mkTag { tag_type : FlvTagType; tag_time : Z; tag_body : bytes }.

Definition encode_tag (t : Tag) : bytes :=
  [tag_type_byte (tag_type t)] ++ slice (be_bytes 4 (len (tag_body t))) 1 4 ++ slice (be_bytes 4 (tag_time t)) 1 4 ++
  slice (be_bytes 4 (tag_time t)) 0 1 ++ [x00; x00; x00] ++ tag_body t ++ be_bytes 4 (FLV_TAG_HEADER_SIZE + len (tag_body t)).

Definition encode_tags (tags : list Tag) : bytes := concat (encode_tag <$> tags).

Definition flags_after (f : Z) (tags : list Tag) : Z := foldl (fun f t => Z.lor f (tag_flag (tag_type t))) f tags.

Definition file_header (f : Z) : bytes := lit "FLV" ++ [x01; z2b f; x00; x00; x00; x09; x00; x00; x00; x00].

Lemma encode_tags_app tags tags' : encode_tags (tags ++ tags') = encode_tags tags ++ encode_tags tags'.
Proof. unfold encode_tags. by rewrite fmap_app, concat_app. Qed.

Section Recording.
Context {W Io T : Type} `{!WriteSeek W Io, !RecordedFile W Io}.
Abbreviation Muxer := (FlvMuxer W).
Abbreviation MM A := (M Muxer (FlvMuxerError Io) A).
Abbreviation Event := (MediaEvent T).

Definition at_end (w : W) : Prop := position w = len (contents w).

(** A call at the end of the file appends tags, or the output fails. *)
Definition emits (tags : list Tag) (c : MM unit) (m : Muxer) (P : Muxer -> Prop) : Prop :=
  at_end (writer m) ->
  match c m with
  | (Ok _, m') => contents (writer m') = contents (writer m) ++ encode_tags tags /\ at_end (writer m') /\
                  flags m' = flags_after (flags m) tags /\ P m'
  | (Err e, _) => exists io, e = FlvIo io
  end.

Lemma emits_bind tags tags' (c k : MM unit) m P Q :
  emits tags c m P -> (forall m', P m' -> emits tags' k m' Q) -> emits (tags ++ tags') (let! _ := c in k) m Q.
Proof.
  intros Hc Hk He. specialize (Hc He). unfold mbind_se. destruct (c m) as [[[]|e] m1]; [|done].
  destruct Hc as (H1 & H2 & H3 & HP). specialize (Hk m1 HP H2). destruct (k m1) as [[[]|e] m2]; [|done].
  destruct Hk as (H4 & H5 & H6 & HQ). split_and!; try done.
  - by rewrite H4, H1, encode_tags_app, app_assoc.
  - by rewrite H6, H3; unfold flags_after; rewrite foldl_app.
Qed.

Lemma emits_weaken tags c m (P Q : Muxer -> Prop) : emits tags c m P -> (forall m', P m' -> Q m') -> emits tags c m Q.
Proof. intros H HPQ He. specialize (H He). destruct (c m) as [[]]; naive_solver. Qed.

(** Steps that only change the muxer's own state. *)
Lemma emits_silent (c : MM unit) m m' (P : Muxer -> Prop) :
  c m = (Ok tt, m') -> writer m' = writer m -> flags m' = flags m -> P m' -> emits [] c m P.
Proof.
  intros E Hw Hf HP He. rewrite E. rewrite Hw, Hf. unfold encode_tags. simpl. rewrite app_nil_r. done.
Qed.

Lemma write_end bs w w' : at_end w -> write_all bs w = (Ok tt, w') -> contents w' = contents w ++ bs /\ at_end w'.
Proof.
  unfold at_end. intros He E. pose proof (write_all_position _ _ _ E) as Hp. pose proof (len_nonneg (contents w)) as Hn.
  apply write_all_contents in E; [|lia]. rewrite He in E. unfold len in E at 1. rewrite Nat2Z.id, firstn_all in E.
  rewrite drop_ge, app_nil_r in E by (pose proof (len_nonneg bs); unfold len in *; lia).
  rewrite E, len_app. split; [done|lia].
Qed.

Lemma emits_tag t ts body m : len body <= u32_max -> emits [mkTag t ts body] (write_tag t ts body) m (same_mux m).
Proof.
  intros Hl He. pose proof (outputs_tag (W := W) (Io := Io) t ts body Hl m) as [Hs _]. revert Hs. unfold write_tag.
  rewrite (proj2 (Z.ltb_ge _ _) Hl). unfold mbind_se, on_writer, mwrite.
  destruct (write_all _ (writer m)) as [[[]|e1] w1] eqn:E1; cbn [map_err]; [|by eexists]. cbn [set_writer writer].
  destruct (write_all body w1) as [[[]|e2] w2] eqn:E2; cbn [map_err]; [|by eexists]. cbn [set_writer writer].
  destruct (write_all _ w2) as [[[]|e3] w3] eqn:E3; cbn [map_err]; [|by eexists]. cbn.
  intros Hs. apply write_end in E1 as [C1 A1]; [|done]. apply write_end in E2 as [C2 A2]; [|done].
  apply write_end in E3 as [C3 A3]; [|done]. split_and!; try done. rewrite C3, C2, C1.
  unfold encode_tags. simpl. rewrite app_nil_r. unfold encode_tag. cbn [tag_type tag_time tag_body].
  by rewrite <- !app_assoc.
Qed.

(** ** Sessions *)

Definition tag_of (k : MediaEventKind) : FlvTagType :=
  match k with
  | Metadata => Tag_Metadata
  | AacSequenceHeader | Audio => Tag_Audio
  | _ => Tag_Video
  end.
Definition event_tag (time : Z) (e : Event) : Tag := mkTag (tag_of (kind e)) time (payload e).

(** A sequence header the muxer takes for one. *)
Definition header_event (e : Event) : Prop :=
  len (payload e) <= MAX_CACHED_CODEC_HEADER_SIZE /\
  match kind e with
  | AacSequenceHeader => classify_audio (Io := Io) (payload e) = Ok Packet_AacSequenceHeader
  | AvcSequenceHeader | HevcSequenceHeader | Av1SequenceHeader =>
      classify_video (Io := Io) (payload e) = Ok Packet_SequenceHeader
  | _ => False
  end.

(** A frame of a stream with or without AAC and video headers. *)
Definition frame_event (aac video : bool) (e : Event) : Prop :=
  len (payload e) <= MAX_FLV_TAG_DATA_SIZE /\
  match kind e with
  | Audio => classify_audio (Io := Io) (payload e) = Ok Packet_AudioMedia \/
             classify_audio (Io := Io) (payload e) = Ok Packet_AacRaw /\ aac = true
  | VideoKeyframe | VideoInterframe | VideoDisposable =>
      video = true /\ (classify_video (Io := Io) (payload e) = Ok Packet_Keyframe \/
                       classify_video (Io := Io) (payload e) = Ok Packet_Other)
  | _ => False
  end.
Definition key_event (e : Event) : Prop :=
  tag_of (kind e) = Tag_Video /\ classify_video (Io := Io) (payload e) = Ok Packet_Keyframe.

(** The muxer's own state, field by field. *)
Definition mux_is (base : Z) (first : option Z) (cached : list (FlvTagType * bytes)) (aac video waiting : bool)
    (m : Muxer) : Prop :=
  header_start m = 0 /\ timestamp_base_ms m = base /\ first_media_timestamp_ms m = first /\
  cached_codec_headers m = cached /\ aac_sequence_header_seen m = aac /\ video_sequence_header_seen m = video /\
  waiting_for_video_keyframe m = waiting.

Lemma same_mux_is base first cached aac video waiting m m' :
  same_mux m m' -> mux_is base first cached aac video waiting m -> mux_is base first cached aac video waiting m'.
Proof. intros (?&?&?&?&?&?&?) (?&?&?&?&?&?&?). repeat split; congruence. Qed.

Lemma drop_header_none t headers : (t ∉ headers.*1) -> drop_header t headers = headers.
Proof.
  induction headers as [|h headers IH]; [done|]. cbn. rewrite not_elem_of_cons. intros [Hn H].
  rewrite bool_decide_eq_false_2 by congruence. by rewrite IH.
Qed.

Lemma validate_size_small t body : len body <= MAX_FLV_TAG_DATA_SIZE -> validate_size (Io := Io) t body = Ok tt.
Proof. intros H. unfold validate_size. by rewrite (proj2 (Z.ltb_ge _ _) H). Qed.
Lemma validate_codec_small t body :
  len body <= MAX_CACHED_CODEC_HEADER_SIZE -> validate_codec_header_size (Io := Io) t body = Ok tt.
Proof. intros H. unfold validate_codec_header_size. by rewrite (proj2 (Z.ltb_ge _ _) H). Qed.

(** Before the media start, a header is cached. *)
Lemma emits_header base cached aac video e m :
  header_event e -> mux_is base None cached aac video video m -> (tag_of (kind e) ∉ cached.*1) ->
  emits [] (write_to_muxer e) m
    (mux_is base None (cached ++ [(tag_of (kind e), payload e)]) (aac || bool_decide (tag_of (kind e) = Tag_Audio))
       (video || bool_decide (tag_of (kind e) = Tag_Video)) (video || bool_decide (tag_of (kind e) = Tag_Video))).
Proof.
  intros [Hl Hk] (H1 & H2 & H3 & H4 & H5 & H6 & H7) Hc.
  assert (len (payload e) <= MAX_FLV_TAG_DATA_SIZE) as Hs by (unfold MAX_CACHED_CODEC_HEADER_SIZE, MAX_FLV_TAG_DATA_SIZE in *; lia).
  unfold write_to_muxer, write_audio, write_video, mbind_se, mlift, mwrite, write_header_packet, started.
  destruct (kind e); try done; (eapply emits_silent;
    [rewrite validate_size_small, Hk, validate_codec_small by done; cbn; rewrite H3; reflexivity|done|done|]);
    unfold mux_is; cbn; rewrite H4, drop_header_none by done; rewrite ?orb_true_r, ?orb_false_r; by split_and!.
Qed.

(** While a key frame is awaited, other frames are passed over. *)
Lemma emits_lead base cached aac e m : frame_event aac true e -> ~ key_event e ->
  mux_is base None cached aac true true m -> emits [] (write_to_muxer e) m (mux_is base None cached aac true true).
Proof.
  intros [Hl Hk] Hn Hm. pose proof Hm as (H1 & H2 & H3 & H4 & H5 & H6 & H7).
  eapply (emits_silent _ m m); try done. unfold write_to_muxer, write_audio, write_video, mbind_se, mlift, mwrite.
  unfold key_event in Hn. destruct (kind e); try done; rewrite validate_size_small by done; cbn [tag_of] in Hn.
  - destruct Hk as [->|[-> ->]]; by rewrite ?H5, H7.
  - destruct Hk as [_ [Hk|Hk]]; [naive_solver|]. by rewrite Hk, H6, H7.
  - destruct Hk as [_ [Hk|Hk]]; [naive_solver|]. by rewrite Hk, H6, H7.
  - destruct Hk as [_ [Hk|Hk]]; [naive_solver|]. by rewrite Hk, H6, H7.
Qed.

Lemma emits_headers base headers m : Forall (fun h => len h.2 <= MAX_CACHED_CODEC_HEADER_SIZE) headers ->
  emits ((fun h => mkTag h.1 base h.2) <$> headers) (write_headers base headers) m (same_mux m).
Proof.
  intros Hh. revert m. induction Hh as [|[t body] headers Hb Hh IH]; intros m; [by eapply emits_silent|].
  rewrite fmap_cons. change (?a :: ?l) with ([a] ++ l). cbn [write_headers].
  eapply emits_bind; [apply emits_tag; unfold MAX_CACHED_CODEC_HEADER_SIZE, u32_max in *; simpl in Hb; lia|].
  intros m' Hm'. eapply emits_weaken; [apply IH|]. intros m'' Hm''. by etrans.
Qed.


Definition frame_time (base first time : Z) : Z := saturating_add u32_max base (relative_timestamp first time).

Lemma emits_normalized base first aac video waiting t time body m : len body <= MAX_FLV_TAG_DATA_SIZE ->
  mux_is base (Some first) [] aac video waiting m ->
  emits [mkTag t (frame_time base first time) body] (write_normalized_tag t time body) m
    (mux_is base (Some first) [] aac video waiting).
Proof.
  intros Hl Hm. pose proof Hm as (H1 & H2 & H3 & H4 & H5 & H6 & H7). unfold emits, write_normalized_tag. rewrite H3, H2.
  eapply emits_weaken; [apply emits_tag; unfold MAX_FLV_TAG_DATA_SIZE, u32_max in *; lia|].
  intros m' Hs. by eapply same_mux_is.
Qed.

Lemma emits_media base first cached aac video waiting t time body m :
  Forall (fun h => len h.2 <= MAX_CACHED_CODEC_HEADER_SIZE) cached -> len body <= MAX_FLV_TAG_DATA_SIZE ->
  mux_is base first cached aac video waiting m -> (first <> None -> cached = []) ->
  emits (((fun h => mkTag h.1 base h.2) <$> cached) ++ [mkTag t (frame_time base (default time first) time) body])
    (write_media t time body) m (mux_is base (Some (default time first)) [] aac video waiting).
Proof.
  intros Hc Hl Hm Hf. pose proof Hm as (H1 & H2 & H3 & H4 & H5 & H6 & H7). unfold write_media.
  eapply (emits_bind _ _ _ _ _ (mux_is base (Some (default time first)) [] aac video waiting)).
  - unfold emits, start_if_needed. rewrite H3. destruct first as [first|]; cbn [default].
    + rewrite Hf by done. cbn. intros. unfold encode_tags. cbn. rewrite app_nil_r. split_and!; try done.
      rewrite Hf in Hm by done. done.
    + intros He. rewrite H2, H4.
      pose proof (emits_headers base cached (set_started time m) Hc He) as G.
      destruct (write_headers base cached (set_started time m)) as [[[]|e] m']; [|done].
      destruct G as (G1 & G2 & G3 & G4). split_and!; try done. eapply same_mux_is; [done|]. by repeat split.
  - intros m' Hm'. by apply emits_normalized.
Qed.

(** What the muxer does with a frame. *)
Lemma audio_frame_written base first cached video aac e m : frame_event aac video e -> tag_of (kind e) = Tag_Audio ->
  mux_is base first cached aac video false m ->
  write_to_muxer e m = write_media Tag_Audio (timestamp_ms e) (payload e) m.
Proof.
  intros [Hl Hk] Ht (H1 & H2 & H3 & H4 & H5 & H6 & H7). unfold write_to_muxer, write_audio, mbind_se, mlift.
  destruct (kind e); try done. rewrite validate_size_small by done. destruct Hk as [->|[-> ->]]; by rewrite ?H5, H7.
Qed.

Lemma video_frame_written base first cached aac video waiting e m : frame_event aac video e -> tag_of (kind e) = Tag_Video ->
  mux_is base first cached aac video waiting m ->
  key_event e /\ write_to_muxer e m = write_media Tag_Video (timestamp_ms e) (payload e) (set_waiting false m) \/
  ~ key_event e /\ write_to_muxer e m = if waiting then (Ok tt, m) else write_normalized_tag Tag_Video (timestamp_ms e) (payload e) m.
Proof.
  intros [Hl Hk] Ht (H1 & H2 & H3 & H4 & H5 & H6 & H7). unfold write_to_muxer, write_video, mbind_se, mlift, mwrite, key_event.
  destruct (kind e); try done; rewrite validate_size_small by done; destruct Hk as [-> [Hk|Hk]]; rewrite Hk, H6; cbn [negb orb];
    rewrite ?H7; ((by left) || (right; split; [by intros [_ ?]|done])).
Qed.

Lemma frame_tag aac video e : frame_event aac video e -> tag_of (kind e) = Tag_Audio \/ tag_of (kind e) = Tag_Video.
Proof. intros [_ H]. destruct (kind e); auto; done. Qed.

Lemma set_waiting_is base first cached aac video waiting m :
  mux_is base first cached aac video waiting m -> mux_is base first cached aac video false (set_waiting false m).
Proof. intros (H1 & H2 & H3 & H4 & H5 & H6 & H7). by repeat split. Qed.

(** A frame of a running recording, and the first one, which brings the headers. *)
Lemma emits_frame base first aac video e m : frame_event aac video e -> mux_is base (Some first) [] aac video false m ->
  emits [event_tag (frame_time base first (timestamp_ms e)) e] (write_to_muxer e) m (mux_is base (Some first) [] aac video false).
Proof.
  intros He Hm. pose proof (proj1 He) as Hl. unfold event_tag.
  assert (forall t m, mux_is base (Some first) [] aac video false m ->
    emits [mkTag t (frame_time base first (timestamp_ms e)) (payload e)] (write_media t (timestamp_ms e) (payload e)) m
      (mux_is base (Some first) [] aac video false)) as Gm.
  { intros t m' Hm'. by apply (emits_media base (Some first) [] aac video false t). }
  unfold emits in *. destruct (frame_tag _ _ _ He) as [Ht|Ht]; rewrite Ht.
  - rewrite (audio_frame_written _ _ _ _ _ _ _ He Ht Hm). by apply Gm.
  - destruct (video_frame_written _ _ _ _ _ _ _ _ He Ht Hm) as [[_ ->]|[_ ->]].
    + by apply (Gm Tag_Video (set_waiting false m)), (set_waiting_is _ _ _ _ _ false).
    + by apply (emits_normalized base first aac video false).
Qed.

Lemma emits_first base cached aac video e m : Forall (fun h => len h.2 <= MAX_CACHED_CODEC_HEADER_SIZE) cached ->
  frame_event aac video e -> (video = true -> key_event e) -> mux_is base None cached aac video video m ->
  emits (((fun h => mkTag h.1 base h.2) <$> cached) ++ [event_tag (frame_time base (timestamp_ms e) (timestamp_ms e)) e])
    (write_to_muxer e) m (mux_is base (Some (timestamp_ms e)) [] aac video false).
Proof.
  intros Hc He Hkey Hm. pose proof (proj1 He) as Hl. unfold event_tag.
  assert (forall t m, mux_is base None cached aac video false m ->
    emits (((fun h => mkTag h.1 base h.2) <$> cached) ++ [mkTag t (frame_time base (timestamp_ms e) (timestamp_ms e)) (payload e)])
      (write_media t (timestamp_ms e) (payload e)) m (mux_is base (Some (timestamp_ms e)) [] aac video false)) as Gm.
  { intros t m' Hm'. by apply (emits_media base None cached aac video false t). }
  unfold emits in *. destruct (frame_tag _ _ _ He) as [Ht|Ht]; rewrite Ht.
  - destruct video; [destruct (Hkey eq_refl); congruence|].
    rewrite (audio_frame_written _ _ _ _ _ _ _ He Ht Hm). by apply Gm.
  - destruct video.
    + destruct (video_frame_written _ _ _ _ _ _ _ _ He Ht Hm) as [[_ ->]|[Hn _]]; [|by destruct Hn; apply Hkey].
      by apply (Gm Tag_Video (set_waiting false m)), (set_waiting_is _ _ _ _ _ true).
    + exfalso. destruct He as [_ He]. destruct (kind e); naive_solver.
Qed.

Fixpoint write_events (events : list Event) : MM unit :=
  match events with
  | [] => mret tt
  | e :: events => let! _ := write_to_muxer e in write_events events
  end.

Lemma write_events_app events events' m :
  write_events (events ++ events') m = (let! _ := write_events events in write_events events') m.
Proof.
  revert m; induction events as [|e events IH]; intros m; [done|]. cbn [write_events app]. unfold mbind_se in *.
  destruct (write_to_muxer e m) as [[[]|err] m']; [|done]. apply IH.
Qed.

Lemma emits_app tags tags' events events' m P Q :
  emits tags (write_events events) m P -> (forall m', P m' -> emits tags' (write_events events') m' Q) ->
  emits (tags ++ tags') (write_events (events ++ events')) m Q.
Proof. intros H H' He. rewrite write_events_app. by apply (emits_bind _ _ _ _ _ _ _ H H'). Qed.

Definition has (t : FlvTagType) (events : list Event) : bool := existsb (fun e => bool_decide (tag_of (kind e) = t)) events.
Definition header_pair (e : Event) : FlvTagType * bytes := (tag_of (kind e), payload e).

Lemma emits_session_headers headers base cached aac video m :
  Forall header_event headers -> NoDup (cached.*1 ++ ((fun e => tag_of (kind e)) <$> headers)) ->
  mux_is base None cached aac video video m ->
  emits [] (write_events headers) m
    (mux_is base None (cached ++ (header_pair <$> headers)) (aac || has Tag_Audio headers) (video || has Tag_Video headers)
       (video || has Tag_Video headers)).
Proof.
  intros Hh. revert cached aac video m. induction Hh as [|e headers He Hh IH]; intros cached aac video m Hnd Hm.
  - eapply emits_silent; [done..|]. cbn. by rewrite app_nil_r, !orb_false_r.
  - cbn [write_events]. change [] with ([] ++ [] : list Tag). eapply emits_bind.
    + apply (emits_header base cached aac video); [done..|]. rewrite fmap_cons in Hnd. apply NoDup_app in Hnd as (_ & Hd & _).
      intros Hin. apply (Hd _ Hin). apply elem_of_cons. by left.
    + intros m' Hm'. assert (NoDup ((cached ++ [(tag_of (kind e), payload e)]).*1 ++ ((fun e => tag_of (kind e)) <$> headers))) as Hnd'
        by (rewrite fmap_app, <- app_assoc; exact Hnd).
      pose proof (IH _ _ _ m' Hnd' Hm') as G. rewrite <- app_assoc in G. rewrite <- !orb_assoc in G. exact G.
Qed.

Lemma emits_session_lead lead base cached aac m :
  Forall (frame_event aac true) lead -> Forall (fun e => ~ key_event e) lead -> mux_is base None cached aac true true m ->
  emits [] (write_events lead) m (mux_is base None cached aac true true).
Proof.
  intros Hl Hn. revert m. induction Hl as [|e lead He Hl IH]; intros m Hm; [by eapply emits_silent|].
  apply Forall_cons in Hn as [Hk Hn]. cbn [write_events]. change [] with ([] ++ [] : list Tag).
  eapply emits_bind; [by apply emits_lead|]. intros m' Hm'. by apply IH.
Qed.

Lemma emits_session_rest rest base first aac video m :
  Forall (frame_event aac video) rest -> mux_is base (Some first) [] aac video false m ->
  emits ((fun e => event_tag (frame_time base first (timestamp_ms e)) e) <$> rest) (write_events rest) m
    (mux_is base (Some first) [] aac video false).
Proof.
  intros Hr. revert m. induction Hr as [|e rest He Hr IH]; intros m Hm; [by eapply emits_silent|].
  rewrite fmap_cons. cbn [write_events]. change (?a :: ?l) with ([a] ++ l).
  eapply emits_bind; [by apply emits_frame|]. intros m' Hm'. by apply IH.
Qed.

(** A session of a recording: the headers of the stream, frames that arrive before
    it can start, the frame it starts with, and the frames that follow. *)
Record Session : Type := mkSession {
  s_headers : list Event;
  s_lead : list Event;
  s_first : Event;
  s_rest : list Event;
}.
Definition session_events (s : Session) : list Event := s_headers s ++ s_lead s ++ s_first s :: s_rest s.

(** The message was made by the hub's constructors, at a 32-bit time. *)
Definition made_media (e : Event) : Prop :=
  0 <= timestamp_ms e <= u32_max /\
  match tag_of (kind e) with
  | Tag_Audio => MediaEvent_audio (timestamp_ms e) (payload e) = Ok e
  | Tag_Video => MediaEvent_video (timestamp_ms e) (payload e) = Ok e
  | Tag_Metadata => False
  end.

Record session_ok (s : Session) : Prop := {
  s_made : Forall made_media (session_events s);
  s_headers_ok : Forall header_event (s_headers s);
  s_types : NoDup ((fun e => tag_of (kind e)) <$> s_headers s);
  s_frames : Forall (frame_event (has Tag_Audio (s_headers s)) (has Tag_Video (s_headers s))) (s_lead s ++ s_first s :: s_rest s);
  s_starts : if has Tag_Video (s_headers s) then key_event (s_first s) /\ Forall (fun e => ~ key_event e) (s_lead s)
             else s_lead s = [];
}.

(** What is recorded of it, from a time on. *)
Definition session_times (base : Z) (s : Session) : list (Z * Event) :=
  ((fun e => (base, e)) <$> s_headers s) ++
  ((fun e => (frame_time base (timestamp_ms (s_first s)) (timestamp_ms e), e)) <$> s_first s :: s_rest s).

Definition session_tags (base : Z) (s : Session) : list Tag := (fun p => event_tag p.1 p.2) <$> session_times base s.

Lemma emits_session base s m : session_ok s -> mux_is base None [] false false false m ->
  emits (session_tags base s) (write_events (session_events s)) m (fun m' => header_start m' = 0).
Proof.
  intros [_ Hh Ht Hf Hs] Hm. set (aac := has Tag_Audio (s_headers s)) in *. set (video := has Tag_Video (s_headers s)) in *.
  rewrite Forall_app, Forall_cons in Hf. destruct Hf as (Hl & Hfirst & Hrest).
  assert (session_tags base s = [] ++ [] ++ (((fun h => mkTag h.1 base h.2) <$> (header_pair <$> s_headers s)) ++
    [event_tag (frame_time base (timestamp_ms (s_first s)) (timestamp_ms (s_first s))) (s_first s)]) ++
    ((fun e => event_tag (frame_time base (timestamp_ms (s_first s)) (timestamp_ms e)) e) <$> s_rest s)) as ->.
  { unfold session_tags, session_times. rewrite fmap_app, !fmap_cons, <- !list_fmap_compose, <- app_assoc. done. }
  unfold session_events. eapply emits_app; [by apply (emits_session_headers (s_headers s) base [] false false m Hh)|].
  cbn [orb]. fold aac video. intros m1 Hm1. cbn [app] in Hm1. eapply emits_app.
  { instantiate (1 := mux_is base None (header_pair <$> s_headers s) aac video video). destruct video.
    - apply emits_session_lead; [done|apply Hs|done].
    - rewrite Hs. by eapply emits_silent. }
  intros m2 Hm2. cbn [write_events]. eapply emits_bind.
  { apply (emits_first base _ aac video); try done.
    - apply Forall_fmap. eapply Forall_impl; [exact Hh|]. intros e [He _]. exact He.
    - intros Hv. rewrite Hv in Hs. apply Hs. }
  intros m3 Hm3. eapply emits_weaken; [by apply emits_session_rest|]. by intros m4 [H4 _].
Qed.

(** Closing writes the flags into the header. *)
Lemma close_spec m f rest : at_end (writer m) -> header_start m = 0 -> contents (writer m) = file_header f ++ rest ->
  match FlvMuxer_close m with
  | Ok w => contents w = file_header (flags m) ++ rest /\ at_end w
  | Err e => exists io, e = FlvIo io
  end.
Proof.
  intros He Hh Hc. unfold FlvMuxer_close, mbind_se, on_writer, mread. rewrite Hh.
  destruct (stream_position (writer m)) as [[p|e1] w1] eqn:E1; cbn [map_err fst]; [|by eexists]. cbn [set_writer writer].
  destruct (seek_start (0 + 4) w1) as [[[]|e2] w2] eqn:E2; cbn [map_err fst]; [|by eexists]. cbn [set_writer writer].
  destruct (write_all [z2b (flags m)] w2) as [[[]|e3] w3] eqn:E3; cbn [map_err fst]; [|by eexists]. cbn [set_writer writer].
  destruct (seek_start p w3) as [[[]|e4] w4] eqn:E4; cbn [map_err fst]; [|by eexists]. cbn [set_writer writer].
  destruct (flush w4) as [[[]|e5] w5] eqn:E5; cbn [map_err fst]; [|by eexists]. cbn [set_writer writer].
  apply stream_position_spec in E1 as (-> & P1 & C1). apply seek_start_spec in E2 as (P2 & C2).
  apply seek_start_spec in E4 as (P4 & C4). apply flush_spec in E5 as (P5 & C5).
  assert (len (file_header f ++ rest) = 13 + len rest) as Hlen by (rewrite len_app; done).
  pose proof (len_nonneg rest) as Hn. apply write_all_contents in E3; [|rewrite P2, C2, C1, Hc; lia].
  rewrite P2, C2, C1, Hc in E3. unfold at_end in *. rewrite C5, C4, E3, P5, P4, He, Hc. by split.
Qed.

End Recording.

(** ** Reading tags back *)

Lemma be_value_4 a b c d : be_value [a; b; c; d] = b2z d + 256 * (b2z c + 256 * (b2z b + 256 * b2z a)).
Proof. unfold be_value. simpl. lia. Qed.
Lemma be_value_3 b c d : be_value [b; c; d] = b2z d + 256 * (b2z c + 256 * b2z b).
Proof. unfold be_value. simpl. lia. Qed.

Lemma be_bytes_4 n : 0 <= n <= u32_max -> exists a b c d, be_bytes 4 n = [a; b; c; d] /\ be_value [a; b; c; d] = n.
Proof.
  intros Hn. pose proof (length_be_bytes 4 n) as Hl. pose proof (be_roundtrip 4 n) as Hr.
  destruct (be_bytes 4 n) as [|a [|b [|c [|d [|]]]]]; try done. exists a, b, c, d. split; [done|].
  apply Hr. unfold u32_max in Hn. simpl. lia.
Qed.

(** The 24-bit size of a tag. *)
Lemma be_bytes_size n : 0 <= n <= MAX_FLV_TAG_DATA_SIZE -> exists b c d, be_bytes 4 n = [x00; b; c; d] /\ be_value [b; c; d] = n.
Proof.
  intros Hn. destruct (be_bytes_4 n) as (a & b & c & d & E & Hv); [unfold MAX_FLV_TAG_DATA_SIZE, u32_max in *; lia|].
  exists b, c, d. rewrite be_value_4 in Hv. rewrite be_value_3.
  pose proof (b2z_range a). pose proof (b2z_range b). pose proof (b2z_range c). pose proof (b2z_range d).
  unfold MAX_FLV_TAG_DATA_SIZE in Hn. assert (b2z a = 0) as Ha by lia.
  assert (a = x00) as -> by (by apply b2z_inj). split; [done|lia].
Qed.

Definition tag_ok (t : Tag) : Prop := 0 <= tag_time t <= u32_max /\ len (tag_body t) <= MAX_FLV_TAG_DATA_SIZE.

(** The layout of a tag: its header of eleven bytes, the body, the size. *)
Lemma encode_tag_layout t : tag_ok t -> exists size time : bytes, exists u : byte,
  encode_tag t = (tag_type_byte (tag_type t) :: size ++ time ++ [u; x00; x00; x00]) ++ tag_body t ++
                 be_bytes 4 (11 + len (tag_body t)) /\
  length size = 3%nat /\ length time = 3%nat /\ be_value size = len (tag_body t) /\ be_value (u :: time) = tag_time t /\
  be_value (be_bytes 4 (11 + len (tag_body t))) = 11 + len (tag_body t).
Proof.
  intros [Ht Hb]. pose proof (len_nonneg (tag_body t)) as Hn.
  destruct (be_bytes_size (len (tag_body t))) as (b & c & d & Es & Hs); [lia|].
  destruct (be_bytes_4 (tag_time t) Ht) as (u & v & w & x & Et & Hv).
  exists [b; c; d], [v; w; x], u. unfold encode_tag. rewrite Es, Et. split_and!; try done.
  apply be_roundtrip. unfold MAX_FLV_TAG_DATA_SIZE in Hb. simpl. lia.
Qed.

Lemma len_encode_tag t : tag_ok t -> len (encode_tag t) = 15 + len (tag_body t).
Proof.
  intros Ht. destruct (encode_tag_layout t Ht) as (size & time & u & -> & Hs & Hi & _). rewrite !len_app, len_cons, !len_app, len_be_bytes.
  unfold len. rewrite Hs, Hi. simpl. lia.
Qed.

Lemma tag_header_fields (tt u : byte) (size time rest : bytes) : length size = 3%nat -> length time = 3%nat ->
  let header := tt :: size ++ time ++ [u; x00; x00; x00] in
  slice (header ++ rest) 1 4 = size /\ slice (header ++ rest) 4 7 = time /\ slice (header ++ rest) 7 8 = [u] /\ len header = 11.
Proof. destruct size as [|? [|? [|? [|]]]], time as [|? [|? [|? [|]]]]; done. Qed.

Lemma slice_between {A} (x y z : list A) a b : a = len x -> b = a + len y -> slice (x ++ y ++ z) a b = y.
Proof. intros -> ->. rewrite slice_skip by lia. rewrite Z.sub_diag, Z.add_simpl_l. apply slice_head. Qed.

Section Reading.
Context {T : Type}.
Abbreviation Event := (MediaEvent T).

(** The message at another time. *)
Definition at_time (t : Z) (e : Event) : Event :=
  mkMediaEvent (kind e) t (payload e) (metadata e) (video_codec e) (video_codec_identifier e).

Lemma retime_new t t' k body (e : Event) : MediaEvent_new k t body = Ok e -> MediaEvent_new k t' body = Ok (at_time t' e).
Proof. unfold MediaEvent_new. case_match; [done|]. by intros [= <-]. Qed.

Lemma retime_audio t t' body (e : Event) : MediaEvent_audio t body = Ok e -> MediaEvent_audio t' body = Ok (at_time t' e).
Proof.
  unfold MediaEvent_audio. destruct body as [|b body]; [done|]. set (c := if _ =? _ then _ else _).
  destruct c as [k|]; cbn [result_bind]; [apply retime_new|done].
Qed.

Lemma retime_video t t' body (e : Event) : MediaEvent_video t body = Ok e -> MediaEvent_video t' body = Ok (at_time t' e).
Proof.
  unfold MediaEvent_video. destruct body as [|b body]; [done|]. cbv zeta. set (c := if _ =? 0 then _ else _).
  destruct c as [[[k codec] identifier]|]; cbn [result_bind]; [|done].
  destruct (MediaEvent_new k t (b :: body)) as [e0|] eqn:E0; cbn [result_bind]; [|done].
  rewrite (retime_new t t' _ _ _ E0). cbn [result_bind]. by intros [= <-].
Qed.

Lemma tag_event_made t (e : Event) : made_media e ->
  tag_event (tag_type_byte (tag_of (kind e))) t (payload e) = Ok (Some (at_time t e)).
Proof.
  intros [_ H]. unfold tag_event. destruct (tag_of (kind e)); [..|done]; cbn [tag_type_byte];
    [rewrite (retime_audio _ t _ _ H)|rewrite (retime_video _ t _ _ H)]; done.
Qed.

(** One turn of the loop. *)
Lemma parse_tag fuel max t (r : option Event) rest acc : tag_ok t ->
  tag_event (tag_type_byte (tag_type t)) (tag_time t) (tag_body t) = Ok r -> len acc + len (option_list r) <= MAX_VOD_EVENTS ->
  parse_flv_tags (S fuel) max (encode_tag t ++ rest) acc =
  parse_flv_tags fuel max rest (if tag_time t <=? max then acc ++ option_list r else acc).
Proof.
  intros Ht He Ha. pose proof (len_encode_tag t Ht) as Hl. pose proof (len_nonneg (tag_body t)) as Hb. pose proof (len_nonneg rest) as Hr.
  destruct (encode_tag_layout t Ht) as (size & time & u & E & Hs & Hi & Vs & Vt & Vp). rewrite E in Hl. rewrite E.
  destruct (tag_header_fields (tag_type_byte (tag_type t)) u size time
    (tag_body t ++ be_bytes 4 (11 + len (tag_body t)) ++ rest) Hs Hi) as (F1 & F2 & F3 & F4).
  set (header := _ :: size ++ _) in *. assert (exists tl, header ++ (tag_body t ++ be_bytes 4 (11 + len (tag_body t)) ++ rest) =
    tag_type_byte (tag_type t) :: tl) as [tl Etl] by (by eexists).
  rewrite <- !app_assoc. cbn [parse_flv_tags]. rewrite Etl. cbn [parse_flv_tags]. rewrite <- Etl.
  rewrite F1, F2, F3, Vs. change ([u] ++ time) with (u :: time). rewrite Vt.
  rewrite (slice_between header (tag_body t) _ 11) by lia.
  assert (slice (header ++ tag_body t ++ be_bytes 4 (11 + len (tag_body t)) ++ rest) (11 + len (tag_body t))
    (11 + len (tag_body t) + 4) = be_bytes 4 (11 + len (tag_body t))) as ->.
  { rewrite app_assoc. apply slice_between; rewrite ?len_app, ?len_be_bytes; lia. }
  rewrite Vp, (Z.add_comm (len (tag_body t)) 11), Z.eqb_refl. cbn [negb].
  assert (drop (Z.to_nat (11 + len (tag_body t) + 4)) (header ++ tag_body t ++ be_bytes 4 (11 + len (tag_body t)) ++ rest) = rest) as ->.
  { rewrite !app_assoc. rewrite <- (app_assoc header). apply drop_app_length'. unfold len in Hl |- *. lia. }
  rewrite !(proj2 (Z.ltb_ge _ _)) by (rewrite !len_app, len_be_bytes; lia).
  destruct (tag_time t <=? max); [|done]. rewrite He. destruct r as [e|]; [|by rewrite app_nil_r].
  rewrite len_app, (proj2 (Z.ltb_ge _ _)); done.
Qed.

(** The messages whose times are within a limit, at these times. *)
Definition played (max : Z) (times : list (Z * Event)) : list Event :=
  (fun p => at_time p.1 p.2) <$> List.filter (fun p => p.1 <=? max) times.

Definition pair_ok (p : Z * Event) : Prop := 0 <= p.1 <= u32_max /\ made_media p.2.

Lemma made_size (e : Event) : made_media e -> len (payload e) <= MAX_FLV_TAG_DATA_SIZE.
Proof.
  assert (forall k t body (e0 : Event), MediaEvent_new k t body = Ok e0 -> payload e0 = body /\ len body <= MAX_FLV_TAG_DATA_SIZE) as Hn.
  { unfold MediaEvent_new. intros k t body e0. destruct (MAX_FLV_TAG_DATA_SIZE <? len body) eqn:E; [done|]. intros [= <-].
    split; [done|]. by apply Z.ltb_ge in E. }
  intros [_ H]. destruct (tag_of (kind e)); [..|done].
  - unfold MediaEvent_audio in H. destruct (payload e) as [|b body]; [done|]. revert H. set (c := if _ =? _ then _ else _).
    destruct c; cbn [result_bind]; [|done]. by intros [_ ?]%Hn.
  - unfold MediaEvent_video in H. destruct (payload e) as [|b body]; [done|]. revert H. cbv zeta. set (c := if _ =? 0 then _ else _).
    destruct c as [[[k codec] identifier]|]; cbn [result_bind]; [|done].
    destruct (MediaEvent_new k _ _) as [e0|] eqn:E0; [|done]. by apply Hn in E0 as [_ ?].
Qed.

Lemma pair_tag_ok p : pair_ok p -> tag_ok (event_tag p.1 p.2).
Proof. intros [Ht Hm]. split; [done|]. by apply made_size. Qed.

(** The loop reads back every tag. *)
Lemma parse_encoded max times : forall fuel acc, Forall pair_ok times -> (length times <= fuel)%nat ->
  len acc + len times <= MAX_VOD_EVENTS ->
  parse_flv_tags fuel max (encode_tags ((fun p => event_tag p.1 p.2) <$> times)) acc = Some (Ok (acc ++ played max times)).
Proof.
  induction times as [|p times IH]; intros fuel acc Hf Hfuel Hn.
  { unfold played. cbn. rewrite app_nil_r. by destruct fuel. }
  apply Forall_cons_1 in Hf as [Hp Hf]. destruct fuel as [|fuel]; [simpl in Hfuel; lia|].
  rewrite len_cons in Hn. pose proof (len_nonneg times) as Hz. rewrite fmap_cons.
  change (encode_tags (?t :: ?ts)) with (encode_tag t ++ encode_tags ts).
  rewrite (parse_tag fuel max _ (Some (at_time p.1 p.2)));
    [|by apply pair_tag_ok|apply tag_event_made, Hp|unfold len in *; simpl; lia].
  rewrite IH; [|done|simpl in Hfuel; lia|].
  - unfold played. cbn [List.filter event_tag tag_time]. destruct (p.1 <=? max); [|done]. by rewrite fmap_cons, <- app_assoc.
  - cbn [event_tag tag_time]. destruct (p.1 <=? max); [rewrite len_app|]; unfold len in *; simpl; lia.
Qed.

(** Tags of metadata are passed over. *)
Definition metadata_tag (t : Tag) : Prop := tag_ok t /\ tag_type t = Tag_Metadata.

Lemma parse_skipped max tags : forall fuel rest (acc : list Event), Forall metadata_tag tags -> (length tags <= fuel)%nat ->
  len acc <= MAX_VOD_EVENTS ->
  parse_flv_tags fuel max (encode_tags tags ++ rest) acc = parse_flv_tags (fuel - length tags) max rest acc.
Proof.
  induction tags as [|t tags IH]; intros fuel rest acc Hf Hfuel Hn; [by rewrite Nat.sub_0_r|].
  apply Forall_cons_1 in Hf as [[Ht Hm] Hf]. destruct fuel as [|fuel]; [simpl in Hfuel; lia|].
  change (encode_tags (t :: tags)) with (encode_tag t ++ encode_tags tags). rewrite <- app_assoc.
  rewrite (parse_tag fuel max t None); [|done|by rewrite Hm|change (len (option_list (@None Event))) with 0; lia].
  cbn [option_list length]. rewrite app_nil_r. simpl in Hfuel. rewrite <- (IH fuel) by (done || lia). by destruct (_ <=? _).
Qed.

Lemma length_encoded tags : (length tags <= length (encode_tags tags))%nat.
Proof.
  induction tags as [|t tags IH]; [done|]. change (encode_tags (t :: tags)) with (encode_tag t ++ encode_tags tags).
  rewrite length_app. cbn [length encode_tag app]. lia.
Qed.

(** A whole file. *)
Lemma parse_recorded f limit skipped times : Forall metadata_tag skipped -> Forall pair_ok times -> len times <= MAX_VOD_EVENTS ->
  parse_flv_events (file_header f ++ encode_tags (skipped ++ ((fun p => event_tag p.1 p.2) <$> times))) limit =
  Some (Ok (played (Z.min limit u32_max) times)).
Proof.
  intros Hm Hf Hn. set (tags := skipped ++ _). pose proof (len_nonneg (encode_tags tags)) as Hr.
  assert (len (file_header f ++ encode_tags tags) = 13 + len (encode_tags tags)) as Hl by (rewrite len_app; done).
  unfold parse_flv_events. rewrite Hl. set (rest := encode_tags tags). change (slice (file_header f ++ rest) 0 3) with (lit "FLV").
  change ((file_header f ++ rest) !! 3%nat) with (Some x01). change (slice (file_header f ++ rest) 5 9) with [x00; x00; x00; x09].
  change (be_value [x00; x00; x00; x09]) with 9. rewrite !(proj2 (Z.ltb_ge _ _)) by (unfold rest; lia).
  change (beqb (lit "FLV") (lit "FLV")) with true. rewrite bool_decide_eq_true_2 by done. cbn [negb orb].
  change (drop (Z.to_nat (9 + 4)) (file_header f ++ rest)) with rest.
  pose proof (length_encoded tags) as Ht. unfold rest, tags in *. rewrite length_app, length_fmap in Ht.
  rewrite encode_tags_app, parse_skipped; [|done|rewrite length_app, <- encode_tags_app; lia|done].
  apply (parse_encoded _ times _ []); [done| |done]. rewrite length_app, <- encode_tags_app. lia.
Qed.
End Reading.

Lemma read_exact_between (x y z : bytes) a n : a = len x -> n = len y -> read_exact (x ++ y ++ z) a n = Some y.
Proof.
  intros -> ->. pose proof (len_nonneg x). pose proof (len_nonneg y). pose proof (len_nonneg z). unfold read_exact.
  rewrite (proj2 (Z.ltb_ge _ _)) by lia. rewrite (proj2 (Z.ltb_ge _ _)) by (rewrite !len_app; lia). cbn [orb].
  f_equal. by apply slice_between.
Qed.

(** The tail of a recording tells its flags and the time of its last tag. *)
Lemma inspect_recorded f before t : tag_ok t ->
  let file := file_header f ++ before ++ encode_tag t in
  inspect_tail file (len file) = Some (b2z (z2b f), tag_time t).
Proof.
  intros Ht file. pose proof (len_encode_tag t Ht) as Hl. pose proof (len_nonneg (tag_body t)) as Hb. pose proof (len_nonneg before) as Hr.
  assert (len file = 13 + len before + 15 + len (tag_body t)) as Hf
    by (unfold file; rewrite !len_app, Hl; change (len (file_header f)) with 13; lia).
  destruct (encode_tag_layout t Ht) as (size & time & u & E & Hs & Hi & Vs & Vt & Vp).
  destruct (tag_header_fields (tag_type_byte (tag_type t)) u size time [] Hs Hi) as (F1 & F2 & F3 & F4).
  set (header := _ :: size ++ _) in *. rewrite app_nil_r in F1, F2, F3. rewrite E, !len_app, len_be_bytes in Hl.
  unfold inspect_tail. rewrite (proj2 (Z.ltb_ge _ _)) by lia.
  assert (read_exact file 0 9 = Some (lit "FLV" ++ [x01; z2b f; x00; x00; x00; x09])) as ->
    by (by apply (read_exact_between [] (lit "FLV" ++ [x01; z2b f; x00; x00; x00; x09]) ([x00; x00; x00; x00] ++ before ++ encode_tag t))).
  cbn [mbind option_bind]. change (negb (beqb (slice _ 0 4) _) || _) with false. cbv iota.
  assert (read_exact file (len file - 4) 4 = Some (be_bytes 4 (11 + len (tag_body t)))) as ->.
  { assert (file = (file_header f ++ before ++ header ++ tag_body t) ++ be_bytes 4 (11 + len (tag_body t)) ++ []) as ->
      by (unfold file; by rewrite E, app_nil_r, !app_assoc).
    apply read_exact_between; [|by rewrite len_be_bytes]. rewrite !len_app, len_be_bytes. change (len []) with 0. lia. }
  cbn [mbind option_bind]. rewrite Vp, !(proj2 (Z.ltb_ge _ _)) by lia. cbn [orb].
  assert (read_exact file (len file - 4 - (11 + len (tag_body t))) 11 = Some header) as ->.
  { assert (file = (file_header f ++ before) ++ header ++ tag_body t ++ be_bytes 4 (11 + len (tag_body t))) as Ef
      by (unfold file; by rewrite E, !app_assoc).
    rewrite Hf, Ef. apply read_exact_between; [|done]. rewrite len_app. change (len (file_header f)) with 13. lia. }
  cbn [mbind option_bind]. rewrite F1, F2, F3, Vs. change ([u] ++ time) with (u :: time).
  rewrite Vt, Z.add_comm, Z.eqb_refl. done.
Qed.

(** ** Recordings *)

Section Recordings.
Context {W Io T : Type} `{!WriteSeek W Io, !RecordedFile W Io}.
Abbreviation Muxer := (FlvMuxer W).
Abbreviation Event := (MediaEvent T).
Abbreviation Session := (Session (T := T)).
Abbreviation session_ok := (session_ok (Io := Io) (T := T)).

(** Recording a session with a muxer, on a fresh file, or after what a file holds. *)
Definition record_session (m : Muxer) (s : Session) : result W (FlvMuxerError Io) :=
  match write_events (session_events s) m with
  | (Ok _, m) => FlvMuxer_close m
  | (Err e, _) => Err e
  end.

Definition record_new (w : W) (s : Session) : result W (FlvMuxerError Io) :=
  match FlvMuxer_new w with
  | (Ok m, _) => record_session m s
  | (Err e, _) => Err e
  end.

(** [None] is a file that was refused. *)
Fixpoint record_more (w : W) (ss : list Session) : option (result W (FlvMuxerError Io)) :=
  match ss with
  | [] => Some (Ok w)
  | s :: ss =>
      tail ← inspect_tail (contents w) (len (contents w));
      match record_session (FlvMuxer_resume w tail.1 tail.2) s with
      | Ok w => record_more w ss
      | Err e => Some (Err e)
      end
  end.

Definition record_sessions (w : W) (s : Session) (ss : list Session) : option (result W (FlvMuxerError Io)) :=
  match record_new w s with
  | Ok w => record_more w ss
  | Err e => Some (Err e)
  end.

(** The time of the last frame of a session, from which the next one goes on. *)
Definition session_end (base : Z) (s : Session) : Z :=
  frame_time base (timestamp_ms (s_first s)) (timestamp_ms (default (s_first s) (last (s_rest s)))).

Fixpoint sessions_times (base : Z) (ss : list Session) : list (Z * Event) :=
  match ss with
  | [] => []
  | s :: ss => session_times base s ++ sessions_times (session_end base s) ss
  end.

Lemma frame_time_range base first time : 0 <= base <= u32_max -> 0 <= frame_time base first time <= u32_max.
Proof.
  intros Hb. unfold frame_time, saturating_add, relative_timestamp, wrapping_sub.
  pose proof (Z.mod_pos_bound (time - first) (u32_max + 1) ltac:(done)). unfold u32_max in *. case_match; lia.
Qed.

Lemma session_pairs base s : session_ok s -> 0 <= base <= u32_max -> Forall pair_ok (session_times base s).
Proof.
  intros [Hm _ _ _ _] Hb. unfold session_events in Hm. rewrite !Forall_app in Hm. destruct Hm as (Hh & _ & Hr).
  unfold session_times. apply Forall_app. split; apply Forall_fmap.
  - eapply Forall_impl; [exact Hh|]. by intros e He.
  - eapply Forall_impl; [exact Hr|]. intros e He. split; [by apply frame_time_range|done].
Qed.

Lemma session_times_last base s : exists before e, session_times base s = before ++ [(session_end base s, e)].
Proof.
  unfold session_times, session_end. set (g := fun e => (frame_time base _ (timestamp_ms e), e)).
  destruct (s_rest s) as [|x l _] eqn:E using rev_ind; [by eexists _, _|].
  rewrite last_snoc, fmap_cons, fmap_app. eexists (_ ++ g (s_first s) :: (g <$> l)), x. by rewrite <- app_assoc.
Qed.

(** The file holds the messages, up to the last at a time. *)
Definition recorded (w : W) (times : list (Z * Event)) (last_time : Z) : Prop :=
  at_end w /\ (exists f, contents w = file_header f ++ encode_tags ((fun p => event_tag p.1 p.2) <$> times)) /\
  Forall pair_ok times /\ (exists before e, times = before ++ [(last_time, e)]).

Lemma record_session_spec base s m f times : session_ok s -> 0 <= base <= u32_max -> Forall pair_ok times ->
  mux_is base None [] false false false m -> at_end (writer m) ->
  contents (writer m) = file_header f ++ encode_tags ((fun p => event_tag p.1 p.2) <$> times) ->
  match record_session m s with
  | Ok w => recorded w (times ++ session_times base s) (session_end base s)
  | Err e => exists io, e = FlvIo io
  end.
Proof.
  intros Hs Hb Hp Hm He Hc. unfold record_session. pose proof (emits_session base s m Hs Hm He) as H.
  destruct (write_events (session_events s) m) as [[[]|e] m']; [|done]. destruct H as (Hc' & He' & _ & Hh).
  rewrite Hc, <- app_assoc, <- encode_tags_app in Hc'. unfold session_tags in Hc'. rewrite <- fmap_app in Hc'.
  pose proof (close_spec m' f _ He' Hh Hc') as H. destruct (FlvMuxer_close m') as [w|e]; [|done]. destruct H as [H1 H2].
  split_and!; [done|by eexists| |].
  - apply Forall_app. split; [done|by apply session_pairs].
  - destruct (session_times_last base s) as (before & e & ->). exists (times ++ before), e. by rewrite app_assoc.
Qed.

Lemma record_new_spec w s : session_ok s -> contents w = [] -> position w = 0 ->
  match record_new w s with
  | Ok w => recorded w (session_times 0 s) (session_end 0 s)
  | Err e => exists io, e = FlvIo io
  end.
Proof.
  intros Hs Hw Hp. unfold record_new, FlvMuxer_new.
  destruct (stream_position w) as [[p|e] w1] eqn:E1; [|by eexists]. apply stream_position_spec in E1 as (-> & P1 & C1).
  destruct (write_all FLV_HEADER w1) as [[[]|e] w2] eqn:E2; [|by eexists].
  pose proof (write_all_position _ _ _ E2) as P2. apply write_all_contents in E2; [|rewrite C1, P1, Hw, Hp; done].
  rewrite P1, C1, Hw, Hp in *. apply (record_session_spec 0 s _ 0 []); try done. unfold at_end. cbn [writer].
  rewrite P2, E2. done.
Qed.

(** A recorded file is always taken up again. *)
Lemma record_more_spec ss : forall w times last_time, Forall session_ok ss -> recorded w times last_time ->
  exists r, record_more w ss = Some r /\
  match r with
  | Ok w => exists last_time', recorded w (times ++ sessions_times last_time ss) last_time'
  | Err e => exists io, e = FlvIo io
  end.
Proof.
  induction ss as [|s ss IH]; intros w times last_time Hs Hw.
  { eexists. split; [done|]. cbn. rewrite app_nil_r. by exists last_time. }
  apply Forall_cons_1 in Hs as [Hs Hss]. destruct Hw as (He & (f & Hc) & Hp & before & e & ->).
  pose proof Hp as [Hp0 [[Hl Hm] _]%Forall_cons_1]%Forall_app. cbn [record_more].
  assert (inspect_tail (contents w) (len (contents w)) = Some (b2z (z2b f), last_time)) as ->.
  { rewrite Hc, fmap_app, encode_tags_app. unfold encode_tags at 2 4. cbn [list_fmap fmap concat]. rewrite app_nil_r.
    apply (inspect_recorded f _ (event_tag last_time e)). by apply (pair_tag_ok (last_time, e)). }
  cbn [mbind option_bind fst snd].
  pose proof (record_session_spec last_time s (FlvMuxer_resume w (b2z (z2b f)) last_time) f _ Hs Hl Hp) as H.
  destruct (record_session _ s) as [w'|e']; [|by eexists; split; [done|]; apply H].
  destruct (IH w' _ _ Hss (H ltac:(done) He Hc)) as (r & Hr & H'). exists r. split; [done|].
  cbn [sessions_times]. rewrite app_assoc. done.
Qed.
End Recordings.

(** ** The reader stops *)

(** Every turn of the loop takes bytes of the file. *)
Lemma parse_tags_total {T} max : forall fuel rest (acc : list (MediaEvent T)), (length rest <= fuel)%nat ->
  is_Some (parse_flv_tags fuel max rest acc).
Proof.
  induction fuel as [|fuel IH]; intros [|b rest] acc Hl; try (by eexists); [simpl in Hl; lia|]. cbn [parse_flv_tags].
  assert (forall n acc', 0 <= n -> is_Some (parse_flv_tags fuel max (drop (Z.to_nat (11 + n + 4)) (b :: rest)) acc')) as Hn
    by (intros n acc' Hn; apply IH; rewrite length_drop; simpl in *; lia).
  pose proof (be_value_range (slice (b :: rest) 1 4)) as [Hv _].
  repeat (case_match; try (by eexists); try (by apply Hn)).
Qed.

Theorem flv_reader_total {T} file limit : is_Some (parse_flv_events (T := T) file limit).
Proof.
  unfold parse_flv_events. repeat (case_match; try by eexists). apply parse_tags_total. rewrite length_drop. lia.
Qed.

(** ** What the muxer was made from *)

Section Made.
Context {W Io T : Type} `{!WriteSeek W Io, !RecordedFile W Io}.

(** A muxer of a new file or of a resumed one, after any calls, failed ones too. *)
Inductive made_muxer : FlvMuxer W -> Prop :=
  | made_new w m w' : FlvMuxer_new w = (Ok m, w') -> made_muxer m
  | made_resumed w flags last : made_muxer (FlvMuxer_resume w flags last)
  | made_write m (e : MediaEvent T) : made_muxer m -> made_muxer (write_to_muxer e m).2.

Lemma made_mux_ok (m : FlvMuxer W) : made_muxer m -> mux_ok m.
Proof.
  assert (forall (w : W) start f base, mux_ok (mkFlvMuxer w start f base None [] false false false)) as Hi.
  { intros. split; try done. cbn. split; [by apply Forall_nil|by apply NoDup_nil]. }
  induction 1 as [w m w' E|w f t|m e _ IH]; [|apply Hi|by apply safe_event].
  unfold FlvMuxer_new in E. repeat case_match; simplify_eq. apply Hi.
Qed.

(** C33: the size the recorder projects for a message is exact. For every muxer of a
    new or a resumed file after any calls, writing a message never panics; where the
    projection is an error the write is refused with the same error and nothing
    changes.  Where it is a number, a write that succeeds moves the output by exactly
    this many bytes, cached codec headers and dropped frames included; a write that
    fails fails because the output does, or it is a codec header larger than the
    cache takes, which is refused and changes nothing: its size is projected as if it
    were written. *)
Theorem flv_projection_exact m (e : MediaEvent T) : made_muxer m ->
  (write_to_muxer e m).1 <> Err FlvPanic /\
  match projected_bytes (Io := Io) m e with
  | Err x => write_to_muxer e m = (Err x, m)
  | Ok n =>
      match write_to_muxer e m with
      | (Ok _, m') => position (writer m') = position (writer m) + n
      | (Err (FlvIo _), _) => True
      | (Err x, m') => refused_header (payload e) x m m'
      end
  end.
Proof.
  intros Hm%made_mux_ok. pose proof (proj2 (safe_event e m Hm)) as Hsafe. split; [by apply safe_event|].
  pose proof (event_projected e m Hm) as Hp. unfold projects in Hp.
  destruct (projected_bytes m e) as [n|x] eqn:En; [|done].
  destruct (write_to_muxer e m) as [[[]|x] m'] eqn:Ew; [by apply Hp|].
  destruct (event_failure e m n x m' En Ew) as [[io ->]|[->|Hr]]; [done| |by destruct x].
  pose proof (safe_event e m Hm) as H. rewrite Ew in H. by destruct H as [H _].
Qed.

End Made.

(** ** A file in memory *)

Record MemFile : Type := mkMemFile { mem_bytes : bytes; mem_position : Z }.

Definition mem_write (bs : bytes) (w : MemFile) : MemFile :=
  mkMemFile (take (Z.to_nat (mem_position w)) (mem_bytes w) ++ bs ++ drop (Z.to_nat (mem_position w + len bs)) (mem_bytes w))
    (mem_position w + len bs).

#[export] Instance mem_write_seek : WriteSeek MemFile Empty_set := {
  write_all bs w := (Ok tt, mem_write bs w);
  stream_position w := (Ok (mem_position w), w);
  seek_start p w := (Ok tt, mkMemFile (mem_bytes w) p);
  flush w := (Ok tt, w);
}.

#[export] Program Instance mem_recorded_file : RecordedFile MemFile Empty_set := {
  contents := mem_bytes;
  position := mem_position;
}.
Solve Obligations with (cbn; intros; simplify_eq; done).

Definition event_or {E} (r : result (MediaEvent unit) E) : MediaEvent unit :=
  match r with Ok e => e | Err _ => mkMediaEvent Metadata 0 [] None None None end.

(** AAC and AVC, with an audio frame before the first key frame; then audio only. *)
Definition video_session : Session (T := unit) := mkSession
  [event_or (MediaEvent_audio 0 [xaf; x00; x12]); event_or (MediaEvent_video 0 [x17; x00; x00; x00; x00; x01])]
  [event_or (MediaEvent_audio 990 [xaf; x01; x20])]
  (event_or (MediaEvent_video 1000 [x17; x01; x00; x00; x00; x65]))
  [event_or (MediaEvent_audio 1020 [xaf; x01; x21]); event_or (MediaEvent_video 1040 [x27; x01; x00; x00; x00; x41])].
Definition audio_session : Session (T := unit) := mkSession
  [event_or (MediaEvent_audio 0 [xaf; x00; x12])] [] (event_or (MediaEvent_audio 500 [xaf; x01; x22]))
  [event_or (MediaEvent_audio 520 [xaf; x01; x23])].

(** The events of a session, evaluated. *)
Ltac session_events_ok := match goal with
  | |- Forall _ _ => (apply Forall_nil; done) || (apply Forall_cons; split; [split; [done|vm_compute; auto]|session_events_ok])
  | |- NoDup _ => apply (bool_decide_unpack _); by vm_compute
  | |- _ => idtac
  end.

Lemma video_session_ok : session_ok (Io := Empty_set) video_session.
Proof.
  split; session_events_ok. cbn. split; [by split|]. apply Forall_cons. split; [by intros [? _]|by apply Forall_nil].
Qed.

Lemma audio_session_ok : session_ok (Io := Empty_set) audio_session.
Proof.
  split; session_events_ok. done.
Qed.


(** A key frame after the AVC header: the cached header and the frame are written. *)
Lemma flv_projection_exact_witness : exists m : FlvMuxer MemFile,
  projected_bytes (Io := Empty_set) m (s_first video_session) = Ok 42 /\
  position (writer (write_to_muxer (s_first video_session) m).2) = position (writer m) + 42.
Proof.
  set (m := (write_to_muxer (event_or (MediaEvent_video 0 [x17; x00; x00; x00; x00; x01]))
    (FlvMuxer_resume (mkMemFile [] 0) 0 0)).2).
  exists m. assert (projected_bytes (Io := Empty_set) m (s_first video_session) = Ok 42) as E by (by vm_compute).
  split; [exact E|]. pose proof (flv_projection_exact (T := unit) m (s_first video_session)) as [_ H];
    [apply made_write, made_resumed|]. rewrite E in H.
  destruct (write_to_muxer (s_first video_session) m) as [r m'] eqn:Ew.
  assert (r = Ok tt) as -> by (assert (fst (write_to_muxer (s_first video_session) m) = Ok tt) by (by vm_compute); by rewrite Ew in *).
  exact H.
Defined.

(** ** Key frames the hub and the recorder disagree on *)

(** The hub takes frames of type 4 (generated key frames) for key frames, the muxer
    does not: after such a key frame viewers get video and a recording is still empty. *)
Theorem generated_keyframe_not_recorded :
  let header := event_or (MediaEvent_video 0 [x17; x00; x00; x00; x00; x01]) in
  let frame := event_or (MediaEvent_video 0 [x47; x01; x00; x00; x00; x65]) in
  kind frame = VideoKeyframe /\
  let m := (write_events [header; frame; frame] (FlvMuxer_resume (mkMemFile FLV_HEADER 13) 0 0)).2 in
  contents (writer m) = FLV_HEADER /\ waiting_for_video_keyframe m = true.
Proof. by vm_compute. Qed.

(** An enhanced sequence header of this frame type is accepted from the publisher
    and fails the recorder. *)
Theorem generated_header_fails_recorder (m : FlvMuxer MemFile) :
  let header := event_or (MediaEvent_video 0 (xc0 :: lit "hvc1" ++ [x01])) in
  kind header = HevcSequenceHeader /\ write_to_muxer header m = (Err (MalformedPayload Tag_Video), m).
Proof. split; [by vm_compute|]. done. Qed.
