(* ===== verification/Recorder.v ===== *)
(** The recording worker ([oxiroute-rtmp/src/recording_worker.rs]): the headers it
    replays, its segments, their limits and rotation, and the processing of one
    message.  The store of files and the finalizer threads are behind the class
    [RecorderFiles]. *)

From stdpp Require Import base list strings.
From Stdlib Require Import ZArith Lia Strings.Byte.
From S2P Require Import Prelude Bytes Media Flv.

Inductive RecorderFailure : Type :=
  | Rec_Open | Rec_Write | Rec_Finalize | Rec_FileSync | Rec_Publish | Rec_DirectorySync | Rec_Discontinuity
  | Rec_UnsupportedCodec | Rec_ShutdownTimedOut | Rec_WorkerPanicked.

(** Track selection. *)
Record RecorderMediaMask : Type := mkRecorderMediaMask { mask_audio : bool; mask_video : bool; mask_keyframes : bool }.

Definition RecorderMediaMask_accepts (mask : RecorderMediaMask) (k : MediaEventKind) : bool :=
  match k with
  | Metadata => mask_audio mask || mask_video mask
  | AacSequenceHeader | Audio => mask_audio mask
  | AvcSequenceHeader | HevcSequenceHeader | Av1SequenceHeader | VideoKeyframe => mask_video mask
  | VideoInterframe | VideoDisposable => mask_video mask && negb (mask_keyframes mask)
  end.

Definition recording_supported (i : VideoCodecIdentifier) : bool :=
  match i with
  | FlvCodec codec_id => codec_id =? AVC_CODEC_ID
  | FourCc four_cc => beqb four_cc (lit "avc1") || beqb four_cc (lit "hvc1") || beqb four_cc (lit "av01")
  end.

Definition is_video (k : MediaEventKind) : bool :=
  match k with
  | AvcSequenceHeader | HevcSequenceHeader | Av1SequenceHeader | VideoKeyframe | VideoInterframe | VideoDisposable => true
  | Metadata | AacSequenceHeader | Audio => false
  end.

Section Headers.
Context {T : Type}.
Abbreviation Event := (MediaEvent T).

Definition is_unsupported_video_event (event : Event) : bool :=
  is_video (kind event) &&
  match video_codec_identifier event with Some i => negb (recording_supported i) | None => false end.

Definition is_frame_event (event : Event) : bool :=
  match kind event with
  | Audio | VideoKeyframe | VideoInterframe | VideoDisposable => true
  | _ => false
  end.

(** The latest header of each sort, with the order they came in. *)
Record SegmentHeaders : Type := mkSegmentHeaders {
  headers_sequence : Z;
  headers_metadata : option (Z * Event);
  headers_aac : option (Z * Event);
  headers_video : option (Z * Event);
}.
Definition SegmentHeaders_default : SegmentHeaders := mkSegmentHeaders 0 None None None.

(** [None] is the panic on a message that is no header. *)
Definition SegmentHeaders_update (h : SegmentHeaders) (event : Event) : option SegmentHeaders :=
  let sequence := saturating_add u64_max (headers_sequence h) 1 in
  let header := Some (sequence, event) in
  match kind event with
  | Metadata => Some (mkSegmentHeaders sequence header (headers_aac h) (headers_video h))
  | AacSequenceHeader => Some (mkSegmentHeaders sequence (headers_metadata h) header (headers_video h))
  | AvcSequenceHeader | HevcSequenceHeader | Av1SequenceHeader =>
      Some (mkSegmentHeaders sequence (headers_metadata h) (headers_aac h) header)
  | _ => None
  end.

(** The stable sort by sequence. *)
Fixpoint insert_header (x : Z * Event) (l : list (Z * Event)) : list (Z * Event) :=
  match l with
  | [] => [x]
  | y :: l => if y.1 <? x.1 then y :: insert_header x l else x :: y :: l
  end.

Definition SegmentHeaders_ordered (h : SegmentHeaders) : list Event :=
  snd <$> foldr insert_header []
    (option_list (headers_metadata h) ++ option_list (headers_aac h) ++ option_list (headers_video h)).
End Headers.
Arguments SegmentHeaders : clear implicits.

(** ** The files of a recorder *)

(** A file taken up again: its end, the flags and last time of its tail, and the
    time and sequence number in its name. *)
Record RecordingResume (W : Type) : Type := mkRecordingResume {
  resume_file : W;
  resume_flags : Z;
  resume_last_timestamp_ms : Z;
  resume_started_at : Z;
  resume_sequence : Z;
}.
Arguments mkRecordingResume {W}.
Arguments resume_file {W}.
Arguments resume_flags {W}.
Arguments resume_last_timestamp_ms {W}.
Arguments resume_started_at {W}.
Arguments resume_sequence {W}.

Class RecorderFiles (F W : Type) := {
  (** The results of finalizations that have finished. *)
  poll_finalization : M F RecorderFailure unit;
  (** Waits for all finalizations. *)
  await_finalizations : M F RecorderFailure unit;
  (** Room for one more finalization. *)
  reserve_finalization : M F RecorderFailure unit;
  (** The final name, from the sequence number, the start and the last write. *)
  final_name : Z -> option Z -> Z -> M F RecorderFailure bytes;
  (** Hands a closed file over to be published under its name. *)
  submit_finalization : W -> bytes -> M F RecorderFailure unit;
  (** A file to go on with at a time, opened at its end. *)
  resumable_segment : Z -> M F RecorderFailure (option (RecordingResume W));
  (** A fresh file of a sequence number and time. *)
  create_file : Z -> Z -> M F RecorderFailure W;
  (** No discontinuity or cancellation was requested. *)
  still_wanted : M F RecorderFailure unit;
}.

Section Worker.
Context {F W Io T : Type} `{!WriteSeek W Io, !RecorderFiles F W}.
Abbreviation Muxer := (FlvMuxer W).
Abbreviation Event := (MediaEvent T).

(** An error of the muxer as the worker's; a panic ends the worker's thread. *)
Definition muxer_failure (e : FlvMuxerError Io) : RecorderFailure :=
  match e with FlvPanic => Rec_WorkerPanicked | _ => Rec_Write end.

(** ** Segments *)

Record Segment : Type := mkSegment { muxer : Muxer; frame_count : Z }.

Definition on_muxer (c : M Muxer (FlvMuxerError Io) unit) : M Segment RecorderFailure unit := fun s =>
  let '(r, m) := c (muxer s) in (map_err muxer_failure r, mkSegment m (frame_count s)).

Fixpoint replay_headers (headers : list Event) (m : Muxer) : result Muxer RecorderFailure :=
  match headers with
  | [] => Ok m
  | header :: headers =>
      match write_to_muxer header m with
      | (Ok _, m) => replay_headers headers m
      | (Err e, _) => Err (muxer_failure e)
      end
  end.

Definition Segment_open (w : W) (headers : list Event) : result Segment RecorderFailure :=
  match FlvMuxer_new w with
  | (Ok m, _) => let? m := replay_headers headers m in Ok (mkSegment m 0)
  | (Err _, _) => Err Rec_Open
  end.

Definition Segment_resume (w : W) (flags last_timestamp_ms : Z) (headers : list Event) : result Segment RecorderFailure :=
  let? m := replay_headers headers (FlvMuxer_resume w flags last_timestamp_ms) in Ok (mkSegment m 0).

Definition Segment_projected_bytes (s : Segment) (event : Event) : result Z RecorderFailure :=
  map_err muxer_failure (projected_bytes (muxer s) event).

Definition Segment_write (event : Event) : M Segment RecorderFailure unit :=
  let! projected := fun s => (Segment_projected_bytes s event, s) in
  let! _ := on_muxer (write_to_muxer event) in
  mwrite (fun s =>
    if (0 <? projected) && is_frame_event event then mkSegment (muxer s) (saturating_add u64_max (frame_count s) 1) else s).

(** The position after a message, none past the range of positions. *)
Definition projected_end (event : Event) : M Segment RecorderFailure (option Z) := fun s =>
  match stream_position (writer (muxer s)) with
  | (Err _, w) => (Err Rec_Write, mkSegment (set_writer w (muxer s)) (frame_count s))
  | (Ok current, w) =>
      let s := mkSegment (set_writer w (muxer s)) (frame_count s) in
      (let? projected := Segment_projected_bytes s event in Ok (checked_add u64_max current projected), s)
  end.

(** ** The worker *)

Record RecorderLimits : Type := mkRecorderLimits {
  max_frames : option Z;
  max_size : option Z;
  rotation_interval : option Z;
}.

(** Times in milliseconds of the monotonic clock and in seconds of the wall clock. *)
Record WorkerContext : Type := mkWorkerContext {
  files : F;
  next_segment_sequence : Z;
  segment : option Segment;
  segment_started_at : option Z;
  segment_started_at_unix_seconds : option Z;
  latest_event_at : Z;
  last_written_at : Z;
  video_seen : bool;
  segment_headers : SegmentHeaders T;
}.
Abbreviation WM A := (M WorkerContext RecorderFailure A).

Definition WorkerContext_new (fs : F) : WorkerContext :=
  mkWorkerContext fs 0 None None None 0 0 false SegmentHeaders_default.

Definition set_files (fs : F) (c : WorkerContext) : WorkerContext :=
  mkWorkerContext fs (next_segment_sequence c) (segment c) (segment_started_at c) (segment_started_at_unix_seconds c)
    (latest_event_at c) (last_written_at c) (video_seen c) (segment_headers c).
Definition set_segment (s : option Segment) (c : WorkerContext) : WorkerContext :=
  mkWorkerContext (files c) (next_segment_sequence c) s (segment_started_at c) (segment_started_at_unix_seconds c)
    (latest_event_at c) (last_written_at c) (video_seen c) (segment_headers c).
Definition set_started_at (at_ms at_seconds : option Z) (c : WorkerContext) : WorkerContext :=
  mkWorkerContext (files c) (next_segment_sequence c) (segment c) at_ms at_seconds
    (latest_event_at c) (last_written_at c) (video_seen c) (segment_headers c).
Definition set_next_sequence (n : Z) (c : WorkerContext) : WorkerContext :=
  mkWorkerContext (files c) n (segment c) (segment_started_at c) (segment_started_at_unix_seconds c)
    (latest_event_at c) (last_written_at c) (video_seen c) (segment_headers c).
Definition set_latest (t : Z) (c : WorkerContext) : WorkerContext :=
  mkWorkerContext (files c) (next_segment_sequence c) (segment c) (segment_started_at c) (segment_started_at_unix_seconds c)
    t (last_written_at c) (video_seen c) (segment_headers c).
Definition set_last_written (t : Z) (c : WorkerContext) : WorkerContext :=
  mkWorkerContext (files c) (next_segment_sequence c) (segment c) (segment_started_at c) (segment_started_at_unix_seconds c)
    (latest_event_at c) t (video_seen c) (segment_headers c).
Definition set_video (c : WorkerContext) : WorkerContext :=
  mkWorkerContext (files c) (next_segment_sequence c) (segment c) (segment_started_at c) (segment_started_at_unix_seconds c)
    (latest_event_at c) (last_written_at c) true (segment_headers c).
Definition set_headers (h : SegmentHeaders T) (c : WorkerContext) : WorkerContext :=
  mkWorkerContext (files c) (next_segment_sequence c) (segment c) (segment_started_at c) (segment_started_at_unix_seconds c)
    (latest_event_at c) (last_written_at c) (video_seen c) h.

Definition on_files {A} (m : M F RecorderFailure A) : WM A := fun c => let '(r, fs) := m (files c) in (r, set_files fs c).

(** A call on the open segment; there is one wherever the worker makes it. *)
Definition on_segment {A} (m : M Segment RecorderFailure A) : WM A := fun c =>
  match segment c with
  | None => (Err Rec_WorkerPanicked, c)
  | Some s => let '(r, s) := m s in (r, set_segment (Some s) c)
  end.

Definition limit_reached (limits : RecorderLimits) (event : Event) : M Segment RecorderFailure bool :=
  let! frame_limit_reached := mread (fun s =>
    match max_frames limits with Some maximum => (maximum <=? frame_count s) && is_frame_event event | None => false end) in
  let! size_limit_reached :=
    match max_size limits with
    | Some maximum =>
        let! projected := projected_end event in
        mret (match projected with Some position => maximum <? position | None => false end)
    | None => mret false
    end in
  mret (frame_limit_reached || size_limit_reached).

Definition limit_requires_rotation (limits : RecorderLimits) (event : Event) : WM bool :=
  let! reached := on_segment (limit_reached limits event) in
  let! has_media := on_segment (mread (fun s => started (muxer s))) in
  let! seen := mread video_seen in
  mret (reached && has_media && (negb seen || bool_decide (kind event = VideoKeyframe))).

Definition limit_requires_drop (limits : RecorderLimits) (event : Event) : WM bool :=
  let! reached := on_segment (limit_reached limits event) in
  let! has_media := on_segment (mread (fun s => started (muxer s))) in
  let! seen := mread video_seen in
  mret (reached && has_media && seen && negb (bool_decide (kind event = VideoKeyframe))).

Definition should_rotate (limits : RecorderLimits) (c : WorkerContext) (event : Event) (arrived_at : Z) : bool :=
  match rotation_interval limits, segment_started_at c with
  | Some interval, Some started_at =>
      if saturating_sub arrived_at started_at <? interval then false
      else bool_decide (kind event = if video_seen c then VideoKeyframe else Audio)
  | _, _ => false
  end.

(** Closes the open segment, if there is one. *)
Definition prepare_segment_finish : WM (option (W * bytes)) := fun c =>
  match segment c with
  | None => (Ok None, c)
  | Some s =>
      let sequence := saturating_sub (next_segment_sequence c) 1 in
      (let! name := on_files (final_name sequence (segment_started_at_unix_seconds c) (last_written_at c)) in
       let! _ := mwrite (set_segment None) in
       match FlvMuxer_close (muxer s) with
       | Ok w => mret (Some (w, name))
       | Err _ => mfail Rec_Finalize
       end) c
  end.

Definition start_segment_finalization : WM unit :=
  let! _ := on_files poll_finalization in
  let! _ := on_files reserve_finalization in
  let! prepared := prepare_segment_finish in
  match prepared with
  | None => mret tt
  | Some (w, name) => on_files (submit_finalization w name)
  end.

(** The new segment and when it started, by both clocks, and its sequence number. *)
Definition opened_segment (arrived_at arrived_at_unix_seconds : Z) : WM (Segment * Z * Z * Z) :=
  let! headers := mread (fun c => SegmentHeaders_ordered (segment_headers c)) in
  let! next := mread next_segment_sequence in
  let! resume := if next =? 0 then on_files (resumable_segment arrived_at_unix_seconds) else mret None in
  match resume with
  | Some r =>
      let! s := mlift (Segment_resume (resume_file r) (resume_flags r) (resume_last_timestamp_ms r) headers) in
      let elapsed := 1000 * saturating_sub arrived_at_unix_seconds (resume_started_at r) in
      let started_at := if arrived_at <? elapsed then arrived_at else arrived_at - elapsed in
      mret (s, started_at, resume_started_at r, resume_sequence r)
  | None =>
      let! w := on_files (create_file next arrived_at_unix_seconds) in
      let! s := mlift (Segment_open w headers) in
      mret (s, arrived_at, arrived_at_unix_seconds, next)
  end.

Definition open_segment (arrived_at arrived_at_unix_seconds : Z) : WM unit :=
  let! opened := opened_segment arrived_at arrived_at_unix_seconds in
  let '(s, started_at, started_at_unix_seconds, sequence) := opened in
  match checked_add u64_max sequence 1 with
  | None => mfail Rec_Open
  | Some next =>
      let! _ := on_files still_wanted in
      mwrite (fun c =>
        set_next_sequence next (set_started_at (Some started_at) (Some started_at_unix_seconds) (set_segment (Some s) c)))
  end.

Definition rotate_segment (arrived_at arrived_at_unix_seconds : Z) : WM unit :=
  let! _ := start_segment_finalization in
  let! _ := mwrite (set_started_at None None) in
  open_segment arrived_at arrived_at_unix_seconds.

Record QueuedMediaEvent : Type := mkQueuedMediaEvent {
  queued_event : Event;
  arrived_at : Z;
  arrived_at_unix_seconds : Z;
}.

(** The limits of the open segment: whether the message is dropped. *)
Definition apply_limits (limits : RecorderLimits) (queued : QueuedMediaEvent) : WM bool := fun c =>
  match segment c with
  | None => (Ok false, c)
  | Some _ =>
      (let! rotate := limit_requires_rotation limits (queued_event queued) in
       if rotate : bool then
         let! _ := rotate_segment (arrived_at queued) (arrived_at_unix_seconds queued) in mret false
       else limit_requires_drop limits (queued_event queued)) c
  end.

Definition process_header (queued : QueuedMediaEvent) : WM unit := fun c =>
  match SegmentHeaders_update (segment_headers c) (queued_event queued) with
  | None => (Err Rec_WorkerPanicked, c)
  | Some h =>
      let c := set_headers h c in
      match segment c with
      | Some _ => on_segment (Segment_write (queued_event queued)) c
      | None => open_segment (arrived_at queued) (arrived_at_unix_seconds queued) c
      end
  end.

Definition process_media (limits : RecorderLimits) (queued : QueuedMediaEvent) : WM unit :=
  let! _ := fun c =>
    match segment c with
    | None => open_segment (arrived_at queued) (arrived_at_unix_seconds queued) c
    | Some _ =>
        if should_rotate limits c (queued_event queued) (arrived_at queued)
        then rotate_segment (arrived_at queued) (arrived_at_unix_seconds queued) c
        else (Ok tt, c)
    end in
  on_segment (Segment_write (queued_event queued)).

Definition process (limits : RecorderLimits) (queued : QueuedMediaEvent) : WM unit :=
  let event := queued_event queued in
  let! _ := on_files poll_finalization in
  let! _ := mwrite (set_latest (arrived_at_unix_seconds queued)) in
  if is_unsupported_video_event event then mfail Rec_UnsupportedCodec
  else
    let! _ := mwrite (fun c => if is_video (kind event) then set_video c else c) in
    let! dropped := apply_limits limits queued in
    if dropped : bool then mret tt
    else
      let! _ :=
        match kind event with
        | Metadata | AacSequenceHeader | AvcSequenceHeader => process_header queued
        | _ => process_media limits queued
        end in
      mwrite (fun c => set_last_written (latest_event_at c) c).

Definition finish_segment : WM unit :=
  let! _ := on_files await_finalizations in
  let! _ := start_segment_finalization in
  on_files await_finalizations.

(** What the queue gives the worker; nothing more is a queue that was finished. *)
Inductive NextEvent : Type := Next_Event (queued : QueuedMediaEvent) | Next_Discontinuity | Next_Finished.

Fixpoint run_worker (limits : RecorderLimits) (inputs : list NextEvent) : WM unit :=
  match inputs with
  | Next_Event queued :: inputs => let! _ := process limits queued in run_worker limits inputs
  | Next_Discontinuity :: _ => mfail Rec_Discontinuity
  | Next_Finished :: _ | [] => finish_segment
  end.
End Worker.
Arguments Segment : clear implicits.
Arguments WorkerContext : clear implicits.
