(* ===== verification/RecorderFacts.v ===== *)
(** What the recording worker records ([Recorder]): through any rotations, every
    segment is a complete recording, and no frame is lost between segments. *)

From stdpp Require Import base list strings.
From Stdlib Require Import ZArith Lia Strings.Byte.
From S2P Require Import Prelude Bytes Media Flv FlvFacts Recorder.

Section Segments.
Context {W Io T : Type} `{!WriteSeek W Io, !RecordedFile W Io}.
Abbreviation Muxer := (FlvMuxer W).
Abbreviation Event := (MediaEvent T).

Definition is_metadata (e : Event) : bool := bool_decide (kind e = Metadata).
Definition metas (pre : list Event) : list Event := List.filter is_metadata pre.
Definition codecs (pre : list Event) : list Event := List.filter (fun e => negb (is_metadata e)) pre.

(** The tags of a segment that holds some frames of a stream with these headers. *)
Definition segment_tags (pre g : list Event) : list Tag :=
  (event_tag 0 <$> metas pre) ++
  match g with
  | [] => []
  | first :: _ =>
      (event_tag 0 <$> codecs pre) ++ ((fun e => event_tag (frame_time 0 (timestamp_ms first) (timestamp_ms e)) e) <$> g)
  end.

(** The muxer of such a segment. *)
Definition segment_is (pre g : list Event) (m : Muxer) : Prop :=
  at_end (writer m) /\ contents (writer m) = file_header 0 ++ encode_tags (segment_tags pre g) /\
  match g with
  | [] => mux_is 0 None (header_pair <$> codecs pre) (has Tag_Audio pre) (has Tag_Video pre) (has Tag_Video pre) m
  | first :: _ => mux_is 0 (Some (timestamp_ms first)) [] (has Tag_Audio pre) (has Tag_Video pre) false m
  end.

(** A header the worker replays. *)
Definition replayed (e : Event) : Prop :=
  kind e = Metadata /\ len (payload e) <= MAX_FLV_TAG_DATA_SIZE \/
  (kind e = AacSequenceHeader \/ kind e = AvcSequenceHeader) /\ header_event (Io := Io) e.

Definition headers_ok (pre : list Event) : Prop := Forall replayed pre /\ NoDup ((fun e => tag_of (kind e)) <$> pre).

Lemma emits_Ok tags c m P m' : emits (Io := Io) tags c m P -> at_end (writer m) -> c m = (Ok tt, m') ->
  contents (writer m') = contents (writer m) ++ encode_tags tags /\ at_end (writer m') /\ P m'.
Proof. intros H He E. specialize (H He). rewrite E in H. naive_solver. Qed.

Lemma codecs_app pre e : codecs (pre ++ [e]) = codecs pre ++ if is_metadata e then [] else [e].
Proof. unfold codecs. rewrite List.filter_app. cbn. by destruct (is_metadata e). Qed.
Lemma metas_app pre e : metas (pre ++ [e]) = metas pre ++ if is_metadata e then [e] else [].
Proof. unfold metas. rewrite List.filter_app. cbn. by destruct (is_metadata e). Qed.
Lemma has_app t (pre : list Event) e : has t (pre ++ [e]) = has t pre || bool_decide (tag_of (kind e) = t).
Proof. unfold has. rewrite existsb_app. cbn. by rewrite orb_false_r. Qed.

Lemma emits_metadata base first cached aac video waiting (e : Event) m : kind e = Metadata -> len (payload e) <= MAX_FLV_TAG_DATA_SIZE ->
  mux_is base first cached aac video waiting m ->
  emits (Io := Io) [event_tag base e] (write_to_muxer e) m (mux_is base first cached aac video waiting).
Proof.
  intros Hk Hl Hm. pose proof Hm as (_ & Hb & _). unfold write_to_muxer, write_metadata, event_tag, emits, mbind_se, mlift.
  rewrite Hk, validate_size_small by done. cbn [tag_of]. rewrite Hb. eapply emits_weaken;
    [apply emits_tag; unfold MAX_FLV_TAG_DATA_SIZE, u32_max in *; lia|]. intros m' Hs. by eapply same_mux_is.
Qed.

Lemma codecs_tags (pre : list Event) e : NoDup ((fun e => tag_of (kind e)) <$> (pre ++ [e])) -> tag_of (kind e) ∉ (header_pair <$> codecs pre).*1.
Proof.
  intros Hn Hin. rewrite fmap_app in Hn. apply NoDup_app in Hn as (_ & Hd & _).
  apply list_elem_of_fmap in Hin as (p & Hp & Hin). apply list_elem_of_fmap in Hin as (x & -> & Hx).
  unfold codecs in Hx. apply list_elem_of_In, filter_In in Hx as [Hx _]. apply list_elem_of_In in Hx.
  eapply (Hd (tag_of (kind e))); [|by apply list_elem_of_singleton]. rewrite Hp. by apply (list_elem_of_fmap_2 (fun e => tag_of (kind e))).
Qed.

(** A header before the media. *)
Lemma segment_header pre e m m' : headers_ok (pre ++ [e]) -> segment_is pre [] m -> write_to_muxer e m = (Ok tt, m') ->
  segment_is (pre ++ [e]) [] m'.
Proof.
  intros [Hr Hn] (He & Hc & Hm) E. apply Forall_app in Hr as [_ [Hr _]%Forall_cons_1].
  unfold segment_is, segment_tags. rewrite metas_app, codecs_app, !has_app, app_nil_r. unfold segment_tags in Hc. rewrite app_nil_r in Hc.
  destruct Hr as [[Hk Hl]|[Hk Hh]].
  - destruct (emits_Ok _ _ _ _ _ (emits_metadata _ _ _ _ _ _ e m Hk Hl Hm) He E) as (Hc' & He' & Hm').
    unfold is_metadata. rewrite bool_decide_eq_true_2 by done. rewrite Hk. cbn [tag_of].
    rewrite !(bool_decide_eq_false_2 (Tag_Metadata = _)) by done. rewrite app_nil_r, !orb_false_r.
    split_and!; [done| |done]. by rewrite Hc', Hc, fmap_app, encode_tags_app, app_assoc.
  - destruct (emits_Ok _ _ _ _ _ (emits_header 0 _ _ _ e m Hh Hm (codecs_tags _ _ Hn)) He E) as (Hc' & He' & Hm').
    unfold is_metadata. rewrite bool_decide_eq_false_2 by (destruct Hk; congruence). rewrite app_nil_r, fmap_app.
    split_and!; [done| |done]. rewrite Hc', Hc. change (encode_tags []) with (@nil byte). by rewrite app_nil_r.
Qed.

Lemma codecs_sizes pre : headers_ok pre -> Forall (fun h => len h.2 <= MAX_CACHED_CODEC_HEADER_SIZE) (header_pair <$> codecs pre).
Proof.
  intros [Hr _]. apply Forall_fmap, Forall_forall. intros e He. unfold codecs in He.
  apply list_elem_of_In, filter_In in He as [He Hm]. apply list_elem_of_In in He.
  rewrite Forall_forall in Hr. destruct (Hr e He) as [[Hk _]|[_ [Hl _]]]; [|done].
  unfold is_metadata in Hm. by rewrite bool_decide_eq_true_2 in Hm.
Qed.

Definition frame_ok (pre : list Event) (e : Event) : Prop :=
  frame_event (Io := Io) (has Tag_Audio pre) (has Tag_Video pre) e /\ (kind e = VideoKeyframe -> key_event (Io := Io) e).

(** The frame a recording can start with. *)
Definition starting (pre : list Event) (e : Event) : Prop := has Tag_Video pre = true -> kind e = VideoKeyframe.

Lemma segment_frame pre g e m m' : headers_ok pre -> frame_ok pre e -> (g = [] -> starting pre e) ->
  segment_is pre g m -> write_to_muxer e m = (Ok tt, m') -> segment_is pre (g ++ [e]) m'.
Proof.
  intros Hh [Hf Hkey] Hs (He & Hc & Hm) E. destruct g as [|first g].
  - assert (has Tag_Video pre = true -> key_event (Io := Io) e) as Hk by (intros; apply Hkey, Hs; done).
    destruct (emits_Ok _ _ _ _ _ (emits_first 0 _ _ _ e m (codecs_sizes _ Hh) Hf Hk Hm) He E) as (Hc' & He' & Hm').
    split_and!; [done| |done]. rewrite Hc', Hc. cbn [app]. unfold segment_tags. rewrite app_nil_r, <- app_assoc, <- encode_tags_app.
    by rewrite <- list_fmap_compose.
  - destruct (emits_Ok _ _ _ _ _ (emits_frame 0 _ _ _ e m Hf Hm) He E) as (Hc' & He' & Hm').
    split_and!; [done| |done]. rewrite Hc', Hc. cbn [app]. unfold segment_tags.
    rewrite (app_comm_cons g), fmap_app, <- app_assoc, <- encode_tags_app. by rewrite <- !app_assoc.
Qed.

Lemma segment_close pre g m w : segment_is pre g m -> FlvMuxer_close (Io := Io) m = Ok w ->
  exists f, contents w = file_header f ++ encode_tags (segment_tags pre g).
Proof.
  intros (He & Hc & Hm) E. assert (header_start m = 0) as Hs by (destruct g; apply Hm).
  pose proof (close_spec m 0 _ He Hs Hc) as H. rewrite E in H. eexists. apply H.
Qed.

(** Asking for the position changes nothing. *)
Lemma segment_position pre g m p w : segment_is pre g m -> stream_position (Io := Io) (writer m) = (Ok p, w) ->
  segment_is pre g (set_writer w m).
Proof.
  intros (He & Hc & Hm) (_ & P & C)%stream_position_spec. unfold segment_is, at_end in *. cbn [set_writer writer].
  rewrite P, C. split_and!; [done..|]. by destruct g.
Qed.

Lemma segment_replay pre : forall before m m', headers_ok (before ++ pre) -> segment_is before [] m ->
  replay_headers pre m = Ok m' -> segment_is (before ++ pre) [] m'.
Proof.
  induction pre as [|e pre IH]; intros before m m' Hh Hm E; cbn [replay_headers] in E.
  { injection E as <-. by rewrite app_nil_r. }
  destruct (write_to_muxer e m) as [[[]|x] m1] eqn:E1; [|done]. rewrite cons_middle, app_assoc in Hh |- *.
  apply (IH _ m1); [done| |done]. apply (segment_header _ _ m); [|done|done].
  destruct Hh as [H1 H2]. apply Forall_app in H1 as [H1 _]. rewrite fmap_app in H2.
  by apply NoDup_app in H2 as [H2 _].
Qed.

Lemma segment_opened pre w s : headers_ok pre -> contents w = [] -> position w = 0 -> Segment_open w pre = Ok s ->
  segment_is pre [] (muxer s).
Proof.
  intros Hh Hw Hp E. unfold Segment_open, FlvMuxer_new in E.
  destruct (stream_position w) as [[p|e] w1] eqn:E1; [|done]. apply stream_position_spec in E1 as (-> & P1 & C1).
  destruct (write_all FLV_HEADER w1) as [[[]|e] w2] eqn:E2; [|done].
  pose proof (write_all_position _ _ _ E2) as P2. apply write_all_contents in E2; [|rewrite C1, P1, Hw, Hp; done].
  rewrite P1, C1, Hw, Hp in *. apply result_bind_Ok in E as (m & E & [= <-]). cbn [muxer].
  apply (segment_replay pre [] _ _ Hh) in E; [done|]. unfold segment_is, at_end. cbn [writer]. rewrite P2, E2. by split_and!.
Qed.
End Segments.

(** ** The files a worker hands over *)

Class RecorderFilesLaws (F W Io : Type) `{!WriteSeek W Io, !RecordedFile W Io, !RecorderFiles F W} := {
  published : F -> list W;
  poll_keeps : forall fs fs', poll_finalization fs = (Ok tt, fs') -> published fs' = published fs;
  await_keeps : forall fs fs', await_finalizations fs = (Ok tt, fs') -> published fs' = published fs;
  reserve_keeps : forall fs fs', reserve_finalization fs = (Ok tt, fs') -> published fs' = published fs;
  name_keeps : forall n start last fs name fs', final_name n start last fs = (Ok name, fs') -> published fs' = published fs;
  submit_adds : forall w name fs fs', submit_finalization w name fs = (Ok tt, fs') -> published fs' = published fs ++ [w];
  resumable_keeps : forall t fs r fs', resumable_segment t fs = (Ok r, fs') -> published fs' = published fs;
  create_fresh : forall n t fs w fs', create_file n t fs = (Ok w, fs') ->
    contents w = [] /\ position w = 0 /\ published fs' = published fs;
  wanted_keeps : forall fs fs', still_wanted fs = (Ok tt, fs') -> published fs' = published fs;
}.

Section Rotation.
Context {F W Io T : Type} `{!WriteSeek W Io, !RecordedFile W Io, !RecorderFiles F W, !RecorderFilesLaws F W Io}.
Abbreviation Event := (MediaEvent T).
Abbreviation Context' := (WorkerContext F W T).
Context (pre : list Event) (Hpre : headers_ok (Io := Io) pre).

(** A closed file of a group of frames. *)
Definition segment_file (w : W) (g : list Event) : Prop :=
  exists f, contents w = file_header f ++ encode_tags (segment_tags pre g).

(** The worker has handed over the groups [done] and records the group [g]. *)
Definition records (done : list (list Event)) (g : list Event) (c : Context') : Prop :=
  (exists s, segment c = Some s /\ segment_is pre g (muxer s)) /\ SegmentHeaders_ordered (segment_headers c) = pre /\
  video_seen c = has Tag_Video pre /\ 0 < next_segment_sequence c /\ Forall2 segment_file (published (files c)) done.

Lemma on_files_Ok {A} (m : M F RecorderFailure A) (c c' : Context') a : on_files m c = (Ok a, c') ->
  exists fs, m (files c) = (Ok a, fs) /\ c' = set_files fs c.
Proof. unfold on_files. destruct (m (files c)) as [r fs]. intros [= -> <-]. by eexists. Qed.

Lemma records_files done g c fs : records done g c -> published fs = published (files c) -> records done g (set_files fs c).
Proof. unfold records. intros H E. cbn [set_files files]. by rewrite E. Qed.

Lemma finalization_ok done g c c' : records done g c -> start_segment_finalization (Io := Io) c = (Ok tt, c') ->
  segment c' = None /\ segment_headers c' = segment_headers c /\ video_seen c' = video_seen c /\
  next_segment_sequence c' = next_segment_sequence c /\ Forall2 segment_file (published (files c')) (done ++ [g]).
Proof.
  intros ((s & Hs & Hm) & Ho & Hv & Hn & Hp) E. unfold start_segment_finalization in E.
  apply mbind_se_Ok in E as ([] & c1 & E1 & E). apply on_files_Ok in E1 as (f1 & E1 & ->).
  apply mbind_se_Ok in E as ([] & c2 & E2 & E). apply on_files_Ok in E2 as (f2 & E2 & ->).
  apply mbind_se_Ok in E as (prepared & c3 & E3 & E). unfold prepare_segment_finish in E3. cbn [set_files segment] in E3.
  rewrite Hs in E3. apply mbind_se_Ok in E3 as (name & c4 & E4 & E3). apply on_files_Ok in E4 as (f4 & E4 & ->).
  apply mbind_se_Ok in E3 as ([] & c5 & [= <-] & E3).
  destruct (FlvMuxer_close (Io := Io) (muxer s)) as [w|] eqn:Ec; [|done]. injection E3 as <- <-.
  apply on_files_Ok in E as (f6 & E6 & ->). cbn [set_segment set_files files segment] in *.
  apply poll_keeps in E1. apply reserve_keeps in E2. apply name_keeps in E4. apply submit_adds in E6.
  split_and!; [done..|]. rewrite E6, E4, E2, E1. apply Forall2_app; [done|]. constructor; [|constructor].
  by eapply segment_close.
Qed.

Lemma open_ok done (c c' : Context') t u : SegmentHeaders_ordered (segment_headers c) = pre -> video_seen c = has Tag_Video pre ->
  0 <= next_segment_sequence c ->
  (next_segment_sequence c = 0 -> forall r fs, resumable_segment u (files c) = (Ok r, fs) -> r = None) ->
  Forall2 segment_file (published (files c)) done ->
  open_segment (Io := Io) t u c = (Ok tt, c') -> records done [] c' /\ segment_headers c' = segment_headers c.
Proof.
  intros Ho Hv Hn Hnew Hp E. unfold open_segment, opened_segment in E.
  apply mbind_se_Ok in E as ([[[s t1] u1] n1] & c1 & E1 & E). apply mbind_se_Ok in E1 as (hs & c2 & [= <- <-] & E1).
  apply mbind_se_Ok in E1 as (n & c2 & [= <- <-] & E1). apply mbind_se_Ok in E1 as (r & c2 & E2 & E1).
  assert (r = None /\ exists fs, c2 = set_files fs c /\ published fs = published (files c)) as (-> & f0 & -> & E0).
  { destruct (next_segment_sequence c =? 0) eqn:Ez.
    - apply on_files_Ok in E2 as (fs & E2 & ->). apply Z.eqb_eq in Ez. split; [by eapply Hnew|]. eexists. split; [done|].
      by eapply resumable_keeps.
    - injection E2 as <- <-. split; [done|]. exists (files c). by destruct c. }
  clear E2. apply mbind_se_Ok in E1 as (w & c2 & E2 & E1). apply on_files_Ok in E2 as (f2 & E2 & ->).
  apply mbind_se_Ok in E1 as (s' & c3 & E3 & E1). apply mlift_Ok in E3 as [E3 ->]. injection E1 as <- <- <- <- <-.
  destruct (checked_add u64_max (next_segment_sequence c) 1) as [z|] eqn:Ez; [|done]. unfold checked_add in Ez.
  case_match; simplify_eq.
  apply mbind_se_Ok in E as ([] & c4 & E4 & [= <-]). apply on_files_Ok in E4 as (f4 & E4 & ->).
  apply create_fresh in E2 as (Hw & Hpos & E2). apply wanted_keeps in E4. rewrite Ho in E3.
  split; [|done]. unfold records. cbn [set_next_sequence set_started_at set_segment set_files segment segment_headers video_seen next_segment_sequence files] in *.
  split_and!; [|done|done|lia|by rewrite E4, E2, E0]. eexists. split; [done|]. by eapply segment_opened.
Qed.

Lemma rotate_ok done g c c' t u : records done g c -> rotate_segment (Io := Io) t u c = (Ok tt, c') ->
  records (done ++ [g]) [] c'.
Proof.
  intros Hr E. unfold rotate_segment in E. apply mbind_se_Ok in E as ([] & c1 & E1 & E).
  apply mbind_se_Ok in E as ([] & c2 & [= <-] & E). pose proof Hr as (_ & Ho & Hv & Hn & _).
  apply (finalization_ok _ _ _ _ Hr) in E1 as (_ & H1 & H2 & H3 & H4).
  eapply open_ok in E as [E _]; [exact E|..]; cbn [set_started_at segment_headers video_seen next_segment_sequence files]; lia || congruence || done.
Qed.

(** ** Limits *)

Definition limited (limits : RecorderLimits) : Prop := max_frames limits <> None \/ max_size limits <> None.

(** Only frames between the key frames of a stream with video are ever dropped, to
    keep a limit. *)
Definition droppable (limits : RecorderLimits) (e : Event) : Prop :=
  limited limits /\ has Tag_Video pre = true /\ kind e <> VideoKeyframe.

Lemma position_ok g (e : Event) (s s' : Segment W) r : segment_is pre g (muxer s) -> projected_end (Io := Io) e s = (Ok r, s') ->
  segment_is pre g (muxer s').
Proof.
  unfold projected_end. intros Hs. destruct (stream_position (writer (muxer s))) as [[p|x] w] eqn:E; [|done].
  intros [= _ <-]. by eapply segment_position.
Qed.

Lemma limit_reached_ok limits g (e : Event) (s s' : Segment W) b : segment_is pre g (muxer s) ->
  limit_reached (Io := Io) limits e s = (Ok b, s') -> segment_is pre g (muxer s') /\ (b = true -> limited limits).
Proof.
  unfold limit_reached, limited. intros Hs E. apply mbind_se_Ok in E as (b1 & s1 & [= <- <-] & E).
  apply mbind_se_Ok in E as (b2 & s2 & E2 & [= <- <-]). destruct (max_size limits) as [maximum|].
  - apply mbind_se_Ok in E2 as (p & s3 & E3 & [= <- <-]). split; [by eapply position_ok|]. intros _. by right.
  - injection E2 as <- <-. split; [done|]. destruct (max_frames limits); [|done]. intros _. by left.
Qed.

Lemma on_segment_Ok {A} (m : M (Segment W) RecorderFailure A) (c c' : Context') a : on_segment m c = (Ok a, c') ->
  exists s s', segment c = Some s /\ m s = (Ok a, s') /\ c' = set_segment (Some s') c.
Proof. unfold on_segment. destruct (segment c) as [s|]; [|done]. destruct (m s) as [r s'] eqn:E. intros [= -> <-]. by eexists _, _. Qed.

Lemma records_segment done g g' c s : records done g c -> segment_is pre g' (muxer s) -> records done g' (set_segment (Some s) c).
Proof. intros (_ & H). by split; [eexists|]. Qed.

(** The tests of the limits: what they keep and when they hold. *)
Lemma limits_test done g limits (e : Event) c b c' : records done g c ->
  (let! reached := on_segment (limit_reached (Io := Io) limits e) in
   let! media := on_segment (mread (fun s => started (muxer s))) in mret (reached && media)) c = (Ok b, c') ->
  records done g c' /\ video_seen c' = has Tag_Video pre /\ (b = true -> limited limits /\ g <> []).
Proof.
  intros Hr E. apply mbind_se_Ok in E as (b1 & c1 & E1 & E). apply on_segment_Ok in E1 as (s & s1 & Hs & E1 & ->).
  pose proof Hr as ((s0 & Hs0 & Hm) & _). assert (s0 = s) as -> by congruence.
  apply (limit_reached_ok _ _ _ _ _ _ Hm) in E1 as [Hm1 Hl].
  apply mbind_se_Ok in E as (b2 & c2 & E2 & [= <- <-]). apply on_segment_Ok in E2 as (s2 & s3 & [= <-] & [= <- <-] & ->).
  split_and!; [by eapply records_segment; [eapply records_segment|]|apply Hr|]. intros [Hb Hst]%andb_true_iff. split; [by apply Hl|].
  intros ->. destruct Hm1 as (_ & _ & _ & _ & Hf & _). unfold started in Hst. rewrite Hf in Hst. done.
Qed.

Lemma rotation_test done g limits (e : Event) c b c' : records done g c -> limit_requires_rotation (Io := Io) limits e c = (Ok b, c') ->
  records done g c' /\ (b = true -> starting pre e).
Proof.
  intros Hr E. unfold limit_requires_rotation in E. apply mbind_se_Ok in E as (b1 & c1 & E1 & E).
  apply mbind_se_Ok in E as (b2 & c2 & E2 & E). apply mbind_se_Ok in E as (seen & c3 & [= <- <-] & [= <- <-]).
  destruct (limits_test done g limits e c (b1 && b2) c2 Hr) as (Hr' & Hv & _).
  { apply mbind_se_Ok. eexists _, _. split; [exact E1|]. apply mbind_se_Ok. eexists _, _. split; [exact E2|done]. }
  split; [done|]. intros [_ H]%andb_true_iff Hvideo. rewrite Hv, Hvideo in H. by apply bool_decide_eq_true in H.
Qed.

Lemma drop_test done g limits (e : Event) c b c' : records done g c -> limit_requires_drop (Io := Io) limits e c = (Ok b, c') ->
  records done g c' /\ (b = true -> droppable limits e /\ g <> []).
Proof.
  intros Hr E. unfold limit_requires_drop in E. apply mbind_se_Ok in E as (b1 & c1 & E1 & E).
  apply mbind_se_Ok in E as (b2 & c2 & E2 & E). apply mbind_se_Ok in E as (seen & c3 & [= <- <-] & [= <- <-]).
  destruct (limits_test done g limits e c (b1 && b2) c2 Hr) as (Hr' & Hv & Hb).
  { apply mbind_se_Ok. eexists _, _. split; [exact E1|]. apply mbind_se_Ok. eexists _, _. split; [exact E2|done]. }
  split; [done|]. intros [[Hb' Hseen]%andb_true_iff Hk]%andb_true_iff. destruct (Hb Hb') as [Hl Hg]. split; [|done].
  split_and!; [done|congruence|]. apply negb_true_iff, bool_decide_eq_false in Hk. done.
Qed.

Lemma apply_limits_ok done g limits q c b c' : records done g c -> apply_limits (Io := Io) limits q c = (Ok b, c') ->
  if b : bool then records done g c' /\ droppable limits (queued_event q) /\ g <> []
  else records done g c' \/ records (done ++ [g]) [] c' /\ starting pre (queued_event q).
Proof.
  intros Hr E. unfold apply_limits in E. pose proof Hr as ((s & Hs & _) & _). rewrite Hs in E.
  apply mbind_se_Ok in E as (rotate & c1 & E1 & E). apply (rotation_test _ _ _ _ _ _ _ Hr) in E1 as [Hr1 Hk].
  destruct rotate.
  - apply mbind_se_Ok in E as ([] & c2 & E2 & [= <- <-]). right. split; [by eapply rotate_ok|by apply Hk].
  - apply (drop_test _ _ _ _ _ _ _ Hr1) in E as [Hr2 Hd]. destruct b; [split; [done|by apply Hd]|by left].
Qed.

(** ** Frames *)

Lemma Segment_write_Ok (e : Event) (s s' : Segment W) : Segment_write (Io := Io) e s = (Ok tt, s') ->
  write_to_muxer (Io := Io) e (muxer s) = (Ok tt, muxer s').
Proof.
  unfold Segment_write. intros E. apply mbind_se_Ok in E as (n & s1 & [= _ <-] & E).
  apply mbind_se_Ok in E as ([] & s2 & E2 & [= <-]). unfold on_muxer in E2.
  destruct (write_to_muxer e (muxer s)) as [[[]|x] m]; [|done]. injection E2 as <-. cbn. by destruct (_ && _).
Qed.

Lemma write_frame_ok done g e c c' : frame_ok (Io := Io) pre e -> (g = [] -> starting pre e) -> records done g c ->
  on_segment (Segment_write (Io := Io) e) c = (Ok tt, c') -> records done (g ++ [e]) c'.
Proof.
  intros Hf Hs Hr E. apply on_segment_Ok in E as (s & s' & Hseg & E & ->). apply Segment_write_Ok in E.
  pose proof Hr as ((s0 & Hs0 & Hm) & _). assert (s0 = s) as -> by congruence.
  eapply records_segment; [done|]. by eapply segment_frame.
Qed.

Lemma media_frame_ok done g limits q c c' : frame_ok (Io := Io) pre (queued_event q) ->
  (g = [] -> starting pre (queued_event q)) -> records done g c -> process_media (Io := Io) limits q c = (Ok tt, c') ->
  records done (g ++ [queued_event q]) c' \/
  records (done ++ [g]) [queued_event q] c' /\ starting pre (queued_event q).
Proof.
  intros Hf Hs Hr E. unfold process_media in E. apply mbind_se_Ok in E as ([] & c1 & E1 & E).
  pose proof Hr as ((s & Hseg & _) & _ & Hv & _). rewrite Hseg in E1.
  destruct (should_rotate limits c (queued_event q) (arrived_at q)) eqn:Er.
  - assert (starting pre (queued_event q)) as Hst.
    { intros Hvideo. unfold should_rotate in Er. rewrite Hv, Hvideo in Er. repeat (case_match; try done). by apply bool_decide_eq_true in Er. }
    right. split; [|done]. apply (write_frame_ok _ [] _ c1 c' Hf); [done| |done]. by eapply rotate_ok.
  - injection E1 as <-. left. by eapply write_frame_ok.
Qed.

Definition opens (g : list Event) : Prop := match g with [] => True | first :: _ => starting pre first end.

(** What is recorded, in groups: all that came, but for what was dropped. *)
Record recorded_as (done : list (list Event)) (g kept : list Event) (c : Context') : Prop := {
  as_records : records done g c;
  as_kept : concat (done ++ [g]) = kept;
  as_opens : Forall opens (done ++ [g]);
}.

Lemma as_append done g kept c c' e : recorded_as done g kept c -> (g = [] -> starting pre e) -> records done (g ++ [e]) c' ->
  recorded_as done (g ++ [e]) (kept ++ [e]) c'.
Proof.
  intros [_ Hk Ho] Hs Hr. split; [done| |].
  - rewrite <- Hk, !concat_app. cbn. by rewrite !app_nil_r, app_assoc.
  - apply Forall_app in Ho as [Ho [Hg _]%Forall_cons_1]. apply Forall_app. split; [done|]. apply Forall_singleton.
    destruct g; [by apply Hs|done].
Qed.

Lemma as_rotated done g kept c c' : recorded_as done g kept c -> records (done ++ [g]) [] c' -> recorded_as (done ++ [g]) [] kept c'.
Proof.
  intros [_ Hk Ho] Hr. split; [done|rewrite concat_app, Hk; by rewrite app_nil_r|]. apply Forall_app. by split; [|apply Forall_singleton].
Qed.

Lemma frame_ok_kind e : frame_ok (Io := Io) pre e ->
  kind e = Audio \/ kind e = VideoKeyframe \/ kind e = VideoInterframe \/ kind e = VideoDisposable.
Proof. intros [[_ H] _]. destruct (kind e); auto; done. Qed.

Lemma records_same done g (c c' : Context') : records done g c -> segment c' = segment c -> files c' = files c ->
  segment_headers c' = segment_headers c -> video_seen c' = video_seen c ->
  next_segment_sequence c' = next_segment_sequence c -> records done g c'.
Proof. unfold records. by intros H -> -> -> -> ->. Qed.

(** Before its limits are considered a frame changes nothing that matters here. *)
Lemma process_frame limits q c c' done g : frame_ok (Io := Io) pre (queued_event q) -> records done g c ->
  process (Io := Io) limits q c = (Ok tt, c') ->
  exists c1 b c2, records done g c1 /\ apply_limits (Io := Io) limits q c1 = (Ok b, c2) /\
    if b : bool then c' = c2
    else exists c3, process_media (Io := Io) limits q c2 = (Ok tt, c3) /\ c' = set_last_written (latest_event_at c3) c3.
Proof.
  intros Hf Hr E. unfold process in E. apply mbind_se_Ok in E as ([] & c1 & E1 & E). apply on_files_Ok in E1 as (fs & E1 & ->).
  apply mbind_se_Ok in E as ([] & c2 & [= <-] & E). destruct (is_unsupported_video_event (queued_event q)); [done|].
  apply mbind_se_Ok in E as ([] & c3 & [= <-] & E). apply mbind_se_Ok in E as (b & c4 & E4 & E).
  eexists _, b, c4. split; [|split; [exact E4|]].
  - apply poll_keeps in E1. eapply records_files in Hr; [|exact E1]. pose proof Hr as (_ & _ & Hv & _).
    destruct (is_video (kind (queued_event q))) eqn:Ev; [|by eapply records_same].
    eapply records_same; [done..| |done]. cbn [set_video video_seen]. rewrite Hv. destruct Hf as [[_ Hf] _].
    unfold is_video in Ev. destruct (kind (queued_event q)); try done; naive_solver.
  - destruct b; [by injection E as <-|]. apply mbind_se_Ok in E as ([] & c5 & E5 & [= <-]). exists c5. split; [|done].
    destruct (frame_ok_kind _ Hf) as [Hk|[Hk|[Hk|Hk]]]; by rewrite Hk in E5.
Qed.

Lemma frame_step limits q c c' done g kept : frame_ok (Io := Io) pre (queued_event q) ->
  (g = [] -> starting pre (queued_event q)) -> recorded_as done g kept c -> process (Io := Io) limits q c = (Ok tt, c') ->
  exists done' g' kept', recorded_as done' g' kept' c' /\ g' <> [] /\
    (kept' = kept ++ [queued_event q] \/ kept' = kept /\ droppable limits (queued_event q)).
Proof.
  intros Hf Hs Has E. pose proof (as_records _ _ _ _ Has) as Hr.
  destruct (process_frame _ _ _ _ _ _ Hf Hr E) as (c1 & b & c2 & H1 & E2 & E3).
  pose proof (apply_limits_ok _ _ _ _ _ _ _ H1 E2) as H2.
  assert (Hmedia : forall done g, recorded_as done g kept c2 -> (g = [] -> starting pre (queued_event q)) -> b = false ->
    exists done' g' kept', recorded_as done' g' kept' c' /\ g' <> [] /\
      (kept' = kept ++ [queued_event q] \/ kept' = kept /\ droppable limits (queued_event q))).
  { intros done0 g0 Has0 Hs0 ->. destruct E3 as (c3 & E3 & ->).
    destruct (media_frame_ok _ _ _ _ _ _ Hf Hs0 (as_records _ _ _ _ Has0) E3) as [H3|[H3 Hst]].
    - exists done0, (g0 ++ [queued_event q]), (kept ++ [queued_event q]). split; [|split; [by destruct g0|by left]].
      eapply as_append; [exact Has0|done|]. by eapply records_same.
    - exists (done0 ++ [g0]), [queued_event q], (kept ++ [queued_event q]). split; [|split; [done|by left]].
      destruct Has0 as [_ Hk0 Ho0]. split; [by eapply records_same|by rewrite concat_app, Hk0|].
      apply Forall_app. by split; [|apply Forall_singleton]. }
  destruct b.
  - subst c'. destruct H2 as (H2 & Hd & Hg). exists done, g, kept. split; [|split; [done|by right]].
    destruct Has as [_ Hk Ho]. by split.
  - destruct H2 as [H2|[H2 Hst]].
    + apply (Hmedia done g); [|done|done]. destruct Has as [_ Hk Ho]. by split.
    + apply (Hmedia (done ++ [g]) []); [|done|done]. by eapply as_rotated.
Qed.

(** What is kept of the frames. *)
Inductive keeps (limits : RecorderLimits) : list Event -> list Event -> Prop :=
  | keeps_none : keeps limits [] []
  | keeps_one frames kept e : keeps limits frames kept -> keeps limits (frames ++ [e]) (kept ++ [e])
  | keeps_drop frames kept e : keeps limits frames kept -> droppable limits e -> keeps limits (frames ++ [e]) kept.

Fixpoint process_all (limits : RecorderLimits) (qs : list (QueuedMediaEvent (T := T))) : M Context' RecorderFailure unit :=
  match qs with
  | [] => mret tt
  | q :: qs => let! _ := process (Io := Io) limits q in process_all limits qs
  end.

Lemma frames_ok limits qs : forall done g kept frames c c', Forall (frame_ok (Io := Io) pre) (queued_event <$> qs) ->
  (g = [] -> forall q, head qs = Some q -> starting pre (queued_event q)) -> recorded_as done g kept c -> keeps limits frames kept ->
  process_all limits qs c = (Ok tt, c') ->
  exists done' g' kept', recorded_as done' g' kept' c' /\ keeps limits (frames ++ (queued_event <$> qs)) kept'.
Proof.
  induction qs as [|q qs IH]; intros done g kept frames c c' Hf Hs Has Hk E; cbn [process_all] in E.
  { injection E as <-. exists done, g, kept. by rewrite app_nil_r. }
  rewrite fmap_cons in Hf |- *. apply Forall_cons_1 in Hf as [Hq Hf]. apply mbind_se_Ok in E as ([] & c1 & E1 & E).
  destruct (frame_step _ _ _ _ _ _ _ Hq (fun Hg => Hs Hg q eq_refl) Has E1) as (done1 & g1 & kept1 & Has1 & Hg1 & Hk1).
  destruct (IH done1 g1 kept1 (frames ++ [queued_event q]) c1 c' Hf) as (done2 & g2 & kept2 & Has2 & Hk2); [done|done| |done|].
  - destruct Hk1 as [-> |[-> Hd]]; by constructor.
  - exists done2, g2, kept2. split; [done|]. by rewrite <- app_assoc in Hk2.
Qed.
End Rotation.

(** ** Headers *)

Section Prelude.
Context {F W Io T : Type} `{!WriteSeek W Io, !RecordedFile W Io, !RecorderFiles F W, !RecorderFilesLaws F W Io}.
Abbreviation Event := (MediaEvent T).
Abbreviation Context' := (WorkerContext F W T).

Definition headers_of (l : list Event) : SegmentHeaders T :=
  foldl (fun h e => default h (SegmentHeaders_update h e)) SegmentHeaders_default l.

Lemma replayed_kind (e : Event) : replayed (Io := Io) e ->
  kind e = Metadata \/ kind e = AacSequenceHeader \/ kind e = AvcSequenceHeader.
Proof. intros [[-> _]|[[-> | ->] _]]; auto. Qed.

(** The headers are replayed in the order they came in. *)
Lemma headers_ordered (l : list Event) : headers_ok (Io := Io) l -> SegmentHeaders_ordered (headers_of l) = l.
Proof.
  intros [Hr Hn].
  assert (bool_decide (NoDup ((fun e => tag_of (kind e)) <$> l)) = true) as Hd by (by apply bool_decide_eq_true_2).
  clear Hn. revert Hd. unfold headers_of.
  destruct l as [|a l]; [done|]. apply Forall_cons_1 in Hr as [Ha Hr]. cbn [foldl fmap list_fmap]. unfold SegmentHeaders_update at 2.
  destruct l as [|b l]; [destruct (replayed_kind _ Ha) as [-> |[-> | ->]]; done|]. apply Forall_cons_1 in Hr as [Hb Hr].
  destruct l as [|c l].
  - cbn [foldl fmap list_fmap]. unfold SegmentHeaders_update at 1.
    destruct (replayed_kind _ Ha) as [-> |[-> | ->]], (replayed_kind _ Hb) as [-> |[-> | ->]]; done.
  - apply Forall_cons_1 in Hr as [Hc Hr]. destruct l as [|d l].
    + cbn [foldl fmap list_fmap]. unfold SegmentHeaders_update.
      destruct (replayed_kind _ Ha) as [-> |[-> | ->]], (replayed_kind _ Hb) as [-> |[-> | ->]],
        (replayed_kind _ Hc) as [-> |[-> | ->]]; done.
    + intros Hn%bool_decide_eq_true_1. exfalso. apply Forall_cons_1 in Hr as [Hd _]. cbn [fmap list_fmap] in Hn.
      rewrite !NoDup_cons, !not_elem_of_cons in Hn. destruct Hn as ((? & ? & ? & _) & (? & ? & _) & (? & _) & _).
      destruct (replayed_kind _ Ha) as [E1|[E1|E1]], (replayed_kind _ Hb) as [E2|[E2|E2]],
        (replayed_kind _ Hc) as [E3|[E3|E3]], (replayed_kind _ Hd) as [E4|[E4|E4]]; rewrite E1, E2, E3, E4 in *; done.
Qed.

(** Before the media no limit does anything. *)
Lemma limits_idle (l : list Event) limits (e : Event) s (c c' : Context') b : segment c = Some s -> segment_is l [] (muxer s) ->
  (let! reached := on_segment (limit_reached (Io := Io) limits e) in
   let! media := on_segment (mread (fun s => started (muxer s))) in mret (reached && media)) c = (Ok b, c') ->
  b = false /\ exists s', c' = set_segment (Some s') c /\ segment_is l [] (muxer s').
Proof.
  intros Hs Hm E. apply mbind_se_Ok in E as (b1 & c1 & E1 & E). apply on_segment_Ok in E1 as (s0 & s1 & Hs0 & E1 & ->).
  assert (s0 = s) as -> by congruence. apply (limit_reached_ok _ _ _ _ _ _ _ Hm) in E1 as [Hm1 _].
  apply mbind_se_Ok in E as (b2 & c2 & E2 & [= <- <-]). apply on_segment_Ok in E2 as (s2 & s3 & [= <-] & [= <- <-] & ->).
  split; [|by exists s1]. destruct Hm1 as (_ & _ & _ & _ & Hf & _). unfold started. rewrite Hf. apply andb_false_r.
Qed.

Lemma apply_limits_idle (l : list Event) limits q s (c c' : Context') b : segment c = Some s -> segment_is l [] (muxer s) ->
  apply_limits (Io := Io) limits q c = (Ok b, c') ->
  b = false /\ exists s', c' = set_segment (Some s') c /\ segment_is l [] (muxer s').
Proof.
  intros Hs Hm E. unfold apply_limits in E. rewrite Hs in E. apply mbind_se_Ok in E as (rotate & c1 & E1 & E).
  unfold limit_requires_rotation in E1. apply mbind_se_Ok in E1 as (b1 & c2 & E1 & E2).
  apply mbind_se_Ok in E2 as (b2 & c3 & E2 & E3). apply mbind_se_Ok in E3 as (seen & c4 & [= <- <-] & [= <- <-]).
  destruct (limits_idle l limits (queued_event q) s c c3 (b1 && b2) Hs Hm) as [Hb (s1 & -> & Hm1)].
  { apply mbind_se_Ok. eexists _, _. split; [exact E1|]. apply mbind_se_Ok. eexists _, _. split; [exact E2|done]. }
  rewrite Hb in E. cbn [andb] in E. clear E1 E2 Hb. unfold limit_requires_drop in E.
  apply mbind_se_Ok in E as (b3 & c5 & E1 & E). apply mbind_se_Ok in E as (b4 & c6 & E2 & E).
  apply mbind_se_Ok in E as (seen' & c7 & [= <- <-] & [= <- <-]).
  destruct (limits_idle l limits (queued_event q) s1 (set_segment (Some s1) c) c6 (b3 && b4) eq_refl Hm1) as [Hb (s2 & -> & Hm2)].
  { apply mbind_se_Ok. eexists _, _. split; [exact E1|]. apply mbind_se_Ok. eexists _, _. split; [exact E2|done]. }
  rewrite Hb. split; [done|]. by exists s2.
Qed.

(** The worker after the headers [l]. *)
Definition prelude_state (l : list Event) (c : Context') : Prop :=
  segment_headers c = headers_of l /\ video_seen c = has Tag_Video l /\ published (files c) = [] /\
  match l with
  | [] => segment c = None /\ next_segment_sequence c = 0
  | _ => 0 < next_segment_sequence c /\ exists s, segment c = Some s /\ segment_is l [] (muxer s)
  end.

Lemma prelude_records l c : headers_ok (Io := Io) l -> l <> [] -> prelude_state l c -> recorded_as (Io := Io) l [] [] [] c.
Proof.
  intros Hl Hn (Hh & Hv & Hp & H). destruct l as [|e l]; [done|]. destruct H as [Hs H]. split; [|done|by apply Forall_singleton].
  split_and!; [done|by rewrite Hh, headers_ordered|done|done|by rewrite Hp].
Qed.
Context (nothing_to_resume : forall u fs r fs', resumable_segment (F := F) (W := W) u fs = (Ok r, fs') -> r = None).

(** The headers the worker keeps when one more comes. *)
Lemma headers_of_app l (e : Event) : replayed (Io := Io) e ->
  SegmentHeaders_update (headers_of l) e = Some (headers_of (l ++ [e])).
Proof.
  intros He. unfold headers_of. rewrite foldl_app. cbn [foldl]. set (h := foldl _ _ l). clearbody h. unfold SegmentHeaders_update.
  by destruct (replayed_kind _ He) as [-> |[-> | ->]].
Qed.

Lemma process_header_ok l q (c c' : Context') : headers_ok (Io := Io) (l ++ [queued_event q]) ->
  segment_headers c = headers_of l -> video_seen c = has Tag_Video (l ++ [queued_event q]) -> published (files c) = [] ->
  match l with
  | [] => segment c = None /\ next_segment_sequence c = 0
  | _ => 0 < next_segment_sequence c /\ exists s, segment c = Some s /\ segment_is l [] (muxer s)
  end ->
  process_header (Io := Io) q c = (Ok tt, c') -> prelude_state (l ++ [queued_event q]) c'.
Proof.
  intros Hl Hh Hv Hp H E. assert (replayed (Io := Io) (queued_event q)) as He
    by (destruct Hl as [Hl _]; apply Forall_app in Hl as [_ [? _]%Forall_cons_1]; done).
  unfold process_header in E. rewrite Hh, headers_of_app in E by done. cbn [set_headers segment] in E.
  destruct l as [|e l].
  - destruct H as [Hs Hn]. rewrite Hs in E. cbn [app] in *.
    apply (open_ok [queued_event q] Hl []) in E as [((s & Hs' & Hm) & _ & Hv' & Hn' & Hp') Hh'].
    + split_and!; [done|done|by inversion Hp'|done|by exists s].
    + by apply (headers_ordered [queued_event q]).
    + done.
    + cbn. by rewrite Hn.
    + intros _ r fs. apply nothing_to_resume.
    + cbn. by rewrite Hp.
  - destruct H as (Hn & s & Hs & Hm). rewrite Hs in E. apply on_segment_Ok in E as (s0 & s1 & Hs0 & E & ->).
    cbn [set_headers segment] in Hs0. assert (s0 = s) as -> by congruence. apply Segment_write_Ok in E.
    split_and!; [done..|]. split; [done|]. exists s1. split; [done|]. by apply (segment_header (e :: l) _ (muxer s)).
Qed.

Lemma header_step l limits q c c' : headers_ok (Io := Io) (l ++ [queued_event q]) -> prelude_state l c ->
  process (Io := Io) limits q c = (Ok tt, c') -> prelude_state (l ++ [queued_event q]) c'.
Proof.
  intros Hl (Hh & Hv & Hp & H) E. unfold process in E. assert (replayed (Io := Io) (queued_event q)) as He
    by (destruct Hl as [Hl' _]; apply Forall_app in Hl' as [_ [? _]%Forall_cons_1]; done).
  apply mbind_se_Ok in E as ([] & c1 & E1 & E). apply on_files_Ok in E1 as (fs & E1%poll_keeps & ->).
  apply mbind_se_Ok in E as ([] & c2 & [= <-] & E). destruct (is_unsupported_video_event _); [done|].
  apply mbind_se_Ok in E as ([] & c3 & [= Hc3] & E). apply mbind_se_Ok in E as (b & c4 & E4 & E).
  assert (segment_headers c3 = headers_of l /\ video_seen c3 = has Tag_Video (l ++ [queued_event q]) /\
    published (files c3) = [] /\ segment c3 = segment c /\ next_segment_sequence c3 = next_segment_sequence c)
    as (Hh3 & Hv3 & Hp3 & Hs3 & Hn3).
  { subst c3. rewrite has_app, <- Hv. destruct (replayed_kind _ He) as [-> |[-> | ->]]; cbn [is_video tag_of];
      split_and!; try done; cbn; rewrite ?E1, ?orb_false_r, ?orb_true_r; done. }
  assert (b = false /\ segment_headers c4 = headers_of l /\ video_seen c4 = has Tag_Video (l ++ [queued_event q]) /\
    published (files c4) = [] /\ match l with
    | [] => segment c4 = None /\ next_segment_sequence c4 = 0
    | _ => 0 < next_segment_sequence c4 /\ exists s, segment c4 = Some s /\ segment_is l [] (muxer s)
    end) as (-> & Hh4 & Hv4 & Hp4 & H4).
  { rewrite <- Hs3, <- Hn3 in H. destruct l as [|e l].
    - unfold apply_limits in E4. rewrite (proj1 H) in E4. injection E4 as <- <-. done.
    - destruct H as (Hn & s & Hs & Hm). destruct (apply_limits_idle _ _ _ _ _ _ _ Hs Hm E4) as (-> & s' & -> & Hm').
      split_and!; try done. by exists s'. }
  apply mbind_se_Ok in E as ([] & c5 & E5 & [= <-]).
  assert (prelude_state (l ++ [queued_event q]) c5) as (P1 & P2 & P3 & P4).
  { apply (process_header_ok l q c4 c5 Hl Hh4 Hv4 Hp4 H4). destruct (replayed_kind _ He) as [Hk|[Hk|Hk]]; by rewrite Hk in E5. }
  by split_and!.
Qed.

Lemma prelude_run limits qs : forall l c c', headers_ok (Io := Io) (l ++ (queued_event <$> qs)) -> prelude_state l c ->
  process_all limits qs c = (Ok tt, c') -> prelude_state (l ++ (queued_event <$> qs)) c'.
Proof.
  induction qs as [|q qs IH]; intros l c c' Hl Hc E; cbn [process_all] in E.
  { injection E as <-. by rewrite app_nil_r. }
  apply mbind_se_Ok in E as ([] & c1 & E1 & E). rewrite fmap_cons, cons_middle, app_assoc in Hl |- *.
  apply (IH _ c1); [done| |done]. eapply header_step; [|done|done].
  destruct Hl as [H1 H2]. apply Forall_app in H1 as [H1 _]. rewrite fmap_app in H2. by apply NoDup_app in H2 as [H2 _].
Qed.
End Prelude.

(** ** The whole run *)

Section Run.
Context {F W Io T : Type} `{!WriteSeek W Io, !RecordedFile W Io, !RecorderFiles F W, !RecorderFilesLaws F W Io}.
Abbreviation Event := (MediaEvent T).
Abbreviation Context' := (WorkerContext F W T).

(** The messages of a segment and their times in it. *)
Definition group_times (pre g : list Event) : list (Z * Event) :=
  match g with
  | [] => []
  | first :: _ =>
      ((fun e => (0, e)) <$> codecs pre) ++ ((fun e => (frame_time 0 (timestamp_ms first) (timestamp_ms e), e)) <$> g)
  end.

Lemma segment_tags_times (pre g : list Event) :
  segment_tags pre g = (event_tag 0 <$> metas pre) ++ ((fun p => event_tag p.1 p.2) <$> group_times pre g).
Proof. unfold segment_tags, group_times. destruct g; [done|]. by rewrite fmap_app, <- !list_fmap_compose. Qed.

Lemma metas_tags (pre : list Event) : headers_ok (Io := Io) pre -> Forall metadata_tag (event_tag 0 <$> metas pre).
Proof.
  intros [Hr _]. apply Forall_fmap, Forall_forall. intros e He. unfold metas in He.
  apply list_elem_of_In, filter_In in He as [He Hm]. apply list_elem_of_In in He. apply bool_decide_eq_true in Hm.
  rewrite Forall_forall in Hr. destruct (Hr e He) as [[_ Hl]|[[Hk|Hk] _]]; [|congruence..].
  split; [by split|]. unfold event_tag. cbn [tag_type]. by rewrite Hm.
Qed.

(** A closed segment plays back. *)
Lemma segment_plays (pre g : list Event) (w : W) limit : headers_ok (Io := Io) pre -> Forall made_media (codecs pre ++ g) ->
  len (codecs pre ++ g) <= MAX_VOD_EVENTS -> segment_file pre w g ->
  parse_flv_events (contents w) limit = Some (Ok (played (Z.min limit u32_max) (group_times pre g))).
Proof.
  intros Hh Hm Hl (f & ->). rewrite segment_tags_times. apply parse_recorded; [by apply metas_tags| |].
  - unfold group_times. destruct g as [|first g]; [done|]. apply Forall_app in Hm as [Hc Hg].
    apply Forall_app. split; apply Forall_fmap.
    + eapply Forall_impl; [exact Hc|]. by split.
    + eapply Forall_impl; [exact Hg|]. intros e He. split; [by apply frame_time_range|done].
  - revert Hl. unfold group_times. destruct g as [|first g]; [done|]. unfold len. by rewrite !length_app, !length_fmap.
Qed.

Lemma keeps_sublist pre limits frames kept : keeps pre limits frames kept -> sublist (A := Event) kept frames.
Proof.
  induction 1 as [|frames kept e _ IH|frames kept e _ IH _]; [done|by apply sublist_app|]. etrans; [exact IH|]. by apply sublist_inserts_r.
Qed.

Lemma keeps_all pre limits (frames kept : list Event) : ~ limited limits -> keeps pre limits frames kept -> kept = frames.
Proof. intros Hl. induction 1 as [|frames kept e _ ->|frames kept e _ _ [Hd _]]; done. Qed.

Lemma group_sublist (groups : list (list Event)) g : g ∈ groups -> sublist g (concat groups).
Proof.
  intros (before & after & ->)%list_elem_of_split. rewrite concat_app. cbn [concat].
  apply sublist_inserts_l, sublist_inserts_r. done.
Qed.

Lemma groups_play pre limits frames groups (ws : list W) limit : headers_ok (Io := Io) pre ->
  Forall made_media (codecs pre ++ frames) -> len (codecs pre ++ frames) <= MAX_VOD_EVENTS ->
  keeps pre limits frames (concat groups) -> Forall2 (segment_file pre) ws groups ->
  Forall2 (fun w g => parse_flv_events (contents w) limit = Some (Ok (played (Z.min limit u32_max) (group_times pre g)))) ws groups.
Proof.
  intros Hh Hm Hl Hk Hw. assert (forall g, g ∈ groups -> sublist g frames) as Hg
    by (intros g ?; etrans; [by apply group_sublist|by eapply keeps_sublist]).
  clear Hk. induction Hw as [|w g ws groups Hw _ IH]; constructor.
  - assert (sublist (codecs pre ++ g) (codecs pre ++ frames)) as Hs by (apply sublist_app; [done|]; apply Hg, elem_of_cons; by left).
    rewrite Forall_forall in Hm.
    apply segment_plays; [done|apply Forall_forall; intros e ?; by eapply Hm, elem_of_sublist| |done]. apply sublist_length in Hs. unfold len in *. lia.
  - apply IH. intros g' ?. apply Hg, elem_of_cons. by right.
Qed.

Lemma run_worker_all limits (qs : list (QueuedMediaEvent (T := T))) (c : Context') :
  run_worker (Io := Io) limits (Next_Event <$> qs) c = (let! _ := process_all (Io := Io) limits qs in finish_segment (Io := Io)) c.
Proof.
  revert c. induction qs as [|q qs IH]; intros c; [done|]. cbn [fmap list_fmap run_worker process_all]. unfold mbind_se in *.
  destruct (process limits q c) as [[[]|e] c']; [apply IH|done].
Qed.

Lemma process_all_app limits (qs qs' : list (QueuedMediaEvent (T := T))) (c : Context') :
  process_all (Io := Io) limits (qs ++ qs') c =
  (let! _ := process_all (Io := Io) limits qs in process_all (Io := Io) limits qs') c.
Proof.
  revert c. induction qs as [|q qs IH]; intros c; [done|]. cbn [app process_all]. unfold mbind_se in *.
  destruct (process limits q c) as [[[]|e] c']; [apply IH|done].
Qed.

Lemma finish_published (pre : list Event) done g (c c' : Context') : records pre done g c -> finish_segment (Io := Io) c = (Ok tt, c') ->
  Forall2 (segment_file pre) (published (files c')) (done ++ [g]).
Proof.
  intros Hr E. unfold finish_segment in E. apply mbind_se_Ok in E as ([] & c1 & E1 & E).
  apply on_files_Ok in E1 as (f1 & E1%await_keeps & ->). apply mbind_se_Ok in E as ([] & c2 & E2 & E).
  apply on_files_Ok in E as (f3 & E3%await_keeps & ->). eapply records_files in Hr; [|exact E1].
  apply (finalization_ok _ _ _ _ _ Hr) in E2 as (_ & _ & _ & _ & H). cbn [set_files files]. by rewrite E3.
Qed.

(** C20: recording loses nothing at a rotation. Take a stream of the usual shape: its
    metadata, AAC and AVC headers, each at most once and before all frames, then
    frames of those codecs (key frames being of FLV type 1), from a key frame on if
    there is video, no more than the reader takes. A worker that records it into new files, under any limits and
    rotation interval, and ends without an error, has published files that play back,
    one after the other, exactly the frames that came, each file with the codec
    headers first, from a key frame on if there is video, and times from its first
    frame; only frames between key frames are ever left out, and only when a limit on
    the size or frames of a segment is set. (Other video codecs and headers repeated
    later are not covered: see [hevc_lost_at_rotation] and
    [header_lost_at_size_limit].) *)
Theorem recorder_segments_complete limits (headers frames : list (QueuedMediaEvent (T := T))) (fs : F) (c : Context') limit :
  let pre := queued_event <$> headers in
  (forall u fs r fs', resumable_segment (F := F) (W := W) u fs = (Ok r, fs') -> r = None) -> published fs = [] ->
  pre <> [] -> headers_ok (Io := Io) pre -> Forall (frame_ok (Io := Io) pre) (queued_event <$> frames) ->
  (forall q, head frames = Some q -> starting pre (queued_event q)) ->
  Forall made_media (codecs pre ++ (queued_event <$> frames)) -> len (codecs pre ++ (queued_event <$> frames)) <= MAX_VOD_EVENTS ->
  run_worker (Io := Io) limits (Next_Event <$> (headers ++ frames)) (WorkerContext_new fs) = (Ok tt, c) ->
  exists groups, keeps pre limits (queued_event <$> frames) (concat groups) /\ Forall (opens pre) groups /\
  Forall2 (fun w g => parse_flv_events (contents w) limit = Some (Ok (played (Z.min limit u32_max) (group_times pre g))))
    (published (files c)) groups.
Proof.
  intros pre Hnew Hfs Hne Hh Hf Hs Hm Hl E. rewrite run_worker_all in E. apply mbind_se_Ok in E as ([] & c2 & E & E2).
  rewrite process_all_app in E. apply mbind_se_Ok in E as ([] & c1 & E0 & E1).
  apply (prelude_run Hnew limits headers [] _ _ Hh) in E0; [|by split_and!]. cbn [app] in E0.
  apply (frames_ok pre Hh limits frames [] [] [] [] _ _ Hf) in E1 as (done & g & kept & [Hr Hk Ho] & Hkeep);
    [|intros _; exact Hs|by apply prelude_records|by constructor].
  exists (done ++ [g]). rewrite Hk. split_and!; [done|done|]. rewrite <- Hk in Hkeep.
  apply (finish_published _ _ _ _ _ Hr) in E2. by eapply groups_play.
Qed.
End Run.

(** ** A store in memory *)

#[export] Instance mem_recorder_files : RecorderFiles (list MemFile) MemFile := {
  poll_finalization fs := (Ok tt, fs);
  await_finalizations fs := (Ok tt, fs);
  reserve_finalization fs := (Ok tt, fs);
  final_name _ _ _ fs := (Ok [], fs);
  submit_finalization w _ fs := (Ok tt, fs ++ [w]);
  resumable_segment _ fs := (Ok None, fs);
  create_file _ _ fs := (Ok (mkMemFile [] 0), fs);
  still_wanted fs := (Ok tt, fs);
}.

#[export] Program Instance mem_recorder_laws : RecorderFilesLaws (list MemFile) MemFile Empty_set := {
  published fs := fs;
}.
Solve Obligations with (cbn; intros; simplify_eq; done).

Definition queue_at (e : MediaEvent unit) : QueuedMediaEvent (T := unit) := mkQueuedMediaEvent e (timestamp_ms e) 0.
Definition key_frame (t : Z) : MediaEvent unit := event_or (MediaEvent_video t [x17; x01; x00; x00; x00; x65]).
Definition inter_frame (t : Z) : MediaEvent unit := event_or (MediaEvent_video t [x27; x01; x00; x00; x00; x41]).

(** Metadata and an AVC header, then three key frames, two of them past the interval. *)
Definition stream_headers : list (QueuedMediaEvent (T := unit)) :=
  [queue_at (mkMediaEvent Metadata 0 [x02] None None None);
   queue_at (event_or (MediaEvent_video 0 [x17; x00; x00; x00; x00; x01]))].
Definition stream_frames : list (QueuedMediaEvent (T := unit)) :=
  queue_at <$> [key_frame 10; inter_frame 50; key_frame 1000; key_frame 1200; inter_frame 1240; key_frame 2500].
Definition rotating : RecorderLimits := mkRecorderLimits None None (Some 900).

Lemma stream_headers_ok : headers_ok (Io := Empty_set) (queued_event <$> stream_headers).
Proof.
  split; [|apply (bool_decide_unpack _); by vm_compute]. apply Forall_cons. split; [left; by vm_compute|].
  apply Forall_singleton. right. split; [right; by vm_compute|]. by vm_compute.
Qed.

Lemma stream_frames_ok : Forall (frame_ok (Io := Empty_set) (queued_event <$> stream_headers)) (queued_event <$> stream_frames).
Proof.
  assert (forall t, frame_ok (Io := Empty_set) (queued_event <$> stream_headers) (key_frame t)) as Hk
    by (intros t; split; [by split; [|split; [|left]]|by split]).
  assert (forall t, frame_ok (Io := Empty_set) (queued_event <$> stream_headers) (inter_frame t)) as Hi
    by (intros t; split; [by split; [|split; [|right]]|done]).
  unfold stream_frames. rewrite <- list_fmap_compose. rewrite !fmap_cons, !Forall_cons. cbn. split_and!; auto.
Qed.

Lemma stream_made : Forall made_media (codecs (queued_event <$> stream_headers) ++ (queued_event <$> stream_frames)).
Proof. unfold stream_frames. repeat (apply Forall_cons; split; [by split|]). by apply Forall_nil. Qed.

Lemma stream_starts q : head stream_frames = Some q -> starting (queued_event <$> stream_headers) (queued_event q).
Proof.
  intros Hq _. assert (head stream_frames = Some (queue_at (key_frame 10))) as E by (by vm_compute). rewrite E in Hq.
  apply (inj Some) in Hq as <-. by vm_compute.
Qed.

(** Three files, of two, three and one frames. *)
Lemma recorder_segments_complete_witness : exists c,
  run_worker (Io := Empty_set) rotating (Next_Event <$> (stream_headers ++ stream_frames)) (WorkerContext_new []) = (Ok tt, c) /\
  length (published (Io := Empty_set) (files c)) = 3%nat /\
  exists groups, concat groups = queued_event <$> stream_frames /\
  Forall2 (fun w g => parse_flv_events (contents w) 60000 = Some (Ok (played 60000 (group_times (queued_event <$> stream_headers) g))))
    (published (files c)) groups.
Proof.
  destruct (run_worker (Io := Empty_set) rotating (Next_Event <$> (stream_headers ++ stream_frames)) (WorkerContext_new []))
    as [r c] eqn:E. assert (r = Ok tt) as -> by (apply (f_equal fst) in E; vm_compute in E; by rewrite <- E).
  exists c. split; [done|]. split.
  { assert (length (files (snd (run_worker (Io := Empty_set) rotating (Next_Event <$> (stream_headers ++ stream_frames))
      (WorkerContext_new [])))) = 3%nat) as H by (by vm_compute). by rewrite E in H. }
  destruct (recorder_segments_complete rotating stream_headers stream_frames [] c 60000) as (groups & Hk & _ & Hp);
    [by intros ???? [= <- _]|done|done|apply stream_headers_ok|apply stream_frames_ok|apply stream_starts|apply stream_made|
     by vm_compute|exact E|].
  exists groups. split; [|exact Hp]. apply (keeps_all _ _ _ _) in Hk; [exact Hk|]. intros [H|H]; exact (H eq_refl).
Defined.

(** ** Where recordings go wrong *)

Definition recorded_files (limits : RecorderLimits) (events : list (MediaEvent unit)) : list MemFile :=
  files (snd (run_worker (Io := Empty_set) limits (Next_Event <$> (queue_at <$> events)) (WorkerContext_new []))).

Definition played_files (limits : RecorderLimits) (events : list (MediaEvent unit)) : list (option (result (list (MediaEvent unit)) VodError)) :=
  (fun w => parse_flv_events (contents w) u32_max) <$> recorded_files limits events.

Definition hevc_header : MediaEvent unit := event_or (MediaEvent_video 0 (x90 :: lit "hvc1" ++ [x01])).
Definition hevc_key (t : Z) : MediaEvent unit := event_or (MediaEvent_video t (x91 :: lit "hvc1" ++ [x65])).

(** HEVC and AV1 headers are recorded but not kept for the segments that follow: from
    the first rotation on no video of such a stream is recorded. *)
Theorem hevc_lost_at_rotation :
  kind hevc_header = HevcSequenceHeader /\ kind (hevc_key 0) = VideoKeyframe /\
  played_files rotating [hevc_header; hevc_key 0; hevc_key 1000; hevc_key 1040] =
  [Some (Ok [hevc_header; hevc_key 0]); Some (Ok [])].
Proof. by vm_compute. Qed.

Definition avc_header (b : byte) : MediaEvent unit := event_or (MediaEvent_video 0 [x17; x00; x00; x00; x00; b]).

(** A codec header that meets the size limit is dropped and not kept: the segment that
    its key frame starts has the header from before. *)
Theorem header_lost_at_size_limit :
  played_files (mkRecorderLimits None (Some 60) None) [avc_header x01; key_frame 0; avc_header x02; key_frame 40] =
  [Some (Ok [avc_header x01; key_frame 0]); Some (Ok [avc_header x01; key_frame 0])].
Proof. by vm_compute. Qed.

(** The recorder takes the enhanced codecs for supported. *)
Theorem enhanced_codecs_recorded :
  Forall (fun four_cc => recording_supported (FourCc four_cc) = true) [lit "avc1"; lit "hvc1"; lit "av01"] /\
  is_unsupported_video_event (hevc_key 0) = false.
Proof. split; [|done]. repeat (apply Forall_cons; split; [done|]). by apply Forall_nil. Qed.

(** A file that refuses to grow past its limit, and a store that resumes it. *)
Record QuotaFile : Type := mkQuotaFile { quota_file : MemFile; quota : Z }.

#[export] Instance quota_write_seek : WriteSeek QuotaFile unit := {
  write_all bs w :=
    if quota w <? mem_position (quota_file w) + len bs then (Err tt, w) else (Ok tt, mkQuotaFile (mem_write bs (quota_file w)) (quota w));
  stream_position w := (Ok (mem_position (quota_file w)), w);
  seek_start p w := (Ok tt, mkQuotaFile (mkMemFile (mem_bytes (quota_file w)) p) (quota w));
  flush w := (Ok tt, w);
}.

#[export] Instance quota_recorder_files : RecorderFiles QuotaFile QuotaFile := {
  poll_finalization fs := (Ok tt, fs);
  await_finalizations fs := (Ok tt, fs);
  reserve_finalization fs := (Ok tt, fs);
  final_name _ _ _ fs := (Ok [], fs);
  submit_finalization _ _ fs := (Ok tt, fs);
  resumable_segment _ fs :=
    (Ok ((fun '(flags, last_timestamp) => mkRecordingResume fs flags last_timestamp 0 0) <$>
         inspect_tail (mem_bytes (quota_file fs)) (len (mem_bytes (quota_file fs)))), fs);
  create_file _ _ fs := (Ok (mkQuotaFile (mkMemFile [] 0) (quota fs)), fs);
  still_wanted fs := (Ok tt, fs);
}.

(** A file that is resumed counts as without media, so its first frame does not rotate
    it when it is full: the write is refused and the recorder fails, where a segment
    of its own making would have been rotated. *)
Theorem resumed_full_file_fails :
  let limits := mkRecorderLimits None (Some 60) None in
  let record fs events := fst (run_worker (Io := unit) limits (Next_Event <$> (queue_at <$> events)) (WorkerContext_new fs)) in
  exists file, head (recorded_files limits [avc_header x01; key_frame 0]) = Some file /\ len (mem_bytes file) <= 60 /\
  record (mkQuotaFile (mkMemFile [] 0) 60) [avc_header x01; key_frame 0; key_frame 40] = Ok tt /\
  record (mkQuotaFile (mkMemFile (mem_bytes file) (len (mem_bytes file))) 60) [avc_header x01; key_frame 0] = Err Rec_Write.
Proof. eexists. split; [by vm_compute|]. split; [by vm_compute|]. split; by vm_compute. Qed.
